(* ===== verification/_CoqProject ===== *)
-Q . S2P
Prelude.v
PyStr.v
Telemetry.v
Governor.v
Reservations.v
Leases.v
Budgets.v
TypeIds.v
TypeExprs.v
Names.v
Grants.v
Widgets.v
Schema.v
Elaborate.v
Solve.v
Coerce.v
Graph.v
GraphWire.v
Search.v
Plan.v
Loops.v
Infer.v
Validate.v
Lower.v
Scheduler.v
Jobs.v
History.v
Queue.v
QueueRuns.v
Values.v
Cache.v
Resident.v
Sessions.v
Envelopes.v
Regions.v
SingleFlight.v
Principals.v
Admission.v
Expansions.v
