(* ===== verification/Prelude.v ===== *)
(** Dinkster, verified: a model of the typed core of Dinkster in Rocq.

    Dinkster runs workflows: documents of nodes, whose schemas are declared by
    packs, are elaborated, type-solved, lowered and planned, then executed by
    workers under a governed memory budget, in namespaces that the registry
    grants to publishers. The files below model the parts of that path that
    decide: what an interface is, what a document means, in which order it
    runs and how often, who may hold memory, who owns a name and may publish
    under it, which job runs next and what a restart still knows. Source paths are under src/packages/.

    ** Files

    - [Prelude]: the [result] type of fallible code with its tactics, dicts
      that keep insertion order ([dict_get], [dict_set], [dict_del]), sums,
      runs of a step relation ([star]) and sorted sets.
    - [PyStr]: the string operations and JSON-like values of the source.
      Strings are sequences of 8-bit characters read as Latin-1, which is
      exact for the grammars here, all of them ASCII.
    - [Governor] (dinkster-memory, governor.py): the memory governor. Its
      state is the record [MemoryGovernor], with the ledger of reservations
      and the registered consumers; a request is a thread of control in one of
      the states of [admission]; [step] interleaves requests, releases,
      registrations, budget changes and consumers that free what they like.
    - [Reservations] (reservations.py): an invocation's batch of reservations,
      one task that enters its classes in order, holds them and leaves.
    - [Leases] (leases.py): the lease broker; a lease is a holder task over a
      reservation, with its timer, its renewals and its peer's cancellation.
    - [Budgets] (budgets.py): sizes and the table of budgets.
    - [Telemetry] (governor.py, reported.py): measured memory, its wire form
      and the store of worker reports behind the probe.
    - [TypeIds] (dinkster-values: lists.py, tuples.py, streams.py, assets.py):
      the grammar of runtime type ids, its constructors, parsers and walks.
    - [TypeExprs] (dinkster-schema, model.py): type expressions.
    - [Names] (dinkster-values, names.py) and [Grants] (dinkster-registry,
      grants.py): the grammar of names and claims, coverage and conflict, and
      the table of grants with its transfers.
    - [Widgets], [Schema] (model.py): descriptors, inputs, outputs, dynamic
      constructs and node schemas. A dataclass is a record and its
      [__post_init__] a function [..._post_init] into [checked], so that an
      object of the source is a record whose check answers [Ok]. Checks are in
      the source's order, one function per block of a long one.
    - [Elaborate] (elaborate.py, output_descriptors.py): the effective
      interface of a node from its schema and what the document stores.
    - [Solve] (solve.py) and [Coerce] (coerce.py): binding of type variables,
      and the plans that convert between types.
    - [Graph] (dinkster-graph, model.py), [Search], [Plan] (plan.py), [Lower]
      (lower.py): documents and their snapshots, the stack-driven search the
      source writes in several places with paths that avoid a set, the order
      of execution, and the lowering of selectors.
    - [Loops], [Infer], [Validate] (validate.py): the pairing of loop
      boundaries; elaborated interfaces, region interfaces and the types of
      linked outputs; the checks of every level of a document. A level of the
      source ([_Level]) is the record [Level], a diagnostic [Diagnostic].
    - [GraphWire] (dinkster-graph, wire.py; dinkster-schema, type_wire.py):
      the JSON shape of documents and of the type expressions inside them, in
      both directions. [wire_fix] is the recursion every decoder goes through.
    - [Values] (dinkster-values: model.py, lists.py): value envelopes, their
      trees, the resources they reference and the bytes they declare.
    - [Cache] (dinkster-caches, memory.py): the memory cache. A put or a shed
      is a task, suspended where it awaits the lock or the persistence
      handler; [step] interleaves tasks with the operations that do not wait.
    - [Resident] (dinkster-memory: resident.py; dinkster-values: pins.py,
      resident.py, release.py): values that stay in a device's memory. Module
      [Pins] is the count of uses; the pool is a table of entries with their
      owners and dependents, over a backend (the class [Backend]) that holds
      the objects; the operations are a state monad and [step] interleaves
      them with what holders outside the pool do.
    - [Sessions] (dinkster-collab, sessions.py and store.py): collaborative
      sessions over their database, whose five tables are maps with the keys
      of the schema; every call may find the store failing, and the service
      may restart at any time.
    - [Envelopes] (dinkster-values: model.py, lists.py, absent.py; [Values]
      has the walks): how values are made: fingerprints over framed parts,
      lists that check their children, absent values.
    - [Scheduler] (dinkster-engine, engine.py): one level of a run: the plan
      of its strong edges, the ready set with its countdowns and releases, the
      tasks of its group. [dstep] interleaves tasks that start, end, fail and
      are cancelled.
    - [Regions] (engine.py): map and while regions: their bindings, their
      iterations, whose body is an argument, and the collection of outputs.
    - [SingleFlight] (engine.py): the end of a node's task: the table of
      futures that lets one task compute for all of its cache key, across the
      runs of an engine. [event] interleaves the tasks with the starts and
      ends of runs, cancellations, dying owners and condemned resources.
    - [Expansions] (dinkster-protocol, result_algebra.py; dinkster-engine,
      expansion.py and the expanding part of engine.py): fragments of nodes a
      result declares and their checks, their admission into the graph of a
      running level, and the level's record of which task demands which.
    - [Principals] (dinkster-registry, principals.py): users, publishers,
      memberships, tokens and their audit log, whose methods are a state monad
      with exceptions, and the restoring of a stored directory.
    - [Admission] (admission.py, model.py): the verdict on a submission, its
      recording, the index of releases, the lifecycle of a review.
    - [Jobs], [History] (dinkster-server, history.py; dinkster-assets,
      identity.py), [Queue] and [QueueRuns] (queue.py): a job and its content
      digest; the durable tables of accepted and ended jobs, their recovery
      and their pages; the queue with its dispatcher and the coroutine of each
      job, cut at its awaits and interleaved by [qstep]; what its runs
      guarantee. The class [QueuePersistence] is the protocol of queue.py,
      [DurableStore] what the queue relies on, and [History] is an instance.

    [Schema] is what [Elaborate], [Plan] and [Lower] take from the catalog;
    [Validate] calls [Elaborate], [Solve], [Coerce], [Plan] and [Loops];
    [TypeIds] is under [TypeExprs], which [Solve] and [Coerce] relate to
    runtime ids; [GraphWire] decodes into [Graph] and [TypeExprs]; [Names] is
    under [Grants] and [Principals]; [Admission] decides with [Grants] which
    claims a submission needs and records them there; [Scheduler] plans with
    [Graph] and [Plan], and its levels are what an iteration of [Regions]
    runs, between the interfaces of [Infer] and the values of [Envelopes];
    [Expansions] decodes literals with [GraphWire], elaborates with [Infer] and
    validates each overlay with [Validate]; [SingleFlight] pins with the module
    [Pins] of [Resident], and its outputs retire when a level of [Scheduler]
    says so; [Queue] admits documents with [Lower], digests them with
    [GraphWire] and writes through [History]; [Reservations] and [Leases] are
    clients of [Governor], whose requests their tasks are; [Governor] takes its probe from [Telemetry], and asks its
    consumers, of which [Cache] and the pool of [Resident] are two, for what
    the class [HonestShedder] states.

    ** Theorems

    - The governor never grants past a budget, in any interleaving of
      requests ([grant_within_budget]); its ledger is the sum of what live
      requests hold ([ledger_matches_holders]); a waiting request has a holder
      whose release wakes it ([waiter_is_woken]); the loop between two waits
      ends in three rounds whatever its environment does, and what it grants
      is what was asked for and fits where it is granted
      ([admission_settles]); shedding asks in order and no more than needed
      ([shed_asks_in_order]).
    - Batches of reservations never wait for one another in a circle
      ([batches_never_deadlock]) and end when nothing new comes
      ([batches_always_finish]); inside its body a batch holds what it asked
      for. Leases are backed by reservations ([leases_are_backed]), give way
      when their peer dies ([dead_peers_give_way]) and drain once the broker
      is closed. Parsed budgets start a governor.
    - Plans are topological orders of exactly what the targets need, or there
      is a cycle ([plan_is_a_topological_order]), which the cycle search finds
      ([find_cycle_exact]).
    - A document that validates without errors is sound at every nesting level
      ([accepted_documents_are_sound]) and has a plan in which everything a
      node links to comes first ([accepted_documents_have_a_plan]); loops pair
      like parentheses ([loops_pair_and_nest]); the types of linked outputs
      are a fixpoint ([output_types_are_a_fixpoint]).
    - Lowering a document changes nothing it computes at its targets under
      lazy evaluation, for any meaning of literals and of other nodes
      ([lowering_preserves_values], a refinement against [value_of]); it
      resolves stored choices and always answers.
    - Elaboration yields ordinary schemas, records exactly the consumed
      choices and reads stored values only where declared.
    - Solving is exact and does not depend on the order of inputs, against the
      declarative [solves]; coercion plans are exactly the admissible steps.
    - A level that ends without an error has computed what its plan says, in
      whatever order its tasks ended ([level_computes_the_plan]); what a
      started node reads is still there ([outputs_live_while_needed]); after a
      failure nothing that depends on it starts ([failure_stops_the_level]);
      no run of a level is infinite ([levels_end]); and the plan is the one of
      the document without its lazy links ([strong_plan_is_a_plan]).
    - A region runs its body once per binding and collects what each output's
      mode says ([region_outputs_are_exact]); the bindings are exact
      ([bindings_are_exact]); maps do not depend on the order in which their
      tasks end ([maps_run_in_any_order]); while regions end
      ([while_regions_end]); absent inputs skip the region
      ([absence_skips_regions]); collected lists have the declared type
      ([region_outputs_are_typed]).
    - One task computes for a cache key at a time ([single_flight]), every
      task comes to an end ([flights_land]), cancelling one run does not
      cancel or fail another ([cancellation_is_private]), a shared or cached
      answer is right for its key ([answers_keep_their_key]), and what a live
      run has answered stays pinned, also once it has retired from the run's
      outputs ([live_outputs_stay_pinned]).
    - A fragment is accepted exactly when it is sorted, closed and acyclic
      ([fragments_are_acyclic]); an admitted one extends a graph that still
      validates, with its inputs bound as declared
      ([admission_extends_the_graph]); and however expansions follow one
      another, tasks of a level come to demand each other in a circle only
      through a lazy input of an added node
      ([only_lazy_children_deadlock]), or when a literal hides a link; that
      both happen is shown by two lemmas
      ([lazy_demand_is_missed], [hidden_link_deadlocks]).
    - Grants are exclusive in every reachable table; claims that cover one
      node type conflict.
    - The publish gate is exact ([verdicts_are_exact]), when what it lets
      through can be recorded and what that does is exact too
      ([admitted_submissions_publish]), recording is by owners of the names
      alone ([publishing_needs_ownership]), what is published is what an
      attempt that passed the gate submitted and never changes
      ([published_versions_never_change]), and the histories of
      reviews are exactly the lawful ones ([review_histories_are_lawful]).
      [grants_without_release] is what a refused recording leaves behind.
    - Calls of the directory of principals refine a specification of their
      effects ([calls_follow_the_rules]); changes are recorded with someone
      who may make them ([changes_are_authorized]); tokens die with their
      minter's membership ([tokens_die_with_membership]) and verify until then
      ([minted_tokens_verify]); publishers keep an owner
      ([publishers_keep_an_owner]); a stored directory comes back
      ([restore_roundtrip]), though [restore] trusts more than it says
      ([restore_trusts_minters]).
    - The memory cache keeps its limits, evicts nothing before it is persisted
      and never yields an entry of a dropped resource, in every interleaving;
      it keeps the governor's contract ([cache_shed_is_honest]).
    - A resident reference that a live holder keeps always resolves
      ([held_references_resolve]), since the pool's tables agree in every
      reachable state ([pool_stays_consistent]), entries in use are not
      released ([used_residents_are_not_released]), a removal takes exactly
      the dependents ([removal_takes_the_dependents]) and what a shed reports
      was freed by the backend ([resident_shed_is_backed]).
    - An acknowledged operation of a session is never lost or moved
      ([acknowledged_operations_are_kept]), a restart brings back every open
      session whose creation the store took, and all of them when it took
      every creation ([restart_brings_sessions_back]; a session it did not
      take can block the restart, [unstored_session_blocks_restart]), sending an operation again is
      safe ([append_is_idempotent]) and catching up is exact
      ([ops_after_is_the_tail]), across calls, store failures and restarts.
    - Dispatch takes the first jobs and keeps to the limit
      ([dispatch_takes_the_first]), no wakeup is lost ([no_wakeup_is_lost]),
      a job lives once ([job_lives_once]), the queue's tables agree and are
      bounded ([tables_agree]), submitting again is safe
      ([resubmission_answers_the_job]), and with [History] below it no
      accepted job is lost by a crash ([no_accepted_job_is_lost]). Recovery
      settles every job once ([recovery_settles_every_job]) and following the
      cursors reads every record once ([pages_cover_the_history]).
    - Encoding a document and decoding it gives the document back
      ([graph_wire_roundtrip]); what decodes can be sent again; the decoder
      refuses with its own error alone, but for two leaks stated as lemmas
      ([unhashable_name_escapes], [long_decimal_escapes]).
    - Type ids and their parsers are exact; the snapshot of a run equals its
      document.

    ** Bounds and fuel

    Recursion that is not structural carries fuel, which the definition that
    starts it computes and a lemma shows to be enough: [search] has one more
    than its stack and all successors ([search_ends]), [kahn_loop] one more
    than the nodes, [visit] one more than the nodes since each nested visit
    colours one, [lower_loop] one more than the nodes since each round removes
    one or sets it aside ([lower_loop_ends]), [prune_loop] likewise
    ([prune_loop_rounds]), [pair_loop] one more than the ends
    ([pair_loop_ok]), the walks of [TypeIds] the length of the id, [wire_fix]
    the depth of the value, the walk of unsafe integers the size of the
    value, [remove_tree] the number of ids it may visit, [fill] the jobs that
    wait ([fill_done]), [all_pages] one more than the records, [retire] one
    more than the edges of its level, [strong_loop] one more than its nodes,
    [while_loop] one more than the limit, [cycle_loop] and [demand_loop] two
    and one more than their nodes and edges, since a visit pushes a node's
    edges once. [rid_for] carries the
    interpreter's stack as its fuel, and answers the error that running out of
    stack raises. [admit_loop] is a loop over an environment and
    [admission_settles] bounds it. Integers are Python's, unbounded; where the
    source bounds them (widgets' wire range, the integers JSON readers agree
    on, family and interface budgets) the checks are modelled.

    ** Not modelled

    Checks that an object has its annotated type are vacuous, since records
    are typed; fields that only present a node are left out, as are a schema's
    [replacements]. [json.loads] is an argument of [elaborate], which relies
    on nothing of it. Error messages are kept as tags, without the values
    they quote. The interpreter's recursion limit and floating-point printing
    are not modelled elsewhere than in [Resident]; finite floats are exact
    dyadics. Times are numbers that never go
    back, identifiers and references are given fresh; SQLite's transactions
    are atomic, and its text columns hold the values they encode. Of the
    engine, lazy inputs of the static scheduler, run control, cache keys,
    events and artifacts are left out; a level that expands is modelled by what
    its tasks demand of one another ([Expansions]), not by the interleaving of
    the tasks, which [Scheduler] gives for the levels without expansion or lazy
    inputs; that a task may also wait for one of its cache key is
    [SingleFlight]'s, and not among those demands. In [SingleFlight] a task is
    cancelled only by cancelling it, and the cache's store and the worker
    answer as the environment likes. Timestamps, hashes, version parsing and
    the order in which Python walks a set are arguments of [Principals] and
    [Admission]; template catalogs and JSON records of releases are reads and
    left out, and so are the registry's installer and its archives, which work
    on files. The migration of old documents and databases, the JSON form and
    replacement rules of schemas, the layered caches and compilation are left
    out too: nothing modelled depends on them. HTTP handlers, workers,
    servers, codecs and node packs are I/O or third-party code. *)
From stdpp Require Export base tactics option list numbers strings pretty gmap fin_maps sorting.
From Stdlib Require Export Lia.

Set Default Proof Using "Type".

(** * Fallible computations: a Python call returns or raises *)

Inductive result (E A : Type) : Type :=
| Ok (a : A)
| Err (e : E).
Arguments Ok {E A} a.
Arguments Err {E A} e.

#[export] Instance result_ret {E} : MRet (result E) := fun A a => Ok a.
#[export] Instance result_bind {E} : MBind (result E) :=
  fun A B k m => match m with Ok a => k a | Err e => Err e end.
#[export] Instance result_fmap {E} : FMap (result E) :=
  fun A B f m => match m with Ok a => Ok (f a) | Err e => Err e end.
#[export] Instance result_eq_dec {E A} `{EqDecision E, EqDecision A} : EqDecision (result E A).
Proof. solve_decision. Defined.

Definition is_ok {E A} (r : result E A) : bool :=
  match r with Ok _ => true | Err _ => false end.

(** [raise_if c e] is the source's [if c: raise e]. *)
Definition raise_if {E} (c : bool) (e : E) : result E unit :=
  if c then Err e else Ok tt.

Lemma bind_ok {E A B} (m : result E A) (k : A -> result E B) b :
  m ≫= k = Ok b <-> exists a, m = Ok a /\ k a = Ok b.
Proof.
  destruct m as [a|e]; unfold mbind; simpl; split.
  - eauto.
  - intros (a' & [= ->] & H). exact H.
  - discriminate.
  - intros (a' & [=] & _).
Qed.

Lemma raise_if_ok {E} (c : bool) (e : E) u : raise_if c e = Ok u <-> c = false.
Proof. destruct u, c; simpl; naive_solver. Qed.

(** [result_steps] opens every bind, guard and match of a hypothesis that says
    a handler returned. *)
Ltac result_step :=
  match goal with
  | H : _ ≫= _ = Ok _ |- _ => apply bind_ok in H as (? & ? & H)
  | H : raise_if _ _ = Ok _ |- _ => apply raise_if_ok in H
  | H : Ok _ = Ok _ |- _ => injection H as H; try subst
  | H : Err _ = Ok _ |- _ => discriminate H
  | H : Ok _ = Err _ |- _ => discriminate H
  | H : mret _ = Ok _ |- _ => unfold mret, result_ret in H
  end.
Ltac result_steps := repeat (result_step; simplify_eq/=).

(** [break] splits on the scrutinee of one match in a hypothesis or the goal. *)
Ltac break_hyp :=
  match goal with
  | H : context [match ?x with _ => _ end] |- _ => destruct x eqn:?; simplify_eq/=
  end.
Ltac break_goal :=
  match goal with
  | |- context [match ?x with _ => _ end] => destruct x eqn:?; simplify_eq/=
  end.

(** * Methods: they return or raise, and what they changed stays changed *)

Definition method (St E A : Type) : Type := St -> result E A * St.

#[export] Instance method_ret {St E} : MRet (method St E) := fun A a s => (Ok a, s).
#[export] Instance method_bind {St E} : MBind (method St E) := fun A B k m s =>
  match m s with (Ok a, s') => k a s' | (Err e, s') => (Err e, s') end.

Definition get_state {St E} : method St E St := fun s => (Ok s, s).
Definition put_state {St E} (s : St) : method St E unit := fun _ => (Ok tt, s).
Definition lift_result {St E A} (r : result E A) : method St E A := fun s => (r, s).

Lemma method_bind_ok {St E A B} (m : method St E A) (k : A -> method St E B) (s s2 : St) b :
  (m ≫= k) s = (Ok b, s2) <-> exists a s1, m s = (Ok a, s1) /\ k a s1 = (Ok b, s2).
Proof.
  unfold mbind, method_bind. destruct (m s) as [[a|e] s1]; split.
  - intros Hk. by exists a, s1.
  - by intros (? & ? & [= <- <-] & Hk).
  - done.
  - by intros (? & ? & [=] & _).
Qed.

(** [method_steps] opens the binds of a hypothesis that a method returned. *)
Ltac method_step :=
  match goal with
  | H : (_ ≫= _) _ = (Ok _, _) |- _ => apply method_bind_ok in H as (? & ? & ? & H)
  | H : get_state _ = (Ok _, _) |- _ => unfold get_state in H; injection H as ? ?; subst
  | H : put_state _ _ = (Ok _, _) |- _ => unfold put_state in H; injection H as ?; subst
  | H : lift_result _ _ = (Ok _, _) |- _ => unfold lift_result in H; injection H as ? ?; subst
  | H : mret _ _ = (Ok _, _) |- _ => unfold mret, method_ret in H; injection H as ? ?; subst
  | H : raise_if _ _ = Ok _ |- _ => apply raise_if_ok in H
  end.
Ltac method_steps := repeat (method_step; simplify_eq).

(** ** Some element passes a test *)

Lemma existsb_spec {A} (f : A -> bool) l : existsb f l = true <-> exists x, x ∈ l /\ f x = true.
Proof. rewrite List.existsb_exists. by setoid_rewrite list_elem_of_In. Qed.

Lemma existsb_false {A} (f : A -> bool) l : existsb f l = false <-> forall x, x ∈ l -> f x = false.
Proof.
  rewrite <- not_true_iff_false, existsb_spec. split.
  - intros H x Hx. destruct (f x) eqn:E; [|done]. exfalso. eauto.
  - intros H (x & Hx & Hf). by rewrite (H x Hx) in Hf.
Qed.

(** * Insertion-ordered dictionaries *)

(** A Python [dict] keeps the order in which its keys were first inserted;
    assigning to a present key leaves its position alone. *)
Section odict.
Context {K V : Type} `{EqDecision K}.
Implicit Types (d : list (K * V)) (k : K) (v : V).

Fixpoint dict_get d k : option V :=
  match d with
  | [] => None
  | (k', v) :: d' => if decide (k = k') then Some v else dict_get d' k
  end.

Fixpoint dict_set d k v : list (K * V) :=
  match d with
  | [] => [(k, v)]
  | (k', v') :: d' => if decide (k = k') then (k', v) :: d' else (k', v') :: dict_set d' k v
  end.

Fixpoint dict_del d k : list (K * V) :=
  match d with
  | [] => []
  | (k', v') :: d' => if decide (k = k') then d' else (k', v') :: dict_del d' k
  end.

Definition dict_mem d k : bool :=
  match dict_get d k with Some _ => true | None => false end.

Definition keys d : list K := d.*1.

Lemma dict_get_set d k k' v :
  dict_get (dict_set d k v) k' = if decide (k' = k) then Some v else dict_get d k'.
Proof.
  induction d as [|[a b] d IH]; simpl.
  - done.
  - repeat case_decide; simpl; repeat case_decide; simplify_eq; auto.
Qed.

Lemma keys_dict_set d k v :
  keys (dict_set d k v) = if dict_mem d k then keys d else keys d ++ [k].
Proof.
  unfold dict_mem. induction d as [|[a b] d IH]; simpl; [done|].
  case_decide; subst; simpl; [done|].
  rewrite IH. by destruct (dict_get d k).
Qed.

Lemma dict_get_None d k : dict_get d k = None <-> k ∉ keys d.
Proof.
  induction d as [|[a b] d IH]; simpl.
  - split; [intros _; apply not_elem_of_nil | done].
  - rewrite not_elem_of_cons. case_decide; subst; naive_solver.
Qed.

Lemma dict_get_elem d k v : dict_get d k = Some v -> (k, v) ∈ d.
Proof.
  induction d as [|[a b] d IH]; simpl; [done|].
  case_decide; intros; simplify_eq; set_solver.
Qed.

Lemma elem_dict_get d k v : NoDup (keys d) -> (k, v) ∈ d -> dict_get d k = Some v.
Proof.
  induction d as [|[a b] d IH]; simpl; intros Hnd Hin.
  - by apply not_elem_of_nil in Hin.
  - apply NoDup_cons in Hnd as [Hna Hnd].
    apply elem_of_cons in Hin as [[= -> ->]|Hin]; [by rewrite decide_True|].
    rewrite decide_False; [by apply IH|].
    intros ->. apply Hna. apply list_elem_of_fmap. by exists (a, v).
Qed.

Lemma dict_mem_true d k : dict_mem d k = true <-> k ∈ keys d.
Proof.
  unfold dict_mem. destruct (dict_get d k) eqn:E.
  - split; [intros _|done]. apply dict_get_elem in E.
    apply list_elem_of_fmap. by exists (k, v).
  - apply dict_get_None in E. split; [done | intros; contradiction].
Qed.

Lemma NoDup_dict_set d k v : NoDup (keys d) -> NoDup (keys (dict_set d k v)).
Proof.
  intros Hnd. rewrite keys_dict_set. destruct (dict_mem d k) eqn:E; [done|].
  apply NoDup_app; split; [done|]. split.
  - intros x Hx ->%list_elem_of_singleton. apply dict_mem_true in Hx. congruence.
  - apply NoDup_singleton.
Qed.

Lemma dict_set_elem d k v x : x ∈ dict_set d k v -> x = (k, v) \/ x ∈ d.
Proof.
  induction d as [|[a b] d IH]; simpl; [by intros ->%list_elem_of_singleton; left|].
  case_decide as Hk; intros [->|Hx]%elem_of_cons; subst; [by left|right; by right|right; by left|].
  destruct (IH Hx) as [->|]; [by left|right; by right].
Qed.

Lemma dict_del_elem d k x : x ∈ dict_del d k -> x ∈ d.
Proof.
  induction d as [|[a b] d IH]; simpl; [done|].
  case_decide; rewrite ?elem_of_cons; naive_solver.
Qed.

Lemma keys_dict_del_elem d k x : x ∈ keys (dict_del d k) -> x ∈ keys d.
Proof.
  intros [y [-> Hy]]%list_elem_of_fmap. apply list_elem_of_fmap. exists y.
  split; [done|]. by apply dict_del_elem in Hy.
Qed.

Lemma NoDup_dict_del d k : NoDup (keys d) -> NoDup (keys (dict_del d k)).
Proof.
  induction d as [|[a b] d IH]; simpl; [done|].
  rewrite NoDup_cons. intros [Ha Hd]. case_decide; [done|]. simpl.
  apply NoDup_cons; split; [|by apply IH].
  intros Hin. by apply Ha, (keys_dict_del_elem _ k).
Qed.

Lemma dict_get_del d k k' :
  NoDup (keys d) -> dict_get (dict_del d k) k' = if decide (k' = k) then None else dict_get d k'.
Proof.
  induction d as [|[a b] d IH]; simpl; intros Hnd.
  - by case_decide.
  - apply NoDup_cons in Hnd as [Ha Hd].
    destruct (decide (k = a)) as [->|Hka].
    + repeat case_decide; subst; try done. by apply dict_get_None.
    + simpl. rewrite IH by done. repeat case_decide; subst; done.
Qed.

Lemma elem_keys_set d k v k' : k' ∈ keys (dict_set d k v) <-> k' = k \/ k' ∈ keys d.
Proof.
  rewrite <- !dict_mem_true. unfold dict_mem. rewrite dict_get_set. destruct (decide (k' = k)) as [->|]; [|naive_solver]. split; [by left|done].
Qed.

Lemma dict_get_app (d1 d2 : list (K * V)) k :
  dict_get (d1 ++ d2) k =
  match dict_get d1 k with Some v => Some v | None => dict_get d2 k end.
Proof. induction d1 as [|[a b] d1 IH]; simpl; [done|]. by case_decide. Qed.

(** The keys of a dict that is built entry by entry. *)
Lemma keys_middle (l l' : list (K * V)) k v : NoDup (keys (l ++ (k, v) :: l')) -> k ∉ keys l /\ NoDup (keys ((l ++ [(k, v)]) ++ l')).
Proof.
  unfold keys. rewrite <- app_assoc. cbn [app]. intros Hnd. split; [|done]. rewrite fmap_app in Hnd. apply NoDup_app in Hnd as (_ & Hnd & _).
  intros Hk. apply (Hnd k Hk). left.
Qed.

Lemma dict_set_fresh d k v : k ∉ keys d -> dict_set d k v = d ++ [(k, v)].
Proof.
  induction d as [|[a b] d IH]; [done|]. intros [Hne Hk]%not_elem_of_cons. cbn. rewrite decide_False by done. by rewrite IH.
Qed.

(** Assigning to a present key replaces its entry where it stands. *)
Lemma dict_set_at d1 d2 k v v' : NoDup (keys (d1 ++ (k, v) :: d2)) -> dict_set (d1 ++ (k, v) :: d2) k v' = d1 ++ (k, v') :: d2.
Proof.
  induction d1 as [|[a b] d1 IH]; cbn; intros Hnd; [by rewrite decide_True|]. apply NoDup_cons in Hnd as [Ha Hnd].
  rewrite decide_False; [by rewrite IH|]. intros ->. apply Ha. unfold keys. rewrite fmap_app. apply elem_of_app. right. left.
Qed.
End odict.

(** * Lists of lists *)

Lemma elem_of_concat_map {A B} (f : A -> list B) (l : list A) y : y ∈ concat (map f l) <-> exists x, x ∈ l /\ y ∈ f x.
Proof.
  induction l as [|x l IH]; cbn; [set_solver|]. rewrite elem_of_app, IH. set_solver.
Qed.

(** * Sums of integers *)

Fixpoint zsum (l : list Z) : Z :=
  match l with
  | [] => 0%Z
  | z :: l' => (z + zsum l')%Z
  end.

Lemma zsum_app l1 l2 : zsum (l1 ++ l2) = (zsum l1 + zsum l2)%Z.
Proof. induction l1; simpl; lia. Qed.

#[export] Instance zsum_perm : Proper (Permutation ==> eq) zsum.
Proof. intros l1 l2 H. induction H; simpl; lia. Qed.

Lemma zsum_nonneg l : Forall (fun z => 0 <= z)%Z l -> (0 <= zsum l)%Z.
Proof. induction 1; simpl; lia. Qed.

Lemma zsum_pos_elem {A} (f : A -> Z) l : (0 < zsum (f <$> l))%Z -> exists x, x ∈ l /\ (0 < f x)%Z.
Proof.
  induction l as [|a l IH]; csimpl; [lia|]. intros H.
  destruct (decide (0 < f a)%Z).
  - exists a. split; [set_solver|done].
  - destruct IH as (x & ? & ?); [lia|]. exists x. split; [set_solver|done].
Qed.

(** * Runs of a step relation *)

Inductive star {A} (R : A -> A -> Prop) : A -> A -> Prop :=
| star_refl a : star R a a
| star_step a b c : R a b -> star R b c -> star R a c.

Lemma star_invariant {A} (R : A -> A -> Prop) (I : A -> Prop) :
  (forall a b, I a -> R a b -> I b) -> forall a b, star R a b -> I a -> I b.
Proof. intros HR a b Hs. induction Hs; eauto. Qed.

Lemma star_one {A} (R : A -> A -> Prop) a b : R a b -> star R a b.
Proof. intros H. eapply star_step; [exact H | apply star_refl]. Qed.

#[export] Instance star_trans {A} (R : A -> A -> Prop) : Transitive (star R).
Proof. intros a b c Hab. induction Hab; [done|]. intros. eapply star_step; eauto. Qed.

(** A relation that decreases a pair of measures has no infinite run. *)
Lemma lex_acc {A} (R : A -> A -> Prop) (f g : A -> nat) :
  (forall x y, R x y -> f y < f x \/ (f y <= f x /\ g y < g x)) -> forall x, Acc (flip R) x.
Proof.
  intros HR x. remember (f x) as n eqn:Hn. revert x Hn.
  induction n as [n IHf] using lt_wf_ind. intros x Hn. remember (g x) as m eqn:Hm.
  revert n IHf x Hn Hm. induction m as [m IHg] using lt_wf_ind. intros n IHf x -> ->.
  constructor. intros y Hy%HR. destruct (decide (f y < f x)) as [Hlt|Hge]; [by eapply IHf|].
  eapply IHg; [|exact IHf| |reflexivity]; lia.
Qed.

(** * Sums over the values of a map *)

Section map_sum.
Context {K V : Type} `{Countable K} (f : V -> nat).

Definition map_sum (m : gmap K V) : nat := sum_list_with f (map_to_list m).*2.

Lemma map_sum_insert_new m k v : m !! k = None -> map_sum (<[k := v]> m) = f v + map_sum m.
Proof. intros Hk. unfold map_sum. by rewrite map_to_list_insert. Qed.

Lemma map_sum_insert m k v v0 : m !! k = Some v0 ->
  map_sum (<[k := v]> m) + f v0 = map_sum m + f v.
Proof.
  intros Hk. rewrite <- (insert_delete_eq m k v). rewrite <- (insert_delete_id m k v0 Hk) at 2.
  rewrite !map_sum_insert_new by apply lookup_delete_eq. lia.
Qed.
End map_sum.

(** * Automation shared by the component files *)

Create HintDb dinkster discriminated.
#[export] Hint Resolve NoDup_dict_set NoDup_dict_del : dinkster.
#[export] Hint Constructors star : dinkster.

(** [sorted(s)] of a set of strings. *)
Definition sorted_set (s : gset string) : list string := merge_sort String.le (elements s).

Lemma sorted_set_perm s : sorted_set s ≡ₚ elements s.
Proof. apply merge_sort_Permutation. Qed.

Lemma elem_of_sorted_set s x : x ∈ sorted_set s <-> x ∈ s.
Proof. by rewrite sorted_set_perm, elem_of_elements. Qed.

Lemma NoDup_sorted_set s : NoDup (sorted_set s).
Proof. rewrite sorted_set_perm. apply NoDup_elements. Qed.

Lemma sorted_set_sorted s : StronglySorted String.le (sorted_set s).
Proof. apply StronglySorted_merge_sort; apply _. Qed.

(** * Sorted lists and set sizes *)

Lemma StronglySorted_filter {A} (R : A -> A -> Prop) (P : A -> Prop) `{forall x, Decision (P x)} l :
  StronglySorted R l -> StronglySorted R (filter P l).
Proof.
  induction 1 as [|x l Hl IH Hx]; [constructor|]. rewrite filter_cons. case_decide; [|done].
  constructor; [done|]. rewrite Forall_forall in *. intros y [_ Hy]%list_elem_of_filter. auto.
Qed.

Lemma StronglySorted_impl {A} (R S : A -> A -> Prop) l : (forall a b, R a b -> S a b) ->
  StronglySorted R l -> StronglySorted S l.
Proof. intros Himp. induction 1 as [|a l _ IH Ha]; constructor; [done|]. eapply List.Forall_impl; [|exact Ha]. auto. Qed.

Lemma size_union_bound `{Countable A} (X Y : gset A) : (size (X ∪ Y) <= size X + size Y)%nat.
Proof. rewrite size_union_alt. apply Nat.add_le_mono_l, subseteq_size. set_solver. Qed.
