(* ===== verification/PyStr.v ===== *)
(** PyStr: the string methods and dynamically typed values of Python the
    modelled code uses.  A [str] is a [string], one [ascii] per code point:
    the alphabet is Latin-1, code points 0 to 255. *)
From S2P Require Import Prelude.
From Stdlib Require Import SpecFloat.

Local Open Scope string_scope.

(** * Characters *)

Definition code (c : Ascii.ascii) : N := Ascii.N_of_ascii c.

Definition in_range (lo hi : N) (c : Ascii.ascii) : bool :=
  (lo <=? code c)%N && (code c <=? hi)%N.

(** [str.isspace] of one character. *)
Definition char_isspace (c : Ascii.ascii) : bool :=
  in_range 9 13 c || in_range 28 32 c || (code c =? 133)%N || (code c =? 160)%N.

Definition char_decimal (c : Ascii.ascii) : bool := in_range 48 57 c.

(** [str.isdigit] of one character: the decimal digits and the superscripts
    two, three and one, which are digits and no decimals. *)
Definition char_isdigit (c : Ascii.ascii) : bool :=
  char_decimal c || (code c =? 178)%N || (code c =? 179)%N || (code c =? 185)%N.

(** [str.lower] of one character. *)
Definition char_lower (c : Ascii.ascii) : Ascii.ascii :=
  if in_range 65 90 c || (in_range 192 222 c && negb (code c =? 215)%N)
  then Ascii.ascii_of_N (code c + 32) else c.

(** * Strings *)

Fixpoint str_all (p : Ascii.ascii -> bool) (s : string) : bool :=
  match s with
  | EmptyString => true
  | String c s' => p c && str_all p s'
  end.

Fixpoint str_any (p : Ascii.ascii -> bool) (s : string) : bool :=
  match s with
  | EmptyString => false
  | String c s' => p c || str_any p s'
  end.

Fixpoint str_map (f : Ascii.ascii -> Ascii.ascii) (s : string) : string :=
  match s with
  | EmptyString => EmptyString
  | String c s' => String (f c) (str_map f s')
  end.

(** [s[n:]] and [s[:n]] for a non-negative [n]. *)
Fixpoint str_drop (n : nat) (s : string) : string :=
  match n, s with
  | S n', String _ s' => str_drop n' s'
  | _, _ => s
  end.

Fixpoint str_take (n : nat) (s : string) : string :=
  match n, s with
  | S n', String c s' => String c (str_take n' s')
  | _, _ => EmptyString
  end.

(** [s[a:-b]]. *)
Definition str_slice (a b : nat) (s : string) : string :=
  str_drop a (str_take (String.length s - b) s).

Definition startswith (p s : string) : bool := String.prefix p s.

Definition endswith (q s : string) : bool :=
  (String.length q <=? String.length s)%nat &&
  String.eqb (str_drop (String.length s - String.length q) s) q.

Definition str_lower (s : string) : string := str_map char_lower s.

Definition str_isdigit (s : string) : bool :=
  match s with EmptyString => false | _ => str_all char_isdigit s end.

Fixpoint lstrip (s : string) : string :=
  match s with
  | EmptyString => EmptyString
  | String c s' => if char_isspace c then lstrip s' else s
  end.

Fixpoint rstrip (s : string) : string :=
  match s with
  | EmptyString => EmptyString
  | String c s' =>
      match rstrip s' with
      | EmptyString => if char_isspace c then EmptyString else String c EmptyString
      | r => String c r
      end
  end.

Definition strip (s : string) : string := lstrip (rstrip s).

(** The last character, [s[-1]]. *)
Fixpoint str_last (s : string) : option Ascii.ascii :=
  match s with
  | EmptyString => None
  | String c EmptyString => Some c
  | String _ s' => str_last s'
  end.

(** [int(s)] of a string of decimal digits, None for the ValueError. *)
Fixpoint int_of_digits (acc : Z) (s : string) : option Z :=
  match s with
  | EmptyString => Some acc
  | String c s' =>
      if char_decimal c
      then int_of_digits (10 * acc + (Z.of_N (code c) - 48)) s'
      else None
  end.

(** [s.split(sep)] for a one-character separator: [cur] is the part read so far. *)
Fixpoint split_loop (sep : Ascii.ascii) (s cur : string) : list string :=
  match s with
  | EmptyString => [cur]
  | String c s' =>
      if Ascii.eqb c sep then cur :: split_loop sep s' "" else split_loop sep s' (cur +:+ String c "")
  end.

Definition str_split (sep : Ascii.ascii) (s : string) : list string := split_loop sep s "".

(** [c in s]. *)
Definition str_has (c : Ascii.ascii) (s : string) : bool := str_any (Ascii.eqb c) s.

(** * Lemmas *)

Lemma str_app_cons x a b : String x a +:+ b = String x (a +:+ b).
Proof. reflexivity. Qed.

Lemma str_app_nil_l a : "" +:+ a = a.
Proof. reflexivity. Qed.

(** [strsimpl] computes concatenations, which [simpl] leaves alone. *)
Ltac strsimpl := repeat (progress (simpl; rewrite ?str_app_cons, ?str_app_nil_l)).

Lemma str_app_assoc a b c : (a +:+ b) +:+ c = a +:+ (b +:+ c).
Proof. induction a; strsimpl; congruence. Qed.

Lemma str_app_nil_r a : a +:+ "" = a.
Proof. induction a; strsimpl; congruence. Qed.

Lemma str_length_app a b : String.length (a +:+ b) = (String.length a + String.length b)%nat.
Proof. induction a; strsimpl; congruence. Qed.

Lemma startswith_spec p s : startswith p s = true <-> exists r, s = p +:+ r.
Proof.
  unfold startswith. revert s. induction p as [|c p IH]; intros s; simpl.
  - split; [intros _; by exists s | by destruct s].
  - destruct s as [|d s]; simpl.
    + split; [done | intros [r [=]]].
    + destruct (Ascii.ascii_dec c d) as [->|Hne].
      * rewrite IH. split; intros [r Hr]; exists r; rewrite ?str_app_cons in *; congruence.
      * split; [done | intros [r [=]]; congruence].
Qed.

Lemma str_drop_app a b : str_drop (String.length a) (a +:+ b) = b.
Proof. induction a; strsimpl; done. Qed.

Lemma str_take_app a b : str_take (String.length a) (a +:+ b) = a.
Proof. induction a; strsimpl; [by destruct b | congruence]. Qed.

Lemma str_take_drop n s : str_take n s +:+ str_drop n s = s.
Proof.
  revert s; induction n; intros [|c s]; simpl; try done.
  rewrite str_app_cons. by rewrite IHn.
Qed.

Lemma str_length_drop n s : String.length (str_drop n s) = (String.length s - n)%nat.
Proof. revert s; induction n; intros [|c s]; simpl; auto. Qed.

Lemma endswith_spec q s : endswith q s = true <-> exists r, s = r +:+ q.
Proof.
  unfold endswith. rewrite andb_true_iff, Nat.leb_le, String.eqb_eq. split.
  - intros [Hl Hd]. exists (str_take (String.length s - String.length q) s).
    rewrite <- Hd at 2. by rewrite str_take_drop.
  - intros [r ->]. rewrite str_length_app. split; [lia|].
    replace (String.length r + String.length q - String.length q)%nat with (String.length r) by lia.
    apply str_drop_app.
Qed.

Lemma str_slice_app a m b :
  str_slice (String.length a) (String.length b) (a +:+ (m +:+ b)) = m.
Proof.
  unfold str_slice. rewrite <- str_app_assoc, str_length_app.
  rewrite Nat.add_sub, str_take_app. apply str_drop_app.
Qed.

Lemma str_app_inj_l a b c : a +:+ b = a +:+ c -> b = c.
Proof. induction a; strsimpl; [done|]. intros [= H]. auto. Qed.

Lemma str_all_app p a b : str_all p (a +:+ b) = str_all p a && str_all p b.
Proof. induction a; strsimpl; [done|]. by rewrite IHa, andb_assoc. Qed.

Lemma str_any_app p a b : str_any p (a +:+ b) = str_any p a || str_any p b.
Proof. induction a; strsimpl; [done|]. by rewrite IHa, orb_assoc. Qed.

Lemma str_app_comm_tail a b c d :
  a +:+ b = c +:+ d -> String.length b = String.length d -> a = c /\ b = d.
Proof.
  revert c. induction a as [|x a IH]; intros [|y c]; strsimpl; intros H Hl.
  - done.
  - exfalso. rewrite H in Hl. simpl in Hl. rewrite str_length_app in Hl. lia.
  - exfalso. rewrite <- H in Hl. simpl in Hl. rewrite str_length_app in Hl. lia.
  - injection H as -> H. destruct (IH c H Hl) as [-> ->]. done.
Qed.

(** * Dynamically typed values *)

(** The values a JSON or TOML document holds, as the objects Python makes of
    them; [VObj] is any object of another class, by its class name. *)
Inductive pyval : Type :=
| VNone
| VBool (b : bool)
| VInt (z : Z)
| VFloat (f : spec_float)
| VStr (s : string)
| VList (l : list pyval)
| VDict (d : list (pyval * pyval))
| VObj (cls : string).

(** [type(v) is int]. *)
Definition as_int (v : pyval) : option Z :=
  match v with VInt z => Some z | _ => None end.

(** [isinstance(v, str)]. *)
Definition as_str (v : pyval) : option string :=
  match v with VStr s => Some s | _ => None end.

(** [d.get(name)] on a mapping with arbitrary keys, None when absent. *)
Fixpoint vdict_get (d : list (pyval * pyval)) (name : string) : option pyval :=
  match d with
  | [] => None
  | (VStr k, v) :: d' => if String.eqb k name then Some v else vdict_get d' name
  | _ :: d' => vdict_get d' name
  end.
