(* ===== verification/Telemetry.v ===== *)
(** Telemetry: one device's measured memory and its wire form
    (dinkster_memory/governor.py, MeasuredMemory) and the per-source snapshot
    store the governor's telemetry seat reads (dinkster_memory/reported.py).
    Clock readings are integers; a wire mapping is a [VDict]. *)
From S2P Require Import Prelude PyStr.

Local Open Scope string_scope.
Local Open Scope Z_scope.
Local Open Scope list_scope.

(** * MeasuredMemory *)

(** The attributes of [_COMPONENT_FIELDS]. *)
Inductive component_field :=
| driver_free_bytes | allocator_reclaimable_bytes | dynamic_evictable_bytes
| dynamic_pinned_bytes | torch_allocated_bytes | torch_reserved_bytes
| process_id | process_count | process_rss_bytes | pinned_host_bytes
| gpu_utilization_percent | gpu_temperature_celsius | gpu_power_milliwatts
| gpu_power_limit_milliwatts.

#[export] Instance component_field_eq_dec : EqDecision component_field.
Proof. solve_decision. Defined.

Record MeasuredMemory := {
  free_bytes : Z;
  total_bytes : Z;
  m_driver_free : option Z;
  m_allocator_reclaimable : option Z;
  m_dynamic_evictable : option Z;
  m_dynamic_pinned : option Z;
  m_torch_allocated : option Z;
  m_torch_reserved : option Z;
  m_process_id : option Z;
  m_process_count : option Z;
  m_process_rss : option Z;
  m_pinned_host : option Z;
  m_gpu_utilization : option Z;
  m_gpu_temperature : option Z;
  m_gpu_power : option Z;
  m_gpu_power_limit : option Z;
  gpu_name : option string;
}.

#[export] Instance measured_eq_dec : EqDecision MeasuredMemory.
Proof. solve_decision. Defined.

Definition getattr (m : MeasuredMemory) (f : component_field) : option Z :=
  match f with
  | driver_free_bytes => m_driver_free m
  | allocator_reclaimable_bytes => m_allocator_reclaimable m
  | dynamic_evictable_bytes => m_dynamic_evictable m
  | dynamic_pinned_bytes => m_dynamic_pinned m
  | torch_allocated_bytes => m_torch_allocated m
  | torch_reserved_bytes => m_torch_reserved m
  | process_id => m_process_id m
  | process_count => m_process_count m
  | process_rss_bytes => m_process_rss m
  | pinned_host_bytes => m_pinned_host m
  | gpu_utilization_percent => m_gpu_utilization m
  | gpu_temperature_celsius => m_gpu_temperature m
  | gpu_power_milliwatts => m_gpu_power m
  | gpu_power_limit_milliwatts => m_gpu_power_limit m
  end.

(** The constructor called with keyword components. *)
Definition build (free total : Z) (c : component_field -> option Z) (name : option string) :
  MeasuredMemory := {|
  free_bytes := free;
  total_bytes := total;
  m_driver_free := c driver_free_bytes;
  m_allocator_reclaimable := c allocator_reclaimable_bytes;
  m_dynamic_evictable := c dynamic_evictable_bytes;
  m_dynamic_pinned := c dynamic_pinned_bytes;
  m_torch_allocated := c torch_allocated_bytes;
  m_torch_reserved := c torch_reserved_bytes;
  m_process_id := c process_id;
  m_process_count := c process_count;
  m_process_rss := c process_rss_bytes;
  m_pinned_host := c pinned_host_bytes;
  m_gpu_utilization := c gpu_utilization_percent;
  m_gpu_temperature := c gpu_temperature_celsius;
  m_gpu_power := c gpu_power_milliwatts;
  m_gpu_power_limit := c gpu_power_limit_milliwatts;
  gpu_name := name;
|}.

Definition wire_name (f : component_field) : string :=
  match f with
  | driver_free_bytes => "driverFreeBytes"
  | allocator_reclaimable_bytes => "allocatorReclaimableBytes"
  | dynamic_evictable_bytes => "dynamicEvictableBytes"
  | dynamic_pinned_bytes => "dynamicPinnedBytes"
  | torch_allocated_bytes => "torchAllocatedBytes"
  | torch_reserved_bytes => "torchReservedBytes"
  | process_id => "processId"
  | process_count => "processCount"
  | process_rss_bytes => "processRssBytes"
  | pinned_host_bytes => "pinnedHostBytes"
  | gpu_utilization_percent => "gpuUtilizationPercent"
  | gpu_temperature_celsius => "gpuTemperatureCelsius"
  | gpu_power_milliwatts => "gpuPowerMilliwatts"
  | gpu_power_limit_milliwatts => "gpuPowerLimitMilliwatts"
  end.

Definition component_fields : list component_field :=
  [driver_free_bytes; allocator_reclaimable_bytes; dynamic_evictable_bytes;
   dynamic_pinned_bytes; torch_allocated_bytes; torch_reserved_bytes;
   process_id; process_count; process_rss_bytes; pinned_host_bytes;
   gpu_utilization_percent; gpu_temperature_celsius; gpu_power_milliwatts;
   gpu_power_limit_milliwatts].

Definition bad_totals (free total : Z) : bool :=
  (free <? 0) || (total <=? 0) || (total <? free).

Definition blank (s : string) : bool := String.eqb (strip s) "".

Fixpoint wire_components (m : MeasuredMemory) (fs : list component_field) :
  option (list (string * pyval)) :=
  match fs with
  | [] => Some []
  | f :: fs' =>
      match getattr m f with
      | None => wire_components m fs'
      | Some v => if v <? 0 then None else ((wire_name f, VInt v) ::.) <$> wire_components m fs'
      end
  end.

(** [to_wire]: the entries of the wire mapping, in insertion order. *)
Definition to_wire (m : MeasuredMemory) : option (list (string * pyval)) :=
  if bad_totals (free_bytes m) (total_bytes m) then None
  else
    cs ← wire_components m component_fields;
    let wire := ("freeBytes", VInt (free_bytes m)) :: ("totalBytes", VInt (total_bytes m)) :: cs in
    match gpu_name m with
    | None => Some wire
    | Some n => if blank n then None else Some (wire ++ [("gpuName", VStr n)])
    end.

(** The mapping a list of wire entries is. *)
Definition wire_dict (entries : list (string * pyval)) : pyval :=
  VDict ((fun e => (VStr e.1, e.2)) <$> entries).

(** One pass of the component loop of [from_wire]: [None] refuses the value. *)
Fixpoint read_components (d : list (pyval * pyval)) (fs : list component_field) :
  option (list (component_field * Z)) :=
  match fs with
  | [] => Some []
  | f :: fs' =>
      match vdict_get d (wire_name f) with
      | None => read_components d fs'
      | Some v =>
          match as_int v with
          | Some z => if z <? 0 then None else ((f, z) ::.) <$> read_components d fs'
          | None => None
          end
      end
  end.

Definition from_wire (value : pyval) : option MeasuredMemory :=
  match value with
  | VDict d =>
      free ← vdict_get d "freeBytes" ≫= as_int;
      total ← vdict_get d "totalBytes" ≫= as_int;
      if bad_totals free total then None
      else
        cs ← read_components d component_fields;
        match vdict_get d "gpuName" with
        | None | Some VNone => Some (build free total (dict_get cs) None)
        | Some (VStr n) => if blank n then None else Some (build free total (dict_get cs) (Some n))
        | Some _ => None
        end
  | _ => None
  end.

(** ** Lemmas *)

Lemma build_getattr m : build (free_bytes m) (total_bytes m) (getattr m) (gpu_name m) = m.
Proof. by destruct m. Qed.

Lemma build_ext free total c1 c2 n :
  (forall f, c1 f = c2 f) -> build free total c1 n = build free total c2 n.
Proof. intros H. unfold build. f_equal; apply H. Qed.

Lemma wire_name_inj f g : wire_name f = wire_name g -> f = g.
Proof. by destruct f, g. Qed.

Lemma component_fields_all f : f ∈ component_fields.
Proof. destruct f; unfold component_fields; set_solver. Qed.

Lemma component_fields_nodup : NoDup component_fields.
Proof. by apply (bool_decide_unpack _); vm_compute. Qed.

(** What looking a name up in an encoded mapping finds. *)
Lemma vdict_get_wire entries name :
  vdict_get ((fun e : string * pyval => (VStr e.1, e.2)) <$> entries) name = dict_get entries name.
Proof.
  induction entries as [|[k v] es IH]; [done|]. csimpl.
  destruct (String.eqb_spec k name) as [->|Hne].
  - by rewrite decide_True.
  - rewrite decide_False by congruence. apply IH.
Qed.

Lemma wire_components_get m fs cs f :
  wire_components m fs = Some cs -> NoDup fs ->
  dict_get cs (wire_name f) = if decide (f ∈ fs) then VInt <$> getattr m f else None.
Proof.
  revert cs. induction fs as [|g fs IH]; intros cs; csimpl.
  - intros [= <-] _. done.
  - intros Hw [Hg Hnd]%NoDup_cons.
    destruct (getattr m g) as [v|] eqn:Hv.
    + destruct (v <? 0); [done|].
      destruct (wire_components m fs) as [cs'|] eqn:Hcs; simplify_eq/=.
      destruct (decide (wire_name f = wire_name g)) as [Hn|Hn].
      * apply wire_name_inj in Hn as ->. rewrite decide_True by set_solver. by rewrite Hv.
      * rewrite (IH cs' eq_refl Hnd).
        assert (f <> g) by (intros ->; done).
        destruct (decide (f ∈ fs)); [rewrite decide_True by set_solver; done|].
        rewrite decide_False by set_solver. done.
    + rewrite (IH cs Hw Hnd). destruct (decide (f = g)) as [->|].
      * rewrite decide_False by done. rewrite decide_True by set_solver. by rewrite Hv.
      * destruct (decide (f ∈ fs)); [rewrite decide_True by set_solver; done|].
        rewrite decide_False by set_solver. done.
Qed.

Lemma wire_components_nonneg m fs cs f v :
  wire_components m fs = Some cs -> f ∈ fs -> getattr m f = Some v -> (v <? 0) = false.
Proof.
  revert cs. induction fs as [|g fs IH]; intros cs; csimpl.
  - intros _ Hin. by apply not_elem_of_nil in Hin.
  - intros Hw Hin Hf. apply elem_of_cons in Hin as [->|Hin].
    + rewrite Hf in Hw. by destruct (v <? 0).
    + destruct (getattr m g) as [u|]; [destruct (u <? 0); [done|]|].
      * destruct (wire_components m fs) as [cs'|] eqn:Hcs; [|done]. by eapply IH.
      * by eapply IH.
Qed.

Lemma read_components_get d fs cs f :
  read_components d fs = Some cs ->
  dict_get cs f =
  if decide (f ∈ fs) then vdict_get d (wire_name f) ≫= as_int else None.
Proof.
  revert cs. induction fs as [|g fs IH]; intros cs; csimpl.
  - intros [= <-]. done.
  - intros Hr. destruct (vdict_get d (wire_name g)) as [v|] eqn:Hv.
    + destruct (as_int v) as [z|] eqn:Hz; [|done]. destruct (z <? 0); [done|].
      destruct (read_components d fs) as [cs'|] eqn:Hcs; simplify_eq/=.
      destruct (decide (f = g)) as [->|Hfg].
      * rewrite decide_True by set_solver. by rewrite Hv.
      * rewrite (IH cs' eq_refl).
        destruct (decide (f ∈ fs)); [rewrite decide_True by set_solver; done|].
        rewrite decide_False by set_solver. done.
    + rewrite (IH cs Hr). destruct (decide (f = g)) as [->|].
      * rewrite (decide_True (P := g ∈ g :: fs)) by set_solver. rewrite Hv. by case_decide.
      * destruct (decide (f ∈ fs)); [rewrite decide_True by set_solver; done|].
        rewrite decide_False by set_solver. done.
Qed.

(** Reading succeeds when every present component is a non-negative integer. *)
Lemma read_components_ok d fs :
  (forall f v, f ∈ fs -> vdict_get d (wire_name f) = Some v ->
     exists z, v = VInt z /\ (z <? 0) = false) ->
  is_Some (read_components d fs).
Proof.
  induction fs as [|g fs IH]; csimpl; intros H; [by eexists|].
  assert (is_Some (read_components d fs)) as [cs Hcs] by (apply IH; set_solver).
  destruct (vdict_get d (wire_name g)) as [v|] eqn:Hv.
  - destruct (H g v) as (z & -> & Hz); [set_solver | done |]. simpl. rewrite Hz, Hcs. by eexists.
  - rewrite Hcs. by eexists.
Qed.

Lemma wire_names_no_totals f : wire_name f <> "freeBytes" /\ wire_name f <> "totalBytes".
Proof. by destruct f. Qed.

Lemma wire_components_no_gpu m fs cs :
  wire_components m fs = Some cs -> "gpuName" ∉ keys cs.
Proof.
  revert cs. induction fs as [|g fs IH]; csimpl; intros cs Hcs.
  - simplify_eq/=. apply not_elem_of_nil.
  - destruct (getattr m g); [destruct (_ <? 0); [done|]|by apply IH].
    destruct (wire_components m fs) eqn:Hw; simplify_eq/=.
    apply not_elem_of_cons. split; [by destruct g | by apply IH].
Qed.

(** What an encoded measurement holds under each of its names. *)
Lemma to_wire_lookup m w :
  to_wire m = Some w ->
  bad_totals (free_bytes m) (total_bytes m) = false
  /\ dict_get w "freeBytes" = Some (VInt (free_bytes m))
  /\ dict_get w "totalBytes" = Some (VInt (total_bytes m))
  /\ (forall f, dict_get w (wire_name f) = VInt <$> getattr m f)
  /\ dict_get w "gpuName" = VStr <$> gpu_name m
  /\ (forall n, gpu_name m = Some n -> blank n = false)
  /\ (forall f v, getattr m f = Some v -> (v <? 0) = false).
Proof.
  unfold to_wire. destruct (bad_totals _ _) eqn:Hb; [done|].
  destruct (wire_components m component_fields) as [cs|] eqn:Hcs; [|done]. simpl.
  assert (Hget : forall f, dict_get cs (wire_name f) = VInt <$> getattr m f).
  { intros f. rewrite (wire_components_get _ _ _ _ Hcs component_fields_nodup).
    by rewrite decide_True by apply component_fields_all. }
  assert (Hgpu : dict_get cs "gpuName" = None).
  { by apply dict_get_None, (wire_components_no_gpu m component_fields). }
  assert (Hnn : forall f v, getattr m f = Some v -> (v <? 0) = false).
  { intros f v. eapply wire_components_nonneg; [exact Hcs | apply component_fields_all]. }
  assert (Hwn : forall f, wire_name f <> "gpuName") by (by intros []).
  destruct (gpu_name m) as [n|] eqn:Hn.
  - destruct (blank n) eqn:Hbl; [done|]. intros [= <-]. repeat split; try done.
    + intros f. destruct (wire_names_no_totals f). simpl. rewrite !decide_False by done.
      rewrite dict_get_app, Hget. destruct (getattr m f); [done|]. simpl.
      by rewrite decide_False by apply Hwn.
    + simpl. rewrite dict_get_app, Hgpu. done.
    + intros ? [= <-]. done.
  - intros [= <-]. repeat split; try done.
    intros f. destruct (wire_names_no_totals f). simpl. rewrite !decide_False by done. apply Hget.
Qed.

(** Encoding a measurement and decoding it gives the measurement back. *)
Lemma from_to_wire m w : to_wire m = Some w -> from_wire (wire_dict w) = Some m.
Proof.
  intros H. destruct (to_wire_lookup m w H) as (Hb & Hf & Ht & Hc & Hg & Hbl & Hnn).
  unfold from_wire, wire_dict.
  set (d := (fun e : string * pyval => (VStr e.1, e.2)) <$> w).
  assert (Hfd : vdict_get d "freeBytes" = Some (VInt (free_bytes m))) by (unfold d; by rewrite vdict_get_wire).
  assert (Htd : vdict_get d "totalBytes" = Some (VInt (total_bytes m))) by (unfold d; by rewrite vdict_get_wire).
  assert (Hgd : vdict_get d "gpuName" = VStr <$> gpu_name m) by (unfold d; by rewrite vdict_get_wire).
  assert (Hd : forall f, vdict_get d (wire_name f) = VInt <$> getattr m f).
  { intros f. unfold d. by rewrite vdict_get_wire. }
  destruct (read_components_ok d component_fields) as [cs Hcs].
  { intros f v _. rewrite Hd. destruct (getattr m f) as [z|] eqn:Hz; [|done].
    intros [= <-]. eauto. }
  rewrite Hfd, Htd, Hgd, Hcs. simpl. rewrite Hb.
  assert (Hbuild : build (free_bytes m) (total_bytes m) (dict_get cs) (gpu_name m) = m).
  { rewrite <- (build_getattr m) at 4. apply build_ext. intros f.
    rewrite (read_components_get _ _ _ f Hcs).
    rewrite decide_True by apply component_fields_all. rewrite Hd.
    by destruct (getattr m f). }
  destruct (gpu_name m) as [n|]; simpl; [|by rewrite Hbuild].
  by rewrite (Hbl n eq_refl), Hbuild.
Qed.

(** What the component loop read was there, and was a non-negative integer. *)
Lemma read_components_sound d fs cs f z :
  read_components d fs = Some cs -> dict_get cs f = Some z ->
  (z <? 0) = false /\ vdict_get d (wire_name f) = Some (VInt z).
Proof.
  revert cs. induction fs as [|g fs IH]; intros cs Hr Hz; cbn [read_components] in Hr.
  - by simplify_eq.
  - destruct (vdict_get d (wire_name g)) as [v|] eqn:Hv; [|by eapply IH].
    destruct v as [| |u| | | | |]; cbn [as_int] in Hr; try done.
    destruct (u <? 0) eqn:Hu; [done|].
    destruct (read_components d fs) as [cs1|]; cbn in Hr; [|done].
    injection Hr as <-. cbn in Hz.
    destruct (decide (f = g)) as [->|]; [by simplify_eq | by eapply IH].
Qed.

(** A measurement whose components a mapping holds encodes to entries of it. *)
Lemma wire_components_sub m d fs :
  (forall f z, getattr m f = Some z ->
     (z <? 0) = false /\ vdict_get d (wire_name f) = Some (VInt z)) ->
  exists ws, wire_components m fs = Some ws
    /\ (forall name v, (name, v) ∈ ws -> vdict_get d name = Some v).
Proof.
  intros H. induction fs as [|g fs (ws & Hw & Hin)]; cbn [wire_components].
  - exists []. split; [done|]. intros ?? Hin. by apply not_elem_of_nil in Hin.
  - destruct (getattr m g) as [z|] eqn:Hz; [|by eauto].
    destruct (H g z Hz) as [-> Hd]. rewrite Hw. eexists; split; [done|].
    intros name v [[= -> ->]|Hv]%elem_of_cons; [done | by apply Hin].
Qed.

(** The four gates of decoding. *)
Lemma from_wire_inv d m :
  from_wire (VDict d) = Some m ->
  exists free total cs n,
    m = build free total (dict_get cs) n
    /\ vdict_get d "freeBytes" = Some (VInt free)
    /\ vdict_get d "totalBytes" = Some (VInt total)
    /\ bad_totals free total = false
    /\ read_components d component_fields = Some cs
    /\ (forall x, n = Some x -> blank x = false /\ vdict_get d "gpuName" = Some (VStr x)).
Proof.
  unfold from_wire.
  destruct (vdict_get d "freeBytes") as [fv|]; [|done].
  destruct fv as [| |free| | | | |]; cbn [mbind option_bind as_int]; try done.
  destruct (vdict_get d "totalBytes") as [tv|]; [|done].
  destruct tv as [| |total| | | | |]; cbn [mbind option_bind as_int]; try done.
  destruct (bad_totals free total) eqn:Hb; [done|].
  destruct (read_components d component_fields) as [cs|] eqn:Hcs; [|done].
  cbn [mbind option_bind].
  destruct (vdict_get d "gpuName") as [g|];
    [destruct g as [| | | |x| | |]; try done; [|destruct (blank x) eqn:Hbl; [done|]]|];
    intros [= <-].
  - by exists free, total, cs, None.
  - exists free, total, cs, (Some x). repeat split; try done; by simplify_eq.
  - by exists free, total, cs, None.
Qed.

(** Decoding refuses what encoding could not have produced, and what it accepts
    re-encodes to entries the input already held. *)
Lemma to_from_wire d m :
  from_wire (VDict d) = Some m ->
  exists w, to_wire m = Some w /\
    (forall name v, (name, v) ∈ w -> vdict_get d name = Some v).
Proof.
  intros (free & total & cs & n & -> & Hf & Ht & Hb & Hcs & Hn)%from_wire_inv.
  destruct (wire_components_sub (build free total (dict_get cs) n) d component_fields)
    as (ws & Hws & Hin).
  { intros f z Hz. eapply read_components_sound; [exact Hcs|]. by destruct f. }
  unfold to_wire. cbn [free_bytes total_bytes gpu_name build].
  rewrite Hb, Hws. cbn [mbind option_bind]. destruct n as [x|].
  - destruct (Hn x eq_refl) as [-> Hx]. eexists; split; [done|].
    intros name v. rewrite elem_of_app, !elem_of_cons. 
    intros [[[= -> ->]|[[= -> ->]|?]]|[[= -> ->]|[]%not_elem_of_nil]]; eauto.
  - eexists; split; [done|]. intros name v. rewrite !elem_of_cons.
    intros [[= -> ->]|[[= -> ->]|?]]; eauto.
Qed.

(** * ReportedTelemetry *)

Section reported.
Context {Source : Type} `{EqDecision Source}.

(** One source's report: the clock reading, the sequence number, the devices. *)
Record snapshot := {
  snap_stamp : Z;
  snap_sequence : Z;
  snap_devices : gmap string MeasuredMemory;
}.

Record ReportedTelemetry := {
  snapshots : list (Source * snapshot);
  sequence : Z;
}.

Definition telemetry_init : ReportedTelemetry := {| snapshots := []; sequence := 0 |}.

Definition update (t : ReportedTelemetry) (now : Z) (source : Source)
  (measurements : gmap string MeasuredMemory) : ReportedTelemetry := {|
  snapshots := dict_set (snapshots t) source
    {| snap_stamp := now; snap_sequence := sequence t + 1; snap_devices := measurements |};
  sequence := sequence t + 1;
|}.

Definition clear (t : ReportedTelemetry) (source : Source) : ReportedTelemetry :=
  {| snapshots := dict_del (snapshots t) source; sequence := sequence t |}.

(** [(stamp, sequence) > freshest[:2]], tuples compared lexicographically. *)
Definition fresher (s1 q1 s2 q2 : Z) : bool := (s2 <? s1) || ((s1 =? s2) && (q2 <? q1)).

(** The local variables of [probe]'s loop. *)
Record probe_state := {
  freshest : option (Z * Z * MeasuredMemory);
  processes : list (Z * (Z * MeasuredMemory));
  unidentified : bool;
}.

Definition probe_step (device : string) (st : probe_state) (snap : snapshot) : probe_state :=
  match snap_devices snap !! device with
  | None => st
  | Some m =>
      let f := match freshest st with
               | Some (s, q, _) =>
                   if fresher (snap_stamp snap) (snap_sequence snap) s q
                   then Some (snap_stamp snap, snap_sequence snap, m) else freshest st
               | None => Some (snap_stamp snap, snap_sequence snap, m)
               end in
      match m_process_id m with
      | None => {| freshest := f; processes := processes st; unidentified := true |}
      | Some pid =>
          let known := match dict_get (processes st) pid with Some (q, _) => q | None => -1 end in
          {| freshest := f;
             processes := if known <? snap_sequence snap
                          then dict_set (processes st) pid (snap_sequence snap, m)
                          else processes st;
             unidentified := unidentified st |}
      end
  end.

(** [None if any(value is None) else sum(values)]. *)
Definition sum_known (values : list (option Z)) : option Z :=
  zsum <$> mapM id values.

Definition counter (st : probe_state) (f : component_field) : option Z :=
  if unidentified st then None
  else sum_known ((fun p : Z * (Z * MeasuredMemory) => getattr p.2.2 f) <$> processes st).

(** [replace(freshest, process_id=None, process_count=.., **counters)]. *)
Definition aggregate (st : probe_state) (m : MeasuredMemory) : MeasuredMemory :=
  build (free_bytes m) (total_bytes m)
    (fun f => match f with
              | process_id => None
              | process_count =>
                  match length (processes st) with O => None | n => Some (Z.of_nat n) end
              | torch_allocated_bytes | torch_reserved_bytes
              | process_rss_bytes | pinned_host_bytes => counter st f
              | _ => getattr m f
              end) (gpu_name m).

Definition probe_scan (t : ReportedTelemetry) (device : string) : probe_state :=
  foldl (probe_step device) {| freshest := None; processes := []; unidentified := false |}
    ((snapshots t).*2).

Definition probe (t : ReportedTelemetry) (device : string) : option MeasuredMemory :=
  let st := probe_scan t device in
  match freshest st with
  | None => None
  | Some (_, _, m) =>
      if (length (processes st) <=? 1)%nat && negb (unidentified st) then Some m
      else Some (aggregate st m)
  end.

Definition devices (t : ReportedTelemetry) : gset string :=
  ⋃ ((fun e : Source * snapshot => dom (snap_devices e.2)) <$> snapshots t).

(** ** The store's invariant *)

(** Distinct sources, sequence numbers strictly below the next, and no stamp
    later than the last clock reading. *)
Definition telemetry_wf (now : Z) (t : ReportedTelemetry) : Prop :=
  NoDup (keys (snapshots t))
  /\ Forall (fun e : Source * snapshot =>
       0 < snap_sequence e.2 <= sequence t /\ snap_stamp e.2 <= now) (snapshots t).

Lemma telemetry_init_wf now : telemetry_wf now telemetry_init.
Proof. split; [apply NoDup_nil_2 | apply Forall_nil_2]. Qed.

Lemma dict_set_Forall {K V} `{EqDecision K} (P : K * V -> Prop) d k v :
  Forall P d -> P (k, v) -> Forall P (dict_set d k v).
Proof.
  intros Hd Hv. induction Hd as [|[a b] d Ha Hd IH]; cbn; [by repeat constructor|].
  destruct (decide (k = a)) as [->|]; by constructor.
Qed.

Lemma dict_del_Forall {K V} `{EqDecision K} (P : K * V -> Prop) d k :
  Forall P d -> Forall P (dict_del d k).
Proof. rewrite !Forall_forall. intros Hd x Hx. eapply Hd, dict_del_elem, Hx. Qed.

Lemma update_wf now now' t source ms :
  0 <= sequence t -> now <= now' -> telemetry_wf now t -> telemetry_wf now' (update t now' source ms).
Proof.
  intros Hs Hn [Hnd Hf]. split; cbn; [by apply NoDup_dict_set|].
  apply dict_set_Forall; cbn; [|lia].
  eapply Forall_impl; [exact Hf|]. cbn. intros e He. lia.
Qed.

Lemma clear_wf now t source : telemetry_wf now t -> telemetry_wf now (clear t source).
Proof.
  intros [Hnd Hf]. split; cbn; [by apply NoDup_dict_del | by apply dict_del_Forall].
Qed.

(** The loop keeps the lexicographic maximum it has met. *)
Definition scan_best (device : string) (l : list snapshot) (best : option (Z * Z * MeasuredMemory)) :=
  match best with
  | None => forall sn, sn ∈ l -> snap_devices sn !! device = None
  | Some (s, q, m) =>
      (exists sn, sn ∈ l /\ snap_devices sn !! device = Some m
         /\ snap_stamp sn = s /\ snap_sequence sn = q)
      /\ (forall sn, sn ∈ l -> is_Some (snap_devices sn !! device) ->
            fresher (snap_stamp sn) (snap_sequence sn) s q = false)
  end.

Lemma fresher_irrefl s q : fresher s q s q = false.
Proof. unfold fresher. lia. Qed.

Lemma fresher_trans s q s' q' a b :
  fresher s q s' q' = true -> fresher a b s' q' = false -> fresher a b s q = false.
Proof. unfold fresher. lia. Qed.

Lemma freshest_probe_step device st sn :
  freshest (probe_step device st sn) =
  match snap_devices sn !! device with
  | None => freshest st
  | Some m =>
      match freshest st with
      | Some (s, q, _) =>
          if fresher (snap_stamp sn) (snap_sequence sn) s q
          then Some (snap_stamp sn, snap_sequence sn, m) else freshest st
      | None => Some (snap_stamp sn, snap_sequence sn, m)
      end
  end.
Proof.
  unfold probe_step. destruct (snap_devices sn !! device) as [m|]; [|done].
  by destruct (m_process_id m).
Qed.

Lemma scan_freshest device l :
  scan_best device l (freshest (foldl (probe_step device)
    {| freshest := None; processes := []; unidentified := false |} l)).
Proof.
  induction l as [|sn l IH] using rev_ind; [intros ? []%not_elem_of_nil|].
  rewrite foldl_app. cbn [foldl]. rewrite freshest_probe_step.
  set (st := foldl _ _ l) in *.
  destruct (snap_devices sn !! device) as [m|] eqn:Hm.
  2:{ unfold scan_best in *. destruct (freshest st) as [[[s q] m]|].
      - destruct IH as [(x & Hx & ?) Hmax]. split; [exists x; set_solver|].
        intros y [?| ->%list_elem_of_singleton]%elem_of_app; [by apply Hmax|].
        rewrite Hm. intros [? [=]].
      - intros y [?| ->%list_elem_of_singleton]%elem_of_app; auto. }
  unfold scan_best in IH.
  destruct (freshest st) as [[[s q] m']|].
  - destruct IH as [(x & Hx & Hxm & Hs & Hq) Hmax].
    destruct (fresher (snap_stamp sn) (snap_sequence sn) s q) eqn:Hf; split.
    + exists sn. set_solver.
    + intros y [?| ->%list_elem_of_singleton]%elem_of_app Hy; [|apply fresher_irrefl].
      eapply fresher_trans; [exact Hf | by apply Hmax].
    + exists x. set_solver.
    + intros y [?| ->%list_elem_of_singleton]%elem_of_app Hy; [by apply Hmax | done].
  - split; [exists sn; set_solver|].
    intros y [Hy| ->%list_elem_of_singleton]%elem_of_app [z Hz]; [|apply fresher_irrefl].
    rewrite (IH y Hy) in Hz. done.
Qed.

(** [latest device l pid q m]: [m] is the newest measurement of [device] that
    names process [pid] among the snapshots [l]. *)
Definition latest (device : string) (l : list snapshot) (pid q : Z) (m : MeasuredMemory) : Prop :=
  (exists sn, sn ∈ l /\ snap_devices sn !! device = Some m /\ m_process_id m = Some pid
     /\ snap_sequence sn = q)
  /\ (forall sn m', sn ∈ l -> snap_devices sn !! device = Some m' -> m_process_id m' = Some pid ->
        snap_sequence sn <= q).

Definition anonymous (device : string) (l : list snapshot) : Prop :=
  exists sn m, sn ∈ l /\ snap_devices sn !! device = Some m /\ m_process_id m = None.

(** What the process table and the flag hold after a scan. *)
Definition scan_table (device : string) (l : list snapshot) (st : probe_state) : Prop :=
  NoDup (keys (processes st))
  /\ (forall pid q m, dict_get (processes st) pid = Some (q, m) -> latest device l pid q m)
  /\ (forall sn m pid, sn ∈ l -> snap_devices sn !! device = Some m -> m_process_id m = Some pid ->
        is_Some (dict_get (processes st) pid))
  /\ (unidentified st = true <-> anonymous device l).

Lemma latest_snoc_other device l sn pid q m :
  latest device l pid q m ->
  (forall m', snap_devices sn !! device = Some m' -> m_process_id m' = Some pid ->
     snap_sequence sn <= q) ->
  latest device (l ++ [sn]) pid q m.
Proof.
  intros [(x & Hx & ?) Hmax] Hsn. split; [exists x; set_solver|].
  intros y m' [?| ->%list_elem_of_singleton]%elem_of_app; [by apply Hmax | by apply Hsn].
Qed.

Lemma anonymous_snoc device l sn :
  anonymous device (l ++ [sn]) <->
  anonymous device l \/ (exists m, snap_devices sn !! device = Some m /\ m_process_id m = None).
Proof. unfold anonymous. set_solver. Qed.

Lemma scan_table_step device l sn st :
  0 < snap_sequence sn -> scan_table device l st ->
  scan_table device (l ++ [sn]) (probe_step device st sn).
Proof.
  intros Hpos (Hnd & Hlat & Hall & Hun). unfold scan_table, probe_step. rewrite anonymous_snoc.
  destruct (snap_devices sn !! device) as [m|] eqn:Hm.
  2:{ split_and!; [done| | |rewrite Hun; naive_solver].
      - intros pid q m' ?. apply latest_snoc_other; [by apply Hlat | by rewrite Hm].
      - intros y m' pid [?| ->%list_elem_of_singleton]%elem_of_app; [by apply Hall | by rewrite Hm]. }
  destruct (m_process_id m) as [pid|] eqn:Hp; cbn [processes unidentified].
  - assert (Hflag : unidentified st = true <-> anonymous device l \/
      (exists m0, Some m = Some m0 /\ m_process_id m0 = None)).
    { rewrite Hun. split; [by left|]. intros [?|(? & [= <-] & ?)]; congruence. }
    set (known := match dict_get (processes st) pid with Some (q, _) => q | None => -1 end).
    destruct (known <? snap_sequence sn) eqn:Hk.
    + split_and!; [by apply NoDup_dict_set| | |done].
      * intros p q m'. rewrite dict_get_set. destruct (decide (p = pid)) as [->|Hne].
        -- intros [= <- <-]. split; [exists sn; set_solver|].
           intros y m' [Hy| ->%list_elem_of_singleton]%elem_of_app Hym Hyp; [|done].
           destruct (Hall y m' pid Hy Hym Hyp) as [[q0 m0] Hg].
           pose proof (proj2 (Hlat _ _ _ Hg) y m' Hy Hym Hyp).
           unfold known in Hk. rewrite Hg in Hk. lia.
        -- intros Hg. apply latest_snoc_other; [by apply Hlat|]. congruence.
      * intros y m' p [Hy| ->%list_elem_of_singleton]%elem_of_app Hym Hyp; rewrite dict_get_set.
        -- destruct (decide (p = pid)); [by eexists | by eapply Hall].
        -- rewrite decide_True by congruence. by eexists.
    + split_and!; [done| | |done].
      * intros p q m' Hg. apply latest_snoc_other; [by apply Hlat|]. intros m2 Hm2 Hp2.
        assert (p = pid) as -> by congruence. unfold known in Hk. rewrite Hg in Hk. lia.
      * intros y m' p [Hy| ->%list_elem_of_singleton]%elem_of_app Hym Hyp; [by eapply Hall|].
        assert (p = pid) as -> by congruence. unfold known in Hk.
        destruct (dict_get (processes st) pid) as [[]|]; [by eexists|lia].
  - split_and!; [done| | |].
    + intros p q m' ?. apply latest_snoc_other; [by apply Hlat|]. congruence.
    + intros y m' p [?| ->%list_elem_of_singleton]%elem_of_app ??; [by eapply Hall | congruence].
    + naive_solver.
Qed.

Lemma scan_processes device l :
  Forall (fun sn => 0 < snap_sequence sn) l ->
  scan_table device l (foldl (probe_step device)
    {| freshest := None; processes := []; unidentified := false |} l).
Proof.
  induction l as [|sn l IH] using rev_ind; intros Hf.
  - split_and!; cbn; [apply NoDup_nil_2 | done | by intros ??? ?%not_elem_of_nil |].
    split; [done|]. by intros (? & ? & ?%not_elem_of_nil & _).
  - apply Forall_app in Hf as [Hl [Hsn _]%Forall_cons].
    rewrite foldl_app. cbn [foldl]. apply scan_table_step; auto.
Qed.

Lemma telemetry_wf_positive now t :
  telemetry_wf now t -> Forall (fun sn => 0 < snap_sequence sn) ((snapshots t).*2).
Proof.
  intros [_ Hf]. rewrite Forall_fmap. eapply Forall_impl; [exact Hf|]. cbn. intros; lia.
Qed.

Lemma probe_free_total t device m :
  probe t device = Some m ->
  exists s q m0, freshest (probe_scan t device) = Some (s, q, m0)
    /\ free_bytes m = free_bytes m0 /\ total_bytes m = total_bytes m0 /\ gpu_name m = gpu_name m0.
Proof.
  unfold probe. destruct (freshest (probe_scan t device)) as [[[s q] m0]|]; [|done].
  intros H. exists s, q, m0. split; [done|]. by destruct (_ && _); simplify_eq.
Qed.
End reported.
Arguments snapshot : clear implicits.
Arguments ReportedTelemetry : clear implicits.

(** * Properties *)

(** Encoding a measurement to the wire and decoding the mapping gives the
    same measurement, and whatever decoding accepts re-encodes to entries the
    mapping held: workers of different versions agree on every known field. *)
Theorem measured_wire_roundtrip :
  (forall m w, to_wire m = Some w -> from_wire (wire_dict w) = Some m)
  /\ (forall d m, from_wire (VDict d) = Some m ->
        exists w, to_wire m = Some w
          /\ forall name v, (name, v) ∈ w -> vdict_get d name = Some v).
Proof. split; [exact from_to_wire | exact to_from_wire]. Qed.

(** The telemetry probe answers None exactly when no live source measures
    the device; otherwise the hardware facts it reports are those of the
    newest snapshot that measures it, and its host counters add up the newest
    measurement of every distinct process once, None as soon as one process
    is unidentified or did not report the counter. *)
Theorem probe_spec {Source} `{EqDecision Source} (now : Z) (t : ReportedTelemetry Source) device :
  telemetry_wf now t ->
  let l := (snapshots t).*2 in
  (probe t device = None <-> forall sn, sn ∈ l -> snap_devices sn !! device = None)
  /\ (forall m, probe t device = Some m ->
       (exists sn m0, sn ∈ l /\ snap_devices sn !! device = Some m0
          /\ (forall sn', sn' ∈ l -> is_Some (snap_devices sn' !! device) ->
                fresher (snap_stamp sn') (snap_sequence sn') (snap_stamp sn) (snap_sequence sn) = false)
          /\ free_bytes m = free_bytes m0 /\ total_bytes m = total_bytes m0
          /\ gpu_name m = gpu_name m0)
       /\ exists table, NoDup (keys table)
          /\ (forall pid q m1, dict_get table pid = Some (q, m1) -> latest device l pid q m1)
          /\ (forall sn m1 pid, sn ∈ l -> snap_devices sn !! device = Some m1 ->
                m_process_id m1 = Some pid -> is_Some (dict_get table pid))
          /\ ((1 < length table)%nat -> ~ anonymous device l ->
                m_process_count m = Some (Z.of_nat (length table))
                /\ forall f, f ∈ [torch_allocated_bytes; torch_reserved_bytes;
                                  process_rss_bytes; pinned_host_bytes] ->
                     getattr m f = sum_known ((fun p => getattr p.2.2 f) <$> table))
          /\ (anonymous device l -> m_torch_allocated m = None /\ m_process_id m = None)).
Proof.
  intros Hwf l. pose proof (scan_freshest device l) as Hbest.
  destruct (scan_processes device l (telemetry_wf_positive _ _ Hwf)) as (Hnd & Hlat & Hall & Hun).
  change (foldl _ _ l) with (probe_scan t device) in *. unfold probe.
  destruct (freshest (probe_scan t device)) as [[[s q] m0]|].
  - destruct Hbest as [(sn & Hsn & Hm0 & <- & <-) Hmax]. split.
    { split; [by destruct (_ && _)|]. intros Hn. by rewrite Hn in Hm0. }
    intros m Hm. split.
    { exists sn, m0. split_and!; try done; by destruct (_ && _); simplify_eq. }
    exists (processes (probe_scan t device)). split_and!; try done.
    + intros Hlen Hno. destruct (unidentified (probe_scan t device)) eqn:Hu; [naive_solver|].
      rewrite (proj2 (Nat.leb_gt _ _) Hlen) in Hm. cbn [andb] in Hm. simplify_eq. split.
      * cbn. destruct (length (processes (probe_scan t device))); [lia|done].
      * intros f Hf. unfold aggregate, counter. rewrite !elem_of_cons in Hf.
        destruct Hf as [->|[->|[->|[->|[]%not_elem_of_nil]]]]; cbn; by rewrite Hu.
    + intros Ha. rewrite (proj2 Hun Ha), andb_false_r in Hm. simplify_eq.
      cbn. unfold counter. by rewrite (proj2 Hun Ha).
  - split; [|done]. split; [intros _; exact Hbest | done].
Qed.

Definition demo_measured (free : Z) (pid : option Z) (rss : option Z) : MeasuredMemory :=
  build free 100 (fun f => match f with process_id => pid | process_rss_bytes => rss | _ => None end)
    (Some "gpu").

Lemma measured_wire_roundtrip_witness :
  exists w, to_wire (demo_measured 40 (Some 7) (Some 5)) = Some w
    /\ from_wire (wire_dict w) = Some (demo_measured 40 (Some 7) (Some 5)).
Proof.
  eexists. split; [vm_compute; reflexivity|].
  apply (proj1 measured_wire_roundtrip). vm_compute. reflexivity.
Defined.

Definition demo_telemetry : ReportedTelemetry nat :=
  update (update telemetry_init 1 0%nat {["cuda" := demo_measured 40 (Some 7) (Some 5)]})
    2 1%nat {["cuda" := demo_measured 30 (Some 8) (Some 6)]}.

Lemma probe_spec_witness :
  (m_process_rss <$> probe demo_telemetry "cuda") = Some (Some 11)
  /\ (probe demo_telemetry "cuda" = None <->
      forall sn, sn ∈ (snapshots demo_telemetry).*2 -> snap_devices sn !! "cuda" = None).
Proof.
  split; [vm_compute; reflexivity|].
  refine (proj1 (probe_spec 2 demo_telemetry "cuda" _)).
  apply (update_wf 1); [vm_compute; discriminate | lia |].
  apply (update_wf 0); [vm_compute; discriminate | lia | apply telemetry_init_wf].
Defined.
