(* ===== verification/Governor.v ===== *)
(** Governor: the memory arbiter (dinkster_memory/governor.py).  Budgets,
    the reserved-bytes ledger, the registered consumers in shedding order,
    targeted shedding, and the admission loop of a reservation.

    A consumer of memory is code outside the governor: the class [Shedder]
    is the protocol it implements, over a world [W] of consumer states.  The
    clock is an integer.  One iteration of the admission loop runs between two
    suspension points, so [admit_step] is one atomic step; waiting for a
    release and shedding are where other requests interleave. *)
From S2P Require Import Prelude PyStr Telemetry.

Local Open Scope string_scope.
Local Open Scope Z_scope.
Local Open Scope list_scope.

(** * The consumer protocol *)

Record PressureSignal := {
  p_device : string;
  bytes_needed : Z;
  p_items : option (list string);
}.

(** An exception of a consumer's own code, by name. *)
Record consumer_error := { consumer_exn : string }.

(** The protocol [Shedder]: the bytes a consumer holds on a device, and giving
    bytes back; [detailed] is [isinstance(.., DetailedConsumer)]. *)
Class Shedder (S W : Type) := {
  footprint_of : S -> string -> W -> Z;
  shed_of : S -> PressureSignal -> W -> result consumer_error Z * W;
  detailed : S -> bool;
}.

(** What the documentation of the protocol asks of a consumer that has freed
    [f] bytes: its footprint on the device is down by exactly [f], and nobody
    else's moved. *)
Class HonestShedder (S W : Type) `{Shedder S W} := {
  footprint_nonneg : forall s d w, 0 <= footprint_of s d w;
  shed_nonneg : forall s p w f w', shed_of s p w = (Ok f, w') -> 0 <= f;
  shed_frees : forall s p w f w', shed_of s p w = (Ok f, w') ->
    footprint_of s (p_device p) w' = footprint_of s (p_device p) w - f;
  shed_frame : forall s p w r w' s', shed_of s p w = (r, w') -> s' <> s ->
    footprint_of s' (p_device p) w' = footprint_of s' (p_device p) w;
}.

(** * State *)

Record Reservation := {
  reservation_id : string;
  res_device : string;
  res_nbytes : Z;
}.

#[export] Instance reservation_eq_dec : EqDecision Reservation.
Proof. solve_decision. Defined.

Inductive gov_error :=
| NegativeBudget (device : string)
| NegativeSize
| ItemsNeedOneConsumer
| BudgetExceeded (nbytes budget : Z) (device : string)
| ReservationTimeout (nbytes : Z) (device : string)
| ShedFailed (e : consumer_error).

Section governor.
Context {S W : Type} `{EqDecision S} `{Shedder S W}.

Record RegisteredShedder := {
  order : nat;
  priority : Z;
  sh_name : string;
  shedder : S;
}.

Record MemoryGovernor := {
  budgets : gmap string Z;
  reserved_map : gmap string Z;
  peaks : gmap string Z;
  reservations : gmap string Reservation;
  shedders : list RegisteredShedder;
  next_id : N;
  next_order : nat;
}.

Definition set_budgets b g := {| budgets := b; reserved_map := reserved_map g; peaks := peaks g;
  reservations := reservations g; shedders := shedders g; next_id := next_id g;
  next_order := next_order g |}.

Definition set_peaks p g := {| budgets := budgets g; reserved_map := reserved_map g; peaks := p;
  reservations := reservations g; shedders := shedders g; next_id := next_id g;
  next_order := next_order g |}.

Definition set_shedders l n g := {| budgets := budgets g; reserved_map := reserved_map g;
  peaks := peaks g; reservations := reservations g; shedders := l; next_id := next_id g;
  next_order := n |}.

Definition set_ledger r rs n g := {| budgets := budgets g; reserved_map := r; peaks := peaks g;
  reservations := rs; shedders := shedders g; next_id := n; next_order := next_order g |}.

(** [__init__]: every declared budget is checked. *)
Definition governor_init (declared : gmap string Z) : result gov_error MemoryGovernor :=
  match map_to_list (filter (fun e => e.2 < 0) declared) with
  | (device, _) :: _ => Err (NegativeBudget device)
  | [] => Ok {| budgets := declared; reserved_map := ∅; peaks := ∅; reservations := ∅;
                shedders := []; next_id := 1; next_order := 0 |}
  end.

(** * Configuration *)

Definition set_budget (g : MemoryGovernor) (device : string) (nbytes : Z) :
  result gov_error MemoryGovernor :=
  if nbytes <? 0 then Err (NegativeBudget device)
  else Ok (set_budgets (<[device := nbytes]> (budgets g)) g).

(** The sort key [(priority, order)]. *)
Definition key_le (a b : RegisteredShedder) : Prop :=
  priority a < priority b \/ (priority a = priority b /\ (order a <= order b)%nat).

#[export] Instance key_le_dec : RelDecision key_le.
Proof. intros a b. unfold key_le. apply _. Defined.

Definition register_shedder (g : MemoryGovernor) (s : S) (prio : Z) (name : string)
  (type_name : string) : MemoryGovernor :=
  let entry := {| order := next_order g; priority := prio;
                  sh_name := if String.eqb name "" then type_name else name;
                  shedder := s |} in
  set_shedders (merge_sort key_le (shedders g ++ [entry])) (1 + next_order g) g.

Definition unregister_shedder (g : MemoryGovernor) (s : S) : MemoryGovernor :=
  set_shedders (filter (fun r => shedder r <> s) (shedders g)) (next_order g) g.

(** * Accounting *)

Definition reserved (g : MemoryGovernor) (device : string) : Z :=
  default 0 (reserved_map g !! device).

Definition footprint (g : MemoryGovernor) (w : W) (device : string) : Z :=
  zsum ((fun r => footprint_of (shedder r) device w) <$> shedders g).

Definition available (g : MemoryGovernor) (w : W) (device : string) : option Z :=
  match budgets g !! device with
  | None => None
  | Some budget => Some (budget - reserved g device - footprint g w device)
  end.

Definition fits (g : MemoryGovernor) (w : W) (device : string) (nbytes budget : Z) : bool :=
  reserved g device + footprint g w device + nbytes <=? budget.

(** The telemetry seat: [None] when no probe is wired; the probe answers None
    when it raises or has no measurement. *)
Abbreviation probe_fn := (option (string -> option MeasuredMemory)).

Definition measure (telemetry : probe_fn) (device : string) : option (list (string * pyval)) :=
  match telemetry with
  | None => None
  | Some probe => probe device ≫= to_wire
  end.

Definition measured_used (measured : option (list (string * pyval))) : option Z :=
  match measured with
  | None => None
  | Some m =>
      let free := match dict_get m "driverFreeBytes" with
                  | Some v => Some v
                  | None => dict_get m "freeBytes"
                  end in
      match dict_get m "totalBytes", free with
      | Some (VInt total), Some (VInt free) => Some (Z.max 0 (total - free))
      | _, _ => None
      end
  end.

Record device_status := {
  budgetBytes : option Z;
  reservedBytes : Z;
  consumerFootprintBytes : Z;
  availableBytes : option Z;
  measured : option (list (string * pyval));
  peakUsedBytes : option Z;
  consumers : list (string * Z);
}.

(** The loop body of [status] for one device: the updated peaks and the row. *)
Definition status_device (telemetry : probe_fn) (w : W) (g : MemoryGovernor) (device : string) :
  MemoryGovernor * device_status :=
  let m := measure telemetry device in
  let g' := match measured_used m with
            | Some u => set_peaks (<[device := Z.max (default 0 (peaks g !! device)) u]> (peaks g)) g
            | None => g
            end in
  (g', {| budgetBytes := budgets g' !! device;
          reservedBytes := reserved g' device;
          consumerFootprintBytes := footprint g' w device;
          availableBytes := available g' w device;
          measured := m;
          peakUsedBytes := match measured_used m with Some _ => peaks g' !! device | None => None end;
          consumers := foldl (fun d r => dict_set d (sh_name r) (footprint_of (shedder r) device w))
                         [] (shedders g') |}).

Fixpoint status_devices (telemetry : probe_fn) (w : W) (g : MemoryGovernor) (ds : list string) :
  MemoryGovernor * list (string * device_status) :=
  match ds with
  | [] => (g, [])
  | d :: ds' =>
      let '(g1, row) := status_device telemetry w g d in
      let '(g2, rows) := status_devices telemetry w g1 ds' in
      (g2, (d, row) :: rows)
  end.

(** [status]: [enumerated] is what the telemetry's device enumeration gave,
    None when none is wired or it raised. *)
Definition status (telemetry : probe_fn) (enumerated : option (gset string)) (w : W)
  (g : MemoryGovernor) : MemoryGovernor * list (string * device_status) :=
  let devices := dom (budgets g) ∪ dom (reserved_map g) ∪ default ∅ enumerated in
  status_devices telemetry w g (sorted_set devices).

Definition reset_peak (telemetry : probe_fn) (g : MemoryGovernor) (device : string) :
  MemoryGovernor * option Z :=
  match measured_used (measure telemetry device) with
  | None => (set_peaks (delete device (peaks g)) g, None)
  | Some u => (set_peaks (<[device := u]> (peaks g)) g, Some u)
  end.

(** [_live_ram_shortfall]: [sysmem] is the effective available RAM, None when
    the snapshot raised. *)
Definition live_ram_shortfall (sysmem : option Z) (g : MemoryGovernor) (w : W)
  (device : string) (nbytes : Z) : Z :=
  if negb (String.eqb device "ram") || (nbytes <=? 0) || (match shedders g with [] => true | _ => false end)
  then 0
  else if footprint g w device <=? 0 then 0
  else match sysmem with
       | None => 0
       | Some available => Z.max 0 (nbytes - available)
       end.

(** * Shedding *)

(** A consumer the restriction of [shed] passes over. *)
Definition skipped (names : option (list string)) (items : option (list string))
  (r : RegisteredShedder) : bool :=
  match names with
  | Some ns => negb (bool_decide (sh_name r ∈ ns))
  | None => false
  end
  || match items with
     | Some _ => negb (detailed (shedder r))
     | None => false
     end.

Fixpoint shed_loop (device : string) (names items : option (list string))
  (rs : list RegisteredShedder) (remaining freed_total : Z) (w : W) :
  result gov_error Z * W :=
  match rs with
  | [] => (Ok freed_total, w)
  | r :: rs' =>
      if remaining <=? 0 then (Ok freed_total, w)
      else if skipped names items r
      then shed_loop device names items rs' remaining freed_total w
      else
        match shed_of (shedder r)
                {| p_device := device; bytes_needed := remaining; p_items := items |} w with
        | (Ok freed, w') =>
            shed_loop device names items rs' (remaining - freed) (freed_total + freed) w'
        | (Err e, w') => (Err (ShedFailed e), w')
        end
  end.

Definition shed (g : MemoryGovernor) (w : W) (device : string) (nbytes : Z)
  (names items : option (list string)) : result gov_error Z * W :=
  match items with
  | Some its =>
      match names with
      | Some [n] => shed_loop device names items (shedders g) nbytes 0 w
      | _ => (Err ItemsNeedOneConsumer, w)
      end
  | None => shed_loop device names items (shedders g) nbytes 0 w
  end.

(** * Reservations *)

(** The local variables of one [_admit] call. *)
Record admission := {
  ad_device : string;
  ad_nbytes : Z;
  ad_deadline : option Z;
  ad_live_shortfall : Z;
  ad_shed_attempted : bool;
}.

(** [reserve] up to [_admit]'s loop. *)
Definition begin_reserve (sysmem : option Z) (g : MemoryGovernor) (w : W) (now : Z)
  (device : string) (nbytes : Z) (timeout : option Z) : result gov_error admission :=
  if nbytes <? 0 then Err NegativeSize
  else
    let over := match budgets g !! device with Some b => b <? nbytes | None => false end in
    Ok {| ad_device := device; ad_nbytes := nbytes;
          ad_deadline := (fun t => now + t) <$> timeout;
          ad_live_shortfall := if over then 0 else live_ram_shortfall sysmem g w device nbytes;
          ad_shed_attempted := false |}.

Definition remaining_time (now : Z) (a : admission) : option Z :=
  (fun deadline => deadline - now) <$> ad_deadline a.

Definition expired (now : Z) (a : admission) : bool :=
  match remaining_time now a with Some r => r <=? 0 | None => false end.

(** [_record]. *)
Definition record (g : MemoryGovernor) (device : string) (nbytes : Z) :
  MemoryGovernor * Reservation :=
  let r := {| reservation_id := "r" +:+ pretty (next_id g); res_device := device;
              res_nbytes := nbytes |} in
  (set_ledger (<[device := reserved g device + nbytes]> (reserved_map g))
     (<[reservation_id r := r]> (reservations g)) (next_id g + 1)%N g, r).

(** What one iteration of the admission loop does. *)
Inductive admit_action :=
| Granted (r : Reservation) (total : Z)
| Raised (e : gov_error)
| WaitRelease (remaining : option Z)
| ShedFirst (shortfall : Z) (budget_pressure : bool) (remaining : option Z)
| Retry (a : admission).

Definition shed_phase (now : Z) (a : admission) (shortfall : Z) (budget_pressure : bool) :
  admit_action :=
  if expired now a
  then if budget_pressure then Raised (ReservationTimeout (ad_nbytes a) (ad_device a))
       else Retry {| ad_device := ad_device a; ad_nbytes := ad_nbytes a;
                     ad_deadline := ad_deadline a; ad_live_shortfall := 0;
                     ad_shed_attempted := ad_shed_attempted a |}
  else ShedFirst shortfall budget_pressure (remaining_time now a).

Definition admit_step (now : Z) (g : MemoryGovernor) (w : W) (a : admission) :
  admit_action * MemoryGovernor :=
  let device := ad_device a in
  let nbytes := ad_nbytes a in
  let budget := budgets g !! device in
  let ok := match budget with None => true | Some b => fits g w device nbytes b end in
  let over := match budget with Some b => b <? nbytes | None => false end in
  if over
  then (Raised (BudgetExceeded nbytes (default 0 budget) device), g)
  else if negb (ad_shed_attempted a) && ((0 <? ad_live_shortfall a) || negb ok)
  then
    let budget_pressure := negb ok in
    let shortfall := match budget with
                     | Some b => if ok then 0 else reserved g device + footprint g w device + nbytes - b
                     | None => 0
                     end in
    (shed_phase now a (Z.max shortfall (ad_live_shortfall a)) budget_pressure, g)
  else if ok
  then let '(g', r) := record g device nbytes in (Granted r (reserved g' device), g')
  else if reserved g device =? 0
  then (Raised (ReservationTimeout nbytes device), g)
  else if expired now a
  then (Raised (ReservationTimeout nbytes device), g)
  else (WaitRelease (remaining_time now a), g).

(** The condition wait ended: notified, or timed out. *)
Definition after_wait (timed_out : bool) (a : admission) : result gov_error admission :=
  if timed_out then Err (ReservationTimeout (ad_nbytes a) (ad_device a))
  else Ok {| ad_device := ad_device a; ad_nbytes := ad_nbytes a; ad_deadline := ad_deadline a;
             ad_live_shortfall := ad_live_shortfall a; ad_shed_attempted := false |}.

Inductive shed_outcome := ShedDone | ShedTimedOut | ShedRaised (e : gov_error).

(** The shed call ended. *)
Definition after_shed (outcome : shed_outcome) (budget_pressure : bool) (a : admission) :
  result gov_error admission :=
  let next := {| ad_device := ad_device a; ad_nbytes := ad_nbytes a;
                 ad_deadline := ad_deadline a; ad_live_shortfall := 0;
                 ad_shed_attempted := budget_pressure |} in
  match outcome with
  | ShedDone => Ok next
  | ShedTimedOut =>
      if budget_pressure then Err (ReservationTimeout (ad_nbytes a) (ad_device a)) else Ok next
  | ShedRaised e => if budget_pressure then Err e else Ok next
  end.

(** [_release]: the governor, and the new total when a reservation was live. *)
Definition release (g : MemoryGovernor) (r : Reservation) : MemoryGovernor * option Z :=
  match reservations g !! reservation_id r with
  | None => (g, None)
  | Some _ =>
      let total := reserved g (res_device r) - res_nbytes r in
      (set_ledger (<[res_device r := total]> (reserved_map g))
         (delete (reservation_id r) (reservations g)) (next_id g) g, Some total)
  end.

(** * Many requests over one governor *)

(** Where one [reserve] call is. *)
Inductive task :=
| Running (a : admission)
| Waiting (a : admission)
| Shedding (a : admission) (budget_pressure : bool)
| Holding (r : Reservation)
| Finished (e : option gov_error).

Record system := {
  sys_gov : MemoryGovernor;
  sys_world : W;
  sys_tasks : gmap nat task;
}.

(** The task an iteration of the loop leaves. *)
Definition after_step (a : admission) (act : admit_action) : task :=
  match act with
  | Granted r _ => Holding r
  | Raised e => Finished (Some e)
  | WaitRelease _ => Waiting a
  | ShedFirst _ bp _ => Shedding a bp
  | Retry a' => Running a'
  end.

Definition resume (r : result gov_error admission) : task :=
  match r with Ok a => Running a | Err e => Finished (Some e) end.

(** [notify_all]. *)
Definition wake (t : task) : task :=
  match t with Waiting a => resume (after_wait false a) | _ => t end.

(** A consumer's state changes, another request arrives, runs to its next
    suspension point, times out, is cancelled or releases; the operator
    reconfigures; telemetry is read. *)
Inductive step : system -> system -> Prop :=
| step_world s w :
    step s {| sys_gov := sys_gov s; sys_world := w; sys_tasks := sys_tasks s |}
| step_begin s t sysmem now device nbytes timeout a :
    sys_tasks s !! t = None ->
    begin_reserve sysmem (sys_gov s) (sys_world s) now device nbytes timeout = Ok a ->
    step s {| sys_gov := sys_gov s; sys_world := sys_world s;
              sys_tasks := <[t := Running a]> (sys_tasks s) |}
| step_iterate s t now a act g :
    sys_tasks s !! t = Some (Running a) ->
    admit_step now (sys_gov s) (sys_world s) a = (act, g) ->
    step s {| sys_gov := g; sys_world := sys_world s;
              sys_tasks := <[t := after_step a act]> (sys_tasks s) |}
| step_wait_timeout s t a :
    sys_tasks s !! t = Some (Waiting a) ->
    step s {| sys_gov := sys_gov s; sys_world := sys_world s;
              sys_tasks := <[t := resume (after_wait true a)]> (sys_tasks s) |}
| step_shed_ends s t a bp outcome w :
    sys_tasks s !! t = Some (Shedding a bp) ->
    step s {| sys_gov := sys_gov s; sys_world := w;
              sys_tasks := <[t := resume (after_shed outcome bp a)]> (sys_tasks s) |}
| step_cancel s t tk :
    sys_tasks s !! t = Some tk -> (forall r, tk <> Holding r) ->
    step s {| sys_gov := sys_gov s; sys_world := sys_world s;
              sys_tasks := <[t := Finished None]> (sys_tasks s) |}
| step_release s t r g total :
    sys_tasks s !! t = Some (Holding r) ->
    release (sys_gov s) r = (g, total) ->
    step s {| sys_gov := g; sys_world := sys_world s;
              sys_tasks := wake <$> <[t := Finished None]> (sys_tasks s) |}
| step_set_budget s device nbytes g :
    set_budget (sys_gov s) device nbytes = Ok g ->
    step s {| sys_gov := g; sys_world := sys_world s; sys_tasks := sys_tasks s |}
| step_register s c prio name type_name :
    step s {| sys_gov := register_shedder (sys_gov s) c prio name type_name;
              sys_world := sys_world s; sys_tasks := sys_tasks s |}
| step_unregister s c :
    step s {| sys_gov := unregister_shedder (sys_gov s) c;
              sys_world := sys_world s; sys_tasks := sys_tasks s |}
| step_status s telemetry enumerated :
    step s {| sys_gov := (status telemetry enumerated (sys_world s) (sys_gov s)).1;
              sys_world := sys_world s; sys_tasks := sys_tasks s |}
| step_reset_peak s telemetry device :
    step s {| sys_gov := (reset_peak telemetry (sys_gov s) device).1;
              sys_world := sys_world s; sys_tasks := sys_tasks s |}.

(** A fresh governor with no request in flight. *)
Definition initial (s : system) : Prop :=
  (exists declared, governor_init declared = Ok (sys_gov s)) /\ sys_tasks s = ∅.

Definition reachable (s : system) : Prop := exists s0, initial s0 /\ star step s0 s.

(** * The ledger *)

(** Bytes of the outstanding reservations on a device. *)
Definition outstanding (rs : gmap string Reservation) (device : string) : Z :=
  zsum ((fun e : string * Reservation =>
           if decide (res_device e.2 = device) then res_nbytes e.2 else 0) <$> map_to_list rs).

Lemma outstanding_empty device : outstanding ∅ device = 0.
Proof. unfold outstanding. by rewrite map_to_list_empty. Qed.

Lemma outstanding_insert rs r device :
  rs !! reservation_id r = None ->
  outstanding (<[reservation_id r := r]> rs) device =
  (if decide (res_device r = device) then res_nbytes r else 0) + outstanding rs device.
Proof. intros Hr. unfold outstanding. by rewrite map_to_list_insert. Qed.

Lemma outstanding_delete rs r device :
  rs !! reservation_id r = Some r ->
  outstanding (delete (reservation_id r) rs) device =
  outstanding rs device - (if decide (res_device r = device) then res_nbytes r else 0).
Proof.
  intros Hr. rewrite <- (insert_delete_id _ _ _ Hr) at 2.
  rewrite outstanding_insert by apply lookup_delete_eq. lia.
Qed.

Lemma outstanding_pos rs device :
  0 < outstanding rs device ->
  exists id r, rs !! id = Some r /\ res_device r = device /\ 0 < res_nbytes r.
Proof.
  intros ([id r] & Hin & Hr)%zsum_pos_elem. apply elem_of_map_to_list in Hin. cbn in Hr.
  exists id, r. by case_decide.
Qed.

Definition ledger_ok (g : MemoryGovernor) : Prop :=
  (forall d, reserved g d = outstanding (reservations g) d)
  /\ (forall id r, reservations g !! id = Some r ->
        reservation_id r = id /\ 0 <= res_nbytes r
        /\ exists n, (n < next_id g)%N /\ id = "r" +:+ pretty n).

(** The ledger part of a governor, which configuration leaves alone. *)
Definition same_ledger (g g' : MemoryGovernor) : Prop :=
  reserved_map g' = reserved_map g /\ reservations g' = reservations g /\ next_id g' = next_id g.

Lemma same_ledger_refl g : same_ledger g g.
Proof. done. Qed.

Lemma same_ledger_ok g g' : same_ledger g g' -> ledger_ok g -> ledger_ok g'.
Proof.
  intros (Hm & Hr & Hn) [Hsum Hid]. unfold ledger_ok, reserved in *.
  rewrite Hm, Hr, Hn. done.
Qed.

Lemma set_budget_same g device nbytes g' : set_budget g device nbytes = Ok g' -> same_ledger g g'.
Proof. unfold set_budget. destruct (nbytes <? 0); [done|]. by intros [= <-]. Qed.

Lemma status_same telemetry enumerated w g :
  same_ledger g (status telemetry enumerated w g).1
  /\ shedders (status telemetry enumerated w g).1 = shedders g
  /\ budgets (status telemetry enumerated w g).1 = budgets g.
Proof.
  unfold status. generalize (sorted_set (dom (budgets g) ∪ dom (reserved_map g) ∪ default ∅ enumerated)).
  intros ds. revert g. induction ds as [|d ds IH]; intros g; [done|]. cbn [status_devices].
  destruct (status_device telemetry w g d) as [g1 row] eqn:H1.
  destruct (status_devices telemetry w g1 ds) as [g2 rows] eqn:H2.
  specialize (IH g1). rewrite H2 in IH. cbn in IH |- *.
  assert (same_ledger g g1 /\ shedders g1 = shedders g /\ budgets g1 = budgets g) as (Ha & Hb & Hc).
  { unfold status_device in H1. destruct (measured_used _); by injection H1 as <- _. }
  destruct Ha as (? & ? & ?), IH as ((? & ? & ?) & ? & ?). unfold same_ledger.
  split_and!; congruence.
Qed.

Lemma reset_peak_same telemetry g device : same_ledger g (reset_peak telemetry g device).1.
Proof. unfold reset_peak. by destruct (measured_used _). Qed.

Lemma record_ledger g device nbytes g' r :
  ledger_ok g -> 0 <= nbytes -> record g device nbytes = (g', r) ->
  ledger_ok g' /\ reservations g !! reservation_id r = None
  /\ reservations g' = <[reservation_id r := r]> (reservations g)
  /\ res_device r = device /\ res_nbytes r = nbytes
  /\ budgets g' = budgets g /\ shedders g' = shedders g
  /\ (forall d, reserved g' d = reserved g d + if decide (device = d) then nbytes else 0).
Proof.
  intros [Hsum Hid] Hn [= <- <-]. cbn.
  assert (Hfresh : reservations g !! ("r" +:+ pretty (next_id g)) = None).
  { apply eq_None_not_Some. intros [r Hr].
    destruct (Hid _ _ Hr) as (_ & _ & n & Hlt & Heq).
    apply str_app_inj_l, (inj pretty) in Heq. lia. }
  assert (Hres : forall d, default 0 (<[device:=reserved g device + nbytes]> (reserved_map g) !! d)
    = reserved g d + if decide (device = d) then nbytes else 0).
  { intros d. rewrite lookup_insert. case_decide; subst; [done|]. unfold reserved. lia. }
  split_and!; try done. split.
  - intros d. unfold reserved at 1. cbn. rewrite Hres, Hsum.
    set (r := {| reservation_id := _ |}).
    rewrite (outstanding_insert _ r) by done. cbn. lia.
  - intros id r. cbn. rewrite lookup_insert. case_decide; subst.
    + intros [= <-]. cbn. split_and!; [done|done|]. exists (next_id g). split; [lia|done].
    + intros Hr. destruct (Hid _ _ Hr) as (? & ? & n & ? & ?). split_and!; [done|done|].
      exists n. split; [lia|done].
Qed.

Lemma release_ledger g r g' total :
  ledger_ok g -> reservations g !! reservation_id r = Some r -> release g r = (g', total) ->
  ledger_ok g' /\ reservations g' = delete (reservation_id r) (reservations g)
  /\ budgets g' = budgets g /\ shedders g' = shedders g
  /\ total = Some (reserved g' (res_device r))
  /\ (forall d, reserved g' d = reserved g d - if decide (res_device r = d) then res_nbytes r else 0).
Proof.
  intros [Hsum Hid] Hr Hrel. unfold release in Hrel. rewrite Hr in Hrel. injection Hrel as <- <-.
  assert (Hres : forall d, default 0 (<[res_device r := reserved g (res_device r) - res_nbytes r]>
      (reserved_map g) !! d) = reserved g d - if decide (res_device r = d) then res_nbytes r else 0).
  { intros d. rewrite lookup_insert. case_decide; subst; [done|]. unfold reserved. lia. }
  split_and!; try done.
  - split.
    + intros d. unfold reserved at 1. cbn. rewrite Hres, Hsum, outstanding_delete by done. lia.
    + intros id r'. cbn. rewrite lookup_delete. case_decide; [done|]. apply Hid.
  - cbn. unfold reserved. cbn. by rewrite lookup_insert_eq.
Qed.

(** * The system invariant *)

(** The admission a task is working on. *)
Definition task_admission (t : task) : option admission :=
  match t with Running a | Waiting a | Shedding a _ => Some a | _ => None end.

Record sys_ok (s : system) : Prop := {
  ok_ledger : ledger_ok (sys_gov s);
  ok_held : forall t r, sys_tasks s !! t = Some (Holding r) ->
    reservations (sys_gov s) !! reservation_id r = Some r;
  ok_holder : forall id r, reservations (sys_gov s) !! id = Some r ->
    exists t, sys_tasks s !! t = Some (Holding r);
  ok_distinct : forall t t' r r', sys_tasks s !! t = Some (Holding r) ->
    sys_tasks s !! t' = Some (Holding r') -> reservation_id r = reservation_id r' -> t = t';
  ok_sizes : forall t tk a, sys_tasks s !! t = Some tk -> task_admission tk = Some a ->
    0 <= ad_nbytes a;
  ok_waiters : forall t a, sys_tasks s !! t = Some (Waiting a) ->
    0 < reserved (sys_gov s) (ad_device a);
}.

Lemma sys_ok_reserved_nonneg s d : sys_ok s -> 0 <= reserved (sys_gov s) d.
Proof.
  intros Hok. destruct (ok_ledger s Hok) as [-> Hid]. unfold outstanding. apply zsum_nonneg.
  apply Forall_fmap, Forall_forall. intros [id r] Hin%elem_of_map_to_list. cbn.
  case_decide; [|lia]. by destruct (Hid _ _ Hin) as (_ & ? & _).
Qed.

Lemma initial_ok s : initial s -> sys_ok s.
Proof.
  intros [[declared Hg] Ht]. unfold governor_init in Hg.
  destruct (map_to_list _) as [|[]]; [|done]. injection Hg as Hg.
  constructor; rewrite ?Ht, <- ?Hg; cbn; try (intros *; by rewrite lookup_empty).
  split; [|cbn; by intros ?? ?%lookup_empty_Some]. intros d. unfold reserved. cbn.
  by rewrite lookup_empty, outstanding_empty.
Qed.

(** A step that keeps the ledger and the holders, and makes no new waiter. *)
Lemma sys_ok_frame s g w ts :
  sys_ok s -> same_ledger (sys_gov s) g ->
  (forall t r, ts !! t = Some (Holding r) <-> sys_tasks s !! t = Some (Holding r)) ->
  (forall t tk a, ts !! t = Some tk -> task_admission tk = Some a -> 0 <= ad_nbytes a) ->
  (forall t a, ts !! t = Some (Waiting a) ->
     sys_tasks s !! t = Some (Waiting a) \/ 0 < reserved (sys_gov s) (ad_device a)) ->
  sys_ok {| sys_gov := g; sys_world := w; sys_tasks := ts |}.
Proof.
  intros [Hl Hh Hho Hd Hs Hw] Hg Hhold Hsize Hwait.
  assert (Hres : forall d, reserved g d = reserved (sys_gov s) d).
  { destruct Hg as (Hm & _). intros d. unfold reserved. by rewrite Hm. }
  destruct Hg as (Hm & Hr & Hn). constructor; cbn.
  - by apply (same_ledger_ok (sys_gov s)).
  - intros t r Ht. rewrite Hr. apply (Hh t), Hhold, Ht.
  - intros id r Hid. rewrite Hr in Hid. destruct (Hho id r Hid) as [t Ht]. exists t. by apply Hhold.
  - intros t t' r r' ?%Hhold ?%Hhold. by eapply Hd.
  - done.
  - intros t a Ht. rewrite Hres. destruct (Hwait t a Ht); [by eapply Hw | done].
Qed.

(** Replacing one non-holding task by another. *)
Lemma sys_ok_retask s t tk0 tk g w :
  sys_ok s -> same_ledger (sys_gov s) g ->
  (sys_tasks s !! t = None \/ sys_tasks s !! t = Some tk0) ->
  (forall r, tk0 <> Holding r) -> (forall r, tk <> Holding r) ->
  (forall a, task_admission tk = Some a -> 0 <= ad_nbytes a) ->
  (forall a, tk = Waiting a -> 0 < reserved (sys_gov s) (ad_device a)) ->
  sys_ok {| sys_gov := g; sys_world := w; sys_tasks := <[t := tk]> (sys_tasks s) |}.
Proof.
  intros Hok Hg Ht Hn0 Hn Hsize Hwait. apply (sys_ok_frame s); [done|done|..].
  - intros t' r. rewrite lookup_insert. case_decide; subst; [|done].
    split; [intros [= ->]; by destruct (Hn r)|].
    intros Hr. destruct Ht as [Ht|Ht]; rewrite Ht in Hr; [done|].
    injection Hr as ->. by destruct (Hn0 r).
  - intros t' tk' a. rewrite lookup_insert. case_decide; subst; [|apply (ok_sizes s Hok)].
    intros [= <-]. apply Hsize.
  - intros t' a. rewrite lookup_insert. case_decide; subst; [|by left].
    intros [= ->]. right. by apply Hwait.
Qed.

Lemma begin_reserve_size sysmem g w now device nbytes timeout a :
  begin_reserve sysmem g w now device nbytes timeout = Ok a -> 0 <= ad_nbytes a.
Proof. unfold begin_reserve. destruct (nbytes <? 0) eqn:E; [done|]. intros [= <-]. cbn. lia. Qed.

Lemma after_shed_size outcome bp a a' : after_shed outcome bp a = Ok a' -> ad_nbytes a' = ad_nbytes a.
Proof. unfold after_shed. destruct outcome, bp; intros; by simplify_eq. Qed.

(** Every action of an iteration, with the branch condition that chose it. *)
Inductive admit_spec (now : Z) (g : MemoryGovernor) (w : W) (a : admission) :
  admit_action -> MemoryGovernor -> Prop :=
| spec_over b : budgets g !! ad_device a = Some b -> b < ad_nbytes a ->
    admit_spec now g w a (Raised (BudgetExceeded (ad_nbytes a) b (ad_device a))) g
| spec_grant g' r : record g (ad_device a) (ad_nbytes a) = (g', r) ->
    (forall b, budgets g !! ad_device a = Some b -> fits g w (ad_device a) (ad_nbytes a) b = true) ->
    admit_spec now g w a (Granted r (reserved g' (ad_device a))) g'
| spec_shed shortfall bp act : ad_shed_attempted a = false ->
    act = shed_phase now a shortfall bp -> 0 < shortfall -> (bp = false -> 0 < ad_live_shortfall a) ->
    (bp = true -> exists b, budgets g !! ad_device a = Some b /\ fits g w (ad_device a) (ad_nbytes a) b = false) ->
    admit_spec now g w a act g
| spec_alone : reserved g (ad_device a) = 0 -> ad_shed_attempted a = true ->
    admit_spec now g w a (Raised (ReservationTimeout (ad_nbytes a) (ad_device a))) g
| spec_late : expired now a = true -> ad_shed_attempted a = true ->
    admit_spec now g w a (Raised (ReservationTimeout (ad_nbytes a) (ad_device a))) g
| spec_wait b : reserved g (ad_device a) <> 0 -> ad_shed_attempted a = true ->
    budgets g !! ad_device a = Some b -> fits g w (ad_device a) (ad_nbytes a) b = false ->
    expired now a = false ->
    admit_spec now g w a (WaitRelease (remaining_time now a)) g.

Lemma admit_step_spec now g w a act g' :
  admit_step now g w a = (act, g') -> admit_spec now g w a act g'.
Proof.
  unfold admit_step. destruct (budgets g !! ad_device a) as [b|] eqn:Hb.
  - destruct (b <? ad_nbytes a) eqn:Hover.
    { intros [= <- <-]. apply spec_over; [done|lia]. }
    destruct (fits g w (ad_device a) (ad_nbytes a) b) eqn:Hfit; cbn [negb orb].
    + rewrite orb_false_r. destruct (negb (ad_shed_attempted a) && (0 <? ad_live_shortfall a)) eqn:Hlive.
      * apply andb_true_iff in Hlive as [Hs%negb_true_iff Hl]. intros [= <- <-].
        eapply spec_shed; [done|done|lia|lia|done].
      * destruct (record g (ad_device a) (ad_nbytes a)) as [g1 r] eqn:Hrec.
        intros [= <- <-]. eapply spec_grant; [done|]. intros b' Hb'. congruence.
    + rewrite orb_true_r, andb_true_r. destruct (ad_shed_attempted a) eqn:Hs; cbn [negb].
      * destruct (reserved g (ad_device a) =? 0) eqn:Hz.
        { intros [= <- <-]. apply spec_alone; [lia|done]. }
        destruct (expired now a) eqn:Hex; intros [= <- <-]; [by apply spec_late|].
        eapply spec_wait; [lia|done|done|done|done].
      * intros [= <- <-]. eapply spec_shed; [done|done| |done|by eauto].
        unfold fits in Hfit. lia.
  - cbn [negb orb]. rewrite orb_false_r.
    destruct (negb (ad_shed_attempted a) && (0 <? ad_live_shortfall a)) eqn:Hlive.
    + apply andb_true_iff in Hlive as [Hs%negb_true_iff Hl]. intros [= <- <-].
      eapply spec_shed; [done|done|lia|lia|done].
    + destruct (record g (ad_device a) (ad_nbytes a)) as [g1 r] eqn:Hrec.
      intros [= <- <-]. eapply spec_grant; [done|]. intros b' Hb'. congruence.
Qed.

Lemma shed_phase_task now a shortfall bp :
  (forall r, after_step a (shed_phase now a shortfall bp) <> Holding r)
  /\ (forall a', after_step a (shed_phase now a shortfall bp) <> Waiting a')
  /\ (forall a', task_admission (after_step a (shed_phase now a shortfall bp)) = Some a' ->
        ad_nbytes a' = ad_nbytes a).
Proof. unfold shed_phase. destruct (expired now a), bp; cbn; split_and!; naive_solver. Qed.

Lemma grant_ok s t a g r total :
  sys_ok s -> sys_tasks s !! t = Some (Running a) ->
  record (sys_gov s) (ad_device a) (ad_nbytes a) = (g, r) ->
  sys_ok {| sys_gov := g; sys_world := sys_world s;
            sys_tasks := <[t := after_step a (Granted r total)]> (sys_tasks s) |}.
Proof.
  intros Hok Ht Hrec. assert (0 <= ad_nbytes a) as Hn by (by eapply (ok_sizes s Hok)).
  destruct (record_ledger _ _ _ _ _ (ok_ledger s Hok) Hn Hrec)
    as (Hl & Hfresh & Hrs & Hd & Hb & _ & _ & Hres).
  assert (Hnew : forall t' r', t' <> t -> sys_tasks s !! t' = Some (Holding r') ->
    reservation_id r' <> reservation_id r).
  { intros t' r' _ Ht' Heq. pose proof (ok_held s Hok t' r' Ht') as Hr'. congruence. }
  constructor; cbn [sys_gov sys_tasks after_step].
  - done.
  - intros t' r'. rewrite Hrs, !lookup_insert. destruct (decide (t = t')) as [->|Hne].
    + intros [= <-]. by rewrite decide_True.
    + intros Ht'. rewrite decide_False; [by apply (ok_held s Hok t')|].
      intros Heq. by apply (Hnew t' r').
  - intros id r'. rewrite Hrs, lookup_insert. case_decide as Hid.
    + intros [= <-]. exists t. by rewrite lookup_insert_eq.
    + intros (t' & Ht')%(ok_holder s Hok). exists t'. rewrite lookup_insert_ne; congruence.
  - intros t1 t2 r1 r2. rewrite !lookup_insert. repeat case_decide; subst; try done.
    + intros [= <-] H2 Heq. exfalso. by apply (Hnew t2 r2); [..|symmetry].
    + intros H1 [= <-] Heq. exfalso. by apply (Hnew t1 r1).
    + apply (ok_distinct s Hok).
  - intros t' tk a'. rewrite lookup_insert. case_decide; [by intros [= <-]|]. apply (ok_sizes s Hok).
  - intros t' a'. rewrite lookup_insert. case_decide; [done|]. intros Hw.
    pose proof (ok_waiters s Hok t' a' Hw). rewrite Hres. case_decide; lia.
Qed.

Lemma wake_holding t r : wake t = Holding r <-> t = Holding r.
Proof. by destruct t. Qed.

Lemma wake_not_waiting t a : wake t <> Waiting a.
Proof. by destruct t. Qed.

Lemma wake_admission t a : task_admission (wake t) = Some a ->
  exists a', task_admission t = Some a' /\ ad_nbytes a' = ad_nbytes a.
Proof. destruct t; cbn; intros; simplify_eq; eauto. Qed.

Lemma release_ok s t r g total :
  sys_ok s -> sys_tasks s !! t = Some (Holding r) -> release (sys_gov s) r = (g, total) ->
  sys_ok {| sys_gov := g; sys_world := sys_world s;
            sys_tasks := wake <$> <[t := Finished None]> (sys_tasks s) |}.
Proof.
  intros Hok Ht Hrel.
  destruct (release_ledger _ _ _ _ (ok_ledger s Hok) (ok_held s Hok t r Ht) Hrel)
    as (Hl & Hrs & _ & _ & _ & Hres).
  assert (Hhold : forall t' r', (wake <$> <[t := Finished None]> (sys_tasks s)) !! t' = Some (Holding r')
    <-> t' <> t /\ sys_tasks s !! t' = Some (Holding r')).
  { intros t' r'. rewrite lookup_fmap, lookup_insert. case_decide; subst; cbn; [naive_solver|].
    destruct (sys_tasks s !! t') as [tk|] eqn:Htk; cbn; [|naive_solver]. split.
    - intros [= Hw]. split; [congruence|]. by rewrite (proj1 (wake_holding tk r') Hw).
    - intros [_ [= ->]]. done. }
  constructor; cbn [sys_gov sys_tasks].
  - done.
  - intros t' r' [Hne Ht']%Hhold. rewrite Hrs, lookup_delete_ne; [by apply (ok_held s Hok t')|].
    intros Heq. by apply Hne, (ok_distinct s Hok t' t r' r).
  - intros id r'. rewrite Hrs, lookup_delete. case_decide as Hid; [done|].
    intros Hr'. destruct (ok_holder s Hok id r' Hr') as [t' Ht']. exists t'. apply Hhold. split; [|done].
    intros ->. assert (r' = r) as -> by congruence.
    destruct (ok_ledger s Hok) as [_ Hids]. by destruct (Hids _ _ Hr') as (? & _).
  - intros t1 t2 r1 r2 [_ H1]%Hhold [_ H2]%Hhold. by apply (ok_distinct s Hok).
  - intros t' tk a'. rewrite lookup_fmap, lookup_insert. case_decide; cbn; [by intros [= <-]|].
    destruct (sys_tasks s !! t') as [tk0|] eqn:Htk; cbn; [|done].
    intros [= <-] (a0 & Ha0 & <-)%wake_admission. by apply (ok_sizes s Hok t' tk0).
  - intros t' a'. rewrite lookup_fmap. destruct (_ !! t'); cbn; [|done].
    intros [= Hw]. by apply wake_not_waiting in Hw.
Qed.

Lemma step_ok s s' : sys_ok s -> step s s' -> sys_ok s'.
Proof.
  intros Hok Hstep. assert (Hstutter : forall g w, same_ledger (sys_gov s) g ->
    sys_ok {| sys_gov := g; sys_world := w; sys_tasks := sys_tasks s |}).
  { intros g w Hg. apply (sys_ok_frame s); try done; [apply (ok_sizes s Hok) | by left]. }
  destruct Hstep as [s w|s t sysmem now device nbytes timeout a Ht Ha|s t now a act g Ht Hact
    |s t a Ht|s t a bp outcome w Ht|s t tk Ht Hn|s t r g total Ht Hrel|s device nbytes g Hg
    |s c prio name tn|s c|s tel en|s tel device].
  - by apply Hstutter.
  - eapply (sys_ok_retask s t (Finished None)); try done; [by left|].
    intros a' [= <-]. by eapply begin_reserve_size.
  - pose proof (ok_sizes s Hok t _ a Ht eq_refl) as Hsz.
    destruct (admit_step_spec _ _ _ _ _ _ Hact) as [b|g' r Hrec Hfit|sf bp act _ ->| | |b Hres].
    1,4,5: by eapply (sys_ok_retask s t (Running a)); try done; right.
    + by eapply grant_ok.
    + destruct (shed_phase_task now a sf bp) as (Hh & Hw & Hs).
      eapply (sys_ok_retask s t (Running a)); try done; [by right| |].
      * intros a' Ha'. by rewrite (Hs a' Ha').
      * intros a' Ha'. by destruct (Hw a').
    + eapply (sys_ok_retask s t (Running a)); try done; [by right| |].
      * by intros a' [= <-].
      * intros a' [= <-]. pose proof (sys_ok_reserved_nonneg s (ad_device a) Hok). lia.
  - by eapply (sys_ok_retask s t (Waiting a)); try done; right.
  - pose proof (ok_sizes s Hok t _ a Ht eq_refl) as Hsz.
    eapply (sys_ok_retask s t (Shedding a bp)); try done; [by right| | |].
    + intros r. unfold resume. by destruct (after_shed outcome bp a).
    + intros a'. unfold resume. destruct (after_shed outcome bp a) eqn:E; intros [= <-].
      by rewrite (after_shed_size _ _ _ _ E).
    + intros a'. unfold resume. by destruct (after_shed outcome bp a).
  - by eapply (sys_ok_retask s t tk); try done; right.
  - by eapply release_ok.
  - by eapply Hstutter, set_budget_same.
  - by apply Hstutter.
  - by apply Hstutter.
  - by apply Hstutter, status_same.
  - by apply Hstutter, reset_peak_same.
Qed.

Lemma reachable_ok s : reachable s -> sys_ok s.
Proof.
  intros (s0 & H0 & Hs). eapply (star_invariant step); [|exact Hs|by apply initial_ok].
  intros a b. apply step_ok.
Qed.

(** * The loop between two suspensions *)

(** What one iteration meets: the clock, the governor and the consumers as the
    other requests left them, and how a shed it starts will end. *)
Record observation := {
  ob_now : Z;
  ob_gov : MemoryGovernor;
  ob_world : W;
  ob_outcome : shed_outcome;
}.

Inductive settled :=
| SGranted (r : Reservation) (g : MemoryGovernor)
| SRaised (e : gov_error)
| SWaiting (a : admission).

(** The loop of [_admit] until it grants, raises or waits for a release, over
    a sequence of observations; None when the fuel runs out. *)
Fixpoint admit_loop (fuel : nat) (obs : nat -> observation) (a : admission) : option settled :=
  match fuel with
  | O => None
  | Datatypes.S fuel' =>
      let o := obs O in
      let later := fun i => obs (Datatypes.S i) in
      match admit_step (ob_now o) (ob_gov o) (ob_world o) a with
      | (Granted r _, g) => Some (SGranted r g)
      | (Raised e, _) => Some (SRaised e)
      | (WaitRelease _, _) => Some (SWaiting a)
      | (Retry a', _) => admit_loop fuel' later a'
      | (ShedFirst _ bp _, _) =>
          match after_shed (ob_outcome o) bp a with
          | Ok a' => admit_loop fuel' later a'
          | Err e => Some (SRaised e)
          end
      end
  end.

(** How many more sheds an admission may still start before it settles. *)
Definition sheds_left (a : admission) : nat :=
  if ad_shed_attempted a then 0
  else if 0 <? ad_live_shortfall a then 2 else 1.

Lemma admit_loop_mono k k' obs a x : (k <= k')%nat -> admit_loop k obs a = Some x -> admit_loop k' obs a = Some x.
Proof.
  revert k' obs a. induction k as [|k IH]; intros k' obs a Hk Hx; [done|].
  destruct k' as [|k']; [lia|]. cbn [admit_loop] in *.
  destruct (admit_step _ _ _ a) as [[] ?]; try done.
  - destruct (after_shed _ _ a); [|done]. apply IH; [lia|done].
  - apply IH; [lia|done].
Qed.

Lemma admit_loop_settles obs a : is_Some (admit_loop (Datatypes.S (sheds_left a)) obs a).
Proof.
  remember (sheds_left a) as n eqn:Hn. revert obs a Hn.
  induction n as [n IH] using lt_wf_ind. intros obs a Hn. cbn [admit_loop].
  set (o := obs O). destruct (admit_step (ob_now o) (ob_gov o) (ob_world o) a) as [act g] eqn:Hact.
  assert (Hnext : forall b, (sheds_left b < n)%nat -> forall ob, is_Some (admit_loop n ob b)).
  { intros b Hb ob. destruct (IH (sheds_left b) Hb ob b eq_refl) as [x Hx]. exists x.
    by apply (admit_loop_mono (Datatypes.S (sheds_left b))); [lia|]. }
  destruct (admit_step_spec _ _ _ _ _ _ Hact) as [b|g' r Hrec Hfit|sf bp act Hatt -> Hpos Hlive Hbp| | |b];
    try by eexists.
  assert (Hdrop : forall b, ad_live_shortfall b = 0 -> ad_shed_attempted b = bp -> (sheds_left b < n)%nat).
  { intros b Hb1 Hb2. subst n. unfold sheds_left. rewrite Hb1, Hb2, Hatt. cbn.
    destruct bp; [destruct (0 <? _); lia|]. rewrite (proj2 (Z.ltb_lt _ _) (Hlive eq_refl)). lia. }
  unfold shed_phase. destruct (expired _ _).
  - destruct bp; [by eexists|]. apply Hnext, Hdrop; done.
  - destruct (after_shed (ob_outcome o) bp a) as [a'|e] eqn:He; [|by eexists].
    apply Hnext, Hdrop; unfold after_shed in He; destruct (ob_outcome o), bp; by simplify_eq.
Qed.

(** What the iteration that ends the loop saw: a grant is the reservation of
    this very request on the governor it then meets, and fits the budget
    there; a wait begins only when it does not fit, others hold some of the
    device and the deadline is not over. *)
Definition settled_by (o : observation) (a : admission) (x : settled) : Prop :=
  let device := ad_device a in
  let nbytes := ad_nbytes a in
  match x with
  | SGranted r g =>
      record (ob_gov o) device nbytes = (g, r)
      /\ forall b, budgets (ob_gov o) !! device = Some b -> fits (ob_gov o) (ob_world o) device nbytes b = true
  | SWaiting a' =>
      ad_device a' = device /\ ad_nbytes a' = nbytes /\ reserved (ob_gov o) device <> 0
      /\ (exists b, budgets (ob_gov o) !! device = Some b /\ fits (ob_gov o) (ob_world o) device nbytes b = false)
      /\ expired (ob_now o) a = false
  | SRaised _ => True
  end.

Definition same_request (a b : admission) : Prop :=
  ad_device b = ad_device a /\ ad_nbytes b = ad_nbytes a /\ ad_deadline b = ad_deadline a.

Lemma settled_by_same o a b x : same_request a b -> settled_by o b x -> settled_by o a x.
Proof. intros (Hd & Hn & Ht). unfold settled_by, expired, remaining_time. by rewrite Hd, Hn, Ht. Qed.

Lemma after_shed_same outcome bp a b : after_shed outcome bp a = Ok b -> same_request a b.
Proof. unfold after_shed. destruct outcome, bp; intros [= <-]; done. Qed.

Lemma retry_same now g w a b g' : admit_step now g w a = (Retry b, g') -> same_request a b.
Proof.
  intros Hstep%admit_step_spec. inversion Hstep as [| |sf bp act _ Hact| | |]; subst. unfold shed_phase in Hact.
  destruct (expired now a), bp; by inversion Hact.
Qed.

(** The loop ends in one of its iterations, on what that iteration saw. *)
Lemma admit_loop_last fuel obs a x : admit_loop fuel obs a = Some x ->
  exists n, (n < fuel)%nat /\ admit_loop n obs a = None /\ admit_loop (Datatypes.S n) obs a = Some x
    /\ settled_by (obs n) a x.
Proof.
  revert obs a. induction fuel as [|fuel IH]; intros obs a; [done|]. intros Hx.
  set (later := fun i => obs (Datatypes.S i)).
  assert (Hgo : forall b, same_request a b -> admit_loop fuel later b = Some x ->
    (forall k, admit_loop (Datatypes.S k) obs a = admit_loop k later b) ->
    exists n, (n < Datatypes.S fuel)%nat /\ admit_loop n obs a = None /\ admit_loop (Datatypes.S n) obs a = Some x
      /\ settled_by (obs n) a x).
  { intros b Hsame (n & Hn & Hnone & Hsome & Hby)%IH Heq. exists (Datatypes.S n). rewrite !Heq.
    split_and!; [lia|done|done|by eapply settled_by_same]. }
  assert (Hnow : forall y, Some y = Some x -> (forall k, admit_loop (Datatypes.S k) obs a = Some y) -> settled_by (obs O) a y ->
    exists n, (n < Datatypes.S fuel)%nat /\ admit_loop n obs a = None /\ admit_loop (Datatypes.S n) obs a = Some x
      /\ settled_by (obs n) a x).
  { intros y [= ->] Heq Hby. exists O. split_and!; [lia|done|apply Heq|done]. }
  destruct (admit_step (ob_now (obs O)) (ob_gov (obs O)) (ob_world (obs O)) a) as [act g] eqn:Hact.
  cbn [admit_loop] in Hx. rewrite Hact in Hx. destruct act as [r tot|e|rem|sf bp rem|b].
  - eapply Hnow; [exact Hx|intros k; cbn; by rewrite Hact|]. apply admit_step_spec in Hact.
    inversion Hact as [|g' r' Hrec Hfit|sf bp act _ Hph| | |]; subst; [done|]. unfold shed_phase in Hph.
    by destruct (expired _ _), bp.
  - eapply Hnow; [exact Hx|intros k; cbn; by rewrite Hact|done].
  - eapply Hnow; [exact Hx|intros k; cbn; by rewrite Hact|]. apply admit_step_spec in Hact.
    inversion Hact as [| |sf bp act _ Hph| | |b Hres Hs Hb Hfit Hex]; subst.
    + unfold shed_phase in Hph. by destruct (expired _ _), bp.
    + cbn. split_and!; try done. by exists b.
  - destruct (after_shed (ob_outcome (obs O)) bp a) as [b|e] eqn:He.
    + eapply Hgo; [by eapply after_shed_same|exact Hx|]. intros k. cbn. by rewrite Hact, He.
    + eapply Hnow; [exact Hx|intros k; cbn; by rewrite Hact, He|done].
  - eapply Hgo; [by eapply retry_same|exact Hx|]. intros k. cbn. by rewrite Hact.
Qed.

(** * Consumers in shedding order *)

Lemma key_le_trans a b c : key_le a b -> key_le b c -> key_le a c.
Proof. unfold key_le. lia. Qed.

Lemma key_le_total a b : key_le a b \/ key_le b a.
Proof. unfold key_le. lia. Qed.

#[local] Instance key_le_Trans : Transitive key_le := key_le_trans.
#[local] Instance key_le_Total : Total key_le := key_le_total.

Lemma register_sorted g c prio name tn :
  StronglySorted key_le (shedders (register_shedder g c prio name tn)).
Proof. apply StronglySorted_merge_sort; apply _. Qed.

Lemma reachable_sorted s : reachable s -> StronglySorted key_le (shedders (sys_gov s)).
Proof.
  intros (s0 & [[declared Hg] _] & Hs).
  apply (star_invariant step (fun s => StronglySorted key_le (shedders (sys_gov s)))) in Hs; [done|..].
  - clear. intros s s' Hsort Hstep. destruct Hstep as [s w|s t sysmem now device nbytes timeout a Ht Ha
      |s t now a act g Ht Hact|s t a Ht|s t a bp outcome w Ht|s t tk Ht Hn|s t r g total Ht Hrel
      |s device nbytes g Hg|s c prio name tn|s c|s tel en|s tel device]; cbn in *; try done.
    + destruct (admit_step_spec _ _ _ _ _ _ Hact) as [|g' r Hrec| | | |]; try done.
      by injection Hrec as <- _.
    + unfold release in Hrel. destruct (reservations _ !! _); by injection Hrel as <- _.
    + unfold set_budget in Hg. destruct (_ <? _); [done|]. by injection Hg as <-.
    + apply register_sorted.
    + by apply StronglySorted_filter.
    + by rewrite (proj1 (proj2 (status_same _ _ _ _))).
    + unfold reset_peak. by destruct (measured_used _).
  - unfold governor_init in Hg. destruct (map_to_list _) as [|[]]; [|done]. injection Hg as <-. constructor.
Qed.
End governor.
Arguments RegisteredShedder : clear implicits.
Arguments MemoryGovernor : clear implicits.
Arguments system : clear implicits.
Arguments observation : clear implicits.

(** * What shedding asks for *)

(** A world that also keeps the calls made to the consumers. *)
Definition logged (W S : Type) : Type := W * list (S * PressureSignal).

#[export] Instance logging_shedder {S W} `{Shedder S W} : Shedder S (logged W S) := {|
  footprint_of := fun s d w => footprint_of s d w.1;
  shed_of := fun s p w => let '(r, w') := shed_of s p w.1 in (r, (w', w.2 ++ [(s, p)]));
  detailed := detailed (W := W);
|}.

Section shedding.
Context {S W : Type} `{EqDecision S} `{HS : Shedder S W}.

(** The consumers a restricted shed may ask, in order. *)
Definition eligible (names items : option (list string)) (rs : list (RegisteredShedder S)) : list S :=
  shedder <$> filter (fun r => skipped (W := W) names items r = false) rs.

Lemma shed_loop_calls device names items rs remaining total (w : W) log r w' log' :
  shed_loop (W := logged W S) device names items rs remaining total (w, log) = (r, (w', log')) ->
  exists calls, log' = log ++ calls
    /\ calls.*1 `prefix_of` eligible names items rs
    /\ Forall (fun c => p_device c.2 = device /\ p_items c.2 = items /\ 0 < bytes_needed c.2) calls
    /\ (forall freed, r = Ok freed ->
          remaining <= freed - total \/ calls.*1 = eligible names items rs).
Proof.
  revert remaining total w log. induction rs as [|x rs IH]; intros remaining total w log; cbn [shed_loop].
  - intros [= <- <- <-]. exists []. split_and!; [by rewrite app_nil_r|done|constructor|by right].
  - destruct (remaining <=? 0) eqn:Hrem.
    { intros [= <- <- <-]. exists []. split_and!; [by rewrite app_nil_r|apply prefix_nil|constructor|].
      intros freed [= <-]. left. lia. }
    change (skipped (W := logged W S) names items x) with (skipped (W := W) names items x).
    unfold eligible. destruct (skipped names items x) eqn:Hskip.
    { rewrite filter_cons_False by congruence. apply IH. }
    rewrite filter_cons_True by done. cbn [fmap list_fmap shed_of logging_shedder].
    destruct (shed_of (shedder x) _ _) as [[f|e] w1] eqn:Hshed; cbn.
    + intros (calls & -> & Hpre & Hall & Hend)%IH.
      eexists (_ :: calls). rewrite <- app_assoc. cbn. split_and!; [done|..].
      * by apply prefix_cons.
      * constructor; [|done]. cbn. split_and!; [done|done|lia].
      * intros freed Hf. destruct (Hend freed Hf); [left; lia | right; by f_equal].
    + intros [= <- <- <-]. eexists [_]. cbn. split_and!; [done| |by repeat constructor; cbn; lia|done].
      apply prefix_cons, prefix_nil.
Qed.

Lemma shed_loop_unlog device names items rs remaining total (w : W) log r w' log' :
  shed_loop (W := logged W S) device names items rs remaining total (w, log) = (r, (w', log')) ->
  shed_loop device names items rs remaining total w = (r, w').
Proof.
  revert remaining total w log. induction rs as [|x rs IH]; intros remaining total w log; cbn [shed_loop].
  - by intros [= <- <- <-].
  - destruct (remaining <=? 0); [by intros [= <- <- <-]|].
    change (skipped (W := logged W S) names items x) with (skipped (W := W) names items x).
    destruct (skipped names items x); [apply IH|]. cbn [shed_of logging_shedder fst].
    destruct (shed_of (shedder x) _ w) as [[f|e] w1]; [apply IH|]. by intros [= <- <- <-].
Qed.

Lemma shed_loop_accounting `{!HonestShedder S W} device names items all rs remaining total (w : W) freed w' :
  NoDup (shedder <$> all) -> rs ⊆ all ->
  shed_loop device names items rs remaining total w = (Ok freed, w') ->
  total <= freed
  /\ zsum ((fun r : RegisteredShedder S => footprint_of (shedder r) device w') <$> all)
     = zsum ((fun r => footprint_of (shedder r) device w) <$> all) - (freed - total).
Proof.
  intros Hnd. revert remaining total w. induction rs as [|x rs IH]; intros remaining total w Hsub; cbn [shed_loop].
  - intros [= <- <-]. lia.
  - assert (rs ⊆ all) as Hsub' by (intros y Hy; apply Hsub; set_solver).
    assert (x ∈ all) as Hx by (apply Hsub; set_solver).
    destruct (remaining <=? 0); [intros [= <- <-]; lia|].
    destruct (skipped names items x); [by apply IH|].
    destruct (shed_of (shedder x) _ w) as [[f|e] w1] eqn:Hshed; [|done].
    intros [Hle Heq]%IH; [|done].
    pose proof (shed_nonneg _ _ _ _ _ Hshed). pose proof (shed_frees _ _ _ _ _ Hshed) as Hfree.
    assert (zsum ((fun r : RegisteredShedder S => footprint_of (shedder r) device w1) <$> all)
      = zsum ((fun r => footprint_of (shedder r) device w) <$> all) - f) as Hone; [|lia].
    cbn in Hfree. clear - Hnd Hx Hshed Hfree HonestShedder0.
    apply elem_of_Permutation in Hx as [k Hk]. rewrite Hk in Hnd |- *.
    apply NoDup_cons in Hnd as [Hnot _]. cbn [fmap list_fmap zsum]. rewrite Hfree.
    assert (zsum ((fun r : RegisteredShedder S => footprint_of (shedder r) device w1) <$> k)
      = zsum ((fun r => footprint_of (shedder r) device w) <$> k)) as ->; [|lia].
    f_equal. apply list_fmap_ext. intros i y Hy.
    refine (shed_frame (shedder x) _ w _ w1 (shedder y) Hshed _).
    intros Heq. apply Hnot. rewrite <- Heq. apply list_elem_of_fmap. exists y. split; [done|].
    by eapply list_elem_of_lookup_2.
Qed.
End shedding.

(** * What a task asks for or holds *)

Definition claim (tk : task) : option (string * Z) :=
  match tk with
  | Running a | Waiting a | Shedding a _ => Some (ad_device a, ad_nbytes a)
  | Holding r => Some (res_device r, res_nbytes r)
  | Finished _ => None
  end.

Lemma claim_wake tk c : claim (wake tk) = Some c -> claim tk = Some c.
Proof. by destruct tk. Qed.

Lemma claim_after_shed outcome bp a c :
  claim (resume (after_shed outcome bp a)) = Some c -> c = (ad_device a, ad_nbytes a).
Proof. unfold after_shed. destruct outcome, bp; cbn; intros; by simplify_eq. Qed.

Section claims.
Context {S W : Type} `{EqDecision S} `{Shedder S W}.

Lemma claim_after_step now (g : MemoryGovernor S) (w : W) a act g' c :
  admit_step now g w a = (act, g') -> claim (after_step a act) = Some c ->
  c = (ad_device a, ad_nbytes a).
Proof.
  intros [b|g1 r Hrec Hfit|sf bp act' _ -> _ _ _| | |b]%admit_step_spec; cbn; intros Hc; simplify_eq/=; try done.
  - by injection Hrec as _ <-.
  - unfold shed_phase in Hc. by destruct (expired now a), bp; simplify_eq/=.
Qed.

(** A step starts a task or keeps what the task is about. *)
Lemma step_claims (sys sys' : system S W) (t : nat) tk' c :
  step sys sys' -> sys_tasks sys' !! t = Some tk' -> claim tk' = Some c ->
  sys_tasks sys !! t = None \/ exists tk, sys_tasks sys !! t = Some tk /\ claim tk = Some c.
Proof.
  intros Hstep Ht Hc.
  destruct Hstep as [s w|s t0 sysmem now device nbytes timeout a H0 Ha|s t0 now a act g H0 Hact
    |s t0 a H0|s t0 a bp outcome w H0|s t0 tk H0 Hn|s t0 r g total H0 Hrel|s device nbytes g Hg
    |s c0 prio name tn|s c0|s tel en|s tel device]; cbn [sys_tasks] in Ht; try by eauto.
  - destruct (decide (t0 = t)) as [->|]; [by left|]. rewrite lookup_insert_ne in Ht by done. eauto.
  - destruct (decide (t0 = t)) as [->|]; [|rewrite lookup_insert_ne in Ht by done; eauto].
    rewrite lookup_insert_eq in Ht. injection Ht as <-. right. exists (Running a). split; [done|].
    by rewrite (claim_after_step _ _ _ _ _ _ _ Hact Hc).
  - destruct (decide (t0 = t)) as [->|]; [|rewrite lookup_insert_ne in Ht by done; eauto].
    rewrite lookup_insert_eq in Ht. by injection Ht as <-.
  - destruct (decide (t0 = t)) as [->|]; [|rewrite lookup_insert_ne in Ht by done; eauto].
    rewrite lookup_insert_eq in Ht. injection Ht as <-. right. eexists. split; [done|].
    cbn. by rewrite (claim_after_shed _ _ _ _ Hc).
  - destruct (decide (t0 = t)) as [->|]; [|rewrite lookup_insert_ne in Ht by done; eauto].
    rewrite lookup_insert_eq in Ht. by injection Ht as <-.
  - rewrite lookup_fmap in Ht. destruct (decide (t0 = t)) as [->|].
    + rewrite lookup_insert_eq in Ht. by injection Ht as <-.
    + rewrite lookup_insert_ne in Ht by done. destruct (sys_tasks s !! t) as [tk|]; [|done].
      injection Ht as <-. right. exists tk. split; [done|]. by apply claim_wake.
Qed.
End claims.

(** Task [t] holds a reservation of the class and size [c]. *)
Definition holds (ts : gmap nat task) (t : nat) (c : string * Z) : Prop :=
  exists r, ts !! t = Some (Holding r) /\ (res_device r, res_nbytes r) = c.

(** * Properties *)

Section properties.
Context {S W : Type} `{EqDecision S} `{Shedder S W}.

(** In every state any interleaving of requests, sheds, releases,
    timeouts, cancellations and reconfigurations can reach, the reserved total
    of a device is exactly the sum of the reservations outstanding on it, is
    never negative, and the recorded reservations are exactly those that live
    requests hold, each by one request. *)
Theorem ledger_matches_holders (s : system S W) :
  reachable s ->
  (forall d, reserved (sys_gov s) d = outstanding (reservations (sys_gov s)) d
     /\ 0 <= reserved (sys_gov s) d)
  /\ (forall id r, reservations (sys_gov s) !! id = Some r <->
        reservation_id r = id /\ exists t, sys_tasks s !! t = Some (Holding r))
  /\ (forall t t' r, sys_tasks s !! t = Some (Holding r) ->
        sys_tasks s !! t' = Some (Holding r) -> t = t').
Proof.
  intros Hok%reachable_ok. split_and!.
  - intros d. split; [apply (ok_ledger s Hok) | by apply sys_ok_reserved_nonneg].
  - intros id r. split.
    + intros Hr. split; [|by eapply (ok_holder s Hok)]. by apply (ok_ledger s Hok) in Hr as (? & _).
    + intros [<- [t Ht]]. by eapply (ok_held s Hok).
  - intros t t' r H1 H2. by eapply (ok_distinct s Hok).
Qed.

(** C1: Two runs cannot both believe the same bytes are free: whatever step a
    reachable system takes, if it raises the bytes reserved on a budgeted
    device, then afterwards the reservations together with the consumers'
    footprints fit the budget. *)
Theorem grant_within_budget (s s' : system S W) (d : string) (b : Z) :
  reachable s -> step s s' ->
  reserved (sys_gov s) d < reserved (sys_gov s') d ->
  budgets (sys_gov s') !! d = Some b ->
  reserved (sys_gov s') d + footprint (sys_gov s') (sys_world s') d <= b.
Proof.
  intros Hok%reachable_ok Hstep Hlt Hb.
  assert (Hsame : forall g, same_ledger (sys_gov s) g -> reserved g d = reserved (sys_gov s) d)
    by (intros g (Hm & _); unfold reserved; by rewrite Hm).
  destruct Hstep as [s w|s t sysmem now device nbytes timeout a Ht Ha
    |s t now a act g Ht Hact|s t a Ht|s t a bp outcome w Ht|s t tk Ht Hn|s t r g total Ht Hrel
    |s device nbytes g Hg|s c prio name tn|s c|s tel en|s tel device]; cbn [sys_gov sys_world] in *; try lia.
  - destruct (admit_step_spec _ _ _ _ _ _ Hact) as [|g' r Hrec Hfit| | | |]; try lia.
    assert (0 <= ad_nbytes a) as Hn by (by eapply (ok_sizes s Hok)).
    destruct (record_ledger _ _ _ _ _ (ok_ledger s Hok) Hn Hrec)
      as (_ & _ & _ & _ & _ & Hbud & Hshed & Hres).
    rewrite Hres in *. case_decide as Hd; [|lia]. subst d. rewrite Hbud in Hb.
    specialize (Hfit b Hb). unfold fits, footprint in *. rewrite Hshed. lia.
  - destruct (release_ledger _ _ _ _ (ok_ledger s Hok) (ok_held s Hok t r Ht) Hrel)
      as (_ & _ & _ & _ & _ & Hres). rewrite Hres in Hlt.
    destruct (ok_ledger s Hok) as [_ Hids].
    pose proof (Hids _ _ (ok_held s Hok t r Ht)) as (_ & ? & _). case_decide; lia.
  - rewrite (Hsame g (set_budget_same _ _ _ _ Hg)) in Hlt. lia.
  - by apply Z.lt_irrefl in Hlt.
  - by apply Z.lt_irrefl in Hlt.
  - rewrite (Hsame _ (proj1 (status_same _ _ _ _))) in Hlt. lia.
  - rewrite (Hsame _ (reset_peak_same _ _ _)) in Hlt. lia.
Qed.

(** C2: Admission never strands a waiter: in every reachable state, a request
    waiting on a device has another request holding a positive reservation on
    that very device, and that request's release puts the waiter back in the
    admission loop with a fresh shed. *)
Theorem waiter_is_woken (s : system S W) (t : nat) (a : admission) :
  reachable s -> sys_tasks s !! t = Some (Waiting a) ->
  exists t' r, t' <> t /\ sys_tasks s !! t' = Some (Holding r)
    /\ res_device r = ad_device a /\ 0 < res_nbytes r
    /\ exists s' a', step s s' /\ sys_tasks s' !! t = Some (Running a')
         /\ ad_shed_attempted a' = false /\ ad_nbytes a' = ad_nbytes a
         /\ reserved (sys_gov s') (ad_device a) = reserved (sys_gov s) (ad_device a) - res_nbytes r.
Proof.
  intros Hok%reachable_ok Ht. pose proof (ok_waiters s Hok t a Ht) as Hpos.
  rewrite (proj1 (ok_ledger s Hok)) in Hpos.
  destruct (outstanding_pos _ _ Hpos) as (id & r & Hr & Hd & Hn).
  destruct (ok_holder s Hok id r Hr) as [t' Ht'].
  exists t', r. assert (t' <> t) by congruence. split_and!; try done.
  destruct (release (sys_gov s) r) as [g total] eqn:Hrel.
  destruct (release_ledger _ _ _ _ (ok_ledger s Hok) (ok_held s Hok t' r Ht') Hrel)
    as (_ & _ & _ & _ & _ & Hres).
  eexists _, _. split; [by eapply step_release|]. cbn. split_and!.
  - by rewrite lookup_fmap, lookup_insert_ne, Ht.
  - done.
  - done.
  - rewrite Hres. by case_decide.
Qed.

(** A request larger than the device's declared budget is refused with
    BudgetExceeded on its first iteration and never sheds: no live-pressure
    shed is planned for it, the governor is unchanged, and this holds in
    whatever state of the loop the budget is found too small. *)
Theorem over_budget_refused sysmem (g : MemoryGovernor S) (w : W) now device nbytes timeout b :
  0 <= nbytes -> budgets g !! device = Some b -> b < nbytes ->
  (exists a, begin_reserve sysmem g w now device nbytes timeout = Ok a
     /\ ad_live_shortfall a = 0 /\ ad_device a = device /\ ad_nbytes a = nbytes)
  /\ (forall now' w' a, ad_device a = device -> ad_nbytes a = nbytes ->
        admit_step now' g w' a = (Raised (BudgetExceeded nbytes b device), g)).
Proof.
  intros Hn Hb Hlt. split.
  - unfold begin_reserve. rewrite (proj2 (Z.ltb_ge _ _) Hn), Hb, (proj2 (Z.ltb_lt _ _) Hlt).
    eexists. split_and!; reflexivity.
  - intros now' w' a Hd Hs. unfold admit_step. rewrite Hd, Hs, Hb.
    by rewrite (proj2 (Z.ltb_lt _ _) Hlt).
Qed.

(** C3: Between two waits the admission loop settles: whatever the clock, the
    consumers, the other requests and the outcomes of its sheds do, it has
    granted, raised, or started to wait for a release within three iterations,
    in one of them and on what that iteration then sees.  If it grants, it is
    the requested size on the requested device, recorded on the governor of
    that iteration, and it fits the budget and the consumers of that
    iteration; if it waits, it is for the same request, which did not fit
    there while others held some of the device and its time was not up. *)
Theorem admission_settles (obs : nat -> observation S W) (a : admission) :
  exists outcome n, (n < 3)%nat
    /\ admit_loop n obs a = None /\ admit_loop (Datatypes.S n) obs a = Some outcome /\ admit_loop 3 obs a = Some outcome
    /\ settled_by (obs n) a outcome
    /\ forall r g, outcome = SGranted r g ->
         res_device r = ad_device a /\ res_nbytes r = ad_nbytes a
         /\ reserved g (ad_device a) = reserved (ob_gov (obs n)) (ad_device a) + ad_nbytes a.
Proof.
  destruct (admit_loop_settles obs a) as [x Hx].
  apply (admit_loop_mono _ 3) in Hx; [|unfold sheds_left; by repeat case_match; lia].
  destruct (admit_loop_last _ _ _ _ Hx) as (n & Hn & Hnone & Hsome & Hby). exists x, n.
  split_and!; try done. intros r g ->. destruct Hby as [[= <- <-] _]. split_and!; [done|done|].
  unfold reserved at 1. cbn. by rewrite lookup_insert_eq.
Qed.
End properties.

(** Targeted shedding asks consumers in registration-priority order and
    never asks for nothing: the consumers called are a prefix of the eligible
    ones (the named ones, and for item pressure only those that can resolve
    items), each is asked for a positive amount on the device, all of them are
    asked unless the need was met; with consumers that honour the protocol the
    bytes reported freed are exactly what their total footprint went down by. *)
Theorem shed_asks_in_order {S W} `{EqDecision S} `{HS : Shedder S W} `{!HonestShedder S W}
  (s : system S W) device nbytes names items (w' : W) freed calls :
  reachable s ->
  NoDup (shedder <$> shedders (sys_gov s)) ->
  shed (W := logged W S) (sys_gov s) (sys_world s, []) device nbytes names items
    = (Ok freed, (w', calls)) ->
  StronglySorted key_le (shedders (sys_gov s))
  /\ calls.*1 `prefix_of` eligible (W := W) names items (shedders (sys_gov s))
  /\ Forall (fun c => p_device c.2 = device /\ p_items c.2 = items /\ 0 < bytes_needed c.2) calls
  /\ (nbytes <= freed \/ calls.*1 = eligible (W := W) names items (shedders (sys_gov s)))
  /\ footprint (sys_gov s) w' device = footprint (sys_gov s) (sys_world s) device - freed.
Proof.
  intros Hreach Hnd Hshed. split; [by apply reachable_sorted|].
  assert (Hloop : shed_loop (W := logged W S) device names items (shedders (sys_gov s)) nbytes 0
    (sys_world s, []) = (Ok freed, (w', calls))).
  { unfold shed in Hshed. by destruct items, names as [[|? []]|]. }
  destruct (shed_loop_calls _ _ _ _ _ _ _ _ _ _ _ Hloop) as (cs & -> & Hpre & Hall & Hend).
  cbn [app]. split_and!; [done|done| |].
  - destruct (Hend freed eq_refl); [left; lia | by right].
  - assert (Hplain : shed_loop device names items (shedders (sys_gov s)) nbytes 0 (sys_world s)
      = (Ok freed, w')) by (by apply shed_loop_unlog in Hloop).
    destruct (shed_loop_accounting _ _ _ (shedders (sys_gov s)) (shedders (sys_gov s)) _ _ _ _ _ Hnd
      ltac:(done) Hplain) as [_ Heq]. unfold footprint. lia.
Qed.

(** * Concrete runs *)

(** A consumer holding [w !! s] bytes of RAM, giving back what it is asked. *)
Definition held (w : gmap nat Z) (s : nat) (d : string) : Z :=
  if String.eqb d "ram" then Z.max 0 (default 0 (w !! s)) else 0.

#[export] Instance plain_shedder : Shedder nat (gmap nat Z) := {|
  footprint_of := fun s d w => held w s d;
  shed_of := fun s p w =>
    let freed := Z.min (Z.max 0 (bytes_needed p)) (held w s (p_device p)) in
    (Ok freed, if String.eqb (p_device p) "ram" then <[s := held w s "ram" - freed]> w else w);
  detailed := fun _ => false;
|}.

#[export] Instance plain_shedder_honest : HonestShedder nat (gmap nat Z).
Proof.
  constructor; cbn; unfold held.
  - intros s d w. destruct (String.eqb d "ram"); lia.
  - intros s p w f w' [= <- _]. destruct (String.eqb _ "ram"); lia.
  - intros s p w f w' [= <- <-]. destruct (String.eqb (p_device p) "ram") eqn:E; [|lia].
    rewrite lookup_insert_eq. cbn. lia.
  - intros s p w r w' s' [= _ <-] Hne. destruct (String.eqb (p_device p) "ram") eqn:E; [|done].
    by rewrite lookup_insert_ne by congruence.
Qed.

Section scheduler.
Context {S W : Type} `{EqDecision S} `{Shedder S W}.

Definition do_begin (s : system S W) (t : nat) (device : string) (nbytes : Z) : system S W :=
  match sys_tasks s !! t, begin_reserve None (sys_gov s) (sys_world s) 0 device nbytes None with
  | None, Ok a => {| sys_gov := sys_gov s; sys_world := sys_world s;
                     sys_tasks := <[t := Running a]> (sys_tasks s) |}
  | _, _ => s
  end.

Definition do_iterate (s : system S W) (t : nat) : system S W :=
  match sys_tasks s !! t with
  | Some (Running a) =>
      let '(act, g) := admit_step 0 (sys_gov s) (sys_world s) a in
      {| sys_gov := g; sys_world := sys_world s;
         sys_tasks := <[t := after_step a act]> (sys_tasks s) |}
  | Some (Shedding a bp) =>
      {| sys_gov := sys_gov s; sys_world := sys_world s;
         sys_tasks := <[t := resume (after_shed ShedDone bp a)]> (sys_tasks s) |}
  | _ => s
  end.

Lemma do_begin_star s t device nbytes : star step s (do_begin s t device nbytes).
Proof.
  unfold do_begin. destruct (sys_tasks s !! t) eqn:Ht; [apply star_refl|].
  destruct (begin_reserve _ _ _ _ _ _ _) eqn:Hb; [|apply star_refl].
  eapply star_one, step_begin; eauto.
Qed.

Lemma do_iterate_star s t : star step s (do_iterate s t).
Proof.
  unfold do_iterate. destruct (sys_tasks s !! t) as [[]|] eqn:Ht; try apply star_refl.
  - destruct (admit_step _ _ _ _) eqn:Hs. eapply star_one, step_iterate; eauto.
  - eapply star_one, step_shed_ends. done.
Qed.
End scheduler.

(** A budget of 10 bytes of RAM and one consumer holding one byte of it. *)
Definition demo_start : system nat (gmap nat Z) := {|
  sys_gov := {| budgets := {["ram" := 10]}; reserved_map := ∅; peaks := ∅; reservations := ∅;
                shedders := []; next_id := 1; next_order := 0 |};
  sys_world := {[0%nat := 1]};
  sys_tasks := ∅;
|}.

Definition demo_registered : system nat (gmap nat Z) := {|
  sys_gov := register_shedder (sys_gov demo_start) 0%nat 0 "" "Cache";
  sys_world := sys_world demo_start;
  sys_tasks := sys_tasks demo_start;
|}.

(** Request 0 asks for 8 bytes. *)
Definition demo_asked : system nat (gmap nat Z) := do_begin demo_registered 0 "ram" 8.

(** It is granted; request 1 asks for 5 bytes, sheds, and waits. *)
Definition demo_waiting : system nat (gmap nat Z) :=
  do_iterate (do_iterate (do_iterate (do_begin (do_iterate demo_asked 0) 1 "ram" 5) 1) 1) 1.

Lemma demo_registered_reachable : reachable demo_registered.
Proof.
  exists demo_start. split; [split; [|done]|].
  - exists {["ram" := 10]}. vm_compute. reflexivity.
  - apply star_one, (step_register demo_start 0%nat 0 "" "Cache").
Qed.

Lemma reachable_more {S W} `{EqDecision S} `{Shedder S W} (s s' : system S W) :
  reachable s -> star step s s' -> reachable s'.
Proof. intros (s0 & H0 & Hs) Hs'. exists s0. split; [done|]. by etrans. Qed.

Lemma demo_asked_reachable : reachable demo_asked.
Proof. eapply reachable_more; [apply demo_registered_reachable|apply do_begin_star]. Qed.

Lemma demo_waiting_reachable : reachable demo_waiting.
Proof.
  eapply reachable_more; [apply demo_asked_reachable|]. unfold demo_waiting.
  repeat (etrans; [|apply do_iterate_star]). etrans; [|apply do_begin_star]. apply do_iterate_star.
Qed.

Lemma ledger_matches_holders_witness :
  reserved (sys_gov demo_waiting) "ram" = 8
  /\ outstanding (reservations (sys_gov demo_waiting)) "ram" = 8.
Proof.
  split; [vm_compute; reflexivity|].
  pose proof (ledger_matches_holders demo_waiting demo_waiting_reachable) as [Hsum _].
  destruct (Hsum "ram") as [Heq _]. rewrite <- Heq. vm_compute. reflexivity.
Defined.

Lemma grant_within_budget_witness :
  reserved (sys_gov (do_iterate demo_asked 0)) "ram"
  + footprint (sys_gov (do_iterate demo_asked 0)) (sys_world (do_iterate demo_asked 0)) "ram" <= 10.
Proof.
  apply (grant_within_budget demo_asked (do_iterate demo_asked 0) "ram" 10).
  - exact demo_asked_reachable.
  - eapply step_iterate with (t := 0%nat) (now := 0); vm_compute; reflexivity.
  - vm_compute. reflexivity.
  - vm_compute. reflexivity.
Defined.

Lemma waiter_is_woken_witness :
  exists a, sys_tasks demo_waiting !! 1%nat = Some (Waiting a)
    /\ exists t' r, t' <> 1%nat /\ sys_tasks demo_waiting !! t' = Some (Holding r).
Proof.
  eexists. split; [vm_compute; reflexivity|].
  edestruct (waiter_is_woken demo_waiting 1%nat) as (t' & r & Hne & Hr & _);
    [exact demo_waiting_reachable | vm_compute; reflexivity |].
  exists t', r. exact (conj Hne Hr).
Defined.

Lemma over_budget_refused_witness :
  exists a, begin_reserve None (sys_gov demo_registered) (sys_world demo_registered) 0 "ram" 11 None = Ok a.
Proof.
  edestruct (over_budget_refused None (sys_gov demo_registered) (sys_world demo_registered)
    0 "ram" 11 None 10) as [(a & Ha & _) _]; [lia | vm_compute; reflexivity | lia |].
  exists a. exact Ha.
Defined.

Lemma shed_asks_in_order_witness :
  footprint (sys_gov demo_registered) {[0%nat := 0]} "ram"
  = footprint (sys_gov demo_registered) (sys_world demo_registered) "ram" - 1.
Proof.
  refine (proj2 (proj2 (proj2 (proj2
    (shed_asks_in_order demo_registered "ram" 3 None None {[0%nat := 0]} 1 _
       demo_registered_reachable _ _))))).
  - vm_compute. repeat constructor. by intros ?%not_elem_of_nil.
  - vm_compute. reflexivity.
Defined.
