(* ===== verification/Reservations.v ===== *)
(** Reservations: batches of reservations over one governor
    (dinkster_memory/reservations.py).  A batch merges its requests by
    residency class and enters one governor reservation per class, in sorted
    order, on an exit stack that releases them last in, first out.

    [service] is a governor system with the batches running over it; a task
    number names the [reserve] call a batch is in or holds.  [progress] are
    the steps of the batches themselves, [environment] those of everybody
    else: consumers, the operator, time, cancellations, and requests made to
    the governor directly. *)
From S2P Require Import Prelude PyStr Telemetry Governor.

Local Open Scope string_scope.
Local Open Scope Z_scope.
Local Open Scope list_scope.

(** * Requests *)

Record ReservationRequest := {
  residency : string;
  rq_nbytes : Z;
}.

Inductive request_error := EmptyResidency | NegativeBytes.

(** [ReservationRequest.__post_init__]. *)
Definition request_post_init (r : ReservationRequest) : result request_error ReservationRequest :=
  raise_if (String.eqb (residency r) "") EmptyResidency ;;
  raise_if (rq_nbytes r <? 0) NegativeBytes ;;
  Ok r.

(** The loop that merges duplicate classes. *)
Definition merge_requests (requests : list ReservationRequest) : list (string * Z) :=
  foldl (fun merged r => dict_set merged (residency r)
           (default 0 (dict_get merged (residency r)) + rq_nbytes r)) [] requests.

(** The classes in the order they are entered, with their bytes. *)
Definition plan (requests : list ReservationRequest) : list (string * Z) :=
  let merged := merge_requests requests in
  (fun d => (d, default 0 (dict_get merged d))) <$> merge_sort String.le (keys merged).

(** * Batches *)

(** Where one [reserve] of the service is: entering a class, in the body,
    leaving the exit stack (the next to exit first), done. *)
Inductive stage :=
| Acquiring (held : list nat) (current : nat) (rest : list (string * Z))
| Inside (held : list nat)
| Leaving (held : list nat) (e : option gov_error)
| Left (e : option gov_error).

Record batch := {
  b_requests : list ReservationRequest;
  b_stage : stage;
}.

(** The tasks a batch is responsible for. *)
Definition owned (st : stage) : list nat :=
  match st with
  | Acquiring held t _ => t :: held
  | Inside held | Leaving held _ => held
  | Left _ => []
  end.

Section service.
Context {S W : Type} `{EqDecision S} `{Shedder S W}.
Context (timeout : option Z).
Implicit Types (sys : system S W) (b t : nat).

Record service := {
  svc_sys : system S W;
  svc_batches : gmap nat batch;
  svc_direct : gset nat;
}.

Definition with_task (t : nat) (tk : task) (g : MemoryGovernor S) (sys : system S W) : system S W :=
  {| sys_gov := g; sys_world := sys_world sys; sys_tasks := <[t := tk]> (sys_tasks sys) |}.

Definition set_stage (b : nat) (bt : batch) (st : stage) (sys : system S W) (s : service) : service :=
  {| svc_sys := sys;
     svc_batches := <[b := {| b_requests := b_requests bt; b_stage := st |}]> (svc_batches s);
     svc_direct := svc_direct s |}.

(** The [for] loop of [reserve] from one class to the next suspension: the
    next class is asked for as task [t], or the body starts. *)
Definition enter_next (sysmem : option Z) (now : Z) (t : nat) (held : list nat)
  (rest : list (string * Z)) (sys : system S W) : system S W * stage :=
  match rest with
  | [] => (sys, Inside held)
  | (residency, nbytes) :: rest' =>
      match begin_reserve sysmem (sys_gov sys) (sys_world sys) now residency nbytes timeout with
      | Ok a => (with_task t (Running a) (sys_gov sys) sys, Acquiring held t rest')
      | Err e => (sys, Leaving held (Some e))
      end
  end.

(** What batches do: the governor's loop for the class being entered, the
    next class once it is granted, the way out once it is refused, the end of
    the body, and the exits. *)
Inductive progress : service -> service -> Prop :=
| p_iterate s b bt held t rest now a act g :
    svc_batches s !! b = Some bt -> b_stage bt = Acquiring held t rest ->
    sys_tasks (svc_sys s) !! t = Some (Running a) ->
    admit_step now (sys_gov (svc_sys s)) (sys_world (svc_sys s)) a = (act, g) ->
    progress s {| svc_sys := with_task t (after_step a act) g (svc_sys s);
                  svc_batches := svc_batches s; svc_direct := svc_direct s |}
| p_shed_ends s b bt held t rest a bp outcome w :
    svc_batches s !! b = Some bt -> b_stage bt = Acquiring held t rest ->
    sys_tasks (svc_sys s) !! t = Some (Shedding a bp) ->
    progress s {| svc_sys := {| sys_gov := sys_gov (svc_sys s); sys_world := w;
                                sys_tasks := <[t := resume (after_shed outcome bp a)]>
                                  (sys_tasks (svc_sys s)) |};
                  svc_batches := svc_batches s; svc_direct := svc_direct s |}
| p_granted s b bt held t rest r sysmem now t' sys st :
    svc_batches s !! b = Some bt -> b_stage bt = Acquiring held t rest ->
    sys_tasks (svc_sys s) !! t = Some (Holding r) ->
    sys_tasks (svc_sys s) !! t' = None ->
    enter_next sysmem now t' (t :: held) rest (svc_sys s) = (sys, st) ->
    progress s (set_stage b bt st sys s)
| p_refused s b bt held t rest e :
    svc_batches s !! b = Some bt -> b_stage bt = Acquiring held t rest ->
    sys_tasks (svc_sys s) !! t = Some (Finished e) ->
    progress s (set_stage b bt (Leaving held e) (svc_sys s) s)
| p_body_ends s b bt held :
    svc_batches s !! b = Some bt -> b_stage bt = Inside held ->
    progress s (set_stage b bt (Leaving held None) (svc_sys s) s)
| p_exit s b bt t held e r g total :
    svc_batches s !! b = Some bt -> b_stage bt = Leaving (t :: held) e ->
    sys_tasks (svc_sys s) !! t = Some (Holding r) ->
    release (sys_gov (svc_sys s)) r = (g, total) ->
    progress s (set_stage b bt (Leaving held e)
      {| sys_gov := g; sys_world := sys_world (svc_sys s);
         sys_tasks := wake <$> <[t := Finished None]> (sys_tasks (svc_sys s)) |} s)
| p_left s b bt e :
    svc_batches s !! b = Some bt -> b_stage bt = Leaving [] e ->
    progress s (set_stage b bt (Left e) (svc_sys s) s).

(** What is not the batches' doing: a new batch, a direct request, or any
    step of the governor's system that starts no request and releases nothing
    a batch holds. *)
Inductive environment : service -> service -> Prop :=
| e_open s b requests sysmem now t sys st :
    svc_batches s !! b = None ->
    Forall (fun r => request_post_init r = Ok r) requests ->
    sys_tasks (svc_sys s) !! t = None ->
    enter_next sysmem now t [] (plan requests) (svc_sys s) = (sys, st) ->
    environment s (set_stage b {| b_requests := requests; b_stage := st |} st sys s)
| e_direct s t sysmem now device nbytes limit a :
    sys_tasks (svc_sys s) !! t = None ->
    begin_reserve sysmem (sys_gov (svc_sys s)) (sys_world (svc_sys s)) now device nbytes limit = Ok a ->
    environment s {| svc_sys := with_task t (Running a) (sys_gov (svc_sys s)) (svc_sys s);
                     svc_batches := svc_batches s; svc_direct := {[t]} ∪ svc_direct s |}
| e_governor s sys :
    Governor.step (svc_sys s) sys ->
    dom (sys_tasks sys) = dom (sys_tasks (svc_sys s)) ->
    (forall b bt t r, svc_batches s !! b = Some bt -> t ∈ owned (b_stage bt) ->
       sys_tasks (svc_sys s) !! t = Some (Holding r) -> sys_tasks sys !! t = Some (Holding r)) ->
    environment s {| svc_sys := sys; svc_batches := svc_batches s; svc_direct := svc_direct s |}.

Definition svc_step (s s' : service) : Prop := progress s s' \/ environment s s'.

(** A service over a governor without requests. *)
Definition svc_initial (s : service) : Prop :=
  Governor.initial (svc_sys s) /\ svc_batches s = ∅ /\ svc_direct s = ∅.

Definition svc_reachable (s : service) : Prop := exists s0, svc_initial s0 /\ star svc_step s0 s.

(** A batch waits for somebody's release. *)
Definition stalled (s : service) (b : nat) : Prop :=
  exists bt held t rest a, svc_batches s !! b = Some bt
    /\ b_stage bt = Acquiring held t rest /\ sys_tasks (svc_sys s) !! t = Some (Waiting a).

Definition all_left (s : service) : Prop :=
  forall b bt, svc_batches s !! b = Some bt -> exists e, b_stage bt = Left e.
End service.

(** * The plan of a batch *)

(** Bytes the requests ask for on a class. *)
Definition requested (requests : list ReservationRequest) (d : string) : Z :=
  zsum ((fun r => if decide (residency r = d) then rq_nbytes r else 0) <$> requests).

Lemma merge_requests_spec requests d :
  default 0 (dict_get (merge_requests requests) d) = requested requests d
  /\ (d ∈ keys (merge_requests requests) <-> d ∈ residency <$> requests)
  /\ NoDup (keys (merge_requests requests)).
Proof.
  induction requests as [|r requests IH] using rev_ind.
  { unfold requested. cbn. split_and!; [done | by rewrite elem_of_nil | constructor]. }
  unfold merge_requests, requested in *. rewrite foldl_app, fmap_app, zsum_app, list_fmap_singleton. cbn [foldl zsum].
  destruct IH as (Hsum & Hkeys & Hnd). split_and!.
  - rewrite dict_get_set. destruct (decide (d = residency r)) as [->|Hne]; cbn.
    + rewrite decide_True by done. rewrite Hsum. lia.
    + rewrite decide_False by congruence. lia.
  - rewrite keys_dict_set, fmap_app, elem_of_app, <- Hkeys, list_fmap_singleton.
    destruct (dict_mem _ (residency r)) eqn:Hm.
    + apply dict_mem_true in Hm. rewrite list_elem_of_singleton. naive_solver.
    + by rewrite elem_of_app.
  - by apply NoDup_dict_set.
Qed.

(** Strictly earlier in the total order of classes. *)
Definition before (x y : string * Z) : Prop := String.le x.1 y.1 /\ x.1 <> y.1.

#[export] Instance before_trans : Transitive before.
Proof.
  intros x y z [Hxy Hne] [Hyz Hne']. split; [by etrans|]. intros Heq. rewrite Heq in Hxy.
  by apply Hne', (anti_symm String.le).
Qed.

Lemma before_irrefl x : ~ before x x.
Proof. by intros [_ ?]. Qed.

Lemma elem_of_plan requests d n :
  (d, n) ∈ plan requests <-> n = requested requests d /\ d ∈ residency <$> requests.
Proof.
  destruct (merge_requests_spec requests d) as (Hsum & Hkeys & _).
  unfold plan. rewrite list_elem_of_fmap. split.
  - intros (d' & [= -> ->] & Hin). rewrite merge_sort_Permutation in Hin.
    split; [done|]. by apply Hkeys.
  - intros [-> Hin]. exists d. rewrite Hsum. split; [done|].
    rewrite merge_sort_Permutation. by apply Hkeys.
Qed.

Lemma plan_sorted requests : StronglySorted before (plan requests).
Proof.
  destruct (merge_requests_spec requests "") as (_ & _ & Hnd). unfold plan.
  pose proof (StronglySorted_merge_sort String.le (keys (merge_requests requests))) as Hs.
  rewrite <- (merge_sort_Permutation String.le) in Hnd.
  induction Hs as [|d ds Hs IH Hall]; csimpl; constructor.
  - apply IH. by apply NoDup_cons in Hnd as [_ ?].
  - apply NoDup_cons in Hnd as [Hd _]. apply Forall_fmap, Forall_forall. intros d' Hd'. split; cbn.
    + by eapply Forall_forall in Hall.
    + by intros ->.
Qed.

Lemma plan_keys_NoDup requests : NoDup (plan requests).*1.
Proof.
  destruct (merge_requests_spec requests "") as (_ & _ & Hnd). unfold plan.
  rewrite <- list_fmap_compose. cbn. rewrite list_fmap_id. by rewrite merge_sort_Permutation.
Qed.

(** A maximal element for a total order. *)
Lemma maximal_elem {A} (f : A -> string) (l : list A) x :
  x ∈ l -> exists y, y ∈ l /\ forall z, z ∈ l -> String.le (f z) (f y).
Proof.
  revert x. induction l as [|a l IH]; intros x Hx; [by apply not_elem_of_nil in Hx|].
  destruct l as [|b l].
  { exists a. split; [constructor|]. intros z ->%list_elem_of_singleton. done. }
  destruct (IH b) as (y & Hy & Hmax); [constructor|].
  destruct (total String.le (f a) (f y)) as [Hle|Hle].
  - exists y. split; [by right|]. intros z [->|Hz]%elem_of_cons; [done|by apply Hmax].
  - exists a. split; [constructor|]. intros z [->|Hz]%elem_of_cons; [done|]. etrans; [by apply Hmax|done].
Qed.

(** * The invariant *)

(** The tasks of a stage against the plan: what it holds is a prefix of the
    plan, last entered first, and what it enters is the next class. *)
Definition stage_ok (ts : gmap nat task) (p : list (string * Z)) (st : stage) : Prop :=
  match st with
  | Acquiring held t rest =>
      exists entered c tk, p = reverse entered ++ c :: rest /\ Forall2 (holds ts) held entered
        /\ ts !! t = Some tk /\ forall c', claim tk = Some c' -> c' = c
  | Inside held => Forall2 (holds ts) held (reverse p)
  | Leaving held _ => exists entered, reverse entered `prefix_of` p /\ Forall2 (holds ts) held entered
  | Left _ => True
  end.

(** Changes of the tasks that a stage owning [own] does not notice. *)
Definition undisturbed (ts ts' : gmap nat task) (own : list nat) : Prop :=
  forall t, t ∈ own ->
    (forall r, ts !! t = Some (Holding r) -> ts' !! t = Some (Holding r))
    /\ (forall tk, ts !! t = Some tk -> exists tk', ts' !! t = Some tk'
          /\ forall c, claim tk' = Some c -> claim tk = Some c).

Lemma holds_frame ts ts' held entered :
  (forall t r, t ∈ held -> ts !! t = Some (Holding r) -> ts' !! t = Some (Holding r)) ->
  Forall2 (holds ts) held entered -> Forall2 (holds ts') held entered.
Proof.
  intros Hk Hall. induction Hall as [|t c held entered (r & Hr & Hc) _ IH]; constructor.
  - exists r. split; [|done]. apply Hk; [constructor|done].
  - apply IH. intros t' r' Ht'. apply Hk. by constructor.
Qed.

Lemma stage_ok_frame ts ts' p st :
  undisturbed ts ts' (owned st) -> stage_ok ts p st -> stage_ok ts' p st.
Proof.
  intros Hu. destruct st as [held t rest|held|held e|e]; cbn in *.
  - intros (entered & c & tk & -> & Hh & Ht & Hc).
    destruct (proj2 (Hu t ltac:(constructor)) tk Ht) as (tk' & Ht' & Hc').
    exists entered, c, tk'. split_and!; [done| |done|by auto].
    eapply holds_frame; [|done]. intros t' r Hin. apply Hu. by constructor.
  - intros Hh. eapply holds_frame; [|done]. intros t r Hin. by apply Hu.
  - intros (entered & Hp & Hh). exists entered. split; [done|].
    eapply holds_frame; [|done]. intros t r Hin. by apply Hu.
  - done.
Qed.

Lemma holds_held ts held entered t :
  Forall2 (holds ts) held entered -> t ∈ held ->
  exists r, ts !! t = Some (Holding r) /\ (res_device r, res_nbytes r) ∈ entered.
Proof.
  intros Hall Hin. apply list_elem_of_lookup in Hin as [i Hi].
  destruct (Forall2_lookup_l _ _ _ _ _ Hall Hi) as (c & Hc & r & Hr & <-).
  exists r. split; [done|]. by eapply list_elem_of_lookup_2.
Qed.

Lemma stage_ok_live ts p st t : stage_ok ts p st -> t ∈ owned st -> is_Some (ts !! t).
Proof.
  assert (Hh : forall held entered, Forall2 (holds ts) held entered -> t ∈ held -> is_Some (ts !! t)).
  { intros held entered Ha Hi. destruct (holds_held _ _ _ _ Ha Hi) as (r & Hr & _). by eexists. }
  destruct st as [held t' rest|held|held e|e]; cbn.
  - intros (entered & c & tk & _ & Ha & Ht & _) [->|Hi]%elem_of_cons; [by eexists|by eapply Hh].
  - by apply Hh.
  - intros (entered & _ & Ha). by eapply Hh.
  - by intros _ ?%not_elem_of_nil.
Qed.

Section invariant.
Context {S W : Type} `{EqDecision S} `{Shedder S W}.
Context (timeout : option Z).
Implicit Types (s : @service S W) (sys : system S W).

Record svc_ok s : Prop := {
  so_sys : Governor.reachable (svc_sys s);
  so_stage : forall b bt, svc_batches s !! b = Some bt ->
    stage_ok (sys_tasks (svc_sys s)) (plan (b_requests bt)) (b_stage bt);
  so_nodup : forall b bt, svc_batches s !! b = Some bt -> NoDup (owned (b_stage bt));
  so_disjoint : forall b b' bt bt' t, svc_batches s !! b = Some bt -> svc_batches s !! b' = Some bt' ->
    t ∈ owned (b_stage bt) -> t ∈ owned (b_stage bt') -> b = b';
  so_direct : forall b bt t, svc_batches s !! b = Some bt -> t ∈ owned (b_stage bt) ->
    t ∉ svc_direct s;
  so_direct_live : svc_direct s ⊆ dom (sys_tasks (svc_sys s));
  so_owner : forall t tk c, sys_tasks (svc_sys s) !! t = Some tk -> claim tk = Some c ->
    t ∈ svc_direct s \/ exists b bt, svc_batches s !! b = Some bt /\ t ∈ owned (b_stage bt);
}.

(** Steps of the governor that start nothing. *)
Lemma svc_ok_governor s sys :
  svc_ok s -> Governor.step (svc_sys s) sys -> dom (sys_tasks sys) = dom (sys_tasks (svc_sys s)) ->
  (forall b bt t r, svc_batches s !! b = Some bt -> t ∈ owned (b_stage bt) ->
     sys_tasks (svc_sys s) !! t = Some (Holding r) -> sys_tasks sys !! t = Some (Holding r)) ->
  svc_ok {| svc_sys := sys; svc_batches := svc_batches s; svc_direct := svc_direct s |}.
Proof.
  intros Hok Hstep Hdom Hheld. constructor; cbn [svc_sys svc_batches svc_direct].
  - destruct (so_sys s Hok) as (s0 & H0 & Hs). exists s0. split; [done|]. etrans; [done|by apply star_one].
  - intros b bt Hb. eapply stage_ok_frame; [|by apply (so_stage s Hok b)]. intros t Hin. split.
    + intros r. by eapply Hheld.
    + intros tk Htk. assert (is_Some (sys_tasks sys !! t)) as [tk' Htk'].
      { apply elem_of_dom. rewrite Hdom. apply elem_of_dom. by eexists. }
      exists tk'. split; [done|]. intros c Hc.
      destruct (step_claims _ _ _ _ _ Hstep Htk' Hc) as [?|(tk0 & Htk0 & Hc0)]; congruence.
  - apply (so_nodup s Hok).
  - apply (so_disjoint s Hok).
  - apply (so_direct s Hok).
  - rewrite Hdom. apply (so_direct_live s Hok).
  - intros t tk c Ht Hc. destruct (step_claims _ _ _ _ _ Hstep Ht Hc) as [Hn|(tk0 & Htk0 & Hc0)].
    + apply elem_of_dom_2 in Ht. rewrite Hdom in Ht. by apply not_elem_of_dom in Hn.
    + by eapply (so_owner s Hok).
Qed.

(** Batch [b] moves to stage [st], perhaps with one new task. *)
Lemma svc_ok_stage s b bt st sys :
  svc_ok s -> star Governor.step (svc_sys s) sys ->
  dom (sys_tasks (svc_sys s)) ⊆ dom (sys_tasks sys) ->
  stage_ok (sys_tasks sys) (plan (b_requests bt)) st -> NoDup (owned st) ->
  let old := from_option (fun bt0 => owned (b_stage bt0)) [] (svc_batches s !! b) in
  (forall t, t ∈ owned st -> t ∈ old \/ sys_tasks (svc_sys s) !! t = None) ->
  (forall b' bt', b' <> b -> svc_batches s !! b' = Some bt' ->
     undisturbed (sys_tasks (svc_sys s)) (sys_tasks sys) (owned (b_stage bt'))) ->
  (forall t tk c, sys_tasks sys !! t = Some tk -> claim tk = Some c ->
     t ∈ owned st \/ (t ∉ old /\ exists tk0 c0, sys_tasks (svc_sys s) !! t = Some tk0 /\ claim tk0 = Some c0)) ->
  svc_ok (set_stage b bt st sys s).
Proof.
  intros Hok Hstar Hdom Hst Hnd old Hnew Hframe Hclaim.
  assert (Hold : forall b' bt' t, svc_batches s !! b' = Some bt' -> t ∈ owned (b_stage bt') ->
    t ∈ owned st -> b' = b).
  { intros b' bt' t Hb' Hin Hst'. destruct (Hnew t Hst') as [Ho|Hn].
    - unfold old in Ho. destruct (svc_batches s !! b) as [bt0|] eqn:Hb; cbn in Ho;
        [|by apply not_elem_of_nil in Ho]. by eapply (so_disjoint s Hok).
    - destruct (stage_ok_live _ _ _ t (so_stage s Hok _ _ Hb') Hin). congruence. }
  constructor; cbn [svc_sys svc_batches svc_direct set_stage].
  - destruct (so_sys s Hok) as (s0 & H0 & Hs). exists s0. split; [done|]. by etrans.
  - intros b' bt'. rewrite lookup_insert. case_decide as Heq; [by intros [= <-]|]. intros Hb'.
    eapply stage_ok_frame; [|by apply (so_stage s Hok b')]. by apply (Hframe b').
  - intros b' bt'. rewrite lookup_insert. case_decide; [by intros [= <-]|]. apply (so_nodup s Hok).
  - intros b1 b2 bt1 bt2 t. rewrite !lookup_insert. repeat case_decide; subst; try done.
    + intros [= <-] H2 Hi1 Hi2. symmetry. by eapply Hold.
    + intros H1 [= <-] Hi1 Hi2. by eapply Hold.
    + apply (so_disjoint s Hok).
  - intros b' bt' t. rewrite lookup_insert. case_decide; [|apply (so_direct s Hok)].
    intros [= <-] Hin Hd. cbn in Hin. destruct (Hnew t Hin) as [Ho|Hn].
    + unfold old in Ho. destruct (svc_batches s !! b) as [bt0|] eqn:Hb; cbn in Ho;
        [|by apply not_elem_of_nil in Ho]. by eapply (so_direct s Hok).
    + apply (so_direct_live s Hok), elem_of_dom in Hd as [??]. congruence.
  - etrans; [apply (so_direct_live s Hok)|done].
  - intros t tk c Ht Hc. destruct (Hclaim t tk c Ht Hc) as [Hin|(Hno & tk0 & c0 & Ht0 & Hc0)].
    { right. exists b. eexists. rewrite lookup_insert_eq. split; [done|done]. }
    destruct (so_owner s Hok t tk0 c0 Ht0 Hc0) as [?|(b' & bt' & Hb' & Hin)]; [by left|right].
    exists b', bt'. split; [|done]. rewrite lookup_insert_ne; [done|]. intros ->.
    apply Hno. unfold old. by rewrite Hb'.
Qed.
End invariant.

Section preservation.
Context {S W : Type} `{EqDecision S} `{Shedder S W}.
Context (timeout : option Z).
Implicit Types (s : @service S W) (sys : system S W).

(** The outcomes of entering the next class. *)
Inductive enter_spec (t : nat) (held : list nat) (rest : list (string * Z)) sys :
  system S W -> stage -> Prop :=
| enter_body : rest = [] -> enter_spec t held rest sys sys (Inside held)
| enter_error e : rest <> [] -> enter_spec t held rest sys sys (Leaving held (Some e))
| enter_class c rest' a sys' : rest = c :: rest' -> (ad_device a, ad_nbytes a) = c ->
    sys' = with_task t (Running a) (sys_gov sys) sys -> Governor.step sys sys' ->
    enter_spec t held rest sys sys' (Acquiring held t rest').

Lemma enter_next_spec sysmem now t held rest sys sys' st :
  sys_tasks sys !! t = None ->
  enter_next timeout sysmem now t held rest sys = (sys', st) -> enter_spec t held rest sys sys' st.
Proof.
  intros Ht. unfold enter_next. destruct rest as [|[d n] rest]; [intros [= <- <-]; by constructor|].
  destruct (begin_reserve _ _ _ _ _ _ _) as [a|e] eqn:Hb; intros [= <- <-].
  - econstructor; [done| |done|by eapply step_begin]. unfold begin_reserve in Hb.
    destruct (n <? 0); [done|]. by injection Hb as <-.
  - by constructor.
Qed.

Lemma undisturbed_refl ts own : undisturbed ts ts own.
Proof. intros t _. split; eauto. Qed.

Lemma undisturbed_insert ts t tk own : t ∉ own -> undisturbed ts (<[t := tk]> ts) own.
Proof. intros Hno t' Hin. rewrite lookup_insert_ne by congruence. split; eauto. Qed.

(** Entering the next class from a stage that holds [held]. *)
Lemma enter_ok s b bt t held rest sys st entered :
  svc_ok s -> sys_tasks (svc_sys s) !! t = None ->
  enter_spec t held rest (svc_sys s) sys st ->
  plan (b_requests bt) = reverse entered ++ rest ->
  Forall2 (holds (sys_tasks (svc_sys s))) held entered -> NoDup held ->
  from_option (fun bt0 => owned (b_stage bt0)) [] (svc_batches s !! b) ≡ₚ held ->
  svc_ok (set_stage b bt st sys s).
Proof.
  intros Hok Ht Henter Hp Hh Hnd Hown.
  assert (Hfresh : t ∉ held).
  { intros Hin. destruct (holds_held _ _ _ _ Hh Hin) as (r & Hr & _). congruence. }
  assert (Hothers : forall b' bt', svc_batches s !! b' = Some bt' -> t ∉ owned (b_stage bt')).
  { intros b' bt' Hb' Hin. destruct (stage_ok_live _ _ _ t (so_stage s Hok _ _ Hb') Hin). congruence. }
  assert (Hsame : forall t' (tk : task) (c : string * Z), sys_tasks (svc_sys s) !! t' = Some tk -> claim tk = Some c ->
    t' ∈ held \/ (t' ∉ held /\ exists tk0 c0, sys_tasks (svc_sys s) !! t' = Some tk0 /\ claim tk0 = Some c0)).
  { intros t' tk c Ht' Hc. destruct (decide (t' ∈ held)); [by left|right; eauto]. }
  destruct Henter as [->|e _|c rest' a sys' -> Hc -> Hstep]; apply svc_ok_stage; try done;
    cbn [owned stage_ok]; try setoid_rewrite Hown; try (by intros; apply undisturbed_refl); try by left.
  - rewrite app_nil_r in Hp. by rewrite Hp, reverse_involutive.
  - exact Hsame.
  - exists entered. split; [|done]. rewrite Hp. by apply prefix_app_r.
  - exact Hsame.
  - by apply star_one.
  - cbn. rewrite dom_insert. set_solver.
  - exists entered, c, (Running a). split_and!; [done| | |].
    + eapply holds_frame; [|done]. intros t' r Hin. cbn. by rewrite lookup_insert_ne by congruence.
    + cbn. by rewrite lookup_insert_eq.
    + intros c' [= <-]. by rewrite <- Hc.
  - by constructor.
  - intros t' [->|Hin]%elem_of_cons; [by right|by left].
  - intros b' bt' _ Hb'. by apply undisturbed_insert, (Hothers b').
  - intros t' tk c0. cbn. rewrite lookup_insert. case_decide as Heq; [subst; left; constructor|].
    intros Ht' Hc0. destruct (Hsame t' tk c0 Ht' Hc0) as [|]; [left; by right|by right].
Qed.

(** Tasks of other batches do not move when a batch's own task does. *)
Lemma other_undisturbed s b b' bt bt' t tk :
  svc_ok s -> svc_batches s !! b = Some bt -> t ∈ owned (b_stage bt) -> b' <> b ->
  svc_batches s !! b' = Some bt' ->
  undisturbed (sys_tasks (svc_sys s)) (<[t := tk]> (sys_tasks (svc_sys s))) (owned (b_stage bt')).
Proof. intros Hok Hb Hin Hne Hb'. apply undisturbed_insert. intros Hin'. by eapply Hne, (so_disjoint s Hok). Qed.

Lemma owned_in_place s b bt t tk0 tk : svc_ok s -> svc_batches s !! b = Some bt ->
  t ∈ owned (b_stage bt) -> sys_tasks (svc_sys s) !! t = Some tk0 -> (forall r, tk0 <> Holding r) ->
  forall b' bt' t' r, svc_batches s !! b' = Some bt' -> t' ∈ owned (b_stage bt') ->
  sys_tasks (svc_sys s) !! t' = Some (Holding r) ->
  <[t := tk]> (sys_tasks (svc_sys s)) !! t' = Some (Holding r).
Proof. intros Hok Hb Hin Ht Hn b' bt' t' r Hb' Hin' Ht'. rewrite lookup_insert_ne; [done|]. naive_solver. Qed.

Lemma dom_in_place (ts : gmap nat task) t tk0 tk : ts !! t = Some tk0 -> dom (<[t := tk]> ts) = dom ts.
Proof. intros Ht. rewrite dom_insert_L. apply elem_of_dom_2 in Ht. set_solver. Qed.

(** Ending a stage, with what it holds unchanged. *)
Lemma retire_ok s b bt st held entered :
  svc_ok s -> svc_batches s !! b = Some bt ->
  (b_stage bt = Inside held \/ (b_stage bt = Leaving held st /\ held = [])
   \/ exists t rest e, b_stage bt = Acquiring held t rest
        /\ sys_tasks (svc_sys s) !! t = Some (Finished e)) ->
  reverse entered `prefix_of` plan (b_requests bt) ->
  Forall2 (holds (sys_tasks (svc_sys s))) held entered ->
  forall st', (exists e, st' = Leaving held e) \/ (held = [] /\ exists e, st' = Left e) ->
  svc_ok (set_stage b bt st' (svc_sys s) s).
Proof.
  intros Hok Hb Hst Hp Hh st' Hst'.
  assert (Hown : owned st' = held) by (destruct Hst' as [[e ->]|[-> [e ->]]]; done).
  assert (Hsub : forall t, t ∈ held -> t ∈ owned (b_stage bt)).
  { intros t Hin. destruct Hst as [->|[[-> ->]|(t' & rest & e & -> & _)]]; cbn; [done|done|by constructor]. }
  apply svc_ok_stage; rewrite ?Hown, ?Hb; cbn [from_option]; try done.
  - apply star_refl.
  - destruct Hst' as [[e ->]|[-> [e ->]]]; cbn; [by exists entered|done].
  - pose proof (so_nodup s Hok b bt Hb) as Hnd.
    destruct Hst as [Hst|[[Hst ->]|(t' & rest & e & Hst & _)]]; rewrite Hst in Hnd; cbn in Hnd;
      [done|done|by apply NoDup_cons in Hnd as [_ ?]].
  - intros t Hin. left. by apply Hsub.
  - intros; apply undisturbed_refl.
  - intros t tk c Ht Hc. destruct (decide (t ∈ held)); [by left|right]. split; [|eauto]. intros Hin.
    destruct Hst as [Hst|[[Hst ->]|(t' & rest & e & Hst & Ht')]]; rewrite Hst in Hin; cbn in Hin; [done|done|].
    apply elem_of_cons in Hin as [->|]; [|done]. rewrite Ht in Ht'. by injection Ht' as ->.
Qed.
End preservation.

Section reachable.
Context {S W : Type} `{EqDecision S} `{Shedder S W}.
Context (timeout : option Z).
Implicit Types (s : @service S W) (sys : system S W).

Lemma exit_ok s b bt t held e r g total :
  svc_ok s -> svc_batches s !! b = Some bt -> b_stage bt = Leaving (t :: held) e ->
  sys_tasks (svc_sys s) !! t = Some (Holding r) -> release (sys_gov (svc_sys s)) r = (g, total) ->
  svc_ok (set_stage b bt (Leaving held e)
      {| sys_gov := g; sys_world := sys_world (svc_sys s);
         sys_tasks := wake <$> <[t := Finished None]> (sys_tasks (svc_sys s)) |} s).
Proof.
  intros Hok Hb Hst Ht Hrel.
  pose proof (so_stage s Hok b bt Hb) as Hstage. pose proof (so_nodup s Hok b bt Hb) as Hnd.
  rewrite Hst in Hstage, Hnd. cbn in Hstage, Hnd. destruct Hstage as (entered & Hp & Hh).
  apply Forall2_cons_inv_l in Hh as (c & entered' & _ & Hh & ->).
  apply NoDup_cons in Hnd as [Hno Hnd].
  assert (Hwake : forall own, t ∉ own -> undisturbed (sys_tasks (svc_sys s))
    (wake <$> <[t := Finished None]> (sys_tasks (svc_sys s))) own).
  { intros own Hn t' Hin. rewrite lookup_fmap, lookup_insert_ne by congruence. split.
    - by intros r' ->.
    - intros tk ->. eexists. split; [done|]. intros c'. apply claim_wake. }
  apply svc_ok_stage; rewrite ?Hb; cbn [from_option sys_tasks owned stage_ok]; rewrite ?Hst; cbn [owned]; try done.
  - eapply star_one, step_release; eauto.
  - rewrite dom_fmap, dom_insert. set_solver.
  - exists entered'. split.
    + etrans; [|exact Hp]. rewrite reverse_cons. by apply prefix_app_r.
    + eapply holds_frame; [|done]. intros t' r' Hin. by apply (Hwake held Hno).
  - intros t' Hin. left. by right.
  - intros b' bt' Hne Hb'. apply Hwake. intros Hin.
    eapply Hne, (so_disjoint s Hok); [done|done|done|]. rewrite Hst. by constructor.
  - intros t' tk c'. rewrite lookup_fmap, lookup_insert. case_decide as Heq; [by intros [= <-]|].
    destruct (sys_tasks (svc_sys s) !! t') as [tk0|] eqn:Ht'; [|done]. intros [= <-] Hc%claim_wake.
    destruct (decide (t' ∈ held)); [by left|right]. split; [|eauto]. rewrite elem_of_cons. naive_solver.
Qed.

Lemma svc_step_ok s s' : svc_ok s -> svc_step timeout s s' -> svc_ok s'.
Proof.
  intros Hok [Hstep|Hstep].
  - destruct Hstep as [s b bt held t rest now a act g Hb Hst Ht Hact
      |s b bt held t rest a bp outcome w Hb Hst Ht
      |s b bt held t rest r sysmem now t' sys st Hb Hst Ht Hfresh Hent
      |s b bt held t rest e Hb Hst Ht|s b bt held Hb Hst|s b bt t held e r g total Hb Hst Ht Hrel
      |s b bt e Hb Hst].
    1,2: assert (Hin : t ∈ owned (b_stage bt)) by (rewrite Hst; constructor);
      apply svc_ok_governor; [done| |by eapply dom_in_place|by eapply owned_in_place].
    + by eapply step_iterate.
    + by eapply step_shed_ends.
    + pose proof (so_stage s Hok b bt Hb) as Hs. pose proof (so_nodup s Hok b bt Hb) as Hnd.
      rewrite Hst in Hs, Hnd. destruct Hs as (entered & c & tk & Hp & Hh & Ht' & Hc).
      assert (tk = Holding r) as -> by congruence. specialize (Hc _ eq_refl).
      eapply (enter_ok s b bt t' (t :: held) rest sys st (c :: entered)); try done.
      * by eapply enter_next_spec.
      * by rewrite Hp, reverse_cons, <- app_assoc.
      * constructor; [by exists r|done].
      * by rewrite Hb; cbn; rewrite Hst.
    + pose proof (so_stage s Hok b bt Hb) as Hs. rewrite Hst in Hs.
      destruct Hs as (entered & c & tk & Hp & Hh & _).
      eapply (retire_ok s b bt None held entered); try done; [naive_solver| |by eauto].
      rewrite Hp. by apply prefix_app_r.
    + pose proof (so_stage s Hok b bt Hb) as Hs. rewrite Hst in Hs.
      eapply (retire_ok s b bt None held (reverse (plan (b_requests bt)))); try done; [by left| |by eauto].
      by rewrite reverse_involutive.
    + by eapply exit_ok.
    + eapply (retire_ok s b bt e [] []); try done; [naive_solver|apply prefix_nil|naive_solver].
  - destruct Hstep as [s b requests sysmem now t sys st Hb Hreq Ht Hent
      |s t sysmem now device nbytes limit a Ht Ha|s sys Hg Hdom Hheld].
    + eapply (enter_ok s b _ t [] (plan requests) sys st []); try done; [by eapply enter_next_spec|apply NoDup_nil_2|].
      by rewrite Hb.
    + assert (Hfresh : forall b bt, svc_batches s !! b = Some bt -> t ∉ owned (b_stage bt)).
      { intros b bt Hb Hin. destruct (stage_ok_live _ _ _ t (so_stage s Hok _ _ Hb) Hin). congruence. }
      constructor; cbn [svc_sys svc_batches svc_direct].
      * eapply Governor.reachable_more; [apply (so_sys s Hok)|]. by eapply star_one, step_begin.
      * intros b bt Hb. eapply stage_ok_frame; [|by apply (so_stage s Hok b)]. by apply undisturbed_insert, (Hfresh b).
      * apply (so_nodup s Hok).
      * apply (so_disjoint s Hok).
      * intros b bt t' Hb Hin [->%elem_of_singleton|Hd]%elem_of_union; [by eapply Hfresh|].
        by eapply (so_direct s Hok).
      * cbn. rewrite dom_insert. pose proof (so_direct_live s Hok). set_solver.
      * intros t' tk c. cbn. rewrite lookup_insert. case_decide as Heq; [subst; left; set_solver|].
        intros Ht' Hc. destruct (so_owner s Hok t' tk c Ht' Hc) as [?|?]; [left; set_solver|by right].
    + by apply svc_ok_governor.
Qed.

Lemma svc_reachable_ok s : svc_reachable timeout s -> svc_ok s.
Proof.
  intros (s0 & (H0 & Hb & Hd) & Hs).
  eapply (star_invariant (svc_step timeout)); [|exact Hs|]; [intros a b; apply svc_step_ok|].
  constructor; rewrite ?Hb, ?Hd; try (intros *; by rewrite lookup_empty).
  - by exists (svc_sys s0); split; [|apply star_refl].
  - set_solver.
  - destruct H0 as [_ ->]. intros t tk c. by rewrite lookup_empty.
Qed.
End reachable.

(** * Progress *)

Section progress.
Context {S W : Type} `{EqDecision S} `{Shedder S W}.
Context (timeout : option Z).
Implicit Types (s : @service S W) (sys : system S W).

(** The class a batch waits for. *)
Definition waits_on s (b : nat) : option string :=
  match b_stage <$> svc_batches s !! b with
  | Some (Acquiring _ t _) =>
      match sys_tasks (svc_sys s) !! t with Some (Waiting a) => Some (ad_device a) | _ => None end
  | _ => None
  end.

Lemma waits_on_spec s b d :
  waits_on s b = Some d <->
  exists bt held t rest a, svc_batches s !! b = Some bt /\ b_stage bt = Acquiring held t rest
    /\ sys_tasks (svc_sys s) !! t = Some (Waiting a) /\ ad_device a = d.
Proof.
  unfold waits_on. split.
  - destruct (svc_batches s !! b) as [bt|] eqn:Hb; [|done]. cbn.
    destruct (b_stage bt) as [held t rest| | |] eqn:Hst; try done.
    destruct (sys_tasks (svc_sys s) !! t) as [[]|] eqn:Ht; try done. intros [= <-].
    eexists _, _, _, _, _. by split_and!.
  - intros (bt & held & t & rest & a & -> & Hst & Ht & <-). cbn. by rewrite Hst, Ht.
Qed.

Lemma stalled_waits s b : stalled s b <-> is_Some (waits_on s b).
Proof.
  split.
  - intros (bt & held & t & rest & a & Hb & Hst & Ht). exists (ad_device a). apply waits_on_spec. naive_solver.
  - intros [d (bt & held & t & rest & a & Hb & Hst & Ht & _)%waits_on_spec]. by exists bt, held, t, rest, a.
Qed.

(** What a stalled batch holds comes before what it waits for. *)
Lemma stalled_holds_before s b bt held t rest a t' r :
  svc_ok s -> svc_batches s !! b = Some bt -> b_stage bt = Acquiring held t rest ->
  sys_tasks (svc_sys s) !! t = Some (Waiting a) ->
  t' ∈ t :: held -> sys_tasks (svc_sys s) !! t' = Some (Holding r) ->
  String.le (res_device r) (ad_device a) /\ res_device r <> ad_device a.
Proof.
  intros Hok Hb Hst Ht Hin Ht'. apply elem_of_cons in Hin as [->|Hin]; [congruence|].
  pose proof (so_stage s Hok b bt Hb) as Hs. rewrite Hst in Hs.
  destruct Hs as (entered & c & tk & Hp & Hh & Ht1 & Hc).
  assert (tk = Waiting a) as -> by congruence. specialize (Hc _ eq_refl). subst c.
  destruct (holds_held _ _ _ _ Hh Hin) as (r' & Hr' & Hel). assert (r' = r) as -> by congruence.
  pose proof (plan_sorted (b_requests bt)) as Hsorted. rewrite Hp in Hsorted.
  apply (StronglySorted_app_1_elem_of _ _ _ (res_device r, res_nbytes r) (ad_device a, ad_nbytes a) Hsorted);
    [by apply elem_of_reverse|constructor].
Qed.

Lemma unstalled_holder s b d :
  svc_ok s -> waits_on s b = Some d ->
  exists t' r, sys_tasks (svc_sys s) !! t' = Some (Holding r)
    /\ String.le d (res_device r) /\ 0 < res_nbytes r
    /\ (t' ∈ svc_direct s \/ exists b' bt', svc_batches s !! b' = Some bt'
          /\ t' ∈ owned (b_stage bt') /\ ~ stalled s b').
Proof.
  intros Hok Hb.
  set (l := filter (fun b => is_Some (waits_on s b)) (elements (dom (svc_batches s)))).
  assert (Hl : forall b, b ∈ l <-> is_Some (waits_on s b)).
  { intros b'. unfold l. rewrite list_elem_of_filter, elem_of_elements, elem_of_dom. split; [tauto|].
    intros Hs. split; [done|]. destruct Hs as [d' (bt & ? & ? & ? & ? & Hbt & _)%waits_on_spec]. by eexists. }
  destruct (maximal_elem (fun b => default "" (waits_on s b)) l b) as (m & Hm & Hmax); [apply Hl; by eexists|].
  apply Hl in Hm as [dm Hdm]. pose proof Hdm as (bt & held & t & rest & a & Hbt & Hst & Ht & <-)%waits_on_spec.
  pose proof (Governor.reachable_ok _ (so_sys s Hok)) as Hsys.
  pose proof (ok_waiters _ Hsys t a Ht) as Hpos. rewrite (proj1 (ok_ledger _ Hsys)) in Hpos.
  destruct (outstanding_pos _ _ Hpos) as (id & r & Hr & Hd & Hn).
  destruct (ok_holder _ Hsys id r Hr) as [t' Ht']. exists t', r. split_and!; [done| |done|].
  - rewrite Hd. specialize (Hmax b ltac:(apply Hl; by eexists)). by rewrite Hb, Hdm in Hmax.
  - destruct (so_owner s Hok t' _ _ Ht' eq_refl) as [?|(b' & bt' & Hb' & Hin)]; [by left|right].
    exists b', bt'. split_and!; [done|done|]. intros Hstalled%stalled_waits.
    pose proof Hstalled as [d' Hd']. pose proof Hd' as (bt1 & held1 & t1 & rest1 & a1 & Hb1 & Hst1 & Ht1 & <-)%waits_on_spec.
    assert (bt1 = bt') as -> by congruence. rewrite Hst1 in Hin.
    destruct (stalled_holds_before s b' bt' held1 t1 rest1 a1 t' r) as [Hle Hne]; try done.
    specialize (Hmax b' ltac:(by apply Hl)). rewrite Hd', Hdm in Hmax. cbn in Hmax.
    rewrite Hd in Hle, Hne. by apply Hne, (anti_symm String.le).
Qed.
End progress.

(** ** Every batch ends *)

(** What a batch still has to enter and to leave. *)
Definition stage_weight (st : stage) : nat :=
  match st with
  | Acquiring held _ rest => length held + 2 * length rest + 4
  | Inside held => length held + 2
  | Leaving held _ => length held + 1
  | Left _ => 0
  end.

(** Iterations a request may still take before it holds, waits or ends. *)
Definition task_effort (tk : task) : nat :=
  match tk with
  | Running a => 1 + 3 * sheds_left a
  | Shedding _ bp => if bp then 2 else 5
  | _ => 0
  end.

Section measure.
Context {S W : Type} `{EqDecision S} `{Shedder S W}.
Context (timeout : option Z).
Implicit Types (s : @service S W).

Lemma effort_after_step now (g : MemoryGovernor S) (w : W) a act g' :
  admit_step now g w a = (act, g') -> (task_effort (after_step a act) < task_effort (Running a))%nat.
Proof.
  intros [b|g1 r Hrec Hfit|sf bp act' Hatt -> Hpos Hlive _| | |b]%admit_step_spec; cbn; try lia.
  unfold shed_phase, sheds_left. rewrite Hatt. destruct (expired now a), bp; cbn; rewrite ?Hatt; try lia.
  - rewrite (proj2 (Z.ltb_lt _ _) (Hlive eq_refl)). lia.
  - destruct (0 <? _); lia.
  - rewrite (proj2 (Z.ltb_lt _ _) (Hlive eq_refl)). lia.
Qed.

Lemma effort_after_shed outcome bp a :
  (task_effort (resume (after_shed outcome bp a)) < task_effort (Shedding a bp))%nat.
Proof. unfold after_shed. destruct outcome, bp; cbn; lia. Qed.

Lemma enter_next_weight sysmem now t held rest sys st sys' :
  enter_next (S := S) (W := W) timeout sysmem now t held rest sys = (sys', st) ->
  (stage_weight st <= length held + 2 * length rest + 2)%nat.
Proof.
  unfold enter_next. destruct rest as [|[d n] rest]; [intros [= <- <-]; cbn; lia|].
  destruct (begin_reserve _ _ _ _ _ _ _); intros [= <- <-]; cbn; lia.
Qed.

Lemma progress_decreases s s' : progress timeout s s' ->
  (map_sum (fun bt => stage_weight (b_stage bt)) (svc_batches s')
     < map_sum (fun bt => stage_weight (b_stage bt)) (svc_batches s)
   \/ map_sum (fun bt => stage_weight (b_stage bt)) (svc_batches s')
        <= map_sum (fun bt => stage_weight (b_stage bt)) (svc_batches s)
      /\ map_sum task_effort (sys_tasks (svc_sys s')) < map_sum task_effort (sys_tasks (svc_sys s)))%nat.
Proof.
  assert (Hstage : forall s b bt st sys, svc_batches s !! b = Some bt ->
    (stage_weight st < stage_weight (b_stage bt))%nat ->
    (map_sum (fun bt => stage_weight (b_stage bt)) (svc_batches (set_stage b bt st sys s))
     < map_sum (fun bt => stage_weight (b_stage bt)) (svc_batches s))%nat).
  { intros s0 b bt st sys Hb Hlt.
    pose proof (map_sum_insert (fun bt => stage_weight (b_stage bt)) (svc_batches s0) b
      {| b_requests := b_requests bt; b_stage := st |} bt Hb) as Hm. cbn in *. lia. }
  intros [s0 b bt held t rest now a act g Hb Hst Ht Hact
      |s0 b bt held t rest a bp outcome w Hb Hst Ht
      |s0 b bt held t rest r sysmem now t' sys st Hb Hst Ht Hfresh Hent
      |s0 b bt held t rest e Hb Hst Ht|s0 b bt held Hb Hst|s0 b bt t held e r g total Hb Hst Ht Hrel
      |s0 b bt e Hb Hst].
  - right. split; [done|]. cbn [svc_sys sys_tasks with_task].
    pose proof (map_sum_insert task_effort _ t (after_step a act) _ Ht).
    pose proof (effort_after_step _ _ _ _ _ _ Hact). lia.
  - right. split; [done|]. cbn [svc_sys sys_tasks].
    pose proof (map_sum_insert task_effort _ t (resume (after_shed outcome bp a)) _ Ht).
    pose proof (effort_after_shed outcome bp a). lia.
  - left. apply Hstage; [done|]. pose proof (enter_next_weight _ _ _ _ _ _ _ _ Hent) as Hw.
    rewrite Hst. cbn in *. lia.
  - left. apply Hstage; [done|]. rewrite Hst. cbn. lia.
  - left. apply Hstage; [done|]. rewrite Hst. cbn. lia.
  - left. apply Hstage; [done|]. rewrite Hst. cbn. lia.
  - left. apply Hstage; [done|]. rewrite Hst. cbn. lia.
Qed.

(** A batch that has not left and is not stalled has a step. *)
Lemma unstalled_steps s b bt :
  svc_ok s -> svc_batches s !! b = Some bt -> (forall e, b_stage bt <> Left e) -> ~ stalled s b ->
  exists s', progress timeout s s'.
Proof.
  intros Hok Hb Hleft Hns. pose proof (so_stage s Hok b bt Hb) as Hs.
  destruct (b_stage bt) as [held t rest|held|[|t held] e|e] eqn:Hst.
  - destruct Hs as (entered & c & tk & _ & _ & Ht & _). destruct tk as [a|a|a bp|r|e].
    + destruct (admit_step 0 (sys_gov (svc_sys s)) (sys_world (svc_sys s)) a) as [act g] eqn:Hact.
      eexists. by eapply p_iterate.
    + destruct Hns. by exists bt, held, t, rest, a.
    + eexists. by eapply (p_shed_ends timeout s b bt held t rest a bp ShedDone (sys_world (svc_sys s))).
    + pose proof (is_fresh (dom (sys_tasks (svc_sys s)))) as Hf%not_elem_of_dom.
      destruct (enter_next timeout None 0 (fresh (dom (sys_tasks (svc_sys s)))) (t :: held) rest (svc_sys s))
        as [sys st] eqn:Hent.
      eexists. by eapply p_granted.
    + eexists. by eapply p_refused.
  - eexists. by eapply p_body_ends.
  - eexists. by eapply p_left.
  - destruct Hs as (entered & _ & Hh).
    destruct (holds_held _ _ _ t Hh ltac:(constructor)) as (r & Ht & _).
    destruct (release (sys_gov (svc_sys s)) r) as [g total] eqn:Hrel.
    eexists. by eapply p_exit.
  - by destruct (Hleft e).
Qed.

Lemma progress_direct s s' : progress timeout s s' -> svc_direct s' = svc_direct s.
Proof. by intros []. Qed.

Lemma progress_reachable s s' : svc_reachable timeout s -> star (progress timeout) s s' -> svc_reachable timeout s'.
Proof.
  intros (s0 & H0 & Hs) Hstar. exists s0. split; [done|]. etrans; [done|].
  clear -Hstar. induction Hstar; econstructor; [by left|done].
Qed.
End measure.

(** * Properties *)

Section properties.
Context {S W : Type} `{EqDecision S} `{Shedder S W}.
Context (timeout : option Z).

(** C4: Batches never wait for each other in a circle: in every reachable
    state, whatever a stalled batch waits for, somebody holds memory of that
    class or a later one and is not itself stalled: a direct request, or a
    batch in its body, on its way out, or with a step of its own to take. *)
Theorem batches_never_deadlock (s : @service S W) (b : nat) bt held t rest a :
  svc_reachable timeout s -> svc_batches s !! b = Some bt ->
  b_stage bt = Acquiring held t rest -> sys_tasks (svc_sys s) !! t = Some (Waiting a) ->
  exists t' r, sys_tasks (svc_sys s) !! t' = Some (Holding r)
    /\ String.le (ad_device a) (res_device r) /\ 0 < res_nbytes r
    /\ (t' ∈ svc_direct s \/ exists b' bt', svc_batches s !! b' = Some bt'
          /\ t' ∈ owned (b_stage bt') /\ ~ stalled s b').
Proof.
  intros Hok%svc_reachable_ok Hb Hst Ht. apply (unstalled_holder s b); [done|].
  apply waits_on_spec. by exists bt, held, t, rest, a.
Qed.

(** C5: Left to themselves, batches all end: without direct requests there is
    no infinite run of batch steps, and a run that can go no further has taken
    every batch out of its exit stack and left nothing reserved on any class.
    Nothing is assumed about budgets, consumers or the clock. *)
Theorem batches_always_finish (s : @service S W) :
  svc_reachable timeout s -> svc_direct s = ∅ ->
  Acc (flip (progress timeout)) s
  /\ forall s', star (progress timeout) s s' -> (forall s'', ~ progress timeout s' s'') ->
       all_left s' /\ forall d, reserved (sys_gov (svc_sys s')) d = 0.
Proof.
  intros Hr Hd. split; [eapply lex_acc, progress_decreases|]. intros s' Hs' Hend.
  assert (Hd' : svc_direct s' = ∅).
  { rewrite <- Hd. clear -Hs'. induction Hs' as [|s1 s2 s3 H12 _ IH]; [done|].
    by rewrite IH, (progress_direct timeout s1 s2). }
  assert (Hok : svc_ok s') by (by eapply svc_reachable_ok, progress_reachable).
  assert (Hall : all_left s').
  { intros b bt Hb. destruct (b_stage bt) as [| | |e] eqn:Hst; [| | |by exists e]; exfalso.
    all: assert (Hrun : forall b' bt', svc_batches s' !! b' = Some bt' ->
        (forall e, b_stage bt' <> Left e) -> waits_on s' b' = None -> False) by
      (intros b' bt' Hb' Hl Hw; destruct (unstalled_steps timeout s' b' bt') as [s'' Hs''];
       [done|done|done|by rewrite stalled_waits, Hw; intros [??]|by eapply Hend]).
    all: destruct (waits_on s' b) as [d|] eqn:Hw; [|by eapply Hrun; [exact Hb|by rewrite Hst|]].
    all: destruct (unstalled_holder s' b d Hok Hw) as (t' & r & Ht' & _ & _ & [Hin|(b' & bt' & Hb' & Hin & Hns)]);
      [rewrite Hd' in Hin; set_solver|].
    all: eapply (Hrun b' bt' Hb'); [intros e1 He1; rewrite He1 in Hin; by apply not_elem_of_nil in Hin|].
    all: by rewrite stalled_waits, <- eq_None_not_Some in Hns. }
  split; [done|]. intros d. pose proof (Governor.reachable_ok _ (so_sys s' Hok)) as Hsys.
  pose proof (sys_ok_reserved_nonneg _ d Hsys) as Hn.
  destruct (decide (reserved (sys_gov (svc_sys s')) d = 0)) as [|Hne]; [done|exfalso].
  rewrite (proj1 (ok_ledger _ Hsys)) in *.
  destruct (outstanding_pos (reservations (sys_gov (svc_sys s'))) d) as (id & r & Hres & _); [lia|].
  destruct (ok_holder _ Hsys id r Hres) as [t Ht].
  destruct (so_owner s' Hok t _ _ Ht eq_refl) as [Hin|(b & bt & Hb & Hin)]; [rewrite Hd' in Hin; set_solver|].
  destruct (Hall b bt Hb) as [e He]. rewrite He in Hin. by apply not_elem_of_nil in Hin.
Qed.

(** While a batch is in its body it holds exactly one reservation per
    class it asked for, of the sum of its requests for that class, and the
    governor's ledger covers them; and nothing is held but by direct requests
    and batches that have not left. *)
Theorem body_holds_what_it_requested (s : @service S W) :
  svc_reachable timeout s ->
  (forall b bt held, svc_batches s !! b = Some bt -> b_stage bt = Inside held ->
     NoDup held
     /\ (forall d, d ∈ residency <$> b_requests bt <->
           exists t r, t ∈ held /\ sys_tasks (svc_sys s) !! t = Some (Holding r) /\ res_device r = d)
     /\ (forall t t' r r', t ∈ held -> t' ∈ held -> sys_tasks (svc_sys s) !! t = Some (Holding r) ->
           sys_tasks (svc_sys s) !! t' = Some (Holding r') -> res_device r = res_device r' -> t = t')
     /\ (forall t r, t ∈ held -> sys_tasks (svc_sys s) !! t = Some (Holding r) ->
           res_nbytes r = requested (b_requests bt) (res_device r)
           /\ reservations (sys_gov (svc_sys s)) !! reservation_id r = Some r))
  /\ (forall t r, sys_tasks (svc_sys s) !! t = Some (Holding r) -> t ∈ svc_direct s \/
        exists b bt, svc_batches s !! b = Some bt /\ t ∈ owned (b_stage bt)).
Proof.
  intros Hok%svc_reachable_ok. split.
  - intros b bt held Hb Hst. pose proof (so_stage s Hok b bt Hb) as Hh.
    pose proof (so_nodup s Hok b bt Hb) as Hnd. rewrite Hst in Hh, Hnd. cbn in Hh, Hnd.
    assert (Hel : forall t r, t ∈ held -> sys_tasks (svc_sys s) !! t = Some (Holding r) ->
      (res_device r, res_nbytes r) ∈ plan (b_requests bt)).
    { intros t r Hin Ht. destruct (holds_held _ _ _ _ Hh Hin) as (r' & Hr' & Hel).
      rewrite elem_of_reverse in Hel. by assert (r' = r) as -> by congruence. }
    split_and!; [done| | |].
    + intros d. split.
      * intros Hd. assert (Hp : (d, requested (b_requests bt) d) ∈ reverse (plan (b_requests bt)))
          by by apply elem_of_reverse, elem_of_plan.
        apply list_elem_of_lookup in Hp as [i Hi].
        destruct (Forall2_lookup_r _ _ _ _ _ Hh Hi) as (t & Ht & r & Hr & [= Hrd _]).
        exists t, r. split_and!; [by eapply list_elem_of_lookup_2|done|done].
      * intros (t & r & Hin & Ht & <-). by apply (Hel t r Hin), elem_of_plan in Ht as [_ ?].
    + intros t t' r r' Hin Hin' Ht Ht' Hd.
      apply list_elem_of_lookup in Hin as [i Hi], Hin' as [j Hj].
      destruct (Forall2_lookup_l _ _ _ _ _ Hh Hi) as (c & Hc & r1 & Hr1 & <-).
      destruct (Forall2_lookup_l _ _ _ _ _ Hh Hj) as (c' & Hc' & r2 & Hr2 & <-).
      assert (r1 = r) as -> by congruence. assert (r2 = r') as -> by congruence.
      assert (i = j) as ->; [|congruence].
      assert (Hkeys : NoDup (reverse (plan (b_requests bt))).*1).
      { rewrite fmap_reverse, reverse_Permutation. apply plan_keys_NoDup. }
      eapply (NoDup_lookup _ _ _ (res_device r) Hkeys); rewrite list_lookup_fmap; [by rewrite Hc|].
      rewrite Hc'. cbn. by rewrite Hd.
    + intros t r Hin Ht. split; [by apply (Hel t r Hin), elem_of_plan in Ht as [? _]|].
      apply (ok_held _ (Governor.reachable_ok _ (so_sys s Hok)) t r Ht).
  - intros t r Ht. by eapply (so_owner s Hok).
Qed.
End properties.

(** * Witnesses *)

(** A scheduler: batch [b] takes its next step. *)
Section scheduler.
Context {S W : Type} `{EqDecision S} `{Shedder S W}.
Context (timeout : option Z).

Definition tick (b : nat) (s : @service S W) : @service S W :=
  match svc_batches s !! b with
  | None => s
  | Some bt =>
      let sys := svc_sys s in
      match b_stage bt with
      | Acquiring held t rest =>
          match sys_tasks sys !! t with
          | Some (Running a) =>
              let '(act, g) := admit_step 0 (sys_gov sys) (sys_world sys) a in
              {| svc_sys := with_task t (after_step a act) g sys;
                 svc_batches := svc_batches s; svc_direct := svc_direct s |}
          | Some (Shedding a bp) =>
              {| svc_sys := {| sys_gov := sys_gov sys; sys_world := sys_world sys;
                               sys_tasks := <[t := resume (after_shed ShedDone bp a)]> (sys_tasks sys) |};
                 svc_batches := svc_batches s; svc_direct := svc_direct s |}
          | Some (Holding r) =>
              let t' := size (sys_tasks sys) in
              match sys_tasks sys !! t' with
              | None =>
                  let '(sys', st) := enter_next timeout None 0 t' (t :: held) rest sys in
                  set_stage b bt st sys' s
              | Some _ => s
              end
          | Some (Finished e) => set_stage b bt (Leaving held e) sys s
          | _ => s
          end
      | Inside held => set_stage b bt (Leaving held None) sys s
      | Leaving [] e => set_stage b bt (Left e) sys s
      | _ => s
      end
  end.

(** A new batch. *)
Definition open (b : nat) (requests : list ReservationRequest) (s : @service S W) : @service S W :=
  let t := size (sys_tasks (svc_sys s)) in
  match svc_batches s !! b, sys_tasks (svc_sys s) !! t with
  | None, None =>
      if forallb (fun r => is_ok (request_post_init r)) requests
      then let '(sys, st) := enter_next timeout None 0 t [] (plan requests) (svc_sys s) in
           set_stage b {| b_requests := requests; b_stage := st |} st sys s
      else s
  | _, _ => s
  end.

Lemma tick_star b s : star (svc_step timeout) s (tick b s).
Proof.
  unfold tick. destruct (svc_batches s !! b) as [bt|] eqn:Hb; [|apply star_refl].
  destruct (b_stage bt) as [held t rest|held|[|t held] e|e] eqn:Hst; try apply star_refl.
  - destruct (sys_tasks (svc_sys s) !! t) as [[]|] eqn:Ht; try apply star_refl.
    + destruct (admit_step _ _ _ _) eqn:Hact. eapply star_one. left. by eapply p_iterate.
    + eapply star_one. left. by eapply p_shed_ends.
    + destruct (sys_tasks (svc_sys s) !! size _) eqn:Hf; [apply star_refl|].
      destruct (enter_next _ _ _ _ _ _ _) eqn:Hent. eapply star_one. left. by eapply p_granted.
    + eapply star_one. left. by eapply p_refused.
  - eapply star_one. left. by eapply p_body_ends.
  - eapply star_one. left. by eapply p_left.
Qed.

Lemma request_post_init_same r : is_ok (request_post_init r) = true -> request_post_init r = Ok r.
Proof. unfold request_post_init. by destruct (String.eqb _ _), (rq_nbytes r <? 0). Qed.

Lemma open_star b requests s : star (svc_step timeout) s (open b requests s).
Proof.
  unfold open. destruct (svc_batches s !! b) eqn:Hb; [apply star_refl|].
  destruct (sys_tasks (svc_sys s) !! size _) eqn:Hf; [apply star_refl|].
  destruct (forallb _ requests) eqn:Hall; [|apply star_refl].
  destruct (enter_next _ _ _ _ _ _ _) eqn:Hent. eapply star_one. right.
  eapply e_open; [done| |done|done]. apply Forall_forall. intros r Hr. apply request_post_init_same.
  rewrite forallb_forall in Hall. apply Hall. by apply list_elem_of_In.
Qed.

Lemma run_star (steps : list (@service S W -> @service S W)) s :
  Forall (fun f => forall s, star (svc_step timeout) s (f s)) steps ->
  star (svc_step timeout) s (foldl (fun s f => f s) s steps).
Proof.
  intros Hall. revert s. induction Hall as [|f fs Hf _ IH]; intros s; cbn; [apply star_refl|].
  etrans; [apply Hf|apply IH].
Qed.
End scheduler.

(** Two batches over 10 bytes of disk and 10 of RAM: the first is in its body
    with 6 and 6 bytes, the second holds disk and waits for RAM. *)
Definition demo_service : @service nat (gmap nat Z) := {|
  svc_sys := {|
    sys_gov := {| budgets := {["ram" := 10; "disk" := 10]}; reserved_map := ∅; peaks := ∅;
                  reservations := ∅; shedders := []; next_id := 1; next_order := 0 |};
    sys_world := ∅; sys_tasks := ∅ |};
  svc_batches := ∅; svc_direct := ∅ |}.

Definition ask (d : string) (n : Z) : ReservationRequest := {| residency := d; rq_nbytes := n |}.

Definition demo_script : list (@service nat (gmap nat Z) -> @service nat (gmap nat Z)) :=
  [open None 0 [ask "ram" 4; ask "disk" 6; ask "ram" 2]; tick None 0; tick None 0; tick None 0; tick None 0;
   open None 1 [ask "ram" 7; ask "disk" 2]; tick None 1; tick None 1; tick None 1; tick None 1; tick None 1].

Definition demo_stalled : @service nat (gmap nat Z) := foldl (fun s f => f s) demo_service demo_script.

Lemma demo_stalled_reachable : svc_reachable None demo_stalled.
Proof.
  exists demo_service. split.
  - split_and!; [split; [|done]|done|done]. exists {["ram" := 10; "disk" := 10]}. vm_compute. reflexivity.
  - apply run_star. unfold demo_script. repeat constructor; intros; apply tick_star || apply open_star.
Qed.

Lemma batches_never_deadlock_witness :
  stalled demo_stalled 1
  /\ exists t' r, sys_tasks (svc_sys demo_stalled) !! t' = Some (Holding r)
       /\ String.le "ram" (res_device r).
Proof.
  split.
  - eexists _, _, _, _, _. split_and!; vm_compute; reflexivity.
  - edestruct (batches_never_deadlock None demo_stalled 1) as (t' & r & Ht & Hle & _);
      [exact demo_stalled_reachable|vm_compute; reflexivity|vm_compute; reflexivity|vm_compute; reflexivity|].
    exists t', r. exact (conj Ht Hle).
Defined.

Lemma batches_always_finish_witness :
  svc_direct demo_stalled = ∅ /\ Acc (flip (progress None)) demo_stalled.
Proof.
  assert (Hd : svc_direct demo_stalled = ∅) by (vm_compute; reflexivity).
  split; [exact Hd|]. exact (proj1 (batches_always_finish None demo_stalled demo_stalled_reachable Hd)).
Defined.

Lemma body_holds_what_it_requested_witness :
  exists held, b_stage <$> svc_batches demo_stalled !! 0%nat = Some (Inside held)
    /\ length held = 2%nat /\ NoDup held.
Proof.
  eexists. split_and!; [vm_compute; reflexivity|reflexivity|].
  refine (proj1 (proj1 (body_holds_what_it_requested None demo_stalled demo_stalled_reachable) 0%nat _ _ _ _));
    vm_compute; reflexivity.
Defined.
