(* ===== verification/Leases.v ===== *)
(** Leases: governor reservations with an id and a time to live
    (dinkster_memory/leases.py).  Each [acquire] starts a holder task, which
    enters one governor reservation and keeps it until its lease is released
    or its time has run out.

    A holder task is a [hold] record: the local variables of [hold] and the
    fields of its [_Held]; its request to the governor is a task of the
    governor's system.  Between two suspension points a holder runs
    undisturbed, so the grant and the entry in [_held] are one step.  The
    clock is an integer that only grows. *)
From S2P Require Import Prelude PyStr Telemetry Governor.

Local Open Scope string_scope.
Local Open Scope Z_scope.
Local Open Scope list_scope.

(** * State *)

Record Lease := {
  lease_id : string;
  l_device : string;
  l_nbytes : Z;
  expires_at : Z;
}.

Inductive lease_error := BrokerClosed | BadTtl | BadMaxTtl.

(** How a holder ends the admission it started: the exception [acquire] sees. *)
Inductive grant_error := Refused (e : option gov_error) | ClosedMeanwhile.

(** The future [granted], which [acquire] awaits. *)
Inductive future := Pending | Granted_ok | Failed (e : grant_error) | Caller_gone.

(** A holder task: created, in the governor's admission, waiting for release
    or expiry, leaving the reservation, done. *)
Inductive hold_stage :=
| Starting
| Admission (t : nat)
| Live (t : nat)
| Exiting (t : nat)
| Gone.

Record hold := {
  h_ttl : Z;
  h_timeout : option Z;
  h_lease : Lease;
  h_released : bool;
  h_granted : future;
  h_stage : hold_stage;
}.

Definition set_hold_stage (st : hold_stage) (h : hold) : hold :=
  {| h_ttl := h_ttl h; h_timeout := h_timeout h; h_lease := h_lease h; h_released := h_released h;
     h_granted := h_granted h; h_stage := st |}.

Definition set_lease (l : Lease) (h : hold) : hold :=
  {| h_ttl := h_ttl h; h_timeout := h_timeout h; h_lease := l; h_released := h_released h;
     h_granted := h_granted h; h_stage := h_stage h |}.

Definition set_released (h : hold) : hold :=
  {| h_ttl := h_ttl h; h_timeout := h_timeout h; h_lease := h_lease h; h_released := true;
     h_granted := h_granted h; h_stage := h_stage h |}.

Definition set_granted (f : future) (h : hold) : hold :=
  {| h_ttl := h_ttl h; h_timeout := h_timeout h; h_lease := h_lease h; h_released := h_released h;
     h_granted := f; h_stage := h_stage h |}.

(** [Lease(...)] with a new expiry. *)
Definition extend (now ttl : Z) (l : Lease) : Lease :=
  {| lease_id := lease_id l; l_device := l_device l; l_nbytes := l_nbytes l; expires_at := now + ttl |}.

Definition ttl_remaining (now : Z) (l : Lease) : Z := Z.max 0 (expires_at l - now).

(** The governor's task of a holder. *)
Definition gov_task (st : hold_stage) : option nat :=
  match st with Admission t | Live t | Exiting t => Some t | Starting | Gone => None end.

Section broker.
Context {S W : Type} `{EqDecision S} `{Shedder S W}.

Record LeaseBroker := {
  br_sys : system S W;
  br_max_ttl : Z;
  br_held : list (string * nat);
  br_holders : gmap nat hold;
  br_closed : bool;
  br_now : Z;
}.

Definition set_sys (sys : system S W) (s : LeaseBroker) : LeaseBroker :=
  {| br_sys := sys; br_max_ttl := br_max_ttl s; br_held := br_held s; br_holders := br_holders s;
     br_closed := br_closed s; br_now := br_now s |}.

Definition set_held (held : list (string * nat)) (s : LeaseBroker) : LeaseBroker :=
  {| br_sys := br_sys s; br_max_ttl := br_max_ttl s; br_held := held; br_holders := br_holders s;
     br_closed := br_closed s; br_now := br_now s |}.

Definition set_holders (hs : gmap nat hold) (s : LeaseBroker) : LeaseBroker :=
  {| br_sys := br_sys s; br_max_ttl := br_max_ttl s; br_held := br_held s; br_holders := hs;
     br_closed := br_closed s; br_now := br_now s |}.

Definition set_holder (i : nat) (h : hold) (s : LeaseBroker) : LeaseBroker :=
  set_holders (<[i := h]> (br_holders s)) s.

(** [__init__]. *)
Definition broker_init (sys : system S W) (max_ttl now : Z) : result lease_error LeaseBroker :=
  raise_if (max_ttl <=? 0) BadMaxTtl ;;
  Ok {| br_sys := sys; br_max_ttl := max_ttl; br_held := []; br_holders := ∅; br_closed := false;
        br_now := now |}.

Definition clamp_ttl (s : LeaseBroker) (ttl : Z) : result lease_error Z :=
  raise_if (ttl <=? 0) BadTtl ;; Ok (Z.min ttl (br_max_ttl s)).

Definition leases (s : LeaseBroker) : list Lease :=
  omap (fun e => h_lease <$> br_holders s !! e.2) (br_held s).

(** * Operations *)

(** [acquire] up to its wait: the holder task [i] is created. *)
Definition acquire (s : LeaseBroker) (i : nat) (id device : string) (nbytes ttl : Z)
  (timeout : option Z) : result lease_error LeaseBroker :=
  raise_if (br_closed s) BrokerClosed ;;
  ttl ← clamp_ttl s ttl ;
  Ok (set_holder i {| h_ttl := ttl; h_timeout := timeout;
        h_lease := {| lease_id := id; l_device := device; l_nbytes := nbytes;
                      expires_at := br_now s + ttl |};
        h_released := false; h_granted := Pending; h_stage := Starting |} s).

(** [granted.set_exception], when nobody has settled the future. *)
Definition fail_grant (e : grant_error) (h : hold) : hold :=
  match h_granted h with Pending => set_granted (Failed e) h | _ => h end.

(** The holder's first step enters [reserve] as the governor's task [t]. *)
Definition start (sysmem : option Z) (s : LeaseBroker) (i : nat) (h : hold) (t : nat) : LeaseBroker :=
  match begin_reserve sysmem (sys_gov (br_sys s)) (sys_world (br_sys s)) (br_now s)
          (l_device (h_lease h)) (l_nbytes (h_lease h)) (h_timeout h) with
  | Ok a => set_holder i (set_hold_stage (Admission t) h)
      (set_sys {| sys_gov := sys_gov (br_sys s); sys_world := sys_world (br_sys s);
                  sys_tasks := <[t := Running a]> (sys_tasks (br_sys s)) |} s)
  | Err e => set_holder i (set_hold_stage Gone (fail_grant (Refused (Some e)) h)) s
  end.

(** The body of [async with], from the grant to its first suspension. *)
Definition on_grant (s : LeaseBroker) (i : nat) (h : hold) (t : nat) : LeaseBroker :=
  if br_closed s
  then set_holder i (set_hold_stage (Exiting t) (fail_grant ClosedMeanwhile h)) s
  else
    let h1 := set_lease (extend (br_now s) (h_ttl h) (h_lease h)) h in
    let s1 := set_held (dict_set (br_held s) (lease_id (h_lease h)) i) s in
    match h_granted h with
    | Pending => set_holder i (set_hold_stage (Live t) (set_granted Granted_ok h1)) s1
    | _ => set_holder i (set_hold_stage (Exiting t) h1) s1
    end.

(** One iteration of the admission loop of holder [i]. *)
Definition iterate (s : LeaseBroker) (i : nat) (h : hold) (t : nat) (a : admission) : LeaseBroker :=
  let '(act, g) := admit_step (br_now s) (sys_gov (br_sys s)) (sys_world (br_sys s)) a in
  let s' := set_sys {| sys_gov := g; sys_world := sys_world (br_sys s);
                       sys_tasks := <[t := after_step a act]> (sys_tasks (br_sys s)) |} s in
  match act with
  | Granted _ _ => on_grant s' i h t
  | _ => s'
  end.

(** The holder is done: out of the reservation and out of [_held]. *)
Definition finish (s : LeaseBroker) (i : nat) (h : hold) : LeaseBroker :=
  set_holder i (set_hold_stage Gone h)
    (set_held (dict_del (br_held s) (lease_id (h_lease h))) s).

(** The [while] loop of [hold] stops. *)
Definition lease_over (s : LeaseBroker) (h : hold) : bool :=
  h_released h || (expires_at (h_lease h) - br_now s <=? 0).

(** [release] up to its wait for the holder; [false] when it is unknown. *)
Definition release_lease (s : LeaseBroker) (id : string) : LeaseBroker * bool :=
  match dict_get (br_held s) id with
  | None => (s, false)
  | Some i => (match br_holders s !! i with
               | Some h => set_holder i (set_released h) s
               | None => s
               end, true)
  end.

Definition renew (s : LeaseBroker) (id : string) (ttl : Z) :
  result lease_error (LeaseBroker * option Lease) :=
  ttl ← clamp_ttl s ttl ;
  match dict_get (br_held s) id ≫= fun i => (fun h => (i, h)) <$> br_holders s !! i with
  | None => Ok (s, None)
  | Some (i, h) =>
      if expires_at (h_lease h) <=? br_now s then Ok (s, None)
      else let l := extend (br_now s) ttl (h_lease h) in
           Ok (set_holder i (set_lease l h) s, Some l)
  end.

(** What [close] does to one holder: those in [_held] are released, those
    still in admission cancelled; [ignores] are the ones whose suspended call
    does not let the cancellation through. *)
Definition close_holder (s : LeaseBroker) (i : nat) (h : hold) : hold :=
  if bool_decide (i ∈ (br_held s).*2) then set_released h
  else match h_stage h with
       | Starting => set_hold_stage Gone h
       | _ => h
       end.

Definition cancelled_tasks (s : LeaseBroker) (ignores : nat -> bool) : list nat :=
  omap (fun e : nat * hold =>
          match h_stage e.2 with
          | Admission t => if ignores e.1 then None else Some t
          | _ => None
          end) (map_to_list (br_holders s)).

Definition close (ignores : nat -> bool) (s : LeaseBroker) : LeaseBroker :=
  {| br_sys := {| sys_gov := sys_gov (br_sys s); sys_world := sys_world (br_sys s);
                  sys_tasks := foldr (fun t ts => <[t := Finished None]> ts)
                                 (sys_tasks (br_sys s)) (cancelled_tasks s ignores) |};
     br_max_ttl := br_max_ttl s; br_held := br_held s;
     br_holders := map_imap (fun i h => Some (close_holder s i h)) (br_holders s);
     br_closed := true; br_now := br_now s |}.

(** * Steps *)

(** The tasks of the governor that holders own. *)
Definition owns (s : LeaseBroker) (t : nat) : Prop :=
  exists i h, br_holders s !! i = Some h /\ gov_task (h_stage h) = Some t.

(** Steps of the broker itself, without anybody asking for anything: time
    passes, and holders run. *)
Inductive holder_step : LeaseBroker -> LeaseBroker -> Prop :=
| l_time s now : br_now s <= now ->
    holder_step s {| br_sys := br_sys s; br_max_ttl := br_max_ttl s; br_held := br_held s;
                     br_holders := br_holders s; br_closed := br_closed s; br_now := now |}
| l_start s i h sysmem t :
    br_holders s !! i = Some h -> h_stage h = Starting -> sys_tasks (br_sys s) !! t = None ->
    holder_step s (start sysmem s i h t)
| l_iterate s i h t a :
    br_holders s !! i = Some h -> h_stage h = Admission t ->
    sys_tasks (br_sys s) !! t = Some (Running a) ->
    holder_step s (iterate s i h t a)
| l_refused s i h t e :
    br_holders s !! i = Some h -> h_stage h = Admission t ->
    sys_tasks (br_sys s) !! t = Some (Finished e) ->
    holder_step s (set_holder i (set_hold_stage Gone (fail_grant (Refused e) h)) s)
| l_over s i h t :
    br_holders s !! i = Some h -> h_stage h = Live t -> lease_over s h = true ->
    holder_step s (set_holder i (set_hold_stage (Exiting t) h) s)
| l_exit s i h t r g total :
    br_holders s !! i = Some h -> h_stage h = Exiting t ->
    sys_tasks (br_sys s) !! t = Some (Holding r) ->
    Governor.release (sys_gov (br_sys s)) r = (g, total) ->
    holder_step s (finish (set_sys {| sys_gov := g; sys_world := sys_world (br_sys s);
                     sys_tasks := wake <$> <[t := Finished None]> (sys_tasks (br_sys s)) |} s) i h).

(** Peers call the broker, and the rest of the governor's system runs: it
    neither releases what holders hold nor grants what they ask. *)
Inductive peer_step : LeaseBroker -> LeaseBroker -> Prop :=
| l_acquire s i id device nbytes ttl timeout s' :
    br_holders s !! i = None ->
    (forall j h, br_holders s !! j = Some h -> lease_id (h_lease h) <> id) ->
    acquire s i id device nbytes ttl timeout = Ok s' -> peer_step s s'
| l_caller_gone s i h :
    br_holders s !! i = Some h -> h_granted h = Pending ->
    peer_step s (set_holder i (set_granted Caller_gone h) s)
| l_release s id : peer_step s (release_lease s id).1
| l_renew s id ttl s' l : renew s id ttl = Ok (s', l) -> peer_step s s'
| l_close s ignores : peer_step s (close ignores s)
| l_governor s sys :
    Governor.step (br_sys s) sys ->
    (forall t r, owns s t ->
       sys_tasks (br_sys s) !! t = Some (Holding r) <-> sys_tasks sys !! t = Some (Holding r)) ->
    peer_step s (set_sys sys s).

Definition lease_step (s s' : LeaseBroker) : Prop := holder_step s s' \/ peer_step s s'.

(** A new broker over a governor that is already at work. *)
Definition broker_initial (s : LeaseBroker) : Prop :=
  Governor.reachable (br_sys s)
  /\ exists sys max_ttl now, broker_init sys max_ttl now = Ok s.

Definition broker_reachable (s : LeaseBroker) : Prop :=
  exists s0, broker_initial s0 /\ star lease_step s0 s.
End broker.

(** * The invariant *)

(** The two views of a task that its owner relies on: what it holds stays
    held, and what it asks for stays the same. *)
Definition keeps (ts ts' : gmap nat task) (t : nat) : Prop :=
  (forall r, ts !! t = Some (Holding r) <-> ts' !! t = Some (Holding r))
  /\ (forall tk, ts !! t = Some tk -> exists tk', ts' !! t = Some tk'
        /\ forall c, claim tk' = Some c -> claim tk = Some c).

Lemma keeps_refl ts t : keeps ts ts t.
Proof. split; [done|]. intros tk Ht. by exists tk. Qed.

Lemma keeps_insert ts t t' tk : t <> t' -> keeps ts (<[t' := tk]> ts) t.
Proof.
  intros Hne. unfold keeps. rewrite lookup_insert_ne by done. split; [done|].
  intros tk0 Ht. by exists tk0.
Qed.

Lemma keeps_wake ts t t' : t <> t' -> keeps ts (wake <$> <[t' := Finished None]> ts) t.
Proof.
  intros Hne. unfold keeps. rewrite lookup_fmap, lookup_insert_ne by done.
  destruct (ts !! t) as [tk|]; cbn; split.
  - intros r. split; intros [= Hw]; subst; [done|]. f_equal. by apply wake_holding.
  - intros tk0 [= <-]. exists (wake tk). split; [done|]. intros c. apply claim_wake.
  - done.
  - done.
Qed.

(** What a holder asked for. *)
Definition wanted (h : hold) : string * Z := (l_device (h_lease h), l_nbytes (h_lease h)).

Section invariant.
Context {S W : Type} `{EqDecision S} `{Shedder S W}.
Implicit Types (s : @LeaseBroker S W).

Definition hold_ok s (i : nat) (h : hold) : Prop :=
  (0 < h_ttl h <= br_max_ttl s) /\ expires_at (h_lease h) <= br_now s + br_max_ttl s
  /\ match h_stage h with
     | Starting | Gone => True
     | Admission t => exists tk, sys_tasks (br_sys s) !! t = Some tk
         /\ (forall r, tk <> Holding r) /\ forall c, claim tk = Some c -> c = wanted h
     | Live t => holds (sys_tasks (br_sys s)) t (wanted h)
         /\ (lease_id (h_lease h), i) ∈ br_held s /\ (br_closed s = true -> h_released h = true)
     | Exiting t => holds (sys_tasks (br_sys s)) t (wanted h)
     end.

(** What [_held] lists of holder [i]. *)
Definition listed (i : nat) (h : hold) (held : list (string * nat)) : Prop :=
  forall id, (id, i) ∈ held -> lease_id (h_lease h) = id
    /\ exists t, h_stage h = Live t \/ h_stage h = Exiting t.

Record broker_ok s : Prop := {
  bo_sys : Governor.reachable (br_sys s);
  bo_max : 0 < br_max_ttl s;
  bo_holders : forall i h, br_holders s !! i = Some h -> hold_ok s i h;
  bo_listed : forall id i, (id, i) ∈ br_held s -> exists h, br_holders s !! i = Some h /\ listed i h (br_held s);
  bo_keys : NoDup (keys (br_held s));
  bo_tasks : forall i j h h' t, br_holders s !! i = Some h -> br_holders s !! j = Some h' ->
    gov_task (h_stage h) = Some t -> gov_task (h_stage h') = Some t -> i = j;
  bo_ids : forall i j h h', br_holders s !! i = Some h -> br_holders s !! j = Some h' ->
    lease_id (h_lease h) = lease_id (h_lease h') -> i = j;
}.

(** A holder whose tasks and listing are untouched. *)
Lemma hold_ok_frame s s' i h :
  br_max_ttl s' = br_max_ttl s -> br_now s <= br_now s' ->
  (br_closed s' = true -> br_closed s = true \/ h_released h = true) ->
  (forall t, gov_task (h_stage h) = Some t -> keeps (sys_tasks (br_sys s)) (sys_tasks (br_sys s')) t) ->
  ((lease_id (h_lease h), i) ∈ br_held s -> (lease_id (h_lease h), i) ∈ br_held s') ->
  hold_ok s i h -> hold_ok s' i h.
Proof.
  intros Hmax Hnow Hcl Hk Hin (Httl & Hexp & Hst). unfold hold_ok. rewrite Hmax.
  split_and!; [lia|lia|lia|].
  destruct (h_stage h) as [|t|t|t|]; try done; specialize (Hk t eq_refl) as [Hh Ha].
  - destruct Hst as (tk & Ht & Hn & Hc). destruct (Ha tk Ht) as (tk' & Ht' & Hc').
    exists tk'. split_and!; [done| |by auto]. intros r ->. apply Hh in Ht'. rewrite Ht in Ht'.
    injection Ht' as ->. by apply (Hn r).
  - destruct Hst as ((r & Hr & Hrc) & Hl & Hrel). split_and!; [|by auto|intros []%Hcl; auto].
    exists r. split; [by apply Hh|done].
  - destruct Hst as (r & Hr & Hrc). exists r. split; [by apply Hh|done].
Qed.

(** A step of one holder, which may move its own task and its own entry. *)
Lemma broker_ok_update s i h' sys held :
  broker_ok s -> Governor.reachable sys ->
  (forall j hj t, j <> i -> br_holders s !! j = Some hj -> gov_task (h_stage hj) = Some t ->
     keeps (sys_tasks (br_sys s)) (sys_tasks sys) t) ->
  (forall j id, j <> i -> (id, j) ∈ held <-> (id, j) ∈ br_held s) -> NoDup (keys held) ->
  listed i h' held ->
  (forall j hj, j <> i -> br_holders s !! j = Some hj -> lease_id (h_lease hj) <> lease_id (h_lease h')) ->
  (forall j hj t, j <> i -> br_holders s !! j = Some hj -> gov_task (h_stage h') = Some t ->
     gov_task (h_stage hj) <> Some t) ->
  let s' := set_holder i h' (set_held held (set_sys sys s)) in
  hold_ok s' i h' -> broker_ok s'.
Proof.
  intros Hok Hsys Hk Hheld Hnd Hl Hids Htasks s' Hh'. constructor; cbn.
  - done.
  - apply (bo_max s Hok).
  - intros j hj. rewrite lookup_insert. case_decide as Hij; [by intros [= <-]; subst|]. intros Hj.
    apply (hold_ok_frame s); try done; [by left| | |by apply (bo_holders s Hok)].
    + intros t Ht. by apply (Hk j hj).
    + cbn. by rewrite Hheld.
  - intros id j Hin. destruct (decide (j = i)) as [->|Hne].
    + exists h'. by rewrite lookup_insert_eq.
    + apply Hheld in Hin as Hin0; [|done]. destruct (bo_listed s Hok id j Hin0) as (h & Hj & Hlj).
      exists h. rewrite lookup_insert_ne by done. split; [done|]. intros id' Hid'. apply Hlj. by apply Hheld.
  - done.
  - intros j k hj hk t. rewrite !lookup_insert. repeat case_decide; subst; try done.
    + intros [= <-] Hk1 Hg1 Hg2. by destruct (Htasks k hk t).
    + intros Hj [= <-] Hg1 Hg2. by destruct (Htasks j hj t).
    + apply (bo_tasks s Hok).
  - intros j k hj hk. rewrite !lookup_insert. repeat case_decide; subst; try done.
    + intros [= <-] Hk1 Hg1. by destruct (Hids k hk).
    + intros Hj [= <-] Hg1. by destruct (Hids j hj).
    + apply (bo_ids s Hok).
Qed.

(** The same, when the holder keeps its entry and its id. *)
Lemma broker_ok_holder s i h h' sys :
  broker_ok s -> br_holders s !! i = Some h -> Governor.reachable sys ->
  (forall j hj t, j <> i -> br_holders s !! j = Some hj -> gov_task (h_stage hj) = Some t ->
     keeps (sys_tasks (br_sys s)) (sys_tasks sys) t) ->
  lease_id (h_lease h') = lease_id (h_lease h) ->
  ((exists t, h_stage h = Live t \/ h_stage h = Exiting t) ->
    exists t, h_stage h' = Live t \/ h_stage h' = Exiting t) ->
  (forall j hj t, j <> i -> br_holders s !! j = Some hj -> gov_task (h_stage h') = Some t ->
     gov_task (h_stage hj) <> Some t) ->
  let s' := set_holder i h' (set_sys sys s) in
  hold_ok s' i h' -> broker_ok s'.
Proof.
  intros Hok Hi Hsys Hk Hid Hst Htasks s' Hh'.
  assert (Heq : s' = set_holder i h' (set_held (br_held s) (set_sys sys s))) by done.
  rewrite Heq in *. apply broker_ok_update; try done.
  - apply (bo_keys s Hok).
  - intros id Hin. destruct (bo_listed s Hok id i Hin) as (h0 & Hi0 & Hl).
    assert (h0 = h) as -> by congruence. destruct (Hl id Hin) as [Hlid Hlst]. rewrite Hid. auto.
  - intros j hj Hne Hj Heq'. apply Hne, (bo_ids s Hok j i hj h); congruence.
Qed.
End invariant.

Section preservation.
Context {S W : Type} `{EqDecision S} `{Shedder S W}.
Implicit Types (s : @LeaseBroker S W).

Lemma reachable_after s sys :
  broker_ok s -> Governor.step (br_sys s) sys -> Governor.reachable sys.
Proof. intros Hok Hstep. eapply reachable_more; [apply (bo_sys s Hok)|by apply star_one]. Qed.

(** Moving a holder's own task leaves the others' alone. *)
Lemma others_keep s i h t tk :
  broker_ok s -> br_holders s !! i = Some h -> gov_task (h_stage h) = Some t ->
  forall j hj t', j <> i -> br_holders s !! j = Some hj -> gov_task (h_stage hj) = Some t' ->
  keeps (sys_tasks (br_sys s)) (<[t := tk]> (sys_tasks (br_sys s))) t'.
Proof. intros Hok Hi Ht j hj t' Hne Hj Ht'. apply keeps_insert. intros ->. by eapply Hne, (bo_tasks s Hok). Qed.

Lemma others_differ s i h t :
  broker_ok s -> br_holders s !! i = Some h -> gov_task (h_stage h) = Some t ->
  forall j hj t', j <> i -> br_holders s !! j = Some hj -> Some t = Some t' ->
  gov_task (h_stage hj) <> Some t'.
Proof. intros Hok Hi Ht j hj t' Hne Hj [= <-] Ht'. by eapply Hne, (bo_tasks s Hok). Qed.

Lemma fail_grant_same e h : h_stage (fail_grant e h) = h_stage h /\ h_lease (fail_grant e h) = h_lease h
  /\ h_ttl (fail_grant e h) = h_ttl h /\ h_released (fail_grant e h) = h_released h.
Proof. unfold fail_grant. by destruct (h_granted h). Qed.

(** A holder that ends without a reservation. *)
Lemma gone_ok s i h e :
  broker_ok s -> br_holders s !! i = Some h -> (h_stage h = Starting \/ exists t, h_stage h = Admission t) ->
  broker_ok (set_holder i (set_hold_stage Gone (fail_grant e h)) s).
Proof.
  intros Hok Hi Hst. destruct (fail_grant_same e h) as (Hf1 & Hf2 & Hf3 & Hf4).
  destruct (bo_holders s Hok i h Hi) as (Httl & Hexp & _).
  apply (broker_ok_holder s i h _ (br_sys s)); cbn; try done.
  - apply (bo_sys s Hok).
  - intros. apply keeps_refl.
  - by rewrite Hf2.
  - intros (t & [Ht|Ht]); destruct Hst as [Hst|[t' Hst]]; congruence.
  - unfold hold_ok. cbn. rewrite Hf2, Hf3. (split_and!; done || lia).
Qed.

Lemma start_ok sysmem s i h t :
  broker_ok s -> br_holders s !! i = Some h -> h_stage h = Starting ->
  sys_tasks (br_sys s) !! t = None -> broker_ok (start sysmem s i h t).
Proof.
  intros Hok Hi Hst Ht. unfold start. destruct (begin_reserve _ _ _ _ _ _ _) as [a|e] eqn:Hb;
    [|apply gone_ok; auto].
  assert (Hfresh : forall j hj t', br_holders s !! j = Some hj -> gov_task (h_stage hj) = Some t' -> t' <> t).
  { intros j hj t' Hj Ht' ->. destruct (bo_holders s Hok j hj Hj) as (_ & _ & Hs).
    destruct (h_stage hj); cbn in Ht'; simplify_eq.
    - destruct Hs as (? & ? & _). congruence.
    - destruct Hs as ((? & ? & _) & _). congruence.
    - destruct Hs as (? & ? & _). congruence. }
  destruct (bo_holders s Hok i h Hi) as (Httl & Hexp & _).
  apply (broker_ok_holder s i h); cbn; try done.
  - by eapply reachable_after, step_begin.
  - intros j hj t' Hne Hj Ht'. apply keeps_insert. by eapply Hfresh.
  - intros (t' & [Ht'|Ht']); congruence.
  - intros j hj t' Hne Hj [= <-] Ht'. by eapply Hfresh.
  - split_and!; try done; try (cbn; lia). exists (Running a). cbn.
    rewrite lookup_insert_eq. split_and!; [done|done|]. intros c [= <-].
    unfold begin_reserve in Hb. destruct (_ <? 0); [done|]. by injection Hb as <-.
Qed.

Lemma on_grant_ok s i h t r sys :
  broker_ok s -> br_holders s !! i = Some h -> h_stage h = Admission t ->
  Governor.reachable sys -> (res_device r, res_nbytes r) = wanted h ->
  sys_tasks sys = <[t := Holding r]> (sys_tasks (br_sys s)) ->
  broker_ok (on_grant (set_sys sys s) i h t).
Proof.
  intros Hok Hi Hst Hr Hw Hsys.
  destruct (bo_holders s Hok i h Hi) as (Httl & Hexp & _).
  assert (Ht : gov_task (h_stage h) = Some t) by by rewrite Hst.
  assert (Hnew : forall id, (id, i) ∉ br_held s).
  { intros id Hin. destruct (bo_listed s Hok id i Hin) as (h0 & Hi0 & Hl).
    assert (h0 = h) as -> by congruence. destruct (Hl id Hin) as (_ & t' & [Ht'|Ht']); congruence. }
  assert (Hkeep : forall j hj t', j <> i -> br_holders s !! j = Some hj -> gov_task (h_stage hj) = Some t' ->
    keeps (sys_tasks (br_sys s)) (sys_tasks sys) t') by (rewrite Hsys; by eapply others_keep).
  assert (Hdiff := others_differ s i h t Hok Hi Ht).
  assert (Hown : holds (sys_tasks sys) t (wanted h)) by (exists r; by rewrite Hsys, lookup_insert_eq).
  unfold on_grant. cbn. destruct (br_closed s) eqn:Hcl.
  { destruct (fail_grant_same ClosedMeanwhile h) as (Hf1 & Hf2 & Hf3 & Hf4).
    apply (broker_ok_holder s i h); cbn; try done; [by rewrite Hf2|eauto|].
    unfold hold_ok, wanted. cbn. rewrite Hf2, Hf3. (split_and!; done || lia). }
  set (held := dict_set (br_held s) (lease_id (h_lease h)) i).
  assert (Hids : forall j hj, j <> i -> br_holders s !! j = Some hj -> lease_id (h_lease hj) <> lease_id (h_lease h)).
  { intros j hj Hne Hj Heq. by eapply Hne, (bo_ids s Hok). }
  assert (Hfree : lease_id (h_lease h) ∉ keys (br_held s)).
  { intros ([id j] & Hid & Hin)%list_elem_of_fmap. cbn in Hid. subst id.
    destruct (bo_listed s Hok _ j Hin) as (hj & Hj & Hl). destruct (Hl _ Hin) as [Heq _].
    destruct (decide (j = i)) as [->|Hne]; [by eapply Hnew|]. by eapply Hids. }
  assert (Happ : held = br_held s ++ [(lease_id (h_lease h), i)]).
  { unfold held. clear -Hfree. induction (br_held s) as [|[a b] l IH]; cbn in *; [done|].
    apply not_elem_of_cons in Hfree as [Hne Hfree]. rewrite decide_False by done. by rewrite IH. }
  assert (Hheld : forall j id, j <> i -> (id, j) ∈ held <-> (id, j) ∈ br_held s).
  { intros j id Hne. rewrite Happ, elem_of_app, list_elem_of_singleton. naive_solver. }
  assert (Hlisted : forall id, (id, i) ∈ held -> lease_id (h_lease h) = id).
  { intros id. rewrite Happ, elem_of_app, list_elem_of_singleton. naive_solver. }
  assert (Hin : (lease_id (h_lease h), i) ∈ held)
    by (rewrite Happ, elem_of_app, list_elem_of_singleton; by right).
  assert (Hnd : NoDup (keys held)) by apply NoDup_dict_set, (bo_keys s Hok).
  assert (Hnow : br_now s + h_ttl h <= br_now s + br_max_ttl s) by lia.
  destruct (h_granted h);
    apply (broker_ok_update s i _ sys held); try done;
    try (intros id Hid; split; [by apply Hlisted|eauto]);
    unfold hold_ok, wanted; cbn; rewrite ?Hcl; (split_and!; done || lia).
Qed.

Lemma iterate_ok s i h t a :
  broker_ok s -> br_holders s !! i = Some h -> h_stage h = Admission t ->
  sys_tasks (br_sys s) !! t = Some (Running a) -> broker_ok (iterate s i h t a).
Proof.
  intros Hok Hi Hst Ht. destruct (bo_holders s Hok i h Hi) as (Httl & Hexp & Hs). rewrite Hst in Hs.
  destruct Hs as (tk & Htk & _ & Hc). assert (tk = Running a) as -> by congruence.
  specialize (Hc _ eq_refl). unfold iterate.
  destruct (admit_step _ _ _ a) as [act g] eqn:Hact.
  assert (Hr : Governor.reachable {| sys_gov := g; sys_world := sys_world (br_sys s);
    sys_tasks := <[t := after_step a act]> (sys_tasks (br_sys s)) |})
    by by eapply reachable_after, step_iterate.
  assert (Hcl : forall c, claim (after_step a act) = Some c -> c = wanted h)
    by (intros c Hc'; rewrite <- Hc; by eapply claim_after_step).
  assert (Hmove : (forall r, after_step a act <> Holding r) ->
    broker_ok (set_sys {| sys_gov := g; sys_world := sys_world (br_sys s);
      sys_tasks := <[t := after_step a act]> (sys_tasks (br_sys s)) |} s)).
  { intros Hn.
    assert (Heq : set_sys {| sys_gov := g; sys_world := sys_world (br_sys s);
      sys_tasks := <[t := after_step a act]> (sys_tasks (br_sys s)) |} s
      = set_holder i h (set_sys {| sys_gov := g; sys_world := sys_world (br_sys s);
      sys_tasks := <[t := after_step a act]> (sys_tasks (br_sys s)) |} s)).
    { unfold set_holder, set_holders, set_sys. cbn. rewrite (insert_id (br_holders s) i h) by done. done. }
    rewrite Heq. apply (broker_ok_holder s i h); cbn; try done.
    - eapply others_keep; [done|done|by rewrite Hst].
    - intros j hj t' Hne Hj Heq' Hj'. eapply Hne, (bo_tasks s Hok); eauto.
    - unfold hold_ok. rewrite Hst. split_and!; try done; try (cbn; lia). exists (after_step a act). cbn.
      by rewrite lookup_insert_eq. }
  destruct act as [r total|e|rem|sf bp rem|a']; try (apply Hmove; intros; cbn; by destruct bp || done); try by apply Hmove.
  eapply on_grant_ok; [done..| |done]. symmetry. by rewrite <- (Hcl _ eq_refl).
Qed.
End preservation.

Section preservation2.
Context {S W : Type} `{EqDecision S} `{Shedder S W}.
Implicit Types (s : @LeaseBroker S W) (sys : system S W).

Lemma over_ok s i h t :
  broker_ok s -> br_holders s !! i = Some h -> h_stage h = Live t ->
  broker_ok (set_holder i (set_hold_stage (Exiting t) h) s).
Proof.
  intros Hok Hi Hst. destruct (bo_holders s Hok i h Hi) as (Httl & Hexp & Hs). rewrite Hst in Hs.
  apply (broker_ok_holder s i h _ (br_sys s)); cbn; try done.
  - apply (bo_sys s Hok).
  - intros. apply keeps_refl.
  - eauto.
  - apply others_differ with h; [done|done|by rewrite Hst].
  - unfold hold_ok. cbn. destruct Hs as (Hh & _). (split_and!; done || lia).
Qed.

Lemma exit_lease_ok s i h t r g total :
  broker_ok s -> br_holders s !! i = Some h -> h_stage h = Exiting t ->
  sys_tasks (br_sys s) !! t = Some (Holding r) -> Governor.release (sys_gov (br_sys s)) r = (g, total) ->
  broker_ok (finish (set_sys {| sys_gov := g; sys_world := sys_world (br_sys s);
                     sys_tasks := wake <$> <[t := Finished None]> (sys_tasks (br_sys s)) |} s) i h).
Proof.
  intros Hok Hi Hst Ht Hrel. destruct (bo_holders s Hok i h Hi) as (Httl & Hexp & _).
  assert (Hids : forall j hj, j <> i -> br_holders s !! j = Some hj -> lease_id (h_lease hj) <> lease_id (h_lease h)).
  { intros j hj Hne Hj Heq. by eapply Hne, (bo_ids s Hok). }
  unfold finish. apply broker_ok_update; try done.
  - by eapply reachable_after, step_release.
  - intros j hj t' Hne Hj Ht'. apply keeps_wake. intros ->. eapply Hne, (bo_tasks s Hok); [done|done|done|by rewrite Hst].
  - intros j id Hne. cbn. split; [apply dict_del_elem|]. intros Hin.
    apply dict_get_elem. rewrite dict_get_del by apply (bo_keys s Hok).
    rewrite decide_False; [by apply elem_dict_get, Hin; apply (bo_keys s Hok)|].
    intros ->. destruct (bo_listed s Hok _ j Hin) as (hj & Hj & Hl). destruct (Hl _ Hin) as [Heq _].
    by eapply Hids.
  - apply NoDup_dict_del, (bo_keys s Hok).
  - intros id Hin. cbn in Hin. exfalso. apply dict_del_elem in Hin as Hin'.
    destruct (bo_listed s Hok _ i Hin') as (h0 & Hi0 & Hl). assert (h0 = h) as -> by congruence.
    destruct (Hl _ Hin') as [<- _].
    assert (Hg : dict_get (dict_del (br_held s) (lease_id (h_lease h))) (lease_id (h_lease h)) = Some i)
      by (apply elem_dict_get; [apply NoDup_dict_del, (bo_keys s Hok)|done]).
    rewrite dict_get_del in Hg by apply (bo_keys s Hok). by rewrite decide_True in Hg.
Qed.

Lemma acquire_ok s i id device nbytes ttl timeout s' :
  broker_ok s -> br_holders s !! i = None ->
  (forall j h, br_holders s !! j = Some h -> lease_id (h_lease h) <> id) ->
  acquire s i id device nbytes ttl timeout = Ok s' -> broker_ok s'.
Proof.
  intros Hok Hi Hid Hacq. unfold acquire, clamp_ttl in Hacq. result_steps.
  set (h := {| h_ttl := Z.min ttl (br_max_ttl s) |}).
  assert (Hnew : forall id', (id', i) ∉ br_held s).
  { intros id' Hin. destruct (bo_listed s Hok id' i Hin) as (h0 & Hi0 & _). congruence. }
  pose proof (bo_max s Hok).
  apply (broker_ok_update s i h (br_sys s) (br_held s)); try done.
  - apply (bo_sys s Hok).
  - intros. apply keeps_refl.
  - apply (bo_keys s Hok).
  - intros id' Hin. by destruct (Hnew id').
  - intros j hj Hne Hj. cbn. by eapply Hid.
  - unfold hold_ok. cbn. split_and!; lia || done.
Qed.

(** Changes of a holder that leave its stage and id. *)
Lemma tweak_ok s i h h' :
  broker_ok s -> br_holders s !! i = Some h -> h_stage h' = h_stage h -> wanted h' = wanted h ->
  lease_id (h_lease h') = lease_id (h_lease h) -> h_ttl h' = h_ttl h ->
  (h_released h = true -> h_released h' = true) ->
  expires_at (h_lease h') <= br_now s + br_max_ttl s ->
  broker_ok (set_holder i h' s).
Proof.
  intros Hok Hi Hst Hw Hid Httl Hrel Hexp. destruct (bo_holders s Hok i h Hi) as (Httl0 & _ & Hs).
  apply (broker_ok_holder s i h _ (br_sys s)); cbn; try done.
  - apply (bo_sys s Hok).
  - intros. apply keeps_refl.
  - by rewrite Hst.
  - rewrite Hst. intros j hj t Hne Hj Ht Htj. eapply Hne, (bo_tasks s Hok); eauto.
  - unfold hold_ok. cbn. rewrite Hst, Hw, Hid, Httl. split_and!; [lia|lia|done|].
    destruct (h_stage h); [done|done| |done|done]. destruct Hs as (? & ? & ?). split_and!; auto.
Qed.

Lemma cancel_all (l : list nat) sys :
  (forall t, t ∈ l -> exists tk, sys_tasks sys !! t = Some tk /\ forall r, tk <> Holding r) ->
  star Governor.step sys {| sys_gov := sys_gov sys; sys_world := sys_world sys;
    sys_tasks := foldr (fun t ts => <[t := Finished None]> ts) (sys_tasks sys) l |}.
Proof.
  induction l as [|t l IH]; intros Hl; cbn; [destruct sys; apply star_refl|].
  etrans; [apply IH; intros t' Ht'; apply Hl; by right|].
  set (sys' := {| sys_gov := sys_gov sys |}).
  assert (Ht : exists tk, sys_tasks sys' !! t = Some tk /\ forall r, tk <> Holding r).
  { destruct (Hl t ltac:(constructor)) as (tk & Ht & Hn). cbn. clear IH sys'.
    induction l as [|t' l IH]; cbn; [by exists tk|].
    rewrite lookup_insert. case_decide; [by eexists|]. apply IH. intros t0 Ht0. apply Hl.
    apply elem_of_cons in Ht0 as [->|]; [constructor|by right; right]. }
  destruct Ht as (tk & Ht & Hn). by eapply star_one, (step_cancel sys' t tk).
Qed.

Lemma lookup_cancelled (l : list nat) (ts : gmap nat task) t :
  foldr (fun t ts => <[t := Finished None]> ts) ts l !! t =
  if decide (t ∈ l) then Some (Finished None) else ts !! t.
Proof.
  induction l as [|t' l IH]; cbn; [by rewrite decide_False by apply not_elem_of_nil|].
  rewrite lookup_insert, IH. repeat case_decide; set_solver.
Qed.

Lemma elem_of_cancelled s ignores t :
  t ∈ cancelled_tasks s ignores ->
  exists i h, br_holders s !! i = Some h /\ h_stage h = Admission t.
Proof.
  unfold cancelled_tasks. rewrite list_elem_of_omap. intros ([i h] & Hin & Ht).
  apply elem_of_map_to_list in Hin. cbn in Ht. exists i, h. split; [done|].
  destruct (h_stage h); try done. by destruct (ignores i); simplify_eq.
Qed.

Lemma close_ok ignores s : broker_ok s -> broker_ok (close ignores s).
Proof.
  intros Hok.
  assert (Hadm : forall t i h, br_holders s !! i = Some h -> h_stage h = Admission t ->
    exists tk, sys_tasks (br_sys s) !! t = Some tk /\ (forall r, tk <> Holding r)
      /\ forall c, claim tk = Some c -> c = wanted h).
  { intros t i h Hi Hst. destruct (bo_holders s Hok i h Hi) as (_ & _ & Hs). by rewrite Hst in Hs. }
  assert (Hlook : forall i h', br_holders (close ignores s) !! i = Some h' ->
    exists h, br_holders s !! i = Some h /\ h' = close_holder s i h).
  { intros i h'. cbn. rewrite map_lookup_imap. destruct (br_holders s !! i) as [h|]; [|done].
    intros [= <-]. by exists h. }
  assert (Hsame : forall i h, lease_id (h_lease (close_holder s i h)) = lease_id (h_lease h)
    /\ (forall t, gov_task (h_stage (close_holder s i h)) = Some t -> h_stage (close_holder s i h) = h_stage h)).
  { intros i h. unfold close_holder. case_bool_decide; [done|]. destruct (h_stage h) eqn:E; cbn; by rewrite ?E. }
  constructor.
  - destruct (bo_sys s Hok) as (s0 & H0 & Hs0). exists s0. split; [done|]. etrans; [done|].
    apply cancel_all. intros t (i & h & Hi & Hst)%elem_of_cancelled.
    destruct (Hadm t i h Hi Hst) as (tk & ? & ? & _). by exists tk.
  - apply (bo_max s Hok).
  - intros i h' (h & Hi & ->)%Hlook. destruct (bo_holders s Hok i h Hi) as (Httl & Hexp & Hs).
    unfold close_holder. case_bool_decide as Hin.
    + assert (Hst : exists t, h_stage h = Live t \/ h_stage h = Exiting t).
      { apply list_elem_of_fmap in Hin as ([id j] & -> & Hin).
        destruct (bo_listed s Hok id j Hin) as (h0 & Hi0 & Hl). assert (h0 = h) as -> by (cbn in *; congruence).
        apply (Hl id Hin). }
      assert (Hholds : forall t c, holds (sys_tasks (br_sys s)) t c ->
        holds (sys_tasks (br_sys (close ignores s))) t c).
      { intros t c (r & Hr & Hc). exists r. split; [|done]. cbn. rewrite lookup_cancelled, decide_False; [done|].
        intros (j & hj & Hj & Hst')%elem_of_cancelled.
        destruct (Hadm t j hj Hj Hst') as (tk & ? & Hn & _). apply (Hn r). congruence. }
      split_and!; cbn; [lia|lia|done|]. destruct Hst as [t [Hst|Hst]]; rewrite Hst in *; cbn; [|by apply Hholds].
      destruct Hs as (? & ? & _). split_and!; [by apply Hholds|done|done].
    + destruct (h_stage h) as [|t|t|t|] eqn:Hst.
      * split_and!; cbn; lia || done.
      * split_and!; cbn; [lia|lia|done|]. rewrite Hst. destruct Hs as (tk & Ht & Hn & Hc).
        rewrite lookup_cancelled. case_decide; eauto. by eexists.
      * destruct Hs as (_ & Hin' & _). destruct Hin. apply list_elem_of_fmap. by exists (lease_id (h_lease h), i).
      * split_and!; cbn; [lia|lia|done|]. rewrite Hst. destruct Hs as (r & Hr & Hc). exists r. split; [|done].
        cbn. rewrite lookup_cancelled, decide_False; [done|]. intros (j & hj & Hj & Hst')%elem_of_cancelled.
        destruct (Hadm t j hj Hj Hst') as (tk & ? & Hn & _). apply (Hn r). congruence.
      * split_and!; cbn; [lia|lia|done|]. by rewrite Hst.
  - intros id i Hin. cbn in Hin. destruct (bo_listed s Hok id i Hin) as (h & Hi & Hl).
    exists (close_holder s i h). cbn. rewrite map_lookup_imap, Hi. split; [done|].
    intros id' Hin'. destruct (Hl id' Hin') as [Heq Hst]. unfold close_holder. rewrite bool_decide_true; [done|].
    apply list_elem_of_fmap. by exists (id, i).
  - apply (bo_keys s Hok).
  - intros i j hi hj t (h & Hi & ->)%Hlook (h' & Hj & ->)%Hlook Hti Htj.
    rewrite (proj2 (Hsame i h) t Hti) in Hti. rewrite (proj2 (Hsame j h') t Htj) in Htj.
    by eapply (bo_tasks s Hok).
  - intros i j hi hj (h & Hi & ->)%Hlook (h' & Hj & ->)%Hlook Heq.
    rewrite (proj1 (Hsame i h)), (proj1 (Hsame j h')) in Heq. by eapply (bo_ids s Hok).
Qed.
End preservation2.

Section reachable.
Context {S W : Type} `{EqDecision S} `{Shedder S W}.
Implicit Types (s : @LeaseBroker S W) (sys : system S W).

(** Steps that leave the holders and the listing alone. *)
Lemma broker_ok_elsewhere s s' :
  broker_ok s -> Governor.reachable (br_sys s') -> br_max_ttl s' = br_max_ttl s ->
  br_held s' = br_held s -> br_holders s' = br_holders s -> br_closed s' = br_closed s ->
  br_now s <= br_now s' ->
  (forall t, owns s t -> keeps (sys_tasks (br_sys s)) (sys_tasks (br_sys s')) t) ->
  broker_ok s'.
Proof.
  intros Hok Hr Hmax Hheld Hhs Hcl Hnow Hk. constructor; rewrite ?Hmax, ?Hheld, ?Hhs; try done.
  - apply (bo_max s Hok).
  - intros i h Hi. apply (hold_ok_frame s); try done; [rewrite Hcl; by left| |by rewrite Hheld|by apply (bo_holders s Hok)].
    intros t Ht. apply Hk. by exists i, h.
  - apply (bo_listed s Hok).
  - apply (bo_keys s Hok).
  - apply (bo_tasks s Hok).
  - apply (bo_ids s Hok).
Qed.

Lemma owned_live s t : broker_ok s -> owns s t -> is_Some (sys_tasks (br_sys s) !! t).
Proof.
  intros Hok (i & h & Hi & Ht). destruct (bo_holders s Hok i h Hi) as (_ & _ & Hs).
  destruct (h_stage h); cbn in Ht; simplify_eq.
  - destruct Hs as (tk & -> & _). by eexists.
  - destruct Hs as ((r & -> & _) & _). by eexists.
  - destruct Hs as (r & -> & _). by eexists.
Qed.

(** No step of the governor forgets a task. *)
Lemma step_tasks_stay sys sys' t : Governor.step sys sys' ->
  is_Some (sys_tasks sys !! t) -> is_Some (sys_tasks sys' !! t).
Proof.
  assert (Hins : forall (ts : gmap nat task) t0 tk, is_Some (ts !! t) -> is_Some (<[t0 := tk]> ts !! t)).
  { intros ts t0 tk Ht. rewrite lookup_insert. case_decide; [by eexists|done]. }
  intros [] Ht; cbn; auto. rewrite lookup_fmap. apply fmap_is_Some. by apply Hins.
Qed.

Lemma lease_step_ok s s' : broker_ok s -> lease_step s s' -> broker_ok s'.
Proof.
  intros Hok [Hstep|Hstep].
  - destruct Hstep as [s now Hnow|s i h sysmem t Hi Hst Ht|s i h t a Hi Hst Ht|s i h t e Hi Hst Ht
      |s i h t Hi Hst Hov|s i h t r g total Hi Hst Ht Hrel].
    + apply (broker_ok_elsewhere s); try done; [apply (bo_sys s Hok)|]. intros. apply keeps_refl.
    + by apply start_ok.
    + by apply iterate_ok.
    + apply gone_ok; eauto.
    + by apply over_ok.
    + by eapply exit_lease_ok.
  - destruct Hstep as [s i id device nbytes ttl timeout s' Hi Hid Hacq|s i h Hi Hf|s id|s id ttl s' l Hren
      |s ignores|s sys Hg Hheld].
    + by eapply acquire_ok.
    + apply (tweak_ok s i h); try done. apply (bo_holders s Hok i h Hi).
    + unfold release_lease. destruct (dict_get _ _) as [i|]; [|done]. cbn.
      destruct (br_holders s !! i) as [h|] eqn:Hi; [|done].
      apply (tweak_ok s i h); try done. apply (bo_holders s Hok i h Hi).
    + unfold renew, clamp_ttl in Hren. result_steps.
      destruct (dict_get (br_held s) id) as [i|]; cbn in *; [|by simplify_eq].
      destruct (br_holders s !! i) as [h|] eqn:Hi; cbn in *; [|by simplify_eq].
      destruct (expires_at (h_lease h) <=? br_now s); [by simplify_eq|]. simplify_eq.
      apply (tweak_ok s i h); try done. cbn. lia.
    + by apply close_ok.
    + apply (broker_ok_elsewhere s); try done; [by eapply reachable_after|]. intros t Hown. split.
      * intros r. by apply Hheld.
      * intros tk Ht. destruct (step_tasks_stay _ _ t Hg) as [tk' Ht']; [by eexists|].
        exists tk'. split; [done|]. intros c Hc.
        destruct (step_claims _ _ _ _ _ Hg Ht' Hc) as [?|(tk0 & ? & ?)]; congruence.
Qed.

Lemma broker_reachable_ok s : broker_reachable s -> broker_ok s.
Proof.
  intros (s0 & (Hr & sys & max_ttl & now & Hinit) & Hs).
  eapply (star_invariant lease_step); [|exact Hs|]; [intros a b; apply lease_step_ok|].
  unfold broker_init in Hinit. result_steps. constructor; cbn; try done.
  - lia.
  - by intros id i ?%not_elem_of_nil.
  - constructor.
Qed.

(** The reservation behind a listed holder. *)
Lemma listed_reservation s id i : broker_ok s -> (id, i) ∈ br_held s ->
  exists h t r, br_holders s !! i = Some h /\ lease_id (h_lease h) = id
    /\ (h_stage h = Live t \/ h_stage h = Exiting t) /\ gov_task (h_stage h) = Some t
    /\ sys_tasks (br_sys s) !! t = Some (Holding r) /\ (res_device r, res_nbytes r) = wanted h
    /\ reservations (sys_gov (br_sys s)) !! reservation_id r = Some r.
Proof.
  intros Hok Hin. destruct (bo_listed s Hok id i Hin) as (h & Hi & Hl).
  destruct (Hl id Hin) as [Hid [t Hst]]. destruct (bo_holders s Hok i h Hi) as (_ & _ & Hs).
  assert (exists r, sys_tasks (br_sys s) !! t = Some (Holding r) /\ (res_device r, res_nbytes r) = wanted h)
    as (r & Hr & Hw) by (destruct Hst as [E|E]; rewrite E in Hs; [by destruct Hs as (? & _)|done]).
  exists h, t, r. split_and!; try done; [by destruct Hst as [->| ->]|].
  apply (ok_held _ (Governor.reachable_ok _ (bo_sys s Hok)) t r Hr).
Qed.

(** The reservations behind some entries of [_held], in their order. *)
Lemma listed_backing s held : broker_ok s -> held ⊆ br_held s -> NoDup (keys held) -> exists rs,
    Forall2 (fun l r => res_device r = l_device l /\ res_nbytes r = l_nbytes l
        /\ exists t, sys_tasks (br_sys s) !! t = Some (Holding r) /\ owns s t)
      (omap (fun e => h_lease <$> br_holders s !! e.2) held) rs
    /\ lease_id <$> omap (fun e => h_lease <$> br_holders s !! e.2) held = keys held
    /\ Forall (fun r => reservations (sys_gov (br_sys s)) !! reservation_id r = Some r) rs
    /\ NoDup (reservation_id <$> rs)
    /\ forall r, r ∈ rs -> exists e h t, e ∈ held /\ br_holders s !! e.2 = Some h
         /\ gov_task (h_stage h) = Some t /\ sys_tasks (br_sys s) !! t = Some (Holding r).
Proof.
  intros Hok. pose proof (Governor.reachable_ok _ (bo_sys s Hok)) as Hsys.
  induction held as [|[id i] held IH]; intros Hsub Hnd.
  { exists []. split_and!; cbn; try constructor. by intros r ?%not_elem_of_nil. }
  apply NoDup_cons in Hnd as [Hid Hnd].
  destruct IH as (rs & Hall & Hids & Hrec & Hnds & Hwho); [set_solver|done|].
  destruct (listed_reservation s id i Hok) as (h & t & r & Hi & Hlid & Hst & Ht & Hr & Hw & Hres); [set_solver|].
  injection Hw as Hd Hn. exists (r :: rs). cbn. rewrite Hi. cbn. split_and!.
  - constructor; [|done]. split_and!; [done|done|]. exists t. split; [done|]. by exists i, h.
  - by rewrite Hlid, Hids.
  - by constructor.
  - constructor; [|done]. intros (r' & Hrid & Hr')%list_elem_of_fmap.
    destruct (Hwho r' Hr') as ([id' j] & h' & t' & Hin & Hj & Ht' & Hold). cbn in Hj.
    assert (t = t') as <- by (by eapply (ok_distinct _ Hsys)).
    assert (i = j) as <- by (by eapply (bo_tasks s Hok)).
    apply Hid. apply list_elem_of_fmap. exists (id', i). split; [|done]. cbn.
    destruct (bo_listed s Hok id' i) as (h0 & Hi0 & Hl); [set_solver|].
    assert (h0 = h) as -> by congruence. destruct (Hl id') as [<- _]; [set_solver|done].
  - intros r' [->|Hr']%elem_of_cons.
    + exists (id, i), h, t. split_and!; try done. constructor.
    + destruct (Hwho r' Hr') as (e & h' & t' & ? & ? & ? & ?). exists e, h', t'. split_and!; try done. by right.
Qed.

(** A holder that is leaving can leave at once. *)
Lemma exiting_leaves s i h t : broker_ok s -> br_holders s !! i = Some h -> h_stage h = Exiting t ->
  exists r g total, sys_tasks (br_sys s) !! t = Some (Holding r) /\ (res_device r, res_nbytes r) = wanted h
    /\ Governor.release (sys_gov (br_sys s)) r = (g, total)
    /\ holder_step s (finish (set_sys {| sys_gov := g; sys_world := sys_world (br_sys s);
         sys_tasks := wake <$> <[t := Finished None]> (sys_tasks (br_sys s)) |} s) i h).
Proof.
  intros Hok Hi Hst. destruct (bo_holders s Hok i h Hi) as (_ & _ & Hs). rewrite Hst in Hs.
  destruct Hs as (r & Hr & Hw). destruct (Governor.release (sys_gov (br_sys s)) r) as [g total] eqn:Hrel.
  exists r, g, total. split_and!; try done. by eapply l_exit.
Qed.
(** A holder that has a reservation gives it back by itself, at the latest
    when its time has run out, at once when it was released. *)
Lemma owner_leaves s i h t r :
  broker_ok s -> br_holders s !! i = Some h -> h_stage h = Live t \/ h_stage h = Exiting t ->
  sys_tasks (br_sys s) !! t = Some (Holding r) ->
  exists s' g total, star holder_step s s' /\ Governor.release (sys_gov (br_sys s)) r = (g, total)
    /\ br_sys s' = {| sys_gov := g; sys_world := sys_world (br_sys s);
                     sys_tasks := wake <$> <[t := Finished None]> (sys_tasks (br_sys s)) |}
    /\ br_held s' = dict_del (br_held s) (lease_id (h_lease h))
    /\ br_now s <= br_now s' <= br_now s + br_max_ttl s
    /\ (lease_over s h = true -> br_now s' = br_now s).
Proof.
  intros Hok Hi Hst Hr. pose proof (bo_max s Hok) as Hmax.
  destruct (bo_holders s Hok i h Hi) as (_ & Hexp & _).
  set (now := if lease_over s h then br_now s else Z.max (br_now s) (expires_at (h_lease h))).
  assert (Hnow : br_now s <= now <= br_now s + br_max_ttl s)
    by (unfold now; destruct (lease_over s h); lia).
  set (s1 := {| br_sys := br_sys s; br_max_ttl := br_max_ttl s; br_held := br_held s;
                br_holders := br_holders s; br_closed := br_closed s; br_now := now |}).
  assert (H1 : star holder_step s s1) by (apply star_one, l_time; lia).
  assert (H2 : exists s2 h2, star holder_step s1 s2 /\ br_holders s2 !! i = Some h2
    /\ h_stage h2 = Exiting t /\ lease_id (h_lease h2) = lease_id (h_lease h)
    /\ br_sys s2 = br_sys s /\ br_held s2 = br_held s /\ br_now s2 = now).
  { destruct Hst as [Hst|Hst]; [|exists s1, h; split_and!; done || apply star_refl].
    exists (set_holder i (set_hold_stage (Exiting t) h) s1), (set_hold_stage (Exiting t) h). split_and!; try done.
    - apply star_one, l_over; [done|done|]. unfold lease_over at 1. cbn.
      destruct (h_released h) eqn:Hrel; [done|]. unfold now, lease_over. rewrite Hrel. cbn.
      destruct (expires_at (h_lease h) - br_now s <=? 0) eqn:E; [done|]. apply Z.leb_le. lia.
    - cbn. by rewrite lookup_insert_eq. }
  destruct H2 as (s2 & h2 & Hs2 & Hi2 & Hst2 & Hid2 & Hsys2 & Hheld2 & Hnow2).
  destruct (Governor.release (sys_gov (br_sys s)) r) as [g total] eqn:Hrel.
  eexists _, g, total. split.
  { etrans; [exact H1|]. etrans; [exact Hs2|]. eapply star_one, l_exit; rewrite ?Hsys2; done. }
  cbn. rewrite Hsys2, Hheld2, Hid2, Hnow2. split_and!; try done; try lia.
  unfold now. by intros ->.
Qed.
End reachable.

(** * Sums over leases *)

(** Bytes of some reservations on a device. *)
Definition bytes_on (d : string) (rs : list Reservation) : Z :=
  zsum ((fun r => if decide (res_device r = d) then res_nbytes r else 0) <$> rs).

Lemma bytes_on_outstanding (rs : gmap string Reservation) (l : list Reservation) d :
  NoDup (reservation_id <$> l) -> Forall (fun r => rs !! reservation_id r = Some r) l ->
  (forall id r, rs !! id = Some r -> 0 <= res_nbytes r) -> bytes_on d l <= outstanding rs d.
Proof.
  intros Hnd Hin Hpos. set (pair := fun r : Reservation => (reservation_id r, r)).
  assert (Hsub : (pair <$> l) ⊆+ map_to_list rs).
  { apply NoDup_submseteq.
    - apply (NoDup_fmap_1 fst). by rewrite <- list_fmap_compose.
    - intros [id r] (r' & [= -> ->] & Hr)%list_elem_of_fmap. apply elem_of_map_to_list.
      by eapply Forall_forall in Hin. }
  apply submseteq_Permutation in Hsub as [k Hk]. unfold outstanding, bytes_on. rewrite Hk, fmap_app, zsum_app.
  rewrite <- list_fmap_compose. cbn.
  assert (0 <= zsum ((fun e : string * Reservation => if decide (res_device e.2 = d) then res_nbytes e.2 else 0) <$> k)).
  { apply zsum_nonneg, Forall_fmap, Forall_forall. intros [id r] He. cbn. case_decide; [|lia].
    eapply Hpos, elem_of_map_to_list. rewrite Hk. apply elem_of_app. by right. }
  unfold compose. cbn. lia.
Qed.

(** Bytes the listed leases promise on a device. *)
Definition promised {S W : Type} `{EqDecision S} `{Shedder S W} (s : @LeaseBroker S W) (d : string) : Z :=
  zsum ((fun l => if decide (l_device l = d) then l_nbytes l else 0) <$> leases s).

(** * Properties *)

Section properties.
Context {S W : Type} `{EqDecision S} `{Shedder S W}.
Implicit Types (s : @LeaseBroker S W).

(** The broker never promises memory the governor has not reserved: in
    every reachable state the leases it lists have distinct ids, each is
    backed by a recorded reservation of its device and size that its holder
    keeps, and per device their bytes are at most the bytes reserved. *)
Theorem leases_are_backed s :
  broker_reachable s ->
  NoDup (lease_id <$> leases s)
  /\ (forall l, l ∈ leases s -> exists t r, sys_tasks (br_sys s) !! t = Some (Holding r) /\ owns s t
        /\ reservations (sys_gov (br_sys s)) !! reservation_id r = Some r
        /\ res_device r = l_device l /\ res_nbytes r = l_nbytes l)
  /\ forall d, promised s d <= reserved (sys_gov (br_sys s)) d.
Proof.
  intros Hok%broker_reachable_ok. pose proof (Governor.reachable_ok _ (bo_sys s Hok)) as Hsys.
  destruct (listed_backing s (br_held s) Hok ltac:(done) (bo_keys s Hok)) as (rs & Hall & Hids & Hrec & Hnds & _).
  unfold leases. split_and!.
  - rewrite Hids. apply (bo_keys s Hok).
  - intros l Hl. apply list_elem_of_lookup in Hl as [k Hk].
    destruct (Forall2_lookup_l _ _ _ _ _ Hall Hk) as (r & Hr & Hd & Hn & t & Ht & Hown).
    exists t, r. split_and!; try done. by eapply Forall_lookup_1 in Hrec.
  - intros d. rewrite (proj1 (ok_ledger _ Hsys)). etrans; [|apply (bytes_on_outstanding _ rs)]; try done.
    + unfold promised, leases, bytes_on. clear -Hall. induction Hall as [|l r ls rs (Hd & Hn & _) _ IH]; csimpl; [done|].
      rewrite Hd, Hn. lia.
    + intros id r Hr. by apply (ok_ledger _ Hsys) in Hr as (_ & ? & _).
Qed.

(** Nobody waits on a ghost: a request that waits in the governor waits
    for a reservation on its device, and if a lease holds that reservation
    then the holder, with no call from its peer and within the broker's cap on
    lifetimes, lets it go and puts the request back in the admission loop. *)
Theorem dead_peers_give_way s t a :
  broker_reachable s -> sys_tasks (br_sys s) !! t = Some (Waiting a) ->
  exists t' r, sys_tasks (br_sys s) !! t' = Some (Holding r) /\ res_device r = ad_device a
    /\ 0 < res_nbytes r
    /\ (owns s t' -> exists s' a', star holder_step s s' /\ br_now s' <= br_now s + br_max_ttl s
          /\ sys_tasks (br_sys s') !! t = Some (Running a') /\ ad_nbytes a' = ad_nbytes a
          /\ reserved (sys_gov (br_sys s')) (ad_device a)
               = reserved (sys_gov (br_sys s)) (ad_device a) - res_nbytes r).
Proof.
  intros Hok%broker_reachable_ok Ht. pose proof (Governor.reachable_ok _ (bo_sys s Hok)) as Hsys.
  pose proof (ok_waiters _ Hsys t a Ht) as Hpos. rewrite (proj1 (ok_ledger _ Hsys)) in Hpos.
  destruct (outstanding_pos _ _ Hpos) as (id & r & Hr & Hd & Hn).
  destruct (ok_holder _ Hsys id r Hr) as [t' Ht']. exists t', r. split_and!; [done|done|done|].
  intros (i & h & Hi & Hown). destruct (bo_holders s Hok i h Hi) as (_ & _ & Hs).
  assert (Hst : h_stage h = Live t' \/ h_stage h = Exiting t').
  { destruct (h_stage h); cbn in Hown; simplify_eq; [|by left|by right].
    destruct Hs as (tk & Htk & Hnh & _). rewrite Ht' in Htk. injection Htk as <-. by destruct (Hnh r). }
  destruct (owner_leaves s i h t' r Hok Hi Hst Ht') as (s' & g & total & Hs' & Hrel & Heq & _ & Hnow & _).
  destruct (release_ledger _ _ _ _ (ok_ledger _ Hsys) (ok_held _ Hsys t' r Ht') Hrel)
    as (_ & _ & _ & _ & _ & Hres).
  eexists s', _. split_and!; [done|lia| | |].
  - rewrite Heq. cbn. rewrite lookup_fmap, lookup_insert_ne, Ht by congruence. done.
  - done.
  - rewrite Heq. cbn. rewrite Hres. by case_decide.
Qed.

(** What a closed broker never does again. *)
Definition draining (held : list (string * nat)) s : Prop :=
  br_closed s = true /\ forall e, e ∈ br_held s -> e ∈ held.

Lemma draining_step held s s' : lease_step s s' -> draining held s -> draining held s'.
Proof.
  intros Hstep [Hcl Hin].
  assert (Hdel : forall id, forall e, e ∈ dict_del (br_held s) id -> e ∈ held)
    by (intros id e He; by apply Hin, (dict_del_elem _ id)).
  revert Hcl Hin Hdel. destruct Hstep as [Hs|Hs]; destruct Hs; intros Hcl Hin Hdel; unfold draining; cbn; try done.
  - unfold start. destruct (begin_reserve _ _ _ _ _ _ _); done.
  - unfold iterate. destruct (admit_step _ _ _ _) as [[] g]; cbn; try done.
    unfold on_grant. cbn. by rewrite Hcl.
  - split; [done|]. by apply Hdel.
  - unfold acquire in *. rewrite Hcl in *. by result_steps.
  - unfold release_lease. destruct (dict_get _ _); [|done]. by destruct (br_holders _ !! _).
  - unfold renew in *. result_steps. destruct (_ ≫= _) as [[]|]; [|by simplify_eq].
    destruct (_ <=? _); by simplify_eq.
Qed.

(** A closed broker drains: after [close], whatever peers still call and
    whenever holders run, no lease is ever added, acquiring is refused, every
    lease still listed is marked released, and its holder can leave at once
    without the clock moving. *)
Theorem closed_broker_drains s s' :
  broker_reachable s -> br_closed s = true -> star lease_step s s' ->
  br_closed s' = true
  /\ (forall e, e ∈ br_held s' -> e ∈ br_held s)
  /\ (forall i id device nbytes ttl timeout,
        acquire s' i id device nbytes ttl timeout = Err BrokerClosed)
  /\ (forall id i, (id, i) ∈ br_held s' -> exists s'', star holder_step s' s''
        /\ br_now s'' = br_now s' /\ id ∉ keys (br_held s'')).
Proof.
  intros Hr Hcl Hstar.
  assert (Hok : broker_ok s').
  { apply broker_reachable_ok. destruct Hr as (s0 & H0 & Hs). exists s0. split; [done|]. by etrans. }
  assert (Hd : draining (br_held s) s').
  { eapply (star_invariant lease_step (draining (br_held s))); [|exact Hstar|done].
    intros a b Ha Hab. by eapply draining_step. }
  destruct Hd as [Hcl' Hin]. split_and!; [done|done| |].
  - intros. unfold acquire. by rewrite Hcl'.
  - intros id i Hid.
    destruct (listed_reservation s' id i Hok Hid) as (h & t & r & Hi & Hlid & Hst & _ & Ht & _ & _).
    assert (Hover : h_stage h = Live t -> lease_over s' h = true).
    { intros HL. destruct (bo_holders s' Hok i h Hi) as (_ & _ & Hs). rewrite HL in Hs.
      destruct Hs as (_ & _ & Hrel). unfold lease_over. by rewrite Hrel. }
    assert (Hgone : forall held : list (string * nat), NoDup (keys held) -> id ∉ keys (dict_del held id)).
    { intros held Hnd. apply dict_get_None. rewrite dict_get_del by done. by rewrite decide_True. }
    destruct Hst as [Hst|Hst].
    + destruct (owner_leaves s' i h t r Hok Hi (or_introl Hst) Ht) as (s2 & g & total & Hs2 & _ & _ & Hheld & _ & Hnow).
      exists s2. split_and!; [done|auto|]. rewrite Hheld, Hlid. apply Hgone, (bo_keys s' Hok).
    + destruct (exiting_leaves s' i h t Hok Hi Hst) as (r' & g & total & _ & _ & _ & Hs2).
      eexists. split; [by apply star_one|]. split; [done|]. cbn. rewrite Hlid. apply Hgone, (bo_keys s' Hok).
Qed.
End properties.

(** * What modelling showed *)

Section findings.
Context {S W : Type} `{EqDecision S} `{Shedder S W}.
Implicit Types (s : @LeaseBroker S W).

(** No run of the holders changes one that is done. *)
Lemma gone_is_final i h s s' : h_stage h = Gone -> star holder_step s s' ->
  br_holders s !! i = Some h -> br_holders s' !! i = Some h.
Proof.
  intros Hg Hs. induction Hs as [|s1 s2 s3 Hstep _ IH]; [done|]. intros Hi. apply IH. clear IH.
  assert (Hset : forall j hj h' (hs : gmap nat hold), hs !! j = Some hj -> h_stage hj <> Gone ->
    hs !! i = Some h -> <[j := h']> hs !! i = Some h).
  { intros j hj h' hs Hj Hne Hi'. rewrite lookup_insert_ne; [done|]. intros ->. congruence. }
  destruct Hstep as [s now Hnow|s j hj sysmem t Hj Hst Ht|s j hj t a Hj Hst Ht|s j hj t e Hj Hst Ht
      |s j hj t Hj Hst Hov|s j hj t r g total Hj Hst Ht Hrel]; cbn; try done;
    try (eapply Hset; [exact Hj|by rewrite Hst|done]).
  - unfold start. destruct (begin_reserve _ _ _ _ _ _ _); cbn; (eapply Hset; [exact Hj|by rewrite Hst|done]).
  - unfold iterate. destruct (admit_step _ _ _ a) as [[] g]; cbn; try done.
    unfold on_grant. cbn. destruct (br_closed s), (h_granted hj); cbn;
      (eapply Hset; [exact Hj|by rewrite Hst|done]).
Qed.

(** [close] cancels a holder that has not taken its first step before the
    holder can settle [granted]: the [acquire] that awaits it waits for ever. *)
Lemma close_strands_acquire ignores s s' i h :
  broker_ok s -> br_holders s !! i = Some h -> h_stage h = Starting -> h_granted h = Pending ->
  star holder_step (close ignores s) s' ->
  exists h', br_holders s' !! i = Some h' /\ h_stage h' = Gone /\ h_granted h' = Pending.
Proof.
  intros Hok Hi Hst Hf Hs. exists (set_hold_stage Gone h). split_and!; [|done|done].
  eapply gone_is_final; [done|exact Hs|]. cbn. rewrite map_lookup_imap, Hi. cbn. unfold close_holder.
  rewrite bool_decide_false, Hst; [done|]. intros ([id j] & -> & Hin)%list_elem_of_fmap.
  destruct (bo_listed s Hok id j Hin) as (h0 & Hi0 & Hl). cbn in Hi.
  destruct (Hl id Hin) as (_ & t & [Ht|Ht]); congruence.
Qed.

(** A lease that was released, whose holder has not run yet, is renewed: the
    peer is told that a lease lives which the holder is about to drop. *)
Lemma released_lease_is_renewed s id i h ttl :
  dict_get (br_held s) id = Some i -> br_holders s !! i = Some h -> br_now s < expires_at (h_lease h) ->
  0 < ttl -> exists s' l,
    renew (release_lease s id).1 id ttl = Ok (s', Some l)
    /\ br_holders s' !! i = Some (set_lease l (set_released h)).
Proof.
  intros Hid Hi Hnow Httl. unfold release_lease. rewrite Hid. cbn. rewrite Hi. unfold renew, clamp_ttl. cbn.
  rewrite (proj2 (Z.leb_gt _ _) Httl). cbn. rewrite Hid. cbn. rewrite lookup_insert_eq. cbn.
  rewrite (proj2 (Z.leb_gt _ _) Hnow). eexists _, _. split; [done|]. cbn. by rewrite lookup_insert_eq.
Qed.
End findings.

(** * Witnesses *)

(** A broker over 10 bytes of RAM with lifetimes of at most 60. *)
Definition demo_broker : @LeaseBroker nat (gmap nat Z) := {|
  br_sys := {|
    sys_gov := {| budgets := {["ram" := 10]}; reserved_map := ∅; peaks := ∅; reservations := ∅;
                  shedders := []; next_id := 1; next_order := 0 |};
    sys_world := ∅; sys_tasks := ∅ |};
  br_max_ttl := 60; br_held := []; br_holders := ∅; br_closed := false; br_now := 0 |}.

Section scheduler.
Context {S W : Type} `{EqDecision S} `{Shedder S W}.

(** A peer acquires as holder [i]. *)
Definition ask_lease (i : nat) (id : string) (nbytes : Z) (s : @LeaseBroker S W) : @LeaseBroker S W :=
  if forallb (fun e : nat * hold => negb (String.eqb (lease_id (h_lease e.2)) id)) (map_to_list (br_holders s))
  then match br_holders s !! i, acquire s i id "ram" nbytes 100 None with
       | None, Ok s' => s'
       | _, _ => s
       end
  else s.

(** Holder [i] takes a step; it asks as the governor's task [i]. *)
Definition run_holder (i : nat) (s : @LeaseBroker S W) : @LeaseBroker S W :=
  match br_holders s !! i with
  | None => s
  | Some h =>
      match h_stage h with
      | Starting => match sys_tasks (br_sys s) !! i with None => start None s i h i | Some _ => s end
      | Admission t =>
          match sys_tasks (br_sys s) !! t with
          | Some (Running a) => iterate s i h t a
          | _ => s
          end
      | _ => s
      end
  end.

(** The shed of holder [i]'s request ends. *)
Definition end_shed (t : nat) (s : @LeaseBroker S W) : @LeaseBroker S W :=
  match sys_tasks (br_sys s) !! t with
  | Some (Shedding a bp) =>
      set_sys {| sys_gov := sys_gov (br_sys s); sys_world := sys_world (br_sys s);
                 sys_tasks := <[t := resume (after_shed ShedDone bp a)]> (sys_tasks (br_sys s)) |} s
  | _ => s
  end.

Lemma ask_lease_star i id nbytes s : star lease_step s (ask_lease i id nbytes s).
Proof.
  unfold ask_lease. destruct (forallb _ _) eqn:Hall; [|apply star_refl].
  destruct (br_holders s !! i) eqn:Hi; [apply star_refl|].
  destruct (acquire _ _ _ _ _ _ _) as [s'|] eqn:Ha; [|apply star_refl].
  apply star_one. right. eapply l_acquire; [done| |done]. intros j h Hj Heq.
  rewrite forallb_forall in Hall. specialize (Hall (j, h)).
  rewrite <- Heq in Hall. cbn in Hall. rewrite String.eqb_refl in Hall.
  discriminate Hall. by apply list_elem_of_In, elem_of_map_to_list.
Qed.

Lemma run_holder_star i s : star lease_step s (run_holder i s).
Proof.
  unfold run_holder. destruct (br_holders s !! i) as [h|] eqn:Hi; [|apply star_refl].
  destruct (h_stage h) as [|t|t|t|] eqn:Hst; try apply star_refl.
  - destruct (sys_tasks (br_sys s) !! i) eqn:Ht; [apply star_refl|]. apply star_one. left. by apply l_start.
  - destruct (sys_tasks (br_sys s) !! t) as [[]|] eqn:Ht; try apply star_refl.
    apply star_one. left. by apply l_iterate.
Qed.

Lemma end_shed_star t s : star lease_step s (end_shed t s).
Proof.
  unfold end_shed. destruct (sys_tasks (br_sys s) !! t) as [[]|] eqn:Ht; try apply star_refl.
  apply star_one. right. apply l_governor; [by eapply step_shed_ends|]. intros t' r _. cbn.
  rewrite lookup_insert. case_decide as Heq; [subst t'|done]. rewrite Ht. split; [done|].
  unfold after_shed. by destruct budget_pressure.
Qed.
End scheduler.

(** The first peer leases 8 bytes; the second asks for 5 and waits. *)
Definition demo_leased : @LeaseBroker nat (gmap nat Z) :=
  run_holder 0 (run_holder 0 (ask_lease 0 "a" 8 demo_broker)).

Definition demo_lease_waits : @LeaseBroker nat (gmap nat Z) :=
  run_holder 1 (end_shed 1 (run_holder 1 (run_holder 1 (ask_lease 1 "b" 5 demo_leased)))).

Lemma demo_leased_reachable : broker_reachable demo_leased.
Proof.
  exists demo_broker. split.
  - split; [|exists (br_sys demo_broker), 60, 0; reflexivity].
    exists (br_sys demo_broker). split; [|apply star_refl]. split; [|done].
    exists {["ram" := 10]}. vm_compute. reflexivity.
  - unfold demo_leased. etrans; [|apply run_holder_star]. etrans; [|apply run_holder_star]. apply ask_lease_star.
Qed.

Lemma demo_lease_waits_reachable : broker_reachable demo_lease_waits.
Proof.
  destruct demo_leased_reachable as (s0 & H0 & Hs). exists s0. split; [exact H0|]. etrans; [exact Hs|].
  unfold demo_lease_waits. etrans; [|apply run_holder_star]. etrans; [|apply end_shed_star].
  etrans; [|apply run_holder_star]. etrans; [|apply run_holder_star]. apply ask_lease_star.
Qed.

Lemma leases_are_backed_witness :
  promised demo_lease_waits "ram" = 8 /\ 8 <= reserved (sys_gov (br_sys demo_lease_waits)) "ram".
Proof.
  split; [vm_compute; reflexivity|].
  refine (Z.le_trans _ _ _ _ (proj2 (proj2 (leases_are_backed demo_lease_waits demo_lease_waits_reachable)) "ram")).
  vm_compute. discriminate.
Defined.

Lemma dead_peers_give_way_witness :
  exists a, sys_tasks (br_sys demo_lease_waits) !! 1%nat = Some (Waiting a)
    /\ exists t' r, sys_tasks (br_sys demo_lease_waits) !! t' = Some (Holding r) /\ res_device r = "ram".
Proof.
  eexists. split; [vm_compute; reflexivity|].
  edestruct (dead_peers_give_way demo_lease_waits 1%nat) as (t' & r & Ht & Hd & _);
    [exact demo_lease_waits_reachable|vm_compute; reflexivity|].
  exists t', r. exact (conj Ht Hd).
Defined.

Lemma closed_broker_drains_witness :
  let s := close (fun _ => false) demo_leased in
  keys (br_held s) = ["a"] /\ exists s'', star holder_step s s'' /\ "a" ∉ keys (br_held s'').
Proof.
  split; [vm_compute; reflexivity|].
  assert (Hr : broker_reachable (close (fun _ => false) demo_leased)).
  { destruct demo_leased_reachable as (s0 & H0 & Hs). exists s0. split; [exact H0|]. etrans; [exact Hs|].
    apply star_one. right. apply l_close. }
  destruct (closed_broker_drains _ (close (fun _ => false) demo_leased) Hr eq_refl (star_refl _ _))
    as (_ & _ & _ & Hout).
  destruct (Hout "a" 0%nat) as (s'' & Hs'' & _ & Hno); [vm_compute; constructor|].
  exists s''. exact (conj Hs'' Hno).
Defined.
