(* ===== verification/Budgets.v ===== *)
(** Budgets: the operator's memory budgets as written in a file
    (dinkster_memory/budgets.py): sizes with binary suffixes and the table of
    budgets a governor starts with.  A ValueError is an error of [parse_size]
    and a BudgetsError one of [parse_budgets]; messages are tags. *)
From S2P Require Import Prelude PyStr Telemetry Governor.
From Stdlib Require Import Ascii.

Local Open Scope string_scope.
Local Open Scope Z_scope.
Local Open Scope list_scope.

(** * Sizes *)

Definition MEBIBYTE : Z := 1024 * 1024.
Definition GIBIBYTE : Z := 1024 * MEBIBYTE.

Definition size_suffixes : list (Ascii.ascii * Z) :=
  [("k", 1024); ("m", MEBIBYTE); ("g", GIBIBYTE); ("t", 1024 * GIBIBYTE)]%char.

Inductive size_error := SizeEmpty | SizeSyntax | SizeDigits.

(** [int(digits)]: the language reads decimal digits, at most 4300 of them. *)
Definition read_int (digits : string) : option Z :=
  if (4300 <? String.length digits)%nat then None else int_of_digits 0 digits.

Definition parse_size (text : string) : result size_error Z :=
  let size := str_lower (strip text) in
  match str_last size with
  | None => Err SizeEmpty
  | Some c =>
      let factor := default 1 (dict_get size_suffixes c) in
      let digits := if factor =? 1 then size else str_take (String.length size - 1) size in
      raise_if (negb (str_isdigit digits)) SizeSyntax ;;
      match read_int digits with
      | None => Err SizeDigits
      | Some n => Ok (n * factor)
      end
  end.

(** * The table *)

Inductive budgets_error :=
| NotATable
| UnknownTop (keys : list string)
| BudgetsNotATable
| BadDevice (key : pyval)
| BadSize (device : string)
| NegativeBytes (device : string)
| MalformedSize (device : string) (e : size_error).

(** The keys outside [budgets]; a key that is no string is told apart by its
    value alone, since TOML has string keys only. *)
Definition unknown_top (top : list (pyval * pyval)) : list pyval :=
  filter (fun k => as_str k <> Some "budgets") top.*1.

Definition device_ok (key : string) : bool :=
  negb (String.eqb key "") && String.eqb key (strip key) && negb (str_any char_isspace key).

(** One entry of the table. *)
Definition parse_entry (budgets : list (string * Z)) (entry : pyval * pyval) :
  result budgets_error (list (string * Z)) :=
  match entry.1 with
  | VStr device =>
      raise_if (negb (device_ok device)) (BadDevice entry.1) ;;
      match entry.2 with
      | VInt n =>
          raise_if (n <? 0) (NegativeBytes device) ;;
          Ok (dict_set budgets device n)
      | VStr text =>
          match parse_size text with
          | Ok n => Ok (dict_set budgets device n)
          | Err e => Err (MalformedSize device e)
          end
      | _ => Err (BadSize device)
      end
  | key => Err (BadDevice key)
  end.

Fixpoint parse_entries (budgets : list (string * Z)) (entries : list (pyval * pyval)) :
  result budgets_error (list (string * Z)) :=
  match entries with
  | [] => Ok budgets
  | e :: entries' => budgets' ← parse_entry budgets e ; parse_entries budgets' entries'
  end.

Definition parse_budgets (data : pyval) : result budgets_error (list (string * Z)) :=
  match data with
  | VDict top =>
      raise_if (negb (bool_decide (unknown_top top = []))) (UnknownTop (omap as_str (unknown_top top))) ;;
      match default (VDict []) (vdict_get top "budgets") with
      | VDict table => parse_entries [] table
      | _ => Err BudgetsNotATable
      end
  | _ => Err NotATable
  end.

(** * Lemmas *)

Lemma str_last_app s c : str_last (s +:+ String c "") = Some c.
Proof.
  induction s as [|d s IH]; [done|]. rewrite str_app_cons. cbn.
  destruct (s +:+ String c "") eqn:E; [by destruct s|]. by rewrite <- IH.
Qed.

Lemma str_last_Some s c : str_last s = Some c -> exists s', s = s' +:+ String c "".
Proof.
  induction s as [|d s IH]; [done|]. destruct s as [|e s].
  - intros [= ->]. by exists "".
  - intros H. destruct (IH H) as [s' Hs']. exists (String d s'). by rewrite str_app_cons, <- Hs'.
Qed.

Lemma str_last_None s : str_last s = None -> s = "".
Proof. induction s as [|c [|d s] IH]; [done|done|]. intros Hn. by specialize (IH Hn). Qed.

Lemma int_of_digits_some acc s : is_Some (int_of_digits acc s) <-> str_all char_decimal s = true.
Proof.
  revert acc. induction s as [|c s IH]; intros acc; cbn; [split; [done|by eexists]|].
  destruct (char_decimal c); cbn; [apply IH|]. split; [by intros [??]|done].
Qed.

Lemma int_of_digits_nonneg acc s n : 0 <= acc -> int_of_digits acc s = Some n -> 0 <= n.
Proof.
  revert acc. induction s as [|c s IH]; intros acc Hacc; cbn; [by intros [= <-]|].
  destruct (char_decimal c) eqn:Hc; [|done]. apply IH.
  apply andb_true_iff in Hc as [Hlo%N.leb_le _]. lia.
Qed.

Lemma decimal_isdigit s : str_all char_decimal s = true -> str_all char_isdigit s = true.
Proof.
  induction s as [|c s IH]; [done|]. cbn. rewrite !andb_true_iff. intros [Hc Hs].
  split; [|auto]. unfold char_isdigit. by rewrite Hc.
Qed.

Lemma read_int_spec digits n : read_int digits = Some n <->
  (String.length digits <= 4300)%nat /\ int_of_digits 0 digits = Some n.
Proof.
  unfold read_int. destruct (4300 <? String.length digits)%nat eqn:E.
  - apply Nat.ltb_lt in E. split; [done|]. intros [? _]. lia.
  - apply Nat.ltb_ge in E. tauto.
Qed.

(** A suffix is one of the four letters, which are no digits. *)
Lemma suffix_no_digit c f : dict_get size_suffixes c = Some f -> char_isdigit c = false /\ f <> 1 /\ 0 < f.
Proof. cbn. repeat case_decide; intros; simplify_eq; by split_and!. Qed.

Lemma str_take_snoc s c : str_take (String.length (s +:+ String c "") - 1) (s +:+ String c "") = s.
Proof.
  rewrite str_length_app. cbn [String.length]. rewrite Nat.add_sub. apply str_take_app.
Qed.

Lemma parse_size_nonneg text n : parse_size text = Ok n -> 0 <= n.
Proof.
  unfold parse_size. destruct (str_last _) as [c|]; [|done].
  assert (Hf : 0 < default 1 (dict_get size_suffixes c)).
  { destruct (dict_get size_suffixes c) as [f|] eqn:Hf; [|done]. by apply suffix_no_digit in Hf as (_ & _ & ?). }
  revert Hf. generalize (default 1 (dict_get size_suffixes c)). intros factor Hf Hp. result_steps.
  destruct (read_int _) as [k|] eqn:Hr; [|done]. simplify_eq.
  apply read_int_spec in Hr as [_ Hr]. apply int_of_digits_nonneg in Hr; nia.
Qed.

(** Keys of the table are kept as they are, and amounts are not negative. *)
Lemma parse_entries_spec entries budgets out :
  parse_entries budgets entries = Ok out ->
  Forall (fun e => 0 <= e.2 /\ device_ok e.1 = true) budgets ->
  NoDup (keys budgets) ->
  Forall (fun e => 0 <= e.2 /\ device_ok e.1 = true) out /\ NoDup (keys out).
Proof.
  revert budgets. induction entries as [|[k v] entries IH]; cbn [parse_entries]; intros budgets Hp Hb Hnd;
    [by simplify_eq|].
  result_steps. apply (IH _ Hp); unfold parse_entry in *; destruct k as [| | | |device| | |]; simplify_eq/=;
    result_steps; (destruct v as [| |z| |text| | |]; simplify_eq/=; result_steps;
      [|destruct (parse_size text) as [n|] eqn:Hn; simplify_eq/=; apply parse_size_nonneg in Hn]).
  1,2: apply Forall_forall; intros x [->|Hx]%dict_set_elem; [cbn; split; [lia|by apply negb_false_iff]|];
    by eapply Forall_forall in Hb.
  all: by apply NoDup_dict_set.
Qed.

(** * Properties *)

(** A size is exactly a run of at most 4300 decimal digits, with spaces
    around and in either case, scaled by the one binary suffix after it: text
    of that shape is read to that many bytes, and nothing else is read. *)
Theorem parse_size_exact (text : string) (n : Z) :
  parse_size text = Ok n <->
  exists digits k, digits <> "" /\ (String.length digits <= 4300)%nat /\ int_of_digits 0 digits = Some k
    /\ ((str_lower (strip text) = digits /\ n = k)
        \/ exists c factor, dict_get size_suffixes c = Some factor
             /\ str_lower (strip text) = digits +:+ String c "" /\ n = k * factor).
Proof.
  unfold parse_size. split.
  - destruct (str_last (str_lower (strip text))) as [c|] eqn:Hl; [|done]. destruct (str_last_Some _ _ Hl) as [s' Hs'].
    destruct (dict_get size_suffixes c) as [f|] eqn:Hf; cbn.
    + destruct (suffix_no_digit c f Hf) as (_ & Hf1 & _).
      rewrite (proj2 (Z.eqb_neq _ _) Hf1), Hs', str_take_snoc. intros Hp. result_steps.
      destruct (read_int s') as [k|] eqn:Hr; [|done]. simplify_eq. apply read_int_spec in Hr as [Hlen Hk].
      exists s', k. split_and!; try done; [by intros ->|]. right. by exists c, f.
    + cbn. intros Hp. result_steps. destruct (read_int (str_lower (strip text))) as [k|] eqn:Hr; [|done]. simplify_eq.
      apply read_int_spec in Hr as [Hlen Hk]. exists (str_lower (strip text)), k.
      split_and!; try done; [by intros Heq; rewrite Heq in Hl|]. left. split; [done|lia].
  - intros (digits & k & Hne & Hlen & Hk & Hcase).
    assert (Hdec : str_all char_decimal digits = true) by (eapply (int_of_digits_some 0); by eexists).
    assert (Hdig : str_isdigit digits = true)
      by (destruct digits; [done|by apply (decimal_isdigit (String _ _))]).
    assert (Hread : read_int digits = Some k) by by apply read_int_spec.
    destruct Hcase as [[-> ->]|(c & factor & Hf & -> & ->)].
    + destruct (str_last digits) as [c|] eqn:Hl; [|by apply str_last_None in Hl].
      assert (Hc : dict_get size_suffixes c = None).
      { destruct (dict_get size_suffixes c) as [f|] eqn:Hf; [|done].
        destruct (suffix_no_digit c f Hf) as (Hnd & _). destruct (str_last_Some _ _ Hl) as [s' ->].
        apply decimal_isdigit in Hdec. rewrite str_all_app in Hdec. cbn in Hdec. rewrite Hnd in Hdec.
        by rewrite andb_false_r in Hdec. }
      rewrite Hc. cbn. rewrite Hdig. cbn. rewrite Hread. f_equal. lia.
    + destruct (suffix_no_digit c factor Hf) as (_ & Hf1 & _). rewrite str_last_app, Hf. cbn.
      rewrite (proj2 (Z.eqb_neq _ _) Hf1), str_take_snoc, Hdig. cbn. by rewrite Hread.
Qed.

(** A governor starts from whatever budgets the file yields: parsing
    answers a table of distinct devices with amounts that are not negative, or
    refuses, and on every table it answers the governor's construction
    succeeds with exactly those budgets. *)
Theorem parsed_budgets_start_a_governor (S : Type) (data : pyval) (table : list (string * Z)) :
  parse_budgets data = Ok table ->
  NoDup (keys table)
  /\ exists g : MemoryGovernor S, governor_init (list_to_map table) = Ok g
       /\ (forall d n, (d, n) ∈ table <-> budgets g !! d = Some n) /\ reservations g = ∅.
Proof.
  unfold parse_budgets. destruct data as [| | | | | |top|]; try done. intros Hp. result_steps.
  destruct (default _ _) as [| | | | | |entries|]; try done.
  destruct (parse_entries_spec _ _ _ Hp) as [Hpos Hnd]; [constructor|constructor|].
  split; [done|]. unfold governor_init.
  destruct (map_to_list (filter _ _)) as [|[d n] l] eqn:Hl.
  - eexists. split; [done|]. split; [|done]. intros d n. cbn. by apply elem_of_list_to_map.
  - exfalso. assert (Hin : (d, n) ∈ map_to_list (filter (fun e : string * Z => e.2 < 0) (list_to_map (M := gmap string Z) table)))
      by (rewrite Hl; constructor).
    apply elem_of_map_to_list, map_lookup_filter_Some in Hin as [Hin Hneg]. cbn in Hneg.
    apply elem_of_list_to_map in Hin; [|done]. eapply Forall_forall in Hpos; [|exact Hin]. cbn in Hpos. lia.
Qed.

(** * Witnesses *)

Lemma parse_size_exact_witness :
  parse_size " 12G " = Ok (12 * GIBIBYTE) /\ parse_size "12x" = Err SizeSyntax.
Proof.
  split; [|vm_compute; reflexivity]. apply parse_size_exact.
  exists "12", 12. split_and!; [done|cbn; lia|reflexivity|]. right.
  exists "g"%char, GIBIBYTE. split_and!; reflexivity.
Defined.

Lemma parsed_budgets_start_a_governor_witness :
  exists g : MemoryGovernor nat,
    governor_init (list_to_map [("ram", 2147483648); ("disk", 0)]) = Ok g
    /\ budgets g !! "ram" = Some 2147483648.
Proof.
  destruct (parsed_budgets_start_a_governor nat
    (VDict [(VStr "budgets", VDict [(VStr "ram", VStr "2G"); (VStr "disk", VInt 0)])])
    [("ram", 2147483648); ("disk", 0)]) as (_ & g & Hg & Hb & _); [vm_compute; reflexivity|].
  exists g. split; [exact Hg|]. apply Hb. constructor.
Defined.
