(* ===== verification/TypeIds.v ===== *)
(** TypeIds: the grammar of runtime type ids (dinkster_values/lists.py,
    tuples.py, streams.py, assets.py): constructors, their canonical parsers,
    the strict validators, and the abstract syntax the strings stand for. *)
From S2P Require Import Prelude PyStr.
From Stdlib Require Import Ascii.

Local Open Scope string_scope.
Local Open Scope list_scope.

(** * Constructors and parsers *)

Definition LIST_TYPE_PREFIX : string := "list<".
Definition ASSET_TYPE_PREFIX : string := "asset<".
Definition STREAM_TYPE_PREFIX : string := "stream<".

Definition list_type_id (element : string) : string := LIST_TYPE_PREFIX +:+ (element +:+ ">").
Definition asset_type_id (element : string) : string := ASSET_TYPE_PREFIX +:+ (element +:+ ">").
Definition stream_type_id (element : string) : string := STREAM_TYPE_PREFIX +:+ (element +:+ ">").

(** The shape the three one-argument parsers share: the prefix, the closing
    bracket, and something between them. *)
Definition parse_unary (prefix type_id : string) : option string :=
  if startswith prefix type_id && endswith ">" type_id
     && (String.length prefix + 1 <? String.length type_id)%nat
  then Some (str_slice (String.length prefix) 1 type_id)
  else None.

Definition parse_list_type_id (type_id : string) : option string := parse_unary LIST_TYPE_PREFIX type_id.
Definition parse_asset_type_id (type_id : string) : option string := parse_unary ASSET_TYPE_PREFIX type_id.
Definition parse_stream_type_id (type_id : string) : option string := parse_unary STREAM_TYPE_PREFIX type_id.

(** [','.join(elements)]. *)
Fixpoint join_commas (elements : list string) : string :=
  match elements with
  | [] => ""
  | [e] => e
  | e :: es => e +:+ ("," +:+ join_commas es)
  end.

Definition tuple_type_id (elements : list string) : string := "tuple<" +:+ (join_commas elements +:+ ">").

Definition lt_char : Ascii.ascii := "<"%char.
Definition gt_char : Ascii.ascii := ">"%char.
Definition comma_char : Ascii.ascii := ","%char.

(** The scan of [parse_tuple_type_id]: [cur] is [body[start:index]]. *)
Fixpoint split_positions (body : string) (depth : nat) (cur : string) : option (list string) :=
  match body with
  | EmptyString => match depth with O => Some [cur] | _ => None end
  | String c rest =>
      let cur' := cur +:+ String c "" in
      if Ascii.eqb c lt_char then split_positions rest (S depth) cur'
      else if Ascii.eqb c gt_char
      then match depth with O => None | S depth' => split_positions rest depth' cur' end
      else if Ascii.eqb c comma_char && (depth =? 0)%nat
      then (cur ::.) <$> split_positions rest depth ""
      else split_positions rest depth cur'
  end.

Definition parse_tuple_type_id (type_id : string) : option (list string) :=
  if negb (startswith "tuple<" type_id) || negb (endswith ">" type_id) then None
  else
    let body := str_slice 6 1 type_id in
    if String.eqb body "" then Some []
    else
      positions ← split_positions body 0 "";
      if forallb (fun p => negb (String.eqb p "")) positions then Some positions else None.

(** [not atom or "<" in atom or ">" in atom] refused. *)
Definition bracket (c : Ascii.ascii) : bool := Ascii.eqb c lt_char || Ascii.eqb c gt_char.

(** One iteration of [runtime_type_atom]'s loop: the inner id, or none; a list
    of the wildcard stops the loop with a refusal. *)
Inductive peeled := Inner (s : string) | NoConstructor | WildcardList.

Definition peel (atom : string) : peeled :=
  match parse_list_type_id atom with
  | Some inner => if String.eqb inner "*" then WildcardList else Inner inner
  | None =>
      match parse_asset_type_id atom with
      | Some inner => Inner inner
      | None => match parse_stream_type_id atom with Some inner => Inner inner | None => NoConstructor end
      end
  end.

Fixpoint runtime_type_atom_loop (fuel : nat) (atom : string) : option string :=
  match fuel with
  | O => None
  | S fuel' =>
      match peel atom with
      | WildcardList => None
      | Inner inner => runtime_type_atom_loop fuel' inner
      | NoConstructor =>
          if String.eqb atom "" || str_any bracket atom then None else Some atom
      end
  end.

(** The fuel is one more than the length, and every peeled layer is shorter. *)
Definition runtime_type_atom (type_id : string) : option string :=
  runtime_type_atom_loop (S (String.length type_id)) type_id.

Definition structural (c : Ascii.ascii) : bool := bracket c || Ascii.eqb c comma_char.

(** [runtime_type_atoms]: the pending stack, its top first, and the atoms in
    first-position order; the outer [None] is the fuel running out. *)
Fixpoint runtime_type_atoms_loop (fuel : nat) (pending atoms : list string) :
  option (option (list string)) :=
  match fuel with
  | O => None
  | S fuel' =>
      match pending with
      | [] => Some (Some atoms)
      | current :: pending' =>
          match parse_tuple_type_id current with
          | Some positions => runtime_type_atoms_loop fuel' (positions ++ pending') atoms
          | None =>
              match peel current with
              | WildcardList => runtime_type_atoms_loop fuel' pending' atoms
              | Inner inner => runtime_type_atoms_loop fuel' (inner :: pending') atoms
              | NoConstructor =>
                  if String.eqb current "" || str_any structural current then Some None
                  else runtime_type_atoms_loop fuel' pending'
                         (if decide (current ∈ atoms) then atoms else atoms ++ [current])
              end
          end
      end
  end.

Definition pending_size (pending : list string) : nat :=
  sum_list_with (fun s => S (String.length s)) pending.

Definition runtime_type_atoms (type_id : string) : option (list string) :=
  default None (runtime_type_atoms_loop (S (pending_size [type_id])) [type_id] []).

(** * The parsers invert the constructors *)

Lemma parse_unary_spec prefix s e :
  parse_unary prefix s = Some e <-> s = prefix +:+ (e +:+ ">") /\ e <> "".
Proof.
  unfold parse_unary. split.
  - destruct (startswith prefix s) eqn:Hp; [|done]. destruct (endswith ">" s) eqn:Hs; [|done].
    destruct (_ <? _)%nat eqn:Hl; [|done]. intros [= <-].
    apply startswith_spec in Hp as [r ->]. apply endswith_spec in Hs as [q Hq].
    apply Nat.ltb_lt in Hl. rewrite str_length_app in Hl.
    assert (exists m, r = m +:+ ">") as [m ->].
    { exists (str_take (String.length r - 1) r). rewrite <- (str_take_drop (String.length r - 1) r) at 1.
      f_equal. pose proof (str_length_drop (String.length r - 1) r) as Hd.
      assert (String.length (str_drop (String.length r - 1) r) = 1%nat) as H1 by lia.
      rewrite <- (str_take_drop (String.length r - 1) r), <- str_app_assoc in Hq.
      by apply str_app_comm_tail in Hq as [_ ->]. }
    rewrite str_length_app in Hl. cbn in Hl.
    change 1%nat with (String.length ">"). rewrite str_slice_app. split; [done|].
    intros ->. cbn in Hl. lia.
  - intros [-> He]. rewrite (proj2 (startswith_spec _ _)) by eauto.
    rewrite (proj2 (endswith_spec _ _)) by (exists (prefix +:+ e); by rewrite str_app_assoc).
    rewrite (proj2 (Nat.ltb_lt _ _))
      by (rewrite !str_length_app; destruct e; [done|cbn [String.length]; lia]).
    cbn [andb]. f_equal. change 1%nat with (String.length ">"). apply str_slice_app.
Qed.


(** Strings whose first characters differ. *)
Definition head_clash (a b : string) : bool :=
  match a, b with
  | String x _, String y _ => negb (Ascii.eqb x y)
  | _, _ => false
  end.

Lemma parse_unary_clash p s : head_clash p s = true -> parse_unary p s = None.
Proof.
  intros Hc. destruct (parse_unary p s) as [e|] eqn:E; [|done].
  apply parse_unary_spec in E as [-> _]. destruct p as [|c p]; [done|].
  rewrite str_app_cons in Hc. cbn in Hc. by rewrite Ascii.eqb_refl in Hc.
Qed.

Lemma split_positions_join body d cur ps :
  split_positions body d cur = Some ps -> ps <> [] /\ join_commas ps = cur +:+ body.
Proof.
  revert d cur ps. induction body as [|c body IH]; intros d cur ps; cbn [split_positions].
  - destruct d; [|done]. intros [= <-]. split; [done|]. cbn. by rewrite str_app_nil_r.
  - assert (Hone : cur +:+ String c body = (cur +:+ String c "") +:+ body) by (by rewrite str_app_assoc).
    destruct (Ascii.eqb c lt_char); [rewrite Hone; apply IH|].
    destruct (Ascii.eqb c gt_char); [destruct d; [done|]; rewrite Hone; apply IH|].
    destruct (Ascii.eqb c comma_char && (d =? 0)%nat) eqn:Hc; [|rewrite Hone; apply IH].
    apply andb_true_iff in Hc as [->%Ascii.eqb_eq _].
    destruct (split_positions body d "") as [qs|] eqn:Hq; cbn; [|done]. intros [= <-].
    apply IH in Hq as [Hne Hj]. split; [done|]. destruct qs as [|q qs]; [done|].
    change (join_commas (cur :: q :: qs)) with (cur +:+ ("," +:+ join_commas (q :: qs))).
    by rewrite Hj.
Qed.

Lemma parse_tuple_spec s ps :
  parse_tuple_type_id s = Some ps -> s = tuple_type_id ps /\ Forall (fun p => p <> "") ps.
Proof.
  unfold parse_tuple_type_id. destruct (startswith "tuple<" s) eqn:Hp; [|done].
  destruct (endswith ">" s) eqn:He; [|done]. cbn [negb orb].
  apply startswith_spec in Hp as [r ->].
  assert (exists m, r = m +:+ ">") as [m ->].
  { apply endswith_spec in He as [q Hq]. destruct r as [|c r].
    - exfalso. rewrite str_app_nil_r in Hq. assert (str_last "tuple<" = str_last (q +:+ ">")) as H1 by (by rewrite Hq).
      assert (str_last (q +:+ ">") = Some gt_char) as H2.
      { clear. induction q as [|x q IH]; [done|]. rewrite str_app_cons. cbn. rewrite IH. by destruct q. }
      rewrite H2 in H1. done.
    - set (r' := String c r) in *.
      exists (str_take (String.length r' - 1) r'). rewrite <- (str_take_drop (String.length r' - 1) r') at 1.
      f_equal. pose proof (str_length_drop (String.length r' - 1) r') as Hd.
      assert (String.length (str_drop (String.length r' - 1) r') = 1%nat) as H1 by (cbn in *; lia).
      rewrite <- (str_take_drop (String.length r' - 1) r'), <- str_app_assoc in Hq.
      by apply str_app_comm_tail in Hq as [_ ->]. }
  change (str_slice 6 1 ("tuple<" +:+ (m +:+ ">"))) with
    (str_slice (String.length "tuple<") (String.length ">") ("tuple<" +:+ (m +:+ ">"))).
  rewrite str_slice_app. destruct (String.eqb_spec m "") as [->|Hm].
  - intros [= <-]. split; [done|constructor].
  - destruct (split_positions m 0 "") as [qs|] eqn:Hq; cbn [mbind option_bind]; [|done].
    destruct (forallb _ qs) eqn:Hall; [|done]. intros [= <-].
    apply split_positions_join in Hq as [_ Hj]. split.
    + unfold tuple_type_id. by rewrite Hj.
    + apply Forall_forall. intros x Hx. rewrite forallb_forall in Hall.
      apply list_elem_of_In in Hx. specialize (Hall x Hx). by destruct (String.eqb_spec x "").
Qed.

(** [scan_depth s d]: the bracket depth after [s] from depth [d], None when a
    bracket closes nothing or a comma stands outside every bracket. *)
Fixpoint scan_depth (s : string) (d : nat) : option nat :=
  match s with
  | EmptyString => Some d
  | String c rest =>
      if Ascii.eqb c lt_char then scan_depth rest (S d)
      else if Ascii.eqb c gt_char then match d with O => None | S d' => scan_depth rest d' end
      else if Ascii.eqb c comma_char && (d =? 0)%nat then None
      else scan_depth rest d
  end.

Definition balanced (s : string) : Prop := s <> "" /\ scan_depth s 0 = Some 0%nat.

Lemma scan_depth_app a b d : scan_depth (a +:+ b) d = scan_depth a d ≫= scan_depth b.
Proof.
  revert d. induction a as [|c a IH]; intros d; [done|]. rewrite str_app_cons. cbn [scan_depth].
  destruct (Ascii.eqb c lt_char); [apply IH|].
  destruct (Ascii.eqb c gt_char); [destruct d; [done|apply IH]|].
  destruct (_ && _); [done|apply IH].
Qed.

Lemma scan_depth_shift s d d' k : scan_depth s d = Some d' -> scan_depth s (d + k) = Some (d' + k)%nat.
Proof.
  revert d. induction s as [|c s IH]; intros d; cbn [scan_depth]; [by intros [= <-]|].
  destruct (Ascii.eqb c lt_char); [apply (IH (S d))|].
  destruct (Ascii.eqb c gt_char); [destruct d; [done|apply IH]|].
  destruct (Ascii.eqb c comma_char); cbn [andb]; [|apply IH].
  destruct d; cbn [Nat.eqb]; [done|]. intros H. cbn. apply (IH (S d)), H.
Qed.

Lemma split_positions_scan s rest d d' cur :
  scan_depth s d = Some d' -> split_positions (s +:+ rest) d cur = split_positions rest d' (cur +:+ s).
Proof.
  revert d cur. induction s as [|c s IH]; intros d cur; cbn [scan_depth].
  - intros [= <-]. by rewrite str_app_nil_r.
  - rewrite str_app_cons. cbn [split_positions].
    assert (Hone : cur +:+ String c s = (cur +:+ String c "") +:+ s) by (by rewrite str_app_assoc).
    rewrite Hone. destruct (Ascii.eqb c lt_char); [apply IH|].
    destruct (Ascii.eqb c gt_char); [destruct d; [done|apply IH]|].
    destruct (_ && _); [done|apply IH].
Qed.

Lemma split_positions_join_inv ps :
  Forall balanced ps -> ps <> [] -> split_positions (join_commas ps) 0 "" = Some ps.
Proof.
  induction 1 as [|p ps [Hp Hs] Hall IH]; [done|]. intros _. destruct ps as [|q ps].
  - cbn [join_commas]. rewrite <- (str_app_nil_r p) at 1. by rewrite (split_positions_scan _ _ _ _ _ Hs).
  - change (join_commas (p :: q :: ps)) with (p +:+ ("," +:+ join_commas (q :: ps))).
    rewrite (split_positions_scan _ _ _ _ _ Hs), str_app_nil_l, str_app_cons.
    cbn [split_positions Ascii.eqb]. rewrite str_app_nil_l. 
    change (Ascii.eqb "," lt_char) with false. change (Ascii.eqb "," gt_char) with false.
    change (Ascii.eqb "," comma_char) with true. cbn [andb Nat.eqb]. by rewrite IH.
Qed.

Lemma join_commas_empty ps : Forall (fun p => p <> "") ps -> join_commas ps = "" -> ps = [].
Proof.
  intros Hall Hj. destruct ps as [|p ps]; [done|]. apply Forall_cons in Hall as [Hp _].
  destruct ps; cbn in Hj; [done|]. by destruct p.
Qed.

Lemma parse_tuple_inv ps :
  Forall balanced ps -> parse_tuple_type_id (tuple_type_id ps) = Some ps.
Proof.
  intros Hall. unfold parse_tuple_type_id, tuple_type_id.
  rewrite (proj2 (startswith_spec _ _)) by eauto.
  rewrite (proj2 (endswith_spec _ _)) by (exists ("tuple<" +:+ join_commas ps); by rewrite str_app_assoc).
  cbn [negb orb]. set (j := join_commas ps).
  change (str_slice 6 1 ("tuple<" +:+ (j +:+ ">"))) with
    (str_slice (String.length "tuple<") (String.length ">") ("tuple<" +:+ (j +:+ ">"))).
  rewrite str_slice_app. unfold j.
  assert (Hne : Forall (fun p => p <> "") ps) by (eapply Forall_impl; [exact Hall|]; by intros ? []).
  destruct (String.eqb_spec (join_commas ps) "") as [He|He].
  - by rewrite (join_commas_empty _ Hne He).
  - rewrite split_positions_join_inv; [|done|by intros ->]. cbn [mbind option_bind].
    rewrite (proj2 (forallb_forall _ _)); [done|]. intros x Hx%list_elem_of_In.
    rewrite Forall_forall in Hne. specialize (Hne x Hx). by destruct (String.eqb_spec x "").
Qed.

(** * The abstract syntax *)

(** What a structured type id says: an atom, a list of anything, a list, an
    asset, a stream, a tuple. *)
Inductive rtype :=
| RAtom (a : string)
| RAnyList
| RList (t : rtype)
| RAsset (t : rtype)
| RStream (t : rtype)
| RTuple (ts : list rtype).

Section rtype_induction.
Variable P : rtype -> Prop.
Hypothesis HAtom : forall a, P (RAtom a).
Hypothesis HAny : P RAnyList.
Hypothesis HList : forall t, P t -> P (RList t).
Hypothesis HAsset : forall t, P t -> P (RAsset t).
Hypothesis HStream : forall t, P t -> P (RStream t).
Hypothesis HTuple : forall ts, Forall P ts -> P (RTuple ts).

Fixpoint rtype_ind_nested (t : rtype) : P t :=
  match t with
  | RAtom a => HAtom a
  | RAnyList => HAny
  | RList u => HList u (rtype_ind_nested u)
  | RAsset u => HAsset u (rtype_ind_nested u)
  | RStream u => HStream u (rtype_ind_nested u)
  | RTuple ts =>
      HTuple ts ((fix all (l : list rtype) : Forall P l :=
        match l with
        | [] => Forall_nil_2 P
        | x :: l' => Forall_cons_2 P x l' (rtype_ind_nested x) (all l')
        end) ts)
  end.
End rtype_induction.

Fixpoint show (t : rtype) : string :=
  match t with
  | RAtom a => a
  | RAnyList => list_type_id "*"
  | RList u => list_type_id (show u)
  | RAsset u => asset_type_id (show u)
  | RStream u => stream_type_id (show u)
  | RTuple ts => tuple_type_id (map show ts)
  end.

Definition atom_ok (a : string) : bool := negb (String.eqb a "") && negb (str_any structural a).

(** Well-formed: every atom is one, and the list of the wildcard has its own
    constructor. *)
Fixpoint wf_type (t : rtype) : bool :=
  match t with
  | RAtom a => atom_ok a
  | RAnyList => true
  | RList (RAtom a) => atom_ok a && negb (String.eqb a "*")
  | RList u | RAsset u | RStream u => wf_type u
  | RTuple ts => forallb wf_type ts
  end.

Fixpoint leaves (t : rtype) : list string :=
  match t with
  | RAtom a => [a]
  | RAnyList => []
  | RList u | RAsset u | RStream u => leaves u
  | RTuple ts => concat (map leaves ts)
  end.

(** Keys of a [dict] filled by [setdefault] in order. *)
Definition add_new (acc : list string) (a : string) : list string :=
  if decide (a ∈ acc) then acc else acc ++ [a].

Lemma wf_list_inner t : wf_type (RList t) = true -> wf_type t = true /\ t <> RAtom "*".
Proof.
  destruct t; cbn; try (by intros ?; split).
  intros [Ha Hs]%andb_true_iff. split; [done|]. intros [= ->]. done.
Qed.

Lemma atom_ok_spec a : atom_ok a = true <-> a <> "" /\ str_any structural a = false.
Proof.
  unfold atom_ok. rewrite andb_true_iff, !negb_true_iff.
  destruct (String.eqb_spec a ""); naive_solver.
Qed.

Lemma scan_atom a : str_any structural a = false -> forall d, scan_depth a d = Some d.
Proof.
  induction a as [|c a IH]; cbn; [done|]. intros [Hc Ha]%orb_false_iff d.
  unfold structural, bracket in Hc. rewrite !orb_false_iff in Hc. destruct Hc as [[-> ->] ->].
  cbn. by apply IH.
Qed.

Lemma scan_wrapped prefix s d :
  scan_depth prefix d = Some (S d) -> scan_depth s 0 = Some 0%nat ->
  scan_depth (prefix +:+ (s +:+ ">")) d = Some d.
Proof.
  intros Hp Hs. rewrite !scan_depth_app, Hp. cbn [mbind option_bind]. rewrite scan_depth_app.
  apply (scan_depth_shift _ _ _ (S d)) in Hs. cbn [Nat.add] in Hs. by rewrite Hs.
Qed.

Lemma scan_joined ps : Forall (fun p => scan_depth p 0 = Some 0%nat) ps ->
  scan_depth (join_commas ps) 1 = Some 1%nat.
Proof.
  induction 1 as [|p ps Hp Hall IH]; [done|].
  apply (scan_depth_shift _ _ _ 1) in Hp. cbn [Nat.add] in Hp. destruct ps as [|q ps]; [done|].
  change (join_commas (p :: q :: ps)) with (p +:+ ("," +:+ join_commas (q :: ps))).
  rewrite scan_depth_app, Hp. cbn [mbind option_bind Nat.add]. rewrite scan_depth_app. done.
Qed.

Lemma wf_type_balanced t : wf_type t = true -> balanced (show t).
Proof.
  induction t as [a| |t IH|t IH|t IH|ts IH] using rtype_ind_nested; intros Hw; cbn [show].
  - apply atom_ok_spec in Hw as [Hne Ha]. split; [done|by apply scan_atom].
  - split; [done|reflexivity].
  - apply wf_list_inner in Hw as [[? ?]%IH _]. split; [done|by apply scan_wrapped].
  - destruct (IH Hw). split; [done|by apply scan_wrapped].
  - destruct (IH Hw). split; [done|by apply scan_wrapped].
  - split; [done|]. unfold tuple_type_id. rewrite scan_depth_app.
    change (scan_depth "tuple<" 0) with (Some 1%nat). cbn [mbind option_bind].
    rewrite scan_depth_app, scan_joined; [done|]. apply Forall_map, Forall_forall. intros x Hx.
    rewrite Forall_forall in IH. cbn in Hw. rewrite forallb_forall in Hw.
    by apply IH, Hw, list_elem_of_In.
Qed.

Lemma show_nonempty t : wf_type t = true -> show t <> "".
Proof. by intros [? _]%wf_type_balanced. Qed.

(** An atom matches no constructor. *)
Lemma parse_unary_atom p a :
  str_any structural p = true -> str_any structural a = false -> parse_unary p a = None.
Proof.
  intros Hp Ha. destruct (parse_unary p a) as [e|] eqn:E; [|done].
  apply parse_unary_spec in E as [-> _]. by rewrite str_any_app, Hp in Ha.
Qed.

Lemma parse_tuple_atom a : str_any structural a = false -> parse_tuple_type_id a = None.
Proof.
  intros Ha. destruct (parse_tuple_type_id a) as [ps|] eqn:E; [|done].
  apply parse_tuple_spec in E as [-> _]. unfold tuple_type_id in Ha. by rewrite str_any_app in Ha.
Qed.

Lemma parse_tuple_clash s : head_clash "tuple<" s = true -> parse_tuple_type_id s = None.
Proof.
  intros Hc. destruct (parse_tuple_type_id s) as [ps|] eqn:E; [|done].
  apply parse_tuple_spec in E as [-> _]. done.
Qed.

Lemma parse_unary_same p e : e <> "" -> parse_unary p (p +:+ (e +:+ ">")) = Some e.
Proof. intros He. by apply parse_unary_spec. Qed.

(** Each parser recognises exactly its constructor. *)
Lemma parse_show t : wf_type t = true ->
  parse_tuple_type_id (show t) = match t with RTuple ts => Some (map show ts) | _ => None end
  /\ parse_list_type_id (show t)
     = match t with RList u => Some (show u) | RAnyList => Some "*" | _ => None end
  /\ parse_asset_type_id (show t) = match t with RAsset u => Some (show u) | _ => None end
  /\ parse_stream_type_id (show t) = match t with RStream u => Some (show u) | _ => None end.
Proof.
  intros Hw. destruct t as [a| |t|t|t|ts]; cbn [show];
    unfold parse_list_type_id, parse_asset_type_id, parse_stream_type_id.
  - apply atom_ok_spec in Hw as [_ Ha]. by rewrite parse_tuple_atom, !parse_unary_atom.
  - split_and!; [by apply parse_tuple_clash|by apply parse_unary_same|by apply parse_unary_clash..].
  - apply wf_list_inner in Hw as [Hw _]. apply show_nonempty in Hw.
    split_and!; [by apply parse_tuple_clash|by apply parse_unary_same|by apply parse_unary_clash..].
  - change (wf_type t = true) in Hw. apply show_nonempty in Hw.
    split_and!; [by apply parse_tuple_clash|by apply parse_unary_clash|by apply parse_unary_same|by apply parse_unary_clash].
  - change (wf_type t = true) in Hw. apply show_nonempty in Hw.
    split_and!; [by apply parse_tuple_clash|by apply parse_unary_clash..|by apply parse_unary_same].
  - split_and!; [|by apply parse_unary_clash..]. apply parse_tuple_inv, Forall_map, Forall_forall.
    intros x Hx. apply wf_type_balanced. cbn in Hw. rewrite forallb_forall in Hw.
    by apply Hw, list_elem_of_In.
Qed.

Lemma peel_show t : wf_type t = true ->
  peel (show t) = match t with
                  | RAnyList => WildcardList
                  | RList u | RAsset u | RStream u => Inner (show u)
                  | _ => NoConstructor
                  end.
Proof.
  intros Hw. destruct (parse_show t Hw) as (_ & Hl & Ha & Hs). unfold peel. rewrite Hl, Ha, Hs.
  destruct t as [a| |t|t|t|ts]; try done.
  destruct (String.eqb_spec (show t) "*") as [He|]; [|done]. exfalso.
  apply wf_list_inner in Hw as [Hw Hne]. destruct (wf_type_balanced t Hw) as [_ Hb].
  destruct t; cbn [show] in He; try discriminate He. by subst.
Qed.

(** * The validators *)

Lemma parse_unary_length p s e : parse_unary p s = Some e -> (String.length e < String.length s)%nat.
Proof. intros [-> _]%parse_unary_spec. rewrite !str_length_app. cbn. lia. Qed.

Lemma peel_inner s inner :
  peel s = Inner inner ->
  (String.length inner < String.length s)%nat
  /\ inner <> ""
  /\ ((s = list_type_id inner /\ inner <> "*") \/ s = asset_type_id inner \/ s = stream_type_id inner).
Proof.
  unfold peel, parse_list_type_id, parse_asset_type_id, parse_stream_type_id.
  destruct (parse_unary LIST_TYPE_PREFIX s) as [e|] eqn:H1.
  { destruct (String.eqb_spec e "*"); [done|]. intros [= <-].
    split; [by eapply parse_unary_length|]. apply parse_unary_spec in H1 as [-> He]. by auto. }
  destruct (parse_unary ASSET_TYPE_PREFIX s) as [e|] eqn:H2.
  { intros [= <-]. split; [by eapply parse_unary_length|]. apply parse_unary_spec in H2 as [-> He]. by auto. }
  destruct (parse_unary STREAM_TYPE_PREFIX s) as [e|] eqn:H3; [|done].
  intros [= <-]. split; [by eapply parse_unary_length|]. apply parse_unary_spec in H3 as [-> He]. by auto.
Qed.

Lemma peel_wildcard s : peel s = WildcardList -> s = list_type_id "*".
Proof.
  unfold peel. destruct (parse_list_type_id s) as [e|] eqn:H1.
  - destruct (String.eqb_spec e "*"); [|done]. intros _. apply parse_unary_spec in H1 as [-> _]. by subst.
  - by destruct (parse_asset_type_id s), (parse_stream_type_id s).
Qed.

Lemma pending_size_cons s p : pending_size (s :: p) = (S (String.length s) + pending_size p)%nat.
Proof. done. Qed.

Lemma pending_size_app p q : pending_size (p ++ q) = (pending_size p + pending_size q)%nat.
Proof. induction p; cbn in *; [done|]. unfold pending_size in *. lia. Qed.

Lemma join_commas_length ps :
  (pending_size ps <= S (String.length (join_commas ps)))%nat.
Proof.
  induction ps as [|p ps IH]; [cbn; lia|]. destruct ps as [|q ps].
  - rewrite pending_size_cons. cbn. lia.
  - change (join_commas (p :: q :: ps)) with (p +:+ ("," +:+ join_commas (q :: ps))).
    rewrite pending_size_cons, !str_length_app. cbn [String.length]. lia.
Qed.

Lemma tuple_pending_size ps : (pending_size ps < S (String.length (tuple_type_id ps)))%nat.
Proof.
  pose proof (join_commas_length ps). unfold tuple_type_id. rewrite !str_length_app. cbn [String.length]. lia.
Qed.

(** The fuel of [runtime_type_atoms] is enough for every string. *)
Lemma atoms_loop_total fuel pending atoms :
  (pending_size pending < fuel)%nat -> is_Some (runtime_type_atoms_loop fuel pending atoms).
Proof.
  revert pending atoms. induction fuel as [|fuel IH]; [lia|].
  intros [|s pending] atoms Hf; cbn [runtime_type_atoms_loop]; [by eexists|].
  rewrite pending_size_cons in Hf.
  destruct (parse_tuple_type_id s) as [ps|] eqn:Ht.
  { apply parse_tuple_spec in Ht as [-> _]. apply IH. rewrite pending_size_app.
    pose proof (tuple_pending_size ps). lia. }
  destruct (peel s) as [inner| |] eqn:Hp.
  - apply peel_inner in Hp as (Hl & _). apply IH. rewrite pending_size_cons. lia.
  - destruct (_ || _); [by eexists|]. apply IH. lia.
  - apply IH. lia.
Qed.

(** More fuel changes nothing. *)
Lemma atoms_loop_mono fuel fuel' pending atoms r :
  runtime_type_atoms_loop fuel pending atoms = Some r -> (fuel <= fuel')%nat ->
  runtime_type_atoms_loop fuel' pending atoms = Some r.
Proof.
  revert fuel' pending atoms. induction fuel as [|fuel IH]; intros fuel' pending atoms; [done|].
  destruct fuel' as [|fuel']; [lia|]. cbn [runtime_type_atoms_loop]. intros Hr Hle.
  destruct pending as [|s pending]; [done|].
  destruct (parse_tuple_type_id s); [apply IH; [done|lia]|].
  destruct (peel s); [apply IH; [done|lia]| |apply IH; [done|lia]].
  destruct (_ || _); [done|]. apply IH; [done|lia].
Qed.

Definition shown (s : string) : Prop := exists t, wf_type t = true /\ s = show t.

(** A string the loop accepts is the spelling of a type. *)
Lemma atoms_loop_sound fuel pending atoms l :
  runtime_type_atoms_loop fuel pending atoms = Some (Some l) -> Forall shown pending.
Proof.
  revert pending atoms. induction fuel as [|fuel IH]; intros pending atoms; [done|].
  cbn [runtime_type_atoms_loop]. destruct pending as [|s pending]; [constructor|].
  destruct (parse_tuple_type_id s) as [ps|] eqn:Etup.
  { intros [Hps Hp]%IH%Forall_app. constructor; [|done]. apply parse_tuple_spec in Etup as [-> _].
    assert (exists ts, forallb wf_type ts = true /\ ps = map show ts) as (ts & Hts & ->).
    { clear -Hps. induction Hps as [|p ps Hhd _ IHps]; [by exists []|].
      destruct Hhd as (t & Ht & ->), IHps as (ts & Hts & ->). exists (t :: ts). cbn. by rewrite Ht. }
    by exists (RTuple ts). }
  destruct (peel s) as [inner| |] eqn:Epeel.
  - apply peel_inner in Epeel as (_ & _ & Hs). intros [(t & Ht & ->) Hp]%IH%Forall_cons.
    constructor; [|done]. destruct Hs as [[-> Hne]|Hs]; [|destruct Hs as [->| ->]].
    + exists (RList t). split; [|done]. destruct t; try done. cbn in *. rewrite Ht.
      by destruct (String.eqb_spec a "*").
    + by exists (RAsset t).
    + by exists (RStream t).
  - destruct (_ || _) eqn:Ha; [done|]. intros Hp'%IH. constructor; [|done].
    apply orb_false_iff in Ha as [Hne Hs]. exists (RAtom s). split; [|done].
    apply atom_ok_spec. split; [by destruct (String.eqb_spec s "")|done].
  - intros Hp'%IH. constructor; [|done]. apply peel_wildcard in Epeel as ->. by exists RAnyList.
Qed.

(** On spellings of types, the loop collects their atoms in order. *)
Lemma atoms_loop_complete ts atoms fuel :
  forallb wf_type ts = true -> (pending_size (map show ts) < fuel)%nat ->
  runtime_type_atoms_loop fuel (map show ts) atoms
  = Some (Some (foldl add_new atoms (concat (map leaves ts)))).
Proof.
  revert ts atoms. induction fuel as [|fuel IH]; [lia|]. intros [|t ts] atoms Hw Hf; [done|].
  cbn [forallb] in Hw. apply andb_true_iff in Hw as [Ht Hts].
  cbn [map] in *. rewrite pending_size_cons in Hf. cbn [runtime_type_atoms_loop].
  rewrite (proj1 (parse_show t Ht)). destruct t as [a| |u|u|u|us]; cbn [leaves concat].
  - rewrite (peel_show _ Ht). cbn [show] in *. apply atom_ok_spec in Ht as [Hne Hs].
    rewrite Hs, orb_false_r. destruct (String.eqb_spec a ""); [done|].
    rewrite IH by (done || lia). done.
  - rewrite (peel_show _ Ht), IH by (done || lia). done.
  - rewrite (peel_show _ Ht). apply wf_list_inner in Ht as [Ht _].
    change (show u :: map show ts) with (map show (u :: ts)).
    rewrite IH; [done|by cbn; rewrite Ht|]. cbn [map show] in *. rewrite pending_size_cons.
    unfold list_type_id in Hf. rewrite !str_length_app in Hf. cbn [String.length] in Hf. lia.
  - rewrite (peel_show _ Ht). change (wf_type u = true) in Ht.
    change (show u :: map show ts) with (map show (u :: ts)).
    rewrite IH; [done|by cbn; rewrite Ht|]. cbn [map show] in *. rewrite pending_size_cons.
    unfold asset_type_id in Hf. rewrite !str_length_app in Hf. cbn [String.length] in Hf. lia.
  - rewrite (peel_show _ Ht). change (wf_type u = true) in Ht.
    change (show u :: map show ts) with (map show (u :: ts)).
    rewrite IH; [done|by cbn; rewrite Ht|]. cbn [map show] in *. rewrite pending_size_cons.
    unfold stream_type_id in Hf. rewrite !str_length_app in Hf. cbn [String.length] in Hf. lia.
  - change (forallb wf_type us = true) in Ht. rewrite <- map_app.
    rewrite IH; [by rewrite map_app, concat_app|by rewrite forallb_app, Ht|].
    rewrite map_app, pending_size_app. cbn [show] in Hf.
    pose proof (tuple_pending_size (map show us)). lia.
Qed.

Lemma map_show_inj_aux ts us :
  Forall (fun t => forall u, wf_type t = true -> wf_type u = true -> show t = show u -> t = u) ts ->
  forallb wf_type ts = true -> forallb wf_type us = true -> map show ts = map show us -> ts = us.
Proof.
  intros Hall. revert us. induction Hall as [|t ts Ht _ IH]; intros [|u us]; cbn; try done.
  intros [H1 H2]%andb_true_iff [H3 H4]%andb_true_iff [= He Hes]. f_equal; auto.
Qed.

Lemma show_inj t u : wf_type t = true -> wf_type u = true -> show t = show u -> t = u.
Proof.
  revert u. induction t as [a| |t IH|t IH|t IH|ts IH] using rtype_ind_nested; intros u Ht Hu He;
    destruct (parse_show _ Ht) as (T1 & L1 & A1 & S1); destruct (parse_show _ Hu) as (T2 & L2 & A2 & S2);
    rewrite He in T1, L1, A1, S1.
  - destruct u; try congruence. cbn [show] in He. congruence.
  - destruct u as [|  |u| | |]; try congruence. apply wf_list_inner in Hu as [Hu Hne].
    exfalso. assert (show u = "*") as Hs by congruence.
    destruct u; cbn [show] in Hs; try discriminate Hs. by subst.
  - apply wf_list_inner in Ht as [Ht Hne]. destruct u as [|  |u| | |]; try congruence.
    + exfalso. assert (show t = "*") as Hs by congruence.
      destruct t; cbn [show] in Hs; try discriminate Hs. by subst.
    + apply wf_list_inner in Hu as [Hu _]. f_equal. apply IH; [done|done|congruence].
  - destruct u as [|  | |u| |]; try congruence. f_equal. apply IH; [done|done|congruence].
  - destruct u as [|  | | |u|]; try congruence. f_equal. apply IH; [done|done|congruence].
  - destruct u as [|  | | | |us]; try congruence. f_equal.
    apply map_show_inj_aux; [done|done|done|congruence].
Qed.

(** * Properties *)

(** The type-id grammar is unambiguous and [runtime_type_atoms] decides
    it: the function accepts exactly the spellings of well-formed types, it
    then answers the type's atoms in first-position order without repeats,
    and two types with one spelling are equal. *)
Theorem type_id_grammar :
  (forall s l, runtime_type_atoms s = Some l <->
     exists t, wf_type t = true /\ s = show t /\ l = foldl add_new [] (leaves t))
  /\ (forall t u, wf_type t = true -> wf_type u = true -> show t = show u -> t = u).
Proof.
  split; [|exact show_inj]. intros s l. unfold runtime_type_atoms.
  destruct (atoms_loop_total (S (pending_size [s])) [s] []) as [r Hr]; [lia|]. rewrite Hr.
  change (default None (Some r)) with r.
  assert (Hval : forall t, wf_type t = true -> s = show t -> r = Some (foldl add_new [] (leaves t))).
  { intros t Ht ->. change [show t] with (map show [t]) in Hr.
    rewrite atoms_loop_complete in Hr by (cbn; rewrite ?Ht; done || lia).
    injection Hr as <-. cbn. by rewrite app_nil_r. }
  split.
  - intros ->. apply atoms_loop_sound in Hr as Hs. apply Forall_singleton in Hs as (t & Ht & ->).
    exists t. split_and!; [done|done|]. specialize (Hval t Ht eq_refl). congruence.
  - intros (t & Ht & -> & ->). by apply Hval.
Qed.

(** The canonical parsers are exact inverses of the type-id constructors on
    every string: each accepts a string just when it is its constructor
    applied to a non-empty element (for tuples, to non-empty positions whose
    brackets balance), and then answers those arguments. *)
Theorem type_id_parsers_exact :
  (forall s e, parse_list_type_id s = Some e <-> s = list_type_id e /\ e <> "")
  /\ (forall s e, parse_asset_type_id s = Some e <-> s = asset_type_id e /\ e <> "")
  /\ (forall s e, parse_stream_type_id s = Some e <-> s = stream_type_id e /\ e <> "")
  /\ (forall ps, Forall balanced ps -> parse_tuple_type_id (tuple_type_id ps) = Some ps)
  /\ (forall s ps, parse_tuple_type_id s = Some ps -> s = tuple_type_id ps /\ Forall (fun p => p <> "") ps).
Proof.
  split_and!; [apply parse_unary_spec|apply parse_unary_spec|apply parse_unary_spec|
    exact parse_tuple_inv|exact parse_tuple_spec].
Qed.

Lemma type_id_grammar_witness :
  runtime_type_atoms "tuple<list<IMAGE>,asset<MASK>,IMAGE>" = Some ["IMAGE"; "MASK"].
Proof.
  apply (proj1 type_id_grammar).
  exists (RTuple [RList (RAtom "IMAGE"); RAsset (RAtom "MASK"); RAtom "IMAGE"]).
  split; [reflexivity|]. split; reflexivity.
Defined.

Lemma type_id_parsers_exact_witness :
  parse_tuple_type_id (tuple_type_id ["list<A>"; "B"]) = Some ["list<A>"; "B"].
Proof.
  apply (proj1 (proj2 (proj2 (proj2 type_id_parsers_exact)))).
  repeat constructor; by intros [=].
Defined.
