(* ===== verification/TypeExprs.v ===== *)
(** TypeExprs: the schema's type expressions (dinkster_schema/model.py,
    [TypeExpr]): the record with its construction checks, the constructors,
    compatibility with a runtime type id, and the bridge to runtime type ids. *)
From S2P Require Import Prelude PyStr TypeIds.
From Stdlib Require Import Ascii.

Local Open Scope string_scope.
Local Open Scope Z_scope.
Local Open Scope list_scope.

(** * Expressions *)

(** The [kind] string; [KOther] is any string outside the closed set. *)
Inductive TypeExprKind :=
| KConcrete | KUnion | KWildcard | KVariable | KList | KAsset | KStream | KTuple
| KFamilyTuple | KTupleElement | KOther (kind : string).

#[export] Instance TypeExprKind_eq_dec : EqDecision TypeExprKind.
Proof. solve_decision. Defined.

Inductive index_ref := IndexInt (z : Z) | IndexName (s : string).

#[export] Instance index_ref_eq_dec : EqDecision index_ref.
Proof. solve_decision. Defined.

Inductive TypeExpr := mkTypeExpr {
  kind : TypeExprKind;
  types : list string;
  template_id : string;
  element : option TypeExpr;
  elements : list TypeExpr;
  input_id : string;
  index : option index_ref
}.

Section TypeExpr_induction.
Variable P : TypeExpr -> Prop.
Hypothesis Hmk : forall k ts tid el els i ix,
  (forall e, el = Some e -> P e) -> Forall P els -> P (mkTypeExpr k ts tid el els i ix).

Fixpoint TypeExpr_ind_nested (e : TypeExpr) : P e :=
  match e with
  | mkTypeExpr k ts tid el els i ix =>
      Hmk k ts tid el els i ix
        (match el return forall e', el = Some e' -> P e' with
         | Some x => fun e' (H : Some x = Some e') =>
             match H in _ = o return match o with Some y => P y | None => True end with
             | eq_refl => TypeExpr_ind_nested x
             end
         | None => fun e' (H : None = Some e') => match H with eq_refl => I end
         end)
        ((fix all (l : list TypeExpr) : Forall P l :=
          match l with
          | [] => Forall_nil_2 P
          | x :: l' => Forall_cons_2 P x l' (TypeExpr_ind_nested x) (all l')
          end) els)
  end.
End TypeExpr_induction.

Definition opt_eqb {A} (eqb : A -> A -> bool) (x y : option A) : bool :=
  match x, y with Some a, Some b => eqb a b | None, None => true | _, _ => false end.

Fixpoint list_eqb {A} (eqb : A -> A -> bool) (l k : list A) : bool :=
  match l, k with
  | [], [] => true
  | a :: l', b :: k' => eqb a b && list_eqb eqb l' k'
  | _, _ => false
  end.

Fixpoint expr_eqb (a b : TypeExpr) {struct a} : bool :=
  match a, b with
  | mkTypeExpr k ts tid el els i ix, mkTypeExpr k' ts' tid' el' els' i' ix' =>
      bool_decide (k = k') && bool_decide (ts = ts') && bool_decide (tid = tid')
      && opt_eqb expr_eqb el el' && list_eqb expr_eqb els els'
      && bool_decide (i = i') && bool_decide (ix = ix')
  end.

Lemma expr_eqb_spec a b : expr_eqb a b = true <-> a = b.
Proof.
  revert b. induction a as [k ts tid el els i ix Hel Hels] using TypeExpr_ind_nested.
  intros [k' ts' tid' el' els' i' ix']. cbn [expr_eqb]. rewrite !andb_true_iff, !bool_decide_eq_true.
  assert (opt_eqb expr_eqb el el' = true <-> el = el') as ->.
  { destruct el as [x|], el' as [y|]; cbn; try done. rewrite (Hel x eq_refl). naive_solver. }
  assert (list_eqb expr_eqb els els' = true <-> els = els') as ->.
  { revert els'. induction Hels as [|x els Hx _ IH]; intros [|y ys]; cbn; try done.
    rewrite andb_true_iff, Hx, IH. naive_solver. }
  split; [intros [[[[[[-> ->] ->] ->] ->] ->] ->]; done|by intros [= <- <- <- <- <- <- <-]].
Qed.

#[export] Instance TypeExpr_eq_dec : EqDecision TypeExpr.
Proof.
  intros a b. destruct (expr_eqb a b) eqn:E; [left|right]; rewrite <- expr_eqb_spec; congruence.
Defined.

(** * Construction *)

(** One constructor per [raise ValueError] of [__post_init__]; [EConstructor]
    is an entry spelled as a structured type, with the constructor it uses. *)
Inductive expr_error :=
| EUnknownKind (k : string)
| EConcreteArity
| EUnionArity
| EConstructor (constructor entry : string)
| ENoTemplate
| EWildcardTypes
| ENoElement
| EElementOnly
| EStrayElement
| ETupleOnly
| EStrayElements
| EFamilyTuple
| EElementReference
| EElementIndex
| EEmptyIndex
| EStrayReference.

#[export] Instance expr_error_eq_dec : EqDecision expr_error.
Proof. solve_decision. Defined.

(** The four structured spellings refused inside [types], in the code's order. *)
Definition structured_entry (entry : string) : result expr_error unit :=
  raise_if (bool_decide (is_Some (parse_tuple_type_id entry))) (EConstructor "tuple" entry);;
  raise_if (bool_decide (is_Some (parse_stream_type_id entry))) (EConstructor "stream" entry);;
  raise_if (bool_decide (is_Some (parse_list_type_id entry))) (EConstructor "list" entry);;
  raise_if (bool_decide (is_Some (parse_asset_type_id entry))) (EConstructor "asset" entry).

Fixpoint check_entries (entries : list string) : result expr_error unit :=
  match entries with
  | [] => Ok tt
  | entry :: entries' => structured_entry entry;; check_entries entries'
  end.

Definition kind_in (k : TypeExprKind) (ks : list TypeExprKind) : bool := bool_decide (k ∈ ks).
Definition empty_str (s : string) : bool := String.eqb s "".
Definition is_None {A} (o : option A) : bool := match o with None => true | Some _ => false end.
Definition is_nil {A} (l : list A) : bool := match l with [] => true | _ => false end.

Definition check_index_int_or_name (ix : option index_ref) : bool := negb (is_None ix).

Definition post_init (self : TypeExpr) : result expr_error unit :=
  let k := kind self in
  match k with KOther s => Err (EUnknownKind s) | _ => Ok tt end;;
  match k with
  | KConcrete =>
      match types self with
      | [entry] => structured_entry entry
      | _ => Err EConcreteArity
      end
  | _ => Ok tt
  end;;
  raise_if (bool_decide (k = KUnion) && (length (types self) <? 2)%nat) EUnionArity;;
  (if kind_in k [KUnion; KVariable] then check_entries (types self) else Ok tt);;
  raise_if (bool_decide (k = KVariable) && empty_str (template_id self)) ENoTemplate;;
  raise_if (bool_decide (k = KWildcard) && negb (is_nil (types self))) EWildcardTypes;;
  (if kind_in k [KList; KAsset; KStream] then
     raise_if (is_None (element self)) ENoElement;;
     raise_if (negb (is_nil (types self)) || negb (empty_str (template_id self))) EElementOnly
   else raise_if (negb (is_None (element self)) && negb (bool_decide (k = KTupleElement))) EStrayElement);;
  (if bool_decide (k = KTuple) then
     raise_if (negb (is_nil (types self)) || negb (empty_str (template_id self))) ETupleOnly
   else raise_if (negb (is_nil (elements self))) EStrayElements);;
  match k with
  | KFamilyTuple =>
      raise_if (empty_str (input_id self) || negb (is_nil (types self))
                || negb (empty_str (template_id self)) || negb (is_None (index self))) EFamilyTuple
  | KTupleElement =>
      raise_if (Bool.eqb (negb (empty_str (input_id self))) (negb (is_None (element self)))) EElementReference;;
      raise_if (negb (is_nil (types self)) || negb (empty_str (template_id self))
                || negb (check_index_int_or_name (index self))) EElementIndex;;
      raise_if (bool_decide (index self = Some (IndexName ""))) EEmptyIndex
  | _ => raise_if (negb (empty_str (input_id self)) || negb (is_None (index self))) EStrayReference
  end.

(** Building a [TypeExpr] runs the checks and answers the object or raises. *)
Definition construct (e : TypeExpr) : result expr_error TypeExpr := post_init e;; Ok e.

Definition raw (k : TypeExprKind) : TypeExpr := mkTypeExpr k [] "" None [] "" None.

Definition concrete (type_id : string) := construct (mkTypeExpr KConcrete [type_id] "" None [] "" None).
Definition union (type_ids : list string) := construct (mkTypeExpr KUnion type_ids "" None [] "" None).
Definition wildcard := construct (raw KWildcard).
Definition variable (tid : string) (allowed : list string) :=
  construct (mkTypeExpr KVariable allowed tid None [] "" None).
Definition list_of (e : TypeExpr) := construct (mkTypeExpr KList [] "" (Some e) [] "" None).
Definition tuple_of (es : list TypeExpr) := construct (mkTypeExpr KTuple [] "" None es "" None).
Definition tuple_from_family (input_family : string) :=
  construct (mkTypeExpr KFamilyTuple [] "" None [] input_family None).
Definition tuple_element (tuple_input index_input : string) :=
  construct (mkTypeExpr KTupleElement [] "" None [] tuple_input (Some (IndexName index_input))).
Definition stream_of (e : TypeExpr) := construct (mkTypeExpr KStream [] "" (Some e) [] "" None).
Definition asset_of (e : TypeExpr) := construct (mkTypeExpr KAsset [] "" (Some e) [] "" None).

(** Every object of the class passed the checks, and so did its parts. *)
Fixpoint constructed (e : TypeExpr) : bool :=
  match e with
  | mkTypeExpr k ts tid el els i ix =>
      is_ok (post_init e)
      && match el with Some x => constructed x | None => true end
      && forallb constructed els
  end.

(** * Operations

    The source asserts that a list, an asset and a stream have their element,
    which [post_init] checked; on an object that could not be built these
    definitions answer what they answer for a mismatch. *)

Fixpoint requires_elaboration (e : TypeExpr) : bool :=
  match e with
  | mkTypeExpr _ _ _ el els i ix =>
      negb (empty_str i)
      || match ix with Some (IndexName _) => true | _ => false end
      || match el with Some x => requires_elaboration x | None => false end
      || existsb requires_elaboration els
  end.

(** [all(f(e, p) for e, p in zip(es, ps, strict=True))] of equally long lists. *)
Fixpoint all_pairs {A B} (f : A -> B -> bool) (l : list A) (k : list B) : bool :=
  match l, k with
  | a :: l', b :: k' => f a b && all_pairs f l' k'
  | _, _ => true
  end.

Fixpoint accepts_concrete (e : TypeExpr) (type_id : string) : bool :=
  match e with
  | mkTypeExpr k ts _ el els _ _ =>
      match k with
      | KWildcard => true
      | KVariable => is_nil ts || bool_decide (type_id ∈ ts)
      | KTuple =>
          match parse_tuple_type_id type_id with
          | Some positions => (length positions =? length els)%nat && all_pairs accepts_concrete els positions
          | None => false
          end
      | KStream =>
          match parse_stream_type_id type_id, el with
          | Some inner, Some x => accepts_concrete x inner
          | _, _ => false
          end
      | KList =>
          match parse_list_type_id type_id, el with
          | Some inner, Some x => accepts_concrete x inner
          | _, _ => false
          end
      | KAsset =>
          match parse_asset_type_id type_id, el with
          | Some inner, Some x => accepts_concrete x inner
          | _, _ => false
          end
      | _ => bool_decide (type_id ∈ ts)
      end
  end.

(** All of them, or None when one is missing. *)
Fixpoint all_some {A} (l : list (option A)) : option (list A) :=
  match l with
  | [] => Some []
  | Some a :: l' => (a ::.) <$> all_some l'
  | None :: _ => None
  end.

Definition is_wildcard (e : TypeExpr) : bool := bool_decide (kind e = KWildcard).

Fixpoint runtime_type_id (e : TypeExpr) : option string :=
  match e with
  | mkTypeExpr k ts _ el els _ _ =>
      match k with
      | KConcrete => head ts
      | KTuple => tuple_type_id <$> all_some (map runtime_type_id els)
      | KStream => match el with Some x => stream_type_id <$> runtime_type_id x | None => None end
      | KList =>
          match el with
          | Some x => if is_wildcard x then Some (list_type_id "*") else list_type_id <$> runtime_type_id x
          | None => None
          end
      | KAsset => match el with Some x => asset_type_id <$> runtime_type_id x | None => None end
      | _ => None
      end
  end.

Inductive Cardinality := CScalar | CList | CUnknown.

#[export] Instance Cardinality_eq_dec : EqDecision Cardinality.
Proof. solve_decision. Defined.

Definition runtime_cardinality (type_id : string) : Cardinality :=
  match parse_list_type_id type_id with Some _ => CList | None => CScalar end.

Definition cardinality (e : TypeExpr) : Cardinality :=
  if bool_decide (kind e = KList) then CList
  else if kind_in (kind e) [KConcrete; KUnion; KAsset; KStream; KTuple] then CScalar
  else CUnknown.

(** * Shape lemmas *)

Lemma construct_ok e e' : construct e = Ok e' <-> e' = e /\ post_init e = Ok tt.
Proof.
  unfold construct. rewrite bind_ok. split.
  - intros ([] & Hp & [= <-]). done.
  - intros [-> Hp]. exists tt. done.
Qed.

Lemma structured_entry_ok entry u :
  structured_entry entry = Ok u <->
  parse_tuple_type_id entry = None /\ parse_stream_type_id entry = None
  /\ parse_list_type_id entry = None /\ parse_asset_type_id entry = None.
Proof.
  unfold structured_entry. destruct u.
  destruct (parse_tuple_type_id entry), (parse_stream_type_id entry),
    (parse_list_type_id entry), (parse_asset_type_id entry);
    cbn; split; try (by intros []); try discriminate; naive_solver.
Qed.

(** An object of the class, by kind. *)
Inductive expr_view : TypeExpr -> Prop :=
| ViewConcrete t tid : structured_entry t = Ok tt -> expr_view (mkTypeExpr KConcrete [t] tid None [] "" None)
| ViewOther e : kind e ∈ [KUnion; KWildcard; KVariable; KFamilyTuple; KTupleElement] -> expr_view e
| ViewList e : constructed e = true -> expr_view (mkTypeExpr KList [] "" (Some e) [] "" None)
| ViewAsset e : constructed e = true -> expr_view (mkTypeExpr KAsset [] "" (Some e) [] "" None)
| ViewStream e : constructed e = true -> expr_view (mkTypeExpr KStream [] "" (Some e) [] "" None)
| ViewTuple es : forallb constructed es = true -> expr_view (mkTypeExpr KTuple [] "" None es "" None).

Ltac expr_bools :=
  repeat match goal with
  | H : _ && true = _ |- _ => rewrite andb_true_r in H
  | H : negb _ = false |- _ => apply negb_false_iff in H
  | H : negb _ = true |- _ => apply negb_true_iff in H
  | H : _ || _ = false |- _ => apply orb_false_iff in H as [? ?]
  | H : _ && _ = true |- _ => apply andb_true_iff in H as [? ?]
  | H : empty_str _ = true |- _ => apply String.eqb_eq in H; subst
  | H : String.eqb _ "" = true |- _ => apply String.eqb_eq in H; subst
  | H : is_nil ?l = true |- _ => destruct l; [clear H|discriminate H]
  | H : is_None ?o = true |- _ => destruct o; [discriminate H|clear H]
  | H : is_None ?o = false |- _ => destruct o; [clear H|discriminate H]
  | H : () |- _ => destruct H
  end.

Lemma constructed_view e : constructed e = true -> expr_view e.
Proof.
  destruct e as [k ts tid el els i ix]. cbn [constructed]. rewrite !andb_true_iff. intros [[Hp Hel] Hels].
  destruct (post_init _) as [[]|] eqn:E; [clear Hp|done].
  destruct k; try (apply ViewOther; cbn; set_solver); unfold post_init in E; cbn in E;
    result_steps; expr_bools; try (by constructor).
  destruct ts as [|t [|]]; try done. by constructor.
Qed.

(** A structured entry is spelled by no parser. *)
Lemma structured_parsers t :
  structured_entry t = Ok tt ->
  parse_tuple_type_id t = None /\ parse_stream_type_id t = None
  /\ parse_list_type_id t = None /\ parse_asset_type_id t = None.
Proof. apply structured_entry_ok. Qed.

(** The strings of the four constructors are disjoint. *)
Lemma parse_stream_spec s e : parse_stream_type_id s = Some e <-> s = stream_type_id e /\ e <> "".
Proof. apply parse_unary_spec. Qed.
Lemma parse_list_spec s e : parse_list_type_id s = Some e <-> s = list_type_id e /\ e <> "".
Proof. apply parse_unary_spec. Qed.
Lemma parse_asset_spec s e : parse_asset_type_id s = Some e <-> s = asset_type_id e /\ e <> "".
Proof. apply parse_unary_spec. Qed.

Lemma all_some_spec {A} (l : list (option A)) r : all_some l = Some r <-> l = map Some r.
Proof.
  revert r. induction l as [|[a|] l IH]; intros r; cbn.
  - destruct r; cbn; split; congruence.
  - destruct (all_some l) as [q|] eqn:E; cbn.
    + specialize (proj1 (IH q) eq_refl) as ->. split; [by intros [= <-]|].
      destruct r as [|b r]; cbn; [done|]. intros [= -> Hr]. f_equal. f_equal.
      by apply (inj (map Some)) in Hr.
    + split; [done|]. destruct r as [|b r]; cbn; [done|]. intros [= -> Hr].
      by apply IH in Hr.
  - split; [done|]. by destruct r.
Qed.
