(* ===== verification/Names.v ===== *)
(** Names: the shared name grammar (dinkster_values/names.py): pack names,
    namespace claims and exact node ids, their canonical form, coverage and
    conflict. *)
From S2P Require Import Prelude PyStr.
From Stdlib Require Import Ascii.

Local Open Scope string_scope.
Local Open Scope list_scope.

(** * Grammar *)

Definition NAME_MAX : nat := 64.

Definition RESERVED_NAMESPACES : list string := ["std"; "comfy"; "core"; "dinkster"].

Definition lower_alpha (c : ascii) : bool := in_range 97 122 c.
Definition upper_alpha (c : ascii) : bool := in_range 65 90 c.
Definition lower_alnum (c : ascii) : bool := lower_alpha c || char_decimal c.
Definition alpha (c : ascii) : bool := lower_alpha c || upper_alpha c.
Definition alnum (c : ascii) : bool := alpha c || char_decimal c.

Definition dash : ascii := "-"%char.
Definition underscore : ascii := "_"%char.
Definition dot : ascii := "."%char.
Definition space : ascii := " "%char.

(** [[-_.]] *)
Definition name_sep (c : ascii) : bool := Ascii.eqb c dash || Ascii.eqb c underscore || Ascii.eqb c dot.

(** [rest*(sep rest+)*$], from inside a segment that has a character ([open])
    or at its start. *)
Fixpoint segments (rest sep : ascii -> bool) (s : string) (open : bool) : bool :=
  match s with
  | EmptyString => open
  | String c s' =>
      if rest c then segments rest sep s' true
      else if sep c then open && segments rest sep s' false
      else false
  end.

(** [^first rest*(?:sep rest+)*$], matched in full. *)
Definition segmented (first rest sep : ascii -> bool) (s : string) : bool :=
  match s with
  | EmptyString => false
  | String c s' => first c && segments rest sep s' true
  end.

Definition NAME_RE : string -> bool := segmented lower_alpha lower_alnum name_sep.
Definition CLAIM_RE : string -> bool :=
  segmented alpha alnum (fun c => name_sep c || Ascii.eqb c space).

Inductive name_problem := PEmpty | PTooLong | PGrammar.

#[export] Instance name_problem_eq_dec : EqDecision name_problem.
Proof. solve_decision. Defined.

Definition validate_with (re : string -> bool) (name : string) : option name_problem :=
  if String.eqb name "" then Some PEmpty
  else if (NAME_MAX <? String.length name)%nat then Some PTooLong
  else if negb (re name) then Some PGrammar
  else None.

Definition validate_name : string -> option name_problem := validate_with NAME_RE.
Definition validate_claim : string -> option name_problem := validate_with CLAIM_RE.

(** [validate_name(name) is None]. *)
Definition is_name (name : string) : bool :=
  match validate_name name with None => true | Some _ => false end.

(** * Atoms *)

(** [str.casefold]: the sharp s folds to two letters; the micro sign folds to
    the Greek letter outside this alphabet, which stands here as itself. *)
Definition char_casefold (c : ascii) : string :=
  if (code c =? 223)%N then "ss" else String (char_lower c) "".

Fixpoint casefold (s : string) : string :=
  match s with
  | EmptyString => EmptyString
  | String c s' => char_casefold c +:+ casefold s'
  end.

(** [_SEP_SPLIT_RE.split], the tokens at even and odd positions: [cur] is the
    atom being read. *)
Fixpoint split_seps (s cur : string) : list string * list ascii :=
  match s with
  | EmptyString => ([cur], [])
  | String c s' =>
      if name_sep c then let '(atoms, seps) := split_seps s' "" in (cur :: atoms, c :: seps)
      else split_seps s' (cur +:+ String c "")
  end.

Definition name_atoms (name : string) : list string * list ascii := split_seps name "".

(** The atom sequence a name is identified by. *)
Definition folded (name : string) : list string := map casefold (name_atoms name).1.

(** ['-'.join(...)]. *)
Fixpoint join_dashes (atoms : list string) : string :=
  match atoms with
  | [] => ""
  | [a] => a
  | a :: atoms' => a +:+ String dash (join_dashes atoms')
  end.

Definition canonical_name (name : string) : string := join_dashes (folded name).

Definition canonical_claim (claim : string) : string :=
  if is_name claim then canonical_name claim else claim.

(** * Coverage and conflict *)

Definition claim_covers (claim node_type : string) : bool :=
  if negb (is_name claim) then String.eqb claim node_type
  else
    let claim_atoms := (name_atoms claim).1 in
    let node_atoms := (name_atoms node_type).1 in
    let node_seps := (name_atoms node_type).2 in
    let edge := length claim_atoms in
    if (length node_atoms <=? edge)%nat then false
    else if negb (bool_decide (map casefold claim_atoms = map casefold (take edge node_atoms))) then false
    else bool_decide (node_seps !! (edge - 1)%nat = Some dot).

Definition claims_conflict (a b : string) : bool :=
  let a_exact := negb (is_name a) in
  let b_exact := negb (is_name b) in
  if a_exact && b_exact then String.eqb a b
  else if a_exact then claim_covers b a
  else if b_exact then claim_covers a b
  else
    let a_atoms := folded a in
    let b_atoms := folded b in
    if (length b_atoms <? length a_atoms)%nat
    then bool_decide (take (length b_atoms) a_atoms = b_atoms)
    else bool_decide (take (length a_atoms) b_atoms = a_atoms).

(** The reserved roots are a set in the source; its answer is one of the
    roots the claim touches, the first of this order here. *)
Definition reserved_root (claim : string) : option string :=
  List.find (fun root => String.eqb claim root || claims_conflict root claim) RESERVED_NAMESPACES.

(** * Lemmas *)

Lemma is_name_spec n :
  is_name n = true <-> NAME_RE n = true /\ (String.length n <= NAME_MAX)%nat.
Proof.
  unfold is_name, validate_name, validate_with. destruct (String.eqb_spec n "") as [->|Hn].
  { split; [done|]. by intros []. }
  destruct (Nat.ltb_spec NAME_MAX (String.length n)); [split; [done|lia]|].
  destruct (NAME_RE n); cbn; split; naive_solver.
Qed.

Lemma split_seps_lengths s cur :
  length (split_seps s cur).1 = S (length (split_seps s cur).2).
Proof.
  revert cur. induction s as [|c s IH]; intros cur; cbn [split_seps]; [done|].
  destruct (name_sep c); [|apply IH]. specialize (IH ""). destruct (split_seps s ""). cbn in *. lia.
Qed.

Lemma folded_nonempty n : folded n <> [].
Proof.
  unfold folded, name_atoms. pose proof (split_seps_lengths n "") as H.
  destruct (split_seps n "") as [[|? ?] ?]; cbn in *; [lia|done].
Qed.

Definition to_dash (c : ascii) : ascii := if name_sep c then dash else c.

Lemma join_dashes_cons a l : l <> [] -> join_dashes (a :: l) = a +:+ String dash (join_dashes l).
Proof. by destruct l. Qed.

(** Joining the atoms of a string replaces its separators by dashes. *)
Lemma join_split s cur : join_dashes (split_seps s cur).1 = cur +:+ str_map to_dash s.
Proof.
  revert cur. induction s as [|c s IH]; intros cur; cbn [split_seps str_map].
  - cbn. by rewrite str_app_nil_r.
  - unfold to_dash at 1. destruct (name_sep c).
    + specialize (IH ""). pose proof (split_seps_lengths s "") as Hl.
      destruct (split_seps s "") as [l q]. cbn [fst snd] in *.
      rewrite join_dashes_cons by (by destruct l). by rewrite IH, str_app_nil_l.
    + rewrite IH, str_app_assoc. done.
Qed.

Lemma casefold_app a b : casefold (a +:+ b) = casefold a +:+ casefold b.
Proof. induction a; strsimpl; [done|]. by rewrite IHa, str_app_assoc. Qed.

(** A lower-case ASCII letter or digit folds to itself. *)
Definition plain_char (c : ascii) : bool := lower_alnum c || name_sep c.

Lemma plain_char_casefold c : plain_char c = true -> char_casefold c = String c "".
Proof.
  destruct c as [[] [] [] [] [] [] [] []]; vm_compute; congruence.
Qed.

Lemma casefold_plain s : str_all plain_char s = true -> casefold s = s.
Proof.
  induction s as [|c s IH]; cbn [str_all casefold]; [done|]. intros [Hc Hs]%andb_true_iff.
  rewrite plain_char_casefold by done. rewrite str_app_cons, str_app_nil_l. by rewrite IH.
Qed.

Lemma segments_plain s open : segments lower_alnum name_sep s open = true -> str_all plain_char s = true.
Proof.
  revert open. induction s as [|c s IH]; intros open; cbn [segments str_all]; [done|].
  unfold plain_char at 1. destruct (lower_alnum c); cbn [orb andb]; [apply IH|].
  destruct (name_sep c); cbn [andb]; [|done]. intros [_ H]%andb_true_iff. by eapply IH.
Qed.

Lemma name_plain n : NAME_RE n = true -> str_all plain_char n = true.
Proof.
  unfold NAME_RE, segmented. destruct n as [|c n]; [done|]. intros [Hc H]%andb_true_iff.
  cbn [str_all]. unfold plain_char at 1, lower_alnum. rewrite Hc. cbn. by eapply segments_plain.
Qed.

Lemma split_seps_plain s cur :
  str_all plain_char s = true -> str_all plain_char cur = true ->
  Forall (fun a => str_all plain_char a = true) (split_seps s cur).1.
Proof.
  revert cur. induction s as [|c s IH]; intros cur; cbn [split_seps str_all].
  - intros _ Hc. by constructor.
  - intros [Hc Hs]%andb_true_iff Hcur. destruct (name_sep c).
    + specialize (IH "" Hs eq_refl). destruct (split_seps s ""). by constructor.
    + apply IH; [done|]. rewrite str_all_app. cbn. by rewrite Hcur, Hc.
Qed.

Lemma folded_name n : is_name n = true -> folded n = (name_atoms n).1.
Proof.
  intros [Hre _]%is_name_spec. unfold folded, name_atoms.
  rewrite <- (map_id (split_seps n "").1) at 2. apply map_ext_Forall.
  eapply Forall_impl; [by apply split_seps_plain; [apply name_plain|]|].
  intros a Ha. by apply casefold_plain.
Qed.

Lemma canonical_name_map n : is_name n = true -> canonical_name n = str_map to_dash n.
Proof.
  intros Hn. unfold canonical_name. rewrite folded_name by done. unfold name_atoms.
  by rewrite join_split.
Qed.

Lemma to_dash_class c :
  lower_alnum (to_dash c) = lower_alnum c /\ name_sep (to_dash c) = name_sep c
  /\ lower_alpha (to_dash c) = lower_alpha c.
Proof. destruct c as [[] [] [] [] [] [] [] []]; vm_compute; done. Qed.

Lemma segments_to_dash s open :
  segments lower_alnum name_sep (str_map to_dash s) open = segments lower_alnum name_sep s open.
Proof.
  revert open. induction s as [|c s IH]; intros open; cbn [segments str_map]; [done|].
  destruct (to_dash_class c) as (-> & -> & _). by rewrite !IH.
Qed.

Lemma str_map_length f s : String.length (str_map f s) = String.length s.
Proof. induction s; cbn; congruence. Qed.

Lemma is_name_canonical n : is_name n = true -> is_name (canonical_name n) = true.
Proof.
  intros Hn. rewrite canonical_name_map by done. apply is_name_spec in Hn as [Hre Hl].
  apply is_name_spec. rewrite str_map_length. split; [|done].
  destruct n as [|c n]; [done|]. unfold NAME_RE, segmented in *. cbn [str_map].
  destruct (to_dash_class c) as (_ & _ & ->). by rewrite segments_to_dash.
Qed.

Lemma split_seps_to_dash s cur : (split_seps (str_map to_dash s) cur).1 = (split_seps s cur).1.
Proof.
  revert cur. induction s as [|c s IH]; intros cur; cbn [split_seps str_map]; [done|].
  destruct (to_dash_class c) as (_ & -> & _). destruct (name_sep c) eqn:Hc;
    [|replace (to_dash c) with c by (unfold to_dash; by rewrite Hc); by rewrite IH].
  specialize (IH ""). destruct (split_seps s ""), (split_seps (str_map to_dash s) ""). cbn in *. congruence.
Qed.

(** A name and its canonical spelling have the same atoms. *)
Lemma folded_canonical n : is_name n = true -> folded (canonical_name n) = folded n.
Proof.
  intros Hn. rewrite canonical_name_map by done. unfold folded, name_atoms. by rewrite split_seps_to_dash.
Qed.

Lemma canonical_name_idem n : is_name n = true -> canonical_name (canonical_name n) = canonical_name n.
Proof. intros Hn. unfold canonical_name at 1. by rewrite folded_canonical. Qed.

Lemma take_prefix (a b : list string) : take (length a) b = a <-> a `prefix_of` b.
Proof.
  split.
  - intros H. exists (drop (length a) b). rewrite <- H at 1. by rewrite take_drop.
  - intros [k ->]. apply take_app_length.
Qed.

(** Two lists that are both prefixes of a third are comparable. *)
Lemma prefixes_comparable (a b c : list string) :
  a `prefix_of` c -> b `prefix_of` c -> a `prefix_of` b \/ b `prefix_of` a.
Proof.
  revert b c. induction a as [|x a IH]; intros b c Ha Hb; [left; apply prefix_nil|].
  destruct b as [|y b]; [right; apply prefix_nil|].
  destruct Ha as [ka ->], Hb as [kb Hb]. cbn in Hb. injection Hb as -> Hb.
  destruct (IH b (a ++ ka)) as [H|H]; [by eexists|by exists kb|left|right]; by apply prefix_cons.
Qed.

Lemma covers_name c n :
  is_name c = true ->
  claim_covers c n = true <->
  (length (folded c) < length (folded n))%nat /\ folded c `prefix_of` folded n
  /\ (name_atoms n).2 !! (length (folded c) - 1)%nat = Some dot.
Proof.
  intros Hn. unfold claim_covers. rewrite Hn. cbn [negb]. unfold folded. rewrite !length_map.
  destruct (Nat.leb_spec (length (name_atoms n).1) (length (name_atoms c).1)); [split; [done|lia]|].
  rewrite <- take_prefix, length_map, firstn_map.
  destruct (decide (map casefold (take (length (name_atoms c).1) (name_atoms n).1)
                    = map casefold (name_atoms c).1)) as [He|He].
  - rewrite bool_decide_true by done. cbn [negb]. rewrite bool_decide_eq_true. naive_solver.
  - rewrite bool_decide_false by (by intros ?). cbn. naive_solver.
Qed.

Lemma covers_exact c n : is_name c = false -> claim_covers c n = true <-> c = n.
Proof. intros Hn. unfold claim_covers. rewrite Hn. apply String.eqb_eq. Qed.

Lemma conflict_names a b :
  is_name a = true -> is_name b = true ->
  claims_conflict a b = true <-> folded a `prefix_of` folded b \/ folded b `prefix_of` folded a.
Proof.
  intros Ha Hb. unfold claims_conflict. rewrite Ha, Hb. cbn [negb andb].
  destruct (Nat.ltb_spec (length (folded b)) (length (folded a))); rewrite bool_decide_eq_true, take_prefix.
  - split; [by right|]. intros [Hp|]; [|done]. apply prefix_length in Hp. lia.
  - split; [by left|]. intros [|Hp]; [done|].
    assert (folded b = folded a) as -> by (apply prefix_length_eq; [done|lia]). done.
Qed.

Lemma conflict_mixed a b :
  is_name a = true -> is_name b = false ->
  claims_conflict a b = claim_covers a b /\ claims_conflict b a = claim_covers a b.
Proof. intros Ha Hb. unfold claims_conflict. rewrite Ha, Hb. done. Qed.

Lemma conflict_exact a b :
  is_name a = false -> is_name b = false -> claims_conflict a b = true <-> a = b.
Proof. intros Ha Hb. unfold claims_conflict. rewrite Ha, Hb. apply String.eqb_eq. Qed.

Lemma conflict_sym a b : claims_conflict a b = claims_conflict b a.
Proof.
  apply eq_true_iff_eq. destruct (is_name a) eqn:Ha, (is_name b) eqn:Hb.
  - rewrite !conflict_names by done. tauto.
  - destruct (conflict_mixed a b Ha Hb) as [-> ->]. done.
  - destruct (conflict_mixed b a Hb Ha) as [-> ->]. done.
  - rewrite !conflict_exact by done. naive_solver.
Qed.

Lemma conflict_refl a : claims_conflict a a = true.
Proof.
  destruct (is_name a) eqn:Ha.
  - apply conflict_names; [done|done|]. by left.
  - by apply conflict_exact.
Qed.

Lemma is_name_canonical_claim a : is_name (canonical_claim a) = is_name a.
Proof.
  unfold canonical_claim. destruct (is_name a) eqn:Ha; [|done]. by apply is_name_canonical.
Qed.

Lemma covers_canonical a n : claim_covers (canonical_claim a) n = true <-> claim_covers (if is_name a then a else canonical_claim a) n = true.
Proof.
  destruct (is_name a) eqn:Ha; [|done]. rewrite !covers_name by (done || by rewrite is_name_canonical_claim).
  unfold canonical_claim. rewrite Ha, folded_canonical by done. done.
Qed.

Lemma canonical_claim_idem a : canonical_claim (canonical_claim a) = canonical_claim a.
Proof.
  unfold canonical_claim at 1. rewrite is_name_canonical_claim. unfold canonical_claim.
  destruct (is_name a) eqn:Ha; [|done]. by apply canonical_name_idem.
Qed.

Lemma conflict_canonical_r a b : claims_conflict a (canonical_claim b) = claims_conflict a b.
Proof.
  apply eq_true_iff_eq. pose proof (is_name_canonical_claim b) as Hc.
  destruct (is_name b) eqn:Hb; [|by unfold canonical_claim; rewrite Hb].
  destruct (is_name a) eqn:Ha.
  - rewrite !conflict_names by done. unfold canonical_claim. by rewrite Hb, folded_canonical.
  - destruct (conflict_mixed _ _ Hc Ha) as [_ ->], (conflict_mixed b a Hb Ha) as [_ ->].
    rewrite covers_canonical. by rewrite Hb.
Qed.

(** * Properties *)

(** Exclusive conflict makes coverage exclusive: two claims that both
    cover one node type conflict, whatever their grammar, separators and
    case; conflict is symmetric and reflexive; and neither coverage nor
    conflict depends on which separators spell a namespace claim. *)
Theorem coverage_implies_conflict :
  (forall a b n, claim_covers a n = true -> claim_covers b n = true -> claims_conflict a b = true)
  /\ (forall a b, claims_conflict a b = claims_conflict b a)
  /\ (forall a, claims_conflict a a = true)
  /\ (forall a b, claims_conflict (canonical_claim a) (canonical_claim b) = claims_conflict a b)
  /\ (forall a n, is_name a = true -> claim_covers (canonical_claim a) n = claim_covers a n)
  /\ (forall a, canonical_claim (canonical_claim a) = canonical_claim a).
Proof.
  split_and!.
  - intros a b n Ha Hb. destruct (is_name a) eqn:Na, (is_name b) eqn:Nb.
    + apply covers_name in Ha as (_ & Ha & _); [|done]. apply covers_name in Hb as (_ & Hb & _); [|done].
      apply conflict_names; [done|done|]. by eapply prefixes_comparable.
    + apply covers_exact in Hb as ->; [|done]. by destruct (conflict_mixed a n Na Nb) as [-> _].
    + apply covers_exact in Ha as ->; [|done]. by destruct (conflict_mixed b n Nb Na) as [_ ->].
    + apply covers_exact in Ha as ->; [|done]. apply covers_exact in Hb as ->; [|done]. apply conflict_refl.
  - exact conflict_sym.
  - exact conflict_refl.
  - intros a b. by rewrite conflict_canonical_r, conflict_sym, conflict_canonical_r, conflict_sym.
  - intros a n Ha. apply eq_true_iff_eq. rewrite covers_canonical. by rewrite Ha.
  - exact canonical_claim_idem.
Qed.

Lemma coverage_implies_conflict_witness :
  claims_conflict "img-extra" "img" = true /\ claim_covers "img" "IMG.extra.blur" = true.
Proof.
  split; [|reflexivity].
  apply (proj1 coverage_implies_conflict _ _ "img.extra.blur"); reflexivity.
Defined.
