(* ===== verification/Grants.v ===== *)
(** Grants: the registry's namespace grant table (dinkster_registry/grants.py):
    evaluation of a claim, granting, transfer of one grant and of a suite, and
    the exclusivity invariant they uphold. *)
From S2P Require Import Prelude PyStr Names.
From Stdlib Require Import Ascii.

Local Open Scope string_scope.
Local Open Scope list_scope.

(** * Data *)

Inductive ClaimStatus := Granted | Grantable | Free | DeniedReserved | DeniedTaken.

#[export] Instance ClaimStatus_eq_dec : EqDecision ClaimStatus.
Proof. solve_decision. Defined.

Record Grant := mkGrant { claim : string; publisher : string }.

#[export] Instance Grant_eq_dec : EqDecision Grant.
Proof. solve_decision. Defined.

(** The [RegistryError]s; [owners] is sorted, and [a], [b] are the two grants a
    transfer would split. *)
Inductive registry_error :=
| BadClaim (problem : name_problem)
| Reserved (root : string)
| Taken (owners : list string)
| NoGrant (claim : string)
| Split (a b : string).

(** The table: grants in the order they were recorded. *)
Definition GrantTable := list Grant.

(** * Operations *)

Definition owner_of (grants : GrantTable) (c : string) : option string :=
  let canonical := canonical_claim c in
  publisher <$> List.find (fun g => String.eqb (claim g) canonical) grants.

Definition conflicting (grants : GrantTable) (canonical : string) : list Grant :=
  List.filter (fun g => claims_conflict (claim g) canonical) grants.

Definition other_owner (p : string) (g : Grant) : bool := negb (String.eqb (publisher g) p).

Definition evaluate (grants : GrantTable) (c p : string) : result registry_error ClaimStatus :=
  match validate_claim c with
  | Some problem => Err (BadClaim problem)
  | None =>
      match reserved_root c with
      | Some _ => Ok DeniedReserved
      | None =>
          let canonical := canonical_claim c in
          let publisher_canonical := canonical_name p in
          let conflicts := conflicting grants canonical in
          if existsb (other_owner publisher_canonical) conflicts then Ok DeniedTaken
          else if existsb (fun g => String.eqb (claim g) canonical) conflicts then Ok Granted
          else match conflicts with [] => Ok Free | _ => Ok Grantable end
      end
  end.

(** [sorted({...})] of the conflicting owners. *)
Definition taken_owners (grants : GrantTable) (canonical p : string) : list string :=
  sorted_set (list_to_set (map publisher (List.filter (other_owner p) (conflicting grants canonical)))).

Definition grant (grants : GrantTable) (c p : string) : result registry_error (Grant * GrantTable) :=
  status ← evaluate grants c p;
  let canonical := canonical_claim c in
  let publisher_canonical := canonical_name p in
  let fresh := mkGrant canonical publisher_canonical in
  match status with
  | DeniedReserved => Err (Reserved (default "" (reserved_root c)))
  | DeniedTaken => Err (Taken (taken_owners grants canonical publisher_canonical))
  | Granted =>
      match List.find (fun g => String.eqb (claim g) canonical) grants with
      | Some g => Ok (g, grants)
      | None => Ok (fresh, grants ++ [fresh])
      end
  | _ => Ok (fresh, grants ++ [fresh])
  end.

(** [GrantTable.__init__]: grant each in order. *)
Fixpoint init_table (todo : list Grant) (grants : GrantTable) : result registry_error GrantTable :=
  match todo with
  | [] => Ok grants
  | g :: todo' => r ← grant grants (claim g) (publisher g); init_table todo' r.2
  end.

Definition split_pair (a b : Grant) : bool :=
  negb (String.eqb (publisher a) (publisher b)) && claims_conflict (claim a) (claim b).

(** The double loop of the transfers: the first pair split across owners. *)
Fixpoint first_split (proposed : list Grant) : option (Grant * Grant) :=
  match proposed with
  | [] => None
  | a :: rest =>
      match List.find (split_pair a) rest with
      | Some b => Some (a, b)
      | None => first_split rest
      end
  end.

Definition accept_proposal {A} (proposed : list Grant) (answer : A) : result registry_error (A * GrantTable) :=
  match first_split proposed with
  | Some (a, b) => Err (Split (claim a) (claim b))
  | None => Ok (answer, proposed)
  end.

(** [proposed[index] = replacement] at the first grant of the claim. *)
Fixpoint replace_claim (grants : GrantTable) (canonical : string) (replacement : Grant) : option GrantTable :=
  match grants with
  | [] => None
  | g :: rest =>
      if String.eqb (claim g) canonical then Some (replacement :: rest)
      else (g ::.) <$> replace_claim rest canonical replacement
  end.

Definition transfer (grants : GrantTable) (c to_publisher : string) : result registry_error (Grant * GrantTable) :=
  let canonical := canonical_claim c in
  let replacement := mkGrant canonical (canonical_name to_publisher) in
  match replace_claim grants canonical replacement with
  | None => Err (NoGrant c)
  | Some proposed => accept_proposal proposed replacement
  end.

Definition nested_in (canonical : string) (g : Grant) : bool :=
  String.eqb (claim g) canonical
  || (is_name canonical
      && (if is_name (claim g) then startswith (canonical +:+ "-") (claim g)
          else claim_covers canonical (claim g))).

Definition moves (canonical owner : string) (g : Grant) : bool :=
  String.eqb (publisher g) owner && nested_in canonical g.

Definition reassign (to : string) (g : Grant) : Grant := mkGrant (claim g) to.

Definition transfer_suite (grants : GrantTable) (root to_publisher : string) :
  result registry_error (list Grant * GrantTable) :=
  let canonical := canonical_claim root in
  let to := canonical_name to_publisher in
  match owner_of grants canonical with
  | None => Err (NoGrant root)
  | Some owner =>
      let moved := map (reassign to) (List.filter (moves canonical owner) grants) in
      let proposed := map (fun g => if moves canonical owner g then reassign to g else g) grants in
      accept_proposal proposed moved
  end.

(** The table's life: granting and transferring, from empty. *)
Inductive registry_step : GrantTable -> GrantTable -> Prop :=
| step_grant t c p g t' : grant t c p = Ok (g, t') -> registry_step t t'
| step_transfer t c p g t' : transfer t c p = Ok (g, t') -> registry_step t t'
| step_suite t c p moved t' : transfer_suite t c p = Ok (moved, t') -> registry_step t t'.

(** * The invariant *)

Definition exclusive (grants : GrantTable) : Prop :=
  forall a b, a ∈ grants -> b ∈ grants -> publisher a <> publisher b ->
  claims_conflict (claim a) (claim b) = false.

(** A recorded claim is canonical, grammatical and outside the reserved roots. *)
Definition claim_ok (c : string) : Prop :=
  canonical_claim c = c /\ reserved_root c = None.

Record table_ok (grants : GrantTable) : Prop := {
  ok_exclusive : exclusive grants;
  ok_claims : Forall (fun g => claim_ok (claim g)) grants;
  ok_distinct : NoDup (map claim grants)
}.

Lemma find_spec {A} (f : A -> bool) l x : List.find f l = Some x -> x ∈ l /\ f x = true.
Proof. intros H. apply List.find_some in H as [H1 H2]. split; [by apply list_elem_of_In|done]. Qed.

Lemma find_None {A} (f : A -> bool) l : List.find f l = None -> Forall (fun x => f x = false) l.
Proof.
  intros H. apply Forall_forall. intros x Hx. by apply (List.find_none f l H), list_elem_of_In.
Qed.

Lemma first_split_None l :
  first_split l = None -> exclusive l.
Proof.
  induction l as [|a l IH]; cbn [first_split]; intros H x y Hx Hy Hne; [by apply not_elem_of_nil in Hx|].
  destruct (List.find (split_pair a) l) as [|] eqn:E; [done|].
  apply find_None in E. rewrite Forall_forall in E.
  assert (Hpair : forall z, z ∈ l -> publisher a <> publisher z -> claims_conflict (claim a) (claim z) = false).
  { intros z Hz Hpz. specialize (E z Hz). unfold split_pair in E.
    destruct (String.eqb_spec (publisher a) (publisher z)); done. }
  apply elem_of_cons in Hx, Hy. destruct Hx as [->|Hx], Hy as [->|Hy]; try done; auto.
  - rewrite conflict_sym. apply Hpair; [done|congruence].
  - by apply (IH H).
Qed.

Lemma first_split_exclusive l : exclusive l -> first_split l = None.
Proof.
  induction l as [|a l IH]; intros Hex; [done|]. cbn [first_split].
  destruct (List.find (split_pair a) l) as [b|] eqn:E.
  - apply find_spec in E as [Hb Hs]. unfold split_pair in Hs. apply andb_true_iff in Hs as [Hp Hc].
    destruct (String.eqb_spec (publisher a) (publisher b)); [done|].
    rewrite (Hex a b) in Hc; [done|set_solver|set_solver|done].
  - apply IH. intros x y Hx Hy. apply Hex; set_solver.
Qed.

Lemma accept_ok {A} proposed (answer a : A) t :
  accept_proposal proposed answer = Ok (a, t) <-> exclusive proposed /\ a = answer /\ t = proposed.
Proof.
  unfold accept_proposal. destruct (first_split proposed) as [[x y]|] eqn:E.
  - split; [done|]. intros (Hex & _). apply first_split_exclusive in Hex. congruence.
  - apply first_split_None in E. split; [by intros [= <- <-]|]. by intros (_ & -> & ->).
Qed.

Lemma reserved_conflict c : 
  reserved_root c = List.find (fun root => claims_conflict root c) RESERVED_NAMESPACES.
Proof.
  unfold reserved_root. induction RESERVED_NAMESPACES as [|r l IH]; [done|]. cbn [List.find].
  destruct (String.eqb_spec c r) as [->|]; cbn [orb]; [by rewrite conflict_refl|].
  destruct (claims_conflict r c); [done|apply IH].
Qed.

Lemma reserved_canonical c : reserved_root (canonical_claim c) = reserved_root c.
Proof.
  rewrite !reserved_conflict. induction RESERVED_NAMESPACES as [|r l IH]; [done|]. cbn [List.find].
  rewrite conflict_canonical_r. destruct (claims_conflict r c); [done|apply IH].
Qed.

Lemma elem_of_conflicting grants c g : g ∈ conflicting grants c <-> g ∈ grants /\ claims_conflict (claim g) c = true.
Proof. unfold conflicting. by rewrite !list_elem_of_In, List.filter_In. Qed.

(** What each answer of [evaluate] says. *)
Lemma evaluate_spec grants c p s :
  evaluate grants c p = Ok s ->
  validate_claim c = None
  /\ match s with
     | DeniedReserved => reserved_root c <> None
     | DeniedTaken => reserved_root c = None /\ exists g, g ∈ grants
         /\ claims_conflict (claim g) (canonical_claim c) = true /\ publisher g <> canonical_name p
     | Granted => reserved_root c = None /\ (exists g, g ∈ grants /\ claim g = canonical_claim c)
         /\ forall g, g ∈ grants -> claims_conflict (claim g) (canonical_claim c) = true -> publisher g = canonical_name p
     | Grantable => reserved_root c = None /\ canonical_claim c ∉ map claim grants
         /\ (exists g, g ∈ grants /\ claims_conflict (claim g) (canonical_claim c) = true)
         /\ forall g, g ∈ grants -> claims_conflict (claim g) (canonical_claim c) = true -> publisher g = canonical_name p
     | Free => reserved_root c = None
         /\ forall g, g ∈ grants -> claims_conflict (claim g) (canonical_claim c) = false
     end.
Proof.
  unfold evaluate. destruct (validate_claim c); [done|]. destruct (reserved_root c); [by intros [= <-]|].
  set (canon := canonical_claim c). set (own := canonical_name p).
  destruct (existsb (other_owner own) _) eqn:Ho.
  { intros [= <-]. apply existsb_spec in Ho as (g & [Hg Hc]%elem_of_conflicting & Hp).
    unfold other_owner in Hp. destruct (String.eqb_spec (publisher g) own); [done|]. eauto 10. }
  rewrite existsb_false in Ho.
  assert (Hown : forall g, g ∈ grants -> claims_conflict (claim g) canon = true -> publisher g = own).
  { intros g Hg Hc. specialize (Ho g). unfold other_owner in Ho.
    destruct (String.eqb_spec (publisher g) own); [done|]. discriminate Ho. by apply elem_of_conflicting. }
  destruct (existsb _ (conflicting _ _)) eqn:He.
  { intros [= <-]. apply existsb_spec in He as (g & [Hg _]%elem_of_conflicting & Heq%String.eqb_eq). eauto 10. }
  rewrite existsb_false in He.
  assert (Hfresh : canon ∉ map claim grants).
  { intros (g & Hgc & Hg)%list_elem_of_fmap. specialize (He g). rewrite <- Hgc, String.eqb_refl in He.
    discriminate He. apply elem_of_conflicting. rewrite Hgc. split; [done|apply conflict_refl]. }
  destruct (conflicting grants canon) as [|g l] eqn:El; intros [= <-].
  - split_and!; [done|done|]. intros g Hg. destruct (claims_conflict (claim g) canon) eqn:Hc; [|done].
    assert (g ∈ conflicting grants canon) as Hin by (by apply elem_of_conflicting).
    rewrite El in Hin. by apply not_elem_of_nil in Hin.
  - split_and!; [done|done|done| |done]. exists g. apply elem_of_conflicting. rewrite El. set_solver.
Qed.

(** [evaluate] answers on every grammatical claim. *)
Lemma evaluate_total grants c p : validate_claim c = None -> exists s, evaluate grants c p = Ok s.
Proof. unfold evaluate. intros ->. repeat (case_match; eauto). Qed.

(** A grant leaves the table alone (an exact claim already held) or appends
    one grant that conflicts with nobody else's. *)
Lemma grant_cases grants c p g t :
  grant grants c p = Ok (g, t) ->
  claim g = canonical_claim c /\ reserved_root c = None
  /\ (forall h, h ∈ grants -> claims_conflict (claim h) (canonical_claim c) = true -> publisher h = canonical_name p)
  /\ publisher g = canonical_name p
  /\ ((t = grants /\ g ∈ grants) \/ (t = grants ++ [g] /\ canonical_claim c ∉ map claim grants)).
Proof.
  unfold grant. intros (s & Hs & H)%bind_ok. apply evaluate_spec in Hs as [_ Hs].
  destruct s; try discriminate H.
  - destruct Hs as (Hr & (h & Hh & Hc) & Hown).
    destruct (List.find _ grants) as [g'|] eqn:E.
    + injection H as <- <-. apply find_spec in E as [Hg Heq%String.eqb_eq].
      split_and!; [done|done|done| |by left]. apply Hown; [done|]. rewrite Heq. apply conflict_refl.
    + apply find_None in E. rewrite Forall_forall in E. specialize (E h Hh). by rewrite Hc, String.eqb_refl in E.
  - injection H as <- <-. destruct Hs as (Hr & Hf & _ & Hown). split_and!; [done..|]. by right.
  - injection H as <- <-. destruct Hs as (Hr & Hfree). split_and!; [done|done| |done|].
    + intros h Hh Hc. by rewrite Hfree in Hc.
    + right. split; [done|]. intros (h & Hhc & Hh)%list_elem_of_fmap. specialize (Hfree h Hh).
      by rewrite <- Hhc, conflict_refl in Hfree.
Qed.

Lemma grant_table_ok grants c p g t : table_ok grants -> grant grants c p = Ok (g, t) -> table_ok t.
Proof.
  intros [Hex Hcl Hnd] (Hg & Hr & Hown & Hp & [[-> _]|[-> Hf]])%grant_cases; [done|].
  split.
  - intros a b Ha Hb Hne. apply elem_of_app in Ha, Hb. rewrite !list_elem_of_singleton in *.
    destruct Ha as [Ha| ->], Hb as [Hb| ->]; [by apply Hex| | |done].
    + rewrite Hg. destruct (claims_conflict (claim a) _) eqn:E; [|done]. apply Hown in E; [|done]. congruence.
    + rewrite conflict_sym, Hg. destruct (claims_conflict (claim b) _) eqn:E; [|done]. apply Hown in E; [|done]. congruence.
  - apply Forall_app. split; [done|]. apply Forall_singleton. rewrite Hg. split; [apply canonical_claim_idem|].
    by rewrite reserved_canonical.
  - rewrite map_app. cbn. rewrite Hg. apply NoDup_app. split; [done|]. split; [|apply NoDup_singleton].
    intros x Hx ->%list_elem_of_singleton. done.
Qed.

Lemma replace_claim_spec grants c r t :
  replace_claim grants c r = Some t -> claim r = c ->
  map claim t = map claim grants /\ forall g, g ∈ t -> g = r \/ g ∈ grants.
Proof.
  revert t. induction grants as [|g grants IH]; intros t; cbn [replace_claim]; [done|].
  destruct (String.eqb_spec (claim g) c) as [Hc|].
  - intros [= <-] Hr. split; [cbn; congruence|]. intros h Hh. set_solver.
  - destruct (replace_claim grants c r) as [t'|]; cbn; [|done]. intros [= <-] Hr.
    destruct (IH t' eq_refl Hr) as [Hm Hin]. split; [cbn; congruence|]. set_solver.
Qed.

(** Claims survive a change of hands. *)
Lemma claims_kept grants t : 
  map claim t = map claim grants -> table_ok grants -> exclusive t -> table_ok t.
Proof.
  intros Hm [_ Hcl Hnd] Hex. split; [done| |by rewrite Hm].
  apply (Forall_map claim claim_ok) in Hcl. apply (Forall_map claim claim_ok). by rewrite Hm.
Qed.

Lemma suite_claims grants c o p :
  map claim (map (fun g => if moves c o g then reassign p g else g) grants) = map claim grants.
Proof. induction grants as [|g l IH]; cbn; [done|]. rewrite IH. by destruct (moves c o g). Qed.

Lemma registry_step_ok t t' : table_ok t -> registry_step t t' -> table_ok t'.
Proof.
  intros Hok Hstep. destruct Hstep as [t c p g t' H|t c p g t' H|t c p moved t' H].
  - by eapply grant_table_ok.
  - unfold transfer in H. destruct (replace_claim _ _ _) as [q|] eqn:E; [|done].
    apply accept_ok in H as (Hex & _ & ->). apply replace_claim_spec in E as [Hm _]; [|done].
    by eapply claims_kept.
  - unfold transfer_suite in H. destruct (owner_of _ _) as [o|]; [|done].
    apply accept_ok in H as (Hex & _ & ->). eapply claims_kept; [apply suite_claims|done|done].
Qed.

Lemma table_ok_nil : table_ok [].
Proof. split; [by intros a b Ha%not_elem_of_nil|constructor|constructor]. Qed.

(** * Nested claims as string prefixes *)

Lemma split_seps_app a b cur :
  (split_seps (a +:+ String dash b) cur).1 = (split_seps a cur).1 ++ (split_seps b "").1.
Proof.
  revert cur. induction a as [|c a IH]; intros cur; rewrite ?str_app_nil_l, ?str_app_cons; cbn [split_seps].
  - change (name_sep dash) with true. cbn. by destruct (split_seps b "").
  - destruct (name_sep c); [|apply IH]. specialize (IH "").
    destruct (split_seps (a +:+ String dash b) ""), (split_seps a ""). cbn in *. congruence.
Qed.

Lemma join_dashes_app l k : l <> [] -> k <> [] ->
  join_dashes (l ++ k) = join_dashes l +:+ String dash (join_dashes k).
Proof.
  intros Hl Hk. induction l as [|a l IH]; [done|]. destruct l as [|b l].
  - cbn [app]. by apply join_dashes_cons.
  - change ((a :: b :: l) ++ k) with (a :: ((b :: l) ++ k)). rewrite join_dashes_cons by done.
    rewrite IH by done. rewrite (join_dashes_cons a (b :: l)) by done. by rewrite str_app_assoc.
Qed.

Lemma canonical_fixed c : is_name c = true -> canonical_claim c = c -> c = join_dashes (folded c).
Proof. intros Hn Hc. unfold canonical_claim in Hc. by rewrite Hn in Hc. Qed.

(** Between canonical names, being nested is being a string extension at a dash. *)
Lemma nested_prefix a b :
  is_name a = true -> is_name b = true -> canonical_claim a = a -> canonical_claim b = b ->
  folded a `prefix_of` folded b <-> b = a \/ startswith (a +:+ "-") b = true.
Proof.
  intros Na Nb Ca Cb. pose proof (canonical_fixed a Na Ca) as Ha. pose proof (canonical_fixed b Nb Cb) as Hb.
  split.
  - intros [k Hk]. destruct k as [|x k].
    + left. rewrite app_nil_r in Hk. congruence.
    + right. apply startswith_spec. exists (join_dashes (x :: k)).
      rewrite Hb, Hk, join_dashes_app by (done || apply folded_nonempty).
      rewrite <- Ha, str_app_assoc. done.
  - intros [->|Hs]; [done|]. apply startswith_spec in Hs as [r Hr].
    unfold folded, name_atoms. rewrite Hr, str_app_assoc, str_app_cons, str_app_nil_l, split_seps_app, map_app.
    by eexists.
Qed.

Lemma nested_in_names c g :
  is_name c = true -> canonical_claim c = c -> is_name (claim g) = true -> canonical_claim (claim g) = claim g ->
  nested_in c g = true <-> folded c `prefix_of` folded (claim g).
Proof.
  intros Nc Cc Ng Cg. unfold nested_in. rewrite Nc, Ng. cbn [andb].
  rewrite nested_prefix by done. rewrite orb_true_iff, String.eqb_eq. done.
Qed.

Lemma owner_of_spec grants c o :
  canonical_claim c = c -> owner_of grants c = Some o ->
  exists g, g ∈ grants /\ claim g = c /\ publisher g = o.
Proof.
  unfold owner_of. intros ->. destruct (List.find _ _) as [g|] eqn:E; cbn; [|done]. intros [= <-].
  apply find_spec in E as [Hg Hc%String.eqb_eq]. eauto.
Qed.

Lemma find_app {A} (f : A -> bool) l k :
  List.find f (l ++ k) = match List.find f l with Some x => Some x | None => List.find f k end.
Proof. induction l as [|x l IH]; cbn; [done|]. by destruct (f x). Qed.

(** * Properties *)

(** In every table the registry can reach by granting and transferring,
    no node type is covered by the grants of two publishers, and no grant
    covers a node type inside a reserved namespace. *)
Theorem grants_exclusive t :
  star registry_step [] t ->
  (forall g h n, g ∈ t -> h ∈ t -> claim_covers (claim g) n = true -> claim_covers (claim h) n = true ->
    publisher g = publisher h)
  /\ (forall g root n, g ∈ t -> root ∈ RESERVED_NAMESPACES ->
    claim_covers root n = true -> claim_covers (claim g) n = false)
  /\ NoDup (map claim t).
Proof.
  intros Hstar. assert (table_ok t) as [Hex Hcl Hnd].
  { eapply star_invariant; [|exact Hstar|exact table_ok_nil]. intros a b Ha Hab. by eapply registry_step_ok. }
  assert (Hcc : forall a b n, claim_covers a n = true -> claim_covers b n = true -> claims_conflict a b = true).
  { intros a b n Ha Hb. destruct (is_name a) eqn:Na, (is_name b) eqn:Nb.
    - apply covers_name in Ha as (_ & Ha & _), Hb as (_ & Hb & _); try done.
      apply conflict_names; [done|done|]. by eapply prefixes_comparable.
    - apply covers_exact in Hb as ->; [|done]. by destruct (conflict_mixed a n Na Nb) as [-> _].
    - apply covers_exact in Ha as ->; [|done]. by destruct (conflict_mixed b n Nb Na) as [_ ->].
    - apply covers_exact in Ha as ->, Hb as ->; try done. apply conflict_refl. }
  split_and!; [| |done].
  - intros g h n Hg Hh Cg Ch. destruct (decide (publisher g = publisher h)) as [|Hne]; [done|].
    specialize (Hex g h Hg Hh Hne). by rewrite (Hcc _ _ n Cg Ch) in Hex.
  - intros g root n Hg Hr Cr. destruct (claim_covers (claim g) n) eqn:Cg; [|done].
    rewrite Forall_forall in Hcl. destruct (Hcl g Hg) as [_ Hres]. rewrite reserved_conflict in Hres.
    apply find_None in Hres. rewrite Forall_forall in Hres. specialize (Hres root Hr). cbn beta in Hres.
    by rewrite (Hcc _ _ n Cr Cg) in Hres.
Qed.

(** [grant] succeeds exactly on a grammatical claim outside the reserved
    roots whose conflicting grants are all the publisher's own; it then
    records the canonical claim under the publisher, changes no other claim's
    owner, and granting it again changes nothing. *)
Theorem grant_decision grants c p :
  (is_ok (grant grants c p) = true <->
    validate_claim c = None /\ reserved_root c = None
    /\ forall g, g ∈ grants -> claims_conflict (claim g) (canonical_claim c) = true -> publisher g = canonical_name p)
  /\ forall g t, grant grants c p = Ok (g, t) ->
      owner_of t c = Some (canonical_name p)
      /\ (forall d, canonical_claim d <> canonical_claim c -> owner_of t d = owner_of grants d)
      /\ grant t c p = Ok (g, t).
Proof.
  split.
  - split.
    + destruct (grant grants c p) as [[g t]|] eqn:E; [|done]. intros _.
      pose proof E as E'. unfold grant in E'. apply bind_ok in E' as (s & Hs & _).
      apply evaluate_spec in Hs as [Hv _]. apply grant_cases in E as (_ & Hr & Hown & _). done.
    + intros (Hv & Hr & Hown). destruct (evaluate_total grants c p Hv) as [s Hs].
      unfold grant. rewrite Hs. cbn [mbind result_bind]. apply evaluate_spec in Hs as [_ Hs].
      destruct s; cbn; try done; [by destruct (List.find _ _)|].
      destruct Hs as (_ & g & Hg & Hc & Hp). by destruct Hp; apply Hown.
  - intros g t Hg. pose proof Hg as Hc. apply grant_cases in Hc as (Hcl & Hr & Hown & Hp & Hcase).
    assert (Hv : validate_claim c = None).
    { unfold grant in Hg. apply bind_ok in Hg as (s & Hs & _). by apply evaluate_spec in Hs as [? _]. }
    assert (Hother : forall h, h ∈ t -> claims_conflict (claim h) (canonical_claim c) = true -> publisher h = canonical_name p).
    { intros h Hh Hch. destruct Hcase as [[-> _]|[-> _]]; [auto|].
      apply elem_of_app in Hh as [Hh|Hh]; [auto|]. apply list_elem_of_singleton in Hh as ->. auto. }
    assert (Hin : g ∈ t) by (destruct Hcase as [[-> Hgin]|[-> _]]; [done|set_solver]).
    assert (Hfind : exists h, List.find (fun x => String.eqb (claim x) (canonical_claim c)) t = Some h
                    /\ h ∈ t /\ claim h = canonical_claim c).
    { destruct (List.find _ t) as [h|] eqn:E.
      - exists h. apply find_spec in E as [? ?%String.eqb_eq]. done.
      - apply find_None in E. rewrite Forall_forall in E. specialize (E g Hin). by rewrite Hcl, String.eqb_refl in E. }
    destruct Hfind as (h & Hfh & Hht & Hhc).
    assert (Hhp : publisher h = canonical_name p) by (apply Hother; [done|rewrite Hhc; apply conflict_refl]).
    assert (h = g) as ->. { destruct h, g; cbn in *; congruence. }
    split_and!.
    + unfold owner_of. rewrite Hfh. cbn. by rewrite Hhp.
    + intros d Hd. unfold owner_of. destruct Hcase as [[-> _]|[-> _]]; [done|].
      rewrite find_app. destruct (List.find _ grants); [done|]. cbn. rewrite Hcl.
      destruct (String.eqb_spec (canonical_claim c) (canonical_claim d)); [congruence|done].
    + destruct (evaluate_total t c p Hv) as [s Hs]. unfold grant. rewrite Hs. cbn [mbind result_bind].
      apply evaluate_spec in Hs as [_ Hs]. destruct s.
      * by rewrite Hfh.
      * destruct Hs as (_ & Hf & _). destruct Hf. rewrite <- Hhc. by apply list_elem_of_fmap_2.
      * destruct Hs as (_ & Hf). specialize (Hf g Hht). by rewrite Hhc, conflict_refl in Hf.
      * by destruct Hs.
      * destruct Hs as (_ & x & Hx & Hxc & Hxp). by destruct Hxp; apply Hother.
Qed.

(** A suite of namespaces changes hands whole: when the owner of the root
    holds only namespace claims and none that encloses the root, the transfer
    succeeds, gives the new publisher exactly the owner's grants at or below
    the root, and leaves every other grant, every claim and the order alone. *)
Theorem suite_transfer_succeeds t root o to :
  table_ok t -> is_name root = true -> owner_of t root = Some o ->
  (forall g, g ∈ t -> publisher g = o -> is_name (claim g) = true) ->
  (forall g, g ∈ t -> publisher g = o -> folded (claim g) `prefix_of` folded root ->
    claim g = canonical_claim root) ->
  exists moved t', transfer_suite t root to = Ok (moved, t')
    /\ map claim t' = map claim t
    /\ forall i g, t !! i = Some g ->
        t' !! i = Some (if bool_decide (publisher g = o /\ folded root `prefix_of` folded (claim g))
                        then mkGrant (claim g) (canonical_name to) else g).
Proof.
  intros [Hex Hcl Hnd] Nroot Howner Hnames Htop.
  set (c := canonical_claim root) in *.
  assert (Nc : is_name c = true) by (unfold c; by rewrite is_name_canonical_claim).
  assert (Cc : canonical_claim c = c) by apply canonical_claim_idem.
  assert (Fc : folded c = folded root) by (unfold c, canonical_claim; rewrite Nroot; by apply folded_canonical).
  rewrite Forall_forall in Hcl.
  assert (Hmoves : forall g, g ∈ t -> moves c o g = true <-> publisher g = o /\ folded root `prefix_of` folded (claim g)).
  { intros g Hg. unfold moves. rewrite andb_true_iff, String.eqb_eq. split; intros [Hp H]; (split; [done|]).
    - rewrite <- Fc. apply nested_in_names; try done; [by apply Hnames|by apply Hcl].
    - apply nested_in_names; try done; [by apply Hnames|by apply Hcl|by rewrite Fc]. }
  unfold transfer_suite. fold c.
  replace (owner_of t c) with (Some o).
  2: { rewrite <- Howner. unfold owner_of. by rewrite Cc. }
  eexists _, _. split; [apply accept_ok; split; [|done]|split; [apply suite_claims|]].
  - intros a b (a' & -> & Ha)%list_elem_of_fmap (b' & -> & Hb)%list_elem_of_fmap Hne.
    (* a moved and an unmoved grant of the owner never conflict *)
    assert (Hkey : forall x y, x ∈ t -> y ∈ t -> publisher x = o -> publisher y = o ->
              moves c o x = true -> moves c o y = false -> claims_conflict (claim x) (claim y) = false).
    { intros x y Hx Hy Px Py Mx My. destruct (claims_conflict (claim x) (claim y)) eqn:E; [|done].
      apply Hmoves in Mx as [_ Mx]; [|done]. exfalso.
      assert (~ folded root `prefix_of` folded (claim y)) as Hny by (intros H; rewrite (proj2 (Hmoves y Hy)) in My; done).
      apply conflict_names in E as [E|E]; try (by apply Hnames); [apply Hny; by etrans|].
      destruct (prefixes_comparable _ _ _ Mx E) as [H|H]; [done|].
      apply Hny. apply Htop in H; try done. rewrite H, Fc. done. }
    destruct (moves c o a') eqn:Ma, (moves c o b') eqn:Mb; cbn in *; [done| | |by apply Hex].
    + apply Hmoves in Ma as Pa; [|done]. destruct Pa as [Pa _].
      destruct (decide (publisher b' = o)) as [Pb|Pb]; [by apply Hkey|]. apply Hex; [done|done|congruence].
    + apply Hmoves in Mb as Pb; [|done]. destruct Pb as [Pb _].
      destruct (decide (publisher a' = o)) as [Pa|Pa]; [rewrite conflict_sym; by apply Hkey|]. apply Hex; [done|done|congruence].
  - intros i g Hi.
    etrans; [exact (list_lookup_fmap (fun g => if moves c o g then reassign (canonical_name to) g else g) t i)|].
    change (@lookup nat Grant (list Grant) _ i t = Some g) in Hi. rewrite Hi. cbn. f_equal.
    assert (g ∈ t) as Hg by by eapply list_elem_of_lookup_2.
    destruct (moves c o g) eqn:M.
    + rewrite bool_decide_true; [done|by apply Hmoves].
    + rewrite bool_decide_false; [done|]. intros H. apply Hmoves in H; [congruence|done].
Qed.

(** * The hole beside the suite rule *)

(** A suite that [transfer_suite] cannot move from any root: the exact node
    id [img-extra.Blur] is covered by [img-extra] and not by [img], so a
    transfer rooted at [img] leaves it behind and splits it from [img-extra],
    and a transfer rooted at [img-extra] splits that from [img]. *)
Definition stuck_table : GrantTable :=
  [mkGrant "img" "acme"; mkGrant "img-extra" "acme"; mkGrant "img-extra.Blur" "acme"].

Lemma stuck_table_reachable :
  init_table [mkGrant "img" "acme"; mkGrant "img-extra" "acme"; mkGrant "img-extra.Blur" "acme"] [] = Ok stuck_table.
Proof. vm_compute. reflexivity. Qed.

Lemma suite_with_exact_node_is_stuck :
  Forall (fun g => is_ok (transfer_suite stuck_table (claim g) "zen") = false
                   /\ is_ok (transfer stuck_table (claim g) "zen") = false) stuck_table.
Proof. repeat constructor; vm_compute; reflexivity. Qed.

(** * Witnesses *)

Definition demo_table : GrantTable :=
  [mkGrant "img" "acme"; mkGrant "img-extra" "acme"; mkGrant "audio" "zen"].

Lemma demo_table_steps : star registry_step [] demo_table.
Proof.
  eapply star_step; [by apply (step_grant [] "img" "acme" (mkGrant "img" "acme")); vm_compute|].
  eapply star_step; [by apply (step_grant _ "img.extra" "Acme" (mkGrant "img-extra" "acme")); vm_compute|].
  apply star_one. by apply (step_grant _ "audio" "zen" (mkGrant "audio" "zen")); vm_compute.
Qed.

Lemma demo_table_ok : table_ok demo_table.
Proof.
  eapply star_invariant; [|exact demo_table_steps|exact table_ok_nil].
  intros a b Ha Hab. by eapply registry_step_ok.
Qed.

Lemma grants_exclusive_witness :
  claim_covers "img-extra" "img.extra.blur" = true /\ NoDup (map claim demo_table).
Proof. split; [reflexivity|]. apply (grants_exclusive demo_table demo_table_steps). Defined.

Lemma grant_decision_witness :
  owner_of (demo_table ++ [mkGrant "img-fast" "acme"]) "img.fast" = Some "acme".
Proof.
  refine (proj1 (proj2 (grant_decision demo_table "img.fast" "acme") (mkGrant "img-fast" "acme") _ _)).
  vm_compute. reflexivity.
Defined.

Lemma suite_transfer_succeeds_witness :
  exists moved t', transfer_suite demo_table "img" "zen" = Ok (moved, t').
Proof.
  destruct (suite_transfer_succeeds demo_table "img" "acme" "zen" demo_table_ok eq_refl eq_refl)
    as (moved & t' & H & _).
  - intros g Hg Hp. repeat (apply elem_of_cons in Hg as [->|Hg]; [reflexivity || discriminate Hp|]).
    by apply not_elem_of_nil in Hg.
  - intros g Hg Hp [k Hk]. repeat (apply elem_of_cons in Hg as [->|Hg]; [vm_compute in Hk; try discriminate Hk; reflexivity || discriminate Hp|]).
    by apply not_elem_of_nil in Hg.
  - exists moved, t'. exact H.
Defined.
