(* ===== verification/Widgets.v ===== *)
(** Widgets: input presentation descriptors (dinkster_schema/model.py,
    [SourceFilenameSpec] to [_validate_widget_binding]): their records, the
    checks each construction runs, the value domain they share, and the
    binding of a widget to its socket's type.

    Fields are taken at their declared types, so the source's [isinstance]
    checks of a field against its own annotation hold by construction; an
    error carries the fixed part of the source's message. *)
From S2P Require Import Prelude PyStr Names TypeIds TypeExprs.
From Stdlib Require Import Ascii SpecFloat.

Local Open Scope string_scope.
Local Open Scope Z_scope.
Local Open Scope list_scope.

Abbreviation checked := (result string unit).

(** * Numbers *)

(** What an [int | float | bool] field holds. *)
Inductive pynum := PyBool (b : bool) | PyInt (z : Z) | PyFloat (f : spec_float).

#[export] Instance spec_float_eq_dec : EqDecision spec_float.
Proof. intros x y. unfold Decision. decide equality; try apply Z.eq_dec; try apply Bool.bool_dec; apply Pos.eq_dec. Defined.

#[export] Instance pynum_eq_dec : EqDecision pynum.
Proof. solve_decision. Defined.

(** [math.isfinite]. *)
Definition float_finite (f : spec_float) : bool :=
  match f with S754_zero _ | S754_finite _ _ _ => true | _ => false end.

(** The exact value of a finite number, a mantissa and a binary exponent. *)
Definition dyadic (n : pynum) : Z * Z :=
  match n with
  | PyBool b => (Z.b2z b, 0)
  | PyInt z => (z, 0)
  | PyFloat (S754_finite s m e) => (if s then Zneg m else Zpos m, e)
  | PyFloat _ => (0, 0)
  end.

(** Python compares an int and a float exactly. *)
Definition num_compare (a b : pynum) : comparison :=
  let '(m1, e1) := dyadic a in
  let '(m2, e2) := dyadic b in
  let e := Z.min e1 e2 in
  (m1 * 2 ^ (e1 - e) ?= m2 * 2 ^ (e2 - e)).

Definition num_le (a b : pynum) : bool := match num_compare a b with Gt => false | _ => true end.
Definition num_lt (a b : pynum) : bool := match num_compare a b with Lt => true | _ => false end.

(** [bound == int(bound)] of a finite number. *)
Definition num_integral (n : pynum) : bool :=
  let '(m, e) := dyadic n in (0 <=? e) || (m mod 2 ^ (- e) =? 0).

Definition num_finite (n : pynum) : bool :=
  match n with PyFloat f => float_finite f | _ => true end.

Definition JSON_SAFE_INT : Z := 2 ^ 53 - 1.
Definition DECIMAL_WIRE_INT_MIN : Z := - 2 ^ 63.
Definition DECIMAL_WIRE_INT_MAX : Z := 2 ^ 64 - 1.

Definition num_abs_le (n : pynum) (bound : Z) : bool :=
  num_le n (PyInt bound) && num_le (PyInt (- bound)) n.

(** * Identifiers *)

(** [[A-Za-z0-9_-]] *)
Definition structural_char (c : ascii) : bool := alnum c || Ascii.eqb c underscore || Ascii.eqb c dash.

(** [STRUCTURAL_ID_PATTERN.fullmatch]. *)
Definition structural_fullmatch (s : string) : bool := negb (String.eqb s "") && str_all structural_char s.

(** [STRUCTURAL_ID_PATTERN.match]: [$] also matches before a final newline. *)
Definition structural_match (s : string) : bool :=
  structural_fullmatch s
  || (endswith (String "010" "") s && structural_fullmatch (str_take (String.length s - 1) s)).

Definition validate_structural_id (value field_name : string) : checked :=
  raise_if (negb (structural_fullmatch value)) (field_name +:+ " must match [A-Za-z0-9_-]+").

Definition REMOTE_CHOICE_ROUTE_PREFIX : string := "/api/choices/".

(** [_remote_choice_id]: the id after the one canonical prefix. *)
Definition remote_choice_id (route : string) : result string string :=
  let choice_id :=
    if startswith REMOTE_CHOICE_ROUTE_PREFIX route
    then str_drop (String.length REMOTE_CHOICE_ROUTE_PREFIX) route else route in
  raise_if (negb (startswith REMOTE_CHOICE_ROUTE_PREFIX route)
            || negb (String.eqb route (REMOTE_CHOICE_ROUTE_PREFIX +:+ choice_id))
            || negb (is_name choice_id)) "combo widget remote route must be canonical";;
  Ok choice_id.

(** [ASSET_KIND_PATTERN]: two or more segments of [[a-z0-9-]], none starting
    with a dash. *)
Definition kind_segment (s : string) : bool :=
  match s with
  | EmptyString => false
  | String c s' => lower_alnum c && str_all (fun d => lower_alnum d || Ascii.eqb d dash) s'
  end.

Definition asset_kind_fullmatch (s : string) : bool :=
  let segments := str_split "/" s in
  (2 <=? length segments)%nat && forallb kind_segment segments.

(** * Descriptors *)

Record SourceFilenameSpec := mkSourceFilename { sf_kind : string; sf_category : string }.

Record AssetWidget := mkAssetWidget {
  aw_accept : list string; aw_kind : string; aw_allow_upload : bool; aw_selection : bool }.

Record SaveTargetWidget := mkSaveTargetWidget { st_suffix : string }.

Record ComboOption := mkComboOption {
  co_value : pyval; co_label : option string; co_info : option string; co_folder : option string }.

(** An entry of a static option list: a bare value or a described one. *)
Inductive combo_entry := Bare (v : pyval) | Described (o : ComboOption).

Record InputFamilyOptionSource := mkOptionSource { input_family : string }.

Record RemotePolicy := mkRemotePolicy {
  control_after_refresh : option string;
  remote_timeout_ms : option Z;
  remote_max_retries : option Z;
  remote_refresh_ms : option Z }.

Record ComboWidget := mkComboWidget {
  cw_options : list combo_entry;
  cw_option_source : option InputFamilyOptionSource;
  cw_remote_route : string;
  cw_refresh_button : bool;
  cw_control_after_generate : option string;
  cw_policy : RemotePolicy;
  cw_editable_options : bool }.

Record MultiComboWidget := mkMultiComboWidget {
  mc_options : list combo_entry;
  mc_remote_route : string;
  mc_refresh_button : bool;
  mc_policy : RemotePolicy;
  mc_placeholder : option string;
  mc_chip : option bool }.

Record BooleanWidget := mkBooleanWidget { label_on : string; label_off : string }.

Record NumberWidget := mkNumberWidget {
  nw_min : option pynum; nw_max : option pynum; nw_step : option pynum;
  nw_control_after_generate : option string; nw_display : option string; nw_round : option pynum }.

Record TextCompletionItem := mkTextCompletionItem {
  tc_value : string; tc_label : string; tc_insert_text : string; tc_detail : string; tc_kind : string }.

Record TextCompletions := mkTextCompletions {
  tc_items : list TextCompletionItem; tc_input_families : list string }.

Record StringWidget := mkStringWidget {
  sw_multiline : option bool; sw_placeholder : option string;
  sw_dynamic_prompts : option bool; sw_completions : option TextCompletions }.

(** A pack's own widget: its type; the JSON parameters are presentation only. *)
Record CustomWidgetDescriptor := mkCustomWidget { widget_type : string }.

Inductive WidgetDescriptor :=
| WCustom (w : CustomWidgetDescriptor)
| WAsset (w : AssetWidget)
| WMount
| WSaveTarget (w : SaveTargetWidget)
| WCombo (w : ComboWidget)
| WMultiCombo (w : MultiComboWidget)
| WBoolean (w : BooleanWidget)
| WNumber (w : NumberWidget)
| WString (w : StringWidget)
| WColor
| WCurve
| WCompositor.

Record WidgetRepresentation := mkRepresentation {
  wr_id : string; wr_widget : WidgetDescriptor; wr_display_name : string }.

Record WidgetRepresentations := mkRepresentations {
  representations : list WidgetRepresentation; wr_default : string; user_switchable : bool }.

Inductive Widget := Single (w : WidgetDescriptor) | Named (r : WidgetRepresentations).

(** * Construction checks *)

Definition SOURCE_FILENAME_KINDS : list string :=
  ["media/image"; "media/audio"; "media/video"; "data/latent"; "media/model3d"].
Definition SOURCE_FILENAME_CATEGORIES : list string := ["input"; "output"; "temp"].
Definition CONTROL_AFTER_GENERATE : list string := ["fixed"; "increment"; "decrement"; "randomize"].

Definition str_in (s : string) (l : list string) : bool := bool_decide (s ∈ l).

(** [field is not None and field not in allowed]. *)
Definition outside (o : option string) (allowed : list string) : bool :=
  match o with Some s => negb (str_in s allowed) | None => false end.

Definition present {A} (o : option A) : bool := negb (is_None o).

Definition source_filename_post_init (self : SourceFilenameSpec) : checked :=
  raise_if (negb (str_in (sf_kind self) SOURCE_FILENAME_KINDS)) "source filename kind must be one of";;
  raise_if (negb (str_in (sf_category self) SOURCE_FILENAME_CATEGORIES))
    "source filename category must be one of".

Definition asset_post_init (self : AssetWidget) : checked :=
  raise_if (existsb empty_str (aw_accept self)) "asset widget accept entries must be non-empty";;
  raise_if (negb (empty_str (aw_kind self)) && negb (asset_kind_fullmatch (aw_kind self)))
    "asset widget kind must be a namespaced asset kind";;
  raise_if (aw_selection self
            && (negb (str_in (aw_kind self) ["model/vae"; "model/diffusers"; "directory/input"; "directory/dataset"])
                || aw_allow_upload self))
    "asset selection requires a supported exact kind and forbids upload".

Definition backslash : ascii := "\"%char.
Definition slash : ascii := "/"%char.

Definition save_target_post_init (self : SaveTargetWidget) : checked :=
  let s := st_suffix self in
  if empty_str s then Ok tt
  else raise_if (negb (startswith "." s) || str_has slash s || str_has backslash s)
         "save target widget suffix must be a bare extension".

(** A non-empty string (unless [strings_only] is what is asked), a boolean, a
    JSON-safe integer or a finite float. *)
Definition choice_value (v : pyval) : bool :=
  match v with
  | VStr s => negb (empty_str s)
  | VBool _ => true
  | VInt z => Z.abs z <=? JSON_SAFE_INT
  | VFloat f => float_finite f
  | _ => false
  end.

Definition nonempty_or_none (o : option string) : bool :=
  match o with Some s => negb (empty_str s) | None => true end.

Definition combo_option_post_init (self : ComboOption) : checked :=
  raise_if (negb (choice_value (co_value self))) "combo option value must be a choice value";;
  raise_if (negb (nonempty_or_none (co_label self))) "combo option label must be a non-empty string";;
  raise_if (negb (nonempty_or_none (co_info self))) "combo option info must be a non-empty string";;
  match co_folder self with
  | None => Ok tt
  | Some folder =>
      raise_if (empty_str folder || str_has backslash folder)
        "combo option folder must be a relative /-separated path";;
      raise_if (existsb (fun s => str_in s [""; "."; ".."]) (str_split slash folder))
        "combo option folder must contain non-empty segments other than '.' or '..'"
  end.

Definition is_str (v : pyval) : bool := match v with VStr _ => true | _ => false end.

Definition static_option_ok (strings_only : bool) (o : combo_entry) : bool :=
  match o with
  | Described c => negb strings_only || is_str (co_value c)
  | Bare v => choice_value v && (negb strings_only || is_str v)
  end.

Definition validate_static_combo_options (options : list combo_entry) (subject : string) (strings_only : bool) : checked :=
  raise_if (negb (forallb (static_option_ok strings_only) options)) (subject +:+ " options must be choice values").

Definition bounded_or_none (o : option Z) (lower upper : Z) : bool :=
  match o with Some z => (lower <=? z) && (z <=? upper) | None => true end.

(** The remote-policy checks the two combo widgets share, in their order. *)
Definition check_remote_policy (subject route : string) (refresh_button : bool) (p : RemotePolicy) : checked :=
  raise_if ((present (control_after_refresh p) || present (remote_timeout_ms p)
             || present (remote_max_retries p) || present (remote_refresh_ms p)) && empty_str route)
    (subject +:+ " remote policy requires a remote route");;
  raise_if (outside (control_after_refresh p) ["first"; "last"])
    (subject +:+ " control_after_refresh must be 'first' or 'last'");;
  raise_if (present (control_after_refresh p) && negb refresh_button)
    (subject +:+ " control_after_refresh requires a refresh button");;
  raise_if (negb (bounded_or_none (remote_timeout_ms p) 1 60000)) (subject +:+ " remote_timeout_ms must be an integer in 1..60000");;
  raise_if (negb (bounded_or_none (remote_max_retries p) 0 5)) (subject +:+ " remote_max_retries must be an integer in 0..5");;
  raise_if (negb (bounded_or_none (remote_refresh_ms p) 0 86400000))
    (subject +:+ " remote_refresh_ms must be an integer in 0..86400000").

Definition check_route (route : string) : checked :=
  if empty_str route then Ok tt else remote_choice_id route;; Ok tt.

Definition option_source_post_init (self : InputFamilyOptionSource) : checked :=
  validate_structural_id (input_family self) "combo option source input family".

Definition combo_post_init (self : ComboWidget) : checked :=
  let route := cw_remote_route self in
  let sourced := present (cw_option_source self) in
  validate_static_combo_options (cw_options self) "combo widget" false;;
  raise_if (cw_editable_options self && (sourced || negb (empty_str route)))
    "editable combo options cannot have another option source";;
  raise_if (sourced && (negb (is_nil (cw_options self)) || negb (empty_str route)))
    "combo widget input-family option source cannot be combined with static or remote options";;
  check_route route;;
  raise_if (is_nil (cw_options self) && empty_str route && negb sourced && negb (cw_editable_options self))
    "combo widget needs static options, a remote route, or an input-family option source";;
  raise_if (cw_refresh_button self && empty_str route) "combo widget refresh button requires a remote route";;
  check_remote_policy "combo widget" route (cw_refresh_button self) (cw_policy self);;
  raise_if (outside (cw_control_after_generate self) CONTROL_AFTER_GENERATE)
    "combo widget control_after_generate must be one of".

Definition multi_combo_post_init (self : MultiComboWidget) : checked :=
  let route := mc_remote_route self in
  validate_static_combo_options (mc_options self) "multi combo widget" true;;
  check_route route;;
  raise_if (is_nil (mc_options self) && empty_str route)
    "multi combo widget needs static options, a remote route, or both";;
  raise_if (mc_refresh_button self && empty_str route) "multi combo widget refresh button requires a remote route";;
  check_remote_policy "multi combo widget" route (mc_refresh_button self) (mc_policy self).

Definition boolean_post_init (self : BooleanWidget) : checked :=
  raise_if (empty_str (label_on self) && empty_str (label_off self)) "boolean widget needs at least one custom label".

(** One round of the loop over [min], [max] and [step]. *)
Definition check_bound (name : string) (bound : option pynum) : checked :=
  match bound with
  | None => Ok tt
  | Some b =>
      raise_if (match b with PyBool _ => true | _ => false end) ("number widget " +:+ name +:+ " must be a number");;
      raise_if (negb (num_finite b)) ("number widget " +:+ name +:+ " must be finite");;
      raise_if (match b with PyInt z => negb ((DECIMAL_WIRE_INT_MIN <=? z) && (z <=? DECIMAL_WIRE_INT_MAX)) | _ => false end)
        ("number widget " +:+ name +:+ " must fit the supported integer range")
  end.

Definition round_ok (round : option pynum) : bool :=
  match round with
  | None | Some (PyBool false) => true
  | Some (PyBool true) => false
  | Some r => num_finite r && num_lt (PyInt 0) r
  end.

Definition number_post_init (self : NumberWidget) : checked :=
  raise_if (is_None (nw_min self) && is_None (nw_max self) && is_None (nw_step self) && is_None (nw_round self)
            && is_None (nw_control_after_generate self) && is_None (nw_display self))
    "number widget needs at least one constraint, display, or the control-after-generate mode";;
  check_bound "min" (nw_min self);;
  check_bound "max" (nw_max self);;
  check_bound "step" (nw_step self);;
  raise_if (negb (round_ok (nw_round self))) "number widget round must be False or a finite positive number";;
  raise_if (match nw_min self, nw_max self with Some lo, Some hi => negb (num_le lo hi) | _, _ => false end)
    "number widget min must not exceed max";;
  raise_if (match nw_step self with Some s => num_le s (PyInt 0) | None => false end)
    "number widget step must be positive";;
  raise_if (outside (nw_control_after_generate self) CONTROL_AFTER_GENERATE)
    "number widget control_after_generate must be one of";;
  raise_if (outside (nw_display self) ["number"; "slider"; "knob"; "gradientslider"; "color"])
    "number widget display must be one of".

Definition completion_item_post_init (self : TextCompletionItem) : checked :=
  raise_if (empty_str (tc_value self)) "text completion value must be a non-empty string";;
  raise_if (negb (str_in (tc_kind self) ["identifier"; "operator"])) "text completion kind must be 'identifier' or 'operator'".

Definition has_dup (l : list string) : bool := negb (bool_decide (NoDup l)).

Definition completions_post_init (self : TextCompletions) : checked :=
  raise_if (is_nil (tc_items self) && is_nil (tc_input_families self)) "text completions need at least one item or input family";;
  raise_if (has_dup (tc_input_families self)) "text completion input_families must be unique";;
  foldr (fun f k => validate_structural_id f "text completion input family";; k) (Ok tt) (tc_input_families self).

Definition string_post_init (self : StringWidget) : checked :=
  raise_if (is_None (sw_multiline self) && is_None (sw_placeholder self) && is_None (sw_dynamic_prompts self)
            && is_None (sw_completions self)) "string widget needs at least one presentation field".

Definition RESERVED_WIDGET_TYPES : list string :=
  ["ASSET"; "BOOLEAN"; "COLOR"; "COMBO"; "COMPOSITOR"; "CURVE"; "MOUNT"; "MULTI_COMBO"; "NUMBER";
   "REPRESENTATIONS"; "SAVE_TARGET"; "STRING"].

Definition custom_post_init (self : CustomWidgetDescriptor) : checked :=
  raise_if (empty_str (widget_type self)) "custom widget type must be a non-empty string";;
  raise_if (str_in (widget_type self) RESERVED_WIDGET_TYPES) "custom widget type is reserved".

(** The checks of whichever class a descriptor is. *)
Definition descriptor_post_init (w : WidgetDescriptor) : checked :=
  match w with
  | WCustom c => custom_post_init c
  | WAsset a => asset_post_init a
  | WSaveTarget t => save_target_post_init t
  | WCombo c => combo_post_init c
  | WMultiCombo c => multi_combo_post_init c
  | WBoolean b => boolean_post_init b
  | WNumber n => number_post_init n
  | WString s => string_post_init s
  | WMount | WColor | WCurve | WCompositor => Ok tt
  end.

(** * Named representations *)

Definition widget_value_domain (w : WidgetDescriptor) : string :=
  match w with
  | WCustom c => widget_type c
  | WAsset a => if aw_selection a then "asset-selection" else "asset"
  | WSaveTarget _ => "save-target"
  | WCombo _ => "combo"
  | WMultiCombo _ => "multi-combo"
  | WBoolean _ => "boolean"
  | WNumber _ => "number"
  | WColor => "string"
  | WCurve => "curve"
  | WCompositor => "compositor"
  | WMount | WString _ => "string"
  end.

Definition representation_post_init (self : WidgetRepresentation) : checked :=
  validate_structural_id (wr_id self) "widget representation id".

(** [len({...}) != 1]. *)
Definition singleton_set (l : list string) : bool := (size (list_to_set l : gset string) =? 1)%nat.

Definition asset_kind_of (w : WidgetDescriptor) : option string :=
  match w with WAsset a => Some (aw_kind a) | _ => None end.

(** [cast("AssetWidget", item.widget).kind] of each; a widget of another class
    in the asset domain has no [kind] and raises AttributeError. *)
Definition representations_post_init (self : WidgetRepresentations) : checked :=
  let items := representations self in
  let ids := map wr_id items in
  let domains := map (fun i => widget_value_domain (wr_widget i)) items in
  raise_if (is_nil items) "widget representations must not be empty";;
  raise_if (has_dup ids) "widget representation ids must be unique";;
  raise_if (negb (singleton_set domains)) "widget representations must share one canonical value domain";;
  (if bool_decide ((list_to_set domains : gset string) = {["asset"]}) then
     match mapM (fun i => asset_kind_of (wr_widget i)) items with
     | Some kinds => raise_if (negb (singleton_set kinds)) "asset widget representations must share one asset kind"
     | None => Err "AttributeError: kind"
     end
   else Ok tt);;
  raise_if (negb (str_in (wr_default self) ids)) "widget representations default must name a declared representation".

Definition default_representation (self : WidgetRepresentations) : option WidgetRepresentation :=
  List.find (fun item => String.eqb (wr_id item) (wr_default self)) (representations self).

(** * Binding a widget to its socket *)

Definition CORE_INT : string := "INT".
Definition CORE_FLOAT : string := "FLOAT".
Definition CORE_STRING : string := "STRING".
Definition CORE_COMBO : string := "COMBO".
Definition CORE_BOOLEAN : string := "BOOLEAN".
Definition FLOATS_TYPE : string := "FLOATS".
Definition COLOR_TYPE : string := "COLOR".
Definition CURVE_TYPE : string := "CURVE".
Definition COMPOSITOR_TYPE : string := "COMPOSITOR".
Definition ASSET_TYPE : string := "ASSET".
Definition SAVE_TARGET_TYPE : string := "SAVE_TARGET".

Definition concrete_of (type_id : string) : TypeExpr := mkTypeExpr KConcrete [type_id] "" None [] "" None.
Definition list_of_concrete (type_id : string) : TypeExpr :=
  mkTypeExpr KList [] "" (Some (concrete_of type_id)) [] "" None.

Definition is_type (e : TypeExpr) (type_id : string) : bool := bool_decide (e = concrete_of type_id).

(** [kind == 'union' and set(types) == {a, b}]. *)
Definition is_union_of (e : TypeExpr) (a b : string) : bool :=
  bool_decide (kind e = KUnion) && bool_decide ((list_to_set (types e) : gset string) = {[a; b]}).

Definition primitive_type (e : TypeExpr) : TypeExpr :=
  if bool_decide (kind e = KList) then default e (element e) else e.

Definition number_socket (input_type : TypeExpr) (force_input : bool) : option string :=
  let p := primitive_type input_type in
  let socket := if bool_decide (kind p = KConcrete) then head (types p) else None in
  let socket := if is_union_of input_type CORE_INT CORE_FLOAT then Some CORE_FLOAT else socket in
  if force_input && is_type input_type FLOATS_TYPE then Some CORE_FLOAT else socket.

Definition int_bound_ok (b : option pynum) : checked :=
  match b with
  | None => Ok tt
  | Some n =>
      raise_if (negb (num_integral n)) "number widget bound must be integral on a INT input";;
      raise_if (match n with PyFloat _ => negb (num_abs_le n JSON_SAFE_INT) | _ => false end)
        "number widget bound must be exactly representable on a INT input"
  end.

Definition float_bound_ok (b : option pynum) : checked :=
  raise_if (match b with
            | Some (PyFloat _) | None => false
            | Some n => negb (num_abs_le n JSON_SAFE_INT)
            end) "number widget bound must use a float outside the safe integer range on a FLOAT input".

Definition number_binding (input_type : TypeExpr) (force_input : bool) (w : NumberWidget) : checked :=
  let socket := number_socket input_type force_input in
  raise_if (negb (bool_decide (socket = Some CORE_INT) || bool_decide (socket = Some CORE_FLOAT)))
    "number widget requires a concrete INT or FLOAT input, their scalar union, or forced FLOATS";;
  (if bool_decide (socket = Some CORE_INT)
   then int_bound_ok (nw_min w);; int_bound_ok (nw_max w);; int_bound_ok (nw_step w) else Ok tt);;
  (if bool_decide (socket = Some CORE_FLOAT)
   then float_bound_ok (nw_min w);; float_bound_ok (nw_max w);; float_bound_ok (nw_step w) else Ok tt);;
  raise_if (present (nw_round w) && negb (bool_decide (socket = Some CORE_FLOAT)))
    "number widget round requires a concrete FLOAT input".

Definition asset_binding (input_type : TypeExpr) (w : AssetWidget) : checked :=
  let selection_union := aw_selection w && String.eqb (aw_kind w) "model/vae"
                         && is_union_of input_type CORE_COMBO ASSET_TYPE in
  raise_if (aw_selection w && negb (is_type input_type CORE_COMBO || selection_union))
    "asset selection requires a scalar COMBO input or the model/vae COMBO/ASSET union";;
  raise_if (negb (selection_union || is_type input_type ASSET_TYPE
                  || (bool_decide (kind input_type = KAsset) && present (runtime_type_id input_type))
                  || bool_decide (kind input_type = KConcrete)
                  || (aw_allow_upload w && bool_decide (input_type = list_of_concrete ASSET_TYPE))))
    "asset widget requires a concrete scalar, bare asset, upload-enabled list or fully-concrete asset input".

Definition validate_widget_binding (input_type : TypeExpr) (widget : WidgetDescriptor) (force_input : bool) : checked :=
  match widget with
  | WNumber w => number_binding input_type force_input w
  | WString _ => raise_if (negb (is_type (primitive_type input_type) CORE_STRING)) "string widget requires a concrete STRING input"
  | WMount => raise_if (negb (is_type input_type CORE_STRING)) "mount widget requires a concrete STRING input"
  | WColor => raise_if (negb (is_type input_type CORE_STRING || is_type input_type COLOR_TYPE))
                "color widget requires a concrete STRING or COLOR input"
  | WCurve => raise_if (negb (is_type input_type CURVE_TYPE)) "curve widget requires a concrete curve input"
  | WCompositor => raise_if (negb (is_type input_type COMPOSITOR_TYPE)) "compositor widget requires a concrete compositor input"
  | WBoolean _ => raise_if (negb (is_type (primitive_type input_type) CORE_BOOLEAN)) "boolean widget requires a concrete BOOLEAN input"
  | WCombo _ => raise_if (negb (is_type (primitive_type input_type) CORE_COMBO)) "combo widget requires a concrete COMBO input"
  | WMultiCombo _ => raise_if (negb (bool_decide (input_type = list_of_concrete CORE_COMBO)))
                       "multi combo widget requires a list<COMBO> input"
  | WAsset w => asset_binding input_type w
  | WSaveTarget _ => raise_if (negb (is_type input_type SAVE_TARGET_TYPE)) "save target widget requires a concrete save target input"
  | WCustom _ => Ok tt
  end.

(** * Lemmas *)

Lemma num_compare_int a b : num_compare (PyInt a) (PyInt b) = (a ?= b).
Proof. unfold num_compare. cbn. by rewrite !Z.mul_1_r. Qed.

(** An integral number is an integer, exactly. *)
Lemma num_integral_int n : num_integral n = true -> exists z, num_compare n (PyInt z) = Eq.
Proof.
  unfold num_integral, num_compare. destruct (dyadic n) as [m e] eqn:En. cbn [dyadic].
  rewrite orb_true_iff, Z.leb_le, Z.eqb_eq. intros [He|Hm].
  - exists (m * 2 ^ e). rewrite Z.min_r by lia. rewrite !Z.sub_0_r, Z.pow_0_r, Z.mul_1_r. apply Z.compare_refl.
  - destruct (Z.leb_spec 0 e).
    + exists (m * 2 ^ e). rewrite Z.min_r by lia. rewrite !Z.sub_0_r, Z.pow_0_r, Z.mul_1_r. apply Z.compare_refl.
    + exists (m / 2 ^ (- e)). rewrite Z.min_l by lia. rewrite Z.sub_diag, Z.pow_0_r, Z.mul_1_r.
      replace (0 - e) with (- e) by lia. apply Z.compare_eq_iff.
      rewrite Z.mul_comm. apply Z.div_exact; [|done]. assert (0 < 2 ^ (- e)) by (apply Z.pow_pos_nonneg; lia). lia.
Qed.

(** The order of exact values: scaling both sides changes nothing. *)
Definition scaled (n : pynum) (e : Z) : Z := let '(m, e') := dyadic n in m * 2 ^ (e' - e).

Lemma num_compare_scaled a b e :
  e <= (dyadic a).2 -> e <= (dyadic b).2 -> num_compare a b = (scaled a e ?= scaled b e).
Proof.
  unfold num_compare, scaled. destruct (dyadic a) as [m1 e1], (dyadic b) as [m2 e2]. cbn [snd].
  intros H1 H2. set (k := Z.min e1 e2).
  replace (e1 - e) with ((e1 - k) + (k - e)) by lia. replace (e2 - e) with ((e2 - k) + (k - e)) by lia.
  rewrite !Z.pow_add_r by lia. rewrite !Z.mul_assoc. symmetry.
  assert (0 < 2 ^ (k - e)) by (apply Z.pow_pos_nonneg; lia).
  destruct (Z.compare_spec (m1 * 2 ^ (e1 - k)) (m2 * 2 ^ (e2 - k))).
  - apply Z.compare_eq_iff. congruence.
  - apply Z.compare_lt_iff. by apply Z.mul_lt_mono_pos_r.
  - apply Z.compare_gt_iff. by apply Z.mul_lt_mono_pos_r.
Qed.

(** Two numbers equal to integers compare as those integers. *)
Lemma num_compare_via a b x y :
  num_compare a (PyInt x) = Eq -> num_compare b (PyInt y) = Eq -> num_compare a b = (x ?= y).
Proof.
  set (e := Z.min 0 (Z.min (dyadic a).2 (dyadic b).2)).
  rewrite (num_compare_scaled a (PyInt x) e), (num_compare_scaled b (PyInt y) e), (num_compare_scaled a b e)
    by (cbn; lia).
  intros ->%Z.compare_eq_iff ->%Z.compare_eq_iff. rewrite <- (num_compare_int x y).
  symmetry. apply num_compare_scaled; cbn; lia.
Qed.

Lemma check_bound_ok name b n u : check_bound name b = Ok u -> b = Some n ->
  num_finite n = true
  /\ match n with PyBool _ => False | PyInt z => DECIMAL_WIRE_INT_MIN <= z <= DECIMAL_WIRE_INT_MAX | PyFloat _ => True end.
Proof.
  intros H ->. unfold check_bound in H. apply bind_ok in H as (? & Hb & H). apply raise_if_ok in Hb.
  apply bind_ok in H as (? & Hf & H). apply raise_if_ok in Hf, H. apply negb_false_iff in Hf.
  split; [done|]. destruct n as [| |]; try done. apply negb_false_iff, andb_true_iff in H as [?%Z.leb_le ?%Z.leb_le]. lia.
Qed.

(** The fields a constructed number widget constrains. *)
Definition bounds_of (w : NumberWidget) : list (option pynum) := [nw_min w; nw_max w; nw_step w].

Lemma number_post_init_ok w u :
  number_post_init w = Ok u ->
  (forall b n, b ∈ bounds_of w -> b = Some n ->
    num_finite n = true
    /\ match n with PyBool _ => False | PyInt z => DECIMAL_WIRE_INT_MIN <= z <= DECIMAL_WIRE_INT_MAX | PyFloat _ => True end)
  /\ (forall lo hi, nw_min w = Some lo -> nw_max w = Some hi -> num_compare lo hi <> Gt)
  /\ (forall s, nw_step w = Some s -> num_compare s (PyInt 0) = Gt).
Proof.
  unfold number_post_init. intros H.
  apply bind_ok in H as (? & _ & H). apply bind_ok in H as (? & Hmin & H).
  apply bind_ok in H as (? & Hmax & H). apply bind_ok in H as (? & Hstep & H).
  apply bind_ok in H as (? & _ & H). apply bind_ok in H as (? & Hle & H). apply raise_if_ok in Hle.
  apply bind_ok in H as (? & Hpos & _). apply raise_if_ok in Hpos. split_and!.
  - intros b n Hb Hn. unfold bounds_of in Hb. rewrite !elem_of_cons in Hb.
    destruct Hb as [->|[->|[->|Hb]]]; [exact (check_bound_ok _ _ _ _ Hmin Hn)|exact (check_bound_ok _ _ _ _ Hmax Hn)
      |exact (check_bound_ok _ _ _ _ Hstep Hn)|by apply not_elem_of_nil in Hb].
  - intros lo hi E1 E2. rewrite E1, E2 in Hle. unfold num_le in Hle. by destruct (num_compare lo hi).
  - intros s E. rewrite E in Hpos. unfold num_le in Hpos. by destruct (num_compare s (PyInt 0)).
Qed.

Lemma int_bound_ok_spec b n u : int_bound_ok b = Ok u -> b = Some n ->
  num_integral n = true /\ match n with PyFloat _ => num_abs_le n JSON_SAFE_INT = true | _ => True end.
Proof.
  intros H ->. unfold int_bound_ok in H. apply bind_ok in H as (? & Hi & H). apply raise_if_ok in Hi, H.
  apply negb_false_iff in Hi. split; [done|]. destruct n; try done. by apply negb_false_iff in H.
Qed.

Lemma num_abs_le_int n z k : num_compare n (PyInt z) = Eq -> num_abs_le n k = true -> - k <= z <= k.
Proof.
  intros Hz. unfold num_abs_le, num_le. rewrite andb_true_iff.
  rewrite (num_compare_via n (PyInt k) z k Hz), (num_compare_via (PyInt (- k)) n (- k) z).
  - destruct (Z.compare_spec z k), (Z.compare_spec (- k) z); intros []; (discriminate || lia).
  - rewrite num_compare_int. apply Z.compare_refl.
  - done.
  - rewrite num_compare_int. apply Z.compare_refl.
Qed.

(** * Properties *)

(** A number widget that is built and bound to an INT socket constrains it
    by integers: every bound it declares equals one exactly (whether spelled as
    an int or a float), within the wire's 64-bit range and, when spelled as a
    float, within the range doubles represent exactly; the minimum does not
    exceed the maximum, the step is positive, and there is no rounding. *)
Theorem int_widget_bounds w force :
  number_post_init w = Ok tt ->
  validate_widget_binding (concrete_of CORE_INT) (WNumber w) force = Ok tt ->
  (forall b n, b ∈ bounds_of w -> b = Some n ->
    exists z, num_compare n (PyInt z) = Eq /\ DECIMAL_WIRE_INT_MIN <= z <= DECIMAL_WIRE_INT_MAX
    /\ match n with PyFloat _ => - JSON_SAFE_INT <= z <= JSON_SAFE_INT | PyInt z' => z' = z | PyBool _ => False end)
  /\ (forall lo hi x y, nw_min w = Some lo -> nw_max w = Some hi ->
        num_compare lo (PyInt x) = Eq -> num_compare hi (PyInt y) = Eq -> x <= y)
  /\ (forall s z, nw_step w = Some s -> num_compare s (PyInt z) = Eq -> 0 < z)
  /\ nw_round w = None.
Proof.
  intros Hinit Hbind. apply number_post_init_ok in Hinit as (Hb & Hle & Hpos).
  cbn [validate_widget_binding] in Hbind. unfold number_binding in Hbind.
  assert (Hs : number_socket (concrete_of CORE_INT) force = Some CORE_INT) by (by destruct force).
  rewrite Hs in Hbind. apply bind_ok in Hbind as (? & _ & H). 
  change (bool_decide (Some CORE_INT = Some CORE_INT)) with true in H.
  change (bool_decide (Some CORE_INT = Some CORE_FLOAT)) with false in H. cbn [negb] in H.
  apply bind_ok in H as (? & Hint & H). apply bind_ok in H as (? & _ & Hr). apply raise_if_ok in Hr.
  apply bind_ok in Hint as (? & H1 & Hint). apply bind_ok in Hint as (? & H2 & H3).
  split_and!.
  - intros b n Hin Hn. destruct (Hb b n Hin Hn) as [Hfin Hrange].
    assert (exists u, int_bound_ok b = Ok u) as [u Hu].
    { unfold bounds_of in Hin. rewrite !elem_of_cons in Hin.
      destruct Hin as [->|[->|[->|Hin]]]; [eauto..|by apply not_elem_of_nil in Hin]. }
    destruct (int_bound_ok_spec b n u Hu Hn) as [Hi Hsafe].
    destruct (num_integral_int n Hi) as [z Hz]. exists z. split; [done|]. destruct n as [bo|z'|f]; [done| |].
    + rewrite num_compare_int in Hz. apply Z.compare_eq_iff in Hz as ->. done.
    + pose proof (num_abs_le_int _ _ _ Hz Hsafe). split; [|done].
      unfold JSON_SAFE_INT, DECIMAL_WIRE_INT_MIN, DECIMAL_WIRE_INT_MAX in *. lia.
  - intros lo hi p q E1 E2 Hp Hq. specialize (Hle lo hi E1 E2).
    rewrite (num_compare_via lo hi p q Hp Hq) in Hle. exact Hle.
  - intros s z E Hz. specialize (Hpos s E). rewrite (num_compare_via s (PyInt 0) z 0 Hz) in Hpos.
    + by apply Z.compare_gt_iff in Hpos.
    + rewrite num_compare_int. apply Z.compare_refl.
  - destruct (nw_round w); [|done]. cbn in Hr. discriminate Hr.
Qed.

Lemma find_unique {A} (f : A -> string) (l : list A) x d :
  NoDup (map f l) -> List.find (fun a => String.eqb (f a) d) l = Some x ->
  forall y, y ∈ l -> f y = d -> y = x.
Proof.
  induction l as [|a l IH]; [done|]. cbn [map List.find]. intros [Ha Hnd]%NoDup_cons.
  destruct (String.eqb_spec (f a) d) as [Hd|Hd].
  - intros [= <-] y Hy Hyd. apply elem_of_cons in Hy as [->|Hy]; [done|].
    destruct Ha. rewrite Hd, <- Hyd. by apply list_elem_of_fmap_2.
  - intros Hf y Hy Hyd. apply elem_of_cons in Hy as [->|Hy]; [congruence|]. by apply IH.
Qed.

(** A named set of representations that is built answers its default: the
    lookup finds the one representation the default names, and every
    representation presents the default's canonical value domain. *)
Theorem representations_default r :
  representations_post_init r = Ok tt ->
  exists item, default_representation r = Some item
    /\ item ∈ representations r /\ wr_id item = wr_default r
    /\ (forall other, other ∈ representations r -> wr_id other = wr_default r -> other = item)
    /\ (forall other, other ∈ representations r ->
          widget_value_domain (wr_widget other) = widget_value_domain (wr_widget item)).
Proof.
  unfold representations_post_init. intros H.
  apply bind_ok in H as (? & _ & H). apply bind_ok in H as (? & Hdup & H).
  apply bind_ok in H as (? & Hdom & H). apply bind_ok in H as (? & _ & Hdef).
  apply raise_if_ok in Hdup, Hdom, Hdef.
  unfold has_dup in Hdup. apply negb_false_iff in Hdup, Hdom, Hdef. apply bool_decide_eq_true in Hdup, Hdef.
  unfold singleton_set in Hdom. apply Nat.eqb_eq in Hdom.
  apply list_elem_of_fmap in Hdef as (d & Hd & Hdin).
  destruct (default_representation r) as [item|] eqn:E.
  2: { unfold default_representation in E. apply List.find_none with (x := d) in E; [|by apply list_elem_of_In].
       by rewrite <- Hd, String.eqb_refl in E. }
  exists item. pose proof E as E'. unfold default_representation in E'.
  apply List.find_some in E' as [Hin%list_elem_of_In Hid%String.eqb_eq].
  split_and!; [done|done|done| |].
  - intros other Hother Hoid. unfold default_representation in E. by eapply (find_unique wr_id).
  - intros other Hother. apply size_1_elem_of in Hdom as [dm Hdm].
    assert (forall o, o ∈ representations r -> widget_value_domain (wr_widget o) = dm) as Hall.
    { intros o Ho. assert (widget_value_domain (wr_widget o) ∈ (list_to_set (map (fun i => widget_value_domain (wr_widget i)) (representations r)) : gset string)) as Hm.
      { apply elem_of_list_to_set, list_elem_of_fmap. by exists o. }
      set_solver. }
    by rewrite !Hall.
Qed.

(** A custom widget named [asset] passes construction, and a set that mixes it
    with an asset picker does not fail with the ValueError the checks mean. *)
Lemma representations_custom_asset_crash :
  custom_post_init (mkCustomWidget "asset") = Ok tt
  /\ asset_post_init (mkAssetWidget [] "" false false) = Ok tt
  /\ representations_post_init (mkRepresentations
       [mkRepresentation "a" (WAsset (mkAssetWidget [] "" false false)) "";
        mkRepresentation "b" (WCustom (mkCustomWidget "asset")) ""] "a" true) = Err "AttributeError: kind".
Proof. repeat split; vm_compute; reflexivity. Qed.

Lemma int_widget_bounds_witness :
  exists z, num_compare (PyFloat (S754_finite false 5 1)) (PyInt z) = Eq.
Proof.
  destruct (int_widget_bounds
    (mkNumberWidget (Some (PyInt 0)) (Some (PyFloat (S754_finite false 5 1))) None None None None) false
    eq_refl eq_refl) as [H _].
  destruct (H (Some (PyFloat (S754_finite false 5 1))) (PyFloat (S754_finite false 5 1))) as (z & Hz & _).
  - cbn. right. left.
  - reflexivity.
  - exists z. exact Hz.
Defined.

Lemma representations_default_witness :
  is_Some (default_representation (mkRepresentations
    [mkRepresentation "line" (WString (mkStringWidget (Some false) None None None)) "";
     mkRepresentation "area" (WString (mkStringWidget (Some true) None None None)) ""] "area" true)).
Proof.
  destruct (representations_default (mkRepresentations
    [mkRepresentation "line" (WString (mkStringWidget (Some false) None None None)) "";
     mkRepresentation "area" (WString (mkStringWidget (Some true) None None None)) ""] "area" true) eq_refl)
    as (item & H & _).
  exists item. exact H.
Defined.
