(* ===== verification/Schema.v ===== *)
(** Schema: the node schema (dinkster_schema/model.py, [InputSpec] to
    [NodeSchema]): input and output specifications, the dynamic input
    constructs (families, combos, slots), and the checks their construction
    runs.  The conventions of Widgets hold: fields at their declared types,
    errors by the fixed part of their message. *)
From S2P Require Import Prelude PyStr Names TypeIds TypeExprs Widgets.
From Stdlib Require Import Ascii SpecFloat.

Local Open Scope string_scope.
Local Open Scope Z_scope.
Local Open Scope list_scope.

(** * Inputs *)

Record InputSpec := mkInputSpec {
  in_id : string;
  in_type : TypeExpr;
  in_required : bool;
  in_default : pyval;
  in_doc : string;
  in_on_absent : option string;
  in_widget : option Widget;
  in_display_name : string;
  in_force_input : bool;
  in_advanced : bool;
  in_hidden : bool;
  in_lazy : bool;
  in_source_filename : option SourceFilenameSpec;
  in_accepts_storage : bool;
  in_accepts_stream : bool;
  in_accepts_list : bool;
  in_alpha_policy : string;
  in_mask_polarity : option string;
  in_mask_semantic : option string;
  in_adjacent_to : option string;
  in_socketless : bool
}.

(** [InputSpec(id, type, required=...)] with every other field at its default. *)
Definition plain_input (id : string) (type : TypeExpr) (required : bool) : InputSpec :=
  mkInputSpec id type required VNone "" None None "" false false false false None false false false
    "preserve" None None None false.

Definition ABSENT_POLICIES : list string := ["skip"; "accept"; "fail"; "omit"].

Definition validate_media_policy (alpha : string) (polarity semantic : option string) : checked :=
  raise_if (negb (str_in alpha ["preserve"; "require"; "create_if_missing"; "drop"])) "unknown alpha policy";;
  raise_if (outside polarity ["coverage"; "transparency"]) "unknown mask polarity";;
  raise_if (outside semantic ["alpha"; "selection"; "other"]) "unknown mask semantic".

(** The descriptors a widget offers; a missing widget offers none. *)
Definition descriptors (w : option Widget) : list WidgetDescriptor :=
  match w with
  | Some (Named r) => map wr_widget (representations r)
  | Some (Single d) => [d]
  | None => []
  end.

Definition uploads (d : WidgetDescriptor) : bool :=
  match d with WAsset a => aw_allow_upload a | _ => false end.

Definition is_multi_combo (d : WidgetDescriptor) : bool :=
  match d with WMultiCombo _ => true | _ => false end.

Definition check_source_filename (self : InputSpec) : checked :=
  match in_source_filename self with
  | Some sf =>
      let typed_asset := bool_decide (kind (in_type self) = KAsset) && present (runtime_type_id (in_type self)) in
      raise_if (negb typed_asset && negb (bool_decide (in_type self = concrete_of ASSET_TYPE)
                                          || bool_decide (in_type self = list_of_concrete ASSET_TYPE)))
        "source filename requires a scalar asset or list of assets";;
      raise_if (match in_widget self with
                | Some (Single (WAsset a)) => negb (aw_allow_upload a) || negb (String.eqb (aw_kind a) (sf_kind sf))
                | _ => true
                end) "source filename requires an upload-enabled ASSET widget with the same media kind"
  | None => raise_if (existsb uploads (descriptors (in_widget self)))
              "upload-enabled ASSET widget requires a source filename binding"
  end.

(** The loop over the representations, or the one descriptor. *)
Definition check_bindings (self : InputSpec) : checked :=
  foldr (fun d k => validate_widget_binding (in_type self) d (in_force_input self);; k) (Ok tt)
    (descriptors (in_widget self)).

Definition combo_default_ok (v : pyval) : bool :=
  match v with
  | VNone | VStr _ | VBool _ => true
  | VInt z => Z.abs z <=? JSON_SAFE_INT
  | VFloat f => float_finite f
  | _ => false
  end.

Definition string_list_or_none (v : pyval) : bool :=
  match v with VNone => true | VList l => forallb is_str l | _ => false end.

Definition input_post_init (self : InputSpec) : checked :=
  raise_if (in_socketless self && in_force_input self) "socketless conflicts with force_input";;
  raise_if (match in_adjacent_to self with Some a => empty_str a | None => false end)
    "adjacent_to must be a non-empty sibling input id";;
  validate_media_policy (in_alpha_policy self) (in_mask_polarity self) (in_mask_semantic self);;
  check_source_filename self;;
  raise_if (outside (in_on_absent self) ABSENT_POLICIES) "unknown on_absent";;
  raise_if (bool_decide (in_on_absent self = Some "omit") && in_required self)
    "on_absent='omit' requires an optional input";;
  check_bindings self;;
  raise_if (bool_decide (in_type self = concrete_of CORE_COMBO) && negb (combo_default_ok (in_default self)))
    "combo default must be a string, boolean, JSON-safe integer or finite float";;
  raise_if (existsb is_multi_combo (descriptors (in_widget self)) && negb (string_list_or_none (in_default self)))
    "multi combo default must be an array of strings".

Definition absent_policy (self : InputSpec) : string :=
  match in_on_absent self with
  | Some p => p
  | None => if in_required self then "skip" else "omit"
  end.

(** * Outputs *)

(** A mapping [applies]: combo id to covered option keys. *)
Abbreviation applies_map := (list (string * list string)).

Fixpoint freeze_applies_loop (subject : string) (raw : applies_map) : checked :=
  match raw with
  | [] => Ok tt
  | (combo_id, values) :: raw' =>
      raise_if (empty_str combo_id) (subject +:+ " applies keys must be non-empty combo ids");;
      raise_if (is_nil values) (subject +:+ " applies must cover at least one option");;
      raise_if (existsb empty_str values) (subject +:+ " applies options must be non-empty strings");;
      raise_if (has_dup values) (subject +:+ " applies has duplicate options");;
      freeze_applies_loop subject raw'
  end.

Definition freeze_applies (applies : option applies_map) (subject : string) : checked :=
  match applies with
  | None => Ok tt
  | Some raw =>
      raise_if (is_nil raw) (subject +:+ " applies must not be empty; omit it instead");;
      freeze_applies_loop subject raw
  end.

Record OutputRepresents := mkRepresents {
  or_input : string; or_rendition : string; or_applies : option applies_map }.

Definition represents_post_init (self : OutputRepresents) : checked :=
  raise_if (empty_str (or_input self)) "output represents input must be a non-empty string";;
  raise_if (empty_str (or_rendition self)) "output represents rendition must be a non-empty string";;
  freeze_applies (or_applies self) "output represents".

Record OutputSpec := mkOutputSpec {
  out_id : string;
  out_type : TypeExpr;
  out_doc : string;
  out_optional : bool;
  out_preview : bool;
  out_represents : option OutputRepresents;
  out_known_value : option string;   (** [OutputKnownValue.input] *)
  out_display_name : string;
  out_alpha_policy : string;
  out_mask_polarity : option string;
  out_mask_semantic : option string
}.

Definition plain_output (id : string) (type : TypeExpr) (doc : string) (preview : bool) : OutputSpec :=
  mkOutputSpec id type doc false preview None None "" "preserve" None None.

Definition known_value_post_init (input : string) : checked :=
  raise_if (empty_str input) "output known value input must be a non-empty string".

Definition output_post_init (self : OutputSpec) : checked :=
  validate_media_policy (out_alpha_policy self) (out_mask_polarity self) (out_mask_semantic self).

(** * Dynamic constructs *)

Definition MEMBER_SEP : string := ".".

(** The own fields of the three constructs; the entries nested in them are
    arguments of [DynamicEntry]'s constructors. *)
Record InputFamilySpec := mkFamily {
  fam_id : string;
  fam_min_members : Z;
  fam_max_members : option Z;
  fam_doc : string;
  fam_display_name : string;
  fam_required : bool;
  fam_member_prefix : option string;
  fam_member_names : option (list string);
  fam_independent_types : bool;
  fam_optional_after_minimum : bool
}.

Record DynamicComboSpec := mkCombo {
  dc_id : string; dc_default : option string; dc_required : bool;
  dc_doc : string; dc_display_name : string; dc_hidden : bool }.

Record SlotVariant := mkVariant { sv_key : string; sv_type : TypeExpr; sv_doc : string }.

(** [required] is [None] until construction fills it in. *)
Record DynamicSlotSpec := mkSlot {
  ds_id : string; ds_required : option bool; ds_doc : string; ds_display_name : string;
  ds_slot_type : option TypeExpr; ds_force_input : bool; ds_type_template_id : string }.

Inductive DynamicEntry :=
| DInput (s : InputSpec)
| DFamily (f : InputFamilySpec) (template : list DynamicEntry)
| DCombo (c : DynamicComboSpec) (options : list (string * list DynamicEntry))
| DSlot (s : DynamicSlotSpec) (variants : option (list (SlotVariant * list DynamicEntry)))
    (inputs : list DynamicEntry).

Definition entry_id (e : DynamicEntry) : string :=
  match e with
  | DInput s => in_id s
  | DFamily f _ => fam_id f
  | DCombo c _ => dc_id c
  | DSlot s _ _ => ds_id s
  end.

Definition member_id (owner suffix : string) : string := owner +:+ (MEMBER_SEP +:+ suffix).

(** [member_suffix] and [member_local]: what follows the owner's id and a dot. *)
Definition member_suffix (owner id : string) : option string :=
  let prefix := owner +:+ MEMBER_SEP in
  if startswith prefix id && (String.length prefix <? String.length id)%nat
  then Some (str_drop (String.length prefix) id) else None.

Definition adjacent_ok (siblings : list string) (id : string) (adjacent : option string) : bool :=
  match adjacent with
  | None => true
  | Some a => negb (String.eqb a id) && str_in a siblings
  end.

Definition input_ids_of (entries : list DynamicEntry) : list string :=
  omap (fun e => match e with DInput s => Some (in_id s) | _ => None end) entries.

Definition check_entry (entries : list DynamicEntry) (owner : string) (e : DynamicEntry) : checked :=
  validate_structural_id (entry_id e) (owner +:+ " entry id");;
  match e with
  | DInput s => raise_if (negb (adjacent_ok (input_ids_of entries) (in_id s) (in_adjacent_to s)))
                  "adjacent_to must name another sibling input"
  | _ => Ok tt
  end.

Definition validate_dynamic_entries (entries : list DynamicEntry) (owner : string) : checked :=
  raise_if (has_dup (map entry_id entries)) (owner +:+ ": duplicate dynamic entry ids");;
  foldr (fun e k => check_entry entries owner e;; k) (Ok tt) entries.

(** [OPTION_KEY_PATTERN.fullmatch] *)
Definition option_key_fullmatch (s : string) : bool :=
  segments (in_range 33 126) (Ascii.eqb space) s false.

Definition combo_option_entries_post_init (key : string) (inputs : list DynamicEntry) : checked :=
  raise_if (negb (option_key_fullmatch key)) "dynamic combo option key must match [!-~]+( [!-~]+)*";;
  validate_dynamic_entries inputs ("dynamic combo option '" +:+ (key +:+ "'")).

(** Sibling keys whose persisted branch paths alias. *)
Definition keys_alias (left right : string) : bool :=
  startswith (left +:+ "]") right || startswith (right +:+ "]") left.

Fixpoint any_alias (keys : list string) : bool :=
  match keys with
  | [] => false
  | k :: keys' => existsb (keys_alias k) keys' || any_alias keys'
  end.

Definition combo_spec_post_init (self : DynamicComboSpec) (keys : list string) : checked :=
  validate_structural_id (dc_id self) "dynamic combo id";;
  raise_if (has_dup keys) "dynamic combo: duplicate option keys";;
  raise_if (any_alias keys) "dynamic combo: option keys alias frontend branch paths";;
  raise_if (match dc_default self with Some d => negb (str_in d keys) | None => false end)
    "dynamic combo: default must name a declared option key".

(** Every part of a variant's type is recursively concrete. *)
Fixpoint variant_type_ok (e : TypeExpr) : bool :=
  negb (bool_decide (kind e = KWildcard)) && present (runtime_type_id e)
  && match e with
     | mkTypeExpr _ _ _ el els _ _ =>
         match el with Some x => variant_type_ok x | None => true end && forallb variant_type_ok els
     end.

Definition variant_post_init (self : SlotVariant) (inputs : list DynamicEntry) : checked :=
  raise_if (negb (structural_fullmatch (sv_key self))) "slot variant key must match [A-Za-z0-9_-]+";;
  raise_if (negb (variant_type_ok (sv_type self))) "slot variant: type must be recursively concrete";;
  raise_if (has_dup (map entry_id inputs)) "slot variant: duplicate dependent input ids";;
  raise_if (existsb (fun e => str_has dot (entry_id e)) inputs) "slot variant: dependent input id may not contain '.'";;
  validate_dynamic_entries inputs ("slot variant '" +:+ (sv_key self +:+ "'")).

Definition slot_is_required (self : DynamicSlotSpec) (variants : option (list (SlotVariant * list DynamicEntry))) : bool :=
  default (present variants) (ds_required self).

Definition slot_post_init (self : DynamicSlotSpec) (variants : option (list (SlotVariant * list DynamicEntry)))
  (inputs : list DynamicEntry) : checked :=
  let required := slot_is_required self variants in
  validate_structural_id (ds_id self) "dynamic slot id";;
  raise_if (Bool.eqb (present variants) (present (ds_slot_type self)))
    "slot: exactly one of variants or slot_type is required";;
  validate_dynamic_entries inputs ("slot '" +:+ (ds_id self +:+ "' shared inputs"));;
  match variants with
  | Some vs =>
      raise_if (is_nil vs) "slot: at least one variant is required";;
      raise_if (has_dup (map (fun v => sv_key v.1) vs)) "slot: duplicate variant keys";;
      raise_if (ds_force_input self) "slot: force_input is only legal on open slots";;
      raise_if (negb (empty_str (ds_type_template_id self)) && negb required)
        "slot: type_template_id requires a required slot"
  | None =>
      raise_if (negb (empty_str (ds_type_template_id self))) "slot: type_template_id is only legal on closed slots";;
      raise_if required "slot: open slots must be optional";;
      raise_if (match ds_slot_type self with Some t => bool_decide (kind t = KVariable) | None => false end)
        "slot: slot_type must not be a variable"
  end.

(** [InputFamilySpec.__init__] of the raw arguments: named members fix the
    maximum. *)
Definition family_init (self : InputFamilySpec) : result string InputFamilySpec :=
  raise_if (present (fam_member_names self) && present (fam_max_members self))
    "family: max_members is derived from member_names";;
  Ok (match fam_member_names self with
      | None => self
      | Some names => mkFamily (fam_id self) (fam_min_members self) (Some (Z.of_nat (length names))) (fam_doc self)
          (fam_display_name self) (fam_required self) (fam_member_prefix self) (Some names)
          (fam_independent_types self) (fam_optional_after_minimum self)
      end).

Definition single_input (template : list DynamicEntry) : option InputSpec :=
  match template with [DInput s] => Some s | _ => None end.

Definition family_post_init (self : InputFamilySpec) (template : list DynamicEntry) : checked :=
  validate_structural_id (fam_id self) "input family id";;
  raise_if (fam_optional_after_minimum self
            && (is_None (single_input template)
                || (is_None (fam_member_prefix self) && is_None (fam_member_names self))))
    "family: optional_after_minimum needs one input template and member_prefix or member_names";;
  raise_if (is_nil template) "family: template must not be empty";;
  validate_dynamic_entries template ("family '" +:+ (fam_id self +:+ "' template"));;
  raise_if (fam_min_members self <? 0) "family: min_members must be >= 0";;
  raise_if (present (fam_member_prefix self) && present (fam_member_names self))
    "family: member_prefix and member_names are mutually exclusive";;
  match fam_member_prefix self with
  | None => Ok tt
  | Some p =>
      validate_structural_id p "input family member_prefix";;
      raise_if (match fam_max_members self with Some m => negb ((1 <=? m) && (m <=? 1000)) | None => false end)
        "family: prefix max_members must be in [1, 1000]"
  end;;
  match fam_member_names self with
  | Some names =>
      raise_if (has_dup names) "family: duplicate member_names";;
      foldr (fun n k => validate_structural_id n "input family member name";; k) (Ok tt) names;;
      raise_if (Z.of_nat (length names) <? fam_min_members self) "family: min_members exceeds member_names capacity"
  | None => raise_if (match fam_max_members self with Some m => m <? fam_min_members self | None => false end)
              "family: max_members < min_members"
  end.

(** The checks of an entry and of everything nested in it, as the objects were
    built from the inside out. *)
Fixpoint entry_built (e : DynamicEntry) : bool :=
  match e with
  | DInput s => is_ok (input_post_init s)
  | DFamily f template => is_ok (family_post_init f template) && forallb entry_built template
  | DCombo c options =>
      is_ok (combo_spec_post_init c (map fst options))
      && forallb (fun o => is_ok (combo_option_entries_post_init o.1 o.2) && forallb entry_built o.2) options
  | DSlot s variants inputs =>
      is_ok (slot_post_init s variants inputs) && forallb entry_built inputs
      && match variants with
         | Some vs => forallb (fun v => is_ok (variant_post_init v.1 v.2) && forallb entry_built v.2) vs
         | None => true
         end
  end.

(** * Walks over nested entries *)

Definition option_sources_of_descriptor (d : WidgetDescriptor) : list InputFamilyOptionSource :=
  match d with WCombo w => option_list (cw_option_source w) | _ => [] end.

Definition input_family_option_sources (w : option Widget) : list InputFamilyOptionSource :=
  concat (map option_sources_of_descriptor (descriptors w)).

Fixpoint dynamic_input_specs_of (e : DynamicEntry) : list InputSpec :=
  match e with
  | DInput s => [s]
  | DFamily _ template => concat (map dynamic_input_specs_of template)
  | DCombo _ options => concat (map (fun o => concat (map dynamic_input_specs_of o.2)) options)
  | DSlot _ variants inputs =>
      concat (map dynamic_input_specs_of inputs)
      ++ match variants with
         | Some vs => concat (map (fun v => concat (map dynamic_input_specs_of v.2)) vs)
         | None => []
         end
  end.

Definition dynamic_input_specs (entries : list DynamicEntry) : list InputSpec :=
  concat (map dynamic_input_specs_of entries).

Abbreviation slot_variants := (option (list (SlotVariant * list DynamicEntry))).

(** Each slot below an entry with its nesting depth and its variants. *)
Fixpoint dynamic_slots_of (depth : nat) (e : DynamicEntry) : list (DynamicSlotSpec * slot_variants * nat) :=
  match e with
  | DInput _ => []
  | DFamily _ template => concat (map (dynamic_slots_of (S depth)) template)
  | DCombo _ options => concat (map (fun o => concat (map (dynamic_slots_of (S depth)) o.2)) options)
  | DSlot s variants inputs =>
      (s, variants, depth)
      :: concat (map (dynamic_slots_of (S depth)) inputs)
      ++ match variants with
         | Some vs => concat (map (fun v => concat (map (dynamic_slots_of (S depth)) v.2)) vs)
         | None => []
         end
  end.

Definition dynamic_slots (entries : list DynamicEntry) : list (DynamicSlotSpec * slot_variants * nat) :=
  concat (map (dynamic_slots_of 0) entries).

(** The variables of an expression, in order. *)
Fixpoint type_variables (e : TypeExpr) : list TypeExpr :=
  match e with
  | mkTypeExpr k _ _ el els _ _ =>
      match k with
      | KVariable => [e]
      | KList | KAsset | KStream => match el with Some x => type_variables x | None => [] end
      | KTuple => concat (map type_variables els)
      | _ => []
      end
  end.

(** * The rest of a schema's parts *)

Record OutputFamilySpec := mkOutputFamily {
  of_id : string; of_type : TypeExpr; of_min_members : Z; of_max_members : option Z;
  of_doc : string; of_preview : bool; of_count : option string  (** [OutputCountSpec.input] *) }.

Definition output_count_post_init (input suffix : string) : checked :=
  validate_structural_id input "output family count input";;
  raise_if (negb (String.eqb suffix "index")) "output family count suffix must be 'index'".

Definition output_family_post_init (self : OutputFamilySpec) : checked :=
  raise_if (str_has dot (of_id self)) "family id may not contain '.'";;
  raise_if (of_min_members self <? 0) "family: min_members must be >= 0";;
  raise_if (match of_max_members self with Some m => m <? of_min_members self | None => false end)
    "family: max_members < min_members".

Record OutputProbeSpec := mkProbe { op_input : string; op_kind : string; op_revision : string }.

Definition output_probe_post_init (self : OutputProbeSpec) : checked :=
  validate_structural_id (op_input self) "output probe field";;
  validate_structural_id (op_kind self) "output probe field";;
  validate_structural_id (op_revision self) "output probe field";;
  raise_if (negb (String.eqb (op_kind self) "model")) "output probe kind must be 'model'".

Record OutputDescriptorsSpec := mkDescriptors {
  od_input : string; od_choices : list OutputSpec; od_max_entries : Z; od_min_entries : Z;
  od_fixed_ids : bool; od_probe : option OutputProbeSpec }.

Fixpoint check_choices (choices : list OutputSpec) (ids : list string) : checked :=
  match choices with
  | [] => Ok tt
  | c :: rest =>
      validate_structural_id (out_id c) "output descriptor choice id";;
      raise_if (str_in (out_id c) ids) "output descriptor choices must have unique ids";;
      raise_if (negb (bool_decide (kind (out_type c) = KConcrete))) "output descriptor choices must have concrete runtime types";;
      raise_if (present (out_represents c) || present (out_known_value c))
        "output descriptor choices cannot declare input representations";;
      check_choices rest (out_id c :: ids)
  end.

Definition descriptors_post_init (self : OutputDescriptorsSpec) : checked :=
  validate_structural_id (od_input self) "output descriptors input";;
  raise_if (negb ((0 <=? od_min_entries self) && (od_min_entries self <=? od_max_entries self)
                  && (od_max_entries self <=? 512))) "output descriptor bounds must satisfy 0 <= min <= max <= 512";;
  raise_if (present (od_probe self) && negb (od_fixed_ids self)) "probed output descriptors require fixed semantic ids";;
  raise_if (is_nil (od_choices self) || (512 <? length (od_choices self))%nat)
    "output descriptor choices must be an immutable tuple of 1-512 choices";;
  check_choices (od_choices self) [].

(** The two keys of [branches] once they are known to be exactly these. *)
Record SelectorSpec := mkSelector { sel_input : string; sel_branches : list (string * string) }.

Definition selector_post_init (self : SelectorSpec) : checked :=
  raise_if (negb (bool_decide ((list_to_set (keys (sel_branches self)) : gset string) = {["false"; "true"]})))
    "selector branches must be keyed by exactly 'false' and 'true'";;
  raise_if (empty_str (sel_input self) || existsb (fun b => empty_str b.2) (sel_branches self))
    "selector input and branch ids must be non-empty strings";;
  raise_if (bool_decide (dict_get (sel_branches self) "false" = dict_get (sel_branches self) "true"))
    "selector branch input ids must be distinct".

(** [selector.branches[key]] of a constructed selector. *)
Definition branch (self : SelectorSpec) (key : string) : string := default "" (dict_get (sel_branches self) key).

Record MirrorTolerance := mkTolerance { mt_relative : option pynum; mt_per_channel : option pynum }.

Definition tolerance_ok (o : option pynum) : bool :=
  match o with
  | None => true
  | Some (PyFloat f) => float_finite f && num_lt (PyInt 0) (PyFloat f)
  | Some _ => false
  end.

Definition tolerance_post_init (self : MirrorTolerance) : checked :=
  raise_if (is_None (mt_relative self) && is_None (mt_per_channel self)) "mirror tolerance requires relative or per_channel";;
  raise_if (negb (tolerance_ok (mt_relative self))) "mirror tolerance relative must be a finite positive float";;
  raise_if (negb (tolerance_ok (mt_per_channel self))) "mirror tolerance per_channel must be a finite positive float".

Record MirrorSpec := mkMirror {
  mi_kind : string; mi_precision : string; mi_tolerance : option MirrorTolerance;
  mi_grammar_version : option Z; mi_source : option string; mi_applies : option applies_map }.

Definition MAX_MIRROR_SOURCE_BYTES : Z := 16384.

(** [len(s.encode("utf-8"))]: one byte below code point 128, two from there. *)
Fixpoint utf8_length (s : string) : Z :=
  match s with
  | EmptyString => 0
  | String c s' => (if (code c <? 128)%N then 1 else 2) + utf8_length s'
  end.

Definition mirror_post_init (self : MirrorSpec) : checked :=
  raise_if (negb (str_in (mi_kind self) ["glsl"; "expression"])) "unknown mirror kind";;
  raise_if (negb (str_in (mi_precision self) ["exact"; "bounded"])) "unknown mirror precision";;
  raise_if (String.eqb (mi_precision self) "bounded" && is_None (mi_tolerance self)) "bounded mirrors require a tolerance";;
  raise_if (String.eqb (mi_precision self) "exact" && present (mi_tolerance self)) "exact mirrors must not declare a tolerance";;
  (if String.eqb (mi_kind self) "expression" then
     raise_if (present (mi_source self)) "expression mirrors must not carry shader source";;
     raise_if (match mi_grammar_version self with Some v => v <? 1 | None => true end)
       "expression mirrors require a positive grammar_version"
   else Ok tt);;
  (if String.eqb (mi_kind self) "glsl" then
     raise_if (present (mi_grammar_version self)) "glsl mirrors must not carry a grammar_version";;
     raise_if (match mi_source self with Some s => empty_str s | None => true end) "glsl mirrors require shader source";;
     raise_if (match mi_source self with Some s => MAX_MIRROR_SOURCE_BYTES <? utf8_length s | None => false end)
       "mirror shader source exceeds 16384 bytes"
   else Ok tt);;
  freeze_applies (mi_applies self) "mirror".

Record ConditionalWidgetCondition := mkCondition { cc_input : string; cc_values : list pyval }.

Definition as_num (v : pyval) : option pynum :=
  match v with VInt z => Some (PyInt z) | VFloat f => Some (PyFloat f) | _ => None end.

(** Equality of [_json_scalar_key]s: an int and a float are one number. *)
Definition same_scalar (a b : pyval) : bool :=
  match as_num a, as_num b with
  | Some x, Some y => match num_compare x y with Eq => true | _ => false end
  | None, None =>
      match a, b with
      | VNone, VNone => true
      | VBool x, VBool y => Bool.eqb x y
      | VStr x, VStr y => String.eqb x y
      | _, _ => false
      end
  | _, _ => false
  end.

Fixpoint scalars_dup (l : list pyval) : bool :=
  match l with
  | [] => false
  | v :: l' => existsb (same_scalar v) l' || scalars_dup l'
  end.

Definition condition_value (v : pyval) : checked :=
  raise_if (match v with VStr _ | VInt _ | VFloat _ | VBool _ | VNone => false | _ => true end)
    "conditional widget values must be JSON scalars";;
  raise_if (match v with VFloat f => negb (float_finite f) | _ => false end) "conditional widget values must be finite";;
  raise_if (match v with
            | VFloat f => num_integral (PyFloat f) && negb (num_abs_le (PyFloat f) JSON_SAFE_INT)
            | _ => false
            end) "conditional widget integer values must be JSON-safe";;
  raise_if (match v with VInt z => negb (Z.abs z <=? JSON_SAFE_INT) | _ => false end)
    "conditional widget integer values must be JSON-safe".

Definition condition_post_init (self : ConditionalWidgetCondition) : checked :=
  raise_if (empty_str (cc_input self)) "conditional widget input must be a non-empty string";;
  raise_if (is_nil (cc_values self)) "conditional widget values must be non-empty";;
  foldr (fun v k => condition_value v;; k) (Ok tt) (cc_values self);;
  raise_if (scalars_dup (cc_values self)) "conditional widget values must be unique".

Record ConditionalWidgetGroup := mkWidgetGroup {
  cg_condition : ConditionalWidgetCondition; cg_members : list string; cg_requires : list ConditionalWidgetCondition }.

Definition group_post_init (self : ConditionalWidgetGroup) : checked :=
  condition_post_init (cg_condition self);;
  raise_if (is_nil (cg_members self) || existsb empty_str (cg_members self))
    "conditional widget group members must be non-empty strings";;
  raise_if (has_dup (cg_members self)) "conditional widget group members must be unique".

(** * The node schema *)

(** [replacements] and the pure documentation fields play no part in what is
    modelled and are left out. *)
Record NodeSchema := mkNodeSchema {
  node_type : string;
  editor_role : option string;
  inputs : list InputSpec;
  outputs : list OutputSpec;
  input_families : list (InputFamilySpec * list DynamicEntry);
  output_families : list OutputFamilySpec;
  combos : list (DynamicComboSpec * list (string * list DynamicEntry));
  slots : list (DynamicSlotSpec * slot_variants * list DynamicEntry);
  slot_choices : list (string * string);
  idempotent : bool;
  occupies : list string;
  io_bound : bool;
  dispatch_affinity : option string;
  deprecation_replacement : option string;
  search_visibility : string;
  search_terms : list string;
  aliases : list string;
  output_node : bool;
  may_expand_graph : bool;
  execution_context : bool;
  input_values : bool;
  mirror : option MirrorSpec;
  selector : option SelectorSpec;
  widget_groups : list ConditionalWidgetGroup;
  output_descriptors : option OutputDescriptorsSpec;
  chunk_safe : option (list string * list string);
  chunk_safe_applies : option applies_map;
  input_order : list string;
  additional_inputs : option TypeExpr
}.

Definition input_ids (self : NodeSchema) : list string := map in_id (inputs self).
Definition output_ids (self : NodeSchema) : list string := map out_id (outputs self).
Definition in_family_ids (self : NodeSchema) : list string := map (fun f => fam_id f.1) (input_families self).
Definition out_family_ids (self : NodeSchema) : list string := map of_id (output_families self).
Definition combo_ids (self : NodeSchema) : list string := map (fun c => dc_id c.1) (combos self).
Definition slot_ids (self : NodeSchema) : list string := map (fun s => ds_id s.1.1) (slots self).

(** The three dynamic groups as entries, and all four in the schema's order. *)
Definition constructs (self : NodeSchema) : list DynamicEntry :=
  map (fun f => DFamily f.1 f.2) (input_families self)
  ++ map (fun c => DCombo c.1 c.2) (combos self)
  ++ map (fun s => DSlot s.1.1 s.1.2 s.2) (slots self).

Definition entry_by_id (entries : list DynamicEntry) (name : string) : option DynamicEntry :=
  List.find (fun e => String.eqb (entry_id e) name) entries.

Definition input_entries (self : NodeSchema) : list DynamicEntry :=
  let entries := map DInput (inputs self) ++ constructs self in
  match input_order self with
  | [] => entries
  | order => omap (entry_by_id entries) order
  end.

Definition is_static (self : NodeSchema) : bool :=
  is_None (additional_inputs self) && is_nil (input_families self) && is_nil (output_families self)
  && is_None (output_descriptors self) && is_nil (combos self) && is_nil (slots self)
  && negb (existsb (fun o => requires_elaboration (out_type o)) (outputs self)).

Definition input_of (self : NodeSchema) (id : string) : option InputSpec :=
  List.find (fun s => String.eqb (in_id s) id) (inputs self).

Definition output_of (self : NodeSchema) (id : string) : option OutputSpec :=
  List.find (fun s => String.eqb (out_id s) id) (outputs self).

(** The dictionary [{spec.id: spec}] answers the last of equal ids; the ids are
    distinct where the source reads it. *)
Definition inputs_by_id (self : NodeSchema) : string -> option InputSpec := input_of self.

Definition all_in (l k : list string) : bool := forallb (fun s => str_in s k) l.

(** * Construction of a schema *)

Definition check_schema_head (self : NodeSchema) : checked :=
  raise_if (empty_str (node_type self)) "node_type is required";;
  raise_if (match additional_inputs self with Some e => requires_elaboration e | None => false end)
    "additional_inputs cannot depend on another input";;
  raise_if (match editor_role self with Some r => empty_str r | None => false end) "editor_role must be a non-empty string".

(** [_validate_applies_against_combos]: each key names a required combo, each
    covered option is one of its keys. *)
Fixpoint validate_applies_against_combos (applies : applies_map)
  (combos : list (DynamicComboSpec * list (string * list DynamicEntry))) : checked :=
  match applies with
  | [] => Ok tt
  | (applies_id, covered) :: rest =>
      match List.find (fun c => String.eqb (dc_id c.1) applies_id) combos with
      | None => Err "applies key does not name a declared dynamic combo"
      | Some (combo, options) =>
          raise_if (negb (dc_required combo)) "applies key must name a required combo";;
          raise_if (negb (all_in covered (map fst options))) "applies covers undeclared option(s)";;
          validate_applies_against_combos rest combos
      end
  end.

Definition check_chunk_safe (self : NodeSchema) : checked :=
  match chunk_safe self with
  | None => Ok tt
  | Some (ins, outs) =>
      raise_if (is_nil ins || is_nil outs) "chunk_safe requires input and output IDs";;
      raise_if (has_dup ins || has_dup outs) "chunk_safe IDs must be unique";;
      raise_if (negb (all_in ins (input_ids self ++ slot_ids self))) "chunk_safe names an unknown input";;
      raise_if (negb (all_in outs (output_ids self))) "chunk_safe names an unknown output"
  end;;
  match chunk_safe_applies self with
  | None => Ok tt
  | Some applies =>
      raise_if (is_None (chunk_safe self)) "chunk_safe_applies requires chunk_safe";;
      freeze_applies (Some applies) "chunk_safe";;
      validate_applies_against_combos applies (combos self)
  end.

Definition check_schema_meta (self : NodeSchema) : checked :=
  raise_if (negb (str_in (search_visibility self) ["normal"; "deprecated"; "hidden"])) "unknown search_visibility";;
  raise_if (bool_decide (deprecation_replacement self = Some (node_type self))) "a node cannot replace itself";;
  match mirror self with
  | Some m => match mi_applies m with Some a => validate_applies_against_combos a (combos self) | None => Ok tt end
  | None => Ok tt
  end;;
  raise_if (has_dup (aliases self)) "duplicate aliases";;
  raise_if (existsb empty_str (aliases self)) "aliases must be non-empty strings";;
  raise_if (has_dup (search_terms self)) "duplicate search terms";;
  raise_if (existsb empty_str (search_terms self)) "search terms must be non-empty strings";;
  raise_if (has_dup (occupies self)) "duplicate occupies kinds";;
  raise_if (io_bound self && negb (is_nil (occupies self))) "io_bound and occupies are mutually exclusive";;
  raise_if (outside (dispatch_affinity self) ["native"]) "unknown dispatch_affinity";;
  raise_if (existsb empty_str (occupies self)) "occupies kinds must be non-empty strings".

Definition check_schema_ids (self : NodeSchema) : checked :=
  raise_if (has_dup (input_ids self)) "duplicate input ids";;
  raise_if (negb (forallb (fun s => adjacent_ok (input_ids self) (in_id s) (in_adjacent_to s)) (inputs self)))
    "adjacent_to must name another sibling input";;
  raise_if (has_dup (output_ids self)) "duplicate output ids".

Definition disjoint_strs (l k : list string) : bool := negb (existsb (fun s => str_in s k) l).

Definition check_widget_group (widget_ids : list string) (g : ConditionalWidgetGroup) : checked :=
  let drivers := map cc_input (cg_condition g :: cg_requires g) in
  raise_if (has_dup drivers) "widget group condition inputs must be unique";;
  raise_if (negb (all_in drivers widget_ids)) "widget group conditions must name top-level widget inputs";;
  raise_if (negb (all_in (cg_members g) widget_ids)) "widget group members must name top-level widget inputs";;
  raise_if (negb (disjoint_strs drivers (cg_members g))) "widget group conditions cannot control themselves".

Definition check_widget_groups (self : NodeSchema) : checked :=
  let widget_ids := map in_id (List.filter (fun s => present (in_widget s)) (inputs self)) in
  foldr (fun g k => check_widget_group widget_ids g;; k) (Ok tt) (widget_groups self).

Definition check_selector_branch (self : NodeSchema) (branch_id : string) : checked :=
  match inputs_by_id self branch_id, head (outputs self) with
  | None, _ => Err "selector branch is not an input"
  | Some b, Some o => raise_if (negb (bool_decide (in_type b = out_type o))) "selector branches must share the output type"
  | Some _, None => Err "IndexError"
  end.

Definition check_selector (self : NodeSchema) : checked :=
  match selector self with
  | None => Ok tt
  | Some sel =>
      raise_if (negb (length (outputs self) =? 1)%nat || negb (is_nil (output_families self))
                || present (output_descriptors self)) "selector schemas require exactly one output";;
      raise_if (match inputs_by_id self (sel_input sel) with
                | Some s => negb (bool_decide (in_type s = concrete_of CORE_BOOLEAN))
                | None => true
                end) "selector input must name a stored BOOLEAN input";;
      raise_if (str_in (sel_input sel) [branch sel "false"; branch sel "true"])
        "selector input must be distinct from branch inputs";;
      check_selector_branch self (branch sel "false");;
      check_selector_branch self (branch sel "true")
  end.

Definition RESERVED_INPUT_IDS : list string := ["output_spec"; "execution_context"; "input_values"].

(** [len(order) != len(all) or set(order) != set(all)]. *)
Definition same_ids (order all : list string) : bool :=
  (length order =? length all)%nat && bool_decide ((list_to_set order : gset string) = list_to_set all).

Definition all_entry_ids (self : NodeSchema) : list string :=
  input_ids self ++ in_family_ids self ++ combo_ids self ++ slot_ids self.

Definition check_input_order (self : NodeSchema) : checked :=
  (if is_nil (input_order self) then Ok tt
   else
     raise_if (negb (same_ids (input_order self) (all_entry_ids self))) "input_order must name every input exactly once";;
     raise_if (negb (forallb (fun group => bool_decide (List.filter (fun n => str_in n group) (input_order self) = group))
                       [input_ids self; in_family_ids self; combo_ids self; slot_ids self]))
       "input_order must preserve each group's order");;
  raise_if (negb (disjoint_strs RESERVED_INPUT_IDS (all_entry_ids self))) "reserved input id(s)";;
  raise_if (has_dup (slot_ids self)) "duplicate slot ids".

(** The loop over every slot that binds a type variable: [bound] are the
    variables earlier slots bound. *)
Fixpoint check_slot_bindings_loop (output_variables : list TypeExpr)
  (found : list (DynamicSlotSpec * slot_variants * nat)) (bound : list string) : checked :=
  match found with
  | [] => Ok tt
  | (slot, variants, depth) :: rest =>
      let tid := ds_type_template_id slot in
      if empty_str tid then check_slot_bindings_loop output_variables rest bound
      else
        let matching := List.filter (fun v => String.eqb (template_id v) tid) output_variables in
        raise_if (negb (depth =? 0)%nat) "type_template_id is only legal on top-level slots";;
        raise_if (str_in tid bound) "type variable is bound by multiple slots";;
        raise_if (is_nil matching) "slot binds a type variable, but no output uses it";;
        raise_if (match variants with
                  | Some vs => existsb (fun v => match runtime_type_id (sv_type v.1) with
                                                 | Some t => existsb (fun e => negb (accepts_concrete e t)) matching
                                                 | None => true
                                                 end) vs
                  | None => false
                  end) "slot variant type is outside output variable allowlist";;
        check_slot_bindings_loop output_variables rest (tid :: bound)
  end.

Definition output_types (self : NodeSchema) : list TypeExpr :=
  map out_type (outputs self) ++ map of_type (output_families self).

Definition check_slot_bindings (self : NodeSchema) : checked :=
  check_slot_bindings_loop (concat (map type_variables (output_types self))) (dynamic_slots (constructs self)) [].

Definition check_namespaces (self : NodeSchema) : checked :=
  let dynamic_ids := in_family_ids self ++ combo_ids self ++ slot_ids self in
  raise_if (has_dup dynamic_ids) "duplicate or colliding dynamic construct ids";;
  raise_if (negb (disjoint_strs dynamic_ids (input_ids self))) "dynamic construct id collides with an input id";;
  raise_if (existsb (fun c => existsb (startswith (c +:+ MEMBER_SEP)) (input_ids self)) dynamic_ids)
    "input shadows a dynamic construct";;
  raise_if (has_dup (map fst (slot_choices self))) "duplicate slot choice ids";;
  raise_if (negb (is_nil (slot_choices self))
            && negb (is_nil (input_families self) && is_nil (combos self) && is_nil (slots self)))
    "slot_choices belong to elaborated schemas";;
  raise_if (has_dup (in_family_ids self)) "duplicate input family ids";;
  raise_if (has_dup (out_family_ids self)) "duplicate output family ids".

Definition check_option_sources (self : NodeSchema) : checked :=
  raise_if (negb (forallb (fun s => forallb (fun o => str_in (input_family o) (in_family_ids self))
                                      (input_family_option_sources (in_widget s))) (inputs self)))
    "combo option source names unknown input family";;
  raise_if (existsb (fun s => negb (is_nil (input_family_option_sources (in_widget s)))) (dynamic_input_specs (constructs self)))
    "input-family combo option sources are only legal on top-level inputs".

(** [validate_output_type]. *)
Definition tuple_reference_ok (self : NodeSchema) (e : TypeExpr) : checked :=
  match kind e with
  | KFamilyTuple =>
      raise_if (match List.find (fun f => String.eqb (fam_id f.1) (input_id e)) (input_families self) with
                | Some (f, template) => negb (fam_independent_types f) || is_None (single_input template)
                | None => true
                end) "tuple output requires an independent single-input family"
  | KTupleElement =>
      raise_if (negb (empty_str (input_id e)) && is_None (inputs_by_id self (input_id e)))
        "tuple element references an unknown tuple input";;
      raise_if (match index e with
                | Some (IndexName n) =>
                    match inputs_by_id self n with
                    | Some s => negb (bool_decide (in_type s = concrete_of CORE_INT))
                    | None => true
                    end
                | _ => false
                end) "tuple element selector must reference an INT input"
  | _ => Ok tt
  end.

Fixpoint validate_output_type (self : NodeSchema) (e : TypeExpr) : checked :=
  tuple_reference_ok self e;;
  match e with
  | mkTypeExpr _ _ _ el els _ _ =>
      match el with Some x => validate_output_type self x | None => Ok tt end;;
      foldr (fun p k => p;; k) (Ok tt) (map (validate_output_type self) els)
  end.

Definition check_types (self : NodeSchema) : checked :=
  raise_if (existsb (fun s => requires_elaboration (in_type s)) (inputs self ++ dynamic_input_specs (constructs self)))
    "input types cannot reference family or literal output declarations";;
  foldr (fun e k => validate_output_type self e;; k) (Ok tt) (output_types self).

(** A required top-level input of exactly this type. *)
Definition required_input (self : NodeSchema) (id type_id : string) : bool :=
  match inputs_by_id self id with
  | Some s => in_required s && bool_decide (in_type s = concrete_of type_id)
  | None => false
  end.

Definition check_descriptors (self : NodeSchema) : checked :=
  match output_descriptors self with
  | None => Ok tt
  | Some d =>
      raise_if (negb (required_input self (od_input d) CORE_STRING))
        "output descriptors require a required top-level STRING input";;
      match od_probe d with
      | Some p => raise_if (negb (required_input self (op_input p) ASSET_TYPE))
                    "output probe requires a required top-level ASSET input"
      | None => Ok tt
      end
  end.

Definition is_asset_widget (d : WidgetDescriptor) : bool := match d with WAsset _ => true | _ => false end.

Definition has_asset_widget (w : option Widget) : bool :=
  match w with
  | Some (Single d) => is_asset_widget d
  | Some (Named r) => forallb (fun i => is_asset_widget (wr_widget i)) (representations r)
  | None => false
  end.

Definition check_known_value (self : NodeSchema) (o : OutputSpec) : checked :=
  match out_known_value o with
  | None => Ok tt
  | Some id =>
      match inputs_by_id self id with
      | None => Err "known value input is not a declared top-level input"
      | Some s =>
          raise_if (negb (bool_decide (in_type s = out_type o))
                    || negb (existsb (fun t => bool_decide (out_type o = concrete_of t))
                               [CORE_INT; CORE_FLOAT; CORE_STRING; CORE_BOOLEAN]))
            "known value must reference an input with the same concrete primitive type"
      end
  end.

Definition check_represents (self : NodeSchema) (o : OutputSpec) : checked :=
  match out_represents o with
  | None => Ok tt
  | Some r =>
      match inputs_by_id self (or_input r) with
      | None => Err "represents input is not a declared top-level input"
      | Some s =>
          raise_if (negb (has_asset_widget (in_widget s))) "represents input must use an asset widget";;
          match or_applies r with
          | Some a => validate_applies_against_combos a (combos self)
          | None => Ok tt
          end
      end
  end.

Definition check_outputs (self : NodeSchema) : checked :=
  foldr (fun o k => check_known_value self o;; check_represents self o;; k) (Ok tt) (outputs self);;
  raise_if (existsb (fun f => match of_count f with
                              | Some id => negb (required_input self id CORE_INT)
                              | None => false
                              end) (output_families self))
    "output family count must reference a required top-level INT input";;
  raise_if (negb (disjoint_strs (in_family_ids self) (input_ids self))) "input family id collides with input id";;
  raise_if (negb (disjoint_strs (out_family_ids self) (output_ids self))) "output family id collides with output id";;
  raise_if (existsb (fun f => existsb (fun i => present (member_suffix f i)) (input_ids self)) (in_family_ids self))
    "input shadows family";;
  raise_if (existsb (fun f => existsb (fun i => present (member_suffix f i)) (output_ids self)) (out_family_ids self))
    "output shadows family".

Definition schema_post_init (self : NodeSchema) : checked :=
  check_schema_head self;;
  check_chunk_safe self;;
  check_schema_meta self;;
  check_schema_ids self;;
  check_widget_groups self;;
  check_selector self;;
  check_input_order self;;
  check_slot_bindings self;;
  check_namespaces self;;
  check_option_sources self;;
  check_types self;;
  check_descriptors self;;
  check_outputs self.

(** * Induction over nested entries *)

Section DynamicEntry_induction.
Variable P : DynamicEntry -> Prop.
Hypothesis HInput : forall s, P (DInput s).
Hypothesis HFamily : forall f template, Forall P template -> P (DFamily f template).
Hypothesis HCombo : forall c options, Forall (fun o => Forall P o.2) options -> P (DCombo c options).
Hypothesis HSlot : forall s variants inputs,
  Forall P inputs -> Forall (fun v => Forall P v.2) (default [] variants) -> P (DSlot s variants inputs).

Fixpoint DynamicEntry_ind_nested (e : DynamicEntry) : P e :=
  let all := fix all (l : list DynamicEntry) : Forall P l :=
    match l with
    | [] => Forall_nil_2 P
    | x :: l' => Forall_cons_2 P x l' (DynamicEntry_ind_nested x) (all l')
    end in
  match e with
  | DInput s => HInput s
  | DFamily f template => HFamily f template (all template)
  | DCombo c options =>
      HCombo c options ((fix each (l : list (string * list DynamicEntry)) : Forall (fun o => Forall P o.2) l :=
        match l with
        | [] => Forall_nil_2 _
        | x :: l' => Forall_cons_2 (fun o => Forall P o.2) x l'
                       (match x return Forall P x.2 with (_, es) => all es end) (each l')
        end) options)
  | DSlot s variants inputs =>
      HSlot s variants inputs (all inputs)
        (match variants return Forall (fun v => Forall P v.2) (default [] variants) with
         | None => Forall_nil_2 _
         | Some vs => (fix each (l : list (SlotVariant * list DynamicEntry)) : Forall (fun v => Forall P v.2) l :=
             match l with
             | [] => Forall_nil_2 _
             | x :: l' => Forall_cons_2 (fun v => Forall P v.2) x l'
                            (match x return Forall P x.2 with (_, es) => all es end) (each l')
             end) vs
         end)
  end.
End DynamicEntry_induction.
