(* ===== verification/Elaborate.v ===== *)
(** Elaborate: dynamic interfaces become concrete (dinkster_schema/elaborate.py
    and output_descriptors.py): the effective schema of one node from the base
    schema and the document's stored inputs, output members and choices. *)
From S2P Require Import Prelude PyStr Names TypeIds TypeExprs Widgets Schema.
From Stdlib Require Import Ascii.

Local Open Scope string_scope.
Local Open Scope Z_scope.
Local Open Scope list_scope.

Definition MAX_FAMILY_MEMBERS : Z := 512.
Definition MAX_INTERFACE_ITEMS : Z := 1024.
Definition MAX_DESCRIPTOR_BYTES : Z := 1048576.

(** [ElaborationError] is the deterministic refusal; a ValueError raised by
    re-constructing a schema object, a failed assertion and a StopIteration
    are not. *)
Inductive elab_error := ElaborationError (m : string) | ValueErr (m : string) | Crash (m : string).

#[export] Instance elab_error_eq_dec : EqDecision elab_error.
Proof. solve_decision. Defined.

Abbreviation elab := (result elab_error).

Definition refuse {A} (m : string) : elab A := Err (ElaborationError m).
Definition refuse_if (c : bool) (m : string) : elab unit := raise_if c (ElaborationError m).

(** A construction's ValueError, uncaught. *)
Definition lift {A} (r : result string A) : elab A :=
  match r with Ok a => Ok a | Err m => Err (ValueErr m) end.

Definition build_input (s : InputSpec) : elab InputSpec := lift (input_post_init s);; Ok s.
Definition build_output (o : OutputSpec) : elab OutputSpec := lift (output_post_init o);; Ok o.

(** [[f(x) for x in l]] where [f] may raise. *)
Fixpoint traverse {A B} (f : A -> elab B) (l : list A) : elab (list B) :=
  match l with
  | [] => Ok []
  | a :: l' => b ← f a; bs ← traverse f l'; Ok (b :: bs)
  end.

(** * Document state *)

(** [stored_inputs]: the node's input mapping, or only its keys. A link or a
    typed literal in the mapping is an object of its own class. *)
Inductive stored := StoredMap (d : list (string * pyval)) | StoredIds (ids : list string).

Definition stored_ids (s : stored) : list string :=
  match s with StoredMap d => keys d | StoredIds ids => ids end.

Definition stored_values (s : stored) : option (list (string * pyval)) :=
  match s with StoredMap d => Some d | StoredIds _ => None end.

(** [None if stored is None else stored.get(name)], None for Python's None. *)
Definition stored_get (s : option (list (string * pyval))) (name : string) : option pyval :=
  d ← s; dict_get d name.

Abbreviation choice_map := (list (string * pyval)).

(** What a piece of the interface contributes: inputs, active choices, and the
    choice paths it consumed. *)
Record piece := mkPiece {
  p_inputs : list InputSpec; p_active : list (string * string); p_consumed : list string }.

Definition no_piece : piece := mkPiece [] [] [].

Definition join_piece (a b : piece) : piece :=
  mkPiece (p_inputs a ++ p_inputs b) (p_active a ++ p_active b) (p_consumed a ++ p_consumed b).

Definition join_path (parent local : string) : string :=
  if empty_str parent then local else parent +:+ ("." +:+ local).

(** * Types *)

Fixpoint scope_member_type (e : TypeExpr) (member : string) : TypeExpr :=
  match e with
  | mkTypeExpr k ts tid el els i ix =>
      match k with
      | KVariable => mkTypeExpr k ts (member +:+ (":" +:+ tid)) el els i ix
      | _ =>
          mkTypeExpr k ts tid
            match el with Some x => Some (scope_member_type x member) | None => None end
            (map (fun x => scope_member_type x member) els) i ix
      end
  end.

Definition lift_expr {A} (r : result expr_error A) : elab A :=
  match r with Ok a => Ok a | Err _ => Err (ValueErr "TypeExpr") end.

(** [bindings]: node-level type variables to the selected variants' types. *)
Fixpoint substitute_type (e : TypeExpr) (bindings : list (string * TypeExpr)) : elab TypeExpr :=
  match e with
  | mkTypeExpr k ts tid el els i ix =>
      match k with
      | KVariable =>
          match dict_get bindings tid with
          | None => Ok e
          | Some bound =>
              match runtime_type_id bound with
              | None => Err (Crash "AssertionError")
              | Some type_id =>
                  refuse_if (negb (accepts_concrete e type_id)) "type variable does not allow selected type";;
                  Ok bound
              end
          end
      | KTuple =>
          els' ← traverse (fun x => substitute_type x bindings) els;
          lift_expr (construct (mkTypeExpr k ts tid el els' i ix))
      | KList | KAsset | KStream | KTupleElement =>
          match el with
          | None => Err (Crash "AssertionError")
          | Some x =>
              x' ← substitute_type x bindings;
              lift_expr (construct (mkTypeExpr k ts tid (Some x') els i ix))
          end
      | _ => Ok e
      end
  end.

Definition input_named (inputs : list InputSpec) (id : string) : option InputSpec :=
  List.find (fun s => String.eqb (in_id s) id) inputs.

(** The index of a tuple element: its own integer, or the stored literal of
    the input it names. *)
Definition element_index (ix : option index_ref) (inputs : list InputSpec)
  (stored : option (list (string * pyval))) : elab (option index_ref) :=
  match ix with
  | Some (IndexName name) =>
      match stored with
      | None => refuse "tuple index requires stored literal input values"
      | Some d =>
          match input_named inputs name with
          | None => Err (Crash "StopIteration")
          | Some sel =>
              match default (in_default sel) (dict_get d name) with
              | VInt z => Ok (Some (IndexInt z))
              | _ => refuse "tuple index must be a constant INT; use a list for same-typed items"
              end
          end
      end
  | _ => Ok ix
  end.

Fixpoint project_tuple_output (e : TypeExpr) (inputs : list InputSpec)
  (stored : option (list (string * pyval))) : elab TypeExpr :=
  match e with
  | mkTypeExpr k ts tid el els i ix =>
      match k with
      | KFamilyTuple =>
          lift_expr (tuple_of (map in_type (List.filter (fun s => startswith (i +:+ ".") (in_id s)) inputs)))
      | KTupleElement =>
          element ← (if empty_str i
                     then match el with Some x => Ok x | None => Err (Crash "AssertionError") end
                     else match input_named inputs i with
                          | Some s => Ok (in_type s)
                          | None => Err (Crash "StopIteration")
                          end);
          ix' ← element_index ix inputs stored;
          lift_expr (construct (mkTypeExpr KTupleElement [] "" (Some element) [] "" ix'))
      | _ =>
          el' ← match el with
                | None => Ok None
                | Some x => x' ← project_tuple_output x inputs stored; Ok (Some x')
                end;
          els' ← traverse (fun x => project_tuple_output x inputs stored) els;
          lift_expr (construct (mkTypeExpr k ts tid el' els' i ix))
      end
  end.

(** * Widgets that list a family's members *)

(** The member suffixes of a family among ids, in order of first appearance:
    what follows the prefix up to the next dot, unless empty. *)
Definition suffix_of (prefix id : string) : option string :=
  if startswith prefix id
  then match str_split dot (str_drop (String.length prefix) id) with
       | s :: _ => if empty_str s then None else Some s
       | [] => None
       end
  else None.

Definition add_suffix (acc : list string) (s : string) : list string :=
  if str_in s acc then acc else acc ++ [s].

Definition suffixes_of (prefix : string) (ids acc : list string) : list string :=
  foldl add_suffix acc (omap (suffix_of prefix) ids).

Definition materialize_descriptor (d : WidgetDescriptor) (inputs : list InputSpec) : elab WidgetDescriptor :=
  match d with
  | WCombo w =>
      match cw_option_source w with
      | None => Ok d
      | Some src =>
          let suffixes := suffixes_of (input_family src +:+ ".") (map in_id inputs) [] in
          let w' := mkComboWidget (map (fun s => Bare (VStr s)) suffixes) None (cw_remote_route w)
                      (cw_refresh_button w) (cw_control_after_generate w) (cw_policy w) (cw_editable_options w) in
          lift (combo_post_init w');; Ok (WCombo w')
      end
  | _ => Ok d
  end.

Definition materialize_family_options (w : Widget) (inputs : list InputSpec) : elab Widget :=
  match w with
  | Single d => d' ← materialize_descriptor d inputs; Ok (Single d')
  | Named r =>
      items ← traverse (fun i =>
        d' ← materialize_descriptor (wr_widget i) inputs;
        Ok (mkRepresentation (wr_id i) d' (wr_display_name i))) (representations r);
      let r' := mkRepresentations items (wr_default r) (user_switchable r) in
      lift (representations_post_init r');; Ok (Named r')
  end.

(** * Dynamic entries *)

Definition with_id (s : InputSpec) (id : string) (adjacent : option string) : InputSpec :=
  mkInputSpec id (in_type s) (in_required s) (in_default s) (in_doc s) (in_on_absent s) (in_widget s)
    (in_display_name s) (in_force_input s) (in_advanced s) (in_hidden s) (in_lazy s) (in_source_filename s)
    (in_accepts_storage s) (in_accepts_stream s) (in_accepts_list s) (in_alpha_policy s) (in_mask_polarity s)
    (in_mask_semantic s) adjacent (in_socketless s).

Definition with_type (s : InputSpec) (t : TypeExpr) : InputSpec :=
  mkInputSpec (in_id s) t (in_required s) (in_default s) (in_doc s) (in_on_absent s) (in_widget s)
    (in_display_name s) (in_force_input s) (in_advanced s) (in_hidden s) (in_lazy s) (in_source_filename s)
    (in_accepts_storage s) (in_accepts_stream s) (in_accepts_list s) (in_alpha_policy s) (in_mask_polarity s)
    (in_mask_semantic s) (in_adjacent_to s) (in_socketless s).

Definition with_required (s : InputSpec) (r : bool) : InputSpec :=
  mkInputSpec (in_id s) (in_type s) r (in_default s) (in_doc s) (in_on_absent s) (in_widget s)
    (in_display_name s) (in_force_input s) (in_advanced s) (in_hidden s) (in_lazy s) (in_source_filename s)
    (in_accepts_storage s) (in_accepts_stream s) (in_accepts_list s) (in_alpha_policy s) (in_mask_polarity s)
    (in_mask_semantic s) (in_adjacent_to s) (in_socketless s).

Definition with_widget (s : InputSpec) (w : option Widget) : InputSpec :=
  mkInputSpec (in_id s) (in_type s) (in_required s) (in_default s) (in_doc s) (in_on_absent s) w
    (in_display_name s) (in_force_input s) (in_advanced s) (in_hidden s) (in_lazy s) (in_source_filename s)
    (in_accepts_storage s) (in_accepts_stream s) (in_accepts_list s) (in_alpha_policy s) (in_mask_polarity s)
    (in_mask_semantic s) (in_adjacent_to s) (in_socketless s).

Definition with_stream (s : InputSpec) (b : bool) : InputSpec :=
  mkInputSpec (in_id s) (in_type s) (in_required s) (in_default s) (in_doc s) (in_on_absent s) (in_widget s)
    (in_display_name s) (in_force_input s) (in_advanced s) (in_hidden s) (in_lazy s) (in_source_filename s)
    (in_accepts_storage s) b (in_accepts_list s) (in_alpha_policy s) (in_mask_polarity s)
    (in_mask_semantic s) (in_adjacent_to s) (in_socketless s).

(** [int(number)] of a canonical decimal, the only spelling that survives the
    checks after it; CPython converts at most 4300 digits. *)
Definition canonical_decimal (number : string) : option Z :=
  if empty_str number || (4300 <? String.length number)%nat then None
  else
    p ← int_of_digits 0 number;
    if String.eqb number (pretty (Z.to_N p)) then Some p else None.

Definition removeprefix (prefix s : string) : string :=
  if startswith prefix s then str_drop (String.length prefix) s else s.

(** [member_names.index(suffix)]. *)
Fixpoint index_of (s : string) (l : list string) : option Z :=
  match l with
  | [] => None
  | x :: l' => if String.eqb x s then Some 0 else Z.succ <$> index_of s l'
  end.

Definition member_position (f : InputFamilySpec) (suffix : string) : elab Z :=
  position ← match fam_member_names f, fam_member_prefix f with
             | Some names, _ =>
                 match index_of suffix names with Some p => Ok p | None => refuse "input family has unknown member" end
             | None, Some prefix =>
                 let number := removeprefix prefix suffix in
                 match canonical_decimal number with
                 | Some p => if String.eqb suffix (prefix +:+ number) then Ok p
                             else refuse "input family has noncanonical member"
                 | None => refuse "input family has invalid numeric member"
                 end
             | None, None => Err (Crash "AssertionError")
             end;
  refuse_if (match fam_max_members f with Some m => m <=? position | None => false end)
    "input family member exceeds its maximum";;
  Ok position.

Fixpoint member_positions (f : InputFamilySpec) (suffixes : list string) : elab (list (string * Z)) :=
  match suffixes with
  | [] => Ok []
  | s :: rest => p ← member_position f s; ps ← member_positions f rest; Ok ((s, p) :: ps)
  end.

(** The suffix a required position has. *)
Definition position_suffix (f : InputFamilySpec) (position : nat) : elab string :=
  match fam_member_names f, fam_member_prefix f with
  | Some names, _ => match names !! position with Some n => Ok n | None => Err (Crash "IndexError") end
  | None, Some prefix => Ok (prefix +:+ pretty (N.of_nat position))
  | None, None => Ok ("None" +:+ pretty (N.of_nat position))
  end.

Fixpoint fill_required (f : InputFamilySpec) (positions : list nat) (acc : list (string * Z)) : elab (list (string * Z)) :=
  match positions with
  | [] => Ok acc
  | n :: rest => s ← position_suffix f n; fill_required f rest (dict_set acc s (Z.of_nat n))
  end.

(** The members a family with [optional_after_minimum] has, with positions. *)
Definition fixed_positions (f : InputFamilySpec) (template : list DynamicEntry) (suffixes : list string) :
  elab (list (string * Z)) :=
  positions ← member_positions f suffixes;
  match template with
  | DInput t :: _ =>
      if in_required t then
        refuse_if (MAX_FAMILY_MEMBERS <? fam_min_members f) "input family minimum exceeds member budget";;
        fill_required f (seq 0 (Z.to_nat (fam_min_members f))) positions
      else Ok positions
  | _ => Err (Crash "AssertionError")
  end.

(** The members of a family in the document, checked: suffixes and, where the
    family fixes them, positions. *)
Definition family_members (f : InputFamilySpec) (template : list DynamicEntry) (path : string)
  (ids : list string) (choices : choice_map) : elab (list string * list (string * Z)) :=
  let prefix := path +:+ "." in
  let found := suffixes_of prefix (keys choices) (suffixes_of prefix ids []) in
  positions ← (if fam_optional_after_minimum f then fixed_positions f template found else Ok []);
  let suffixes := if fam_optional_after_minimum f then keys positions else found in
  let n := Z.of_nat (length suffixes) in
  refuse_if (MAX_FAMILY_MEMBERS <? n) "input family members exceed the budget";;
  refuse_if (negb (fam_optional_after_minimum f) && (n <? fam_min_members f)) "input family needs more members";;
  refuse_if (match fam_max_members f with Some m => m <? n | None => false end) "input family allows fewer members";;
  Ok (suffixes, positions).

(** The checks that open each round of the member loop. *)
Definition check_member (f : InputFamilySpec) (suffix : string) : elab unit :=
  refuse_if (negb (structural_match suffix)) "input family has invalid member suffix";;
  refuse_if (match fam_member_names f with Some names => negb (str_in suffix names) | None => false end)
    "input family member suffix is not in member_names".

(** A member of a family whose template is one input. *)
Definition single_member (f : InputFamilySpec) (t : InputSpec) (member_path suffix : string)
  (positions : list (string * Z)) : elab InputSpec :=
  let within := match dict_get positions suffix with Some p => p <? fam_min_members f | None => false end in
  let required := in_required t && (negb (fam_optional_after_minimum f) || within) in
  let type := if fam_independent_types f then scope_member_type (in_type t) member_path else in_type t in
  build_input (with_type (with_required (with_id t member_path (in_adjacent_to t)) required) type).

Definition scope_inputs (f : InputFamilySpec) (member_path : string) (inputs : list InputSpec) : elab (list InputSpec) :=
  if fam_independent_types f
  then traverse (fun s => build_input (with_type s (scope_member_type (in_type s) member_path))) inputs
  else Ok inputs.

(** [_choice]: the raw stored choice, None when absent or None. *)
Definition choice (path : string) (raw : option pyval) (required : bool) : elab (option string) :=
  match raw with
  | None | Some VNone =>
      if required then refuse "required dynamic construct has no stored choice" else Ok None
  | Some (VStr s) => Ok (Some s)
  | Some _ => refuse "dynamic construct has a non-string choice"
  end.

Definition consumed_choice (path : string) (choices : choice_map) : list string :=
  if dict_mem choices path then [path] else [].

(** Loops over entries and over members, joining what each contributes. *)
Fixpoint join_all {A} (f : A -> elab piece) (l : list A) : elab piece :=
  match l with
  | [] => Ok no_piece
  | a :: l' => p ← f a; q ← join_all f l'; Ok (join_piece p q)
  end.

Fixpoint lookup_with {A B C} (key : A -> string) (k : string) (f : A -> B -> C) (l : list (A * B)) : option C :=
  match l with
  | [] => None
  | (a, b) :: l' => if String.eqb (key a) k then Some (f a b) else lookup_with key k f l'
  end.

Definition id_key (k : string) : string := k.

(** The input a slot itself becomes. *)
Definition slot_input (s : DynamicSlotSpec) (path : string) (type : TypeExpr) (required force : bool) : InputSpec :=
  mkInputSpec path type required VNone (ds_doc s) None None (ds_display_name s) force false false false None
    false false false "preserve" None None None false.

Fixpoint elaborate_entry (e : DynamicEntry) (parent : string) (ids : list string) (choices : choice_map) : elab piece :=
  match e with
  | DInput s =>
      s' ← build_input (with_id s (join_path parent (in_id s)) (join_path parent <$> in_adjacent_to s));
      Ok (mkPiece [s'] [] [])
  | DFamily f template =>
      let path := join_path parent (fam_id f) in
      members ← family_members f template path ids choices;
      join_all (fun suffix =>
        check_member f suffix;;
        let member_path := join_path path suffix in
        match single_input template with
        | Some t => s ← single_member f t member_path suffix members.2; Ok (mkPiece [s] [] [])
        | None =>
            p ← join_all (fun e' => elaborate_entry e' member_path ids choices) template;
            inputs ← scope_inputs f member_path (p_inputs p);
            Ok (mkPiece inputs (p_active p) (p_consumed p))
        end) members.1
  | DCombo c options =>
      let path := join_path parent (dc_id c) in
      let consumed := consumed_choice path choices in
      if is_nil options && negb (dict_mem choices path) then Ok (mkPiece [] [] consumed)
      else
        key ← choice path (dict_get choices path) (dc_required c);
        match key with
        | None => Ok (mkPiece [] [] consumed)
        | Some k =>
            match lookup_with id_key k (fun _ es => join_all (fun e' => elaborate_entry e' path ids choices) es) options with
            | None => refuse "dynamic combo has unknown option choice"
            | Some nested => p ← nested; Ok (mkPiece (p_inputs p) ((path, k) :: p_active p) (consumed ++ p_consumed p))
            end
        end
  | DSlot s variants inputs =>
      let path := join_path parent (ds_id s) in
      let required := slot_is_required s variants in
      match variants with
      | None =>
          own ← match ds_slot_type s with
                | Some t => build_input (slot_input s path t required (ds_force_input s))
                | None => Err (Crash "AssertionError")
                end;
          if negb (str_in path ids) then Ok (mkPiece [own] [] [])
          else
            p ← join_all (fun e' => elaborate_entry e' path ids choices) inputs;
            Ok (mkPiece (own :: p_inputs p) (p_active p) (p_consumed p))
      | Some vs =>
          refuse_if (negb (dict_mem choices path) && required) "required slot has no stored variant choice";;
          key ← choice path (dict_get choices path) required;
          let consumed := consumed_choice path choices in
          match key with
          | None => Ok (mkPiece [] [] consumed)
          | Some k =>
              match lookup_with sv_key k
                      (fun v es => (v, join_all (fun e' => elaborate_entry e' path ids choices) es)) vs with
              | None => refuse "dynamic slot has unknown variant choice"
              | Some (v, nested) =>
                  own ← build_input (slot_input s path (sv_type v) true false);
                  p ← join_all (fun e' => elaborate_entry e' path ids choices) inputs;
                  q ← nested;
                  Ok (mkPiece (own :: p_inputs p ++ p_inputs q) ((path, k) :: p_active p ++ p_active q)
                        (consumed ++ p_consumed p ++ p_consumed q))
              end
          end
      end
  end.

Definition elaborate_dynamic_entries (entries : list DynamicEntry) (parent : string) (ids : list string)
  (choices : choice_map) : elab piece :=
  join_all (fun e => elaborate_entry e parent ids choices) entries.

(** * Outputs *)

Definition count_suffixes (n : Z) : list string := map (fun i => pretty (N.of_nat i)) (seq 0 (Z.to_nat n)).

(** The stored members of a count-bound family must be the canonical ones. *)
Definition check_count (f : OutputFamilySpec) (suffixes : list pyval) (stored : option (list (string * pyval))) : elab unit :=
  match of_count f with
  | None => Ok tt
  | Some input =>
      match stored_get stored input with
      | Some (VInt value) =>
          refuse_if (value <? 0) "output family count must be >= 0";;
          refuse_if (MAX_FAMILY_MEMBERS <? value) "output family count exceeds the member budget";;
          refuse_if ((value <? of_min_members f) || match of_max_members f with Some m => m <? value | None => false end)
            "output family count is outside its bounds";;
          refuse_if (negb (bool_decide (mapM as_str suffixes = Some (count_suffixes value))))
            "output family members must exactly equal the canonical count suffixes"
      | _ => refuse "output family count input must be a stored untyped integer literal"
      end
  end.

(** The member loop of one family: [seen] are the suffixes so far. *)
Fixpoint family_outputs (f : OutputFamilySpec) (static_ids : list string) (suffixes : list pyval) (seen : list string) :
  elab (list OutputSpec) :=
  match suffixes with
  | [] => Ok []
  | VStr s :: rest =>
      refuse_if (empty_str s) "output family has an empty or non-string member suffix";;
      refuse_if (str_in s seen) "output family has duplicate member suffix";;
      refuse_if (str_in (member_id (of_id f) s) static_ids) "output member collides with a static output";;
      o ← build_output (plain_output (member_id (of_id f) s) (of_type f) (of_doc f) (of_preview f));
      os ← family_outputs f static_ids rest (s :: seen);
      Ok (o :: os)
  | _ :: _ => refuse "output family has an empty or non-string member suffix"
  end.

Definition elaborate_output_family (output_members : list (string * list pyval)) (static_ids : list string)
  (stored : option (list (string * pyval))) (f : OutputFamilySpec) : elab (list OutputSpec) :=
  let suffixes := default [] (dict_get output_members (of_id f)) in
  check_count f suffixes stored;;
  refuse_if (MAX_FAMILY_MEMBERS <? Z.of_nat (length suffixes)) "output family members exceed the budget";;
  family_outputs f static_ids suffixes [].

Section descriptors.
(** [json.loads(text, parse_constant=...)], None for a document it refuses. *)
Variable json_loads : string -> option pyval.

Fixpoint all_dicts (l : list pyval) : option (list (list (pyval * pyval))) :=
  match l with
  | [] => Some []
  | VDict d :: l' => (d ::.) <$> all_dicts l'
  | _ :: _ => None
  end.

Definition output_descriptor_entries (value : option pyval) : result string (list (list (pyval * pyval))) :=
  match value with
  | Some (VStr text) =>
      raise_if (MAX_DESCRIPTOR_BYTES <? utf8_length text) "output descriptor document exceeds the byte budget";;
      match json_loads text with
      | None => Err "output descriptor document must be valid JSON"
      | Some (VDict document) =>
          match vdict_get document "entries" with
          | Some (VList entries) =>
              raise_if (512 <? length entries)%nat "output descriptor entries must be a list of at most 512 entries";;
              match all_dicts entries with
              | Some ds => Ok ds
              | None => Err "output descriptor entries must be objects"
              end
          | _ => Err "output descriptor entries must be a list of at most 512 entries"
          end
      | Some _ => Err "output descriptor document must be an object with entries"
      end
  | _ => Err "output descriptors must be a stored string literal, not a link"
  end.

Definition nul : ascii := "000"%char.

Definition with_output_id (o : OutputSpec) (id name : string) : OutputSpec :=
  mkOutputSpec id (out_type o) (out_doc o) (out_optional o) (out_preview o) (out_represents o)
    (out_known_value o) name (out_alpha_policy o) (out_mask_polarity o) (out_mask_semantic o).

Fixpoint descriptor_outputs (spec : OutputDescriptorsSpec) (entries : list (list (pyval * pyval)))
  (ids names : list string) : result string (list OutputSpec) :=
  match entries with
  | [] => Ok []
  | entry :: rest =>
      match vdict_get entry "id", vdict_get entry "name" with
      | Some (VStr member), name =>
          raise_if (negb (structural_fullmatch member)) "output descriptor id must match [A-Za-z0-9_-]+";;
          match name with
          | Some (VStr n) =>
              raise_if (empty_str (strip n) || (256 <? String.length n)%nat || str_has nul n)
                "output descriptor name must be non-empty and at most 256 characters";;
              raise_if (str_in member ids || str_in n names) "output descriptor ids and names must be unique";;
              match vdict_get entry "type" with
              | Some (VStr choice_id) =>
                  match List.find (fun c => String.eqb (out_id c) choice_id) (od_choices spec) with
                  | None => Err "unknown output descriptor type choice"
                  | Some c =>
                      raise_if (od_fixed_ids spec && negb (String.eqb member choice_id))
                        "fixed output descriptor ids must equal their semantic choice ids";;
                      os ← descriptor_outputs spec rest (member :: ids) (n :: names);
                      Ok (with_output_id c member n :: os)
                  end
              | _ => Err "unknown output descriptor type choice"
              end
          | _ => Err "output descriptor name must be non-empty and at most 256 characters"
          end
      | _, _ => Err "output descriptor id must match [A-Za-z0-9_-]+"
      end
  end.

Definition elaborate_output_descriptors (spec : OutputDescriptorsSpec) (value : option pyval) : result string (list OutputSpec) :=
  entries ← output_descriptor_entries value;
  raise_if (negb ((od_min_entries spec <=? Z.of_nat (length entries)) && (Z.of_nat (length entries) <=? od_max_entries spec)))
    "output descriptor count is outside its declared bounds";;
  descriptor_outputs spec entries [] [].

(** [_elaborate_outputs]: the static outputs, the families' members, the
    described outputs; a ValueError of the last is an ElaborationError. *)
Definition elaborate_outputs (schema : NodeSchema) (output_members : list (string * list pyval))
  (stored : option (list (string * pyval))) : elab (list OutputSpec) :=
  let declared := out_family_ids schema in
  let static_ids := output_ids schema in
  refuse_if (negb (all_in (keys output_members) declared)) "output members stored for undeclared family(ies)";;
  members ← traverse (elaborate_output_family output_members static_ids stored) (output_families schema);
  let outs := outputs schema ++ concat members in
  match output_descriptors schema with
  | None => Ok outs
  | Some spec =>
      match elaborate_output_descriptors spec (stored_get stored (od_input spec)) with
      | Err m => refuse m
      | Ok described =>
          refuse_if (negb (disjoint_strs (map out_id described) (map out_id outs ++ declared)))
            "descriptor collides with an output";;
          Ok (outs ++ described)
      end
  end.

(** * The whole interface *)

Definition additional_reserved (schema : NodeSchema) : list string := map entry_id (constructs schema).

(** The loop over stored ids that no declaration made: [seen] are the ids the
    interface has so far. *)
Fixpoint additional_loop (type : TypeExpr) (reserved : list string) (ids seen : list string) : elab (list InputSpec) :=
  match ids with
  | [] => Ok []
  | id :: rest =>
      if str_in id seen then additional_loop type reserved rest seen
      else
        refuse_if (empty_str id || str_has nul id) "additional input names must be non-empty strings without NUL";;
        refuse_if (existsb (fun root => String.eqb id root || startswith (root +:+ ".") id) reserved)
          "additional input belongs to a declared dynamic construct";;
        s ← build_input (plain_input id (scope_member_type type id) false);
        more ← additional_loop type reserved rest (id :: seen);
        Ok (s :: more)
  end.

Definition add_additional (schema : NodeSchema) (ids : list string) (inputs : list InputSpec) : elab (list InputSpec) :=
  match additional_inputs schema with
  | None => Ok inputs
  | Some type =>
      more ← additional_loop type (additional_reserved schema) ids (map in_id inputs);
      Ok (inputs ++ more)
  end.

Definition materialize_input (inputs : list InputSpec) (s : InputSpec) : elab InputSpec :=
  match in_widget s with
  | None => Ok s
  | Some w => w' ← materialize_family_options w inputs; build_input (with_widget s (Some w'))
  end.

(** [_slot_type_bindings]. *)
Fixpoint slot_type_bindings (slots : list (DynamicSlotSpec * slot_variants * list DynamicEntry)) (choices : choice_map) :
  elab (list (string * TypeExpr)) :=
  match slots with
  | [] => Ok []
  | (s, variants, _) :: rest =>
      if empty_str (ds_type_template_id s) then slot_type_bindings rest choices
      else
        match dict_get choices (ds_id s) with
        | Some (VStr key) =>
            match lookup_with sv_key key (fun v _ => sv_type v) (default [] variants) with
            | Some t => more ← slot_type_bindings rest choices; Ok ((ds_type_template_id s, t) :: more)
            | None => Err (Crash "AssertionError")
            end
        | _ => Err (Crash "AssertionError")
        end
  end.

Definition substitute_input (bindings : list (string * TypeExpr)) (s : InputSpec) : elab InputSpec :=
  t ← substitute_type (in_type s) bindings; build_input (with_type s t).

Definition with_output_type (o : OutputSpec) (t : TypeExpr) : OutputSpec :=
  mkOutputSpec (out_id o) t (out_doc o) (out_optional o) (out_preview o) (out_represents o)
    (out_known_value o) (out_display_name o) (out_alpha_policy o) (out_mask_polarity o) (out_mask_semantic o).

Definition with_represents (o : OutputSpec) (r : option OutputRepresents) : OutputSpec :=
  mkOutputSpec (out_id o) (out_type o) (out_doc o) (out_optional o) (out_preview o) r
    (out_known_value o) (out_display_name o) (out_alpha_policy o) (out_mask_polarity o) (out_mask_semantic o).

Definition substitute_output (bindings : list (string * TypeExpr)) (o : OutputSpec) : elab OutputSpec :=
  t ← substitute_type (out_type o) bindings; build_output (with_output_type o t).

Definition project_output (inputs : list InputSpec) (stored : option (list (string * pyval))) (o : OutputSpec) : elab OutputSpec :=
  if requires_elaboration (out_type o)
  then t ← project_tuple_output (out_type o) inputs stored; build_output (with_output_type o t)
  else Ok o.

(** Bindings rewrite a list only when there are some. *)
Definition when_bound {A} (bindings : list (string * TypeExpr)) (f : A -> elab A) (l : list A) : elab (list A) :=
  match bindings with [] => Ok l | _ => traverse f l end.

(** [scope_is_covered]; the scope's combos all have a choice. *)
Fixpoint scope_is_covered (applies : applies_map) (chosen : list (string * string)) : elab bool :=
  match applies with
  | [] => Ok true
  | (combo_id, covered) :: rest =>
      match dict_get chosen combo_id with
      | None => Err (Crash "KeyError")
      | Some k => if str_in k covered then scope_is_covered rest chosen else Ok false
      end
  end.

Definition scope_covered_opt (applies : option applies_map) (chosen : list (string * string)) : elab bool :=
  match applies with None => Ok true | Some a => scope_is_covered a chosen end.

Definition resolve_mirror (chosen : list (string * string)) (m : option MirrorSpec) : elab (option MirrorSpec) :=
  match m with
  | Some spec =>
      match mi_applies spec with
      | None => Ok (Some spec)
      | Some a =>
          covered ← scope_is_covered a chosen;
          Ok (if (covered : bool) then Some (mkMirror (mi_kind spec) (mi_precision spec) (mi_tolerance spec)
                              (mi_grammar_version spec) (mi_source spec) None) else None)
      end
  | None => Ok None
  end.

Definition resolve_represents (chosen : list (string * string)) (o : OutputSpec) : elab OutputSpec :=
  match out_represents o with
  | Some r =>
      match or_applies r with
      | None => Ok o
      | Some a =>
          covered ← scope_is_covered a chosen;
          build_output (with_represents o (if (covered : bool) then Some (mkRepresents (or_input r) (or_rendition r) None) else None))
      end
  | None => Ok o
  end.

(** [dict(active_choices)]. *)
Definition chosen_of (active : list (string * string)) : list (string * string) :=
  foldl (fun d p => dict_set d p.1 p.2) [] active.

Definition drop_stream (names : list string) (s : InputSpec) : elab InputSpec :=
  if str_in (in_id s) names then build_input (with_stream s false) else Ok s.

Definition resolve_chunk_inputs (schema : NodeSchema) (covered : bool) (inputs : list InputSpec) : elab (list InputSpec) :=
  if present (chunk_safe_applies schema) && negb covered
  then match chunk_safe schema with
       | Some (names, _) => traverse (drop_stream names) inputs
       | None => Err (Crash "AssertionError")
       end
  else Ok inputs.

Definition resolve_chunk_safe (schema : NodeSchema) (covered : bool) (inputs : list InputSpec) :
  option (list string * list string) :=
  match chunk_safe schema with
  | Some (names, outs) =>
      if covered then Some (List.filter (fun n => str_in n (map in_id inputs)) names, outs) else None
  | None => None
  end.

(** The effective schema: a copy of the base with its interface replaced. *)
Definition effective_schema (schema : NodeSchema) (ins : list InputSpec) (outs : list OutputSpec)
  (m : option MirrorSpec) (chunk : option (list string * list string)) (active : list (string * string)) : NodeSchema :=
  mkNodeSchema (node_type schema) (editor_role schema) ins outs [] [] [] [] active (idempotent schema)
    (occupies schema) (io_bound schema) (dispatch_affinity schema) (deprecation_replacement schema)
    (search_visibility schema) (search_terms schema) (aliases schema) (output_node schema)
    (may_expand_graph schema) (execution_context schema) (input_values schema) m (selector schema)
    (widget_groups schema) None chunk None [] None.

Definition elaborate (schema : NodeSchema) (stored_inputs : stored) (output_members : list (string * list pyval))
  (choices : choice_map) : elab NodeSchema :=
  if is_static schema then
    refuse_if (negb (is_nil output_members)) "output members stored for a static schema";;
    refuse_if (negb (is_nil choices)) "slot variants stored for a static schema";;
    Ok schema
  else
    let ids := stored_ids stored_inputs in
    let values := stored_values stored_inputs in
    found ← elaborate_dynamic_entries (input_entries schema) "" ids choices;
    ins ← add_additional schema ids (p_inputs found);
    ins ← traverse (materialize_input ins) ins;
    refuse_if (negb (all_in (keys choices) (p_consumed found)))
      "dynamic choice(s) stored for undeclared or inactive construct(s)";;
    bindings ← slot_type_bindings (slots schema) choices;
    ins ← when_bound bindings (substitute_input bindings) ins;
    refuse_if (has_dup (map in_id ins)) "projected input namespace collision";;
    outs ← elaborate_outputs schema output_members values;
    outs ← traverse (project_output ins values) outs;
    outs ← when_bound bindings (substitute_output bindings) outs;
    let chosen := chosen_of (p_active found) in
    covered ← scope_covered_opt (chunk_safe_applies schema) chosen;
    ins ← resolve_chunk_inputs schema covered ins;
    m ← resolve_mirror chosen (mirror schema);
    outs ← traverse (resolve_represents chosen) outs;
    refuse_if (MAX_INTERFACE_ITEMS <? Z.of_nat (length ins + length outs)) "effective interface exceeds the budget";;
    let result := effective_schema schema ins outs m (resolve_chunk_safe schema covered ins) (p_active found) in
    lift (schema_post_init result);;
    Ok result.
End descriptors.

(** * Pieces *)

Section pieces.
Context {A : Type}.

(** An invariant of pieces that joining keeps holds of a loop's result. *)
Lemma join_all_inv (Q : piece -> Prop) (f : A -> elab piece) l p :
  Q no_piece -> (forall a b, Q a -> Q b -> Q (join_piece a b)) ->
  Forall (fun a => forall q, f a = Ok q -> Q q) l ->
  join_all f l = Ok p -> Q p.
Proof.
  intros H0 Hj Hf. revert p. induction Hf as [|a l Ha _ IH]; intros p; cbn [join_all].
  - by intros [= <-].
  - intros (q & Hq & H)%bind_ok. apply bind_ok in H as (r & Hr & [= <-]). auto.
Qed.

Lemma join_all_ext (f g : A -> elab piece) l :
  Forall (fun a => f a = g a) l -> join_all f l = join_all g l.
Proof. induction 1 as [|a l Ha _ IH]; cbn [join_all]; [done|]. by rewrite Ha, IH. Qed.
End pieces.

Lemma lookup_with_elem {A B C} (key : A -> string) k (f : A -> B -> C) l r :
  lookup_with key k f l = Some r -> exists a b, (a, b) ∈ l /\ key a = k /\ r = f a b.
Proof.
  induction l as [|[a b] l IH]; cbn [lookup_with]; [done|].
  destruct (String.eqb_spec (key a) k).
  - intros [= <-]. exists a, b. split; [left|done].
  - intros (a' & b' & ? & ?)%IH. exists a', b'. split; [by right|done].
Qed.

Lemma traverse_ok {A B} (f : A -> elab B) l r :
  traverse f l = Ok r -> Forall2 (fun a b => f a = Ok b) l r.
Proof.
  revert r. induction l as [|a l IH]; intros r; cbn [traverse]; [intros [= <-]; constructor|].
  intros (b & Hb & H)%bind_ok. apply bind_ok in H as (bs & Hbs & [= <-]). constructor; auto.
Qed.

Lemma traverse_map {A B C} (g : B -> C) (h : A -> C) (f : A -> elab B) l r :
  (forall a b, f a = Ok b -> g b = h a) -> traverse f l = Ok r -> map g r = map h l.
Proof. intros Hf Hr%traverse_ok. induction Hr; cbn; [done|]. f_equal; auto. Qed.

Lemma traverse_ext {A B} (f g : A -> elab B) l :
  Forall (fun a => f a = g a) l -> traverse f l = traverse g l.
Proof. induction 1 as [|a l Ha _ IH]; cbn [traverse]; [done|]. by rewrite Ha, IH. Qed.

(** * Choices *)

(** A piece answers for the choices it consumed: each is an active one or
    Python's None, and the active ones are what the document stores. *)
Definition choices_ok (choices : choice_map) (p : piece) : Prop :=
  (forall k v, (k, v) ∈ p_active p -> dict_get choices k = Some (VStr v) /\ k ∈ p_consumed p)
  /\ (forall k, k ∈ p_consumed p ->
        dict_get choices k = Some VNone \/ exists v, (k, v) ∈ p_active p).

Lemma choices_ok_nil choices inputs : choices_ok choices (mkPiece inputs [] []).
Proof. split; cbn; intros *; by intros ?%not_elem_of_nil. Qed.

Lemma choices_ok_join choices a b : choices_ok choices a -> choices_ok choices b -> choices_ok choices (join_piece a b).
Proof. unfold choices_ok, join_piece; cbn. intros [Ha Hca] [Hb Hcb]. split; set_solver. Qed.

Lemma choices_ok_inputs choices p inputs : choices_ok choices p -> choices_ok choices (mkPiece inputs (p_active p) (p_consumed p)).
Proof. done. Qed.

Lemma consumed_choice_elem path choices k : k ∈ consumed_choice path choices -> k = path /\ dict_mem choices path = true.
Proof.
  unfold consumed_choice. destruct (dict_mem choices path) eqn:E.
  - by intros ->%list_elem_of_singleton.
  - by intros ?%not_elem_of_nil.
Qed.

(** A construct that stores no choice, or None, consumes only that. *)
Lemma choices_ok_unchosen path choices required :
  choice path (dict_get choices path) required = Ok None ->
  choices_ok choices (mkPiece [] [] (consumed_choice path choices)).
Proof.
  intros Hc. split; cbn; [by intros k v ?%not_elem_of_nil|].
  intros k [-> Hm]%consumed_choice_elem. unfold dict_mem in Hm. unfold choice in Hc.
  destruct (dict_get choices path) as [v|]; [|done]. destruct v; try discriminate Hc. by left.
Qed.

(** A chosen construct adds its own choice to what its entries consumed. *)
Lemma choices_ok_chosen path choices required k p inputs :
  choice path (dict_get choices path) required = Ok (Some k) -> choices_ok choices p ->
  choices_ok choices (mkPiece inputs ((path, k) :: p_active p) (consumed_choice path choices ++ p_consumed p)).
Proof.
  intros Hc [Ha Hp]. unfold choice in Hc.
  destruct (dict_get choices path) as [v|] eqn:E; [|by destruct required].
  destruct v; try (by destruct required); try discriminate Hc. injection Hc as ->.
  assert (Hm : consumed_choice path choices = [path]) by (unfold consumed_choice, dict_mem; by rewrite E).
  rewrite Hm. split; cbn.
  - intros k' v'. rewrite !elem_of_cons. intros [[= -> ->]|Hin]; [auto|]. destruct (Ha _ _ Hin). auto.
  - intros k'. rewrite elem_of_cons. intros [->|Hin]; [right; exists k; left|].
    destruct (Hp _ Hin) as [|[v Hv]]; [by left|]. right. exists v. by right.
Qed.

Lemma consumed_when_absent path choices : dict_mem choices path = false -> consumed_choice path choices = [].
Proof. intros H. unfold consumed_choice. by rewrite H. Qed.

Lemma elaborate_entry_choices e parent ids choices p :
  elaborate_entry e parent ids choices = Ok p -> choices_ok choices p.
Proof.
  revert parent p. induction e as [s|f template IH|c options IH|s variants inputs IHi IHv] using DynamicEntry_ind_nested;
    intros parent p; cbn [elaborate_entry].
  - intros (s' & _ & [= <-])%bind_ok. apply choices_ok_nil.
  - intros ([suffixes positions] & _ & H)%bind_ok. revert H.
    apply join_all_inv; [apply choices_ok_nil|apply choices_ok_join|].
    apply Forall_forall. intros suffix _ q (_ & _ & H)%bind_ok. destruct (single_input template).
    + apply bind_ok in H as (s & _ & [= <-]). apply choices_ok_nil.
    + apply bind_ok in H as (r & Hr & H). apply bind_ok in H as (ins & _ & [= <-]).
      apply choices_ok_inputs. revert Hr. apply join_all_inv; [apply choices_ok_nil|apply choices_ok_join|].
      eapply Forall_impl; [exact IH|]. intros e He q. apply He.
  - set (path := join_path parent (dc_id c)).
    destruct (is_nil options && negb (dict_mem choices path)) eqn:Hnone.
    { intros [= <-]. apply andb_true_iff in Hnone as [_ Hm%negb_true_iff].
      rewrite consumed_when_absent by done. apply choices_ok_nil. }
    intros ([k|] & Hc & H)%bind_ok; [|injection H as <-; by eapply choices_ok_unchosen].
    destruct (lookup_with id_key k _ options) as [nested|] eqn:El; [|done].
    apply bind_ok in H as (q & Hq & [= <-]). apply lookup_with_elem in El as (k' & es & Hin & _ & ->).
    rewrite Forall_forall in IH. specialize (IH _ Hin). cbn in IH.
    eapply choices_ok_chosen; [exact Hc|]. revert Hq.
    apply join_all_inv; [apply choices_ok_nil|apply choices_ok_join|].
    eapply Forall_impl; [exact IH|]. intros e He r. apply He.
  - set (path := join_path parent (ds_id s)).
    assert (Hshared : forall q, join_all (fun e' => elaborate_entry e' path ids choices) inputs = Ok q -> choices_ok choices q).
    { intros q. apply join_all_inv; [apply choices_ok_nil|apply choices_ok_join|].
      eapply Forall_impl; [exact IHi|]. intros e He r. apply He. }
    destruct variants as [vs|].
    + intros (_ & _ & H)%bind_ok. apply bind_ok in H as ([k|] & Hc & H); [|injection H as <-; by eapply choices_ok_unchosen].
      destruct (lookup_with sv_key k _ vs) as [[v nested]|] eqn:El; [|done].
      apply bind_ok in H as (own & _ & H). apply bind_ok in H as (q & Hq & H).
      apply bind_ok in H as (r & Hr & [= <-]). apply lookup_with_elem in El as (v' & es & Hin & _ & [= -> ->]).
      rewrite Forall_forall in IHv. specialize (IHv _ Hin). cbn in IHv.
      change (choices_ok choices (mkPiece (own :: p_inputs (join_piece q r)) ((path, k) :: p_active (join_piece q r))
        (consumed_choice path choices ++ p_consumed (join_piece q r)))).
      eapply choices_ok_chosen; [exact Hc|]. apply choices_ok_join; [by apply Hshared|]. revert Hr.
      apply join_all_inv; [apply choices_ok_nil|apply choices_ok_join|].
      eapply Forall_impl; [exact IHv|]. intros e He x. apply He.
    + intros (own & _ & H)%bind_ok. destruct (negb (str_in path ids)).
      { injection H as <-. apply choices_ok_nil. }
      apply bind_ok in H as (q & Hq & [= <-]). apply choices_ok_inputs. by apply Hshared.
Qed.

Lemma elaborate_entries_choices entries parent ids choices p :
  elaborate_dynamic_entries entries parent ids choices = Ok p -> choices_ok choices p.
Proof.
  apply join_all_inv; [apply choices_ok_nil|apply choices_ok_join|].
  apply Forall_forall. intros e _ q. apply elaborate_entry_choices.
Qed.

(** * The result *)

Lemma lift_ok {A} (r : result string A) a : lift r = Ok a <-> r = Ok a.
Proof. destruct r; cbn; split; congruence. Qed.

Lemma refuse_if_ok c m u : refuse_if c m = Ok u <-> c = false.
Proof. apply raise_if_ok. Qed.

Lemma has_dup_false l : has_dup l = false <-> NoDup l.
Proof. unfold has_dup. rewrite negb_false_iff, bool_decide_eq_true. done. Qed.

(** What construction promises of any schema object. *)
Lemma schema_post_init_ids s u :
  schema_post_init s = Ok u ->
  NoDup (input_ids s) /\ NoDup (output_ids s) /\ NoDup (map fst (slot_choices s)).
Proof.
  unfold schema_post_init. intros H.
  apply bind_ok in H as (? & _ & H). apply bind_ok in H as (? & _ & H). apply bind_ok in H as (? & _ & H).
  apply bind_ok in H as (? & Hids & H). apply bind_ok in H as (? & _ & H). apply bind_ok in H as (? & _ & H).
  apply bind_ok in H as (? & _ & H). apply bind_ok in H as (? & _ & H). apply bind_ok in H as (? & Hns & _).
  unfold check_schema_ids in Hids. apply bind_ok in Hids as (? & H1 & H2). apply bind_ok in H2 as (? & _ & H2).
  apply raise_if_ok in H1, H2. apply has_dup_false in H1, H2.
  unfold check_namespaces in Hns. apply bind_ok in Hns as (? & _ & H). apply bind_ok in H as (? & _ & H).
  apply bind_ok in H as (? & _ & H). apply bind_ok in H as (? & H3 & _). apply raise_if_ok, has_dup_false in H3. done.
Qed.

(** The shape of a successful elaboration of a dynamic schema. *)
Lemma elaborate_dynamic json schema st om choices r :
  is_static schema = false -> elaborate json schema st om choices = Ok r ->
  exists found ins outs m chunk,
    elaborate_dynamic_entries (input_entries schema) "" (stored_ids st) choices = Ok found
    /\ all_in (keys choices) (p_consumed found) = true
    /\ Z.of_nat (length ins + length outs) <= MAX_INTERFACE_ITEMS
    /\ r = effective_schema schema ins outs m chunk (p_active found)
    /\ schema_post_init r = Ok tt.
Proof.
  intros Hst. unfold elaborate. rewrite Hst. intros H.
  apply bind_ok in H as (found & Hf & H). apply bind_ok in H as (i1 & _ & H). apply bind_ok in H as (i2 & _ & H).
  apply bind_ok in H as (? & Hall & H). apply refuse_if_ok, negb_false_iff in Hall.
  apply bind_ok in H as (b & _ & H). apply bind_ok in H as (i3 & _ & H). apply bind_ok in H as (? & _ & H).
  apply bind_ok in H as (o1 & _ & H). apply bind_ok in H as (o2 & _ & H). apply bind_ok in H as (o3 & _ & H).
  apply bind_ok in H as (cov & _ & H). apply bind_ok in H as (i4 & _ & H). apply bind_ok in H as (m & _ & H).
  apply bind_ok in H as (o4 & _ & H). apply bind_ok in H as (? & Hmax & H). apply refuse_if_ok, Z.ltb_ge in Hmax.
  apply bind_ok in H as (u & Hp & [= <-]). destruct u. apply lift_ok in Hp.
  by exists found, i4, o4, m, (resolve_chunk_safe schema cov i4).
Qed.

Lemma str_in_spec s l : str_in s l = true <-> s ∈ l.
Proof. apply bool_decide_eq_true. Qed.

Lemma all_in_spec l k : all_in l k = true <-> forall s, s ∈ l -> s ∈ k.
Proof.
  unfold all_in. rewrite forallb_forall. setoid_rewrite <- list_elem_of_In. by setoid_rewrite str_in_spec.
Qed.

(** * Families *)

(** A member suffix of the document: the non-empty text between the family's
    prefix and the next dot of some id. *)
Definition member_of (prefix s : string) (ids : list string) : Prop :=
  exists id, id ∈ ids /\ suffix_of prefix id = Some s.

Lemma add_suffix_spec acc s x : x ∈ add_suffix acc s <-> x ∈ acc \/ x = s.
Proof.
  unfold add_suffix. destruct (str_in s acc) eqn:E; [|set_solver].
  apply str_in_spec in E. split; [auto|]. by intros [? | ->].
Qed.

Lemma suffixes_fold l acc :
  (NoDup acc -> NoDup (foldl add_suffix acc l)) /\ forall x, x ∈ foldl add_suffix acc l <-> x ∈ acc \/ x ∈ l.
Proof.
  revert acc. induction l as [|s l IH]; intros acc; cbn [foldl]; [split; [done|set_solver]|].
  destruct (IH (add_suffix acc s)) as [Hn Hx]. split.
  - intros Hacc. apply Hn. unfold add_suffix. destruct (str_in s acc) eqn:E; [done|].
    apply NoDup_app. split_and!; [done| |apply NoDup_singleton]. intros y Hy ->%list_elem_of_singleton.
    apply str_in_spec in Hy. congruence.
  - intros x. rewrite Hx, add_suffix_spec, elem_of_cons. tauto.
Qed.

(** First appearances: the fold only ever extends at the end. *)
Lemma suffixes_fold_app l acc : acc `prefix_of` foldl add_suffix acc l.
Proof.
  revert acc. induction l as [|s l IH]; intros acc; cbn [foldl]; [done|].
  etrans; [|apply IH]. unfold add_suffix. destruct (str_in s acc); [done|by eexists].
Qed.

Lemma suffixes_of_spec prefix ids acc :
  (NoDup acc -> NoDup (suffixes_of prefix ids acc))
  /\ (forall x, x ∈ suffixes_of prefix ids acc <-> x ∈ acc \/ member_of prefix x ids)
  /\ acc `prefix_of` suffixes_of prefix ids acc.
Proof.
  unfold suffixes_of. destruct (suffixes_fold (omap (suffix_of prefix) ids) acc) as [Hn Hx].
  split_and!; [done| |apply suffixes_fold_app]. intros x. rewrite Hx, list_elem_of_omap. done.
Qed.

(** A later id never moves an earlier member. *)
Lemma suffixes_of_app prefix ids more acc :
  suffixes_of prefix (ids ++ more) acc = suffixes_of prefix more (suffixes_of prefix ids acc).
Proof. unfold suffixes_of. by rewrite omap_app, foldl_app. Qed.

Lemma fill_required_ok f ps acc r :
  fill_required f ps acc = Ok r ->
  keys acc `prefix_of` keys r
  /\ (NoDup (keys acc) -> NoDup (keys r))
  /\ (forall n, n ∈ ps -> exists s, position_suffix f n = Ok s /\ s ∈ keys r).
Proof.
  revert acc. induction ps as [|n ps IH]; intros acc; cbn [fill_required].
  - intros [= <-]. split_and!; [done|done|]. by intros n ?%not_elem_of_nil.
  - intros (s & Hs & H)%bind_ok. apply IH in H as (Hp & Hn & Hin). split_and!.
    + etrans; [|exact Hp]. rewrite keys_dict_set. destruct (dict_mem acc s); [done|by eexists].
    + intros Hacc. apply Hn. by apply NoDup_dict_set.
    + intros n'. rewrite elem_of_cons. intros [->|Hn']; [|by apply Hin]. exists s. split; [done|].
      assert (s ∈ keys (dict_set acc s (Z.of_nat n))) as Hk.
      { apply dict_mem_true. unfold dict_mem. rewrite dict_get_set. by rewrite decide_True. }
      destruct Hp as [k ->]. set_solver.
Qed.

Lemma member_positions_keys f suffixes r : member_positions f suffixes = Ok r -> keys r = suffixes.
Proof.
  revert r. induction suffixes as [|s l IH]; intros r; cbn [member_positions]; [by intros [= <-]|].
  intros (p & _ & H)%bind_ok. apply bind_ok in H as (ps & Hps & [= <-]). unfold keys in *. cbn. f_equal. by apply IH.
Qed.

(** * Literals play no part *)

(** No index of the expression names an input. *)
Fixpoint no_named_index (e : TypeExpr) : bool :=
  match e with
  | mkTypeExpr _ _ _ el els _ ix =>
      match ix with Some (IndexName _) => false | _ => true end
      && match el with Some x => no_named_index x | None => true end && forallb no_named_index els
  end.

Lemma project_no_named e inputs v w :
  no_named_index e = true -> project_tuple_output e inputs v = project_tuple_output e inputs w.
Proof.
  revert v w. induction e as [k ts tid el els i ix Hel Hels] using TypeExpr_ind_nested. intros v w.
  cbn [no_named_index]. rewrite !andb_true_iff. intros [[Hix Hx] Hall].
  assert (Hidx : element_index ix inputs v = element_index ix inputs w).
  { unfold element_index. destruct ix as [[z|n]|]; done. }
  assert (Hels' : traverse (fun x => project_tuple_output x inputs v) els
                  = traverse (fun x => project_tuple_output x inputs w) els).
  { apply traverse_ext. rewrite forallb_forall in Hall. rewrite Forall_forall in Hels |- *. intros x Hin.
    by apply Hels, Hall, list_elem_of_In. }
  cbn [project_tuple_output]. destruct k; try done; rewrite ?Hidx, ?Hels';
    (destruct el as [x|]; [try rewrite (Hel x eq_refl v w) by done|]; done).
Qed.

(** The types the outputs of a node can have before projection. *)
Lemma family_outputs_types f ids suffixes seen os :
  family_outputs f ids suffixes seen = Ok os -> Forall (fun o => out_type o = of_type f) os.
Proof.
  revert seen os. induction suffixes as [|v l IH]; intros seen os; cbn [family_outputs]; [intros [= <-]; constructor|].
  destruct v; try done. intros H. apply bind_ok in H as (? & _ & H). apply bind_ok in H as (? & _ & H).
  apply bind_ok in H as (? & _ & H). apply bind_ok in H as (o & Ho & H). apply bind_ok in H as (os' & Hos & [= <-]).
  unfold build_output in Ho. apply bind_ok in Ho as (? & _ & [= <-]). constructor; [done|]. by eapply IH.
Qed.

(** Nothing the schema declares reads a stored literal. *)
Definition literal_free (schema : NodeSchema) : bool :=
  forallb (fun f => is_None (of_count f)) (output_families schema)
  && is_None (output_descriptors schema)
  && forallb no_named_index (output_types schema).

Lemma elaborate_outputs_free json schema om v w :
  literal_free schema = true -> elaborate_outputs json schema om v = elaborate_outputs json schema om w.
Proof.
  unfold literal_free. rewrite !andb_true_iff. intros [[Hc Hd] _]. unfold elaborate_outputs.
  destruct (output_descriptors schema); [done|].
  assert (traverse (elaborate_output_family om (output_ids schema) v) (output_families schema)
          = traverse (elaborate_output_family om (output_ids schema) w) (output_families schema)) as ->; [|done].
  apply traverse_ext, Forall_forall. intros f Hf. rewrite forallb_forall in Hc.
  specialize (Hc f (proj1 (list_elem_of_In _ _) Hf)). unfold elaborate_output_family, check_count.
  by destruct (of_count f).
Qed.

Lemma elaborate_outputs_types json schema om v outs :
  literal_free schema = true -> elaborate_outputs json schema om v = Ok outs ->
  Forall (fun o => no_named_index (out_type o) = true) outs.
Proof.
  unfold literal_free. rewrite !andb_true_iff. intros [[_ Hd] Ht]. unfold elaborate_outputs.
  destruct (output_descriptors schema); [done|]. intros (? & _ & H)%bind_ok.
  apply bind_ok in H as (members & Hm & [= <-]). unfold output_types in Ht. rewrite forallb_app in Ht.
  apply andb_true_iff in Ht as [Hs Hf]. rewrite forallb_forall in Hs, Hf.
  apply Forall_app. split.
  - apply Forall_forall. intros o Ho. by apply Hs, list_elem_of_In, list_elem_of_fmap_2.
  - apply Forall_concat. apply traverse_ok in Hm. clear Hs.
    assert (Hall : forall f, f ∈ output_families schema -> no_named_index (of_type f) = true).
    { intros f Hin. by apply Hf, list_elem_of_In, list_elem_of_fmap_2. }
    clear Hf. induction Hm as [|f os fs rest Hf Hm IH]; constructor.
    + unfold elaborate_output_family in Hf. apply bind_ok in Hf as (? & _ & H).
      apply bind_ok in H as (? & _ & H). apply family_outputs_types in H.
      eapply Forall_impl; [exact H|]. intros o ->. apply Hall. left.
    + apply IH. intros g Hg. apply Hall. by right.
Qed.

Lemma project_outputs_free ins v w outs :
  Forall (fun o => no_named_index (out_type o) = true) outs ->
  traverse (project_output ins v) outs = traverse (project_output ins w) outs.
Proof.
  intros H. apply traverse_ext. eapply Forall_impl; [exact H|]. intros o Ho. unfold project_output.
  destruct (requires_elaboration (out_type o)); [|done]. by rewrite (project_no_named _ ins v w Ho).
Qed.

(** * Properties *)

(** A dynamic schema elaborates, when it does, to an ordinary static
    interface: no family, combo, slot, descriptor or additional input is left,
    input and output ids are distinct, inputs and outputs together stay within
    the item budget, construction accepts the result, and everything that is
    not interface is the base schema's own. *)
Theorem elaborate_result_ordinary json schema st om choices r :
  is_static schema = false -> elaborate json schema st om choices = Ok r ->
  input_families r = [] /\ output_families r = [] /\ combos r = [] /\ slots r = []
  /\ output_descriptors r = None /\ additional_inputs r = None /\ input_order r = []
  /\ NoDup (input_ids r) /\ NoDup (output_ids r)
  /\ Z.of_nat (length (inputs r) + length (outputs r)) <= MAX_INTERFACE_ITEMS
  /\ schema_post_init r = Ok tt
  /\ r = effective_schema schema (inputs r) (outputs r) (mirror r) (chunk_safe r) (slot_choices r)
  /\ is_static r = negb (existsb (fun o => requires_elaboration (out_type o)) (outputs r)).
Proof.
  intros Hs He. apply elaborate_dynamic in He as (found & ins & outs & m & chunk & _ & _ & Hn & -> & Hp); [|done].
  pose proof (schema_post_init_ids _ _ Hp) as (Hi & Ho & _). by split_and!.
Qed.

(** C27: The stored choices are the interface's identity, none lost and none
    invented: on success the recorded slot choices are exactly the stored
    string choices, each once, and every other stored entry is None. *)
Theorem elaborate_choices_exact json schema st om choices r :
  is_static schema = false -> elaborate json schema st om choices = Ok r ->
  (forall k v, (k, v) ∈ slot_choices r <-> dict_get choices k = Some (VStr v))
  /\ NoDup (map fst (slot_choices r))
  /\ (forall k raw, dict_get choices k = Some raw -> raw = VNone \/ exists v, raw = VStr v).
Proof.
  intros Hs He. apply elaborate_dynamic in He as (found & ins & outs & m & chunk & Hf & Hall & _ & -> & Hp); [|done].
  apply elaborate_entries_choices in Hf as [Ha Hc]. apply schema_post_init_ids in Hp as (_ & _ & Hnd).
  cbn [slot_choices effective_schema] in *. pose proof (proj1 (all_in_spec _ _) Hall) as Hin.
  assert (Hkey : forall k raw, dict_get choices k = Some raw -> k ∈ p_consumed found).
  { intros k raw Hk. apply Hin. apply dict_mem_true. unfold dict_mem. by rewrite Hk. }
  split_and!; [|done|].
  - intros k v. split; [intros H; by apply Ha|]. intros Hk. destruct (Hc k (Hkey _ _ Hk)) as [Hn|[v' Hv]]; [congruence|].
    destruct (Ha _ _ Hv) as [Hk' _]. by replace v with v' by congruence.
  - intros k raw Hk. destruct (Hc k (Hkey _ _ Hk)) as [Hn|[v' Hv]]; [left; congruence|].
    destruct (Ha _ _ Hv) as [Hk' _]. right. exists v'. congruence.
Qed.

(** An interface never depends on a stored value it does not declare to
    read: unless the schema counts, describes or indexes by a literal, two
    documents with the same input names elaborate to the same interface or
    the same refusal, whatever values or links the inputs hold, and so does
    a caller that knows the names only. *)
Theorem elaborate_reads_names_only json schema st st' om choices :
  literal_free schema = true -> stored_ids st = stored_ids st' ->
  elaborate json schema st om choices = elaborate json schema st' om choices.
Proof.
  intros Hfree Hids. unfold elaborate. destruct (is_static schema); [done|]. rewrite Hids.
  rewrite (elaborate_outputs_free json schema om (stored_values st) (stored_values st') Hfree).
  destruct (elaborate_dynamic_entries _ _ _ _) as [found|]; cbn [mbind result_bind]; [|done].
  destruct (add_additional _ _ _) as [i1|]; cbn [mbind result_bind]; [|done].
  destruct (traverse (materialize_input i1) i1) as [i2|]; cbn [mbind result_bind]; [|done].
  destruct (refuse_if _ _) as [|]; cbn [mbind result_bind]; [|done].
  destruct (slot_type_bindings _ _) as [b|]; cbn [mbind result_bind]; [|done].
  destruct (when_bound b (substitute_input b) i2) as [i3|]; cbn [mbind result_bind]; [|done].
  destruct (refuse_if _ _) as [|]; cbn [mbind result_bind]; [|done].
  destruct (elaborate_outputs json schema om (stored_values st')) as [outs|] eqn:Ho; cbn [mbind result_bind]; [|done].
  apply elaborate_outputs_types in Ho; [|done].
  by rewrite (project_outputs_free i3 (stored_values st) (stored_values st') outs Ho).
Qed.

(** The members of an unbound family are the document's, in document order:
    each suffix some stored input or choice path spells, once, those of the
    inputs before those only choices spell, in order of first appearance, and
    their number respects the family's bounds and the budget. *)
Theorem family_members_in_document_order f template path ids choices suffixes positions :
  fam_optional_after_minimum f = false ->
  family_members f template path ids choices = Ok (suffixes, positions) ->
  NoDup suffixes
  /\ (forall s, s ∈ suffixes <-> member_of (path +:+ ".") s ids \/ member_of (path +:+ ".") s (keys choices))
  /\ suffixes_of (path +:+ ".") ids [] `prefix_of` suffixes
  /\ (forall before after, ids = before ++ after -> suffixes_of (path +:+ ".") before [] `prefix_of` suffixes)
  /\ fam_min_members f <= Z.of_nat (length suffixes) <= MAX_FAMILY_MEMBERS
  /\ (forall m, fam_max_members f = Some m -> Z.of_nat (length suffixes) <= m).
Proof.
  intros Ho. unfold family_members. rewrite Ho. cbn [mbind result_bind negb andb]. intros H.
  apply bind_ok in H as (? & H1 & H). apply refuse_if_ok, Z.ltb_ge in H1.
  apply bind_ok in H as (? & H2 & H). apply refuse_if_ok, Z.ltb_ge in H2.
  apply bind_ok in H as (? & H3 & [= <- <-]). apply refuse_if_ok in H3.
  set (prefix := path +:+ ".") in *. set (own := suffixes_of prefix ids []) in *.
  destruct (suffixes_of_spec prefix ids []) as (Hn & Hx & _). fold own in Hn, Hx.
  destruct (suffixes_of_spec prefix (keys choices) own) as (Hn' & Hx' & Hp').
  split_and!; [apply Hn', Hn, NoDup_nil_2| |done| |lia|lia|].
  - intros s. rewrite Hx', Hx. set_solver.
  - intros before after ->. etrans; [|exact Hp']. unfold own. rewrite suffixes_of_app.
    by destruct (suffixes_of_spec prefix after (suffixes_of prefix before [])) as (_ & _ & ?).
  - intros m Hm. rewrite Hm in H3. by apply Z.ltb_ge in H3.
Qed.

(** A family whose members are optional only after the minimum has every
    required position: on success each member is stored or required, no
    member repeats, and every position below the minimum is present. *)
Theorem family_minimum_is_filled f template path ids choices suffixes positions t :
  fam_optional_after_minimum f = true -> head template = Some (DInput t) -> in_required t = true ->
  family_members f template path ids choices = Ok (suffixes, positions) ->
  suffixes = keys positions /\ NoDup suffixes
  /\ (forall s, member_of (path +:+ ".") s ids -> s ∈ suffixes)
  /\ (forall n, Z.of_nat n < fam_min_members f -> exists s, position_suffix f n = Ok s /\ s ∈ suffixes)
  /\ Z.of_nat (length suffixes) <= MAX_FAMILY_MEMBERS.
Proof.
  intros Ho Ht Hr. unfold family_members. rewrite Ho. cbn [negb andb]. intros H.
  apply bind_ok in H as (ps & Hps & H). apply bind_ok in H as (? & H1 & H). apply refuse_if_ok, Z.ltb_ge in H1.
  apply bind_ok in H as (? & _ & H). apply bind_ok in H as (? & _ & [= <- <-]).
  unfold fixed_positions in Hps. apply bind_ok in Hps as (stored & Hst & Hps).
  destruct template as [|e template]; [done|]. injection Ht as ->. rewrite Hr in Hps.
  apply bind_ok in Hps as (? & _ & Hfill). apply fill_required_ok in Hfill as (Hpre & Hnd & Hin).
  apply member_positions_keys in Hst. set (prefix := path +:+ ".") in *.
  destruct (suffixes_of_spec prefix ids []) as (Hn & Hx & _).
  destruct (suffixes_of_spec prefix (keys choices) (suffixes_of prefix ids [])) as (Hn' & Hx' & _).
  split_and!; [done| | | |done].
  - apply Hnd. rewrite Hst. by apply Hn', Hn, NoDup_nil_2.
  - intros s Hs. destruct Hpre as [k Hk]. rewrite Hk, elem_of_app, Hst. left. rewrite Hx', Hx. auto.
  - intros n Hlt. apply Hin, elem_of_seq. lia.
Qed.

(** * Examples *)

Definition demo_combo_widget : ComboWidget :=
  mkComboWidget [] (Some (mkOptionSource "values")) "" false None (mkRemotePolicy None None None None) false.

Definition demo_choice : InputSpec :=
  with_widget (plain_input "choice" (concrete_of CORE_COMBO) true) (Some (Single (WCombo demo_combo_widget))).

Definition any_type : TypeExpr := mkTypeExpr KWildcard [] "" None [] "" None.

Definition demo_family (minimum : Z) : InputFamilySpec * list DynamicEntry :=
  (mkFamily "values" minimum (Some 512) "" "" true None None false false, [DInput (plain_input "value" any_type true)]).

Definition demo_combo : DynamicComboSpec * list (string * list DynamicEntry) :=
  (mkCombo "mode" None true "" "" false,
   [("fast", []); ("exact", [DInput (plain_input "steps" (concrete_of CORE_INT) true)])]).

(** A switch by member name, with a mode: the choice lists the family's members. *)
Definition demo_schema (minimum : Z) : NodeSchema :=
  mkNodeSchema "demo.switch" None [demo_choice] [plain_output "value" any_type "" false] [demo_family minimum]
    [] [demo_combo] [] [] true [] false None None "normal" [] [] false false false false None None [] None
    None None [] None.

Definition no_json (text : string) : option pyval := None.

Definition demo_ids : list string := ["values.b"; "choice"; "mode.steps"; "values.a"].

Definition demo_effective : NodeSchema :=
  match elaborate no_json (demo_schema 1) (StoredIds demo_ids) [] [("mode", VStr "exact")] with
  | Ok r => r
  | Err _ => demo_schema 1
  end.

Lemma demo_elaborates :
  is_ok (lift (schema_post_init (demo_schema 1))) = true
  /\ elaborate no_json (demo_schema 1) (StoredIds demo_ids) [] [("mode", VStr "exact")] = Ok demo_effective
  /\ input_ids demo_effective = ["choice"; "values.b"; "values.a"; "mode.steps"]
  /\ slot_choices demo_effective = [("mode", "exact")].
Proof. repeat split; vm_compute; reflexivity. Qed.

(** A list of the members of a family that has none yet is not refused but
    fails in the widget's own construction, an error the callers of
    [elaborate] do not catch. *)
Lemma empty_family_options_escape :
  is_ok (schema_post_init (demo_schema 0)) = true
  /\ entry_built (DFamily (demo_family 0).1 (demo_family 0).2) = true
  /\ elaborate no_json (demo_schema 0) (StoredIds []) [] [("mode", VStr "fast")]
     = Err (ValueErr "combo widget needs static options, a remote route, or an input-family option source").
Proof. repeat split; vm_compute; reflexivity. Qed.

(** [match] where the other checks use [fullmatch]: a member suffix may end in
    a newline, and its input id is then not one the grammar means. *)
Definition newline : string := String "010" "".

Lemma newline_member_is_admitted :
  structural_fullmatch ("a" +:+ newline) = false
  /\ exists r, elaborate no_json (demo_schema 1) (StoredIds ["choice"; "values.a" +:+ newline]) [] [("mode", VStr "fast")] = Ok r
     /\ input_ids r = ["choice"; "values.a" +:+ newline].
Proof.
  split; [reflexivity|].
  destruct (elaborate no_json (demo_schema 1) (StoredIds ["choice"; "values.a" +:+ newline]) [] [("mode", VStr "fast")]) as [r|e] eqn:E.
  - exists r. split; [done|]. vm_compute in E. injection E as <-. reflexivity.
  - vm_compute in E. discriminate E.
Qed.

(** * Witnesses *)

Lemma elaborate_result_ordinary_witness : NoDup (input_ids demo_effective).
Proof.
  refine (proj1 (proj2 (proj2 (proj2 (proj2 (proj2 (proj2 (proj2
    (elaborate_result_ordinary no_json (demo_schema 1) (StoredIds demo_ids) [] [("mode", VStr "exact")] demo_effective _ _))))))))).
  - reflexivity.
  - vm_compute. reflexivity.
Defined.

Lemma elaborate_choices_exact_witness : ("mode", "exact") ∈ slot_choices demo_effective.
Proof.
  refine (proj2 (proj1 (elaborate_choices_exact no_json (demo_schema 1) (StoredIds demo_ids) [] [("mode", VStr "exact")]
    demo_effective _ _) "mode" "exact") _).
  - reflexivity.
  - vm_compute. reflexivity.
  - reflexivity.
Defined.

Lemma elaborate_reads_names_only_witness :
  elaborate no_json (demo_schema 1) (StoredMap [("values.b", VInt 1); ("mode.steps", VStr "x")]) [] [("mode", VStr "exact")]
  = elaborate no_json (demo_schema 1) (StoredIds ["values.b"; "mode.steps"]) [] [("mode", VStr "exact")].
Proof. apply elaborate_reads_names_only; reflexivity. Defined.

Lemma family_members_in_document_order_witness : NoDup ["b"; "a"].
Proof.
  refine (proj1 (family_members_in_document_order (demo_family 1).1 (demo_family 1).2 "values" demo_ids [] ["b"; "a"] [] _ _)).
  - reflexivity.
  - vm_compute. reflexivity.
Defined.

Definition demo_prefix_family : InputFamilySpec :=
  mkFamily "images" 2 (Some 4) "" "" true (Some "image") None false true.

Lemma family_minimum_is_filled_witness : NoDup ["image3"; "image0"; "image1"].
Proof.
  refine (proj1 (proj2 (family_minimum_is_filled demo_prefix_family [DInput (plain_input "image" any_type true)] "images"
    ["images.image3"] [] ["image3"; "image0"; "image1"] [("image3", 3); ("image0", 0); ("image1", 1)]
    (plain_input "image" any_type true) _ _ _ _))).
  - reflexivity.
  - reflexivity.
  - reflexivity.
  - vm_compute. reflexivity.
Defined.
