(* ===== verification/Solve.v ===== *)
(** Solve: runtime type-variable solving (dinkster_schema/solve.py): bindings
    from the type ids on a node's input envelopes, the expression a runtime
    id denotes, and output types under bindings. *)
From S2P Require Import Prelude PyStr TypeIds TypeExprs Widgets Schema.

Local Open Scope string_scope.
Local Open Scope Z_scope.
Local Open Scope list_scope.

(** [TypeSolveError], by the kind of mismatch; a construction error; a failed
    assertion. *)
Inductive solve_error :=
| ExpectedTuple (input_id : string) (arity : nat) (got : string)
| OutsideAllowlist (input_id template got : string)
| AlreadyBound (input_id template bound got : string)
| ExpectedShape (input_id shape got : string)
| NotElaborated
| NotATuple
| IndexOutOfRange (index : Z)
| Construction (e : expr_error)
| Assertion
| OutOfFuel.

#[export] Instance solve_error_eq_dec : EqDecision solve_error.
Proof. solve_decision. Defined.

Abbreviation solving := (result solve_error).
Abbreviation bindings := (gmap string string).

Definition built {A} (r : result expr_error A) : solving A :=
  match r with Ok a => Ok a | Err e => Err (Construction e) end.

(** [tuple(f(item) for item in l)]. *)
Fixpoint each {A B} (f : A -> solving B) (l : list A) : solving (list B) :=
  match l with
  | [] => Ok []
  | a :: l' => b ← f a; bs ← each f l'; Ok (b :: bs)
  end.

(** * The expression of a runtime id *)

Fixpoint type_expr_from_runtime_id (fuel : nat) (type_id : string) : solving TypeExpr :=
  match fuel with
  | O => Err OutOfFuel
  | S fuel' =>
      match parse_tuple_type_id type_id with
      | Some positions =>
          items ← each (type_expr_from_runtime_id fuel') positions;
          built (tuple_of items)
      | None =>
          match parse_stream_type_id type_id with
          | Some inner => e ← type_expr_from_runtime_id fuel' inner; built (stream_of e)
          | None =>
              match parse_list_type_id type_id with
              | Some inner =>
                  e ← (if String.eqb inner "*" then built wildcard else type_expr_from_runtime_id fuel' inner);
                  built (list_of e)
              | None =>
                  match parse_asset_type_id type_id with
                  | Some inner => e ← type_expr_from_runtime_id fuel' inner; built (asset_of e)
                  | None => built (concrete type_id)
                  end
              end
          end
      end
  end.

(** Each constructor peeled is shorter, so the length and one are fuel enough. *)
Definition expr_of_runtime_id (type_id : string) : solving TypeExpr :=
  type_expr_from_runtime_id (S (String.length type_id)) type_id.

(** * Expressions under bindings *)

(** [source.elements[index]], with Python's negative indices. *)
Definition nth_python {A} (l : list A) (i : Z) : option A :=
  let n := Z.of_nat (length l) in
  if (- n <=? i) && (i <? n) then l !! Z.to_nat (if i <? 0 then i + n else i) else None.

Fixpoint resolved_type_expr (e : TypeExpr) (b : bindings) : solving (option TypeExpr) :=
  match e with
  | mkTypeExpr k ts tid el els i ix =>
      match k with
      | KConcrete => Ok (Some e)
      | KVariable =>
          match b !! tid with
          | None => Ok None
          | Some type_id => r ← expr_of_runtime_id type_id; Ok (Some r)
          end
      | KTuple =>
          positions ← each (fun x => resolved_type_expr x b) els;
          match all_some positions with
          | None => Ok None
          | Some items => r ← built (tuple_of items); Ok (Some r)
          end
      | KTupleElement =>
          match el, ix with
          | Some x, Some (IndexInt index) =>
              source ← resolved_type_expr x b;
              match source with
              | None => Ok None
              | Some s =>
                  if negb (bool_decide (kind s = KTuple)) then Err NotATuple
                  else match nth_python (elements s) index with
                       | Some r => Ok (Some r)
                       | None => Err (IndexOutOfRange index)
                       end
              end
          | _, _ => Err NotElaborated
          end
      | KStream =>
          match el with
          | None => Err Assertion
          | Some x =>
              inner ← resolved_type_expr x b;
              match inner with None => Ok None | Some y => r ← built (stream_of y); Ok (Some r) end
          end
      | KList =>
          match el with
          | None => Err Assertion
          | Some x =>
              if is_wildcard x then Ok (Some e)
              else
                inner ← resolved_type_expr x b;
                match inner with None => Ok None | Some y => r ← built (list_of y); Ok (Some r) end
          end
      | KAsset =>
          match el with
          | None => Err Assertion
          | Some x =>
              inner ← resolved_type_expr x b;
              match inner with None => Ok None | Some y => r ← built (asset_of y); Ok (Some r) end
          end
      | _ => Ok None
      end
  end.

Definition resolved_type_id (e : TypeExpr) (b : bindings) : solving (option string) :=
  resolved ← resolved_type_expr e b;
  Ok (r ← resolved; runtime_type_id r).

(** * Unification *)

(** The tuple loop: unify position by position, threading the bindings. *)
Fixpoint unify_all (f : TypeExpr -> string -> bindings -> solving bindings)
  (es : list TypeExpr) (ps : list string) (b : bindings) : solving bindings :=
  match es, ps with
  | e :: es', p :: ps' => b' ← f e p b; unify_all f es' ps' b'
  | _, _ => Ok b
  end.

Fixpoint unify (id : string) (e : TypeExpr) (type_id : string) (b : bindings) : solving bindings :=
  match e with
  | mkTypeExpr k ts tid el els _ _ =>
      match k with
      | KTuple =>
          match parse_tuple_type_id type_id with
          | Some positions =>
              if (length positions =? length els)%nat then unify_all (unify id) els positions b
              else Err (ExpectedTuple id (length els) type_id)
          | None => Err (ExpectedTuple id (length els) type_id)
          end
      | KVariable =>
          raise_if (negb (is_nil ts) && negb (bool_decide (type_id ∈ ts))) (OutsideAllowlist id tid type_id);;
          match b !! tid with
          | None => Ok (<[tid := type_id]> b)
          | Some bound => if String.eqb bound type_id then Ok b else Err (AlreadyBound id tid bound type_id)
          end
      | KStream =>
          match parse_stream_type_id type_id, el with
          | None, _ => Err (ExpectedShape id "stream" type_id)
          | Some _, None => Err Assertion
          | Some t, Some x => unify id x t b
          end
      | KList =>
          match parse_list_type_id type_id, el with
          | None, _ => Err (ExpectedShape id "list" type_id)
          | Some _, None => Err Assertion
          | Some t, Some x => unify id x t b
          end
      | KAsset =>
          match parse_asset_type_id type_id, el with
          | None, _ => Err (ExpectedShape id "asset" type_id)
          | Some _, None => Err Assertion
          | Some t, Some x => unify id x t b
          end
      | _ => Ok b
      end
  end.

(** The id one input is unified with: a list input that takes a whole list of
    its declared type looks at the element. *)
Definition unified_id (spec : InputSpec) (type_id : string) : string :=
  if in_accepts_list spec && negb (bool_decide (kind (in_type spec) = KList))
  then default type_id (parse_list_type_id type_id) else type_id.

Definition solve_step (input_types : gmap string string) (spec : InputSpec) (b : bindings) : solving bindings :=
  match input_types !! in_id spec with
  | None => Ok b
  | Some type_id => unify (in_id spec) (in_type spec) (unified_id spec type_id) b
  end.

Fixpoint bind_loop (input_types : gmap string string) (specs : list InputSpec) (b : bindings) : solving bindings :=
  match specs with
  | [] => Ok b
  | spec :: specs' => b' ← solve_step input_types spec b; bind_loop input_types specs' b'
  end.

Definition bind_type_variables (specs : list InputSpec) (input_types : gmap string string) : solving bindings :=
  bind_loop input_types specs ∅.

(** * What a solution is *)

Fixpoint all_agree (f : TypeExpr -> string -> Prop) (es : list TypeExpr) (ps : list string) : Prop :=
  match es, ps with
  | [], [] => True
  | e :: es', p :: ps' => f e p /\ all_agree f es' ps'
  | _, _ => False
  end.

(** [agrees s e t]: under [s], the variables of [e] are what [t] has in their
    places, and the shapes above them match. *)
Fixpoint agrees (s : bindings) (e : TypeExpr) (type_id : string) : Prop :=
  match e with
  | mkTypeExpr k ts tid el els _ _ =>
      match k with
      | KTuple =>
          match parse_tuple_type_id type_id with
          | Some positions => all_agree (agrees s) els positions
          | None => False
          end
      | KVariable => (ts = [] \/ type_id ∈ ts) /\ s !! tid = Some type_id
      | KStream => match parse_stream_type_id type_id, el with Some t, Some x => agrees s x t | _, _ => False end
      | KList => match parse_list_type_id type_id, el with Some t, Some x => agrees s x t | _, _ => False end
      | KAsset => match parse_asset_type_id type_id, el with Some t, Some x => agrees s x t | _, _ => False end
      | _ => True
      end
  end.

Lemma all_agree_mono (f g : TypeExpr -> string -> Prop) es ps :
  Forall (fun e => forall t, f e t -> g e t) es -> all_agree f es ps -> all_agree g es ps.
Proof.
  intros H. revert ps. induction H as [|e es He _ IH]; intros [|p ps]; cbn; try done. intros []. auto.
Qed.

Lemma agrees_mono s s' e t : s ⊆ s' -> agrees s e t -> agrees s' e t.
Proof.
  intros Hs. revert t. induction e as [k ts tid el els i ix Hel Hels] using TypeExpr_ind_nested. intros t.
  cbn [agrees]. destruct k; try done.
  - intros [Ht Hb]. split; [done|]. by eapply lookup_weaken.
  - destruct (parse_list_type_id t), el as [x|]; try done. by apply (Hel x).
  - destruct (parse_asset_type_id t), el as [x|]; try done. by apply (Hel x).
  - destruct (parse_stream_type_id t), el as [x|]; try done. by apply (Hel x).
  - destruct (parse_tuple_type_id t); [|done]. by apply all_agree_mono.
Qed.

(** The verdict of a solver step: the least extension that agrees, or none. *)
Definition solves (b : bindings) (P : bindings -> Prop) (r : solving bindings) : Prop :=
  match r with
  | Ok b' => b ⊆ b' /\ P b' /\ forall s, b ⊆ s -> P s -> b' ⊆ s
  | Err _ => forall s, b ⊆ s -> ~ P s
  end.

Lemma solves_bind b (P Q : bindings -> Prop) r (k : bindings -> solving bindings) :
  (forall s s', s ⊆ s' -> P s -> P s') ->
  solves b P r -> (forall b', b ⊆ b' -> P b' -> solves b' Q (k b')) ->
  solves b (fun s => P s /\ Q s) (r ≫= k).
Proof.
  intros Hmono. destruct r as [b1|e]; cbn [mbind result_bind solves].
  - intros (H1 & HP & Hmin) Hk. specialize (Hk b1 H1 HP). destruct (k b1) as [b2|e]; cbn [solves] in *.
    + destruct Hk as (H2 & HQ & Hmin2). split_and!; [by etrans|by eapply Hmono|done|].
      intros s Hs [HPs HQs]. apply Hmin2; [by apply Hmin|done].
    + intros s Hs [HPs HQs]. eapply Hk; [by apply Hmin|done].
  - intros H _ s Hs [HPs _]. by eapply H.
Qed.

Lemma solves_iff b (P Q : bindings -> Prop) r : (forall s, P s <-> Q s) -> solves b P r -> solves b Q r.
Proof. intros H. destruct r; cbn [solves]; setoid_rewrite H; done. Qed.

Lemma unify_solves id e t b : solves b (fun s => agrees s e t) (unify id e t b).
Proof.
  revert t b. induction e as [k ts tid el els i ix Hel Hels] using TypeExpr_ind_nested. intros t b.
  cbn [unify agrees]. destruct k; try (cbn [solves]; by split_and!).
  - (* a variable *)
    destruct (negb (is_nil ts) && negb (bool_decide (t ∈ ts))) eqn:Hallow; cbn [raise_if mbind result_bind].
    { apply andb_true_iff in Hallow as [Hn Hnot]. apply negb_true_iff in Hn, Hnot. apply bool_decide_eq_false in Hnot.
      cbn [solves]. intros s _ [[->|Hin] _]; done. }
    assert (Hok : ts = [] \/ t ∈ ts).
    { apply andb_false_iff in Hallow as [H|H]; apply negb_false_iff in H; [left; by destruct ts|right].
      by apply bool_decide_eq_true in H. }
    destruct (b !! tid) as [bound|] eqn:Hb.
    + destruct (String.eqb_spec bound t) as [->|Hne]; cbn [solves].
      * split_and!; [done|done|done|]. intros s Hs _. done.
      * intros s Hs [_ Hst]. apply Hne. eapply lookup_weaken in Hb; [|exact Hs]. congruence.
    + cbn [solves]. split_and!; [by apply insert_subseteq|done|apply lookup_insert_eq|].
      intros s Hs [_ Hst]. by apply insert_subseteq_l.
  - destruct (parse_list_type_id t), el as [x|]; cbn [solves]; try (intros; tauto). by apply (Hel x).
  - destruct (parse_asset_type_id t), el as [x|]; cbn [solves]; try (intros; tauto). by apply (Hel x).
  - destruct (parse_stream_type_id t), el as [x|]; cbn [solves]; try (intros; tauto). by apply (Hel x).
  - destruct (parse_tuple_type_id t) as [ps|]; [|cbn [solves]; intros; tauto].
    destruct (Nat.eqb_spec (length ps) (length els)) as [Hlen|Hlen].
    + clear -Hels Hlen. revert ps b Hlen. induction Hels as [|e es He _ IH]; intros [|p ps] b Hlen; try done.
      cbn [unify_all all_agree]. apply solves_bind; [intros s s' Hs; by apply agrees_mono|apply He|].
      intros b' _ _. apply IH. cbn in Hlen. lia.
    + cbn [solves]. intros s _. clear -Hlen. revert ps Hlen.
      induction els as [|e es IH]; intros [|p ps] Hlen; cbn in *; [done|tauto|tauto|].
      intros [_ H]. eapply IH; [|exact H]. lia.
Qed.

(** A set of bindings solves an input when there is no value, or the value's
    id agrees with the declared type. *)
Definition input_agrees (input_types : gmap string string) (s : bindings) (spec : InputSpec) : Prop :=
  match input_types !! in_id spec with
  | None => True
  | Some t => agrees s (in_type spec) (unified_id spec t)
  end.

Lemma bind_loop_solves input_types specs b :
  solves b (fun s => Forall (input_agrees input_types s) specs) (bind_loop input_types specs b).
Proof.
  revert b. induction specs as [|spec specs IH]; intros b; cbn [bind_loop].
  - cbn [solves]. split_and!; [done|constructor|done].
  - eapply (solves_iff _ (fun s => input_agrees input_types s spec /\ Forall (input_agrees input_types s) specs)).
    { intros s. by rewrite Forall_cons. }
    apply solves_bind.
    + intros s s' Hs. unfold input_agrees. destruct (input_types !! in_id spec); [|done]. by apply agrees_mono.
    + unfold solve_step, input_agrees. destruct (input_types !! in_id spec); [apply unify_solves|].
      cbn [solves]. by split_and!.
    + intros b' _ _. apply IH.
Qed.

(** * Runtime ids and the expressions they denote *)

Lemma built_ok {A} (r : result expr_error A) a : built r = Ok a <-> r = Ok a.
Proof. destruct r; cbn; split; congruence. Qed.

(** The expression of an id is an object, denotes the id, and is no wildcard. *)
Definition denotes (e : TypeExpr) (s : string) : Prop :=
  constructed e = true /\ runtime_type_id e = Some s /\ is_wildcard e = false.

Lemma denotes_shape k (mk : string -> string) e s :
  k ∈ [KList; KAsset; KStream] ->
  (forall x, runtime_type_id (mkTypeExpr k [] "" (Some x) [] "" None)
     = if bool_decide (k = KList) && is_wildcard x then Some (list_type_id "*") else mk <$> runtime_type_id x) ->
  denotes e s -> denotes (mkTypeExpr k [] "" (Some e) [] "" None) (mk s)
  /\ post_init (mkTypeExpr k [] "" (Some e) [] "" None) = Ok tt.
Proof.
  intros Hk Hof (Hc & Hr & Hw). assert (Hp : post_init (mkTypeExpr k [] "" (Some e) [] "" None) = Ok tt).
  { rewrite !elem_of_cons in Hk. by destruct Hk as [->|[->|[->|?%not_elem_of_nil]]]. }
  split; [|done]. split_and!.
  - cbn [constructed]. by rewrite Hp, Hc.
  - rewrite Hof, Hw, andb_false_r, Hr. done.
  - rewrite !elem_of_cons in Hk. by destruct Hk as [->|[->|[->|?%not_elem_of_nil]]].
Qed.

Lemma parse_tuple_shorter s ps p :
  parse_tuple_type_id s = Some ps -> p ∈ ps -> (String.length p < String.length s)%nat.
Proof.
  intros Hp Hin. apply parse_tuple_spec in Hp as [-> _].
  assert (S (String.length p) <= pending_size ps)%nat.
  { clear -Hin. induction ps as [|q ps IH]; [by apply not_elem_of_nil in Hin|].
    rewrite pending_size_cons. apply elem_of_cons in Hin as [->|Hin]; [lia|]. specialize (IH Hin). lia. }
  pose proof (tuple_pending_size ps). lia.
Qed.

Lemma each_denotes f ps :
  Forall (fun p => exists e, f p = Ok e /\ denotes e p) ps ->
  exists es, each f ps = Ok es /\ forallb constructed es = true /\ map runtime_type_id es = map Some ps.
Proof.
  induction 1 as [|p ps (e & Hf & Hc & Hr & _) _ (es & Hes & Hcs & Hrs)]; [by exists []|].
  exists (e :: es). cbn [each]. rewrite Hf. cbn [mbind result_bind]. rewrite Hes. cbn. by rewrite Hc, Hr, Hcs, Hrs.
Qed.

Lemma from_runtime_denotes fuel s :
  (String.length s < fuel)%nat -> exists e, type_expr_from_runtime_id fuel s = Ok e /\ denotes e s.
Proof.
  revert s. induction fuel as [|fuel IH]; intros s Hf; [lia|]. cbn [type_expr_from_runtime_id].
  destruct (parse_tuple_type_id s) as [ps|] eqn:Et.
  { destruct (each_denotes (type_expr_from_runtime_id fuel) ps) as (es & Hes & Hc & Hr).
    { apply Forall_forall. intros p Hp. apply IH. pose proof (parse_tuple_shorter _ _ _ Et Hp). lia. }
    rewrite Hes. cbn [mbind result_bind]. eexists. split; [done|]. split_and!; [|  |done].
    - cbn [constructed]. by rewrite Hc.
    - cbn [runtime_type_id]. rewrite Hr, (proj2 (all_some_spec _ ps) eq_refl). cbn.
      by apply parse_tuple_spec in Et as [-> _]. }
  destruct (parse_stream_type_id s) as [t|] eqn:Es.
  { destruct (IH t) as (e & He & Hd).
    { unfold parse_stream_type_id in Es. apply parse_unary_length in Es. lia. }
    rewrite He. cbn [mbind result_bind].
    apply (denotes_shape KStream stream_type_id) in Hd as [Hd Hp]; [|set_solver|done].
    apply parse_stream_spec in Es as [-> _]. eexists. split; [|exact Hd].
    apply built_ok, construct_ok. done. }
  destruct (parse_list_type_id s) as [t|] eqn:El.
  { destruct (String.eqb_spec t "*") as [->|Ht].
    - eexists. split; [reflexivity|]. apply parse_list_spec in El as [-> _]. done.
    - destruct (IH t) as (e & He & Hd).
      { unfold parse_list_type_id in El. apply parse_unary_length in El. lia. }
      rewrite He. cbn [mbind result_bind].
      apply (denotes_shape KList list_type_id) in Hd as [Hd Hp]; [|set_solver|done].
      apply parse_list_spec in El as [-> _]. eexists. split; [|exact Hd]. by apply built_ok, construct_ok. }
  destruct (parse_asset_type_id s) as [t|] eqn:Ea.
  { destruct (IH t) as (e & He & Hd).
    { unfold parse_asset_type_id in Ea. apply parse_unary_length in Ea. lia. }
    rewrite He. cbn [mbind result_bind].
    apply (denotes_shape KAsset asset_type_id) in Hd as [Hd Hp]; [|set_solver|done].
    apply parse_asset_spec in Ea as [-> _]. eexists. split; [|exact Hd]. by apply built_ok, construct_ok. }
  assert (Hs : structured_entry s = Ok tt) by (apply structured_entry_ok; done).
  exists (mkTypeExpr KConcrete [s] "" None [] "" None). split.
  - apply built_ok, construct_ok. split; [done|]. unfold post_init. cbn. by rewrite Hs.
  - split_and!; [|done|done]. cbn [constructed]. unfold post_init. cbn. by rewrite Hs.
Qed.

(** * Solved types *)

(** Expressions whose every part is a variable or a constructor. *)
Fixpoint variable_pattern (e : TypeExpr) : bool :=
  match e with
  | mkTypeExpr k _ _ el els _ _ =>
      match k with
      | KVariable => true
      | KList | KAsset | KStream => match el with Some x => variable_pattern x | None => false end
      | KTuple => forallb variable_pattern els
      | _ => false
      end
  end.

Lemma each_resolved s es ps :
  Forall (fun e => forall t, variable_pattern e = true -> agrees s e t ->
            exists r, resolved_type_expr e s = Ok (Some r) /\ runtime_type_id r = Some t) es ->
  forallb variable_pattern es = true -> all_agree (agrees s) es ps ->
  exists rs, each (fun x => resolved_type_expr x s) es = Ok (map Some rs) /\ map runtime_type_id rs = map Some ps.
Proof.
  intros H. revert ps. induction H as [|e es He _ IH]; intros [|p ps]; cbn; try done.
  { intros _ _. by exists []. }
  intros [Hv Hvs]%andb_true_iff [Ha Has]. destruct (He p Hv Ha) as (r & Hr & Ht).
  destruct (IH ps Hvs Has) as (rs & Hrs & Hts). exists (r :: rs). rewrite Hr. cbn [mbind result_bind].
  rewrite Hrs. cbn. by rewrite Ht, Hts.
Qed.

(** Resolving a pattern under bindings that agree gives back the id. *)
Lemma resolved_agrees s e t :
  variable_pattern e = true -> agrees s e t ->
  exists r, resolved_type_expr e s = Ok (Some r) /\ runtime_type_id r = Some t.
Proof.
  revert t. induction e as [k ts tid el els i ix Hel Hels] using TypeExpr_ind_nested. intros t.
  cbn [variable_pattern agrees resolved_type_expr].
  (* a one-argument constructor over a resolved element *)
  assert (Hshape : forall k' (mk : string -> string) x t',
            (forall y, runtime_type_id (mkTypeExpr k' [] "" (Some y) [] "" None)
               = if bool_decide (k' = KList) && is_wildcard y then Some (list_type_id "*") else mk <$> runtime_type_id y) ->
            post_init (mkTypeExpr k' [] "" (Some x) [] "" None) = Ok tt ->
            runtime_type_id x = Some t' ->
            exists r, built (construct (mkTypeExpr k' [] "" (Some x) [] "" None)) = Ok r /\ runtime_type_id r = Some (mk t')).
  { intros k' mk x t' Hof Hp Hx. eexists. split; [by apply built_ok, construct_ok|]. rewrite Hof.
    assert (is_wildcard x = false) as ->; [|by rewrite andb_false_r, Hx].
    unfold is_wildcard. apply bool_decide_eq_false. intros Hk. destruct x; cbn in Hk; subst. done. }
  destruct k; try done.
  - intros _ [_ Hb]. rewrite Hb. destruct (from_runtime_denotes (S (String.length t)) t) as (e & He & _ & Hr & _); [lia|].
    unfold expr_of_runtime_id. rewrite He. by exists e.
  - destruct el as [x|]; [|done]. destruct (parse_list_type_id t) as [t'|] eqn:Et; [|done]. intros Hv Ha.
    destruct (Hel x eq_refl t' Hv Ha) as (r & Hr & Hrt).
    assert (is_wildcard x = false) as ->.
    { unfold is_wildcard. apply bool_decide_eq_false. intros Hk. destruct x; cbn in Hk; subst. done. }
    rewrite Hr. cbn [mbind result_bind]. apply parse_list_spec in Et as [-> _].
    destruct (Hshape KList list_type_id r t') as (q & Hq & Hqt); [done|done|done|].
    change (construct (mkTypeExpr KList [] "" (Some r) [] "" None)) with (list_of r) in Hq. rewrite Hq. by exists q.
  - destruct el as [x|]; [|done]. destruct (parse_asset_type_id t) as [t'|] eqn:Et; [|done]. intros Hv Ha.
    destruct (Hel x eq_refl t' Hv Ha) as (r & Hr & Hrt).
    rewrite Hr. cbn [mbind result_bind]. apply parse_asset_spec in Et as [-> _].
    destruct (Hshape KAsset asset_type_id r t') as (q & Hq & Hqt); [done|done|done|].
    change (construct (mkTypeExpr KAsset [] "" (Some r) [] "" None)) with (asset_of r) in Hq. rewrite Hq. by exists q.
  - destruct el as [x|]; [|done]. destruct (parse_stream_type_id t) as [t'|] eqn:Et; [|done]. intros Hv Ha.
    destruct (Hel x eq_refl t' Hv Ha) as (r & Hr & Hrt).
    rewrite Hr. cbn [mbind result_bind]. apply parse_stream_spec in Et as [-> _].
    destruct (Hshape KStream stream_type_id r t') as (q & Hq & Hqt); [done|done|done|].
    change (construct (mkTypeExpr KStream [] "" (Some r) [] "" None)) with (stream_of r) in Hq. rewrite Hq. by exists q.
  - destruct (parse_tuple_type_id t) as [ps|] eqn:Et; [|done]. intros Hv Ha.
    destruct (each_resolved s els ps Hels Hv Ha) as (rs & Hrs & Hts). rewrite Hrs. cbn [mbind result_bind].
    rewrite (proj2 (all_some_spec _ rs) eq_refl). eexists. split; [reflexivity|].
    cbn [runtime_type_id]. rewrite Hts, (proj2 (all_some_spec _ ps) eq_refl). cbn.
    by apply parse_tuple_spec in Et as [-> _].
Qed.

(** * Properties *)

(** Every runtime type id denotes an expression: the conversion answers on
    every string within its fuel, what it builds passes every construction
    check, and its runtime id is the string it came from. *)
Theorem runtime_id_roundtrip s :
  exists e, expr_of_runtime_id s = Ok e /\ constructed e = true /\ runtime_type_id e = Some s.
Proof.
  destruct (from_runtime_denotes (S (String.length s)) s) as (e & He & Hc & Hr & _); [lia|]. by exists e.
Qed.

(** Solving is exact: it succeeds just when some assignment of ids to the
    variables agrees with every received input (shapes, allowlists and every
    mention of a variable), and it then answers the least such assignment;
    with the variables it binds, every input declared over variables resolves
    to exactly the id that was received. *)
Theorem bind_type_variables_exact specs input_types :
  match bind_type_variables specs input_types with
  | Ok s =>
      Forall (input_agrees input_types s) specs
      /\ (forall s', Forall (input_agrees input_types s') specs -> s ⊆ s')
      /\ (forall spec t, spec ∈ specs -> input_types !! in_id spec = Some t ->
            variable_pattern (in_type spec) = true ->
            resolved_type_id (in_type spec) s = Ok (Some (unified_id spec t)))
  | Err _ => forall s', ~ Forall (input_agrees input_types s') specs
  end.
Proof.
  unfold bind_type_variables. pose proof (bind_loop_solves input_types specs ∅) as H.
  destruct (bind_loop input_types specs ∅) as [s|e]; cbn [solves] in H.
  - destruct H as (_ & HP & Hmin). split_and!; [done| |].
    + intros s' Hs'. apply Hmin; [apply map_empty_subseteq|done].
    + intros spec t Hin Ht Hv. rewrite Forall_forall in HP. specialize (HP spec Hin).
      unfold input_agrees in HP. rewrite Ht in HP. destruct (resolved_agrees _ _ _ Hv HP) as (r & Hr & Hrt).
      unfold resolved_type_id. rewrite Hr. cbn. by rewrite Hrt.
  - intros s'. apply H, map_empty_subseteq.
Qed.

(** The order of the inputs does not matter: permuting them leaves the
    bindings, and whether there are any, unchanged. *)
Theorem bind_type_variables_order specs specs' input_types :
  specs ≡ₚ specs' ->
  match bind_type_variables specs input_types, bind_type_variables specs' input_types with
  | Ok s, Ok s' => s = s'
  | Err _, Err _ => True
  | _, _ => False
  end.
Proof.
  intros Hperm. unfold bind_type_variables.
  pose proof (bind_loop_solves input_types specs ∅) as H. pose proof (bind_loop_solves input_types specs' ∅) as H'.
  destruct (bind_loop input_types specs ∅) as [s|e], (bind_loop input_types specs' ∅) as [s'|e']; cbn [solves] in H, H'.
  - destruct H as (_ & HP & Hmin), H' as (_ & HP' & Hmin').
    apply (anti_symm (⊆)); [apply Hmin|apply Hmin']; try apply map_empty_subseteq; by rewrite Hperm || by rewrite <- Hperm.
  - destruct H as (_ & HP & _). apply (H' s); [apply map_empty_subseteq|]. by rewrite <- Hperm.
  - destruct H' as (_ & HP & _). apply (H s'); [apply map_empty_subseteq|]. by rewrite Hperm.
  - done.
Qed.

Definition demo_specs : list InputSpec :=
  let t := mkTypeExpr KVariable [] "T" None [] "" None in
  [plain_input "a" t true; plain_input "b" (mkTypeExpr KList [] "" (Some t) [] "" None) true].

Definition demo_types : gmap string string := {["a" := "INT"; "b" := "list<INT>"]}.

Lemma bind_type_variables_order_witness :
  is_ok (bind_type_variables demo_specs demo_types) = true
  /\ match bind_type_variables demo_specs demo_types, bind_type_variables (reverse demo_specs) demo_types with
     | Ok s, Ok s' => s = s'
     | Err _, Err _ => True
     | _, _ => False
     end.
Proof.
  split; [vm_compute; reflexivity|].
  apply bind_type_variables_order. apply (Permutation_swap (plain_input "b" _ true) (plain_input "a" _ true) []).
Defined.
