(* ===== verification/Coerce.v ===== *)
(** Coerce: input type admission and asset coercion (dinkster_schema/coerce.py):
    the COMBO boundary, type equivalence, and the plan of one coercion step. *)
From S2P Require Import Prelude PyStr TypeIds TypeExprs Widgets.

Local Open Scope string_scope.
Local Open Scope Z_scope.
Local Open Scope list_scope.

(** * The COMBO boundary *)

Fixpoint expr_mentions_combo (e : TypeExpr) : bool :=
  match e with
  | mkTypeExpr k ts _ el els _ _ =>
      match k with
      | KConcrete | KUnion | KVariable => str_in CORE_COMBO ts
      | KList | KAsset | KStream => match el with Some x => expr_mentions_combo x | None => false end
      | KTuple => existsb expr_mentions_combo els
      | _ => false
      end
  end.

Definition combo_type_mismatch_is_error (source_type_id : string) (expected : TypeExpr) : bool :=
  str_in CORE_COMBO (default [] (runtime_type_atoms source_type_id)) || expr_mentions_combo expected.

(** * Equivalence *)

(** [equivalent_type] is the registry's lookup. *)
Definition plan_type_equivalence (source_type_id : string) (expected : TypeExpr)
  (equivalent_type : string -> option string) : option string :=
  if accepts_concrete expected source_type_id then None
  else match equivalent_type source_type_id with
       | Some counterpart => if accepts_concrete expected counterpart then Some counterpart else None
       | None => None
       end.

(** * Asset coercion *)

Inductive plan_kind := Decode | Lift | Merge.

#[export] Instance plan_kind_eq_dec : EqDecision plan_kind.
Proof. solve_decision. Defined.

Record AssetCoercionPlan := mkPlan {
  plan_kind_of : plan_kind; target_type_id : string; result_type_id : string; merge_type_id : option string }.

Definition missing_providers (self : AssetCoercionPlan) (asset_decoder_for batch_merge_for : string -> bool) : list string :=
  (if asset_decoder_for (target_type_id self) then []
   else ["asset decoder for target '" +:+ (target_type_id self +:+ "'")])
  ++ match merge_type_id self with
     | Some t => if batch_merge_for t then [] else ["batch merge for type '" +:+ (t +:+ "'")]
     | None => []
     end.

Definition plan_asset_coercion (source_type_id : string) (expected : TypeExpr) : option AssetCoercionPlan :=
  match parse_asset_type_id source_type_id with
  | Some target => if accepts_concrete expected target then Some (mkPlan Decode target target None) else None
  | None =>
      match parse_list_type_id source_type_id with
      | None => None
      | Some element =>
          match parse_asset_type_id element with
          | None => None
          | Some target =>
              let lifted := list_type_id target in
              if accepts_concrete expected lifted then Some (mkPlan Lift target lifted None)
              else if bool_decide (cardinality expected = CScalar) && is_None (parse_list_type_id target)
                      && accepts_concrete expected target
              then Some (mkPlan Merge target target (Some target))
              else None
          end
      end
  end.

(** What each plan means: the one step from the source to the destination. *)
Definition plan_means (source : string) (expected : TypeExpr) (p : AssetCoercionPlan) : Prop :=
  let t := target_type_id p in
  t <> "" /\
  match plan_kind_of p with
  | Decode => source = asset_type_id t /\ accepts_concrete expected t = true
      /\ result_type_id p = t /\ merge_type_id p = None
  | Lift => source = list_type_id (asset_type_id t) /\ accepts_concrete expected (list_type_id t) = true
      /\ result_type_id p = list_type_id t /\ merge_type_id p = None
  | Merge => source = list_type_id (asset_type_id t) /\ accepts_concrete expected (list_type_id t) = false
      /\ accepts_concrete expected t = true /\ cardinality expected = CScalar
      /\ (forall e, t = list_type_id e -> e = "") /\ result_type_id p = t /\ merge_type_id p = Some t
  end.

Lemma asset_of_list_none s : parse_asset_type_id (list_type_id s) = None.
Proof. unfold parse_asset_type_id. by apply parse_unary_clash. Qed.

Lemma parse_asset_id t : t <> "" -> parse_asset_type_id (asset_type_id t) = Some t.
Proof. intros Ht. by apply parse_asset_spec. Qed.

Lemma parse_list_asset t : parse_list_type_id (list_type_id (asset_type_id t)) = Some (asset_type_id t).
Proof. by apply parse_list_spec. Qed.

Lemma not_list_iff t : is_None (parse_list_type_id t) = true <-> forall e, t = list_type_id e -> e = "".
Proof.
  destruct (parse_list_type_id t) as [e|] eqn:E; cbn; split; try done.
  - apply parse_list_spec in E as [-> He]. intros H. by destruct He; apply H.
  - intros _ e ->. destruct (decide (e = "")) as [|Hne]; [done|].
    assert (parse_list_type_id (list_type_id e) = Some e) as E' by (by apply parse_list_spec). congruence.
Qed.

(** * Properties *)

(** A coercion plan is exactly one admissible step: the planner answers a
    plan if and only if the plan's meaning holds of the source and the
    destination, so plans are unique, what a plan produces is accepted by the
    destination, and no plan exists when no step fits. *)
Theorem plan_asset_coercion_exact source expected p :
  plan_asset_coercion source expected = Some p <-> plan_means source expected p.
Proof.
  unfold plan_asset_coercion, plan_means. split.
  - destruct (parse_asset_type_id source) as [t|] eqn:Ea.
    { apply parse_asset_spec in Ea as [-> Ht]. destruct (accepts_concrete expected t) eqn:E; [|done].
      intros [= <-]. done. }
    destruct (parse_list_type_id source) as [el|] eqn:El; [|done].
    destruct (parse_asset_type_id el) as [t|] eqn:Et; [|done].
    apply parse_list_spec in El as [-> _]. apply parse_asset_spec in Et as [-> Ht].
    destruct (accepts_concrete expected (list_type_id t)) eqn:Elift; [by intros [= <-]|].
    destruct (_ && _) eqn:Em; [|done]. intros [= <-].
    apply andb_true_iff in Em as [[Hc%bool_decide_eq_true Hn]%andb_true_iff Ha].
    pose proof (proj1 (not_list_iff t) Hn). done.
  - destruct p as [k t r m]. cbn. intros [Ht H]. destruct k.
    + destruct H as (-> & Ha & -> & ->). by rewrite parse_asset_id, Ha.
    + destruct H as (-> & Ha & -> & ->). by rewrite asset_of_list_none, parse_list_asset, parse_asset_id, Ha.
    + destruct H as (-> & Hl & Ha & Hc & Hn & -> & ->).
      rewrite asset_of_list_none, parse_list_asset, parse_asset_id, Hl, Ha by done.
      rewrite bool_decide_true by done. by rewrite (proj2 (not_list_iff t) Hn).
Qed.

(** A plan is executable exactly when the registry has its decoder and, for
    a merge, its batch merge; and the equivalence planner only ever answers a
    registered counterpart that the destination accepts, and only when the
    source itself is refused. *)
Theorem plans_need_their_providers :
  (forall p dec mrg, missing_providers p dec mrg = [] <->
     dec (target_type_id p) = true /\ forall t, merge_type_id p = Some t -> mrg t = true)
  /\ (forall source expected eqv c, plan_type_equivalence source expected eqv = Some c <->
     accepts_concrete expected source = false /\ eqv source = Some c /\ accepts_concrete expected c = true).
Proof.
  split.
  - intros p dec mrg. unfold missing_providers. destruct (dec (target_type_id p)), (merge_type_id p) as [t|];
      try destruct (mrg t) eqn:E; cbn; split; try done; try (intros []; discriminate); intros; try split; try done.
    + intros t' [= <-]. done.
    + destruct H as [_ H]. specialize (H t eq_refl). congruence.
  - intros source expected eqv c. unfold plan_type_equivalence.
    destruct (accepts_concrete expected source); [split; [done|by intros (? & _)]|].
    destruct (eqv source) as [d|]; [|split; [done|by intros (_ & ? & _)]].
    destruct (accepts_concrete expected d) eqn:E.
    + split; [by intros [= <-]|]. by intros (_ & [= ->] & _).
    + split; [done|]. intros (_ & [= ->] & H). congruence.
Qed.
