(* ===== verification/Graph.v ===== *)
(** Graph: the graph document model (dinkster_graph/model.py): links, literal
    values, nodes and regions, the run-scoped snapshot, and the runtime
    node-path grammar. *)
From S2P Require Import Prelude PyStr TypeIds TypeExprs.
From Stdlib Require Import Ascii SpecFloat.

Local Open Scope string_scope.
Local Open Scope Z_scope.
Local Open Scope list_scope.

(** * Documents *)

Record Link := mkLink { link_node : string; link_output : string }.

#[export] Instance Link_eq_dec : EqDecision Link.
Proof. solve_decision. Defined.

(** An input's value: a link, a typed literal, a JSON-shaped literal, or any
    other object a caller may have put there. *)
Inductive gvalue :=
| GLink (l : Link)
| GTyped (type_id : string) (value : gvalue)
| GNone
| GBool (b : bool)
| GInt (z : Z)
| GFloat (f : spec_float)
| GStr (s : string)
| GList (l : list gvalue)
| GDict (d : list (gvalue * gvalue))
| GOther (cls : string).

Section gvalue_induction.
Variable P : gvalue -> Prop.
Hypothesis HLink : forall l, P (GLink l).
Hypothesis HTyped : forall t v, P v -> P (GTyped t v).
Hypothesis HNone : P GNone.
Hypothesis HBool : forall b, P (GBool b).
Hypothesis HInt : forall z, P (GInt z).
Hypothesis HFloat : forall f, P (GFloat f).
Hypothesis HStr : forall s, P (GStr s).
Hypothesis HList : forall l, Forall P l -> P (GList l).
Hypothesis HDict : forall d, Forall (fun kv => P kv.2) d -> P (GDict d).
Hypothesis HOther : forall c, P (GOther c).

Fixpoint gvalue_ind_nested (v : gvalue) : P v :=
  match v with
  | GLink l => HLink l
  | GTyped t u => HTyped t u (gvalue_ind_nested u)
  | GNone => HNone
  | GBool b => HBool b
  | GInt z => HInt z
  | GFloat f => HFloat f
  | GStr s => HStr s
  | GList l => HList l ((fix all (l : list gvalue) : Forall P l :=
      match l with
      | [] => Forall_nil_2 P
      | x :: l' => Forall_cons_2 P x l' (gvalue_ind_nested x) (all l')
      end) l)
  | GDict d => HDict d ((fix all (d : list (gvalue * gvalue)) : Forall (fun kv => P kv.2) d :=
      match d with
      | [] => Forall_nil_2 _
      | x :: d' => Forall_cons_2 (fun kv => P kv.2) x d'
                     (match x return P x.2 with (_, u) => gvalue_ind_nested u end) (all d')
      end) d)
  | GOther c => HOther c
  end.
End gvalue_induction.

(** ** Equality is decidable *)

#[export] Instance spec_float_eq_dec : EqDecision spec_float.
Proof. solve_decision. Defined.

#[export] Instance gvalue_eq_dec : EqDecision gvalue.
Proof.
  refine (fix go v w : Decision (v = w) := let _ : EqDecision gvalue := @go in
    match v, w with
    | GLink a, GLink b => cast_if (decide (a = b))
    | GTyped a x, GTyped b y => cast_if_and (decide (a = b)) (decide (x = y))
    | GNone, GNone => left eq_refl
    | GBool a, GBool b => cast_if (decide (a = b))
    | GInt a, GInt b => cast_if (decide (a = b))
    | GFloat a, GFloat b => cast_if (decide (a = b))
    | GStr a, GStr b => cast_if (decide (a = b))
    | GList a, GList b => cast_if (decide (a = b))
    | GDict a, GDict b => cast_if (decide (a = b))
    | GOther a, GOther b => cast_if (decide (a = b))
    | _, _ => right _
    end); abstract congruence.
Defined.

Record GraphNode := mkGraphNode {
  node_type : string;
  node_inputs : list (string * gvalue);
  output_members : list (string * list string);
  slot_variants : list (string * string)
}.

Inductive RegionKind := RMap | RFold | RWhile.
Inductive BindingMode := BZip | BCross | BBroadcast.
Inductive OutputMode := OGather | OCompact | OState | OFlatten | OLast.
Inductive CachePolicy := CReuse | CRerun.

#[export] Instance RegionKind_eq_dec : EqDecision RegionKind.
Proof. solve_decision. Defined.
#[export] Instance OutputMode_eq_dec : EqDecision OutputMode.
Proof. solve_decision. Defined.

Record RegionOutput := mkRegionOutput { ro_source : Link; ro_mode : OutputMode }.

(** A region's own fields; its body is an argument of [RegionOf]. *)
Record RegionNode := mkRegionNode {
  rn_kind : RegionKind;
  rn_ports : list (string * TypeExpr);
  rn_inputs : list (string * gvalue);
  rn_element_ports : list string;
  rn_state_ports : list string;
  rn_outputs : list (string * RegionOutput);
  rn_binding : BindingMode;
  rn_cache_policy : CachePolicy;
  rn_max_iterations : option Z;
  rn_continue_source : option Link
}.

Inductive AnyNode :=
| NodeOf (n : GraphNode)
| RegionOf (r : RegionNode) (body : list (string * AnyNode)).

(** [Graph.nodes], a dict of node ids. *)
Definition Graph := list (string * AnyNode).

Section AnyNode_induction.
Variable P : AnyNode -> Prop.
Hypothesis HNode : forall n, P (NodeOf n).
Hypothesis HRegion : forall r body, Forall (fun kn => P kn.2) body -> P (RegionOf r body).

Fixpoint AnyNode_ind_nested (n : AnyNode) : P n :=
  match n with
  | NodeOf g => HNode g
  | RegionOf r body => HRegion r body ((fix all (b : list (string * AnyNode)) : Forall (fun kn => P kn.2) b :=
      match b with
      | [] => Forall_nil_2 _
      | x :: b' => Forall_cons_2 (fun kn => P kn.2) x b'
                     (match x return P x.2 with (_, m) => AnyNode_ind_nested m end) (all b')
      end) body)
  end.
End AnyNode_induction.

#[export] Instance GraphNode_eq_dec : EqDecision GraphNode.
Proof. solve_decision. Defined.
#[export] Instance BindingMode_eq_dec : EqDecision BindingMode.
Proof. solve_decision. Defined.
#[export] Instance CachePolicy_eq_dec : EqDecision CachePolicy.
Proof. solve_decision. Defined.
#[export] Instance RegionOutput_eq_dec : EqDecision RegionOutput.
Proof. solve_decision. Defined.
#[export] Instance RegionNode_eq_dec : EqDecision RegionNode.
Proof. solve_decision. Defined.

#[export] Instance AnyNode_eq_dec : EqDecision AnyNode.
Proof.
  refine (fix go n m : Decision (n = m) := let _ : EqDecision AnyNode := @go in
    match n, m with
    | NodeOf a, NodeOf b => cast_if (decide (a = b))
    | RegionOf r a, RegionOf q b => cast_if_and (decide (r = q)) (decide (a = b))
    | _, _ => right _
    end); abstract congruence.
Defined.

(** [node.inputs] of either class. *)
Definition inputs_of (n : AnyNode) : list (string * gvalue) :=
  match n with NodeOf g => node_inputs g | RegionOf r _ => rn_inputs r end.

Definition PORTS_NODE_ID : string := "$region".
Definition REGION_INDEX_PORT_ID : string := "index".
Definition NODE_ID_FORBIDDEN_CHARS : list ascii := ["/"%char; "["%char; "]"%char].

Definition forbidden_char (c : ascii) : bool := existsb (Ascii.eqb c) NODE_ID_FORBIDDEN_CHARS.

(** [s.partition(c)[0]]: what stands before the first [c]. *)
Fixpoint before_char (c : ascii) (s : string) : string :=
  match s with
  | EmptyString => EmptyString
  | String d s' => if Ascii.eqb d c then EmptyString else String d (before_char c s')
  end.

Definition top_level_node_id (runtime_node_id : string) : string :=
  before_char "["%char (before_char "/"%char runtime_node_id).

(** * The snapshot *)

Inductive snapshot_error := KeysNotStrings | NotJsonShaped (cls : string).

(** [{key: f(value) for key, value in d.items()}], [[f(x) for x in l]]. *)
Fixpoint copy_items {E K A B} (f : A -> result E B) (d : list (K * A)) : result E (list (K * B)) :=
  match d with
  | [] => Ok []
  | (k, a) :: d' => b ← f a; r ← copy_items f d'; Ok ((k, b) :: r)
  end.

Fixpoint copy_list {E A B} (f : A -> result E B) (l : list A) : result E (list B) :=
  match l with
  | [] => Ok []
  | a :: l' => b ← f a; r ← copy_list f l'; Ok (b :: r)
  end.

Definition is_gstr (v : gvalue) : bool := match v with GStr _ => true | _ => false end.

Fixpoint copy_literal (v : gvalue) : result snapshot_error gvalue :=
  match v with
  | GLink _ => Ok v
  | GTyped t u => w ← copy_literal u; Ok (GTyped t w)
  | GNone | GStr _ | GInt _ | GFloat _ | GBool _ => Ok v
  | GList l => r ← copy_list copy_literal l; Ok (GList r)
  | GDict d =>
      if forallb (fun kv => is_gstr kv.1) d then r ← copy_items copy_literal d; Ok (GDict r)
      else Err KeysNotStrings
  | GOther c => Err (NotJsonShaped c)
  end.

Definition with_region_inputs (r : RegionNode) (inputs : list (string * gvalue)) : RegionNode :=
  mkRegionNode (rn_kind r) (rn_ports r) inputs (rn_element_ports r) (rn_state_ports r) (rn_outputs r)
    (rn_binding r) (rn_cache_policy r) (rn_max_iterations r) (rn_continue_source r).

Definition with_node_inputs (n : GraphNode) (inputs : list (string * gvalue)) : GraphNode :=
  mkGraphNode (node_type n) inputs (output_members n) (slot_variants n).

Fixpoint copy_node (n : AnyNode) : result snapshot_error AnyNode :=
  match n with
  | RegionOf r body =>
      b ← copy_items copy_node body;
      i ← copy_items copy_literal (rn_inputs r);
      Ok (RegionOf (with_region_inputs r i) b)
  | NodeOf g => i ← copy_items copy_literal (node_inputs g); Ok (NodeOf (with_node_inputs g i))
  end.

Definition snapshot_graph (g : Graph) : result snapshot_error Graph := copy_items copy_node g.

(** JSON-shaped values, with links and typed literals at any depth. *)
Fixpoint json_shaped (v : gvalue) : bool :=
  match v with
  | GTyped _ u => json_shaped u
  | GList l => forallb json_shaped l
  | GDict d => forallb (fun kv => is_gstr kv.1 && json_shaped kv.2) d
  | GOther _ => false
  | _ => true
  end.

Fixpoint shaped_node (n : AnyNode) : bool :=
  forallb (fun kv => json_shaped kv.2) (inputs_of n)
  && match n with RegionOf _ body => forallb (fun kn => shaped_node kn.2) body | NodeOf _ => true end.

Section copying.
Context {E A : Type} (f : A -> result E A) (good : A -> bool).

(** [f] copies the good values as they are and refuses the others. *)
Definition copies (a : A) : Prop := match f a with Ok b => b = a /\ good a = true | Err _ => good a = false end.

Lemma copy_list_copies l : Forall copies l ->
  match copy_list f l with Ok r => r = l /\ forallb good l = true | Err _ => forallb good l = false end.
Proof.
  induction 1 as [|a l Ha _ IH]; cbn [copy_list forallb]; [done|]. unfold copies in Ha.
  destruct (f a) as [b|]; cbn [mbind result_bind]; [|by rewrite Ha]. destruct Ha as [-> ->].
  destruct (copy_list f l); cbn [mbind result_bind]; [by destruct IH as [-> ->]|done].
Qed.

Lemma copy_items_copies {K} (d : list (K * A)) : Forall (fun kv => copies kv.2) d ->
  match copy_items f d with
  | Ok r => r = d /\ forallb (fun kv => good kv.2) d = true
  | Err _ => forallb (fun kv => good kv.2) d = false
  end.
Proof.
  induction 1 as [|[k a] d Ha _ IH]; cbn [copy_items forallb]; [done|]. cbn [snd] in *. unfold copies in Ha.
  destruct (f a) as [b|]; cbn [mbind result_bind]; [|by rewrite Ha]. destruct Ha as [-> ->].
  destruct (copy_items f d); cbn [mbind result_bind]; [by destruct IH as [-> ->]|done].
Qed.
End copying.

Lemma forallb_and {A} (f g : A -> bool) l : forallb (fun a => f a && g a) l = forallb f l && forallb g l.
Proof. induction l as [|a l IH]; cbn; [done|]. rewrite IH. by destruct (f a), (g a), (forallb f l). Qed.

Lemma copy_literal_copies v : copies copy_literal json_shaped v.
Proof.
  unfold copies. induction v as [l|t v IH| |b|z|f|s|l IH|d IH|c] using gvalue_ind_nested; try done;
    cbn [copy_literal json_shaped].
  - destruct (copy_literal v); cbn [mbind result_bind]; [by destruct IH as [-> ->]|done].
  - pose proof (copy_list_copies copy_literal json_shaped l IH) as H.
    destruct (copy_list copy_literal l); cbn [mbind result_bind]; [by destruct H as [-> ->]|done].
  - rewrite forallb_and. destruct (forallb (fun kv => is_gstr kv.1) d); [|done].
    pose proof (copy_items_copies copy_literal json_shaped d IH) as H.
    destruct (copy_items copy_literal d); cbn [mbind result_bind]; [by destruct H as [-> ->]|done].
Qed.

Lemma copy_inputs_copies (d : list (string * gvalue)) :
  match copy_items copy_literal d with
  | Ok r => r = d /\ forallb (fun kv => json_shaped kv.2) d = true
  | Err _ => forallb (fun kv => json_shaped kv.2) d = false
  end.
Proof. apply copy_items_copies, Forall_forall. intros kv _. apply copy_literal_copies. Qed.

Lemma copy_node_copies n : copies copy_node shaped_node n.
Proof.
  unfold copies. induction n as [g|r body IH] using AnyNode_ind_nested; cbn [copy_node shaped_node inputs_of].
  - pose proof (copy_inputs_copies (node_inputs g)) as H. rewrite andb_true_r.
    destruct (copy_items copy_literal (node_inputs g)); cbn [mbind result_bind]; [|done].
    destruct H as [-> ->]. by destruct g.
  - pose proof (copy_items_copies copy_node shaped_node body IH) as Hb.
    pose proof (copy_inputs_copies (rn_inputs r)) as Hi.
    destruct (copy_items copy_node body); cbn [mbind result_bind]; [|by rewrite Hb, andb_false_r].
    destruct (copy_items copy_literal (rn_inputs r)); cbn [mbind result_bind]; [|by rewrite Hi].
    destruct Hb as [-> ->], Hi as [-> ->]. by destruct r.
Qed.

(** * Properties *)

(** The run's snapshot is the document: it succeeds exactly on documents
    whose literals are JSON-shaped at every depth, inside typed literals and
    region bodies too, and is then equal to the document. *)
Theorem snapshot_is_the_document g :
  match snapshot_graph g with
  | Ok g' => g' = g /\ forallb (fun kn => shaped_node kn.2) g = true
  | Err _ => forallb (fun kn => shaped_node kn.2) g = false
  end.
Proof. apply copy_items_copies, Forall_forall. intros kn _. apply copy_node_copies. Qed.

Lemma before_char_app c a b : str_has c a = false -> before_char c (a +:+ String c b) = a.
Proof.
  unfold str_has. induction a as [|d a IH]; rewrite ?str_app_nil_l, ?str_app_cons; cbn [before_char str_any].
  - by rewrite Ascii.eqb_refl.
  - intros [Hd Ha]%orb_false_iff. rewrite Ascii.eqb_sym, Hd. by rewrite IH.
Qed.

Lemma before_char_none c a : str_has c a = false -> before_char c a = a.
Proof.
  unfold str_has. induction a as [|d a IH]; cbn [before_char str_any]; [done|].
  intros [Hd Ha]%orb_false_iff. rewrite Ascii.eqb_sym, Hd. by rewrite IH.
Qed.

(** A segment of a runtime path: a document node id with its occurrence, if any. *)
Definition segment (node_id : string) (occurrence : option N) : string :=
  match occurrence with
  | None => node_id
  | Some i => node_id +:+ ("[" +:+ (pretty i +:+ "]"))
  end.

Lemma forbidden_has c a :
  c ∈ NODE_ID_FORBIDDEN_CHARS -> str_any forbidden_char a = false -> str_has c a = false.
Proof.
  intros Hc. unfold str_has. induction a as [|d a IH]; cbn [str_any]; [done|].
  intros [Hd Ha]%orb_false_iff. rewrite IH by done. rewrite orb_false_r.
  destruct (Ascii.eqb_spec c d) as [->|]; [|done]. unfold forbidden_char in Hd.
  rewrite <- not_true_iff_false, existsb_exists in Hd. destruct Hd. exists d.
  split; [by apply list_elem_of_In|apply Ascii.eqb_refl].
Qed.

Lemma pretty_no_slash_aux (i : N) (s : string) :
  str_has "/"%char s = false -> str_has "/"%char (pretty_N_go i s) = false.
Proof.
  revert s. induction i as [i IH] using (well_founded_induction N.lt_wf_0). intros s Hs.
  destruct (decide (0 < i)%N) as [Hi|Hi].
  - rewrite pretty_N_go_step by done. apply IH; [apply N.div_lt; lia|].
    unfold str_has in *. cbn [str_any]. rewrite Hs, orb_false_r.
    unfold pretty_N_char. by repeat case_match.
  - assert (i = 0%N) as -> by lia. by rewrite pretty_N_go_0.
Qed.

Lemma pretty_no_slash (i : N) : str_has "/"%char (pretty i) = false.
Proof.
  unfold pretty, pretty_N. case_decide; [done|]. by apply pretty_no_slash_aux.
Qed.

(** The document node at the root of a runtime path is recovered from it:
    whatever its occurrence and whatever is nested below, since document node
    ids hold none of the path characters. *)
Theorem top_level_of_path node_id occurrence rest :
  str_any forbidden_char node_id = false ->
  top_level_node_id (segment node_id occurrence) = node_id
  /\ top_level_node_id (segment node_id occurrence +:+ ("/" +:+ rest)) = node_id.
Proof.
  intros Hid.
  assert (Hslash : str_has "/"%char node_id = false) by (apply forbidden_has; [set_solver|done]).
  assert (Hbr : str_has "["%char node_id = false) by (apply forbidden_has; [set_solver|done]).
  assert (Hseg : str_has "/"%char (segment node_id occurrence) = false).
  { destruct occurrence as [i|]; [|done]. cbn [segment]. unfold str_has in *. rewrite !str_any_app, Hslash.
    pose proof (pretty_no_slash i) as Hp. unfold str_has in Hp. by rewrite Hp. }
  assert (Hin : before_char "["%char (segment node_id occurrence) = node_id).
  { destruct occurrence as [i|]; cbn [segment].
    - rewrite str_app_cons. by apply before_char_app.
    - by apply before_char_none. }
  unfold top_level_node_id. split.
  - by rewrite (before_char_none _ _ Hseg).
  - rewrite str_app_cons, str_app_nil_l. by rewrite (before_char_app _ _ _ Hseg).
Qed.

Lemma top_level_of_path_witness : top_level_node_id "outer[12]/inner[0]" = "outer".
Proof. apply (top_level_of_path "outer" (Some 12%N) "inner[0]"). reflexivity. Defined.
