(* ===== verification/GraphWire.v ===== *)
(** GraphWire: the JSON shape of a graph document (dinkster_graph/wire.py) and
    of the type expressions inside it (dinkster_schema/wire.py,
    [type_expr_to_wire] and [type_expr_from_wire]).

    A wire value is a [gvalue]; a document parsed from JSON holds no [GLink],
    [GTyped] and [GOther], and its dicts have distinct string keys. *)
From S2P Require Import Prelude PyStr TypeIds TypeExprs Graph.
From Stdlib Require Import Ascii.

Local Open Scope string_scope.
Local Open Scope Z_scope.
Local Open Scope list_scope.

(** * Recursion on wire values *)

Fixpoint gdepth (v : gvalue) : nat :=
  match v with
  | GTyped _ u => S (gdepth u)
  | GList l => S (list_max (map gdepth l))
  | GDict d => S (list_max (map (fun kv => gdepth kv.2) d))
  | _ => 0
  end.

(** A decoder calls itself on values below its argument only. [wire_fix F] is
    the function with the equation [f w = F f w]; [stop] is never answered. *)
Section wire_fix.
Context {R : Type} (stop : R) (F : (gvalue -> R) -> gvalue -> R).

Fixpoint wire_iter (fuel : nat) (w : gvalue) : R :=
  match fuel with O => stop | S n => F (wire_iter n) w end.

Definition wire_fix (w : gvalue) : R := wire_iter (S (gdepth w)) w.

Definition goes_down : Prop :=
  forall f g w, (forall v, (gdepth v < gdepth w)%nat -> f v = g v) -> F f w = F g w.

Hypothesis F_down : goes_down.

Lemma wire_iter_enough n m w : (gdepth w < n)%nat -> (gdepth w < m)%nat -> wire_iter n w = wire_iter m w.
Proof using F_down.
  revert m w. induction n as [|n IH]; intros [|m] w Hn Hm; try lia.
  cbn [wire_iter]. apply F_down. intros v Hv. apply IH; lia.
Qed.

Lemma wire_fix_eq w : wire_fix w = F wire_fix w.
Proof using F_down.
  unfold wire_fix at 1. cbn [wire_iter]. apply F_down. intros v Hv. unfold wire_fix.
  apply wire_iter_enough; lia.
Qed.
End wire_fix.

(** The string-keyed entries of a dict: what [get] and [in] can see. *)
Fixpoint str_items (d : list (gvalue * gvalue)) : list (string * gvalue) :=
  match d with
  | [] => []
  | (GStr k, v) :: d' => (k, v) :: str_items d'
  | _ :: d' => str_items d'
  end.

Definition items_of (v : gvalue) : list (string * gvalue) :=
  match v with GDict d => str_items d | _ => [] end.

(** [d.get(key, default)]. *)
Definition get_or (d : list (string * gvalue)) (key : string) (default : gvalue) : gvalue :=
  match dict_get d key with Some v => v | None => default end.

(** A dict literal with string keys. *)
Definition jobj (fields : list (string * gvalue)) : gvalue :=
  GDict (map (fun kv => (GStr kv.1, kv.2)) fields).

Definition gstrs (l : list string) : gvalue := GList (map GStr l).

(** [[str for ...]] when every item is one. *)
Fixpoint strs_of (l : list gvalue) : option (list string) :=
  match l with
  | [] => Some []
  | GStr s :: l' => r ← strs_of l'; Some (s :: r)
  | _ :: _ => None
  end.

Lemma str_items_jobj fields : items_of (jobj fields) = fields.
Proof. unfold jobj, items_of. induction fields as [|[k v] l IH]; cbn; [done|]. by rewrite IH. Qed.

Lemma strs_of_gstrs l : strs_of (map GStr l) = Some l.
Proof. induction l as [|s l IH]; cbn; [done|]. by rewrite IH. Qed.

Lemma depth_items d k v : (k, v) ∈ str_items d -> (gdepth v < gdepth (GDict d))%nat.
Proof.
  cbn [gdepth]. induction d as [|[a b] d IH]; cbn [str_items]; [by intros ?%not_elem_of_nil|].
  assert (Hd : (k, v) ∈ str_items d ->
               (gdepth v < S (list_max (map (fun kv : gvalue * gvalue => gdepth kv.2) ((a, b) :: d))))%nat).
  { intros H. apply IH in H. unfold list_max in *. cbn in *. lia. }
  destruct a; try exact Hd. intros [[= -> ->]|H]%elem_of_cons; [|by apply Hd]. unfold list_max. cbn. lia.
Qed.

Lemma depth_get w k v : dict_get (items_of w) k = Some v -> (gdepth v < gdepth w)%nat.
Proof.
  intros H%dict_get_elem. destruct w; cbn [items_of] in H; try by apply not_elem_of_nil in H.
  by eapply depth_items.
Qed.

Lemma depth_list l v : v ∈ l -> (gdepth v < gdepth (GList l))%nat.
Proof.
  cbn [gdepth]. unfold list_max.
  induction l as [|a l IH]; [by intros ?%not_elem_of_nil|]. intros [->|H]%elem_of_cons; cbn; [lia|].
  apply IH in H. lia.
Qed.

Lemma depth_get_list w k l v : dict_get (items_of w) k = Some (GList l) -> v ∈ l -> (gdepth v < gdepth w)%nat.
Proof. intros H%depth_get Hv%depth_list. lia. Qed.

Lemma depth_get_or w k v : gdepth v = 0%nat -> (0 < gdepth w)%nat -> (gdepth (get_or (items_of w) k v) < gdepth w)%nat.
Proof.
  intros Hv Hw. unfold get_or. destruct (dict_get (items_of w) k) eqn:E; [by eapply depth_get|lia].
Qed.

(** * Type expressions *)

Definition TypeExprKinds : list TypeExprKind :=
  [KConcrete; KUnion; KWildcard; KVariable; KList; KAsset; KStream; KTuple; KFamilyTuple; KTupleElement].

Definition kind_name (k : TypeExprKind) : string :=
  match k with
  | KConcrete => "concrete" | KUnion => "union" | KWildcard => "wildcard" | KVariable => "variable"
  | KList => "list" | KAsset => "asset" | KStream => "stream" | KTuple => "tuple"
  | KFamilyTuple => "family_tuple" | KTupleElement => "tuple_element" | KOther s => s
  end.

Definition kind_of_name (s : string) : TypeExprKind :=
  default (KOther s) (List.find (fun k => String.eqb (kind_name k) s) TypeExprKinds).

Definition index_to_wire (ix : index_ref) : gvalue :=
  match ix with IndexInt z => GInt z | IndexName s => GStr s end.

Definition field_if (c : bool) (key : string) (v : gvalue) : list (string * gvalue) :=
  if c then [(key, v)] else [].

Fixpoint type_expr_to_wire (expr : TypeExpr) : gvalue :=
  match expr with
  | mkTypeExpr k ts tid el els i ix =>
      let wire := [("kind", GStr (kind_name k))]
        ++ field_if (bool_decide (k = KTuple)) "elements" (GList (map type_expr_to_wire els)) in
      if bool_decide (k = KVariable) then
        jobj (wire ++ [("templateId", GStr tid)] ++ field_if (negb (is_nil ts)) "allowed" (gstrs ts))
      else
        jobj (wire
          ++ field_if (negb (is_nil ts)) "types" (gstrs ts)
          ++ field_if (negb (empty_str tid)) "templateId" (GStr tid)
          ++ match el with Some x => [("element", type_expr_to_wire x)] | None => [] end
          ++ field_if (negb (empty_str i)) "input" (GStr i)
          ++ match ix with Some x => [("index", index_to_wire x)] | None => [] end)
  end.

(** The [ValueError]s of the decoder. *)
Inductive expr_wire_error :=
| NotAString (field : string)
| NotAnObject (field : string)
| NotAnArray (field : string)
| NotStrings (field : string)
| VariableTypes
| StrayAllowed
| Refused (e : expr_error)
| ExprFuel.

Definition expect_str (v : gvalue) (field : string) : result expr_wire_error string :=
  match v with GStr s => Ok s | _ => Err (NotAString field) end.

Definition expect_object (v : gvalue) (field : string) : result expr_wire_error gvalue :=
  match v with GDict _ => Ok v | _ => Err (NotAnObject field) end.

Definition expect_list (v : gvalue) (field : string) : result expr_wire_error (list gvalue) :=
  match v with GList l => Ok l | _ => Err (NotAnArray field) end.

Definition expect_strings (v : gvalue) (field : string) : result expr_wire_error (list string) :=
  l ← expect_list v field;
  match strs_of l with Some r => Ok r | None => Err (NotStrings field) end.

Definition of_construct {A} (r : result expr_error A) : result expr_wire_error A :=
  match r with Ok a => Ok a | Err e => Err (Refused e) end.

(** [TypeExpr(..., index=index)] with whatever stands under [index]: a value
    that is no index makes the construction raise; where nothing else raises
    before it, the check of a tuple element's index does. *)
Definition construct_with (e : TypeExpr) (index_wire : gvalue) : result expr_wire_error TypeExpr :=
  let at_index ix := mkTypeExpr (kind e) (types e) (template_id e) (element e) (elements e) (input_id e) ix in
  match index_wire with
  | GNone => of_construct (construct (at_index None))
  | GInt z => of_construct (construct (at_index (Some (IndexInt z))))
  | GStr s => of_construct (construct (at_index (Some (IndexName s))))
  | _ => of_construct (construct (at_index (Some (IndexInt 0)))) ;; Err (Refused EElementIndex)
  end.

Definition sub_expr (rec : gvalue -> result expr_wire_error TypeExpr) (field : string) (v : gvalue) :=
  o ← expect_object v field; rec o.

(** The decoder, its recursive calls on [rec]. *)
Definition type_expr_body (rec : gvalue -> result expr_wire_error TypeExpr) (w : gvalue)
    : result expr_wire_error TypeExpr :=
  let wire := items_of w in
  name ← expect_str (get_or wire "kind" GNone) "type.kind";
  ts ← (if String.eqb name "variable" then
          if dict_mem wire "types" then Err VariableTypes
          else expect_strings (get_or wire "allowed" (GList [])) "type.allowed"
        else
          if dict_mem wire "allowed" then Err StrayAllowed
          else expect_strings (get_or wire "types" (GList [])) "type.types");
  tid ← expect_str (get_or wire "templateId" (GStr "")) "type.templateId";
  el ← (match get_or wire "element" GNone with
        | GNone => Ok None
        | v => x ← sub_expr rec "type.element" v; Ok (Some x)
        end);
  items ← expect_list (get_or wire "elements" (GList [])) "type.elements";
  els ← copy_list (sub_expr rec "type.elements position") items;
  i ← expect_str (get_or wire "input" (GStr "")) "type.input";
  construct_with (mkTypeExpr (kind_of_name name) ts tid el els i None) (get_or wire "index" GNone).

Definition type_expr_from_wire : gvalue -> result expr_wire_error TypeExpr :=
  wire_fix (Err ExprFuel) type_expr_body.
Arguments type_expr_from_wire : simpl never.

Lemma copy_list_ext {E A B} (f g : A -> result E B) l :
  (forall a, a ∈ l -> f a = g a) -> copy_list f l = copy_list g l.
Proof.
  induction l as [|a l IH]; intros H; cbn [copy_list]; [done|].
  rewrite (H a) by set_solver. rewrite IH by set_solver. done.
Qed.

Lemma copy_items_ext {E K A B} (f g : A -> result E B) (d : list (K * A)) :
  (forall k a, (k, a) ∈ d -> f a = g a) -> copy_items f d = copy_items g d.
Proof.
  induction d as [|[k a] l IH]; intros H; cbn [copy_items]; [done|].
  rewrite (H k a) by set_solver. rewrite IH by set_solver. done.
Qed.

Lemma bind_ext {E A B} (m m' : result E A) (f g : A -> result E B) :
  m = m' -> (forall a, m = Ok a -> f a = g a) -> m ≫= f = m' ≫= g.
Proof. intros <-. destruct m; cbn [mbind result_bind]; auto. Qed.

Lemma depth_elements w key field items v :
  expect_list (get_or (items_of w) key (GList [])) field = Ok items -> v ∈ items -> (gdepth v < gdepth w)%nat.
Proof.
  intros Hi Hv. unfold get_or in Hi. destruct (dict_get (items_of w) key) as [x|] eqn:E.
  - destruct x; try discriminate Hi. injection Hi as ->. by eapply depth_get_list.
  - injection Hi as <-. by apply not_elem_of_nil in Hv.
Qed.

Lemma sub_expr_ext f g field v : f v = g v -> sub_expr f field v = sub_expr g field v.
Proof. unfold sub_expr. by destruct v. Qed.

Lemma type_expr_goes_down : goes_down type_expr_body.
Proof.
  intros f g w Hfg. unfold type_expr_body. cbn zeta.
  do 3 (apply bind_ext; [done|]; intros ? _).
  apply bind_ext; [|intros el _].
  - unfold get_or. destruct (dict_get (items_of w) "element") as [v|] eqn:E; [|done].
    destruct v; try done; rewrite (sub_expr_ext f g); eauto using depth_get.
  - apply bind_ext; [done|]. intros items Hi. apply bind_ext; [|done].
    apply copy_list_ext. intros v Hv. apply sub_expr_ext, Hfg. by eapply depth_elements.
Qed.

Lemma type_expr_from_wire_eq w : type_expr_from_wire w = type_expr_body type_expr_from_wire w.
Proof. apply wire_fix_eq, type_expr_goes_down. Qed.

(** Which fields an object of the class leaves empty. *)
Lemma post_init_shape e : post_init e = Ok tt ->
  (kind e <> KTuple -> elements e = [])
  /\ (kind e = KVariable -> element e = None /\ input_id e = "" /\ index e = None)
  /\ (forall s, kind e <> KOther s).
Proof.
  destruct e as [k ts tid el els i ix]. unfold post_init. cbn [kind types template_id element elements input_id index].
  intros H. destruct k; cbn in H; result_steps; expr_bools; repeat split; try done; intros;
    destruct els, el, ix; done.
Qed.

(** What the decoder reads of an encoded expression. *)
Definition reads_back (e : TypeExpr) (w : list (string * gvalue)) : Prop :=
  let variable := bool_decide (kind e = KVariable) in
  get_or w "kind" GNone = GStr (kind_name (kind e))
  /\ dict_mem w (if variable then "types" else "allowed") = false
  /\ get_or w (if variable then "allowed" else "types") (GList []) = gstrs (types e)
  /\ get_or w "templateId" (GStr "") = GStr (template_id e)
  /\ get_or w "element" GNone = match element e with Some x => type_expr_to_wire x | None => GNone end
  /\ get_or w "elements" (GList []) = GList (map type_expr_to_wire (elements e))
  /\ get_or w "input" (GStr "") = GStr (input_id e)
  /\ get_or w "index" GNone = match index e with Some x => index_to_wire x | None => GNone end.

Lemma type_expr_reads e : post_init e = Ok tt -> reads_back e (items_of (type_expr_to_wire e)).
Proof.
  intros (Hels & Hvar & _)%post_init_shape. destruct e as [k ts tid el els i ix].
  cbn [kind elements element input_id index] in *. unfold reads_back. cbn [type_expr_to_wire kind types template_id element elements input_id index].
  destruct (decide (k = KVariable)) as [->|Hk].
  - rewrite bool_decide_eq_true_2 by done. destruct (Hvar eq_refl) as (-> & -> & ->). rewrite Hels by done.
    rewrite bool_decide_eq_false_2 by done. rewrite str_items_jobj. by destruct ts.
  - rewrite (bool_decide_eq_false_2 (k = KVariable)) by done. rewrite str_items_jobj.
    assert (Htuple : bool_decide (k = KTuple) = false -> els = []).
    { intros H%bool_decide_eq_false. auto. }
    unfold field_if. destruct (bool_decide (k = KTuple)) eqn:Et; [|rewrite (Htuple eq_refl)];
      clear Htuple Hels Hvar Hk Et;
      destruct ts as [|t ts], tid as [|c tid], el as [x|], i as [|ci i], ix as [y|]; repeat split.
Qed.

Lemma kind_names k : (forall s, k <> KOther s) -> kind_of_name (kind_name k) = k.
Proof. intros H. destruct k; try done. by destruct (H kind). Qed.

Lemma kind_name_variable k : (forall s, k <> KOther s) -> String.eqb (kind_name k) "variable" = bool_decide (k = KVariable).
Proof. intros H. destruct k; try done. by destruct (H kind). Qed.

Lemma expect_gstrs l field : expect_strings (gstrs l) field = Ok l.
Proof. unfold expect_strings, gstrs. cbn. by rewrite strs_of_gstrs. Qed.

Lemma to_wire_object e : exists d, type_expr_to_wire e = GDict d.
Proof. destruct e. cbn. case_bool_decide; eexists; reflexivity. Qed.

Lemma sub_expr_to_wire rec field e : sub_expr rec field (type_expr_to_wire e) = rec (type_expr_to_wire e).
Proof. unfold sub_expr. by destruct (to_wire_object e) as [d ->]. Qed.

Lemma copy_list_map {E A B} (f : B -> result E A) (g : A -> B) l :
  Forall (fun a => f (g a) = Ok a) l -> copy_list f (map g l) = Ok l.
Proof. induction 1 as [|a l Ha _ IH]; cbn [map copy_list]; [done|]. by rewrite Ha, IH. Qed.

Lemma type_expr_roundtrip e : constructed e = true -> type_expr_from_wire (type_expr_to_wire e) = Ok e.
Proof.
  induction e as [k ts tid el els i ix Hel Hels] using TypeExpr_ind_nested.
  cbn [constructed]. rewrite !andb_true_iff. intros [[Hp Hcel] Hcels].
  rewrite type_expr_from_wire_eq.
  set (e := mkTypeExpr k ts tid el els i ix) in *.
  assert (Hpost : post_init e = Ok tt) by (destruct (post_init e) as [[]|]; done).
  destruct (post_init_shape e Hpost) as (_ & _ & Hkind).
  destruct (type_expr_reads e Hpost) as (Rk & Rm & Rt & Rtid & Rel & Rels & Ri & Rix).
  unfold type_expr_body. cbn zeta. rewrite Rk, Rtid, Rel, Rels, Ri, Rix.
  cbn [expect_str mbind result_bind]. rewrite kind_name_variable, kind_names by done.
  assert (Rty : (if bool_decide (kind e = KVariable)
    then if dict_mem (items_of (type_expr_to_wire e)) "types" then Err VariableTypes
         else expect_strings (get_or (items_of (type_expr_to_wire e)) "allowed" (GList [])) "type.allowed"
    else if dict_mem (items_of (type_expr_to_wire e)) "allowed" then Err StrayAllowed
         else expect_strings (get_or (items_of (type_expr_to_wire e)) "types" (GList [])) "type.types")
    = Ok ts).
  { destruct (bool_decide (kind e = KVariable)); rewrite Rm, Rt; apply expect_gstrs. }
  rewrite Rty. cbn [mbind result_bind expect_list].
  rewrite copy_list_map; cycle 1.
  { apply Forall_forall. intros a Ha. rewrite sub_expr_to_wire. cbn [elements] in Ha.
    rewrite Forall_forall in Hels. apply Hels; [done|]. rewrite forallb_forall in Hcels.
    by apply Hcels, list_elem_of_In. }
  assert (Hel' : match match element e with Some x => type_expr_to_wire x | None => GNone end with
      | GNone => Ok None
      | v => x ← sub_expr type_expr_from_wire "type.element" v; Ok (Some x)
      end = Ok el).
  { cbn [element e]. destruct el as [x|]; [|done]. pose proof (sub_expr_to_wire type_expr_from_wire "type.element" x) as Hs.
    rewrite (Hel x eq_refl Hcel) in Hs. destruct (to_wire_object x) as [d Hd]. rewrite Hd in *.
    rewrite Hs. done. }
  rewrite Hel'. cbn [mbind result_bind]. unfold construct_with. cbn [kind types template_id element elements input_id index e].
  destruct ix as [[z|s]|]; cbn [index_to_wire]; fold e; unfold construct; rewrite Hpost; done.
Qed.

Lemma construct_with_ok e ix e' : construct_with e ix = Ok e' ->
  post_init e' = Ok tt /\ element e' = element e /\ elements e' = elements e.
Proof.
  unfold construct_with.
  assert (forall ix', of_construct (construct (mkTypeExpr (kind e) (types e) (template_id e) (element e) (elements e) (input_id e) ix')) = Ok e' ->
            post_init e' = Ok tt /\ element e' = element e /\ elements e' = elements e) as Hc.
  { intros ix' Hx. destruct (construct _) as [x|] eqn:E; cbn [of_construct] in Hx; simplify_eq.
    apply construct_ok in E as [-> ?]. done. }
  intros H. destruct ix; try (by eapply Hc); by destruct (of_construct _).
Qed.

Lemma copy_list_in {E A B} (f : A -> result E B) l r b :
  copy_list f l = Ok r -> b ∈ r -> exists a, a ∈ l /\ f a = Ok b.
Proof.
  revert r. induction l as [|a l IH]; intros r; cbn [copy_list].
  - intros [= <-] Hb. by apply not_elem_of_nil in Hb.
  - intros (c & Hc & (r' & Hr & [= <-])%bind_ok)%bind_ok [->|Hb]%elem_of_cons; [set_solver|].
    destruct (IH _ Hr Hb) as (a' & ? & ?). set_solver.
Qed.

Lemma decoded_constructed w e : type_expr_from_wire w = Ok e -> constructed e = true.
Proof.
  revert e. induction w as [w IH] using (induction_ltof1 _ gdepth). unfold ltof in IH. intros e.
  rewrite type_expr_from_wire_eq. unfold type_expr_body. cbn zeta. intros H.
  apply bind_ok in H as (name & _ & H). apply bind_ok in H as (ts & _ & H). apply bind_ok in H as (tid & _ & H).
  apply bind_ok in H as (el & Hel & H). apply bind_ok in H as (items & Hi & H).
  apply bind_ok in H as (els & Hels & H). apply bind_ok in H as (i & _ & H).
  apply construct_with_ok in H as (Hp & He & Hes). cbn in He, Hes.
  destruct e as [k ts' tid' el' els' i' ix]. cbn in He, Hes. subst el' els'. cbn [constructed].
  rewrite Hp. cbn [is_ok andb]. apply andb_true_iff. split.
  - destruct el as [x|]; [|done]. unfold get_or in Hel.
    destruct (dict_get (items_of w) "element") as [v|] eqn:Ev; [|done]. pose proof (depth_get _ _ _ Ev) as Hd.
    destruct v; try done. unfold sub_expr in Hel. cbn in Hel. result_steps. by apply (IH (GDict d)).
  - apply forallb_forall. intros x Hx%list_elem_of_In. destruct (copy_list_in _ _ _ x Hels Hx) as (v & Hv & Hvx).
    pose proof (depth_elements _ _ _ _ _ Hi Hv) as Hd.
    unfold sub_expr in Hvx. destruct v as [| | | | | | | |d|]; try done. cbn in Hvx. by apply (IH (GDict d)).
Qed.

(** * Documents *)

Definition LINK_KEY : string := "$link".
Definition TYPED_KEY : string := "$typed".
Definition INT_KEY : string := "$int".
Definition RESERVED_INPUT_KEYS : list string := [LINK_KEY; TYPED_KEY; INT_KEY].

Definition JSON_SAFE_INT : Z := 2 ^ 53 - 1.
Definition DECIMAL_WIRE_INT_MIN : Z := - 2 ^ 63.
Definition DECIMAL_WIRE_INT_MAX : Z := 2 ^ 64 - 1.

(** The messages of [GraphWireError]. *)
Inductive wire_problem :=
| UnsafeNested
| IntOutOfRange
| ReservedKeys
| UnsafeInt
| MarkerNotAlone
| MalformedLink
| MalformedTyped
| MalformedInt
| SafeDecimal
| NotObject (what : string)
| UnknownKind
| UnknownBinding
| UnknownCachePolicy
| UnknownMode
| MalformedPort
| MalformedLinkField (what : string)
| NotStringList (what : string)
| BadMaxIterations
| NoNodes
| BadNodeId
| NoNodeType
| BadMembers
| BadVariant.

(** What a call raises: its own error, or a [TypeError] or [ValueError] of the
    language it does not catch. *)
Inductive wire_error :=
| GraphWireError (p : wire_problem)
| PyTypeError
| PyValueError
| WireFuel.

Definition refuse {A} (p : wire_problem) : result wire_error A := Err (GraphWireError p).

(** [_refuse_nested_unsafe_ints]: the stack [pending] with its last item first. *)
Definition unsafe_int (v : gvalue) : bool :=
  match v with GInt z => JSON_SAFE_INT <? Z.abs z | _ => false end.

Definition children (v : gvalue) : list gvalue :=
  match v with GList l => l | GDict d => map snd d | _ => [] end.

Fixpoint gsize (v : gvalue) : nat :=
  match v with
  | GList l => S (list_sum (map gsize l))
  | GDict d => S (list_sum (map (fun kv => gsize kv.2) d))
  | _ => 1
  end.

Fixpoint unsafe_loop (fuel : nat) (pending : list gvalue) : result wire_error unit :=
  match fuel, pending with
  | _, [] => Ok tt
  | O, _ => Err WireFuel
  | S n, item :: pending' =>
      if unsafe_int item then refuse UnsafeNested
      else unsafe_loop n (rev (children item) ++ pending')
  end.

Definition refuse_nested_unsafe_ints (v : gvalue) : result wire_error unit :=
  unsafe_loop (S (gsize v)) [v].

Definition as_object (v : gvalue) (what : string) : result wire_error (list (string * gvalue)) :=
  match v with
  | GDict d => if forallb (fun kv => is_gstr kv.1) d then Ok (str_items d) else refuse (NotObject what)
  | _ => refuse (NotObject what)
  end.

Definition has_reserved (d : list (gvalue * gvalue)) : bool :=
  existsb (dict_mem (str_items d)) RESERVED_INPUT_KEYS.

Definition link_to_wire (l : Link) : gvalue :=
  jobj [("node", GStr (link_node l)); ("output", GStr (link_output l))].

Definition input_to_wire (v : gvalue) : result wire_error gvalue :=
  match v with
  | GLink l => Ok (jobj [(LINK_KEY, link_to_wire l)])
  | GTyped t u => refuse_nested_unsafe_ints u;; Ok (jobj [(TYPED_KEY, jobj [("type", GStr t); ("value", u)])])
  | _ =>
      if unsafe_int v then
        match v with
        | GInt z =>
            if (DECIMAL_WIRE_INT_MIN <=? z) && (z <=? DECIMAL_WIRE_INT_MAX)
            then Ok (jobj [(INT_KEY, GStr (pretty z))]) else refuse IntOutOfRange
        | _ => Ok v
        end
      else
        match v with GDict d => raise_if (has_reserved d) (GraphWireError ReservedKeys) | _ => Ok tt end;;
        refuse_nested_unsafe_ints v;; Ok v
  end.

(** The canonical decimals: an optional minus, then zero or digits that do not
    start with one. *)
Definition canonical_digits (s : string) : bool :=
  match s with
  | EmptyString => false
  | String c s' => if (code c =? 48)%N then String.eqb s' "" else char_decimal c && str_all char_decimal s'
  end.

Definition unsigned (s : string) : string :=
  match s with String "-" s' => s' | _ => s end.

Definition canonical_decimal_int (s : string) : bool := canonical_digits (unsigned s).

(** [int(s)] of a canonical decimal: the language refuses more than 4300 digits. *)
Definition INT_MAX_STR_DIGITS : nat := 4300.

Definition int_of_decimal (s : string) : option Z :=
  if (INT_MAX_STR_DIGITS <? String.length (unsigned s))%nat then None
  else match s with
       | String "-" s' => Z.opp <$> int_of_digits 0 s'
       | _ => int_of_digits 0 s
       end.

Definition input_from_wire (v : gvalue) : result wire_error gvalue :=
  if unsafe_int v then refuse UnsafeInt else
  match v with
  | GDict d =>
      let obj := str_items d in
      if negb (has_reserved d) then refuse_nested_unsafe_ints v;; Ok v
      else if (1 <? length d)%nat then
        (* the message sorts the keys *)
        if forallb (fun kv => is_gstr kv.1) d then refuse MarkerNotAlone else Err PyTypeError
      else if dict_mem obj LINK_KEY then
        let linked := items_of (get_or obj LINK_KEY GNone) in
        match get_or linked "node" GNone, get_or linked "output" GNone with
        | GStr n, GStr o => Ok (GLink (mkLink n o))
        | _, _ => refuse MalformedLink
        end
      else if dict_mem obj TYPED_KEY then
        let typed := items_of (get_or obj TYPED_KEY GNone) in
        match get_or typed "type" GNone, dict_get typed "value" with
        | GStr t, Some u =>
            if empty_str t then refuse MalformedTyped
            else refuse_nested_unsafe_ints u;; Ok (GTyped t u)
        | _, _ => refuse MalformedTyped
        end
      else
        match get_or obj INT_KEY GNone with
        | GStr s =>
            if canonical_decimal_int s then
              match int_of_decimal s with
              | None => Err PyValueError
              | Some z =>
                  if Z.abs z <=? JSON_SAFE_INT then refuse SafeDecimal
                  else if (DECIMAL_WIRE_INT_MIN <=? z) && (z <=? DECIMAL_WIRE_INT_MAX) then Ok (GInt z)
                  else refuse IntOutOfRange
              end
            else refuse MalformedInt
        | _ => refuse MalformedInt
        end
  | _ => refuse_nested_unsafe_ints v;; Ok v
  end.

Definition region_kind_name (k : RegionKind) : string :=
  match k with RMap => "map" | RFold => "fold" | RWhile => "while" end.
Definition binding_name (b : BindingMode) : string :=
  match b with BZip => "zip" | BCross => "cross" | BBroadcast => "broadcast" end.
Definition output_mode_name (m : OutputMode) : string :=
  match m with OGather => "gather" | OCompact => "compact" | OState => "state" | OFlatten => "flatten" | OLast => "last" end.
Definition cache_policy_name (c : CachePolicy) : string :=
  match c with CReuse => "reuse" | CRerun => "rerun" end.

Definition REGION_KINDS : list RegionKind := [RMap; RFold; RWhile].
Definition BINDING_MODES : list BindingMode := [BZip; BCross; BBroadcast].
Definition OUTPUT_MODES : list OutputMode := [OGather; OCompact; OState; OFlatten; OLast].
Definition CACHE_POLICIES : list CachePolicy := [CReuse; CRerun].

Definition region_output_to_wire (out : RegionOutput) : gvalue :=
  jobj [("source", link_to_wire (ro_source out)); ("mode", GStr (output_mode_name (ro_mode out)))].

(** [{"region": ...}], given its body's wire. *)
Definition region_to_wire (node : RegionNode) (body : gvalue) (inputs : list (string * gvalue)) : gvalue :=
  jobj [("region", jobj (
    [("kind", GStr (region_kind_name (rn_kind node)));
     ("ports", jobj (prod_map id type_expr_to_wire <$> rn_ports node));
     ("inputs", jobj inputs);
     ("body", body);
     ("outputs", jobj (prod_map id region_output_to_wire <$> rn_outputs node))]
    ++ field_if (negb (is_nil (rn_element_ports node))) "elementPorts" (gstrs (rn_element_ports node))
    ++ field_if (negb (is_nil (rn_state_ports node))) "statePorts" (gstrs (rn_state_ports node))
    ++ (match rn_binding node with BZip => [] | b => [("binding", GStr (binding_name b))] end)
    ++ (match rn_cache_policy node with CReuse => [] | c => [("cachePolicy", GStr (cache_policy_name c))] end)
    ++ (match rn_max_iterations node with Some n => [("maxIterations", GInt n)] | None => [] end)
    ++ (match rn_continue_source node with Some l => [("continueSource", link_to_wire l)] | None => [] end)))].

Definition plain_to_wire (node : GraphNode) (inputs : list (string * gvalue)) : gvalue :=
  jobj (
    [("nodeType", GStr (node_type node)); ("inputs", jobj inputs)]
    ++ field_if (negb (is_nil (output_members node))) "outputMembers"
         (jobj (prod_map id gstrs <$> output_members node))
    ++ field_if (negb (is_nil (slot_variants node))) "slotVariants"
         (jobj (prod_map id GStr <$> slot_variants node))).

Fixpoint node_to_wire (n : AnyNode) : result wire_error gvalue :=
  match n with
  | RegionOf r body =>
      inputs ← copy_items input_to_wire (rn_inputs r);
      nodes ← copy_items node_to_wire body;
      Ok (region_to_wire r (jobj [("nodes", jobj nodes)]) inputs)
  | NodeOf g => inputs ← copy_items input_to_wire (node_inputs g); Ok (plain_to_wire g inputs)
  end.

Definition graph_to_wire (graph : Graph) : result wire_error gvalue :=
  nodes ← copy_items node_to_wire graph; Ok (jobj [("nodes", jobj nodes)]).

(** [x not in NAMES] hashes [x]: lists and dicts have no hash. *)
Fixpoint hashable (v : gvalue) : bool :=
  match v with GList _ | GDict _ => false | GTyped _ u => hashable u | _ => true end.

(** The member of [choices] the value names. *)
Definition choose {A} (name : A -> string) (choices : list A) (v : gvalue) (p : wire_problem) : result wire_error A :=
  if negb (hashable v) then Err PyTypeError
  else match v with
       | GStr s => match List.find (fun c => String.eqb (name c) s) choices with Some c => Ok c | None => refuse p end
       | _ => refuse p
       end.

Definition link_from_wire (v : gvalue) (what : string) : result wire_error Link :=
  obj ← as_object v what;
  match get_or obj "node" GNone, get_or obj "output" GNone with
  | GStr n, GStr o => Ok (mkLink n o)
  | _, _ => refuse (MalformedLinkField what)
  end.

Definition str_list (v : gvalue) (what : string) : result wire_error (list string) :=
  match v with
  | GList l => match strs_of l with Some r => Ok r | None => refuse (NotStringList what) end
  | _ => refuse (NotStringList what)
  end.

(** The port types are decoded in a [try]. *)
Definition port_from_wire (v : gvalue) : result wire_error TypeExpr :=
  match as_object v "port" with
  | Err _ => refuse MalformedPort
  | Ok _ =>
      match type_expr_from_wire v with
      | Ok e => Ok e
      | Err ExprFuel => Err WireFuel
      | Err _ => refuse MalformedPort
      end
  end.

Definition region_output_from_wire (v : gvalue) : result wire_error RegionOutput :=
  out_obj ← as_object v "output";
  mode ← choose output_mode_name OUTPUT_MODES (get_or out_obj "mode" (GStr "gather")) UnknownMode;
  source ← link_from_wire (get_or out_obj "source" GNone) "output source";
  Ok (mkRegionOutput source mode).

Definition max_iterations_from_wire (v : gvalue) : result wire_error (option Z) :=
  match v with GNone => Ok None | GInt z => Ok (Some z) | _ => refuse BadMaxIterations end.

Definition continue_from_wire (v : gvalue) : result wire_error (option Link) :=
  match v with GNone => Ok None | _ => l ← link_from_wire v "continueSource"; Ok (Some l) end.

(** [rec] is [graph_from_wire]. *)
Definition region_from_wire (rec : gvalue -> result wire_error Graph) (wire : list (string * gvalue))
    : result wire_error AnyNode :=
  kind ← choose region_kind_name REGION_KINDS (get_or wire "kind" GNone) UnknownKind;
  binding ← choose binding_name BINDING_MODES (get_or wire "binding" (GStr "zip")) UnknownBinding;
  cache_policy ← choose cache_policy_name CACHE_POLICIES (get_or wire "cachePolicy" (GStr "reuse")) UnknownCachePolicy;
  ports_wire ← as_object (get_or wire "ports" (GDict [])) "ports";
  ports ← copy_items port_from_wire ports_wire;
  inputs_wire ← as_object (get_or wire "inputs" (GDict [])) "inputs";
  outputs_wire ← as_object (get_or wire "outputs" (GDict [])) "outputs";
  outputs ← copy_items region_output_from_wire outputs_wire;
  max_iterations ← max_iterations_from_wire (get_or wire "maxIterations" GNone);
  body ← rec (get_or wire "body" GNone);
  inputs ← copy_items input_from_wire inputs_wire;
  element_ports ← str_list (get_or wire "elementPorts" (GList [])) "elementPorts";
  state_ports ← str_list (get_or wire "statePorts" (GList [])) "statePorts";
  continue_source ← continue_from_wire (get_or wire "continueSource" GNone);
  Ok (RegionOf (mkRegionNode kind ports inputs element_ports state_ports outputs binding cache_policy
                  max_iterations continue_source) body).

Definition members_from_wire (v : gvalue) : result wire_error (list string) :=
  match v with
  | GList l => match strs_of l with Some r => Ok r | None => refuse BadMembers end
  | _ => refuse BadMembers
  end.

Definition variant_from_wire (v : gvalue) : result wire_error string :=
  match v with GStr s => Ok s | _ => refuse BadVariant end.

Definition legal_node_id (node_id : string) : bool :=
  negb (empty_str node_id) && negb (str_any forbidden_char node_id).

Definition node_from_wire (rec : gvalue -> result wire_error Graph) (node_id : string) (raw_entry : gvalue)
    : result wire_error AnyNode :=
  raise_if (negb (legal_node_id node_id)) (GraphWireError BadNodeId);;
  entry ← as_object raw_entry "entry";
  match dict_get entry "region" with
  | Some region => wire ← as_object region "region"; region_from_wire rec wire
  | None =>
      match get_or entry "nodeType" GNone with
      | GStr type =>
          inputs_wire ← as_object (get_or entry "inputs" (GDict [])) "inputs";
          members_wire ← as_object (get_or entry "outputMembers" (GDict [])) "outputMembers";
          members ← copy_items members_from_wire members_wire;
          variants_wire ← as_object (get_or entry "slotVariants" (GDict [])) "slotVariants";
          variants ← copy_items variant_from_wire variants_wire;
          inputs ← copy_items input_from_wire inputs_wire;
          Ok (NodeOf (mkGraphNode type inputs members variants))
      | _ => refuse NoNodeType
      end
  end.

Fixpoint nodes_from_wire (rec : gvalue -> result wire_error Graph) (d : list (string * gvalue)) : result wire_error Graph :=
  match d with
  | [] => Ok []
  | (node_id, raw_entry) :: d' =>
      n ← node_from_wire rec node_id raw_entry; r ← nodes_from_wire rec d'; Ok ((node_id, n) :: r)
  end.

Definition graph_body (rec : gvalue -> result wire_error Graph) (wire : gvalue) : result wire_error Graph :=
  document ← as_object wire "graph wire";
  match dict_get document "nodes" with
  | None => refuse NoNodes
  | Some nodes => nodes_wire ← as_object nodes "nodes"; nodes_from_wire rec nodes_wire
  end.

Definition graph_from_wire : gvalue -> result wire_error Graph := wire_fix (Err WireFuel) graph_body.
Arguments graph_from_wire : simpl never.

(** ** The walk over a literal *)

Fixpoint nested_safe (v : gvalue) : bool :=
  negb (unsafe_int v)
  && match v with
     | GList l => forallb nested_safe l
     | GDict d => forallb (fun kv => nested_safe kv.2) d
     | _ => true
     end.

Lemma nested_safe_children v : nested_safe v = negb (unsafe_int v) && forallb nested_safe (children v).
Proof. destruct v; cbn; rewrite ?andb_true_r; try done. by induction d as [|kv d IH]; cbn; [|rewrite IH]. Qed.

Lemma gsize_children v : gsize v = S (list_sum (map gsize (children v))).
Proof. destruct v; try done. cbn [gsize children]. by rewrite map_map. Qed.

Lemma list_sum_rev l : list_sum (rev l) = list_sum l.
Proof. induction l as [|a l IH]; cbn [rev]; [done|]. rewrite list_sum_app, IH. unfold list_sum. cbn. lia. Qed.

Lemma forallb_rev {A} (p : A -> bool) l : forallb p (rev l) = forallb p l.
Proof. induction l as [|a l IH]; cbn; [done|]. rewrite forallb_app, IH. cbn. by destruct (p a), (forallb p l). Qed.

Lemma unsafe_loop_spec fuel pending :
  (list_sum (map gsize pending) < fuel)%nat ->
  unsafe_loop fuel pending = if forallb nested_safe pending then Ok tt else refuse UnsafeNested.
Proof.
  revert pending. induction fuel as [|n IH]; intros [|item pending] Hf; cbn [unsafe_loop map forallb] in *; try done; [lia|].
  change (gsize item + list_sum (map gsize pending) < S n)%nat in Hf. rewrite gsize_children in Hf. rewrite nested_safe_children. destruct (unsafe_int item); [done|].
  rewrite IH, forallb_app, forallb_rev; [done|]. rewrite map_app, list_sum_app, map_rev, list_sum_rev. lia.
Qed.

(** The walk ends, and refuses exactly the values with an unsafe integer in
    some list or dict. *)
Lemma refuse_nested_spec v :
  refuse_nested_unsafe_ints v = if nested_safe v then Ok tt else refuse UnsafeNested.
Proof. unfold refuse_nested_unsafe_ints. rewrite unsafe_loop_spec; cbn; [by rewrite andb_true_r|lia]. Qed.

(** ** Decimals *)

Lemma int_of_digits_char acc x s : (x < 10)%N ->
  int_of_digits acc (String (pretty_N_char x) s) = int_of_digits (10 * acc + Z.of_N x) s.
Proof.
  intros Hx. assert (x ∈ [0; 1; 2; 3; 4; 5; 6; 7; 8; 9]%N) as Hin.
  { rewrite !elem_of_cons. lia. }
  repeat (apply elem_of_cons in Hin as [->|Hin]); [reflexivity..|by apply not_elem_of_nil in Hin].
Qed.

Lemma decimal_char x : char_decimal (pretty_N_char x) = true.
Proof. unfold pretty_N_char. by repeat case_match. Qed.

Lemma first_char x : (0 < x < 10)%N -> (code (pretty_N_char x) =? 48)%N = false.
Proof.
  intros Hx. assert (x ∈ [1; 2; 3; 4; 5; 6; 7; 8; 9]%N) as Hin.
  { rewrite !elem_of_cons. lia. }
  repeat (apply elem_of_cons in Hin as [->|Hin]); [reflexivity..|by apply not_elem_of_nil in Hin].
Qed.

(** The digits of a positive number in front of [s]: what [int] reads, that
    they are canonical, and how many. *)
Lemma pretty_go_spec x s : (0 < x)%N ->
  int_of_digits 0 (pretty_N_go x s) = int_of_digits (Z.of_N x) s
  /\ (str_all char_decimal s = true -> canonical_digits (pretty_N_go x s) = true)
  /\ (forall k, (x < 10 ^ k)%N -> (String.length (pretty_N_go x s) <= N.to_nat k + String.length s)%nat).
Proof.
  revert s. induction x as [x IH] using (well_founded_induction N.lt_wf_0). intros s Hx.
  rewrite pretty_N_go_step by done.
  assert (Hm : (x mod 10 < 10)%N) by (by apply N.mod_lt).
  pose proof (N.div_mod' x 10) as Hdm.
  destruct (decide (0 < x / 10)%N) as [Hd|Hd].
  - destruct (IH (x / 10)%N) with (s := String (pretty_N_char (x mod 10)) s) as (Hi & Hc & Hl);
      [by apply N.div_lt; lia|done|].
    split; [|split].
    + rewrite Hi, int_of_digits_char by done. f_equal. lia.
    + intros Hs. apply Hc. cbn [str_all]. by rewrite decimal_char.
    + intros k Hk. destruct (decide (k = 0%N)) as [->|Hk0]; [cbn in Hk; lia|].
      assert (x / 10 < 10 ^ (k - 1))%N as Hlt.
      { apply N.Div0.div_lt_upper_bound. replace k with (N.succ (k - 1))%N in Hk by lia.
        by rewrite N.pow_succ_r' in Hk. }
      specialize (Hl _ Hlt). cbn [String.length] in Hl. lia.
  - assert (x / 10 = 0)%N as H0 by lia. rewrite H0, pretty_N_go_0.
    assert (x = x mod 10)%N as Hxm by lia. rewrite <- Hxm. split; [|split].
    + rewrite int_of_digits_char by lia. f_equal.
    + intros Hs. unfold canonical_digits. rewrite first_char by lia. by rewrite decimal_char.
    + intros k Hk. destruct (decide (k = 0%N)) as [->|]; [cbn in Hk; lia|]. cbn [String.length]. lia.
Qed.

Lemma pretty_pos_spec (p : positive) : (Z.pos p <= DECIMAL_WIRE_INT_MAX) ->
  int_of_digits 0 (pretty (N.pos p)) = Some (Z.pos p) /\ canonical_digits (pretty (N.pos p)) = true
  /\ (String.length (pretty (N.pos p)) <= INT_MAX_STR_DIGITS)%nat.
Proof.
  intros Hp. unfold pretty, pretty_N. rewrite decide_False by done.
  destruct (pretty_go_spec (N.pos p) "") as (Hi & Hc & Hl); [lia|]. split; [by rewrite Hi|].
  split; [by apply Hc|]. specialize (Hl 20%N). unfold DECIMAL_WIRE_INT_MAX, INT_MAX_STR_DIGITS in *.
  cbn [String.length] in Hl. lia.
Qed.


(** [int] reads what [str] prints, in the range of the wire. *)
Lemma decimal_roundtrip z : DECIMAL_WIRE_INT_MIN <= z <= DECIMAL_WIRE_INT_MAX ->
  canonical_decimal_int (pretty z) = true /\ int_of_decimal (pretty z) = Some z.
Proof.
  intros Hz. destruct z as [|p|p]; [by split| |].
  - destruct (pretty_pos_spec p) as (Hi & Hc & Hl); [lia|]. change (pretty (Z.pos p)) with (pretty (N.pos p)).
    assert (Hu : unsigned (pretty (N.pos p)) = pretty (N.pos p)).
    { destruct (pretty (N.pos p)) as [|c s]; [done|]. destruct c as [[] [] [] [] [] [] [] []]; done. }
    unfold canonical_decimal_int, int_of_decimal. rewrite Hu. split; [done|].
    rewrite (proj2 (Nat.ltb_ge _ _) Hl). rewrite <- Hi.
    destruct (pretty (N.pos p)) as [|c s]; [done|]. destruct c as [[] [] [] [] [] [] [] []]; done.
  - destruct (pretty_pos_spec p) as (Hi & Hc & Hl).
    { unfold DECIMAL_WIRE_INT_MIN, DECIMAL_WIRE_INT_MAX in *. lia. }
    change (pretty (Z.neg p)) with (String "-" (pretty (N.pos p))).
    unfold canonical_decimal_int, int_of_decimal. cbn [unsigned]. split; [done|].
    rewrite (proj2 (Nat.ltb_ge _ _) Hl). by rewrite Hi.
Qed.

(** ** The decoder's equation *)

Lemma as_object_items v what d : as_object v what = Ok d -> d = items_of v /\ (0 < gdepth v)%nat.
Proof. unfold as_object. destruct v; try done. case_match; intros [= <-]. split; [done|cbn; lia]. Qed.

Lemma depth_as_object v what d k u : as_object v what = Ok d -> (k, u) ∈ d -> (gdepth u < gdepth v)%nat.
Proof. unfold as_object. destruct v; try done. case_match; intros [= <-]. by apply depth_items. Qed.

Lemma depth_object_get v what d k u : as_object v what = Ok d -> dict_get d k = Some u -> (gdepth u < gdepth v)%nat.
Proof. intros Hd Hk%dict_get_elem. by eapply depth_as_object. Qed.

Lemma region_from_wire_ext f g v wire :
  as_object v "region" = Ok wire -> (forall u, (gdepth u < gdepth v)%nat -> f u = g u) ->
  region_from_wire f wire = region_from_wire g wire.
Proof.
  intros [-> Hv]%as_object_items Hfg. unfold region_from_wire. do 9 (apply bind_ext; [done|]; intros ? _).
  apply bind_ext; [|done]. by apply Hfg, depth_get_or.
Qed.

Lemma node_from_wire_ext f g id v :
  (forall u, (gdepth u < gdepth v)%nat -> f u = g u) -> node_from_wire f id v = node_from_wire g id v.
Proof.
  intros Hfg. unfold node_from_wire. apply bind_ext; [done|]. intros _ _. apply bind_ext; [done|].
  intros entry He. destruct (dict_get entry "region") as [region|] eqn:Er; [|done].
  apply bind_ext; [done|]. intros wire Hw. eapply region_from_wire_ext; [done|]. intros u Hu. apply Hfg.
  pose proof (depth_object_get _ _ _ _ _ He Er). lia.
Qed.

Lemma graph_goes_down : goes_down graph_body.
Proof.
  intros f g w Hfg. unfold graph_body. apply bind_ext; [done|]. intros doc Hdoc.
  destruct (dict_get doc "nodes") as [nodes|] eqn:En; [|done]. apply bind_ext; [done|]. intros d Hd.
  assert (forall id v, (id, v) ∈ d -> (gdepth v < gdepth w)%nat) as Hdepth.
  { intros id v Hin. pose proof (depth_as_object _ _ _ _ _ Hd Hin). pose proof (depth_object_get _ _ _ _ _ Hdoc En). lia. }
  clear Hd. induction d as [|[id v] d IH]; cbn [nodes_from_wire]; [done|].
  assert (gdepth v < gdepth w)%nat by (apply (Hdepth id); set_solver).
  rewrite (node_from_wire_ext f g) by (intros; apply Hfg; lia). rewrite IH; [done|]. intros id' v' H'.
  apply (Hdepth id'). by apply elem_of_cons; right.
Qed.

Lemma graph_from_wire_eq w : graph_from_wire w = graph_body graph_from_wire w.
Proof. apply wire_fix_eq, graph_goes_down. Qed.

(** ** Round trips *)

Lemma forallb_jobj_keys f : forallb (fun kv : gvalue * gvalue => is_gstr kv.1) (map (fun kv : string * gvalue => (GStr kv.1, kv.2)) f) = true.
Proof. by induction f. Qed.

Lemma as_object_jobj f what : as_object (jobj f) what = Ok f.
Proof. unfold as_object, jobj. rewrite forallb_jobj_keys. f_equal. apply (str_items_jobj f). Qed.

(** A typed literal names its type. *)
Definition typed_named (v : gvalue) : bool :=
  match v with GTyped t _ => negb (empty_str t) | _ => true end.

Lemma input_from_typed t u :
  input_from_wire (jobj [(TYPED_KEY, jobj [("type", GStr t); ("value", u)])])
  = if empty_str t then refuse MalformedTyped else refuse_nested_unsafe_ints u;; Ok (GTyped t u).
Proof. reflexivity. Qed.

Lemma input_from_int s :
  input_from_wire (jobj [(INT_KEY, GStr s)])
  = if canonical_decimal_int s then
      match int_of_decimal s with
      | None => Err PyValueError
      | Some z =>
          if Z.abs z <=? JSON_SAFE_INT then refuse SafeDecimal
          else if (DECIMAL_WIRE_INT_MIN <=? z) && (z <=? DECIMAL_WIRE_INT_MAX) then Ok (GInt z)
          else refuse IntOutOfRange
      end
    else refuse MalformedInt.
Proof. reflexivity. Qed.

Lemma input_roundtrip v w : input_to_wire v = Ok w -> typed_named v = true -> input_from_wire w = Ok v.
Proof.
  unfold input_to_wire. intros H Hn.
  destruct v as [l|t u| |b|z|f|s|l|d|c]; cbn [unsafe_int] in H.
  - injection H as <-. by destruct l.
  - destruct (refuse_nested_unsafe_ints u) as [[]|] eqn:E; [|done]. injection H as <-.
    cbn in Hn. apply negb_true_iff in Hn. by rewrite input_from_typed, Hn, E.
  - injection H as <-. done.
  - injection H as <-. done.
  - destruct (JSON_SAFE_INT <? Z.abs z) eqn:E.
    + destruct (_ && _) eqn:Hr; [|done]. injection H as <-.
      apply andb_true_iff in Hr as [Hlo%Z.leb_le Hhi%Z.leb_le].
      destruct (decimal_roundtrip z) as [Hc Hi]; [done|].
      rewrite input_from_int, Hc, Hi. apply Z.ltb_lt in E. rewrite (proj2 (Z.leb_gt _ _)) by done.
      rewrite !(proj2 (Z.leb_le _ _)) by done. done.
    + rewrite refuse_nested_spec in H. cbn [nested_safe unsafe_int] in H. rewrite E in H. injection H as <-.
      unfold input_from_wire. cbn [unsafe_int]. rewrite E, refuse_nested_spec. cbn [nested_safe unsafe_int]. by rewrite E.
  - injection H as <-. done.
  - injection H as <-. done.
  - unfold input_from_wire. cbn [mbind result_bind] in H. result_steps. cbn [unsafe_int].
    match goal with H : refuse_nested_unsafe_ints _ = _ |- _ => by rewrite H end.
  - result_steps. unfold input_from_wire. cbn [unsafe_int].
    match goal with H : has_reserved _ = _ |- _ => rewrite H end. cbn [negb].
    match goal with H : refuse_nested_unsafe_ints _ = _ |- _ => by rewrite H end.
  - injection H as <-. done.
Qed.

(** What is decoded can be encoded again. *)
Definition encodable (v : gvalue) : Prop := typed_named v = true /\ is_ok (input_to_wire v) = true.

Lemma encodable_int z : DECIMAL_WIRE_INT_MIN <= z <= DECIMAL_WIRE_INT_MAX -> encodable (GInt z).
Proof.
  intros Hz. split; [done|]. cbn [input_to_wire]. destruct (unsafe_int (GInt z)) eqn:E.
  - by rewrite !(proj2 (Z.leb_le _ _)) by lia.
  - rewrite refuse_nested_spec. cbn [nested_safe]. by rewrite E.
Qed.

Lemma encodable_literal v :
  unsafe_int v = false -> refuse_nested_unsafe_ints v = Ok tt ->
  match v with GLink _ | GTyped _ _ => False | GDict d => has_reserved d = false | _ => True end -> encodable v.
Proof.
  intros Hu Hr Hv. destruct v; try done; split; try done; unfold input_to_wire; rewrite Hu, Hr; try done.
  by rewrite Hv.
Qed.

Lemma decoded_marker d v :
  has_reserved d = true -> input_from_wire (GDict d) = Ok v ->
  match v with
  | GLink _ => True
  | GTyped t u => empty_str t = false /\ refuse_nested_unsafe_ints u = Ok tt
  | GInt z => DECIMAL_WIRE_INT_MIN <= z <= DECIMAL_WIRE_INT_MAX
  | _ => False
  end.
Proof.
  intros Hres. unfold input_from_wire. cbn [unsafe_int]. rewrite Hres. cbn [negb].
  destruct (1 <? length d)%nat; [by destruct (forallb _ _)|].
  destruct (dict_mem (str_items d) LINK_KEY); [repeat case_match; by intros [= <-]|].
  destruct (dict_mem (str_items d) TYPED_KEY).
  - destruct (get_or _ "type" GNone); try done. destruct (dict_get _ "value"); try done.
    destruct (empty_str s) eqn:Es; [done|]. intros ([] & Hr & [= <-])%bind_ok. done.
  - destruct (get_or _ INT_KEY GNone); try done. destruct (canonical_decimal_int s); try done.
    destruct (int_of_decimal s) as [z|]; try done. destruct (Z.abs z <=? JSON_SAFE_INT); [done|].
    destruct (_ && _) eqn:E; [|done]. intros [= <-]. apply andb_true_iff in E as [?%Z.leb_le ?%Z.leb_le]. done.
Qed.

(** A parsed JSON value. *)
Fixpoint is_json (v : gvalue) : bool :=
  match v with
  | GLink _ | GTyped _ _ | GOther _ => false
  | GList l => forallb is_json l
  | GDict d => forallb (fun kv => is_gstr kv.1 && is_json kv.2) d
  | _ => true
  end.

Lemma decoded_input w v : is_json w = true -> input_from_wire w = Ok v -> encodable v.
Proof.
  intros Hj H. destruct (match w with GDict d => has_reserved d | _ => false end) eqn:Hres.
  - destruct w as [| | | | | | | |d|]; try done. pose proof (decoded_marker d v Hres H) as Hv. destruct v; try done.
    + destruct Hv as [He Hr]. split; cbn [typed_named input_to_wire]; [by rewrite He|by rewrite Hr].
    + by apply encodable_int.
  - assert (unsafe_int w = false) as Hu.
    { unfold input_from_wire in H. by destruct (unsafe_int w). }
    assert (v = w /\ refuse_nested_unsafe_ints w = Ok tt) as [-> Hr].
    { unfold input_from_wire in H. rewrite Hu in H. destruct w; try rewrite Hres in H; cbn [negb] in H;
        apply bind_ok in H as ([] & Hr & [= <-]); done. }
    apply encodable_literal; [done..|]. by destruct w.
Qed.

(** ** Documents *)

Lemma copy_items_map {E K A B} (f : B -> result E A) (g : A -> B) (d : list (K * A)) :
  (forall k a, (k, a) ∈ d -> f (g a) = Ok a) -> copy_items f (prod_map id g <$> d) = Ok d.
Proof.
  induction d as [|[k a] d IH]; intros H; csimpl; [done|].
  rewrite (H k a) by set_solver. rewrite IH; [done|]. intros k' a' Ha. apply (H k'). by apply elem_of_cons; right.
Qed.

Lemma copy_items_back {E E' K A B} (f : A -> result E B) (g : B -> result E' A) (d : list (K * A)) d' :
  (forall k a b, (k, a) ∈ d -> f a = Ok b -> g b = Ok a) -> copy_items f d = Ok d' -> copy_items g d' = Ok d.
Proof.
  revert d'. induction d as [|[k a] d IH]; intros d' H; cbn [copy_items].
  - intros [= <-]. done.
  - intros (b & Hb & (r & Hr & [= <-])%bind_ok)%bind_ok. cbn [copy_items]. rewrite (H k a b) by set_solver.
    cbn [mbind result_bind]. rewrite (IH r); [done| |done]. intros k' a' b' Ha. apply (H k'). by apply elem_of_cons; right.
Qed.

Lemma copy_items_in {E K A B} (f : A -> result E B) (d : list (K * A)) d' k b :
  copy_items f d = Ok d' -> (k, b) ∈ d' -> exists a, (k, a) ∈ d /\ f a = Ok b.
Proof.
  revert d'. induction d as [|[k' a] d IH]; intros d'; cbn [copy_items].
  - intros [= <-] Hb. by apply not_elem_of_nil in Hb.
  - intros (c & Hc & (r & Hr & [= <-])%bind_ok)%bind_ok [[= -> ->]|Hb]%elem_of_cons.
    + exists a. split; [by apply elem_of_cons; left|done].
    + destruct (IH _ Hr Hb) as (a' & ? & ?). exists a'. split; [by apply elem_of_cons; right|done].
Qed.

Lemma copy_items_total {E K A B} (f : A -> result E B) (d : list (K * A)) :
  (forall k a, (k, a) ∈ d -> is_ok (f a) = true) -> exists d', copy_items f d = Ok d'.
Proof.
  induction d as [|[k a] d IH]; intros H; cbn [copy_items]; [by eexists|].
  assert (is_ok (f a) = true) as Ha by (apply (H k); by apply elem_of_cons; left).
  destruct (f a) as [b|]; [|done]. cbn [mbind result_bind]. destruct IH as [r ->].
  - intros k' a' H'. apply (H k'). by apply elem_of_cons; right.
  - by eexists.
Qed.

(** What the wire can carry of a document beyond its literals: legal node ids,
    typed literals that name their type, ports that are objects of their class. *)
Definition ready_inputs (d : list (string * gvalue)) : bool := forallb (fun kv => typed_named kv.2) d.
Definition ready_ports (r : RegionNode) : bool := forallb (fun kv => constructed kv.2) (rn_ports r).

Fixpoint ready_node (n : AnyNode) : bool :=
  match n with
  | NodeOf g => ready_inputs (node_inputs g)
  | RegionOf r body =>
      ready_inputs (rn_inputs r) && ready_ports r
      && forallb (fun kn => legal_node_id kn.1 && ready_node kn.2) body
  end.

Definition wire_ready (g : Graph) : bool := forallb (fun kn => legal_node_id kn.1 && ready_node kn.2) g.

Lemma inputs_roundtrip d d' : ready_inputs d = true -> copy_items input_to_wire d = Ok d' ->
  copy_items input_from_wire d' = Ok d.
Proof.
  intros Hr. apply copy_items_back. intros k a b Ha Hb. apply (input_roundtrip a); [done|].
  unfold ready_inputs in Hr. rewrite forallb_forall in Hr. apply (Hr (k, a)). by apply list_elem_of_In.
Qed.

Lemma link_roundtrip l what : link_from_wire (link_to_wire l) what = Ok l.
Proof. unfold link_from_wire, link_to_wire. rewrite as_object_jobj. by destruct l. Qed.

Lemma region_output_roundtrip o : region_output_from_wire (region_output_to_wire o) = Ok o.
Proof.
  unfold region_output_from_wire, region_output_to_wire. rewrite as_object_jobj.
  destruct o as [[n out] m]. by destruct m.
Qed.

Lemma port_roundtrip e : constructed e = true -> port_from_wire (type_expr_to_wire e) = Ok e.
Proof.
  intros He. unfold port_from_wire. rewrite type_expr_roundtrip by done.
  destruct e as [k ts tid el els i ix]. cbn [type_expr_to_wire]. by case_bool_decide; rewrite as_object_jobj.
Qed.

Lemma str_list_gstrs l what : str_list (gstrs l) what = Ok l.
Proof. unfold str_list, gstrs. by rewrite strs_of_gstrs. Qed.

(** What the decoder reads of an encoded region. *)
Lemma region_reads r body inputs :
  let w := items_of (get_or (items_of (region_to_wire r body inputs)) "region" GNone) in
  get_or w "kind" GNone = GStr (region_kind_name (rn_kind r))
  /\ get_or w "binding" (GStr "zip") = GStr (binding_name (rn_binding r))
  /\ get_or w "cachePolicy" (GStr "reuse") = GStr (cache_policy_name (rn_cache_policy r))
  /\ get_or w "ports" (GDict []) = jobj (prod_map id type_expr_to_wire <$> rn_ports r)
  /\ get_or w "inputs" (GDict []) = jobj inputs
  /\ get_or w "outputs" (GDict []) = jobj (prod_map id region_output_to_wire <$> rn_outputs r)
  /\ get_or w "maxIterations" GNone = match rn_max_iterations r with Some n => GInt n | None => GNone end
  /\ get_or w "body" GNone = body
  /\ get_or w "elementPorts" (GList []) = gstrs (rn_element_ports r)
  /\ get_or w "statePorts" (GList []) = gstrs (rn_state_ports r)
  /\ get_or w "continueSource" GNone = match rn_continue_source r with Some l => link_to_wire l | None => GNone end.
Proof.
  unfold region_to_wire. rewrite str_items_jobj. change (get_or [("region", ?x)] "region" GNone) with x.
  rewrite str_items_jobj. unfold field_if.
  destruct r as [k ports ins eps sps outs b c m cont]. cbn [rn_kind rn_ports rn_inputs rn_element_ports
    rn_state_ports rn_outputs rn_binding rn_cache_policy rn_max_iterations rn_continue_source].
  destruct eps, sps, b, c, m, cont; repeat split.
Qed.

Lemma choose_name {A} (name : A -> string) choices x p :
  List.find (fun c => String.eqb (name c) (name x)) choices = Some x -> choose name choices (GStr (name x)) p = Ok x.
Proof. intros H. unfold choose. cbn [hashable negb]. by rewrite H. Qed.

Lemma region_roundtrip rec r body wb inputs :
  copy_items input_from_wire inputs = Ok (rn_inputs r) -> ready_ports r = true -> rec wb = Ok body ->
  region_from_wire rec (items_of (get_or (items_of (region_to_wire r wb inputs)) "region" GNone)) = Ok (RegionOf r body).
Proof.
  intros Hi Hp Hb. destruct (region_reads r wb inputs) as (Rk & Rb & Rc & Rp & Ri & Ro & Rm & Rbody & Re & Rs & Rcont).
  unfold region_from_wire. rewrite Rk, Rb, Rc, Rp, Ri, Ro, Rm, Rbody, Re, Rs, Rcont.
  rewrite (choose_name region_kind_name) by (by destruct (rn_kind r)). cbn [mbind result_bind].
  rewrite (choose_name binding_name) by (by destruct (rn_binding r)). cbn [mbind result_bind].
  rewrite (choose_name cache_policy_name) by (by destruct (rn_cache_policy r)). cbn [mbind result_bind].
  rewrite !as_object_jobj. cbn [mbind result_bind].
  rewrite (copy_items_map port_from_wire); cycle 1.
  { intros k e He. apply port_roundtrip. unfold ready_ports in Hp. rewrite forallb_forall in Hp.
    apply (Hp (k, e)). by apply list_elem_of_In. }
  cbn [mbind result_bind]. rewrite (copy_items_map region_output_from_wire) by (intros; apply region_output_roundtrip). cbn [mbind result_bind].
  assert (max_iterations_from_wire match rn_max_iterations r with Some n => GInt n | None => GNone end = Ok (rn_max_iterations r)) as ->
    by (by destruct (rn_max_iterations r)).
  cbn [mbind result_bind]. rewrite Hb, Hi. cbn [mbind result_bind]. rewrite !str_list_gstrs. cbn [mbind result_bind].
  assert (continue_from_wire match rn_continue_source r with Some l => link_to_wire l | None => GNone end = Ok (rn_continue_source r)) as ->.
  { destruct (rn_continue_source r) as [l|]; [|done]. unfold continue_from_wire.
    change (match link_to_wire l with GNone => _ | _ => ?x end) with x. by rewrite link_roundtrip. }
  by destruct r.
Qed.

Lemma plain_reads g inputs :
  let w := items_of (plain_to_wire g inputs) in
  dict_get w "region" = None
  /\ get_or w "nodeType" GNone = GStr (node_type g)
  /\ get_or w "inputs" (GDict []) = jobj inputs
  /\ get_or w "outputMembers" (GDict []) = jobj (prod_map id gstrs <$> output_members g)
  /\ get_or w "slotVariants" (GDict []) = jobj (prod_map id GStr <$> slot_variants g).
Proof.
  unfold plain_to_wire. rewrite str_items_jobj. unfold field_if. destruct g as [t ins ms vs].
  cbn [node_type node_inputs output_members slot_variants]. destruct ms, vs; repeat split.
Qed.

Lemma members_roundtrip l : members_from_wire (gstrs l) = Ok l.
Proof. unfold members_from_wire, gstrs. by rewrite strs_of_gstrs. Qed.

Lemma dict_get_one (k : string) (v : gvalue) : dict_get [(k, v)] k = Some v.
Proof. cbn [dict_get]. by rewrite decide_True. Qed.

Lemma legal_raise {A} id (k : result wire_error A) : legal_node_id id = true ->
  (raise_if (negb (legal_node_id id)) (GraphWireError BadNodeId);; k) = k.
Proof. by intros ->. Qed.

Lemma nodes_roundtrip rec d d' :
  (forall id n w, (id, n) ∈ d -> node_to_wire n = Ok w -> node_from_wire rec id w = Ok n) ->
  copy_items node_to_wire d = Ok d' -> nodes_from_wire rec d' = Ok d.
Proof.
  revert d'. induction d as [|[id n] d IH]; intros d' H; cbn [copy_items].
  - intros [= <-]. done.
  - intros (w & Hw & (r & Hr & [= <-])%bind_ok)%bind_ok. cbn [nodes_from_wire].
    rewrite (H id n w) by (done || by apply elem_of_cons; left). cbn [mbind result_bind].
    rewrite (IH r); [done| |done]. intros id' n' w' Hin. apply H. by apply elem_of_cons; right.
Qed.

Lemma document_from_wire nodes g :
  nodes_from_wire graph_from_wire nodes = Ok g -> graph_from_wire (jobj [("nodes", jobj nodes)]) = Ok g.
Proof.
  intros H. rewrite graph_from_wire_eq. unfold graph_body. rewrite as_object_jobj. cbn [mbind result_bind].
  by rewrite dict_get_one, as_object_jobj.
Qed.

Lemma node_roundtrip n : ready_node n = true ->
  forall id w, legal_node_id id = true -> node_to_wire n = Ok w -> node_from_wire graph_from_wire id w = Ok n.
Proof.
  induction n as [g|r body IH] using AnyNode_ind_nested; cbn [ready_node node_to_wire]; intros Hready id w Hid.
  - intros (inputs & Hi%inputs_roundtrip & [= <-])%bind_ok; [|done]. unfold node_from_wire. rewrite legal_raise by done.
    destruct (plain_reads g inputs) as (Rr & Rt & Ri & Rm & Rv).
    unfold plain_to_wire in *. rewrite as_object_jobj. rewrite str_items_jobj in *. cbn [mbind result_bind].
    rewrite Rr, Rt, Ri, Rm, Rv, !as_object_jobj. cbn [mbind result_bind].
    rewrite (copy_items_map members_from_wire) by (intros; apply members_roundtrip). cbn [mbind result_bind].
    rewrite (copy_items_map variant_from_wire) by done. cbn [mbind result_bind]. rewrite Hi. by destruct g.
  - rewrite !andb_true_iff in Hready. destruct Hready as [[Hin Hports] Hbody].
    intros (inputs & Hi%inputs_roundtrip & (nodes & Hn & [= <-])%bind_ok)%bind_ok; [|done].
    unfold node_from_wire. rewrite legal_raise by done.
    pose proof (region_roundtrip graph_from_wire r body (jobj [("nodes", jobj nodes)]) inputs Hi Hports) as Hr.
    unfold region_to_wire in *. rewrite as_object_jobj. rewrite !str_items_jobj in Hr. cbn [mbind result_bind].
    rewrite dict_get_one.
    change (get_or [("region", ?x)] "region" GNone) with x in Hr. rewrite str_items_jobj in Hr.
    cbn [mbind result_bind]. rewrite as_object_jobj. apply Hr.
    apply document_from_wire, nodes_roundtrip; [|done]. intros id' n' w' Hin'.
    rewrite Forall_forall in IH. rewrite forallb_forall in Hbody.
    specialize (Hbody (id', n')). rewrite andb_true_iff in Hbody. destruct Hbody as [? ?]; [by apply list_elem_of_In|].
    by apply (IH (id', n')).
Qed.

Lemma ready_nodes g : wire_ready g = true ->
  forall id n w, (id, n) ∈ g -> node_to_wire n = Ok w -> node_from_wire graph_from_wire id w = Ok n.
Proof.
  unfold wire_ready. rewrite forallb_forall. intros Hr id n w Hin.
  specialize (Hr (id, n)). rewrite andb_true_iff in Hr. destruct Hr as [? ?]; [by apply list_elem_of_In|].
  by apply node_roundtrip.
Qed.

(** ** What is decoded can be sent on *)

Lemma json_items v k u : is_json v = true -> (k, u) ∈ items_of v -> is_json u = true.
Proof.
  destruct v as [| | | | | | | |d|]; cbn [items_of]; intros Hj Hin; try by apply not_elem_of_nil in Hin.
  cbn [is_json] in Hj. induction d as [|[a b] d IH]; cbn [str_items] in Hin; [by apply not_elem_of_nil in Hin|].
  cbn [forallb] in Hj. apply andb_true_iff in Hj as [Hab Hd]. apply andb_true_iff in Hab as [_ Hb].
  destruct a; try by apply IH. apply elem_of_cons in Hin as [[= -> ->]|Hin]; [done|by apply IH].
Qed.

Lemma json_object v what d k u : is_json v = true -> as_object v what = Ok d -> (k, u) ∈ d -> is_json u = true.
Proof. intros Hj [-> _]%as_object_items. by apply json_items. Qed.

Lemma json_get_or d k v : (forall k u, (k, u) ∈ d -> is_json u = true) -> is_json v = true -> is_json (get_or d k v) = true.
Proof. intros Hd Hv. unfold get_or. destruct (dict_get d k) eqn:E; [|done]. by eapply Hd, dict_get_elem. Qed.

Definition sendable (n : AnyNode) : Prop := ready_node n = true /\ is_ok (node_to_wire n) = true.

Lemma decoded_inputs (d ins : list (string * gvalue)) : (forall k u, (k, u) ∈ d -> is_json u = true) -> copy_items input_from_wire d = Ok ins ->
  ready_inputs ins = true /\ exists d' : list (string * gvalue), copy_items input_to_wire ins = Ok d'.
Proof.
  intros Hj Hd. assert (forall k v, (k, v) ∈ ins -> encodable v) as He.
  { intros k v Hv. destruct (copy_items_in _ _ _ _ _ Hd Hv) as (u & Hu & Huv). by apply (decoded_input u); [eapply Hj|]. }
  split.
  - unfold ready_inputs. apply forallb_forall. intros [k v] Hv%list_elem_of_In. by apply (He k).
  - apply copy_items_total. intros k v Hv. by apply (He k).
Qed.

Lemma port_constructed v e : port_from_wire v = Ok e -> constructed e = true.
Proof.
  unfold port_from_wire. destruct (as_object v "port"); [|done].
  destruct (type_expr_from_wire v) as [x|[]] eqn:E; try done. intros [= <-]. by eapply decoded_constructed.
Qed.

Lemma nodes_total body : Forall (fun kn => sendable kn.2) body -> exists d : list (string * gvalue), copy_items node_to_wire body = Ok d.
Proof. intros H. apply copy_items_total. intros k n Hn. rewrite Forall_forall in H. by apply (H (k, n)). Qed.

Definition decoded_ok (g : Graph) : Prop := Forall (fun kn => legal_node_id kn.1 = true /\ sendable kn.2) g.

Lemma decoded_region rec wire n :
  (forall k u, (k, u) ∈ wire -> is_json u = true) ->
  (forall body, rec (get_or wire "body" GNone) = Ok body -> decoded_ok body) ->
  region_from_wire rec wire = Ok n -> sendable n.
Proof.
  intros Hj Hrec. unfold region_from_wire. intros H.
  do 3 apply bind_ok in H as (? & _ & H).
  apply bind_ok in H as (pw & _ & H). apply bind_ok in H as (ports & Hports & H).
  apply bind_ok in H as (iw & Hiw & H). do 3 apply bind_ok in H as (? & _ & H).
  apply bind_ok in H as (body & Hbody & H). apply bind_ok in H as (ins & Hins & H).
  do 3 apply bind_ok in H as (? & _ & H). injection H as <-.
  apply Hrec in Hbody. apply decoded_inputs in Hins as [Hr [d' Hd']]; cycle 1.
  { intros k u. eapply json_object; [|exact Hiw]. by apply json_get_or. }
  split; cbn [ready_node node_to_wire rn_inputs].
  - rewrite !andb_true_iff. split; [split; [done|]|].
    + unfold ready_ports. cbn [rn_ports]. apply forallb_forall. intros [k e] He%list_elem_of_In.
      destruct (copy_items_in _ _ _ _ _ Hports He) as (v & _ & Hv). by eapply port_constructed.
    + apply forallb_forall. intros kn Hkn%list_elem_of_In. unfold decoded_ok in Hbody. rewrite Forall_forall in Hbody.
      destruct (Hbody kn Hkn) as [-> [-> _]]. done.
  - rewrite Hd'. cbn [mbind result_bind]. destruct (nodes_total body) as [nodes ->]; [|done].
    eapply Forall_impl; [exact Hbody|]. by intros kn [_ ?].
Qed.

Lemma decoded_node rec id v n : is_json v = true ->
  (forall u body, (gdepth u < gdepth v)%nat -> is_json u = true -> rec u = Ok body -> decoded_ok body) ->
  node_from_wire rec id v = Ok n -> legal_node_id id = true /\ sendable n.
Proof.
  intros Hj Hrec. unfold node_from_wire. intros ([] & Hid%raise_if_ok & (entry & He & H)%bind_ok)%bind_ok.
  apply negb_false_iff in Hid. split; [done|].
  assert (forall k u, (k, u) ∈ entry -> is_json u = true) as Hentry by (intros; by eapply json_object).
  destruct (dict_get entry "region") as [region|] eqn:Er.
  - apply bind_ok in H as (wire & Hw & H). pose proof (dict_get_elem _ _ _ Er) as Hin.
    pose proof (depth_object_get _ _ _ _ _ He Er) as Hd. apply Hentry in Hin.
    assert (forall k u, (k, u) ∈ wire -> is_json u = true) as Hwire by (intros; by eapply json_object).
    eapply decoded_region; [exact Hwire| |exact H]. intros body. apply Hrec; [|by apply json_get_or].
    apply as_object_items in Hw as [-> Hpos]. pose proof (depth_get_or region "body" GNone eq_refl Hpos). lia.
  - destruct (get_or entry "nodeType" GNone); try done. apply bind_ok in H as (iw & Hiw & H).
    do 4 apply bind_ok in H as (? & _ & H). apply bind_ok in H as (ins & Hins & [= <-]).
    apply decoded_inputs in Hins as [Hr [d' Hd']]; cycle 1.
    { intros k u. eapply json_object; [|exact Hiw]. by apply json_get_or. }
    split; cbn [ready_node node_to_wire node_inputs]; [done|]. by rewrite Hd'.
Qed.

Lemma decoded_nodes rec d g :
  (forall id v n, (id, v) ∈ d -> node_from_wire rec id v = Ok n -> legal_node_id id = true /\ sendable n) ->
  nodes_from_wire rec d = Ok g -> decoded_ok g.
Proof.
  revert g. induction d as [|[id v] d IH]; intros g H; cbn [nodes_from_wire].
  - intros [= <-]. constructor.
  - intros (n & Hn & (r & Hr & [= <-])%bind_ok)%bind_ok. constructor.
    + apply (H id v); [by apply elem_of_cons; left|done].
    + apply IH; [|done]. intros id' v' n' Hin. apply H. by apply elem_of_cons; right.
Qed.

Lemma decoded_graph w g : is_json w = true -> graph_from_wire w = Ok g -> decoded_ok g.
Proof.
  revert g. induction w as [w IH] using (induction_ltof1 _ gdepth). unfold ltof in IH. intros g Hj.
  rewrite graph_from_wire_eq. unfold graph_body. intros (doc & Hdoc & H)%bind_ok.
  destruct (dict_get doc "nodes") as [nodes|] eqn:En; [|done]. apply bind_ok in H as (d & Hd & H).
  pose proof (depth_object_get _ _ _ _ _ Hdoc En) as Hnodes.
  assert (is_json nodes = true) as Hjn by (eapply json_object; [done|exact Hdoc|by apply dict_get_elem]).
  eapply decoded_nodes; [|exact H]. intros id v n Hin. apply decoded_node; [by eapply json_object|].
  intros u body Hu Hju. apply IH; [|done]. pose proof (depth_as_object _ _ _ _ _ Hd Hin). lia.
Qed.

Lemma decoded_ready g : decoded_ok g -> wire_ready g = true.
Proof.
  intros H. apply forallb_forall. intros kn Hkn%list_elem_of_In. unfold decoded_ok in H. rewrite Forall_forall in H.
  destruct (H kn Hkn) as [-> [-> _]]. done.
Qed.

(** ** Which errors escape *)

(** The call returns, or raises [GraphWireError]. *)
Definition only_wire {A} (r : result wire_error A) : Prop :=
  match r with Err (GraphWireError _) | Ok _ => True | Err _ => False end.

Create HintDb only_wire discriminated.

Lemma only_wire_bind {A B} (m : result wire_error A) (k : A -> result wire_error B) :
  only_wire m -> (forall a, m = Ok a -> only_wire (k a)) -> only_wire (m ≫= k).
Proof. destruct m; cbn; auto. Qed.

Lemma only_wire_ok {A} (a : A) : only_wire (Ok a).
Proof. done. Qed.

Lemma only_wire_refuse {A} p : only_wire (@refuse A p).
Proof. done. Qed.

Lemma only_wire_raise b p : only_wire (raise_if b (GraphWireError p)).
Proof. by destruct b. Qed.

Lemma only_wire_object v what : only_wire (as_object v what).
Proof. unfold as_object. by repeat case_match. Qed.

Lemma only_wire_items {K A B} (f : A -> result wire_error B) (d : list (K * A)) :
  (forall k a, (k, a) ∈ d -> only_wire (f a)) -> only_wire (copy_items f d).
Proof.
  induction d as [|[k a] d IH]; intros H; cbn [copy_items]; [done|].
  apply only_wire_bind; [apply (H k); by apply elem_of_cons; left|]. intros b _.
  apply only_wire_bind; [|done]. apply IH. intros k' a' Hin. apply (H k'). by apply elem_of_cons; right.
Qed.

Lemma only_wire_nested v : only_wire (refuse_nested_unsafe_ints v).
Proof. rewrite refuse_nested_spec. by destruct (nested_safe v). Qed.

Lemma only_wire_str_list v what : only_wire (str_list v what).
Proof. unfold str_list. by repeat case_match. Qed.

Lemma only_wire_members v : only_wire (members_from_wire v).
Proof. unfold members_from_wire. by repeat case_match. Qed.

Lemma only_wire_variant v : only_wire (variant_from_wire v).
Proof. by destruct v. Qed.

Lemma only_wire_iterations v : only_wire (max_iterations_from_wire v).
Proof. by destruct v. Qed.

Lemma only_wire_link v what : only_wire (link_from_wire v what).
Proof. unfold link_from_wire. apply only_wire_bind; [apply only_wire_object|]. intros. by repeat case_match. Qed.

Lemma only_wire_continue v : only_wire (continue_from_wire v).
Proof. destruct v; try done; (apply only_wire_bind; [apply only_wire_link|done]). Qed.

#[export] Hint Resolve only_wire_ok only_wire_refuse only_wire_raise only_wire_object only_wire_nested only_wire_str_list
  only_wire_members only_wire_variant only_wire_iterations only_wire_link only_wire_continue : only_wire.

(** The values the decoder cannot refuse: a list or a dict where it looks the
    value up in a set of names, and a decimal longer than [int] reads. *)
Definition CHOICE_KEYS : list string := ["kind"; "binding"; "cachePolicy"; "mode"].

Definition tame_field (key : string) (v : gvalue) : bool :=
  (negb (bool_decide (key ∈ CHOICE_KEYS)) || hashable v)
  && match v with GStr s => negb (String.eqb key INT_KEY) || (String.length s <=? INT_MAX_STR_DIGITS)%nat | _ => true end.

Fixpoint tame (v : gvalue) : bool :=
  match v with
  | GList l => forallb tame l
  | GDict d => forallb (fun kv => match kv.1 with GStr k => tame_field k kv.2 && tame kv.2 | _ => false end) d
  | _ => true
  end.

Definition tame_items (d : list (string * gvalue)) : Prop :=
  forall k v, (k, v) ∈ d -> tame_field k v = true /\ tame v = true.

Lemma tame_dict v : tame v = true -> tame_items (items_of v).
Proof.
  intros Hv k u. destruct v as [| | | | | | | |d|]; cbn [items_of]; try (by intros ?%not_elem_of_nil).
  cbn [tame] in Hv. induction d as [|[a b] d IH]; cbn [str_items forallb fst snd] in *; [by intros ?%not_elem_of_nil|].
  destruct a; cbn in Hv; try done. rewrite !andb_true_iff in Hv. destruct Hv as [[Hf Hb] Hd].
  intros [[= -> ->]|Hin]%elem_of_cons; [done|by apply IH].
Qed.

Lemma tame_object v what d : tame v = true -> as_object v what = Ok d -> tame_items d.
Proof. intros Hv [-> _]%as_object_items. by apply tame_dict. Qed.

Lemma tame_get_or d k v : tame_items d -> tame v = true -> tame (get_or d k v) = true.
Proof. intros Hd Hv. unfold get_or. destruct (dict_get d k) eqn:E; [|done]. by eapply Hd, dict_get_elem. Qed.

Lemma only_wire_choose {A} (name : A -> string) choices d key default p :
  tame_items d -> key ∈ CHOICE_KEYS -> hashable default = true -> only_wire (choose name choices (get_or d key default) p).
Proof.
  intros Hd Hk Hv. assert (hashable (get_or d key default) = true) as Hh.
  { unfold get_or. destruct (dict_get d key) as [v|] eqn:E; [|done]. apply dict_get_elem, Hd in E as [E _].
    unfold tame_field in E. rewrite bool_decide_eq_true_2 in E by done. by apply andb_true_iff in E as [E _]. }
  unfold choose. rewrite Hh. cbn [negb]. by repeat case_match.
Qed.

Lemma digits_read acc s : str_all char_decimal s = true -> is_Some (int_of_digits acc s).
Proof.
  revert acc. induction s as [|c s IH]; intros acc; cbn [str_all int_of_digits]; [by eexists|].
  intros [-> Hs]%andb_true_iff. by apply IH.
Qed.

Lemma canonical_reads s : canonical_digits s = true -> is_Some (int_of_digits 0 s).
Proof.
  unfold canonical_digits. destruct s as [|c s]; [done|]. destruct (code c =? 48)%N eqn:E.
  - intros ->%String.eqb_eq. cbn [int_of_digits]. unfold char_decimal, in_range. apply N.eqb_eq in E. rewrite E. by eexists.
  - intros H. apply digits_read. cbn [str_all]. done.
Qed.

Lemma decimal_reads s : canonical_decimal_int s = true -> (String.length s <= INT_MAX_STR_DIGITS)%nat ->
  is_Some (int_of_decimal s).
Proof.
  unfold canonical_decimal_int, int_of_decimal. intros Hc Hl.
  assert (String.length (unsigned s) <= String.length s)%nat.
  { destruct s as [|c s]; [done|]. destruct c as [[] [] [] [] [] [] [] []]; cbn [unsigned String.length]; lia. }
  rewrite (proj2 (Nat.ltb_ge _ _)) by lia. apply canonical_reads in Hc.
  destruct s as [|c s]; [done|]. destruct c as [[] [] [] [] [] [] [] []]; try exact Hc.
  cbn [unsigned] in Hc. by apply fmap_is_Some.
Qed.

Lemma only_wire_input v : tame v = true -> only_wire (input_from_wire v).
Proof.
  intros Hv. unfold input_from_wire. destruct (unsafe_int v); [done|].
  assert (only_wire (refuse_nested_unsafe_ints v;; Ok v)) as Hlit.
  { apply only_wire_bind; auto with only_wire. }
  destruct v as [| | | | | | | |d|]; try exact Hlit. destruct (has_reserved d); [|exact Hlit]. cbn [negb].
  assert (forallb (fun kv : gvalue * gvalue => is_gstr kv.1) d = true) as Hkeys.
  { apply forallb_forall. intros kv Hkv. cbn [tame] in Hv. rewrite forallb_forall in Hv. specialize (Hv kv Hkv).
    by destruct kv.1. }
  rewrite Hkeys. case_match; [done|]. case_match; [by repeat case_match|].
  case_match.
  - repeat case_match; try done. apply only_wire_bind; auto with only_wire.
  - destruct (get_or (str_items d) INT_KEY GNone) eqn:E; try done.
    destruct (canonical_decimal_int s) eqn:Hc; [|done]. unfold get_or in E.
    destruct (dict_get (str_items d) INT_KEY) eqn:Ei; [|done]. subst.
    destruct (tame_dict _ Hv INT_KEY (GStr s)) as [Hf _]; [by apply dict_get_elem|].
    unfold tame_field in Hf. apply andb_true_iff in Hf as [_ Hf]. cbn in Hf.
    destruct (decimal_reads s) as [z ->]; [done| |by repeat case_match].
    by apply Nat.leb_le.
Qed.

Lemma type_expr_ends w : type_expr_from_wire w <> Err ExprFuel.
Proof.
  induction w as [w IH] using (induction_ltof1 _ gdepth). unfold ltof in IH.
  assert (forall field u, (gdepth u < gdepth w)%nat -> sub_expr type_expr_from_wire field u <> Err ExprFuel) as Hsub.
  { intros field u Hu. unfold sub_expr. destruct u; try done. by apply (IH (GDict d)). }
  rewrite type_expr_from_wire_eq. unfold type_expr_body.
  assert (forall A B (m : result expr_wire_error A) (k : A -> result expr_wire_error B), m <> Err ExprFuel ->
            (forall a, m = Ok a -> k a <> Err ExprFuel) -> m ≫= k <> Err ExprFuel) as Hbind.
  { intros A B m k Hm Hk. destruct m; [by apply Hk|]. cbn. congruence. }
  cbn zeta.
  apply Hbind; [by destruct (get_or _ _ _)|intros name _].
  assert (forall v field, expect_strings v field <> Err ExprFuel) as Hstr.
  { intros v field. destruct v; try done. unfold expect_strings. cbn. by destruct (strs_of l). }
  apply Hbind; [repeat case_match; try done; apply Hstr|intros ts _].
  apply Hbind; [by destruct (get_or _ _ _)|intros tid _].
  apply Hbind.
  { unfold get_or. destruct (dict_get (items_of w) "element") as [v|] eqn:E; [|done].
    destruct v; try done; (apply Hbind; [apply Hsub; by eapply depth_get|done]). }
  intros el _. apply Hbind; [by destruct (get_or _ _ _)|intros items Hi].
  apply Hbind.
  { assert (forall v, v ∈ items -> (gdepth v < gdepth w)%nat) as Hd by (intros; by eapply depth_elements).
    clear Hi. induction items as [|v items IHi]; cbn [copy_list]; [done|].
    apply Hbind; [apply Hsub, Hd; by apply elem_of_cons; left|]. intros x _. apply Hbind; [|done].
    apply IHi. intros u Hu. apply Hd. by apply elem_of_cons; right. }
  intros els _. apply Hbind; [by destruct (get_or _ "input" _)|intros i _].
  unfold construct_with. assert (forall A (r : result expr_error A), of_construct r <> Err ExprFuel) as Hc by (by intros A []).
  destruct (get_or _ "index" _); try apply Hc; (apply Hbind; [apply Hc|done]).
Qed.

Lemma only_wire_port v : only_wire (port_from_wire v).
Proof.
  unfold port_from_wire. destruct (as_object v "port"); [|done].
  pose proof (type_expr_ends v). destruct (type_expr_from_wire v) as [|[]]; done.
Qed.

#[export] Hint Resolve only_wire_port only_wire_input : only_wire.
Lemma only_wire_region_output v : tame v = true -> only_wire (region_output_from_wire v).
Proof.
  intros Hv. apply only_wire_bind; [auto with only_wire|]. intros obj Hobj.
  apply only_wire_bind; [|intros; apply only_wire_bind; auto with only_wire].
  apply only_wire_choose; [by eapply tame_object|set_solver|done].
Qed.

Lemma only_wire_tame_items {B} (f : gvalue -> result wire_error B) v what d :
  tame v = true -> as_object v what = Ok d -> (forall u, tame u = true -> only_wire (f u)) -> only_wire (copy_items f d).
Proof. intros Hv Hd Hf. apply only_wire_items. intros k u Hu. apply Hf. by apply (tame_object v what d Hv Hd k u). Qed.

Lemma only_wire_region rec wire :
  tame_items wire -> only_wire (rec (get_or wire "body" GNone)) -> only_wire (region_from_wire rec wire).
Proof.
  intros Hw Hrec. unfold region_from_wire.
  do 3 (apply only_wire_bind; [apply only_wire_choose; [done|set_solver|done]|intros ? _]).
  assert (forall k, tame (get_or wire k (GDict [])) = true) as Hobj by (intros; by apply tame_get_or).
  apply only_wire_bind; [auto with only_wire|intros pw Hpw].
  apply only_wire_bind; [by apply (only_wire_tame_items _ _ _ _ (Hobj _) Hpw); auto with only_wire|intros ports _].
  apply only_wire_bind; [auto with only_wire|intros iw Hiw].
  apply only_wire_bind; [auto with only_wire|intros ow How].
  apply only_wire_bind; [by apply (only_wire_tame_items _ _ _ _ (Hobj _) How); auto using only_wire_region_output|intros outs _].
  apply only_wire_bind; [auto with only_wire|intros mi _].
  apply only_wire_bind; [done|intros body _].
  apply only_wire_bind; [by apply (only_wire_tame_items _ _ _ _ (Hobj _) Hiw); auto with only_wire|intros ins _].
  do 3 (apply only_wire_bind; [auto with only_wire|intros ? _]). done.
Qed.

Lemma only_wire_node rec id v : tame v = true ->
  (forall u, (gdepth u < gdepth v)%nat -> tame u = true -> only_wire (rec u)) -> only_wire (node_from_wire rec id v).
Proof.
  intros Hv Hrec. unfold node_from_wire. apply only_wire_bind; [auto with only_wire|intros _ _].
  apply only_wire_bind; [auto with only_wire|intros entry He].
  pose proof (tame_object _ _ _ Hv He) as Hentry.
  assert (forall k, tame (get_or entry k (GDict [])) = true) as Hobj by (intros; by apply tame_get_or).
  destruct (dict_get entry "region") as [region|] eqn:Er.
  - apply only_wire_bind; [auto with only_wire|intros wire Hw].
    destruct (Hentry "region" region) as [_ Hregion]; [by apply dict_get_elem|].
    pose proof (tame_object _ _ _ Hregion Hw) as Hwire. apply only_wire_region; [done|].
    apply Hrec; [|by apply tame_get_or]. pose proof (depth_object_get _ _ _ _ _ He Er).
    apply as_object_items in Hw as [-> Hpos]. pose proof (depth_get_or region "body" GNone eq_refl Hpos). lia.
  - destruct (get_or entry "nodeType" GNone); try done.
    apply only_wire_bind; [auto with only_wire|intros iw Hiw].
    apply only_wire_bind; [auto with only_wire|intros mw Hmw].
    apply only_wire_bind; [by apply (only_wire_tame_items _ _ _ _ (Hobj _) Hmw); auto with only_wire|intros ms _].
    apply only_wire_bind; [auto with only_wire|intros vw Hvw].
    apply only_wire_bind; [by apply (only_wire_tame_items _ _ _ _ (Hobj _) Hvw); auto with only_wire|intros vs _].
    apply only_wire_bind; [by apply (only_wire_tame_items _ _ _ _ (Hobj _) Hiw); auto with only_wire|done].
Qed.

Lemma only_wire_graph w : tame w = true -> only_wire (graph_from_wire w).
Proof.
  induction w as [w IH] using (induction_ltof1 _ gdepth). unfold ltof in IH. intros Hw.
  rewrite graph_from_wire_eq. unfold graph_body. apply only_wire_bind; [auto with only_wire|intros doc Hdoc].
  destruct (dict_get doc "nodes") as [nodes|] eqn:En; [|done].
  apply only_wire_bind; [auto with only_wire|intros d Hd].
  pose proof (depth_object_get _ _ _ _ _ Hdoc En) as Hdn.
  destruct (tame_object _ _ _ Hw Hdoc "nodes" nodes) as [_ Hnodes]; [by apply dict_get_elem|].
  assert (forall id v, (id, v) ∈ d -> only_wire (node_from_wire graph_from_wire id v)) as Hall.
  { intros id v Hin. apply only_wire_node; [by apply (tame_object _ _ _ Hnodes Hd id v)|].
    intros u Hu. apply IH. pose proof (depth_as_object _ _ _ _ _ Hd Hin). lia. }
  clear Hd. induction d as [|[id v] d IHd]; cbn [nodes_from_wire]; [done|].
  apply only_wire_bind; [apply Hall; by apply elem_of_cons; left|intros n _].
  apply only_wire_bind; [|done]. apply IHd. intros id' v' Hin. apply Hall. by apply elem_of_cons; right.
Qed.

(** * Properties *)

(** C8: A document survives the wire: whenever it can be encoded, and its node
    ids are legal and its typed literals and ports well formed, decoding gives
    the document back, region bodies at every depth included. *)
Theorem graph_wire_roundtrip g w : wire_ready g = true -> graph_to_wire g = Ok w -> graph_from_wire w = Ok g.
Proof.
  intros Hr (nodes & Hn & [= <-])%bind_ok.
  apply document_from_wire. by apply (nodes_roundtrip _ g); [apply ready_nodes|].
Qed.

(** What the decoder accepts it can say again: a document decoded from
    JSON can be encoded, and what it is encoded to decodes to it. *)
Theorem decoded_documents_can_be_sent w g : is_json w = true -> graph_from_wire w = Ok g ->
  exists w', graph_to_wire g = Ok w' /\ graph_from_wire w' = Ok g.
Proof.
  intros Hj Hg. apply decoded_graph in Hg; [|done]. pose proof (decoded_ready g Hg) as Hr.
  destruct (nodes_total g) as [nodes Hn]; [by eapply Forall_impl; [exact Hg|]; intros kn [_ ?]|].
  exists (jobj [("nodes", jobj nodes)]). unfold graph_to_wire. rewrite Hn. split; [done|].
  apply document_from_wire. by apply (nodes_roundtrip _ g); [apply ready_nodes|].
Qed.

(** C9: Whatever JSON arrives, decoding ends, and refuses with the error its
    callers catch, provided that no list or dict stands where a name of a
    closed set is expected and no decimal is longer than [int] reads. *)
Theorem decoding_refuses_with_its_own_error w e :
  tame w = true -> graph_from_wire w = Err e -> exists p, e = GraphWireError p.
Proof. intros Hw%only_wire_graph He. rewrite He in Hw. destruct e; try done. by eexists. Qed.

(** The provisos are needed: *)
Lemma unhashable_name_escapes :
  graph_from_wire (jobj [("nodes", jobj [("r", jobj [("region", jobj [("kind", GList [])])])])]) = Err PyTypeError.
Proof. vm_compute. reflexivity. Qed.

Definition long_decimal : string := Nat.iter 4301 (String "9") "".

Lemma long_decimal_escapes :
  graph_from_wire (jobj [("nodes", jobj [("n", jobj [("nodeType", GStr "t");
    ("inputs", jobj [("x", jobj [("$int", GStr long_decimal)])])])])]) = Err PyValueError.
Proof. vm_compute. reflexivity. Qed.

(** * Witnesses *)

Definition demo_region : RegionNode :=
  mkRegionNode RWhile [("acc", mkTypeExpr KConcrete ["INT"] "" None [] "" None)]
    [("acc", GLink (mkLink "loader" "out")); ("limit", GInt (2 ^ 60)); ("any", GTyped "INT" (GInt 7))]
    [] ["acc"] [("acc", mkRegionOutput (mkLink "step" "out") OState)] BZip CRerun (Some 10)
    (Some (mkLink "step" "more")).

Definition demo_document : Graph :=
  [("loader", NodeOf (mkGraphNode "core.load" [("name", GStr "a")] [("outs", ["x"; "y"])] [("slot", "k")]));
   ("loop", RegionOf demo_region [("step", NodeOf (mkGraphNode "core.step" [("v", GLink (mkLink "$region" "acc"))] [] []))])].

Definition demo_wire : gvalue := match graph_to_wire demo_document with Ok w => w | Err _ => GNone end.

Lemma graph_wire_roundtrip_witness : graph_from_wire demo_wire = Ok demo_document.
Proof. apply graph_wire_roundtrip; vm_compute; reflexivity. Defined.

Lemma decoded_documents_can_be_sent_witness :
  exists w', graph_to_wire demo_document = Ok w' /\ graph_from_wire w' = Ok demo_document.
Proof. apply (decoded_documents_can_be_sent demo_wire); vm_compute; reflexivity. Defined.

Lemma decoding_refuses_with_its_own_error_witness : exists p, GraphWireError BadNodeId = GraphWireError p.
Proof.
  apply (decoding_refuses_with_its_own_error (jobj [("nodes", jobj [("a/b", jobj [])])])); vm_compute; reflexivity.
Defined.
