(* ===== verification/Search.v ===== *)
(** Search: the stack-driven graph search that the source writes in several
    places, and what it computes. *)
From S2P Require Import Prelude.

Local Open Scope list_scope.

Section search.
Context {A : Type} `{Countable A}.
Variable skip : A -> bool.
Variable succ : A -> list A.

(** [while stack: node = stack.pop(); if node in visited or skip(node):
    continue; visited.add(node); stack.extend(succ(node))], the stack's top
    first. *)
Fixpoint search (fuel : nat) (visited : gset A) (stack : list A) : option (gset A) :=
  match fuel with
  | O => None
  | S fuel' =>
      match stack with
      | [] => Some visited
      | a :: stack' =>
          if bool_decide (a ∈ visited) || skip a then search fuel' visited stack'
          else search fuel' ({[a]} ∪ visited) (succ a ++ stack')
      end
  end.

Definition weight (l : list A) : nat := sum_list_with (fun a => length (succ a)) l.

(** A pop shortens the stack or visits an element, whose successors are pushed
    once: [all] lists the elements that have any. *)
Definition search_from (all : list A) (stack : list A) : gset A :=
  default ∅ (search (S (length stack + weight all)) ∅ stack).

(** * What it computes *)

Definition edge (a b : A) : Prop := b ∈ succ a /\ skip b = false.

Definition unvisited (all : list A) (visited : gset A) : list A :=
  List.filter (fun a => negb (bool_decide (a ∈ visited))) all.

Lemma weight_mono all visited a :
  (weight (unvisited all ({[a]} ∪ visited)) <= weight (unvisited all visited))%nat.
Proof.
  unfold unvisited, weight. induction all as [|x l IH]; cbn [List.filter]; [done|].
  destruct (decide (x ∈ visited)) as [Hx|Hx].
  - rewrite !bool_decide_true by set_solver. exact IH.
  - rewrite (bool_decide_false (x ∈ visited)) by done. destruct (bool_decide (x ∈ {[a]} ∪ visited)); cbn in *; lia.
Qed.

Lemma weight_visit all visited a :
  a ∈ all -> a ∉ visited ->
  (weight (unvisited all ({[a]} ∪ visited)) + length (succ a) <= weight (unvisited all visited))%nat.
Proof.
  intros Ha Hv. induction all as [|x l IH]; [by apply not_elem_of_nil in Ha|]. unfold unvisited in *. cbn [List.filter].
  destruct (decide (x = a)) as [->|Hne].
  - rewrite (bool_decide_true (a ∈ {[a]} ∪ visited)) by set_solver. rewrite (bool_decide_false (a ∈ visited)) by done.
    pose proof (weight_mono l visited a) as Hm. unfold weight, unvisited in *. cbn in *. lia.
  - apply elem_of_cons in Ha as [->|Ha]; [done|]. specialize (IH Ha).
    rewrite (bool_decide_ext (x ∈ {[a]} ∪ visited) (x ∈ visited)) by set_solver.
    destruct (bool_decide (x ∈ visited)); unfold weight in *; cbn in *; lia.
Qed.

Section spec.
Variable all : list A.
Hypothesis Hall : forall a b, b ∈ succ a -> a ∈ all.

Lemma weight_step visited a :
  a ∉ visited ->
  (weight (unvisited all ({[a]} ∪ visited)) + length (succ a) <= weight (unvisited all visited))%nat.
Proof.
  intros Ha. destruct (succ a) as [|b l] eqn:E.
  - cbn. pose proof (weight_mono all visited a). lia.
  - rewrite <- E. apply weight_visit; [|done]. apply (Hall a b). rewrite E. left.
Qed.

Lemma search_ends fuel visited stack :
  (forall a b, a ∈ visited -> edge a b -> b ∈ visited \/ b ∈ stack) ->
  (length stack + weight (unvisited all visited) < fuel)%nat ->
  exists r, search fuel visited stack = Some r
    /\ visited ⊆ r
    /\ (forall n, n ∈ r -> n ∈ visited \/ exists t, t ∈ stack /\ skip t = false /\ rtc edge t n)
    /\ (forall t, t ∈ stack -> skip t = false -> t ∈ r)
    /\ (forall a b, a ∈ r -> edge a b -> b ∈ r).
Proof.
  revert visited stack. induction fuel as [|fuel IH]; intros visited stack Hcl Hf; [lia|]. cbn [search].
  destruct stack as [|a stack].
  { exists visited. split_and!; [done|done|auto|by intros t ?%not_elem_of_nil|].
    intros x y Hx Hxy. by destruct (Hcl x y Hx Hxy) as [|?%not_elem_of_nil]. }
  cbn in Hf. destruct (bool_decide (a ∈ visited) || skip a) eqn:Ea.
  - destruct (IH visited stack) as (r & Hr & Hs & Hin & Hst & Hc); [|lia|].
    { intros x y Hx Hxy. destruct (Hcl x y Hx Hxy) as [|[->|]%elem_of_cons]; [by left| |by right].
      apply orb_true_iff in Ea as [?%bool_decide_eq_true|Ea]; [by left|]. destruct Hxy as [_ Hy]. congruence. }
    exists r. split_and!; [exact Hr|exact Hs| | |exact Hc].
    + intros n Hn. destruct (Hin n Hn) as [|(t & ? & ? & ?)]; [by left|]. right. exists t. split_and!; [by right|done..].
    + intros t [->|Ht]%elem_of_cons Htk; [|by apply Hst]. rewrite Htk, orb_false_r in Ea.
      apply Hs. by apply bool_decide_eq_true in Ea.
  - apply orb_false_iff in Ea as [Ha%bool_decide_eq_false Hk]. pose proof (weight_step visited a Ha) as Hw.
    destruct (IH ({[a]} ∪ visited) (succ a ++ stack)) as (r & Hr & Hs & Hin & Hst & Hc).
    + intros x y [->%elem_of_singleton|Hx]%elem_of_union Hxy.
      * right. rewrite elem_of_app. left. apply Hxy.
      * destruct (Hcl x y Hx Hxy) as [|[->|]%elem_of_cons]; set_solver.
    + rewrite length_app. lia.
    + exists r. split_and!; [done|set_solver| | |done].
      * intros n Hn. destruct (Hin n Hn) as [[->%elem_of_singleton|Hnf]%elem_of_union|(t & Ht & Htk & Hrt)].
        -- right. exists a. split_and!; [left|done|done].
        -- by left.
        -- right. apply elem_of_app in Ht as [Ht|Ht].
           ++ exists a. split_and!; [left|done|]. eapply rtc_l; [|exact Hrt]. by split.
           ++ exists t. split_and!; [by right|done..].
      * intros t [->|Ht]%elem_of_cons Htk; [set_solver|]. apply Hst; [|done]. rewrite elem_of_app. by right.
Qed.

(** The search answers exactly what its stack reaches through elements that
    are not skipped. *)
Lemma search_from_spec stack n :
  n ∈ search_from all stack <-> exists t, t ∈ stack /\ skip t = false /\ rtc edge t n.
Proof.
  unfold search_from. destruct (search_ends (S (length stack + weight all)) ∅ stack) as (r & -> & _ & Hin & Hst & Hc).
  - set_solver.
  - assert (weight (unvisited all ∅) <= weight all)%nat; [|lia]. unfold unvisited, weight.
    generalize all. intros l. induction l as [|x l IH]; cbn [List.filter]; [done|].
    destruct (negb (bool_decide (x ∈ (∅ : gset A)))); cbn in *; lia.
  - cbn [default]. split.
    + intros Hn. destruct (Hin n Hn) as [|]; [set_solver|done].
    + intros (t & Ht & Hk & Hr). eapply (rtc_ind_r (fun x => x ∈ r)); [by apply Hst| |exact Hr].
      intros y z _ Hyz Hy. by eapply Hc.
Qed.

Lemma search_from_closed stack a b : a ∈ search_from all stack -> edge a b -> b ∈ search_from all stack.
Proof.
  rewrite !search_from_spec. intros (t & Ht & Hk & Hr) Hab. exists t. split_and!; [done..|]. by eapply rtc_r.
Qed.
End spec.
End search.

(** * Paths that avoid a set *)

Section paths.
Context {A : Type} `{Countable A}.
Variable R : A -> A -> Prop.

Definition step_off (S : gset A) (a b : A) : Prop := a ∉ S /\ R a b.

(** A path from [a] to [b], not empty, with nothing of [S] strictly between. *)
Definition below (S : gset A) (a b : A) : Prop := exists c, R a c /\ rtc (step_off S) c b.

Lemma off_rtc S a b : rtc (step_off S) a b -> rtc R a b.
Proof. apply rtc_subrel. by intros x y []. Qed.

Lemma below_tc S a b : below S a b -> tc R a b.
Proof. intros (c & Hac & Hcb). eapply tc_rtc_r; [by apply tc_once|by eapply off_rtc]. Qed.

Lemma tc_below a b : tc R a b -> below ∅ a b.
Proof.
  intros Ht. assert (exists c, R a c /\ rtc R c b) as (c & Hac & Hcb).
  { destruct Ht as [? ? ?|? y ? ? ?]; [by exists y|]. exists y. split; [done|by apply tc_rtc]. }
  exists c. split; [done|]. revert Hcb. apply rtc_subrel. intros x y Hxy. split; [set_solver|done].
Qed.

Lemma below_trans S a b c : below S a b -> b ∉ S -> below S b c -> below S a c.
Proof.
  intros (x & Hax & Hxb) Hb (y & Hby & Hyc). exists x. split; [done|]. etrans; [exact Hxb|].
  eapply rtc_l; [by split|done].
Qed.

(** A path that avoids [S] and ends in [T] has a first element in [T]. *)
Lemma first_hit S T a b :
  below S a b -> b ∈ T -> exists m, m ∈ T /\ below (S ∪ T) a m /\ rtc (step_off S) m b.
Proof.
  intros (c & Hac & Hcb) Hb.
  assert (Hkey : exists m, m ∈ T /\ rtc (step_off (S ∪ T)) c m /\ rtc (step_off S) m b).
  { clear Hac. induction Hcb as [c|c d b Hcd Hdb IH]; [by exists c|].
    destruct (decide (c ∈ T)) as [Hc|Hc].
    - exists c. split_and!; [done|done|]. by eapply rtc_l.
    - destruct (IH Hb) as (m & Hm & Hdm & Hmb). exists m. split_and!; [done| |done].
      eapply rtc_l; [|exact Hdm]. destruct Hcd. split; [set_solver|done]. }
  destruct Hkey as (m & Hm & Hcm & Hmb). exists m. split_and!; [done| |done]. by exists c.
Qed.

(** A path avoids [S], or meets it strictly before its end. *)
Lemma avoids_or_meets S a b :
  tc R a b -> below S a b \/ exists m, m ∈ S /\ tc R a m /\ tc R m b.
Proof.
  intros (c & Hac & Hcb)%tc_below. apply off_rtc in Hcb.
  assert (Hkey : rtc (step_off S) c b \/ exists m, m ∈ S /\ rtc R c m /\ tc R m b).
  { clear Hac. induction Hcb as [c|c d b Hcd Hdb IH]; [by left|].
    destruct (decide (c ∈ S)) as [Hc|Hc].
    - right. exists c. split_and!; [done|done|]. by eapply tc_rtc_r; [apply tc_once|].
    - destruct IH as [IH|(m & Hm & Hdm & Hmb)].
      + left. by eapply rtc_l.
      + right. exists m. split_and!; [done|by eapply rtc_l|done]. }
  destruct Hkey as [|(m & Hm & Hcm & Hmb)]; [left; by exists c|].
  right. exists m. split_and!; [done| |done]. by eapply tc_rtc_r; [apply tc_once|].
Qed.
End paths.
