(* ===== verification/Plan.v ===== *)
(** Plan: execution planning (dinkster_graph/plan.py): sink targets,
    output-driven reachability, the deterministic topological order, and the
    search for a cycle. *)
From S2P Require Import Prelude PyStr Schema Graph Search.

Local Open Scope string_scope.
Local Open Scope list_scope.

(** * Definitions *)

Section targets.
Variable schemas : string -> option NodeSchema.

(** A declared sink, or a region whose body has one. *)
Fixpoint is_target (n : AnyNode) : bool :=
  match n with
  | RegionOf _ body => existsb (fun kn => is_target kn.2) body
  | NodeOf g => match schemas (Graph.node_type g) with Some s => output_node s | None => false end
  end.

Definition output_node_targets (g : Graph) : list string :=
  map fst (List.filter (fun kn => is_target kn.2) g).
End targets.

(** [_dependencies]: the nodes of this graph the node's links name. *)
Definition link_target (g : Graph) (v : gvalue) : option string :=
  match v with GLink l => if dict_mem g (link_node l) then Some (link_node l) else None | _ => None end.

Definition dependencies (g : Graph) (node_id : string) : gset string :=
  match dict_get g node_id with
  | Some n => list_to_set (omap (fun kv => link_target g kv.2) (inputs_of n))
  | None => ∅
  end.

(** The needed nodes; a node's dependencies are pushed in some order. *)
Definition reachable_from (g : Graph) (targets : list string) : gset string :=
  search_from (fun _ => false) (fun node_id => elements (dependencies g node_id)) (keys g)
    (List.filter (fun t => dict_mem g t) targets).

Definition dependency_map (g : Graph) (targets : list string) : gmap string (gset string) :=
  let needed := reachable_from g targets in
  set_to_map (fun n => (n, dependencies g n ∩ needed)) needed.

(** One round of Kahn's loop: discard the node everywhere and collect those
    whose last dependency it was. *)
Definition discard (node_id : string) (remaining : gmap string (gset string)) : gmap string (gset string) :=
  (fun deps => deps ∖ {[node_id]}) <$> remaining.

Definition newly_ready (node_id : string) (order : list string) (remaining : gmap string (gset string)) : gset string :=
  dom (filter (fun p : string * gset string => node_id ∈ p.2 /\ p.2 ∖ {[node_id]} = ∅ /\ p.1 ∉ order) remaining).

Fixpoint kahn_loop (fuel : nat) (remaining : gmap string (gset string)) (ready order : list string) : option (list string) :=
  match fuel with
  | O => None
  | S fuel' =>
      match ready with
      | [] => Some order
      | node_id :: rest =>
          let order' := order ++ [node_id] in
          kahn_loop fuel' (discard node_id remaining)
            (sorted_set (list_to_set rest ∪ newly_ready node_id order' remaining)) order'
      end
  end.

Definition initially_ready (remaining : gmap string (gset string)) : gset string :=
  dom (filter (fun p : string * gset string => p.2 = ∅) remaining).

Inductive plan_error := GraphCycleError (nodes : list string).

Definition plan (g : Graph) (targets : list string) : result plan_error (list string) :=
  let needed := reachable_from g targets in
  let remaining := dependency_map g targets in
  let order := default [] (kahn_loop (S (size needed)) remaining (sorted_set (initially_ready remaining)) []) in
  if (length order =? size needed)%nat then Ok order else Err (GraphCycleError (sorted_set needed)).

(** The colours and the path of [find_cycle]. *)
Inductive color := White | Gray | Black.

#[export] Instance color_eq_dec : EqDecision color.
Proof. solve_decision. Defined.

Record dfs := mkDfs { colors : gmap string color; path : list string }.

(** [path.index(dep)] of a node on the path. *)
Fixpoint from_node (d : string) (p : list string) : list string :=
  match p with
  | [] => []
  | x :: p' => if String.eqb x d then p else from_node d p'
  end.

(** The loop over sorted dependencies, given the recursive visit. *)
Fixpoint visit_deps (rec : string -> dfs -> option (option (list string) * dfs)) (ds : list string) (st : dfs) :
  option (option (list string) * dfs) :=
  match ds with
  | [] => Some (None, st)
  | d :: ds' =>
      match colors st !! d with
      | Some Gray => Some (Some (from_node d (path st) ++ [d]), st)
      | Some White =>
          r ← rec d st;
          match r with
          | (Some found, st') => Some (Some found, st')
          | (None, st') => visit_deps rec ds' st'
          end
      | _ => visit_deps rec ds' st
      end
  end.

Fixpoint visit (g : Graph) (fuel : nat) (node_id : string) (st : dfs) : option (option (list string) * dfs) :=
  match fuel with
  | O => None
  | S fuel' =>
      r ← visit_deps (visit g fuel') (sorted_set (dependencies g node_id))
            (mkDfs (<[node_id := Gray]> (colors st)) (path st ++ [node_id]));
      match r with
      | (Some found, st') => Some (Some found, st')
      | (None, st') => Some (None, mkDfs (<[node_id := Black]> (colors st')) (take (length (path st') - 1) (path st')))
      end
  end.

Fixpoint find_cycle_loop (g : Graph) (fuel : nat) (nodes : list string) (st : dfs) : option (list string) :=
  match nodes with
  | [] => None
  | n :: nodes' =>
      if decide (colors st !! n = Some White)
      then match visit g fuel n st with
           | Some (Some found, _) => Some found
           | Some (None, st') => find_cycle_loop g fuel nodes' st'
           | None => None
           end
      else find_cycle_loop g fuel nodes' st
  end.

Definition node_set (g : Graph) : gset string := list_to_set (keys g).

(** A nested visit has one white node fewer: the number of nodes and one is
    fuel enough. *)
Definition find_cycle (g : Graph) : option (list string) :=
  find_cycle_loop g (S (size (node_set g))) (sorted_set (node_set g))
    (mkDfs (set_to_map (fun n => (n, White)) (node_set g)) []).

(** * Chains and cycles *)

Section chains.
Context {A : Type} `{Countable A} (R : A -> A -> Prop).

Fixpoint chain (x : A) (l : list A) : Prop :=
  match l with
  | [] => True
  | y :: l' => R x y /\ chain y l'
  end.

Lemma chain_app x l y k : chain x (l ++ y :: k) <-> chain x (l ++ [y]) /\ chain y k.
Proof. revert x. induction l as [|z l IH]; intros x; cbn; [tauto|]. rewrite IH. tauto. Qed.

Lemma chain_tc x l y : chain x l -> y ∈ l -> tc R x y.
Proof.
  revert x. induction l as [|z l IH]; intros x; cbn; [by intros _ ?%not_elem_of_nil|].
  intros [Hxz Hc] [->|Hy]%elem_of_cons; [by apply tc_once|]. eapply tc_l; [exact Hxz|]. by apply IH.
Qed.

Lemma chain_dup x l : chain x l -> ~ NoDup (x :: l) -> exists y, y ∈ x :: l /\ tc R y y.
Proof.
  revert x. induction l as [|z l IH]; intros x Hc Hd.
  - destruct Hd. apply NoDup_singleton.
  - destruct (decide (x ∈ z :: l)) as [Hx|Hx].
    + exists x. split; [left|]. by eapply chain_tc.
    + destruct Hc as [_ Hc]. destruct (IH z Hc) as (y & Hy & Ht).
      * intros Hn. apply Hd. by apply NoDup_cons.
      * exists y. split; [by right|done].
Qed.

Lemma successor_chain (X : gset A) k x :
  (forall y, y ∈ X -> exists z, z ∈ X /\ R y z) -> x ∈ X ->
  exists l, length l = k /\ chain x l /\ Forall (.∈ X) l.
Proof.
  intros Hs. revert x. induction k as [|k IH]; intros x Hx; [by exists []|].
  destruct (Hs x Hx) as (z & Hz & Hr). destruct (IH z Hz) as (l & Hl & Hc & Hin).
  exists (z :: l). split_and!; [cbn; lia|done|by constructor].
Qed.

(** A finite set in which every element has a successor holds a cycle. *)
Lemma finite_successor_cycle (X : gset A) :
  X ≢ ∅ -> (forall y, y ∈ X -> exists z, z ∈ X /\ R y z) -> exists x, x ∈ X /\ tc R x x.
Proof.
  intros [x Hx]%set_choose Hs. destruct (successor_chain X (size X) x Hs Hx) as (l & Hl & Hc & Hin).
  destruct (chain_dup x l Hc) as (y & Hy & Ht).
  - intros Hnd. assert (size (list_to_set (x :: l) : gset A) <= size X)%nat as Hle.
    { apply subseteq_size. intros y. rewrite elem_of_list_to_set, elem_of_cons. rewrite Forall_forall in Hin.
      intros [->|]; auto. }
    rewrite size_list_to_set in Hle by done. cbn in Hle. lia.
  - exists y. split; [|done]. rewrite Forall_forall in Hin. apply elem_of_cons in Hy as [->|]; auto.
Qed.

(** Orders in which what an element is related to stands before it. *)
Definition topological (l : list A) : Prop :=
  forall before x after, l = before ++ x :: after -> forall y, R x y -> y ∈ before.

Lemma topological_snoc l x : topological l -> (forall y, R x y -> y ∈ l) -> topological (l ++ [x]).
Proof.
  intros Ht Hx before z after Heq y Hzy.
  destruct (decide (after = [])) as [->|Hne].
  - apply app_inj_tail in Heq as [-> ->]. by apply Hx.
  - destruct (exists_last Hne) as (after' & w & ->).
    rewrite app_comm_cons, app_assoc in Heq. apply app_inj_tail in Heq as [-> ->].
    by eapply Ht.
Qed.

Lemma topological_acyclic l x : NoDup l -> topological l -> x ∈ l -> ~ tc R x x.
Proof.
  intros Hnd Ht Hx Hc.
  assert (Hkey : forall x y, tc R x y -> forall before after, l = before ++ x :: after -> y ∈ before).
  { clear x Hx Hc. induction 1 as [x y Hr|x y z Hr _ IH]; intros before after Heq.
    - by eapply Ht.
    - pose proof (Ht before x after Heq y Hr) as Hy. apply list_elem_of_split in Hy as (b1 & b2 & ->).
      specialize (IH b1 (b2 ++ x :: after)). rewrite elem_of_app. left. apply IH. rewrite Heq. by rewrite <- app_assoc. }
  apply list_elem_of_split in Hx as (before & after & ->).
  specialize (Hkey x x Hc before after eq_refl). apply NoDup_app in Hnd as (_ & Hdis & _).
  apply (Hdis x Hkey). left.
Qed.
End chains.

(** * Reachability *)

(** [a] depends on [b]. *)
Definition depends (g : Graph) (a b : string) : Prop := b ∈ dependencies g a.

Lemma dependencies_keys g a b : b ∈ dependencies g a -> b ∈ keys g.
Proof.
  unfold dependencies. destruct (dict_get g a) as [n|]; [|set_solver].
  rewrite elem_of_list_to_set, list_elem_of_omap. intros ([k v] & _ & Hv). unfold link_target in Hv. cbn in Hv.
  destruct v; try done. destruct (dict_mem g (link_node l)) eqn:E; [|done]. injection Hv as <-.
  by apply dict_mem_true.
Qed.

Lemma dependencies_source g a b : b ∈ dependencies g a -> a ∈ keys g.
Proof.
  unfold dependencies. destruct (dict_get g a) as [v|] eqn:E; [|set_solver]. intros _.
  apply dict_get_elem in E. apply list_elem_of_fmap. by exists (a, v).
Qed.

Lemma dependency_edge g a b : edge (fun _ => false) (fun n => elements (dependencies g n)) a b <-> depends g a b.
Proof. unfold edge, depends. rewrite elem_of_elements. tauto. Qed.

Lemma reachable_from_spec g targets :
  (forall n, n ∈ reachable_from g targets <-> exists t, t ∈ targets /\ t ∈ keys g /\ rtc (depends g) t n)
  /\ (forall a b, a ∈ reachable_from g targets -> depends g a b -> b ∈ reachable_from g targets).
Proof.
  unfold reachable_from.
  assert (Hall : forall a b, b ∈ elements (dependencies g a) -> a ∈ keys g)
    by (intros a b Hb%elem_of_elements; by eapply dependencies_source).
  split.
  - intros n. rewrite search_from_spec by exact Hall.
    split; intros (t & H1 & H2 & H3); exists t.
    + apply list_elem_of_In, List.filter_In in H1 as [H1 H1']. apply list_elem_of_In in H1. apply dict_mem_true in H1'.
      split_and!; [done..|]. revert H3. by apply rtc_subrel; intros ? ? ?%dependency_edge.
    + split_and!; [|done|revert H3; by apply rtc_subrel; intros ? ? ?%dependency_edge].
      apply list_elem_of_In, List.filter_In. split; [by apply list_elem_of_In|by apply dict_mem_true].
  - intros a b Ha Hab. eapply search_from_closed; [exact Hall|exact Ha|by apply dependency_edge].
Qed.

Lemma reachable_keys g targets n : n ∈ reachable_from g targets -> n ∈ keys g.
Proof.
  intros (t & _ & Ht & Hrt)%(proj1 (reachable_from_spec g targets)).
  apply rtc_inv_r in Hrt as [->|(y & _ & Hy)]; [done|]. by eapply dependencies_keys.
Qed.

(** * Kahn's loop *)

Section kahn.
Variables (g : Graph) (needed : gset string).
Hypothesis Hclosed : forall a b, a ∈ needed -> depends g a b -> b ∈ needed.

(** After a number of rounds: every node knows its dependencies still to come,
    the ready nodes are those with none, and the order so far is right. *)
Record kahn_inv (remaining : gmap string (gset string)) (ready order : list string) : Prop := {
  ki_remaining : forall n, remaining !! n =
    if decide (n ∈ needed) then Some (dependencies g n ∖ list_to_set order) else None;
  ki_ready : forall n, n ∈ ready <-> n ∈ needed /\ n ∉ order /\ dependencies g n ⊆ list_to_set order;
  ki_sorted : NoDup ready;
  ki_order : NoDup order;
  ki_needed : forall n, n ∈ order -> n ∈ needed;
  ki_topological : topological (depends g) order
}.

Lemma kahn_round remaining node_id rest order :
  kahn_inv remaining (node_id :: rest) order ->
  kahn_inv (discard node_id remaining)
    (sorted_set (list_to_set rest ∪ newly_ready node_id (order ++ [node_id]) remaining)) (order ++ [node_id]).
Proof.
  intros [Hrem Hready Hnd Hord Hneed Htop]. apply NoDup_cons in Hnd as [Hnr Hnd].
  destruct (proj1 (Hready node_id)) as (Hin & Hno & Hdeps); [left|].
  assert (Hset : (list_to_set (order ++ [node_id]) : gset string) = list_to_set order ∪ {[node_id]}).
  { rewrite list_to_set_app_L. set_solver. }
  split.
  - intros n. unfold discard. rewrite lookup_fmap, Hrem. destruct (decide (n ∈ needed)); [|done]. cbn. f_equal.
    rewrite Hset. set_solver.
  - intros n. rewrite elem_of_sorted_set, elem_of_union, elem_of_list_to_set. rewrite Hset.
    assert (Hnew : n ∈ newly_ready node_id (order ++ [node_id]) remaining <->
              n ∈ needed /\ node_id ∈ dependencies g n ∖ list_to_set order
              /\ (dependencies g n ∖ list_to_set order) ∖ {[node_id]} = ∅ /\ n ∉ order ++ [node_id]).
    { unfold newly_ready. rewrite elem_of_dom. split.
      - intros [d Hd]. apply map_lookup_filter_Some in Hd as [Hd (H1 & H2 & H3)]. rewrite Hrem in Hd.
        destruct (decide (n ∈ needed)); [|done]. injection Hd as <-. done.
      - intros (H0 & H1 & H2 & H3). exists (dependencies g n ∖ list_to_set order). apply map_lookup_filter_Some.
        rewrite Hrem, decide_True by done. done. }
    rewrite Hnew, not_elem_of_app, list_elem_of_singleton. split.
    + intros [Hr|(H0 & H1 & H2 & H3 & H4)].
      * destruct (proj1 (Hready n)) as (Hn & Hnord & Hd); [by right|]. split_and!; [done|done| |set_solver].
        intros ->. done.
      * split_and!; [done|done|done|]. intros x Hx. destruct (decide (x ∈ (list_to_set order : gset string))); [set_solver|].
        destruct (decide (x = node_id)); [set_solver|]. set_solver.
    + intros (Hn & [Hnord Hne] & Hd). destruct (decide (node_id ∈ dependencies g n)) as [Hdep|Hdep].
      * right. split_and!; [done| |set_solver|done|done]. apply elem_of_difference. split; [done|].
        by rewrite elem_of_list_to_set.
      * left. assert (n ∈ node_id :: rest) as [->|Hr]%elem_of_cons; [|done|done].
        apply Hready. split_and!; [done|done|set_solver].
  - apply NoDup_sorted_set.
  - apply NoDup_app. split_and!; [done| |apply NoDup_singleton]. intros x Hx ->%list_elem_of_singleton. done.
  - intros n [Hn| ->%list_elem_of_singleton]%elem_of_app; auto.
  - apply topological_snoc; [done|]. intros y Hy. specialize (Hdeps y Hy). by apply elem_of_list_to_set in Hdeps.
Qed.

Lemma kahn_loop_spec fuel remaining ready order :
  kahn_inv remaining ready order -> (size needed < fuel + length order)%nat ->
  exists r remaining', kahn_loop fuel remaining ready order = Some r /\ kahn_inv remaining' [] r.
Proof.
  revert remaining ready order. induction fuel as [|fuel IH]; intros remaining ready order Hinv Hf.
  - exfalso. destruct Hinv as [_ _ _ Hord Hneed _]. 
    assert (size (list_to_set order : gset string) <= size needed)%nat as Hle.
    { apply subseteq_size. intros x. rewrite elem_of_list_to_set. apply Hneed. }
    rewrite size_list_to_set in Hle by done. cbn in *. lia.
  - cbn [kahn_loop]. destruct ready as [|node_id rest]; [by exists order, remaining|].
    apply IH; [by apply kahn_round|]. rewrite length_app. cbn. lia.
Qed.

(** When no node is ready, those left over hold a cycle. *)
Lemma kahn_stuck remaining order :
  kahn_inv remaining [] order -> length order <> size needed ->
  exists n, n ∈ needed /\ tc (depends g) n n.
Proof.
  intros [_ Hready _ Hord Hneed _] Hlen. set (left := needed ∖ list_to_set order).
  destruct (finite_successor_cycle (depends g) left) as (x & Hx & Hc).
  - intros Hempty. apply Hlen. rewrite <- (size_list_to_set (C := gset string) order) by done.
    f_equal. apply set_eq. intros n. rewrite elem_of_list_to_set. split; [auto|].
    intros Hn. destruct (decide (n ∈ order)); [done|]. exfalso.
    apply (not_elem_of_empty (C := gset string) n). rewrite <- Hempty. apply elem_of_difference.
    split; [done|]. by rewrite elem_of_list_to_set.
  - intros y [Hy Hyo]%elem_of_difference. rewrite elem_of_list_to_set in Hyo.
    destruct (decide (dependencies g y ⊆ (list_to_set order : gset string))) as [Hs|Hs].
    { exfalso. apply (not_elem_of_nil y). by apply Hready. }
    destruct (decide (dependencies g y ∖ (list_to_set order : gset string) = ∅)) as [He|He];
      [by apply empty_difference_subseteq_L in He|].
    apply set_choose_L in He as [z [Hz Hzo]%elem_of_difference]. exists z. split; [|done].
    apply elem_of_difference. split; [by eapply Hclosed|done].
  - exists x. split; [set_solver|done].
Qed.
End kahn.

Lemma kahn_initial g targets :
  let needed := reachable_from g targets in
  kahn_inv g needed (dependency_map g targets) (sorted_set (initially_ready (dependency_map g targets))) [].
Proof.
  intros needed. pose proof (proj2 (reachable_from_spec g targets)) as Hcl. fold needed in Hcl.
  assert (Hmap : forall n, dependency_map g targets !! n
            = if decide (n ∈ needed) then Some (dependencies g n) else None).
  { intros n. unfold dependency_map. fold needed. destruct (decide (n ∈ needed)) as [Hn|Hn].
    - apply lookup_set_to_map; [by intros ? ? _ _ ?|]. exists n. split; [done|]. f_equal.
      apply set_eq. intros x. rewrite elem_of_intersection. split; [by intros []|]. intros Hx. split; [done|]. by eapply Hcl.
    - apply eq_None_not_Some. intros [d Hd]. apply lookup_set_to_map in Hd as (m & Hm & [= -> _]); [done|]. by intros ? ? _ _ ?. }
  split.
  - intros n. rewrite Hmap. destruct (decide (n ∈ needed)); [|done]. f_equal. set_solver.
  - intros n. rewrite elem_of_sorted_set. unfold initially_ready. rewrite elem_of_dom. split.
    + intros [d Hd]. apply map_lookup_filter_Some in Hd as [Hd He]. rewrite Hmap in Hd.
      destruct (decide (n ∈ needed)); [|done]. injection Hd as <-. cbn in He. rewrite He. split_and!; [done|apply not_elem_of_nil|set_solver].
    + intros (Hn & _ & Hd). exists (dependencies g n). apply map_lookup_filter_Some. rewrite Hmap, decide_True by done.
      split; [done|]. cbn. set_solver.
  - apply NoDup_sorted_set.
  - constructor.
  - by intros n ?%not_elem_of_nil.
  - intros before x after Heq. by destruct before.
Qed.

(** * The search for a cycle *)

(** A closed walk: it starts and ends at one node and follows dependencies. *)
Definition is_cycle (g : Graph) (c : list string) : Prop :=
  exists x mid, c = x :: mid ++ [x] /\ chain (depends g) x (mid ++ [x]).

Section search.
Variable g : Graph.

(** Path, colours and the finished nodes in the order they finished. *)
Record dfs_inv (st : dfs) (finished : list string) : Prop := {
  di_nodes : forall n, is_Some (colors st !! n) <-> n ∈ node_set g;
  di_gray : forall n, colors st !! n = Some Gray <-> n ∈ path st;
  di_path : match path st with [] => True | x :: p => chain (depends g) x p end;
  di_path_nodup : NoDup (path st);
  di_black : forall n, colors st !! n = Some Black <-> n ∈ finished;
  di_nodup : NoDup finished;
  di_topological : topological (depends g) finished
}.

Definition whites (st : dfs) : gset string := dom (filter (fun p : string * color => p.2 = White) (colors st)).

Lemma elem_of_whites st n : n ∈ whites st <-> colors st !! n = Some White.
Proof.
  unfold whites. rewrite elem_of_dom. split.
  - intros [c Hc]. apply map_lookup_filter_Some in Hc as [Hc Hw]. cbn in Hw. by subst c.
  - intros Hc. exists White. by apply map_lookup_filter_Some.
Qed.

Lemma chain_snoc x p n : 
  chain (depends g) x p -> (forall l, list.last (x :: p) = Some l -> depends g l n) -> chain (depends g) x (p ++ [n]).
Proof.
  revert x. induction p as [|y p IH]; intros x Hc Hl; cbn in *; [split; [by apply Hl|done]|].
  destruct Hc. split; [done|]. by apply IH.
Qed.

(** The stretch of the path from a gray node, closed by it, is a cycle. *)
Lemma from_node_cycle d p last :
  (match p with [] => True | x :: p' => chain (depends g) x p' end) ->
  d ∈ p -> list.last p = Some last -> depends g last d -> is_cycle g (from_node d p ++ [d]).
Proof.
  induction p as [|x p IH]; intros Hc Hd Hl Hdep; [by apply not_elem_of_nil in Hd|]. cbn [from_node].
  destruct (String.eqb_spec x d) as [->|Hne].
  - exists d, p. split; [done|]. apply chain_snoc; [done|]. intros l Hl'. congruence.
  - apply IH; [by destruct p; [|destruct Hc]|by apply elem_of_cons in Hd as [->|]| |done].
    destruct p; [|done]. apply elem_of_cons in Hd as [->|?%not_elem_of_nil]; done.
Qed.

Definition good_visit (st : dfs) (finished : list string) (r : option (option (list string) * dfs))
  (post : dfs -> list string -> Prop) : Prop :=
  match r with
  | None => False
  | Some (Some c, _) => is_cycle g c
  | Some (None, st') => exists finished', dfs_inv st' finished' /\ path st' = path st
      /\ finished `prefix_of` finished' /\ whites st' ⊆ whites st /\ post st' finished'
  end.

(** Putting a white node on the path. *)
Lemma enter_inv st finished n :
  dfs_inv st finished -> colors st !! n = Some White ->
  (forall l, list.last (path st) = Some l -> depends g l n) ->
  dfs_inv (mkDfs (<[n := Gray]> (colors st)) (path st ++ [n])) finished.
Proof.
  intros [Hnodes Hgray Hpath Hpn Hblack Hnd Htop] Hw Hl.
  assert (Hnp : n ∉ path st) by (intros Hn%Hgray; congruence).
  assert (Hnf : n ∉ finished) by (intros Hn%Hblack; congruence).
  split; cbn [colors path]; try done.
  - intros m. destruct (decide (m = n)) as [->|Hne].
    + rewrite lookup_insert_eq. split; [intros _; apply Hnodes; by eexists|by eexists].
    + rewrite lookup_insert_ne by done. apply Hnodes.
  - intros m. rewrite elem_of_app, list_elem_of_singleton. destruct (decide (m = n)) as [->|Hne].
    + rewrite lookup_insert_eq. tauto.
    + rewrite lookup_insert_ne by done. rewrite Hgray. tauto.
  - destruct (path st) as [|x p]; [done|]. cbn. by apply chain_snoc.
  - apply NoDup_app. split_and!; [done| |apply NoDup_singleton]. intros x Hx ->%list_elem_of_singleton. done.
  - intros m. destruct (decide (m = n)) as [->|Hne].
    + rewrite lookup_insert_eq. split; [done|]. intros Hm. done.
    + rewrite lookup_insert_ne by done. apply Hblack.
Qed.

(** Finishing the top of the path once its dependencies are. *)
Lemma leave_inv st finished p n :
  dfs_inv st finished -> path st = p ++ [n] -> (forall d, d ∈ dependencies g n -> d ∈ finished) ->
  dfs_inv (mkDfs (<[n := Black]> (colors st)) p) (finished ++ [n]).
Proof.
  intros [Hnodes Hgray Hpath Hpn Hblack Hnd Htop] Hp Hd. rewrite Hp in *.
  assert (Hgn : colors st !! n = Some Gray) by (apply Hgray; set_solver).
  assert (Hnf : n ∉ finished) by (intros Hn%Hblack; congruence).
  apply NoDup_app in Hpn as (Hpn & Hdis & _).
  split; cbn [colors path].
  - intros m. destruct (decide (m = n)) as [->|Hne].
    + rewrite lookup_insert_eq. split; [intros _; apply Hnodes; by eexists|by eexists].
    + rewrite lookup_insert_ne by done. apply Hnodes.
  - intros m. destruct (decide (m = n)) as [->|Hne].
    + rewrite lookup_insert_eq. split; [done|]. intros Hm. destruct (Hdis n Hm). left.
    + rewrite lookup_insert_ne by done. rewrite Hgray, elem_of_app, list_elem_of_singleton. tauto.
  - destruct p as [|x p]; [done|]. cbn in Hpath. clear -Hpath. revert x Hpath.
    induction p as [|y p IH]; intros x; cbn; [done|]. intros []. split; [done|]. by apply IH.
  - done.
  - intros m. rewrite elem_of_app, list_elem_of_singleton. destruct (decide (m = n)) as [->|Hne].
    + rewrite lookup_insert_eq. tauto.
    + rewrite lookup_insert_ne by done. rewrite Hblack. tauto.
  - apply NoDup_app. split_and!; [done| |apply NoDup_singleton]. intros x Hx ->%list_elem_of_singleton. done.
  - apply topological_snoc; [done|]. exact Hd.
Qed.

(** The loop over dependencies, for a visit that is right on white nodes. *)
Lemma visit_deps_spec rec ds st finished k top :
  (forall d st' finished', dfs_inv st' finished' -> colors st' !! d = Some White -> depends g top d ->
     list.last (path st') = Some top -> (size (whites st') <= k)%nat ->
     good_visit st' finished' (rec d st') (fun _ f' => d ∈ f')) ->
  dfs_inv st finished -> list.last (path st) = Some top -> (size (whites st) <= k)%nat ->
  Forall (depends g top) ds ->
  good_visit st finished (visit_deps rec ds st) (fun _ f' => forall d, d ∈ ds -> d ∈ f').
Proof.
  intros Hrec. revert st finished. induction ds as [|d ds IH]; intros st finished Hinv Hlast Hk Hds; cbn [visit_deps].
  { exists finished. split_and!; try done. by intros d ?%not_elem_of_nil. }
  apply Forall_cons in Hds as [Hd Hds].
  assert (Hcol : is_Some (colors st !! d)).
  { destruct Hinv as [Hn _ _ _ _ _ _]. apply Hn. unfold node_set. rewrite elem_of_list_to_set. by eapply dependencies_keys. }
  destruct Hcol as [[] Hcol]; rewrite Hcol.
  - specialize (Hrec d st finished Hinv Hcol Hd Hlast Hk). unfold good_visit in Hrec |- *.
    destruct (rec d st) as [[[c|] st']|]; cbn [mbind option_bind]; [done| |done].
    destruct Hrec as (f' & Hinv' & Hp' & Hpre & Hw & Hdf).
    assert (Hk' : (size (whites st') <= k)%nat) by (pose proof (subseteq_size _ _ Hw); lia).
    specialize (IH st' f' Hinv' ltac:(by rewrite Hp') Hk' Hds). unfold good_visit in IH.
    destruct (visit_deps rec ds st') as [[[c|] st2]|]; [done| |done].
    destruct IH as (f2 & Hinv2 & Hp2 & Hpre2 & Hw2 & Hall). exists f2. split_and!; [done|congruence|by etrans|by etrans|].
    intros x [->|Hx]%elem_of_cons; [|by apply Hall]. destruct Hpre2 as [e ->]. set_solver.
  - cbn. destruct Hinv as [_ Hgray Hpath _ _ _ _]. eapply from_node_cycle; [done|by apply Hgray|done|done].
  - specialize (IH st finished Hinv Hlast Hk Hds). unfold good_visit in *.
    destruct (visit_deps rec ds st) as [[[c|] st2]|]; [done| |done].
    destruct IH as (f2 & Hinv2 & Hp2 & Hpre2 & Hw2 & Hall). exists f2. split_and!; try done.
    intros x [->|Hx]%elem_of_cons; [|by apply Hall]. destruct Hinv as [_ _ _ _ Hblack _ _].
    apply Hblack in Hcol. destruct Hpre2 as [e ->]. set_solver.
Qed.

Lemma visit_spec fuel n st finished :
  dfs_inv st finished -> colors st !! n = Some White ->
  (forall l, list.last (path st) = Some l -> depends g l n) -> (size (whites st) < fuel)%nat ->
  good_visit st finished (visit g fuel n st) (fun _ f' => n ∈ f').
Proof.
  revert n st finished. induction fuel as [|fuel IH]; intros n st finished Hinv Hw Hl Hf; [lia|]. cbn [visit].
  set (st1 := mkDfs (<[n := Gray]> (colors st)) (path st ++ [n])).
  assert (Hinv1 : dfs_inv st1 finished) by (by apply enter_inv).
  assert (Hw1 : whites st1 ⊆ whites st ∖ {[n]}).
  { intros m. rewrite elem_of_whites. unfold st1; cbn. destruct (decide (m = n)) as [->|Hne].
    - by rewrite lookup_insert_eq.
    - rewrite lookup_insert_ne by done. intros Hm. apply elem_of_difference. rewrite elem_of_whites. set_solver. }
  assert (Hsz : (size (whites st1) < size (whites st))%nat).
  { assert (n ∈ whites st) as Hn by by apply elem_of_whites.
    assert (size (whites st ∖ {[n]}) < size (whites st))%nat; [|pose proof (subseteq_size _ _ Hw1); lia].
    apply subset_size. set_solver. }
  assert (Hlast1 : list.last (path st1) = Some n) by (unfold st1; cbn; apply last_snoc).
  pose proof (visit_deps_spec (visit g fuel) (sorted_set (dependencies g n)) st1 finished (size (whites st1)) n) as Hdeps.
  specialize (Hdeps ltac:(intros d st' f' Hi Hc Hd Hla Hs; apply IH; [done|done|by intros l [= <-]%(eq_trans (eq_sym Hla))|lia])
    Hinv1 Hlast1 ltac:(done) ltac:(apply Forall_forall; intros d Hd; by apply elem_of_sorted_set in Hd)).
  unfold good_visit in Hdeps |- *.
  destruct (visit_deps (visit g fuel) (sorted_set (dependencies g n)) st1) as [[[c|] st']|]; cbn [mbind option_bind]; [done| |done].
  destruct Hdeps as (f' & Hinv' & Hp' & Hpre & Hw' & Hall).
  assert (Hpath' : path st' = path st ++ [n]) by (by rewrite Hp').
  assert (take (length (path st') - 1) (path st') = path st) as ->.
  { rewrite Hpath', length_app. cbn. rewrite Nat.add_sub. apply take_app_length. }
  exists (f' ++ [n]). split_and!; [|done| | |set_solver].
  - eapply leave_inv; [done|done|]. intros d Hd. apply Hall, elem_of_sorted_set. done.
  - etrans; [done|by eexists].
  - intros m. rewrite !elem_of_whites. cbn. destruct (decide (m = n)) as [->|Hne]; [by rewrite lookup_insert_eq|].
    rewrite lookup_insert_ne by done. intros Hm. apply elem_of_whites, Hw', elem_of_whites in Hm as Hm'.
    apply elem_of_whites in Hm'. apply Hw1 in Hm'. apply elem_of_difference in Hm' as [Hm' _]. by apply elem_of_whites.
Qed.

Lemma find_cycle_loop_spec fuel nodes st finished :
  dfs_inv st finished -> path st = [] -> (size (whites st) < fuel)%nat ->
  (forall n, n ∈ node_set g -> n ∈ nodes \/ n ∈ finished) -> Forall (.∈ node_set g) nodes ->
  match find_cycle_loop g fuel nodes st with
  | Some c => is_cycle g c
  | None => exists l, NoDup l /\ topological (depends g) l /\ forall n, n ∈ node_set g -> n ∈ l
  end.
Proof.
  revert st finished. induction nodes as [|n nodes IH]; intros st finished Hinv Hp Hf Hcov Hin; cbn [find_cycle_loop].
  { exists finished. destruct Hinv. split_and!; try done. intros n Hn. by destruct (Hcov n Hn) as [?%not_elem_of_nil|]. }
  apply Forall_cons in Hin as [Hn Hin]. destruct (decide (colors st !! n = Some White)) as [Hw|Hw].
  - pose proof (visit_spec fuel n st finished Hinv Hw ltac:(by rewrite Hp) Hf) as Hv. unfold good_visit in Hv.
    destruct (visit g fuel n st) as [[[c|] st']|]; [done| |done].
    destruct Hv as (f' & Hinv' & Hp' & Hpre & Hws & Hnf). eapply IH; [done|congruence| | |done].
    + pose proof (subseteq_size _ _ Hws). lia.
    + intros m Hm. destruct (Hcov m Hm) as [[->|]%elem_of_cons|]; [by right|by left|right].
      destruct Hpre as [e ->]. set_solver.
  - eapply IH; [done|done|done| |done]. intros m Hm. destruct (Hcov m Hm) as [[->|]%elem_of_cons|]; [|by left|by right].
    right. destruct Hinv as [Hnodes Hgray _ _ Hblack _ _]. apply Hnodes in Hn as [[] Hc].
    + done.
    + apply Hgray in Hc. rewrite Hp in Hc. by apply not_elem_of_nil in Hc.
    + by apply Hblack.
Qed.
End search.

Lemma initial_inv g : dfs_inv g (mkDfs (set_to_map (fun n => (n, White)) (node_set g)) []) [].
Proof.
  assert (Hmap : forall n, (set_to_map (fun n => (n, White)) (node_set g) : gmap string color) !! n
            = if decide (n ∈ node_set g) then Some White else None).
  { intros n. destruct (decide (n ∈ node_set g)) as [Hn|Hn].
    - apply lookup_set_to_map; [by intros ? ? _ _ ?|]. by exists n.
    - apply eq_None_not_Some. intros [c Hc]. apply lookup_set_to_map in Hc as (m & Hm & [= -> _]); [done|]. by intros ? ? _ _ ?. }
  split; cbn [colors path]; try done.
  - intros n. rewrite Hmap. destruct (decide (n ∈ node_set g)); split; done.
  - intros n. rewrite Hmap. destruct (decide (n ∈ node_set g)); split; try done; by intros ?%not_elem_of_nil.
  - constructor.
  - intros n. rewrite Hmap. destruct (decide (n ∈ node_set g)); split; try done; by intros ?%not_elem_of_nil.
  - constructor.
  - intros before x after Heq. by destruct before.
Qed.

(** * What the planner and the search answer *)

Lemma plan_spec g targets :
  match plan g targets with
  | Ok order =>
      NoDup order
      /\ (forall n, n ∈ order <-> exists t, t ∈ targets /\ t ∈ keys g /\ rtc (depends g) t n)
      /\ topological (depends g) order
  | Err _ => exists n, (exists t, t ∈ targets /\ t ∈ keys g /\ rtc (depends g) t n) /\ tc (depends g) n n
  end
  /\ (is_ok (plan g targets) = true <->
      forall n t, t ∈ targets -> t ∈ keys g -> rtc (depends g) t n -> ~ tc (depends g) n n).
Proof.
  pose proof (reachable_from_spec g targets) as [Hreach Hcl].
  pose proof (kahn_initial g targets) as Hinit. cbn zeta in Hinit.
  unfold plan. set (needed := reachable_from g targets) in *.
  destruct (kahn_loop_spec g needed Hcl (S (size needed)) _ _ _ Hinit) as (order & rem & Hrun & Hinv); [cbn; lia|].
  rewrite Hrun. cbn [default from_option id]. destruct (Nat.eqb_spec (length order) (size needed)) as [Hlen|Hlen].
  - destruct Hinv as [_ _ _ Hnd Hneed Htop].
    assert (Hall : forall n, n ∈ order <-> n ∈ needed).
    { intros n. split; [apply Hneed|]. intros Hn.
      assert ((list_to_set order : gset string) = needed) as Heq.
      { apply set_subseteq_size_eq; [|rewrite size_list_to_set by done; lia].
        intros x. rewrite elem_of_list_to_set. apply Hneed. }
      rewrite <- Heq in Hn. by apply elem_of_list_to_set in Hn. }
    split.
    + split_and!; [done| |done]. intros n. by rewrite Hall, Hreach.
    + split; [|done]. intros _ n t Ht Hk Hrt. apply (topological_acyclic (depends g) order n Hnd Htop).
      apply Hall, Hreach. eauto.
  - destruct (kahn_stuck g needed Hcl _ _ Hinv Hlen) as (n & Hn & Hc). apply Hreach in Hn as Hn'.
    split; [by exists n|]. split; [done|]. intros H. exfalso. destruct Hn' as (t & Ht & Hk & Hrt). by eapply H.
Qed.

Lemma find_cycle_spec g :
  match find_cycle g with
  | Some c => is_cycle g c
  | None => forall n, ~ tc (depends g) n n
  end.
Proof.
  unfold find_cycle.
  set (st := mkDfs (set_to_map (fun n => (n, White)) (node_set g)) []).
  pose proof (find_cycle_loop_spec g (S (size (node_set g))) (sorted_set (node_set g)) st [] (initial_inv g) eq_refl) as H.
  assert (Hw : (size (whites st) < S (size (node_set g)))%nat).
  { assert (size (whites st) <= size (node_set g))%nat; [|lia]. apply subseteq_size. intros n Hn%elem_of_whites.
    destruct (initial_inv g) as [Hnodes _ _ _ _ _ _]. apply Hnodes. by exists White. }
  specialize (H Hw ltac:(intros n Hn; left; by apply elem_of_sorted_set)
    ltac:(apply Forall_forall; intros n Hn; by apply elem_of_sorted_set in Hn)).
  destruct (find_cycle_loop _ _ _ _); [done|]. destruct H as (l & Hnd & Htop & Hall). intros n Hc.
  apply (topological_acyclic (depends g) l n Hnd Htop); [|done]. apply Hall. unfold node_set.
  rewrite elem_of_list_to_set. inversion Hc as [? ? Hd|? y ? Hd _]; subst; by eapply dependencies_source.
Qed.

Lemma find_cycle_none g : find_cycle g = None <-> forall n, ~ tc (depends g) n n.
Proof.
  pose proof (find_cycle_spec g) as H. destruct (find_cycle g) as [c|]; [|done]. split; [done|]. intros Hac. exfalso.
  destruct H as (x & mid & _ & Hc). apply (Hac x). eapply chain_tc; [exact Hc|]. apply elem_of_app. right. by left.
Qed.

(** * Properties *)

(** C10: A plan runs exactly what the targets need, dependencies first: when it
    succeeds it lists every node some target reaches, each once, every
    dependency before its dependents; it fails exactly when a needed node
    depends on itself through links. *)
Theorem plan_is_a_topological_order g targets :
  match plan g targets with
  | Ok order =>
      NoDup order
      /\ (forall n, n ∈ order <-> exists t, t ∈ targets /\ t ∈ keys g /\ rtc (depends g) t n)
      /\ topological (depends g) order
  | Err _ => exists n, (exists t, t ∈ targets /\ t ∈ keys g /\ rtc (depends g) t n) /\ tc (depends g) n n
  end
  /\ (is_ok (plan g targets) = true <->
      forall n t, t ∈ targets -> t ∈ keys g -> rtc (depends g) t n -> ~ tc (depends g) n n).
Proof. apply plan_spec. Qed.

(** The cycle search is exact: a path it answers is a closed walk along
    dependencies, and when it answers none no node of the graph depends on
    itself; its fuel suffices for every graph. *)
Theorem find_cycle_exact g :
  match find_cycle g with
  | Some c => is_cycle g c
  | None => forall n, ~ tc (depends g) n n
  end.
Proof. apply find_cycle_spec. Qed.
