(* ===== verification/Loops.v ===== *)
(** Loops: pairing of the loop boundaries of a graph level
    (dinkster_graph/validate.py, [validate_loops]). Diagnostics keep their
    severity, code and anchors; the messages are not modelled. *)
From S2P Require Import Prelude PyStr Graph Search Plan.

Local Open Scope string_scope.
Local Open Scope list_scope.

(** * Diagnostics *)

Inductive Severity := SevError | SevWarning.

#[export] Instance Severity_eq_dec : EqDecision Severity.
Proof. solve_decision. Defined.

Record Diagnostic := mkDiag {
  d_severity : Severity;
  d_code : string;
  d_node_id : option string;
  d_input_id : option string
}.

#[export] Instance Diagnostic_eq_dec : EqDecision Diagnostic.
Proof. solve_decision. Defined.

Definition is_error (d : Diagnostic) : bool := match d_severity d with SevError => true | SevWarning => false end.
Definition has_errors (diags : list Diagnostic) : bool := existsb is_error diags.

(** * Pairing *)

Record LoopPair := mkPair { end_id : string; loop_body : list string }.

Definition is_type (g : Graph) (t key : string) : bool :=
  match dict_get g key with Some (NodeOf n) => String.eqb (node_type n) t | _ => false end.

Definition of_type (g : Graph) (t : string) (known : list string) : gset string :=
  list_to_set (List.filter (fun key => is_type g t key && negb (bool_decide (key ∈ known))) (keys g)).

(** What the pairing made of the boundaries. *)
Inductive pairing :=
| Cyclic
| Refused (d : Diagnostic)
| Paired (unmatched : gset string) (matched : list (string * string)).

Definition loop_error (code node_id : string) : Diagnostic := mkDiag SevError ("loop." +:+ code) (Some node_id) None.

Section loops.
Variables (g : Graph) (targets : list string) (known : list (string * LoopPair)).

Definition starts : gset string := of_type g "StartLoop" (keys known).
Definition ends : gset string := of_type g "EndLoop" (map (fun kp => end_id kp.2) known).

Definition parents (key : string) : gset string := dependencies g key.
Definition children (key : string) : gset string := filter (fun k => key ∈ dependencies g k) (node_set g).

(** [walk], and what of it with [boundaries=True]: a node of [stops] is
    visited, but nothing is pushed for it. *)
Definition walk (seeds : gset string) (edges : string -> gset string) (stops : gset string) : gset string :=
  search_from (fun _ => false) (fun key => if decide (key ∈ stops) then [] else elements (edges key)) (keys g)
    (elements seeds).

Definition boundaries (seeds : gset string) (edges : string -> gset string) (stops : gset string) : gset string :=
  walk seeds edges stops ∩ stops.

Definition terminal : gset string :=
  list_to_set (List.filter (fun key => bool_decide (key ∈ keys g) && bool_decide (children key = ∅)) targets).

Definition start_edges (key : string) : gset string :=
  if decide (key ∈ starts) then boundaries (children key) children starts else ∅.
Definition descendants (key : string) : gset string := walk (start_edges key) start_edges ∅.
Definition end_edges (key : string) : gset string := boundaries (parents key) parents ends.

Definition leaves (remaining : gset string) : list string :=
  sorted_set (filter (fun key => end_edges key ∩ remaining = ∅) remaining).

Definition candidates (e : string) (available : gset string) : gset string := boundaries (parents e) parents available.

Definition closest (cs : gset string) : gset string :=
  filter (fun c => forall other, other ∈ cs -> other = c \/ c ∈ descendants other) cs.

Definition escapes (s e : string) (remaining : gset string) : gset string :=
  boundaries (children s) children (remaining ∪ terminal ∪ {[e]}) ∖ {[e]}.

Fixpoint pair_loop (fuel : nat) (available remaining : gset string) (matched : list (string * string)) : option pairing :=
  match fuel with
  | O => None
  | S fuel' =>
      if decide (remaining = ∅) then Some (Paired available matched)
      else match leaves remaining with
           | [] => Some Cyclic
           | e :: _ =>
               let cs := candidates e available in
               if decide (cs = ∅) then Some (Refused (loop_error "unmatchedEnd" e))
               else match elements (closest cs) with
                    | [s] =>
                        let remaining' := remaining ∖ {[e]} in
                        if decide (escapes s e remaining' = ∅)
                        then pair_loop fuel' (available ∖ {[s]}) remaining' (matched ++ [(s, e)])
                        else Some (Refused (loop_error "bodyEscape" s))
                    | _ => Some (Refused (loop_error "ambiguousNesting" e))
                    end
           end
  end.

(** A round but the last matches an end. *)
Definition pair_boundaries : pairing := default Cyclic (pair_loop (S (size ends)) starts ends []).

Definition body_of (s e : string) : gset string := walk (children s) children {[e]} ∖ {[e]}.

(** [graph.nodes[end].inputs.get("accumulate")], when it is a link. *)
Definition accumulate_source (e : string) : option string :=
  match dict_get g e with
  | Some n => match dict_get (inputs_of n) "accumulate" with Some (GLink l) => Some (link_node l) | _ => None end
  | None => None
  end.

Definition accumulates_from (e : string) (body : gset string) : bool :=
  match accumulate_source e with Some n => bool_decide (n ∈ body) | None => false end.

Fixpoint close_loops (matched : list (string * string)) : result Diagnostic (list (string * LoopPair)) :=
  match matched with
  | [] => Ok []
  | (s, e) :: rest =>
      if accumulates_from e (body_of s e ∪ {[s]}) then Err (loop_error "accumulateFromBody" e)
      else r ← close_loops rest; Ok ((s, mkPair e (sorted_set (body_of s e))) :: r)
  end.

Definition validate_loops : list (string * LoopPair) * list Diagnostic :=
  if decide (starts = ∅ /\ ends = ∅) then ([], [])
  else match pair_boundaries with
       | Cyclic => ([], [])
       | Refused d => ([], [d])
       | Paired unmatched matched =>
           match sorted_set unmatched with
           | first :: _ => ([], [loop_error "unmatchedStart" first])
           | [] => match close_loops matched with
                   | Err d => ([], [d])
                   | Ok pairs => (pairs, [])
                   end
           end
       end.
End loops.

(** * Paths of a graph level *)

(** [b] takes an input from [a]. *)
Definition flows (g : Graph) (a b : string) : Prop := depends g b a.

Lemma tc_flows g a b : tc (flows g) a b <-> tc (depends g) b a.
Proof.
  split; (induction 1 as [|x y z Hxy _ IH]; [by apply tc_once|]); (eapply tc_r; [exact IH|exact Hxy]).
Qed.

Lemma elem_of_children g a b : b ∈ children g a <-> flows g a b.
Proof.
  unfold children, flows, depends. rewrite elem_of_filter. split; [by intros []|]. intros Hd. split; [done|].
  apply elem_of_list_to_set. by eapply dependencies_source.
Qed.

Lemma flows_source g a b : flows g a b -> a ∈ keys g.
Proof. apply dependencies_keys. Qed.

Section walks.
Variables (g : Graph) (targets : list string) (known : list (string * LoopPair)).
Notation starts := (starts g known).
Notation ends := (ends g known).

Section spec.
Variables (edges : string -> gset string) (R : string -> string -> Prop).
Hypothesis Hedges : forall a b, b ∈ edges a <-> R a b.
Hypothesis Hkeys : forall a b, R a b -> a ∈ keys g.

Lemma walk_edge stops a b :
  edge (fun _ => false) (fun key => if decide (key ∈ stops) then [] else elements (edges key)) a b <-> step_off R stops a b.
Proof.
  unfold edge, step_off. destruct (decide (a ∈ stops)).
  - split; [by intros [?%not_elem_of_nil _]|by intros []].
  - rewrite elem_of_elements, Hedges. tauto.
Qed.

Lemma elem_of_walk seeds stops n :
  n ∈ walk g seeds edges stops <-> exists t, t ∈ seeds /\ rtc (step_off R stops) t n.
Proof.
  unfold walk. rewrite search_from_spec.
  - setoid_rewrite elem_of_elements. split; intros (t & Ht & Hr); exists t.
    + destruct Hr as [_ Hr]. split; [done|]. revert Hr. by apply rtc_subrel; intros ? ? ?%walk_edge.
    + split_and!; [done|done|]. revert Hr. by apply rtc_subrel; intros ? ? ?%walk_edge.
  - intros a b. destruct (decide (a ∈ stops)); [by intros ?%not_elem_of_nil|]. rewrite elem_of_elements, Hedges. apply Hkeys.
Qed.

Lemma elem_of_walk_from a stops n : n ∈ walk g (edges a) edges stops <-> below R stops a n.
Proof.
  rewrite elem_of_walk. unfold below. split; intros (c & Hc & Hr); exists c; (split; [by apply Hedges|done]).
Qed.

Lemma elem_of_boundaries a stops n : n ∈ boundaries g (edges a) edges stops <-> n ∈ stops /\ below R stops a n.
Proof. unfold boundaries. rewrite elem_of_intersection, elem_of_walk_from. tauto. Qed.
End spec.

Lemma elem_of_body s e n : n ∈ body_of g s e <-> n <> e /\ below (flows g) {[e]} s n.
Proof.
  unfold body_of. rewrite elem_of_difference, (elem_of_walk_from (children g) (flows g) (elem_of_children g) (flows_source g)).
  set_solver.
Qed.

Lemma elem_of_escapes s e remaining n :
  n ∈ escapes g targets s e remaining <->
  n <> e /\ n ∈ remaining ∪ terminal g targets ∪ {[e]} /\ below (flows g) (remaining ∪ terminal g targets ∪ {[e]}) s n.
Proof.
  unfold escapes. rewrite elem_of_difference, (elem_of_boundaries (children g) (flows g) (elem_of_children g) (flows_source g)).
  set_solver.
Qed.

Lemma elem_of_candidates e available n :
  n ∈ candidates g e available <-> n ∈ available /\ below (depends g) available e n.
Proof. apply (elem_of_boundaries (parents g) (depends g)); [done|]. intros a b. apply dependencies_source. Qed.

Lemma elem_of_end_edges e n : n ∈ end_edges g known e <-> n ∈ ends /\ below (depends g) ends e n.
Proof. apply (elem_of_boundaries (parents g) (depends g)); [done|]. intros a b. apply dependencies_source. Qed.

Lemma start_edges_flow a b : b ∈ start_edges g known a -> tc (flows g) a b.
Proof.
  unfold start_edges. destruct (decide (a ∈ starts)); [|set_solver].
  intros [_ Hb]%(elem_of_boundaries (children g) (flows g) (elem_of_children g) (flows_source g)). by eapply below_tc.
Qed.

Lemma start_edges_keys a b : b ∈ start_edges g known a -> a ∈ keys g.
Proof.
  intros Hf%start_edges_flow. destruct Hf as [? ? Hd|? y ? Hd _]; by eapply flows_source.
Qed.

Lemma descendants_flow a b : b ∈ descendants g known a -> tc (flows g) a b.
Proof.
  intros (c & Hac%start_edges_flow & Hcb)%(elem_of_walk (start_edges g known) (fun a b => b ∈ start_edges g known a));
    [|done|exact start_edges_keys].
  apply off_rtc in Hcb. clear -Hac Hcb. induction Hcb as [c|c d b Hcd _ IH]; [done|].
  apply IH. etrans; [exact Hac|]. by apply start_edges_flow.
Qed.

(** * The pairing *)

Lemma closest_last e available s :
  s ∈ closest g known (candidates g e available) ->
  s ∈ available /\ tc (flows g) s e /\ forall x, x ∈ available -> tc (flows g) x e -> x = s \/ tc (flows g) x s.
Proof.
  intros [Hall [Hs Hse]%elem_of_candidates]%elem_of_filter. split_and!; [done|apply tc_flows; by eapply below_tc|].
  intros x Hx Hxe%tc_flows%tc_below.
  destruct (first_hit (depends g) ∅ available e x Hxe Hx) as (m & Hm & Hem & Hmx).
  assert (Hxm : rtc (flows g) x m).
  { apply off_rtc in Hmx. clear -Hmx. induction Hmx as [|a b c Hab _ IH]; [done|]. eapply rtc_r; [exact IH|exact Hab]. }
  assert (Hmc : m ∈ candidates g e available).
  { apply elem_of_candidates. by rewrite union_empty_l_L in Hem. }
  destruct (Hall m Hmc) as [->|Hd%descendants_flow].
  - apply rtc_tc in Hxm as [|]; auto.
  - right. by eapply tc_rtc_l.
Qed.

Lemma nothing_escapes s e remaining :
  escapes g targets s e remaining = ∅ ->
  forall x, x ∈ remaining ∪ terminal g targets -> x <> e -> ~ below (flows g) {[e]} s x.
Proof.
  intros Hesc x Hx Hne Hb.
  destruct (first_hit (flows g) {[e]} (remaining ∪ terminal g targets ∪ {[e]}) s x Hb) as (m & Hm & Hsm & Hmx); [set_solver|].
  rewrite subseteq_union_1_L in Hsm by set_solver.
  assert (m = e) as ->.
  { destruct (decide (m = e)); [done|]. exfalso. apply (not_elem_of_empty (C := gset string) m). rewrite <- Hesc.
    by apply elem_of_escapes. }
  apply rtc_inv in Hmx as [|(y & [Hy _] & _)]; [congruence|set_solver].
Qed.

(** What matching a pair first says of a pair matched later. *)
Definition before_ok (p1 p2 : string * string) : Prop :=
  ~ below (flows g) {[p1.2]} p1.1 p2.2
  /\ (tc (flows g) p2.1 p1.2 -> tc (flows g) p2.1 p1.1)
  /\ ~ tc (flows g) p2.2 p1.2.

Record pair_inv (available remaining : gset string) (matched : list (string * string)) : Prop := {
  pi_starts : forall s, s ∈ starts <-> s ∈ available \/ s ∈ map fst matched;
  pi_ends : forall e, e ∈ ends <-> e ∈ remaining \/ e ∈ map snd matched;
  pi_available : forall s, s ∈ available -> s ∉ map fst matched;
  pi_remaining : forall e, e ∈ remaining -> e ∉ map snd matched;
  pi_nodup : NoDup (map fst matched) /\ NoDup (map snd matched);
  pi_flow : forall p, p ∈ matched -> tc (flows g) p.1 p.2
    /\ forall t, t ∈ terminal g targets -> t <> p.2 -> ~ below (flows g) {[p.2]} p.1 t;
  pi_future : forall p s e, p ∈ matched -> s ∈ available -> e ∈ remaining -> before_ok p (s, e);
  pi_past : ForallOrdPairs before_ok matched
}.

Hypothesis Hacyclic : forall n, ~ tc (depends g) n n.

Lemma flow_acyclic n : ~ tc (flows g) n n.
Proof. rewrite tc_flows. apply Hacyclic. Qed.

Lemma leaf_first available remaining matched e e' s :
  pair_inv available remaining matched -> s ∈ available ->
  e ∈ leaves g known remaining -> e' ∈ remaining -> ~ tc (flows g) e' e.
Proof.
  intros Hinv Hs Hl He' Ht. unfold leaves in Hl. rewrite elem_of_sorted_set, elem_of_filter in Hl. destruct Hl as [Hl He].
  apply tc_flows, tc_below in Ht.
  destruct (first_hit (depends g) ∅ ends e e' Ht) as (m & Hm & Hem & Hme'); [apply (pi_ends _ _ _ Hinv); by left|].
  rewrite union_empty_l_L in Hem.
  assert (Hmr : m ∉ remaining).
  { intros Hmr. apply (not_elem_of_empty (C := gset string) m). rewrite <- Hl. apply elem_of_intersection.
    split; [by apply elem_of_end_edges|done]. }
  apply (pi_ends _ _ _ Hinv) in Hm as [Hm|Hm]; [done|]. apply list_elem_of_fmap in Hm as (p & -> & Hp).
  destruct (pi_future _ _ _ Hinv p s e' Hp Hs He') as (_ & _ & Hno). apply Hno. cbn.
  apply off_rtc, rtc_tc in Hme' as [Heq|Hme']; [congruence|]. by apply tc_flows.
Qed.

Lemma fop_snoc {A} (Q : A -> A -> Prop) l x :
  ForallOrdPairs Q l -> (forall y, y ∈ l -> Q y x) -> ForallOrdPairs Q (l ++ [x]).
Proof.
  induction 1 as [|a l Ha _ IH]; intros Hx; cbn; [repeat constructor|]. constructor.
  - apply Forall_app. split; [done|]. constructor; [apply Hx; left|done].
  - apply IH. intros y Hy. apply Hx. by right.
Qed.

Lemma pair_round available remaining matched e s :
  pair_inv available remaining matched -> e ∈ leaves g known remaining ->
  s ∈ closest g known (candidates g e available) -> escapes g targets s e (remaining ∖ {[e]}) = ∅ ->
  pair_inv (available ∖ {[s]}) (remaining ∖ {[e]}) (matched ++ [(s, e)]).
Proof.
  intros Hinv Hl Hc Hesc. pose proof (closest_last e available s Hc) as (Hs & Hse & Hlast).
  pose proof (nothing_escapes s e _ Hesc) as Hno.
  assert (He : e ∈ remaining) by (unfold leaves in Hl; rewrite elem_of_sorted_set in Hl; set_solver).
  assert (Hfirst : forall e', e' ∈ remaining -> ~ tc (flows g) e' e) by (intros e' He'; by eapply leaf_first).
  destruct Hinv as [Hst Hen Hav Hre [Hn1 Hn2] Hfl Hfu Hpa].
  split.
  - intros x. rewrite map_app, elem_of_app, Hst, elem_of_difference, elem_of_singleton. cbn. rewrite list_elem_of_singleton.
    destruct (decide (x = s)) as [->|]; tauto.
  - intros x. rewrite map_app, elem_of_app, Hen, elem_of_difference, elem_of_singleton. cbn. rewrite list_elem_of_singleton.
    destruct (decide (x = e)) as [->|]; tauto.
  - intros x [Hx Hne%not_elem_of_singleton]%elem_of_difference. rewrite map_app, elem_of_app. cbn. rewrite list_elem_of_singleton.
    intros [?|?]; [by eapply Hav|done].
  - intros x [Hx Hne%not_elem_of_singleton]%elem_of_difference. rewrite map_app, elem_of_app. cbn. rewrite list_elem_of_singleton.
    intros [?|?]; [by eapply Hre|done].
  - rewrite !map_app. split; apply NoDup_app; (split_and!; [done| |apply NoDup_singleton]);
      cbn; intros x Hx ->%list_elem_of_singleton; [by eapply Hav|by eapply Hre].
  - intros p [Hp| ->%list_elem_of_singleton]%elem_of_app; [by apply Hfl|]. split; [done|].
    intros t Ht Hne. apply Hno; [set_solver|done].
  - intros p x y [Hp| ->%list_elem_of_singleton]%elem_of_app [Hx Hxs]%elem_of_difference [Hy Hye]%elem_of_difference;
      [by apply Hfu|]. unfold before_ok; cbn. split_and!; [| |by apply Hfirst].
    + apply Hno; set_solver.
    + intros Ht. destruct (Hlast x Hx Ht); [set_solver|done].
  - apply fop_snoc; [done|]. intros p Hp. by apply Hfu.
Qed.

(** What the loop answers. *)
Definition pairing_ok (o : pairing) : Prop :=
  match o with
  | Cyclic => False
  | Refused d => is_error d = true
  | Paired unmatched matched => pair_inv unmatched ∅ matched
  end.

Lemma leaves_exist remaining : remaining ≠ ∅ -> remaining ⊆ ends -> leaves g known remaining <> [].
Proof.
  intros Hne Hsub Hnil.
  destruct (finite_successor_cycle (fun k m => m ∈ end_edges g known k) remaining) as (x & _ & Hc).
  - by intros H%leibniz_equiv.
  - intros y Hy. destruct (decide (end_edges g known y ∩ remaining = ∅)) as [He|He].
    + exfalso. apply (not_elem_of_nil y). rewrite <- Hnil. apply elem_of_sorted_set. by apply elem_of_filter.
    + apply set_choose_L in He as [z [Hz1 Hz2]%elem_of_intersection]. by exists z.
  - apply (Hacyclic x). revert Hc. generalize x at 1 3. intros a Hc.
    induction Hc as [a b Hab|a b c Hab _ IH].
    + apply elem_of_end_edges in Hab as [_ Hab]. by eapply below_tc.
    + apply elem_of_end_edges in Hab as [_ Hab]. etrans; [by eapply below_tc|done].
Qed.

Lemma pair_loop_ok fuel available remaining matched :
  pair_inv available remaining matched -> (size remaining < fuel)%nat ->
  exists o, pair_loop g targets known fuel available remaining matched = Some o /\ pairing_ok o.
Proof.
  revert available remaining matched. induction fuel as [|fuel IH]; intros available remaining matched Hinv Hf; [lia|].
  cbn [pair_loop]. destruct (decide (remaining = ∅)) as [->|Hne]; [by eexists|].
  destruct (leaves g known remaining) as [|e rest] eqn:El.
  { exfalso. eapply leaves_exist; [exact Hne| |exact El]. intros x Hx. apply (pi_ends _ _ _ Hinv). by left. }
  assert (Hl : e ∈ leaves g known remaining) by (rewrite El; left).
  destruct (decide (candidates g e available = ∅)); [by eexists|].
  destruct (elements (closest g known (candidates g e available))) as [|s [|]] eqn:Ec; [by eexists| |by eexists].
  assert (Hs : s ∈ closest g known (candidates g e available)) by (apply elem_of_elements; rewrite Ec; left).
  destruct (decide (escapes g targets s e (remaining ∖ {[e]}) = ∅)); [|by eexists].
  apply IH; [by apply pair_round|].
  assert (e ∈ remaining) by (unfold leaves in Hl; rewrite elem_of_sorted_set in Hl; set_solver).
  assert (size (remaining ∖ {[e]}) < size remaining)%nat; [|lia]. apply subset_size. set_solver.
Qed.

Lemma pair_boundaries_ok : pairing_ok (pair_boundaries g targets known).
Proof.
  unfold pair_boundaries. destruct (pair_loop_ok (S (size ends)) starts ends []) as (o & -> & Ho); [|lia|exact Ho].
  split; try (by intros; set_solver); cbn; try (intros x; rewrite elem_of_nil; tauto); try (split; constructor); constructor.
Qed.
End walks.

(** * The answer *)

Definition close_pair (g : Graph) (p : string * string) : string * LoopPair :=
  (p.1, mkPair p.2 (sorted_set (body_of g p.1 p.2))).

Lemma close_loops_spec g matched :
  match close_loops g matched with
  | Ok pairs => pairs = map (close_pair g) matched
      /\ forall p, p ∈ matched -> accumulates_from g p.2 (body_of g p.1 p.2 ∪ {[p.1]}) = false
  | Err d => is_error d = true
  end.
Proof.
  induction matched as [|[s e] rest IH]; cbn [close_loops map]; [by split; [|intros p ?%not_elem_of_nil]|].
  destruct (accumulates_from g e _) eqn:Ea; [done|]. destruct (close_loops g rest); cbn [mbind result_bind]; [|done].
  destruct IH as [-> Hall]. split; [done|]. intros p [->|Hp]%elem_of_cons; [done|by apply Hall].
Qed.

(** At most one diagnostic, an error, and then no pairs. *)
Lemma validate_loops_answers g targets known :
  (forall n, ~ tc (depends g) n n) ->
  match validate_loops g targets known with
  | (pairs, []) => exists matched, pair_inv g targets known ∅ ∅ matched /\ pairs = map (close_pair g) matched
      /\ forall p, p ∈ matched -> accumulates_from g p.2 (body_of g p.1 p.2 ∪ {[p.1]}) = false
  | (pairs, d :: rest) => pairs = [] /\ rest = [] /\ is_error d = true
  end.
Proof.
  intros Hac. unfold validate_loops. destruct (decide (starts g known = ∅ /\ ends g known = ∅)) as [[Hs He]|_].
  - exists []. split_and!; [|done|by intros p ?%not_elem_of_nil].
    split; try (by intros; set_solver); cbn; try (intros x; rewrite ?Hs, ?He, elem_of_nil; tauto); try (split; constructor).
    constructor.
  - pose proof (pair_boundaries_ok g targets known Hac) as Hok.
    destruct (pair_boundaries g targets known) as [|d|unmatched matched]; cbn in Hok; [done|done|].
    destruct (sorted_set unmatched) as [|first rest] eqn:Eu; [|done].
    assert (unmatched = ∅) as ->.
    { apply set_eq. intros x. rewrite <- elem_of_sorted_set, Eu. set_solver. }
    pose proof (close_loops_spec g matched) as Hcl. destruct (close_loops g matched); [|done].
    destruct Hcl as [-> Hacc]. by exists matched.
Qed.

Lemma of_type_disjoint g t t' known known' s e :
  s ∈ of_type g t known -> e ∈ of_type g t' known' -> t <> t' -> s <> e.
Proof.
  unfold of_type. rewrite !elem_of_list_to_set, !list_elem_of_In, !List.filter_In, !andb_true_iff. unfold is_type.
  intros (_ & Hs & _) (_ & He & _) Hne ->. destruct (dict_get g e) as [[n|r b]|]; [|done..].
  apply String.eqb_eq in Hs, He. congruence.
Qed.

(** Of two pairs the one matched first never holds a boundary of the other,
    and is inside the other whole or not at all. *)
Lemma pairs_nest g s1 e1 s2 e2 :
  (forall n, ~ tc (depends g) n n) -> before_ok g (s1, e1) (s2, e2) ->
  tc (flows g) s1 e1 -> tc (flows g) s2 e2 -> s1 <> e2 -> s2 <> e1 ->
  s2 ∉ body_of g s1 e1 /\ e2 ∉ body_of g s1 e1 /\ (s1 ∈ body_of g s2 e2 <-> e1 ∈ body_of g s2 e2).
Proof.
  intros Hac (Hesc & Hlast & Hfirst) H1 H2 Hne Hne'. cbn in *. rewrite !elem_of_body.
  assert (Hacy := flow_acyclic g Hac). split_and!.
  - intros [_ Hb]. destruct (avoids_or_meets (flows g) {[e1]} s2 e2 H2) as [Hv|(m & ->%elem_of_singleton & Hm & _)].
    + apply Hesc. eapply below_trans; [exact Hb|set_solver|done].
    + apply (Hacy s1). etrans; [by eapply below_tc|]. by apply Hlast.
  - by intros [_ Hb].
  - split.
    + intros [_ Hb]. destruct (avoids_or_meets (flows g) {[e2]} s1 e1 H1) as [Hv|(m & ->%elem_of_singleton & _ & Hm)]; [|done].
      split; [|eapply below_trans; [exact Hb|set_solver|done]]. intros ->. apply Hesc.
      destruct (avoids_or_meets (flows g) {[e2]} s1 e2 H1) as [?|(m & ->%elem_of_singleton & _ & Hm)]; [done|by destruct (Hacy e2)].
    + intros [_ Hb]. assert (tc (flows g) s2 s1) as Hs by (apply Hlast; by eapply below_tc).
      destruct (avoids_or_meets (flows g) {[e2]} s2 s1 Hs) as [Hv|(m & ->%elem_of_singleton & _ & Hm)]; [by split|].
      exfalso. apply Hfirst. by etrans.
Qed.

Lemma fop_pair {A} (Q : A -> A -> Prop) l x y :
  ForallOrdPairs Q l -> x ∈ l -> y ∈ l -> x = y \/ Q x y \/ Q y x.
Proof.
  intros HQ Hx%list_elem_of_In Hy%list_elem_of_In. destruct (ForallOrdPairs_In HQ x y Hx Hy); auto.
Qed.

(** C7: Loop boundaries pair like parentheses: on an acyclic graph level that
    gets no loop diagnostic, every start loop not yet known is paired with one
    end loop that takes its flow and every end loop with one start; the body
    of a pair is what the start feeds without passing its end; no target at
    the end of a flow is in a body, so nothing leaves a loop but through its
    end; the [accumulate] control is not fed from the body; and two loops are
    nested or apart, never interleaved. *)
Theorem loops_pair_and_nest g targets known pairs :
  (forall n, ~ tc (depends g) n n) -> validate_loops g targets known = (pairs, []) ->
  (forall s, s ∈ keys pairs <-> s ∈ starts g known) /\ NoDup (keys pairs)
  /\ (forall e, e ∈ map (fun kp => end_id kp.2) pairs <-> e ∈ ends g known) /\ NoDup (map (fun kp => end_id kp.2) pairs)
  /\ (forall s p, (s, p) ∈ pairs ->
        tc (flows g) s (end_id p)
        /\ (forall n, n ∈ loop_body p <-> n <> end_id p /\ below (flows g) {[end_id p]} s n)
        /\ (forall t, t ∈ targets -> t ∈ keys g -> children g t = ∅ -> t ∉ loop_body p)
        /\ (forall n, accumulate_source g (end_id p) = Some n -> n <> s /\ n ∉ loop_body p))
  /\ (forall s1 p1 s2 p2, (s1, p1) ∈ pairs -> (s2, p2) ∈ pairs -> s1 <> s2 ->
        (s1 ∈ loop_body p2 <-> end_id p1 ∈ loop_body p2)
        /\ ~ (s1 ∈ loop_body p2 /\ s2 ∈ loop_body p1)).
Proof.
  intros Hac Hv. pose proof (validate_loops_answers g targets known Hac) as Hans. rewrite Hv in Hans.
  destruct Hans as (matched & Hinv & -> & Hacc). destruct Hinv as [Hst Hen _ _ [Hn1 Hn2] Hfl _ Hpa].
  assert (Hk : keys (map (close_pair g) matched) = map fst matched) by (unfold keys; by rewrite <- list_fmap_compose).
  assert (Hm : map (fun kp => end_id kp.2) (map (close_pair g) matched) = map snd matched) by (by rewrite map_map).
  rewrite Hk, Hm.
  assert (Hin : forall s p, (s, p) ∈ map (close_pair g) matched -> (s, end_id p) ∈ matched /\ loop_body p = sorted_set (body_of g s (end_id p))).
  { intros s p ([s' e'] & [= -> ->] & H)%list_elem_of_fmap. done. }
  split_and!; [intros s; rewrite Hst; set_solver|done|intros e; rewrite Hen; set_solver|done| |].
  - intros s p [Hp ->]%Hin. destruct (Hfl _ Hp) as [Hflow Hterm]. cbn in Hflow, Hterm. split_and!; [done| | |].
    + intros n. by rewrite elem_of_sorted_set, elem_of_body.
    + intros t Ht Htk Hch. rewrite elem_of_sorted_set, elem_of_body. intros [Hne Hb]. eapply Hterm; [|exact Hne|exact Hb].
      unfold terminal. rewrite elem_of_list_to_set, list_elem_of_In, List.filter_In, <- list_elem_of_In, andb_true_iff.
      split_and!; [done|by apply bool_decide_eq_true..].
    + intros n Hn. specialize (Hacc _ Hp). unfold accumulates_from in Hacc. cbn in Hacc. rewrite Hn in Hacc.
      apply bool_decide_eq_false in Hacc. rewrite elem_of_sorted_set. set_solver.
  - intros s1 p1 s2 p2 [Hp1 ->]%Hin [Hp2 ->]%Hin Hne. rewrite !elem_of_sorted_set.
    assert (Hdis : forall s p, (s, end_id p) ∈ matched -> s ∈ starts g known /\ end_id p ∈ ends g known).
    { intros s p Hp. split; [apply Hst|apply Hen]; right; apply list_elem_of_fmap; by exists (s, end_id p). }
    assert (s1 <> end_id p2 /\ s2 <> end_id p1) as [Hx1 Hx2].
    { assert (Hsep : forall s e, s ∈ starts g known -> e ∈ ends g known -> s <> e) by (intros; by eapply of_type_disjoint).
      split; apply Hsep; [apply (Hdis _ _ Hp1)|apply (Hdis _ _ Hp2)|apply (Hdis _ _ Hp2)|apply (Hdis _ _ Hp1)]. }
    destruct (fop_pair _ _ _ _ Hpa Hp1 Hp2) as [[= ? _]|[HQ|HQ]]; [done| |].
    + pose proof (pairs_nest g s1 (end_id p1) s2 (end_id p2) Hac HQ (proj1 (Hfl _ Hp1)) (proj1 (Hfl _ Hp2)) Hx1 Hx2) as (? & ? & ?).
      tauto.
    + pose proof (pairs_nest g s2 (end_id p2) s1 (end_id p1) Hac HQ (proj1 (Hfl _ Hp2)) (proj1 (Hfl _ Hp1)) Hx2 Hx1) as (? & ? & ?).
      tauto.
Qed.

(** Two loops in sequence inside a third. *)
Definition loop_node (t : string) (from : option string) : AnyNode :=
  NodeOf (mkGraphNode t (match from with Some k => [("x", GLink (mkLink k "value"))] | None => [] end) [] []).

Definition demo_loops : Graph :=
  [("outer", loop_node "StartLoop" None); ("first", loop_node "StartLoop" (Some "outer"));
   ("first_end", loop_node "EndLoop" (Some "first")); ("second", loop_node "StartLoop" (Some "first_end"));
   ("second_end", loop_node "EndLoop" (Some "second")); ("outer_end", loop_node "EndLoop" (Some "second_end"))].

Lemma loops_pair_and_nest_witness :
  exists pairs, validate_loops demo_loops ["outer_end"] [] = (pairs, [])
    /\ ("outer", mkPair "outer_end" ["first"; "first_end"; "second"; "second_end"]) ∈ pairs
    /\ (forall e, e ∈ map (fun kp => end_id kp.2) pairs <-> e ∈ ends demo_loops []).
Proof.
  eexists. split; [vm_compute; reflexivity|]. split; [set_solver|].
  refine (proj1 (proj2 (proj2 (loops_pair_and_nest demo_loops ["outer_end"] [] _ _ _)))); [|vm_compute; reflexivity].
  apply find_cycle_none. vm_compute. reflexivity.
Defined.

(** A loop whose end feeds nothing, inside another loop: whether the document
    is refused depends on which of the two ends is named first. *)
Definition dead_end_loop (outer_end inner_end : string) : Graph :=
  [("s1", loop_node "StartLoop" None); ("s2", loop_node "StartLoop" (Some "s1"));
   (outer_end, loop_node "EndLoop" (Some "s1")); (inner_end, loop_node "EndLoop" (Some "s2"))].

Lemma pairing_depends_on_names :
  validate_loops (dead_end_loop "e1" "e2") ["e1"] [] = ([], [loop_error "bodyEscape" "s1"])
  /\ validate_loops (dead_end_loop "e2" "e1") ["e2"] [] = ([("s2", mkPair "e1" []); ("s1", mkPair "e2" ["e1"; "s2"])], []).
Proof. split; vm_compute; reflexivity. Qed.
