(* ===== verification/Infer.v ===== *)
(** Infer: what validation derives from a document before it checks anything
    (dinkster_graph/validate.py): the elaborated interface of every node, the
    declared interface of every region, bottom-up, and the types of generic
    outputs from what is linked into their nodes. *)
From S2P Require Import Prelude PyStr TypeIds TypeExprs Widgets Schema Elaborate Solve Graph Loops.

Local Open Scope string_scope.
Local Open Scope list_scope.

(** * Exceptions *)

(** What escapes validation: everything that is neither an ElaborationError
    nor a TypeSolveError. *)
Inductive raised :=
| FromElaboration (e : elab_error)
| FromSolving (e : solve_error)
| MissingKey (key : string).

Abbreviation checking := (result raised).

Definition is_solve_error (e : solve_error) : bool :=
  match e with Construction _ | Assertion | OutOfFuel => false | _ => true end.

(** [except TypeSolveError]: None, and every other exception passes. *)
Definition catch_solve {A} (r : solving A) : checking (option A) :=
  match r with
  | Ok a => Ok (Some a)
  | Err e => if is_solve_error e then Ok None else Err (FromSolving e)
  end.

(** * Elaboration of a document *)

(** A document's values as elaboration sees them: a link or a typed literal is
    an object of its own class. *)
Fixpoint stored_value (v : gvalue) : pyval :=
  match v with
  | GLink _ => VObj "Link"
  | GTyped _ _ => VObj "TypedLiteral"
  | GNone => VNone
  | GBool b => VBool b
  | GInt z => VInt z
  | GFloat f => VFloat f
  | GStr s => VStr s
  | GList l => VList (map stored_value l)
  | GDict d => VDict (map (fun kv => (stored_value kv.1, stored_value kv.2)) d)
  | GOther c => VObj c
  end.

Definition on_values {A B} (f : A -> B) (d : list (string * A)) : list (string * B) := map (fun kv => (kv.1, f kv.2)) d.

Definition diag_error (code node_id : string) : Diagnostic := mkDiag SevError code (Some node_id) None.

Section infer.
Variable json_loads : string -> option pyval.
Variable schemas : string -> option NodeSchema.

Definition elaborate_node (base : NodeSchema) (n : GraphNode) : elab NodeSchema :=
  elaborate json_loads base (StoredMap (on_values stored_value (node_inputs n)))
    (on_values (map VStr) (output_members n)) (on_values VStr (slot_variants n)).

Fixpoint elaborate_graph (g : Graph) : checking (list (string * NodeSchema) * list Diagnostic) :=
  match g with
  | [] => Ok ([], [])
  | (node_id, RegionOf _ _) :: rest => elaborate_graph rest
  | (node_id, NodeOf n) :: rest =>
      match schemas (Graph.node_type n) with
      | None =>
          '(effective, diags) ← elaborate_graph rest;
          Ok (effective, diag_error "unknown-node-type" node_id :: diags)
      | Some base =>
          match elaborate_node base n with
          | Ok s => '(effective, diags) ← elaborate_graph rest; Ok ((node_id, s) :: effective, diags)
          | Err (ElaborationError _) =>
              '(effective, diags) ← elaborate_graph rest;
              Ok (effective, diag_error "elaboration-failed" node_id :: diags)
          | Err e => Err (FromElaboration e)
          end
      end
  end.

(** * Regions *)

Abbreviation ports_map := (list (string * TypeExpr)).
Abbreviation effective_map := (list (string * NodeSchema)).
Abbreviation types_map := (list (string * list (string * TypeExpr))).

Inductive region_data := mkRegionData {
  body_effective : effective_map;
  body_regions : list (string * region_data);
  body_output_types : types_map;
  interface : list (string * option TypeExpr)
}.

Definition INDEX_TYPE : TypeExpr := mkTypeExpr KConcrete [CORE_INT] "" None [] "" None.

Definition region_port_type (ports : ports_map) (output_id : string) : option TypeExpr :=
  match dict_get ports output_id with
  | Some declared => Some declared
  | None => if String.eqb output_id REGION_INDEX_PORT_ID then Some INDEX_TYPE else None
  end.

(** [TypeExpr.list_of], which never raises. *)
Definition listed (e : TypeExpr) : TypeExpr := match list_of e with Ok t => t | Err _ => e end.

(** [data.interface.get(id)] of a map into optional types. *)
Definition get_type (d : list (string * option TypeExpr)) (id : string) : option TypeExpr :=
  match dict_get d id with Some t => t | None => None end.

Definition declared_type (effective : effective_map) (source : Link) : option TypeExpr :=
  match dict_get effective (link_node source) with
  | None => None
  | Some schema => out_type <$> output_of schema (link_output source)
  end.

(** The type of a node's output: resolved, or as its schema declares it. *)
Definition node_output_type (effective : effective_map) (resolved : types_map) (source : Link) : option TypeExpr :=
  match dict_get resolved (link_node source) with
  | Some outs => match dict_get outs (link_output source) with
                 | Some t => Some t
                 | None => declared_type effective source
                 end
  | None => declared_type effective source
  end.

Definition source_type (ports : ports_map) (effective : effective_map) (regions : list (string * region_data))
  (resolved : types_map) (source : Link) : option TypeExpr :=
  if String.eqb (link_node source) PORTS_NODE_ID then region_port_type ports (link_output source)
  else match dict_get regions (link_node source) with
       | Some nested => get_type (interface nested) (link_output source)
       | None => node_output_type effective resolved source
       end.

Definition body_output_type (ports : ports_map) (data : region_data) (source : Link) : option TypeExpr :=
  source_type ports (body_effective data) (body_regions data) (body_output_types data) source.

Definition body_output_exists (ports : ports_map) (body : Graph) (data : region_data) (source : Link) : bool :=
  if String.eqb (link_node source) PORTS_NODE_ID
  then bool_decide (is_Some (region_port_type ports (link_output source)))
  else match dict_get (body_regions data) (link_node source) with
       | Some nested => dict_mem (interface nested) (link_output source)
       | None =>
           match dict_get (body_effective data) (link_node source) with
           | None => dict_mem body (link_node source)
           | Some schema => bool_decide (is_Some (output_of schema (link_output source)))
           end
       end.

Definition prefixed (prefix : string) (d : Diagnostic) : Diagnostic :=
  match d_node_id d with
  | Some n => mkDiag (d_severity d) (d_code d) (Some (prefix +:+ n)) (d_input_id d)
  | None => d
  end.

(** * Types of linked outputs *)

Fixpoint contains_variable (e : TypeExpr) : bool :=
  match e with
  | mkTypeExpr k _ _ el els _ _ =>
      bool_decide (k = KVariable)
      || match el with Some x => contains_variable x | None => false end
      || existsb contains_variable els
  end.

Section resolve.
Variables (g : Graph) (ports : ports_map) (effective : effective_map) (regions : list (string * region_data)).
Variable include_typed_literals : bool.

(** The type a value gives an input, when it is known. *)
Definition given_type (resolved : types_map) (v : gvalue) : option string :=
  match v with
  | GTyped type_id _ => if include_typed_literals then Some type_id else None
  | GLink l => t ← source_type ports effective regions resolved l; runtime_type_id t
  | _ => None
  end.

Definition is_generic (schema : NodeSchema) (input_id : string) : bool :=
  match input_of schema input_id with Some spec => contains_variable (in_type spec) | None => false end.

(** The loop over a node's inputs; None when a generic one is not known yet. *)
Fixpoint generic_types (resolved : types_map) (schema : NodeSchema) (ins : list (string * gvalue)) (acc : gmap string string) :
  option (gmap string string) :=
  match ins with
  | [] => Some acc
  | (input_id, v) :: rest =>
      if negb (is_generic schema input_id) then generic_types resolved schema rest acc
      else match given_type resolved v with
           | None => None
           | Some t => generic_types resolved schema rest (<[input_id := t]> acc)
           end
  end.

Fixpoint concrete_outputs (outs : list OutputSpec) (b : gmap string string) (acc : list (string * TypeExpr)) :
  solving (list (string * TypeExpr)) :=
  match outs with
  | [] => Ok acc
  | o :: rest =>
      t ← resolved_type_expr (out_type o) b;
      concrete_outputs rest b (match t with Some e => dict_set acc (out_id o) e | None => acc end)
  end.

(** What one visit makes of a node: its output types, an output type that
    cannot be, or nothing. *)
Inductive visit_result := Unresolved | Invalid | Outputs (outs : list (string * TypeExpr)).

Definition visit_node (resolved : types_map) (node_id : string) (n : GraphNode) : checking visit_result :=
  match dict_get effective node_id with
  | None => Ok Unresolved
  | Some schema =>
      match generic_types resolved schema (node_inputs n) ∅ with
      | None => Ok Unresolved
      | Some input_types =>
          b ← catch_solve (bind_type_variables (inputs schema) input_types);
          match b with
          | None => Ok Unresolved
          | Some b =>
              outs ← catch_solve (concrete_outputs (outputs schema) b []);
              Ok (match outs with None => Invalid | Some o => Outputs o end)
          end
      end
  end.

Record resolution := mkResolution { resolved : types_map; invalid : list (string * Diagnostic); changed : bool }.

Definition apply_visit (node_id : string) (r : visit_result) (st : resolution) : resolution :=
  match r with
  | Unresolved => st
  | Invalid => mkResolution (resolved st) (dict_set (invalid st) node_id (diag_error "output-type-invalid" node_id)) (changed st)
  | Outputs outs =>
      let inv := dict_del (invalid st) node_id in
      if negb (is_nil outs) && negb (bool_decide (dict_get (resolved st) node_id = Some outs))
      then mkResolution (dict_set (resolved st) node_id outs) inv true
      else mkResolution (resolved st) inv (changed st)
  end.

Fixpoint resolve_round (nodes : Graph) (st : resolution) : checking resolution :=
  match nodes with
  | [] => Ok st
  | (_, RegionOf _ _) :: rest => resolve_round rest st
  | (node_id, NodeOf n) :: rest =>
      r ← visit_node (resolved st) node_id n;
      resolve_round rest (apply_visit node_id r st)
  end.

Fixpoint resolve_rounds (rounds : nat) (st : resolution) : checking resolution :=
  match rounds with
  | O => Ok st
  | S rounds' =>
      st' ← resolve_round g (mkResolution (resolved st) (invalid st) false);
      if changed st' then resolve_rounds rounds' st' else Ok st'
  end.

(** The output types, and the diagnostics when the caller collects them. *)
Definition resolve_linked_output_types : checking (types_map * list Diagnostic) :=
  st ← resolve_rounds (length g) (mkResolution [] [] false);
  Ok (resolved st, map snd (invalid st)).
End resolve.

(** * Interfaces *)

Definition region_output (ports : ports_map) (data : region_data) (out_id : string) (out : RegionOutput) : option TypeExpr :=
  match ro_mode out with
  | OState => dict_get ports out_id
  | OFlatten | OLast => body_output_type ports data (ro_source out)
  | OGather | OCompact => listed <$> body_output_type ports data (ro_source out)
  end.

(** The loop over the regions of a level, given the pass of one. *)
Fixpoint pass_regions (f : string -> AnyNode -> checking (option region_data * list Diagnostic))
  (nodes : list (string * AnyNode)) : checking (list (string * region_data) * list Diagnostic) :=
  match nodes with
  | [] => Ok ([], [])
  | (node_id, n) :: rest =>
      '(data, diags) ← f node_id n;
      '(regions, diags') ← pass_regions f rest;
      Ok (match data with Some d => (node_id, d) :: regions | None => regions end, diags ++ diags')
  end.

Fixpoint region_pass (prefix node_id : string) (n : AnyNode) : checking (option region_data * list Diagnostic) :=
  match n with
  | NodeOf _ => Ok (None, [])
  | RegionOf r body =>
      let prefix' := prefix +:+ (node_id +:+ "/") in
      '(eff, elab_diags) ← elaborate_graph body;
      '(regions, diags) ← pass_regions (region_pass prefix') body;
      '(types, _) ← resolve_linked_output_types body (rn_ports r) eff regions false;
      let data := mkRegionData eff regions types [] in
      Ok (Some (mkRegionData eff regions types
                  (map (fun o => (o.1, region_output (rn_ports r) data o.1 o.2)) (rn_outputs r))),
          map (prefixed prefix') elab_diags ++ diags)
  end.

Definition interface_pass (g : Graph) (prefix : string) (include_elab : bool) :
  checking (effective_map * list (string * region_data) * list Diagnostic) :=
  '(eff, elab_diags) ← elaborate_graph g;
  '(regions, diags) ← pass_regions (region_pass prefix) g;
  Ok (eff, regions, (if include_elab then map (prefixed prefix) elab_diags else []) ++ diags).

(** [graph_output_types] and [region_interface]. *)
Definition graph_output_types (g : Graph) : checking types_map :=
  '(eff, regions, _) ← interface_pass g "" false;
  '(types, _) ← resolve_linked_output_types g [] eff regions true;
  Ok (foldl (fun d kv => dict_set d kv.1 kv.2)
        (map (fun ns => (ns.1, map (fun o => (out_id o, default (out_type o) (outs ← dict_get types ns.1; dict_get outs (out_id o))))
                                 (outputs ns.2))) eff)
        (map (fun nd => (nd.1, omap (fun o => t ← o.2; Some (o.1, t)) (interface nd.2))) regions)).

Definition region_interface (r : RegionNode) (body : Graph) : checking (list (string * option TypeExpr)) :=
  '(_, regions, _) ← interface_pass [("$", RegionOf r body)] "" false;
  match dict_get regions "$" with Some d => Ok (interface d) | None => Err (MissingKey "$") end.
End infer.

(** * Resolution only adds *)

Lemma built_construct_ok e r : built (construct e) = Ok r -> r = e.
Proof. by intros [-> _]%built_ok%construct_ok. Qed.

Lemma runtime_not_wildcard e t : runtime_type_id e = Some t -> is_wildcard e = false.
Proof. intros H. unfold is_wildcard. apply bool_decide_eq_false. intros Hk. destruct e; cbn in *; by subst. Qed.

Lemma each_runtime (f : TypeExpr -> solving (option TypeExpr)) es rs ids :
  Forall (fun e => forall r t, f e = Ok (Some r) -> runtime_type_id e = Some t -> runtime_type_id r = Some t) es ->
  each f es = Ok (map Some rs) -> map runtime_type_id es = map Some ids -> map runtime_type_id rs = map Some ids.
Proof.
  intros H. revert rs ids. induction H as [|e es He _ IH]; intros rs ids; cbn [each map].
  - intros [= Hrs] Hids. destruct rs; [|done]. by destruct ids.
  - intros (o & Ho & (os & Hos & [= Heq])%bind_ok)%bind_ok Hids.
    destruct rs as [|r rs]; [done|]. destruct ids as [|i ids]; [done|]. cbn in *. injection Heq as -> ->. injection Hids as Hi Hids.
    f_equal; [by apply (He r)|by apply IH].
Qed.

(** An expression that has a runtime id keeps it under every binding. *)
Lemma resolved_runtime b e r t :
  resolved_type_expr e b = Ok (Some r) -> runtime_type_id e = Some t -> runtime_type_id r = Some t.
Proof.
  revert r t. induction e as [k ts tid el els i ix Hel Hels] using TypeExpr_ind_nested. intros r t.
  cbn [resolved_type_expr runtime_type_id]. destruct k; try done.
  - by intros [= <-].
  - destruct el as [x|]; [|done]. destruct (is_wildcard x) eqn:Ew; [intros [= <-]; cbn; by rewrite Ew|].
    intros (o & Ho & H)%bind_ok Ht. destruct o as [y|]; [|done]. apply bind_ok in H as (r' & ->%built_construct_ok & [= <-]).
    destruct (runtime_type_id x) as [t'|] eqn:Ex; [|done]. cbn in *.
    pose proof (Hel x eq_refl y t' Ho Ex) as Hy. by rewrite (runtime_not_wildcard y t' Hy), Hy.
  - destruct el as [x|]; [|done]. intros (o & Ho & H)%bind_ok Ht. destruct o as [y|]; [|done].
    apply bind_ok in H as (r' & ->%built_construct_ok & [= <-]).
    destruct (runtime_type_id x) as [t'|] eqn:Ex; [|done]. cbn in *. by rewrite (Hel x eq_refl y t' Ho Ex).
  - destruct el as [x|]; [|done]. intros (o & Ho & H)%bind_ok Ht. destruct o as [y|]; [|done].
    apply bind_ok in H as (r' & ->%built_construct_ok & [= <-]).
    destruct (runtime_type_id x) as [t'|] eqn:Ex; [|done]. cbn in *. by rewrite (Hel x eq_refl y t' Ho Ex).
  - intros (os & Hos & H)%bind_ok Ht. destruct (all_some os) as [items|] eqn:Ei; [|done].
    apply bind_ok in H as (r' & ->%built_construct_ok & [= <-]). cbn.
    destruct (all_some (map runtime_type_id els)) as [ids|] eqn:Eids; [|done]. cbn in Ht.
    apply all_some_spec in Ei, Eids. subst os. rewrite (proj2 (all_some_spec _ ids)); [done|].
    exact (each_runtime (fun x => resolved_type_expr x b) els items ids Hels Hos Eids).
Qed.

Section fixpoint.
Variables (g : Graph) (ports : list (string * TypeExpr)) (effective : list (string * NodeSchema)).
Variables (regions : list (string * region_data)) (lit : bool).
Hypothesis Hkeys : NoDup (keys g).
Hypothesis Hids : forall node_id s, dict_get effective node_id = Some s -> NoDup (output_ids s).

Abbreviation types_map := (list (string * list (string * TypeExpr))).
Notation visit := (visit_node ports effective regions lit).

Lemma concrete_outputs_get outs b acc d id e :
  concrete_outputs outs b acc = Ok d -> dict_get d id = Some e ->
  (exists o, o ∈ outs /\ out_id o = id /\ resolved_type_expr (out_type o) b = Ok (Some e)) \/ dict_get acc id = Some e.
Proof.
  revert acc. induction outs as [|o outs IH]; intros acc; cbn [concrete_outputs]; [intros [= <-]; auto|].
  intros (t & Ht & Hrest)%bind_ok Hd. destruct (IH _ Hrest Hd) as [(o' & Ho' & ?)|Hacc].
  - left. exists o'. split; [by right|done].
  - destruct t as [e'|]; [|by right]. rewrite dict_get_set in Hacc. destruct (decide (id = out_id o)) as [->|]; [|by right].
    injection Hacc as <-. left. exists o. split_and!; [left|done|done].
Qed.

Lemma output_of_unique s o : NoDup (output_ids s) -> o ∈ outputs s -> output_of s (out_id o) = Some o.
Proof.
  unfold output_of, output_ids. induction (outputs s) as [|x l IH]; [by intros _ ?%not_elem_of_nil|]. cbn.
  intros [Hx Hnd]%NoDup_cons [->|Ho]%elem_of_cons.
  - by rewrite String.eqb_refl.
  - destruct (String.eqb_spec (out_id x) (out_id o)) as [Heq|]; [|by apply IH].
    destruct Hx. rewrite Heq. apply list_elem_of_fmap. by exists o.
Qed.

(** Entries come from the schema's outputs. *)
Definition typed (res : types_map) : Prop :=
  forall node_id outs, dict_get res node_id = Some outs ->
    exists s b, dict_get effective node_id = Some s /\ concrete_outputs (outputs s) b [] = Ok outs.

Definition more (res res' : types_map) : Prop :=
  forall node_id outs, dict_get res node_id = Some outs -> dict_get res' node_id = Some outs.

Lemma source_runtime_mono res res' l e t :
  typed res' -> more res res' ->
  source_type ports effective regions res l = Some e -> runtime_type_id e = Some t ->
  exists e', source_type ports effective regions res' l = Some e' /\ runtime_type_id e' = Some t.
Proof.
  intros Hty Hmore. unfold source_type. destruct (String.eqb (link_node l) PORTS_NODE_ID); [by eauto|].
  destruct (dict_get regions (link_node l)); [by eauto|]. unfold node_output_type.
  destruct (dict_get res (link_node l)) as [outs|] eqn:E; [rewrite (Hmore _ _ E); by eauto|].
  destruct (dict_get res' (link_node l)) as [outs'|] eqn:E'; [|by eauto].
  destruct (dict_get outs' (link_output l)) as [e'|] eqn:Eo; [|by eauto].
  intros Hd Ht. exists e'. split; [done|]. destruct (Hty _ _ E') as (s & b & Hs & Hc).
  destruct (concrete_outputs_get _ _ _ _ _ _ Hc Eo) as [(o & Ho & Hoid & Hr)|?]; [|done].
  unfold declared_type in Hd. rewrite Hs, <- Hoid, (output_of_unique s o (Hids _ _ Hs) Ho) in Hd. cbn in Hd. injection Hd as <-.
  by eapply resolved_runtime.
Qed.

Lemma given_mono res res' v t :
  typed res' -> more res res' ->
  given_type ports effective regions lit res v = Some t -> given_type ports effective regions lit res' v = Some t.
Proof.
  intros Hty Hmore. destruct v; try done. cbn [given_type]. intros (e & He & Ht)%bind_Some.
  destruct (source_runtime_mono res res' l e t Hty Hmore He Ht) as (e' & He' & Ht'). by rewrite He'.
Qed.

Lemma generic_mono res res' s ins acc b :
  typed res' -> more res res' ->
  generic_types ports effective regions lit res s ins acc = Some b ->
  generic_types ports effective regions lit res' s ins acc = Some b.
Proof.
  intros Hty Hmore. revert acc. induction ins as [|[i v] ins IH]; intros acc; cbn [generic_types]; [done|].
  destruct (negb (is_generic s i)); [by apply IH|].
  destruct (given_type _ _ _ _ res v) as [t|] eqn:E; [|done]. rewrite (given_mono res res' v t Hty Hmore E). apply IH.
Qed.

Lemma visit_mono res res' node_id n outs :
  typed res' -> more res res' -> visit res node_id n = Ok (Outputs outs) -> visit res' node_id n = Ok (Outputs outs).
Proof.
  intros Hty Hmore. unfold visit_node. destruct (dict_get effective node_id) as [s|]; [|done].
  destruct (generic_types _ _ _ _ res s _ _) as [b|] eqn:E; [|done].
  by rewrite (generic_mono res res' s _ _ b Hty Hmore E).
Qed.

Lemma catch_solve_ok {A} (r : solving A) a : catch_solve r = Ok (Some a) -> r = Ok a.
Proof. destruct r as [x|e]; cbn; [by intros [= ->]|]. by destruct (is_solve_error e). Qed.

Lemma visit_typed res node_id n outs :
  visit res node_id n = Ok (Outputs outs) ->
  exists s b, dict_get effective node_id = Some s /\ concrete_outputs (outputs s) b [] = Ok outs.
Proof.
  unfold visit_node. destruct (dict_get effective node_id) as [s|]; [|done].
  destruct (generic_types _ _ _ _ res s _ _); [|done]. intros (b & _ & H)%bind_ok. destruct b as [b|]; [|done].
  apply bind_ok in H as (o & Ho & [= Heq]). destruct o as [o|]; [|done]. injection Heq as ->.
  exists s, b. split; [done|]. by apply catch_solve_ok.
Qed.

(** Every entry is what visiting its node under the entries gives. *)
Record res_ok (res : types_map) : Prop := {
  ro_nodup : NoDup (keys res);
  ro_entry : forall node_id outs, dict_get res node_id = Some outs ->
    outs <> [] /\ exists n, (node_id, NodeOf n) ∈ g /\ visit res node_id n = Ok (Outputs outs)
}.

Lemma res_typed res : res_ok res -> typed res.
Proof. intros H node_id outs Ho. destruct (ro_entry _ H _ _ Ho) as (_ & n & _ & Hv). by eapply visit_typed. Qed.

Lemma node_unique node_id n n' : (node_id, n) ∈ g -> (node_id, n') ∈ g -> n = n'.
Proof.
  intros H H'. pose proof (elem_dict_get g _ _ Hkeys H). pose proof (elem_dict_get g _ _ Hkeys H'). congruence.
Qed.

Definition settled (res : types_map) (node_id : string) (n : GraphNode) : Prop :=
  exists r, visit res node_id n = Ok r
    /\ forall outs, r = Outputs outs -> outs <> [] -> dict_get res node_id = Some outs.

(** One visit: nothing changes and the node is settled, or an entry is new. *)
Lemma apply_visit_ok st node_id n r :
  res_ok (resolved st) -> (node_id, NodeOf n) ∈ g -> visit (resolved st) node_id n = Ok r ->
  let st' := apply_visit node_id r st in
  res_ok (resolved st') /\ more (resolved st) (resolved st')
  /\ (resolved st' = resolved st /\ changed st' = changed st /\ settled (resolved st) node_id n
      \/ changed st' = true /\ (length (resolved st) < length (resolved st'))%nat).
Proof.
  intros Hok Hin Hv. destruct r as [| |outs]; cbn [apply_visit].
  - split_and!; [done|by intros ? ?|]. left. split_and!; [done|done|]. by exists Unresolved.
  - split_and!; [done|by intros ? ?|]. left. split_and!; [done|done|]. by exists Invalid.
  - destruct (negb (is_nil outs) && negb (bool_decide (dict_get (resolved st) node_id = Some outs))) eqn:E.
    + apply andb_true_iff in E as [Hne Hnot]. apply negb_true_iff, bool_decide_eq_false in Hnot.
      assert (Hnone : dict_get (resolved st) node_id = None).
      { destruct (dict_get (resolved st) node_id) as [o|] eqn:Eo; [|done]. exfalso.
        destruct (ro_entry _ Hok _ _ Eo) as (_ & n' & Hin' & Hv'). pose proof (node_unique _ _ _ Hin Hin') as [= ->]. congruence. }
      set (res' := dict_set (resolved st) node_id outs).
      assert (Hmore : more (resolved st) res').
      { intros k o Ho. unfold res'. rewrite dict_get_set. destruct (decide (k = node_id)) as [->|]; [congruence|done]. }
      assert (Hty : typed res').
      { intros k o. unfold res'. rewrite dict_get_set. destruct (decide (k = node_id)) as [->|].
        - intros [= <-]. by eapply visit_typed.
        - intros Ho. by eapply res_typed. }
      cbn [resolved changed]. fold res'. split_and!; [|done|].
      * split; [by apply NoDup_dict_set, Hok|]. intros k o. unfold res' at 1. rewrite dict_get_set.
        destruct (decide (k = node_id)) as [->|].
        -- intros [= <-]. split; [by destruct outs|]. exists n. split; [done|]. by eapply visit_mono.
        -- intros Ho. destruct (ro_entry _ Hok _ _ Ho) as (? & n' & ? & ?). split; [done|]. exists n'. split; [done|].
           by eapply visit_mono.
      * right. split; [done|]. unfold res'. clear -Hnone. apply dict_get_None in Hnone.
        assert (length (keys (dict_set (resolved st) node_id outs)) = S (length (keys (resolved st)))) as Hl.
        { rewrite keys_dict_set. destruct (dict_mem (resolved st) node_id) eqn:Em; [by apply dict_mem_true in Em|]. rewrite length_app. cbn. lia. }
        unfold keys in Hl. rewrite !length_map in Hl. lia.
    + split_and!; [done|by intros ? ?|]. left. split_and!; [done|done|]. exists (Outputs outs). split; [done|].
      intros o [= <-] Hne. apply andb_false_iff in E as [E|E]; apply negb_false_iff in E; [by destruct outs|].
      by apply bool_decide_eq_true in E.
Qed.

Lemma resolve_round_ok nodes st st' :
  (forall kn, kn ∈ nodes -> kn ∈ g) -> res_ok (resolved st) ->
  resolve_round ports effective regions lit nodes st = Ok st' ->
  res_ok (resolved st') /\ more (resolved st) (resolved st')
  /\ (resolved st' = resolved st /\ changed st' = changed st
        /\ (forall node_id n, (node_id, NodeOf n) ∈ nodes -> settled (resolved st) node_id n)
      \/ changed st' = true /\ (length (resolved st) < length (resolved st'))%nat).
Proof.
  revert st. induction nodes as [|[node_id [n|r body]] nodes IH]; intros st Hsub Hok; cbn [resolve_round].
  - intros [= <-]. split_and!; [done|by intros ? ?|]. left. split_and!; [done|done|]. by intros ? ? ?%not_elem_of_nil.
  - intros (r & Hr & Hrest)%bind_ok.
    destruct (apply_visit_ok st node_id n r Hok) as (Hok1 & Hm1 & Hc1); [apply Hsub; left|done|].
    destruct (IH (apply_visit node_id r st)) as (Hok2 & Hm2 & Hc2); [intros; apply Hsub; by right|done|done|].
    split_and!; [done|intros k o Hko; by apply Hm2, Hm1|].
    destruct Hc1 as [(He1 & Hch1 & Hs1)|[Hch1 Hl1]], Hc2 as [(He2 & Hch2 & Hs2)|[Hch2 Hl2]].
    + left. split_and!; [congruence|congruence|]. intros k m [[= -> ->]|Hk]%elem_of_cons; [done|]. rewrite <- He1. by apply Hs2.
    + right. split; [done|]. by rewrite <- He1.
    + right. split; [congruence|]. by rewrite He2.
    + right. split; [done|lia].
  - intros Hrest. destruct (IH st) as (Hok2 & Hm2 & Hc2); [intros; apply Hsub; by right|done|done|].
    split_and!; [done|done|]. destruct Hc2 as [(He & Hch & Hs)|?]; [left|by right]. split_and!; [done|done|].
    intros k m [[=]|Hk]%elem_of_cons. by apply Hs.
Qed.

(** A map with as many entries as there are nodes has one for every node. *)
Lemma res_full res node_id n :
  res_ok res -> (length g <= length res)%nat -> (node_id, NodeOf n) ∈ g -> settled res node_id n.
Proof.
  intros Hok Hlen Hin.
  assert (Hk : forall k o, dict_get res k = Some o -> k ∈ keys g).
  { intros k o Ho. destruct (ro_entry _ Hok k o Ho) as (_ & m & Hm & _). apply list_elem_of_fmap. by exists (k, NodeOf m). }
  assert (Hsub : keys res ⊆+ keys g).
  { apply NoDup_submseteq; [apply Hok|]. intros k Hkr. apply dict_mem_true in Hkr. unfold dict_mem in Hkr.
    destruct (dict_get res k) eqn:E; [by eapply Hk|done]. }
  apply submseteq_length_Permutation in Hsub; [|unfold keys; by rewrite !length_map].
  assert (node_id ∈ keys res) as Hn.
  { rewrite Hsub. apply list_elem_of_fmap. by exists (node_id, NodeOf n). }
  apply dict_mem_true in Hn. unfold dict_mem in Hn. destruct (dict_get res node_id) as [outs|] eqn:E; [|done].
  destruct (ro_entry _ Hok _ _ E) as (_ & m & Hm & Hv). pose proof (node_unique _ _ _ Hin Hm) as [= ->].
  exists (Outputs outs). split; [done|]. by intros o [= <-].
Qed.

Lemma resolve_rounds_ok rounds st st' :
  res_ok (resolved st) -> (length g <= rounds + length (resolved st))%nat ->
  resolve_rounds g ports effective regions lit rounds st = Ok st' ->
  res_ok (resolved st') /\ forall node_id n, (node_id, NodeOf n) ∈ g -> settled (resolved st') node_id n.
Proof.
  revert st. induction rounds as [|rounds IH]; intros st Hok Hlen; cbn [resolve_rounds].
  - intros [= <-]. split; [done|]. intros node_id n. by apply res_full.
  - intros (st1 & Hr & Hrest)%bind_ok.
    destruct (resolve_round_ok g (mkResolution (resolved st) (invalid st) false) st1 ltac:(done) Hok Hr) as (Hok1 & _ & Hc). cbn [resolved changed] in Hc.
    destruct Hc as [(He & Hch & Hs)|[Hch Hl]]; rewrite Hch in Hrest.
    + injection Hrest as <-. split; [done|]. by rewrite He.
    + eapply IH; [done| |done]. lia.
Qed.
End fixpoint.

(** * Properties *)

(** Output types are resolved for good: whatever the order of the nodes,
    and on cycles too, the rounds the loop is given, one per node, bring it to
    a fixpoint. Visiting a node once more under the answer gives exactly the
    types the answer has for it, and gives none where it has none. *)
Theorem output_types_are_a_fixpoint g ports effective regions lit types diags :
  NoDup (keys g) -> (forall node_id s, dict_get effective node_id = Some s -> NoDup (output_ids s)) ->
  resolve_linked_output_types g ports effective regions lit = Ok (types, diags) ->
  forall node_id n, (node_id, NodeOf n) ∈ g ->
    match visit_node ports effective regions lit types node_id n with
    | Ok (Outputs (o :: outs)) => dict_get types node_id = Some (o :: outs)
    | Ok _ => dict_get types node_id = None
    | Err _ => False
    end.
Proof.
  intros Hk Hids (st & Hst & [= <- _])%bind_ok node_id n Hin.
  destruct (resolve_rounds_ok g ports effective regions lit Hk Hids (length g) (mkResolution [] [] false) st
    ltac:(split; [constructor|done]) ltac:(cbn; lia) Hst)
    as [Hok Hset].
  destruct (Hset node_id n Hin) as (r & Hv & Hr). rewrite Hv.
  assert (Hnone : (forall outs, outs <> [] -> r <> Outputs outs) -> dict_get (resolved st) node_id = None).
  { intros Hno. destruct (dict_get (resolved st) node_id) as [o|] eqn:E; [|done]. exfalso.
    destruct (ro_entry _ _ _ _ _ _ Hok _ _ E) as (Hne & m & Hm & Hv'). pose proof (node_unique g Hk _ _ _ Hin Hm) as [= ->].
    rewrite Hv in Hv'. injection Hv' as ->. by apply (Hno o). }
  destruct r as [| |[|o outs]]; [by apply Hnone|by apply Hnone|apply Hnone; by intros [|]|]. by apply Hr.
Qed.

(** A node that passes on what it is given, fed by a concrete one through
    another that passes it on; the document lists them backwards. *)
Definition demo_schema (t : string) (ins : list InputSpec) (e : TypeExpr) : NodeSchema :=
  mkNodeSchema t None ins [mkOutputSpec "out" e "" false false None None "" "" None None] [] [] [] [] [] false [] false None None "" []
    [] false false false false None None [] None None None [] None.

Definition variable_t : TypeExpr := mkTypeExpr KVariable [] "T" None [] "" None.
Definition pass_schema : NodeSchema := demo_schema "pass" [plain_input "in" variable_t true] variable_t.
Definition source_schema : NodeSchema := demo_schema "source" [] INDEX_TYPE.

Definition demo_pass (from : string) : AnyNode := NodeOf (mkGraphNode "pass" [("in", GLink (mkLink from "out"))] [] []).

Definition demo_chain : Graph :=
  [("b", demo_pass "a"); ("a", demo_pass "s"); ("s", NodeOf (mkGraphNode "source" [] [] []))].

Definition demo_effective : list (string * NodeSchema) := [("b", pass_schema); ("a", pass_schema); ("s", source_schema)].

Lemma output_types_are_a_fixpoint_witness :
  exists types diags, resolve_linked_output_types demo_chain [] demo_effective [] false = Ok (types, diags)
    /\ dict_get types "b" = Some [("out", INDEX_TYPE)]
    /\ visit_node [] demo_effective [] false types "b" (mkGraphNode "pass" [("in", GLink (mkLink "a" "out"))] [] [])
       = Ok (Outputs [("out", INDEX_TYPE)])
    /\ match visit_node [] demo_effective [] false types "b" (mkGraphNode "pass" [("in", GLink (mkLink "a" "out"))] [] []) with
       | Ok (Outputs (o :: outs)) => dict_get types "b" = Some (o :: outs)
       | Ok _ => dict_get types "b" = None
       | Err _ => False
       end.
Proof.
  eexists _, _. split; [vm_compute; reflexivity|]. split; [vm_compute; reflexivity|]. split; [vm_compute; reflexivity|].
  eapply (output_types_are_a_fixpoint demo_chain [] demo_effective [] false).
  - apply (bool_decide_unpack _). vm_compute. exact I.
  - intros node_id s. cbn. repeat case_decide; intros [=]; subst; apply (bool_decide_unpack _); vm_compute; exact I.
  - vm_compute. reflexivity.
  - left.
Defined.
