(* ===== verification/Validate.v ===== *)
(** Validate: the diagnostics of a document (dinkster_graph/validate.py): every
    input against what feeds it, every node and region against its declaration,
    at every nesting level, and what an accepted document guarantees. *)
From S2P Require Import Prelude PyStr TypeIds TypeExprs Widgets Schema Elaborate Solve Coerce Graph Search Plan Loops Infer.
From Stdlib Require Import Ascii.

Local Open Scope string_scope.
Local Open Scope Z_scope.
Local Open Scope list_scope.

(** * Definitions *)

(** [known_types]: membership of an atom, and the two protocols a registry may
    implement. *)
Record TypeVocabulary := mkVocabulary {
  knows_atom : string -> bool;
  equivalents : option (string -> option string);
  coercion_providers : option ((string -> bool) * (string -> bool))
}.

Record Level := mkLevel {
  lv_graph : Graph;
  lv_effective : list (string * NodeSchema);
  lv_regions : list (string * region_data);
  lv_ports : option (list (string * TypeExpr));
  lv_prefix : string
}.

Definition at_input (severity : Severity) (code place input_id : string) : Diagnostic :=
  mkDiag severity code (Some place) (Some input_id).

Definition diag_if (c : bool) (d : Diagnostic) : list Diagnostic := if c then [d] else [].

(** ** Literals *)

Fixpoint literal_type_matches (v : gvalue) (type_id : string) : bool :=
  match parse_list_type_id type_id with
  | Some element => match v with GList l => forallb (fun item => literal_type_matches item element) l | _ => false end
  | None =>
      if String.eqb type_id CORE_INT then match v with GInt _ => true | _ => false end
      else if String.eqb type_id CORE_FLOAT then match v with GInt _ | GFloat _ => true | _ => false end
      else if String.eqb type_id CORE_BOOLEAN then match v with GBool _ => true | _ => false end
      else if String.eqb type_id CORE_STRING then match v with GStr _ => true | _ => false end
      else if String.eqb type_id CORE_COMBO then match v with GStr _ | GInt _ | GFloat _ | GBool _ => true | _ => false end
      else true
  end.

Definition check_literal_type (v : gvalue) (type_id : option string) (place input_id : string) : list Diagnostic :=
  match type_id with
  | Some t => diag_if (negb (literal_type_matches v t)) (at_input SevError "literal-type" place input_id)
  | None => []
  end.

Definition is_glist (v : gvalue) : bool := match v with GList _ => true | _ => false end.

Section validate.
Variable json_loads : string -> option pyval.
Variable schemas : string -> option NodeSchema.
Variable known_types : option TypeVocabulary.

Definition equivalence_of (source : string) (expected : TypeExpr) : option string :=
  match known_types with
  | Some v => match equivalents v with Some eq => plan_type_equivalence source expected eq | None => None end
  | None => None
  end.

Definition check_coercion_providers (place input_id : string) (coercion : AssetCoercionPlan) : list Diagnostic :=
  match known_types with
  | Some v => match coercion_providers v with
              | Some (decoders, merges) =>
                  map (fun _ => at_input SevError "asset-coercion-unavailable" place input_id)
                    (missing_providers coercion decoders merges)
              | None => []
              end
  | None => []
  end.

Definition mismatch (source : string) (expected : TypeExpr) : Severity :=
  if combo_type_mismatch_is_error source expected then SevError else SevWarning.

Definition cardinality_error (source expected : Cardinality) (place input_id : string) : option Diagnostic :=
  if negb (bool_decide (source = CUnknown)) && negb (bool_decide (expected = CUnknown)) && negb (bool_decide (source = expected))
  then Some (at_input SevError (if bool_decide (source = CList) then "list-into-scalar" else "scalar-into-list") place input_id)
  else None.

(** ** Links *)

(** What a link finds: nothing, a producer reported elsewhere, or an output of
    a type, unless that is unknown, that may be absent. *)
Inductive producer :=
| Dangling (code : string)
| ReportedElsewhere
| Produces (type : option TypeExpr) (optional : bool).

Definition resolve_link (lv : Level) (l : Link) : checking producer :=
  match (if String.eqb (link_node l) PORTS_NODE_ID then lv_ports lv else None) with
  | Some ports =>
      match region_port_type ports (link_output l) with
      | None => Ok (Dangling "dangling-port")
      | Some t => Ok (Produces (Some t) false)
      end
  | None =>
      match dict_get (lv_graph lv) (link_node l) with
      | None => Ok (Dangling "dangling-link")
      | Some (RegionOf _ _) =>
          match dict_get (lv_regions lv) (link_node l) with
          | None => Err (MissingKey (link_node l))
          | Some data =>
              match dict_get (interface data) (link_output l) with
              | None => Ok (Dangling "dangling-output")
              | Some t => Ok (Produces t false)
              end
          end
      | Some (NodeOf p) =>
          match dict_get (lv_effective lv) (link_node l) with
          | None => Ok ReportedElsewhere
          | Some s =>
              match output_of s (link_output l) with
              | Some o => Ok (Produces (Some (out_type o)) (out_optional o))
              | None => match schemas (Graph.node_type p) with
                        | None => Err (MissingKey (Graph.node_type p))
                        | Some _ => Ok (Dangling "dangling-output")
                        end
              end
          end
      end
  end.

(** The destination's type, lifted when the input takes whole lists too. *)
Definition destination (accepts_list source_is_list : bool) (expected : TypeExpr) : TypeExpr :=
  if accepts_list && source_is_list && negb (bool_decide (kind expected = KList)) then listed expected else expected.

(** How a source of a known type enters an input: as it is, through an
    equivalent type, through a coercion, or not. *)
Inductive admission := Accepted | Equivalent | Coerced (p : AssetCoercionPlan) | Unmatched.

Definition admit_source (source : string) (expected : TypeExpr) : admission :=
  if accepts_concrete expected source then Accepted
  else match equivalence_of source expected with
       | Some _ => Equivalent
       | None => match plan_asset_coercion source expected with Some p => Coerced p | None => Unmatched end
       end.

Definition check_produced (place input_id absent_policy : string) (accepts_list : bool)
  (expected : TypeExpr) (type : option TypeExpr) (optional : bool) : list Diagnostic :=
  diag_if (optional && String.eqb absent_policy "fail") (at_input SevWarning "maybe-absent" place input_id)
  ++ match type with
     | None => []
     | Some out_type =>
         let expected := destination accepts_list (bool_decide (kind out_type = KList)) expected in
         let admitted := match runtime_type_id out_type with Some t => admit_source t expected | None => Accepted end in
         match admitted with
         | Equivalent => []
         | Coerced p => check_coercion_providers place input_id p
         | Accepted | Unmatched =>
             match cardinality_error (cardinality out_type) (cardinality expected) place input_id with
             | Some d => [d]
             | None =>
                 match runtime_type_id out_type with
                 | Some t => diag_if (negb (accepts_concrete expected t)) (at_input (mismatch t expected) "type-mismatch" place input_id)
                 | None => []
                 end
             end
         end
     end.

Definition check_link (lv : Level) (place input_id : string) (l : Link) (expected : option TypeExpr)
  (absent_policy : string) (accepts_list : bool) : checking (list Diagnostic) :=
  p ← resolve_link lv l;
  Ok (match p, expected with
      | Dangling code, _ => [at_input SevError code place input_id]
      | ReportedElsewhere, _ | _, None => []
      | Produces t optional, Some e => check_produced place input_id absent_policy accepts_list e t optional
      end).

(** ** Typed literals *)

Definition atom_known (atom : string) : bool := match known_types with Some v => knows_atom v atom | None => true end.

(** What the destination says of a stamp, once the value's own shape is checked. *)
Definition check_stamp (place input_id type_id : string) (value : gvalue) (known : bool) (expected : TypeExpr) : list Diagnostic :=
  let accepted_as_is := accepts_concrete expected type_id in
  let equivalence := if known then equivalence_of type_id expected else None in
  let coercion := if known && negb accepted_as_is && is_None equivalence then plan_asset_coercion type_id expected else None in
  diag_if (negb (is_None (runtime_type_id expected)) && accepted_as_is) (at_input SevWarning "typed-literal-on-concrete" place input_id)
  ++ match coercion, equivalence with
     | Some p, _ => check_coercion_providers place input_id p
     | None, Some _ => []
     | None, None =>
         (if bool_decide (runtime_type_id expected = Some type_id) then []
          else check_literal_type value (runtime_type_id expected) place input_id)
         ++ match cardinality_error (runtime_cardinality type_id) (cardinality expected) place input_id with
            | Some d => [d]
            | None => diag_if (known && negb accepted_as_is) (at_input (mismatch type_id expected) "type-mismatch" place input_id)
            end
     end.

Definition check_typed_literal (place input_id type_id : string) (value : gvalue) (expected : option TypeExpr) : list Diagnostic :=
  match runtime_type_atom type_id with
  | None => [at_input SevError "typed-literal-malformed" place input_id]
  | Some atom =>
      let known := atom_known atom in
      diag_if (negb known) (at_input SevError "typed-literal-unknown-type" place input_id)
      ++ (if bool_decide (runtime_cardinality type_id = CList) && negb (is_glist value)
          then [at_input SevError "literal-shape" place input_id]
          else check_literal_type value (Some type_id) place input_id)
      ++ match expected with None => [] | Some e => check_stamp place input_id type_id value known e end
  end.

Definition check_plain_literal (place input_id : string) (value : gvalue) (expected : option TypeExpr) (asset_stamp_required : bool) :
  list Diagnostic :=
  match expected with
  | None => []
  | Some e =>
      if asset_stamp_required then [at_input SevError "unstamped-asset-widget-literal" place input_id]
      else match runtime_type_id e with
           | None => [at_input SevError "literal-on-nonconcrete" place input_id]
           | Some t =>
               if bool_decide (cardinality e = CList) && negb (is_glist value)
               then [at_input SevError "literal-shape" place input_id]
               else check_literal_type value (Some t) place input_id
           end
  end.

Definition check_input_value (lv : Level) (node_id input_id : string) (value : gvalue) (expected : option TypeExpr)
  (absent_policy : string) (asset_stamp_required accepts_list : bool) : checking (list Diagnostic) :=
  let place := lv_prefix lv +:+ node_id in
  match value with
  | GLink l => check_link lv place input_id l expected absent_policy accepts_list
  | GTyped type_id v =>
      Ok (check_typed_literal place input_id type_id v
            (destination accepts_list (negb (is_None (parse_list_type_id type_id))) <$> expected))
  | _ => Ok (check_plain_literal place input_id value expected asset_stamp_required)
  end.

(** ** Nodes *)

Definition is_string (v : gvalue) : bool := match v with GStr _ => true | _ => false end.

Definition wants_asset (v : gvalue) (d : WidgetDescriptor) : bool :=
  match d with WAsset w => negb (aw_selection w && is_string v) | _ => false end.

Definition asset_stamp_required (spec : InputSpec) (v : gvalue) : bool :=
  match in_widget spec with
  | Some (Single d) => wants_asset v d
  | Some (Named r) => forallb (fun rep => wants_asset v (wr_widget rep)) (representations r)
  | None => false
  end
  && bool_decide (kind (in_type spec) = KConcrete) && negb (bool_decide (Ok (in_type spec) = concrete ASSET_TYPE)).

(** The members of an input family, by the first segment after its id. *)
Definition member_count (family_id : string) (ids : list string) : Z :=
  Z.of_nat (size (list_to_set (C := gset string) (omap (fun id => before_char "."%char <$> member_suffix family_id id) ids))).

Definition above (n : Z) (max : option Z) : bool := match max with Some m => m <? n | None => false end.

Definition check_input_family (place : string) (n : GraphNode) (f : InputFamilySpec) : list Diagnostic :=
  let count := member_count (fam_id f) (keys (node_inputs n) ++ keys (slot_variants n)) in
  diag_if (negb (fam_optional_after_minimum f) && (count <? fam_min_members f)) (diag_error "family-too-few" place)
  ++ diag_if (above count (fam_max_members f)) (diag_error "family-too-many" place).

Definition check_output_family (place : string) (n : GraphNode) (f : OutputFamilySpec) : list Diagnostic :=
  let count := Z.of_nat (length (default [] (dict_get (output_members n) (of_id f)))) in
  diag_if (count <? of_min_members f) (diag_error "family-too-few" place)
  ++ diag_if (above count (of_max_members f)) (diag_error "family-too-many" place).

(** Loops that collect diagnostics, or raise. *)
Fixpoint collect {A} (f : A -> checking (list Diagnostic)) (l : list A) : checking (list Diagnostic) :=
  match l with
  | [] => Ok []
  | a :: l' => d ← f a; ds ← collect f l'; Ok (d ++ ds)
  end.

Definition check_node_input (lv : Level) (node_id : string) (schema : NodeSchema) (kv : string * gvalue) : checking (list Diagnostic) :=
  match input_of schema kv.1 with
  | None => Ok [at_input SevError "unknown-input" (lv_prefix lv +:+ node_id) kv.1]
  | Some spec =>
      check_input_value lv node_id kv.1 kv.2 (Some (in_type spec)) (absent_policy spec)
        (asset_stamp_required spec kv.2) (in_accepts_list spec)
  end.

Definition missing_input (n : GraphNode) (spec : InputSpec) : bool :=
  in_required spec && match in_default spec with VNone => true | _ => false end && negb (dict_mem (node_inputs n) (in_id spec)).

Definition validate_graph_node (lv : Level) (node_id : string) (n : GraphNode) : checking (list Diagnostic) :=
  let place := lv_prefix lv +:+ node_id in
  match schemas (Graph.node_type n) with
  | None => Ok []
  | Some base =>
      let families := concat (map (fun f => check_input_family place n f.1) (input_families base)) in
      match dict_get (lv_effective lv) node_id with
      | None => Ok families
      | Some schema =>
          ins ← collect (check_node_input lv node_id schema) (node_inputs n);
          Ok (families
              ++ concat (map (check_output_family place n) (output_families base))
              ++ ins
              ++ map (fun spec => at_input SevError "missing-input" place (in_id spec))
                   (List.filter (missing_input n) (inputs schema)))
      end
  end.

(** ** Regions *)

Definition shape_error (place : string) (input_id : option string) : Diagnostic :=
  mkDiag SevError "region-shape" (Some place) input_id.

Definition check_port (r : RegionNode) (place port : string) : list Diagnostic :=
  diag_if (negb (dict_mem (rn_ports r) port)) (at_input SevError "undeclared-port" place port)
  ++ diag_if (negb (dict_mem (rn_inputs r) port)) (at_input SevError "missing-input" place port).

(** How many shape errors a region's kind gives. *)
Definition kind_errors (r : RegionNode) : list bool :=
  match rn_kind r with
  | RMap => [is_nil (rn_element_ports r); negb (is_nil (rn_state_ports r)); negb (is_None (rn_continue_source r))]
  | RFold => [is_nil (rn_element_ports r); negb (is_None (rn_continue_source r))]
  | RWhile =>
      [negb (is_nil (rn_element_ports r)); is_nil (rn_state_ports r); is_None (rn_continue_source r);
       is_None (rn_max_iterations r); match rn_binding r with BZip => false | _ => true end]
  end.

Definition state_outputs (r : RegionNode) : gset string :=
  list_to_set (map fst (List.filter (fun o => bool_decide (ro_mode o.2 = OState)) (rn_outputs r))).

Definition check_region_shape (place : string) (r : RegionNode) (body : Graph) : list Diagnostic :=
  concat (map (fun i => diag_if (negb (dict_mem (rn_ports r) i)) (at_input SevError "undeclared-port" place i)) (keys (rn_inputs r)))
  ++ concat (map (check_port r place) (rn_element_ports r ++ rn_state_ports r))
  ++ map (fun p => shape_error place (Some p))
       (sorted_set (list_to_set (rn_element_ports r) ∩ list_to_set (rn_state_ports r)))
  ++ concat (map (fun b => diag_if b (shape_error place None)) (kind_errors r))
  ++ diag_if (match rn_max_iterations r with Some m => m <? 1 | None => false end) (shape_error place None)
  ++ diag_if (is_nil (rn_outputs r) && is_nil (output_node_targets schemas body)) (shape_error place None)
  ++ concat (map (fun p => diag_if (negb (bool_decide (p ∈ state_outputs r))) (at_input SevError "state-chain" place p)) (rn_state_ports r))
  ++ map (at_input SevError "state-chain" place) (sorted_set (state_outputs r ∖ list_to_set (rn_state_ports r))).

Definition check_output_type (place : string) (r : RegionNode) (out_id : string) (mode : OutputMode) (src : TypeExpr) : list Diagnostic :=
  match mode with
  | OGather | OCompact | OLast => diag_if (is_None (runtime_type_id src)) (at_input SevError "gather-nonconcrete" place out_id)
  | OFlatten =>
      if negb (bool_decide (cardinality src = CList)) then [at_input SevError "flatten-non-list" place out_id]
      else diag_if (is_None (runtime_type_id src)) (at_input SevError "flatten-nonconcrete" place out_id)
  | OState =>
      match dict_get (rn_ports r) out_id, runtime_type_id src with
      | Some port, Some t => diag_if (negb (accepts_concrete port t)) (at_input (mismatch t port) "type-mismatch" place out_id)
      | _, _ => []
      end
  end.

Definition check_region_output (place : string) (r : RegionNode) (body : Graph) (data : region_data) (o : string * RegionOutput) :
  list Diagnostic :=
  if negb (body_output_exists (rn_ports r) body data (ro_source o.2)) then [at_input SevError "dangling-output" place o.1]
  else match body_output_type (rn_ports r) data (ro_source o.2) with
       | None => []
       | Some src => check_output_type place r o.1 (ro_mode o.2) src
       end.

Definition BOOLEAN_TYPE : TypeExpr := mkTypeExpr KConcrete [CORE_BOOLEAN] "" None [] "" None.

Definition check_continue (place : string) (r : RegionNode) (body : Graph) (data : region_data) : list Diagnostic :=
  match rn_continue_source r with
  | None => []
  | Some source =>
      if negb (body_output_exists (rn_ports r) body data source) then [diag_error "dangling-output" place]
      else match (t ← body_output_type (rn_ports r) data source; runtime_type_id t) with
           | None => []
           | Some t => diag_if (negb (String.eqb t CORE_BOOLEAN)) (mkDiag (mismatch t BOOLEAN_TYPE) "type-mismatch" (Some place) None)
           end
  end.

Definition check_region_input (lv : Level) (node_id : string) (r : RegionNode) (kv : string * gvalue) : checking (list Diagnostic) :=
  let expected := match dict_get (rn_ports r) kv.1 with
                  | None => None
                  | Some t => Some (if str_in kv.1 (rn_element_ports r) then listed t else t)
                  end in
  check_input_value lv node_id kv.1 kv.2 expected "skip" false false.

(** ** Levels *)

Definition bad_node_id (node_id : string) : bool := empty_str node_id || str_any forbidden_char node_id.

(** [_validate_level], given the check of one node. *)
Definition validate_level (f : string -> AnyNode -> checking (list Diagnostic)) (lv : Level) (nodes : Graph) : checking (list Diagnostic) :=
  '(_, output_diags) ← resolve_linked_output_types (lv_graph lv) (default [] (lv_ports lv)) (lv_effective lv) (lv_regions lv) false;
  own ← collect (fun kn => f kn.1 kn.2) nodes;
  Ok (map (prefixed (lv_prefix lv)) output_diags
      ++ diag_if (dict_mem (lv_graph lv) PORTS_NODE_ID) (diag_error "reserved-node-id" (lv_prefix lv +:+ PORTS_NODE_ID))
      ++ concat (map (fun i => diag_if (bad_node_id i) (diag_error "invalid-node-id" (lv_prefix lv +:+ i))) (keys (lv_graph lv)))
      ++ own
      ++ match find_cycle (lv_graph lv) with Some _ => [mkDiag SevError "cycle" None None] | None => [] end).

Definition body_level (lv : Level) (node_id : string) (r : RegionNode) (body : Graph) (data : region_data) : Level :=
  mkLevel body (body_effective data) (body_regions data) (Some (rn_ports r)) (lv_prefix lv +:+ (node_id +:+ "/")).

Definition body_targets (r : RegionNode) (body : Graph) : list string :=
  map (fun o => link_node (ro_source o.2)) (rn_outputs r) ++ output_node_targets schemas body
  ++ match rn_continue_source r with Some l => [link_node l] | None => [] end.

Fixpoint validate_node (lv : Level) (node_id : string) (n : AnyNode) : checking (list Diagnostic) :=
  match n with
  | NodeOf g => validate_graph_node lv node_id g
  | RegionOf r body =>
      let place := lv_prefix lv +:+ node_id in
      match dict_get (lv_regions lv) node_id with
      | None => Err (MissingKey node_id)
      | Some data =>
          let inner := body_level lv node_id r body data in
          ins ← collect (check_region_input lv node_id r) (rn_inputs r);
          below ← validate_level (validate_node inner) inner body;
          Ok (check_region_shape place r body
              ++ concat (map (check_region_output place r body data) (rn_outputs r))
              ++ check_continue place r body data
              ++ ins
              ++ below
              ++ match find_cycle body with
                 | Some _ => []
                 | None => map (prefixed (lv_prefix inner)) (validate_loops body (body_targets r body) []).2
                 end)
      end
  end.

Definition is_cycle_code (d : Diagnostic) : bool := String.eqb (d_code d) "cycle".

Definition validate (g : Graph) (targets : list string) (effective : option (list (string * NodeSchema)))
  (ports : option (list (string * TypeExpr))) (loop_pairs : list (string * LoopPair)) : checking (list Diagnostic) :=
  '(top, regions, diags) ← interface_pass json_loads schemas g "" (is_None effective);
  let lv := mkLevel g (default top effective) regions ports "" in
  below ← validate_level (validate_node lv) lv g;
  let diags := diags
    ++ concat (map (fun t => diag_if (negb (dict_mem g t)) (mkDiag SevError "unknown-target" None None)) targets)
    ++ below in
  Ok (diags ++ if existsb is_cycle_code diags then [] else (validate_loops g targets loop_pairs).2).
End validate.

(** * Diagnostics without errors *)

Definition clean (ds : list Diagnostic) : Prop := has_errors ds = false.

Lemma clean_app a b : clean (a ++ b) <-> clean a /\ clean b.
Proof. unfold clean, has_errors. rewrite existsb_app, orb_false_iff. done. Qed.

Lemma clean_cons d b : clean (d :: b) <-> is_error d = false /\ clean b.
Proof. unfold clean, has_errors. cbn. by rewrite orb_false_iff. Qed.

Lemma clean_nil : clean [].
Proof. done. Qed.

Lemma clean_one severity code n i : clean [mkDiag severity code n i] <-> severity = SevWarning.
Proof. rewrite clean_cons. unfold is_error. cbn. destruct severity; split; naive_solver. Qed.

Lemma clean_concat {A} (f : A -> list Diagnostic) l : clean (concat (map f l)) <-> forall a, a ∈ l -> clean (f a).
Proof.
  induction l as [|a l IH]; cbn; [split; [by intros _ a ?%not_elem_of_nil|done]|].
  rewrite clean_app, IH. split; [by intros [] x [->|]%elem_of_cons; auto|].
  intros H. split; [apply H; left|]. intros x Hx. apply H. by right.
Qed.

Lemma clean_map {A} (f : A -> Diagnostic) l : clean (map f l) <-> forall a, a ∈ l -> is_error (f a) = false.
Proof.
  induction l as [|a l IH]; cbn; [split; [by intros _ a ?%not_elem_of_nil|done]|].
  rewrite clean_cons, IH. split; [by intros [] x [->|]%elem_of_cons; auto|].
  intros H. split; [apply H; left|]. intros x Hx. apply H. by right.
Qed.

Lemma clean_map_errors {A} (f : A -> Diagnostic) l : (forall a, is_error (f a) = true) -> clean (map f l) <-> l = [].
Proof.
  intros Hf. rewrite clean_map. destruct l as [|a l]; [split; [done|by intros _ a ?%not_elem_of_nil]|].
  split; [|done]. intros H. specialize (H a ltac:(left)). by rewrite Hf in H.
Qed.

Lemma clean_if c d : is_error d = true -> clean (diag_if c d) <-> c = false.
Proof. intros Hd. destruct c; cbn; [|done]. rewrite clean_cons, Hd. naive_solver. Qed.

Lemma prefixed_error prefix d : is_error (prefixed prefix d) = is_error d.
Proof. unfold prefixed, is_error. by destruct (d_node_id d). Qed.

Lemma collect_clean {A} (f : A -> checking (list Diagnostic)) l ds :
  collect f l = Ok ds -> clean ds -> forall a, a ∈ l -> exists d, f a = Ok d /\ clean d.
Proof.
  revert ds. induction l as [|b l IH]; intros ds; cbn [collect]; [by intros _ _ a ?%not_elem_of_nil|].
  intros (d & Hd & (ds' & Hds & [= <-])%bind_ok)%bind_ok [Hc1 Hc2]%clean_app a [->|Ha]%elem_of_cons; [by exists d|].
  by eapply IH.
Qed.

(** * What validation derives is there *)

(** A document's dicts have distinct keys, at every level. *)
Fixpoint distinct_keys (n : AnyNode) : bool :=
  match n with
  | NodeOf _ => true
  | RegionOf _ body => bool_decide (NoDup (keys body)) && forallb (fun kn => distinct_keys kn.2) body
  end.

Definition distinct_graph (g : Graph) : bool := bool_decide (NoDup (keys g)) && forallb (fun kn => distinct_keys kn.2) g.

Section sound.
Variable json_loads : string -> option pyval.
Variable schemas : string -> option NodeSchema.
Variable known_types : option TypeVocabulary.
Notation validate_level lv := (validate_level (validate_node schemas known_types lv) lv (lv_graph lv)).

(** The levels of a document: itself and, inside each region, its body's. *)
Inductive inside : Level -> Level -> Prop :=
| inside_here lv : inside lv lv
| inside_body lv node_id r body data lv' :
    (node_id, RegionOf r body) ∈ lv_graph lv -> dict_get (lv_regions lv) node_id = Some data ->
    inside (body_level lv node_id r body data) lv' -> inside lv lv'.

(** A level whose interfaces are what elaboration made of it, without errors. *)
Definition derived (lv : Level) : Prop :=
  distinct_graph (lv_graph lv) = true
  /\ exists prefix diags, interface_pass json_loads schemas (lv_graph lv) prefix true = Ok (lv_effective lv, lv_regions lv, diags)
       /\ clean diags.

Lemma elaborate_graph_clean g eff diags :
  elaborate_graph json_loads schemas g = Ok (eff, diags) -> clean diags -> NoDup (keys g) ->
  (forall node_id n, (node_id, NodeOf n) ∈ g ->
     exists base s, schemas (Graph.node_type n) = Some base /\ elaborate_node json_loads base n = Ok s
       /\ dict_get eff node_id = Some s)
  /\ forall node_id s, dict_get eff node_id = Some s -> exists n, (node_id, NodeOf n) ∈ g.
Proof.
  revert eff diags. induction g as [|[k [n|r body]] g IH]; intros eff diags; cbn [elaborate_graph].
  - intros [= <- <-] _ _. split; [by intros ? ? ?%not_elem_of_nil|done].
  - destruct (schemas (Graph.node_type n)) as [base|] eqn:Es.
    + destruct (elaborate_node json_loads base n) as [s|[]] eqn:Ee; [| |done|done].
      * intros ([eff' diags'] & Hr & [= <- <-])%bind_ok Hc [Hk Hnd]%NoDup_cons.
        destruct (IH _ _ Hr Hc Hnd) as [IH1 IH2]. split.
        -- intros k' n' [[= -> ->]|Hin]%elem_of_cons.
           ++ exists base, s. split_and!; [done|done|]. cbn. by rewrite decide_True by done.
           ++ destruct (IH1 k' n' Hin) as (base' & s' & ? & ? & ?). exists base', s'. split_and!; [done|done|].
              cbn. rewrite decide_False; [done|]. intros ->. apply Hk. apply list_elem_of_fmap. by exists (k, NodeOf n').
        -- intros k' s'. cbn. case_decide as Hd; [intros _; subst; exists n; left|]. intros Hg.
           destruct (IH2 k' s' Hg) as [n' Hn']. exists n'. by right.
      * intros ([eff' diags'] & Hr & [= <- <-])%bind_ok Hc. apply clean_cons in Hc as [[=] _].
    + intros ([eff' diags'] & Hr & [= <- <-])%bind_ok Hc. apply clean_cons in Hc as [[=] _].
  - intros Hr Hc [_ Hnd]%NoDup_cons. destruct (IH _ _ Hr Hc Hnd) as [IH1 IH2]. split.
    + intros k' n' [[=]|Hin]%elem_of_cons. by apply IH1.
    + intros k' s' Hg. destruct (IH2 k' s' Hg) as [n' Hn']. exists n'. by right.
Qed.

Lemma pass_regions_clean f g regions diags :
  pass_regions f g = Ok (regions, diags) -> clean diags -> NoDup (keys g) ->
  (forall k n data, (k, n) ∈ g -> dict_get regions k = Some data -> exists d, f k n = Ok (Some data, d) /\ clean d)
  /\ (forall k n, (k, n) ∈ g -> dict_get regions k = None -> exists d, f k n = Ok (None, d))
  /\ forall k data, dict_get regions k = Some data -> k ∈ keys g.
Proof.
  revert regions diags. induction g as [|[k n] g IH]; intros regions diags; cbn [pass_regions].
  { intros [= <- <-] _ _. split_and!; [by intros ? ? ? ?%not_elem_of_nil|by intros ? ? ?%not_elem_of_nil|done]. }
  intros ([o d] & Hf & ([rs ds] & Hr & [= <- <-])%bind_ok)%bind_ok [Hc1 Hc2]%clean_app [Hk Hnd]%NoDup_cons.
  destruct (IH _ _ Hr Hc2 Hnd) as (IH1 & IH2 & IH3).
  assert (Hrk : dict_get rs k = None).
  { destruct (dict_get rs k) eqn:E; [|done]. by apply IH3 in E. }
  assert (Hne : forall k' n', (k', n') ∈ g -> k' <> k).
  { intros k' n' Hin ->. apply Hk. apply list_elem_of_fmap. by exists (k, n'). }
  assert (Hget : forall k', k' <> k -> dict_get (match o with Some x => (k, x) :: rs | None => rs end) k' = dict_get rs k').
  { intros k' Hn. destruct o; [|done]. cbn. by rewrite decide_False. }
  split_and!.
  - intros k' n' data [[= -> ->]|Hin]%elem_of_cons.
    + destruct o as [x|]; cbn; [rewrite decide_True by done; intros [= ->]; eauto|congruence].
    + rewrite Hget by by eapply Hne. by apply IH1.
  - intros k' n' [[= -> ->]|Hin]%elem_of_cons.
    + destruct o as [x|]; cbn; [by rewrite decide_True by done|eauto].
    + rewrite Hget by by eapply Hne. by apply IH2.
  - intros k' data. destruct (decide (k' = k)) as [->|Hn]; [by left|]. rewrite Hget by done. intros H. right. by eapply IH3.
Qed.

Lemma derived_pieces lv :
  derived lv -> exists prefix elab_diags diags,
    elaborate_graph json_loads schemas (lv_graph lv) = Ok (lv_effective lv, elab_diags) /\ clean elab_diags
    /\ pass_regions (region_pass json_loads schemas prefix) (lv_graph lv) = Ok (lv_regions lv, diags) /\ clean diags
    /\ NoDup (keys (lv_graph lv)) /\ forall k n, (k, n) ∈ lv_graph lv -> distinct_keys n = true.
Proof.
  intros [Hd (prefix & diags & Hp & Hc)]. unfold interface_pass in Hp.
  apply bind_ok in Hp as ([eff ed] & He & Hp). apply bind_ok in Hp as ([regions rd] & Hr & Hp). injection Hp as <- <- <-.
  apply clean_app in Hc as [Hc1 Hc2]. apply andb_true_iff in Hd as [Hnd Hall]. apply bool_decide_eq_true in Hnd.
  exists prefix, ed, rd. split_and!; try done.
  - unfold clean, has_errors. apply not_true_iff_false. intros (d & Hd & He')%existsb_exists.
    apply clean_map with (a := d) in Hc1; [|by apply list_elem_of_In]. rewrite prefixed_error in Hc1. congruence.
  - intros k n Hin. rewrite forallb_forall in Hall. apply (Hall (k, n)). by apply list_elem_of_In.
Qed.

(** Every node of a derived level has its elaborated interface. *)
Lemma derived_node lv node_id n :
  derived lv -> (node_id, NodeOf n) ∈ lv_graph lv ->
  exists base s, schemas (Graph.node_type n) = Some base /\ elaborate_node json_loads base n = Ok s
    /\ dict_get (lv_effective lv) node_id = Some s.
Proof.
  intros (prefix & ed & rd & He & Hc & _ & _ & Hnd & _)%derived_pieces Hin.
  destruct (elaborate_graph_clean _ _ _ He Hc Hnd) as [H _]. by apply H.
Qed.

(** The body of a region of a derived level is derived. *)
Lemma derived_body lv node_id r body data :
  derived lv -> (node_id, RegionOf r body) ∈ lv_graph lv -> dict_get (lv_regions lv) node_id = Some data ->
  derived (body_level lv node_id r body data).
Proof.
  intros (prefix & ed & rd & He & Hc & Hr & Hcr & Hnd & Hall)%derived_pieces Hin Hg.
  destruct (pass_regions_clean _ _ _ _ Hr Hcr Hnd) as (H1 & _ & _).
  destruct (H1 _ _ _ Hin Hg) as (d & Hd & Hcd). cbn [region_pass] in Hd.
  apply bind_ok in Hd as ([eff ed'] & He' & Hd). apply bind_ok in Hd as ([rs rd'] & Hr' & Hd).
  apply bind_ok in Hd as ([ts td] & Ht & Hd). injection Hd as <- <-. apply clean_app in Hcd as [Hc1 Hc2].
  split; [exact (Hall _ _ Hin)|]. eexists (prefix +:+ (node_id +:+ "/")), _. unfold interface_pass, body_level. cbn [lv_graph lv_effective lv_regions body_effective body_regions].
  rewrite He'. cbn [mbind result_bind]. rewrite Hr'. cbn [mbind result_bind]. split; [done|]. by apply clean_app.
Qed.

Lemma derived_region lv node_id r body :
  derived lv -> (node_id, RegionOf r body) ∈ lv_graph lv -> exists data, dict_get (lv_regions lv) node_id = Some data.
Proof.
  intros (prefix & ed & rd & He & Hc & Hr & Hcr & Hnd & Hall)%derived_pieces Hin.
  destruct (pass_regions_clean _ _ _ _ Hr Hcr Hnd) as (_ & H2 & _).
  destruct (dict_get (lv_regions lv) node_id) as [data|] eqn:E; [by exists data|].
  destruct (H2 _ _ Hin E) as (d & Hd). cbn [region_pass] in Hd.
  repeat (apply bind_ok in Hd as ([? ?] & ? & Hd)). done.
Qed.

(** * What an accepted level is *)

Definition accepted (lv : Level) : Prop :=
  derived lv /\ exists ds, validate_level lv = Ok ds /\ clean ds.

Lemma accepted_pieces lv :
  accepted lv ->
  (forall node_id n, (node_id, n) ∈ lv_graph lv ->
     exists d, validate_node schemas known_types lv node_id n = Ok d /\ clean d)
  /\ find_cycle (lv_graph lv) = None
  /\ PORTS_NODE_ID ∉ keys (lv_graph lv)
  /\ (forall k, k ∈ keys (lv_graph lv) -> bad_node_id k = false).
Proof.
  intros [_ (ds & ([types od] & _ & (own & Ho & [= <-])%bind_ok)%bind_ok & Hc)].
  rewrite !clean_app in Hc. destruct Hc as (_ & Hp & Hb & Hown & Hcy). split_and!.
  - intros node_id n Hin. exact (collect_clean _ _ _ Ho Hown (node_id, n) Hin).
  - destruct (find_cycle (lv_graph lv)); [|done]. by apply clean_one in Hcy.
  - apply clean_if in Hp; [|done]. intros Hin%dict_mem_true. congruence.
  - intros k Hk. rewrite clean_concat in Hb. specialize (Hb k Hk). by apply clean_if in Hb.
Qed.

Lemma accepted_body lv node_id r body data :
  accepted lv -> (node_id, RegionOf r body) ∈ lv_graph lv -> dict_get (lv_regions lv) node_id = Some data ->
  accepted (body_level lv node_id r body data)
  /\ clean (validate_loops body (body_targets schemas r body) []).2.
Proof.
  intros Hacc Hin Hg. pose proof (accepted_pieces lv Hacc) as (Hnodes & _). destruct Hacc as [Hd _].
  destruct (Hnodes _ _ Hin) as (d & Hv & Hc). cbn [validate_node] in Hv. rewrite Hg in Hv.
  apply bind_ok in Hv as (ins & _ & Hv). apply bind_ok in Hv as (below & Hb & Hv). injection Hv as <-.
  rewrite !clean_app in Hc. destruct Hc as (_ & _ & _ & _ & Hcb & Hl).
  assert (Ha : accepted (body_level lv node_id r body data)).
  { split; [by apply derived_body|]. exists below. by split. }
  split; [done|]. pose proof (accepted_pieces _ Ha) as (_ & Hcy & _). cbn [lv_graph body_level] in Hcy. rewrite Hcy in Hl.
  rewrite clean_map in Hl. rewrite <- (map_id (validate_loops _ _ _).2). apply clean_map. intros x Hx.
  rewrite <- (prefixed_error (lv_prefix (body_level lv node_id r body data))). by apply Hl.
Qed.

Lemma accepted_inside lv lv' : inside lv lv' -> accepted lv -> accepted lv'.
Proof. induction 1 as [|lv node_id r body data lv' Hin Hg _ IH]; [done|]. intros Ha. apply IH. by apply accepted_body. Qed.

(** A source of a known type suits a destination. *)
Inductive suits (source : string) (expected : TypeExpr) : Prop :=
| suits_as_is : accepts_concrete expected source = true -> suits source expected
| suits_equivalent counterpart :
    equivalence_of known_types source expected = Some counterpart -> accepts_concrete expected counterpart = true -> suits source expected
| suits_coerced p :
    plan_asset_coercion source expected = Some p ->
    (forall v decoders merges, known_types = Some v -> coercion_providers v = Some (decoders, merges) ->
       missing_providers p decoders merges = []) -> suits source expected
| suits_loosely : combo_type_mismatch_is_error source expected = false -> suits source expected.

(** Cardinalities that do not contradict each other. *)
Definition same_shape (source expected : Cardinality) : Prop :=
  source = CUnknown \/ expected = CUnknown \/ source = expected.

Lemma cardinality_error_none a b place input_id : cardinality_error a b place input_id = None <-> same_shape a b.
Proof.
  unfold cardinality_error, same_shape.
  destruct (bool_decide (a = CUnknown)) eqn:Ha, (bool_decide (b = CUnknown)) eqn:Hb, (bool_decide (a = b)) eqn:Hab; cbn;
    rewrite ?bool_decide_eq_true, ?bool_decide_eq_false in *; split; try done; tauto.
Qed.

(** A list never enters a scalar input as it is, nor a scalar a list input; only
    an equivalence or a coercion changes the shape. *)
Definition enters (accepts_list : bool) (expected out_type : TypeExpr) : Prop :=
  let expected := destination accepts_list (bool_decide (kind out_type = KList)) expected in
  match runtime_type_id out_type with
  | None => same_shape (cardinality out_type) (cardinality expected)
  | Some t => suits t expected
      /\ (accepts_concrete expected t = true \/ (equivalence_of known_types t expected = None /\ plan_asset_coercion t expected = None) ->
          same_shape (cardinality out_type) (cardinality expected))
  end.

Lemma clean_mismatch source expected place input_id :
  clean [at_input (mismatch source expected) "type-mismatch" place input_id] <-> combo_type_mismatch_is_error source expected = false.
Proof. unfold at_input. rewrite clean_one. unfold mismatch. destruct (combo_type_mismatch_is_error source expected); naive_solver. Qed.

Lemma clean_providers place input_id p :
  clean (check_coercion_providers known_types place input_id p) ->
  forall v decoders merges, known_types = Some v -> coercion_providers v = Some (decoders, merges) ->
    missing_providers p decoders merges = [].
Proof.
  intros Hc v decoders merges -> Hp. cbn in Hc. rewrite Hp in Hc. by apply clean_map_errors in Hc.
Qed.

Lemma equivalence_accepts source expected c :
  equivalence_of known_types source expected = Some c -> accepts_concrete expected c = true /\ accepts_concrete expected source = false.
Proof.
  unfold equivalence_of. destruct known_types as [v|]; [|done]. destruct (equivalents v) as [eq|]; [|done].
  unfold plan_type_equivalence. destruct (accepts_concrete expected source); [done|]. destruct (eq source) as [c'|]; [|done].
  destruct (accepts_concrete expected c') eqn:E; [|done]. by intros [= <-].
Qed.

Lemma check_produced_clean place input_id policy accepts_list expected out_type optional :
  clean (check_produced known_types place input_id policy accepts_list expected (Some out_type) optional) ->
  enters accepts_list expected out_type.
Proof.
  unfold check_produced, enters. rewrite clean_app. intros [_ Hc].
  set (e := destination accepts_list (bool_decide (kind out_type = KList)) expected) in *.
  destruct (runtime_type_id out_type) as [t|] eqn:Et.
  - unfold admit_source in Hc. destruct (accepts_concrete e t) eqn:Ea; cbn [negb diag_if] in Hc.
    + split; [by constructor|]. intros _.
      destruct (cardinality_error (cardinality out_type) (cardinality e) place input_id) as [d|] eqn:Ed; [|by eapply cardinality_error_none].
      unfold cardinality_error in Ed. destruct (_ && _ && _); [|done]. injection Ed as <-. by apply clean_one in Hc.
    + destruct (equivalence_of known_types t e) as [c|] eqn:Hq.
      { split; [|intros [?|[? _]]; congruence]. eapply suits_equivalent; [exact Hq|]. by apply equivalence_accepts in Hq as [? _]. }
      destruct (plan_asset_coercion t e) as [p|] eqn:Ep.
      { split; [|intros [?|[_ ?]]; congruence]. eapply suits_coerced; [exact Ep|]. by eapply clean_providers. }
      destruct (cardinality_error (cardinality out_type) (cardinality e) place input_id) as [d|] eqn:Ed.
      { unfold cardinality_error in Ed. destruct (_ && _ && _); [|done]. injection Ed as <-. by apply clean_one in Hc. }
      apply clean_mismatch in Hc. split; [by apply suits_loosely|]. intros _. by eapply cardinality_error_none.
  - destruct (cardinality_error (cardinality out_type) (cardinality e) place input_id) as [d|] eqn:Ed; [|by eapply cardinality_error_none].
    unfold cardinality_error in Ed. destruct (_ && _ && _); [|done]. injection Ed as <-. by apply clean_one in Hc.
Qed.

(** What a link reads: a port of the enclosing region, an output of a region, or
    an output of a node's elaborated interface. *)
Inductive reads (lv : Level) (l : Link) : option TypeExpr -> Prop :=
| reads_port ports t :
    link_node l = PORTS_NODE_ID -> lv_ports lv = Some ports -> region_port_type ports (link_output l) = Some t -> reads lv l (Some t)
| reads_region r body data t :
    dict_get (lv_graph lv) (link_node l) = Some (RegionOf r body) -> dict_get (lv_regions lv) (link_node l) = Some data ->
    dict_get (interface data) (link_output l) = Some t -> reads lv l t
| reads_node n s o :
    dict_get (lv_graph lv) (link_node l) = Some (NodeOf n) -> dict_get (lv_effective lv) (link_node l) = Some s ->
    output_of s (link_output l) = Some o -> reads lv l (Some (out_type o)).

(** A value suits the input it is given to. *)
Definition well_fed (lv : Level) (accepts_list : bool) (expected : TypeExpr) (v : gvalue) : Prop :=
  match v with
  | GLink l => exists t, reads lv l t /\ forall t', t = Some t' -> enters accepts_list expected t'
  | GTyped type_id u => exists atom, runtime_type_atom type_id = Some atom /\ atom_known known_types atom = true
      /\ literal_type_matches u type_id = true
      /\ suits type_id (destination accepts_list (negb (is_None (parse_list_type_id type_id))) expected)
  | _ => exists t, runtime_type_id expected = Some t /\ literal_type_matches v t = true
  end.

Lemma resolve_link_reads lv l p :
  derived lv -> resolve_link schemas lv l = Ok p ->
  match p with
  | Dangling _ => True
  | ReportedElsewhere => False
  | Produces t _ => reads lv l t
  end.
Proof.
  intros Hd. unfold resolve_link. destruct (if String.eqb (link_node l) PORTS_NODE_ID then lv_ports lv else None) as [ports|] eqn:Ep.
  - destruct (String.eqb_spec (link_node l) PORTS_NODE_ID) as [Hn|]; [|done].
    destruct (region_port_type ports (link_output l)) eqn:Et; intros [= <-]; [by eapply reads_port|done].
  - destruct (dict_get (lv_graph lv) (link_node l)) as [[n|r body]|] eqn:Eg; [| |by intros [= <-]].
    + pose proof (dict_get_elem _ _ _ Eg) as Hin. destruct (derived_node lv _ _ Hd Hin) as (base & s & Hs & _ & He).
      rewrite He, Hs. destruct (output_of s (link_output l)) as [o|] eqn:Eo; intros [= <-]; [by eapply reads_node|done].
    + destruct (dict_get (lv_regions lv) (link_node l)) as [data|] eqn:Er; [|done].
      destruct (dict_get (interface data) (link_output l)) as [t|] eqn:Ei; intros [= <-]; [by eapply reads_region|done].
Qed.

Lemma check_literal_clean v t place input_id :
  clean (check_literal_type v (Some t) place input_id) <-> literal_type_matches v t = true.
Proof. unfold check_literal_type. rewrite clean_if by done. apply negb_false_iff. Qed.

Lemma clean_error d ds : clean (d :: ds) -> is_error d = false.
Proof. by intros [H _]%clean_cons. Qed.

Lemma check_stamp_clean place input_id type_id v expected :
  clean (check_stamp known_types place input_id type_id v true expected) -> suits type_id expected.
Proof.
  unfold check_stamp. rewrite clean_app. intros [_ Hc]. cbn [andb] in Hc.
  destruct (equivalence_of known_types type_id expected) as [c|] eqn:Hq.
  { eapply suits_equivalent; [exact Hq|]. by apply equivalence_accepts in Hq as [? _]. }
  destruct (accepts_concrete expected type_id) eqn:Ea; cbn [negb is_None andb] in Hc; [by apply suits_as_is|].
  destruct (plan_asset_coercion type_id expected) as [p|] eqn:Ep.
  { eapply suits_coerced; [exact Ep|]. by eapply clean_providers. }
  apply clean_app in Hc as [_ Hc].
  destruct (cardinality_error _ _ place input_id) as [d|] eqn:Ed.
  { unfold cardinality_error in Ed. destruct (_ && _ && _); [|done]. injection Ed as <-. by apply clean_one in Hc. }
  apply clean_mismatch in Hc. by apply suits_loosely.
Qed.

Lemma check_typed_clean place input_id type_id v expected :
  clean (check_typed_literal known_types place input_id type_id v (Some expected)) ->
  exists atom, runtime_type_atom type_id = Some atom /\ atom_known known_types atom = true
    /\ literal_type_matches v type_id = true /\ suits type_id expected.
Proof.
  unfold check_typed_literal. destruct (runtime_type_atom type_id) as [atom|]; [|by intros ?%clean_error].
  rewrite !clean_app. intros (Hk & Hl & Hs). apply clean_if in Hk; [|done]. apply negb_false_iff in Hk.
  exists atom. split_and!; [done|done| |rewrite Hk in Hs; by eapply check_stamp_clean].
  destruct (bool_decide (runtime_cardinality type_id = CList) && negb (is_glist v)); [by apply clean_error in Hl|].
  by eapply check_literal_clean.
Qed.

Lemma check_plain_clean place input_id v expected stamp :
  clean (check_plain_literal place input_id v (Some expected) stamp) ->
  exists t, runtime_type_id expected = Some t /\ literal_type_matches v t = true.
Proof.
  unfold check_plain_literal. destruct stamp; [by intros ?%clean_error|].
  destruct (runtime_type_id expected) as [t|]; [|by intros ?%clean_error].
  destruct (bool_decide _ && _); [by intros ?%clean_error|]. intros Hc. exists t. split; [done|]. by eapply check_literal_clean.
Qed.

Lemma check_input_clean lv node_id input_id v expected policy stamp accepts_list d :
  derived lv -> check_input_value schemas known_types lv node_id input_id v (Some expected) policy stamp accepts_list = Ok d ->
  clean d -> well_fed lv accepts_list expected v.
Proof.
  intros Hd. unfold check_input_value. destruct v as [l|type_id u| |b|z|f|st|l|dd|c];
    try (intros [= <-] Hc; by eapply check_plain_clean).
  - unfold check_link. intros (p & Hp & [= <-])%bind_ok Hc. pose proof (resolve_link_reads lv l p Hd Hp) as Hr.
    destruct p as [code| |t optional]; [by apply clean_error in Hc|done|].
    exists t. split; [done|]. intros t' ->. by eapply check_produced_clean.
  - intros [= <-] Hc. cbn in Hc. by apply check_typed_clean in Hc.
Qed.

Record sound_level (lv : Level) : Prop := {
  sl_acyclic : forall n, ~ tc (depends (lv_graph lv)) n n;
  sl_ids : forall k, k ∈ keys (lv_graph lv) -> k <> "" /\ str_any forbidden_char k = false /\ k <> PORTS_NODE_ID;
  sl_nodes : forall node_id n, (node_id, NodeOf n) ∈ lv_graph lv ->
    exists base s, schemas (Graph.node_type n) = Some base /\ elaborate_node json_loads base n = Ok s
      /\ (forall spec, spec ∈ inputs s -> in_required spec = true -> in_default spec = VNone -> in_id spec ∈ keys (node_inputs n))
      /\ (forall i v, (i, v) ∈ node_inputs n ->
            exists spec, input_of s i = Some spec /\ well_fed lv (in_accepts_list spec) (in_type spec) v);
  sl_regions : forall node_id r body, (node_id, RegionOf r body) ∈ lv_graph lv ->
    exists data, dict_get (lv_regions lv) node_id = Some data
      /\ (forall p, p ∈ rn_element_ports r ++ rn_state_ports r -> p ∈ keys (rn_inputs r))
      /\ (forall i v, (i, v) ∈ rn_inputs r -> exists t, dict_get (rn_ports r) i = Some t
            /\ well_fed lv false (if str_in i (rn_element_ports r) then listed t else t) v)
      /\ (forall o, o ∈ rn_outputs r -> body_output_exists (rn_ports r) body data (ro_source o.2) = true)
      /\ (forall p, p ∈ rn_state_ports r <-> p ∈ state_outputs r)
      /\ (rn_kind r = RWhile -> exists l m, rn_continue_source r = Some l /\ rn_max_iterations r = Some m /\ 1 <= m)
      /\ exists pairs, validate_loops body (body_targets schemas r body) [] = (pairs, [])
}.

Lemma accepted_node lv node_id n :
  accepted lv -> (node_id, NodeOf n) ∈ lv_graph lv ->
  exists base s, schemas (Graph.node_type n) = Some base /\ elaborate_node json_loads base n = Ok s
    /\ (forall spec, spec ∈ inputs s -> in_required spec = true -> in_default spec = VNone -> in_id spec ∈ keys (node_inputs n))
    /\ (forall i v, (i, v) ∈ node_inputs n ->
          exists spec, input_of s i = Some spec /\ well_fed lv (in_accepts_list spec) (in_type spec) v).
Proof.
  intros Ha Hin. pose proof (accepted_pieces lv Ha) as (Hn & _). destruct Ha as [Hd _].
  destruct (derived_node lv node_id n Hd Hin) as (base & s & Hb & Hs & He). exists base, s.
  destruct (Hn _ _ Hin) as (d & Hv & Hc). cbn [validate_node] in Hv. unfold validate_graph_node in Hv. rewrite Hb, He in Hv.
  apply bind_ok in Hv as (ins & Hi & [= <-]). rewrite !clean_app in Hc. destruct Hc as (_ & _ & Hci & Hcm).
  split_and!; [done|done| |].
  - intros spec Hspec Hr Hdef. rewrite clean_map_errors in Hcm by done. apply dict_mem_true.
    destruct (dict_mem (node_inputs n) (in_id spec)) eqn:Em; [done|]. exfalso. apply (not_elem_of_nil spec).
    rewrite <- Hcm. apply list_elem_of_In, List.filter_In. split; [by apply list_elem_of_In|].
    unfold missing_input. by rewrite Hr, Hdef, Em.
  - intros i v Hiv. destruct (collect_clean _ _ _ Hi Hci _ Hiv) as (d & Hd' & Hc). unfold check_node_input in Hd'. cbn [fst snd] in Hd'.
    destruct (input_of s i) as [spec|]; [|injection Hd' as <-; by apply clean_error in Hc].
    exists spec. split; [done|]. by eapply check_input_clean.
Qed.

Lemma in_sorted_set (X : gset string) : sorted_set X = [] -> X = ∅.
Proof. intros Hs. apply set_eq. intros x. rewrite <- elem_of_sorted_set, Hs. set_solver. Qed.

Lemma accepted_region lv node_id r body :
  accepted lv -> (node_id, RegionOf r body) ∈ lv_graph lv ->
  exists data, dict_get (lv_regions lv) node_id = Some data
    /\ (forall p, p ∈ rn_element_ports r ++ rn_state_ports r -> p ∈ keys (rn_inputs r))
    /\ (forall i v, (i, v) ∈ rn_inputs r -> exists t, dict_get (rn_ports r) i = Some t
          /\ well_fed lv false (if str_in i (rn_element_ports r) then listed t else t) v)
    /\ (forall o, o ∈ rn_outputs r -> body_output_exists (rn_ports r) body data (ro_source o.2) = true)
    /\ (forall p, p ∈ rn_state_ports r <-> p ∈ state_outputs r)
    /\ (rn_kind r = RWhile -> exists l m, rn_continue_source r = Some l /\ rn_max_iterations r = Some m /\ 1 <= m)
    /\ exists pairs, validate_loops body (body_targets schemas r body) [] = (pairs, []).
Proof.
  intros Ha Hin. pose proof (accepted_pieces lv Ha) as (Hn & _). destruct (derived_region lv _ _ _ (proj1 Ha) Hin) as (data & Hg).
  destruct (accepted_body lv _ _ _ _ Ha Hin Hg) as [Hbody Hloops]. destruct Ha as [Hd _]. exists data.
  destruct (Hn _ _ Hin) as (d & Hv & Hc). cbn [validate_node] in Hv. rewrite Hg in Hv.
  apply bind_ok in Hv as (ins & Hi & Hv). apply bind_ok in Hv as (below & _ & [= <-]).
  rewrite !clean_app in Hc. destruct Hc as (Hshape & Houts & _ & Hins & _).
  unfold check_region_shape in Hshape. rewrite !clean_app in Hshape.
  destruct Hshape as (Hund & Hports & _ & Hkind & Hmax & _ & Hchain1 & Hchain2).
  split_and!; [done| | | | | |].
  - intros p Hp. rewrite clean_concat in Hports. specialize (Hports p Hp). unfold check_port in Hports.
    apply clean_app in Hports as [_ Hports]. apply clean_if in Hports; [|done]. apply negb_false_iff in Hports. by apply dict_mem_true.
  - intros i v Hiv. rewrite clean_concat in Hund. specialize (Hund i ltac:(apply list_elem_of_fmap; by exists (i, v))).
    apply clean_if in Hund; [|done]. apply negb_false_iff in Hund. unfold dict_mem in Hund.
    destruct (collect_clean _ _ _ Hi Hins _ Hiv) as (d & Hd' & Hc). unfold check_region_input in Hd'. cbn [fst snd] in Hd'.
    destruct (dict_get (rn_ports r) i) as [t|]; [|done]. exists t. split; [done|]. by eapply check_input_clean.
  - intros o Ho. rewrite clean_concat in Houts. specialize (Houts o Ho). unfold check_region_output in Houts.
    destruct (body_output_exists _ _ _ _); [done|]. by apply clean_error in Houts.
  - intros p. split.
    + intros Hp. rewrite clean_concat in Hchain1. specialize (Hchain1 p Hp). apply clean_if in Hchain1; [|done].
      apply negb_false_iff in Hchain1. by apply bool_decide_eq_true in Hchain1.
    + intros Hp. apply clean_map_errors in Hchain2; [|done]. apply in_sorted_set in Hchain2.
      destruct (decide (p ∈ rn_state_ports r)); [done|]. exfalso. apply (not_elem_of_empty (C := gset string) p).
      rewrite <- Hchain2. set_solver.
  - intros Hk. rewrite clean_concat in Hkind. unfold kind_errors in Hkind. rewrite Hk in Hkind.
    assert (Hb : forall b, b ∈ [negb (is_nil (rn_element_ports r)); is_nil (rn_state_ports r); is_None (rn_continue_source r);
        is_None (rn_max_iterations r); match rn_binding r with BZip => false | _ => true end] -> b = false).
    { intros b Hbin. specialize (Hkind b Hbin). by apply clean_if in Hkind. }
    pose proof (Hb (is_None (rn_continue_source r)) ltac:(set_solver)) as H1.
    pose proof (Hb (is_None (rn_max_iterations r)) ltac:(set_solver)) as H2.
    destruct (rn_continue_source r) as [l|]; [|done]. destruct (rn_max_iterations r) as [m|]; [|done].
    exists l, m. split_and!; [done|done|]. apply clean_if in Hmax; [|done]. lia.
  - pose proof (accepted_pieces _ Hbody) as (_ & Hcy & _). cbn [lv_graph body_level] in Hcy.
    pose proof (validate_loops_answers body (body_targets schemas r body) [] (proj1 (find_cycle_none body) Hcy)) as Hans.
    destruct (validate_loops body (body_targets schemas r body) []) as [pairs [|e rest]]; [by exists pairs|].
    destruct Hans as (_ & _ & He). apply clean_error in Hloops. congruence.
Qed.

Lemma accepted_sound lv : accepted lv -> sound_level lv.
Proof.
  intros Ha. pose proof (accepted_pieces lv Ha) as (_ & Hcy & Hports & Hids). split.
  - by apply find_cycle_none.
  - intros k Hk. specialize (Hids k Hk). unfold bad_node_id in Hids. apply orb_false_iff in Hids as [He Hf].
    split_and!; [intros ->; done|done|]. intros ->. done.
  - intros node_id n. by apply accepted_node.
  - intros node_id r body. by apply accepted_region.
Qed.
End sound.

(** * Cycles are errors *)

Definition cycle_is_error (d : Diagnostic) : Prop := d_code d = "cycle" -> is_error d = true.
Definition honest (ds : list Diagnostic) : Prop := forall d, d ∈ ds -> cycle_is_error d.

Lemma honest_nil : honest [].
Proof. by intros d ?%not_elem_of_nil. Qed.

Lemma honest_app a b : honest a -> honest b -> honest (a ++ b).
Proof. intros Ha Hb d [Hd|Hd]%elem_of_app; auto. Qed.

Lemma honest_one d : cycle_is_error d -> honest [d].
Proof. by intros Hd x ->%list_elem_of_singleton. Qed.

Lemma honest_if c d : cycle_is_error d -> honest (diag_if c d).
Proof. intros Hd. destruct c; [by apply honest_one|apply honest_nil]. Qed.

Lemma honest_map {A} (f : A -> Diagnostic) l : (forall a, cycle_is_error (f a)) -> honest (map f l).
Proof. intros Hf d (a & -> & _)%list_elem_of_fmap. apply Hf. Qed.

Lemma honest_concat {A} (f : A -> list Diagnostic) l : (forall a, a ∈ l -> honest (f a)) -> honest (concat (map f l)).
Proof.
  induction l as [|a l IH]; intros Hf; cbn; [apply honest_nil|]. apply honest_app; [apply Hf; left|apply IH].
  intros x Hx. apply Hf. by right.
Qed.

Lemma honest_prefixed prefix ds : honest ds -> honest (map (prefixed prefix) ds).
Proof.
  intros Hds d (x & -> & Hx)%list_elem_of_fmap. unfold cycle_is_error. rewrite prefixed_error. intros Hc. apply Hds; [done|].
  unfold prefixed in Hc. by destruct (d_node_id x).
Qed.

Lemma honest_collect {A} (f : A -> checking (list Diagnostic)) l ds :
  (forall a d, a ∈ l -> f a = Ok d -> honest d) -> collect f l = Ok ds -> honest ds.
Proof.
  revert ds. induction l as [|a l IH]; intros ds Hf; cbn [collect]; [intros [= <-]; apply honest_nil|].
  intros (d & Hd & (ds' & Hds & [= <-])%bind_ok)%bind_ok. apply honest_app; [eapply Hf; [left|done]|].
  eapply IH; [|done]. intros x dx Hx. apply Hf. by right.
Qed.

(** The code is not the cycle's, or the diagnostic is an error. *)
Ltac not_cycle :=
  unfold cycle_is_error;
  first [ intros _; reflexivity | let H := fresh in intros H; cbn in H; discriminate H ].

Create HintDb honest discriminated.

(** Takes a check apart, down to single diagnostics. *)
Ltac honest :=
  intros;
  repeat first
    [ apply honest_nil
    | solve [eauto 3 with honest]
    | apply honest_app
    | apply honest_if; not_cycle
    | apply honest_one; not_cycle
    | apply honest_map; intros; not_cycle
    | apply honest_concat; intros
    | match goal with |- honest (match ?x with _ => _ end) => destruct x eqn:? end ].

Lemma honest_literal v t place i : honest (check_literal_type v t place i).
Proof. unfold check_literal_type. honest. Qed.

Lemma honest_providers known place i p : honest (check_coercion_providers known place i p).
Proof. unfold check_coercion_providers. honest. Qed.

Lemma honest_cardinality a b place i d : cardinality_error a b place i = Some d -> cycle_is_error d.
Proof. unfold cardinality_error. destruct (_ && _); [|done]. intros [= <-]. by intros _. Qed.

Lemma honest_cardinality_one a b place i d : cardinality_error a b place i = Some d -> honest [d].
Proof. intros Hd. apply honest_one. by eapply honest_cardinality. Qed.

#[export] Hint Resolve honest_literal honest_providers honest_cardinality_one : honest.

Lemma honest_produced known place i policy al e t o : honest (check_produced known place i policy al e t o).
Proof. unfold check_produced. honest. Qed.

Lemma honest_stamp known place i t v k e : honest (check_stamp known place i t v k e).
Proof. unfold check_stamp. honest. Qed.

#[export] Hint Resolve honest_produced honest_stamp : honest.

Section honest.
Variable schemas : string -> option NodeSchema.
Variable known_types : option TypeVocabulary.

Lemma honest_input lv node_id i v e policy stamp al d :
  check_input_value schemas known_types lv node_id i v e policy stamp al = Ok d -> honest d.
Proof.
  unfold check_input_value. destruct v as [l|t u| |b|z|f|st|l|dd|c];
    try (intros [= <-]; unfold check_plain_literal; honest; fail).
  - unfold check_link. intros (p & _ & [= <-])%bind_ok. honest.
  - intros [= <-]. unfold check_typed_literal. honest.
Qed.

Lemma honest_loops g targets :
  (forall n, ~ tc (depends g) n n) -> honest (validate_loops g targets []).2.
Proof.
  intros Hac. pose proof (validate_loops_answers g targets [] Hac) as Hans.
  destruct (validate_loops g targets []) as [ps [|e rest]]; [apply honest_nil|]. destruct Hans as (_ & -> & He).
  apply honest_one. by intros _.
Qed.

Lemma honest_graph_node lv node_id n d : validate_graph_node schemas known_types lv node_id n = Ok d -> honest d.
Proof.
  unfold validate_graph_node. destruct (schemas _) as [base|]; [|intros [= <-]; apply honest_nil].
  assert (Hf : honest (concat (map (fun f => check_input_family (lv_prefix lv +:+ node_id) n f.1) (input_families base)))).
  { apply honest_concat. intros f _. unfold check_input_family. honest. }
  destruct (dict_get (lv_effective lv) node_id) as [s|]; [|by intros [= <-]].
  intros (ins & Hi & [= <-])%bind_ok. repeat apply honest_app; [done| | |honest].
  - apply honest_concat. intros f _. unfold check_output_family. honest.
  - eapply honest_collect; [|exact Hi]. intros kv dk _. unfold check_node_input. destruct (input_of s kv.1); [apply honest_input|].
    intros [= <-]. honest.
Qed.

Lemma honest_shape place r body : honest (check_region_shape schemas place r body).
Proof.
  unfold check_region_shape, check_port. honest.
Qed.

Lemma honest_region_output place r body data o : honest (check_region_output place r body data o).
Proof. unfold check_region_output, check_output_type. honest. Qed.

Lemma honest_continue place r body data : honest (check_continue place r body data).
Proof. unfold check_continue. honest. Qed.

Lemma resolve_honest g ports eff regions lit types diags :
  resolve_linked_output_types g ports eff regions lit = Ok (types, diags) -> honest diags.
Proof.
  intros (st & Hst & [= _ <-])%bind_ok.
  assert (Hinv : forall rounds st st', (forall k d, (k, d) ∈ invalid st -> cycle_is_error d) ->
            resolve_rounds g ports eff regions lit rounds st = Ok st' -> forall k d, (k, d) ∈ invalid st' -> cycle_is_error d).
  { clear. 
    assert (Happly : forall k r st, (forall k d, (k, d) ∈ invalid st -> cycle_is_error d) ->
              forall k' d, (k', d) ∈ invalid (apply_visit k r st) -> cycle_is_error d).
    { intros k r st Hs k' d. destruct r as [| |outs]; cbn [apply_visit invalid]; [apply Hs| |].
      - intros Hin. destruct (dict_set_elem _ _ _ _ Hin) as [[= -> ->]|]; [by intros _|by eapply Hs].
      - destruct (_ && _); cbn [invalid]; intros Hin%dict_del_elem; by eapply Hs. }
    assert (Hround : forall nodes st st', (forall k d, (k, d) ∈ invalid st -> cycle_is_error d) ->
              resolve_round ports eff regions lit nodes st = Ok st' -> forall k d, (k, d) ∈ invalid st' -> cycle_is_error d).
    { induction nodes as [|[k [n|r b]] nodes IH]; intros st st' Hs; cbn [resolve_round]; [by intros [= <-]| |by apply IH].
      intros (r & _ & Hr)%bind_ok. eapply IH; [|exact Hr]. by apply Happly. }
    induction rounds as [|rounds IH]; intros st st' Hs; cbn [resolve_rounds]; [by intros [= <-]|].
    intros (st1 & Hr & Hrest)%bind_ok. pose proof (Hround _ (mkResolution (resolved st) (invalid st) false) _ Hs Hr) as Hs1.
    destruct (changed st1); [by eapply IH|by injection Hrest as <-]. }
  intros d (kd & -> & Hkd)%list_elem_of_fmap. destruct kd as [k d]. eapply Hinv; [|exact Hst|exact Hkd].
  by intros ? ? ?%not_elem_of_nil.
Qed.

Lemma honest_level f lv nodes ds :
  (forall kn d, kn ∈ nodes -> f kn.1 kn.2 = Ok d -> honest d) -> validate_level f lv nodes = Ok ds -> honest ds.
Proof.
  intros Hf ([types od] & Hr & (own & Ho & [= <-])%bind_ok)%bind_ok. repeat apply honest_app.
  - apply honest_prefixed. by eapply resolve_honest.
  - honest.
  - honest.
  - eapply honest_collect; [|exact Ho]. done.
  - honest.
Qed.

Lemma honest_node lv node_id n d : validate_node schemas known_types lv node_id n = Ok d -> honest d.
Proof.
  revert lv node_id d. induction n as [n|r body IH] using AnyNode_ind_nested; intros lv node_id d; cbn [validate_node].
  { apply honest_graph_node. }
  destruct (dict_get (lv_regions lv) node_id) as [data|]; [|done].
  intros (ins & Hi & (below & Hb & [= <-])%bind_ok)%bind_ok.
  apply honest_app; [apply honest_shape|]. apply honest_app; [apply honest_concat; intros o _; apply honest_region_output|].
  apply honest_app; [apply honest_continue|]. apply honest_app.
  { eapply honest_collect; [|exact Hi]. intros kv dk _. apply honest_input. }
  apply honest_app.
  - eapply honest_level; [|exact Hb]. intros [k m] dk Hkm. rewrite Forall_forall in IH. by apply (IH (k, m)).
  - destruct (find_cycle body) eqn:E; [apply honest_nil|]. apply honest_prefixed, honest_loops. by apply find_cycle_none.
Qed.

End honest.

Lemma elaborate_honest json_loads schemas g eff diags :
  elaborate_graph json_loads schemas g = Ok (eff, diags) -> honest diags.
Proof.
  revert eff diags. induction g as [|[k [n|r body]] g IH]; intros eff diags; cbn [elaborate_graph]; [by intros [= <- <-]; honest| |by apply IH].
  assert (Hcons : forall ds d, honest ds -> cycle_is_error d -> honest (d :: ds)).
  { intros ds d Hds Hd x [->|Hx]%elem_of_cons; [done|by apply Hds]. }
  destruct (schemas (Graph.node_type n)); [destruct (elaborate_node json_loads _ n) as [s|[]]|]; try done;
    intros ([eff' ds] & Hr & [= <- <-])%bind_ok; [by eapply IH|..]; (apply Hcons; [by eapply IH|not_cycle]).
Qed.

Lemma pass_regions_honest f g regions diags :
  (forall kn o d, kn ∈ g -> f kn.1 kn.2 = Ok (o, d) -> honest d) -> pass_regions f g = Ok (regions, diags) -> honest diags.
Proof.
  revert regions diags. induction g as [|[k n] g IH]; intros regions diags Hf; cbn [pass_regions]; [by intros [= <- <-]; honest|].
  intros ([o d] & Hd & ([rs ds] & Hr & [= <- <-])%bind_ok)%bind_ok. apply honest_app.
  - eapply (Hf (k, n)); [left|exact Hd].
  - eapply IH; [|exact Hr]. intros kn o' d' Hin. apply Hf. by right.
Qed.

Lemma region_pass_honest json_loads schemas prefix k n o d :
  region_pass json_loads schemas prefix k n = Ok (o, d) -> honest d.
Proof.
  revert prefix k o d. induction n as [n|r body IH] using AnyNode_ind_nested; intros prefix k o d; cbn [region_pass].
  { intros [= <- <-]. honest. }
  intros ([eff ed] & He & ([rs rd] & Hr & ([ts td] & _ & [= <- <-])%bind_ok)%bind_ok)%bind_ok. apply honest_app.
  - apply honest_prefixed. by eapply elaborate_honest.
  - eapply pass_regions_honest; [|exact Hr]. intros [k' m] o' d' Hkm. rewrite Forall_forall in IH. by apply (IH (k', m)).
Qed.

Lemma interface_honest json_loads schemas g prefix include_elab eff regions diags :
  interface_pass json_loads schemas g prefix include_elab = Ok (eff, regions, diags) -> honest diags.
Proof.
  intros ([eff' ed] & He & ([rs rd] & Hr & [= <- <- <-])%bind_ok)%bind_ok. apply honest_app.
  - destruct include_elab; [|honest]. apply honest_prefixed. by eapply elaborate_honest.
  - eapply pass_regions_honest; [|exact Hr]. intros [k m] o' d' _. apply region_pass_honest.
Qed.

Lemma validate_accepts json_loads schemas known_types g targets pairs ds :
  distinct_graph g = true -> validate json_loads schemas known_types g targets None None pairs = Ok ds -> has_errors ds = false ->
  exists eff regions diags,
    interface_pass json_loads schemas g "" true = Ok (eff, regions, diags)
    /\ accepted json_loads schemas known_types (mkLevel g eff regions None "")
    /\ (forall t, t ∈ targets -> t ∈ keys g)
    /\ exists ps, validate_loops g targets pairs = (ps, []).
Proof.
  intros Hd Hv Hc. unfold validate in Hv. apply bind_ok in Hv as ([[eff regions] diags] & Hp & Hv).
  apply bind_ok in Hv as (below & Hb & Hv). injection Hv as <-. cbn [is_None default] in *.
  change (clean (((diags ++ concat (map (fun t => diag_if (negb (dict_mem g t)) (mkDiag SevError "unknown-target" None None)) targets) ++ below)
    ++ (if existsb is_cycle_code (diags ++ concat (map (fun t => diag_if (negb (dict_mem g t)) (mkDiag SevError "unknown-target" None None)) targets) ++ below)
       then [] else (validate_loops g targets pairs).2)))) in Hc.
  rewrite !clean_app in Hc. destruct Hc as ((Hc1 & Hc2 & Hc3) & Hl).
  assert (Ha : accepted json_loads schemas known_types (mkLevel g eff regions None "")).
  { split; [split; [done|by exists "", diags]|]. exists below. by split. }
  exists eff, regions, diags. split_and!; [done|done| |].
  - intros t Ht. rewrite clean_concat in Hc2. specialize (Hc2 t Ht). apply clean_if in Hc2; [|done].
    apply negb_false_iff in Hc2. by apply dict_mem_true.
  - pose proof (accepted_pieces _ _ _ _ Ha) as (_ & Hcy & _). cbn [lv_graph] in Hcy.
    pose proof (validate_loops_answers g targets pairs (proj1 (find_cycle_none g) Hcy)) as Hans.
    destruct (validate_loops g targets pairs) as [ps [|e rest]]; [by exists ps|]. destruct Hans as (_ & -> & He). exfalso.
    destruct (existsb is_cycle_code _) eqn:Ecy; cbn [snd] in Hl; [|by apply clean_error in Hl; congruence].
    assert (Hh : honest (diags ++ concat (map (fun t => diag_if (negb (dict_mem g t)) (mkDiag SevError "unknown-target" None None)) targets) ++ below)).
    { repeat apply honest_app; [by eapply interface_honest|honest|]. eapply honest_level; [|exact Hb]. intros kn d _. apply honest_node. }
    apply existsb_exists in Ecy as (d & Hin%list_elem_of_In & Hcode%String.eqb_eq). specialize (Hh d Hin Hcode).
    assert (Hcl : clean (diags ++ concat (map (fun t => diag_if (negb (dict_mem g t)) (mkDiag SevError "unknown-target" None None)) targets) ++ below))
      by (rewrite !clean_app; done).
    rewrite <- (map_id (_ ++ _)) in Hcl. rewrite clean_map in Hcl. specialize (Hcl d Hin). cbn in Hcl. congruence.
Qed.

(** In a sound document every link names one of its nodes. *)
Lemma links_known json_loads schemas known_types g eff regions node_id n i l :
  sound_level json_loads schemas known_types (mkLevel g eff regions None "") -> (node_id, n) ∈ g -> (i, GLink l) ∈ inputs_of n ->
  dict_mem g (link_node l) = true.
Proof.
  intros Hs Hn Hi.
  assert (Hread : exists t, reads (mkLevel g eff regions None "") l t).
  { destruct n as [nd|r body]; cbn [inputs_of] in Hi.
    - destruct (sl_nodes _ _ _ _ Hs node_id nd Hn) as (base & s & _ & _ & _ & Hins).
      destruct (Hins i _ Hi) as (spec & _ & t & Hr & _). by exists t.
    - destruct (sl_regions _ _ _ _ Hs node_id r body Hn) as (data & _ & _ & Hins & _).
      destruct (Hins i _ Hi) as (t0 & _ & t & Hr & _). by exists t. }
  unfold dict_mem. destruct Hread as [t [ports t0 _ [=]|r body data t0 Hg _ _|nd s o Hg _ _]]; cbn in Hg; by rewrite Hg.
Qed.

(** * Properties *)

Section properties.
Variable json_loads : string -> option pyval.
Variable schemas : string -> option NodeSchema.
Variable known_types : option TypeVocabulary.

(** C6: A document that validates without errors is sound at every nesting
    level: no cycles; node ids that runtime paths can carry; every node with a
    known type whose schema elaborates, its required inputs given and every
    given input declared; every link finds an output of the elaborated
    interface of its producer, of a region or of the enclosing region's ports,
    whose type is accepted, equivalent, coercible with its providers there, or
    at odds only in a way the COMBO boundary does not forbid, and whose
    cardinality agrees unless a conversion changes it; typed literals are
    stamped with known types they match, and plain ones match their input's; a
    region's ports are declared and given, its outputs read what its body has,
    its states are chained, a while region is bounded, and its loops pair. *)
Theorem accepted_documents_are_sound g targets pairs ds :
  distinct_graph g = true ->
  validate json_loads schemas known_types g targets None None pairs = Ok ds -> has_errors ds = false ->
  exists eff regions diags,
    interface_pass json_loads schemas g "" true = Ok (eff, regions, diags)
    /\ forall lv, inside (mkLevel g eff regions None "") lv -> sound_level json_loads schemas known_types lv.
Proof.
  intros Hd Hv Hc. destruct (validate_accepts _ _ _ _ _ _ _ Hd Hv Hc) as (eff & regions & diags & Hp & Ha & _).
  exists eff, regions, diags. split; [done|]. intros lv Hin. apply accepted_sound. by eapply accepted_inside.
Qed.

(** A document that validates without errors runs: it has a plan, which
    holds every target, and in which whatever a node's links name, a region's
    included, stands before the node; so nothing in the plan waits for a node
    that is missing or comes later. Its loops pair without a diagnostic. *)
Theorem accepted_documents_have_a_plan g targets pairs ds :
  distinct_graph g = true ->
  validate json_loads schemas known_types g targets None None pairs = Ok ds -> has_errors ds = false ->
  exists order ps,
    plan g targets = Ok order /\ NoDup order /\ (forall t, t ∈ targets -> t ∈ order)
    /\ (forall before node_id after n i l,
          order = before ++ node_id :: after -> (node_id, n) ∈ g -> (i, GLink l) ∈ inputs_of n -> link_node l ∈ before)
    /\ validate_loops g targets pairs = (ps, []).
Proof.
  intros Hd Hv Hc. destruct (validate_accepts _ _ _ _ _ _ _ Hd Hv Hc) as (eff & regions & diags & Hp & Ha & Ht & ps & Hl).
  pose proof (accepted_sound _ _ _ _ Ha) as Hs. pose proof (sl_acyclic _ _ _ _ Hs) as Hac. cbn [lv_graph] in Hac.
  destruct (plan_spec g targets) as [Hplan Hok]. assert (Hyes : is_ok (plan g targets) = true) by (apply Hok; intros; apply Hac).
  destruct (plan g targets) as [order|]; [|done]. destruct Hplan as (Hnd & Hin & Htop). exists order, ps. split_and!; [done|done| |  |done].
  - intros t Htt. apply Hin. exists t. split_and!; [done|by apply Ht|done].
  - intros before node_id after n i l Horder Hn Hi. apply (Htop before node_id after Horder).
    assert (Hnode : dict_get g node_id = Some n).
    { apply elem_dict_get; [|done]. apply andb_true_iff in Hd as [Hd _]. by apply bool_decide_eq_true in Hd. }
    assert (Hk : dict_mem g (link_node l) = true) by (by eapply links_known).
    unfold depends, dependencies. rewrite Hnode. apply elem_of_list_to_set, list_elem_of_omap. exists (i, GLink l). split; [done|].
    cbn. by rewrite Hk.
Qed.
End properties.

(** * A document with a region *)

Definition demo_schemas (t : string) : option NodeSchema :=
  if String.eqb t "numbers" then Some (demo_schema "numbers" [] (listed INDEX_TYPE))
  else if String.eqb t "double" then Some (demo_schema "double" [plain_input "x" INDEX_TYPE true] INDEX_TYPE)
  else if String.eqb t "sum" then Some (demo_schema "sum" [plain_input "values" (listed INDEX_TYPE) true] INDEX_TYPE)
  else None.

Definition demo_body : Graph :=
  [("twice", NodeOf (mkGraphNode "double" [("x", GLink (mkLink "$region" "item"))] [] []))].

Definition demo_region : RegionNode :=
  mkRegionNode RMap [("item", INDEX_TYPE)] [("item", GLink (mkLink "source" "out"))] ["item"] []
    [("all", mkRegionOutput (mkLink "twice" "out") OGather)] BZip CReuse None None.

Definition demo_document : Graph :=
  [("total", NodeOf (mkGraphNode "sum" [("values", GLink (mkLink "each" "all"))] [] []));
   ("each", RegionOf demo_region demo_body);
   ("source", NodeOf (mkGraphNode "numbers" [] [] []))].

Lemma accepted_documents_are_sound_witness :
  exists eff regions diags,
    interface_pass (fun _ => None) demo_schemas demo_document "" true = Ok (eff, regions, diags)
    /\ forall lv, inside (mkLevel demo_document eff regions None "") lv -> sound_level (fun _ => None) demo_schemas None lv.
Proof.
  apply (accepted_documents_are_sound (fun _ => None) demo_schemas None demo_document ["total"] [] []);
    vm_compute; reflexivity.
Defined.

Lemma accepted_documents_have_a_plan_witness :
  plan demo_document ["total"] = Ok ["source"; "each"; "total"]
  /\ exists order ps, plan demo_document ["total"] = Ok order /\ NoDup order /\ (forall t, t ∈ ["total"] -> t ∈ order)
    /\ (forall before node_id after n i l,
          order = before ++ node_id :: after -> (node_id, n) ∈ demo_document -> (i, GLink l) ∈ inputs_of n -> link_node l ∈ before)
    /\ validate_loops demo_document ["total"] [] = (ps, []).
Proof.
  split; [vm_compute; reflexivity|].
  apply (accepted_documents_have_a_plan (fun _ => None) demo_schemas None demo_document ["total"] [] []); vm_compute; reflexivity.
Defined.

(** A list into a scalar, a missing input, an unknown type: diagnostics. *)
Example demo_refusals :
  validate (fun _ => None) demo_schemas None
    [("a", NodeOf (mkGraphNode "double" [("x", GLink (mkLink "s" "out"))] [] [])); ("b", NodeOf (mkGraphNode "sum" [] [] []));
     ("c", NodeOf (mkGraphNode "gone" [] [] [])); ("s", NodeOf (mkGraphNode "numbers" [] [] []))] ["a"] None None []
  = Ok [diag_error "unknown-node-type" "c"; at_input SevError "list-into-scalar" "a" "x"; at_input SevError "missing-input" "b" "values"].
Proof. vm_compute. reflexivity. Qed.
