(* ===== verification/Lower.v ===== *)
(** Lower: selector lowering (dinkster_graph/lower.py): a selector whose
    choice is stored in the document is replaced by the branch it chooses, and
    what only its other branch used is pruned. *)
From S2P Require Import Prelude PyStr TypeExprs Widgets Schema Graph Search.

Local Open Scope string_scope.
Local Open Scope list_scope.

(** * Definitions *)

Record LoweringProblem := mkProblem { lp_code : string; lp_node_id : string; lp_input_id : string }.

Record LoweringResult := mkLowering { lr_graph : Graph; lr_targets : list string; lr_problems : list LoweringProblem }.

(** The node ids a node's inputs link to, in input order. *)
Definition link_id (v : gvalue) : option string := match v with GLink l => Some (link_node l) | _ => None end.
Definition links (n : AnyNode) : list string := omap (fun kv => link_id kv.2) (inputs_of n).
Definition links_of (nodes : Graph) (node_id : string) : list string :=
  match dict_get nodes node_id with Some n => links n | None => [] end.

(** [_cone]: the last of the links pushed is popped first. *)
Definition cone (nodes : Graph) (source : Link) : gset string :=
  search_from (fun node_id => negb (dict_mem nodes node_id)) (fun node_id => rev (links_of nodes node_id)) (keys nodes)
    [link_node source].

Definition referenced (nodes : Graph) : gset string := list_to_set (concat (map (fun kn => links kn.2) nodes)).

Definition removable (nodes : Graph) (candidates targets : gset string) : gset string :=
  candidates ∩ (list_to_set (keys nodes) ∖ targets ∖ referenced nodes).

Definition remove_nodes (nodes : Graph) (gone : gset string) : Graph :=
  List.filter (fun kn => negb (bool_decide (kn.1 ∈ gone))) nodes.

Fixpoint prune_loop (fuel : nat) (nodes : Graph) (candidates targets : gset string) : option Graph :=
  match fuel with
  | O => None
  | S fuel' =>
      let gone := removable nodes candidates targets in
      if decide (gone = ∅) then Some nodes else prune_loop fuel' (remove_nodes nodes gone) candidates targets
  end.

(** Every round but the last removes a node. *)
Definition prune (nodes : Graph) (candidates targets : gset string) : Graph :=
  default nodes (prune_loop (S (length nodes)) nodes candidates targets).

(** [replace(node, inputs=inputs)]. *)
Definition with_inputs (n : AnyNode) (inputs : list (string * gvalue)) : AnyNode :=
  match n with
  | NodeOf g => NodeOf (with_node_inputs g inputs)
  | RegionOf r body => RegionOf (with_region_inputs r inputs) body
  end.

(** [value if current == output else current]. *)
Definition redirect (output : Link) (value current : gvalue) : gvalue :=
  match current with
  | GLink l => if decide (l = output) then value else current
  | _ => current
  end.

Definition redirect_node (output : Link) (value : gvalue) (n : AnyNode) : AnyNode :=
  with_inputs n (map (fun kv => (kv.1, redirect output value kv.2)) (inputs_of n)).

Section lowering.
Variable schemas : string -> option NodeSchema.

(** The schema of a node that is a selector, with its [selector]. *)
Definition selector_of (n : AnyNode) : option (NodeSchema * SelectorSpec) :=
  match n with
  | NodeOf g =>
      match schemas (Graph.node_type g) with
      | Some s => match selector s with Some sel => Some (s, sel) | None => None end
      | None => None
      end
  | RegionOf _ _ => None
  end.

(** The first selector not known to be fed by a link. *)
Fixpoint next_selector (nodes : Graph) (runtime : gset string) : option (string * AnyNode * (NodeSchema * SelectorSpec)) :=
  match nodes with
  | [] => None
  | (node_id, n) :: nodes' =>
      match selector_of n with
      | Some s => if decide (node_id ∈ runtime) then next_selector nodes' runtime else Some (node_id, n, s)
      | None => next_selector nodes' runtime
      end
  end.

Definition branch_key (b : bool) : string := if b then "true" else "false".

(** What one selector comes to. *)
Inductive decision :=
| KeepAtRuntime
| Refuse (p : LoweringProblem)
| Replace (output : Link) (value : gvalue) (inactive : option gvalue)
| Raise (exception : string).

Definition decide_selector (targets : gset string) (node_id : string) (n : AnyNode) (s : NodeSchema) (sel : SelectorSpec) : decision :=
  let selected := dict_get (inputs_of n) (sel_input sel) in
  match selected with
  | Some (GLink _) => KeepAtRuntime
  | _ =>
      if decide (node_id ∈ targets) then Refuse (mkProblem "prompt.selector_is_target" node_id "")
      else match selected with
           | Some (GBool b) =>
               match dict_get (sel_branches sel) (branch_key b) with
               | None => Raise "KeyError"
               | Some branch_id =>
                   match dict_get (inputs_of n) branch_id with
                   | None => Refuse (mkProblem "prompt.missing_branch" node_id branch_id)
                   | Some value =>
                       match outputs s with
                       | [] => Raise "IndexError"
                       | o :: _ =>
                           match dict_get (sel_branches sel) (branch_key (negb b)) with
                           | None => Raise "KeyError"
                           | Some other => Replace (mkLink node_id (out_id o)) value (dict_get (inputs_of n) other)
                           end
                       end
                   end
               end
           | _ => Refuse (mkProblem "prompt.bad_selector_value" node_id (sel_input sel))
           end
  end.

(** The graph with a selector gone and its consumers redirected. *)
Definition replace_selector (nodes : Graph) (node_id : string) (output : Link) (value : gvalue) : Graph :=
  map (fun kn => (kn.1, redirect_node output value kn.2)) (dict_del nodes node_id).

Definition add_cone (nodes : Graph) (inactive : option gvalue) (candidates : gset string) : gset string :=
  match inactive with Some (GLink l) => candidates ∪ cone nodes l | _ => candidates end.

Fixpoint lower_loop (graph : Graph) (targets : list string) (fuel : nat)
  (nodes : Graph) (candidates runtime : gset string) : option (result string LoweringResult) :=
  match fuel with
  | O => None
  | S fuel' =>
      match next_selector nodes runtime with
      | None => Some (Ok (mkLowering (prune nodes candidates (list_to_set targets)) targets []))
      | Some (node_id, n, (s, sel)) =>
          match decide_selector (list_to_set targets) node_id n s sel with
          | KeepAtRuntime => lower_loop graph targets fuel' nodes candidates ({[node_id]} ∪ runtime)
          | Refuse p => Some (Ok (mkLowering graph targets [p]))
          | Raise e => Some (Err e)
          | Replace output value inactive =>
              let nodes' := replace_selector nodes node_id output value in
              let candidates' := add_cone nodes' inactive candidates in
              lower_loop graph targets fuel' (prune nodes' candidates' (list_to_set targets)) candidates' runtime
          end
      end
  end.

(** Every round keeps one more node for the run or removes one. *)
Definition lower_selectors (graph : Graph) (targets : list string) : option (result string LoweringResult) :=
  lower_loop graph targets (S (length graph)) graph ∅ ∅.
End lowering.

(** * The pieces *)

Lemma inputs_of_with_inputs n i : inputs_of (with_inputs n i) = i.
Proof. by destruct n. Qed.

Lemma with_inputs_twice n i j : with_inputs (with_inputs n i) j = with_inputs n j.
Proof. by destruct n. Qed.

Lemma selector_of_shape schemas n n' :
  with_inputs n [] = with_inputs n' [] -> selector_of schemas n = selector_of schemas n'.
Proof. destruct n as [[]|[]], n' as [[]|[]]; cbn; intros [=]; by subst. Qed.

Section dict_map.
Context {A B : Type} (f : A -> B).

Lemma dict_get_map (d : list (string * A)) k :
  dict_get (map (fun kv => (kv.1, f kv.2)) d) k = f <$> dict_get d k.
Proof. induction d as [|[a b] d IH]; cbn; [done|]. by case_decide. Qed.

Lemma keys_map (d : list (string * A)) : keys (map (fun kv => (kv.1, f kv.2)) d) = keys d.
Proof. unfold keys. induction d as [|[a b] d IH]; cbn; [done|]. by rewrite IH. Qed.
End dict_map.

Lemma keys_remove_nodes nodes gone x : x ∈ keys (remove_nodes nodes gone) <-> x ∈ keys nodes /\ x ∉ gone.
Proof.
  unfold remove_nodes. induction nodes as [|[a n] nodes IH]; cbn; [set_solver|].
  case_bool_decide; cbn; rewrite ?elem_of_cons, IH; split; naive_solver.
Qed.

Lemma NoDup_remove_nodes nodes gone : NoDup (keys nodes) -> NoDup (keys (remove_nodes nodes gone)).
Proof.
  induction nodes as [|[a n] nodes IH]; cbn; [done|]. intros [Ha Hn]%NoDup_cons.
  case_bool_decide; cbn; [by apply IH|]. apply NoDup_cons. split; [|by apply IH].
  intros Hx. apply Ha. by apply (keys_remove_nodes nodes gone).
Qed.

Lemma dict_get_remove_nodes nodes gone k :
  dict_get (remove_nodes nodes gone) k = if decide (k ∈ gone) then None else dict_get nodes k.
Proof.
  unfold remove_nodes. induction nodes as [|[a n] nodes IH]; cbn; [by case_decide|].
  case_bool_decide as Ha; cbn; rewrite IH; repeat case_decide; naive_solver.
Qed.

Lemma links_elem n x : x ∈ links n <-> exists k l, (k, GLink l) ∈ inputs_of n /\ link_node l = x.
Proof.
  unfold links. rewrite list_elem_of_omap. split.
  - intros ([k v] & Hin & Hv). cbn in Hv. destruct v; try done. injection Hv as <-. by exists k, l.
  - intros (k & l & Hin & <-). by exists (k, GLink l).
Qed.

Lemma referenced_elem nodes x : x ∈ referenced nodes <-> exists kn, kn ∈ nodes /\ x ∈ links kn.2.
Proof.
  unfold referenced. rewrite elem_of_list_to_set. induction nodes as [|[a n] nodes IH]; cbn; [set_solver|].
  rewrite elem_of_app, IH. set_solver.
Qed.

(** Pruning: rounds that take out candidates no input names, until none is left. *)
Definition prune_round (candidates targets : gset string) (a b : Graph) : Prop :=
  b = remove_nodes a (removable a candidates targets) /\ removable a candidates targets <> ∅.

Lemma removable_shrinks nodes candidates targets :
  removable nodes candidates targets <> ∅ ->
  (length (remove_nodes nodes (removable nodes candidates targets)) < length nodes)%nat.
Proof.
  intros [x Hx]%set_choose_L. remember (removable nodes candidates targets) as gone eqn:E.
  assert (Hk : x ∈ keys nodes) by (subst gone; unfold removable in Hx; set_solver). clear E.
  unfold remove_nodes. induction nodes as [|[a n] nodes IH]; cbn; [by apply not_elem_of_nil in Hk|].
  assert (Hle : forall l : Graph, (length (List.filter (fun kn => negb (bool_decide (kn.1 ∈ gone))) l) <= length l)%nat).
  { clear. induction l as [|[b m] l IH]; cbn; [lia|]. case_bool_decide; cbn; lia. }
  case_bool_decide as Ha; cbn; [specialize (Hle nodes); lia|].
  apply elem_of_cons in Hk as [->|Hk]; [by destruct Ha|]. specialize (IH Hk). lia.
Qed.

Lemma prune_loop_rounds fuel nodes candidates targets :
  (length nodes < fuel)%nat ->
  exists r, prune_loop fuel nodes candidates targets = Some r
    /\ rtc (prune_round candidates targets) nodes r /\ removable r candidates targets = ∅.
Proof.
  revert nodes. induction fuel as [|fuel IH]; intros nodes Hf; [lia|]. cbn [prune_loop].
  destruct (decide (removable nodes candidates targets = ∅)) as [He|He].
  - exists nodes. split_and!; [done|constructor|done].
  - pose proof (removable_shrinks nodes candidates targets He).
    destruct (IH (remove_nodes nodes (removable nodes candidates targets))) as (r & Hr & Hs & Hd); [lia|].
    exists r. split_and!; [done| |done]. eapply rtc_l; [|exact Hs]. by split.
Qed.

Lemma prune_rounds nodes candidates targets :
  rtc (prune_round candidates targets) nodes (prune nodes candidates targets)
  /\ removable (prune nodes candidates targets) candidates targets = ∅.
Proof.
  unfold prune. destruct (prune_loop_rounds (S (length nodes)) nodes candidates targets) as (r & -> & Hs & He); [lia|].
  by split.
Qed.

Lemma prune_ind (P : Graph -> Prop) candidates targets nodes :
  (forall a gone, P a -> (forall x, x ∈ gone -> x ∉ targets /\ x ∉ referenced a) -> P (remove_nodes a gone)) ->
  P nodes -> P (prune nodes candidates targets).
Proof.
  intros HP Hn. pose proof (prune_rounds nodes candidates targets) as [Hs _].
  induction Hs as [a|a b c [-> _] _ IH]; [done|]. apply IH, HP; [done|].
  intros x. unfold removable. set_solver.
Qed.

Lemma NoDup_prune nodes candidates targets : NoDup (keys nodes) -> NoDup (keys (prune nodes candidates targets)).
Proof. apply (prune_ind (fun a => NoDup (keys a))). intros a gone Ha _. by apply NoDup_remove_nodes. Qed.

Lemma NoDup_replace_selector nodes node_id output value :
  NoDup (keys nodes) -> NoDup (keys (replace_selector nodes node_id output value)).
Proof. intros H. unfold replace_selector. rewrite keys_map. by apply NoDup_dict_del. Qed.

Lemma dict_get_replace_selector nodes node_id output value k :
  NoDup (keys nodes) ->
  dict_get (replace_selector nodes node_id output value) k
  = if decide (k = node_id) then None else redirect_node output value <$> dict_get nodes k.
Proof.
  intros H. unfold replace_selector. rewrite dict_get_map, dict_get_del by done. by case_decide.
Qed.

Lemma list_elem_of_rev {A} (l : list A) x : x ∈ rev l <-> x ∈ l.
Proof. by rewrite !list_elem_of_In, <- in_rev. Qed.

(** ** The cone *)

(** A link between two nodes of the graph. *)
Definition links_to (nodes : Graph) (a b : string) : Prop := b ∈ links_of nodes a /\ b ∈ keys nodes.

Lemma cone_exact nodes source n :
  n ∈ cone nodes source <-> link_node source ∈ keys nodes /\ rtc (links_to nodes) (link_node source) n.
Proof.
  assert (Hedge : forall a b, edge (fun i => negb (dict_mem nodes i)) (fun i => rev (links_of nodes i)) a b <-> links_to nodes a b).
  { intros a b. unfold edge, links_to. by rewrite list_elem_of_rev, negb_false_iff, dict_mem_true. }
  unfold cone. rewrite search_from_spec.
  - setoid_rewrite negb_false_iff. setoid_rewrite dict_mem_true. split.
    + intros (t & ->%list_elem_of_singleton & Hk & Hr). split; [done|]. revert Hr. by apply rtc_subrel; intros ? ? ?%Hedge.
    + intros [Hk Hr]. exists (link_node source). split_and!; [left|done|]. revert Hr. by apply rtc_subrel; intros ? ? ?%Hedge.
  - intros a b Hb%list_elem_of_rev. unfold links_of in Hb. destruct (dict_get nodes a) as [v|] eqn:E; [|by apply not_elem_of_nil in Hb].
    apply dict_get_elem in E. apply list_elem_of_fmap. by exists (a, v).
Qed.

(** What a node becomes: the same but for inputs that were links. *)
Definition descends (n0 n : AnyNode) : Prop :=
  with_inputs n [] = with_inputs n0 []
  /\ Forall2 (fun a b : string * gvalue => a.1 = b.1 /\ (is_Some (link_id a.2) \/ b.2 = a.2)) (inputs_of n0) (inputs_of n).

Lemma descends_refl n : descends n n.
Proof. split; [done|]. apply Forall_Forall2_diag, Forall_forall. auto. Qed.

Lemma descends_redirect n0 n output value : descends n0 n -> descends n0 (redirect_node output value n).
Proof.
  intros [Hs Hi]. unfold redirect_node. split; [by rewrite with_inputs_twice|]. rewrite inputs_of_with_inputs.
  apply Forall2_fmap_r. eapply Forall2_impl; [exact Hi|]. intros a b [Hk [Hl|He]]; cbn; split; auto.
  rewrite He. destruct (a.2); cbn; try (right; done). left. by eexists.
Qed.

Lemma descends_get n0 n k v :
  descends n0 n -> dict_get (inputs_of n) k = Some v ->
  exists v0, dict_get (inputs_of n0) k = Some v0 /\ (is_Some (link_id v0) \/ v = v0).
Proof.
  intros [_ Hi]. revert Hi. generalize (inputs_of n0) (inputs_of n). intros d0 d Hi.
  induction Hi as [|[k0 v0] [k1 v1] d0 d [Hk Hv] _ IH]; cbn in *; [done|]. subst k1.
  case_decide; [|done]. intros [= ->]. by exists v0.
Qed.

(** The nodes of a graph being lowered. *)
Definition lowered_from (graph nodes : Graph) : Prop :=
  forall k n, dict_get nodes k = Some n -> exists n0, dict_get graph k = Some n0 /\ descends n0 n.

Lemma lowered_from_prune graph nodes candidates targets :
  lowered_from graph nodes -> lowered_from graph (prune nodes candidates targets).
Proof.
  apply (prune_ind (lowered_from graph)). intros a gone Ha _ k n. rewrite dict_get_remove_nodes.
  case_decide; [done|]. apply Ha.
Qed.

Lemma lowered_from_replace graph nodes node_id output value :
  NoDup (keys nodes) -> lowered_from graph nodes -> lowered_from graph (replace_selector nodes node_id output value).
Proof.
  intros Hnd H k n. rewrite dict_get_replace_selector by done. case_decide; [done|].
  intros (m & Hm & ->)%fmap_Some. destruct (H k m Hm) as (n0 & Hn0 & Hd). exists n0. split; [done|].
  by apply descends_redirect.
Qed.

(** A selector's stored choice: what [Replace] says. *)
Lemma decide_replace targets node_id n s sel output value inactive :
  decide_selector targets node_id n s sel = Replace output value inactive ->
  node_id ∉ targets /\ exists b bid o rest,
    dict_get (inputs_of n) (sel_input sel) = Some (GBool b)
    /\ dict_get (sel_branches sel) (branch_key b) = Some bid
    /\ dict_get (inputs_of n) bid = Some value
    /\ outputs s = o :: rest /\ output = mkLink node_id (out_id o).
Proof.
  unfold decide_selector. intros H. repeat case_match; simplify_eq. eauto 12.
Qed.

Lemma decide_keep targets node_id n s sel :
  decide_selector targets node_id n s sel = KeepAtRuntime ->
  exists l, dict_get (inputs_of n) (sel_input sel) = Some (GLink l).
Proof. unfold decide_selector. intros H. repeat case_match; simplify_eq. eauto. Qed.

Section traversal.
Variable schemas : string -> option NodeSchema.

Lemma next_selector_some nodes runtime node_id n s :
  NoDup (keys nodes) -> next_selector schemas nodes runtime = Some (node_id, n, s) ->
  dict_get nodes node_id = Some n /\ selector_of schemas n = Some s /\ node_id ∉ runtime.
Proof.
  induction nodes as [|[a m] nodes IH]; cbn; [done|]. intros [Ha Hn]%NoDup_cons H.
  assert (Hrest : next_selector schemas nodes runtime = Some (node_id, n, s) ->
    (if decide (node_id = a) then Some m else dict_get nodes node_id) = Some n
    /\ selector_of schemas n = Some s /\ node_id ∉ runtime).
  { intros Hr. destruct (IH Hn Hr) as (Hg & ? & ?).
    destruct (decide (node_id = a)) as [->|]; [|done].
    destruct Ha. apply dict_get_elem, (list_elem_of_fmap_2 fst) in Hg. done. }
  destruct (selector_of schemas m) as [s'|] eqn:E; [|by auto]. destruct (decide (a ∈ runtime)); [by auto|].
  injection H as -> -> ->. by rewrite decide_True.
Qed.

Lemma next_selector_none nodes runtime k n s :
  next_selector schemas nodes runtime = None -> dict_get nodes k = Some n -> selector_of schemas n = Some s ->
  k ∈ runtime.
Proof.
  induction nodes as [|[a m] nodes IH]; cbn; [done|]. intros H Hg Hs.
  destruct (decide (k = a)) as [->|Hk].
  - injection Hg as ->. rewrite Hs in H. by case_decide.
  - destruct (selector_of schemas m); [case_decide; [|done]|]; by apply IH.
Qed.

End traversal.

(** ** The loop *)

(** The nodes a later round may still visit. *)
Definition unvisited (nodes : Graph) (runtime : gset string) : nat :=
  length (List.filter (fun kn : string * AnyNode => negb (bool_decide (kn.1 ∈ runtime))) nodes).

Lemma unvisited_visit nodes runtime x :
  x ∈ keys nodes -> x ∉ runtime -> (unvisited nodes ({[x]} ∪ runtime) < unvisited nodes runtime)%nat.
Proof.
  unfold unvisited. intros Hx Hr.
  assert (Hle : forall l : Graph, (length (List.filter (fun kn => negb (bool_decide (kn.1 ∈ {[x]} ∪ runtime))) l)
    <= length (List.filter (fun kn => negb (bool_decide (kn.1 ∈ runtime))) l))%nat).
  { induction l as [|[b m] l IH]; cbn [List.filter fst]; [done|]. repeat case_bool_decide; cbn [negb length]; set_solver by lia. }
  induction nodes as [|[a n] nodes IH]; [by apply not_elem_of_nil in Hx|]. cbn [List.filter fst].
  apply elem_of_cons in Hx as [Hx|Hx].
  - cbn in Hx. subst a. rewrite bool_decide_true by set_solver. rewrite bool_decide_false by done.
    cbn [negb length]. specialize (Hle nodes). lia.
  - specialize (IH Hx). repeat case_bool_decide; cbn [negb length]; set_solver by lia.
Qed.

Lemma unvisited_prune nodes candidates targets runtime :
  (unvisited (prune nodes candidates targets) runtime <= unvisited nodes runtime)%nat.
Proof.
  apply (prune_ind (fun a => unvisited a runtime <= unvisited nodes runtime)%nat); [|done]. intros a gone Ha _.
  etrans; [|exact Ha]. unfold unvisited, remove_nodes. clear.
  induction a as [|[b m] a IH]; cbn [List.filter fst]; [done|].
  repeat (case_bool_decide; cbn [negb length List.filter fst]); lia.
Qed.

Lemma unvisited_replace nodes runtime x output value :
  x ∈ keys nodes -> x ∉ runtime ->
  (unvisited (replace_selector nodes x output value) runtime < unvisited nodes runtime)%nat.
Proof.
  unfold unvisited, replace_selector. intros Hx Hr.
  assert (Hm : forall l : Graph, length (List.filter (fun kn : string * AnyNode => negb (bool_decide (kn.1 ∈ runtime)))
      (map (fun kn => (kn.1, redirect_node output value kn.2)) l))
    = length (List.filter (fun kn : string * AnyNode => negb (bool_decide (kn.1 ∈ runtime))) l)).
  { induction l as [|[b m] l IH]; cbn [List.filter fst map]; [done|].
    case_bool_decide; cbn [negb length]; by rewrite IH. }
  rewrite Hm. induction nodes as [|[a n] nodes IH]; [by apply not_elem_of_nil in Hx|]. cbn [List.filter fst dict_del].
  case_decide as Hd.
  - subst a. rewrite (bool_decide_false (x ∈ runtime)) by done. cbn [negb length]. lia.
  - apply elem_of_cons in Hx as [Hx|Hx]; [by cbn in Hx|]. specialize (IH Hx). cbn [List.filter fst].
    case_bool_decide; cbn [negb length]; lia.
Qed.

Lemma unvisited_all (nodes : Graph) : unvisited nodes ∅ = length nodes.
Proof.
  unfold unvisited. induction nodes as [|[a n] nodes IH]; cbn [List.filter fst length]; [done|].
  rewrite bool_decide_false by set_solver. cbn [negb length]. by rewrite IH.
Qed.

(** Schemas that were constructed. *)
Definition constructed_selectors (schemas : string -> option NodeSchema) : Prop :=
  forall ty s sel, schemas ty = Some s -> selector s = Some sel ->
    schema_post_init s = Ok tt /\ selector_post_init sel = Ok tt.

Lemma constructed_selector_parts s sel :
  selector s = Some sel -> schema_post_init s = Ok tt -> selector_post_init sel = Ok tt ->
  outputs s <> [] /\ forall b, is_Some (dict_get (sel_branches sel) (branch_key b)).
Proof.
  intros Hs Hi Hb. split.
  - unfold schema_post_init in Hi. do 6 apply bind_ok in Hi as ([] & ? & Hi).
    intros Ho. clear Hi.
    match goal with H : check_selector s = Ok tt |- _ => unfold check_selector in H; rewrite Hs in H; rename H into Hc end.
    apply bind_ok in Hc as ([] & Hc & _). apply raise_if_ok in Hc. by rewrite Ho in Hc.
  - unfold selector_post_init in Hb. apply bind_ok in Hb as ([] & Hk & _). apply raise_if_ok in Hk.
    apply negb_false_iff, bool_decide_eq_true in Hk. intros b.
    destruct (dict_get (sel_branches sel) (branch_key b)) eqn:E; [by eexists|]. apply dict_get_None in E.
    rewrite <- (elem_of_list_to_set (C := gset string)), Hk in E. destruct b; set_solver.
Qed.

Section invariant.
Variable schemas : string -> option NodeSchema.
Hypothesis Hcon : constructed_selectors schemas.
Variables (graph : Graph) (targets : list string).

Definition target_set : gset string := list_to_set targets.

Lemma decide_raises node_id n s sel e :
  selector_of schemas n = Some (s, sel) -> decide_selector target_set node_id n s sel <> Raise e.
Proof.
  intros Hsel. destruct n as [g|]; [|done]. unfold selector_of in Hsel.
  destruct (schemas (Graph.node_type g)) as [s'|] eqn:Es; [|done].
  destruct (selector s') as [sel'|] eqn:Esel; [|done]. injection Hsel as Ha Hb'. subst s' sel'.
  destruct (Hcon _ _ _ Es Esel) as [Hs Hb]. destruct (constructed_selector_parts s sel Esel Hs Hb) as [Ho Hk].
  unfold decide_selector. intros H. repeat case_match; simplify_eq.
  all: match goal with
       | Hn : dict_get _ (branch_key ?b) = None |- _ =>
           destruct (Hk b) as [? Hx]; rewrite Hn in Hx; discriminate Hx
       end.
Qed.

(** What every round of the loop keeps. *)
Variable I : Graph -> gset string -> Prop.
Hypothesis I_keep : forall nodes runtime node_id n s sel l,
  NoDup (keys nodes) -> I nodes runtime -> dict_get nodes node_id = Some n -> selector_of schemas n = Some (s, sel) ->
  dict_get (inputs_of n) (sel_input sel) = Some (GLink l) -> I nodes ({[node_id]} ∪ runtime).
Hypothesis I_replace : forall nodes runtime node_id n s sel output value inactive,
  NoDup (keys nodes) -> I nodes runtime -> dict_get nodes node_id = Some n -> selector_of schemas n = Some (s, sel) ->
  decide_selector target_set node_id n s sel = Replace output value inactive ->
  I (replace_selector nodes node_id output value) runtime.
Hypothesis I_prune : forall nodes runtime candidates,
  NoDup (keys nodes) -> I nodes runtime -> I (prune nodes candidates target_set) runtime.

(** How the loop ends. *)
Definition lowered (r : LoweringResult) : Prop :=
  lr_targets r = targets /\
  ((lr_problems r = [] /\ NoDup (keys (lr_graph r))
    /\ exists runtime, I (lr_graph r) runtime
       /\ forall k n s, dict_get (lr_graph r) k = Some n -> selector_of schemas n = Some s -> k ∈ runtime)
   \/ exists p nodes runtime n s sel,
        lr_problems r = [p] /\ lr_graph r = graph /\ I nodes runtime
        /\ dict_get nodes (lp_node_id p) = Some n /\ selector_of schemas n = Some (s, sel)
        /\ decide_selector target_set (lp_node_id p) n s sel = Refuse p).

Lemma lower_loop_ends fuel nodes candidates runtime :
  NoDup (keys nodes) -> I nodes runtime -> (unvisited nodes runtime < fuel)%nat ->
  exists r, lower_loop schemas graph targets fuel nodes candidates runtime = Some (Ok r) /\ lowered r.
Proof.
  revert nodes candidates runtime. induction fuel as [|fuel IH]; intros nodes candidates runtime Hnd HI Hf; [lia|].
  cbn [lower_loop]. fold target_set. destruct (next_selector schemas nodes runtime) as [[[k n] [s sel]]|] eqn:E.
  - destruct (next_selector_some schemas nodes runtime k n (s, sel) Hnd E) as (Hg & Hs & Hr).
    assert (Hk : k ∈ keys nodes) by (apply dict_mem_true; unfold dict_mem; by rewrite Hg).
    destruct (decide_selector target_set k n s sel) as [|p|output value inactive|e] eqn:Ed.
    + destruct (decide_keep _ _ _ _ _ Ed) as [l Hl].
      pose proof (unvisited_visit nodes runtime k Hk Hr). apply IH; [done|by eapply I_keep|lia].
    + exists (mkLowering graph targets [p]). split; [done|]. split; [done|]. right.
      assert (lp_node_id p = k) as <- by (unfold decide_selector in Ed; repeat case_match; by simplify_eq).
      by exists p, nodes, runtime, n, s, sel.
    + set (nodes' := replace_selector nodes k output value).
      assert (Hnd' : NoDup (keys nodes')) by by apply NoDup_replace_selector.
      apply IH; [by apply NoDup_prune| |].
      * apply I_prune; [done|]. by eapply I_replace.
      * pose proof (unvisited_replace nodes runtime k output value Hk Hr) as Hlt. fold nodes' in Hlt.
        pose proof (unvisited_prune nodes' (add_cone nodes' inactive candidates) target_set runtime). lia.
    + by destruct (decide_raises k n s sel e Hs).
  - eexists. split; [done|]. split; [done|]. left. cbn. split_and!; [done|by apply NoDup_prune|].
    exists runtime. split; [by apply I_prune|]. intros k n s Hg Hs.
    assert (dict_get nodes k = Some n) as Hn.
    { revert Hg. apply (prune_ind (fun a => dict_get a k = Some n -> dict_get nodes k = Some n)); [|done].
      intros a gone Ha _. rewrite dict_get_remove_nodes. case_decide; [done|exact Ha]. }
    by eapply next_selector_none.
Qed.

Lemma lower_selectors_ends :
  NoDup (keys graph) -> I graph ∅ -> exists r, lower_selectors schemas graph targets = Some (Ok r) /\ lowered r.
Proof. intros Hnd HI. apply lower_loop_ends; [done..|]. rewrite unvisited_all. lia. Qed.
End invariant.

(** * What a document computes *)

(** Lazy evaluation, for any meaning of literals and of the nodes that are not
    selectors: a selector evaluates its selector input and then the branch it
    chooses, and nothing else; any other node is run on all its inputs. *)
Section semantics.
Variable schemas : string -> option NodeSchema.
Context {R : Type} (literal : gvalue -> R) (truth : R -> option bool)
  (run : string -> AnyNode -> list (string * R) -> string -> R -> Prop).
Hypothesis truth_literal : forall b, truth (literal (GBool b)) = Some b.

Inductive value_of (g : Graph) : gvalue -> R -> Prop :=
| value_literal v : link_id v = None -> value_of g v (literal v)
| value_selector l n s sel o c rc b bid v r :
    dict_get g (link_node l) = Some n -> selector_of schemas n = Some (s, sel) ->
    head (outputs s) = Some o -> link_output l = out_id o ->
    dict_get (inputs_of n) (sel_input sel) = Some c -> value_of g c rc -> truth rc = Some b ->
    dict_get (sel_branches sel) (branch_key b) = Some bid -> dict_get (inputs_of n) bid = Some v ->
    value_of g v r -> value_of g (GLink l) r
| value_run l n rs r :
    dict_get g (link_node l) = Some n -> selector_of schemas n = None -> values_of g (inputs_of n) rs ->
    run (link_node l) (with_inputs n []) rs (link_output l) r -> value_of g (GLink l) r
with values_of (g : Graph) : list (string * gvalue) -> list (string * R) -> Prop :=
| values_nil : values_of g [] []
| values_cons k v r d rs : value_of g v r -> values_of g d rs -> values_of g ((k, v) :: d) ((k, r) :: rs).

Scheme value_of_mut := Induction for value_of Sort Prop
with values_of_mut := Induction for values_of Sort Prop.

Section replace.
Variables (g : Graph) (targets : gset string) (node_id : string) (n : AnyNode) (s : NodeSchema) (sel : SelectorSpec)
  (output : Link) (value : gvalue) (inactive : option gvalue).
Hypothesis Hnd : NoDup (keys g).
Hypothesis Hn : dict_get g node_id = Some n.
Hypothesis Hsel : selector_of schemas n = Some (s, sel).
Hypothesis Hd : decide_selector targets node_id n s sel = Replace output value inactive.

Let g' := replace_selector g node_id output value.

Lemma redirect_value : redirect output value value = value.
Proof. destruct value; cbn; try done. by case_decide. Qed.

Lemma redirect_other l : link_node l <> node_id -> redirect output value (GLink l) = GLink l.
Proof.
  intros Hl. cbn. case_decide as E; [|done]. subst l.
  by destruct (decide_replace _ _ _ _ _ _ _ _ Hd) as (_ & b & bid & o & rest & _ & _ & _ & _ & ->).
Qed.

(** A choice is a literal, so its value is what it says. *)
Lemma choice_value g0 b rc b' : value_of g0 (GBool b) rc -> truth rc = Some b' -> b' = b.
Proof. intros Hv Ht. inversion Hv; subst. rewrite truth_literal in Ht. by injection Ht. Qed.

Lemma get_redirected k m : k <> node_id -> dict_get g k = Some m ->
  dict_get g' k = Some (redirect_node output value m).
Proof. intros Hk Hg. unfold g'. rewrite dict_get_replace_selector, decide_False, Hg by done. done. Qed.

Lemma inputs_redirected m k :
  dict_get (inputs_of (redirect_node output value m)) k = redirect output value <$> dict_get (inputs_of m) k.
Proof. unfold redirect_node. by rewrite inputs_of_with_inputs, dict_get_map. Qed.

Lemma selector_redirected m : selector_of schemas (redirect_node output value m) = selector_of schemas m.
Proof. apply selector_of_shape. unfold redirect_node. by rewrite with_inputs_twice. Qed.

Lemma value_replaced v r : value_of g v r -> value_of g' (redirect output value v) r.
Proof.
  destruct (decide_replace _ _ _ _ _ _ _ _ Hd) as (_ & b0 & bid0 & o0 & rest & Hc0 & Hb0 & Hv0 & Ho0 & Hout).
  revert v r. apply (value_of_mut g
    (fun v r _ => value_of g' (redirect output value v) r)
    (fun d rs _ => values_of g' (map (fun kv => (kv.1, redirect output value kv.2)) d) rs)).
  - intros v Hv. destruct v; cbn; try by apply value_literal. done.
  - intros l m s' sel' o c rc b bid v r Hm Hs Ho Hl Hc Hcv IHc Ht Hb Hv Hvv IHv.
    destruct (decide (link_node l = node_id)) as [E|E].
    + rewrite E, Hn in Hm. injection Hm as <-. rewrite Hsel in Hs. injection Hs as <- <-.
      rewrite Hc0 in Hc. injection Hc as <-. pose proof (choice_value _ _ _ _ Hcv Ht) as ->.
      rewrite Hb0 in Hb. injection Hb as <-. rewrite Hv0 in Hv. injection Hv as <-.
      assert (l = output) as ->.
      { rewrite Ho0 in Ho. injection Ho as <-. rewrite Hout. destruct l; cbn in *. by subst. }
      cbn. rewrite decide_True by done. by rewrite redirect_value in IHv.
    + rewrite redirect_other by done. eapply value_selector; [|by rewrite selector_redirected| | | | | | | |exact IHv].
      * by apply get_redirected.
      * done.
      * done.
      * by rewrite inputs_redirected, Hc.
      * exact IHc.
      * exact Ht.
      * exact Hb.
      * by rewrite inputs_redirected, Hv.
  - intros l m rs r Hm Hs Hi IHi Hr. destruct (decide (link_node l = node_id)) as [E|E].
    + rewrite E, Hn in Hm. injection Hm as <-. by rewrite Hsel in Hs.
    + rewrite redirect_other by done. eapply value_run; [by apply get_redirected|by rewrite selector_redirected| |].
      * unfold redirect_node. rewrite inputs_of_with_inputs. exact IHi.
      * unfold redirect_node. by rewrite with_inputs_twice.
  - constructor.
  - intros k v r d rs _ IHv _ IHd. cbn. by constructor.
Qed.

(** The value of the replaced output, from the branch's. *)
Lemma value_of_output r : value_of g value r -> value_of g (GLink output) r.
Proof.
  destruct (decide_replace _ _ _ _ _ _ _ _ Hd) as (_ & b0 & bid0 & o0 & rest & Hc0 & Hb0 & Hv0 & Ho0 & Hout).
  intros H. rewrite Hout.
  eapply (value_selector g _ n s sel o0 (GBool b0) (literal (GBool b0)) b0 bid0 value);
    cbn; auto using value_literal. by rewrite Ho0.
Qed.

Lemma value_unreplaced w r : value_of g' w r -> forall v, redirect output value v = w -> value_of g v r.
Proof.
  assert (Hlift : forall w r, value_of g w r -> forall v, redirect output value v = w -> value_of g v r).
  { intros w' r' Hw v Hv. rewrite <- Hv in Hw. destruct v as [l| | | | | | | | |]; try exact Hw. cbn in Hw.
    destruct (decide (l = output)) as [->|]; [by apply value_of_output|done]. }
  assert (Hback : forall k m', dict_get g' k = Some m' ->
    exists m, dict_get g k = Some m /\ m' = redirect_node output value m).
  { intros k m'. unfold g'. rewrite dict_get_replace_selector by done. case_decide; [done|].
    intros (m & Hm & ->)%fmap_Some. by exists m. }
  revert w r. apply (value_of_mut g'
    (fun w r _ => forall v, redirect output value v = w -> value_of g v r)
    (fun d' rs _ => forall d, map (fun kv => (kv.1, redirect output value kv.2)) d = d' -> values_of g d rs)).
  - intros w Hw. apply Hlift. by apply value_literal.
  - intros l m' s' sel' o c rc b bid w r Hm Hs Ho Hl Hc _ IHc Ht Hb Hw _ IHw. apply Hlift.
    destruct (Hback _ _ Hm) as (m & Hg & ->). rewrite selector_redirected in Hs.
    rewrite inputs_redirected in Hc, Hw. apply fmap_Some in Hc as (c0 & Hc & ->). apply fmap_Some in Hw as (w0 & Hw & ->).
    eapply value_selector; eauto.
  - intros l m' rs r Hm Hs _ IHi Hr. apply Hlift. destruct (Hback _ _ Hm) as (m & Hg & ->).
    rewrite selector_redirected in Hs. unfold redirect_node in Hr, IHi.
    rewrite with_inputs_twice in Hr. rewrite inputs_of_with_inputs in IHi.
    eapply value_run; eauto.
  - intros d Hd'. destruct d; [constructor|done].
  - intros k w r d' rs _ IHw _ IHd d Hd'. destruct d as [|[k0 v0] d]; [done|].
    cbn in Hd'. injection Hd' as <- Hv Hrest. constructor; auto.
Qed.
End replace.

Lemma value_unpruned g gone v r : value_of (remove_nodes g gone) v r -> value_of g v r.
Proof.
  assert (Hback : forall k m, dict_get (remove_nodes g gone) k = Some m -> dict_get g k = Some m).
  { intros k m. rewrite dict_get_remove_nodes. by case_decide. }
  revert v r. apply (value_of_mut (remove_nodes g gone) (fun v r _ => value_of g v r) (fun d rs _ => values_of g d rs));
    eauto using value_literal, value_selector, value_run, values_nil, values_cons.
Qed.

Lemma value_pruned g gone v r :
  (forall x, x ∈ gone -> x ∉ referenced g) ->
  value_of g v r -> (forall x, link_id v = Some x -> x ∉ gone) -> value_of (remove_nodes g gone) v r.
Proof.
  intros Hgone.
  assert (Hget : forall k m, dict_get g k = Some m -> k ∉ gone -> dict_get (remove_nodes g gone) k = Some m).
  { intros k m Hk Hn. rewrite dict_get_remove_nodes. by case_decide. }
  assert (Hin : forall k m a v, dict_get g k = Some m -> (a, v) ∈ inputs_of m -> forall x, link_id v = Some x -> x ∉ gone).
  { intros k m a v0 Hk Ha x Hx Hg. apply (Hgone x Hg), referenced_elem. exists (k, m).
    split; [by apply dict_get_elem|]. apply links_elem. destruct v0; try done. injection Hx as <-. by exists a, l. }
  revert v r. apply (value_of_mut g
    (fun v r _ => (forall x, link_id v = Some x -> x ∉ gone) -> value_of (remove_nodes g gone) v r)
    (fun d rs _ => (forall a v, (a, v) ∈ d -> forall x, link_id v = Some x -> x ∉ gone) ->
                   values_of (remove_nodes g gone) d rs)).
  - intros v Hv _. by apply value_literal.
  - intros l m s sel o c rc b bid v r Hm Hs Ho Hl Hc _ IHc Ht Hb Hv _ IHv Hx.
    eapply value_selector; eauto using dict_get_elem.
  - intros l m rs r Hm Hs _ IHi Hr Hx. eapply value_run; eauto.
  - constructor.
  - intros k v r d rs _ IHv _ IHd Hx. constructor.
    + apply IHv. intros x. apply (Hx k). left.
    + apply IHd. intros a w Hw. apply (Hx a). by right.
Qed.

Lemma value_prune g candidates targets t o r :
  t ∈ targets -> value_of (prune g candidates targets) (GLink (mkLink t o)) r <-> value_of g (GLink (mkLink t o)) r.
Proof.
  intros Ht. apply (prune_ind (fun a => value_of a (GLink (mkLink t o)) r <-> value_of g (GLink (mkLink t o)) r)); [|done].
  intros a gone <- Hgone. split; [apply value_unpruned|]. intros H. apply value_pruned; [|done|].
  - intros x Hx. by apply Hgone.
  - intros x [= <-] Hx. by destruct (Hgone t Hx).
Qed.
End semantics.

(** * Properties *)

(** C11: Lowering preserves what a document computes: when it reports no
    problem, each output of each target has in the lowered graph the values it
    has in the document under lazy evaluation, whatever literals mean and
    whatever the other nodes compute. Replacing a selector by the branch its
    stored boolean chooses and pruning the other branch lose and add nothing,
    through chains of selectors and cycles of links. *)
Theorem lowering_preserves_values schemas {R : Type} (literal : gvalue -> R) (truth : R -> option bool)
  (run : string -> AnyNode -> list (string * R) -> string -> R -> Prop) graph targets r :
  (forall b, truth (literal (GBool b)) = Some b) ->
  constructed_selectors schemas -> NoDup (keys graph) ->
  lower_selectors schemas graph targets = Some (Ok r) -> lr_problems r = [] ->
  forall t output v, t ∈ targets ->
    value_of schemas literal truth run (lr_graph r) (GLink (mkLink t output)) v
    <-> value_of schemas literal truth run graph (GLink (mkLink t output)) v.
Proof.
  intros Htruth Hcon Hnd Hr Hp t output v Ht.
  set (I := fun (nodes : Graph) (_ : gset string) =>
    value_of schemas literal truth run nodes (GLink (mkLink t output)) v
    <-> value_of schemas literal truth run graph (GLink (mkLink t output)) v).
  assert (Hts : t ∈ target_set targets) by (by apply elem_of_list_to_set).
  destruct (lower_selectors_ends schemas Hcon graph targets I) as (r' & Hr' & _ & Hcase); [done| | |done|done|].
  - intros nodes runtime k n s sel out value inactive Hn HI Hk Hs Hd. unfold I in *. rewrite <- HI.
    assert (redirect out value (GLink (mkLink t output)) = GLink (mkLink t output)) as Hsame.
    { eapply redirect_other; eauto. cbn. intros ->. by destruct (decide_replace _ _ _ _ _ _ _ _ Hd). }
    split.
    + intros H. eapply value_unreplaced; eauto.
    + intros H. rewrite <- Hsame. eapply value_replaced; eauto.
  - intros nodes runtime candidates Hn HI. unfold I in *. rewrite <- HI. by apply value_prune.
  - rewrite Hr in Hr'. injection Hr' as <-.
    destruct Hcase as [(_ & _ & runtime & HI & _)|(p & nodes & runtime & n & s & sel & Hps & _)]; [exact HI|].
    by rewrite Hp in Hps.
Qed.

(** Lowering always answers: with constructed schemas its loops end within
    their bounds and raise nothing. The targets come back as submitted, and
    either there is no problem, or exactly one and the graph comes back
    unchanged; a problem is anchored to a selector of the document. *)
Theorem selector_lowering_answers schemas graph targets :
  constructed_selectors schemas -> NoDup (keys graph) ->
  exists r, lower_selectors schemas graph targets = Some (Ok r) /\ lr_targets r = targets
    /\ (lr_problems r = []
        \/ exists p n, lr_problems r = [p] /\ lr_graph r = graph
             /\ dict_get graph (lp_node_id p) = Some n /\ is_Some (selector_of schemas n)).
Proof.
  intros Hcon Hnd.
  destruct (lower_selectors_ends schemas Hcon graph targets (fun nodes _ => lowered_from graph nodes))
    as (r & Hr & Ht & Hcase); [eauto| | |done| |].
  - intros. by apply lowered_from_replace.
  - intros. by apply lowered_from_prune.
  - intros k n Hk. exists n. split; [done|apply descends_refl].
  - exists r. split_and!; [done..|]. destruct Hcase as [(Hp & _)|(p & nodes & runtime & n & s & sel & Hp & Hg & HI & Hn & Hs & _)].
    + by left.
    + right. destruct (HI _ _ Hn) as (n0 & Hn0 & Hd & _). exists p, n0. split_and!; [done..|].
      rewrite <- (selector_of_shape schemas n n0 Hd). by eexists.
Qed.

(** Stored choices are resolved: every node left after lowering is a node
    of the document under the same id, with the same type and the same stored
    inputs, and one that is a selector had a link at its selector input in the
    document; a selector with a stored boolean is gone. *)
Theorem stored_selectors_are_resolved schemas graph targets r :
  constructed_selectors schemas -> NoDup (keys graph) ->
  lower_selectors schemas graph targets = Some (Ok r) -> lr_problems r = [] ->
  forall k n, dict_get (lr_graph r) k = Some n -> exists n0,
    dict_get graph k = Some n0 /\ descends n0 n
    /\ forall s sel, selector_of schemas n0 = Some (s, sel) ->
         exists l, dict_get (inputs_of n0) (sel_input sel) = Some (GLink l).
Proof.
  intros Hcon Hnd Hr Hp k n Hk.
  set (fed := fun id => forall n0 s sel, dict_get graph id = Some n0 -> selector_of schemas n0 = Some (s, sel) ->
    exists l, dict_get (inputs_of n0) (sel_input sel) = Some (GLink l)).
  destruct (lower_selectors_ends schemas Hcon graph targets
    (fun nodes runtime => lowered_from graph nodes /\ forall id, id ∈ runtime -> fed id)) as (r' & Hr' & _ & Hcase); [| | |done| |].
  - intros nodes runtime id m s sel l _ [Hl Hf] Hm Hs Hin. split; [done|].
    intros id' [->%elem_of_singleton|Hid]%elem_of_union; [|by apply Hf].
    intros n0 s0 sel0 Hn0 Hs0. destruct (Hl _ _ Hm) as (n1 & Hn1 & Hd). rewrite Hn0 in Hn1. injection Hn1 as <-.
    rewrite (selector_of_shape schemas m n0 (proj1 Hd)), Hs0 in Hs. injection Hs as -> ->.
    destruct (descends_get _ _ _ _ Hd Hin) as (v0 & Hv0 & [[x Hx]|<-]); [|by eexists].
    destruct v0; try done. by eexists.
  - intros nodes runtime id m s sel output value inactive Hn [Hl Hf] Hm Hs Hd. split; [|done]. by apply lowered_from_replace.
  - intros nodes runtime candidates Hn [Hl Hf]. split; [|done]. by apply lowered_from_prune.
  - split; [|set_solver]. intros id m Hm. exists m. split; [done|apply descends_refl].
  - rewrite Hr in Hr'. injection Hr' as <-.
    destruct Hcase as [(_ & _ & runtime & [Hl Hf] & Hall)|(p & nodes & runtime & m & s & sel & Hps & _)]; [|by rewrite Hp in Hps].
    destruct (Hl k n Hk) as (n0 & Hn0 & Hd). exists n0. split_and!; [done..|]. intros s sel Hs.
    eapply (Hf k); eauto. eapply Hall; [exact Hk|]. by rewrite (selector_of_shape schemas n n0 (proj1 Hd)).
Qed.

(** * Examples *)

Definition demo_T : TypeExpr := mkTypeExpr KVariable [] "T" None [] "" None.
Definition demo_node (type : string) (ins : list InputSpec) (outs : list OutputSpec) (sel : option SelectorSpec) : NodeSchema :=
  mkNodeSchema type None ins outs [] [] [] [] [] true [] false None None "normal" [] [] false false false false None
    sel [] None None None [] None.

Definition demo_switch : NodeSchema :=
  demo_node "test.switch"
    [plain_input "switch" (concrete_of CORE_BOOLEAN) true; plain_input "off" demo_T false; plain_input "on" demo_T false]
    [plain_output "out" demo_T "" false] (Some (mkSelector "switch" [("false", "off"); ("true", "on")])).

Definition demo_schemas (ty : string) : option NodeSchema :=
  if String.eqb ty "test.switch" then Some demo_switch else None.

Lemma demo_constructed : constructed_selectors demo_schemas.
Proof.
  intros ty s sel. unfold demo_schemas. destruct (String.eqb ty "test.switch"); [|done].
  intros [= <-] [= <-]. split; vm_compute; reflexivity.
Qed.

Definition plain_node (type : string) (ins : list (string * gvalue)) : AnyNode := NodeOf (mkGraphNode type ins [] []).

(** A chain of two switches, with a branch nothing else uses. *)
Definition demo_chain : Graph :=
  [("source", plain_node "test.source" []);
   ("unused", plain_node "test.source" []);
   ("a", plain_node "test.switch" [("switch", GBool true); ("on", GLink (mkLink "source" "out"));
                                   ("off", GLink (mkLink "unused" "out"))]);
   ("b", plain_node "test.switch" [("switch", GBool false); ("off", GLink (mkLink "a" "out"))]);
   ("sink", plain_node "test.sink" [("value", GLink (mkLink "b" "out"))])].

Definition demo_lowered : Graph :=
  [("source", plain_node "test.source" []);
   ("sink", plain_node "test.sink" [("value", GLink (mkLink "source" "out"))])].

Lemma demo_chain_lowers :
  lower_selectors demo_schemas demo_chain ["sink"] = Some (Ok (mkLowering demo_lowered ["sink"] [])).
Proof. vm_compute. reflexivity. Qed.

(** Values that are documents' own literals, nodes that return their type. *)
Definition demo_literal (v : gvalue) : gvalue := v.
Definition demo_truth (v : gvalue) : option bool := match v with GBool b => Some b | _ => None end.
Definition demo_run (_ : string) (n : AnyNode) (_ : list (string * gvalue)) (_ : string) (r : gvalue) : Prop :=
  match n with NodeOf g => r = GStr (Graph.node_type g) | RegionOf _ _ => False end.

Lemma lowering_preserves_values_witness :
  value_of demo_schemas demo_literal demo_truth demo_run demo_chain (GLink (mkLink "sink" "x")) (GStr "test.sink").
Proof.
  apply (lowering_preserves_values demo_schemas demo_literal demo_truth demo_run demo_chain ["sink"]
    (mkLowering demo_lowered ["sink"] [])).
  - reflexivity.
  - exact demo_constructed.
  - apply (bool_decide_unpack _). vm_compute. exact I.
  - exact demo_chain_lowers.
  - reflexivity.
  - left.
  - eapply value_run; [reflexivity|reflexivity| |reflexivity].
    constructor; [|constructor]. eapply value_run; [reflexivity|reflexivity|constructor|reflexivity].
Defined.

Lemma selector_lowering_answers_witness :
  exists r, lower_selectors demo_schemas demo_chain ["b"] = Some (Ok r) /\ lr_targets r = ["b"].
Proof.
  destruct (selector_lowering_answers demo_schemas demo_chain ["b"]) as (r & Hr & Ht & _).
  - exact demo_constructed.
  - apply (bool_decide_unpack _). vm_compute. exact I.
  - exists r. split; assumption.
Defined.

Lemma stored_selectors_are_resolved_witness :
  exists n0, dict_get demo_chain "sink" = Some n0
    /\ descends n0 (plain_node "test.sink" [("value", GLink (mkLink "source" "out"))]).
Proof.
  destruct (stored_selectors_are_resolved demo_schemas demo_chain ["sink"] (mkLowering demo_lowered ["sink"] [])) with
    (k := "sink") (n := plain_node "test.sink" [("value", GLink (mkLink "source" "out"))]) as (n0 & Hn0 & Hd & _).
  - exact demo_constructed.
  - apply (bool_decide_unpack _). vm_compute. exact I.
  - exact demo_chain_lowers.
  - reflexivity.
  - reflexivity.
  - exists n0. split; assumption.
Defined.

(** A switch fed by a later switch whose chosen branch is a stored boolean. *)
Definition demo_fed : Graph :=
  [("b", plain_node "test.switch" [("switch", GLink (mkLink "a" "out")); ("off", GInt 1); ("on", GInt 2)]);
   ("a", plain_node "test.switch" [("switch", GBool true); ("on", GBool true)]);
   ("sink", plain_node "test.sink" [("value", GLink (mkLink "b" "out"))])].

(** The answer depends on where the feeding switch stands: visited first, the
    fed switch is set aside and keeps a stored boolean that lowering the answer
    again would resolve; after it, both are lowered. *)
Lemma lowering_stops_early :
  let left := [("b", plain_node "test.switch" [("switch", GBool true); ("off", GInt 1); ("on", GInt 2)]);
               ("sink", plain_node "test.sink" [("value", GLink (mkLink "b" "out"))])] in
  lower_selectors demo_schemas demo_fed ["sink"] = Some (Ok (mkLowering left ["sink"] []))
  /\ lower_selectors demo_schemas left ["sink"]
     = Some (Ok (mkLowering [("sink", plain_node "test.sink" [("value", GInt 2)])] ["sink"] []))
  /\ lower_selectors demo_schemas (rev demo_fed) ["sink"]
     = Some (Ok (mkLowering [("sink", plain_node "test.sink" [("value", GInt 2)])] ["sink"] [])).
Proof. vm_compute. repeat split; reflexivity. Qed.
