(* ===== verification/Scheduler.v ===== *)
(** Scheduler: how the engine runs one level of a document
    (dinkster_engine/engine.py): the plan of strong edges, the ready-set
    scheduler over a task group, and the release of outputs nobody needs any
    more.  A node's own work is a relation between the outputs it reads and
    those it answers; its task is cut at its awaits, and [dstep] interleaves
    the tasks with their failures, the group's shutdown and a cancellation
    from outside. *)
From S2P Require Import Prelude PyStr Schema Graph Search Plan.

Local Open Scope string_scope.
Local Open Scope Z_scope.
Local Open Scope list_scope.

(** * The plan of strong edges *)

Section strong.
Variable g : Graph.
(** The lazy inputs of each node's effective interface. *)
Variable lazy : string -> gset string.

Definition strong_dependencies (node_id : string) : gset string :=
  match dict_get g node_id with
  | Some (NodeOf _ as n) =>
      list_to_set (omap (fun kv => if bool_decide (kv.1 ∈ lazy node_id) then None else link_target g kv.2) (inputs_of n))
  | Some n => list_to_set (omap (fun kv => link_target g kv.2) (inputs_of n))
  | None => ∅
  end.

Definition strong_needed (targets : list string) : gset string :=
  search_from (fun _ => false) (fun node_id => elements (strong_dependencies node_id)) (keys g) targets.

Definition strong_deps (targets : list string) : gmap string (gset string) :=
  set_to_map (fun n => (n, strong_dependencies n ∩ strong_needed targets)) (strong_needed targets).

(** [while ready := sorted(...)]. *)
Fixpoint strong_loop (fuel : nat) (remaining : gmap string (gset string)) (order : list string) : list string :=
  match fuel with
  | O => order
  | S fuel' =>
      match sorted_set (dom (filter (fun p : string * gset string => p.2 = ∅ /\ p.1 ∉ order) remaining)) with
      | [] => order
      | node_id :: _ => strong_loop fuel' (discard node_id remaining) (order ++ [node_id])
      end
  end.

(** None is the KeyError of a target that is not in the graph. *)
Definition strong_plan (targets : list string) : option (list string * gmap string (gset string)) :=
  if forallb (dict_mem g) targets
  then let deps := strong_deps targets in Some (strong_loop (S (size deps)) deps [], deps)
  else None.
End strong.

(** * One level under execution *)

Inductive failure := ExecutionError (node_id : string) | OtherError (node_id : string).

(** A node's task: created, entered, with its inputs read, with its outputs
    in [produced], over; failed, before or after its references were
    released, and then noticed by the group; or cancelled. *)
Inductive phase (V : Type) :=
| Created
| Begun
| HasInputs (env : gmap string V)
| Stored
| Done
| Failed (e : failure) (released : bool)
| Reported (released : bool)
| TaskCancelled.
Arguments Created {V}. Arguments Begun {V}. Arguments HasInputs {V} _. Arguments Stored {V}.
Arguments Done {V}. Arguments Failed {V} _ _. Arguments Reported {V} _. Arguments TaskCancelled {V}.

(** [_ProducedReferences]. *)
Record References := {
  r_deps : gmap string (list string);
  r_targets : gset string;
  r_uses : gmap string Z;
}.

Record Dag (V : Type) := {
  references : References;
  produced : gmap string V;
  remaining : gmap string Z;
  tasks : gmap string (phase V);
  created : list string;
  aborting : bool;
  errors : list failure;
  cancelled : bool;
}.
Arguments references {V}. Arguments produced {V}. Arguments remaining {V}. Arguments tasks {V}.
Arguments created {V}. Arguments aborting {V}. Arguments errors {V}. Arguments cancelled {V}.

Section dag.
Context {V : Type}.
(** The dependencies of each node, a set in the order it is listed. *)
Variable deps : gmap string (list string).
(** What a node may answer, given the outputs of its dependencies. *)
Variable computes : string -> gmap string V -> V -> Prop.
Implicit Types (st : Dag V) (n d : string).

(** ** References *)

Definition bump (delta : Z) d (uses : gmap string Z) : option (gmap string Z) :=
  u ← uses !! d; Some (<[d := u + delta]> uses).

Fixpoint count_uses (ds : list string) (uses : gmap string Z) : option (gmap string Z) :=
  match ds with
  | [] => Some uses
  | d :: ds' => uses ← bump 1 d uses; count_uses ds' uses
  end.

(** [__init__]; None is a KeyError, as below. *)
Definition references_init (targets : list string) : option References :=
  uses ← count_uses (concat (map_to_list deps).*2) ((fun _ => 0) <$> deps);
  Some {| r_deps := deps; r_targets := list_to_set targets; r_uses := uses |}.

(** The dependencies of a retired node lose a use; the stack's top is first. *)
Fixpoint release (targets : gset string) (ds : list string) (uses : gmap string Z) (retired : list string) :
  option (gmap string Z * list string) :=
  match ds with
  | [] => Some (uses, retired)
  | d :: ds' =>
      u ← uses !! d;
      release targets ds' (<[d := u - 1]> uses)
        (if (u - 1 =? 0) && bool_decide (d ∉ targets) then d :: retired else retired)
  end.

(** [while retired]. *)
Fixpoint retire (fuel : nat) (retired : list string) (r : References) (prod : gmap string V) :
  option (References * gmap string V) :=
  match retired with
  | [] => Some (r, prod)
  | current :: rest =>
      match fuel with
      | O => None
      | S fuel' =>
          u ← r_uses r !! current;
          let prod := if (u =? 0) && bool_decide (current ∉ r_targets r) then delete current prod else prod in
          p ← release (r_targets r) (default [] (r_deps r !! current)) (r_uses r) rest;
          retire fuel' (snd p)
            {| r_deps := delete current (r_deps r); r_targets := r_targets r; r_uses := fst p |} prod
      end
  end.

(** [finished]: an edge is followed once. *)
Definition finished n (r : References) (prod : gmap string V) : option (References * gmap string V) :=
  retire (S (sum_list_with length (map_to_list (r_deps r)).*2)) [n] r prod.

(** ** The scheduler *)

Definition deps_of n : list string := default [] (deps !! n).

(** [dependents[n]]. *)
Definition dependents n : list string := (filter (fun p : string * list string => n ∈ p.2) (map_to_list deps)).*1.

Definition set_phase n (p : phase V) st : Dag V :=
  {| references := references st; produced := produced st; remaining := remaining st;
     tasks := <[n := p]> (tasks st); created := created st; aborting := aborting st; errors := errors st;
     cancelled := cancelled st |}.

Definition set_produced (prod : gmap string V) st : Dag V :=
  {| references := references st; produced := prod; remaining := remaining st; tasks := tasks st;
     created := created st; aborting := aborting st; errors := errors st; cancelled := cancelled st |}.

(** [task_group.create_task(step(n))]. *)
Definition create_task n st : Dag V :=
  {| references := references st; produced := produced st; remaining := remaining st;
     tasks := <[n := Created]> (tasks st); created := created st ++ [n]; aborting := aborting st;
     errors := errors st; cancelled := cancelled st |}.

Definition set_remaining (rem : gmap string Z) st : Dag V :=
  {| references := references st; produced := produced st; remaining := rem; tasks := tasks st;
     created := created st; aborting := aborting st; errors := errors st; cancelled := cancelled st |}.

Definition set_references (r : References) st : Dag V :=
  {| references := r; produced := produced st; remaining := remaining st; tasks := tasks st;
     created := created st; aborting := aborting st; errors := errors st; cancelled := cancelled st |}.

(** The loop over dependents; false when the group refuses a task because it
    is shutting down, or a KeyError. *)
Fixpoint release_dependents (l : list string) st : Dag V * bool :=
  match l with
  | [] => (st, true)
  | d :: l' =>
      match remaining st !! d with
      | None => (st, false)
      | Some k =>
          let st := set_remaining (<[d := k - 1]> (remaining st)) st in
          if k - 1 =? 0
          then if aborting st then (st, false) else release_dependents l' (create_task d st)
          else release_dependents l' st
      end
  end.

(** The end of [step], from [references.finished] on. *)
Definition finish_node n st : Dag V :=
  match finished n (references st) (produced st) with
  | None => set_phase n (Failed (OtherError n) true) st
  | Some (r, prod) =>
      match release_dependents (dependents n) (set_references r (set_produced prod st)) with
      | (st, true) => set_phase n Done st
      | (st, false) => set_phase n (Failed (OtherError n) true) st
      end
  end.

(** The outputs a node reads. *)
Fixpoint read_inputs (ds : list string) (prod : gmap string V) : option (gmap string V) :=
  match ds with
  | [] => Some ∅
  | d :: ds' => v ← prod !! d; env ← read_inputs ds' prod; Some (<[d := v]> env)
  end.

(** Creating the first tasks. *)
Fixpoint create_ready (order : list string) st : option (Dag V) :=
  match order with
  | [] => Some st
  | n :: order' =>
      k ← remaining st !! n;
      create_ready order' (if k =? 0 then create_task n st else st)
  end.

(** [_execute_static_dag] up to its wait. *)
Definition dag_init (order targets : list string) (base : gmap string V) : option (Dag V) :=
  r ← references_init targets;
  if forallb (fun d => bool_decide (is_Some (deps !! d))) (concat (map_to_list deps).*2)
  then create_ready order
         {| references := r; produced := base; remaining := (fun ds => Z.of_nat (length ds)) <$> deps;
            tasks := ∅; created := []; aborting := false; errors := []; cancelled := false |}
  else None.

Definition unsettled (p : phase V) : bool :=
  match p with Done | Reported _ | TaskCancelled => false | _ => true end.

Definition node_of (e : failure) : string := match e with ExecutionError n | OtherError n => n end.

(** A task that can be cancelled where it is. *)
Definition alive (p : phase V) : bool :=
  match p with Created | Begun | HasInputs _ | Stored => true | _ => false end.

Definition entered (p : phase V) : bool :=
  match p with Begun | HasInputs _ | Stored => true | _ => false end.

(** [_on_task_done] of a failed task. *)
Definition notice n (e : failure) (released : bool) st : Dag V :=
  {| references := references st; produced := produced st; remaining := remaining st;
     tasks := <[n := Reported released]> (tasks st); created := created st; aborting := true;
     errors := errors st ++ [e]; cancelled := cancelled st |}.

(** The run is cancelled from outside. *)
Definition cancel_run st : Dag V :=
  {| references := references st; produced := produced st; remaining := remaining st; tasks := tasks st;
     created := created st; aborting := true; errors := errors st; cancelled := true |}.

Inductive dstep : Dag V -> Dag V -> Prop :=
| d_begin n st : tasks st !! n = Some Created -> aborting st = false -> dstep st (set_phase n Begun st)
| d_read n st : tasks st !! n = Some Begun ->
    dstep st (match read_inputs (deps_of n) (produced st) with
              | Some env => set_phase n (HasInputs env) st
              | None => set_phase n (Failed (OtherError n) false) st
              end)
| d_store n env v st : tasks st !! n = Some (HasInputs env) -> computes n env v ->
    dstep st (set_phase n Stored (set_produced (<[n := v]> (produced st)) st))
| d_finish n st : tasks st !! n = Some Stored -> dstep st (finish_node n st)
| d_fail n p e st : tasks st !! n = Some p -> entered p = true -> node_of e = n ->
    dstep st (set_phase n (Failed e false) st)
| d_notice n e released st : tasks st !! n = Some (Failed e released) -> dstep st (notice n e released st)
| d_cancelled n p st : tasks st !! n = Some p -> alive p = true -> aborting st = true ->
    dstep st (set_phase n TaskCancelled st)
| d_cancel n p st : tasks st !! n = Some p -> unsettled p = true -> cancelled st = false -> dstep st (cancel_run st).

(** Every task of the group is over. *)
Definition settled st : Prop := map_Forall (fun _ p => unsettled p = false) (tasks st).

Inductive outcome := Completed | Raised (e : failure) | RaisedGroup (es : list failure) | RunCancelled.

Definition is_execution (e : failure) : bool := match e with ExecutionError _ => true | OtherError _ => false end.

(** How the group and [except* ExecutionError] end. *)
Definition dag_outcome st : outcome :=
  match List.filter is_execution (errors st), List.filter (fun e => negb (is_execution e)) (errors st) with
  | [], [] => if cancelled st then RunCancelled else Completed
  | e :: _, [] => Raised e
  | [], es => RaisedGroup es
  | e :: _, es => RaisedGroup (e :: es)
  end.

(** [_execute_dag] clears [produced] on every exception. *)
Definition dag_result st : outcome * gmap string V :=
  match dag_outcome st with
  | Completed => (Completed, produced st)
  | o => (o, ∅)
  end.
End dag.

(** * References count uses *)

Section references.
Context {V : Type}.
Variable deps : gmap string (list string).
Variable T : gset string.
Hypothesis deps_NoDup : forall n ds, deps !! n = Some ds -> NoDup ds.
Implicit Types (P : gset string) (prod : gmap string V) (n d x : string).

(** How many nodes not in [P] depend on [d]. *)
Definition users P d : nat := size (filter (fun p : string * list string => p.1 ∉ P /\ d ∈ p.2) deps).

(** The dependencies of [n] not in [P]. *)
Definition waiting P n : nat := length (filter (fun d => d ∉ P) (deps_of deps n)).

Definition references_ok P (r : References) : Prop :=
  r_deps r = filter (fun p : string * list string => p.1 ∉ P) deps /\ r_targets r = T
  /\ forall d, is_Some (deps !! d) -> r_uses r !! d = Some (Z.of_nat (users P d)).

Lemma users_step P n ds x : n ∉ P -> deps !! n = Some ds ->
  users P x = (users ({[n]} ∪ P) x + if decide (x ∈ ds) then 1 else 0)%nat.
Proof using Type.
  clear deps_NoDup.
  intros Hn Hds. unfold users.
  assert (Heq : filter (fun p : string * list string => p.1 ∉ {[n]} ∪ P /\ x ∈ p.2) deps
                = delete n (filter (fun p : string * list string => p.1 ∉ P /\ x ∈ p.2) deps)).
  { apply map_eq. intros y. destruct (decide (y = n)) as [->|Hy].
    - rewrite lookup_delete_eq, map_lookup_filter_None. right. intros l _ [Hno _]. cbn in Hno. set_solver.
    - rewrite lookup_delete_ne by done. rewrite !map_lookup_filter. destruct (deps !! y) as [l|]; [|done]. cbn.
      repeat case_guard; try done; set_solver. }
  rewrite Heq, map_size_delete. rewrite map_lookup_filter, Hds. cbn. case_decide as Hx.
  - case_guard as Hg; [|by destruct Hg]. cbn. destruct (size _) eqn:Hs; [|lia].
    exfalso. apply map_size_empty_inv in Hs. apply (f_equal (fun m => m !! n)) in Hs.
    rewrite lookup_empty, map_lookup_filter_None in Hs. destruct Hs as [Hs|Hs]; [congruence|]. by apply (Hs ds Hds).
  - case_guard as Hg; [by destruct Hg|]. cbn. lia.
Qed.

Lemma users_pos P n ds x : n ∉ P -> deps !! n = Some ds -> x ∈ ds -> (0 < users P x)%nat.
Proof using Type. intros Hn Hds Hx. rewrite (users_step P n ds x Hn Hds), decide_True by done. lia. Qed.

(** A node somebody still uses has a user. *)
Lemma users_zero P x : users P x = 0%nat <-> forall n ds, deps !! n = Some ds -> x ∈ ds -> n ∈ P.
Proof using Type.
  split.
  - intros Hz n ds Hds Hx. destruct (decide (n ∈ P)) as [|Hn]; [done|]. pose proof (users_pos P n ds x Hn Hds Hx). lia.
  - intros Hall. unfold users. apply map_size_empty_iff, map_empty_filter. intros n ds Hds [Hn Hx]. by apply Hn, (Hall n ds).
Qed.

Lemma waiting_step P n x : n ∉ P -> waiting P x = (waiting ({[n]} ∪ P) x + if decide (n ∈ deps_of deps x) then 1 else 0)%nat.
Proof.
  intros Hn. unfold waiting. assert (Hnd : NoDup (deps_of deps x)).
  { unfold deps_of. destruct (deps !! x) as [ds|] eqn:Hx; [by eapply deps_NoDup|constructor]. }
  induction Hnd as [|d l Hd Hnd IH]; [by rewrite decide_False by apply not_elem_of_nil|]. rewrite !filter_cons.
  destruct (decide (d = n)) as [->|Hne].
  - rewrite (decide_True (P := n ∈ n :: l)) by constructor. rewrite (decide_True (P := n ∉ P)) by done.
    rewrite (decide_False (P := n ∉ {[n]} ∪ P)) by set_solver. rewrite decide_False in IH by done. cbn. lia.
  - rewrite (decide_ext (n ∈ d :: l) (n ∈ l)) by (rewrite elem_of_cons; naive_solver).
    rewrite (decide_ext (d ∉ {[n]} ∪ P) (d ∉ P)) by set_solver. destruct (decide (n ∈ l)), (decide (d ∉ P)); cbn; lia.
Qed.

Lemma waiting_zero P n : waiting P n = 0%nat <-> forall d, d ∈ deps_of deps n -> d ∈ P.
Proof using Type.
  unfold waiting. rewrite length_zero_iff_nil. split.
  - intros Hnil d Hd. destruct (decide (d ∈ P)) as [|Hn]; [done|]. exfalso.
    apply (not_elem_of_nil d). rewrite <- Hnil. by apply list_elem_of_filter.
  - intros Hall. destruct (filter _ _) as [|d l] eqn:Hf; [done|]. exfalso.
    assert (Hd : d ∈ filter (fun d => d ∉ P) (deps_of deps n)) by (rewrite Hf; constructor).
    apply list_elem_of_filter in Hd as [Hn Hd]. by apply Hn, Hall.
Qed.

(** ** The count at the start *)

Lemma count_uses_spec ds uses : (forall d, d ∈ ds -> is_Some (uses !! d)) ->
  exists uses', count_uses ds uses = Some uses'
    /\ forall d, uses' !! d = (fun u => u + Z.of_nat (length (filter (fun x => x = d) ds))) <$> uses !! d.
Proof using Type.
  revert uses. induction ds as [|d ds IH]; intros uses Hds.
  - exists uses. split; [done|]. intros x. cbn. destruct (uses !! x); [|done]. cbn. f_equal. lia.
  - destruct (Hds d ltac:(by left)) as [u Hu]. cbn [count_uses]. unfold bump. rewrite Hu. cbn [mbind option_bind].
    destruct (IH (<[d := u + 1]> uses)) as (uses' & Hc & Hl).
    { intros x Hx. destruct (decide (x = d)) as [->|]; [by rewrite lookup_insert_eq|]. rewrite lookup_insert_ne by done. apply Hds. by right. }
    exists uses'. split; [done|]. intros x. rewrite Hl, filter_cons. destruct (decide (d = x)) as [->|Hne].
    + rewrite lookup_insert_eq, Hu. cbn. f_equal. lia.
    + by rewrite lookup_insert_ne.
Qed.

Lemma occurrences d : (forall n ds, deps !! n = Some ds -> NoDup ds) ->
  length (filter (fun x => x = d) (concat (map_to_list deps).*2)) = size (filter (fun p : string * list string => d ∈ p.2) deps).
Proof.
  clear deps_NoDup. induction deps as [|n ds m Hn IH] using map_ind; intros Hnd; [by rewrite map_to_list_empty, map_filter_empty|].
  rewrite map_to_list_insert by done. rewrite fmap_cons. cbn [concat snd]. rewrite filter_app, length_app.
  rewrite IH by (intros x l Hl; apply (Hnd x); rewrite lookup_insert_ne by congruence; done).
  assert (Hl : NoDup ds) by (apply (Hnd n); by rewrite lookup_insert_eq).
  assert (Hone : length (filter (fun x => x = d) ds) = if decide (d ∈ ds) then 1%nat else 0%nat).
  { clear -Hl. induction Hl as [|x l Hx Hl IH]; [done|]. rewrite filter_cons. destruct (decide (x = d)) as [->|Hne].
    - cbn. rewrite IH, decide_False by done. rewrite decide_True by constructor. done.
    - rewrite IH. apply decide_ext. rewrite elem_of_cons. naive_solver. }
  rewrite Hone, map_filter_insert. cbn. case_decide as Hd.
  - rewrite map_size_insert_None; [lia|]. rewrite map_lookup_filter, Hn. done.
  - rewrite delete_id; [lia|]. done.
Qed.

Lemma references_init_ok (targets : list string) : T = list_to_set targets ->
  (forall n ds d, deps !! n = Some ds -> d ∈ ds -> is_Some (deps !! d)) ->
  exists r, references_init deps targets = Some r /\ references_ok ∅ r.
Proof.
  intros HT Hcl. unfold references_init.
  destruct (count_uses_spec (concat (map_to_list deps).*2) ((fun _ => 0) <$> deps)) as (uses & Hc & Hl).
  { intros d (ds & Hd & Hds)%list_elem_of_In%in_concat. apply list_elem_of_In, list_elem_of_fmap in Hd as ([n ds'] & -> & Hn).
    apply elem_of_map_to_list in Hn. apply list_elem_of_In in Hds. rewrite lookup_fmap. by destruct (Hcl n ds' d Hn Hds) as [? ->]. }
  rewrite Hc. cbn. eexists. split; [done|]. split_and!; cbn; [|done|].
  - symmetry. apply map_filter_id. intros; set_solver.
  - intros d [ds Hd]. rewrite Hl, lookup_fmap, Hd. cbn. f_equal. rewrite occurrences, Z.add_0_l by done. unfold users. do 2 f_equal.
    apply map_filter_ext. intros n l _. cbn. set_solver.
Qed.

(** ** A node finishes *)

Lemma release_spec ds uses retired : NoDup ds -> (forall d, d ∈ ds -> is_Some (uses !! d)) ->
  exists uses' out, release T ds uses retired = Some (uses', out ++ retired)
    /\ (forall x, uses' !! x = (fun u => if decide (x ∈ ds) then u - 1 else u) <$> uses !! x)
    /\ (forall x, x ∈ out <-> x ∈ ds /\ uses' !! x = Some 0 /\ x ∉ T) /\ (length out <= length ds)%nat.
Proof.
  intros Hnd. revert uses retired. induction Hnd as [|d ds Hd Hnd IH]; intros uses retired Hds.
  - exists uses, []. split_and!; [done| | |done].
    + intros x. destruct (uses !! x) as [u|]; [|done]. cbn. rewrite decide_False by apply not_elem_of_nil. done.
    + intros x. split; [by intros ?%not_elem_of_nil|by intros [?%not_elem_of_nil _]].
  - destruct (Hds d ltac:(by left)) as [u Hu]. cbn. rewrite Hu. cbn.
    set (push := (u - 1 =? 0) && bool_decide (d ∉ T)).
    destruct (IH (<[d := u - 1]> uses) (if push then d :: retired else retired)) as (uses' & out & Hr & Hl & Hin & Hlen).
    { intros x Hx. rewrite lookup_insert_ne by (by intros ->). apply Hds. by right. }
    assert (Hd' : uses' !! d = Some (u - 1)) by (by rewrite Hl, lookup_insert_eq; cbn; rewrite decide_False by done).
    exists uses', (out ++ if push then [d] else []). split_and!.
    + rewrite Hr. f_equal. f_equal. rewrite <- app_assoc. by destruct push.
    + intros x. rewrite Hl. destruct (decide (x = d)) as [->|Hne].
      * rewrite lookup_insert_eq, Hu. cbn. rewrite decide_False, decide_True by (done || by constructor). done.
      * rewrite lookup_insert_ne by done. destruct (uses !! x); [|done]. cbn. f_equal. apply decide_ext.
        rewrite elem_of_cons. naive_solver.
    + intros x. rewrite elem_of_app, Hin, elem_of_cons.
      assert (Hp : x ∈ (if push then [d] else []) <-> x = d /\ u - 1 = 0 /\ d ∉ T).
      { unfold push. rewrite <- Z.eqb_eq. destruct (u - 1 =? 0); cbn; [|set_solver]. case_bool_decide; set_solver. }
      rewrite Hp. split.
      * intros [(? & ? & ?)|(-> & Hz & ?)]; [naive_solver|]. rewrite Hd', Hz. naive_solver.
      * intros ([->|?] & Hz & ?); [right|left; naive_solver]. rewrite Hd' in Hz. naive_solver.
    + rewrite length_app. cbn. destruct push; cbn; lia.
Qed.

Lemma retire_drained fuel l (r : References) prod : r_targets r = T ->
  (forall x, x ∈ l -> r_uses r !! x = Some 0 /\ x ∉ T /\ r_deps r !! x = None) -> (length l <= fuel)%nat ->
  exists prod', retire fuel l r prod = Some (r, prod')
    /\ forall x, prod' !! x = if decide (x ∈ l) then None else prod !! x.
Proof using Type.
  intros HT. revert fuel prod. induction l as [|c l IH]; intros fuel prod Hl Hf.
  - exists prod. split; [by destruct fuel|]. intros x. rewrite decide_False; [done|apply not_elem_of_nil].
  - destruct fuel as [|fuel]; [cbn in Hf; lia|]. destruct (Hl c ltac:(by left)) as (Hu & Hc & Hd). cbn [retire].
    rewrite Hu. cbn [mbind option_bind]. rewrite HT, bool_decide_true, Hd by done. cbn.
    rewrite delete_id by done. assert (Hr : {| r_deps := r_deps r; r_targets := T; r_uses := r_uses r |} = r)
      by (rewrite <- HT; by destruct r). rewrite Hr.
    destruct (IH fuel (delete c prod)) as (prod' & Hrun & Hlook); [intros x Hx; apply Hl; by right|cbn in Hf; lia|].
    exists prod'. split; [done|]. intros x. rewrite Hlook. destruct (decide (x = c)) as [->|Hne].
    + rewrite lookup_delete_eq, (decide_True (P := c ∈ c :: l)) by constructor. by case_decide.
    + rewrite lookup_delete_ne by done. apply decide_ext. rewrite elem_of_cons. naive_solver.
Qed.

Lemma finished_spec P n ds (r : References) prod : references_ok P r -> n ∉ P -> deps !! n = Some ds -> n ∉ ds ->
  (forall d, d ∈ ds -> d ∈ P /\ is_Some (deps !! d)) ->
  exists r' prod', finished n r prod = Some (r', prod') /\ references_ok ({[n]} ∪ P) r'
    /\ forall x, prod' !! x = if decide ((x = n \/ x ∈ ds) /\ users ({[n]} ∪ P) x = 0%nat /\ x ∉ T) then None else prod !! x.
Proof.
  intros (Hdeps & HT & Huses) Hn Hds Hself Hin. unfold finished. cbn [retire].
  rewrite (Huses n) by by eexists. cbn [mbind option_bind]. rewrite Hdeps, HT.
  assert (Hrd : filter (fun p : string * list string => p.1 ∉ P) deps !! n = Some ds).
  { rewrite map_lookup_filter, Hds. cbn. by case_guard. }
  rewrite Hrd. cbn [default from_option id].
  destruct (release_spec ds (r_uses r) [] (deps_NoDup n ds Hds)) as (uses' & out & -> & Hl & Hout & Hlen).
  { intros d Hd. rewrite Huses by apply Hin, Hd. by eexists. }
  cbn [mbind option_bind fst snd]. rewrite app_nil_r.
  set (r' := {| r_deps := _; r_targets := _; r_uses := _ |}).
  set (prod1 := if (Z.of_nat (users P n) =? 0) && bool_decide (n ∉ T) then delete n prod else prod).
  assert (Hstep : forall x, users P x = (users ({[n]} ∪ P) x + if decide (x ∈ ds) then 1 else 0)%nat)
    by (intros; by apply users_step).
  assert (Hok : references_ok ({[n]} ∪ P) r').
  { split_and!; [|done|].
    - cbn. apply map_eq. intros y. destruct (decide (y = n)) as [->|Hy].
      + rewrite lookup_delete_eq. symmetry. apply map_lookup_filter_None. right. intros l _ Hno. cbn in Hno. set_solver.
      + rewrite lookup_delete_ne by done. rewrite !map_lookup_filter. destruct (deps !! y) as [l|]; [|done]. cbn.
        repeat case_guard; try done; set_solver.
    - intros d Hd. cbn. rewrite Hl, (Huses d Hd). cbn. f_equal. rewrite (Hstep d). case_decide; lia. }
  destruct (retire_drained (sum_list_with length (map_to_list (filter (fun p : string * list string => p.1 ∉ P) deps)).*2)
    out r' prod1) as (prod' & Hrun & Hlook); [done| | |].
  - intros x (Hx & Hz & HxT)%Hout. split_and!; [done|done|]. cbn. rewrite lookup_delete_None. right.
    apply map_lookup_filter_None. right. intros l _ Hno. cbn in Hno. by apply Hno, Hin.
  - etransitivity; [exact Hlen|]. apply (sum_list_with_in ds length).
    apply list_elem_of_fmap. exists (n, ds). split; [done|]. by apply elem_of_map_to_list.
  - exists r', prod'. split_and!; [exact Hrun|done|]. intros x. rewrite Hlook. unfold prod1.
    assert (Hn0 : users P n = users ({[n]} ∪ P) n) by (rewrite Hstep, decide_False by done; lia).
    assert (Hx : x ∈ out <-> x ∈ ds /\ users ({[n]} ∪ P) x = 0%nat /\ x ∉ T).
    { rewrite Hout. split; intros (Hd & Hz & HxT); (split_and!; [done| |done]).
      - rewrite Hl, (Huses x) in Hz by apply Hin, Hd. cbn in Hz. rewrite decide_True in Hz by done. injection Hz as Hz.
        rewrite (Hstep x), decide_True in Hz by done. lia.
      - rewrite Hl, (Huses x) by apply Hin, Hd. cbn. rewrite decide_True by done. f_equal. rewrite (Hstep x), decide_True by done. lia. }
    destruct (decide (x ∈ out)) as [Hxo|Hxo].
    + rewrite decide_True; [done|]. naive_solver.
    + destruct (decide (x = n)) as [->|Hne].
      * rewrite Hn0. destruct (Z.eqb_spec (Z.of_nat (users ({[n]} ∪ P) n)) 0); cbn.
        -- case_bool_decide; [rewrite lookup_delete_eq, decide_True; [done|naive_solver lia]|].
           rewrite decide_False; [done|naive_solver].
        -- rewrite decide_False; [done|]. intros (_ & ? & _). lia.
      * rewrite (decide_False (P := (x = n \/ x ∈ ds) /\ _)) by naive_solver.
        destruct (_ && _); [by rewrite lookup_delete_ne|done].
Qed.
End references.

(** * The invariant of a level *)

(** The outputs a node's task has released its references for. *)
Definition released_phase {V} (p : phase V) : bool :=
  match p with Done => true | Failed _ r | Reported r => r | _ => false end.

(** A node's task has put its outputs into [produced]. *)
Definition stored_phase {V} (p : phase V) : bool := match p with Stored => true | _ => released_phase p end.

(** The outputs a node has not yet answered. *)
Definition unstored_phase {V} (p : phase V) : bool :=
  match p with Created | Begun | HasInputs _ => true | _ => false end.

(** The plan of a level: what [strong_plan] answers of a valid document. *)
Record level_ok (deps : gmap string (list string)) (order targets : list string) : Prop := {
  lv_sets : forall n ds, deps !! n = Some ds -> NoDup ds;
  lv_order : NoDup order;
  lv_nodes : forall n, n ∈ order <-> is_Some (deps !! n);
  lv_topological : topological (fun a b => b ∈ deps_of deps a) order;
  lv_targets : forall t, t ∈ targets -> t ∈ order;
}.

(** The values of some nodes. *)
Definition restrict {V} (ds : list string) (val : gmap string V) : gmap string V :=
  filter (fun p : string * V => p.1 ∈ ds) val.

Lemma read_inputs_spec {V} ds (prod val : gmap string V) : (forall d, d ∈ ds -> prod !! d = val !! d /\ is_Some (val !! d)) ->
  read_inputs ds prod = Some (restrict ds val).
Proof.
  unfold restrict. induction ds as [|d ds IH]; intros Hd.
  - cbn. f_equal. symmetry. apply map_empty_filter. intros x v _ Hx. by apply not_elem_of_nil in Hx.
  - cbn [read_inputs]. destruct (Hd d ltac:(by left)) as [Heq [v Hv]]. rewrite Heq, Hv. cbn [mbind option_bind].
    rewrite IH by (intros x Hx; apply Hd; by right). cbn [mbind option_bind]. f_equal. apply map_eq. intros x.
    rewrite lookup_insert, !map_lookup_filter. destruct (decide (d = x)) as [<-|Hne].
    + rewrite Hv. cbn. case_guard as Hg; [done|]. exfalso. apply Hg. constructor.
    + destruct (val !! x); [|done]. cbn. repeat case_guard; try done; set_solver.
Qed.

Lemma restrict_insert {V} ds (val : gmap string V) n v : n ∉ ds -> restrict ds (<[n := v]> val) = restrict ds val.
Proof.
  intros Hn. unfold restrict. apply map_eq. intros x. rewrite !map_lookup_filter.
  destruct (decide (x = n)) as [->|Hx]; [|by rewrite lookup_insert_ne].
  rewrite lookup_insert_eq. cbn. case_guard as Hg; [done|]. by destruct (val !! n).
Qed.

Section level.
Variables (deps : gmap string (list string)) (order targets : list string).
Hypothesis Hlevel : level_ok deps order targets.
Implicit Types (n d : string).

Lemma deps_of_closed n d : d ∈ deps_of deps n -> is_Some (deps !! n) /\ is_Some (deps !! d) /\ d <> n.
Proof.
  intros Hd. assert (Hn : is_Some (deps !! n)).
  { unfold deps_of in Hd. destruct (deps !! n); [by eexists|]. by apply not_elem_of_nil in Hd. }
  split; [done|]. apply (lv_nodes _ _ _ Hlevel) in Hn. apply list_elem_of_split in Hn as (before & after & Heq).
  pose proof (lv_topological _ _ _ Hlevel before n after Heq d Hd) as Hin.
  split; [apply (lv_nodes _ _ _ Hlevel); rewrite Heq; set_solver|]. intros ->.
  pose proof (lv_order _ _ _ Hlevel) as Hnd. rewrite Heq in Hnd. apply NoDup_app in Hnd as (_ & Hdis & _).
  apply (Hdis n Hin). constructor.
Qed.

Lemma deps_of_NoDup n : NoDup (deps_of deps n).
Proof. unfold deps_of. destruct (deps !! n) as [ds|] eqn:Hn; [by eapply lv_sets|constructor]. Qed.
End level.

Section invariant.
Context {V : Type}.
Variables (deps : gmap string (list string)) (order targets : list string) (base : gmap string V).
Variable computes : string -> gmap string V -> V -> Prop.
Hypothesis Hlevel : level_ok deps order targets.
Hypothesis Hbase : forall n, is_Some (deps !! n) -> base !! n = None.
Implicit Types (st : Dag V) (n d : string) (P : gset string) (val : gmap string V).

Notation T := (list_to_set targets : gset string).

(** [P]: the nodes that have released their references; [val]: what the
    nodes that have stored answered. *)
Record dag_inv P val st : Prop := {
  di_released : forall n, n ∈ P <-> exists p, tasks st !! n = Some p /\ released_phase p = true;
  di_references : references_ok deps T P (references st);
  di_remaining : forall n, is_Some (deps !! n) -> exists k, remaining st !! n = Some k
    /\ Z.of_nat (waiting deps P n) <= k /\ (aborting st = false -> k = Z.of_nat (waiting deps P n));
  di_tasks : forall n, is_Some (tasks st !! n) <-> n ∈ created st;
  di_created : NoDup (created st);
  di_after : forall n, n ∈ created st -> is_Some (deps !! n) /\ forall d, d ∈ deps_of deps n -> d ∈ P;
  di_ready : aborting st = false -> forall n, is_Some (deps !! n) -> (forall d, d ∈ deps_of deps n -> d ∈ P) -> n ∈ created st;
  di_val : forall n v, val !! n = Some v -> n ∈ created st /\ computes n (restrict (deps_of deps n) val) v;
  di_stored : forall n p, tasks st !! n = Some p -> stored_phase p = true -> is_Some (val !! n);
  di_unstored : forall n p, tasks st !! n = Some p -> unstored_phase p = true -> val !! n = None;
  di_env : forall n env, tasks st !! n = Some (HasInputs env) -> env = restrict (deps_of deps n) val;
  di_produced : forall n p, tasks st !! n = Some p -> stored_phase p = true ->
    produced st !! n = if decide (n ∈ P /\ users deps P n = 0%nat /\ n ∉ T) then None else val !! n;
  di_absent : forall n, is_Some (deps !! n) -> (forall p, tasks st !! n = Some p -> unstored_phase p = true) ->
    produced st !! n = None;
  di_base : forall x, deps !! x = None -> produced st !! x = base !! x;
  di_noticed : forall n p, tasks st !! n = Some p -> (exists r, p = Reported r) -> errors st <> [];
  di_abort : aborting st = true <-> errors st <> [] \/ cancelled st = true;
  di_stopped : forall n, tasks st !! n = Some TaskCancelled -> aborting st = true;
}.

Definition dag_ok st : Prop := exists P val, dag_inv P val st.

(** ** Reading *)

(** What a node that has not finished depends on is there. *)
Lemma inputs_available P val st n d p : dag_inv P val st -> tasks st !! n = Some p -> released_phase p = false ->
  d ∈ deps_of deps n -> produced st !! d = val !! d /\ is_Some (val !! d).
Proof.
  intros Hi Hp Hr Hd. assert (Hn : n ∈ created st) by (apply (di_tasks _ _ _ Hi); by eexists).
  destruct (di_after _ _ _ Hi n Hn) as [[ds Hds] Hdeps]. pose proof (Hdeps d Hd) as HdP.
  assert (HnP : n ∉ P) by (rewrite (di_released _ _ _ Hi); intros (p' & Hp' & Hr'); congruence).
  apply (di_released _ _ _ Hi) in HdP as (pd & Hpd & Hrd).
  assert (Hst : stored_phase pd = true) by by destruct pd.
  split; [|by eapply di_stored]. rewrite (di_produced _ _ _ Hi d pd Hpd Hst). rewrite decide_False; [done|].
  intros (_ & Hz & _). assert (Hx : d ∈ ds) by by unfold deps_of in Hd; rewrite Hds in Hd.
  pose proof (users_pos deps P n ds d HnP Hds Hx). lia.
Qed.


(** ** A task changes its phase *)

(** ... and the answers are those of before. *)
Lemma set_phase_inv P val st n p p' : dag_inv P val st -> tasks st !! n = Some p ->
  released_phase p' = released_phase p -> (stored_phase p' = true -> stored_phase p = true) ->
  (unstored_phase p' = true -> unstored_phase p = true) ->
  (forall env, p' = HasInputs env -> env = restrict (deps_of deps n) val) ->
  (forall r, p' <> Reported r) -> (p' = TaskCancelled -> aborting st = true) ->
  dag_inv P val (set_phase n p' st).
Proof.
  intros [] Hp Hr Hs Hu He Hn Hc.
  assert (Hl : forall x q, tasks (set_phase n p' st) !! x = Some q -> x = n /\ q = p' \/ x <> n /\ tasks st !! x = Some q).
  { intros x q. cbn. rewrite lookup_insert. case_decide as Hx; [intros [= <-]; by left|right; split; congruence]. }
  constructor; cbn [references produced remaining created aborting errors cancelled set_phase]; try done.
  - intros x. rewrite di_released0. split.
    + intros (q & Hq & Hrq). destruct (decide (x = n)) as [->|Hx].
      * exists p'. cbn. rewrite lookup_insert_eq. split; [done|]. rewrite Hr. congruence.
      * exists q. cbn. by rewrite lookup_insert_ne.
    + intros (q & [[-> ->]|[Hx Hq]]%Hl & Hrq); [exists p; by rewrite <- Hr|by exists q].
  - intros x. rewrite <- di_tasks0. cbn. rewrite lookup_insert. case_decide as Hx; [subst|done]. by rewrite Hp.
  - intros x q [[-> ->]|[_ Hq]]%Hl Hsq; [|by eapply di_stored0]. by apply (di_stored0 n p Hp), Hs.
  - intros x q [[-> ->]|[_ Hq]]%Hl Huq; [|by eapply di_unstored0]. by apply (di_unstored0 n p Hp), Hu.
  - intros x env [[-> He']|[_ Hq]]%Hl; [|by apply di_env0]. by apply He.
  - intros x q [[-> ->]|[_ Hq]]%Hl Hsq; [|by eapply di_produced0]. by apply (di_produced0 n p Hp), Hs.
  - intros x Hx Hall. apply di_absent0; [done|]. intros q Hq. destruct (decide (x = n)) as [->|Hne].
    + assert (q = p) as -> by congruence. apply Hu, Hall. cbn. by rewrite lookup_insert_eq.
    + apply Hall. cbn. by rewrite lookup_insert_ne.
  - intros x q [[-> ->]|[_ Hq]]%Hl Hex; [by destruct Hex as [r ->]; destruct (Hn r)|by eapply di_noticed0].
  - intros x [[-> Hx]|[_ Hq]]%Hl; [by apply Hc|by eapply di_stopped0].
Qed.

Lemma notice_inv P val st n e r : dag_inv P val st -> tasks st !! n = Some (Failed e r) -> dag_inv P val (notice n e r st).
Proof.
  intros [] Hp.
  assert (Hl : forall x q, tasks (notice n e r st) !! x = Some q -> x = n /\ q = Reported r \/ x <> n /\ tasks st !! x = Some q).
  { intros x q. cbn. rewrite lookup_insert. case_decide as Hx; [intros [= <-]; by left|right; split; congruence]. }
  assert (Herr : errors st ++ [e] <> []) by by destruct (errors st).
  constructor; cbn [references produced remaining created aborting errors cancelled notice]; try done.
  - intros x. rewrite di_released0. split.
    + intros (q & Hq & Hrq). destruct (decide (x = n)) as [->|Hx].
      * exists (Reported r). cbn. rewrite lookup_insert_eq. split; [done|]. rewrite Hp in Hq. by injection Hq as <-.
      * exists q. cbn. by rewrite lookup_insert_ne.
    + intros (q & [[-> ->]|[Hx Hq]]%Hl & Hrq); [by exists (Failed e r)|by exists q].
  - intros x Hx. destruct (di_remaining0 x Hx) as (k & Hk & Hle & _). by exists k.
  - intros x. rewrite <- di_tasks0. cbn. rewrite lookup_insert. case_decide as Hx; [subst|done]. by rewrite Hp.
  - intros x q [[-> ->]|[_ Hq]]%Hl Hsq; [|by eapply di_stored0]. by apply (di_stored0 n _ Hp).
  - intros x q [[-> ->]|[_ Hq]]%Hl Huq; [done|by eapply di_unstored0].
  - intros x env [[-> He']|[_ Hq]]%Hl; [done|by apply di_env0].
  - intros x q [[-> ->]|[_ Hq]]%Hl Hsq; [|by eapply di_produced0]. by apply (di_produced0 n _ Hp).
  - intros x Hx Hall. apply di_absent0; [done|]. intros q Hq. destruct (decide (x = n)) as [->|Hne].
    + specialize (Hall (Reported r)). cbn in Hall. rewrite lookup_insert_eq in Hall. by specialize (Hall eq_refl).
    + apply Hall. cbn. by rewrite lookup_insert_ne.
  - split; [by left|done].
Qed.

Lemma cancel_run_inv P val st : dag_inv P val st -> dag_inv P val (cancel_run st).
Proof.
  intros []. constructor; cbn; try done.
  - intros x Hx. destruct (di_remaining0 x Hx) as (k & Hk & Hle & _). by exists k.
  - split; [by right|done].
Qed.

(** ** A node stores its outputs *)


Lemma store_inv P val st n env v : dag_inv P val st -> tasks st !! n = Some (HasInputs env) -> computes n env v ->
  dag_inv P (<[n := v]> val) (set_phase n Stored (set_produced (<[n := v]> (produced st)) st)).
Proof.
  intros Hi Hp Hv. pose proof (di_env _ _ _ Hi n env Hp) as He. pose proof (di_unstored _ _ _ Hi n _ Hp eq_refl) as Hno.
  assert (HnP : n ∉ P) by (rewrite (di_released _ _ _ Hi); intros (p' & Hp' & Hr'); by assert (p' = HasInputs env) as -> by congruence).
  assert (Hfree : forall x, x ∈ created st -> n ∉ deps_of deps x).
  { intros x Hx Hin. by apply HnP, (di_after _ _ _ Hi x Hx). }
  assert (Hcr : n ∈ created st) by (apply (di_tasks _ _ _ Hi); by eexists).
  destruct Hi.
  set (st' := set_phase n Stored (set_produced (<[n := v]> (produced st)) st)).
  assert (Hl : forall x q, tasks st' !! x = Some q -> x = n /\ q = Stored \/ x <> n /\ tasks st !! x = Some q).
  { intros x q. cbn. rewrite lookup_insert. case_decide as Hx; [intros [= <-]; by left|right; split; congruence]. }
  assert (Hprod : forall x, produced st' !! x = if decide (x = n) then Some v else produced st !! x).
  { intros x. cbn. rewrite lookup_insert. repeat case_decide; congruence. }
  constructor; try done.
  - intros x. rewrite di_released0. split.
    + intros (q & Hq & Hrq). exists q. cbn. rewrite lookup_insert_ne; [done|]. intros <-. by assert (q = HasInputs env) as -> by congruence.
    + intros (q & [[-> ->]|[Hx Hq]]%Hl & Hrq); [done|by exists q].
  - intros x. cbn. rewrite <- di_tasks0, lookup_insert. case_decide as Hx; [subst|done]. by rewrite Hp.
  - intros x w. rewrite lookup_insert. case_decide as Hx.
    + intros [= <-]. subst x. split; [done|]. rewrite restrict_insert by by apply Hfree. by rewrite <- He.
    + intros Hw. destruct (di_val0 x w Hw) as [Hxc Hcomp]. split; [done|]. by rewrite restrict_insert by by apply Hfree.
  - intros x q [[-> ->]|[Hx Hq]]%Hl Hsq; [rewrite lookup_insert_eq; by eexists|].
    rewrite lookup_insert_ne by done. by eapply di_stored0.
  - intros x q [[-> ->]|[Hx Hq]]%Hl Huq; [done|]. rewrite lookup_insert_ne by done. by eapply di_unstored0.
  - intros x env' [[-> ?]|[_ Hq]]%Hl; [done|]. rewrite restrict_insert; [by apply di_env0|].
    apply Hfree, di_tasks0. by eexists.
  - intros x q [[-> ->]|[Hx Hq]]%Hl Hsq; rewrite Hprod, lookup_insert.
    + rewrite !(decide_True (P := n = n)) by done. rewrite decide_False; [done|]. by intros [? _].
    + rewrite (decide_False (P := x = n)), (decide_False (P := n = x)) by congruence. by eapply di_produced0.
  - intros x Hx Hall. rewrite Hprod. destruct (decide (x = n)) as [->|Hne].
    + specialize (Hall Stored). cbn in Hall. rewrite lookup_insert_eq in Hall. by specialize (Hall eq_refl).
    + apply di_absent0; [done|]. intros q Hq. apply Hall. cbn. by rewrite lookup_insert_ne.
  - intros x Hx. rewrite Hprod. rewrite decide_False; [auto|]. intros ->. destruct (di_after0 n Hcr) as [[? Hd] _]. congruence.
  - intros x q [[-> ->]|[_ Hq]]%Hl Hex; [by destruct Hex|by eapply di_noticed0].
  - intros x [[-> Hx]|[_ Hq]]%Hl; [done|by eapply di_stopped0].
Qed.

(** ** A node finishes *)

Lemma dependents_spec n x : x ∈ dependents deps n <-> n ∈ deps_of deps x.
Proof.
  unfold dependents, deps_of. rewrite list_elem_of_fmap. split.
  - intros ([k ds] & -> & [Hn Hin]%list_elem_of_filter). apply elem_of_map_to_list in Hin. cbn in *. by rewrite Hin.
  - intros Hn. destruct (deps !! x) as [ds|] eqn:Hx; [|by apply not_elem_of_nil in Hn].
    exists (x, ds). split; [done|]. apply list_elem_of_filter. split; [done|]. by apply elem_of_map_to_list.
Qed.

Lemma dependents_NoDup n : NoDup (dependents deps n).
Proof.
  unfold dependents. apply (sublist_NoDup _ (map_to_list deps).*1); [apply NoDup_fst_map_to_list|].
  apply fmap_sublist, sublist_filter.
Qed.

(** What the loop over dependents leaves alone. *)
Definition same_apart st st' : Prop :=
  references st' = references st /\ produced st' = produced st /\ aborting st' = aborting st
  /\ errors st' = errors st /\ cancelled st' = cancelled st.

Lemma release_dependents_open l st : aborting st = false -> NoDup l -> (forall x, x ∈ l -> is_Some (remaining st !! x)) ->
  exists st' new, release_dependents l st = (st', true) /\ same_apart st st'
    /\ (forall x, remaining st' !! x = (fun k => if decide (x ∈ l) then k - 1 else k) <$> remaining st !! x)
    /\ created st' = created st ++ new /\ NoDup new /\ (forall x, x ∈ new <-> x ∈ l /\ remaining st !! x = Some 1)
    /\ (forall x, tasks st' !! x = if decide (x ∈ new) then Some Created else tasks st !! x).
Proof.
  intros Ha Hnd. revert st Ha. induction Hnd as [|d l Hd Hnd IH]; intros st Ha Hrem.
  - exists st, []. split_and!; try done.
    + intros x. destruct (remaining st !! x) as [k|]; [|done]. cbn. rewrite decide_False by apply not_elem_of_nil. done.
    + by rewrite app_nil_r.
    + constructor.
    + intros x. split; [by intros ?%not_elem_of_nil|by intros [?%not_elem_of_nil _]].
  - destruct (Hrem d ltac:(by left)) as [k Hk]. cbn [release_dependents]. rewrite Hk. cbn [aborting set_remaining]. rewrite Ha.
    set (st1 := set_remaining (<[d := k - 1]> (remaining st)) st).
    set (st2 := if k - 1 =? 0 then create_task d st1 else st1).
    assert (Hrem2 : remaining st2 = <[d := k - 1]> (remaining st)) by (unfold st2; by destruct (k - 1 =? 0)).
    destruct (IH st2) as (st' & new & Hrun & Hsame & Hr & Hc & Hnew & Hin & Ht).
    { unfold st2. by destruct (k - 1 =? 0). }
    { intros x Hx. rewrite Hrem2, lookup_insert_ne by (by intros ->). apply Hrem. by right. }
    assert (Hnd' : d ∉ new) by (rewrite Hin; naive_solver).
    exists st', ((if k - 1 =? 0 then [d] else []) ++ new). split_and!.
    + rewrite <- Hrun. unfold st2. by destruct (k - 1 =? 0).
    + unfold same_apart in *. destruct Hsame as (-> & -> & -> & -> & ->). unfold st2. by destruct (k - 1 =? 0).
    + intros x. rewrite Hr, Hrem2. destruct (decide (x = d)) as [->|Hne].
      * rewrite lookup_insert_eq, Hk. cbn. rewrite decide_False, decide_True by (done || by constructor). done.
      * rewrite lookup_insert_ne by done. destruct (remaining st !! x); [|done]. cbn. f_equal. apply decide_ext.
        rewrite elem_of_cons. naive_solver.
    + rewrite Hc. unfold st2. destruct (k - 1 =? 0); cbn; by rewrite <- ?app_assoc.
    + destruct (k - 1 =? 0); [|done]. by constructor.
    + intros x. rewrite elem_of_app, elem_of_cons, Hin, Hrem2.
      assert (Hp : x ∈ (if k - 1 =? 0 then [d] else []) <-> x = d /\ k = 1).
      { destruct (Z.eqb_spec (k - 1) 0); [rewrite list_elem_of_singleton; naive_solver lia|].
        split; [by intros ?%not_elem_of_nil|lia]. }
      rewrite Hp. destruct (decide (x = d)) as [->|Hne]; [rewrite Hk; naive_solver|].
      rewrite lookup_insert_ne by done. naive_solver.
    + intros x. rewrite Ht. destruct (decide (x ∈ new)) as [Hx|Hx]; [by rewrite decide_True by set_solver|].
      unfold st2. destruct (k - 1 =? 0); cbn.
      * rewrite lookup_insert. destruct (decide (d = x)) as [->|]; [by rewrite decide_True by constructor|].
        rewrite decide_False; [done|set_solver].
      * by rewrite decide_False.
Qed.

Lemma release_dependents_closed l st : aborting st = true -> NoDup l ->
  exists st' ok, release_dependents l st = (st', ok) /\ same_apart st st' /\ created st' = created st
    /\ tasks st' = tasks st
    /\ forall x k, remaining st !! x = Some k -> exists k', remaining st' !! x = Some k' /\ (k' = k \/ x ∈ l /\ k' = k - 1).
Proof.
  intros Ha Hnd. revert st Ha. induction Hnd as [|d l Hd Hnd IH]; intros st Ha.
  - exists st, true. split_and!; try done. intros x k Hk. exists k. auto.
  - cbn [release_dependents]. destruct (remaining st !! d) as [k|] eqn:Hk.
    2:{ exists st, false. split_and!; try done. intros x k Hx. exists k. auto. }
    cbn [aborting set_remaining]. rewrite Ha. set (st1 := set_remaining (<[d := k - 1]> (remaining st)) st).
    assert (Hone : forall x j, remaining st !! x = Some j -> exists j', remaining st1 !! x = Some j'
      /\ (x = d /\ j' = j - 1 \/ x <> d /\ j' = j)).
    { intros x j Hj. cbn. destruct (decide (x = d)) as [->|Hne].
      - rewrite lookup_insert_eq. exists (k - 1). split; [done|]. left. split; [done|]. congruence.
      - rewrite lookup_insert_ne by done. exists j. auto. }
    destruct (k - 1 =? 0).
    + exists st1, false. split_and!; try done. intros x j Hj. destruct (Hone x j Hj) as (j' & Hj' & [[-> ->]|[_ ->]]).
      * eexists. split; [done|]. right. split; [constructor|done].
      * exists j. auto.
    + destruct (IH st1 Ha) as (st' & ok & Hrun & Hsame & Hc & Ht & Hr). exists st', ok. split_and!; try done.
      intros x j Hj. destruct (Hone x j Hj) as (j' & Hj' & Hcase). destruct (Hr x j' Hj') as (j2 & Hj2 & Hcase2).
      exists j2. split; [done|]. destruct Hcase as [[-> ->]|[Hne ->]].
      * right. split; [constructor|]. by destruct Hcase2 as [->|[? _]].
      * destruct Hcase2 as [->|[? ->]]; [by left|right]. split; [by right|done].
Qed.

(** What a finished node leaves behind, however its task ends. *)
Lemma finish_node_spec P val st n ds : dag_inv P val st -> tasks st !! n = Some Stored -> deps !! n = Some ds ->
  exists p new st',
    finish_node deps n st = set_phase n p st' /\ released_phase p = true /\ (forall r, p <> Reported r)
    /\ references_ok deps T ({[n]} ∪ P) (references st')
    /\ (forall x, produced st' !! x = if decide ((x = n \/ x ∈ ds) /\ users deps ({[n]} ∪ P) x = 0%nat /\ x ∉ T)
                                     then None else produced st !! x)
    /\ (forall x, is_Some (deps !! x) -> exists k, remaining st' !! x = Some k
          /\ Z.of_nat (waiting deps ({[n]} ∪ P) x) <= k /\ (aborting st = false -> k = Z.of_nat (waiting deps ({[n]} ∪ P) x)))
    /\ created st' = created st ++ new /\ NoDup new
    /\ (forall x, x ∈ new -> is_Some (deps !! x) /\ x ∉ created st /\ forall d, d ∈ deps_of deps x -> d ∈ {[n]} ∪ P)
    /\ (aborting st = false -> forall x, is_Some (deps !! x) -> (forall d, d ∈ deps_of deps x -> d ∈ {[n]} ∪ P) ->
          x ∈ created st \/ x ∈ new)
    /\ (forall x, tasks st' !! x = if decide (x ∈ new) then Some Created else tasks st !! x)
    /\ aborting st' = aborting st /\ errors st' = errors st /\ cancelled st' = cancelled st
    /\ (aborting st = true -> new = []).
Proof.
  intros Hi Hp Hds.
  assert (HnP : n ∉ P) by (rewrite (di_released _ _ _ Hi); intros (p' & Hp' & Hr'); by assert (p' = Stored) as -> by congruence).
  assert (Hcr : n ∈ created st) by (apply (di_tasks _ _ _ Hi); by eexists).
  pose proof (di_after _ _ _ Hi n Hcr) as [_ Hafter].
  assert (Hdn : deps_of deps n = ds) by (unfold deps_of; by rewrite Hds).
  assert (Hnew : forall x, n ∈ deps_of deps x -> x ∉ created st) by (intros x Hx Hc; by apply HnP, (di_after _ _ _ Hi x Hc)).
  destruct (finished_spec deps T (lv_sets _ _ _ Hlevel) P n ds (references st) (produced st) (di_references _ _ _ Hi) HnP Hds)
    as (r & prod & Hfin & Hrok & Hprod).
  { rewrite <- Hdn. intros Hin. by destruct (deps_of_closed _ _ _ Hlevel n n Hin) as (_ & _ & ?). }
  { intros d Hd. rewrite <- Hdn in Hd. split; [by apply Hafter|by destruct (deps_of_closed _ _ _ Hlevel n d Hd) as (_ & ? & _)]. }
  unfold finish_node. rewrite Hfin. set (st1 := set_references r (set_produced prod st)).
  pose proof (dependents_NoDup n) as Hdnd.
  assert (Hwait : forall x, waiting deps P x = (waiting deps ({[n]} ∪ P) x + if decide (n ∈ deps_of deps x) then 1 else 0)%nat)
    by (intros x; by apply waiting_step; [apply Hlevel|]).
  destruct (aborting st) eqn:Ha.
  - destruct (release_dependents_closed (dependents deps n) st1 Ha Hdnd) as (st' & ok & Hrun & Hsame & Hc & Ht & Hr).
    destruct Hsame as (Hs1 & Hs2 & Hs3 & Hs4 & Hs5). rewrite Hrun.
    exists (if ok then Done else Failed (OtherError n) true), [], st'. split_and!.
    + by destruct ok.
    + by destruct ok.
    + by destruct ok.
    + by rewrite Hs1.
    + by rewrite Hs2.
    + intros x Hx. destruct (di_remaining _ _ _ Hi x Hx) as (k & Hk & Hle & _). destruct (Hr x k Hk) as (k' & Hk' & Hcase).
      exists k'. split; [done|]. split; [|done]. specialize (Hwait x). destruct Hcase as [->|[Hin%dependents_spec ->]].
      * lia.
      * rewrite decide_True in Hwait by done. lia.
    + by rewrite Hc, app_nil_r.
    + constructor.
    + by intros x ?%not_elem_of_nil.
    + done.
    + intros x. rewrite decide_False by apply not_elem_of_nil. by rewrite Ht.
    + by rewrite Hs3.
    + by rewrite Hs4.
    + by rewrite Hs5.
    + done.
  - destruct (release_dependents_open (dependents deps n) st1 Ha Hdnd) as (st' & new & Hrun & Hsame & Hr & Hc & Hnd & Hin & Ht).
    { intros x Hx%dependents_spec. apply (deps_of_closed _ _ _ Hlevel) in Hx as (Hx & _).
      destruct (di_remaining _ _ _ Hi x Hx) as (k & Hk & _). by exists k. }
    destruct Hsame as (Hs1 & Hs2 & Hs3 & Hs4 & Hs5). rewrite Hrun.
    assert (Hready : forall x, is_Some (deps !! x) -> remaining st !! x = Some (Z.of_nat (waiting deps P x))).
    { intros x Hx. destruct (di_remaining _ _ _ Hi x Hx) as (k & -> & _ & Heq). by rewrite Heq. }
    exists Done, new, st'. split_and!; try done.
    + by rewrite Hs1.
    + by rewrite Hs2.
    + intros x Hx. rewrite Hr. change (remaining st1) with (remaining st). rewrite (Hready x Hx). cbn.
      specialize (Hwait x). rewrite (decide_ext (x ∈ dependents deps n) (n ∈ deps_of deps x)) by apply dependents_spec.
      eexists. split; [done|]. destruct (decide (n ∈ deps_of deps x)); lia.
    + intros x [Hx%dependents_spec Hk]%Hin. apply (deps_of_closed _ _ _ Hlevel) in Hx as Hx'. destruct Hx' as (Hxs & _).
      split_and!; [done|by apply Hnew|]. change (remaining st1) with (remaining st) in Hk. rewrite (Hready x Hxs) in Hk.
      apply waiting_zero. specialize (Hwait x). rewrite decide_True in Hwait by done. injection Hk as Hk. lia.
    + intros _ x Hx Hall. destruct (decide (n ∈ deps_of deps x)) as [Hnx|Hnx].
      * right. apply Hin. split; [by apply dependents_spec|]. change (remaining st1) with (remaining st).
        rewrite (Hready x Hx). f_equal. specialize (Hwait x). rewrite decide_True in Hwait by done.
        apply waiting_zero in Hall. lia.
      * left. apply (di_ready _ _ _ Hi Ha x Hx). intros d Hd. destruct (proj1 (elem_of_union _ _ _) (Hall d Hd)) as [Heq|]; [|done].
        apply elem_of_singleton in Heq as ->. done.
    + by rewrite Hs3.
Qed.

Lemma finish_inv P val st n : dag_inv P val st -> tasks st !! n = Some Stored ->
  dag_inv ({[n]} ∪ P) val (finish_node deps n st).
Proof.
  intros Hi Hp. assert (Hcr : n ∈ created st) by (apply (di_tasks _ _ _ Hi); by eexists).
  destruct (di_after _ _ _ Hi n Hcr) as [[ds Hds] Hafter].
  assert (Hdn : deps_of deps n = ds) by (unfold deps_of; by rewrite Hds).
  assert (HnP : n ∉ P) by (rewrite (di_released _ _ _ Hi); intros (p' & Hp' & Hr'); by assert (p' = Stored) as -> by congruence).
  assert (Hsub : forall x, x ∈ P -> x ∈ created st).
  { intros x (q & Hq & _)%(di_released _ _ _ Hi). apply (di_tasks _ _ _ Hi). by eexists. }
  destruct (finish_node_spec P val st n ds Hi Hp Hds) as (p & new & st' & -> & Hrp & Hnr & Hrok & Hprod & Hrem & Hc & Hnd
    & Hnew & Hready & Ht & Ha & He & Hca & _).
  assert (Hsp : stored_phase p = true) by by destruct p.
  assert (Hup : unstored_phase p = false) by by destruct p.
  assert (Hnn : n ∉ new) by (intros Hn; by destruct (Hnew n Hn) as (_ & ? & _)).
  assert (Hl : forall x q, tasks (set_phase n p st') !! x = Some q <->
    x = n /\ q = p \/ x <> n /\ x ∈ new /\ q = Created \/ x <> n /\ x ∉ new /\ tasks st !! x = Some q).
  { intros x q. cbn. rewrite lookup_insert, Ht. destruct (decide (n = x)) as [<-|Hx]; [naive_solver|].
    destruct (decide (x ∈ new)); naive_solver. }
  assert (Hstep : forall x, users deps P x = (users deps ({[n]} ∪ P) x + if decide (x ∈ ds) then 1 else 0)%nat)
    by (intros; by apply users_step).
  constructor; cbn [references remaining created aborting errors cancelled set_phase produced].
  - intros x. setoid_rewrite Hl. rewrite elem_of_union, elem_of_singleton, (di_released _ _ _ Hi). split.
    + intros [->|(q & Hq & Hrq)]; [exists p; auto|]. destruct (decide (x = n)) as [->|Hx]; [exists p; auto|].
      exists q. split; [|done]. right. right. split_and!; [done| |done]. intros Hxn. destruct (Hnew x Hxn) as (_ & Hno & _).
      apply Hno, (di_tasks _ _ _ Hi). by eexists.
    + intros (q & [[-> ->]|[(Hx & Hxn & ->)|(Hx & Hxn & Hq)]] & Hrq); [by left|done|right; by exists q].
  - done.
  - intros x Hx. rewrite Ha. by apply Hrem.
  - intros x. rewrite Hc, elem_of_app, <- (di_tasks _ _ _ Hi). cbn. rewrite lookup_insert, Ht.
    destruct (decide (n = x)) as [<-|Hx]; [rewrite Hp; naive_solver|]. destruct (decide (x ∈ new)); naive_solver.
  - rewrite Hc. apply NoDup_app. split_and!; [by apply Hi| |done]. intros x Hx Hxn. by destruct (Hnew x Hxn) as (_ & ? & _).
  - intros x. rewrite Hc, elem_of_app. intros [Hx|Hx].
    + destruct (di_after _ _ _ Hi x Hx) as [? Hall]. split; [done|]. intros d Hd. apply elem_of_union_r. by apply Hall.
    + destruct (Hnew x Hx) as (? & _ & ?). done.
  - intros Hab x Hx Hall. rewrite Hc, elem_of_app. apply Hready; [congruence|done|done].
  - intros x v Hv. rewrite Hc, elem_of_app. destruct (di_val _ _ _ Hi x v Hv). auto.
  - intros x q [[-> ->]|[(Hx & Hxn & ->)|(Hx & Hxn & Hq)]]%Hl Hsq; [by apply (di_stored _ _ _ Hi n _ Hp)|done|by eapply (di_stored _ _ _ Hi)].
  - intros x q [[-> ->]|[(Hx & Hxn & ->)|(Hx & Hxn & Hq)]]%Hl Huq; [congruence| |by eapply (di_unstored _ _ _ Hi)].
    destruct (val !! x) as [v|] eqn:Hv; [|done]. destruct (di_val _ _ _ Hi x v Hv) as [Hxc _].
    by destruct (Hnew x Hxn) as (_ & ? & _).
  - intros x env [[-> He']|[(Hx & Hxn & He')|(Hx & Hxn & Hq)]]%Hl; [by subst p|done|by apply (di_env _ _ _ Hi)].
  - intros x q [[-> ->]|[(Hx & Hxn & ->)|(Hx & Hxn & Hq)]]%Hl Hsq; [|done|]; rewrite Hprod.
    + rewrite (di_produced _ _ _ Hi n _ Hp eq_refl). rewrite (decide_False (P := n ∈ P /\ _)) by (by intros [? _]).
      apply decide_ext. set_solver.
    + rewrite (di_produced _ _ _ Hi x q Hq Hsq). specialize (Hstep x).
      destruct (decide (x ∈ P)) as [HxP|HxP].
      * destruct (decide (x ∈ ds)) as [Hxd|Hxd].
        -- rewrite (decide_False (P := x ∈ P /\ users deps P x = 0%nat /\ x ∉ T)) by (intros (_ & ? & _); lia).
           apply decide_ext. set_solver.
        -- rewrite (decide_False (P := (x = n \/ x ∈ ds) /\ _)) by naive_solver. apply decide_ext.
           rewrite Hstep, Nat.add_0_r. set_solver.
      * rewrite (decide_False (P := x ∈ P /\ _)) by (by intros [? _]).
        rewrite (decide_False (P := x ∈ {[n]} ∪ P /\ _)) by set_solver. rewrite decide_False; [done|].
        intros [[->|Hxd] _]; [done|]. apply HxP, Hafter. by rewrite Hdn.
  - intros x Hx Hall. rewrite Hprod. rewrite (di_absent _ _ _ Hi x Hx); [by case_decide|].
    intros q Hq. destruct (decide (x = n)) as [->|Hxn].
    { specialize (Hall p ltac:(apply Hl; auto)). congruence. }
    apply Hall, Hl. right. right. split_and!; [done| |done]. intros Hx'. destruct (Hnew x Hx') as (_ & Hno & _).
    apply Hno, (di_tasks _ _ _ Hi). by eexists.
  - intros x Hx. rewrite Hprod, decide_False; [by apply (di_base _ _ _ Hi)|]. intros [[->|Hxd] _]; [congruence|].
    rewrite <- Hdn in Hxd. destruct (deps_of_closed _ _ _ Hlevel n x Hxd) as (_ & [? ?] & _). congruence.
  - rewrite He. intros x q [[-> ->]|[(Hx & Hxn & ->)|(Hx & Hxn & Hq)]]%Hl Hex; [by destruct Hex as [r ->]; destruct (Hnr r)|by destruct Hex|].
    by eapply (di_noticed _ _ _ Hi).
  - rewrite Ha, He, Hca. apply Hi.
  - rewrite Ha. intros x [[-> Hq]|[(Hx & Hxn & Hq)|(Hx & Hxn & Hq)]]%Hl; [by subst p|done|by eapply (di_stopped _ _ _ Hi)].
Qed.
End invariant.

(** * Runs of a level *)

(** Evaluating the nodes one after the other. *)
Inductive sequential {V} (deps : gmap string (list string)) (computes : string -> gmap string V -> V -> Prop) :
  gmap string V -> list string -> gmap string V -> Prop :=
| seq_nil val : sequential deps computes val [] val
| seq_cons val n l v val' : computes n (restrict (deps_of deps n) val) v ->
    sequential deps computes (<[n := v]> val) l val' -> sequential deps computes val (n :: l) val'.

(** What is left to happen at most. *)
Definition phase_weight {V} (p : option (phase V)) : nat :=
  match p with
  | None => 6 | Some Created => 5 | Some Begun => 4 | Some (HasInputs _) => 3 | Some Stored => 2
  | Some (Failed _ _) => 1 | Some _ => 0
  end.

Definition dag_weight {V} (order : list string) (st : Dag V) : nat :=
  (sum_list_with (fun n => phase_weight (tasks st !! n)) order + if cancelled st then 0 else 1)%nat.

Section runs.
Context {V : Type}.
Variables (deps : gmap string (list string)) (order targets : list string) (base : gmap string V).
Variable computes : string -> gmap string V -> V -> Prop.
Hypothesis Hlevel : level_ok deps order targets.
Hypothesis Hbase : forall n, is_Some (deps !! n) -> base !! n = None.
Implicit Types (st : Dag V) (n d : string) (P : gset string) (val : gmap string V).

Notation T := (list_to_set targets : gset string).
Notation ok := (dag_ok deps targets base computes).
Notation inv := (dag_inv deps targets base computes).
Notation step := (dstep deps computes).

Definition dag_reachable st : Prop := exists st0, dag_init deps order targets base = Some st0 /\ star step st0 st.

(** ** The start *)

Lemma create_ready_spec l st : NoDup l -> (forall n, n ∈ l -> is_Some (remaining st !! n)) ->
  exists st', create_ready l st = Some st' /\ same_apart st st' /\ remaining st' = remaining st
    /\ created st' = created st ++ filter (fun n => remaining st !! n = Some 0) l
    /\ forall x, tasks st' !! x = if decide (x ∈ l /\ remaining st !! x = Some 0) then Some Created else tasks st !! x.
Proof.
  intros Hnd. revert st. induction Hnd as [|n l Hn Hnd IH]; intros st Hrem.
  - exists st. split_and!; try done; by rewrite app_nil_r.
  - destruct (Hrem n ltac:(by left)) as [k Hk]. cbn [create_ready]. rewrite Hk. cbn [mbind option_bind].
    set (st1 := if k =? 0 then create_task n st else st).
    assert (Hr1 : remaining st1 = remaining st) by (unfold st1; by destruct (k =? 0)).
    destruct (IH st1) as (st' & Hrun & Hsame & Hr & Hc & Ht).
    { intros x Hx. rewrite Hr1. apply Hrem. by right. }
    exists st'. split_and!; [done| |congruence| |].
    + unfold same_apart in *. destruct Hsame as (-> & -> & -> & -> & ->). unfold st1. by destruct (k =? 0).
    + rewrite Hc, Hr1, filter_cons, Hk. unfold st1. destruct (Z.eqb_spec k 0) as [->|Hne].
      * rewrite decide_True by done. cbn. by rewrite <- app_assoc.
      * rewrite decide_False by congruence. done.
    + intros x. rewrite Ht, Hr1. destruct (decide (x = n)) as [->|Hne].
      * rewrite (decide_False (P := n ∈ l /\ _)) by naive_solver. unfold st1. rewrite Hk. destruct (Z.eqb_spec k 0) as [->|Hk0].
        -- cbn. rewrite lookup_insert_eq, decide_True; [done|]. split; [constructor|done].
        -- rewrite decide_False; [done|]. intros [_ ?]. congruence.
      * rewrite (decide_ext (x ∈ n :: l /\ remaining st !! x = Some 0) (x ∈ l /\ remaining st !! x = Some 0))
          by (rewrite elem_of_cons; naive_solver).
        case_decide; [done|]. unfold st1. destruct (k =? 0); [|done]. cbn. by rewrite lookup_insert_ne.
Qed.

Lemma dag_init_ok : exists st, dag_init deps order targets base = Some st /\ inv ∅ ∅ st.
Proof.
  assert (Hcl : forall n ds d, deps !! n = Some ds -> d ∈ ds -> is_Some (deps !! d)).
  { intros n ds d Hds Hd. assert (Hdn : d ∈ deps_of deps n) by (unfold deps_of; by rewrite Hds).
    by destruct (deps_of_closed deps order targets Hlevel n d Hdn) as (_ & ? & _). }
  destruct (references_init_ok deps T (lv_sets _ _ _ Hlevel) targets eq_refl Hcl) as (r & Hr & Hrok).
  unfold dag_init. rewrite Hr. cbn [mbind option_bind].
  assert (Hall : forallb (fun d => bool_decide (is_Some (deps !! d))) (concat (map_to_list deps).*2) = true).
  { apply forallb_forall. intros d (ds & Hds & Hd)%in_concat. apply bool_decide_eq_true.
    apply list_elem_of_In, list_elem_of_fmap in Hds as ([n ds'] & -> & Hn). apply elem_of_map_to_list in Hn.
    apply list_elem_of_In in Hd. by eapply Hcl. }
  rewrite Hall. set (st0 := {| references := r; produced := base; remaining := _; tasks := _; created := _; aborting := _;
                               errors := _; cancelled := _ |}).
  assert (Hrem : forall n, is_Some (deps !! n) -> remaining st0 !! n = Some (Z.of_nat (waiting deps ∅ n))).
  { intros n [ds Hds]. cbn. rewrite lookup_fmap, Hds. cbn. do 2 f_equal. unfold waiting, deps_of. rewrite Hds. cbn.
    clear. induction ds as [|d l IH]; [done|]. rewrite filter_cons, decide_True by set_solver. cbn. by f_equal. }
  destruct (create_ready_spec order st0 (lv_order _ _ _ Hlevel)) as (st & Hrun & Hsame & Hr' & Hc & Ht).
  { intros n Hn%(lv_nodes _ _ _ Hlevel). rewrite (Hrem n Hn). by eexists. }
  exists st. split; [done|]. unfold same_apart in Hsame. destruct Hsame as (Hs1 & Hs2 & Hs3 & Hs4 & Hs5).
  assert (Hin : forall x, x ∈ created st <-> is_Some (deps !! x) /\ forall d, d ∈ deps_of deps x -> d ∈ (∅ : gset string)).
  { intros x. rewrite Hc. cbn [created st0 app]. rewrite list_elem_of_filter, (lv_nodes _ _ _ Hlevel), <- waiting_zero.
    split; intros [H1 H2].
    - split; [done|]. rewrite (Hrem x H2) in H1. injection H1 as H1. lia.
    - split; [by rewrite (Hrem x H1), H2|done]. }
  assert (Hl : forall x q, tasks st !! x = Some q -> q = Created).
  { intros x q. rewrite Ht. case_decide; [by intros [= <-]|done]. }
  constructor.
  - intros x. split; [set_solver|]. intros (q & ->%Hl & Hq). done.
  - by rewrite Hs1.
  - intros x Hx. rewrite Hr', (Hrem x Hx). eexists. split; [done|]. split; [lia|done].
  - intros x. rewrite Hin, Ht, <- waiting_zero. cbn [tasks st0]. rewrite lookup_empty. split.
    + intros Hx. case_decide as Hd; [|by destruct Hx]. destruct Hd as [Hxo%(lv_nodes _ _ _ Hlevel) Hz].
      rewrite (Hrem x Hxo) in Hz. injection Hz as Hz. split; [done|lia].
    + intros [Hx Hz]. rewrite decide_True; [by eexists|]. split; [by apply (lv_nodes _ _ _ Hlevel)|].
      by rewrite (Hrem x Hx), Hz.
  - rewrite Hc. cbn [created st0 app]. apply NoDup_filter, Hlevel.
  - intros x Hx. apply Hin in Hx as [Hx Hall']. split; [done|]. intros d Hd. apply Hall' in Hd. set_solver.
  - intros _ x Hx Hd. by apply Hin.
  - intros x v. by rewrite lookup_empty.
  - intros x q ->%Hl Hq. done.
  - intros x q _ _. by rewrite lookup_empty.
  - intros x env Hq%Hl. done.
  - intros x q ->%Hl Hq. done.
  - intros x Hx _. rewrite Hs2. by apply Hbase.
  - intros x _. by rewrite Hs2.
  - intros x q ->%Hl [r' Hq]. done.
  - rewrite Hs3, Hs4, Hs5. cbn. naive_solver.
  - intros x Hq%Hl. done.
Qed.

(** ** Every step *)

Lemma dstep_ok st st' : ok st -> step st st' -> ok st'.
Proof.
  intros (P & val & Hi) Hstep. destruct Hstep as [n st Hp Ha|n st Hp|n env v st Hp Hv|n st Hp|n p e st Hp He Hn|n e r st Hp|n p st Hp Hal Ha|n p st Hp Hu Hc].
  - exists P, val. by eapply set_phase_inv.
  - exists P, val. rewrite (read_inputs_spec (deps_of deps n) (produced st) val).
    + eapply set_phase_inv; try done. by intros env [= ->].
    + intros d Hd. by eapply inputs_available.
  - exists P, (<[n := v]> val). by eapply store_inv.
  - exists ({[n]} ∪ P), val. by eapply finish_inv.
  - exists P, val. eapply set_phase_inv; try done. by destruct p.
  - exists P, val. by apply notice_inv.
  - exists P, val. eapply set_phase_inv; try done. by destruct p.
  - exists P, val. by apply cancel_run_inv.
Qed.
Lemma reachable_dag_ok st : dag_reachable st -> ok st.
Proof.
  intros (st0 & Hinit & Hsteps). destruct dag_init_ok as (st1 & Hinit' & Hi). rewrite Hinit in Hinit'. injection Hinit' as <-.
  apply (star_invariant step ok dstep_ok _ _ Hsteps). by exists ∅, ∅.
Qed.

(** ** Values *)

Lemma restrict_restrict ds l (val : gmap string V) : (forall d, d ∈ ds -> d ∈ l) -> restrict ds (restrict l val) = restrict ds val.
Proof.
  intros Hsub. unfold restrict. apply map_eq. intros x. rewrite !map_lookup_filter. destruct (val !! x); [|done]. cbn.
  repeat case_guard; try done; naive_solver.
Qed.

Lemma restrict_snoc l n v (val : gmap string V) : val !! n = Some v -> restrict (l ++ [n]) val = <[n := v]> (restrict l val).
Proof.
  intros Hv. unfold restrict. apply map_eq. intros x. rewrite lookup_insert, !map_lookup_filter.
  destruct (decide (n = x)) as [<-|Hne].
  - rewrite Hv. cbn. case_guard as Hg; [done|]. exfalso. apply Hg. set_solver.
  - destruct (val !! x); [|done]. cbn. repeat case_guard; try done; set_solver.
Qed.

Lemma sequential_suffix val l1 l2 : order = l1 ++ l2 -> (forall n, n ∈ order <-> is_Some (val !! n)) ->
  (forall n v, val !! n = Some v -> computes n (restrict (deps_of deps n) val) v) ->
  sequential deps computes (restrict l1 val) l2 val.
Proof.
  intros Ho Hdom Hval. revert l1 Ho. induction l2 as [|n l2 IH]; intros l1 Ho.
  - rewrite app_nil_r in Ho. subst l1. assert (restrict order val = val) as ->; [|constructor].
    apply map_filter_id. intros x v Hx. cbn. apply Hdom. by eexists.
  - destruct (proj1 (Hdom n) ltac:(rewrite Ho; set_solver)) as [v Hv]. apply (seq_cons _ _ _ _ _ v).
    + rewrite restrict_restrict; [by apply Hval|]. intros d Hd. by eapply (lv_topological _ _ _ Hlevel).
    + rewrite <- (restrict_snoc l1 n v val Hv). apply IH. by rewrite Ho, <- app_assoc.
Qed.

(** When everything went well, everything was done. *)
Lemma completed_done P val st : inv P val st -> settled st -> dag_outcome st = Completed -> forall n, n ∈ order -> n ∈ P.
Proof.
  intros Hi Hset Hout. assert (Herr : errors st = [] /\ cancelled st = false).
  { unfold dag_outcome in Hout. destruct (List.filter is_execution (errors st)) eqn:H1;
      destruct (List.filter (fun e => negb (is_execution e)) (errors st)) eqn:H2; try done. split; [|by destruct (cancelled st)].
    destruct (errors st) as [|e l]; [done|]. cbn in H1, H2. by destruct (is_execution e). }
  destruct Herr as [Herr Hca].
  assert (Hab : aborting st = false).
  { destruct (aborting st) eqn:Ha; [|done]. apply (di_abort _ _ _ _ _ _ _ Hi) in Ha as [Ha|Ha]; congruence. }
  assert (Hall : forall l1 l2, order = l1 ++ l2 -> forall n, n ∈ l1 -> n ∈ P).
  { intros l1. induction l1 as [|m l1 IH] using rev_ind; intros l2 Ho n Hn; [by apply not_elem_of_nil in Hn|].
    rewrite <- app_assoc in Ho. apply elem_of_app in Hn as [Hn| ->%list_elem_of_singleton]; [by eapply IH|].
    assert (Hcr : m ∈ created st).
    { apply (di_ready _ _ _ _ _ _ _ Hi Hab); [apply (lv_nodes _ _ _ Hlevel); rewrite Ho; set_solver|].
      intros d Hd. eapply (IH _ Ho). by eapply (lv_topological _ _ _ Hlevel). }
    apply (di_tasks _ _ _ _ _ _ _ Hi) in Hcr as [p Hp]. apply (di_released _ _ _ _ _ _ _ Hi). exists p. split; [done|].
    pose proof (Hset m p Hp) as Hun. destruct p; try done.
    - exfalso. apply (di_noticed _ _ _ _ _ _ _ Hi m _ Hp); [by eexists|done].
    - exfalso. pose proof (di_stopped _ _ _ _ _ _ _ Hi m Hp). congruence. }
  intros n Hn. by eapply (Hall order []); [rewrite app_nil_r|].
Qed.

(** C20: Running nodes side by side computes what running them one after the
    other does.  When a level's task group ends without an error, however its
    tasks were interleaved, every node of the plan has answered once, from
    the answers of its dependencies; evaluating the plan's order one node at
    a time can give the same answers; and [produced] holds exactly the
    targets' answers, beside what it held before. *)
Theorem level_computes_the_plan st : dag_reachable st -> settled st -> dag_outcome st = Completed ->
  exists val, sequential deps computes ∅ order val
    /\ (forall n, n ∈ order <-> is_Some (val !! n))
    /\ (forall n v, val !! n = Some v -> computes n (restrict (deps_of deps n) val) v)
    /\ NoDup (created st)
    /\ forall x, produced st !! x = if decide (x ∈ targets) then val !! x else base !! x.
Proof.
  intros (P & val & Hi)%reachable_dag_ok Hset Hout. pose proof (completed_done P val st Hi Hset Hout) as Hdone.
  assert (Hdom : forall n, n ∈ order <-> is_Some (val !! n)).
  { intros n. split.
    - intros Hn%Hdone. apply (di_released _ _ _ _ _ _ _ Hi) in Hn as (p & Hp & Hr). eapply (di_stored _ _ _ _ _ _ _ Hi n p Hp).
      by destruct p.
    - intros [v Hv]. destruct (di_val _ _ _ _ _ _ _ Hi n v Hv) as [Hc _]. apply (lv_nodes _ _ _ Hlevel).
      by apply (di_after _ _ _ _ _ _ _ Hi). }
  assert (Hval : forall n v, val !! n = Some v -> computes n (restrict (deps_of deps n) val) v)
    by (intros n v Hv; by apply (di_val _ _ _ _ _ _ _ Hi)).
  exists val. split_and!; [|done|done|by eapply di_created|].
  - assert (restrict [] val = ∅) as <-; [|by apply sequential_suffix].
    apply map_empty_filter. intros x v _ Hx. by apply not_elem_of_nil in Hx.
  - intros x. destruct (decide (x ∈ order)) as [Hx|Hx].
    + pose proof (Hdone x Hx) as HxP. pose proof HxP as (p & Hp & Hr)%(di_released _ _ _ _ _ _ _ Hi).
      assert (Hst : stored_phase p = true) by by destruct p. rewrite (di_produced _ _ _ _ _ _ _ Hi x p Hp Hst).
      assert (Hu : users deps P x = 0%nat).
      { apply users_zero. intros n ds Hds _. apply Hdone, (lv_nodes _ _ _ Hlevel). by eexists. }
      rewrite Hbase by by apply (lv_nodes _ _ _ Hlevel).
      destruct (decide (x ∈ targets)) as [Ht|Ht].
      * rewrite decide_False; [done|]. intros (_ & _ & Hno). apply Hno. by apply elem_of_list_to_set.
      * rewrite decide_True; [done|]. split_and!; [done|done|]. by rewrite elem_of_list_to_set.
    + rewrite decide_False by (intros Ht; by apply Hx, (lv_targets _ _ _ Hlevel)). apply (di_base _ _ _ _ _ _ _ Hi).
      rewrite (lv_nodes _ _ _ Hlevel) in Hx. destruct (deps !! x); [|done]. exfalso. apply Hx. by eexists.
Qed.

(** Outputs are kept while they are needed.  In every reachable state of a
    level no read of an input, no release of references and no countdown
    raises a KeyError: whatever an unfinished node that was started depends
    on is in [produced].  And nothing else is kept: once a node is done its
    outputs are there exactly when it is a target or some node that depends
    on it is not done. *)
Theorem outputs_live_while_needed st : dag_reachable st ->
  (forall n, tasks st !! n = Some Begun -> is_Some (read_inputs (deps_of deps n) (produced st)))
  /\ (forall n, tasks st !! n = Some Stored -> is_Some (finished n (references st) (produced st))
        /\ forall d, d ∈ dependents deps n -> is_Some (remaining st !! d))
  /\ (forall n, tasks st !! n = Some Done -> is_Some (produced st !! n) <->
        n ∈ targets \/ exists m, n ∈ deps_of deps m /\ forall p, tasks st !! m = Some p -> released_phase p = false).
Proof.
  intros (P & val & Hi)%reachable_dag_ok. split_and!.
  - intros n Hp. rewrite (read_inputs_spec (deps_of deps n) (produced st) val); [by eexists|].
    intros d Hd. by eapply inputs_available.
  - intros n Hp. assert (HnP : n ∉ P).
    { rewrite (di_released _ _ _ _ _ _ _ Hi). intros (p' & Hp' & Hr'). by assert (p' = Stored) as -> by congruence. }
    destruct (di_after _ _ _ _ _ _ _ Hi n) as [[ds Hds] Hafter]; [apply (di_tasks _ _ _ _ _ _ _ Hi); by eexists|].
    assert (Hdn : deps_of deps n = ds) by (unfold deps_of; by rewrite Hds). rewrite Hdn in Hafter. split.
    + destruct (finished_spec deps T (lv_sets _ _ _ Hlevel) P n ds (references st) (produced st)
        (di_references _ _ _ _ _ _ _ Hi) HnP Hds) as (r & prod & -> & _); [| |by eexists].
      * rewrite <- Hdn. intros Hin. by destruct (deps_of_closed _ _ _ Hlevel n n Hin) as (_ & _ & ?).
      * intros d Hd. split; [by apply Hafter|]. rewrite <- Hdn in Hd. by destruct (deps_of_closed _ _ _ Hlevel n d Hd) as (_ & ? & _).
    + intros d Hd%dependents_spec. destruct (deps_of_closed _ _ _ Hlevel d n Hd) as (Hsome & _).
      destruct (di_remaining _ _ _ _ _ _ _ Hi d Hsome) as (k & -> & _). by eexists.
  - intros n Hp. rewrite (di_produced _ _ _ _ _ _ _ Hi n Done Hp eq_refl).
    assert (HnP : n ∈ P) by (apply (di_released _ _ _ _ _ _ _ Hi); by exists Done).
    pose proof (di_stored _ _ _ _ _ _ _ Hi n Done Hp eq_refl) as Hsome.
    assert (Hz : users deps P n <> 0%nat <-> exists m, n ∈ deps_of deps m /\ forall p, tasks st !! m = Some p -> released_phase p = false).
    { rewrite users_zero. split.
      - intros Hno. destruct (decide (map_Forall (fun m (ds : list string) => n ∈ ds -> m ∈ P) deps)) as [Hall|Hex].
        + exfalso. apply Hno. intros m ds Hds Hn. by apply (Hall m ds).
        + apply map_not_Forall in Hex as (m & ds & Hds & Hex); [|apply _]. exists m.
          split; [unfold deps_of; rewrite Hds; by destruct (decide (n ∈ ds)) as [|]; [|exfalso; apply Hex]|].
          intros p Hpm. destruct (released_phase p) eqn:Hr; [|done]. exfalso. apply Hex. intros _.
          apply (di_released _ _ _ _ _ _ _ Hi). by exists p.
      - intros (m & Hn & Hrel) Hall. unfold deps_of in Hn. destruct (deps !! m) as [ds|] eqn:Hds; [|by apply not_elem_of_nil in Hn].
        pose proof (Hall m ds Hds Hn) as (p & Hpm & Hr)%(di_released _ _ _ _ _ _ _ Hi). rewrite (Hrel p Hpm) in Hr. done. }
    rewrite <- Hz, <- (elem_of_list_to_set (C := gset string) n targets). destruct (decide (n ∈ P /\ users deps P n = 0%nat /\ n ∉ T)) as [Hd|Hd].
    + split; [by intros [? ?]|]. naive_solver.
    + split; [|done]. intros _. destruct (decide (n ∈ T)); [by left|]. right. intros Hu. apply Hd. done.
Qed.
(** ** Ends *)

Lemma sum_list_lt {A} (f h : A -> nat) (l : list A) x : (forall y, f y <= h y)%nat -> x ∈ l -> (f x < h x)%nat ->
  (sum_list_with f l < sum_list_with h l)%nat.
Proof.
  intros Hle Hx Hlt. assert (Hall : forall k, (sum_list_with f k <= sum_list_with h k)%nat).
  { intros k. induction k as [|y k IH]; cbn; [lia|]. pose proof (Hle y). lia. }
  induction l as [|y l IH]; [by apply not_elem_of_nil in Hx|]. cbn. pose proof (Hle y). pose proof (Hall l).
  apply elem_of_cons in Hx as [->|Hx]; [lia|]. specialize (IH Hx). lia.
Qed.

Lemma weight_drops st st' n : n ∈ order -> (forall x, phase_weight (tasks st' !! x) <= phase_weight (tasks st !! x))%nat ->
  (phase_weight (tasks st' !! n) < phase_weight (tasks st !! n))%nat -> cancelled st' = cancelled st ->
  (dag_weight order st' < dag_weight order st)%nat.
Proof.
  intros Hn Hle Hlt Hc. unfold dag_weight. rewrite Hc.
  pose proof (sum_list_lt (fun n => phase_weight (tasks st' !! n)) (fun n => phase_weight (tasks st !! n)) order n Hle Hn Hlt). lia.
Qed.

Lemma phase_drops st p p' n : n ∈ order -> tasks st !! n = Some p -> (phase_weight (Some p') < phase_weight (Some p))%nat ->
  (dag_weight order (set_phase n p' st) < dag_weight order st)%nat.
Proof.
  intros Hn Hp Hlt. apply (weight_drops st _ n Hn); [|cbn; by rewrite lookup_insert_eq, Hp|done].
  intros x. cbn. rewrite lookup_insert. case_decide as Hx; [subst x; rewrite Hp; lia|done].
Qed.

Lemma planned_task P val st n p : inv P val st -> tasks st !! n = Some p -> n ∈ order.
Proof.
  intros Hi Hp. apply (lv_nodes _ _ _ Hlevel), (di_after _ _ _ _ _ _ _ Hi), (di_tasks _ _ _ _ _ _ _ Hi). by eexists.
Qed.

(** How tasks go on: nothing new is entered once the group shuts down, and a
    failure is never forgotten. *)
Record goes_on st st' : Prop := {
  go_aborting : aborting st = true -> aborting st' = true;
  go_none : aborting st = true -> forall n, tasks st !! n = None -> tasks st' !! n = None;
  go_created : aborting st = true -> forall n, tasks st !! n = Some Created ->
    tasks st' !! n = Some Created \/ tasks st' !! n = Some TaskCancelled;
  go_cancelled : forall n, tasks st !! n = Some TaskCancelled -> tasks st' !! n = Some TaskCancelled;
  go_failed : forall n e r, tasks st !! n = Some (Failed e r) ->
    tasks st' !! n = Some (Failed e r) \/ tasks st' !! n = Some (Reported r);
  go_reported : forall n r, tasks st !! n = Some (Reported r) -> tasks st' !! n = Some (Reported r);
}.

Lemma goes_on_refl st : goes_on st st.
Proof. constructor; auto. Qed.

Lemma goes_on_trans st1 st2 st3 : goes_on st1 st2 -> goes_on st2 st3 -> goes_on st1 st3.
Proof.
  intros [] []. constructor.
  - auto.
  - auto.
  - intros Ha n Hn. destruct (go_created0 Ha n Hn) as [H|H]; auto.
  - auto.
  - intros n e r Hn. destruct (go_failed0 n e r Hn) as [H|H]; auto.
  - auto.
Qed.

Lemma goes_on_phase st st' n p p' : tasks st !! n = Some p -> tasks st' = <[n := p']> (tasks st) ->
  (aborting st = true -> aborting st' = true) ->
  (aborting st = true -> p = Created -> p' = TaskCancelled) -> p <> TaskCancelled ->
  (forall e r, p = Failed e r -> p' = Reported r) -> (forall r, p <> Reported r) -> goes_on st st'.
Proof.
  intros Hp Ht Ha Hc Htc Hf Hr.
  assert (Hl : forall x q, tasks st !! x = Some q -> x = n /\ q = p /\ tasks st' !! x = Some p' \/ x <> n /\ tasks st' !! x = Some q).
  { intros x q Hq. rewrite Ht. destruct (decide (x = n)) as [->|Hx]; [left|right; by rewrite lookup_insert_ne].
    rewrite lookup_insert_eq. split_and!; congruence. }
  constructor; [done| | | | |].
  - intros _ x Hx. rewrite Ht, lookup_insert_ne; [done|]. intros <-. congruence.
  - intros Hab x Hx. destruct (Hl x _ Hx) as [(-> & Hq & ->)|[_ ->]]; [|by left]. right. f_equal. by apply Hc.
  - intros x Hx. destruct (Hl x _ Hx) as [(-> & Hq & _)|[_ ->]]; [congruence|done].
  - intros x e r Hx. destruct (Hl x _ Hx) as [(-> & Hq & ->)|[_ ->]]; [|by left]. right. f_equal. by eapply Hf.
  - intros x r Hx. destruct (Hl x _ Hx) as [(-> & Hq & _)|[_ ->]]; [by destruct (Hr r)|done].
Qed.

Lemma dstep_goes_on P val st st' : inv P val st -> step st st' ->
  goes_on st st' /\ (dag_weight order st' < dag_weight order st)%nat.
Proof.
  intros Hi Hstep. destruct Hstep as [n st Hp Ha|n st Hp|n env v st Hp Hv|n st Hp|n p e st Hp He Hn|n e r st Hp|n p st Hp Hal Ha|n p st Hp Hu Hc];
    pose proof (planned_task _ _ _ _ _ Hi Hp) as Hpl.
  - split; [|eapply phase_drops; [done|done|cbn; lia]]. eapply goes_on_phase; try done. congruence.
  - assert (Hw : forall p', (phase_weight (Some p') < 4)%nat -> (forall env, p' = HasInputs env \/ p' = Failed (OtherError n) false \/ True) ->
      goes_on st (set_phase n p' st) /\ (dag_weight order (set_phase n p' st) < dag_weight order st)%nat).
    { intros p' Hw _. split; [by eapply goes_on_phase|]. by eapply phase_drops. }
    destruct (read_inputs _ _); apply Hw; cbn; auto; lia.
  - split; [by eapply goes_on_phase|]. eapply (weight_drops st _ n Hpl); [|cbn; rewrite lookup_insert_eq, Hp; cbn; lia|done].
    intros x. cbn. rewrite lookup_insert. case_decide as Hx; [subst x; rewrite Hp; cbn; lia|done].
  - destruct (di_after _ _ _ _ _ _ _ Hi n) as [[ds Hds] _]; [apply (di_tasks _ _ _ _ _ _ _ Hi); by eexists|].
    destruct (finish_node_spec _ _ _ _ _ Hlevel Hbase P val st n ds Hi Hp Hds) as (p & new & st' & -> & Hrp & Hnr & _ & _ & _ & _ & _
      & Hnew & _ & Ht & Ha & _ & Hca & Hnone).
    assert (Hl : forall x, tasks (set_phase n p st') !! x = if decide (x = n) then Some p
        else if decide (x ∈ new) then Some Created else tasks st !! x).
    { intros x. cbn. rewrite lookup_insert, Ht. repeat case_decide; congruence. }
    assert (Hold : forall x q, tasks st !! x = Some q -> x <> n -> tasks (set_phase n p st') !! x = Some q).
    { intros x q Hq Hx. rewrite Hl, decide_False, decide_False; [done| |done]. intros Hxn. destruct (Hnew x Hxn) as (_ & Hno & _).
      apply Hno, (di_tasks _ _ _ _ _ _ _ Hi). by eexists. }
    split.
    + constructor.
      * cbn. congruence.
      * intros Hab x Hx. rewrite Hl, (Hnone Hab), decide_False, decide_False; [done|apply not_elem_of_nil|]. intros ->. congruence.
      * intros _ x Hx. left. apply Hold; [done|]. intros ->. congruence.
      * intros x Hx. apply Hold; [done|]. intros ->. congruence.
      * intros x e r Hx. left. apply Hold; [done|]. intros ->. congruence.
      * intros x r Hx. apply Hold; [done|]. intros ->. congruence.
    + apply (weight_drops st _ n Hpl); [|rewrite Hl, decide_True, Hp by done; destruct p; cbn in *; try done; lia|done].
      intros x. rewrite Hl. destruct (decide (x = n)) as [->|Hx]; [rewrite Hp; destruct p; cbn in *; try done; lia|].
      destruct (decide (x ∈ new)) as [Hxn|Hxn]; [|done]. destruct (Hnew x Hxn) as (_ & Hno & _).
      destruct (tasks st !! x) eqn:Hx'; [|cbn; lia]. exfalso. apply Hno, (di_tasks _ _ _ _ _ _ _ Hi). by eexists.
  - split; [by eapply goes_on_phase; destruct p|]. eapply phase_drops; [done|done|]. destruct p; cbn in *; try done; lia.
  - split; [eapply goes_on_phase; try done; congruence|].
    eapply (weight_drops st _ n Hpl); [|cbn; rewrite lookup_insert_eq, Hp; cbn; lia|done].
    intros x. cbn. rewrite lookup_insert. case_decide as Hx; [subst x; rewrite Hp; cbn; lia|done].
  - split; [by eapply goes_on_phase; destruct p|]. eapply phase_drops; [done|done|]. destruct p; cbn in *; try done; lia.
  - split; [constructor; auto|]. unfold dag_weight. cbn. rewrite Hc. lia.
Qed.

Lemma star_goes_on st st' : ok st -> star step st st' -> ok st' /\ goes_on st st'.
Proof.
  intros Hok Hs. induction Hs as [st|st st1 st2 Hstep _ IH]; [split; [done|apply goes_on_refl]|].
  destruct (IH (dstep_ok _ _ Hok Hstep)) as [Hok2 Hg]. split; [done|]. destruct Hok as (P & val & Hi).
  eapply goes_on_trans; [by apply (dstep_goes_on P val)|done].
Qed.

(** C21: Every level ends.  No run of a level is infinite; and as long as a
    task of the group is not over something can happen, if every node answers
    something, so that a level left to itself comes to its end. *)
Theorem levels_end st : dag_reachable st ->
  Acc (flip step) st
  /\ ((forall n env, exists v, computes n env v) -> ~ settled st -> exists st', step st st').
Proof.
  intros Hok%reachable_dag_ok. split.
  - remember (dag_weight order st) as w eqn:Hw. revert st Hok Hw. induction w as [w IH] using lt_wf_ind. intros st Hok ->.
    constructor. intros st' Hstep. unfold flip in Hstep. pose proof Hok as (P & val & Hi).
    destruct (dstep_goes_on P val st st' Hi Hstep) as [_ Hlt]. eapply IH; [exact Hlt|by eapply dstep_ok|done].
  - intros Htotal Hns. apply map_not_Forall in Hns as (n & p & Hp & Hu); [|apply _].
    apply not_false_is_true in Hu. destruct p as [| |env| | |e r| |]; try done.
    + destruct (aborting st) eqn:Ha; [by eexists; eapply d_cancelled|by eexists; apply (d_begin _ _ n)].
    + by eexists; apply (d_read _ _ n).
    + destruct (Htotal n env) as [v Hv]. by eexists; eapply (d_store _ _ n).
    + by eexists; apply (d_finish _ _ n).
    + by eexists; eapply d_notice.
Qed.

(** A failure stops the level.  Once a node has failed, whatever happens
    then: if it had not released its references, none of its dependents is
    ever started; once the group has noticed, nothing that was not entered
    yet ever is; and the level does not complete, and answers no outputs. *)
Theorem failure_stops_the_level st st' n e released : dag_reachable st -> tasks st !! n = Some (Failed e released) ->
  star step st st' ->
  (released = false -> forall m, n ∈ deps_of deps m -> m ∉ created st')
  /\ (aborting st = true -> forall m p, tasks st !! m = None \/ tasks st !! m = Some Created ->
        tasks st' !! m = Some p -> p = Created \/ p = TaskCancelled)
  /\ (settled st' -> dag_outcome st' <> Completed /\ snd (dag_result st') = ∅).
Proof.
  intros Hok%reachable_dag_ok Hn Hs. destruct (star_goes_on _ _ Hok Hs) as [(P & val & Hi) []]. split_and!.
  - intros -> m Hm Hc. pose proof (di_after _ _ _ _ _ _ _ Hi m Hc) as [_ Hall].
    apply Hall, (di_released _ _ _ _ _ _ _ Hi) in Hm as (q & Hq & Hr).
    destruct (go_failed0 n e false Hn) as [H'|H']; rewrite Hq in H'; by injection H' as ->.
  - intros Ha m p [Hm|Hm] Hp; [rewrite (go_none0 Ha m Hm) in Hp; done|].
    destruct (go_created0 Ha m Hm) as [H'|H']; rewrite Hp in H'; injection H' as ->; auto.
  - intros Hset. assert (Hne : dag_outcome st' <> Completed).
    { intros Hout. assert (Herr : errors st' <> []).
      { destruct (go_failed0 n e released Hn) as [H'|H']; [by pose proof (Hset n _ H')|].
        apply (di_noticed _ _ _ _ _ _ _ Hi n _ H'). by eexists. }
      unfold dag_outcome in Hout. destruct (errors st') as [|x l]; [done|]. cbn in Hout.
      destruct (is_execution x); cbn in Hout; [by destruct (List.filter _ l)|].
      by destruct (List.filter is_execution l). }
    split; [done|]. unfold dag_result. by destruct (dag_outcome st').
Qed.
End runs.

(** * The plan is a plan *)

(** A document without its lazy links. *)
Definition keep_strong (lazy : string -> gset string) (kn : string * AnyNode) : string * AnyNode :=
  match kn.2 with
  | NodeOf n => (kn.1, NodeOf {|
      Graph.node_type := Graph.node_type n;
      node_inputs := List.filter (fun kv => negb (bool_decide (kv.1 ∈ lazy kn.1) && match kv.2 with GLink _ => true | _ => false end)) (node_inputs n);
      output_members := output_members n;
      slot_variants := slot_variants n
    |})
  | RegionOf _ _ => kn
  end.

Definition strong_part (lazy : string -> gset string) (g : Graph) : Graph := map (keep_strong lazy) g.

(** A set of dependencies, listed in some order. *)
Definition lists (deps : gmap string (gset string)) (dl : gmap string (list string)) : Prop :=
  (forall n, is_Some (dl !! n) <-> is_Some (deps !! n))
  /\ forall n s l, deps !! n = Some s -> dl !! n = Some l -> NoDup l /\ forall d, d ∈ l <-> d ∈ s.

Section planned.
Variable g : Graph.
Variable lazy : string -> gset string.

Lemma strong_part_get n : dict_get (strong_part lazy g) n = (fun v => (keep_strong lazy (n, v)).2) <$> dict_get g n.
Proof.
  induction g as [|[k v] g' IH]; [done|]. unfold strong_part, keep_strong in *. cbn. destruct (decide (n = k)) as [<-|Hne].
  - destruct v; cbn; rewrite ?bool_decide_true by done; cbn; try case_decide; done.
  - destruct v; cbn in *; case_decide; done.
Qed.

Lemma strong_part_mem n : dict_mem (strong_part lazy g) n = dict_mem g n.
Proof. unfold dict_mem. rewrite strong_part_get. by destruct (dict_get g n). Qed.

Lemma strong_part_target v : link_target (strong_part lazy g) v = link_target g v.
Proof. destruct v; cbn; try done. by rewrite strong_part_mem. Qed.

Lemma strong_part_dependencies n : dependencies (strong_part lazy g) n = strong_dependencies g lazy n.
Proof.
  unfold dependencies, strong_dependencies. rewrite strong_part_get. destruct (dict_get g n) as [[m|r body]|]; cbn; [| |done].
  - f_equal. induction (node_inputs m) as [|[k v] l IH]; [done|]. cbn [List.filter omap list_omap fst snd].
    destruct (bool_decide (k ∈ lazy n)); destruct v; cbn [andb negb]; cbn; try done.
    rewrite strong_part_mem. destruct (dict_mem _ _); [f_equal|]; exact IH.
  - f_equal. induction (rn_inputs r) as [|[k v] l IH]; [done|]. cbn [omap list_omap fst snd].
    by rewrite strong_part_target, IH.
Qed.

Variable targets : list string.
Hypothesis Htargets : forallb (dict_mem g) targets = true.

Lemma strong_part_reachable : reachable_from (strong_part lazy g) targets = strong_needed g lazy targets.
Proof.
  apply set_eq. intros n. unfold reachable_from, strong_needed.
  assert (Hfilter : List.filter (fun t => dict_mem (strong_part lazy g) t) targets = targets).
  { induction targets as [|t l IH]; [done|]. cbn in *. apply andb_true_iff in Htargets as [Ht Hl]. by rewrite strong_part_mem, Ht, IH. }
  rewrite Hfilter, !search_from_spec.
  - split; intros (t & Ht & Hs & Hr); exists t; (split_and!; [done..|]); revert Hr; apply rtc_subrel; intros a b; unfold edge;
      rewrite strong_part_dependencies; done.
  - intros a b. rewrite <- strong_part_dependencies. intros Hb%elem_of_elements%dependencies_source.
    by rewrite <- dict_mem_true, strong_part_mem, dict_mem_true in Hb.
  - intros a b Hb%elem_of_elements. by eapply dependencies_source.
Qed.

Lemma strong_deps_map : strong_deps g lazy targets = dependency_map (strong_part lazy g) targets.
Proof.
  unfold strong_deps, dependency_map. cbn zeta. rewrite strong_part_reachable. unfold set_to_map. f_equal.
  apply list_fmap_ext. intros _ n _. by rewrite strong_part_dependencies.
Qed.
End planned.

Lemma is_Some_decide {A} (P : Prop) `{Decision P} (x : A) : is_Some (if decide P then Some x else None) <-> P.
Proof. case_decide; [by split; intros _; [|eexists]|]. split; [by intros []|done]. Qed.

(** Kahn's loop, which adds the nodes that became ready, and the engine's,
    which looks for all ready nodes again each round, pick the same nodes. *)
Lemma strong_loop_kahn g needed (Hclosed : forall a b, a ∈ needed -> depends g a b -> b ∈ needed) fuel remaining X order r :
  kahn_inv g needed remaining (sorted_set X) order -> kahn_loop fuel remaining (sorted_set X) order = Some r ->
  strong_loop fuel remaining order = r.
Proof.
  revert remaining X order. induction fuel as [|fuel IH]; intros remaining X order Hi Hk; [done|].
  cbn [kahn_loop strong_loop] in *.
  assert (dom (filter (fun p : string * gset string => p.2 = ∅ /\ p.1 ∉ order) remaining) = X) as ->.
  { apply set_eq. intros n. rewrite <- (elem_of_sorted_set X n), (ki_ready _ _ _ _ _ Hi), elem_of_dom. split.
    - intros [s [Hs [He Hn]]%map_lookup_filter_Some]. rewrite (ki_remaining _ _ _ _ _ Hi) in Hs. cbn in He, Hn.
      case_decide; [|done]. injection Hs as <-. split_and!; [done..|]. by apply empty_difference_subseteq_L.
    - intros (Hn & Ho & Hs). exists (dependencies g n ∖ list_to_set order). apply map_lookup_filter_Some.
      rewrite (ki_remaining _ _ _ _ _ Hi), decide_True by done. split_and!; [done| |done]. cbn. set_solver. }
  destruct (sorted_set X) as [|n rest]; [congruence|]. eapply IH; [|exact Hk]. by apply kahn_round.
Qed.

Lemma strong_loop_plan g lazy targets order : forallb (dict_mem g) targets = true ->
  plan (strong_part lazy g) targets = Ok order ->
  strong_loop (S (size (strong_deps g lazy targets))) (strong_deps g lazy targets) [] = order.
Proof.
  intros Ht Hplan. rewrite strong_deps_map by done. set (g' := strong_part lazy g) in *.
  pose proof (kahn_initial g' targets) as Hinit. cbn zeta in Hinit.
  assert (size (dependency_map g' targets) = size (reachable_from g' targets)) as ->.
  { rewrite <- size_dom. f_equal. apply set_eq. intros n. rewrite elem_of_dom, (ki_remaining _ _ _ _ _ Hinit).
    apply is_Some_decide. }
  unfold plan in Hplan. destruct (kahn_loop_spec g' _ (proj2 (reachable_from_spec g' targets)) (S (size (reachable_from g' targets))) _ _ _ Hinit)
    as (r & rem & Hrun & _); [cbn; lia|].
  rewrite Hrun in Hplan. cbn in Hplan. destruct (_ =? _)%nat; [|done]. injection Hplan as <-.
  eapply strong_loop_kahn; [apply reachable_from_spec|exact Hinit|exact Hrun].
Qed.

Lemma planned_level g lazy targets order : forallb (dict_mem g) targets = true ->
  plan (strong_part lazy g) targets = Ok order ->
  strong_plan g lazy targets = Some (order, strong_deps g lazy targets)
    /\ (forall n, n ∈ order <-> exists t, t ∈ targets /\ rtc (fun a b => b ∈ strong_dependencies g lazy a) t n)
    /\ forall dl, lists (strong_deps g lazy targets) dl -> level_ok dl order targets.
Proof.
  intros Ht Hplan. pose proof (plan_spec (strong_part lazy g) targets) as [Hspec _]. rewrite Hplan in Hspec.
  destruct Hspec as (Hnd & Hin & Htop).
  assert (Hreach : forall n, n ∈ order <-> n ∈ strong_needed g lazy targets).
  { intros n. rewrite Hin, <- strong_part_reachable by done. by rewrite (proj1 (reachable_from_spec _ _)). }
  assert (Hd : forall n, strong_deps g lazy targets !! n =
      if decide (n ∈ order) then Some (strong_dependencies g lazy n) else None).
  { intros n. rewrite strong_deps_map by done.
    rewrite (ki_remaining _ _ _ _ _ (kahn_initial (strong_part lazy g) targets)), strong_part_reachable by done.
    destruct (decide (n ∈ order)) as [Ho|Ho], (decide (n ∈ strong_needed g lazy targets)) as [Hs|Hs]; try done;
      [|by apply Hreach in Ho|by apply Hreach in Hs]. f_equal. rewrite strong_part_dependencies. set_solver. }
  split_and!.
  - unfold strong_plan. rewrite Ht. do 2 f_equal. by apply strong_loop_plan.
  - intros n. rewrite Hin. split; intros (t & H1 & H2).
    + exists t. split; [done|]. destruct H2 as [_ H2]. revert H2. apply rtc_subrel. intros a b. unfold depends.
      by rewrite strong_part_dependencies.
    + exists t. split_and!; [done| |].
      * rewrite forallb_forall in Ht. rewrite <- dict_mem_true, strong_part_mem. by apply Ht, list_elem_of_In.
      * revert H2. apply rtc_subrel. intros a b. unfold depends. by rewrite strong_part_dependencies.
  - intros dl [Hdom Hdl].
    assert (Hof : forall a b, b ∈ deps_of dl a -> a ∈ order /\ b ∈ strong_dependencies g lazy a).
    { intros a b. unfold deps_of. destruct (dl !! a) as [l|] eqn:Hl; [|by intros ?%not_elem_of_nil]. cbn. intros Hb.
      destruct (proj1 (Hdom a) ltac:(by eexists)) as [s Hs]. apply (Hdl a s l Hs Hl) in Hb. rewrite Hd in Hs.
      case_decide; [|done]. by injection Hs as <-. }
    constructor.
    + intros n l Hl. destruct (proj1 (Hdom n) ltac:(by eexists)) as [s Hs]. apply (Hdl n s l Hs Hl).
    + done.
    + intros n. by rewrite Hdom, Hd, is_Some_decide.
    + intros before x after -> y [_ Hy]%Hof. apply (Htop before x after eq_refl). unfold depends.
      by rewrite strong_part_dependencies.
    + intros t Htt. apply Hin. exists t. split_and!; [done| |done]. rewrite forallb_forall in Ht.
      rewrite <- dict_mem_true, strong_part_mem. by apply Ht, list_elem_of_In.
Qed.

Lemma lists_elements deps : lists deps (elements <$> deps).
Proof.
  split.
  - intros n. rewrite lookup_fmap. by rewrite fmap_is_Some.
  - intros n s l Hs. rewrite lookup_fmap, Hs. intros [= <-]. split; [apply NoDup_elements|]. intros d. apply elem_of_elements.
Qed.

(** C22: The engine's plan of a level is the plan of the document without its
    lazy links: the same nodes in the same order, when every target is a node
    of the document; and then, however each node's dependencies are listed,
    the plan is one the scheduler can run. *)
Theorem strong_plan_is_a_plan g lazy targets order : forallb (dict_mem g) targets = true ->
  plan (strong_part lazy g) targets = Ok order ->
  strong_plan g lazy targets = Some (order, strong_deps g lazy targets)
    /\ (forall n, n ∈ order <-> exists t, t ∈ targets /\ rtc (fun a b => b ∈ strong_dependencies g lazy a) t n)
    /\ forall dl, lists (strong_deps g lazy targets) dl -> level_ok dl order targets.
Proof. apply planned_level. Qed.

(** * A level at work *)

(** Moves of a level whose nodes answer a function of their inputs. *)
Inductive move :=
| MBegin (n : string) | MRead (n : string) | MStore (n : string) | MFinish (n : string) | MFail (e : failure)
  | MNotice (n : string) | MCancelled (n : string).

Section play.
Context {V : Type}.
Variable deps : gmap string (list string).
Variable answer : string -> gmap string V -> V.

Definition make_move (m : move) (st : Dag V) : option (Dag V) :=
  match m with
  | MBegin n =>
      match tasks st !! n with
      | Some Created => if aborting st then None else Some (set_phase n Begun st)
      | _ => None
      end
  | MRead n =>
      match tasks st !! n with
      | Some Begun =>
          Some (match read_inputs (deps_of deps n) (produced st) with
                | Some env => set_phase n (HasInputs env) st
                | None => set_phase n (Failed (OtherError n) false) st
                end)
      | _ => None
      end
  | MStore n =>
      match tasks st !! n with
      | Some (HasInputs env) => Some (set_phase n Stored (set_produced (<[n := answer n env]> (produced st)) st))
      | _ => None
      end
  | MFinish n => match tasks st !! n with Some Stored => Some (finish_node deps n st) | _ => None end
  | MFail e =>
      match tasks st !! node_of e with
      | Some p => if entered p then Some (set_phase (node_of e) (Failed e false) st) else None
      | None => None
      end
  | MNotice n => match tasks st !! n with Some (Failed e r) => Some (notice n e r st) | _ => None end
  | MCancelled n =>
      match tasks st !! n with
      | Some p => if alive p && aborting st then Some (set_phase n TaskCancelled st) else None
      | None => None
      end
  end.

Fixpoint play (ms : list move) (st : Dag V) : option (Dag V) :=
  match ms with [] => Some st | m :: ms' => st ← make_move m st; play ms' st end.

Lemma make_move_steps m st st' : make_move m st = Some st' -> dstep deps (fun n env v => v = answer n env) st st'.
Proof.
  destruct m as [n|n|n|n|e|n|n]; cbn.
  1: destruct (tasks st !! n) as [[]|] eqn:Hp; try done; destruct (aborting st) eqn:Ha; [done|].
  2-4: destruct (tasks st !! n) as [[]|] eqn:Hp; try done.
  5: destruct (tasks st !! node_of e) as [p|] eqn:Hp; [|done]; destruct (entered p) eqn:He; [|done].
  6: destruct (tasks st !! n) as [[]|] eqn:Hp; try done.
  7: destruct (tasks st !! n) as [p|] eqn:Hp; [|done]; destruct (alive p) eqn:Ha; [|done]; destruct (aborting st) eqn:Hab; [|done].
  all: intros [= <-]; by econstructor.
Qed.

Lemma play_steps ms st st' : play ms st = Some st' -> star (dstep deps (fun n env v => v = answer n env)) st st'.
Proof.
  revert st. induction ms as [|m ms IH]; cbn; intros st; [intros [= <-]; apply star_refl|].
  destruct (make_move m st) as [st1|] eqn:Hm; [|done]. cbn. intros Hp. eapply star_step; [by eapply make_move_steps|by apply IH].
Qed.
End play.

(** A diamond: [b] and [c] read [a], and [d], the target, reads both. *)
Definition demo_node (inputs : list (string * string)) : AnyNode :=
  NodeOf {| Graph.node_type := "Add"; node_inputs := map (fun p => (p.1, GLink {| link_node := p.2; link_output := "out" |})) inputs;
            output_members := []; slot_variants := [] |}.
Definition demo_graph : Graph :=
  [("d", demo_node [("x", "b"); ("y", "c"); ("later", "e")]); ("c", demo_node [("x", "a")]); ("b", demo_node [("x", "a")]);
   ("a", demo_node []); ("e", demo_node [])].
Definition demo_lazy (n : string) : gset string := if decide (n = "d") then {["later"]} else ∅.
Definition demo_deps : gmap string (list string) := elements <$> strong_deps demo_graph demo_lazy ["d"].
Definition demo_order : list string := ["a"; "b"; "c"; "d"].
Definition demo_answer (n : string) (env : gmap string Z) : Z := foldr Z.add 1 (map_to_list env).*2.
Definition demo_computes (n : string) (env : gmap string Z) (v : Z) : Prop := v = demo_answer n env.
Definition demo_play (ms : list move) : option (Dag Z) :=
  st ← dag_init demo_deps demo_order ["d"] ∅; play demo_deps demo_answer ms st.
Definition demo_run : list move :=
  [MBegin "a"; MRead "a"; MStore "a"; MFinish "a"; MBegin "c"; MBegin "b"; MRead "b"; MRead "c"; MStore "c"; MStore "b";
   MFinish "c"; MFinish "b"; MBegin "d"; MRead "d"; MStore "d"; MFinish "d"].
Definition demo_failing_run : list move :=
  [MBegin "a"; MRead "a"; MStore "a"; MFinish "a"; MBegin "b"; MFail (ExecutionError "b")].

Lemma demo_level : level_ok demo_deps demo_order ["d"].
Proof.
  apply (planned_level demo_graph demo_lazy ["d"] demo_order eq_refl); [by vm_compute|apply lists_elements].
Qed.

Lemma demo_reaches ms st : demo_play ms = Some st -> dag_reachable demo_deps demo_order ["d"] ∅ demo_computes st.
Proof.
  unfold demo_play. destruct (dag_init _ _ _ _) as [st0|] eqn:H0; [|done]. cbn. intros Hp. exists st0. split; [done|].
  by apply (play_steps demo_deps demo_answer ms).
Qed.

Lemma strong_plan_is_a_plan_witness :
  strong_plan demo_graph demo_lazy ["d"] = Some (demo_order, strong_deps demo_graph demo_lazy ["d"])
  /\ level_ok (elements <$> strong_deps demo_graph demo_lazy ["d"]) demo_order ["d"] /\ "e" ∉ demo_order.
Proof.
  destruct (strong_plan_is_a_plan demo_graph demo_lazy ["d"] demo_order) as (Hp & Hin & Hok); [by vm_compute..|].
  split_and!; [exact Hp|apply Hok, lists_elements|by apply (bool_decide_unpack _); vm_compute].
Defined.

Lemma demo_base : forall n, is_Some (demo_deps !! n) -> (∅ : gmap string Z) !! n = None.
Proof. done. Qed.

Lemma settled_check {V} (st : Dag V) : forallb (fun p => negb (unsettled p.2)) (map_to_list (tasks st)) = true -> settled st.
Proof.
  rewrite forallb_forall. intros Hall n p Hp%elem_of_map_to_list%list_elem_of_In. specialize (Hall _ Hp). cbn in Hall.
  by destruct (unsettled p).
Qed.

Lemma level_computes_the_plan_witness : exists st val, demo_play demo_run = Some st
  /\ sequential demo_deps demo_computes ∅ demo_order val /\ (forall x, produced st !! x = if decide (x ∈ ["d"]) then val !! x else None)
  /\ produced st = {["d" := 5]}.
Proof.
  assert (Hend : (fun st => (forallb (fun p => negb (unsettled p.2)) (map_to_list (tasks st)), dag_outcome st, produced st))
            <$> demo_play demo_run = Some (true, Completed, {["d" := 5]})) by (by vm_compute).
  destruct (demo_play demo_run) as [st|] eqn:Hp; [|done]. injection Hend as Hset Hout Hprod.
  destruct (level_computes_the_plan demo_deps demo_order ["d"] ∅ demo_computes demo_level demo_base st
    (demo_reaches _ _ Hp) (settled_check st Hset) Hout) as (val & Hs & _ & _ & _ & Hx).
  exists st, val. split_and!; [reflexivity|exact Hs|exact Hx|exact Hprod].
Defined.

Lemma outputs_live_while_needed_witness : exists st, demo_play (take 11 demo_run) = Some st
  /\ (is_Some (produced st !! "a") <-> "a" ∈ ["d"] \/ exists m, "a" ∈ deps_of demo_deps m /\ forall p, tasks st !! m = Some p -> released_phase p = false).
Proof.
  assert (Hend : (fun st => match tasks st !! "a" with Some Done => true | _ => false end) <$> demo_play (take 11 demo_run) = Some true) by (by vm_compute).
  destruct (demo_play (take 11 demo_run)) as [st|] eqn:Hp; [|done]. injection Hend as Ha. exists st. split; [done|].
  apply (outputs_live_while_needed demo_deps demo_order ["d"] ∅ demo_computes demo_level demo_base st (demo_reaches _ _ Hp)).
  by destruct (tasks st !! "a") as [[]|].
Defined.

Lemma levels_end_witness : exists st, demo_play (take 5 demo_run) = Some st /\ Acc (flip (dstep demo_deps demo_computes)) st
  /\ exists st', dstep demo_deps demo_computes st st'.
Proof.
  assert (Hend : (fun st => match tasks st !! "c" with Some p => unsettled p | None => false end) <$> demo_play (take 5 demo_run) = Some true) by (by vm_compute).
  destruct (demo_play (take 5 demo_run)) as [st|] eqn:Hp; [|done]. injection Hend as Hc. exists st. split; [done|].
  destruct (levels_end demo_deps demo_order ["d"] ∅ demo_computes demo_level demo_base st (demo_reaches _ _ Hp)) as [Hacc Hgo].
  split; [exact Hacc|]. apply Hgo.
  - intros n env. by exists (demo_answer n env).
  - intros Hset. destruct (tasks st !! "c") as [p|] eqn:Hpc; [|done]. rewrite (Hset "c" p Hpc) in Hc. done.
Defined.

Lemma failure_stops_the_level_witness : exists st st', demo_play demo_failing_run = Some st
  /\ star (dstep demo_deps demo_computes) st st' /\ "d" ∉ created st' /\ dag_outcome st' = Raised (ExecutionError "b") /\ snd (dag_result st') = ∅.
Proof.
  set (rest := [MNotice "b"; MCancelled "c"]).
  assert (Hend : (fun st => (match tasks st !! "b" with Some (Failed e false) => is_execution e && bool_decide (node_of e = "b") | _ => false end,
             (fun st' => (forallb (fun p => negb (unsettled p.2)) (map_to_list (tasks st')), dag_outcome st')) <$> play demo_deps demo_answer rest st))
            <$> demo_play demo_failing_run = Some (true, Some (true, Raised (ExecutionError "b")))) by (by vm_compute).
  apply fmap_Some in Hend as (st & Hp & Hend). apply pair_equal_spec in Hend as [Hb Hrest].
  symmetry in Hb, Hrest. apply fmap_Some in Hrest as (st' & Hp' & Hend). apply pair_equal_spec in Hend as [Hset Hout].
  pose proof (play_steps demo_deps demo_answer _ _ _ Hp') as Hstar.
  assert (Hf : tasks st !! "b" = Some (Failed (ExecutionError "b") false)).
  { clear -Hb. destruct (tasks st !! "b") as [[| | | | |[n|n] []| |]|]; try done. cbn in Hb. apply bool_decide_eq_true in Hb. by subst n. }
  destruct (failure_stops_the_level demo_deps demo_order ["d"] ∅ demo_computes demo_level demo_base st st' "b" (ExecutionError "b") false
    (demo_reaches _ _ Hp) Hf Hstar) as (Hno & _ & Hres).
  exists st, st'. split_and!; [exact Hp|exact Hstar| |symmetry; exact Hout|apply Hres, settled_check; symmetry; exact Hset].
  apply (Hno eq_refl). by apply (bool_decide_unpack _); vm_compute.
Defined.
