(* ===== verification/Jobs.v ===== *)
(** Jobs: what the job queue queues (dinkster_server/queue.py): identities,
    states, the job object and the content digest of a submission. *)
From S2P Require Import Prelude PyStr Graph GraphWire.

Local Open Scope string_scope.
Local Open Scope Z_scope.
Local Open Scope list_scope.

(** * Identity and state *)

Record JobKey := { client_id : string; job_id : string }.

#[export] Instance JobKey_eq_dec : EqDecision JobKey.
Proof. solve_decision. Defined.

#[export] Instance JobKey_countable : Countable JobKey.
Proof.
  refine (inj_countable' (fun k => (client_id k, job_id k))
    (fun p => {| client_id := p.1; job_id := p.2 |}) _).
  by intros [].
Defined.

Inductive JobState := Queued | Running | Completed | Failed | Cancelled.

#[export] Instance JobState_eq_dec : EqDecision JobState.
Proof. solve_decision. Defined.

(** [TERMINAL_STATES]. *)
Definition terminal (st : JobState) : bool :=
  match st with Completed | Failed | Cancelled => true | Queued | Running => false end.

Definition state_name (st : JobState) : string :=
  match st with
  | Queued => "queued" | Running => "running" | Completed => "completed"
  | Failed => "failed" | Cancelled => "cancelled"
  end.

(** What the queue and its store read of a run's result: the nodes by
    disposition, and the asset digests its outputs and artifacts reference. *)
Record RunResult := {
  executed : list string;
  cached : list string;
  skipped : list string;
  result_assets : list string;
}.

(** [_run_job]: not created, created and not yet stepped, in the engine, in
    [complete_result], in [settle_job], returned; or cancelled before its
    first step, in which case its body never runs. *)
Inductive run_task :=
| NoTask
| Unstarted
| Executing
| Completing
| Settling (ending : JobState) (error : option gvalue)
| Over
| NeverRan.

(** The options of a run that are part of its content digest, each in its
    wire form and None when it is left at its default. *)
Record RunOptions := {
  export_snapshot : option (gvalue * gvalue);
  previews : option (string * list (string * string));
  attention : option gvalue;
  multi_gpu : option gvalue;
  cache_enabled : bool;
}.

Record Job := {
  key : JobKey;
  graph : Graph;
  targets : list string;
  priority : Z;
  run_id : string;
  fingerprint : string;
  job_scope : string;
  project : string;
  principal_id : string;
  principal_kind : string;
  source_document : string;
  execution_identity : string;
  options : RunOptions;
  attempt : Z;
  state : JobState;
  submitted_at : Z;
  started_at : option Z;
  finished_at : option Z;
  job_result : option RunResult;
  job_error : option gvalue;
  node_receipts : list (string * list (string * string));
  task : run_task;
}.

(** Assignments to the attributes that change. *)
Definition set_progress (st : JobState) (started finished : option Z) (err : option gvalue)
  (res : option RunResult) (tk : run_task) (j : Job) : Job :=
  {| key := key j; graph := graph j; targets := targets j; priority := priority j; run_id := run_id j;
     fingerprint := fingerprint j; job_scope := job_scope j; project := project j;
     principal_id := principal_id j; principal_kind := principal_kind j;
     source_document := source_document j; execution_identity := execution_identity j;
     options := options j; attempt := attempt j; state := st; submitted_at := submitted_at j;
     started_at := started; finished_at := finished; job_result := res; job_error := err;
     node_receipts := node_receipts j; task := tk |}.

Definition set_task (tk : run_task) (j : Job) : Job :=
  set_progress (state j) (started_at j) (finished_at j) (job_error j) (job_result j) tk j.

Definition set_result (r : RunResult) (j : Job) : Job :=
  set_progress (state j) (started_at j) (finished_at j) (job_error j) (Some r) (task j) j.

(** [job.state = "running"] with its start time and its task. *)
Definition set_running (now : Z) (j : Job) : Job :=
  set_progress Running (Some now) (finished_at j) (job_error j) (job_result j) Unstarted j.

(** The first lines of [_finish]. *)
Definition set_finished (now : Z) (ending : JobState) (err : option gvalue) (j : Job) : Job :=
  set_progress ending (started_at j) (Some now) err (job_result j) (task j) j.

Definition set_receipts (receipts : list (string * list (string * string))) (j : Job) : Job :=
  {| key := key j; graph := graph j; targets := targets j; priority := priority j; run_id := run_id j;
     fingerprint := fingerprint j; job_scope := job_scope j; project := project j;
     principal_id := principal_id j; principal_kind := principal_kind j;
     source_document := source_document j; execution_identity := execution_identity j;
     options := options j; attempt := attempt j; state := state j; submitted_at := submitted_at j;
     started_at := started_at j; finished_at := finished_at j; job_result := job_result j;
     job_error := job_error j; node_receipts := receipts; task := task j |}.

(** * The content digest *)

(** [fingerprint_payload] of [submit]. *)
Definition fingerprint_payload (wire : gvalue) (targets : list string) (priority : Z)
  (source_document project : string) (o : RunOptions) : gvalue :=
  jobj ([("graph", wire); ("targets", gstrs targets); ("priority", GInt priority);
         ("sourceDocument", GStr source_document)]
    ++ field_if (negb (String.eqb project "default")) "project" (GStr project)
    ++ match export_snapshot o with
       | Some (prompt, extra) => [("exportSnapshot", jobj [("prompt", prompt); ("extraPnginfo", extra)])]
       | None => []
       end
    ++ match previews o with
       | Some (mode, nodes) => [("previews", jobj [("mode", GStr mode); ("nodes", jobj (prod_map id GStr <$> nodes))])]
       | None => []
       end
    ++ match attention o with Some w => [("attention", w)] | None => [] end
    ++ match multi_gpu o with Some w => [("singleJobMultiGpu", w)] | None => [] end
    ++ field_if (negb (cache_enabled o)) "cacheEnabled" (GBool false)).

Section digest.
(** The hexadecimal SHA-256 of the canonical JSON text. *)
Context (digest : gvalue -> string).

(** The fingerprint a submission comes with, or that of its content. *)
Definition content_fingerprint (given : string) (g : Graph) (targets : list string) (priority : Z)
  (source_document project : string) (o : RunOptions) : result wire_error string :=
  if String.eqb given ""
  then wire ← graph_to_wire g ;
       Ok (digest (fingerprint_payload wire targets priority source_document project o))
  else Ok given.
End digest.

(** * The store the queue writes through *)

(** [QueuePersistence]: a write answers the new store, or None when it
    raises and the store is as before. *)
Class QueuePersistence (D : Type) := {
  job_accepted : Job -> D -> option D;
  job_started : Job -> D -> option D;
  job_terminal : Job -> D -> option D;
}.

(** What the queue may rely on: which runs the store has as accepted and not
    ended, and which as ended; and what other users of the store may do. *)
Class DurableStore (D : Type) `{QueuePersistence D} := {
  open_runs : D -> gset string;
  ended_runs : D -> gset string;
  others : D -> D -> Prop;
  accepted_law j d d' : job_accepted j d = Some d' ->
    run_id j ∉ open_runs d /\ open_runs d' = {[run_id j]} ∪ open_runs d /\ ended_runs d' = ended_runs d;
  started_law j d d' : job_started j d = Some d' ->
    open_runs d' = open_runs d /\ ended_runs d' = ended_runs d;
  terminal_law j d d' : job_terminal j d = Some d' ->
    terminal (state j) = true
    /\ open_runs d' = open_runs d ∖ {[run_id j]} /\ ended_runs d' = {[run_id j]} ∪ ended_runs d;
  others_law d d' : others d d' -> open_runs d' = open_runs d /\ ended_runs d' ⊆ ended_runs d;
}.
