(* ===== verification/History.v ===== *)
(** History: the durable record of runs (dinkster_server/history.py) and the
    digests it holds (dinkster_assets/identity.py).  The database is its two
    tables, keyed by run id; a transaction is a function on them.  JSON
    columns hold the JSON value and times are numbers. *)
From S2P Require Import Prelude PyStr Graph GraphWire Jobs.

Local Open Scope string_scope.
Local Open Scope Z_scope.
Local Open Scope list_scope.

(** * Digests *)

Definition DIGEST_PREFIX : string := "blake3:".

Definition lower_hex (c : Ascii.ascii) : bool := in_range 48 57 c || in_range 97 102 c.

Definition newline : string := String (Ascii.ascii_of_N 10) "".

(** [_DIGEST_RE.match]: [$] also matches before a final newline. *)
Definition is_digest (text : string) : bool :=
  let hex := str_drop 7 text in
  startswith DIGEST_PREFIX text
  && ((String.length hex =? 64)%nat && str_all lower_hex hex
      || (String.length hex =? 65)%nat && str_all lower_hex (str_take 64 hex)
         && String.eqb (str_drop 64 hex) newline).

Inductive history_error :=
| NotTerminal (st : JobState)
| ReceiptKey
| AssetError (text : string)
| ScopeBlank.

Definition require_digest (text : string) : result history_error string :=
  raise_if (negb (is_digest text)) (AssetError text) ;; Ok text.

(** * Records *)

Record HistoryRecord := {
  h_run_id : string;
  h_scope : string;
  h_client_id : string;
  h_job_id : string;
  h_state : string;
  h_priority : Z;
  h_submitted_at : Z;
  h_started_at : option Z;
  h_finished_at : Z;
  h_principal_id : string;
  h_principal_kind : string;
  h_attempt : Z;
  h_source_document : string;
  h_error : option gvalue;
  h_executed : nat;
  h_cached : nat;
  h_skipped : nat;
  h_node_receipts : list (list (string * string));
  h_asset_digests : option (list string);
}.

(** A receipt as history keeps it: what ran when the job ended was
    interrupted. *)
Definition settle_receipt (receipt : list (string * string)) : result history_error (list (string * string)) :=
  match dict_get receipt "disposition" with
  | None => Err ReceiptKey
  | Some d => Ok (if String.eqb d "running" then dict_set receipt "disposition" "interrupted" else receipt)
  end.

Definition record_from_job (j : Job) : result history_error HistoryRecord :=
  raise_if (negb (terminal (state j))) (NotTerminal (state j)) ;;
  receipts ← mapM (fun node_id => settle_receipt (default [] (dict_get (node_receipts j) node_id)))
               (merge_sort String.le (keys (node_receipts j))) ;
  Ok {| h_run_id := run_id j; h_scope := job_scope j; h_client_id := client_id (key j);
        h_job_id := job_id (key j); h_state := state_name (state j); h_priority := priority j;
        h_submitted_at := submitted_at j; h_started_at := started_at j;
        h_finished_at := default 0 (finished_at j); h_principal_id := principal_id j;
        h_principal_kind := principal_kind j; h_attempt := attempt j;
        h_source_document := source_document j; h_error := job_error j;
        h_executed := from_option (length ∘ executed) 0%nat (job_result j);
        h_cached := from_option (length ∘ cached) 0%nat (job_result j);
        h_skipped := from_option (length ∘ skipped) 0%nat (job_result j);
        h_node_receipts := receipts;
        h_asset_digests := Some (from_option (fun r => sorted_set (list_to_set (result_assets r))) []
                                   (job_result j)) |}.

(** [_asset_digests] over the strings of a manifest. *)
Definition asset_digests (raw : list string) : result history_error (list string) :=
  digests ← mapM require_digest raw ; Ok (sorted_set (list_to_set digests)).

(** * The tables *)

Record AcceptedRow := {
  a_scope : string;
  a_principal : string;
  a_principal_kind : string;
  a_client_id : string;
  a_job_id : string;
  a_running : bool;
  a_priority : Z;
  a_submitted : Z;
  a_started : option Z;
  a_fingerprint : string;
  a_source_document : string;
  a_execution_identity : string;
  a_attempt : Z;
}.

Record HistoryStore := {
  t_history : gmap string HistoryRecord;
  t_accepted : gmap string AcceptedRow;
}.

Definition set_digests (ds : option (list string)) (r : HistoryRecord) : HistoryRecord :=
  {| h_run_id := h_run_id r; h_scope := h_scope r; h_client_id := h_client_id r; h_job_id := h_job_id r;
     h_state := h_state r; h_priority := h_priority r; h_submitted_at := h_submitted_at r;
     h_started_at := h_started_at r; h_finished_at := h_finished_at r; h_principal_id := h_principal_id r;
     h_principal_kind := h_principal_kind r; h_attempt := h_attempt r;
     h_source_document := h_source_document r; h_error := h_error r; h_executed := h_executed r;
     h_cached := h_cached r; h_skipped := h_skipped r; h_node_receipts := h_node_receipts r;
     h_asset_digests := ds |}.

(** [_put_locked]: the row that is there stays; whether one was added. *)
Definition put_locked (r : HistoryRecord) (t : HistoryStore) : result history_error (HistoryStore * bool) :=
  digests ← (match h_asset_digests r with
             | Some raw => Some <$> asset_digests raw
             | None => Ok None
             end) ;
  match t_history t !! h_run_id r with
  | Some _ => Ok (t, false)
  | None => Ok ({| t_history := <[h_run_id r := set_digests digests r]> (t_history t);
                   t_accepted := t_accepted t |}, true)
  end.

Definition put (r : HistoryRecord) (t : HistoryStore) : result history_error HistoryStore :=
  raise_if (String.eqb (strip (h_scope r)) "") ScopeBlank ;;
  fst <$> put_locked r t.

(** ** Durability *)

Definition accepted_row (j : Job) : AcceptedRow :=
  {| a_scope := job_scope j; a_principal := principal_id j; a_principal_kind := principal_kind j;
     a_client_id := client_id (key j); a_job_id := job_id (key j); a_running := false;
     a_priority := priority j; a_submitted := submitted_at j; a_started := None;
     a_fingerprint := fingerprint j; a_source_document := source_document j;
     a_execution_identity := execution_identity j; a_attempt := attempt j |}.

Definition mark_running (started : option Z) (row : AcceptedRow) : AcceptedRow :=
  {| a_scope := a_scope row; a_principal := a_principal row; a_principal_kind := a_principal_kind row;
     a_client_id := a_client_id row; a_job_id := a_job_id row; a_running := true;
     a_priority := a_priority row; a_submitted := a_submitted row; a_started := started;
     a_fingerprint := a_fingerprint row; a_source_document := a_source_document row;
     a_execution_identity := a_execution_identity row; a_attempt := a_attempt row |}.

Definition history_accepted (j : Job) (t : HistoryStore) : option HistoryStore :=
  match t_accepted t !! run_id j with
  | Some _ => None
  | None => Some {| t_history := t_history t; t_accepted := <[run_id j := accepted_row j]> (t_accepted t) |}
  end.

Definition history_started (j : Job) (t : HistoryStore) : option HistoryStore :=
  Some {| t_history := t_history t;
          t_accepted := alter (mark_running (started_at j)) (run_id j) (t_accepted t) |}.

Definition history_terminal (j : Job) (t : HistoryStore) : option HistoryStore :=
  match (r ← record_from_job j ; put_locked r t) with
  | Ok (t', _) => Some {| t_history := t_history t'; t_accepted := delete (run_id j) (t_accepted t') |}
  | Err _ => None
  end.

(** ** Recovery *)

Definition interrupted_error (row : AcceptedRow) : gvalue :=
  jobj ([("kind", GStr "interrupted"); ("phase", GStr (if a_running row then "running" else "queued"));
         ("message", GStr ((if a_running row then "the server exited while this job was running"
                            else "the server exited before this job started")
                           +:+ "; it was not re-run - resubmit it to run it"));
         ("fingerprint", GStr (a_fingerprint row))]
    ++ field_if (negb (String.eqb (a_execution_identity row) "")) "extensionSnapshotDigest"
         (GStr (a_execution_identity row))).

Definition interrupted_record (now : Z) (run : string) (row : AcceptedRow) : HistoryRecord :=
  {| h_run_id := run; h_scope := a_scope row; h_client_id := a_client_id row; h_job_id := a_job_id row;
     h_state := "interrupted"; h_priority := a_priority row; h_submitted_at := a_submitted row;
     h_started_at := a_started row; h_finished_at := now; h_principal_id := a_principal row;
     h_principal_kind := a_principal_kind row; h_attempt := a_attempt row;
     h_source_document := a_source_document row; h_error := Some (interrupted_error row);
     h_executed := 0; h_cached := 0; h_skipped := 0; h_node_receipts := []; h_asset_digests := None |}.

(** [ORDER BY submitted]. *)
Definition submitted_le (a b : string * AcceptedRow) : Prop := a_submitted a.2 <= a_submitted b.2.

#[export] Instance submitted_le_dec : RelDecision submitted_le.
Proof. intros a b. unfold submitted_le. apply _. Defined.

(** The loop of [recover_interrupted] over the rows. *)
Fixpoint recover_rows (now : Z) (rows : list (string * AcceptedRow)) (t : HistoryStore) :
  result history_error (HistoryStore * list HistoryRecord) :=
  match rows with
  | [] => Ok (t, [])
  | (run, row) :: rows' =>
      let r := interrupted_record now run row in
      p ← put_locked r t ;
      q ← recover_rows now rows' (fst p) ;
      Ok (fst q, if snd p : bool then r :: snd q else snd q)
  end.

Definition recover_interrupted (now : Z) (t : HistoryStore) : result history_error (HistoryStore * list HistoryRecord) :=
  p ← recover_rows now (merge_sort submitted_le (map_to_list (t_accepted t))) t ;
  Ok ({| t_history := t_history (fst p); t_accepted := ∅ |}, snd p).

(** ** Queries *)

Definition history_get (scope run : string) (t : HistoryStore) : option HistoryRecord :=
  match t_history t !! run with
  | Some r => if String.eqb (h_scope r) scope then Some r else None
  | None => None
  end.

Definition history_delete (scope run : string) (t : HistoryStore) : HistoryStore * bool :=
  match history_get scope run t with
  | Some _ => ({| t_history := delete run (t_history t); t_accepted := t_accepted t |}, true)
  | None => (t, false)
  end.

Record query_filter := { f_client : string; f_source : string; f_state : string }.

(** [_filter_clauses]: an empty filter is no filter. *)
Definition matches (scope : string) (f : query_filter) (r : HistoryRecord) : bool :=
  String.eqb (h_scope r) scope
  && (String.eqb (f_client f) "" || String.eqb (h_client_id r) (f_client f))
  && (String.eqb (f_source f) "" || String.eqb (h_source_document r) (f_source f))
  && (String.eqb (f_state f) "" || String.eqb (h_state r) (f_state f)).

Definition before_ok (before : option Z) (r : HistoryRecord) : bool :=
  match before with Some b => h_finished_at r <? b | None => true end.

Definition delete_where (scope : string) (f : query_filter) (before : option Z) (t : HistoryStore) :
  result history_error (HistoryStore * nat) :=
  raise_if (String.eqb (strip scope) "") ScopeBlank ;;
  let gone := filter (fun e : string * HistoryRecord => matches scope f e.2 && before_ok before e.2 = true) (t_history t) in
  Ok ({| t_history := t_history t ∖ gone; t_accepted := t_accepted t |}, size gone).

(** [ORDER BY finished DESC, run_id DESC]. *)
Definition newer (a b : HistoryRecord) : Prop :=
  h_finished_at b < h_finished_at a
  \/ h_finished_at a = h_finished_at b /\ String.le (h_run_id b) (h_run_id a).

#[export] Instance newer_dec : RelDecision newer.
Proof. intros a b. unfold newer. apply _. Defined.

(** [(finished < ? OR (finished = ? AND run_id < ?))]. *)
Definition after_key (after : option (Z * string)) (r : HistoryRecord) : bool :=
  match after with
  | None => true
  | Some (finished, run) =>
      (h_finished_at r <? finished)
      || (h_finished_at r =? finished) && bool_decide (String.le (h_run_id r) run /\ h_run_id r <> run)
  end.

Definition query (scope : string) (f : query_filter) (limit : Z) (after : option (Z * string))
  (t : HistoryStore) : list HistoryRecord :=
  take (Z.to_nat (Z.max 1 limit))
    (merge_sort newer (filter (fun r => matches scope f r && after_key after r = true) (map_to_list (t_history t)).*2)).

(** [handle_history_list], past its checks: a page and where the next one
    starts. *)
Definition history_page (scope : string) (f : query_filter) (limit : Z) (after : option (Z * string))
  (t : HistoryStore) : list HistoryRecord * option (Z * string) :=
  let limit := Z.min 200 (Z.max 1 limit) in
  let records := query scope f (limit + 1) after t in
  (take (Z.to_nat limit) records,
   if limit <? Z.of_nat (length records)
   then (fun r => (h_finished_at r, h_run_id r)) <$> (records !! Z.to_nat (limit - 1))
   else None).

(** A client that follows the cursors. *)
Fixpoint all_pages (fuel : nat) (scope : string) (f : query_filter) (limit : Z) (after : option (Z * string))
  (t : HistoryStore) : option (list HistoryRecord) :=
  match fuel with
  | O => None
  | S fuel' =>
      match history_page scope f limit after t with
      | (page, None) => Some page
      | (page, Some next) => app page <$> all_pages fuel' scope f limit (Some next) t
      end
  end.

(** * The tables stay keyed *)

Definition store_ok (t : HistoryStore) : Prop := map_Forall (fun run r => h_run_id r = run) (t_history t).

Lemma put_locked_spec r t t' added : put_locked r t = Ok (t', added) ->
  t_accepted t' = t_accepted t
  /\ (if added
      then t_history t !! h_run_id r = None
           /\ exists ds, t_history t' = <[h_run_id r := set_digests ds r]> (t_history t)
      else is_Some (t_history t !! h_run_id r) /\ t' = t).
Proof.
  unfold put_locked. intros Hput. apply bind_ok in Hput as (ds & _ & Hput).
  destruct (t_history t !! h_run_id r) as [r0|] eqn:Hr; simplify_eq/=.
  - split; [done|]. split; [by eexists|done].
  - split; [done|]. split; [done|by exists ds].
Qed.

Lemma put_locked_keyed r t t' added : store_ok t -> put_locked r t = Ok (t', added) -> store_ok t'.
Proof.
  intros Hok [_ Hcase]%put_locked_spec. destruct added; [|by destruct Hcase as [_ ->]].
  destruct Hcase as (_ & ds & Heq). unfold store_ok. rewrite Heq. by apply map_Forall_insert_2.
Qed.

Lemma put_locked_keeps r t t' added run x : put_locked r t = Ok (t', added) ->
  t_history t !! run = Some x -> t_history t' !! run = Some x.
Proof.
  intros [_ Hcase]%put_locked_spec Hx. destruct added; [|by destruct Hcase as [_ ->]].
  destruct Hcase as (Hnone & ds & ->). by rewrite lookup_insert_ne by (intros <-; congruence).
Qed.

Lemma history_terminal_spec j t t' : history_terminal j t = Some t' ->
  terminal (state j) = true
  /\ t_accepted t' = delete (run_id j) (t_accepted t)
  /\ is_Some (t_history t' !! run_id j)
  /\ (forall run r, t_history t !! run = Some r -> t_history t' !! run = Some r)
  /\ dom (t_history t') = {[run_id j]} ∪ dom (t_history t).
Proof.
  unfold history_terminal. destruct (record_from_job j ≫= _) as [[t1 added]|] eqn:Hput; [|done]. intros [= <-].
  apply bind_ok in Hput as (r & Hrec & Hput). unfold record_from_job in Hrec.
  apply bind_ok in Hrec as (u & Hterm%raise_if_ok & Hrec). apply negb_false_iff in Hterm.
  apply bind_ok in Hrec as (receipts & _ & Hrec). injection Hrec as Hr.
  assert (Hid : h_run_id r = run_id j) by (by subst r). clear Hr.
  pose proof (fun run x => put_locked_keeps _ _ _ _ run x Hput) as Hkeep. destruct (put_locked_spec _ _ _ _ Hput) as [Hacc Hcase]. cbn.
  split_and!; [done|by rewrite Hacc| |exact Hkeep|].
  - destruct added; [destruct Hcase as (_ & ds & ->); rewrite <- Hid, lookup_insert_eq; by eexists|].
    by destruct Hcase as [Hsome ->]; rewrite <- Hid.
  - destruct added; [destruct Hcase as (_ & ds & ->); by rewrite dom_insert_L, Hid|].
    destruct Hcase as [Hsome ->]. rewrite Hid in Hsome. apply elem_of_dom in Hsome. set_solver.
Qed.

(** ** The queue's store *)

#[export] Instance history_persistence : QueuePersistence HistoryStore := {
  job_accepted := history_accepted;
  job_started := history_started;
  job_terminal := history_terminal;
}.

(** What the HTTP surface may do to the store while the queue uses it:
    records may go. *)
Definition records_go (t t' : HistoryStore) : Prop :=
  t_accepted t' = t_accepted t /\ t_history t' ⊆ t_history t.

#[export, refine] Instance history_durable : DurableStore HistoryStore := {
  open_runs t := dom (t_accepted t);
  ended_runs t := dom (t_history t);
  others := records_go;
}.
Proof.
  - cbn. unfold history_accepted. intros j t t' Hacc. destruct (t_accepted t !! run_id j) eqn:Hrun; [done|].
    injection Hacc as <-. cbn. split_and!; [by apply not_elem_of_dom|by rewrite dom_insert_L|done].
  - cbn. intros j t t' [= <-]. cbn. by rewrite dom_alter_L.
  - cbn. intros j t t' (Hterm & Hacc & _ & _ & Hdom)%history_terminal_spec. by rewrite Hacc, dom_delete_L.
  - intros t t' [-> Hsub]. split; [done|]. by apply subseteq_dom.
Defined.

Lemma history_delete_goes scope run t : records_go t (history_delete scope run t).1.
Proof.
  unfold history_delete. destruct (history_get scope run t); cbn; [|by split].
  split; [done|]. apply delete_subseteq.
Qed.

Lemma delete_where_goes scope f before t t' n :
  delete_where scope f before t = Ok (t', n) -> records_go t t'.
Proof.
  unfold delete_where. intros Hdel. apply bind_ok in Hdel as (u & _ & [= <- _]). split; [done|]. cbn.
  apply map_subseteq_spec. intros run r. rewrite lookup_difference. by case_match.
Qed.

(** * Recovery *)

(** What is new is added to the table, what is there stays. *)
Definition add_new (now : Z) (run : string) (row : AcceptedRow) (t : HistoryStore) : HistoryStore :=
  match t_history t !! run with
  | Some _ => t
  | None => {| t_history := <[run := interrupted_record now run row]> (t_history t); t_accepted := t_accepted t |}
  end.

Lemma recover_rows_cons now run row rows t t' records :
  recover_rows now rows (add_new now run row t) = Ok (t', records) ->
  recover_rows now ((run, row) :: rows) t
  = Ok (t', match t_history t !! run with Some _ => records | None => interrupted_record now run row :: records end).
Proof.
  unfold add_new. intros Hrec. cbn [recover_rows]. unfold put_locked. cbn.
  change (set_digests None (interrupted_record now run row)) with (interrupted_record now run row).
  destruct (t_history t !! run); cbn; by rewrite Hrec.
Qed.

Lemma recover_rows_spec now rows t : NoDup rows.*1 -> exists t' records,
  recover_rows now rows t = Ok (t', records) /\ t_accepted t' = t_accepted t
  /\ (forall run, t_history t' !! run =
        match t_history t !! run with
        | Some r => Some r
        | None => interrupted_record now run <$> (list_to_map rows : gmap string AcceptedRow) !! run
        end)
  /\ (forall r, r ∈ records <-> exists run row, (run, row) ∈ rows /\ t_history t !! run = None
                                 /\ r = interrupted_record now run row).
Proof.
  revert t. induction rows as [|[run row] rows IH]; intros t Hnd.
  - exists t, []. cbn. split_and!; [done|done| |].
    + intros run. rewrite lookup_empty. by destruct (t_history t !! run).
    + intros r. split; [by intros ?%not_elem_of_nil|]. by intros (? & ? & ?%not_elem_of_nil & _).
  - apply NoDup_cons in Hnd as [Hno Hnd].
    destruct (IH (add_new now run row t) Hnd) as (t' & records & Hrun & Hacc & Hlook & Hrec).
    eexists t', _. split; [by apply recover_rows_cons|]. unfold add_new in *.
    destruct (t_history t !! run) as [r0|] eqn:Hr; cbn in *.
    + split_and!; [done| |].
      * intros run'. rewrite Hlook. destruct (t_history t !! run') eqn:Hr'; [done|].
        by rewrite lookup_insert_ne by (intros ->; congruence).
      * intros r. rewrite Hrec. setoid_rewrite elem_of_cons. split; [naive_solver|].
        intros (run' & row' & [[= -> ->]|Hin] & Hnone & ->); [congruence|eauto].
    + split_and!; [done| |].
      * intros run'. rewrite Hlook, !lookup_insert. case_decide as Heq; [subst run'; by rewrite Hr|done].
      * intros r. rewrite elem_of_cons, Hrec. setoid_rewrite elem_of_cons. split.
        -- intros [->|(run' & row' & Hin & Hnone & ->)]; [eauto 10|]. rewrite lookup_insert in Hnone.
           case_decide; [done|]. eauto 10.
        -- intros (run' & row' & [[= -> ->]|Hin] & Hnone & ->); [auto|]. right. exists run', row'.
           rewrite lookup_insert_ne; [auto|]. intros ->. apply Hno, list_elem_of_fmap. by exists (run', row').
Qed.

(** ** Pages *)

#[export] Instance newer_total : Total newer.
Proof.
  intros a b. unfold newer. destruct (Z.lt_trichotomy (h_finished_at a) (h_finished_at b)) as [|[|]]; auto.
  destruct (total String.le (h_run_id a) (h_run_id b)); auto.
Qed.

#[export] Instance newer_trans : Transitive newer.
Proof.
  intros a b c [|[]] [|[]]; unfold newer; try (left; lia). right. split; [lia|]. by etrans.
Qed.

Lemma newer_antisym a b : newer a b -> newer b a -> h_run_id a = h_run_id b.
Proof. intros [|[]] [|[]]; try lia. by apply (anti_symm String.le). Qed.

(** All the records of a query, in its order. *)
Definition matching (scope : string) (f : query_filter) (t : HistoryStore) : list HistoryRecord :=
  merge_sort newer (filter (fun r => matches scope f r = true) (map_to_list (t_history t)).*2).

Lemma matching_sorted scope f t : StronglySorted newer (matching scope f t).
Proof. apply StronglySorted_merge_sort; apply _. Qed.

Lemma matching_elem scope f t r :
  r ∈ matching scope f t <-> (exists run, t_history t !! run = Some r) /\ matches scope f r = true.
Proof.
  unfold matching. rewrite merge_sort_Permutation, list_elem_of_filter, list_elem_of_fmap. split.
  - intros [Hm ([run r'] & -> & Hin%elem_of_map_to_list)]. split; [by exists run|done].
  - intros [[run Hr] Hm]. split; [done|]. exists (run, r). split; [done|]. by apply elem_of_map_to_list.
Qed.

Lemma matching_ids scope f t : store_ok t -> NoDup (h_run_id <$> matching scope f t).
Proof.
  intros Hok. unfold matching. rewrite merge_sort_Permutation.
  assert (Hids : h_run_id <$> (map_to_list (t_history t)).*2 = (map_to_list (t_history t)).*1).
  { rewrite <- list_fmap_compose. apply list_fmap_ext. intros i [run r] Hi. cbn.
    apply list_elem_of_lookup_2, elem_of_map_to_list in Hi. by apply Hok in Hi. }
  eapply sublist_NoDup; [|apply fmap_sublist, sublist_filter]. rewrite Hids. apply NoDup_fst_map_to_list.
Qed.

Lemma NoDup_fmap_elem {A B} (f : A -> B) l x y : NoDup (f <$> l) -> x ∈ l -> y ∈ l -> f x = f y -> x = y.
Proof.
  intros Hnd [i Hi]%list_elem_of_lookup [k Hk]%list_elem_of_lookup Heq.
  assert (i = k) as ->; [|congruence]. eapply (NoDup_lookup (f <$> l)); [done| |]; rewrite list_lookup_fmap.
  - by rewrite Hi.
  - by rewrite Hk, Heq.
Qed.

(** Filtering after sorting is filtering before it. *)
Lemma sort_filtered scope f after t : store_ok t ->
  merge_sort newer (filter (fun r => matches scope f r && after_key after r = true) (map_to_list (t_history t)).*2)
  = filter (fun r => after_key after r = true) (matching scope f t).
Proof.
  intros Hok. apply (StronglySorted_unique_strong newer).
  - intros a b Ha Hb Hab Hba. rewrite merge_sort_Permutation in Ha.
    assert (Hin : forall x, x ∈ filter (fun r => matches scope f r && after_key after r = true) (map_to_list (t_history t)).*2 ->
      x ∈ matching scope f t).
    { intros x [Hm Hx]%list_elem_of_filter. apply andb_true_iff in Hm as [Hm _].
      unfold matching. rewrite merge_sort_Permutation. by apply list_elem_of_filter. }
    apply Hin in Ha. apply list_elem_of_filter in Hb as [_ Hb].
    apply (NoDup_fmap_elem h_run_id (matching scope f t)); [by apply matching_ids|done|done|by apply newer_antisym].
  - apply StronglySorted_merge_sort; apply _.
  - apply StronglySorted_filter, matching_sorted.
  - rewrite merge_sort_Permutation. unfold matching. rewrite merge_sort_Permutation.
    rewrite list_filter_filter. apply Permutation_refl', list_filter_iff. intros r. rewrite andb_true_iff. tauto.
Qed.

Lemma filter_split {A} (Q : A -> Prop) `{!forall x, Decision (Q x)} l1 l2 :
  (forall x, x ∈ l1 -> ~ Q x) -> (forall x, x ∈ l2 -> Q x) -> filter Q (l1 ++ l2) = l2.
Proof.
  intros H1 H2. rewrite filter_app. assert (filter Q l1 = []) as ->.
  { destruct (filter Q l1) as [|x l] eqn:E; [done|]. assert (Hx : x ∈ filter Q l1) by (rewrite E; constructor).
    apply list_elem_of_filter in Hx as [? ?]. by destruct (H1 x). }
  cbn. clear H1. induction l2 as [|x l IH]; [done|]. rewrite filter_cons_True by (apply H2; constructor).
  f_equal. apply IH. intros y Hy. apply H2. by right.
Qed.

Lemma after_key_spec r x : after_key (Some (h_finished_at r, h_run_id r)) x = true <->
  newer r x /\ h_run_id x <> h_run_id r \/ h_finished_at x < h_finished_at r.
Proof.
  cbn. rewrite orb_true_iff, andb_true_iff, bool_decide_eq_true, Z.ltb_lt, Z.eqb_eq. unfold newer.
  split; [intros [|(? & ? & ?)]; auto|]. intros [[[|[]] ?]|]; auto.
Qed.

(** Where a record ends a page, the next one starts right after it. *)
Lemma after_record scope f t i r : store_ok t -> matching scope f t !! i = Some r ->
  filter (fun x => after_key (Some (h_finished_at r, h_run_id r)) x = true) (matching scope f t)
  = drop (S i) (matching scope f t).
Proof.
  intros Hok Hi. pose proof (matching_sorted scope f t) as Hs. pose proof (matching_ids scope f t Hok) as Hnd.
  rewrite <- (take_drop (S i) (matching scope f t)) in Hs, Hnd |- * at 1.
  rewrite (take_S_r _ _ _ Hi) in Hs, Hnd |- *. set (l1 := take i _) in *. set (l2 := drop (S i) _) in *.
  apply StronglySorted_app in Hs as (Hcross & Hs1 & _). apply StronglySorted_app in Hs1 as (Hbefore & _ & _).
  rewrite fmap_app in Hnd. apply NoDup_app in Hnd as (_ & Hdis & _).
  apply filter_split.
  - intros x [Hx| ->%list_elem_of_singleton]%elem_of_app Hkey; apply after_key_spec in Hkey.
    + pose proof (Hbefore x r Hx ltac:(by constructor)) as Hxr. destruct Hkey as [[Hrx Hne]|Hlt].
      * destruct Hne. by apply newer_antisym.
      * destruct Hxr as [|[]]; lia.
    + destruct Hkey as [[_ Hne]|Hlt]; [done|lia].
  - intros x Hx. apply after_key_spec. left. split; [apply Hcross; [|done]; apply elem_of_app; right; by constructor|].
    intros Heq. apply (Hdis (h_run_id r)); [rewrite fmap_app; apply elem_of_app; right; by constructor|].
    rewrite <- Heq. apply list_elem_of_fmap. by exists x.
Qed.

(** The cursor that continues at the [k]-th record. *)
Definition continues (l : list HistoryRecord) (k : nat) (after : option (Z * string)) : Prop :=
  match k with
  | O => after = None
  | S i => exists r, l !! i = Some r /\ after = Some (h_finished_at r, h_run_id r)
  end.

Lemma query_continues scope f t k after limit : store_ok t -> continues (matching scope f t) k after ->
  query scope f limit after t = take (Z.to_nat (Z.max 1 limit)) (drop k (matching scope f t)).
Proof.
  intros Hok Hk. unfold query. rewrite sort_filtered by done. f_equal. destruct k as [|i].
  - rewrite Hk. rewrite drop_0. apply (filter_split _ [] (matching scope f t)); [by intros ? ?%not_elem_of_nil|done].
  - destruct Hk as (r & Hi & ->). by apply after_record.
Qed.

Lemma pages_from scope f limit t k after fuel : store_ok t -> continues (matching scope f t) k after ->
  (length (matching scope f t) - k < fuel)%nat ->
  all_pages fuel scope f limit after t = Some (drop k (matching scope f t)).
Proof.
  intros Hok. revert k after. induction fuel as [|fuel IH]; intros k after Hk Hfuel; [lia|].
  cbn [all_pages]. unfold history_page. rewrite (query_continues _ _ _ _ _ _ Hok Hk).
  set (m := Z.min 200 (Z.max 1 limit)). set (L := matching scope f t) in *.
  assert (Hm : 1 <= m) by lia. replace (Z.max 1 (m + 1)) with (m + 1) by lia.
  assert (Hn : Z.to_nat (m + 1) = S (Z.to_nat m)) by lia.
  assert (Htake : take (Z.to_nat m) (take (Z.to_nat (m + 1)) (drop k L)) = take (Z.to_nat m) (drop k L))
    by (rewrite take_take; f_equal; lia).
  rewrite Htake. destruct (Z.ltb_spec m (Z.of_nat (length (take (Z.to_nat (m + 1)) (drop k L))))) as [Hlt|Hge].
  - rewrite length_take, length_drop in Hlt.
    destruct (lookup_lt_is_Some_2 L (k + Z.to_nat (m - 1))) as [r Hr]; [lia|].
    rewrite lookup_take, lookup_drop, Hr, decide_True by lia. cbn.
    rewrite (IH (k + Z.to_nat m)%nat).
    + cbn. f_equal. rewrite <- drop_drop. apply take_drop.
    + replace (k + Z.to_nat m)%nat with (S (k + Z.to_nat (m - 1))) by lia. cbn. by exists r.
    + lia.
  - f_equal. rewrite length_take, length_drop in Hge. apply take_ge. rewrite length_drop. lia.
Qed.

(** * Runs of the store *)

Inductive history_step : HistoryStore -> HistoryStore -> Prop :=
| hs_put r t t' : put r t = Ok t' -> history_step t t'
| hs_accepted j t t' : history_accepted j t = Some t' -> history_step t t'
| hs_started j t t' : history_started j t = Some t' -> history_step t t'
| hs_terminal j t t' : history_terminal j t = Some t' -> history_step t t'
| hs_recover now t t' records : recover_interrupted now t = Ok (t', records) -> history_step t t'
| hs_delete scope run t : history_step t (history_delete scope run t).1
| hs_delete_where scope f before t t' n : delete_where scope f before t = Ok (t', n) -> history_step t t'.

Definition empty_history : HistoryStore := {| t_history := ∅; t_accepted := ∅ |}.

Lemma records_go_ok t t' : store_ok t -> records_go t t' -> store_ok t'.
Proof. intros Hok [_ Hsub] run r Hr. apply Hok. by eapply lookup_weaken. Qed.

Lemma recovered_records now t t' records : recover_interrupted now t = Ok (t', records) ->
  forall run, t_history t' !! run =
    match t_history t !! run with
    | Some r => Some r
    | None => interrupted_record now run <$> t_accepted t !! run
    end.
Proof.
  unfold recover_interrupted. set (rows := merge_sort _ _). intros Hrec run.
  assert (Hperm : rows ≡ₚ map_to_list (t_accepted t)) by apply merge_sort_Permutation.
  assert (Hnd : NoDup rows.*1) by (rewrite Hperm; apply NoDup_fst_map_to_list).
  destruct (recover_rows_spec now rows t Hnd) as (t1 & rs & Hrun & _ & Hlook & _).
  rewrite Hrun in Hrec. injection Hrec as <- _. cbn. rewrite Hlook. destruct (t_history t !! run); [done|]. f_equal.
  rewrite (list_to_map_proper rows (map_to_list (t_accepted t))) by done. by rewrite list_to_map_to_list.
Qed.

Lemma recover_answers now t : exists t' records, recover_interrupted now t = Ok (t', records) /\ t_accepted t' = ∅.
Proof.
  unfold recover_interrupted. set (rows := merge_sort _ _).
  assert (Hperm : rows ≡ₚ map_to_list (t_accepted t)) by apply merge_sort_Permutation.
  assert (Hnd : NoDup rows.*1) by (rewrite Hperm; apply NoDup_fst_map_to_list).
  destruct (recover_rows_spec now rows t Hnd) as (t1 & rs & Hrun & _). rewrite Hrun. by eexists _, _.
Qed.

Lemma history_step_ok t t' : store_ok t -> history_step t t' -> store_ok t'.
Proof.
  intros Hok Hstep. revert Hok. destruct Hstep as [r t0 t1 Hput|j t0 t1 Hacc|j t0 t1 Hst|j t0 t1 Hterm
    |now t0 t1 records Hrec|scope run t0|scope f before t0 t1 n Hdel]; intros Hok.
  - unfold put in Hput. apply bind_ok in Hput as (u & _ & Hput).
    destruct (put_locked r t0) as [[t2 added]|] eqn:Hl; [|done]. injection Hput as <-. exact (put_locked_keyed _ _ _ _ Hok Hl).
  - unfold history_accepted in Hacc. destruct (t_accepted t0 !! run_id j); by simplify_eq.
  - by injection Hst as <-.
  - unfold history_terminal in Hterm. destruct (record_from_job j ≫= _) as [[t2 added]|] eqn:Hput; [|done].
    injection Hterm as <-. apply bind_ok in Hput as (r & _ & Hput). exact (put_locked_keyed _ _ _ _ Hok Hput).
  - intros run r. rewrite (recovered_records _ _ _ _ Hrec). destruct (t_history t0 !! run) eqn:Hr.
    + intros [= <-]. by apply Hok in Hr.
    + by intros (row & _ & ->)%fmap_Some.
  - eapply records_go_ok; [done|apply history_delete_goes].
  - eapply records_go_ok; [done|by eapply delete_where_goes].
Qed.

Lemma history_reachable_ok t : star history_step empty_history t -> store_ok t.
Proof.
  intros Hs. eapply (star_invariant history_step store_ok); [|exact Hs|apply map_Forall_empty].
  intros a b Ha Hab. by eapply history_step_ok.
Qed.

(** * Properties *)

(** Paging loses nothing and repeats nothing: a client that follows the
    cursors of the listing, whatever page size it asks for, reaches a last
    page within one request more than there are records, and has then been
    given every record of its scope that its filters match, once, the newest
    first. *)
Theorem pages_cover_the_history scope f limit t : star history_step empty_history t ->
  exists records, all_pages (S (size (t_history t))) scope f limit None t = Some records
    /\ StronglySorted newer records /\ NoDup records
    /\ forall r, r ∈ records <-> (exists run, t_history t !! run = Some r) /\ matches scope f r = true.
Proof.
  intros Hok%history_reachable_ok. exists (matching scope f t). split_and!.
  - rewrite (pages_from scope f limit t 0 None); [by rewrite drop_0|done|done|].
    unfold matching. rewrite merge_sort_Permutation.
    pose proof (length_filter (fun r => matches scope f r = true) (map_to_list (t_history t)).*2) as Hlen.
    rewrite length_fmap, length_map_to_list in Hlen. lia.
  - apply matching_sorted.
  - eapply NoDup_fmap_1, matching_ids, Hok.
  - apply matching_elem.
Qed.

(** Starting after a crash settles every job the dead process had
    accepted: the accepted table is empty, each of its jobs is in the history
    as interrupted, with whether it had started, unless the job had already
    ended there, no record that was there changes, nothing else is added,
    and starting again finds nothing to do. *)
Theorem recovery_settles_every_job now t : exists t' records,
  recover_interrupted now t = Ok (t', records) /\ t_accepted t' = ∅
  /\ (forall run, t_history t' !! run =
        match t_history t !! run with
        | Some r => Some r
        | None => interrupted_record now run <$> t_accepted t !! run
        end)
  /\ (forall r, r ∈ records <-> exists run row, t_accepted t !! run = Some row /\ t_history t !! run = None
                                 /\ r = interrupted_record now run row)
  /\ forall later, recover_interrupted later t' = Ok (t', []).
Proof.
  set (rows := merge_sort submitted_le (map_to_list (t_accepted t))).
  assert (Hperm : rows ≡ₚ map_to_list (t_accepted t)) by apply merge_sort_Permutation.
  assert (Hnd : NoDup rows.*1) by (rewrite Hperm; apply NoDup_fst_map_to_list).
  destruct (recover_rows_spec now rows t Hnd) as (t1 & records & Hrun & _ & Hlook & Hrec).
  assert (Hstart : recover_interrupted now t = Ok ({| t_history := t_history t1; t_accepted := ∅ |}, records))
    by (unfold recover_interrupted; fold rows; by rewrite Hrun).
  eexists _, records. split_and!; [exact Hstart|done|by apply (recovered_records _ _ _ _ Hstart)| |done].
  intros r. rewrite Hrec. setoid_rewrite Hperm. by setoid_rewrite elem_of_map_to_list.
Qed.

(** A digest with a line break after it passes for canonical. *)
Lemma digest_with_newline : is_digest (DIGEST_PREFIX +:+ Nat.iter 64 (String (Ascii.ascii_of_N 48)) newline) = true.
Proof. done. Qed.

(** * Witness *)

Definition demo_run (run : string) (finished : Z) : HistoryRecord :=
  {| h_run_id := run; h_scope := "local"; h_client_id := "ui"; h_job_id := run; h_state := "completed";
     h_priority := 0; h_submitted_at := 0; h_started_at := None; h_finished_at := finished;
     h_principal_id := "local"; h_principal_kind := "human"; h_attempt := 1; h_source_document := "";
     h_error := None; h_executed := 0; h_cached := 0; h_skipped := 0; h_node_receipts := [];
     h_asset_digests := None |}.

Definition put_all (rs : list HistoryRecord) (t : HistoryStore) : HistoryStore :=
  foldl (fun t r => match put r t with Ok t' => t' | Err _ => t end) t rs.

Lemma put_all_runs rs t : star history_step t (put_all rs t).
Proof.
  revert t. induction rs as [|r rs IH]; intros t; [apply star_refl|]. cbn.
  destruct (put r t) as [t'|] eqn:Hput; [|apply IH]. eapply star_step; [by eapply hs_put|apply IH].
Qed.

Definition demo_history : HistoryStore := flip put_all empty_history
    [demo_run "a" 5; demo_run "b" 9; demo_run "c" 5; demo_run "d" 7].

(** Four runs, two of them finished at the same time, two to a page. *)
Lemma pages_cover_the_history_witness :
  exists records, all_pages 5 "local" {| f_client := ""; f_source := ""; f_state := "" |} 2 None demo_history
    = Some records /\ NoDup records /\ h_run_id <$> records = ["b"; "d"; "c"; "a"].
Proof.
  destruct (pages_cover_the_history "local" {| f_client := ""; f_source := ""; f_state := "" |} 2 demo_history)
    as (records & Hpages & _ & Hnd & _).
  - apply put_all_runs.
  - exists records. split; [exact Hpages|split; [exact Hnd|]].
    vm_compute in Hpages. injection Hpages as <-. reflexivity.
Defined.
