(* ===== verification/Queue.v ===== *)
(** Queue: the job queue (dinkster_server/queue.py) over its durable store.
    Jobs are shared objects: [heap] is every job made, by its run id, and the
    tables hold run ids.  The queue runs on one event loop, so an operation is
    a function and a job's coroutine is a function per stretch between its
    awaits; [qstep] interleaves them.  The engine, [complete_result] and
    [settle_job] end however they like; the listener is the list of the
    transitions it was told, and does not raise. *)
From S2P Require Import Prelude PyStr Graph GraphWire Lower Jobs History.

Local Open Scope string_scope.
Local Open Scope Z_scope.
Local Open Scope list_scope.

(** * State *)

Inductive dispatcher_task := NotStarted | Dispatching | Stopped.

(** What jobs are filed under, and what leaves the queue. *)
Record Tables (D : Type) := {
  heap : gmap string Job;
  jobs : gmap JobKey string;
  order : gmap JobKey nat;
  next_seq : nat;
  by_run : gmap string JobKey;
  history : list string;
  q_store : option D;
  emitted : list (string * JobState);
}.
Arguments heap {D}. Arguments jobs {D}. Arguments order {D}. Arguments next_seq {D}.
Arguments by_run {D}. Arguments history {D}. Arguments q_store {D}. Arguments emitted {D}.

Record JobQueue (D : Type) := {
  max_running : nat;
  history_limit : nat;
  tabs : Tables D;
  pending : list string;
  running : gset JobKey;
  paused : bool;
  maintenance : bool;
  wakeup : bool;
  dispatcher : dispatcher_task;
  closed : bool;
}.
Arguments max_running {D}. Arguments history_limit {D}. Arguments tabs {D}. Arguments pending {D}.
Arguments running {D}. Arguments paused {D}. Arguments maintenance {D}. Arguments wakeup {D}.
Arguments dispatcher {D}. Arguments closed {D}.

Inductive submit_error :=
| QueueClosed
| LoweringRaised (exception : string)
| SelectorProblem (p : LoweringProblem)
| SelectorResidue
| NotSendable (e : wire_error)
| KeyInUse (st : JobState)
| NotRecorded.

Inductive queue_error := BadMaxRunning | BadHistoryLimit | MaintenanceActive.

Section queue.
Context {D : Type} `{QueuePersistence D}.
Context (digest : gvalue -> string) (completes settles : bool).
Implicit Types (q : JobQueue D) (tb : Tables D) (run : string).

(** ** The tables *)

Definition with_heap (h : gmap string Job) tb : Tables D :=
  {| heap := h; jobs := jobs tb; order := order tb; next_seq := next_seq tb; by_run := by_run tb;
     history := history tb; q_store := q_store tb; emitted := emitted tb |}.

Definition update_job run (f : Job -> Job) tb : Tables D := with_heap (alter f run (heap tb)) tb.

Definition with_history (h : list string) tb : Tables D :=
  {| heap := heap tb; jobs := jobs tb; order := order tb; next_seq := next_seq tb; by_run := by_run tb;
     history := h; q_store := q_store tb; emitted := emitted tb |}.

(** [_emit]. *)
Definition emit run tb : Tables D :=
  match heap tb !! run with
  | Some j => {| heap := heap tb; jobs := jobs tb; order := order tb; next_seq := next_seq tb;
                 by_run := by_run tb; history := history tb; q_store := q_store tb;
                 emitted := emitted tb ++ [(run, state j)] |}
  | None => tb
  end.

(** A write whose failure is logged: [io] says whether it could be done. *)
Definition write (io : bool) (w : Job -> D -> option D) run tb : Tables D :=
  match q_store tb, heap tb !! run with
  | Some d, Some j =>
      {| heap := heap tb; jobs := jobs tb; order := order tb; next_seq := next_seq tb; by_run := by_run tb;
         history := history tb; q_store := Some (if io then default d (w j d) else d); emitted := emitted tb |}
  | _, _ => tb
  end.

(** One terminal job too many leaves the tables. *)
Definition drop_evicted run tb : Tables D :=
  match heap tb !! run with
  | Some j =>
      let current := bool_decide (jobs tb !! key j = Some run) in
      {| heap := heap tb;
         jobs := if current then delete (key j) (jobs tb) else jobs tb;
         order := if current then delete (key j) (order tb) else order tb;
         next_seq := next_seq tb; by_run := delete run (by_run tb);
         history := history tb; q_store := q_store tb; emitted := emitted tb |}
  | None => tb
  end.

Fixpoint evict_loop (n : nat) tb : Tables D :=
  match n with
  | O => tb
  | S n' =>
      match history tb with
      | [] => tb
      | run :: rest => evict_loop n' (drop_evicted run (with_history rest tb))
      end
  end.

Definition evict (limit : nat) tb : Tables D := evict_loop (length (history tb) - limit) tb.

(** [_finish]. *)
Definition finish (limit : nat) (io : bool) (now : Z) run (ending : JobState) (err : option gvalue) tb : Tables D :=
  let tb := update_job run (set_finished now ending err) tb in
  let tb := write io job_terminal run tb in
  emit run (evict limit (with_history (history tb ++ [run]) tb)).

(** ** The queue *)

Definition with_tabs tb q : JobQueue D :=
  {| max_running := max_running q; history_limit := history_limit q; tabs := tb; pending := pending q;
     running := running q; paused := paused q; maintenance := maintenance q; wakeup := wakeup q;
     dispatcher := dispatcher q; closed := closed q |}.

Definition with_pending (p : list string) q : JobQueue D :=
  {| max_running := max_running q; history_limit := history_limit q; tabs := tabs q; pending := p;
     running := running q; paused := paused q; maintenance := maintenance q; wakeup := wakeup q;
     dispatcher := dispatcher q; closed := closed q |}.

Definition with_running (r : gset JobKey) q : JobQueue D :=
  {| max_running := max_running q; history_limit := history_limit q; tabs := tabs q; pending := pending q;
     running := r; paused := paused q; maintenance := maintenance q; wakeup := wakeup q;
     dispatcher := dispatcher q; closed := closed q |}.

Definition with_wakeup (w : bool) q : JobQueue D :=
  {| max_running := max_running q; history_limit := history_limit q; tabs := tabs q; pending := pending q;
     running := running q; paused := paused q; maintenance := maintenance q; wakeup := w;
     dispatcher := dispatcher q; closed := closed q |}.

Definition with_dispatcher (t : dispatcher_task) q : JobQueue D :=
  {| max_running := max_running q; history_limit := history_limit q; tabs := tabs q; pending := pending q;
     running := running q; paused := paused q; maintenance := maintenance q; wakeup := wakeup q;
     dispatcher := t; closed := closed q |}.

Definition with_switches (p m : bool) q : JobQueue D :=
  {| max_running := max_running q; history_limit := history_limit q; tabs := tabs q; pending := pending q;
     running := running q; paused := p; maintenance := m; wakeup := wakeup q;
     dispatcher := dispatcher q; closed := closed q |}.

(** [__init__]. *)
Definition queue_init (max limit : Z) (d : option D) : result queue_error (JobQueue D) :=
  raise_if (max <? 1) BadMaxRunning ;;
  raise_if (limit <? 1) BadHistoryLimit ;;
  Ok {| max_running := Z.to_nat max; history_limit := Z.to_nat limit;
        tabs := {| heap := ∅; jobs := ∅; order := ∅; next_seq := 0; by_run := ∅; history := [];
                   q_store := d; emitted := [] |};
        pending := []; running := ∅; paused := false; maintenance := false; wakeup := false;
        dispatcher := NotStarted; closed := false |}.

Definition start q : JobQueue D :=
  match dispatcher q with NotStarted => with_dispatcher Dispatching q | _ => q end.

(** ** Submission *)

(** The graph must be lowered already. *)
Definition admit_graph (schemas : string -> option Schema.NodeSchema) (g : Graph) (targets : list string) :
  result submit_error unit :=
  match lower_selectors schemas g targets with
  | None => Err (LoweringRaised "out of fuel")
  | Some (Err e) => Err (LoweringRaised e)
  | Some (Ok lowered) =>
      match lr_problems lowered with
      | p :: _ => Err (SelectorProblem p)
      | [] => raise_if (negb (bool_decide (lr_graph lowered = g /\ lr_targets lowered = targets))) SelectorResidue
      end
  end.

(** What a caller submits. *)
Record submission := {
  s_key : JobKey;
  s_graph : Graph;
  s_targets : list string;
  s_priority : Z;
  s_scope : string;
  s_project : string;
  s_principal : string;
  s_kind : string;
  s_source : string;
  s_fingerprint : string;
  s_execution : string;
  s_options : RunOptions;
}.

Definition new_job (s : submission) (ref fp : string) (now : Z) : Job :=
  {| key := s_key s; graph := s_graph s; targets := s_targets s; priority := s_priority s; run_id := ref;
     fingerprint := fp; job_scope := s_scope s; project := s_project s; principal_id := s_principal s;
     principal_kind := s_kind s; source_document := s_source s; execution_identity := s_execution s;
     options := s_options s; attempt := 1; state := Queued; submitted_at := now; started_at := None;
     finished_at := None; job_result := None; job_error := None; node_receipts := []; task := NoTask |}.

(** The terminal job a key had leaves the tables. *)
Definition retire (existing : option string) tb : Tables D :=
  match existing with
  | Some run =>
      {| heap := heap tb; jobs := jobs tb; order := order tb; next_seq := next_seq tb;
         by_run := delete run (by_run tb); history := filter (fun r => r <> run) (history tb);
         q_store := q_store tb; emitted := emitted tb |}
  | None => tb
  end.

Definition file_job (j : Job) (st : option D) tb : Tables D :=
  {| heap := <[run_id j := j]> (heap tb); jobs := <[key j := run_id j]> (jobs tb);
     order := <[key j := next_seq tb]> (order tb); next_seq := S (next_seq tb);
     by_run := <[run_id j := key j]> (by_run tb); history := history tb; q_store := st;
     emitted := emitted tb |}.

(** [job_accepted], whose failure refuses the submission. *)
Definition record_accepted (io : bool) (j : Job) (st : option D) : result submit_error (option D) :=
  match st with
  | None => Ok None
  | Some d => match (if io then job_accepted j d else None) with
              | Some d' => Ok (Some d')
              | None => Err NotRecorded
              end
  end.

(** [submit]; [ref] is the minted reference. *)
Definition submit (io : bool) (schemas : string -> option Schema.NodeSchema) (ref : string) (now : Z)
  (s : submission) q : result submit_error (string * JobQueue D) :=
  raise_if (closed q) QueueClosed ;;
  admit_graph schemas (s_graph s) (s_targets s) ;;
  match content_fingerprint digest (s_fingerprint s) (s_graph s) (s_targets s) (s_priority s) (s_source s)
          (s_project s) (s_options s) with
  | Err e => Err (NotSendable e)
  | Ok fp =>
      let existing := jobs (tabs q) !! s_key s in
      match existing ≫= (heap (tabs q) !!.) with
      | Some e =>
          if negb (terminal (state e))
          then if String.eqb (fingerprint e) fp then Ok (run_id e, q) else Err (KeyInUse (state e))
          else
            let j := new_job s ref fp now in
            st ← record_accepted io j (q_store (tabs q)) ;
            Ok (ref, with_wakeup true (with_pending (pending q ++ [ref])
                       (with_tabs (emit ref (file_job j st (retire existing (tabs q)))) q)))
      | None =>
          let j := new_job s ref fp now in
          st ← record_accepted io j (q_store (tabs q)) ;
          Ok (ref, with_wakeup true (with_pending (pending q ++ [ref])
                     (with_tabs (emit ref (file_job j st (tabs q))) q)))
      end
  end.

(** ** What callers read *)

Definition job_at tb run : option Job := heap tb !! run.

Definition get (k : JobKey) q : option Job := jobs (tabs q) !! k ≫= job_at (tabs q).

Definition job_for_run run q : option Job := by_run (tabs q) !! run ≫= (fun k => get k q).

Definition order_of tb run : nat :=
  match job_at tb run with Some j => default 0%nat (order tb !! key j) | None => 0%nat end.

Definition order_le tb (a b : string) : Prop := (order_of tb a <= order_of tb b)%nat.

#[local] Instance order_le_dec tb : RelDecision (order_le tb).
Proof. intros a b. unfold order_le. apply _. Defined.

Definition job_list (client : option string) q : list Job :=
  filter (fun j => match client with Some c => bool_decide (client_id (key j) = c) | None => true end = true)
    (omap (job_at (tabs q)) (merge_sort (order_le (tabs q)) (map_to_list (jobs (tabs q))).*2)).

Definition priority_of tb run : Z := from_option priority 0 (job_at tb run).

(** The sort key of dispatch, [(-priority, order)]. *)
Definition dispatch_le tb (a b : string) : Prop :=
  priority_of tb b < priority_of tb a
  \/ priority_of tb b = priority_of tb a /\ (order_of tb a <= order_of tb b)%nat.

#[local] Instance dispatch_le_dec tb : RelDecision (dispatch_le tb).
Proof. intros a b. unfold dispatch_le. apply _. Defined.

(** [pending()], in dispatch order. *)
Definition pending_order q : list string := merge_sort (dispatch_le (tabs q)) (pending q).

Definition running_list q : list string :=
  merge_sort (order_le (tabs q)) (omap (fun k => jobs (tabs q) !! k) (elements (running q))).

(** ** Control *)

Definition pause q : JobQueue D := with_switches true (maintenance q) q.

Definition resume q : result queue_error (JobQueue D) :=
  raise_if (maintenance q) MaintenanceActive ;;
  Ok (with_wakeup true (with_switches false (maintenance q) q)).

(** The problem it answers, or None. *)
Definition begin_maintenance q : JobQueue D * option string :=
  if maintenance q then (q, Some "queue maintenance is already active")
  else if negb (paused q) then (q, Some "queue must be paused before memory maintenance")
  else if negb (bool_decide (running q = ∅)) then (q, Some "queue must be idle before memory maintenance")
  else (with_switches (paused q) true q, None).

Definition end_maintenance q : JobQueue D := with_switches (paused q) false q.

Definition set_max_running (n : Z) q : result queue_error (JobQueue D) :=
  raise_if (n <? 1) BadMaxRunning ;;
  let raised := Z.of_nat (max_running q) <? n in
  let q' := {| max_running := Z.to_nat n; history_limit := history_limit q; tabs := tabs q;
               pending := pending q; running := running q; paused := paused q;
               maintenance := maintenance q; wakeup := wakeup q || raised;
               dispatcher := dispatcher q; closed := closed q |} in
  Ok q'.

(** [self._pending.remove(job)]. *)
Definition remove_pending run q : JobQueue D := with_pending (filter (fun r => r <> run) (pending q)) q.

Definition finish_in (io : bool) (now : Z) run (ending : JobState) (err : option gvalue) q : JobQueue D :=
  with_tabs (finish (history_limit q) io now run ending err (tabs q)) q.

(** A queued job is cancelled: it leaves [_pending] and is finished. *)
Definition cancel_queued (io : bool) (now : Z) run q : JobQueue D :=
  finish_in io now run Cancelled None (remove_pending run q).

(** [task.cancel()]. A coroutine that has not taken its first step is never
    entered; otherwise what it awaits decides how it ends. *)
Definition cancel_task run tb : Tables D :=
  update_job run (fun j => match task j with Unstarted => set_task NeverRan j | _ => j end) tb.

Definition cancel (io : bool) (now : Z) (k : JobKey) q : JobQueue D * option string :=
  match jobs (tabs q) !! k with
  | None => (q, None)
  | Some run =>
      match job_at (tabs q) run with
      | None => (q, None)
      | Some j =>
          if terminal (state j) then (q, Some run)
          else match state j with
               | Queued => (cancel_queued io now run q, Some run)
               | _ => (with_tabs (cancel_task run (tabs q)) q, Some run)
               end
      end
  end.

Definition of_client (client : option string) tb run : bool :=
  match client, job_at tb run with
  | Some c, Some j => bool_decide (client_id (key j) = c)
  | _, _ => true
  end.

Definition clear (io : string -> bool) (now : Z) (client : option string) q : JobQueue D * list string :=
  let victims := filter (fun run => of_client client (tabs q) run = true) (pending_order q) in
  (foldl (fun q run => cancel_queued (io run) now run q) q victims, victims).

Definition shutting_down : gvalue := jobj [("message", GStr "server shutting down")].

(** [close], up to its first await. *)
Definition close_begin (io : string -> bool) (now : Z) q : JobQueue D :=
  let tb := foldl (fun tb run => finish (history_limit q) (io run) now run Cancelled (Some shutting_down) tb)
              (tabs q) (pending q) in
  let tb := foldl (fun tb run => cancel_task run tb) tb
              (omap (fun k => jobs tb !! k) (elements (running q))) in
  {| max_running := max_running q; history_limit := history_limit q; tabs := tb; pending := [];
     running := running q; paused := paused q; maintenance := maintenance q; wakeup := true;
     dispatcher := dispatcher q; closed := true |}.

(** ** Dispatch *)

Definition may_dispatch q : bool :=
  negb (paused q) && negb (maintenance q) && (size (running q) <? max_running q)%nat.

(** A job leaves [_pending], now [rest], and gets its task. *)
Definition start_job (io : bool) (now : Z) run (rest : list string) q : JobQueue D :=
  let tb := update_job run (set_running now) (tabs q) in
  let tb := emit run (write io job_started run tb) in
  with_running (from_option (fun j => {[key j]} ∪ running q) (running q) (job_at tb run))
    (with_pending rest (with_tabs tb q)).

(** The inner loop of [_dispatch_loop]; each round starts a job. *)
Fixpoint fill (fuel : nat) (io : string -> bool) (now : Z) q : JobQueue D :=
  match fuel with
  | O => q
  | S fuel' =>
      if may_dispatch q
      then match pending_order q with
           | [] => q
           | run :: rest => fill fuel' io now (start_job (io run) now run rest q)
           end
      else q
  end.

(** One turn of [_dispatch_loop], from its wait to its next. *)
Definition dispatch_turn (io : string -> bool) (now : Z) q : JobQueue D :=
  let q := with_wakeup false q in
  if closed q then with_dispatcher Stopped q
  else fill (length (pending q)) io now q.

(** ** [_run_job] *)

(** How an awaited call ends. *)
Inductive run_outcome := Returned (r : RunResult) | WasCancelled | Raised (err : gvalue).

(** The inner [finally]: finish the job and give back its slot. *)
Definition finish_run (io : bool) (now : Z) run (ending : JobState) (err : option gvalue) q : JobQueue D :=
  let q := with_tabs (update_job run (set_task Over) (tabs q)) q in
  let q := finish_in io now run ending err q in
  with_wakeup true (with_running (from_option (fun j => running q ∖ {[key j]}) (running q) (job_at (tabs q) run)) q).

(** The outer [finally], up to its await. *)
Definition wrap_up (io : bool) (now : Z) run (ending : JobState) (err : option gvalue) q : JobQueue D :=
  if settles then with_tabs (update_job run (set_task (Settling ending err)) (tabs q)) q
  else finish_run io now run ending err q.

(** The first step: the job's context is entered and the engine is called. *)
Definition run_begins (io : bool) (now : Z) run (context : option gvalue) q : JobQueue D :=
  match context with
  | None => with_tabs (update_job run (set_task Executing) (tabs q)) q
  | Some err => wrap_up io now run Failed (Some err) q
  end.

Definition conclude (io : bool) (now : Z) run (outcome : run_outcome) q : JobQueue D :=
  match outcome with
  | Returned r => wrap_up io now run Completed None (with_tabs (update_job run (set_result r) (tabs q)) q)
  | WasCancelled => wrap_up io now run Cancelled None q
  | Raised err => wrap_up io now run Failed (Some err) q
  end.

(** The engine's call ends. *)
Definition engine_ends (io : bool) (now : Z) run (outcome : run_outcome) q : JobQueue D :=
  match outcome with
  | Returned _ => if completes then with_tabs (update_job run (set_task Completing) (tabs q)) q
                  else conclude io now run outcome q
  | _ => conclude io now run outcome q
  end.

(** [settle_job] ends, in any way. *)
Definition settle_ends (io : bool) (now : Z) run q : JobQueue D :=
  match job_at (tabs q) run with
  | Some j => match task j with
              | Settling ending err => finish_run io now run ending err q
              | _ => q
              end
  | None => q
  end.

(** Where a job's coroutine is. *)
Definition at_task q run (tk : run_task) : Prop := task <$> job_at (tabs q) run = Some tk.
End queue.

(** * Steps *)

Section steps.
Context {D : Type} `{DurableStore D}.
Context (digest : gvalue -> string) (completes settles : bool).

(** A reference that no job and no record has. *)
Definition fresh (ref : string) (q : JobQueue D) : Prop :=
  heap (tabs q) !! ref = None
  /\ from_option (fun d => ref ∉ open_runs d ∪ ended_runs d) True (q_store (tabs q)).

Definition with_store (d : D) (tb : Tables D) : Tables D :=
  {| heap := heap tb; jobs := jobs tb; order := order tb; next_seq := next_seq tb; by_run := by_run tb;
     history := history tb; q_store := Some d; emitted := emitted tb |}.

Inductive qstep : JobQueue D -> JobQueue D -> Prop :=
| q_start q : qstep q (start q)
| q_submit q io schemas ref now s answer q' :
    fresh ref q -> submit digest io schemas ref now s q = Ok (answer, q') -> qstep q q'
| q_pause q : qstep q (pause q)
| q_resume q q' : resume q = Ok q' -> qstep q q'
| q_begin_maintenance q : qstep q (begin_maintenance q).1
| q_end_maintenance q : qstep q (end_maintenance q)
| q_set_max q n q' : set_max_running n q = Ok q' -> qstep q q'
| q_cancel q io now k : qstep q (cancel io now k q).1
| q_clear q io now client : qstep q (clear io now client q).1
| q_close q io now : qstep q (close_begin io now q)
| q_dispatch q io now : dispatcher q = Dispatching -> wakeup q = true -> qstep q (dispatch_turn io now q)
| q_stop q : closed q = true -> qstep q (with_dispatcher Stopped q)
| q_begins q io now run context : at_task q run Unstarted -> qstep q (run_begins settles io now run context q)
| q_engine q io now run outcome : at_task q run Executing ->
    qstep q (engine_ends completes settles io now run outcome q)
| q_completes q io now run outcome : at_task q run Completing -> qstep q (conclude settles io now run outcome q)
| q_settles q io now run ending err : at_task q run (Settling ending err) -> qstep q (settle_ends io now run q)
| q_receipts q run receipts : qstep q (with_tabs (update_job run (set_receipts receipts) (tabs q)) q)
| q_others q d d' : q_store (tabs q) = Some d -> others d d' -> qstep q (with_tabs (with_store d' (tabs q)) q).

Definition queue_initial (q : JobQueue D) : Prop :=
  exists max limit d, queue_init max limit d = Ok q.

Definition queue_reachable (q : JobQueue D) : Prop :=
  exists q0, queue_initial q0 /\ star qstep q0 q.
End steps.

(** * The tables agree *)

(** [pd] and [rn] are the jobs that wait and the keys that run; inside an
    operation they may be ahead of [pending] and [running]. *)
Record tabs_ok {D : Type} (pd : string -> Prop) (rn : JobKey -> Prop) (tb : Tables D) : Prop := {
  to_ids : forall run j, heap tb !! run = Some j -> run_id j = run;
  to_jobs : forall k run, jobs tb !! k = Some run -> exists j, heap tb !! run = Some j /\ key j = k;
  to_by_run : forall run k, by_run tb !! run = Some k <-> jobs tb !! k = Some run;
  to_order : forall k, is_Some (order tb !! k) <-> is_Some (jobs tb !! k);
  to_order_lt : forall k n, order tb !! k = Some n -> (n < next_seq tb)%nat;
  to_order_inj : forall k k' n, order tb !! k = Some n -> order tb !! k' = Some n -> k = k';
  to_live : forall run j, heap tb !! run = Some j -> terminal (state j) = false -> jobs tb !! key j = Some run;
  to_queued : forall run, pd run <-> exists j, heap tb !! run = Some j /\ state j = Queued;
  to_running : forall k, rn k <-> exists run j, jobs tb !! k = Some run /\ heap tb !! run = Some j /\ state j = Running;
  to_history : forall run, run ∈ history tb <->
    exists j, heap tb !! run = Some j /\ jobs tb !! key j = Some run /\ terminal (state j) = true;
  to_history_nodup : NoDup (history tb);
}.

(** The listener was told each job's life so far, once. *)
Definition life (st : JobState) (told : list JobState) : Prop :=
  match st with
  | Queued => told = [Queued]
  | Running => told = [Queued; Running]
  | Cancelled => told = [Queued; Cancelled] \/ told = [Queued; Running; Cancelled]
  | Completed | Failed => told = [Queued; Running; st]
  end.

Definition told_of (run : string) (l : list (string * JobState)) : list JobState :=
  (filter (fun e => e.1 = run) l).*2.
Arguments told_of : simpl never.

(** Where a job's coroutine may be in each of its states. *)
Definition task_ok (j : Job) : Prop :=
  match state j with
  | Queued => task j = NoTask
  | Running => match task j with
               | Unstarted | Executing | Completing | NeverRan => True
               | Settling ending err => terminal ending = true
               | NoTask | Over => False
               end
  | _ => task j = NoTask \/ task j = Over
  end.

Record jobs_ok {D : Type} (tb : Tables D) : Prop := {
  jo_task : forall run j, heap tb !! run = Some j -> task_ok j;
  jo_life : forall run j, heap tb !! run = Some j -> life (state j) (told_of run (emitted tb));
  jo_silent : forall run, heap tb !! run = None -> told_of run (emitted tb) = [];
}.

Section tables.
Context {D : Type} `{QueuePersistence D}.
Implicit Types (tb : Tables D) (run : string) (pd : string -> Prop) (rn : JobKey -> Prop).

Lemma tabs_ok_iff pd pd' rn rn' tb : tabs_ok pd rn tb ->
  (forall run, pd run <-> pd' run) -> (forall k, rn k <-> rn' k) -> tabs_ok pd' rn' tb.
Proof.
  intros Hok Hp Hr. destruct Hok. constructor; try done.
  - intros run. by rewrite <- Hp.
  - intros k. by rewrite <- Hr.
Qed.

(** What does not touch the tables. *)
Lemma tabs_ok_same pd rn tb tb' : tabs_ok pd rn tb -> heap tb' = heap tb -> jobs tb' = jobs tb ->
  order tb' = order tb -> next_seq tb' = next_seq tb -> by_run tb' = by_run tb -> history tb' = history tb ->
  tabs_ok pd rn tb'.
Proof. intros [] Hh Hj Ho Hn Hb Hhi. by constructor; rewrite ?Hh, ?Hj, ?Ho, ?Hn, ?Hb, ?Hhi. Qed.

Lemma emit_ok pd rn run tb : tabs_ok pd rn tb -> tabs_ok pd rn (emit run tb).
Proof. intros Hok. unfold emit. destruct (heap tb !! run); [|done]. by eapply tabs_ok_same. Qed.

Lemma write_ok pd rn io w run tb : tabs_ok pd rn tb -> tabs_ok pd rn (write io w run tb).
Proof. intros Hok. unfold write. destruct (q_store tb), (heap tb !! run); try done. by eapply tabs_ok_same. Qed.

(** A job changes without its state. *)
Lemma update_ok pd rn run f tb : tabs_ok pd rn tb ->
  (forall j, heap tb !! run = Some j -> key (f j) = key j /\ run_id (f j) = run_id j /\ state (f j) = state j) ->
  tabs_ok pd rn (update_job run f tb).
Proof.
  intros [] Hf.
  assert (Hl : forall x j', heap (update_job run f tb) !! x = Some j' ->
    exists j, heap tb !! x = Some j /\ key j' = key j /\ run_id j' = run_id j /\ state j' = state j).
  { intros x j'. cbn. destruct (decide (x = run)) as [->|Hne]; [|rewrite lookup_alter_ne by done; by exists j'].
    rewrite lookup_alter_eq. intros (j & Hj & ->)%fmap_Some. exists j. split; [done|]. auto. }
  assert (Hr : forall x j, heap tb !! x = Some j -> exists j', heap (update_job run f tb) !! x = Some j'
    /\ key j' = key j /\ run_id j' = run_id j /\ state j' = state j).
  { intros x j Hj. cbn. destruct (decide (x = run)) as [->|Hne]; [|rewrite lookup_alter_ne by done; by exists j].
    rewrite lookup_alter_eq, Hj. exists (f j). split; [done|]. auto. }
  constructor; try done.
  - intros x j' (j & Hj & _ & -> & _)%Hl. auto.
  - intros k x Hk. destruct (to_jobs0 k x Hk) as (j & Hj & <-). destruct (Hr x j Hj) as (j' & Hj' & ? & _). by exists j'.
  - intros x j' (j & Hj & Hk & _ & Hs)%Hl. rewrite Hk, Hs. cbn. auto.
  - intros x. rewrite to_queued0. split.
    + intros (j & Hj & Hs). destruct (Hr x j Hj) as (j' & Hj' & _ & _ & Hs'). exists j'. by rewrite Hs'.
    + intros (j' & (j & Hj & _ & _ & Hs')%Hl & Hs). exists j. by rewrite <- Hs'.
  - intros k. rewrite to_running0. cbn [jobs update_job with_heap]. split.
    + intros (x & j & Hk & Hj & Hs). destruct (Hr x j Hj) as (j' & Hj' & _ & _ & Hs'). exists x, j'. by rewrite Hs'.
    + intros (x & j' & Hk & (j & Hj & _ & _ & Hs')%Hl & Hs). exists x, j. by rewrite <- Hs'.
  - intros x. cbn [jobs history update_job with_heap]. rewrite to_history0. split.
    + intros (j & Hj & Hk & Ht). destruct (Hr x j Hj) as (j' & Hj' & Hk' & _ & Hs'). exists j'. by rewrite Hk', Hs'.
    + intros (j' & (j & Hj & Hk' & _ & Hs')%Hl & Hk & Ht). exists j. by rewrite <- Hk', <- Hs'.
Qed.

(** ** A job ends *)

Lemma ends_ok pd rn run f j tb : tabs_ok pd rn tb -> heap tb !! run = Some j -> terminal (state j) = false ->
  key (f j) = key j -> run_id (f j) = run_id j -> terminal (state (f j)) = true ->
  tabs_ok (fun x => pd x /\ x <> run) (fun k => rn k /\ k <> key j)
    (with_history (history tb ++ [run]) (update_job run f tb)).
Proof.
  intros Hok Hj Hlive Hkey Hid Hend. pose proof (to_live _ _ _ Hok _ _ Hj Hlive) as Hcur. destruct Hok.
  assert (Hl : forall x, heap (with_history (history tb ++ [run]) (update_job run f tb)) !! x
                         = if decide (x = run) then Some (f j) else heap tb !! x).
  { intros x. cbn. case_decide as Hx; [subst; by rewrite lookup_alter_eq, Hj|by rewrite lookup_alter_ne]. }
  assert (Hnot : run ∉ history tb) by (rewrite to_history0; intros (j0 & ? & _ & ?); congruence).
  constructor; cbn [jobs order next_seq by_run history with_history update_job with_heap]; try done.
  - intros x j'. rewrite Hl. case_decide; [intros [= <-]|]; [subst x; rewrite Hid|]; auto.
  - intros k x Hk. destruct (to_jobs0 k x Hk) as (j0 & Hj0 & <-). rewrite Hl. case_decide; [|by exists j0].
    subst x. exists (f j). split; [done|congruence].
  - intros x j'. rewrite Hl. case_decide; [|auto]. intros [= <-]. congruence.
  - intros x. rewrite to_queued0, Hl. case_decide as Hx.
    + split; [tauto|]. intros (j0 & [= <-] & Hs). by rewrite Hs in Hend.
    + split; [tauto|]. intros ?. tauto.
  - intros k. rewrite to_running0. setoid_rewrite Hl. split.
    + intros ((x & j0 & Hk & Hj0 & Hs) & Hne). exists x, j0. rewrite decide_False; [done|]. intros ->.
      destruct (to_jobs0 k run Hk) as (j1 & Hj1 & <-). congruence.
    + intros (x & j0 & Hk & Hj0 & Hs). case_decide as Hx; [injection Hj0 as <-; by rewrite Hs in Hend|]. split; [by exists x, j0|].
      intros ->. congruence.
  - intros x. rewrite elem_of_app, list_elem_of_singleton, to_history0, Hl. case_decide as Hx.
    + subst x. split; [intros _; exists (f j); rewrite Hkey; auto|auto].
    + split; [intros [?|?]; [done|done]|auto].
  - apply NoDup_app. split_and!; [done| |apply NoDup_singleton]. intros x Hx ->%list_elem_of_singleton. done.
Qed.

Lemma drop_evicted_ok pd rn run rest tb : tabs_ok pd rn tb -> history tb = run :: rest ->
  tabs_ok pd rn (drop_evicted run (with_history rest tb)).
Proof.
  intros Hok Hh. destruct Hok. rewrite Hh in *. apply NoDup_cons in to_history_nodup0 as [Hno Hnd].
  destruct (proj1 (to_history0 run) ltac:(constructor)) as (j & Hj & Hcur & Hterm).
  unfold drop_evicted. cbn. rewrite Hj, bool_decide_true by done.
  assert (Huniq : forall x j', heap tb !! x = Some j' -> jobs tb !! key j' = Some x -> x <> run -> key j' <> key j).
  { intros x j' _ Hc Hne Heq. congruence. }
  constructor; cbn; try done.
  - intros k x. rewrite lookup_delete_Some. intros [_ Hk]. auto.
  - intros x k. rewrite !lookup_delete_Some, to_by_run0. split; intros [Hne Hk]; (split; [|done]).
    + intros <-. congruence.
    + intros <-. destruct (to_jobs0 k run Hk) as (j0 & Hj0 & <-). congruence.
  - intros k. destruct (decide (key j = k)) as [<-|Hne]; [by rewrite !lookup_delete_eq|].
    by rewrite !lookup_delete_ne.
  - intros k n [_ Hk]%lookup_delete_Some. eauto.
  - intros k k' n [_ Hk]%lookup_delete_Some [_ Hk']%lookup_delete_Some. eauto.
  - intros x j' Hx Hlive. rewrite lookup_delete_ne; [auto|]. intros Heq. symmetry in Heq.
    pose proof (to_live0 x j' Hx Hlive) as Hc. apply (Huniq x j'); [done|done| |done]. intros ->. congruence.
  - intros k. rewrite to_running0. split.
    + intros (x & j' & Hk & Hj' & Hs). exists x, j'. rewrite lookup_delete_ne; [done|]. intros <-.
      assert (x = run) as -> by congruence. assert (j' = j) as -> by congruence. by rewrite Hs in Hterm.
    + intros (x & j' & [_ Hk]%lookup_delete_Some & Hj' & Hs). by exists x, j'.
  - intros x. split.
    + intros Hx. destruct (proj1 (to_history0 x) ltac:(by right)) as (j' & Hj' & Hc & Ht). exists j'. split; [done|].
      rewrite lookup_delete_ne; [done|]. intros Heq. symmetry in Heq. revert Heq. apply (Huniq x j'); [done|done|]. by intros ->.
    + intros (j' & Hj' & [Hne Hc]%lookup_delete_Some & Ht).
      assert (x ∈ run :: rest) as [->|]%elem_of_cons by (apply to_history0; by exists j'); [|done]. congruence.
Qed.

Lemma evict_tabs_ok pd rn n tb : tabs_ok pd rn tb -> tabs_ok pd rn (evict_loop n tb).
Proof.
  revert tb. induction n as [|n IH]; intros tb Hok; [done|]. cbn. destruct (history tb) as [|run rest] eqn:Hh; [done|].
  by apply IH, drop_evicted_ok.
Qed.

Lemma finish_ok pd rn limit io now run ending err j tb : tabs_ok pd rn tb -> heap tb !! run = Some j ->
  terminal (state j) = false -> terminal ending = true ->
  tabs_ok (fun x => pd x /\ x <> run) (fun k => rn k /\ k <> key j) (finish limit io now run ending err tb).
Proof.
  intros Hok Hj Hlive Hend. unfold finish, evict. apply emit_ok, evict_tabs_ok.
  pose proof (ends_ok pd rn run (set_finished now ending err) j tb Hok Hj Hlive eq_refl eq_refl Hend) as Hends.
  unfold write. destruct (q_store (update_job _ _ _)); [|done].
  destruct (heap (update_job _ _ _) !! run); [|done]. by eapply tabs_ok_same.
Qed.
End tables.

Section filing.
Context {D : Type} `{QueuePersistence D}.
Implicit Types (tb : Tables D) (run : string) (pd : string -> Prop) (rn : JobKey -> Prop).

(** ** A job is filed *)

Lemma file_ok pd rn j st existing tb : tabs_ok pd rn tb ->
  heap tb !! run_id j = None -> state j = Queued -> jobs tb !! key j = existing ->
  (forall run e, existing = Some run -> heap tb !! run = Some e -> terminal (state e) = true) ->
  tabs_ok (fun x => pd x \/ x = run_id j) rn (file_job j st (retire existing tb)).
Proof.
  intros Hok Hnew Hq Hex Hterm. pose proof Hok as [].
  assert (Hcur : forall x j0, heap tb !! x = Some j0 -> x <> run_id j) by (intros x j0 ? ->; congruence).
  assert (Hold : forall x, jobs tb !! key j = Some x -> existing = Some x) by (intros; congruence).
  assert (Hheap : forall x, heap (file_job j st (retire existing tb)) !! x
                  = if decide (x = run_id j) then Some j else heap tb !! x).
  { intros x. unfold file_job, retire. destruct existing; cbn; rewrite lookup_insert; repeat case_decide; congruence. }
  assert (Hjobs : forall k, jobs (file_job j st (retire existing tb)) !! k
                  = if decide (k = key j) then Some (run_id j) else jobs tb !! k).
  { intros k. unfold file_job, retire. destruct existing; cbn; rewrite lookup_insert; repeat case_decide; congruence. }
  assert (Horder : forall k, order (file_job j st (retire existing tb)) !! k
                  = if decide (k = key j) then Some (next_seq tb) else order tb !! k).
  { intros k. unfold file_job, retire. destruct existing; cbn; rewrite lookup_insert; repeat case_decide; congruence. }
  assert (Hseq : next_seq (file_job j st (retire existing tb)) = S (next_seq tb)) by by destruct existing.
  assert (Hby : forall x k, by_run (file_job j st (retire existing tb)) !! x = Some k <->
                  x = run_id j /\ k = key j \/ x <> run_id j /\ existing <> Some x /\ by_run tb !! x = Some k).
  { intros x k. unfold file_job, retire. destruct existing as [old|]; cbn; rewrite lookup_insert; case_decide as Hx; subst.
    - split; [intros [= <-]; auto|]. intros [[_ ->]|[? _]]; done.
    - rewrite lookup_delete_Some. split; [intros [? ?]; right; split_and!; [congruence|congruence|done]|].
      intros [[-> _]|(? & ? & ?)]; [done|]. split; [congruence|done].
    - split; [intros [= <-]; auto|]. intros [[_ ->]|[? _]]; done.
    - split; [intros ?; right; by split_and!; [congruence| |]|]. intros [[-> _]|(? & ? & ?)]; done. }
  assert (Hhist : history (file_job j st (retire existing tb))
                  = match existing with Some old => filter (fun r => r <> old) (history tb) | None => history tb end)
    by by destruct existing.
  constructor.
  - intros x j0. rewrite Hheap. case_decide; [intros [= <-]|]; [by subst|auto].
  - intros k x. rewrite Hjobs. setoid_rewrite Hheap. case_decide as Hk; [intros [= <-]; exists j; by rewrite decide_True|].
    intros Hx. destruct (to_jobs0 k x Hx) as (j0 & Hj0 & Hk0). exists j0. rewrite decide_False; [done|eauto].
  - intros x k. rewrite Hby, Hjobs. case_decide as Hk.
    + subst k. split; [|intros [= <-]; auto]. intros [[-> _]|(_ & Hne & Hb)]; [done|].
      apply to_by_run0 in Hb. congruence.
    + rewrite to_by_run0. split; [intros [[_ ?]|(_ & _ & ?)]; done|]. intros Hx. right.
      destruct (to_jobs0 k x Hx) as (j0 & Hj0 & Hk0). split_and!; [eauto| |done].
      intros He. destruct (to_jobs0 (key j) x ltac:(congruence)) as (j1 & Hj1 & Hk1). congruence.
  - intros k. rewrite Horder, Hjobs. case_decide; [split; by eexists|auto].
  - intros k n. rewrite Horder, Hseq. case_decide; [intros [= <-]; lia|]. intros Hn%to_order_lt0. lia.
  - intros k k' n. rewrite !Horder. repeat case_decide; subst; try done.
    + intros [= <-] Hn%to_order_lt0. lia.
    + intros Hn [= <-]. apply to_order_lt0 in Hn. lia.
    + apply to_order_inj0.
  - intros x j0. rewrite Hheap, Hjobs. case_decide as Hx; [intros [= <-]; subst; by rewrite decide_True|].
    intros Hj0 Hlive. rewrite decide_False; [auto|]. intros Heq.
    pose proof (to_live0 x j0 Hj0 Hlive) as Hc. rewrite Heq in Hc.
    pose proof (Hterm x j0 (Hold x Hc) Hj0). congruence.
  - intros x. rewrite Hheap, to_queued0. case_decide as Hx.
    + split; [intros _; by exists j|auto].
    + split; [intros [?|?]; [done|done]|auto].
  - intros k. rewrite to_running0. setoid_rewrite Hjobs. setoid_rewrite Hheap. split.
    + intros (x & j0 & Hx & Hj0 & Hs). exists x, j0. rewrite (decide_False (P := x = run_id j)) by eauto.
      rewrite decide_False; [done|]. intros ->. pose proof (Hterm x j0 (Hold x Hx) Hj0) as Ht. by rewrite Hs in Ht.
    + intros (x & j0 & Hx & Hj0 & Hs). destruct (decide (k = key j)) as [->|Hk].
      * assert (x = run_id j) as -> by congruence. rewrite decide_True in Hj0 by done. congruence.
      * destruct (to_jobs0 k x Hx) as (j1 & Hj1 & _). rewrite decide_False in Hj0 by eauto. by exists x, j0.
  - intros x. rewrite Hhist, Hheap. setoid_rewrite Hjobs.
    assert (Hmid : x ∈ history tb /\ existing <> Some x <->
      x ∈ match existing with Some old => filter (fun r => r <> old) (history tb) | None => history tb end).
    { destruct existing; [rewrite list_elem_of_filter|]; naive_solver. }
    rewrite <- Hmid, to_history0. split.
    + intros [(j0 & Hj0 & Hc & Ht) Hne]. exists j0. rewrite decide_False by eauto.
      rewrite decide_False; [done|]. intros Heq. apply Hne, Hold. congruence.
    + intros (j0 & Hj0 & Hc & Ht). destruct (decide (x = run_id j)) as [Hx|Hx]; [injection Hj0 as <-; by rewrite Hq in Ht|].
      destruct (decide (key j0 = key j)) as [Hk|Hk]; [congruence|]. split; [by exists j0|]. intros He.
      destruct (to_jobs0 (key j) x ltac:(congruence)) as (j1 & Hj1 & Hk1). congruence.
  - rewrite Hhist. destruct existing; [by apply NoDup_filter|done].
Qed.

(** ** A job starts *)

Lemma started_ok pd rn run j now tb : tabs_ok pd rn tb -> heap tb !! run = Some j -> state j = Queued ->
  tabs_ok (fun x => pd x /\ x <> run) (fun k => rn k \/ k = key j) (update_job run (set_running now) tb).
Proof.
  intros Hok Hj Hq. pose proof (to_live _ _ _ Hok _ _ Hj ltac:(by rewrite Hq)) as Hcur. destruct Hok.
  assert (Hl : forall x, heap (update_job run (set_running now) tb) !! x
                         = if decide (x = run) then Some (set_running now j) else heap tb !! x).
  { intros x. cbn. case_decide as Hx; [subst; by rewrite lookup_alter_eq, Hj|by rewrite lookup_alter_ne]. }
  constructor; cbn [jobs order next_seq by_run history update_job with_heap]; try done.
  - intros x j'. rewrite Hl. case_decide; [intros [= <-]; subst; exact (to_ids0 _ _ Hj)|auto].
  - intros k x Hk. destruct (to_jobs0 k x Hk) as (j0 & Hj0 & <-). rewrite Hl. case_decide; [|by exists j0].
    subst x. assert (j0 = j) as -> by congruence. by exists (set_running now j).
  - intros x j'. rewrite Hl. case_decide; [intros [= <-] _; by subst|auto].
  - intros x. rewrite to_queued0, Hl. case_decide as Hx.
    + split; [tauto|]. by intros (j0 & [= <-] & Hs).
    + tauto.
  - intros k. rewrite to_running0. setoid_rewrite Hl. split.
    + intros [(x & j0 & Hk & Hj0 & Hs)| ->].
      * exists x, j0. rewrite decide_False; [done|]. intros ->. congruence.
      * exists run, (set_running now j). by rewrite decide_True.
    + intros (x & j0 & Hk & Hj0 & Hs). case_decide as Hx; [|left; by exists x, j0].
      right. subst x. destruct (to_jobs0 k run Hk) as (j1 & Hj1 & <-). congruence.
  - intros x. rewrite to_history0, Hl. case_decide as Hx; [|done]. subst x. split.
    + intros (j0 & Hj0 & _ & Ht). assert (j0 = j) as -> by congruence. by rewrite Hq in Ht.
    + by intros (j0 & [= <-] & _ & Ht).
Qed.

(** ** What jobs and the listener see *)

Lemma told_snoc run x st l : told_of run (l ++ [(x, st)]) = told_of run l ++ (if decide (x = run) then [st] else []).
Proof.
  unfold told_of. rewrite filter_app, fmap_app. f_equal. rewrite filter_cons. cbn. by case_decide.
Qed.

(** A job changes without its state, and the listener is told nothing. *)
Lemma update_jobs_ok run f tb : jobs_ok tb ->
  (forall j, heap tb !! run = Some j -> task_ok j -> state (f j) = state j /\ task_ok (f j)) ->
  jobs_ok (update_job run f tb).
Proof.
  intros [Ht Hl Hs] Hf. constructor; cbn.
  - intros x j'. destruct (decide (x = run)) as [->|Hne]; [|rewrite lookup_alter_ne by done; eauto].
    rewrite lookup_alter_eq. intros (j & Hj & ->)%fmap_Some. exact (proj2 (Hf j Hj (Ht _ _ Hj))).
  - intros x j'. destruct (decide (x = run)) as [->|Hne]; [|rewrite lookup_alter_ne by done; eauto].
    rewrite lookup_alter_eq. intros (j & Hj & ->)%fmap_Some. rewrite (proj1 (Hf j Hj (Ht _ _ Hj))). eauto.
  - intros x. destruct (decide (x = run)) as [->|Hne]; [|rewrite lookup_alter_ne by done; eauto].
    rewrite lookup_alter_eq. intros Hx%fmap_None. exact (Hs _ Hx).
Qed.

(** A job changes its state, and the listener is told. *)
Lemma transition_ok run f j tb tb' : jobs_ok tb -> heap tb !! run = Some j -> task_ok (f j) ->
  life (state (f j)) (told_of run (emitted tb) ++ [state (f j)]) ->
  heap tb' = alter f run (heap tb) -> emitted tb' = emitted tb ++ [(run, state (f j))] -> jobs_ok tb'.
Proof.
  intros [Ht Hl Hs] Hj Htask Hlife Hh He. constructor; intros x; rewrite Hh, ?He, ?told_snoc.
  - intros j'. destruct (decide (x = run)) as [->|Hne]; [|rewrite lookup_alter_ne by done; eauto].
    rewrite lookup_alter_eq, Hj. by intros [= <-].
  - intros j'. destruct (decide (x = run)) as [->|Hne].
    + rewrite lookup_alter_eq, Hj, decide_True by done. by intros [= <-].
    + rewrite lookup_alter_ne, decide_False, app_nil_r by done. eauto.
  - destruct (decide (x = run)) as [->|Hne]; [rewrite lookup_alter_eq, Hj; done|].
    rewrite lookup_alter_ne, decide_False, app_nil_r by done. auto.
Qed.

Lemma evict_same n tb : heap (evict_loop n tb) = heap tb /\ emitted (evict_loop n tb) = emitted tb
  /\ q_store (evict_loop n tb) = q_store tb.
Proof.
  revert tb. induction n as [|n IH]; intros tb; [done|]. cbn. destruct (history tb) as [|run rest]; [done|].
  destruct (IH (drop_evicted run (with_history rest tb))) as (-> & -> & ->).
  unfold drop_evicted. cbn. by destruct (heap tb !! run).
Qed.

Lemma write_same io w run tb : heap (write io w run tb) = heap tb /\ emitted (write io w run tb) = emitted tb
  /\ history (write io w run tb) = history tb /\ jobs (write io w run tb) = jobs tb.
Proof. unfold write. by destruct (q_store tb), (heap tb !! run). Qed.

Lemma write_store io w run tb d : q_store (write io w run tb) = Some d -> exists d0, q_store tb = Some d0
  /\ (d = d0 \/ exists j, heap tb !! run = Some j /\ w j d0 = Some d).
Proof.
  unfold write. destruct (q_store tb) as [d0|] eqn:Hd; [|by rewrite Hd].
  destruct (heap tb !! run) as [j|]; cbn; [|rewrite Hd; intros [= <-]; eauto].
  intros [= <-]. exists d0. split; [done|]. destruct io; [|by left]. destruct (w j d0) eqn:Hw; [right; eauto|by left].
Qed.

Lemma emit_same run tb : q_store (emit run tb) = q_store tb /\ history (emit run tb) = history tb
  /\ heap (emit run tb) = heap tb /\ jobs (emit run tb) = jobs tb.
Proof. unfold emit. by destruct (heap tb !! run). Qed.

Lemma finish_store limit io now run ending err tb :
  q_store (finish limit io now run ending err tb)
  = q_store (write io job_terminal run (update_job run (set_finished now ending err) tb)).
Proof.
  set (tb2 := write _ _ _ _). change (finish limit io now run ending err tb) with
    (emit run (evict limit (with_history (history tb2 ++ [run]) tb2))).
  rewrite (proj1 (emit_same _ _)). unfold evict. by rewrite (proj2 (proj2 (evict_same _ _))).
Qed.

Lemma finish_heap limit io now run ending err j tb : heap tb !! run = Some j ->
  heap (finish limit io now run ending err tb) = alter (set_finished now ending err) run (heap tb)
  /\ emitted (finish limit io now run ending err tb) = emitted tb ++ [(run, ending)].
Proof.
  intros Hj. set (tb1 := update_job run (set_finished now ending err) tb).
  set (tb2 := write io job_terminal run tb1). set (tb3 := with_history (history tb2 ++ [run]) tb2).
  change (finish limit io now run ending err tb) with (emit run (evict limit tb3)).
  destruct (evict_same (length (history tb3) - limit) tb3) as (Hh & He & _).
  destruct (write_same io job_terminal run tb1) as (Hh2 & He2 & _).
  change (heap tb3) with (heap tb2) in Hh. change (emitted tb3) with (emitted tb2) in He.
  unfold emit, evict. rewrite Hh, He. unfold tb2. rewrite Hh2, He2. unfold tb1. cbn.
  by rewrite lookup_alter_eq, Hj.
Qed.

(** A job ends: it was queued, or it ran and its coroutine is over. *)
Lemma finish_jobs_ok limit io now run ending err f j tb : jobs_ok tb -> heap tb !! run = Some j ->
  state (f j) = state j ->
  (state j = Queued /\ ending = Cancelled /\ task (f j) = NoTask
   \/ state j = Running /\ terminal ending = true /\ task (f j) = Over) ->
  jobs_ok (finish limit io now run ending err (update_job run f tb)).
Proof.
  intros Hok Hj Hf Hcase. pose proof (jo_life _ Hok _ _ Hj) as Hl.
  assert (Hj1 : heap (update_job run f tb) !! run = Some (f j)) by (cbn; by rewrite lookup_alter_eq, Hj).
  destruct (finish_heap limit io now run ending err _ _ Hj1) as [Hh He].
  apply (transition_ok run (fun j => set_finished now ending err (f j)) j tb); [done|done| | | |exact He].
  - unfold task_ok. cbn. destruct Hcase as [(_ & -> & Htk)|(_ & Hend & Htk)]; [by left|].
    destruct ending; try done; by right.
  - cbn. destruct Hcase as [(Hs & -> & _)|(Hs & Hend & _)]; rewrite Hs in Hl; cbn in Hl; rewrite Hl; cbn; [by left|].
    destruct ending; try done. by right.
  - rewrite Hh. cbn. by rewrite alter_alter_eq.
Qed.
End filing.

(** * The invariant of the queue *)

Section invariant.
Context {D : Type} `{DurableStore D}.
Context (digest : gvalue -> string) (completes settles : bool).
Implicit Types (q : JobQueue D) (tb : Tables D) (run : string) (pd : string -> Prop) (rn : JobKey -> Prop).

(** The store has every job that has not ended, and not as ended. *)
Definition recorded tb : Prop := forall d, q_store tb = Some d ->
  forall run j, heap tb !! run = Some j -> terminal (state j) = false -> run ∈ open_runs d /\ run ∉ ended_runs d.

Record core_ok (limit : nat) pd rn tb : Prop := {
  co_tabs : tabs_ok pd rn tb;
  co_jobs : jobs_ok tb;
  co_recorded : recorded tb;
  co_history : (length (history tb) <= limit)%nat;
}.

Lemma core_ok_iff limit pd pd' rn rn' tb : core_ok limit pd rn tb ->
  (forall run, pd run <-> pd' run) -> (forall k, rn k <-> rn' k) -> core_ok limit pd' rn' tb.
Proof. intros [] Hp Hr. constructor; try done. by eapply tabs_ok_iff. Qed.

Lemma core_update limit pd rn run f tb : core_ok limit pd rn tb ->
  (forall j, heap tb !! run = Some j -> task_ok j ->
     key (f j) = key j /\ run_id (f j) = run_id j /\ state (f j) = state j /\ task_ok (f j)) ->
  core_ok limit pd rn (update_job run f tb).
Proof.
  intros [Ht Hj Hr Hh] Hf.
  assert (Hf' : forall j, heap tb !! run = Some j -> key (f j) = key j /\ run_id (f j) = run_id j /\ state (f j) = state j).
  { intros j Hjob. destruct (Hf j Hjob (jo_task _ Hj _ _ Hjob)) as (? & ? & ? & _). done. }
  constructor; [by apply update_ok| |intros d Hd x j|done].
  - apply update_jobs_ok; [done|]. intros j Hjob Hok. by destruct (Hf j Hjob Hok) as (_ & _ & ? & ?).
  - cbn. destruct (decide (x = run)) as [->|Hne]; [|rewrite lookup_alter_ne by done; by apply Hr].
    rewrite lookup_alter_eq. intros (j0 & Hj0 & ->)%fmap_Some Hlive. destruct (Hf' j0 Hj0) as (_ & _ & Hs).
    rewrite Hs in Hlive. by eapply Hr.
Qed.

Lemma evict_history n tb : history (evict_loop n tb) = drop n (history tb).
Proof.
  revert tb. induction n as [|n IH]; intros tb; [done|]. cbn. destruct (history tb) as [|run rest] eqn:Hh; [done|].
  rewrite IH. unfold drop_evicted. cbn. by destruct (heap tb !! run).
Qed.

Lemma recorded_finish limit io now run ending err j tb : recorded tb -> heap tb !! run = Some j ->
  run_id j = run -> terminal ending = true -> recorded (finish limit io now run ending err tb).
Proof.
  intros Hr Hjob Hid Hend d Hd x j' Hx Hlive.
  destruct (finish_heap limit io now run ending err j tb Hjob) as [Hheap _]. rewrite Hheap in Hx.
  destruct (decide (x = run)) as [->|Hne]; [rewrite lookup_alter_eq, Hjob in Hx; injection Hx as <-; cbn in Hlive; congruence|].
  rewrite lookup_alter_ne in Hx by done.
  rewrite finish_store in Hd. apply write_store in Hd as (d0 & Hd0 & Hcase).
  pose proof (Hr d0 Hd0 x j' Hx Hlive) as Hin. destruct Hcase as [->|(j1 & Hj1 & Hw)]; [done|].
  apply terminal_law in Hw as (_ & -> & ->). cbn in Hj1. rewrite lookup_alter_eq, Hjob in Hj1. injection Hj1 as <-.
  assert (run_id (set_finished now ending err j) = run) as -> by exact Hid. set_solver.
Qed.

Lemma history_finish limit io now run ending err tb :
  (length (history (finish limit io now run ending err tb)) <= limit)%nat.
Proof.
  unfold finish. rewrite (proj1 (proj2 (emit_same _ _))). unfold evict. rewrite evict_history, length_drop. lia.
Qed.

(** [f] is what happens to the job before it is finished. *)
Lemma core_finish limit pd rn io now run ending err f j tb : core_ok limit pd rn tb -> heap tb !! run = Some j ->
  key (f j) = key j /\ run_id (f j) = run_id j /\ state (f j) = state j ->
  (state j = Queued /\ ending = Cancelled /\ task (f j) = NoTask
   \/ state j = Running /\ terminal ending = true /\ task (f j) = Over) ->
  core_ok limit (fun x => pd x /\ x <> run) (fun k => rn k /\ k <> key j)
    (finish limit io now run ending err (update_job run f tb)).
Proof.
  intros [Ht Hj Hr Hh] Hjob (Hk & Hid & Hs) Hcase.
  assert (Hlive : terminal (state j) = false) by by destruct Hcase as [(-> & _)|(-> & _)].
  assert (Hend : terminal ending = true) by by destruct Hcase as [(_ & -> & _)|(_ & ? & _)].
  assert (Hj1 : heap (update_job run f tb) !! run = Some (f j)) by (cbn; by rewrite lookup_alter_eq, Hjob).
  constructor; [| | |apply history_finish].
  - rewrite <- Hk. apply finish_ok; [|done|by rewrite Hs|done].
    apply update_ok; [done|]. intros j0 Hj0. by assert (j0 = j) as -> by congruence.
  - by eapply finish_jobs_ok.
  - eapply recorded_finish; [|exact Hj1|rewrite Hid; by apply (to_ids _ _ _ Ht)|done].
    intros d Hd x j' Hx Hl. cbn in Hx. destruct (decide (x = run)) as [->|Hne].
    + rewrite lookup_alter_eq, Hjob in Hx. injection Hx as <-. rewrite Hs in Hl. by eapply Hr.
    + rewrite lookup_alter_ne in Hx by done. by eapply Hr.
Qed.

Lemma update_id run tb : update_job run id tb = tb.
Proof. unfold update_job, with_heap. destruct tb; cbn. f_equal. apply map_eq. intros x.
  destruct (decide (x = run)) as [->|]; [rewrite lookup_alter_eq; by destruct (_ !! run)|by rewrite lookup_alter_ne].
Qed.

Lemma core_start limit pd rn io now run j tb : core_ok limit pd rn tb -> heap tb !! run = Some j -> state j = Queued ->
  core_ok limit (fun x => pd x /\ x <> run) (fun k => rn k \/ k = key j)
    (emit run (write io job_started run (update_job run (set_running now) tb))).
Proof.
  intros [Ht Hj Hr Hh] Hjob Hq. set (tb1 := update_job run (set_running now) tb).
  destruct (write_same io job_started run tb1) as (Hh2 & He2 & Hhi2 & _).
  assert (Hj1 : heap tb1 !! run = Some (set_running now j)) by (cbn; by rewrite lookup_alter_eq, Hjob).
  constructor.
  - by apply emit_ok, write_ok, started_ok.
  - apply (transition_ok run (set_running now) j tb); [done|done|done| | |].
    + pose proof (jo_life _ Hj _ _ Hjob) as Hl. rewrite Hq in Hl. cbn in Hl. cbn. by rewrite Hl.
    + rewrite (proj1 (proj2 (proj2 (emit_same _ _)))). by rewrite Hh2.
    + unfold emit. rewrite Hh2, Hj1. cbn. by rewrite He2.
  - intros d Hd x j' Hx Hlive.
    assert (Hx0 : exists j0, heap tb !! x = Some j0 /\ terminal (state j0) = false).
    { rewrite (proj1 (proj2 (proj2 (emit_same _ _)))), Hh2 in Hx. cbn in Hx.
      destruct (decide (x = run)) as [->|Hne]; [exists j; by rewrite Hq|]. rewrite lookup_alter_ne in Hx by done. by exists j'. }
    destruct Hx0 as (j0 & Hj0 & Hlive0). rewrite (proj1 (emit_same _ _)) in Hd.
    apply write_store in Hd as (d0 & Hd0 & Hcase). pose proof (Hr d0 Hd0 x j0 Hj0 Hlive0) as Hin.
    destruct Hcase as [->|(j1 & _ & Hw)]; [done|]. by apply started_law in Hw as [-> ->].
  - by rewrite (proj1 (proj2 (emit_same _ _))), Hhi2.
Qed.

Lemma core_file limit pd rn io j st tb : core_ok limit pd rn tb ->
  heap tb !! run_id j = None -> state j = Queued -> task j = NoTask ->
  (forall run e, jobs tb !! key j = Some run -> heap tb !! run = Some e -> terminal (state e) = true) ->
  from_option (fun d => run_id j ∉ ended_runs d) True (q_store tb) -> record_accepted io j (q_store tb) = Ok st ->
  core_ok limit (fun x => pd x \/ x = run_id j) rn
    (emit (run_id j) (file_job j st (retire (jobs tb !! key j) tb))).
Proof.
  intros [Ht Hj Hr Hh] Hnew Hq Htask Hterm Hfresh Hst. set (tb1 := retire (jobs tb !! key j) tb).
  assert (Hheap : heap tb1 = heap tb) by (unfold tb1, retire; by destruct (jobs tb !! key j)).
  assert (Hem : emitted tb1 = emitted tb) by (unfold tb1, retire; by destruct (jobs tb !! key j)).
  assert (Hhist : (length (history tb1) <= length (history tb))%nat).
  { unfold tb1, retire. destruct (jobs tb !! key j); [|done]. cbn. apply length_filter. }
  assert (Hrun : heap (file_job j st tb1) !! run_id j = Some j) by (cbn; by rewrite lookup_insert_eq).
  constructor.
  - by apply emit_ok, file_ok.
  - unfold emit. rewrite Hrun. constructor; cbn; intros x.
    + intros j'. rewrite lookup_insert, Hheap. case_decide; [intros [= <-]; unfold task_ok; by rewrite Hq|].
      apply (jo_task _ Hj).
    + intros j'. rewrite lookup_insert, Hheap, told_snoc, Hem. case_decide as Hx.
      * intros [= <-]. subst x. by rewrite Hq, (jo_silent _ Hj).
      * rewrite app_nil_r. apply (jo_life _ Hj).
    + rewrite lookup_insert, Hheap, told_snoc, Hem. case_decide as Hx; [done|]. intros ?.
      by rewrite (jo_silent _ Hj).
  - unfold emit. rewrite Hrun. intros d Hd x j'. cbn in Hd. cbn. rewrite lookup_insert, Hheap. subst st.
    unfold record_accepted in Hst. destruct (q_store tb) as [d0|] eqn:Hd0; [|done].
    destruct (if io then job_accepted j d0 else None) as [d1|] eqn:Hw; [|done]. injection Hst as ->.
    destruct io; [|done]. apply accepted_law in Hw as (_ & Hopen & Hended). rewrite Hopen, Hended. cbn in Hfresh.
    case_decide as Hx; [intros _ _; subst; set_solver|]. intros Hx' Hlive. pose proof (Hr d0 Hd0 x j' Hx' Hlive). set_solver.
  - unfold emit. rewrite Hrun. cbn. lia.
Qed.
End invariant.

Section operations.
Context {D : Type} `{DurableStore D}.
Context (digest : gvalue -> string) (completes settles : bool).
Implicit Types (q : JobQueue D) (tb : Tables D) (run : string).

Record queue_inv q : Prop := {
  qi_core : core_ok (history_limit q) (fun run => run ∈ pending q) (fun k => k ∈ running q) (tabs q);
  qi_pending : NoDup (pending q);
  qi_limits : (1 <= max_running q)%nat /\ (1 <= history_limit q)%nat;
  qi_maintenance : maintenance q = true -> paused q = true /\ running q = ∅;
}.

(** Work that could be started is announced. *)
Definition wake_ok q : Prop :=
  closed q = true \/ wakeup q = true \/ may_dispatch q = false \/ pending q = [].

Lemma inv_jobs q : queue_inv q -> jobs_ok (tabs q).
Proof. intros Hq. apply (co_jobs _ _ _ _ (qi_core q Hq)). Qed.

Lemma inv_tabs q : queue_inv q -> tabs_ok (fun run => run ∈ pending q) (fun k => k ∈ running q) (tabs q).
Proof. intros Hq. apply (co_tabs _ _ _ _ (qi_core q Hq)). Qed.

(** The job of a key that waits or runs. *)
Lemma pending_job q run : queue_inv q -> run ∈ pending q -> exists j, heap (tabs q) !! run = Some j /\ state j = Queued.
Proof. intros Hq Hin. by apply (to_queued _ _ _ (inv_tabs q Hq)). Qed.

(** ** A job's task moves *)

Lemma update_inv q run f : queue_inv q ->
  (forall j, heap (tabs q) !! run = Some j -> task_ok j ->
     key (f j) = key j /\ run_id (f j) = run_id j /\ state (f j) = state j /\ task_ok (f j)) ->
  queue_inv (with_tabs (update_job run f (tabs q)) q).
Proof. intros [Hc Hp Hl Hm] Hf. constructor; try done. by apply core_update. Qed.

Lemma cancel_task_inv q run : queue_inv q -> queue_inv (with_tabs (cancel_task run (tabs q)) q).
Proof.
  intros Hq. apply update_inv; [done|]. intros j _ Hok. destruct (task j) eqn:Ht; split_and!; try done.
  unfold task_ok in *. cbn. rewrite Ht in Hok. destruct (state j); try done; by destruct Hok.
Qed.

(** [tk] fits a running job. *)
Definition fits_running (tk : run_task) : Prop :=
  match tk with Settling ending _ => terminal ending = true | NoTask | Over => False | _ => True end.

Lemma set_task_inv q run tk j : queue_inv q -> heap (tabs q) !! run = Some j -> state j = Running ->
  fits_running tk -> queue_inv (with_tabs (update_job run (set_task tk) (tabs q)) q).
Proof.
  intros Hq Hj Hs Htk. apply update_inv; [done|]. intros j0 Hj0 _. assert (j0 = j) as -> by congruence.
  split_and!; try done. unfold task_ok. cbn. rewrite Hs. by destruct tk.
Qed.

Lemma at_task_running q run tk : queue_inv q -> at_task q run tk -> fits_running tk ->
  exists j, heap (tabs q) !! run = Some j /\ state j = Running /\ task j = tk.
Proof.
  intros Hq (j & Hj & ->)%fmap_Some Htk. exists j. split_and!; [done| |done].
  pose proof (jo_task _ (inv_jobs q Hq) _ _ Hj) as Hok. unfold task_ok in Hok.
  destruct (state j); try done; rewrite ?Hok in Htk; try done; destruct Hok as [Hok|Hok]; by rewrite Hok in Htk.
Qed.

(** ** A queued job ends *)

Lemma cancel_queued_inv io now run q : queue_inv q -> run ∈ pending q -> queue_inv (cancel_queued io now run q).
Proof.
  intros Hq Hin. destruct (pending_job q run Hq Hin) as (j & Hj & Hs). destruct Hq as [Hc Hp Hl Hm].
  assert (Hnk : key j ∉ running q).
  { rewrite (to_running _ _ _ (co_tabs _ _ _ _ Hc)). intros (x & j0 & Hk & Hj0 & Hs0).
    pose proof (to_live _ _ _ (co_tabs _ _ _ _ Hc) _ _ Hj ltac:(by rewrite Hs)) as Hcur.
    assert (x = run) as -> by congruence. congruence. }
  constructor; [|by apply NoDup_filter|done|done].
  assert (Htk : task j = NoTask).
  { pose proof (jo_task _ (co_jobs _ _ _ _ Hc) _ _ Hj) as Hok. unfold task_ok in Hok. by rewrite Hs in Hok. }
  eapply core_ok_iff.
  - pose proof (core_finish (history_limit q) _ _ io now run Cancelled None id j (tabs q) Hc Hj) as Hfin.
    rewrite update_id in Hfin. apply Hfin; [done|by left].
  - intros x. cbn. rewrite list_elem_of_filter. tauto.
  - intros k. split; [tauto|]. intros Hk. split; [done|]. by intros ->.
Qed.

Lemma clear_inv io now q victims : queue_inv q -> NoDup victims -> (forall run, run ∈ victims -> run ∈ pending q) ->
  queue_inv (foldl (fun q run => cancel_queued (io run) now run q) q victims).
Proof.
  revert q. induction victims as [|run l IH]; intros q Hq Hnd Hin; [done|]. cbn.
  apply NoDup_cons in Hnd as [Hno Hnd]. apply IH; [apply cancel_queued_inv; [done|apply Hin; by constructor]|done|].
  intros x Hx. cbn. apply list_elem_of_filter. split; [by intros ->|]. apply Hin. by right.
Qed.

(** ** A running job ends *)

Lemma finish_run_inv io now run ending err j q : queue_inv q -> heap (tabs q) !! run = Some j -> state j = Running ->
  terminal ending = true -> queue_inv (finish_run io now run ending err q).
Proof.
  intros Hq Hj Hs Hend. destruct Hq as [Hc Hp Hl Hm]. unfold finish_run, finish_in.
  set (tb2 := finish _ io now run ending err _).
  assert (Hcore : core_ok (history_limit q) (fun x => x ∈ pending q /\ x <> run) (fun k => k ∈ running q /\ k <> key j) tb2)
    by (eapply core_finish; [exact Hc|exact Hj|done|by right]).
  assert (Hj2 : exists j2, heap tb2 !! run = Some j2 /\ key j2 = key j).
  { destruct (finish_heap (history_limit q) io now run ending err (set_task Over j) (update_job run (set_task Over) (tabs q)))
      as [Hh _]; [cbn; by rewrite lookup_alter_eq, Hj|].
    unfold tb2. cbn. cbn in Hh. rewrite Hh, !lookup_alter_eq, Hj. cbn. by eexists. }
  destruct Hj2 as (j2 & Hj2 & Hk2). cbn [tabs with_tabs]. unfold job_at. cbn [tabs with_tabs] in *. rewrite Hj2. cbn.
  rewrite Hk2. constructor; cbn; [|done|done|].
  - eapply core_ok_iff; [exact Hcore| |].
    + intros x. split; [tauto|]. intros Hx. split; [done|]. intros ->.
      apply (to_queued _ _ _ (co_tabs _ _ _ _ Hc)) in Hx as (j0 & Hj0 & Hs0). congruence.
    + intros k. set_solver.
  - intros Hmt. destruct (Hm Hmt) as [? ->]. split; [done|]. set_solver.
Qed.

(** ** Dispatch *)

Lemma start_job_inv io now run rest q : queue_inv q -> may_dispatch q = true -> pending_order q = run :: rest ->
  queue_inv (start_job io now run rest q)
  /\ (length rest < length (pending q))%nat
  /\ exists j, heap (tabs q) !! run = Some j /\ state j = Queued /\ key j ∉ running q
       /\ running (start_job io now run rest q) = {[key j]} ∪ running q.
Proof.
  intros Hq Hmay Hord. assert (Hperm : run :: rest ≡ₚ pending q) by (rewrite <- Hord; apply merge_sort_Permutation).
  assert (Hin : run ∈ pending q) by (rewrite <- Hperm; constructor).
  destruct (pending_job q run Hq Hin) as (j & Hj & Hs). destruct Hq as [Hc Hp Hl Hm].
  assert (Hnk : key j ∉ running q).
  { rewrite (to_running _ _ _ (co_tabs _ _ _ _ Hc)). intros (x & j0 & Hk & Hj0 & Hs0).
    pose proof (to_live _ _ _ (co_tabs _ _ _ _ Hc) _ _ Hj ltac:(by rewrite Hs)) as Hcur.
    assert (x = run) as -> by congruence. congruence. }
  assert (Hcore := core_start (history_limit q) _ _ (io : bool) now run j (tabs q) Hc Hj Hs).
  set (tb2 := emit run (write io job_started run (update_job run (set_running now) (tabs q)))) in *.
  assert (Hj2 : heap tb2 !! run = Some (set_running now j)).
  { unfold tb2. rewrite (proj1 (proj2 (proj2 (emit_same _ _)))), (proj1 (write_same _ _ _ _)). cbn. by rewrite lookup_alter_eq, Hj. }
  rewrite <- Hperm in Hp. apply NoDup_cons in Hp as [Hno Hnd].
  assert (Hrun : running (start_job io now run rest q) = {[key j]} ∪ running q).
  { unfold start_job. fold tb2. unfold job_at. rewrite Hj2. done. }
  split_and!; [|apply Permutation_length in Hperm; cbn in Hperm; lia|by exists j].
  constructor; [|exact Hnd|exact Hl|].
  - rewrite Hrun. eapply core_ok_iff; [exact Hcore| |].
    + intros x. cbn. rewrite <- Hperm, elem_of_cons. split; [intros [[->|?] ?]; done|]. intros Hx. split; [by right|]. by intros ->.
    + intros k. set_solver.
  - intros Hmt. cbn in Hmt. unfold may_dispatch in Hmay. rewrite Hmt, andb_false_r in Hmay. done.
Qed.

Lemma fill_inv fuel io now q : queue_inv q -> queue_inv (fill fuel io now q).
Proof.
  revert q. induction fuel as [|fuel IH]; intros q Hq; [done|]. cbn.
  destruct (may_dispatch q) eqn:Hmay; [|done]. destruct (pending_order q) as [|run rest] eqn:Hord; [done|].
  apply IH. by apply (start_job_inv (io run) now run rest q).
Qed.

(** The loop only stops when nothing may be started or nothing waits. *)
Lemma fill_done fuel io now q : queue_inv q -> (length (pending q) <= fuel)%nat ->
  may_dispatch (fill fuel io now q) = false \/ pending (fill fuel io now q) = [].
Proof.
  revert q. induction fuel as [|fuel IH]; intros q Hq Hlen; cbn.
  - right. by apply length_zero_iff_nil, Nat.le_0_r.
  - destruct (may_dispatch q) eqn:Hmay; [|by left]. destruct (pending_order q) as [|run rest] eqn:Hord.
    + right. apply Permutation_nil_r. rewrite <- Hord. symmetry. apply merge_sort_Permutation.
    + destruct (start_job_inv (io run) now run rest q Hq Hmay Hord) as (Hq' & Hlen' & _).
      apply IH; [done|]. cbn. lia.
Qed.
End operations.

Section reachable.
Context {D : Type} `{DurableStore D}.
Context (digest : gvalue -> string) (completes settles : bool).
Implicit Types (q : JobQueue D) (tb : Tables D) (run : string).

(** ** Shutdown *)

Lemma core_finish_next limit io now err rn run pd tb : core_ok limit (fun x => x ∈ run :: pd) rn tb -> NoDup (run :: pd) ->
  core_ok limit (fun x => x ∈ pd) rn (finish limit io now run Cancelled err tb)
  /\ exists j, heap tb !! run = Some j /\ state j = Queued.
Proof.
  intros Hc [Hno Hnd]%NoDup_cons.
  destruct (proj1 (to_queued _ _ _ (co_tabs _ _ _ _ Hc) run) ltac:(by left)) as (j & Hj & Hs).
  split; [|by exists j].
  assert (Htk : task j = NoTask).
  { pose proof (jo_task _ (co_jobs _ _ _ _ Hc) _ _ Hj) as Hok. unfold task_ok in Hok. by rewrite Hs in Hok. }
  pose proof (core_finish limit _ _ io now run Cancelled err id j tb Hc Hj) as Hfin. rewrite update_id in Hfin.
  eapply core_ok_iff; [apply Hfin; [done|by left]| |].
  - intros x. cbn. rewrite elem_of_cons. split; [tauto|]. intros ?. split; [auto|]. by intros ->.
  - intros k. split; [tauto|]. intros Hk. split; [done|]. intros ->. revert Hk.
    rewrite (to_running _ _ _ (co_tabs _ _ _ _ Hc)). intros (x & j0 & Hk & Hj0 & Hs0).
    pose proof (to_live _ _ _ (co_tabs _ _ _ _ Hc) _ _ Hj ltac:(by rewrite Hs)) as Hcur. congruence.
Qed.

Lemma core_close limit io now err rn pd tb : core_ok limit (fun x => x ∈ pd) rn tb -> NoDup pd ->
  core_ok limit (fun x => x ∈ ([] : list string)) rn
    (foldl (fun tb run => finish limit (io run) now run Cancelled err tb) tb pd).
Proof.
  revert tb. induction pd as [|run pd IH]; intros tb Hc Hnd; [done|]. cbn.
  apply IH; [by eapply core_finish_next|by apply NoDup_cons in Hnd as []].
Qed.

Lemma core_cancel_task limit pd rn run tb : core_ok limit pd rn tb -> core_ok limit pd rn (cancel_task run tb).
Proof.
  intros Hc. apply core_update; [done|]. intros j _ Hok. destruct (task j) eqn:Ht; split_and!; try done.
  unfold task_ok in *. cbn. rewrite Ht in Hok. destruct (state j); try done; by destruct Hok.
Qed.

Lemma close_inv io now q : queue_inv q -> queue_inv (close_begin io now q).
Proof.
  intros [Hc Hp Hl Hm]. unfold close_begin.
  pose proof (core_close _ io now (Some shutting_down) _ _ _ Hc Hp) as Hc1.
  set (tb1 := foldl _ (tabs q) (pending q)) in *. set (l := omap _ (elements (running q))).
  constructor; cbn; [|constructor|done|done].
  clearbody tb1 l. clear -Hc1. revert tb1 Hc1. induction l as [|run l IH]; intros tb Hc; [done|].
  cbn. by apply IH, core_cancel_task.
Qed.

(** ** Submission *)

(** What [submit] does once the submission is sound: the active job of the
    key answers, or a new one is filed. *)
Inductive submits (io : bool) (ref : string) (now : Z) (s : submission) (fp : string) q : string -> JobQueue D -> Prop :=
| submits_same e :
    get (s_key s) q = Some e -> terminal (state e) = false -> fingerprint e = fp ->
    submits io ref now s fp q (run_id e) q
| submits_new st :
    (forall e, get (s_key s) q = Some e -> terminal (state e) = true) ->
    record_accepted io (new_job s ref fp now) (q_store (tabs q)) = Ok st ->
    submits io ref now s fp q ref
      (with_wakeup true (with_pending (pending q ++ [ref])
        (with_tabs (emit ref (file_job (new_job s ref fp now) st (retire (jobs (tabs q) !! s_key s) (tabs q)))) q))).

Definition fingerprint_of (s : submission) : result wire_error string :=
  content_fingerprint digest (s_fingerprint s) (s_graph s) (s_targets s) (s_priority s) (s_source s) (s_project s)
    (s_options s).

Lemma submit_ok io schemas ref now s q answer q' : queue_inv q ->
  submit digest io schemas ref now s q = Ok (answer, q') ->
  closed q = false /\ exists fp, fingerprint_of s = Ok fp /\ submits io ref now s fp q answer q'.
Proof.
  intros Hq. unfold submit. intros ([] & Hcl%raise_if_ok & Hs)%bind_ok. split; [done|].
  apply bind_ok in Hs as ([] & _ & Hs). fold (fingerprint_of s) in Hs.
  destruct (fingerprint_of s) as [fp|]; [|done]. exists fp. split; [done|].
  assert (Hget : get (s_key s) q = jobs (tabs q) !! s_key s ≫= (heap (tabs q) !!.)) by done.
  rewrite <- Hget in Hs. destruct (get (s_key s) q) as [e|] eqn:He.
  - destruct (terminal (state e)) eqn:Hterm; cbn [negb] in Hs.
    + apply bind_ok in Hs as (st & Hst & [= <- <-]). apply submits_new; [|done]. intros e'. rewrite He. by intros [= <-].
    + destruct (fingerprint e =? fp)%string eqn:Hfp; [|done]. injection Hs as <- <-. constructor; [done|done|].
      by apply String.eqb_eq.
  - apply bind_ok in Hs as (st & Hst & [= <- <-]).
    pose proof (submits_new io ref now s fp q st) as Hn.
    assert (Hnone : jobs (tabs q) !! s_key s = None).
    { destruct (jobs (tabs q) !! s_key s) as [old|] eqn:Hold; [|done]. rewrite ?Hold in Hget. cbn in Hget.
      destruct (to_jobs _ _ _ (inv_tabs q Hq) _ _ Hold) as (e & Hj & _). congruence. }
    rewrite Hnone in Hn. apply Hn; [|done]. intros e. by rewrite He.
Qed.

Lemma submits_inv io ref now s fp q answer q' : queue_inv q -> fresh ref q ->
  submits io ref now s fp q answer q' -> queue_inv q'.
Proof.
  intros Hq [Hnew Hfr] [e|st Hterm Hst]; [done|]. pose proof (pending_job q) as Hpj. destruct Hq as [Hc Hp Hl Hm] eqn:Hqe.
  constructor; [| |done|done].
  - eapply core_ok_iff; [eapply (core_file (history_limit q) _ _ io (new_job s ref fp now)); [exact Hc|done|done|done| | |exact Hst]| |done].
    + intros run e Hrun He. apply Hterm. unfold get, job_at. cbn in Hrun. by rewrite Hrun.
    + cbn. destruct (q_store (tabs q)); [|done]. cbn in *. set_solver.
    + intros x. cbn. by rewrite elem_of_app, list_elem_of_singleton.
  - cbn. apply NoDup_app. split_and!; [done| |apply NoDup_singleton]. intros x Hx ->%list_elem_of_singleton.
    destruct (Hpj ref Hq Hx) as (j & Hj & _). congruence.
Qed.

(** ** Every step *)

Record queue_ok q : Prop := {
  qo_inv : queue_inv q;
  qo_wake : wake_ok q;
  qo_stopped : dispatcher q = Stopped -> closed q = true;
}.

(** A step that starts nothing and frees nothing. *)
Lemma quiet_ok q q' : queue_ok q -> queue_inv q' -> may_dispatch q' = may_dispatch q ->
  (pending q = [] -> pending q' = []) -> wakeup q' = wakeup q -> closed q' = closed q -> dispatcher q' = dispatcher q ->
  queue_ok q'.
Proof.
  intros [Hi Hw Hs] Hi' Hm Hp Hwk Hcl Hd. constructor; [done| |by rewrite Hd, Hcl].
  unfold wake_ok in *. rewrite Hm, Hwk, Hcl. naive_solver.
Qed.

(** A step that raises the wakeup. *)
Lemma waking_ok q q' : queue_ok q -> queue_inv q' -> wakeup q' = true -> closed q' = closed q ->
  dispatcher q' = dispatcher q -> queue_ok q'.
Proof. intros [] ? ? Hcl Hd. constructor; [done|by right; left|by rewrite Hd, Hcl]. Qed.

Lemma quiet_tabs q tb : queue_ok q -> queue_inv (with_tabs tb q) -> queue_ok (with_tabs tb q).
Proof. intros Hq Hi. by apply (quiet_ok q). Qed.

Lemma update_queue_ok q run f : queue_ok q ->
  (forall j, heap (tabs q) !! run = Some j -> task_ok j ->
     key (f j) = key j /\ run_id (f j) = run_id j /\ state (f j) = state j /\ task_ok (f j)) ->
  queue_ok (with_tabs (update_job run f (tabs q)) q).
Proof. intros Hq Hf. apply quiet_tabs; [done|]. by apply update_inv; [apply Hq|]. Qed.

Lemma finish_run_queue_ok io now run ending err j q : queue_ok q -> heap (tabs q) !! run = Some j ->
  state j = Running -> terminal ending = true -> queue_ok (finish_run io now run ending err q).
Proof. intros Hq Hj Hs Hend. apply (waking_ok q); try done. by eapply finish_run_inv; [apply Hq| | |]. Qed.

Lemma wrap_up_queue_ok io now run ending err j q : queue_ok q -> heap (tabs q) !! run = Some j ->
  state j = Running -> terminal ending = true -> queue_ok (wrap_up settles io now run ending err q).
Proof.
  intros Hq Hj Hs Hend. unfold wrap_up. destruct settles; [|by eapply finish_run_queue_ok].
  apply quiet_tabs; [done|]. by eapply set_task_inv; [apply Hq| | |].
Qed.

Lemma conclude_queue_ok io now run outcome j q : queue_ok q -> heap (tabs q) !! run = Some j ->
  state j = Running -> queue_ok (conclude settles io now run outcome q).
Proof.
  intros Hq Hj Hs. destruct outcome as [r| |err]; cbn [conclude]; try by eapply wrap_up_queue_ok.
  eapply (wrap_up_queue_ok _ _ _ _ _ (set_result r j)); [|cbn; by rewrite lookup_alter_eq, Hj|done|done].
  by apply update_queue_ok.
Qed.

Lemma cancel_queued_queue_ok io now run q : queue_ok q -> run ∈ pending q -> queue_ok (cancel_queued io now run q).
Proof.
  intros Hq Hin. apply (quiet_ok q); try done; [by apply cancel_queued_inv; [apply Hq|]|]. cbn. by intros ->.
Qed.

Lemma clear_queue_ok io now q victims : queue_ok q -> NoDup victims -> (forall run, run ∈ victims -> run ∈ pending q) ->
  queue_ok (foldl (fun q run => cancel_queued (io run) now run q) q victims).
Proof.
  revert q. induction victims as [|run l IH]; intros q Hq Hnd Hin; [done|]. cbn.
  apply NoDup_cons in Hnd as [Hno Hnd]. apply IH; [apply cancel_queued_queue_ok; [done|apply Hin; by constructor]|done|].
  intros x Hx. cbn. apply list_elem_of_filter. split; [by intros ->|]. apply Hin. by right.
Qed.

Lemma dispatch_queue_ok io now q : queue_ok q -> queue_ok (dispatch_turn io now q).
Proof.
  intros [Hi Hw Hs]. unfold dispatch_turn.
  assert (Hi0 : queue_inv (with_wakeup false q)) by by destruct Hi.
  destruct (closed (with_wakeup false q)) eqn:Hcl.
  - constructor; [by destruct Hi0|by left|done].
  - pose proof (fill_done (length (pending (with_wakeup false q))) io now _ Hi0 ltac:(done)) as Hdone.
    set (q2 := fill _ io now (with_wakeup false q)) in *.
    assert (Hsame : dispatcher q2 = dispatcher q /\ closed q2 = closed q).
    { unfold q2. generalize (length (pending (with_wakeup false q))). intros n.
      change (dispatcher q) with (dispatcher (with_wakeup false q)). change (closed q) with (closed (with_wakeup false q)).
      generalize (with_wakeup false q). clear. induction n as [|n IH]; intros q; [done|]. cbn.
      destruct (may_dispatch q); [|done]. destruct (pending_order q) as [|run rest]; [done|].
      by destruct (IH (start_job (io run) now run rest q)) as [-> ->]. }
    constructor; [by apply fill_inv| |by rewrite (proj1 Hsame), (proj2 Hsame)].
    unfold wake_ok. naive_solver.
Qed.

Lemma others_inv q d d' : queue_inv q -> q_store (tabs q) = Some d -> others d d' ->
  queue_inv (with_tabs (with_store d' (tabs q)) q).
Proof.
  intros [[Ht Hj Hr Hh] Hp Hl Hm] Hd Ho. constructor; try done. constructor; [by eapply tabs_ok_same|by destruct Hj| |done].
  intros d0 [= <-] run j Hjob Hlive. destruct (others_law _ _ Ho) as [-> Hsub].
  destruct (Hr _ Hd run j Hjob Hlive). set_solver.
Qed.

Lemma qstep_ok q q' : queue_ok q -> qstep digest completes settles q q' -> queue_ok q'.
Proof.
  intros Hq Hstep. pose proof Hq as [Hi Hw Hs]. destruct Hstep.
  - unfold start. destruct (dispatcher q) eqn:Hd; [|done|done]. constructor; [by destruct Hi|done|done].
  - destruct (submit_ok _ _ _ _ _ _ _ _ Hi H2) as (_ & fp & _ & Hsub).
    pose proof (submits_inv _ _ _ _ _ _ _ _ Hi H1 Hsub) as Hi'.
    destruct Hsub; [done|]. by apply (waking_ok q).
  - constructor; [|by right; right; left|done]. destruct Hi. constructor; try done. intros Hm. cbn in Hm.
    by destruct (qi_maintenance0 Hm).
  - unfold resume in H1. apply bind_ok in H1 as ([] & Hm%raise_if_ok & [= <-]). apply (waking_ok q); try done.
    destruct Hi. constructor; try done. cbn. by rewrite Hm.
  - unfold begin_maintenance. destruct (maintenance q) eqn:Hm; [done|]. destruct (paused q) eqn:Hp; [|done].
    case_bool_decide as Hr; [|done]. constructor; [|right; right; left; unfold may_dispatch; done|done].
    destruct Hi. by constructor.
  - destruct (maintenance q) eqn:Hm.
    + destruct (qi_maintenance q Hi Hm) as [Hp Hr]. constructor; [by destruct Hi; constructor| |done].
      right; right; left. unfold may_dispatch. cbn. by rewrite Hp.
    + apply (quiet_ok q); try done; [by destruct Hi; constructor|]. unfold may_dispatch. cbn. by rewrite Hm.
  - unfold set_max_running in H1. apply bind_ok in H1 as ([] & Hn%raise_if_ok & [= <-]).
    constructor; [destruct Hi; constructor; try done; cbn; lia| |done].
    destruct (Z.of_nat (max_running q) <? n) eqn:Hr; [right; left; cbn; by rewrite orb_true_r|].
    destruct Hw as [?|[Hwk|[Hmay|?]]]; [by left|right; left; cbn; by rewrite Hwk| |by right; right; right].
    right; right; left. unfold may_dispatch in *. cbn. destruct (negb (paused q) && negb (maintenance q)); [|done].
    cbn in *. apply Nat.ltb_ge in Hmay. apply Nat.ltb_ge. lia.
  - unfold cancel. destruct (jobs (tabs q) !! k) as [run|] eqn:Hk; [|done].
    destruct (job_at (tabs q) run) as [j|] eqn:Hj; [|done]. destruct (terminal (state j)); [done|].
    destruct (state j) eqn:Hst; try (apply quiet_tabs; [done|]; by apply cancel_task_inv).
    apply cancel_queued_queue_ok; [done|]. apply (to_queued _ _ _ (inv_tabs q Hi)). by exists j.
  - apply clear_queue_ok; [done| |].
    + apply NoDup_filter. unfold pending_order. rewrite (merge_sort_Permutation (dispatch_le (tabs q)) (pending q)). apply Hi.
    + intros run [_ Hin]%list_elem_of_filter. unfold pending_order in Hin.
      by rewrite (merge_sort_Permutation (dispatch_le (tabs q)) (pending q)) in Hin.
  - constructor; [by apply close_inv|by left|done].
  - by apply dispatch_queue_ok.
  - constructor; [by destruct Hi|by destruct Hw as [?|[?|[?|?]]]; [left|right; left|right; right; left|right; right; right]|done].
  - destruct (at_task_running _ _ _ Hi H1 ltac:(done)) as (j & Hj & Hst & _). destruct context as [err|]; cbn [run_begins].
    + by eapply wrap_up_queue_ok.
    + apply quiet_tabs; [done|]. by eapply set_task_inv.
  - destruct (at_task_running _ _ _ Hi H1 ltac:(done)) as (j & Hj & Hst & _).
    unfold engine_ends. destruct outcome; try by eapply conclude_queue_ok.
    destruct completes; [|by eapply conclude_queue_ok]. apply quiet_tabs; [done|]. by eapply set_task_inv.
  - destruct (at_task_running _ _ _ Hi H1 ltac:(done)) as (j & Hj & Hst & _). by eapply conclude_queue_ok.
  - assert (Hend : exists j, heap (tabs q) !! run = Some j /\ state j = Running /\ task j = Settling ending err
                   /\ terminal ending = true).
    { apply fmap_Some in H1 as (j & Hj & Htk). symmetry in Htk. exists j.
      pose proof (jo_task _ (inv_jobs q Hi) _ _ Hj) as Hok. unfold task_ok in Hok. rewrite Htk in Hok.
      destruct (state j); try done; by destruct Hok. }
    destruct Hend as (j & Hj & Hst & Htk & Hend). unfold settle_ends, job_at. rewrite Hj, Htk. by eapply finish_run_queue_ok.
  - by apply update_queue_ok.
  - apply quiet_tabs; [done|]. by eapply others_inv.
Qed.

Lemma queue_initial_ok q : queue_initial q -> queue_ok q.
Proof.
  intros (max & limit & d & Hinit). unfold queue_init in Hinit.
  apply bind_ok in Hinit as ([] & Hmax%raise_if_ok & Hinit). apply bind_ok in Hinit as ([] & Hlim%raise_if_ok & [= <-]).
  constructor; [|by right; right; right|done]. constructor; cbn; [|constructor|lia|done]. constructor; cbn.
  - constructor; cbn; try set_solver.
    + intros k. by rewrite !lookup_empty.
    + constructor.
  - by constructor; cbn.
  - intros d0 _ run j Hj. done.
  - lia.
Qed.

Lemma queue_reachable_ok q : queue_reachable digest completes settles q -> queue_ok q.
Proof.
  intros (q0 & Hinit%queue_initial_ok & Hsteps). exact (star_invariant _ queue_ok qstep_ok _ _ Hsteps Hinit).
Qed.
End reachable.
