(* ===== verification/QueueRuns.v ===== *)
(** QueueRuns: what every run of the job queue guarantees: a job's life, the
    dispatch order and its bounds, the wakeup, resubmission, and what a
    restart finds in the history, with the queue of [Queue] over the store of
    [History]. *)
From S2P Require Import Prelude PyStr Graph GraphWire Lower Jobs History Queue.

Local Open Scope string_scope.
Local Open Scope Z_scope.
Local Open Scope list_scope.

(** * How jobs move *)

(** What a job keeps for ever, what it keeps once it has ended, and that a
    coroutine that was cancelled before its first step never runs. *)
Record moves (j j' : Job) : Prop := {
  mv_key : key j' = key j;
  mv_run : run_id j' = run_id j;
  mv_content : graph j' = graph j /\ targets j' = targets j /\ fingerprint j' = fingerprint j;
  mv_final : terminal (state j) = true -> state j' = state j /\ job_error j' = job_error j
               /\ job_result j' = job_result j /\ finished_at j' = finished_at j;
  mv_stuck : task j = NeverRan -> state j = Running -> task j' = NeverRan /\ state j' = Running;
}.

#[export] Instance moves_refl : Reflexive moves.
Proof. by constructor. Qed.

#[export] Instance moves_trans : Transitive moves.
Proof.
  intros a b c [Hk Hr Hc Hf Hs] [Hk' Hr' Hc' Hf' Hs']. constructor; [congruence|congruence| | |].
  - destruct Hc as (? & ? & ?), Hc' as (? & ? & ?). split_and!; congruence.
  - intros Ht. destruct (Hf Ht) as (Hst & ? & ? & ?). rewrite <- Hst in Ht. destruct (Hf' Ht) as (? & ? & ? & ?).
    split_and!; congruence.
  - intros Ht Hst. destruct (Hs Ht Hst). auto.
Qed.

Section moving.
Context {D : Type} `{DurableStore D}.
Context (digest : gvalue -> string) (completes settles : bool).
Implicit Types (q : JobQueue D) (tb : Tables D) (run : string).

Definition heap_moves tb tb' : Prop :=
  forall run j, heap tb !! run = Some j -> exists j', heap tb' !! run = Some j' /\ moves j j'.

#[local] Instance heap_moves_refl : Reflexive heap_moves.
Proof. intros tb run j Hj. by exists j. Qed.

#[local] Instance heap_moves_trans : Transitive heap_moves.
Proof.
  intros a b c Hab Hbc run j Hj. destruct (Hab _ _ Hj) as (j1 & Hj1 & ?). destruct (Hbc _ _ Hj1) as (j2 & Hj2 & ?).
  exists j2. split; [done|]. by transitivity j1.
Qed.

Lemma moves_same tb tb' : heap tb' = heap tb -> heap_moves tb tb'.
Proof. intros Hh run j Hj. exists j. by rewrite Hh. Qed.

Lemma moves_update run f tb : (forall j, heap tb !! run = Some j -> moves j (f j)) -> heap_moves tb (update_job run f tb).
Proof.
  intros Hf x j Hj. cbn. destruct (decide (x = run)) as [->|Hne].
  - rewrite lookup_alter_eq, Hj. eexists. split; [done|auto].
  - rewrite lookup_alter_ne by done. by exists j.
Qed.

(** A job that has not ended, and whose coroutine was not cancelled unborn. *)
Definition may_move (j : Job) : Prop := terminal (state j) = false /\ (task j = NeverRan -> state j <> Running).

Lemma moves_free j j' : may_move j -> key j' = key j -> run_id j' = run_id j -> graph j' = graph j ->
  targets j' = targets j -> fingerprint j' = fingerprint j -> moves j j'.
Proof. intros [Hl Hn] ? ? ? ? ?. constructor; try done; [congruence|]. intros Ht Hs. by destruct (Hn Ht). Qed.

Lemma moves_finish limit io now run ending err f j tb : heap tb !! run = Some j -> may_move j -> moves j (f j) ->
  may_move (f j) -> heap_moves tb (finish limit io now run ending err (update_job run f tb)).
Proof.
  intros Hj Hm Hf Hm'. etransitivity; [apply (moves_update run f); congruence|].
  assert (Hj1 : heap (update_job run f tb) !! run = Some (f j)) by (cbn; by rewrite lookup_alter_eq, Hj).
  destruct (finish_heap limit io now run ending err (f j) _ Hj1) as [Hh _].
  intros x j0. rewrite Hh. apply (moves_update run (set_finished now ending err)). intros j1 Hj2.
  rewrite Hj1 in Hj2. injection Hj2 as <-. by apply moves_free.
Qed.

Lemma queued_may_move j : state j = Queued -> may_move j.
Proof. intros Hs. split; by rewrite Hs. Qed.

Lemma running_may_move j : state j = Running -> task j <> NeverRan -> may_move j.
Proof. intros Hs Ht. split; [by rewrite Hs|done]. Qed.

Lemma moves_finish_queued limit io now run ending err j tb : heap tb !! run = Some j -> state j = Queued ->
  heap_moves tb (finish limit io now run ending err tb).
Proof.
  intros Hj Hs. rewrite <- (update_id run tb) at 2. apply queued_may_move in Hs. by eapply moves_finish.
Qed.

Lemma moves_cancel_queued io now run q : queue_inv q -> run ∈ pending q ->
  heap_moves (tabs q) (tabs (cancel_queued io now run q)).
Proof. intros Hq (j & Hj & Hs)%pending_job; [|done]. by eapply moves_finish_queued. Qed.

Lemma moves_clear io now q victims : queue_inv q -> NoDup victims -> (forall run, run ∈ victims -> run ∈ pending q) ->
  heap_moves (tabs q) (tabs (foldl (fun q run => cancel_queued (io run) now run q) q victims)).
Proof.
  revert q. induction victims as [|run l IH]; intros q Hq Hnd Hin; [done|]. cbn.
  apply NoDup_cons in Hnd as [Hno Hnd]. etransitivity; [apply moves_cancel_queued; [done|apply Hin; by left]|].
  apply IH; [apply cancel_queued_inv; [done|apply Hin; by left]|done|].
  intros x Hx. cbn. apply list_elem_of_filter. split; [by intros ->|]. apply Hin. by right.
Qed.

Lemma moves_cancel_task run tb : heap_moves tb (cancel_task run tb).
Proof.
  apply moves_update. intros j _. by destruct (task j).
Qed.

Lemma moves_start io now run rest q : queue_inv q -> may_dispatch q = true -> pending_order q = run :: rest ->
  heap_moves (tabs q) (tabs (start_job io now run rest q)).
Proof.
  intros Hq Hm Ho. destruct (start_job_inv io now run rest q Hq Hm Ho) as (_ & _ & j & Hj & Hs & _).
  etransitivity; [apply (moves_update run (set_running now)); intros j0 Hj0; assert (j0 = j) as -> by congruence|].
  - by apply moves_free; [apply queued_may_move|..].
  - apply moves_same. cbn. rewrite (proj1 (proj2 (proj2 (emit_same _ _)))). by rewrite (proj1 (write_same _ _ _ _)).
Qed.

Lemma moves_fill fuel io now q : queue_inv q -> heap_moves (tabs q) (tabs (fill fuel io now q)).
Proof.
  revert q. induction fuel as [|fuel IH]; intros q Hq; [done|]. cbn.
  destruct (may_dispatch q) eqn:Hmay; [|done]. destruct (pending_order q) as [|run rest] eqn:Hord; [done|].
  etransitivity; [by apply (moves_start (io run) now)|]. by apply IH, start_job_inv.
Qed.

Lemma moves_finish_run io now run ending err j q : heap (tabs q) !! run = Some j -> may_move j ->
  heap_moves (tabs q) (tabs (finish_run io now run ending err q)).
Proof. intros Hj Hm. cbn. eapply moves_finish; [done|done|by apply moves_free|]. destruct Hm. by split. Qed.

Lemma moves_wrap_up io now run ending err j q : heap (tabs q) !! run = Some j -> may_move j ->
  heap_moves (tabs q) (tabs (wrap_up settles io now run ending err q)).
Proof.
  intros Hj Hm. unfold wrap_up. destruct settles; [|by eapply moves_finish_run].
  apply moves_update. intros j0 Hj0. assert (j0 = j) as -> by congruence. by apply moves_free.
Qed.

Lemma moves_conclude io now run outcome j q : heap (tabs q) !! run = Some j -> may_move j ->
  heap_moves (tabs q) (tabs (conclude settles io now run outcome q)).
Proof.
  intros Hj Hm. destruct outcome as [r| |err]; cbn [conclude]; try by eapply moves_wrap_up.
  etransitivity; [apply (moves_update run (set_result r)); intros j0 Hj0; assert (j0 = j) as -> by congruence; by apply moves_free|].
  apply (moves_wrap_up io now run Completed None (set_result r j) (with_tabs (update_job run (set_result r) (tabs q)) q)); [cbn; by rewrite lookup_alter_eq, Hj|done].
Qed.

Lemma moves_cancelled limit io now err rn pd tb : core_ok limit (fun x => x ∈ pd) rn tb -> NoDup pd ->
  heap_moves tb (foldl (fun tb run => finish limit (io run) now run Cancelled err tb) tb pd).
Proof.
  revert tb. induction pd as [|run pd IH]; intros tb Hc Hnd; [done|]. cbn.
  destruct (core_finish_next limit (io run) now err rn run pd tb Hc Hnd) as (Hc' & j & Hj & Hs).
  etransitivity; [by eapply moves_finish_queued|]. by apply IH; [|apply NoDup_cons in Hnd as []].
Qed.

Lemma moves_cancel_tasks l tb : heap_moves tb (foldl (fun tb run => cancel_task run tb) tb l).
Proof.
  revert tb. induction l as [|run l IH]; intros tb; [done|]. cbn. etransitivity; [apply moves_cancel_task|apply IH].
Qed.

Lemma moves_close io now q : queue_inv q -> heap_moves (tabs q) (tabs (close_begin io now q)).
Proof.
  intros [Hc Hp _ _]. unfold close_begin. cbn [tabs]. etransitivity; [by eapply moves_cancelled|apply moves_cancel_tasks].
Qed.

Lemma at_task_moves q run tk : queue_inv q -> at_task q run tk -> fits_running tk -> tk <> NeverRan ->
  exists j, heap (tabs q) !! run = Some j /\ may_move j.
Proof.
  intros Hq Hat Hfit Hne. destruct (at_task_running q run tk Hq Hat Hfit) as (j & Hj & Hs & Htk). exists j.
  split; [done|]. apply running_may_move; [done|congruence].
Qed.

Lemma moves_submits io ref now s fp q answer q' : fresh ref q -> submits io ref now s fp q answer q' ->
  heap_moves (tabs q) (tabs q').
Proof.
  intros [Hnew _] [e|st Hterm Hst]; [done|]. cbn. intros x j Hj. exists j. split; [|done].
  rewrite (proj1 (proj2 (proj2 (emit_same _ _)))). cbn. rewrite lookup_insert_ne by congruence.
  by destruct (jobs (tabs q) !! s_key s).
Qed.

Lemma qstep_moves q q' : queue_inv q -> qstep digest completes settles q q' -> heap_moves (tabs q) (tabs q').
Proof.
  intros Hi Hstep. destruct Hstep; try done.
  - unfold start. by destruct (dispatcher q).
  - destruct (submit_ok _ _ _ _ _ _ _ _ _ Hi H2) as (_ & fp & _ & Hsub). by eapply moves_submits.
  - unfold resume in H1. by apply bind_ok in H1 as ([] & _ & [= <-]).
  - unfold begin_maintenance. by destruct (maintenance q), (negb (paused q)), (negb (bool_decide (running q = ∅))).
  - unfold set_max_running in H1. by apply bind_ok in H1 as ([] & _ & [= <-]).
  - unfold cancel. destruct (jobs (tabs q) !! k) as [run|] eqn:Hk; [|done].
    destruct (job_at (tabs q) run) as [j|] eqn:Hj; [|done]. destruct (terminal (state j)); [done|].
    destruct (state j) eqn:Hst; try apply moves_cancel_task.
    apply moves_cancel_queued; [done|]. apply (to_queued _ _ _ (inv_tabs q Hi)). by exists j.
  - apply moves_clear; [done| |].
    + apply NoDup_filter. unfold pending_order. rewrite (merge_sort_Permutation (dispatch_le (tabs q)) (pending q)). apply Hi.
    + intros run [_ Hin]%list_elem_of_filter. unfold pending_order in Hin.
      by rewrite (merge_sort_Permutation (dispatch_le (tabs q)) (pending q)) in Hin.
  - by apply moves_close.
  - unfold dispatch_turn. destruct (closed (with_wakeup false q)); [done|].
    apply (moves_fill _ io now (with_wakeup false q)). by destruct Hi.
  - destruct (at_task_moves _ _ _ Hi H1) as (j & Hj & Hm); [done|done|]. destruct context as [err|]; cbn [run_begins].
    + by eapply moves_wrap_up.
    + apply moves_update. intros j0 Hj0. assert (j0 = j) as -> by congruence. by apply moves_free.
  - destruct (at_task_moves _ _ _ Hi H1) as (j & Hj & Hm); [done|done|]. unfold engine_ends.
    destruct outcome; try by eapply moves_conclude. destruct completes; [|by eapply moves_conclude].
    apply moves_update. intros j0 Hj0. assert (j0 = j) as -> by congruence. by apply moves_free.
  - destruct (at_task_moves _ _ _ Hi H1) as (j & Hj & Hm); [done|done|]. by eapply moves_conclude.
  - apply fmap_Some in H1 as (j & Hj & Htk). unfold settle_ends. rewrite Hj, <- Htk.
    eapply moves_finish_run; [exact Hj|]. pose proof (jo_task _ (inv_jobs q Hi) _ _ Hj) as Hok. unfold task_ok in Hok.
    rewrite <- Htk in Hok. destruct (state j) eqn:Hs; try done; try by destruct Hok. by apply running_may_move; [|rewrite <- Htk].
  - by apply moves_update.
  - by apply moves_same.
Qed.

Lemma star_moves q q' : queue_ok q -> star (qstep digest completes settles) q q' ->
  queue_ok q' /\ heap_moves (tabs q) (tabs q').
Proof.
  intros Hq Hsteps. induction Hsteps as [|q q1 q2 Hstep _ IH]; [done|].
  destruct (IH (qstep_ok _ _ _ _ _ Hq Hstep)) as [Hok Hm]. split; [done|].
  etransitivity; [eapply qstep_moves; [apply Hq|exact Hstep]|done].
Qed.
End moving.

(** * Dispatch *)

Section dispatching.
Context {D : Type} `{DurableStore D}.
Implicit Types (q : JobQueue D) (tb : Tables D) (run : string).

#[local] Instance dispatch_le_total tb : Total (dispatch_le tb).
Proof. intros a b. unfold dispatch_le. lia. Qed.

#[local] Instance dispatch_le_trans tb : Transitive (dispatch_le tb).
Proof. intros a b c. unfold dispatch_le. lia. Qed.

(** How many jobs a turn of the dispatcher starts. *)
Definition room q : nat :=
  if paused q || maintenance q then 0 else length (pending q) `min` (max_running q - size (running q)).

Lemma pending_order_sorted q : StronglySorted (dispatch_le (tabs q)) (pending_order q).
Proof. apply (StronglySorted_merge_sort (dispatch_le (tabs q))). Qed.

Lemma pending_order_perm q : pending_order q ≡ₚ pending q.
Proof. apply merge_sort_Permutation. Qed.

(** No two jobs that wait are equal in the order. *)
Lemma dispatch_antisym q a b : queue_inv q -> a ∈ pending q -> b ∈ pending q ->
  dispatch_le (tabs q) a b -> dispatch_le (tabs q) b a -> a = b.
Proof.
  intros Hq Ha Hb Hab Hba. pose proof (inv_tabs q Hq) as Ht.
  destruct (pending_job q a Hq Ha) as (ja & Hja & Hsa), (pending_job q b Hq Hb) as (jb & Hjb & Hsb).
  pose proof (to_live _ _ _ Ht _ _ Hja ltac:(by rewrite Hsa)) as Hca.
  pose proof (to_live _ _ _ Ht _ _ Hjb ltac:(by rewrite Hsb)) as Hcb.
  destruct (proj2 (to_order _ _ _ Ht (key ja)) ltac:(by eexists)) as [na Hna].
  destruct (proj2 (to_order _ _ _ Ht (key jb)) ltac:(by eexists)) as [nb Hnb].
  assert (Heq : order_of (tabs q) a = order_of (tabs q) b) by (unfold dispatch_le in *; lia).
  unfold order_of, job_at in Heq. rewrite Hja, Hjb, Hna, Hnb in Heq. cbn in Heq. subst nb.
  rewrite (to_order_inj _ _ _ Ht _ _ _ Hna Hnb) in Hca. congruence.
Qed.

(** Starting a job leaves the others where they were in the order. *)
Lemma start_job_order io now run rest q : queue_inv q -> may_dispatch q = true -> pending_order q = run :: rest ->
  pending_order (start_job io now run rest q) = rest.
Proof.
  intros Hq Hmay Hord. destruct (start_job_inv io now run rest q Hq Hmay Hord) as (Hq' & _ & j & Hj & Hs & _).
  set (q' := start_job io now run rest q) in *.
  assert (Hsame : forall x, order_of (tabs q') x = order_of (tabs q) x /\ priority_of (tabs q') x = priority_of (tabs q) x).
  { assert (Hh : heap (tabs q') = alter (set_running now) run (heap (tabs q))).
    { cbn. rewrite (proj1 (proj2 (proj2 (emit_same _ _)))). by rewrite (proj1 (write_same _ _ _ _)). }
    assert (Ho : order (tabs q') = order (tabs q)).
    { cbn. unfold emit, write. by repeat case_match. }
    intros x. unfold order_of, priority_of, job_at. rewrite Hh, Ho.
    destruct (decide (x = run)) as [->|]; [by rewrite lookup_alter_eq, Hj|by rewrite lookup_alter_ne]. }
  apply (StronglySorted_unique_strong (dispatch_le (tabs q'))).
  - intros a b Ha Hb. rewrite pending_order_perm in Ha. by apply dispatch_antisym.
  - apply pending_order_sorted.
  - pose proof (pending_order_sorted q) as Hsort. rewrite Hord in Hsort. apply StronglySorted_inv in Hsort as [Hsort _].
    eapply StronglySorted_impl; [|exact Hsort]. intros a b. unfold dispatch_le.
    destruct (Hsame a) as [-> ->], (Hsame b) as [-> ->]. done.
  - apply pending_order_perm.
Qed.

Lemma start_job_same io now run rest q :
  jobs (tabs (start_job io now run rest q)) = jobs (tabs q)
  /\ paused (start_job io now run rest q) = paused q /\ maintenance (start_job io now run rest q) = maintenance q
  /\ max_running (start_job io now run rest q) = max_running q.
Proof. split; [|done]. cbn. unfold emit, write. by repeat case_match. Qed.

Lemma may_dispatch_spec q : may_dispatch q = true <->
  paused q = false /\ maintenance q = false /\ (size (running q) < max_running q)%nat.
Proof. unfold may_dispatch. rewrite !andb_true_iff, !negb_true_iff, Nat.ltb_lt. tauto. Qed.

Lemma fill_starts fuel io now q : queue_inv q -> (length (pending q) <= fuel)%nat ->
  exists started, pending_order q = started ++ pending_order (fill fuel io now q)
    /\ length started = room q
    /\ (forall run, run ∈ started -> exists j, heap (tabs q) !! run = Some j /\ key j ∈ running (fill fuel io now q))
    /\ size (running (fill fuel io now q)) = (size (running q) + room q)%nat
    /\ running q ⊆ running (fill fuel io now q)
    /\ jobs (tabs (fill fuel io now q)) = jobs (tabs q).
Proof.
  revert q. induction fuel as [|fuel IH]; intros q Hq Hlen; cbn [fill].
  { assert (Hroom : room q = 0%nat) by (unfold room; destruct (paused q || maintenance q); lia).
    exists []. rewrite Hroom, Nat.add_0_r. split_and!; try done. intros run Hrun. by apply not_elem_of_nil in Hrun. }
  assert (Hstop : room q = 0%nat -> exists started, pending_order q = started ++ pending_order q
    /\ length started = room q
    /\ (forall run, run ∈ started -> exists j, heap (tabs q) !! run = Some j /\ key j ∈ running q)
    /\ size (running q) = (size (running q) + room q)%nat /\ running q ⊆ running q /\ jobs (tabs q) = jobs (tabs q)).
  { intros ->. exists []. split_and!; try done. intros run Hrun. by apply not_elem_of_nil in Hrun. }
  destruct (may_dispatch q) eqn:Hmay.
  2:{ apply Hstop. unfold room. destruct (paused q) eqn:Hp, (maintenance q) eqn:Hm; try done. cbn.
      assert (~ (size (running q) < max_running q)%nat); [|lia]. intros Hlt.
      assert (may_dispatch q = true) by by apply may_dispatch_spec. congruence. }
  destruct (pending_order q) as [|run rest] eqn:Hord.
  { rewrite Hord. apply Hstop. unfold room. pose proof (Permutation_length (pending_order_perm q)) as Hl.
    rewrite Hord in Hl. cbn in Hl. rewrite <- Hl. by destruct (paused q || maintenance q). }
  destruct (start_job_inv (io run) now run rest q Hq Hmay Hord) as (Hq1 & Hshort & j & Hj & Hs & Hnk & Hrun1).
  destruct (start_job_same (io run) now run rest q) as (Hjobs & Hp1 & Hm1 & Hmax1).
  pose proof (start_job_order (io run) now run rest q Hq Hmay Hord) as Hord1.
  set (q1 := start_job (io run) now run rest q) in *.
  destruct (IH q1 Hq1 ltac:(cbn; lia)) as (started & Hsplit & Hl & Hkeys & Hsize & Hsub & Hjobs').
  apply may_dispatch_spec in Hmay as (Hp & Hm & Hlt).
  assert (Hroom : room q = S (room q1)).
  { unfold room. rewrite Hp1, Hm1, Hp, Hm, Hmax1. cbn [orb].
    assert (Hs1 : size (running q1) = S (size (running q))) by (rewrite Hrun1, size_union, size_singleton by set_solver; lia).
    rewrite Hs1. change (pending q1) with rest. pose proof (Permutation_length (pending_order_perm q)) as Hlp. rewrite Hord in Hlp. cbn in Hlp. lia. }
  exists (run :: started). rewrite Hsize, Hroom, Hrun1 in *. split_and!.
  - cbn. congruence.
  - cbn. lia.
  - intros x [->|Hx]%elem_of_cons; [exists j; set_solver|]. destruct (Hkeys x Hx) as (jx & Hjx & Hk).
    assert (Hx0 : exists j0, heap (tabs q) !! x = Some j0 /\ key j0 = key jx).
    { assert (Hin : x ∈ pending q) by (rewrite <- pending_order_perm, Hord, <- Hord1, Hsplit; set_solver).
      destruct (pending_job q x Hq Hin) as (j0 & Hj0 & _). exists j0. split; [done|].
      destruct (moves_start (io run) now run rest q Hq) with (run := x) (j := j0) as (j1 & Hj1 & Hmv); [by apply may_dispatch_spec|done|done|].
      fold q1 in Hj1. assert (j1 = jx) as -> by congruence. symmetry. apply Hmv. }
    destruct Hx0 as (j0 & Hj0 & Hk0). exists j0. rewrite Hk0. done.
  - rewrite size_union, size_singleton by set_solver. lia.
  - set_solver.
  - congruence.
Qed.
End dispatching.

(** * What every run guarantees *)

Section runs.
Context {D : Type} `{DurableStore D}.
Context (digest : gvalue -> string) (completes settles : bool).
Implicit Types (q : JobQueue D) (tb : Tables D) (run : string).

#[local] Notation reachable := (queue_reachable digest completes settles).
#[local] Notation steps := (star (qstep digest completes settles)).

(** A key runs when its job does. *)
Lemma running_state q k : queue_inv q -> k ∈ running q <-> state <$> get k q = Some Running.
Proof.
  intros Hq. rewrite (to_running _ _ _ (inv_tabs q Hq)). unfold get, job_at. split.
  - intros (x & j & Hk & Hj & Hs). rewrite Hk. cbn. rewrite Hj. cbn. by rewrite Hs.
  - intros (j & Hj & Hs)%fmap_Some. apply bind_Some in Hj as (x & Hk & Hj). by exists x, j.
Qed.

Lemma dispatch_turn_starts io now q : queue_inv q -> closed q = false ->
  exists started, pending_order q = started ++ pending_order (dispatch_turn io now q)
    /\ length started = room q
    /\ Forall (fun run => state <$> job_at (tabs (dispatch_turn io now q)) run = Some Running) started
    /\ size (running (dispatch_turn io now q)) = (size (running q) + room q)%nat.
Proof.
  intros Hq Hcl. unfold dispatch_turn. change (closed (with_wakeup false q)) with (closed q). rewrite Hcl.
  assert (Hq0 : queue_inv (with_wakeup false q)) by by destruct Hq.
  destruct (fill_starts (length (pending q)) io now (with_wakeup false q) Hq0 ltac:(done)) as
    (started & Hsplit & Hlen & Hkeys & Hsize & _ & Hjobs).
  exists started. split_and!; [exact Hsplit|exact Hlen| |exact Hsize].
  apply Forall_forall. intros run Hrun. destruct (Hkeys run Hrun) as (j & Hj & Hk).
  pose proof (fill_inv (length (pending q)) io now _ Hq0) as Hq'.
  apply (to_running _ _ _ (inv_tabs _ Hq')) in Hk as (x & j' & Hx & Hj' & Hs). rewrite Hjobs in Hx.
  assert (Hin : run ∈ pending q).
  { change (pending_order (with_wakeup false q)) with (pending_order q) in Hsplit.
    rewrite <- pending_order_perm, Hsplit. set_solver. }
  destruct (pending_job q run Hq Hin) as (j0 & Hj0 & Hs0). assert (j0 = j) as -> by (cbn in Hj; congruence).
  pose proof (to_live _ _ _ (inv_tabs q Hq) _ _ Hj0 ltac:(by rewrite Hs0)) as Hcur.
  assert (x = run) as -> by (cbn in Hx; congruence). unfold job_at. cbn in *. rewrite Hj'. cbn. by rewrite Hs.
Qed.

(** Dispatch is fair and keeps to the limit.  A turn of the dispatcher of
    an open queue takes the first jobs of the queue, ordered by priority and
    then by submission, and no others; it takes as many as wait and as there
    are free slots, and none while the queue is paused or in maintenance;
    those it takes run afterwards, and no job it leaves comes before one it
    takes. *)
Theorem dispatch_takes_the_first io now q : reachable q -> closed q = false ->
  exists started, pending_order q = started ++ pending_order (dispatch_turn io now q)
    /\ length started = (if paused q || maintenance q then 0
                         else length (pending q) `min` (max_running q - size (running q)))%nat
    /\ Forall (fun run => state <$> job_at (tabs (dispatch_turn io now q)) run = Some Running) started
    /\ (forall a b, a ∈ started -> b ∈ pending (dispatch_turn io now q) -> dispatch_le (tabs q) a b)
    /\ (size (running (dispatch_turn io now q)) <= size (running q) `max` max_running q)%nat.
Proof.
  intros Hr%queue_reachable_ok Hcl. destruct (dispatch_turn_starts io now q ltac:(apply Hr) Hcl) as (l & Hl & Hlen & Hrun & Hsize).
  exists l. split_and!; [done|done|done| |].
  - intros a b Ha Hb. pose proof (pending_order_sorted q) as Hsort. rewrite Hl in Hsort.
    eapply (StronglySorted_app_1_elem_of (dispatch_le (tabs q))); [exact Hsort|done|by rewrite pending_order_perm].
  - rewrite Hsize. unfold room. destruct (paused q || maintenance q); lia.
Qed.

(** C39: No wakeup is lost.  Whatever happened before, when the queue is open,
    not paused and has a free slot and a job that waits, its dispatcher has
    not returned and is signalled, and its next turn starts the first job. *)
Theorem no_wakeup_is_lost io now q : reachable q -> closed q = false -> may_dispatch q = true -> pending q <> [] ->
  wakeup q = true /\ dispatcher q <> Stopped
  /\ exists run, head (pending_order q) = Some run
       /\ state <$> job_at (tabs (dispatch_turn io now q)) run = Some Running.
Proof.
  intros Hr%queue_reachable_ok Hcl Hmay Hne. destruct (qo_wake q Hr) as [?|[Hw|[?|?]]]; [congruence| |congruence|done].
  split_and!; [done|intros Hs%(qo_stopped q Hr); congruence|].
  destruct (dispatch_turn_starts io now q ltac:(apply Hr) Hcl) as (l & Hl & Hlen & Hrun & _).
  apply may_dispatch_spec in Hmay as (Hp & Hm & Hlt). unfold room in Hlen. rewrite Hp, Hm in Hlen. cbn [orb] in Hlen.
  destruct (pending q) as [|x rest] eqn:Hpd; [done|]. destruct l as [|run l]; [cbn [length] in Hlen; lia|].
  exists run. rewrite Hl. split; [done|]. by apply Forall_cons in Hrun as [? _].
Qed.

(** A job lives once.  The listener is told that it is queued, then
    perhaps that it runs, then one ending, each once and in this order; later
    it is the same job with the same content, and once it has ended its
    state, error, result and time never change. *)
Theorem job_lives_once q q' run j : reachable q -> steps q q' -> heap (tabs q) !! run = Some j ->
  life (state j) (told_of run (emitted (tabs q)))
  /\ exists j', heap (tabs q') !! run = Some j' /\ life (state j') (told_of run (emitted (tabs q')))
       /\ key j' = key j /\ run_id j' = run /\ graph j' = graph j /\ targets j' = targets j
       /\ (terminal (state j) = true -> state j' = state j /\ job_error j' = job_error j
             /\ job_result j' = job_result j /\ finished_at j' = finished_at j).
Proof.
  intros Hr%queue_reachable_ok Hsteps Hj. destruct (star_moves _ _ _ _ _ Hr Hsteps) as [Hr' Hm].
  destruct (Hm run j Hj) as (j' & Hj' & Hmv). pose proof (inv_jobs q (qo_inv q Hr)) as Hok.
  pose proof (inv_jobs q' (qo_inv q' Hr')) as Hok'. split; [by eapply jo_life|]. exists j'.
  destruct (mv_content _ _ Hmv) as (Hg & Ht & _). split_and!; try done; [by eapply jo_life|apply Hmv| |apply Hmv].
  by apply (to_ids _ _ _ (inv_tabs q' (qo_inv q' Hr'))).
Qed.

Lemma keys_of_runs tb (l : list string) : (size (list_to_set (omap (fun run => key <$> heap tb !! run) l) : gset JobKey)
  <= length l)%nat.
Proof.
  induction l as [|x l IH]; [done|]. cbn. destruct (key <$> heap tb !! x) as [k|]; cbn; [|lia].
  pose proof (size_union_bound {[k]} (list_to_set (omap (fun run => key <$> heap tb !! run) l))) as Hs.
  rewrite size_singleton in Hs. lia.
Qed.

(** C40: The tables agree and are bounded.  A run answers its job exactly when
    the job's key does and the job has that run; the keys that hold a slot
    are those whose job runs, and the jobs that wait are the queued ones;
    and the jobs the queue knows are never more than those that wait, those
    that run and the history limit. *)
Theorem tables_agree q : reachable q ->
  (forall run j, job_for_run run q = Some j <-> get (key j) q = Some j /\ run_id j = run)
  /\ (forall k, k ∈ running q <-> state <$> get k q = Some Running)
  /\ (forall run, run ∈ pending q <-> exists j, get (key j) q = Some j /\ run_id j = run /\ state j = Queued)
  /\ (size (jobs (tabs q)) <= length (pending q) + size (running q) + history_limit q)%nat.
Proof.
  intros Hr%queue_reachable_ok. pose proof (qo_inv q Hr) as Hq. pose proof (inv_tabs q Hq) as Ht. split_and!.
  - intros run j. unfold job_for_run, get, job_at. split.
    + intros (k & Hk & (x & Hx & Hj)%bind_Some)%bind_Some. pose proof (to_ids _ _ _ Ht _ _ Hj) as Hid.
      apply (to_by_run _ _ _ Ht) in Hk. assert (x = run) as -> by congruence.
      destruct (to_jobs _ _ _ Ht _ _ Hk) as (j0 & Hj0 & <-). assert (j0 = j) as -> by congruence.
      split; [|done]. by rewrite Hk.
    + intros [(x & Hx & Hj)%bind_Some <-]. pose proof (to_ids _ _ _ Ht _ _ Hj) as ->.
      rewrite (proj2 (to_by_run _ _ _ Ht _ _) Hx). cbn. by rewrite Hx.
  - intros k. by apply running_state.
  - intros run. rewrite (to_queued _ _ _ Ht). unfold get, job_at. split.
    + intros (j & Hj & Hs). exists j. rewrite (to_live _ _ _ Ht _ _ Hj ltac:(by rewrite Hs)). cbn.
      split_and!; [done|by apply (to_ids _ _ _ Ht)|done].
    + intros (j & (x & Hx & Hj)%bind_Some & <- & Hs). exists j. by rewrite (to_ids _ _ _ Ht _ _ Hj).
  - assert (Hsub : dom (jobs (tabs q)) ⊆ list_to_set (omap (fun run => key <$> heap (tabs q) !! run) (pending q))
      ∪ running q ∪ list_to_set (omap (fun run => key <$> heap (tabs q) !! run) (history (tabs q)))).
    { intros k [run Hk]%elem_of_dom. destruct (to_jobs _ _ _ Ht _ _ Hk) as (j & Hj & <-).
      destruct (state j) eqn:Hs.
      - apply elem_of_union_l, elem_of_union_l, elem_of_list_to_set, list_elem_of_omap. exists run. rewrite Hj.
        split; [|done]. apply (to_queued _ _ _ Ht). by exists j.
      - apply elem_of_union_l, elem_of_union_r. apply (to_running _ _ _ Ht). by exists run, j.
      - apply elem_of_union_r, elem_of_list_to_set, list_elem_of_omap. exists run. rewrite Hj. split; [|done].
        apply (to_history _ _ _ Ht). exists j. by rewrite Hs.
      - apply elem_of_union_r, elem_of_list_to_set, list_elem_of_omap. exists run. rewrite Hj. split; [|done].
        apply (to_history _ _ _ Ht). exists j. by rewrite Hs.
      - apply elem_of_union_r, elem_of_list_to_set, list_elem_of_omap. exists run. rewrite Hj. split; [|done].
        apply (to_history _ _ _ Ht). exists j. by rewrite Hs. }
    apply subseteq_size in Hsub. rewrite size_dom in Hsub.
    pose proof (keys_of_runs (tabs q) (pending q)). pose proof (keys_of_runs (tabs q) (history (tabs q))).
    pose proof (co_history _ _ _ _ (qi_core q Hq)).
    etransitivity; [exact Hsub|]. etransitivity; [apply size_union_bound|].
    etransitivity; [apply Nat.add_le_mono_r, size_union_bound|]. lia.
Qed.

(** Submitting again is safe.  Once a submission was answered with a job,
    however much later, while that job has not ended and the queue is open,
    any sound submission under the same key answers that job and changes
    nothing when its content has the same fingerprint, and is refused when
    it has not. *)
Theorem resubmission_answers_the_job io schemas ref now s q q1 answer q2 io' ref' now' s' fp : reachable q -> fresh ref q ->
  submit digest io schemas ref now s q = Ok (answer, q1) -> steps q1 q2 -> closed q2 = false ->
  terminal (from_option state Queued (heap (tabs q2) !! answer)) = false ->
  s_key s' = s_key s -> admit_graph schemas (s_graph s') (s_targets s') = Ok tt -> fingerprint_of digest s' = Ok fp ->
  (fingerprint_of digest s = Ok fp -> submit digest io' schemas ref' now' s' q2 = Ok (answer, q2))
  /\ (fingerprint_of digest s <> Ok fp ->
      submit digest io' schemas ref' now' s' q2 = Err (KeyInUse (from_option state Queued (heap (tabs q2) !! answer)))).
Proof.
  intros Hr%queue_reachable_ok Hfresh Hsub Hsteps Hcl Hlive Hkey Hadm Hfp.
  pose proof (qo_inv q Hr) as Hi. destruct (submit_ok _ _ _ _ _ _ _ _ _ Hi Hsub) as (_ & fp0 & Hfp0 & Hs).
  assert (Hr1 : queue_ok q1) by (apply (qstep_ok digest completes settles q); [exact Hr|by eapply q_submit]).
  assert (Hj : exists j, heap (tabs q1) !! answer = Some j /\ key j = s_key s /\ fingerprint j = fp0).
  { clear -Hs Hi. destruct Hs as [e He Hl Hf|st Hterm Hst].
    - apply bind_Some in He as (x & Hx & He). unfold job_at in He. pose proof (to_ids _ _ _ (inv_tabs q Hi) _ _ He) as Hid.
      destruct (to_jobs _ _ _ (inv_tabs q Hi) _ _ Hx) as (j & Hj & Hk). rewrite Hid. exists e.
      assert (j = e) as -> by congruence. done.
    - exists (new_job s ref fp0 now). cbn. rewrite (proj1 (proj2 (proj2 (emit_same _ _)))). cbn.
      by rewrite lookup_insert_eq. }
  destruct Hj as (j & Hj & Hk & Hf). destruct (star_moves _ _ _ _ _ Hr1 Hsteps) as [Hr2 Hm].
  destruct (Hm answer j Hj) as (j2 & Hj2 & Hmv). rewrite Hj2 in *. cbn in Hlive.
  pose proof (to_live _ _ _ (inv_tabs q2 (qo_inv q2 Hr2)) _ _ Hj2 Hlive) as Hcur.
  pose proof (to_ids _ _ _ (inv_tabs q2 (qo_inv q2 Hr2)) _ _ Hj2) as Hid.
  rewrite (mv_key _ _ Hmv), Hk, <- Hkey in Hcur. destruct (mv_content _ _ Hmv) as (_ & _ & Hf2).
  unfold submit. rewrite Hcl, Hadm. cbn [raise_if]. fold (fingerprint_of digest s'). rewrite Hfp, Hcur.
  cbn. rewrite Hj2. cbn. rewrite Hlive. cbn. rewrite Hf2, Hf, Hfp0, Hid.
  destruct (String.eqb_spec fp0 fp) as [->|Hne]; split; congruence.
Qed.

(** A job cancelled before its first step holds its slot for ever. *)
Lemma cancelled_unborn_never_ends io now q run j q2 : reachable q -> heap (tabs q) !! run = Some j ->
  state j = Running -> task j = Unstarted -> steps (cancel io now (key j) q).1 q2 ->
  exists j2, heap (tabs q2) !! run = Some j2 /\ state j2 = Running /\ key j ∈ running q2.
Proof.
  intros Hr%queue_reachable_ok Hj Hs Htk Hsteps. pose proof (qo_inv q Hr) as Hi.
  pose proof (to_live _ _ _ (inv_tabs q Hi) _ _ Hj ltac:(by rewrite Hs)) as Hcur.
  assert (Hc : (cancel io now (key j) q).1 = with_tabs (cancel_task run (tabs q)) q).
  { unfold cancel, job_at. rewrite Hcur. cbn. rewrite Hj, Hs. done. }
  assert (Hr1 : queue_ok (cancel io now (key j) q).1) by (apply (qstep_ok digest completes settles q); [exact Hr|apply q_cancel]).
  assert (Hj1 : heap (tabs (cancel io now (key j) q).1) !! run = Some (set_task NeverRan j)).
  { rewrite Hc. cbn. rewrite lookup_alter_eq, Hj. cbn. by rewrite Htk. }
  destruct (star_moves _ _ _ _ _ Hr1 Hsteps) as [Hr2 Hm]. destruct (Hm run _ Hj1) as (j2 & Hj2 & Hmv).
  destruct (mv_stuck _ _ Hmv eq_refl Hs) as [_ Hs2]. exists j2. split_and!; [done|done|].
  pose proof (to_live _ _ _ (inv_tabs q2 (qo_inv q2 Hr2)) _ _ Hj2 ltac:(by rewrite Hs2)) as Hcur2.
  apply (to_running _ _ _ (inv_tabs q2 (qo_inv q2 Hr2))). exists run, j2.
  pose proof (mv_key _ _ Hmv) as Hk. cbn in Hk. by rewrite <- Hk.
Qed.
End runs.

(** * A restart *)

(** C38: No job that was accepted and has not ended is lost.  Whatever the
    queue did, and whichever of its other writes failed, a server that starts
    again on the store the queue left puts every such job into the history
    as interrupted. *)
Theorem no_accepted_job_is_lost digest completes settles (q : JobQueue HistoryStore) d now run j :
  queue_reachable digest completes settles q -> q_store (tabs q) = Some d ->
  heap (tabs q) !! run = Some j -> terminal (state j) = false ->
  exists row d' records, t_accepted d !! run = Some row /\ recover_interrupted now d = Ok (d', records)
    /\ t_history d' !! run = Some (interrupted_record now run row) /\ t_accepted d' = ∅.
Proof.
  intros Hr%queue_reachable_ok Hd Hj Hlive.
  destruct (co_recorded _ _ _ _ (qi_core q (qo_inv q Hr)) d Hd run j Hj Hlive) as [Hopen Hno].
  cbn in Hopen. apply elem_of_dom in Hopen as [row Hrow].
  destruct (recover_answers now d) as (d' & records & Hrec & Hacc). exists row, d', records. split_and!; [done|done| |done].
  rewrite (recovered_records _ _ _ _ Hrec). cbn in Hno. apply not_elem_of_dom in Hno. by rewrite Hno, Hrow.
Qed.

(** * Witnesses *)

(** A queue with one slot: two jobs are submitted, the second with the
    higher priority, then the dispatcher takes a turn. *)
Definition demo_submission (job : string) (prio : Z) : submission :=
  {| s_key := {| client_id := "ui"; job_id := job |}; s_graph := [];
     s_targets := []; s_priority := prio; s_scope := "local"; s_project := "default"; s_principal := "local";
     s_kind := "human"; s_source := ""; s_fingerprint := job; s_execution := "";
     s_options := {| export_snapshot := None; previews := None; attention := None; multi_gpu := None; cache_enabled := true |} |}.

Definition demo_empty : JobQueue HistoryStore :=
  {| max_running := 1; history_limit := 5;
     tabs := {| heap := ∅; jobs := ∅; order := ∅; next_seq := 0; by_run := ∅; history := [];
                q_store := Some empty_history; emitted := [] |};
     pending := []; running := ∅; paused := false; maintenance := false; wakeup := false;
     dispatcher := NotStarted; closed := false |}.

Definition demo_digest (_ : gvalue) : string := "".

Definition demo_submit (ref : string) (s : submission) (q : JobQueue HistoryStore) : JobQueue HistoryStore :=
  match submit demo_digest true (fun _ => None) ref 0 s q with Ok p => snd p | Err _ => q end.

Definition demo_one : JobQueue HistoryStore := demo_submit "r1" (demo_submission "a" 0) demo_empty.
Definition demo_two : JobQueue HistoryStore := start (demo_submit "r2" (demo_submission "b" 1) demo_one).
Definition demo_turn : JobQueue HistoryStore := dispatch_turn (fun _ => true) 10 demo_two.

#[local] Notation demo_reaches := (queue_reachable demo_digest false true).

Lemma demo_submit_steps ref s q : fresh ref q -> star (qstep demo_digest false true) q (demo_submit ref s q).
Proof.
  intros Hf. unfold demo_submit. destruct (submit _ _ _ _ _ _ _) as [[a q']|e] eqn:Hs; [|apply star_refl].
  apply star_one. by eapply q_submit.
Qed.

Lemma demo_fresh_1 : fresh "r1" demo_empty.
Proof. by split. Qed.

Lemma demo_fresh_2 : fresh "r2" demo_one.
Proof. split; [by vm_compute|]. by vm_compute. Qed.

Lemma demo_reachable_1 : demo_reaches demo_one.
Proof. exists demo_empty. split; [by exists 1, 5, (Some empty_history)|]. by apply demo_submit_steps, demo_fresh_1. Qed.

Lemma demo_steps_2 : star (qstep demo_digest false true) demo_one demo_two.
Proof.
  etransitivity; [apply (demo_submit_steps "r2" (demo_submission "b" 1)), demo_fresh_2|]. apply star_one, q_start.
Qed.

Lemma demo_steps_turn : star (qstep demo_digest false true) demo_two demo_turn.
Proof. by apply star_one, q_dispatch; vm_compute. Qed.

Lemma demo_reachable_2 : demo_reaches demo_two.
Proof.
  destruct demo_reachable_1 as (q0 & Hi & Hs). exists q0. split; [done|]. etransitivity; [exact Hs|apply demo_steps_2].
Qed.

Lemma demo_reachable_turn : demo_reaches demo_turn.
Proof.
  destruct demo_reachable_2 as (q0 & Hi & Hs). exists q0. split; [done|]. etransitivity; [exact Hs|apply demo_steps_turn].
Qed.

Lemma dispatch_takes_the_first_witness : closed demo_two = false /\ pending_order demo_two = ["r2"; "r1"]
  /\ exists started, pending_order demo_two = started ++ pending_order demo_turn /\ length started = 1%nat.
Proof.
  split; [by vm_compute|]. split; [by vm_compute|].
  destruct (dispatch_takes_the_first demo_digest false true (fun _ => true) 10 demo_two demo_reachable_2) as (l & Hl & Hn & _).
  - by vm_compute.
  - exists l. split; [exact Hl|]. rewrite Hn. by vm_compute.
Defined.

Lemma no_wakeup_is_lost_witness : may_dispatch demo_two = true /\ wakeup demo_two = true.
Proof.
  split; [by vm_compute|].
  apply (no_wakeup_is_lost demo_digest false true (fun _ => true) 10 demo_two demo_reachable_2); by vm_compute.
Defined.

Lemma job_lives_once_witness : exists j, heap (tabs demo_two) !! "r2" = Some j /\ state j = Queued
  /\ life (state j) (told_of "r2" (emitted (tabs demo_two))).
Proof.
  assert (Hj : exists j, heap (tabs demo_two) !! "r2" = Some j /\ state j = Queued) by (eexists; split; by vm_compute).
  destruct Hj as (j & Hj & Hs). exists j. split; [exact Hj|]. split; [exact Hs|].
  apply (job_lives_once demo_digest false true demo_two demo_turn "r2" j demo_reachable_2 demo_steps_turn Hj).
Defined.

Lemma tables_agree_witness : (size (jobs (tabs demo_turn)) <= 7)%nat.
Proof.
  etransitivity; [apply (tables_agree demo_digest false true demo_turn demo_reachable_turn)|]. vm_compute. lia.
Defined.

Lemma resubmission_answers_the_job_witness :
  submit demo_digest true (fun _ => None) "r3" 20 (demo_submission "a" 0) demo_turn = Ok ("r1", demo_turn).
Proof.
  apply (resubmission_answers_the_job demo_digest false true true (fun _ => None) "r1" 0 (demo_submission "a" 0)
    demo_empty demo_one "r1" demo_turn true "r3" 20 (demo_submission "a" 0) "a").
  - exists demo_empty. split; [by exists 1, 5, (Some empty_history)|apply star_refl].
  - exact demo_fresh_1.
  - by vm_compute.
  - etransitivity; [apply demo_steps_2|apply demo_steps_turn].
  - by vm_compute.
  - by vm_compute.
  - done.
  - by vm_compute.
  - done.
  - done.
Defined.

Lemma no_accepted_job_is_lost_witness : exists d, q_store (tabs demo_turn) = Some d
  /\ exists row d' records, t_accepted d !! "r1" = Some row /\ recover_interrupted 30 d = Ok (d', records)
       /\ t_history d' !! "r1" = Some (interrupted_record 30 "r1" row) /\ t_accepted d' = ∅.
Proof.
  assert (Hd : exists d, q_store (tabs demo_turn) = Some d) by (eexists; by vm_compute).
  assert (Hj : exists j, heap (tabs demo_turn) !! "r1" = Some j /\ terminal (state j) = false) by (eexists; split; by vm_compute).
  destruct Hd as (d & Hd), Hj as (j & Hj & Hl). exists d. split; [exact Hd|].
  exact (no_accepted_job_is_lost demo_digest false true demo_turn d 30 "r1" j demo_reachable_turn Hd Hj Hl).
Defined.

(** The slot of the example is lost: no second job will ever run in it. *)
Lemma cancelled_unborn_example q2 :
  star (qstep demo_digest false true) (cancel true 11 {| client_id := "ui"; job_id := "b" |} demo_turn).1 q2 ->
  {| client_id := "ui"; job_id := "b" |} ∈ running q2.
Proof.
  assert (Hj : exists j, heap (tabs demo_turn) !! "r2" = Some j /\ state j = Running /\ task j = Unstarted
                 /\ key j = {| client_id := "ui"; job_id := "b" |}) by (eexists; split_and!; by vm_compute).
  destruct Hj as (j & Hj & Hs & Ht & Hk). rewrite <- Hk. intros Hsteps.
  by destruct (cancelled_unborn_never_ends demo_digest false true true 11 demo_turn "r2" j q2 demo_reachable_turn Hj Hs Ht Hsteps)
    as (_ & _ & _ & ?).
Qed.
