(* ===== verification/Values.v ===== *)
(** Values: value envelopes as their holders see them (dinkster_values/model.py,
    lists.py): metadata, the tree under a structural value, the resources it
    references and the bytes it declares. *)
From S2P Require Import Prelude PyStr.

Local Open Scope string_scope.
Local Open Scope Z_scope.
Local Open Scope list_scope.

(** * Envelopes *)

Inductive container := ListContainer | TupleContainer.

#[export] Instance container_eq_dec : EqDecision container.
Proof. solve_decision. Defined.

(** A payload is an object with an identity; a list's or a tuple's holds child
    envelopes, any other is opaque. *)
Inductive value :=
| mkValue (type_id fingerprint : string) (meta : list (string * pyval)) (payload : payload_of)
with payload_of :=
| Structural (kind : container) (identity : N) (children : list value)
| Opaque (identity : N).

Section value_induction.
Variable P : value -> Prop.
Hypothesis HOpaque : forall t f m i, P (mkValue t f m (Opaque i)).
Hypothesis HStructural : forall t f m k i children, Forall P children -> P (mkValue t f m (Structural k i children)).

Fixpoint value_ind_nested (v : value) : P v :=
  match v with
  | mkValue t f m (Opaque i) => HOpaque t f m i
  | mkValue t f m (Structural k i children) =>
      HStructural t f m k i children ((fix all (l : list value) : Forall P l :=
        match l with
        | [] => Forall_nil_2 P
        | x :: l' => Forall_cons_2 P x l' (value_ind_nested x) (all l')
        end) children)
  end.
End value_induction.

Definition v_meta (v : value) : list (string * pyval) := match v with mkValue _ _ m _ => m end.
Definition meta_get (v : value) (key : string) : option pyval := dict_get (v_meta v) key.
Definition payload_identity (v : value) : N :=
  match v with mkValue _ _ _ (Structural _ i _) | mkValue _ _ _ (Opaque i) => i end.

Definition RESOURCE_ID_META_KEY : string := "resourceId".
Definition RESOURCE_REFS_META_KEY : string := "resourceRefs".
Definition COST_META_KEY : string := "cost".

Definition value_children (v : value) : option (list value) :=
  match v with mkValue _ _ _ (Structural _ _ children) => Some children | mkValue _ _ _ (Opaque _) => None end.

Fixpoint iter_value_tree (v : value) : list value :=
  v :: match v with
       | mkValue _ _ _ (Structural _ _ children) => concat (map iter_value_tree children)
       | mkValue _ _ _ (Opaque _) => []
       end.

(** * Resources *)

Definition local_resource_ids (v : value) : list string :=
  match meta_get v RESOURCE_ID_META_KEY with Some (VStr rid) => [rid] | _ => [] end
  ++ match meta_get v RESOURCE_REFS_META_KEY with Some (VList refs) => omap as_str refs | _ => [] end.

(** [seen.setdefault(resource_id)] over the tree: first-seen order. *)
Definition add_seen (seen : list string) (rid : string) : list string :=
  if decide (rid ∈ seen) then seen else seen ++ [rid].

Definition value_resource_ids (v : value) : list string :=
  foldl add_seen [] (concat (map local_resource_ids (iter_value_tree v))).

Lemma elem_of_add_seen l seen x : x ∈ foldl add_seen seen l <-> x ∈ seen \/ x ∈ l.
Proof.
  revert seen. induction l as [|y l IH]; intros seen; cbn [foldl]; [set_solver|]. rewrite IH.
  unfold add_seen. case_decide; set_solver.
Qed.

(** A resource is referenced exactly when some envelope of the tree names it. *)
Lemma value_resource_ids_spec v rid :
  rid ∈ value_resource_ids v <-> exists u, u ∈ iter_value_tree v /\ rid ∈ local_resource_ids u.
Proof.
  unfold value_resource_ids. rewrite elem_of_add_seen, elem_of_concat_map. set_solver.
Qed.

(** * Declared bytes *)

(** What one envelope declares: a reference declares nothing, and only a
    positive [int] of a mapping counts. *)
Definition declared (device : string) (v : value) : option (N * Z) :=
  if match meta_get v RESOURCE_ID_META_KEY with None | Some VNone => false | Some _ => true end then None
  else match meta_get v COST_META_KEY with
       | Some (VDict cost) =>
           match vdict_get cost device with
           | Some (VInt n) => if 0 <? n then Some (payload_identity v, n) else None
           | _ => None
           end
       | _ => None
       end.

(** [costs[identity] = max(costs.get(identity, 0), declared)]. *)
Definition add_cost (costs : gmap N Z) (d : N * Z) : gmap N Z :=
  <[d.1 := Z.max (default 0 (costs !! d.1)) d.2]> costs.

Definition declarations (device : string) (values : list value) : list (N * Z) :=
  omap (declared device) (concat (map iter_value_tree values)).

Definition sum_values (costs : gmap N Z) : Z := map_fold (fun _ n acc => n + acc) 0 costs.

Definition values_cost (values : list value) (device : string) : Z :=
  sum_values (foldl add_cost ∅ (declarations device values)).

(** ** Sums over payload identities *)

Lemma sum_values_insert costs i n : costs !! i = None -> sum_values (<[i := n]> costs) = n + sum_values costs.
Proof. intros H. unfold sum_values. apply map_fold_insert_L; [intros; lia|done]. Qed.

Lemma sum_values_delete costs i n : costs !! i = Some n -> sum_values costs = n + sum_values (delete i costs).
Proof.
  intros H. rewrite <- (insert_delete_id costs i n) at 1 by done. apply sum_values_insert, lookup_delete_eq.
Qed.

Lemma sum_values_nonneg costs : (forall i n, costs !! i = Some n -> 0 <= n) -> 0 <= sum_values costs.
Proof.
  induction costs as [|i n costs Hi IH] using map_ind; intros H; [done|].
  rewrite sum_values_insert by done. assert (0 <= n) by (apply (H i), lookup_insert_eq).
  assert (0 <= sum_values costs); [|lia]. apply IH. intros j m Hj. apply (H j).
  rewrite lookup_insert_ne; [done|congruence].
Qed.

Lemma sum_values_pos costs : 0 < sum_values costs -> exists i n, costs !! i = Some n /\ 0 < n.
Proof.
  induction costs as [|i n costs Hi IH] using map_ind; [done|]. rewrite sum_values_insert by done. intros H.
  destruct (decide (0 < n)) as [Hn|Hn].
  - exists i, n. split; [apply lookup_insert_eq|done].
  - destruct IH as (j & m & Hj & Hm); [lia|]. exists j, m. split; [|done].
    rewrite lookup_insert_ne; [done|congruence].
Qed.

(** Costs that another table covers. *)
Definition covered (c1 c2 : gmap N Z) : Prop := forall i n, c1 !! i = Some n -> exists m, c2 !! i = Some m /\ n <= m.

Lemma sum_values_covered c1 c2 :
  (forall i n, c2 !! i = Some n -> 0 <= n) -> covered c1 c2 -> sum_values c1 <= sum_values c2.
Proof.
  revert c2. induction c1 as [|i n c1 Hi IH] using map_ind; intros c2 Hc2 Hcov; [by apply sum_values_nonneg|].
  rewrite sum_values_insert by done. destruct (Hcov i n) as (m & Hm & Hle); [apply lookup_insert_eq|].
  rewrite (sum_values_delete c2 i m Hm). assert (sum_values c1 <= sum_values (delete i c2)); [|lia].
  apply IH.
  - intros j k. rewrite lookup_delete_Some. intros [_ Hj]. by apply (Hc2 j).
  - intros j k Hj. assert (i <> j) by congruence. destruct (Hcov j k) as (k' & Hk' & ?); [by rewrite lookup_insert_ne|].
    exists k'. split; [|done]. by rewrite lookup_delete_ne.
Qed.

(** The table of a list of declarations holds the largest one of each identity. *)
Definition declares (l : list (N * Z)) (i : N) (n : Z) : Prop := (i, n) ∈ l.

Lemma fold_add_cost l costs i n :
  Forall (fun d => 0 < d.2) l -> (forall i n, costs !! i = Some n -> 0 < n) ->
  foldl add_cost costs l !! i = Some n <->
    (costs !! i = Some n \/ declares l i n)
    /\ (forall m, costs !! i = Some m \/ declares l i m -> m <= n).
Proof.
  intros Hl. unfold declares. revert costs. induction Hl as [|[j k] l Hk _ IH]; intros costs Hc; cbn [foldl].
  - split; [|intros [[H|H%not_elem_of_nil] _]; done]. intros H. split; [by left|].
    intros m [Hm|Hm%not_elem_of_nil]; [|done]. rewrite H in Hm. injection Hm as ->. lia.
  - cbn in Hk. rewrite IH.
    2:{ intros i' n'. unfold add_cost; cbn [fst snd]. destruct (decide (j = i')) as [->|Hne].
        - rewrite lookup_insert_eq. intros [= <-]. lia.
        - rewrite lookup_insert_ne by done. apply Hc. }
    unfold add_cost; cbn [fst snd]. destruct (decide (j = i)) as [->|Hne].
    + rewrite lookup_insert_eq. destruct (costs !! i) as [c|] eqn:Ec; cbn [from_option id]; unfold id.
      * pose proof (Hc i c Ec). split.
        -- intros [H1 H2]. split.
           ++ destruct H1 as [[= <-]|H1]; [|set_solver].
              destruct (Z.max_spec c k) as [[_ ->]|[_ ->]]; [right; left|by left].
           ++ intros m [[= <-]|[[= ->]|Hm]%elem_of_cons]; [| |apply H2; by right];
                pose proof (H2 _ (or_introl eq_refl)); lia.
        -- intros [H1 H2]. split.
           ++ destruct H1 as [[= ->]|[[= ->]|H1]%elem_of_cons]; [| |by right]; left; f_equal.
              ** assert (k <= n) by (apply H2; right; left). lia.
              ** assert (c <= k) by (apply H2; by left). lia.
           ++ intros m [[= <-]|Hm]; [|apply H2; right; by right].
              apply Z.max_lub; apply H2; [by left|right; left].
      * split.
        -- intros [H1 H2]. split.
           ++ destruct H1 as [[= <-]|H1]; [|set_solver]. right. rewrite Z.max_r by lia. left.
           ++ intros m [|[[= ->]|Hm]%elem_of_cons]; [done| |apply H2; by right].
              pose proof (H2 _ (or_introl eq_refl)). lia.
        -- intros [H1 H2]. split.
           ++ destruct H1 as [|[[= ->]|H1]%elem_of_cons]; [done| |by right]. left. f_equal. lia.
           ++ intros m [[= <-]|Hm]; [|apply H2; right; by right].
              rewrite Z.max_r by lia. apply H2. right. left.
    + rewrite lookup_insert_ne by done. split; intros [H1 H2]; (split; [destruct H1; set_solver|]);
        intros m [Hm|Hm]; apply H2; set_solver.
Qed.

Lemma declared_pos device values : Forall (fun d : N * Z => 0 < d.2) (declarations device values).
Proof.
  apply Forall_forall. intros [i n]. unfold declarations. rewrite list_elem_of_omap. intros (v & _ & Hv).
  unfold declared in Hv. repeat case_match; simplify_eq/=; by apply Z.ltb_lt.
Qed.

Lemma cost_table device values i n :
  foldl add_cost ∅ (declarations device values) !! i = Some n <->
    declares (declarations device values) i n /\ (forall m, declares (declarations device values) i m -> m <= n).
Proof.
  rewrite fold_add_cost; [|apply declared_pos|by intros ?? ?%lookup_empty_Some].
  split; intros [H1 H2].
  - split; [by destruct H1 as [H1%lookup_empty_Some|]|]. intros m Hm. apply H2. by right.
  - split; [by right|]. intros m [Hm%lookup_empty_Some|Hm]; [done|by apply H2].
Qed.

(** Fewer values cost no more, and a positive cost is some value's. *)
Lemma largest_declaration (l : list (N * Z)) i n :
  declares l i n -> exists m, declares l i m /\ n <= m /\ (forall k, declares l i k -> k <= m).
Proof.
  unfold declares. intros Hin.
  assert (Hmax : forall l : list (N * Z), (forall k, (i, k) ∉ l) \/
    exists m, (i, m) ∈ l /\ forall k, (i, k) ∈ l -> k <= m).
  { clear. intros l. induction l as [|[j k] l [IH|(m & Hm & IH)]].
    - left. intros k. apply not_elem_of_nil.
    - destruct (decide (j = i)) as [->|Hne]; [right; exists k|left].
      + split; [left|]. intros k' [[= ->]|Hk']%elem_of_cons; [lia|by destruct (IH k')].
      + intros k'. rewrite not_elem_of_cons. split; [congruence|apply IH].
    - right. destruct (decide (j = i /\ m < k)) as [[-> Hlt]|Hn].
      + exists k. split; [left|]. intros k' [[= ->]|Hk']%elem_of_cons; [lia|]. specialize (IH k' Hk'). lia.
      + exists m. split; [by right|]. intros k' [[= -> ->]|Hk']%elem_of_cons; [|by apply IH].
        destruct (decide (m < k)); [tauto|lia]. }
  destruct (Hmax l) as [Hno|(m & Hm & Hle)]; [by destruct (Hno n)|]. exists m. auto.
Qed.

Lemma values_cost_mono device vs vs' : (forall v, v ∈ vs -> v ∈ vs') -> values_cost vs device <= values_cost vs' device.
Proof.
  intros Hsub. assert (Hd : forall i n, declares (declarations device vs) i n -> declares (declarations device vs') i n).
  { intros i n. unfold declares, declarations. rewrite !list_elem_of_omap. intros (u & Hu & Hn). exists u. split; [|done].
    apply elem_of_concat_map in Hu as (v & Hv & Hu). apply elem_of_concat_map. eauto. }
  apply sum_values_covered.
  - intros i n [Hn _]%cost_table. pose proof (declared_pos device vs') as Hpos. rewrite Forall_forall in Hpos.
    specialize (Hpos (i, n) Hn). cbn in Hpos. lia.
  - intros i n [Hn _]%cost_table. destruct (largest_declaration _ i n (Hd _ _ Hn)) as (m & Hm & Hle & Hmax).
    exists m. split; [|done]. by apply cost_table.
Qed.

Lemma values_cost_nonneg device vs : 0 <= values_cost vs device.
Proof. exact (values_cost_mono device [] vs (fun v H => False_ind _ (not_elem_of_nil v H))). Qed.

Lemma values_cost_pos device vs : 0 < values_cost vs device -> exists v, v ∈ vs /\ 0 < values_cost [v] device.
Proof.
  intros (i & n & [Hn Hle]%cost_table & _)%sum_values_pos. unfold declares, declarations in Hn.
  apply list_elem_of_omap in Hn as (u & Hu & Hn). apply elem_of_concat_map in Hu as (v & Hv & Hu).
  exists v. split; [done|].
  assert (Hd : declares (declarations device [v]) i n).
  { unfold declares, declarations. apply list_elem_of_omap. exists u. split; [|done]. cbn. by rewrite app_nil_r. }
  pose proof (declared_pos device [v]) as Hpos.
  destruct (largest_declaration _ i n Hd) as (m & Hm & Hnm & Hmax).
  unfold values_cost. rewrite (sum_values_delete _ i m) by (by apply cost_table).
  rewrite Forall_forall in Hpos. pose proof (Hpos (i, n) Hd) as Hp. cbn in Hp.
  assert (0 <= sum_values (delete i (foldl add_cost ∅ (declarations device [v])))); [|lia].
  apply sum_values_nonneg. intros j k. rewrite lookup_delete_Some. intros [_ [Hk _]%cost_table].
  specialize (Hpos (j, k) Hk). cbn in Hpos. lia.
Qed.
