(* ===== verification/Cache.v ===== *)
(** Cache: the in-memory LRU cache (dinkster_caches/memory.py), with the tasks
    that wait for its lock or for its persistence handler and whatever runs in
    between. *)
From S2P Require Import Prelude PyStr Telemetry Governor Values.

Local Open Scope string_scope.
Local Open Scope Z_scope.
Local Open Scope list_scope.

(** * State *)

(** A [CachedResult], with the identity of the object: the task that made it. *)
Record CachedResult := mkResult { identity : nat; outputs : list (string * value) }.

Definition entry_values (e : CachedResult) : list value := map snd (outputs e).
Definition entry_cost (e : CachedResult) (device : string) : Z := values_cost (entry_values e) device.

Definition references (e : CachedResult) (resource_id : string) : bool :=
  existsb (fun v => bool_decide (resource_id ∈ value_resource_ids v)) (entry_values e).

(** The [OrderedDict] is a dict in its order, oldest first. *)
Definition entry_map := list (string * CachedResult).

Record MemoryLRUCache := mkCache {
  max_entries : Z;
  max_bytes : Z;
  entries : entry_map;
  clean : gset string;
  has_persist : bool;      (** a persistence handler is set *)
  generation : Z;
  hits : Z;
  misses : Z
}.

Definition with_entries (es : entry_map) (cl : gset string) (c : MemoryLRUCache) : MemoryLRUCache :=
  mkCache (max_entries c) (max_bytes c) es cl (has_persist c) (generation c) (hits c) (misses c).
Definition with_stats (h m : Z) (c : MemoryLRUCache) : MemoryLRUCache :=
  mkCache (max_entries c) (max_bytes c) (entries c) (clean c) (has_persist c) (generation c) h m.
Definition next_generation (c : MemoryLRUCache) : MemoryLRUCache :=
  mkCache (max_entries c) (max_bytes c) (entries c) (clean c) (has_persist c) (generation c + 1) (hits c) (misses c).

(** [MemoryLRUCache(max_entries, max_bytes=...)] with the budget resolved. *)
Definition cache_init (most_entries most_bytes : Z) : result string MemoryLRUCache :=
  if most_entries <? 1 then Err "max_entries must be >= 1"
  else if most_bytes <? 0 then Err "max_bytes must be >= 0"
  else Ok (mkCache most_entries most_bytes [] ∅ false 0 0 0).

Definition set_persistence_handler (c : MemoryLRUCache) : result string MemoryLRUCache :=
  if has_persist c then Err "memory cache already belongs to a spill policy"
  else Ok (mkCache (max_entries c) (max_bytes c) (entries c) (clean c) true (generation c) (hits c) (misses c)).

(** * Operations that never wait *)

Definition move_to_end (es : entry_map) (key : string) (e : CachedResult) : entry_map := dict_del es key ++ [(key, e)].

Definition get (c : MemoryLRUCache) (key : string) : option CachedResult * MemoryLRUCache :=
  match dict_get (entries c) key with
  | None => (None, with_stats (hits c) (misses c + 1) c)
  | Some e => (Some e, with_stats (hits c + 1) (misses c) (with_entries (move_to_end (entries c) key e) (clean c) c))
  end.

Definition footprint_in (es : entry_map) (device : string) : Z :=
  values_cost (concat (map (fun ke => entry_values ke.2) es)) device.
Definition footprint (c : MemoryLRUCache) (device : string) : Z := footprint_in (entries c) device.

(** [_remove] *)
Definition remove (c : MemoryLRUCache) (key : string) : MemoryLRUCache :=
  with_entries (dict_del (entries c) key) (clean c ∖ {[key]}) c.

Definition clear (c : MemoryLRUCache) : Z * MemoryLRUCache :=
  (Z.of_nat (length (entries c)), with_entries [] ∅ (next_generation c)).

Definition drop_referencing (c : MemoryLRUCache) (resource_id : string) : Z * MemoryLRUCache :=
  let found := keys (List.filter (fun ke => references ke.2 resource_id) (entries c)) in
  (Z.of_nat (length found), foldl remove (next_generation c) found).

(** * Operations that wait *)

(** The first of [put]'s two loops bounds the bytes, the second the number. *)
Inductive phase := Bytes | Count.

(** Where a task is suspended: at the lock, at a write-through of its own
    entry, or at a flush of the victim it is evicting. *)
Inductive task :=
| PutWaiting (key : string) (e : CachedResult) (persisted : bool) (gen : Z)
| PutEager (key : string) (e : CachedResult) (gen : Z)
| PutEvict (key : string) (e : CachedResult) (previous : option CachedResult) (gen : Z) (p : phase)
    (victim : string) (ventry : CachedResult)
| ShedWaiting (pressure : PressureSignal)
| ShedEvict (device : string) (needed : Z) (rest : list string) (freed : Z) (victim : string) (ventry : CachedResult).

(** What a task's run to its next suspension comes to. *)
Inductive progress :=
| Suspended (t : task)
| Returned (freed : Z)
| Raised.

Definition is_entry (c : MemoryLRUCache) (key : string) (e : CachedResult) : bool :=
  match dict_get (entries c) key with Some e' => Nat.eqb (identity e') (identity e) | None => false end.

(** [put]'s except block. *)
Definition put_failed (c : MemoryLRUCache) (key : string) (e : CachedResult) (previous : option CachedResult) (gen : Z) :
  MemoryLRUCache :=
  if is_entry c key e then
    let c := remove c key in
    match previous with
    | Some old => if gen =? generation c then with_entries (dict_set (entries c) key old) (clean c) c else c
    | None => c
    end
  else c.

(** The next victim of a loop, if it goes on: [Some None] is a [next] that finds none. *)
Definition next_victim (c : MemoryLRUCache) (p : phase) : option (option (string * CachedResult)) :=
  match p with
  | Bytes => if max_bytes c <? footprint c "ram" then Some (List.find (fun ke => 0 <? entry_cost ke.2 "ram") (entries c)) else None
  | Count => if max_entries c <? Z.of_nat (length (entries c)) then Some (head (entries c)) else None
  end.

(** [_evict] waits exactly for a dirty victim, when there is a handler. *)
Definition must_flush (c : MemoryLRUCache) (victim : string) : bool := has_persist c && negb (bool_decide (victim ∈ clean c)).

(** Victims evicted so far are collected, newest first. *)
Fixpoint evict_loop (fuel : nat) (c : MemoryLRUCache) (key : string) (e : CachedResult) (previous : option CachedResult)
  (gen : Z) (p : phase) (out : list CachedResult) : option (MemoryLRUCache * list CachedResult * progress) :=
  match fuel with
  | O => None
  | S fuel' =>
      match next_victim c p with
      | None => match p with
                | Bytes => evict_loop fuel' c key e previous gen Count out
                | Count => Some (c, out, Returned 0)
                end
      | Some None => Some (put_failed c key e previous gen, out, Raised)
      | Some (Some (victim, ventry)) =>
          if must_flush c victim then Some (c, out, Suspended (PutEvict key e previous gen p victim ventry))
          else evict_loop fuel' (remove c victim) key e previous gen p (ventry :: out)
      end
  end.

(** Every round but the two that end a loop evicts an entry. *)
Definition put_evictions (c : MemoryLRUCache) (key : string) (e : CachedResult) (previous : option CachedResult)
  (gen : Z) (p : phase) : MemoryLRUCache * list CachedResult * progress :=
  default (c, [], Raised) (evict_loop (2 + length (entries c)) c key e previous gen p []).

(** [_put] from the insertion on. *)
Definition put_insert (c : MemoryLRUCache) (key : string) (e : CachedResult) (persisted : bool) (gen : Z) :
  MemoryLRUCache * list CachedResult * progress :=
  let previous := dict_get (entries c) key in
  let cl := clean c ∖ {[key]} in
  put_evictions (with_entries (move_to_end (entries c) key e) (if persisted then {[key]} ∪ cl else cl) c) key e previous gen Bytes.

(** [_put] from the acquired lock on. *)
Definition put_locked (c : MemoryLRUCache) (key : string) (e : CachedResult) (persisted : bool) (gen : Z) :
  MemoryLRUCache * list CachedResult * progress :=
  if negb (gen =? generation c) then (c, [], Returned 0)
  else if negb persisted && has_persist c
       then (with_entries (entries c) (clean c ∖ {[key]}) c, [], Suspended (PutEager key e gen))
       else put_insert c key e persisted gen.

(** [shed]'s loop over the keys listed at its start. *)
Fixpoint shed_keys (c : MemoryLRUCache) (device : string) (needed : Z) (listed : list string) (freed : Z) (out : list CachedResult) :
  MemoryLRUCache * list CachedResult * progress :=
  match listed with
  | [] => (c, out, Returned freed)
  | key :: rest =>
      if needed <=? freed then (c, out, Returned freed)
      else match dict_get (entries c) key with
           | None => shed_keys c device needed rest freed out
           | Some e =>
               if 0 <? entry_cost e device
               then if must_flush c key then (c, out, Suspended (ShedEvict device needed rest freed key e))
                    else shed_keys (remove c key) device needed rest
                           (freed + (footprint c device - footprint (remove c key) device)) (e :: out)
               else shed_keys c device needed rest freed out
           end
  end.

Definition shed_locked (c : MemoryLRUCache) (p : PressureSignal) : MemoryLRUCache * list CachedResult * progress :=
  shed_keys c (p_device p) (bytes_needed p) (keys (entries c)) 0 [].

(** A handler's answer: it wrote, it left the entry dirty, or it raised. *)
Inductive answer := Wrote | Deferred | HandlerRaised.

(** A task of the lock's holder after the handler answered. *)
Definition resume (c : MemoryLRUCache) (t : task) (a : answer) : MemoryLRUCache * list CachedResult * progress :=
  match t, a with
  | PutEager _ _ _, HandlerRaised => (c, [], Raised)
  | PutEager key e gen, _ =>
      if negb (gen =? generation c) then (c, [], Returned 0)
      else put_insert c key e (match a with Wrote => true | _ => false end) gen
  | PutEvict key e previous gen p victim ventry, HandlerRaised => (put_failed c key e previous gen, [], Raised)
  | PutEvict key e previous gen p victim ventry, _ =>
      if is_entry c victim ventry
      then let '(c', out, r) := put_evictions (remove c victim) key e previous gen p in (c', out ++ [ventry], r)
      else put_evictions c key e previous gen p
  | ShedEvict device needed rest freed victim ventry, HandlerRaised => (c, [], Raised)
  | ShedEvict device needed rest freed victim ventry, _ =>
      if is_entry c victim ventry
      then shed_keys (remove c victim) device needed rest
             (freed + (footprint c device - footprint (remove c victim) device)) [ventry]
      else shed_keys c device needed rest freed []
  | PutWaiting _ _ _ _, _ | ShedWaiting _, _ => (c, [], Returned 0)
  end.

(** * Interleavings *)

(** The cache, the task that holds the lock, every task not yet done, the next
    task's number, and two ghosts: the entries persisted and those evicted. *)
Record system := mkSystem {
  cache : MemoryLRUCache;
  holder : option nat;
  tasks : gmap nat task;
  fresh : nat;
  saved : gset nat;
  evicted : list nat
}.

Definition initial (c : MemoryLRUCache) : system := mkSystem c None ∅ 0 ∅ [].

(** A task's run ends at its next suspension, where it keeps the lock, or is over. *)
Definition settle (s : system) (tid : nat) (o : MemoryLRUCache * list CachedResult * progress) : system :=
  let '(c, out, r) := o in
  let ev := map identity out ++ evicted s in
  match r with
  | Suspended t => mkSystem c (Some tid) (<[tid := t]> (tasks s)) (fresh s) (saved s) ev
  | Returned _ | Raised => mkSystem c None (delete tid (tasks s)) (fresh s) (saved s) ev
  end.

Definition on_cache (s : system) (c : MemoryLRUCache) : system :=
  mkSystem c (holder s) (tasks s) (fresh s) (saved s) (evicted s).

Definition spawn (s : system) (t : task) (sv : gset nat) : system :=
  mkSystem (cache s) (holder s) (<[fresh s := t]> (tasks s)) (S (fresh s)) (sv ∪ saved s) (evicted s).

Definition save (s : system) (n : gset nat) : system :=
  mkSystem (cache s) (holder s) (tasks s) (fresh s) (n ∪ saved s) (evicted s).

(** The entry a suspended task is having persisted. *)
Definition flushing (t : task) : option CachedResult :=
  match t with
  | PutEager _ e _ => Some e
  | PutEvict _ _ _ _ _ _ ventry | ShedEvict _ _ _ _ _ ventry => Some ventry
  | PutWaiting _ _ _ _ | ShedWaiting _ => None
  end.

(** What an answer says was persisted: on admission only [Wrote], on eviction any return. *)
Definition persisted_by (t : task) (a : answer) : gset nat :=
  match t, a, flushing t with
  | PutEager _ _ _, Deferred, _ => ∅
  | _, HandlerRaised, _ => ∅
  | _, _, Some e => {[identity e]}
  | _, _, None => ∅
  end.

(** Between two suspensions a task runs alone: the cache is confined to one event loop. *)
Inductive step (s : system) : system -> Prop :=
| step_get key : step s (on_cache s (get (cache s) key).2)
| step_clear : step s (on_cache s (clear (cache s)).2)
| step_drop rid : step s (on_cache s (drop_referencing (cache s) rid).2)
| step_put key outs :
    step s (spawn s (PutWaiting key (mkResult (fresh s) outs) false (generation (cache s))) ∅)
| step_promote key outs :
    step s (spawn s (PutWaiting key (mkResult (fresh s) outs) true (generation (cache s))) {[fresh s]})
| step_shed p : step s (spawn s (ShedWaiting p) ∅)
| step_put_locked tid key e persisted gen :
    holder s = None -> tasks s !! tid = Some (PutWaiting key e persisted gen) ->
    step s (settle s tid (put_locked (cache s) key e persisted gen))
| step_shed_locked tid p :
    holder s = None -> tasks s !! tid = Some (ShedWaiting p) ->
    step s (settle s tid (shed_locked (cache s) p))
| step_answer tid t e a :
    holder s = Some tid -> tasks s !! tid = Some t -> flushing t = Some e ->
    step s (settle (save s (persisted_by t a)) tid (resume (cache s) t a))
| step_cancelled tid t :
    tasks s !! tid = Some t -> flushing t = None ->
    step s (mkSystem (cache s) (holder s) (delete tid (tasks s)) (fresh s) (saved s) (evicted s)).

Definition reachable (c : MemoryLRUCache) : system -> Prop := star step (initial c).

(** * The cache under its operations *)

Definition same_limits (c c' : MemoryLRUCache) : Prop :=
  max_entries c' = max_entries c /\ max_bytes c' = max_bytes c /\ has_persist c' = has_persist c.

#[export] Instance same_limits_trans : Transitive same_limits.
Proof. intros c1 c2 c3 (? & ? & ?) (? & ? & ?). unfold same_limits. split_and!; congruence. Qed.

(** Entries within the cache's limits. *)
Definition within (c : MemoryLRUCache) (es : entry_map) : Prop :=
  footprint_in es "ram" <= max_bytes c /\ Z.of_nat (length es) <= max_entries c.

Lemma footprint_mono es es' device : (forall x, x ∈ es' -> x ∈ es) -> footprint_in es' device <= footprint_in es device.
Proof.
  intros Hsub. apply values_cost_mono. intros v. rewrite !elem_of_concat_map. intros (ke & Hke & Hv). eauto.
Qed.

Lemma NoDup_pairs {V} (es : list (string * V)) : NoDup (keys es) -> NoDup es.
Proof. apply NoDup_fmap_1. Qed.

Lemma within_mono c es es' : NoDup (keys es') -> (forall x, x ∈ es' -> x ∈ es) -> within c es -> within c es'.
Proof.
  intros Hnd Hsub [Hb Hn]. split.
  - pose proof (footprint_mono es es' "ram" Hsub). lia.
  - assert (length es' <= length es)%nat; [|lia]. apply submseteq_length, NoDup_submseteq; [by apply NoDup_pairs|done].
Qed.

Lemma elem_of_dict_del {V} (d : list (string * V)) k k' v :
  NoDup (keys d) -> (k', v) ∈ dict_del d k <-> k' <> k /\ (k', v) ∈ d.
Proof.
  intros Hnd. pose proof (NoDup_dict_del d k Hnd) as Hnd'. split.
  - intros Hin. pose proof (elem_dict_get _ _ _ Hnd' Hin) as Hg. rewrite dict_get_del in Hg by done.
    case_decide; [done|]. split; [done|by apply dict_get_elem].
  - intros [Hne Hin]. apply dict_get_elem. rewrite dict_get_del, decide_False by done. by apply elem_dict_get.
Qed.

Lemma keys_dict_del {V} (d : list (string * V)) k x : NoDup (keys d) -> x ∈ keys (dict_del d k) <-> x <> k /\ x ∈ keys d.
Proof.
  intros Hnd. rewrite <- !dict_mem_true. unfold dict_mem. rewrite dict_get_del by done.
  case_decide; split; intuition congruence.
Qed.

Lemma dict_get_snoc {V} (d : list (string * V)) k v x :
  dict_get (d ++ [(k, v)]) x = match dict_get d x with Some w => Some w | None => if decide (x = k) then Some v else None end.
Proof. induction d as [|[a b] d IH]; cbn; [done|]. by destruct (decide (x = a)). Qed.

Lemma keys_snoc {V} (d : list (string * V)) k v : keys (d ++ [(k, v)]) = keys d ++ [k].
Proof. unfold keys. by rewrite fmap_app. Qed.

Lemma keys_move_to_end es key e x : NoDup (keys es) -> x ∈ keys (move_to_end es key e) <-> x = key \/ x ∈ keys es.
Proof.
  intros Hnd. unfold move_to_end. rewrite keys_snoc, elem_of_app, keys_dict_del, list_elem_of_singleton by done.
  destruct (decide (x = key)); intuition.
Qed.

Lemma NoDup_move_to_end es key e : NoDup (keys es) -> NoDup (keys (move_to_end es key e)).
Proof.
  intros Hnd. unfold move_to_end. rewrite keys_snoc. apply NoDup_app.
  split_and!; [by apply NoDup_dict_del| |apply NoDup_singleton].
  intros x [Hx _]%keys_dict_del ->%list_elem_of_singleton; done.
Qed.

Lemma elem_of_move_to_end es key e x :
  NoDup (keys es) -> x ∈ move_to_end es key e <-> x = (key, e) \/ (x.1 <> key /\ x ∈ es).
Proof.
  intros Hnd. unfold move_to_end. rewrite elem_of_app, list_elem_of_singleton. destruct x as [k v].
  rewrite elem_of_dict_del by done. naive_solver.
Qed.

Lemma dict_get_move_to_end es key e k :
  NoDup (keys es) -> dict_get (move_to_end es key e) k = if decide (k = key) then Some e else dict_get es k.
Proof.
  intros Hnd. unfold move_to_end. rewrite dict_get_snoc, dict_get_del by done. case_decide; [done|]. by case_match.
Qed.

(** ** What holds of the cache and of the suspended tasks

    [born] and [since] say what an invalidation guarantees: an entry that
    references the resource was made by task [born] or later, and the
    generation is at least [since]. They are 0 when nothing is guaranteed. *)
Section invariant.
Variables (origin : MemoryLRUCache) (resource : string) (born : nat) (since : Z).

Definition entry_ok (e : CachedResult) : Prop := references e resource = true -> (born <= identity e)%nat.

Record cache_ok (sv : gset nat) (c : MemoryLRUCache) : Prop := {
  co_keys : NoDup (keys (entries c));
  co_generation : since <= generation c;
  co_entries : forall k e, (k, e) ∈ entries c -> entry_ok e;
  co_clean : forall k, k ∈ clean c -> exists e, dict_get (entries c) k = Some e /\ identity e ∈ sv
}.

Definition task_ok (sv : gset nat) (gen_now : Z) (t : task) : Prop :=
  match t with
  | PutWaiting _ e persisted gen =>
      gen <= gen_now /\ ((identity e < born)%nat -> gen < since) /\ (persisted = true -> identity e ∈ sv)
  | PutEager _ e gen => gen <= gen_now /\ ((identity e < born)%nat -> gen < since)
  | PutEvict _ _ previous gen _ _ _ => gen <= gen_now /\ forall old, previous = Some old -> gen = gen_now -> entry_ok old
  | ShedWaiting _ | ShedEvict _ _ _ _ _ _ => True
  end.

(** The entries as they would be if the put failed. *)
Definition rollback (key : string) (previous : option CachedResult) (es : entry_map) : entry_map :=
  dict_del es key ++ match previous with Some old => [(key, old)] | None => [] end.

Definition put_pending (key : string) (e : CachedResult) (previous : option CachedResult) (c : MemoryLRUCache) : Prop :=
  (forall e', dict_get (entries c) key = Some e' -> e' = e) /\ within c (rollback key previous (entries c)).

Definition held_ok (c : MemoryLRUCache) (t : task) : Prop :=
  match t with
  | PutWaiting _ _ _ _ | ShedWaiting _ => False
  | PutEager _ _ _ | ShedEvict _ _ _ _ _ _ => within c (entries c)
  | PutEvict key e previous _ p _ _ => put_pending key e previous c /\ (p = Count -> footprint c "ram" <= max_bytes c)
  end.

Definition outcome_ok (sv : gset nat) (c0 : MemoryLRUCache) (o : MemoryLRUCache * list CachedResult * progress) : Prop :=
  let '(c, out, r) := o in
  cache_ok sv c /\ same_limits c0 c /\ generation c = generation c0
  /\ (has_persist c = true -> forall e, e ∈ out -> identity e ∈ sv)
  /\ match r with Suspended t => task_ok sv (generation c) t /\ held_ok c t | _ => within c (entries c) end.

Record system_ok (s : system) : Prop := {
  so_cache : cache_ok (saved s) (cache s);
  so_tasks : forall tid t, tasks s !! tid = Some t -> task_ok (saved s) (generation (cache s)) t;
  so_holder : match holder s with
              | None => within (cache s) (entries (cache s))
              | Some tid => exists t, tasks s !! tid = Some t /\ held_ok (cache s) t
              end;
  so_evicted : has_persist (cache s) = true -> forall n, n ∈ evicted s -> n ∈ saved s;
  so_tids : forall tid t, tasks s !! tid = Some t -> (tid < fresh s)%nat;
  so_fresh : (born <= fresh s)%nat;
  so_limits : 0 <= max_bytes (cache s) /\ 0 <= max_entries (cache s);
  so_origin : same_limits origin (cache s)
}.

(** *** Removals *)

Lemma remove_entries c key x :
  NoDup (keys (entries c)) -> x ∈ entries (remove c key) <-> x.1 <> key /\ x ∈ entries c.
Proof. intros H. destruct x as [k v]. by apply elem_of_dict_del. Qed.

Lemma remove_ok sv c key : cache_ok sv c -> cache_ok sv (remove c key).
Proof.
  intros [Hk Hg He Hc]. split; cbn.
  - by apply NoDup_dict_del.
  - done.
  - intros k e [_ Hin]%elem_of_dict_del; [|done]. by eapply He.
  - intros k [Hin Hne]%elem_of_difference. rewrite not_elem_of_singleton in Hne.
    destruct (Hc k Hin) as (e & Hget & Hs). exists e. by rewrite dict_get_del, decide_False.
Qed.

Lemma remove_within c key c' : NoDup (keys (entries c)) -> within c' (entries c) -> within c' (entries (remove c key)).
Proof.
  intros Hnd. apply within_mono; [by apply NoDup_dict_del|]. intros x. rewrite remove_entries by done. tauto.
Qed.

Lemma footprint_remove c key device : NoDup (keys (entries c)) -> footprint (remove c key) device <= footprint c device.
Proof. intros Hnd. apply footprint_mono. intros x. rewrite remove_entries by done. tauto. Qed.

Lemma NoDup_rollback key previous es : NoDup (keys es) -> NoDup (keys (rollback key previous es)).
Proof.
  intros Hnd. unfold rollback. destruct previous as [old|]; [by apply NoDup_move_to_end|].
  rewrite app_nil_r. by apply NoDup_dict_del.
Qed.

Lemma rollback_mono key previous es es' :
  NoDup (keys es) -> NoDup (keys es') -> (forall x, x ∈ es' -> x ∈ es) ->
  forall x, x ∈ rollback key previous es' -> x ∈ rollback key previous es.
Proof.
  intros Hnd Hnd' Hsub [k v]. unfold rollback. rewrite !elem_of_app, !elem_of_dict_del by done. naive_solver.
Qed.

Lemma pending_sub key e previous c c' :
  same_limits c c' -> NoDup (keys (entries c)) -> NoDup (keys (entries c')) ->
  (forall x, x ∈ entries c' -> x ∈ entries c) -> put_pending key e previous c -> put_pending key e previous c'.
Proof.
  intros (Hn & Hb & _) Hnd Hnd' Hsub [He Hw]. split.
  - intros e' Hg%dict_get_elem%Hsub. apply He. by apply elem_dict_get.
  - unfold within in *. rewrite Hn, Hb.
    apply (within_mono c (rollback key previous (entries c))); [by apply NoDup_rollback| |done].
    by apply rollback_mono.
Qed.

Lemma remove_limits c key : same_limits c (remove c key).
Proof. done. Qed.

(** *** The end of a put *)

Lemma put_failed_ok sv c key e previous gen :
  cache_ok sv c -> put_pending key e previous c ->
  (forall old, previous = Some old -> gen = generation c -> entry_ok old) ->
  let c' := put_failed c key e previous gen in
  cache_ok sv c' /\ same_limits c c' /\ generation c' = generation c /\ within c' (entries c').
Proof.
  intros Hc [He Hw] Hold. pose proof (co_keys _ _ Hc) as Hnd. cbn zeta.
  assert (Hrem : within (remove c key) (entries (remove c key))).
  { apply (within_mono c (rollback key previous (entries c))); [by apply NoDup_dict_del| |done].
    intros x Hx. unfold rollback. rewrite elem_of_app. by left. }
  unfold put_failed, is_entry. destruct (dict_get (entries c) key) as [e'|] eqn:Hg.
  - pose proof (He e' eq_refl) as ->. rewrite Nat.eqb_refl.
    destruct previous as [old|]; [|split_and!; [by apply remove_ok|done..]].
    cbn [generation remove with_entries]. destruct (gen =? generation c) eqn:Egen; [|split_and!; [by apply remove_ok|done..]].
    apply Z.eqb_eq in Egen. destruct (remove_ok sv c key Hc) as [Hk' Hg' He' Hc'].
    assert (Hset : entries (with_entries (dict_set (entries (remove c key)) key old) (clean (remove c key)) (remove c key))
                   = rollback key (Some old) (entries c)).
    { cbn. unfold rollback. assert (Hfree : dict_get (dict_del (entries c) key) key = None) by (by rewrite dict_get_del, decide_True).
      revert Hfree. generalize (dict_del (entries c) key). intros d. induction d as [|[a b] d IH]; cbn; [done|].
      case_decide; [done|]. intros Hd. by rewrite IH. }
    split_and!; try done.
    + split.
      * rewrite Hset. by apply NoDup_rollback.
      * exact Hg'.
      * intros k x. rewrite Hset. unfold rollback. rewrite elem_of_app, list_elem_of_singleton.
        intros [Hx|[= -> ->]]; [by eapply He'|by apply Hold].
      * intros k Hk. cbn in Hk. destruct (Hc' k Hk) as (x & Hx & Hs). exists x. split; [|done].
        rewrite Hset. unfold rollback. rewrite dict_get_snoc. cbn in Hx. by rewrite Hx.
    + unfold within. rewrite Hset. exact Hw.
  - split_and!; try done. apply (within_mono c (rollback key previous (entries c))); [done| |done].
    intros [k x] Hx. unfold rollback. rewrite elem_of_app, elem_of_dict_del by done. left. split; [|done].
    intros ->. rewrite (elem_dict_get _ _ _ Hnd Hx) in Hg. done.
Qed.

Lemma next_victim_entry c p victim ventry :
  next_victim c p = Some (Some (victim, ventry)) -> (victim, ventry) ∈ entries c.
Proof.
  unfold next_victim. destruct p; case_match; try done; intros [= Hv].
  - apply List.find_some in Hv as [Hv _]. by apply list_elem_of_In.
  - destruct (entries c) as [|x es]; [done|]. injection Hv as ->. left.
Qed.

(** The loops find a victim as long as a bound is exceeded. *)
Lemma next_victim_found c p : 0 <= max_bytes c -> 0 <= max_entries c -> next_victim c p <> Some None.
Proof.
  intros Hb Hn. unfold next_victim. destruct p; case_match eqn:E; try done; intros [= Hno].
  - apply Z.ltb_lt in E. destruct (values_cost_pos "ram" (concat (map (fun ke => entry_values ke.2) (entries c)))) as (v & Hv & Hp).
    { unfold footprint, footprint_in in E. lia. }
    apply elem_of_concat_map in Hv as (ke & Hke & Hv).
    pose proof (List.find_none _ _ Hno ke (proj1 (list_elem_of_In _ _) Hke)) as Hz. apply Z.ltb_ge in Hz.
    assert (values_cost [v] "ram" <= entry_cost ke.2 "ram"); [|lia].
    apply values_cost_mono. intros w ->%list_elem_of_singleton. exact Hv.
  - apply Z.ltb_lt in E. destruct (entries c); [cbn in E; lia|done].
Qed.

Lemma length_remove c key : dict_get (entries c) key <> None -> S (length (entries (remove c key))) = length (entries c).
Proof.
  unfold remove. cbn. generalize (entries c). intros d. induction d as [|[a b] d IH]; cbn; [done|].
  case_decide; [done|]. intros Hg. cbn. by rewrite IH.
Qed.

Lemma must_flush_clean sv c victim ventry :
  cache_ok sv c -> has_persist c = true -> must_flush c victim = false -> dict_get (entries c) victim = Some ventry ->
  identity ventry ∈ sv.
Proof.
  intros Hc Hp Hm Hg. unfold must_flush in Hm. rewrite Hp in Hm. apply negb_false_iff, bool_decide_eq_true in Hm.
  destruct (co_clean _ _ Hc victim Hm) as (x & Hx & Hs). rewrite Hg in Hx. by injection Hx as ->.
Qed.

Lemma evict_loop_ok sv fuel c key e previous gen p out :
  0 <= max_bytes c -> 0 <= max_entries c ->
  cache_ok sv c -> put_pending key e previous c -> (p = Count -> footprint c "ram" <= max_bytes c) ->
  gen <= generation c -> (forall old, previous = Some old -> gen = generation c -> entry_ok old) ->
  (has_persist c = true -> forall x, x ∈ out -> identity x ∈ sv) ->
  (length (entries c) + (match p with Bytes => 1 | Count => 0 end) < fuel)%nat ->
  exists o, evict_loop fuel c key e previous gen p out = Some o /\ outcome_ok sv c o /\ o.2 <> Raised.
Proof.
  revert c p out. induction fuel as [|fuel IH]; intros c p out Hb Hn Hc Hpend Hcount Hgen Hold Hout Hf; [lia|].
  cbn [evict_loop]. pose proof (co_keys _ _ Hc) as Hnd. destruct (next_victim c p) as [[[victim ventry]|]|] eqn:Ev.
  - pose proof (next_victim_entry _ _ _ _ Ev) as Hin. pose proof (elem_dict_get _ _ _ Hnd Hin) as Hg.
    destruct (must_flush c victim) eqn:Em.
    + eexists. split; [done|]. split; [|done]. split_and!; try done; by split_and!.
    + destruct (IH (remove c victim) p (ventry :: out)) as (o & Ho & Hok & Hr); try done.
      * by apply remove_ok.
      * eapply pending_sub; [apply remove_limits|exact Hnd|by apply NoDup_dict_del| |exact Hpend].
        intros x. rewrite remove_entries by done. tauto.
      * intros Hp'. pose proof (footprint_remove c victim "ram" Hnd). specialize (Hcount Hp'). cbn. lia.
      * intros Hp' x [->|Hx]%elem_of_cons; [|by apply Hout]. by eapply must_flush_clean.
      * pose proof (length_remove c victim). rewrite Hg in *. assert (S (length (entries (remove c victim))) = length (entries c)) by auto. lia.
      * exists o. split_and!; done.
  - by destruct (next_victim_found c p Hb Hn).
  - destruct p.
    + apply IH; try done; [|cbn in *; lia]. intros _. unfold next_victim in Ev. case_match eqn:E; [done|]. by apply Z.ltb_ge in E.
    + eexists. split; [done|]. split; [|done]. split_and!; try done. split; [by apply Hcount|].
      unfold next_victim in Ev. case_match eqn:E; [done|]. by apply Z.ltb_ge in E.
Qed.

Lemma put_evictions_ok sv c key e previous gen p :
  0 <= max_bytes c -> 0 <= max_entries c ->
  cache_ok sv c -> put_pending key e previous c -> (p = Count -> footprint c "ram" <= max_bytes c) ->
  gen <= generation c -> (forall old, previous = Some old -> gen = generation c -> entry_ok old) ->
  outcome_ok sv c (put_evictions c key e previous gen p) /\ (put_evictions c key e previous gen p).2 <> Raised.
Proof.
  intros. unfold put_evictions.
  destruct (evict_loop_ok sv (2 + length (entries c)) c key e previous gen p []) as (o & -> & ? & ?); try done.
  - by intros _ x ?%not_elem_of_nil.
  - destruct p; lia.
Qed.

Lemma outcome_trans sv c0 c o : same_limits c0 c -> generation c = generation c0 -> outcome_ok sv c o -> outcome_ok sv c0 o.
Proof.
  destruct o as [[c' out] r]. intros (H1 & H2 & H3) Hg (Hc & (L1 & L2 & L3) & Hg' & Hout & Hr).
  split_and!; try done; try congruence. unfold same_limits. split_and!; congruence.
Qed.

Lemma put_insert_ok sv c key e persisted gen :
  0 <= max_bytes c -> 0 <= max_entries c ->
  cache_ok sv c -> within c (entries c) -> entry_ok e -> (persisted = true -> identity e ∈ sv) -> gen <= generation c ->
  outcome_ok sv c (put_insert c key e persisted gen).
Proof.
  intros Hb Hn Hc Hw He Hs Hgen. pose proof (co_keys _ _ Hc) as Hnd. unfold put_insert.
  set (c1 := with_entries _ _ c). apply (outcome_trans sv c c1); [done|done|].
  apply put_evictions_ok; try done.
  - split; cbn.
    + by apply NoDup_move_to_end.
    + apply (co_generation _ _ Hc).
    + intros k x [[= -> ->]|[_ Hx]]%elem_of_move_to_end; [done| |done]. by eapply (co_entries _ _ Hc).
    + intros k Hk. destruct (decide (k = key)) as [->|Hne].
      * exists e. rewrite dict_get_move_to_end, decide_True by done. split; [done|]. apply Hs. destruct persisted; set_solver.
      * destruct (co_clean _ _ Hc k) as (x & Hx & Hsx); [destruct persisted; set_solver|].
        exists x. by rewrite dict_get_move_to_end, decide_False.
  - split; cbn.
    + intros e'. rewrite dict_get_move_to_end, decide_True by done. congruence.
    + apply (within_mono c (entries c)); [| |done].
      * apply NoDup_rollback. by apply NoDup_move_to_end.
      * intros [k x]. unfold rollback. rewrite elem_of_app, elem_of_dict_del by (by apply NoDup_move_to_end).
        rewrite elem_of_move_to_end by done. intros [[Hne [[= -> ->]|[_ Hx]]]|Hx]; [done|done|].
        destruct (dict_get (entries c) key) as [old|] eqn:Eo; [|by apply not_elem_of_nil in Hx].
        apply list_elem_of_singleton in Hx as [= -> ->]. by apply dict_get_elem.
  - intros old Hp _. apply (co_entries _ _ Hc key). by apply dict_get_elem.
Qed.

Lemma put_locked_ok sv c key e persisted gen :
  0 <= max_bytes c -> 0 <= max_entries c ->
  cache_ok sv c -> within c (entries c) -> task_ok sv (generation c) (PutWaiting key e persisted gen) ->
  outcome_ok sv c (put_locked c key e persisted gen).
Proof.
  intros Hb Hn Hc Hw (Hgen & Hborn & Hs). unfold put_locked.
  destruct (gen =? generation c) eqn:Eg; cbn [negb]; [|split_and!; try done; by intros _ x ?%not_elem_of_nil].
  apply Z.eqb_eq in Eg. destruct (negb persisted && has_persist c) eqn:Ep.
  - destruct Hc as [Hk Hge He Hcl]. split_and!; try done.
    + split; try done. intros k Hk'. apply Hcl. set_solver.
    + by intros _ x ?%not_elem_of_nil.
  - apply put_insert_ok; try done. intros _. destruct (decide (identity e < born)%nat); [|lia].
    pose proof (co_generation _ _ Hc). assert (gen < since) by auto. lia.
Qed.

Lemma shed_keys_ok sv c device needed listed freed out :
  cache_ok sv c -> within c (entries c) -> (has_persist c = true -> forall x, x ∈ out -> identity x ∈ sv) ->
  outcome_ok sv c (shed_keys c device needed listed freed out).
Proof.
  revert c freed out. induction listed as [|key rest IH]; intros c freed out Hc Hw Hout; cbn [shed_keys]; [by split_and!|].
  case_match; [by split_and!|]. destruct (dict_get (entries c) key) as [e|] eqn:Hg; [|by apply IH].
  case_match; [|by apply IH]. destruct (must_flush c key) eqn:Em; [by split_and!|].
  apply (outcome_trans sv c (remove c key)); [done|done|]. apply IH.
  - by apply remove_ok.
  - apply remove_within; [apply (co_keys _ _ Hc)|done].
  - intros Hp x [->|Hx]%elem_of_cons; [|by apply Hout]. by eapply must_flush_clean.
Qed.

Lemma resume_ok sv c t a e :
  0 <= max_bytes c -> 0 <= max_entries c -> flushing t = Some e ->
  cache_ok sv c -> task_ok sv (generation c) t -> held_ok c t ->
  outcome_ok (persisted_by t a ∪ sv) c (resume c t a).
Proof.
  intros Hb Hn Hfl Hc Ht Hh. set (sv' := persisted_by t a ∪ sv).
  assert (Hc' : cache_ok sv' c).
  { destruct Hc as [H1 H2 H3 H4]. split; try done. intros k Hk. destruct (H4 k Hk) as (x & ? & ?). exists x. set_solver. }
  assert (Hnone : has_persist c = true -> forall x : CachedResult, x ∈ [] -> identity x ∈ sv') by (by intros _ x ?%not_elem_of_nil).
  pose proof (co_keys _ _ Hc) as Hnd.
  destruct t as [key e0 persisted gen|key e0 gen|key e0 previous gen p victim ventry|p|device needed rest freed victim ventry];
    try done; cbn in Hfl; injection Hfl as ->.
  - destruct Ht as [Hgen Hborn]. cbn in Hh.
    assert (Hgo : forall persisted, (persisted = true -> identity e ∈ sv') ->
      outcome_ok sv' c (if negb (gen =? generation c) then (c, [], Returned 0) else put_insert c key e persisted gen)).
    { intros persisted Hs. destruct (gen =? generation c) eqn:Eg; cbn [negb]; [|by split_and!].
      apply Z.eqb_eq in Eg. apply put_insert_ok; try done. intros _.
      destruct (decide (identity e < born)%nat); [|lia]. pose proof (co_generation _ _ Hc). assert (gen < since) by auto. lia. }
    destruct a; cbn [resume]; [apply Hgo; set_solver|by apply Hgo|by split_and!].
  - destruct Ht as [Hgen Hold], Hh as [Hpend Hcount].
    assert (Hgo : forall c1 p', same_limits c c1 -> generation c1 = generation c -> cache_ok sv' c1 -> put_pending key e0 previous c1 ->
      (p' = Count -> footprint c1 "ram" <= max_bytes c1) -> outcome_ok sv' c (put_evictions c1 key e0 previous gen p')).
    { intros c1 p' Hl Hg1 Hc1 Hp1 Hct. apply (outcome_trans sv' c c1); [done|done|].
      destruct Hl as (Hl1 & Hl2 & _). apply put_evictions_ok; try done; [lia..|].
      intros old Ho Hge. apply Hold; [done|congruence]. }
    assert (Hdone : identity e ∈ sv' -> outcome_ok sv' c
      (if is_entry c victim e
       then let '(c1, out, r) := put_evictions (remove c victim) key e0 previous gen p in (c1, out ++ [e], r)
       else put_evictions c key e0 previous gen p)).
    { intros Hs. destruct (is_entry c victim e); [|by apply Hgo].
      assert (Hrun : outcome_ok sv' c (put_evictions (remove c victim) key e0 previous gen p)).
      { apply Hgo; [done|done|by apply remove_ok| |].
        - eapply pending_sub; [apply remove_limits|exact Hnd|by apply NoDup_dict_del| |exact Hpend].
          intros x. rewrite remove_entries by done. tauto.
        - intros Hp. pose proof (footprint_remove c victim "ram" Hnd). specialize (Hcount Hp). cbn. lia. }
      destruct (put_evictions (remove c victim) key e0 previous gen p) as [[c1 out] r].
      destruct Hrun as (H1 & H2 & H3 & H4 & H5). split_and!; try done.
      intros Hp x [Hx| ->%list_elem_of_singleton]%elem_of_app; [by apply H4|done]. }
    destruct a; cbn [resume].
    + apply Hdone. set_solver.
    + apply Hdone. set_solver.
    + destruct (put_failed_ok sv' c key e0 previous gen) as (H1 & H2 & H3 & H4); [done..|].
      split_and!; try done. by intros _ x ?%not_elem_of_nil.
  - cbn in Hh.
    assert (Hdone : identity e ∈ sv' -> outcome_ok sv' c
      (if is_entry c victim e
       then shed_keys (remove c victim) device needed rest (freed + (footprint c device - footprint (remove c victim) device)) [e]
       else shed_keys c device needed rest freed [])).
    { intros Hs. destruct (is_entry c victim e); [|by apply shed_keys_ok].
      apply (outcome_trans sv' c (remove c victim)); [done|done|]. apply shed_keys_ok.
      - by apply remove_ok.
      - by apply remove_within.
      - by intros _ x ->%list_elem_of_singleton. }
    destruct a; cbn [resume]; [apply Hdone; set_solver..|by split_and!].
Qed.

(** *** Steps *)

Lemma task_ok_mono sv sv' g g' t : sv ⊆ sv' -> g <= g' -> task_ok sv g t -> task_ok sv' g' t.
Proof.
  intros Hs Hg. destruct t; cbn; try done.
  - intros (H1 & H2 & H3). split_and!; [lia|done|]. intros Hp. apply Hs. auto.
  - intros (H1 & H2). split; [lia|done].
  - intros (H1 & H2). split; [lia|]. intros old Hold Heq. apply H2; [done|lia].
Qed.

Lemma settle_ok s tid o sv :
  system_ok s -> saved s ⊆ sv -> outcome_ok sv (cache s) o -> (tid < fresh s)%nat ->
  system_ok (settle (mkSystem (cache s) (holder s) (tasks s) (fresh s) sv (evicted s)) tid o).
Proof.
  intros [Hc Ht Hh Hev Hid Hf [Hl1 Hl2] Ho] Hsv. destruct o as [[c out] r]. intros (Hc' & (L1 & L2 & L3) & Hg & Hout & Hr) Htid.
  assert (Hev' : has_persist c = true -> forall n, n ∈ map identity out ++ evicted s -> n ∈ sv).
  { intros Hp n [(x & -> & Hx)%list_elem_of_fmap|Hn]%elem_of_app; [by apply Hout|]. apply Hsv, Hev; [congruence|done]. }
  assert (Ht' : forall i t, tasks s !! i = Some t -> task_ok sv (generation c) t).
  { intros i t Hi. eapply task_ok_mono; [exact Hsv| |by apply (Ht i)]. lia. }
  assert (Hl : same_limits origin c) by (etrans; [exact Ho|by split_and!]).
  destruct r as [t|f|]; cbn [settle]; split; cbn; try done; try (by rewrite L1, L2).
  - intros i t'. rewrite lookup_insert_Some. intros [[<- <-]|[_ Hi]]; [by apply Hr|by apply (Ht' i)].
  - exists t. split; [apply lookup_insert_eq|by apply Hr].
  - intros i t'. rewrite lookup_insert_Some. intros [[<- <-]|[_ Hi]]; [done|by eapply Hid].
  - intros i t'. rewrite lookup_delete_Some. intros [_ Hi]. by apply (Ht' i).
  - intros i t'. rewrite lookup_delete_Some. intros [_ Hi]. by eapply Hid.
  - intros i t'. rewrite lookup_delete_Some. intros [_ Hi]. by apply (Ht' i).
  - intros i t'. rewrite lookup_delete_Some. intros [_ Hi]. by eapply Hid.
Qed.

Lemma settle_same s tid o :
  system_ok s -> outcome_ok (saved s) (cache s) o -> (tid < fresh s)%nat -> system_ok (settle s tid o).
Proof.
  destruct s as [c h ts f sv ev]. intros H Ho Ht.
  by apply (settle_ok (mkSystem c h ts f sv ev) tid o sv).
Qed.

(** A change of the cache alone that only removes or reorders entries. *)
Lemma shrink_ok s c :
  system_ok s -> same_limits (cache s) c -> generation (cache s) <= generation c -> NoDup (keys (entries c)) ->
  (forall x, x ∈ entries c -> x ∈ entries (cache s)) ->
  (forall k, k ∈ clean c -> k ∈ clean (cache s) /\ k ∈ keys (entries c)) ->
  system_ok (on_cache s c).
Proof.
  intros [Hc Ht Hh Hev Hid Hf [Hl1 Hl2] Ho] (L1 & L2 & L3) Hg Hnd Hsub Hcl. pose proof (co_keys _ _ Hc) as Hnd0.
  assert (Hw : within (cache s) (entries (cache s)) -> within c (entries c)).
  { intros Hw. unfold within. rewrite L1, L2. by apply (within_mono (cache s) (entries (cache s))). }
  split; cbn; try done.
  - split; [done| | |].
    + pose proof (co_generation _ _ Hc). lia.
    + intros k e Hin. eapply (co_entries _ _ Hc). by apply Hsub.
    + intros k Hk. destruct (Hcl k Hk) as [Hk1 Hk2]. destruct (co_clean _ _ Hc k Hk1) as (x & Hx & Hs).
      exists x. split; [|done]. apply dict_mem_true in Hk2. unfold dict_mem in Hk2.
      destruct (dict_get (entries c) k) as [y|] eqn:Ey; [|done]. f_equal.
      pose proof (elem_dict_get _ _ _ Hnd0 (Hsub _ (dict_get_elem _ _ _ Ey))) as Hy. congruence.
  - intros i t Hi. eapply task_ok_mono; [done|exact Hg|by apply (Ht i)].
  - destruct (holder s) as [tid|]; [|by apply Hw]. destruct Hh as (t & Hi & Hh). exists t. split; [done|].
    destruct t; cbn in *; try done; try by apply Hw. destruct Hh as [Hp Hct]. split.
    + by eapply pending_sub.
    + intros Hp'. pose proof (footprint_mono (entries (cache s)) (entries c) "ram" Hsub). specialize (Hct Hp').
      unfold footprint in *. rewrite L2. lia.
  - by rewrite L3.
  - by rewrite L1, L2.
  - etrans; [exact Ho|by split_and!].
Qed.

Lemma removes_entries c ks x :
  NoDup (keys (entries c)) -> x ∈ entries (foldl remove c ks) <-> x ∈ entries c /\ x.1 ∉ ks.
Proof.
  revert c. induction ks as [|k ks IH]; intros c Hnd; cbn [foldl]; [set_solver|].
  rewrite IH by (by apply NoDup_dict_del). rewrite remove_entries by done. set_solver.
Qed.

Lemma removes_same c ks :
  NoDup (keys (entries c)) ->
  NoDup (keys (entries (foldl remove c ks))) /\ same_limits c (foldl remove c ks)
  /\ generation (foldl remove c ks) = generation c
  /\ forall k, k ∈ clean (foldl remove c ks) <-> k ∈ clean c /\ k ∉ ks.
Proof.
  revert c. induction ks as [|k ks IH]; intros c Hnd; cbn [foldl].
  { split_and!; try done. intros k. split; [|tauto]. intros Hk. split; [done|apply not_elem_of_nil]. }
  destruct (IH (remove c k)) as (H1 & H2 & H3 & H4); [by apply NoDup_dict_del|]. split_and!; try done.
  intros k'. rewrite H4. cbn. set_solver.
Qed.

Lemma drop_entries c rid x :
  NoDup (keys (entries c)) ->
  x ∈ entries (drop_referencing c rid).2 <-> x ∈ entries c /\ references x.2 rid = false.
Proof.
  intros Hnd. unfold drop_referencing. cbn [snd]. rewrite removes_entries by done. cbn [entries next_generation].
  destruct x as [k e]. cbn [fst snd]. split; intros [Hx Hr]; (split; [done|]).
  - destruct (references e rid) eqn:E; [|done]. destruct Hr. apply list_elem_of_fmap. exists (k, e). split; [done|].
    apply list_elem_of_In, List.filter_In. split; [by apply list_elem_of_In|done].
  - intros ([k' e'] & Hk & Hin)%list_elem_of_fmap. cbn in Hk. subst k'.
    apply list_elem_of_In, List.filter_In in Hin as [Hin%list_elem_of_In Href]. cbn in Href.
    apply (elem_dict_get _ _ _ Hnd) in Hin, Hx. congruence.
Qed.

Lemma co_clean_keys sv c k : cache_ok sv c -> k ∈ clean c -> k ∈ keys (entries c).
Proof.
  intros Hc Hk. destruct (co_clean _ _ Hc k Hk) as (x & Hx & _). apply dict_mem_true. unfold dict_mem. by rewrite Hx.
Qed.

Lemma spawn_ok s t sv :
  system_ok s -> task_ok (sv ∪ saved s) (generation (cache s)) t -> system_ok (spawn s t sv).
Proof.
  intros [[Hk Hge He Hcl] Ht Hh Hev Hid Hf Hl Ho] Hok. split; cbn; try done.
  - split; try done. intros k Hk'. destruct (Hcl k Hk') as (x & ? & ?). exists x. set_solver.
  - intros i t'. rewrite lookup_insert_Some. intros [[<- <-]|[_ Hi]]; [done|].
    apply (task_ok_mono (saved s) _ (generation (cache s))); [set_solver|done|by apply (Ht i)].
  - destruct (holder s) as [tid|]; [|done]. destruct Hh as (t' & Hi & Hh). exists t'. split; [|done].
    rewrite lookup_insert_ne; [done|]. specialize (Hid _ _ Hi). lia.
  - intros Hp n Hn. specialize (Hev Hp n Hn). set_solver.
  - intros i t'. rewrite lookup_insert_Some. intros [[<- <-]|[_ Hi]]; [lia|]. specialize (Hid _ _ Hi). lia.
  - lia.
Qed.

Lemma get_ok s key : system_ok s -> system_ok (on_cache s (get (cache s) key).2).
Proof.
  intros H. pose proof (so_cache _ H) as Hc. pose proof (co_keys _ _ Hc) as Hnd. unfold get.
  destruct (dict_get (entries (cache s)) key) as [e|] eqn:Eg; cbn [snd].
  - apply shrink_ok; cbn; try done.
    + by apply NoDup_move_to_end.
    + intros x [->|[_ Hx]]%elem_of_move_to_end; [by apply dict_get_elem|done|done].
    + intros k Hk. split; [done|]. apply keys_move_to_end; [done|]. right. by eapply co_clean_keys.
  - apply shrink_ok; cbn; try done. intros k Hk. split; [done|by eapply co_clean_keys].
Qed.

Lemma drop_ok s rid : system_ok s -> system_ok (on_cache s (drop_referencing (cache s) rid).2).
Proof.
  intros H. pose proof (so_cache _ H) as Hc. pose proof (co_keys _ _ Hc) as Hnd.
  set (found := keys (List.filter (fun ke => references ke.2 rid) (entries (cache s)))).
  destruct (removes_same (next_generation (cache s)) found Hnd) as (H1 & H2 & H3 & H4).
  apply shrink_ok; try done.
  - cbn [snd drop_referencing]. fold found. rewrite H3. cbn. lia.
  - intros x. rewrite drop_entries by done. tauto.
  - intros k. cbn [snd drop_referencing]. fold found. rewrite H4. cbn [clean next_generation]. intros [Hk Hf].
    split; [done|]. pose proof (co_clean_keys _ _ _ Hc Hk) as ([k' e] & -> & Hin)%list_elem_of_fmap.
    apply list_elem_of_fmap. exists (k', e). split; [done|]. by apply removes_entries.
Qed.

Lemma cache_step_ok s s' : system_ok s -> step s s' -> system_ok s'.
Proof.
  intros H Hs. pose proof H as [Hc Ht Hh Hev Hid Hf [Hl1 Hl2] Ho].
  destruct Hs as [key| |rid|key outs|key outs|p|tid key e persisted gen Hn Hi|tid p Hn Hi|tid t e a Hn Hi Hfl|tid t Hi Hfl].
  - by apply get_ok.
  - apply shrink_ok; cbn; try done; [lia|apply NoDup_nil_2|by intros x ?%not_elem_of_nil].
  - by apply drop_ok.
  - apply spawn_ok; [done|]. cbn. split_and!; [lia|lia|done].
  - apply spawn_ok; [done|]. cbn. split_and!; [lia|lia|set_solver].
  - by apply spawn_ok.
  - rewrite Hn in Hh. apply settle_same; [done| |by eapply Hid]. apply put_locked_ok; try done. by apply (Ht tid).
  - rewrite Hn in Hh. apply settle_same; [done| |by eapply Hid]. apply shed_keys_ok; try done.
    by intros _ x ?%not_elem_of_nil.
  - rewrite Hn in Hh. destruct Hh as (t' & Hi' & Hh). rewrite Hi in Hi'. injection Hi' as <-.
    apply settle_ok; [done|set_solver| |by eapply Hid]. eapply resume_ok; try done. by apply (Ht tid).
  - split; cbn; try done.
    + intros i t'. rewrite lookup_delete_Some. intros [_ Hi']. by apply (Ht i).
    + destruct (holder s) as [h|]; [|done]. destruct Hh as (t' & Hi' & Hh). exists t'. split; [|done].
      rewrite lookup_delete_ne; [done|]. intros ->. rewrite Hi in Hi'. injection Hi' as <-. by destruct t.
    + intros i t'. rewrite lookup_delete_Some. intros [_ Hi']. by eapply Hid.
Qed.

Lemma steps_ok s s' : system_ok s -> star step s s' -> system_ok s'.
Proof. intros H Hs. revert H. induction Hs; eauto using cache_step_ok. Qed.
End invariant.

(** A cache as it is before anything runs. *)
Definition cache_made (n b : Z) (c : MemoryLRUCache) : Prop :=
  exists c0, cache_init n b = Ok c0 /\ (c = c0 \/ set_persistence_handler c0 = Ok c).

Lemma cache_made_spec n b c :
  cache_made n b c -> entries c = [] /\ clean c = ∅ /\ generation c = 0 /\ max_entries c = n /\ max_bytes c = b /\ 1 <= n /\ 0 <= b.
Proof.
  intros (c0 & H & Hc). unfold cache_init in H. destruct (n <? 1) eqn:En; [done|]. destruct (b <? 0) eqn:Eb; [done|].
  apply Z.ltb_ge in En, Eb. injection H as <-. destruct Hc as [->|Hc]; [by split_and!|].
  unfold set_persistence_handler in Hc. cbn in Hc. injection Hc as <-. by split_and!.
Qed.

Lemma initial_system_ok rid n b c : cache_made n b c -> system_ok c rid 0 0 (initial c).
Proof.
  intros (He & Hcl & Hg & Hn & Hb & Hn1 & Hb1)%cache_made_spec. split; cbn; try done; try lia.
  - split; rewrite ?He, ?Hcl; try done; [apply NoDup_nil_2|lia|by intros k e ?%not_elem_of_nil].
  - unfold within. rewrite He, Hn, Hb. assert (footprint_in [] "ram" = 0) as -> by reflexivity. cbn. lia.
  - intros _ m Hm. by apply not_elem_of_nil in Hm.
Qed.

Lemma cache_reachable_ok rid n b c s : cache_made n b c -> reachable c s -> system_ok c rid 0 0 s.
Proof. intros Hc Hs. eapply steps_ok; [|exact Hs]. by eapply initial_system_ok. Qed.

(** Right after an invalidation, what it guarantees holds of the system. *)
Lemma dropped_system_ok origin rid s :
  system_ok origin rid 0 0 s ->
  system_ok origin rid (fresh s) (generation (cache s) + 1) (on_cache s (drop_referencing (cache s) rid).2).
Proof.
  intros H. pose proof (so_cache _ _ _ _ _ H) as Hc. pose proof (co_keys _ _ _ _ _ Hc) as Hnd.
  pose proof (drop_ok _ _ _ _ s rid H) as [[Hk Hge He Hcl] Ht Hh Hev Hid Hf Hl Ho].
  assert (Hgen : generation (drop_referencing (cache s) rid).2 = generation (cache s) + 1).
  { unfold drop_referencing. cbn [snd]. by destruct (removes_same (next_generation (cache s))
      (keys (List.filter (fun ke => references ke.2 rid) (entries (cache s)))) Hnd) as (_ & _ & -> & _). }
  cbn [cache on_cache saved tasks holder fresh evicted] in *. split; cbn [cache on_cache saved tasks holder fresh evicted]; try done.
  - split; [done|by rewrite Hgen| |done].
    intros k e Hin. apply drop_entries in Hin as [_ Hr]; [|done]. unfold entry_ok. cbn in Hr. by rewrite Hr.
  - intros tid t Hi. pose proof (so_tasks _ _ _ _ _ H tid t Hi) as Hg. specialize (Ht tid t Hi). rewrite Hgen in *.
    destruct t; cbn in Ht, Hg |- *; try done.
    + split_and!; [lia|lia|tauto].
    + lia.
    + split; [lia|]. intros old Hold Hg'. lia.
Qed.

(** * A governed consumer *)

(** Without a handler a shed never waits. *)
Section plain.
Variables (device : string) (needed : Z).

Lemma footprint_remove_le c key : footprint (remove c key) device <= footprint c device.
Proof. apply footprint_mono. intros x Hx. exact (dict_del_elem (entries c) key x Hx). Qed.

Lemma shed_keys_plain c listed freed out :
  has_persist c = false ->
  exists c' out' f, shed_keys c device needed listed freed out = (c', out', Returned f)
    /\ has_persist c' = false /\ f - freed = footprint c device - footprint c' device /\ freed <= f
    /\ (forall x, x ∈ entries c' -> x ∈ entries c)
    /\ (needed <= f \/ forall k e, k ∈ listed -> NoDup (keys (entries c)) -> (k, e) ∈ entries c' -> entry_cost e device <= 0).
Proof.
  revert c freed out. induction listed as [|key rest IH]; intros c freed out Hp; cbn [shed_keys].
  { exists c, out, freed. split_and!; try done; try lia. right. by intros k e ?%not_elem_of_nil. }
  destruct (needed <=? freed) eqn:En.
  { apply Z.leb_le in En. exists c, out, freed. split_and!; try done; lia. }
  assert (Hskip : (forall e, NoDup (keys (entries c)) -> (key, e) ∈ entries c -> entry_cost e device <= 0) ->
    exists c' out' f, shed_keys c device needed rest freed out = (c', out', Returned f)
    /\ has_persist c' = false /\ f - freed = footprint c device - footprint c' device /\ freed <= f
    /\ (forall x, x ∈ entries c' -> x ∈ entries c)
    /\ (needed <= f \/ forall k e, k ∈ key :: rest -> NoDup (keys (entries c)) -> (k, e) ∈ entries c' -> entry_cost e device <= 0)).
  { intros Hkey. destruct (IH c freed out Hp) as (c' & out' & f & H1 & H2 & H3 & H4 & H5 & H6).
    exists c', out', f. split_and!; try done. destruct H6 as [|H6]; [by left|right].
    intros k e [->|Hk]%elem_of_cons Hnd Hin; [apply Hkey; auto|by eapply H6]. }
  destruct (dict_get (entries c) key) as [e|] eqn:Hg.
  2:{ apply Hskip. intros e Hnd Hin. by rewrite (elem_dict_get _ _ _ Hnd Hin) in Hg. }
  destruct (0 <? entry_cost e device) eqn:Ec.
  2:{ apply Hskip. intros e' Hnd Hin. rewrite (elem_dict_get _ _ _ Hnd Hin) in Hg. injection Hg as ->. by apply Z.ltb_ge. }
  unfold must_flush. rewrite Hp. cbn [andb].
  destruct (IH (remove c key) (freed + (footprint c device - footprint (remove c key) device)) (e :: out) Hp)
    as (c' & out' & f & H1 & H2 & H3 & H4 & H5 & H6).
  pose proof (footprint_remove_le c key). exists c', out', f. split_and!; try done; try lia.
  - intros x Hx. exact (dict_del_elem (entries c) key x (H5 x Hx)).
  - destruct H6 as [|H6]; [by left|right]. intros k e' [->|Hk]%elem_of_cons Hnd Hin.
    + destruct (proj1 (elem_of_dict_del (entries c) key key e' Hnd) (H5 _ Hin)) as [[] _]. done.
    + eapply H6; [exact Hk| |exact Hin]. by apply NoDup_dict_del.
Qed.
End plain.

Lemma shed_locked_spec c p :
  has_persist c = false ->
  exists f, (shed_locked c p).2 = Returned f /\ has_persist (shed_locked c p).1.1 = false /\ 0 <= f
    /\ footprint (shed_locked c p).1.1 (p_device p) = footprint c (p_device p) - f
    /\ (NoDup (keys (entries c)) -> bytes_needed p <= f \/ footprint (shed_locked c p).1.1 (p_device p) = 0).
Proof.
  intros Hp. unfold shed_locked.
  destruct (shed_keys_plain (p_device p) (bytes_needed p) c (keys (entries c)) 0 [] Hp)
    as (c' & out & f & -> & H2 & H3 & H4 & H5 & H6). cbn [fst snd]. exists f. split_and!; try done; [lia|].
  intros Hnd. destruct H6 as [|H6]; [by left|right]. unfold footprint.
  pose proof (values_cost_nonneg (p_device p) (concat (map (fun ke => entry_values ke.2) (entries c')))) as Hge.
  destruct (decide (0 < footprint_in (entries c') (p_device p))) as [Hpos|]; [|unfold footprint_in in *; lia].
  apply values_cost_pos in Hpos as (v & ([k e] & Hin & Hv)%elem_of_concat_map & Hv').
  assert (entry_cost e (p_device p) <= 0).
  { apply (H6 k e); [|done|done]. apply list_elem_of_fmap. exists (k, e). split; [done|by apply H5]. }
  assert (values_cost [v] (p_device p) <= entry_cost e (p_device p)); [|lia].
  apply values_cost_mono. by intros w ->%list_elem_of_singleton.
Qed.

(** A cache that has no handler, as the governor sees it. *)
Record plain_cache := mkPlain { pc_cache : MemoryLRUCache; pc_plain : has_persist pc_cache = false }.

Lemma shed_stays_plain c p : has_persist c = false -> has_persist (shed_locked c p).1.1 = false.
Proof. intros H. by destruct (shed_locked_spec c p H) as (f & _ & ? & _). Qed.

Definition shed (p : PressureSignal) (w : plain_cache) : result consumer_error Z * plain_cache :=
  (match (shed_locked (pc_cache w) p).2 with Returned f => Ok f | _ => Err {| consumer_exn := "RuntimeError" |} end,
   mkPlain (shed_locked (pc_cache w) p).1.1 (shed_stays_plain (pc_cache w) p (pc_plain w))).

#[export] Instance cache_shedder : Shedder unit plain_cache := {|
  footprint_of := fun _ d w => footprint (pc_cache w) d;
  shed_of := fun _ p w => shed p w;
  detailed := fun _ => false
|}.

(** The cache keeps what the governor asks of its consumers. *)
#[export] Instance cache_honest : HonestShedder unit plain_cache.
Proof.
  split.
  - intros [] d w. apply values_cost_nonneg.
  - intros [] p w f w' H. unfold shed_of, cache_shedder, shed in H.
    destruct (shed_locked_spec (pc_cache w) p (pc_plain w)) as (f' & Hr & _ & Hf & _). rewrite Hr in H. by injection H as <- _.
  - intros [] p w f w' H. unfold shed_of, cache_shedder, shed in H.
    destruct (shed_locked_spec (pc_cache w) p (pc_plain w)) as (f' & Hr & _ & _ & Hd & _). rewrite Hr in H.
    injection H as <- <-. exact Hd.
  - by intros [] p w r w' [].
Qed.

(** * Properties *)

(** The cache stays within its limits: however puts, promotions, sheds,
    lookups, invalidations, cancellations and handler failures interleave,
    whenever no task holds the lock the bytes the entries declare, counted once
    per payload, are at most [max_bytes], and there are at most [max_entries]. *)
Theorem cache_stays_within_limits n b c s :
  cache_made n b c -> reachable c s -> holder s = None ->
  footprint (cache s) "ram" <= b /\ Z.of_nat (length (entries (cache s))) <= n.
Proof.
  intros Hc Hs Hh. pose proof (cache_made_spec n b c Hc) as (_ & _ & _ & Hn & Hb & _).
  pose proof (cache_reachable_ok "" n b c s Hc Hs) as H. pose proof (so_holder _ _ _ _ _ H) as Hw. rewrite Hh in Hw.
  destruct (so_origin _ _ _ _ _ H) as (H1 & H2 & _). destruct Hw as [Hw1 Hw2]. unfold footprint. rewrite H1, H2, Hn, Hb in *. done.
Qed.

(** An invalidation is final: once [drop_referencing] has run, no entry
    references the resource, then or later, but those of puts called after it.
    A put that was waiting for the lock or for the handler inserts nothing, and
    one that fails does not bring a dropped entry back. *)
Theorem dropped_resource_stays_dropped n b c s rid s' k e :
  cache_made n b c -> reachable c s ->
  star step (on_cache s (drop_referencing (cache s) rid).2) s' ->
  (k, e) ∈ entries (cache s') -> references e rid = true -> (fresh s <= identity e)%nat.
Proof.
  intros Hc Hs Hs' Hin Hr. pose proof (cache_reachable_ok rid n b c s Hc Hs) as H.
  pose proof (steps_ok _ _ _ _ _ _ (dropped_system_ok c rid s H) Hs') as H'.
  by apply (co_entries _ _ _ _ _ (so_cache _ _ _ _ _ H') k e).
Qed.

(** Nothing is evicted before it is persisted: with a handler, every entry
    that a put or a shed evicted was promoted from a persisted copy or was
    written by a call of the handler that returned. *)
Theorem evicted_entries_are_persisted n b c s i :
  cache_made n b c -> reachable c s -> has_persist c = true -> i ∈ evicted s -> i ∈ saved s.
Proof.
  intros Hc Hs Hp. pose proof (cache_reachable_ok "" n b c s Hc Hs) as H. apply (so_evicted _ _ _ _ _ H).
  destruct (so_origin _ _ _ _ _ H) as (_ & _ & ->). done.
Qed.

(** A shed frees what it says: without a handler it runs to its end, what
    it answers is exactly what the footprint on the device falls by, and it
    either met the need or left nothing that costs there. *)
Theorem cache_shed_is_honest c p :
  has_persist c = false -> NoDup (keys (entries c)) ->
  exists f, (shed_locked c p).2 = Returned f /\ 0 <= f
    /\ footprint (shed_locked c p).1.1 (p_device p) = footprint c (p_device p) - f
    /\ (bytes_needed p <= f \/ footprint (shed_locked c p).1.1 (p_device p) = 0).
Proof.
  intros Hp Hnd. destruct (shed_locked_spec c p Hp) as (f & H1 & _ & H2 & H3 & H4). exists f. auto.
Qed.

(** * Examples *)

Definition demo_value (payload : N) (ram : Z) (refs : list string) : value :=
  mkValue "IMAGE" "f" [("cost", VDict [(VStr "ram", VInt ram)]); ("resourceRefs", VList (map VStr refs))] (Opaque payload).

Definition demo_cache (handler : bool) : MemoryLRUCache := mkCache 1 100 [] ∅ handler 0 0 0.

Lemma demo_cache_made handler : cache_made 1 100 (demo_cache handler).
Proof. exists (demo_cache false). split; [reflexivity|]. destruct handler; [right|left]; reflexivity. Qed.

(** A put called and brought to its next suspension. *)
Definition call_put (s : system) (key : string) (outs : list (string * value)) : system :=
  spawn s (PutWaiting key (mkResult (fresh s) outs) false (generation (cache s))) ∅.

Definition lock_put (s : system) (tid : nat) : system :=
  match tasks s !! tid with
  | Some (PutWaiting key e persisted gen) => settle s tid (put_locked (cache s) key e persisted gen)
  | _ => s
  end.

Definition answered (s : system) (tid : nat) (a : answer) : system :=
  match tasks s !! tid with
  | Some t => settle (save s (persisted_by t a)) tid (resume (cache s) t a)
  | None => s
  end.

Definition drop (s : system) (rid : string) : system := on_cache s (drop_referencing (cache s) rid).2.

Lemma lock_put_steps s tid : holder s = None -> star step s (lock_put s tid).
Proof.
  intros Hh. unfold lock_put. destruct (tasks s !! tid) as [[]|] eqn:E; try apply star_refl.
  apply star_one. by constructor.
Qed.

Lemma answered_steps s tid a :
  holder s = Some tid -> match tasks s !! tid with Some t => is_Some (flushing t) | None => True end -> star step s (answered s tid a).
Proof.
  intros Hh Hfl. unfold answered. destruct (tasks s !! tid) as [t|] eqn:E; [|apply star_refl].
  destruct Hfl as [e He]. apply star_one. by eapply step_answer.
Qed.

Lemma call_put_steps s key outs : star step s (call_put s key outs).
Proof. apply star_one. constructor. Qed.

(** Two puts over a bound of one entry. *)
Definition demo_two (handler : bool) : system := call_put (call_put (initial (demo_cache handler)) "a" [("out", demo_value 1 60 ["r"])]) "b" [("out", demo_value 2 70 ["r"])].

Lemma demo_two_steps handler : reachable (demo_cache handler) (demo_two handler).
Proof. unfold reachable, demo_two. etrans; apply call_put_steps. Qed.

Lemma cache_stays_within_limits_witness :
  let s := lock_put (lock_put (demo_two false) 0) 1 in
  keys (entries (cache s)) = ["b"] /\ footprint (cache s) "ram" <= 100 /\ Z.of_nat (length (entries (cache s))) <= 1.
Proof.
  cbv zeta. split; [vm_compute; reflexivity|].
  apply (cache_stays_within_limits 1 100 (demo_cache false)).
  - exact (demo_cache_made false).
  - unfold reachable. etrans; [exact (demo_two_steps false)|]. etrans; apply lock_put_steps; vm_compute; reflexivity.
  - vm_compute. reflexivity.
Defined.

(** The first put waits for the lock while the resource is dropped. *)
Lemma dropped_resource_stays_dropped_witness :
  let s := call_put (initial (demo_cache false)) "a" [("out", demo_value 1 60 ["r"])] in
  let s' := lock_put (lock_put (call_put (drop s "r") "b" [("out", demo_value 2 70 ["r"])]) 0) 1 in
  keys (entries (cache s')) = ["b"] /\ (1 <= 1)%nat.
Proof.
  cbv zeta. split; [vm_compute; reflexivity|].
  set (s := call_put (initial (demo_cache false)) "a" [("out", demo_value 1 60 ["r"])]).
  apply (dropped_resource_stays_dropped 1 100 (demo_cache false) s "r"
    (lock_put (lock_put (call_put (drop s "r") "b" [("out", demo_value 2 70 ["r"])]) 0) 1)
    "b" (mkResult 1 [("out", demo_value 2 70 ["r"])])).
  - exact (demo_cache_made false).
  - apply call_put_steps.
  - etrans; [apply call_put_steps|]. etrans; apply lock_put_steps; vm_compute; reflexivity.
  - vm_compute. left.
  - vm_compute. reflexivity.
Defined.

Lemma evicted_entries_are_persisted_witness :
  let s := answered (lock_put (answered (lock_put (demo_two true) 0) 0 Wrote) 1) 1 Deferred in
  evicted s = [0%nat] /\ 0%nat ∈ saved s.
Proof.
  cbv zeta. split; [vm_compute; reflexivity|].
  apply (evicted_entries_are_persisted 1 100 (demo_cache true)).
  - exact (demo_cache_made true).
  - unfold reachable. etrans; [exact (demo_two_steps true)|]. etrans; [apply (lock_put_steps _ 0); vm_compute; reflexivity|].
    etrans; [apply (answered_steps _ 0 Wrote); vm_compute; [reflexivity|by eexists]|].
    etrans; [apply (lock_put_steps _ 1); vm_compute; reflexivity|].
    apply (answered_steps _ 1 Deferred); vm_compute; [reflexivity|by eexists].
  - reflexivity.
  - vm_compute. left.
Defined.

Lemma cache_shed_is_honest_witness :
  let c := mkCache 4 100 [("a", mkResult 0 [("out", demo_value 1 60 [])]); ("b", mkResult 1 [("out", demo_value 2 30 [])])] ∅ false 0 0 0 in
  keys (entries (shed_locked c (Build_PressureSignal "ram" 50 None)).1.1) = ["b"]
  /\ exists f, (shed_locked c (Build_PressureSignal "ram" 50 None)).2 = Returned f /\ 0 <= f.
Proof.
  cbv zeta. split; [vm_compute; reflexivity|].
  destruct (cache_shed_is_honest (mkCache 4 100 [("a", mkResult 0 [("out", demo_value 1 60 [])]);
    ("b", mkResult 1 [("out", demo_value 2 30 [])])] ∅ false 0 0 0) (Build_PressureSignal "ram" 50 None)) as (f & Hf & Hf0 & _).
  - reflexivity.
  - apply (bool_decide_unpack _). vm_compute. exact I.
  - exists f. split; assumption.
Defined.
