(* ===== verification/Resident.v ===== *)
(** Resident: process-resident values and their release
    (dinkster_values/pins.py, dinkster_values/resident.py,
    dinkster_memory/resident.py): the pins of live runs, the residency table,
    the pool of owners and dependents, its use clock, and the two-phase release
    that invalidates references, condemns pins and only then drops objects.

    Every operation of the pool runs under its re-entrant lock and is one step
    here; [obtain] is three, its factory runs outside. What the pool calls (a
    backend's callbacks, the caches it invalidates) is the class [Backend]. *)
From S2P Require Import Prelude PyStr Governor Values.
From Stdlib Require Import Ascii.

Local Open Scope string_scope.
Local Open Scope Z_scope.
Local Open Scope list_scope.

(** * Pins of live runs *)

Module Pins.

Record ResourcePins := mkPins { counts : gmap string Z; condemned_ids : gset string }.

Definition empty : ResourcePins := mkPins ∅ ∅.

Definition count (p : ResourcePins) (resource_id : string) : Z := default 0 (counts p !! resource_id).

Definition condemned (p : ResourcePins) (resource_id : string) : bool := bool_decide (resource_id ∈ condemned_ids p).
Definition pinned (p : ResourcePins) (resource_id : string) : bool := 0 <? count p resource_id.

Definition pin (p : ResourcePins) (resource_id : string) : bool * ResourcePins :=
  if condemned p resource_id then (false, p)
  else (true, mkPins (<[resource_id := count p resource_id + 1]> (counts p)) (condemned_ids p)).

Definition unpin (p : ResourcePins) (resource_id : string) : ResourcePins :=
  if count p resource_id <=? 1 then mkPins (delete resource_id (counts p)) (condemned_ids p)
  else mkPins (<[resource_id := count p resource_id - 1]> (counts p)) (condemned_ids p).

Definition condemn (p : ResourcePins) (resource_id : string) : bool * ResourcePins :=
  if pinned p resource_id || condemned p resource_id then (false, p)
  else (true, mkPins (counts p) ({[resource_id]} ∪ condemned_ids p)).

Definition absolve (p : ResourcePins) (resource_id : string) : ResourcePins :=
  mkPins (counts p) (condemned_ids p ∖ {[resource_id]}).

(** What the engine and the release path do to one registry. *)
Inductive step : ResourcePins -> ResourcePins -> Prop :=
| StepPin p r : step p (pin p r).2
| StepUnpin p r : step p (unpin p r)
| StepCondemn p r : step p (condemn p r).2
| StepAbsolve p r : step p (absolve p r).

(** A condemned resource is not pinned, and counts are positive. *)
Definition pins_ok (p : ResourcePins) : Prop :=
  (forall r n, counts p !! r = Some n -> 0 < n)
  /\ (forall r, r ∈ condemned_ids p -> counts p !! r = None).

Lemma count_pos p r : pins_ok p -> counts p !! r <> None -> 0 < count p r.
Proof. intros [H _] Hr. unfold count. destruct (counts p !! r) eqn:E; [by eapply H|done]. Qed.

Lemma pins_step_ok p p' : pins_ok p -> step p p' -> pins_ok p'.
Proof.
  intros [Hpos Hcon] Hs.
  assert (forall r, 0 <= count p r) as Hcount.
  { intros r. unfold count. destruct (counts p !! r) eqn:E; cbn; [apply Hpos in E|]; lia. }
  destruct Hs as [p r|p r|p r|p r].
  - unfold pin, condemned. case_bool_decide as Hc; [done|]. split; cbn.
    + intros r' n. rewrite lookup_insert_Some. intros [[<- <-]|[_ H]]; [pose proof (Hcount r); lia|by eapply Hpos].
    + intros r' Hr'. rewrite lookup_insert_None. split; [by apply Hcon|congruence].
  - unfold unpin. destruct (count p r <=? 1) eqn:E; split; cbn.
    + intros r' n. rewrite lookup_delete_Some. intros [_ H]. by eapply Hpos.
    + intros r' Hr'. rewrite lookup_delete_None. auto.
    + apply Z.leb_gt in E. intros r' n. rewrite lookup_insert_Some. intros [[<- <-]|[_ H]]; [lia|by eapply Hpos].
    + apply Z.leb_gt in E. intros r' Hr'. rewrite lookup_insert_None. split; [by apply Hcon|]. intros <-. pose proof (Hcon _ Hr') as Hn.
      unfold count in E. rewrite Hn in E. cbn in E. lia.
  - unfold condemn, pinned, condemned. destruct (0 <? count p r) eqn:E; [done|]. case_bool_decide; [done|].
    cbn. split; cbn; [done|]. intros r' [->%elem_of_singleton|Hr']%elem_of_union; [|by apply Hcon].
    apply Z.ltb_ge in E. destruct (counts p !! r) eqn:Er; [|done]. apply Hpos in Er as Hp. unfold count in E.
    rewrite Er in E. cbn in E. lia.
  - split; cbn; [done|]. intros r' [Hr' _]%elem_of_difference. by apply Hcon.
Qed.

Lemma pins_reachable_ok p : star step empty p -> pins_ok p.
Proof.
  intros H. apply (star_invariant step pins_ok) with (a := empty); [intros; by eapply pins_step_ok|done|].
  split; cbn; [by intros ?? ?%lookup_empty_Some|set_solver].
Qed.

Lemma condemn_accepts p r : (condemn p r).1 = true ->
  pinned p r = false /\ r ∉ condemned_ids p /\ (condemn p r).2 = mkPins (counts p) ({[r]} ∪ condemned_ids p).
Proof.
  unfold condemn, condemned. destruct (pinned p r); [done|]. case_bool_decide; [done|]. done.
Qed.

Lemma condemn_refuses p r : (condemn p r).1 = false -> (condemn p r).2 = p.
Proof. unfold condemn. by destruct (pinned p r || condemned p r). Qed.

(** Rolling back an accepted condemnation restores the registry exactly. *)
Lemma absolve_condemned p r : (condemn p r).1 = true -> absolve (condemn p r).2 r = p.
Proof.
  intros (_ & Hr & ->)%condemn_accepts. unfold absolve. cbn. destruct p as [c s]. cbn in *. f_equal. set_solver.
Qed.

End Pins.

(** * Objects and what the pool calls *)

(** An object is its identity. What [getattr] finds on it: *)
Inductive owner_attribute := OwnerAbsent | OwnerNone | OwnerIs (o : N) | OwnerRaises.
Inductive refs_attribute := RefsAbsent | RefsTuple (refs : list (option N)) | RefsOther.

Inductive res_error :=
| TypeErr
| OwnersChanged
| StackExhausted
| NoEntry
| ResidentLookupError (rid : string)
| BadRamCost.

(** A backend callback: whether it raised, what it answered, the placements it
    reported through [set_loaded], and the world after it. *)
Record call (W : Type) := mkCall { raised : bool; handled : bool; placed : list (N * bool); after : W }.
Arguments mkCall {W}. Arguments raised {W}. Arguments handled {W}. Arguments placed {W}. Arguments after {W}.

Class Backend (W : Type) := {
  owner_of : W -> N -> owner_attribute;
  refs_of : W -> N -> refs_attribute;
  cost_of : option (W -> N -> option (list (string * pyval)));
  unload : option (W -> N -> call W);
  terminal_release : option (W -> N -> call W);
  alive : W -> N -> bool;
  invalidate : W -> N -> string -> bool * W;
  uuid : N -> string;
}.

(** [resident_owners]: the owners in order, each once. *)
Fixpoint dedup_owners (seen : list N) (l : list (option N)) : result res_error (list N) :=
  match l with
  | [] => Ok seen
  | None :: _ => Err TypeErr
  | Some o :: l' => dedup_owners (if decide (o ∈ seen) then seen else seen ++ [o]) l'
  end.

Definition resident_owners {W} `{Backend W} (w : W) (o : N) : result res_error (list N) :=
  primary ← match owner_of w o with
            | OwnerAbsent => Ok (Some o)
            | OwnerNone => Ok None
            | OwnerIs p => Ok (Some p)
            | OwnerRaises => Err TypeErr
            end;
  refs ← match refs_of w o with RefsAbsent => Ok [] | RefsTuple l => Ok l | RefsOther => Err TypeErr end;
  dedup_owners [] (primary :: refs).

(** [_declared_cost]: the positive integers of the cost mapping; keys that are
    no strings are never looked up. *)
Definition positive_cost (kv : pyval * pyval) : option (string * Z) :=
  match kv with
  | (VStr residency, VInt nbytes) => if 0 <? nbytes then Some (residency, nbytes) else None
  | _ => None
  end.

Definition declared_cost (meta : list (string * pyval)) : list (string * Z) :=
  match dict_get meta COST_META_KEY with Some (VDict cost) => omap positive_cost cost | _ => [] end.

Definition resident_resource_id (rid : string) : string := "resident:" +:+ rid.

(** * The pool *)

Record PoolEntry := mkEntry {
  cost : list (string * Z);
  display_name : option string;
  last_used : Z;
  loaded : bool
}.

Inductive invalidator := Strong (handler : N) | WeakMethod (handler : N).
Definition handler_of (i : invalidator) : N := match i with Strong h | WeakMethod h => h end.

Record ResidentPool := mkPool {
  objects : gmap string N;
  ids_by_identity : gmap N string;
  entries : gmap string PoolEntry;
  dependent_owners : gmap string (gset string);
  owner_dependents : gmap string (gset string);
  clock : Z;
  keyed : gmap string string;
  loading : gset string;
  invalidators : list invalidator;
  pin_registries : list N;
  minted : N
}.

Definition new_pool : ResidentPool := mkPool ∅ ∅ ∅ ∅ ∅ 1 ∅ ∅ [] [] 0.

Definition set_table (p : ResidentPool) (objs : gmap string N) (ids : gmap N string) (n : N) : ResidentPool :=
  mkPool objs ids (entries p) (dependent_owners p) (owner_dependents p) (clock p) (keyed p) (loading p)
    (invalidators p) (pin_registries p) n.
Definition set_entries (p : ResidentPool) (es : gmap string PoolEntry) (c : Z) : ResidentPool :=
  mkPool (objects p) (ids_by_identity p) es (dependent_owners p) (owner_dependents p) c (keyed p) (loading p)
    (invalidators p) (pin_registries p) (minted p).
Definition set_owners (p : ResidentPool) (dos ods : gmap string (gset string)) : ResidentPool :=
  mkPool (objects p) (ids_by_identity p) (entries p) dos ods (clock p) (keyed p) (loading p)
    (invalidators p) (pin_registries p) (minted p).
Definition set_keyed (p : ResidentPool) (k : gmap string string) (l : gset string) : ResidentPool :=
  mkPool (objects p) (ids_by_identity p) (entries p) (dependent_owners p) (owner_dependents p) (clock p) k l
    (invalidators p) (pin_registries p) (minted p).
Definition set_registered (p : ResidentPool) (regs : list invalidator) (ps : list N) : ResidentPool :=
  mkPool (objects p) (ids_by_identity p) (entries p) (dependent_owners p) (owner_dependents p) (clock p) (keyed p)
    (loading p) regs ps (minted p).

(** [super().rid_for]. *)
Definition table_rid_for (mint : N -> string) (p : ResidentPool) (o : N) : string * ResidentPool :=
  match ids_by_identity p !! o with
  | Some rid =>
      if decide (objects p !! rid = Some o) then (rid, p)
      else (mint (minted p), set_table p (<[mint (minted p) := o]> (objects p)) (<[o := mint (minted p)]> (ids_by_identity p)) (minted p + 1))
  | None => (mint (minted p), set_table p (<[mint (minted p) := o]> (objects p)) (<[o := mint (minted p)]> (ids_by_identity p)) (minted p + 1))
  end.

(** [super().remove]. *)
Definition table_remove (p : ResidentPool) (rid : string) : ResidentPool :=
  match objects p !! rid with
  | Some o => set_table p (delete rid (objects p)) (delete o (ids_by_identity p)) (minted p)
  | None => p
  end.

(** [self._owner_dependents.setdefault(owner_rid, set()).add(rid)] for each. *)
Definition add_dependent (rid : string) (ods : gmap string (gset string)) (owner_rid : string) : gmap string (gset string) :=
  <[owner_rid := {[rid]} ∪ default ∅ (ods !! owner_rid)]> ods.

Definition discard_dependent (rid : string) (ods : gmap string (gset string)) (owner_rid : string) : gmap string (gset string) :=
  match ods !! owner_rid with
  | None => ods
  | Some dependents =>
      if decide (dependents ∖ {[rid]} = ∅) then delete owner_rid ods
      else <[owner_rid := dependents ∖ {[rid]}]> ods
  end.

Definition record_owners (p : ResidentPool) (rid : string) (owner_rids : gset string) : result res_error ResidentPool :=
  if decide (owner_rids = ∅) then Ok p
  else
    raise_if (match dependent_owners p !! rid with Some previous => negb (bool_decide (previous = owner_rids)) | None => false end)
      OwnersChanged;;
    Ok (set_owners p (<[rid := owner_rids]> (dependent_owners p))
          (foldl (add_dependent rid) (owner_dependents p) (elements owner_rids))).

Definition with_cost (e : PoolEntry) (c : list (string * Z)) : PoolEntry := mkEntry c (display_name e) (last_used e) (loaded e).
Definition with_name (e : PoolEntry) (n : string) : PoolEntry := mkEntry (cost e) (Some n) (last_used e) (loaded e).
Definition with_use (e : PoolEntry) (t : Z) : PoolEntry := mkEntry (cost e) (display_name e) t (loaded e).
Definition with_loaded (e : PoolEntry) (b : bool) : PoolEntry := mkEntry (cost e) (display_name e) (last_used e) b.

(** [entry.last_used = next(self._clock)]. *)
Definition touch (p : ResidentPool) (rid : string) (e : PoolEntry) : ResidentPool :=
  set_entries p (<[rid := with_use e (clock p)]> (entries p)) (clock p + 1).

Definition cost_get (e : PoolEntry) (device : string) : Z := default 0 (dict_get (cost e) device).

Definition is_vram (device : string) : bool := startswith "vram:" device.

Definition entry_bytes (device : string) (e : PoolEntry) : Z :=
  if is_vram device && negb (loaded e) then 0 else cost_get e device.

Definition footprint (p : ResidentPool) (device : string) : Z :=
  zsum ((fun kv => entry_bytes device kv.2) <$> map_to_list (entries p)).

Definition set_loaded (p : ResidentPool) (o : N) (b : bool) : ResidentPool :=
  match ids_by_identity p !! o with
  | None => p
  | Some rid =>
      if decide (objects p !! rid = Some o) then
        match entries p !! rid with
        | Some e => set_entries p (<[rid := with_loaded e b]> (entries p)) (clock p)
        | None => p
        end
      else p
  end.

Definition is_loaded (p : ResidentPool) (resource_id : string) : option bool :=
  match List.find (fun kv => String.eqb (resident_resource_id kv.1) resource_id) (map_to_list (entries p)) with
  | Some (_, e) => Some (loaded e)
  | None => None
  end.

(** ** Removal *)

Definition pop_owners (rid : string) (p : ResidentPool) : ResidentPool :=
  set_owners p (delete rid (dependent_owners p))
    (foldl (discard_dependent rid) (owner_dependents p) (elements (default ∅ (dependent_owners p !! rid)))).

Definition pop_dependents (rid : string) (p : ResidentPool) : ResidentPool :=
  set_owners p (dependent_owners p) (delete rid (owner_dependents p)).

Definition drop_resident (rid : string) (p : ResidentPool) : ResidentPool :=
  let p := table_remove p rid in
  let p := set_entries p (delete rid (entries p)) (clock p) in
  set_keyed p (filter (fun kv => kv.2 <> rid) (keyed p)) (loading p).

(** [_remove_tree]: [removing] is the set all the calls share. *)
Fixpoint remove_tree (fuel : nat) (rid : string) (s : gset string * ResidentPool) : gset string * ResidentPool :=
  match fuel with
  | O => s
  | S n =>
      if decide (rid ∈ s.1) then s
      else
        let p := pop_owners rid s.2 in
        let dependents := default ∅ (owner_dependents p !! rid) in
        let s' := foldl (fun s d => remove_tree n d s) ({[rid]} ∪ s.1, pop_dependents rid p) (elements dependents) in
        (s'.1, drop_resident rid s'.2)
  end.

Definition remove (p : ResidentPool) (rid : string) : ResidentPool :=
  (remove_tree (S (S (size (objects p)))) rid (∅, p)).2.

(** ** Selection *)

Definition use_le (a b : Z * string) : Prop := a.1 < b.1 \/ (a.1 = b.1 /\ String.le a.2 b.2).

#[export] Instance use_le_dec : RelDecision use_le.
Proof. intros a b. unfold use_le. apply _. Defined.

(** The residents that hold something on the device, least recently used first. *)
Definition least_recent (held : PoolEntry -> bool) (p : ResidentPool) : list string :=
  snd <$> merge_sort use_le ((fun kv => (last_used kv.2, kv.1)) <$> filter (fun kv => held kv.2 = true) (map_to_list (entries p))).

Definition present (p : ResidentPool) (items : list string) : list string :=
  filter (fun rid => is_Some (entries p !! rid)) items.

Record ReleaseCandidate := mkCandidate { item_id : string; resource_id : string; nbytes : Z; token : string }.

Definition candidate (device : string) (rid : string) (e : PoolEntry) : ReleaseCandidate :=
  mkCandidate rid (resident_resource_id rid) (cost_get e device) (pretty (last_used e)).

(** The candidates taken; every id is an entry's. *)
Fixpoint claim (p : ResidentPool) (device : string) (need : option Z) (claimed : Z) (rids : list string) : list ReleaseCandidate :=
  match rids with
  | [] => []
  | rid :: rids' =>
      if match need with Some n => n <=? claimed | None => false end then []
      else match entries p !! rid with
           | Some e => candidate device rid e :: claim p device need (claimed + cost_get e device) rids'
           | None => []
           end
  end.

Definition propose_release (p : ResidentPool) (pressure : PressureSignal) : list ReleaseCandidate :=
  if is_vram (p_device pressure) then []
  else match p_items pressure with
       | Some items => claim p (p_device pressure) None 0 (present p items)
       | None => claim p (p_device pressure) (Some (bytes_needed pressure)) 0
                   (least_recent (fun e => 0 <? cost_get e (p_device pressure)) p)
       end.

Definition propose_full_release (p : ResidentPool) : list ReleaseCandidate :=
  claim p "ram" None 0 (least_recent (fun _ => true) p).

(** Whether the resident is unused since the candidate was proposed. *)
Definition still_valid (p : ResidentPool) (c : ReleaseCandidate) : bool :=
  match entries p !! item_id c with Some e => String.eqb (pretty (last_used e)) (token c) | None => false end.

(** * Operations *)

Section operations.
Context {W : Type} `{Backend W}.

Record state := mkState { pool : ResidentPool; registries : gmap N Pins.ResourcePins; world : W }.

Definition put_pool (s : state) (p : ResidentPool) : state := mkState p (registries s) (world s).
Definition put_registries (s : state) (rs : gmap N Pins.ResourcePins) : state := mkState (pool s) rs (world s).

(** A method: it returns or raises, and what it changed stays changed. *)
Definition M (A : Type) : Type := state -> result res_error A * state.
#[local] Instance M_ret : MRet M := fun A a s => (Ok a, s).
#[local] Instance M_bind : MBind M := fun A B k m s =>
  match m s with (Ok a, s') => k a s' | (Err e, s') => (Err e, s') end.

Definition lift {A} (r : result res_error A) : M A := fun s => (r, s).
Definition get_pool : M ResidentPool := fun s => (Ok (pool s), s).
Definition modify (f : ResidentPool -> ResidentPool) : M unit := fun s => (Ok tt, put_pool s (f (pool s))).
Definition raise {A} (e : res_error) : M A := fun s => (Err e, s).

Definition table_rid (o : N) : M string := fun s =>
  let r := table_rid_for uuid (pool s) o in (Ok r.1, put_pool s r.2).

Definition owners_of (o : N) : M (list N) := fun s => (resident_owners (world s) o, s).

Definition read_cost (w : W) (o : N) : list (string * Z) :=
  match cost_of with
  | None => []
  | Some f => match f w o with Some meta => declared_cost meta | None => [] end
  end.

Fixpoint rids_for (f : N -> M string) (l : list N) : M (gset string) :=
  match l with
  | [] => mret ∅
  | o :: l' => rid ← f o; rest ← rids_for f l'; mret ({[rid]} ∪ rest)
  end.

(** The use of an owner: its entry is made at the first. *)
Definition use_owner (rid : string) (o : N) : M unit := fun s =>
  let e := match entries (pool s) !! rid with Some e => e | None => mkEntry (read_cost (world s) o) None 0 true end in
  (Ok tt, put_pool s (touch (pool s) rid e)).

(** [rid_for]; it calls itself on the owners, at most [stack] deep. *)
Fixpoint rid_for (stack : nat) (o : N) : M string :=
  match stack with
  | O => raise StackExhausted
  | S n =>
      rid ← table_rid o;
      owners ← owners_of o;
      owner_rids ← rids_for (rid_for n) (filter (fun p => p <> o) owners);
      p ← get_pool;
      p' ← lift (record_owners p rid owner_rids);
      modify (fun _ => p');;
      if decide (head owners = Some o) then use_owner rid o;; mret rid else mret rid
  end.

Definition table_get (p : ResidentPool) (rid : string) : result res_error N :=
  match objects p !! rid with Some o => Ok o | None => Err (ResidentLookupError rid) end.

Definition get (stack : nat) (rid : string) : M N :=
  p ← get_pool;
  o ← lift (table_get p rid);
  owners ← owners_of o;
  match owners with
  | owner :: _ =>
      if decide (owner = o) then
        modify (fun p => match entries p !! rid with Some e => touch p rid (with_loaded e true) | None => p end);; mret o
      else rid_for stack owner;; mret o
  | [] => mret o
  end.

Definition label (stack : nat) (o : N) (name : string) : M string :=
  rid ← rid_for stack o;
  p ← get_pool;
  match entries p !! rid with
  | Some e => modify (fun p => set_entries p (<[rid := with_name e name]> (entries p)) (clock p));; mret rid
  | None => raise NoEntry
  end.

(** ** Obtaining by key: the first caller loads, the others wait *)

Inductive obtained := Found (o : N) | Load | Wait.

Definition obtain_begin (stack : nat) (key : string) : M obtained :=
  p ← get_pool;
  match keyed p !! key with
  | Some rid => o ← get stack rid; mret (Found o)
  | None =>
      if decide (key ∈ loading p) then mret Wait
      else modify (fun p => set_keyed p (keyed p) ({[key]} ∪ loading p));; mret Load
  end.

Definition stop_loading (key : string) : M unit := modify (fun p => set_keyed p (keyed p) (loading p ∖ {[key]})).

(** The [try]: on an exception the load is over too. *)
Definition or_stop {A} (key : string) (m : M A) : M A := fun s =>
  match m s with (Ok a, s') => (Ok a, s') | (Err e, s') => (Err e, (stop_loading key s').2) end.

Definition obtain_finish (stack : nat) (key : string) (o : N) (ram_bytes : Z) : M N :=
  or_stop key (
    lift (raise_if (ram_bytes <? 0) BadRamCost);;
    rid ← rid_for stack o;
    owners ← owners_of o;
    owner_rid ← rid_for stack (default o (head owners));
    p ← get_pool;
    match entries p !! owner_rid with
    | None => raise NoEntry
    | Some e =>
        modify (fun p => set_keyed (set_entries p (<[owner_rid := with_cost e (dict_set (cost e) "ram" ram_bytes)]> (entries p)) (clock p))
                           (<[key := rid]> (keyed p)) (loading p ∖ {[key]}));;
        mret o
    end).

Definition obtain_fail (key : string) : M unit := stop_loading key.

(** ** Registrations *)

Definition live_invalidators (w : W) (p : ResidentPool) : list invalidator :=
  filter (fun i => match i with Strong _ => true | WeakMethod h => alive w h end = true) (invalidators p).

Definition live_pins (rs : gmap N Pins.ResourcePins) (p : ResidentPool) : list N :=
  filter (fun r => is_Some (rs !! r)) (pin_registries p).

Definition register_invalidator (i : invalidator) : M unit :=
  modify (fun p => set_registered p (invalidators p ++ [i]) (pin_registries p)).

Definition register_pins (r : N) : M unit :=
  modify (fun p => if decide (r ∈ pin_registries p) then p else set_registered p (invalidators p) (pin_registries p ++ [r])).

(** ** Release *)

(** A call of the backend: its placements are reported while it runs. *)
Definition run_call (c : call W) (s : state) : state :=
  mkState (foldl (fun p pl => set_loaded p pl.1 pl.2) (pool s) (placed c)) (registries s) (after c).

(** [entry.loaded = False]. *)
Definition mark_unloaded (rid : string) (s : state) : state :=
  match entries (pool s) !! rid with
  | Some e => put_pool s (set_entries (pool s) (<[rid := with_loaded e false]> (entries (pool s))) (clock (pool s)))
  | None => s
  end.

(** [_unload_entry]: the bytes freed, and whether the callback failed. *)
Definition unload_entry (rid device : string) (s : state) : Z * bool * state :=
  match entries (pool s) !! rid with
  | None => (0, false, s)
  | Some e =>
      if negb (loaded e) then (0, false, s)
      else match objects (pool s) !! rid with
           | None => (0, false, s)
           | Some o =>
               match unload with
               | None => (cost_get e device, false, mark_unloaded rid s)
               | Some f =>
                   let c := f (world s) o in
                   if raised c then (0, true, run_call c s)
                   else (cost_get e device, false, mark_unloaded rid (run_call c s))
               end
           end
  end.

(** Every live invalidator in turn, until one raises. *)
Fixpoint invalidate_all (hs : list invalidator) (resource_id : string) (w : W) : bool * W :=
  match hs with
  | [] => (true, w)
  | i :: hs' =>
      let r := invalidate w (handler_of i) resource_id in
      if r.1 then (false, r.2) else invalidate_all hs' resource_id r.2
  end.

Definition absolve_all (accepted : list N) (resource_id : string) (rs : gmap N Pins.ResourcePins) : gmap N Pins.ResourcePins :=
  foldl (fun rs r => alter (fun p => Pins.absolve p resource_id) r rs) rs accepted.

(** Every live registry in turn; a refusal absolves the ones before it. *)
Fixpoint condemn_all (live accepted : list N) (resource_id : string) (rs : gmap N Pins.ResourcePins) :
    option (list N) * gmap N Pins.ResourcePins :=
  match live with
  | [] => (Some accepted, rs)
  | r :: live' =>
      match rs !! r with
      | None => condemn_all live' accepted resource_id rs
      | Some p =>
          let c := Pins.condemn p resource_id in
          if c.1 then condemn_all live' (accepted ++ [r]) resource_id (<[r := c.2]> rs)
          else (None, absolve_all accepted resource_id rs)
      end
  end.

Definition failure (rid what : string) : string := "resident " +:+ (rid +:+ (" " +:+ what)).

(** What a release of one resident came to: the bytes, or why not. *)
Inductive released := Freed (nbytes : Z) | Refused (failures : list string).

(** The backend's terminal release, then the advisory unload where that did not
    handle it: the failures, and whether to go on. [strict] is whether the
    caller collects failures. *)
Definition release_backend (strict : bool) (rid device : string) (o : N) (s : state) : result (list string) unit * state :=
  let t := match terminal_release with
           | None => (Ok false, s)
           | Some f =>
               let c := f (world s) o in
               (if raised c then Err [failure rid "terminal release failed"] else Ok (handled c), run_call c s)
           end in
  match t.1 with
  | Err fs => (Err fs, t.2)
  | Ok terminal_handled =>
      if match entries (pool t.2) !! rid with Some e => loaded e | None => false end && negb terminal_handled then
        let u := unload_entry rid device t.2 in
        if strict && u.1.2 then (Err [failure rid "unload failed"], u.2) else (Ok tt, u.2)
      else (Ok tt, t.2)
  end.

(** The live invalidators drop what references the resource; the ones that are
    gone are forgotten. *)
Definition invalidate_live (resource_id : string) (s : state) : bool * state :=
  let live := live_invalidators (world s) (pool s) in
  let i := invalidate_all live resource_id (world s) in
  (i.1, mkState (set_registered (pool s) live (pin_registries (pool s))) (registries s) i.2).

(** The live registries condemn the resource, or none of them does. *)
Definition condemn_live (honor_pins : bool) (resource_id : string) (s : state) : option (list N) * state :=
  if honor_pins then
    let live := live_pins (registries s) (pool s) in
    let c := condemn_all live [] resource_id (registries s) in
    (c.1, mkState (set_registered (pool s) (invalidators (pool s)) live) c.2 (world s))
  else (Some [], s).

Definition release_entry (strict honor_pins : bool) (rid device : string) (s : state) : released * state :=
  match entries (pool s) !! rid, objects (pool s) !! rid with
  | Some e, Some o =>
      let resource_id := resident_resource_id rid in
      let i := invalidate_live resource_id s in
      if negb i.1 then (Refused [failure rid "cache invalidation failed"], i.2)
      else
        let c := condemn_live honor_pins resource_id i.2 in
        match c.1 with
        | None => (Refused [], c.2)
        | Some condemned =>
            let b := release_backend strict rid device o c.2 in
            match b.1 with
            | Err fs => (Refused fs, put_registries b.2 (absolve_all condemned resource_id (registries b.2)))
            | Ok _ =>
                (Freed (match entries (pool b.2) !! rid with Some e' => cost_get e' device | None => cost_get e device end),
                 put_pool b.2 (remove (pool b.2) rid))
            end
        end
  | _, _ => (Refused [], s)
  end.

(** [release]: compare-and-drop, what was freed by item. *)
Fixpoint release (device : string) (candidates : list ReleaseCandidate) (s : state) : list (string * Z) * state :=
  match candidates with
  | [] => ([], s)
  | c :: candidates' =>
      if still_valid (pool s) c then
        let r := release_entry false true (item_id c) device s in
        let rest := release device candidates' r.2 in
        (match r.1 with Freed n => (item_id c, n) :: rest.1 | Refused _ => rest.1 end, rest.2)
      else release device candidates' s
  end.

Inductive FullReleaseStatus := Complete | Busy | Failed (error : list string).

Fixpoint release_each (candidates : list ReleaseCandidate) (s : state) : list (string * Z) * list string * state :=
  match candidates with
  | [] => ([], [], s)
  | c :: candidates' =>
      if still_valid (pool s) c then
        let r := release_entry true true (item_id c) "ram" s in
        let rest := release_each candidates' r.2 in
        match r.1 with
        | Freed n => ((item_id c, n) :: rest.1.1, rest.1.2, rest.2)
        | Refused fs => (rest.1.1, fs ++ rest.1.2, rest.2)
        end
      else release_each candidates' s
  end.

Definition release_full (candidates : list ReleaseCandidate) (s : state) : list (string * Z) * FullReleaseStatus * state :=
  let r := release_each candidates s in
  (r.1.1, match r.1.2 with
          | [] => if decide (entries (pool r.2) = ∅) then Complete else Busy
          | fs => Failed fs
          end, r.2).

Definition full_release (s : state) : FullReleaseStatus * state :=
  let r := release_full (propose_full_release (pool s)) s in (r.1.2, r.2).

Definition release_resident (o : N) (honor_pins : bool) (s : state) : bool * state :=
  match ids_by_identity (pool s) !! o with
  | None => (false, s)
  | Some rid =>
      if decide (objects (pool s) !! rid = Some o) then
        let r := release_entry false honor_pins rid "ram" s in
        (match r.1 with Freed _ => true | Refused _ => false end, r.2)
      else (false, s)
  end.

(** ** Shedding *)

Fixpoint unload_each (device : string) (need : option Z) (freed : Z) (rids : list string) (s : state) : Z * state :=
  match rids with
  | [] => (freed, s)
  | rid :: rids' =>
      if match need with Some n => n <=? freed | None => false end then (freed, s)
      else let u := unload_entry rid device s in unload_each device need (freed + u.1.1) rids' u.2
  end.

Definition shed (pressure : PressureSignal) (s : state) : Z * state :=
  let device := p_device pressure in
  if is_vram device then
    match p_items pressure with
    | Some items => unload_each device None 0 (present (pool s) items) s
    | None => unload_each device (Some (bytes_needed pressure)) 0
                (least_recent (fun e => (0 <? cost_get e device) && loaded e) (pool s)) s
    end
  else
    let r := release device (propose_release (pool s) pressure) s in (zsum (r.1.*2), r.2).

End operations.

(** * Removal of a tree *)

Definition minus (T S : gset string) : option (gset string) := if decide (S ∖ T = ∅) then None else Some (S ∖ T).

(** The pool without the residents in [T]. *)
Definition without (T : gset string) (p : ResidentPool) : ResidentPool :=
  mkPool (filter (fun kv => kv.1 ∉ T) (objects p)) (filter (fun kv => kv.2 ∉ T) (ids_by_identity p))
    (filter (fun kv => kv.1 ∉ T) (entries p)) (filter (fun kv => kv.1 ∉ T) (dependent_owners p))
    (omap (minus T) (filter (fun kv => kv.1 ∉ T) (owner_dependents p)))
    (clock p) (filter (fun kv => kv.2 ∉ T) (keyed p)) (loading p) (invalidators p) (pin_registries p) (minted p).

Definition owners_in (p : ResidentPool) (rid : string) : gset string := default ∅ (dependent_owners p !! rid).
Definition dependents_in (p : ResidentPool) (rid : string) : gset string := default ∅ (owner_dependents p !! rid).

(** The tables a removal walks agree with each other. *)
Record linked (p : ResidentPool) : Prop := {
  lk_ids : forall rid o, objects p !! rid = Some o <-> ids_by_identity p !! o = Some rid;
  lk_nonempty : forall o S, owner_dependents p !! o = Some S -> S <> ∅;
  lk_back : forall o d, d ∈ dependents_in p o -> o ∈ owners_in p d;
}.

Lemma pool_eq p q :
  objects p = objects q -> ids_by_identity p = ids_by_identity q -> entries p = entries q ->
  dependent_owners p = dependent_owners q -> owner_dependents p = owner_dependents q -> clock p = clock q ->
  keyed p = keyed q -> loading p = loading q -> invalidators p = invalidators q ->
  pin_registries p = pin_registries q -> minted p = minted q -> p = q.
Proof. destruct p, q. cbn. intros. by subst. Qed.

Lemma lookup_filter_key {A} (T : gset string) (m : gmap string A) k :
  filter (fun kv => kv.1 ∉ T) m !! k = if decide (k ∈ T) then None else m !! k.
Proof.
  apply option_eq. intros a. rewrite map_lookup_filter_Some. cbn. destruct (decide (k ∈ T)); naive_solver.
Qed.

Lemma lookup_filter_value {K} `{Countable K} (T : gset string) (m : gmap K string) k :
  filter (fun kv => kv.2 ∉ T) m !! k = match m !! k with Some v => if decide (v ∈ T) then None else Some v | None => None end.
Proof.
  apply option_eq. intros a. rewrite map_lookup_filter_Some. cbn. destruct (m !! k) as [v|]; [|naive_solver].
  destruct (decide (v ∈ T)); naive_solver.
Qed.

Lemma lookup_without_dependents T p o :
  owner_dependents (without T p) !! o = if decide (o ∈ T) then None else owner_dependents p !! o ≫= minus T.
Proof. unfold without. cbn. rewrite lookup_omap, lookup_filter_key. by destruct (decide (o ∈ T)). Qed.

Lemma minus_empty S : S <> ∅ -> minus ∅ S = Some S.
Proof. intros HS. unfold minus. rewrite difference_empty_L. by rewrite decide_False. Qed.

Lemma minus_bind T1 T2 S : minus T1 S ≫= minus T2 = minus (T1 ∪ T2) S.
Proof.
  unfold minus. assert (S ∖ (T1 ∪ T2) = S ∖ T1 ∖ T2) as -> by set_solver.
  destruct (decide (S ∖ T1 = ∅)) as [E|E]; cbn; [|done]. rewrite E.
  rewrite decide_True; [done|]. set_solver.
Qed.

Lemma without_empty p : linked p -> without ∅ p = p.
Proof.
  intros Hp. apply pool_eq; try done; apply map_eq; intros k; unfold without; cbn;
    rewrite ?lookup_omap, ?lookup_filter_key, ?lookup_filter_value;
    rewrite ?decide_False by set_solver; try done.
  - destruct (ids_by_identity p !! k); [|done]. by rewrite decide_False by set_solver.
  - destruct (owner_dependents p !! k) as [S|] eqn:E; [|done]. cbn. apply minus_empty. by eapply lk_nonempty.
  - destruct (keyed p !! k); [|done]. by rewrite decide_False by set_solver.
Qed.

Lemma without_without T1 T2 p : without T2 (without T1 p) = without (T1 ∪ T2) p.
Proof.
  apply pool_eq; try done; apply map_eq; intros k; unfold without; cbn;
    rewrite ?lookup_omap, ?lookup_filter_key, ?lookup_filter_value;
    rewrite ?lookup_omap, ?lookup_filter_key, ?lookup_filter_value.
  1,3,4: destruct (decide (k ∈ T1)), (decide (k ∈ T2)), (decide (k ∈ T1 ∪ T2)); set_solver.
  - destruct (ids_by_identity p !! k) as [v|]; [|done].
    destruct (decide (v ∈ T1)), (decide (v ∈ T1 ∪ T2)); try set_solver; destruct (decide (v ∈ T2)); set_solver.
  - destruct (decide (k ∈ T2)), (decide (k ∈ T1 ∪ T2)); try set_solver.
    + destruct (decide (k ∈ T1)); [done|set_solver].
    + destruct (decide (k ∈ T1)); [set_solver|]. destruct (owner_dependents p !! k) as [S|]; [|done]. apply minus_bind.
  - destruct (keyed p !! k) as [v|]; [|done].
    destruct (decide (v ∈ T1)), (decide (v ∈ T1 ∪ T2)); try set_solver; destruct (decide (v ∈ T2)); set_solver.
Qed.

Lemma dependents_without T p o d : d ∈ dependents_in (without T p) o <-> o ∉ T /\ d ∉ T /\ d ∈ dependents_in p o.
Proof.
  unfold dependents_in. rewrite lookup_without_dependents. destruct (decide (o ∈ T)); [set_solver|].
  destruct (owner_dependents p !! o) as [S|]; cbn; [|set_solver]. unfold minus.
  case_decide; cbn; set_solver.
Qed.

Lemma owners_without T p d o : o ∈ owners_in (without T p) d <-> d ∉ T /\ o ∈ owners_in p d.
Proof.
  unfold owners_in, without. cbn. rewrite lookup_filter_key. destruct (decide (d ∈ T)); set_solver.
Qed.

Lemma linked_without T p : linked p -> linked (without T p).
Proof.
  intros [H1 H2 H3]. split.
  - intros rid o. unfold without. cbn. rewrite lookup_filter_key, lookup_filter_value.
    specialize (H1 rid o). destruct (decide (rid ∈ T)) as [HT|HT].
    + split; [done|]. destruct (ids_by_identity p !! o) as [v|]; [|done]. destruct (decide (v ∈ T)); [done|].
      intros [= ->]. done.
    + rewrite H1. destruct (ids_by_identity p !! o) as [v|] eqn:E; [|done].
      destruct (decide (v ∈ T)); [|done]. split; [intros [= ->]|]; done.
  - intros o S. rewrite lookup_without_dependents. destruct (decide (o ∈ T)); [done|].
    destruct (owner_dependents p !! o); cbn; [|done]. unfold minus. case_decide; [done|]. by intros [= <-].
  - intros o d (Ho & Hd & Hin)%dependents_without. apply owners_without. auto.
Qed.

(** ** One step of the walk *)

Lemma lookup_discards rid (l : list string) ods o : NoDup l ->
  foldl (discard_dependent rid) ods l !! o = if decide (o ∈ l) then ods !! o ≫= minus {[rid]} else ods !! o.
Proof.
  assert (Hone : forall ods k o, discard_dependent rid ods k !! o = if decide (o = k) then ods !! o ≫= minus {[rid]} else ods !! o).
  { intros m k o'. unfold discard_dependent, minus. destruct (m !! k) as [S|] eqn:E.
    - case_decide as HS; (destruct (decide (o' = k)) as [->|Hne];
        [rewrite ?lookup_delete_eq, ?lookup_insert_eq, ?E; cbn; case_decide; done
        |rewrite ?lookup_delete_ne, ?lookup_insert_ne by done; done]).
    - destruct (decide (o' = k)) as [->|]; [by rewrite E|done]. }
  revert ods. induction l as [|k l IH]; intros ods Hnd; cbn [foldl]; [by rewrite decide_False by set_solver|].
  apply NoDup_cons in Hnd as [Hk Hnd]. rewrite IH, Hone by done.
  destruct (decide (o = k)) as [->|Hne].
  - rewrite decide_False by done. rewrite decide_True by set_solver. done.
  - destruct (decide (o ∈ l)); [rewrite decide_True by set_solver|rewrite decide_False by set_solver]; done.
Qed.

Definition detach (rid : string) (p : ResidentPool) : ResidentPool := pop_dependents rid (pop_owners rid p).

Lemma lookup_pop_owners rid p o : linked p ->
  owner_dependents (pop_owners rid p) !! o = owner_dependents p !! o ≫= minus {[rid]}.
Proof.
  intros Hp. unfold pop_owners. cbn. rewrite lookup_discards by apply NoDup_elements.
  case_decide as Hin; [done|]. rewrite elem_of_elements in Hin.
  destruct (owner_dependents p !! o) as [S|] eqn:E; [|done]. cbn. unfold minus.
  assert (rid ∉ S) as Hr.
  { intros Hr. apply Hin, (lk_back p Hp o rid). unfold dependents_in. by rewrite E. }
  assert (S ∖ {[rid]} = S) as -> by set_solver. rewrite decide_False; [done|]. by eapply lk_nonempty.
Qed.

Lemma dependents_detach rid p o d : linked p ->
  d ∈ dependents_in (detach rid p) o <-> o <> rid /\ d <> rid /\ d ∈ dependents_in p o.
Proof.
  intros Hp. unfold detach, pop_dependents, dependents_in. cbn -[pop_owners].
  destruct (decide (o = rid)) as [->|Hne]; [rewrite lookup_delete_eq; set_solver|].
  rewrite lookup_delete_ne, lookup_pop_owners by done.
  destruct (owner_dependents p !! o) as [S|]; cbn; [|set_solver]. unfold minus. case_decide; cbn; set_solver.
Qed.

Lemma dependents_popped rid p d : linked p ->
  d ∈ default ∅ (owner_dependents (pop_owners rid p) !! rid) <-> d <> rid /\ d ∈ dependents_in p rid.
Proof.
  intros Hp. rewrite lookup_pop_owners by done. unfold dependents_in.
  destruct (owner_dependents p !! rid) as [S|]; cbn; [|set_solver]. unfold minus. case_decide; cbn; set_solver.
Qed.

Lemma owners_detach rid p d o : o ∈ owners_in (detach rid p) d <-> d <> rid /\ o ∈ owners_in p d.
Proof.
  unfold detach, pop_dependents, pop_owners, owners_in. cbn.
  destruct (decide (d = rid)) as [->|Hne]; [rewrite lookup_delete_eq; set_solver|]. rewrite lookup_delete_ne by done. set_solver.
Qed.

Lemma linked_detach rid p : linked p -> linked (detach rid p).
Proof.
  intros Hp. split; [apply (lk_ids p Hp)| |].
  - intros o S. unfold detach, pop_dependents. cbn -[pop_owners]. rewrite lookup_delete_Some, lookup_pop_owners by done.
    intros [_ HS]. destruct (owner_dependents p !! o); cbn in HS; [|done]. unfold minus in HS. case_decide; [done|].
    by injection HS as <-.
  - intros o d (Ho & Hd & Hin)%dependents_detach; [|done]. apply owners_detach. split; [done|]. by apply lk_back.
Qed.

Definition depends (p : ResidentPool) (o d : string) : Prop := d ∈ dependents_in p o.

(** A call of the walk: the residents it takes, closed under dependents except
    for those already being removed, and reachable from where it started. *)
Record walked (rid : string) (R : gset string) (p : ResidentPool) (T : gset string) : Prop := {
  wk_fresh : T ## R;
  wk_root : rid ∈ R ∪ T;
  wk_closed : forall o d, o ∈ T -> depends p o d -> d ∈ R ∪ T;
  wk_reached : forall x, x ∈ T -> rtc (depends p) rid x;
}.

Lemma decide_insert {A} rid (T : gset string) k (x y : A) :
  (if decide (k ∈ {[rid]} ∪ T) then x else y) = if decide (k = rid) then x else if decide (k ∈ T) then x else y.
Proof. destruct (decide (k = rid)), (decide (k ∈ T)), (decide (k ∈ {[rid]} ∪ T)); set_solver. Qed.

Lemma drop_resident_spec rid T p p0 : linked p ->
  rid ∉ T -> p0 = without T (detach rid p) -> drop_resident rid p0 = without ({[rid]} ∪ T) p.
Proof.
  intros Hp Hrid ->.
  assert (Htab : table_remove (without T (detach rid p)) rid =
    set_table (without T (detach rid p)) (delete rid (objects (without T (detach rid p))))
      (filter (fun kv => kv.2 ∉ ({[rid]} : gset string)) (ids_by_identity (without T (detach rid p)))) (minted p)).
  { unfold table_remove. cbn. rewrite lookup_filter_key. rewrite decide_False by done.
    destruct (objects p !! rid) as [o|] eqn:E.
    - apply pool_eq; try done. cbn. apply map_eq. intros k. rewrite lookup_filter_value.
      destruct (decide (k = o)) as [->|Hne].
      + rewrite lookup_delete_eq, lookup_filter_value. apply (lk_ids p Hp) in E. rewrite E.
        rewrite (decide_False (P := rid ∈ T)) by done. by rewrite decide_True by set_solver.
      + rewrite lookup_delete_ne by done. destruct (filter _ (ids_by_identity p) !! k) as [v|] eqn:Ev; [|done].
        rewrite decide_False; [done|]. rewrite elem_of_singleton. intros ->.
        apply map_lookup_filter_Some in Ev as [Ev _]. apply (lk_ids p Hp) in Ev. congruence.
    - apply pool_eq; try done; cbn; apply map_eq; intros k.
      + destruct (decide (k = rid)) as [->|]; [|by rewrite lookup_delete_ne].
        rewrite lookup_delete_eq, lookup_filter_key. by rewrite decide_False, E.
      + rewrite (lookup_filter_value {[rid]}). destruct (filter _ (ids_by_identity p) !! k) as [v|] eqn:Ev; [|done].
        rewrite decide_False; [done|]. rewrite elem_of_singleton. intros ->.
        apply map_lookup_filter_Some in Ev as [Ev _]. apply (lk_ids p Hp) in Ev. congruence. }
  unfold drop_resident. rewrite Htab. clear Htab. apply pool_eq; try done; cbn; apply map_eq; intros k;
    rewrite ?lookup_omap, ?lookup_filter_key, ?lookup_filter_value, ?decide_insert.
  - destruct (decide (k = rid)) as [->|]; [by rewrite lookup_delete_eq|]. by rewrite lookup_delete_ne, lookup_filter_key.
  - destruct (ids_by_identity p !! k) as [v|]; [|done]. rewrite decide_insert.
    destruct (decide (v = rid)) as [->|].
    + rewrite (decide_False (P := rid ∈ T)) by done. by rewrite decide_True by set_solver.
    + destruct (decide (v ∈ T)); [done|]. by rewrite decide_False by set_solver.
  - destruct (decide (k = rid)) as [->|]; [by rewrite lookup_delete_eq|]. by rewrite lookup_delete_ne, lookup_filter_key.
  - destruct (decide (k = rid)) as [->|]; [rewrite lookup_delete_eq; by case_decide|]. by rewrite lookup_delete_ne.
  - destruct (decide (k = rid)) as [->|Hne]; [rewrite lookup_delete_eq; by case_decide|].
    rewrite lookup_delete_ne by done. destruct (decide (k ∈ T)); [done|].
    pose proof (lookup_pop_owners rid p k Hp) as Hpop. cbn in Hpop. rewrite Hpop.
    destruct (owner_dependents p !! k) as [S|]; [|done]. apply minus_bind.
  - apply option_eq. intros v. rewrite map_lookup_filter_Some, lookup_filter_value. cbn.
    destruct (keyed p !! k) as [u|]; [|naive_solver]. rewrite decide_insert.
    destruct (decide (u ∈ T)); [|destruct (decide (u = rid)) as [->|]]; [by case_decide; naive_solver|naive_solver|naive_solver].
Qed.

Section walk.
Variable universe : gset string.

(** Every dependent the walk can meet is in the universe. *)
Definition within_universe (p : ResidentPool) : Prop := forall o d, depends p o d -> d ∈ universe.

Definition walk_ok (n : nat) : Prop := forall rid R p,
  linked p -> within_universe p -> rid ∈ universe -> (size (universe ∖ R) < n)%nat ->
  exists T, remove_tree n rid (R, p) = (R ∪ T, without T p) /\ walked rid R p T.

Lemma depends_detach rid p o d : linked p -> depends (detach rid p) o d -> depends p o d.
Proof. intros Hp (_ & _ & H)%dependents_detach; done. Qed.

Lemma depends_without T p o d : depends (without T p) o d -> depends p o d.
Proof. by intros (_ & _ & H)%dependents_without. Qed.

Lemma rtc_depends p q x y : (forall o d, depends q o d -> depends p o d) -> rtc (depends q) x y -> rtc (depends p) x y.
Proof. intros Hq. induction 1; [done|]. eapply rtc_l; [by apply Hq|done]. Qed.

(** The loop over the dependents of one resident. *)
Lemma walk_list n ds R p :
  walk_ok n -> linked p -> within_universe p -> (forall d, d ∈ ds -> d ∈ universe) -> (size (universe ∖ R) < n)%nat ->
  exists T, foldl (fun s d => remove_tree n d s) (R, p) ds = (R ∪ T, without T p)
    /\ T ## R /\ (forall d, d ∈ ds -> d ∈ R ∪ T)
    /\ (forall o d, o ∈ T -> depends p o d -> d ∈ R ∪ T)
    /\ (forall x, x ∈ T -> exists d, d ∈ ds /\ rtc (depends p) d x).
Proof.
  intros Hn. revert R p. induction ds as [|d ds IH]; intros R p Hp Hu Hds Hs; cbn [foldl].
  - exists ∅. rewrite without_empty by done. split; [by rewrite union_empty_r_L|].
    split; [set_solver|]. repeat split; intros; set_solver.
  - destruct (Hn d R p Hp Hu) as (T1 & -> & [Hf Hr Hc Hreach]); [set_solver|done|].
    destruct (IH (R ∪ T1) (without T1 p)) as (T2 & -> & Hf2 & Hr2 & Hc2 & Hreach2).
    + by apply linked_without.
    + intros o x Hx%depends_without. by eapply Hu.
    + set_solver.
    + eapply Nat.le_lt_trans; [|exact Hs]. apply subseteq_size. set_solver.
    + exists (T1 ∪ T2). rewrite without_without. split; [by rewrite union_assoc_L|]. split; [set_solver|].
      split; [|split].
      * intros x [->|Hx]%elem_of_cons; [set_solver|]. specialize (Hr2 x Hx). set_solver.
      * intros o x [Ho|Ho]%elem_of_union Hx; [specialize (Hc o x Ho Hx); set_solver|].
        destruct (decide (x ∈ T1)); [set_solver|].
        assert (x ∈ R ∪ T1 ∪ T2); [|set_solver]. apply (Hc2 o); [done|]. apply dependents_without. set_solver.
      * intros x [Hx|Hx]%elem_of_union; [exists d; split; [left|by apply Hreach]|].
        destruct (Hreach2 x Hx) as (e & He & Hex). exists e. split; [by right|].
        eapply rtc_depends; [|exact Hex]. apply depends_without.
Qed.

Lemma walk_enough n : walk_ok n.
Proof.
  induction n as [|n IH]; intros rid R p Hp Hu Hrid Hs; [lia|]. cbn [remove_tree].
  destruct (decide (rid ∈ (R, p).1)) as [Hin|Hin]; cbn in Hin.
  - exists ∅. rewrite without_empty by done. split; [by rewrite union_empty_r_L|]. split; set_solver.
  - cbn zeta. cbn [fst snd]. fold (detach rid p).
    pose proof (fun d => dependents_popped rid p d Hp) as Hdeps.
    set (ds := elements (default ∅ (owner_dependents (pop_owners rid p) !! rid))).
    assert (Hds : forall d, d ∈ ds <-> d <> rid /\ d ∈ dependents_in p rid) by (intros d; unfold ds; rewrite elem_of_elements; apply Hdeps).
    destruct (walk_list n ds ({[rid]} ∪ R) (detach rid p)) as (T & -> & Hf & Hr & Hc & Hreach).
    + exact IH.
    + by apply linked_detach.
    + intros o d Hd%depends_detach; [|done]. by eapply Hu.
    + intros d [_ Hd]%Hds. by apply (Hu rid).
    + assert (size (universe ∖ ({[rid]} ∪ R)) < size (universe ∖ R))%nat; [|lia]. apply subset_size. set_solver.
    + exists ({[rid]} ∪ T). cbn [fst snd]. rewrite (drop_resident_spec rid T p) by (done || set_solver).
      split; [f_equal; set_solver|]. split; [set_solver|set_solver| |].
      * intros o d [->%elem_of_singleton|Ho]%elem_of_union Hd.
        -- destruct (decide (d = rid)) as [->|Hne]; [set_solver|]. specialize (Hr d (proj2 (Hds d) (conj Hne Hd))). set_solver.
        -- destruct (decide (d = rid)) as [->|Hne]; [set_solver|].
           assert (o <> rid) by set_solver.
           assert (d ∈ {[rid]} ∪ R ∪ T); [|set_solver]. apply (Hc o); [done|]. by apply dependents_detach.
      * intros x [->%elem_of_singleton|Hx]%elem_of_union; [done|].
        destruct (Hreach x Hx) as (d & [_ Hd]%Hds & Hdx). eapply rtc_l; [exact Hd|].
        eapply rtc_depends; [|exact Hdx]. intros o y. by apply depends_detach.
Qed.
End walk.

(** * The invariant *)

Section invariant.
Variable mint : N -> string.

Record pool_ok (p : ResidentPool) : Prop := {
  po_linked : linked p;
  po_entries : forall rid e, entries p !! rid = Some e ->
    is_Some (objects p !! rid) /\ last_used e < clock p /\ Forall (fun kv => 0 <= kv.2) (cost e);
  po_unique : forall rid rid' e e', entries p !! rid = Some e -> entries p !! rid' = Some e' ->
    last_used e = last_used e' -> rid = rid';
  po_owners : forall d o, o ∈ owners_in p d ->
    is_Some (objects p !! d) /\ is_Some (objects p !! o) /\ d ∈ dependents_in p o;
  po_keyed : forall key rid, keyed p !! key = Some rid -> is_Some (objects p !! rid) /\ key ∉ loading p;
  po_minted : forall rid, is_Some (objects p !! rid) -> exists n, (n < minted p)%N /\ rid = mint n;
  po_pins : NoDup (pin_registries p);
}.

Lemma ok_depends p o d : pool_ok p -> depends p o d -> is_Some (objects p !! o) /\ is_Some (objects p !! d).
Proof. intros Hp Hd. destruct (po_owners p Hp d o) as (? & ? & _); [|done]. by apply (lk_back p (po_linked p Hp)). Qed.

Lemma remove_spec p rid : pool_ok p ->
  exists T, remove p rid = without T p /\ forall x, x ∈ T <-> rtc (depends p) rid x.
Proof.
  intros Hp. unfold remove.
  destruct (walk_enough (dom (objects p) ∪ {[rid]}) (S (S (size (objects p)))) rid ∅ p) as (T & -> & [Hf Hr Hc Hreach]).
  - apply po_linked, Hp.
  - intros o d Hd. apply ok_depends in Hd as [_ Hd]; [|done]. apply elem_of_union_l. by apply elem_of_dom.
  - set_solver.
  - rewrite difference_empty_L, size_union_alt, size_dom.
    assert (size ({[rid]} ∖ dom (objects p)) <= size ({[rid]} : gset string))%nat as Hle by (apply subseteq_size; set_solver).
    rewrite size_singleton in Hle. lia.
  - exists T. split; [done|]. intros x. split; [apply Hreach|]. intros Hx.
    assert (rid ∈ T) as Hin by set_solver. clear Hr Hreach. induction Hx as [|a b c Hab _ IH]; [done|]. apply IH.
    specialize (Hc a b Hin Hab). set_solver.
Qed.

Lemma objects_without T p rid : is_Some (objects (without T p) !! rid) <-> rid ∉ T /\ is_Some (objects p !! rid).
Proof. unfold without. cbn. rewrite lookup_filter_key. destruct (decide (rid ∈ T)); unfold is_Some; naive_solver. Qed.

Lemma entries_without T p rid e : entries (without T p) !! rid = Some e <-> rid ∉ T /\ entries p !! rid = Some e.
Proof. unfold without. cbn. rewrite lookup_filter_key. destruct (decide (rid ∈ T)); naive_solver. Qed.

Lemma without_ok T p : pool_ok p -> (forall o d, o ∈ T -> depends p o d -> d ∈ T) -> pool_ok (without T p).
Proof.
  intros Hp HT. split.
  - apply linked_without, po_linked, Hp.
  - intros rid e [Hr He]%entries_without. destruct (po_entries p Hp rid e He) as (? & ? & ?). by rewrite objects_without.
  - intros a b e e' [_ He]%entries_without [_ He']%entries_without. by apply (po_unique p Hp).
  - intros d o [Hd Ho]%owners_without. destruct (po_owners p Hp d o Ho) as (? & ? & Hback).
    assert (o ∉ T) by (intros HoT; apply Hd; by apply (HT o)). rewrite !objects_without, dependents_without. done.
  - intros key rid. change (keyed (without T p)) with (filter (fun kv => kv.2 ∉ T) (keyed p)).
    intros [Hk Hr]%map_lookup_filter_Some. destruct (po_keyed p Hp key rid Hk). by rewrite objects_without.
  - intros rid [_ Hr]%objects_without. by apply (po_minted p Hp).
  - apply (po_pins p Hp).
Qed.

Lemma tree_closed p rid (T : gset string) : (forall x, x ∈ T <-> rtc (depends p) rid x) ->
  forall o d, o ∈ T -> depends p o d -> d ∈ T.
Proof. intros HT o d Ho%HT Hd. apply HT. by eapply rtc_r. Qed.

Lemma pool_remove_ok p rid : pool_ok p -> pool_ok (remove p rid).
Proof. intros Hp. destruct (remove_spec p rid Hp) as (T & -> & HT). apply without_ok; [done|]. by eapply tree_closed. Qed.

(** ** Growth *)

(** Every use since [p] has a reading of the clock from then on. *)
Definition uses_later (p q : ResidentPool) : Prop := forall rid e', entries q !! rid = Some e' ->
  clock p <= last_used e' \/ exists e, entries p !! rid = Some e /\ last_used e = last_used e'.

Lemma uses_later_refl p : uses_later p p.
Proof. intros rid e He. right. by exists e. Qed.

Lemma uses_later_trans p q r : clock p <= clock q -> uses_later p q -> uses_later q r -> uses_later p r.
Proof.
  intros Hc Hpq Hqr rid e He. destruct (Hqr rid e He) as [|(e' & He' & Heq)]; [left; lia|]. rewrite <- Heq. by apply Hpq.
Qed.

Lemma uses_later_same p q : (forall rid e, entries q !! rid = Some e -> exists e', entries p !! rid = Some e' /\ last_used e' = last_used e) ->
  uses_later p q.
Proof. intros Hs rid e He. right. by apply Hs. Qed.

#[local] Hint Resolve uses_later_refl : core.

(** What a use of the pool leaves in place. *)
Record grows (p q : ResidentPool) : Prop := {
  gr_objects : objects p ⊆ objects q;
  gr_owners : dependent_owners p ⊆ dependent_owners q;
  gr_keyed : keyed p = keyed q;
  gr_loading : loading p = loading q;
  gr_clock : clock p <= clock q;
  gr_entries : forall rid, is_Some (entries p !! rid) -> is_Some (entries q !! rid);
  gr_uses : uses_later p q;
}.

#[export] Instance grows_preorder : PreOrder grows.
Proof.
  split.
  - intros p. by split.
  - intros p q r [] []. split; try (etrans; eassumption); [auto|by eapply uses_later_trans].
Qed.

Hypothesis mint_inj : Inj (=) (=) mint.

Lemma fresh_mint p : pool_ok p -> objects p !! mint (minted p) = None.
Proof using mint_inj.
  intros Hp. destruct (objects p !! mint (minted p)) eqn:Eo; [|done].
  destruct (po_minted p Hp (mint (minted p))) as (m & Hm & E%mint_inj); [by eexists|lia].
Qed.

Lemma table_rid_for_spec p o : pool_ok p ->
  let r := table_rid_for mint p o in
  pool_ok r.2 /\ grows p r.2 /\ objects r.2 !! r.1 = Some o.
Proof using mint_inj.
  intros Hp. cbn zeta. unfold table_rid_for.
  assert (ids_by_identity p !! o = None ->
    let rid := mint (minted p) in
    let q := set_table p (<[rid := o]> (objects p)) (<[o := rid]> (ids_by_identity p)) (minted p + 1) in
    pool_ok q /\ grows p q /\ objects q !! rid = Some o) as Hnew.
  { intros Hid. cbn zeta. pose proof (fresh_mint p Hp) as Hfresh.
    assert (Hsome : forall rid, is_Some (objects p !! rid) -> is_Some (<[mint (minted p) := o]> (objects p) !! rid)).
    { intros rid Hr. destruct (decide (rid = mint (minted p))) as [->|]; [by rewrite lookup_insert_eq|by rewrite lookup_insert_ne]. }
    split; [|split; [|apply lookup_insert_eq]].
    - destruct Hp as [Hl He Hu Ho Hk Hm Hpn]. split; cbn.
      + destruct Hl as [H1 H2 H3]. split; cbn; [|done|done]. intros rid o'. rewrite !lookup_insert_Some, H1.
        split; intros [[<- <-]|[Hne Hr]]; try (by left); right; split; try done; intros <-; [congruence|].
        apply H1 in Hr. congruence.
      + intros rid e H. destruct (He rid e H) as (? & ? & ?). auto.
      + exact Hu.
      + intros d x Hx. destruct (Ho d x Hx) as (? & ? & ?). auto.
      + intros key rid H. destruct (Hk key rid H). auto.
      + intros rid Hr. destruct (decide (rid = mint (minted p))) as [->|Hne]; [exists (minted p); split; [lia|done]|].
        rewrite lookup_insert_ne in Hr by done. destruct (Hm rid Hr) as (n & ? & ->). exists n. split; [lia|done].
      + exact Hpn.
    - split; cbn; try done; [by apply insert_subseteq|exact (uses_later_refl p)]. }
  destruct (ids_by_identity p !! o) as [rid|] eqn:E; [|by apply Hnew].
  pose proof (proj2 (lk_ids p (po_linked p Hp) rid o) E) as Hobj. rewrite decide_True by done. done.
Qed.

Lemma lookup_add_dependents rid (l : list string) ods o :
  default ∅ (foldl (add_dependent rid) ods l !! o)
  = (if decide (o ∈ l) then {[rid]} else ∅) ∪ default ∅ (ods !! o)
  /\ (forall S, foldl (add_dependent rid) ods l !! o = Some S -> S <> ∅ \/ ods !! o = Some S).
Proof.
  revert ods. induction l as [|k l IH]; intros ods; cbn [foldl].
  - rewrite decide_False by set_solver. split; [set_solver|]. auto.
  - destruct (IH (add_dependent rid ods k)) as [IH1 IH2]. split.
    + rewrite IH1. unfold add_dependent. destruct (decide (o = k)) as [->|Hne].
      * rewrite lookup_insert_eq. cbn. rewrite (decide_True (P := k ∈ k :: l)) by set_solver. case_decide; set_solver.
      * rewrite lookup_insert_ne by done. destruct (decide (o ∈ l)), (decide (o ∈ k :: l)); set_solver.
    + intros S HS. destruct (IH2 S HS) as [|H]; [by left|]. unfold add_dependent in H.
      destruct (decide (o = k)) as [->|Hne]; [rewrite lookup_insert_eq in H; injection H as <-; left; set_solver|].
      rewrite lookup_insert_ne in H by done. by right.
Qed.

Lemma record_owners_spec p rid S q : pool_ok p -> is_Some (objects p !! rid) ->
  (forall o, o ∈ S -> is_Some (objects p !! o)) -> record_owners p rid S = Ok q -> pool_ok q /\ grows p q /\ objects q = objects p /\ entries q = entries p /\ clock q = clock p.
Proof.
  intros Hp Hrid HS. unfold record_owners. destruct (decide (S = ∅)) as [->|Hne]; [by intros [= <-]|].
  intros ([] & Hprev%raise_if_ok & [= <-])%bind_ok.
  assert (dependent_owners p !! rid = None \/ dependent_owners p !! rid = Some S) as Hcase.
  { destruct (dependent_owners p !! rid) as [T|]; [|by left]. right. apply negb_false_iff, bool_decide_eq_true in Hprev. by subst. }
  set (q := set_owners _ _ _).
  assert (Hown : forall d o, o ∈ owners_in q d <-> if decide (d = rid) then o ∈ S else o ∈ owners_in p d).
  { intros d o. unfold owners_in, q. cbn. destruct (decide (d = rid)) as [->|].
    - by rewrite lookup_insert_eq.
    - by rewrite lookup_insert_ne. }
  assert (Hdep : forall o d, d ∈ dependents_in q o <-> (d = rid /\ o ∈ S) \/ d ∈ dependents_in p o).
  { intros o d. unfold dependents_in, q. cbn. destruct (lookup_add_dependents rid (elements S) (owner_dependents p) o) as [-> _].
    destruct (decide (o ∈ elements S)) as [Ho|Ho]; rewrite elem_of_elements in Ho; set_solver. }
  assert (Hold : forall o, o ∈ owners_in p rid -> o ∈ S).
  { intros o Ho. unfold owners_in in Ho. destruct Hcase as [Hc|Hc]; rewrite Hc in Ho; [set_solver|done]. }
  split; [|split; [|done]].
  - destruct Hp as [Hl He Hu Ho Hk Hm Hpn]. split; [|done..| |done|done|done].
    + destruct Hl as [H1 H2 H3]. split; [done| |].
      * intros o T HT. destruct (lookup_add_dependents rid (elements S) (owner_dependents p) o) as [_ Hn].
        destruct (Hn T HT) as [|HT']; [done|]. by eapply H2.
      * intros o d [[-> HoS]|Hd]%Hdep; apply Hown; [by rewrite decide_True|].
        apply H3 in Hd. case_decide as Hdr; [subst; by apply Hold|done].
    + intros d o Hod%Hown. case_decide as Hdr.
      * subst d. split; [done|]. split; [by apply HS|]. apply Hdep. by left.
      * destruct (Ho d o Hod) as (? & ? & ?). split; [done|]. split; [done|]. apply Hdep. by right.
  - split; try done; [|exact (uses_later_refl p)]. unfold q. cbn. apply map_subseteq_spec. intros d T Hd.
    destruct (decide (d = rid)) as [->|]; [|by rewrite lookup_insert_ne].
    rewrite lookup_insert_eq. destruct Hcase as [Hc|Hc]; congruence.
Qed.

Lemma touch_ok p rid e : pool_ok p -> is_Some (objects p !! rid) -> Forall (fun kv => 0 <= kv.2) (cost e) ->
  pool_ok (touch p rid e) /\ grows p (touch p rid e).
Proof.
  intros [Hl He Hu Ho Hk Hm Hpn] Hrid Hcost. split.
  - split; try done; cbn.
    + by destruct Hl.
    + intros r x. rewrite lookup_insert_Some. intros [[<- <-]|[_ Hx]]; [split; [done|]; cbn; split; [lia|done]|].
      destruct (He r x Hx) as (? & ? & ?). split; [done|]. split; [lia|done].
    + intros a b x y. rewrite !lookup_insert_Some. intros [[<- <-]|[Ha Hx]] [[<- <-]|[Hb Hy]]; cbn; intros Heq; try done.
      * destruct (He b y Hy) as (_ & ? & _). lia.
      * destruct (He a x Hx) as (_ & ? & _). lia.
      * by eapply Hu.
  - split; try done; cbn; [lia| |].
    + intros r Hr. destruct (decide (r = rid)) as [->|]; [by rewrite lookup_insert_eq|by rewrite lookup_insert_ne].
    + intros r x. cbn. rewrite lookup_insert_Some. intros [[<- <-]|[_ Hx]]; [left; cbn; lia|right; by exists x].
Qed.
End invariant.

(** * Uses of the pool *)

#[local] Existing Instance M_ret.
#[local] Existing Instance M_bind.

Section uses.
Context {W : Type} `{Backend W}.
Hypothesis uuid_inj : Inj (=) (=) uuid.
#[local] Notation ok := (pool_ok uuid).

(** A call that keeps the invariant, lets the pool only grow, leaves pins and
    backend alone, and answers what [Q] says. *)
Definition uses {A} (s : @state W) (r : result res_error A * @state W) (Q : A -> ResidentPool -> Prop) : Prop :=
  ok (pool r.2) /\ grows (pool s) (pool r.2) /\ registries r.2 = registries s /\ world r.2 = world s
  /\ (forall a, r.1 = Ok a -> Q a (pool r.2)).

Lemma uses_bind {A B} (s : @state W) (m : @M W A) (k : A -> @M W B) Q R :
  uses s (m s) Q ->
  (forall a s1, ok (pool s1) -> grows (pool s) (pool s1) -> Q a (pool s1) -> uses s1 (k a s1) R) ->
  uses s ((m ≫= k) s) R.
Proof.
  unfold uses, mbind, M_bind. destruct (m s) as [[a|e] s1]; cbn [fst snd]; intros (H1 & H2 & H3 & H4 & H5) Hk.
  - destruct (Hk a s1 H1 H2 (H5 a eq_refl)) as (K1 & K2 & K3 & K4 & K5).
    split; [done|]. split; [by etrans|]. split; [congruence|]. split; [congruence|done].
  - done.
Qed.

Lemma uses_answer {A} (s : @state W) (r : result res_error A) (Q : A -> ResidentPool -> Prop) :
  ok (pool s) -> (forall a, r = Ok a -> Q a (pool s)) -> uses s (r, s) Q.
Proof. intros Hs HQ. split; [done|]. by split. Qed.

Lemma uses_weaken {A} (s : @state W) (r : result res_error A * @state W) (Q R : A -> ResidentPool -> Prop) :
  (forall a p, Q a p -> R a p) -> uses s r Q -> uses s r R.
Proof. intros HQR (H1 & H2 & H3 & H4 & H5). split; [done|]. repeat split; eauto; apply H2. Qed.

Lemma uses_modify (s : @state W) f (Q : () -> ResidentPool -> Prop) :
  ok (f (pool s)) -> grows (pool s) (f (pool s)) -> Q tt (f (pool s)) -> uses s (modify f s) Q.
Proof. intros H1 H2 H3. split; [done|]. split; [done|]. repeat split. by intros []. Qed.

Lemma declared_cost_nonneg meta : Forall (fun kv => 0 <= kv.2) (declared_cost meta).
Proof.
  unfold declared_cost. repeat case_match; try constructor. apply Forall_forall. intros [k n].
  rewrite list_elem_of_omap. intros ([a b] & _ & Hab). unfold positive_cost in Hab. repeat case_match; simplify_eq/=.
  match goal with H : (0 <? _) = true |- _ => apply Z.ltb_lt in H; lia end.
Qed.

Lemma read_cost_nonneg w o : Forall (fun kv => 0 <= kv.2) (read_cost w o).
Proof. unfold read_cost. destruct cost_of; [|constructor]. case_match; [apply declared_cost_nonneg|constructor]. Qed.

(** The id stands for the object. *)
Definition resolves (o : N) (rid : string) (p : ResidentPool) : Prop := objects p !! rid = Some o.

Lemma resolves_grows o rid p q : grows p q -> resolves o rid p -> resolves o rid q.
Proof. intros Hg Hr. by eapply lookup_weaken, gr_objects. Qed.

Lemma use_owner_uses s rid o : ok (pool s) -> resolves o rid (pool s) ->
  uses s (use_owner rid o s) (fun _ p => is_Some (entries p !! rid)).
Proof.
  intros Hs Hr. unfold use_owner. cbn zeta.
  assert (Forall (fun kv => 0 <= kv.2) (cost match entries (pool s) !! rid with Some e => e | None => mkEntry (read_cost (world s) o) None 0 true end)) as Hc.
  { destruct (entries (pool s) !! rid) as [e|] eqn:E; [by apply (po_entries _ _ Hs rid)|apply read_cost_nonneg]. }
  destruct (touch_ok uuid (pool s) rid _ Hs (ex_intro _ o Hr) Hc) as [Hok Hg].
  split; [done|]. split; [done|]. split; [done|]. split; [done|]. intros _ _. cbn. by rewrite lookup_insert_eq.
Qed.

Lemma rids_for_uses (f : N -> @M W string) l s : ok (pool s) ->
  (forall o s, ok (pool s) -> uses s (f o s) (resolves o)) ->
  uses s (rids_for f l s) (fun S p => forall rid, rid ∈ S -> exists o, o ∈ l /\ resolves o rid p).
Proof.
  intros Hs Hf. revert s Hs. induction l as [|o l IH]; intros s Hs; cbn [rids_for].
  - apply uses_answer; [done|]. intros S [= <-]. set_solver.
  - eapply uses_bind; [by apply Hf|]. intros rid s1 Hs1 _ Hrid. cbn beta in Hrid.
    eapply uses_bind; [by apply IH|]. intros S s2 Hs2 Hg HS. cbn beta in HS.
    apply uses_answer; [done|]. intros T [= <-] r [->%elem_of_singleton|Hr]%elem_of_union.
    + exists o. split; [left|by eapply resolves_grows].
    + destruct (HS r Hr) as (x & Hx & ?). exists x. split; [by right|done].
Qed.

Lemma owners_of_uses s o : ok (pool s) -> uses s (owners_of o s) (fun _ _ => True).
Proof. intros Hs. by apply uses_answer. Qed.

(** [rid_for] answers the object's id, whatever else it admits. *)
Lemma rid_for_uses stack o s : ok (pool s) -> uses s (rid_for stack o s) (resolves o).
Proof using uuid_inj.
  revert o s. induction stack as [|n IH]; intros o s Hs; cbn [rid_for]; [by apply uses_answer|].
  eapply (uses_bind _ _ _ (resolves o)).
  { destruct (table_rid_for_spec uuid uuid_inj (pool s) o Hs) as (H1 & H2 & H3). split; [done|]. split; [done|].
    repeat split. intros rid [= <-]. done. }
  intros rid s1 Hs1 _ Hrid. eapply uses_bind; [by apply owners_of_uses|]. intros owners s2 Hs2 Hg2 _.
  pose proof (resolves_grows _ _ _ _ Hg2 Hrid) as Hrid2.
  eapply uses_bind; [apply rids_for_uses; [done|apply IH]|]. intros S s3 Hs3 Hg3 HS. cbn beta in HS.
  pose proof (resolves_grows _ _ _ _ Hg3 Hrid2) as Hrid3.
  eapply (uses_bind _ _ _ (fun p p' => p = p' /\ p = pool s3)); [apply uses_answer; [done|by intros ? [= <-]]|].
  intros p s4 Hs4 Hg4 [-> Hp].
  eapply (uses_bind _ _ _ (fun p' p => record_owners p rid S = Ok p')).
  { apply uses_answer; [done|]. intros p' Hp'. done. }
  intros p' s5 Hs5 Hg5 Hp'.
  assert (ok p' /\ grows (pool s5) p' /\ objects p' = objects (pool s5)) as (Hok & Hgp & Hobj).
  { assert (grows (pool s3) (pool s5)) as Hg35 by (by etrans).
    destruct (record_owners_spec uuid uuid_inj (pool s5) rid S p') as (? & ? & ? & _); try done.
    - exists o. by apply (resolves_grows o rid (pool s3)).
    - intros x Hx. destruct (HS x Hx) as (y & _ & Hy). exists y. by apply (resolves_grows y x (pool s3)). }
  assert (resolves o rid p') as Hrid'.
  { unfold resolves. rewrite Hobj. apply (resolves_grows o rid (pool s3)); [by etrans|done]. }
  eapply (uses_bind _ _ _ (fun _ p => p = p')); [by apply uses_modify|].
  intros [] s6 Hs6 _ Heq. rewrite <- Heq in Hrid'. case_decide.
  - eapply uses_bind; [by apply use_owner_uses|]. intros [] s7 Hs7 Hg7 _. apply uses_answer; [done|].
    intros r [= <-]. by eapply resolves_grows.
  - apply uses_answer; [done|]. by intros r [= <-].
Qed.

Lemma get_uses stack rid s : ok (pool s) -> uses s (get stack rid s) (fun o p => resolves o rid p).
Proof using uuid_inj.
  intros Hs. unfold get. eapply (uses_bind _ _ _ (fun p q => p = q)); [apply uses_answer; [done|by intros ? [= <-]]|].
  intros p s1 Hs1 _ ->. unfold table_get.
  eapply (uses_bind _ _ _ (fun o p => resolves o rid p)).
  { apply uses_answer; [done|]. intros o. unfold resolves. destruct (objects (pool s1) !! rid); [by intros [= <-]|done]. }
  intros o s2 Hs2 _ Ho. eapply uses_bind; [by apply owners_of_uses|]. intros owners s3 Hs3 Hg _.
  pose proof (resolves_grows _ _ _ _ Hg Ho) as Ho3.
  destruct owners as [|owner owners]; [apply uses_answer; [done|by intros ? [= <-]]|]. case_decide.
  - eapply (uses_bind _ _ _ (fun _ p => resolves o rid p)).
    + destruct (entries (pool s3) !! rid) as [e|] eqn:Ee.
      * destruct (touch_ok uuid (pool s3) rid (with_loaded e true) Hs3) as [? ?];
          [by eexists|exact (proj2 (proj2 (po_entries _ _ Hs3 rid e Ee)))|].
        apply uses_modify; cbn beta; rewrite Ee; [done|done|by apply (resolves_grows _ _ (pool s3))].
      * apply uses_modify; cbn beta; rewrite Ee; done.
    + intros [] s4 Hs4 _ Ho4. apply uses_answer; [done|by intros ? [= <-]].
  - eapply uses_bind; [by apply rid_for_uses|]. intros r s4 Hs4 Hg4 _.
    apply uses_answer; [done|]. intros x [= <-]. by eapply resolves_grows.
Qed.

Lemma rename_ok p rid e n : ok p -> entries p !! rid = Some e ->
  ok (set_entries p (<[rid := with_name e n]> (entries p)) (clock p))
  /\ grows p (set_entries p (<[rid := with_name e n]> (entries p)) (clock p)).
Proof.
  intros Hp He. destruct (po_entries _ _ Hp rid e He) as (? & ? & ?). split.
  - destruct Hp as [Hl Hen Hu Ho Hk Hm Hpn]. split; try done; cbn.
    + by destruct Hl.
    + intros r x. rewrite lookup_insert_Some. intros [[<- <-]|[_ Hx]]; [done|by apply Hen].
    + intros a b x y. rewrite !lookup_insert_Some. intros [[<- <-]|[Ha Hx]] [[<- <-]|[Hb Hy]]; cbn; eauto.
  - split; try done; cbn.
    + intros r Hr. destruct (decide (r = rid)) as [->|]; [by rewrite lookup_insert_eq|by rewrite lookup_insert_ne].
    + apply uses_later_same. intros r x. cbn. rewrite lookup_insert_Some. intros [[<- <-]|[_ Hx]]; eauto.
Qed.

Lemma label_uses stack o n s : ok (pool s) -> uses s (label stack o n s) (resolves o).
Proof using uuid_inj.
  intros Hs. unfold label. eapply uses_bind; [by apply rid_for_uses|]. intros rid s1 Hs1 _ Hr. cbn beta in Hr.
  eapply (uses_bind _ _ _ (fun p q => p = q)); [apply uses_answer; [done|by intros ? [= <-]]|].
  intros p s2 Hs2 Hg ->. destruct (entries (pool s2) !! rid) as [e|] eqn:Ee; [|by apply uses_answer].
  destruct (rename_ok (pool s2) rid e n Hs2 Ee) as [? Hg'].
  eapply (uses_bind _ _ _ (fun _ p => resolves o rid p)).
  - apply uses_modify; [done|done|]. eapply resolves_grows; [|exact Hr]. by etrans.
  - intros [] s3 Hs3 _ Ho. apply uses_answer; [done|by intros ? [= <-]].
Qed.
End uses.

(** ** Placements *)

(** The pool with every resident taken as unloaded: what placements leave alone. *)
Definition unplaced (p : ResidentPool) : ResidentPool :=
  set_entries p ((fun e => with_loaded e false) <$> entries p) (clock p).

Lemma unplaced_entry p q rid e : unplaced p = unplaced q -> entries p !! rid = Some e ->
  exists e', entries q !! rid = Some e' /\ with_loaded e' false = with_loaded e false.
Proof.
  intros Heq He. apply (f_equal (fun p => entries p !! rid)) in Heq. cbn in Heq. rewrite !lookup_fmap, He in Heq.
  destruct (entries q !! rid) as [e'|]; [|done]. exists e'. split; [done|]. cbn in Heq. congruence.
Qed.

Lemma unplaced_fields p q : unplaced p = unplaced q ->
  objects p = objects q /\ ids_by_identity p = ids_by_identity q /\ dependent_owners p = dependent_owners q
  /\ owner_dependents p = owner_dependents q /\ clock p = clock q /\ keyed p = keyed q /\ loading p = loading q
  /\ invalidators p = invalidators q /\ pin_registries p = pin_registries q /\ minted p = minted q.
Proof. unfold unplaced, set_entries. intros [= ? ? ? ? ? ? ? ? ? ? ?]. repeat split; done. Qed.

Lemma unplaced_ok mint p q : unplaced p = unplaced q -> pool_ok mint p -> pool_ok mint q.
Proof.
  intros Heq Hp. destruct (unplaced_fields p q Heq) as (E1 & E2 & E3 & E4 & E5 & E6 & E7 & E8 & E9 & E10).
  assert (Hent : forall rid e, entries q !! rid = Some e -> exists e', entries p !! rid = Some e' /\ last_used e' = last_used e /\ cost e' = cost e).
  { intros rid e He. destruct (unplaced_entry q p rid e (eq_sym Heq) He) as (e' & He' & Hl). exists e'.
    split; [done|]. by injection Hl. }
  destruct Hp as [[L1 L2 L3] He Hu Ho Hk Hm Hpn]. unfold depends, dependents_in, owners_in in *.
  split; [split|..]; unfold dependents_in, owners_in; rewrite <- ?E1, <- ?E2, <- ?E3, <- ?E4, <- ?E5, <- ?E6, <- ?E7, <- ?E9, <- ?E10; try done.
  - intros rid e Hin. destruct (Hent rid e Hin) as (e' & He' & <- & <-). by apply He.
  - intros a b x y Hx Hy Hxy. destruct (Hent a x Hx) as (x' & Hx' & Ex & _), (Hent b y Hy) as (y' & Hy' & Ey & _).
    apply (Hu a b x' y'); congruence.
Qed.

Lemma reload_unplaced p rid e b : entries p !! rid = Some e ->
  unplaced (set_entries p (<[rid := with_loaded e b]> (entries p)) (clock p)) = unplaced p.
Proof.
  intros He. apply pool_eq; try done. cbn. rewrite fmap_insert. cbn. apply map_eq. intros k.
  destruct (decide (k = rid)) as [->|]; [by rewrite lookup_insert_eq, lookup_fmap, He|by rewrite lookup_insert_ne].
Qed.

Lemma set_loaded_unplaced p o b : unplaced (set_loaded p o b) = unplaced p.
Proof.
  unfold set_loaded. destruct (ids_by_identity p !! o) as [rid|]; [|done]. case_decide; [|done].
  destruct (entries p !! rid) eqn:E; [|done]. by apply reload_unplaced.
Qed.

(** * Release *)

Section releases.
Context {W : Type} `{Backend W}.
Implicit Types (s : @state W).

Lemma run_call_spec c s : unplaced (pool (run_call c s)) = unplaced (pool s) /\ registries (run_call c s) = registries s.
Proof.
  split; [|done]. unfold run_call. cbn. generalize (pool s). induction (placed c) as [|pl l IH]; intros p; cbn [foldl]; [done|].
  rewrite IH. apply set_loaded_unplaced.
Qed.

Lemma mark_unloaded_spec rid s :
  unplaced (pool (mark_unloaded rid s)) = unplaced (pool s) /\ registries (mark_unloaded rid s) = registries s.
Proof.
  unfold mark_unloaded. destruct (entries (pool s) !! rid) as [e|] eqn:E; [|done]. split; [by apply reload_unplaced|done].
Qed.

Lemma unload_spec rid device s :
  let u := unload_entry rid device s in
  unplaced (pool u.2) = unplaced (pool s) /\ registries u.2 = registries s.
Proof.
  cbn zeta. unfold unload_entry. destruct (entries (pool s) !! rid) as [e|]; [|done].
  destruct (loaded e); [|done]. destruct (objects (pool s) !! rid); [|done]. cbn [negb].
  destruct unload as [f|]; [|apply mark_unloaded_spec]. cbv zeta. pose proof (run_call_spec (f (world s) n) s) as [Hr1 Hr2].
  destruct (raised _); cbn [fst snd]; [by rewrite Hr1, Hr2|]. cbn [fst snd].
  destruct (mark_unloaded_spec rid (run_call (f (world s) n) s)) as [-> ->]. done.
Qed.

Lemma release_backend_spec strict rid device o s :
  let b := release_backend strict rid device o s in
  unplaced (pool b.2) = unplaced (pool s) /\ registries b.2 = registries s.
Proof.
  cbn zeta. unfold release_backend.
  set (t := match terminal_release with None => _ | Some _ => _ end).
  assert (unplaced (pool t.2) = unplaced (pool s) /\ registries t.2 = registries s) as [Ht1 Ht2].
  { unfold t. destruct terminal_release as [f|]; [apply run_call_spec|done]. }
  cbv zeta. destruct t.1 as [h|fs]; [|done]. destruct (_ && _); [|done].
  destruct (unload_spec rid device t.2) as [Hu1 Hu2]. destruct (strict && _); cbn [snd]; by rewrite Hu1, Hu2.
Qed.

(** ** Condemnation is all or nothing *)

Lemma absolve_all_other (l : list N) r k q (m : gmap N Pins.ResourcePins) : k ∉ l ->
  alter (fun p => Pins.absolve p r) k (absolve_all l r (<[k := q]> m)) = <[k := Pins.absolve q r]> (absolve_all l r m).
Proof.
  unfold absolve_all. induction l as [|a l IH] using rev_ind; intros Hk; cbn [foldl]; [by rewrite alter_insert_eq|].
  rewrite !foldl_snoc. assert (a <> k) by set_solver. rewrite alter_alter_ne by done. rewrite IH by set_solver.
  by rewrite alter_insert_ne.
Qed.

Lemma absolve_all_lookup (l : list N) r k (m : gmap N Pins.ResourcePins) : k ∉ l -> absolve_all l r m !! k = m !! k.
Proof.
  unfold absolve_all. revert m. induction l as [|a l IH]; intros m Hk; cbn [foldl]; [done|].
  rewrite IH by set_solver. by rewrite lookup_alter_ne by set_solver.
Qed.

(** Absolving takes back a condemnation that was just accepted. *)
Lemma absolve_all_accepted (l : list N) r k p (m : gmap N Pins.ResourcePins) :
  k ∉ l -> m !! k = Some p -> (Pins.condemn p r).1 = true ->
  absolve_all (l ++ [k]) r (<[k := (Pins.condemn p r).2]> m) = absolve_all l r m.
Proof.
  intros Hk Hp Hc. unfold absolve_all at 1. rewrite foldl_snoc. fold (absolve_all l r (<[k := (Pins.condemn p r).2]> m)).
  rewrite absolve_all_other, Pins.absolve_condemned by done. apply insert_id. by rewrite absolve_all_lookup.
Qed.

(** The registries after a condemnation that all of [live] accepted. *)
Definition condemned_by (live : list N) (r : string) (rs rs' : gmap N Pins.ResourcePins) : Prop :=
  (forall k p, k ∈ live -> rs !! k = Some p -> Pins.pinned p r = false /\ r ∉ Pins.condemned_ids p)
  /\ (forall k p', rs' !! k = Some p' -> exists p, rs !! k = Some p /\ Pins.counts p' = Pins.counts p
        /\ (k ∈ live -> r ∈ Pins.condemned_ids p') /\ Pins.condemned_ids p ⊆ Pins.condemned_ids p').

Lemma condemned_by_dead live r k rs rs' : rs !! k = None -> condemned_by live r rs rs' -> condemned_by (k :: live) r rs rs'.
Proof.
  intros Ek [I1 I2]. split.
  - intros k' p' [->|Hk]%elem_of_cons; [congruence|by apply I1].
  - intros k' p' Hk'. destruct (I2 k' p' Hk') as (q & Hq & Hc & Hin & Hsub). exists q.
    split; [done|]. split; [done|]. split; [|done]. intros [->|Hk]%elem_of_cons; [congruence|by apply Hin].
Qed.

Lemma condemned_by_live live r k p rs rs' : k ∉ live -> rs !! k = Some p -> (Pins.condemn p r).1 = true ->
  condemned_by live r (<[k := (Pins.condemn p r).2]> rs) rs' -> condemned_by (k :: live) r rs rs'.
Proof.
  intros Hkl Ek (Hpin & Hcon & Hnew)%Pins.condemn_accepts [I1 I2]. split.
  - intros k' p' [->|Hk]%elem_of_cons; [intros E; rewrite Ek in E; by injection E as <-|].
    intros Hp'. apply (I1 k' p' Hk). rewrite lookup_insert_ne; [done|]. by intros ->.
  - intros k' p' Hk'. destruct (I2 k' p' Hk') as (q & Hq & Hc & Hin & Hsub).
    destruct (decide (k' = k)) as [->|Hne].
    + rewrite lookup_insert_eq in Hq. injection Hq as <-. exists p. rewrite Hnew in Hc, Hsub. cbn in Hc, Hsub. set_solver.
    + rewrite lookup_insert_ne in Hq by done. exists q. split; [done|]. split; [done|]. split; [|done].
      intros [->|Hk]%elem_of_cons; [done|by apply Hin].
Qed.

Lemma condemn_all_spec live accepted r rs :
  NoDup (accepted ++ live) ->
  match condemn_all live accepted r rs with
  | (None, rs') => rs' = absolve_all accepted r rs
  | (Some acc, rs') => condemned_by live r rs rs' /\ absolve_all acc r rs' = absolve_all accepted r rs
  end.
Proof.
  revert accepted rs. induction live as [|k live IH]; intros accepted rs Hnd; cbn [condemn_all].
  - split; [|done]. split; [set_solver|]. intros k p' Hk. exists p'. set_solver.
  - assert (NoDup (accepted ++ live) /\ k ∉ accepted /\ k ∉ live) as (Hnd0 & Hka & Hkl).
    { apply NoDup_app in Hnd as (Ha & Hx & Hl). apply NoDup_cons in Hl as [Hk Hl].
      split; [apply NoDup_app; set_solver|]. split; [|done]. intros Hin. apply (Hx k Hin). left. }
    destruct (rs !! k) as [p|] eqn:Ek.
    + destruct (Pins.condemn p r).1 eqn:Ec; [|done].
      assert (NoDup ((accepted ++ [k]) ++ live)) as Hnd' by (by rewrite <- (assoc_L app); cbn).
      specialize (IH (accepted ++ [k]) (<[k := (Pins.condemn p r).2]> rs) Hnd').
      rewrite absolve_all_accepted in IH by done. destruct (condemn_all live (accepted ++ [k]) r _) as [[acc|] rs']; [|done].
      destruct IH as [Hby ->]. split; [by eapply condemned_by_live|done].
    + specialize (IH accepted rs Hnd0). destruct (condemn_all live accepted r rs) as [[acc|] rs']; [|done].
      destruct IH as [Hby ->]. split; [by apply condemned_by_dead|done].
Qed.
End releases.

(** ** One release *)

(** The pool up to placements and registrations. *)
Definition core (p : ResidentPool) : ResidentPool := set_registered (unplaced p) [] [].

Lemma core_unplaced p q : unplaced p = unplaced q -> core p = core q.
Proof. unfold core. by intros ->. Qed.

Lemma core_registered p a b : core (set_registered p a b) = core p.
Proof. done. Qed.

Lemma core_without T p : core (without T p) = without T (core p).
Proof.
  apply pool_eq; try done. cbn. apply map_eq. intros k. rewrite lookup_fmap, !lookup_filter_key, lookup_fmap.
  by destruct (decide (k ∈ T)).
Qed.

Lemma core_fields p q : core p = core q ->
  objects p = objects q /\ dependent_owners p = dependent_owners q /\ owner_dependents p = owner_dependents q
  /\ clock p = clock q /\ keyed p = keyed q /\ loading p = loading q
  /\ (forall rid e, entries p !! rid = Some e -> exists e', entries q !! rid = Some e' /\ with_loaded e' false = with_loaded e false).
Proof.
  unfold core, set_registered, unplaced, set_entries. cbn. intros [= E1 E2 E3 E4 E5 E6 E7 E8 E9]. repeat (split; [done|]).
  intros rid e He. apply (f_equal (.!! rid)) in E3. rewrite !lookup_fmap, He in E3.
  destruct (entries q !! rid) as [e'|]; [|done]. exists e'. split; [done|]. cbn in E3. congruence.
Qed.

Lemma register_ok mint p l k : pool_ok mint p -> NoDup k -> pool_ok mint (set_registered p l k).
Proof. intros [[L1 L2 L3] He Hu Ho Hk Hm Hpn] HN. by split. Qed.

Section release_one.
Context {W : Type} `{Backend W}.
Hypothesis uuid_inj : Inj (=) (=) uuid.
#[local] Notation ok := (pool_ok uuid).
Implicit Types (s : @state W).

Lemma live_pins_NoDup s : ok (pool s) -> NoDup (live_pins (registries s) (pool s)).
Proof. intros Hs. apply NoDup_filter, (po_pins uuid), Hs. Qed.

Lemma elem_of_live_pins rs p k : k ∈ live_pins rs p <-> is_Some (rs !! k) /\ k ∈ pin_registries p.
Proof. unfold live_pins. by rewrite list_elem_of_filter. Qed.

(** The backends called by a release of one resident. *)
Definition invalidated (rid : string) (s : @state W) : bool * W :=
  invalidate_all (live_invalidators (world s) (pool s)) (resident_resource_id rid) (world s).

Inductive called : W -> W -> Prop :=
| called_refl w : called w w
| called_unload f w o w' : unload = Some f -> called (after (f w o)) w' -> called w w'
| called_terminal f w o w' : terminal_release = Some f -> called (after (f w o)) w' -> called w w'.

Lemma called_trans w1 w2 w3 : called w1 w2 -> called w2 w3 -> called w1 w3.
Proof. induction 1; eauto using called. Qed.

Lemma unload_called rid device s : called (world s) (world (unload_entry rid device s).2).
Proof.
  unfold unload_entry. destruct (entries (pool s) !! rid) as [e|]; [|constructor].
  destruct (negb (loaded e)); [constructor|]. destruct (objects (pool s) !! rid) as [o|]; [|constructor].
  assert (forall s', world (mark_unloaded rid s') = world s') as Hm.
  { intros s'. unfold mark_unloaded. by destruct (entries (pool s') !! rid). }
  destruct unload as [f|] eqn:Ef; [|cbn [snd]; rewrite Hm; constructor].
  cbv zeta. destruct (raised _); cbn [snd]; rewrite ?Hm; (eapply called_unload; [exact Ef|constructor]).
Qed.

Lemma backend_called strict rid device o s : called (world s) (world (release_backend strict rid device o s).2).
Proof.
  unfold release_backend. set (t := match terminal_release with None => _ | Some _ => _ end).
  assert (called (world s) (world t.2)) as Ht.
  { unfold t. destruct terminal_release as [f|] eqn:Ef; [|constructor]. eapply called_terminal; [exact Ef|constructor]. }
  cbv zeta. destruct t.1; [|done]. destruct (_ && _); [|done].
  pose proof (unload_called rid device t.2). destruct (strict && _); cbn [snd]; by eapply called_trans.
Qed.

(** What one release does, on every branch. *)
Inductive release_outcome (honor : bool) (rid device : string) (s : @state W) : released -> @state W -> Prop :=
| OutAbsent : entries (pool s) !! rid = None -> release_outcome honor rid device s (Refused []) s
| OutRefused fs s' w :
    core (pool s') = core (pool s) -> ok (pool s') -> registries s' = registries s ->
    (invalidators (pool s') ⊆ invalidators (pool s)) -> (pin_registries (pool s') ⊆ pin_registries (pool s)) ->
    (invalidated rid s).2 = w -> called w (world s') ->
    release_outcome honor rid device s (Refused fs) s'
| OutFreed e T s' w :
    entries (pool s) !! rid = Some e ->
    (forall x, x ∈ T <-> rtc (depends (pool s)) rid x) ->
    core (pool s') = without T (core (pool s)) -> ok (pool s') ->
    (invalidators (pool s') ⊆ invalidators (pool s)) -> (pin_registries (pool s') ⊆ pin_registries (pool s)) ->
    invalidated rid s = (true, w) -> called w (world s') ->
    (forall k p', registries s' !! k = Some p' -> exists p, registries s !! k = Some p /\ Pins.counts p' = Pins.counts p) ->
    (honor = true -> forall k p, k ∈ pin_registries (pool s) -> registries s !! k = Some p ->
       Pins.pinned p (resident_resource_id rid) = false) ->
    release_outcome honor rid device s (Freed (cost_get e device)) s'.

Lemma live_invalidators_sub w p : live_invalidators w p ⊆ invalidators p.
Proof. intros i. unfold live_invalidators. rewrite list_elem_of_filter. by intros [_ ?]. Qed.

Lemma live_pins_sub rs p : live_pins rs p ⊆ pin_registries p.
Proof. intros k. rewrite elem_of_live_pins. by intros [_ ?]. Qed.

Lemma depends_core p q : core p = core q -> forall o d, depends p o d <-> depends q o d.
Proof. intros (_ & _ & E & _)%core_fields o d. unfold depends, dependents_in. by rewrite E. Qed.

Lemma rtc_ext {A} (R S : relation A) : (forall x y, R x y <-> S x y) -> forall x y, rtc R x y <-> rtc S x y.
Proof. intros HRS x y. split; induction 1; try done; (eapply rtc_l; [by apply HRS|done]). Qed.

(** A state whose pool differs from another's in placements, and in
    registrations it has dropped. *)
Record same_core (s s' : @state W) : Prop := {
  sc_core : core (pool s') = core (pool s);
  sc_ok : ok (pool s');
  sc_invalidators : invalidators (pool s') ⊆ invalidators (pool s);
  sc_pins : pin_registries (pool s') ⊆ pin_registries (pool s);
}.

Lemma same_core_trans s1 s2 s3 : same_core s1 s2 -> same_core s2 s3 -> same_core s1 s3.
Proof. intros [] []. split; [congruence|done|by etrans|by etrans]. Qed.

Lemma invalidate_live_spec rid s : ok (pool s) ->
  let i := invalidate_live (resident_resource_id rid) s in
  same_core s i.2 /\ i.1 = (invalidated rid s).1 /\ world i.2 = (invalidated rid s).2
  /\ registries i.2 = registries s /\ pin_registries (pool i.2) = pin_registries (pool s).
Proof.
  intros Hs. cbv zeta. split; [|done]. split; [done| |apply live_invalidators_sub|done].
  by apply (register_ok uuid); [|exact (po_pins _ _ Hs)].
Qed.

Lemma condemn_live_spec honor r s : ok (pool s) ->
  let c := condemn_live honor r s in
  same_core s c.2 /\ world c.2 = world s
  /\ match c.1 with
     | None => registries c.2 = registries s
     | Some acc => absolve_all acc r (registries c.2) = registries s
         /\ (forall k p', registries c.2 !! k = Some p' -> exists p, registries s !! k = Some p /\ Pins.counts p' = Pins.counts p)
         /\ (honor = true -> forall k p, k ∈ pin_registries (pool s) -> registries s !! k = Some p -> Pins.pinned p r = false)
     end.
Proof.
  intros Hs. cbv zeta. unfold condemn_live. destruct honor.
  2:{ split; [by split|]. split; [done|]. split; [done|]. split; [|done]. intros k p' Hk. by exists p'. }
  split; [|split; [done|]].
  { split; [done| |done|apply live_pins_sub]. by apply (register_ok uuid); [|apply live_pins_NoDup]. }
  pose proof (condemn_all_spec (live_pins (registries s) (pool s)) [] r (registries s) (live_pins_NoDup s Hs)) as Hspec.
  cbn [fst snd registries]. destruct (condemn_all _ _ _ _) as [[acc|] rs']; [|done].
  destruct Hspec as [[I1 I2] I3]. split; [done|]. split.
  - intros k p' Hk. destruct (I2 k p' Hk) as (q & ? & ? & _). by exists q.
  - intros _ k p Hk Hrs. apply (I1 k p); [|done]. apply elem_of_live_pins. split; [by exists p|done].
Qed.

Lemma backend_same_core strict rid device o s : ok (pool s) ->
  let b := release_backend strict rid device o s in
  same_core s b.2 /\ registries b.2 = registries s /\ called (world s) (world b.2).
Proof.
  intros Hs. cbv zeta. destruct (release_backend_spec strict rid device o s) as [Hb1 Hb2].
  destruct (unplaced_fields _ _ Hb1) as (_ & _ & _ & _ & _ & _ & _ & Hi & Hp & _).
  split; [|split; [done|apply backend_called]]. split; [by apply core_unplaced|by eapply unplaced_ok|by rewrite Hi|by rewrite Hp].
Qed.

Lemma release_entry_spec strict honor rid device s : ok (pool s) ->
  release_outcome honor rid device s (release_entry strict honor rid device s).1 (release_entry strict honor rid device s).2.
Proof.
  intros Hs. unfold release_entry. destruct (entries (pool s) !! rid) as [e|] eqn:Ee; [|by apply OutAbsent].
  destruct (po_entries _ _ Hs rid e Ee) as ([o Ho] & _ & _). rewrite Ho. cbv zeta.
  destruct (invalidate_live_spec rid s Hs) as (C1 & Hi & Hw1 & Hr1 & Hp1).
  destruct (invalidate_live (resident_resource_id rid) s) as [ok1 s1]. cbn [fst snd] in *.
  destruct (invalidated rid s) as [ok' w] eqn:Ei. cbn [fst snd] in *. subst ok1 w.
  destruct ok'; cbn [negb fst snd].
  2:{ destruct C1. eapply OutRefused; [done..|by rewrite Ei|constructor]. }
  destruct (condemn_live_spec honor (resident_resource_id rid) s1 (sc_ok _ _ C1)) as (C2 & Hw2 & Hc).
  destruct (condemn_live honor (resident_resource_id rid) s1) as [acc s2]. cbn [fst snd] in *.
  pose proof (same_core_trans _ _ _ C1 C2) as C12. destruct acc as [acc|]; cbn [fst snd].
  2:{ destruct C12. eapply OutRefused; [done..|congruence|done|done|by rewrite Ei|rewrite Hw2; constructor]. }
  rewrite Hr1, Hp1 in Hc. destruct Hc as (Habs & Hcounts & Hpins).
  destruct (backend_same_core strict rid device o s2 (sc_ok _ _ C2)) as (C3 & Hr3 & Hcall). rewrite Hw2 in Hcall.
  destruct (release_backend strict rid device o s2) as [b s3]. cbn [fst snd] in *.
  destruct (same_core_trans _ _ _ C12 C3) as [Hcore Hok Hinv Hpin]. destruct b as [[]|fs]; cbn [fst snd].
  2:{ eapply OutRefused; cbn [put_registries pool registries world]; [done..|by rewrite Hr3|done|done|by rewrite Ei|by rewrite ?Hw2]. }
  destruct (core_fields _ _ (eq_sym Hcore)) as (_ & _ & _ & _ & _ & _ & Hent). destruct (Hent rid e Ee) as (e' & He' & Hload).
  rewrite He'. assert (cost_get e' device = cost_get e device) as -> by (unfold cost_get; by injection Hload as -> _ _).
  destruct (remove_spec uuid (pool s3) rid Hok) as (T & HT & Htree).
  eapply (OutFreed _ _ _ _ e T); cbn [put_pool pool registries world]; try done.
  - intros x. rewrite Htree. apply rtc_ext. by apply depends_core.
  - by rewrite HT, core_without, Hcore.
  - by apply pool_remove_ok.
  - by rewrite HT.
  - by rewrite HT.
  - intros k p' Hk. apply Hcounts. congruence.
Qed.
End release_one.

(** * References held elsewhere *)

(** What the codec writes of a resident object: its id, and in the metadata the
    resource ids of its owners, its own among them where it is its own. *)
Record envelope := mkEnvelope { env_rid : string; env_names : gset string }.

(** The caches behind the invalidators: which envelopes each one holds. Dropping
    what references a resource drops it or raises, a cache that is gone holds
    nothing, and no callback adds an envelope. *)
Class Holders (W : Type) `{Backend W} := {
  held : W -> N -> envelope -> Prop;
  invalidate_drops : forall w h r e, (invalidate w h r).1 = false -> held (invalidate w h r).2 h e -> r ∉ env_names e;
  invalidate_shrinks : forall w h r h' e, held (invalidate w h r).2 h' e -> held w h' e;
  unload_shrinks : forall f w o h e, unload = Some f -> held (after (f w o)) h e -> held w h e;
  terminal_shrinks : forall f w o h e, terminal_release = Some f -> held (after (f w o)) h e -> held w h e;
  dead_hold_nothing : forall w h e, alive w h = false -> ~ held w h e;
}.

Section safety.
Context {W : Type} `{Holders W}.
Hypothesis uuid_inj : Inj (=) (=) uuid.
#[local] Notation ok := (pool_ok uuid).
Implicit Types (s : @state W).

(** The envelopes in the hands of the runs of each registry. *)
Variable runs : N -> list envelope.

Definition referenced (s : @state W) (e : envelope) : Prop :=
  (exists i, i ∈ invalidators (pool s) /\ held (world s) (handler_of i) e)
  \/ (exists k, k ∈ pin_registries (pool s) /\ is_Some (registries s !! k) /\ e ∈ runs k).

(** The envelope resolves, and names the owners of what it stands for. *)
Definition sound (p : ResidentPool) (e : envelope) : Prop :=
  is_Some (objects p !! env_rid e)
  /\ (forall o, o ∈ owners_in p (env_rid e) -> resident_resource_id o ∈ env_names e)
  /\ (is_Some (entries p !! env_rid e) -> resident_resource_id (env_rid e) ∈ env_names e).

(** An owner's owners are owners too: the residents' [_dinkster_resident_refs]
    list everything they hold, not only what they hold directly. *)
Definition owners_closed (p : ResidentPool) : Prop :=
  forall a b c, b ∈ owners_in p a -> c ∈ owners_in p b -> c ∈ owners_in p a.

(** Runs pin what they hold. *)
Definition runs_pinned (s : @state W) : Prop := forall k p e n,
  registries s !! k = Some p -> e ∈ runs k -> n ∈ env_names e -> Pins.pinned p n = true.

Record safe (s : @state W) : Prop := {
  sf_ok : ok (pool s);
  sf_closed : owners_closed (pool s);
  sf_pinned : runs_pinned s;
  sf_sound : forall e, referenced s e -> sound (pool s) e;
}.

Lemma called_shrinks w w' h e : called w w' -> held w' h e -> held w h e.
Proof. induction 1; eauto using unload_shrinks, terminal_shrinks. Qed.

Lemma invalidate_all_shrinks hs r w h e : held (invalidate_all hs r w).2 h e -> held w h e.
Proof.
  revert w. induction hs as [|i hs IH]; intros w; cbn [invalidate_all]; [done|].
  destruct (invalidate w (handler_of i) r).1; cbn [snd]; [apply invalidate_shrinks|].
  intros Hh%IH. by eapply invalidate_shrinks.
Qed.

Lemma invalidate_all_drops hs r w i e : (invalidate_all hs r w).1 = true -> i ∈ hs ->
  held (invalidate_all hs r w).2 (handler_of i) e -> r ∉ env_names e.
Proof.
  revert w. induction hs as [|j hs IH]; intros w; cbn [invalidate_all]; [intros _ Hi; by apply not_elem_of_nil in Hi|].
  destruct (invalidate w (handler_of j) r).1 eqn:E; [done|]. intros Hok [->|Hi]%elem_of_cons Hh; [|by eapply IH].
  apply invalidate_all_shrinks in Hh. by eapply invalidate_drops.
Qed.

Lemma resource_id_inj a b : resident_resource_id a = resident_resource_id b -> a = b.
Proof. apply str_app_inj_l. Qed.

(** Under closed owners a tree is its root and what the root owns. *)
Lemma tree_owned p r x : ok p -> owners_closed p -> rtc (depends p) r x -> x = r \/ r ∈ owners_in p x.
Proof.
  intros Hp Hc Hr. induction Hr as [|a b c Hab _ IH]; [by left|].
  assert (a ∈ owners_in p b) as Hba by (by apply (lk_back p (po_linked _ p Hp))).
  right. destruct IH as [->|Hb]; [done|]. by eapply Hc.
Qed.

Lemma sound_core p q e : core p = core q -> sound p e -> sound q e.
Proof.
  intros Hcore (H1 & H2 & H3). destruct (core_fields _ _ Hcore) as (E1 & E2 & _).
  destruct (core_fields _ _ (eq_sym Hcore)) as (_ & _ & _ & _ & _ & _ & Hent).
  unfold sound, owners_in. rewrite <- E1, <- E2. split; [done|]. split; [done|].
  intros [x Hx]. destruct (Hent _ _ Hx) as (y & Hy & _). apply H3. by exists y.
Qed.

Lemma closed_core p q : core p = core q -> owners_closed p -> owners_closed q.
Proof. intros (_ & E & _)%core_fields. unfold owners_closed, owners_in. by rewrite E. Qed.

Lemma runs_pinned_counts s s' :
  (forall k p', registries s' !! k = Some p' -> exists p, registries s !! k = Some p /\ Pins.counts p' = Pins.counts p) ->
  runs_pinned s -> runs_pinned s'.
Proof.
  intros Hr Hs k p' e n Hk He Hn. destruct (Hr k p' Hk) as (p & Hp & Hc). unfold Pins.pinned, Pins.count.
  rewrite Hc. by apply (Hs k p e n).
Qed.

Lemma referenced_before s s' w rid e :
  invalidators (pool s') ⊆ invalidators (pool s) -> pin_registries (pool s') ⊆ pin_registries (pool s) ->
  (invalidated rid s).2 = w -> called w (world s') ->
  (forall k, is_Some (registries s' !! k) -> is_Some (registries s !! k)) ->
  referenced s' e -> referenced s e.
Proof.
  intros Hi Hp Hw Hcall Hreg [(i & Hin & Hh)|(k & Hin & Hk & He)].
  - left. exists i. split; [by apply Hi|]. apply (called_shrinks _ _ _ _ Hcall) in Hh. subst w.
    by eapply invalidate_all_shrinks.
  - right. exists k. auto.
Qed.

Lemma release_entry_safe strict rid device s : safe s -> safe (release_entry strict true rid device s).2.
Proof using uuid_inj.
  intros [Hok Hclosed Hpinned Hsound].
  pose proof (release_entry_spec strict true rid device s Hok) as Hout.
  destruct (release_entry strict true rid device s) as [r s']. cbn [fst snd] in *.
  inversion Hout as [Habs|fs s0 w Hcore Hok' Hreg Hi Hp Hw Hcall|e T s0 w He HT Hcore Hok' Hi Hp Hw Hcall Hcounts Hpins]; subst.
  - by split.
  - split; [done|by apply (closed_core (pool s))| |].
    + eapply runs_pinned_counts; [|exact Hpinned]. rewrite Hreg. intros k p' Hk. by exists p'.
    + intros x Hx. apply (sound_core (pool s)); [done|]. apply Hsound.
      eapply referenced_before; [exact Hi|exact Hp|reflexivity|exact Hcall|by rewrite Hreg|exact Hx].
  - assert (Hw' : (invalidated rid s).2 = w) by (by rewrite Hw).
    assert (owners_closed (without T (pool s))) as Hcl.
    { intros a b c [Ha Hb]%owners_without [_ Hc]%owners_without. apply owners_without. split; [done|]. by eapply Hclosed. }
    rewrite <- core_without in Hcore.
    split; [done|by eapply closed_core|by eapply runs_pinned_counts|].
    intros x Hx. apply (sound_core (without T (pool s))); [done|].
    assert (referenced s x) as Hbefore.
    { eapply referenced_before; [exact Hi|exact Hp|exact Hw'|exact Hcall| |exact Hx].
      intros k [p' Hk]. destruct (Hcounts k p' Hk) as (p & ? & _). by exists p. }
    destruct (Hsound x Hbefore) as (S1 & S2 & S3).
    assert (resident_resource_id rid ∉ env_names x) as Hno.
    { destruct Hx as [(i & Hin & Hh)|(k & Hin & Hk & Hrun)].
      - apply (called_shrinks _ _ _ _ Hcall) in Hh. unfold invalidated in Hw.
        apply (invalidate_all_drops (live_invalidators (world s) (pool s)) _ (world s) i); [by rewrite Hw| |by rewrite Hw].
        assert (held (world s) (handler_of i) x) as Hh0.
        { apply (invalidate_all_shrinks (live_invalidators (world s) (pool s)) (resident_resource_id rid)). by rewrite Hw. }
        unfold live_invalidators. apply list_elem_of_filter. split; [|by apply Hi]. destruct i as [h|h]; [done|].
        destruct (alive (world s) h) eqn:Ea; [done|]. by destruct (dead_hold_nothing _ _ _ Ea Hh0).
      - destruct Hk as [p' Hk]. destruct (Hcounts k p' Hk) as (p & Hk0 & _). intros Hn.
        pose proof (Hpinned k p x _ Hk0 Hrun Hn) as Hp1. rewrite (Hpins eq_refl k p) in Hp1; [done|by apply Hp|done]. }
    assert (env_rid x ∉ T) as HxT.
    { intros Hin%HT. apply Hno. destruct (tree_owned _ _ _ Hok Hclosed Hin) as [Heq|Hown]; [|by apply S2].
      rewrite <- Heq. apply S3. rewrite Heq. by exists e. }
    split; [by apply objects_without|]. split.
    + intros o [_ Ho]%owners_without. by apply S2.
    + intros [y [_ Hy]%entries_without]. apply S3. by exists y.
Qed.

Lemma release_safe device cs s : safe s -> safe (release device cs s).2.
Proof using uuid_inj.
  revert s. induction cs as [|c cs IH]; intros s Hs; cbn [release]; [done|].
  destruct (still_valid (pool s) c); [|by apply IH]. cbn [snd]. by apply IH, release_entry_safe.
Qed.

Lemma release_each_safe cs s : safe s -> safe (release_each cs s).2.
Proof using uuid_inj.
  revert s. induction cs as [|c cs IH]; intros s Hs; cbn [release_each]; [done|].
  destruct (still_valid (pool s) c); [|by apply IH].
  pose proof (IH _ (release_entry_safe true (item_id c) "ram" s Hs)) as Hrest.
  by destruct (release_entry true true (item_id c) "ram" s).1.
Qed.

Lemma safe_unplaced s s' : unplaced (pool s') = unplaced (pool s) -> registries s' = registries s ->
  called (world s) (world s') -> safe s -> safe s'.
Proof.
  intros Hun Hreg Hcall [Hok Hclosed Hpinned Hsound]. pose proof (core_unplaced _ _ (eq_sym Hun)) as Hcore.
  destruct (unplaced_fields _ _ Hun) as (_ & _ & _ & _ & _ & _ & _ & Hi & Hp & _). split.
  - by eapply unplaced_ok.
  - by eapply closed_core.
  - intros k p. rewrite Hreg. apply Hpinned.
  - intros e He. eapply sound_core; [exact Hcore|]. apply Hsound.
    destruct He as [(i & Hin & Hh)|(k & Hin & Hk & He)]; [left; exists i|right; exists k].
    + rewrite <- Hi. split; [done|]. by eapply called_shrinks.
    + rewrite <- Hp, <- Hreg. done.
Qed.

Lemma unload_each_safe device need freed rids s : safe s -> safe (unload_each device need freed rids s).2.
Proof.
  revert freed s. induction rids as [|rid rids IH]; intros freed s Hs; cbn [unload_each]; [done|].
  destruct (match need with Some n => _ | None => _ end); [done|]. cbv zeta. apply IH.
  destruct (unload_spec rid device s). eapply safe_unplaced; [done|done| |exact Hs]. apply unload_called.
Qed.
End safety.

(** * Every operation keeps the invariant *)

Section reachability.
Context {W : Type} `{Backend W}.
Hypothesis uuid_inj : Inj (=) (=) uuid.
#[local] Notation ok := (pool_ok uuid).
Implicit Types (s : @state W).

Inductive step : @state W -> @state W -> Prop :=
| StepAdmit stack o s : step s (rid_for stack o s).2
| StepGet stack rid s : step s (get stack rid s).2
| StepLabel stack o name s : step s (label stack o name s).2
| StepPlace o b s : step s (put_pool s (set_loaded (pool s) o b))
| StepRemove rid s : step s (put_pool s (remove (pool s) rid))
| StepInvalidator i s : step s (register_invalidator i s).2
| StepPins k s : step s (register_pins k s).2
| StepObtain stack key s : step s (obtain_begin stack key s).2
| StepObtained stack key o n s : key ∈ loading (pool s) -> step s (obtain_finish stack key o n s).2
| StepObtainFailed key s : step s (obtain_fail key s).2
| StepReleaseResident o honor s : step s (release_resident o honor s).2
| StepRelease device cs s : step s (release device cs s).2
| StepReleaseFull cs s : step s (release_full cs s).2
| StepShed pressure s : step s (shed pressure s).2
| StepElsewhere rs w s : step s (mkState (pool s) rs w).

Lemma set_keyed_ok p k l : ok p -> (forall key rid, k !! key = Some rid -> is_Some (objects p !! rid) /\ key ∉ l) ->
  ok (set_keyed p k l).
Proof. intros [[L1 L2 L3] He Hu Ho Hk Hm Hpn] HK. by split. Qed.

Lemma stop_loading_ok key s : ok (pool s) -> ok (pool (stop_loading key s).2).
Proof.
  intros Hs. apply set_keyed_ok; [done|]. intros k rid Hk. destruct (po_keyed _ _ Hs k rid Hk). set_solver.
Qed.

Lemma recost_ok p rid e n : ok p -> entries p !! rid = Some e -> 0 <= n ->
  ok (set_entries p (<[rid := with_cost e (dict_set (cost e) "ram" n)]> (entries p)) (clock p)).
Proof.
  intros Hp He Hn. destruct (po_entries _ _ Hp rid e He) as (? & ? & Hc).
  destruct Hp as [[L1 L2 L3] Hen Hu Ho Hk Hm Hpn]. split; try done; cbn.
  - intros r x. rewrite lookup_insert_Some. intros [[<- <-]|[_ Hx]]; [|by apply Hen]. split; [done|]. split; [done|].
    cbn. apply Forall_forall. intros kv [->|Hkv]%dict_set_elem; [done|]. rewrite Forall_forall in Hc. by apply Hc.
  - intros a b x y. rewrite !lookup_insert_Some. intros [[<- <-]|[Ha Hx]] [[<- <-]|[Hb Hy]]; cbn; eauto.
Qed.

Lemma obtain_begin_ok stack key s : ok (pool s) -> ok (pool (obtain_begin stack key s).2).
Proof using uuid_inj.
  intros Hs. unfold obtain_begin, get_pool, mbind, M_bind. cbv beta iota.
  destruct (keyed (pool s) !! key) as [rid|] eqn:Ek.
  - destruct (get_uses uuid_inj stack rid s Hs) as (Hok & _). by destruct (get stack rid s) as [[] s'].
  - case_decide; [done|]. cbn. apply set_keyed_ok; [done|]. intros k rid Hk.
    destruct (po_keyed _ _ Hs k rid Hk). split; [done|]. assert (k <> key) by congruence. set_solver.
Qed.

Lemma or_stop_ok {A} key (m : @M W A) s :
  ok (pool (m s).2) -> ok (pool (or_stop key m s).2).
Proof. unfold or_stop. intros Hm. destruct (m s) as [[a|e] s']; [done|]. by apply stop_loading_ok. Qed.

Lemma bind_state {A B} (m : @M W A) (k : A -> @M W B) s (P : @state W -> Prop) :
  P (m s).2 -> (forall a s', m s = (Ok a, s') -> P (k a s').2) -> P ((m ≫= k) s).2.
Proof. unfold mbind, M_bind. destruct (m s) as [[a|e] s']; cbn; eauto. Qed.

Lemma obtain_finish_ok stack key o n s : ok (pool s) -> ok (pool (obtain_finish stack key o n s).2).
Proof using uuid_inj.
  intros Hs. apply or_stop_ok.
  destruct (n <? 0) eqn:En; [done|]. cbn [raise_if]. apply Z.ltb_ge in En.
  apply (bind_state (lift (Ok ())) _ s (fun s => ok (pool s))); [done|]. intros [] s0 [= <-].
  destruct (rid_for_uses uuid_inj stack o s Hs) as (Hok1 & _ & _ & _ & Hr1).
  apply (bind_state (rid_for stack o) _ s (fun s => ok (pool s))); [done|]. intros rid s1 E1. rewrite E1 in *. cbn [fst snd] in *.
  specialize (Hr1 rid eq_refl).
  apply (bind_state (owners_of o) _ s1 (fun s => ok (pool s))); [done|]. intros owners s2 [= Eo <-].
  destruct (rid_for_uses uuid_inj stack (default o (head owners)) s1 Hok1) as (Hok2 & Hg2 & _ & _ & _).
  apply (bind_state (rid_for stack (default o (head owners))) _ s1 (fun s => ok (pool s))); [done|].
  intros owner_rid s3 E3. rewrite E3 in *. cbn [fst snd] in *.
  apply (bind_state get_pool _ s3 (fun s => ok (pool s))); [done|]. intros p s4 [= <- <-].
  destruct (entries (pool s3) !! owner_rid) as [e|] eqn:Ee; [|done].
  assert (ok (set_keyed (set_entries (pool s3) (<[owner_rid := with_cost e (dict_set (cost e) "ram" n)]> (entries (pool s3))) (clock (pool s3)))
               (<[key := rid]> (keyed (pool s3))) (loading (pool s3) ∖ {[key]}))) as Hfinal.
  { apply set_keyed_ok; [by apply recost_ok|]. intros k r. rewrite lookup_insert_Some. intros [[<- <-]|[Hne Hk]].
    - split; [|set_solver]. exists o. exact (resolves_grows o rid _ _ Hg2 Hr1).
    - destruct (po_keyed _ _ Hok2 k r Hk). split; [done|set_solver]. }
  apply (bind_state (modify _) _ s3 (fun s => ok (pool s))); [exact Hfinal|]. intros [] s5 [= <-]. exact Hfinal.
Qed.

Lemma release_entry_ok strict honor rid device s : ok (pool s) -> ok (pool (release_entry strict honor rid device s).2).
Proof using uuid_inj.
  intros Hs. pose proof (release_entry_spec strict honor rid device s Hs) as Hout.
  destruct (release_entry strict honor rid device s) as [r s']. cbn in *. by inversion Hout; subst.
Qed.

Lemma pool_release_ok device cs s : ok (pool s) -> ok (pool (release device cs s).2).
Proof using uuid_inj.
  revert s. induction cs as [|c cs IH]; intros s Hs; cbn [release]; [done|].
  destruct (still_valid (pool s) c); [|by apply IH]. cbn [snd]. by apply IH, release_entry_ok.
Qed.

Lemma release_each_ok cs s : ok (pool s) -> ok (pool (release_each cs s).2).
Proof using uuid_inj.
  revert s. induction cs as [|c cs IH]; intros s Hs; cbn [release_each]; [done|].
  destruct (still_valid (pool s) c); [|by apply IH].
  pose proof (IH _ (release_entry_ok true true (item_id c) "ram" s Hs)) as Hrest.
  by destruct (release_entry true true (item_id c) "ram" s).1.
Qed.

Lemma unload_each_unplaced device need freed rids s :
  unplaced (pool (unload_each device need freed rids s).2) = unplaced (pool s).
Proof.
  revert freed s. induction rids as [|rid rids IH]; intros freed s; cbn [unload_each]; [done|].
  destruct (match need with Some n => _ | None => _ end); [done|]. cbv zeta. rewrite IH. apply unload_spec.
Qed.

Lemma step_keeps_ok s s' : ok (pool s) -> step s s' -> ok (pool s').
Proof using uuid_inj.
  intros Hs Hstep. destruct Hstep; cbn [put_pool pool].
  - by apply rid_for_uses.
  - by apply get_uses.
  - by apply label_uses.
  - eapply unplaced_ok; [|exact Hs]. by rewrite set_loaded_unplaced.
  - by apply pool_remove_ok.
  - by apply (register_ok uuid); [|apply (po_pins uuid)].
  - cbn. case_decide as Hin; [done|]. apply (register_ok uuid); [done|]. apply NoDup_app.
    split; [by apply (po_pins uuid)|]. split; [|apply NoDup_singleton]. by intros x Hx ->%list_elem_of_singleton.
  - by apply obtain_begin_ok.
  - by apply obtain_finish_ok.
  - by apply stop_loading_ok.
  - unfold release_resident. destruct (ids_by_identity (pool s) !! o); [|done]. case_decide; [|done]. by apply release_entry_ok.
  - by apply pool_release_ok.
  - unfold release_full. cbn. by apply release_each_ok.
  - unfold shed. cbv zeta. destruct (is_vram (p_device pressure)); [|by apply pool_release_ok].
    destruct (p_items pressure); (eapply unplaced_ok; [symmetry; apply unload_each_unplaced|exact Hs]).
  - done.
Qed.

Lemma new_pool_ok : ok new_pool.
Proof.
  split; cbn; try done.
  - intros rid [o Ho]. by rewrite lookup_empty in Ho.
  - constructor.
Qed.
End reachability.

(** * The use clock *)

Section clock.
Context {W : Type} `{Backend W}.
Hypothesis uuid_inj : Inj (=) (=) uuid.
#[local] Notation ok := (pool_ok uuid).
Implicit Types (s : @state W).

(** Time only moves on. *)
Definition later (p q : ResidentPool) : Prop := clock p <= clock q /\ uses_later p q.

#[export] Instance later_preorder : PreOrder later.
Proof.
  split; [intros p; split; [lia|apply uses_later_refl]|].
  intros p q r [H1 H2] [H3 H4]. split; [lia|by eapply uses_later_trans].
Qed.

Lemma grows_later p q : grows p q -> later p q.
Proof. intros Hg. split; [apply (gr_clock _ _ Hg)|apply (gr_uses _ _ Hg)]. Qed.

Lemma later_same p q : entries q = entries p -> clock q = clock p -> later p q.
Proof. intros He Hc. split; [lia|]. intros rid e. rewrite He. intros Hr. right. by exists e. Qed.

Lemma core_later p q : core p = core q -> later p q.
Proof.
  intros Hc. destruct (core_fields _ _ (eq_sym Hc)) as (_ & _ & _ & Ec & _ & _ & Hent). split; [lia|].
  apply uses_later_same. intros rid e He. destruct (Hent rid e He) as (e' & He' & Heq). exists e'. split; [done|]. by injection Heq.
Qed.

Lemma without_later T p : later p (without T p).
Proof. split; [done|]. apply uses_later_same. intros rid e [_ He]%entries_without. eauto. Qed.

Lemma release_entry_later strict honor rid device s : ok (pool s) ->
  later (pool s) (pool (release_entry strict honor rid device s).2).
Proof using uuid_inj.
  intros Hs. pose proof (release_entry_spec strict honor rid device s Hs) as Hout.
  destruct (release_entry strict honor rid device s) as [r s']. cbn in *.
  inversion Hout as [Ha|fs s0 w Hcore|e T s0 w He HT Hcore]; subst; [done|by apply core_later|].
  etrans; [apply (without_later T)|]. apply core_later. by rewrite core_without.
Qed.

Lemma release_later device cs s : ok (pool s) -> later (pool s) (pool (release device cs s).2).
Proof using uuid_inj.
  revert s. induction cs as [|c cs IH]; intros s Hs; cbn [release]; [done|].
  destruct (still_valid (pool s) c); [|by apply IH]. cbn [snd].
  etrans; [by apply (release_entry_later false true (item_id c) device)|]. by apply IH, release_entry_ok.
Qed.

Lemma release_each_later cs s : ok (pool s) -> later (pool s) (pool (release_each cs s).2).
Proof using uuid_inj.
  revert s. induction cs as [|c cs IH]; intros s Hs; cbn [release_each]; [done|].
  destruct (still_valid (pool s) c); [|by apply IH].
  assert (later (pool s) (pool (release_each cs (release_entry true true (item_id c) "ram" s).2).2)) as Hrest.
  { etrans; [by apply (release_entry_later true true (item_id c) "ram")|]. by apply IH, release_entry_ok. }
  by destruct (release_entry true true (item_id c) "ram" s).1.
Qed.

Lemma or_stop_later {A} key (m : @M W A) s p : later p (pool (m s).2) -> later p (pool (or_stop key m s).2).
Proof. unfold or_stop. by destruct (m s) as [[a|e] s']. Qed.

Lemma obtain_finish_later stack key o n s : ok (pool s) -> later (pool s) (pool (obtain_finish stack key o n s).2).
Proof using uuid_inj.
  intros Hs. apply or_stop_later.
  destruct (n <? 0); [done|]. cbn [raise_if].
  apply (bind_state (lift (Ok ())) _ s (fun s' => later (pool s) (pool s'))); [done|]. intros [] s0 [= <-].
  destruct (rid_for_uses uuid_inj stack o s Hs) as (Hok1 & Hg1 & _).
  apply (bind_state (rid_for stack o) _ s (fun s' => later (pool s) (pool s'))); [by apply grows_later|].
  intros rid s1 E1. rewrite E1 in *. cbn [fst snd] in *.
  apply (bind_state (owners_of o) _ s1 (fun s' => later (pool s) (pool s'))); [by apply grows_later|]. intros owners s2 [= _ <-].
  destruct (rid_for_uses uuid_inj stack (default o (head owners)) s1 Hok1) as (Hok2 & Hg2 & _).
  assert (later (pool s) (pool (rid_for stack (default o (head owners)) s1).2)) as Hl by (etrans; by apply grows_later).
  apply (bind_state (rid_for stack (default o (head owners))) _ s1 (fun s' => later (pool s) (pool s'))); [done|].
  intros owner_rid s3 E3. rewrite E3 in *. cbn [fst snd] in *.
  apply (bind_state get_pool _ s3 (fun s' => later (pool s) (pool s'))); [done|]. intros p s4 [= <- <-].
  destruct (entries (pool s3) !! owner_rid) as [e|] eqn:Ee; [|done].
  assert (later (pool s3) (set_keyed (set_entries (pool s3) (<[owner_rid := with_cost e (dict_set (cost e) "ram" n)]> (entries (pool s3))) (clock (pool s3)))
               (<[key := rid]> (keyed (pool s3))) (loading (pool s3) ∖ {[key]}))) as Hfinal.
  { split; [cbn; lia|]. apply uses_later_same. intros r x. cbn. rewrite lookup_insert_Some. intros [[<- <-]|[_ Hx]]; eauto. }
  apply (bind_state (modify _) _ s3 (fun s' => later (pool s) (pool s'))); [by etrans|]. intros [] s5 [= <-]. by etrans.
Qed.

Lemma step_later s s' : ok (pool s) -> step s s' -> later (pool s) (pool s').
Proof using uuid_inj.
  intros Hs Hstep. destruct Hstep; cbn [put_pool pool].
  - apply grows_later. by apply (rid_for_uses uuid_inj).
  - apply grows_later. by apply (get_uses uuid_inj).
  - apply grows_later. by apply (label_uses uuid_inj).
  - apply core_later, core_unplaced. by rewrite set_loaded_unplaced.
  - destruct (remove_spec uuid (pool s) rid Hs) as (T & -> & _). apply without_later.
  - by apply later_same.
  - cbn. case_decide; by apply later_same.
  - unfold obtain_begin. apply (bind_state get_pool _ s (fun s' => later (pool s) (pool s'))); [done|]. intros p s1 [= <- <-].
    destruct (keyed (pool s) !! key) as [rid|]; [|case_decide; by apply later_same].
    apply (bind_state (get stack rid) _ s (fun s' => later (pool s) (pool s'))).
    + apply grows_later. by apply (get_uses uuid_inj).
    + intros o s1 E1. destruct (get_uses uuid_inj stack rid s Hs) as (_ & Hg & _). rewrite E1 in Hg. by apply grows_later.
  - by apply obtain_finish_later.
  - by apply later_same.
  - unfold release_resident. destruct (ids_by_identity (pool s) !! o); [|done]. case_decide; [|done]. by apply release_entry_later.
  - by apply release_later.
  - unfold release_full. cbn. by apply release_each_later.
  - unfold shed. cbv zeta. destruct (is_vram (p_device pressure)); [|by apply release_later].
    destruct (p_items pressure); apply core_later, core_unplaced; symmetry; apply unload_each_unplaced.
  - done.
Qed.

Lemma steps_ok_later s s' : ok (pool s) -> star step s s' -> ok (pool s') /\ later (pool s) (pool s').
Proof using uuid_inj.
  intros Hs Hstar. induction Hstar as [s|s1 s2 s3 H12 _ IH]; [done|].
  pose proof (step_keeps_ok uuid_inj _ _ Hs H12) as H2. destruct (IH H2) as [H3 Hl]. split; [done|].
  etrans; [by apply (step_later s1 s2)|done].
Qed.

(** A candidate carries its resident's clock reading. *)
Lemma claim_proposed p device need claimed rids c : c ∈ claim p device need claimed rids ->
  exists e, entries p !! item_id c = Some e /\ token c = pretty (last_used e).
Proof.
  revert claimed. induction rids as [|rid rids IH]; intros claimed; cbn [claim]; [by intros ?%not_elem_of_nil|].
  destruct (match need with Some n => _ | None => _ end); [by intros ?%not_elem_of_nil|].
  destruct (entries p !! rid) as [e|] eqn:E; [|by intros ?%not_elem_of_nil].
  intros [->|Hc]%elem_of_cons; [by exists e|by eapply IH].
Qed.

Definition proposed (p : ResidentPool) (c : ReleaseCandidate) : Prop :=
  c ∈ propose_full_release p \/ exists pressure, c ∈ propose_release p pressure.

Lemma proposed_token p c : proposed p c -> exists e, entries p !! item_id c = Some e /\ token c = pretty (last_used e).
Proof.
  intros [Hc|[pressure Hc]]; [by eapply claim_proposed|]. unfold propose_release in Hc.
  destruct (is_vram (p_device pressure)); [by apply not_elem_of_nil in Hc|].
  destruct (p_items pressure); by eapply claim_proposed.
Qed.

(** A stale decision never destroys fresh state: whatever happens to the
    pool between a proposal and its release, a candidate still counts exactly
    if its resident has not been used in between, and the release passes over
    it otherwise. *)
Theorem used_residents_are_not_released s s' c e' device :
  ok (pool s) -> proposed (pool s) c -> star step s s' -> entries (pool s') !! item_id c = Some e' ->
  (still_valid (pool s') c = true <-> last_used e' < clock (pool s))
  /\ (clock (pool s) <= last_used e' -> release device [c] s' = ([], s')).
Proof using uuid_inj.
  intros Hs (e & He & Htok)%proposed_token Hstar He'.
  destruct (steps_ok_later s s' Hs Hstar) as [_ [_ Hlater]].
  assert (still_valid (pool s') c = true <-> last_used e' < clock (pool s)) as Hiff.
  { unfold still_valid. rewrite He', Htok, String.eqb_eq. split.
    - intros Heq%(inj pretty). rewrite Heq. by apply (po_entries _ _ Hs _ _ He).
    - intros Hlt. destruct (Hlater _ _ He') as [|(e0 & He0 & Heq)]; [lia|]. rewrite He in He0. injection He0 as <-.
      by rewrite Heq. }
  split; [done|]. intros Hge. cbn [release]. destruct (still_valid (pool s') c); [|done].
  assert (last_used e' < clock (pool s)) by (by apply Hiff). lia.
Qed.
End clock.

(** * Bytes *)

Section bytes.
Context {W : Type} `{Backend W}.
Hypothesis uuid_inj : Inj (=) (=) uuid.
#[local] Notation ok := (pool_ok uuid).
Implicit Types (s : @state W).

Definition entries_bytes (device : string) (m : gmap string PoolEntry) : Z :=
  zsum ((fun kv => entry_bytes device kv.2) <$> map_to_list m).

Lemma cost_get_nonneg e device : Forall (fun kv => 0 <= kv.2) (cost e) -> 0 <= cost_get e device.
Proof.
  intros Hc. unfold cost_get. destruct (dict_get (cost e) device) as [n|] eqn:E; cbn; [|lia].
  apply dict_get_elem in E. rewrite Forall_forall in Hc. by apply (Hc (device, n)).
Qed.

Lemma entry_bytes_nonneg e device : Forall (fun kv => 0 <= kv.2) (cost e) -> 0 <= entry_bytes device e.
Proof. intros Hc. unfold entry_bytes. destruct (_ && _); [lia|by apply cost_get_nonneg]. Qed.

Lemma entries_bytes_insert device m rid e : m !! rid = None ->
  entries_bytes device (<[rid := e]> m) = entry_bytes device e + entries_bytes device m.
Proof. intros Hm. unfold entries_bytes. by rewrite (map_to_list_insert m rid e Hm). Qed.

Lemma entries_bytes_delete device m rid e : m !! rid = Some e ->
  entries_bytes device m = entry_bytes device e + entries_bytes device (delete rid m).
Proof.
  intros Hm. rewrite <- (entries_bytes_insert device (delete rid m) rid e) by apply lookup_delete_eq.
  by rewrite insert_delete_id.
Qed.

Lemma entries_bytes_sub device m1 m2 :
  (forall rid e, m2 !! rid = Some e -> 0 <= entry_bytes device e) ->
  (forall rid e, m1 !! rid = Some e -> exists e', m2 !! rid = Some e' /\ entry_bytes device e = entry_bytes device e') ->
  entries_bytes device m1 <= entries_bytes device m2.
Proof.
  revert m2. induction m1 as [|rid e m1 Hm IH] using map_ind; intros m2 Hpos Hsub.
  - unfold entries_bytes. rewrite map_to_list_empty. cbn. apply zsum_nonneg, Forall_fmap, Forall_forall.
    intros [k e] Hk%elem_of_map_to_list. by apply (Hpos k).
  - destruct (Hsub rid e) as (e' & He' & Heq); [apply lookup_insert_eq|].
    rewrite entries_bytes_insert by done. rewrite (entries_bytes_delete device m2 rid e' He'), Heq.
    apply Z.add_le_mono_l, IH.
    + intros r x Hx%lookup_delete_Some. by eapply Hpos, Hx.
    + intros r x Hx. assert (r <> rid) by congruence. destruct (Hsub r x) as (x' & Hx' & ?); [by rewrite lookup_insert_ne|].
      exists x'. split; [by rewrite lookup_delete_ne|done].
Qed.

Lemma host_bytes device e e' : is_vram device = false -> with_loaded e' false = with_loaded e false ->
  entry_bytes device e' = entry_bytes device e.
Proof. intros Hv [= Hc _ _]. unfold entry_bytes, cost_get. rewrite Hv. cbn. by rewrite Hc. Qed.

Lemma footprint_core p q device : ok p -> ok q -> is_vram device = false -> core p = core q ->
  footprint p device = footprint q device.
Proof.
  intros Hp Hq Hv Hc.
  assert (forall a b, ok b -> core a = core b -> footprint a device <= footprint b device) as Hle.
  { intros a b Hb Hab. apply entries_bytes_sub.
    - intros rid e He. by apply entry_bytes_nonneg, (po_entries _ _ Hb rid).
    - intros rid e He. destruct (core_fields _ _ Hab) as (_ & _ & _ & _ & _ & _ & Hent).
      destruct (Hent rid e He) as (e' & He' & Heq). exists e'. split; [done|]. symmetry. by apply host_bytes. }
  pose proof (Hle p q Hq Hc). pose proof (Hle q p Hp (eq_sym Hc)). lia.
Qed.

Lemma footprint_without p T rid e device : ok p -> entries p !! rid = Some e -> rid ∈ T ->
  footprint (without T p) device <= footprint p device - entry_bytes device e.
Proof.
  intros Hp He HT. unfold footprint. fold (entries_bytes device (entries p)).
  rewrite (entries_bytes_delete device _ rid e He).
  assert (entries_bytes device (entries (without T p)) <= entries_bytes device (delete rid (entries p))).
  { apply entries_bytes_sub.
    - intros r x [_ Hx]%lookup_delete_Some. by apply entry_bytes_nonneg, (po_entries _ _ Hp r).
    - intros r x [Hr Hx]%entries_without. exists x. split; [|done]. rewrite lookup_delete_ne; [done|]. by intros ->. }
  unfold entries_bytes in *. lia.
Qed.

Lemma release_entry_bytes strict rid device s r s' : ok (pool s) -> is_vram device = false ->
  release_entry strict true rid device s = (r, s') ->
  match r with
  | Freed n => 0 <= n /\ footprint (pool s') device <= footprint (pool s) device - n
  | Refused _ => footprint (pool s') device = footprint (pool s) device
  end.
Proof using uuid_inj.
  intros Hs Hv Hr. pose proof (release_entry_spec strict true rid device s Hs) as Hout. rewrite Hr in Hout. cbn in Hout.
  inversion Hout as [Ha|fs s0 w Hcore Hok|e T s0 w He HT Hcore Hok]; subst; [done|by apply footprint_core|].
  destruct (po_entries _ _ Hs rid e He) as (_ & _ & Hcost). split; [by apply cost_get_nonneg|].
  assert (ok (without T (pool s))) as Hok' by (apply without_ok; [done|]; by eapply tree_closed).
  rewrite (footprint_core (pool s') (without T (pool s))) by (done || by rewrite core_without).
  assert (rid ∈ T) as HrT by (by apply HT).
  pose proof (footprint_without (pool s) T rid e device Hs He HrT) as Hle.
  unfold entry_bytes in Hle. rewrite Hv in Hle. exact Hle.
Qed.

Lemma release_bytes device cs s : ok (pool s) -> is_vram device = false ->
  0 <= zsum ((release device cs s).1.*2)
  /\ footprint (pool (release device cs s).2) device <= footprint (pool s) device - zsum ((release device cs s).1.*2).
Proof using uuid_inj.
  revert s. induction cs as [|c cs IH]; intros s Hs Hv; cbn [release]; [cbn; lia|].
  destruct (still_valid (pool s) c); [|by apply IH].
  pose proof (release_entry_ok uuid_inj false true (item_id c) device s Hs) as Hok.
  destruct (release_entry false true (item_id c) device s) as [r s'] eqn:E. cbn [fst snd] in *.
  pose proof (release_entry_bytes false (item_id c) device s r s' Hs Hv E) as Hb.
  destruct (IH s' Hok Hv) as [I1 I2]. destruct r as [n|fs]; cbn in *; lia.
Qed.

(** A backend whose unload callback reports no placements of its own. *)
Definition quiet : Prop := forall f w o, unload = Some f -> placed (f w o) = [].

Lemma unload_bytes rid device s : quiet -> is_vram device = true -> ok (pool s) ->
  let u := unload_entry rid device s in
  0 <= u.1.1 /\ footprint (pool u.2) device = footprint (pool s) device - u.1.1 /\ ok (pool u.2).
Proof.
  intros Hq Hv Hs. cbn zeta.
  assert (ok (pool (unload_entry rid device s).2)) as Hok'.
  { eapply unplaced_ok; [symmetry; apply unload_spec|done]. }
  assert (0 <= (unload_entry rid device s).1.1
    /\ footprint (pool (unload_entry rid device s).2) device = footprint (pool s) device - (unload_entry rid device s).1.1) as [? ?]; [|done].
  clear Hok'. unfold unload_entry. destruct (entries (pool s) !! rid) as [e|] eqn:Ee; [|cbn; lia].
  destruct (loaded e) eqn:El; [|cbn; lia]. cbn [negb].
  destruct (objects (pool s) !! rid) as [o|]; [|cbn; lia].
  assert (forall s', pool s' = pool s -> 0 <= cost_get e device
    /\ footprint (pool (mark_unloaded rid s')) device = footprint (pool s) device - cost_get e device) as Hm.
  { intros s' Hs'. split; [by apply cost_get_nonneg, (po_entries _ _ Hs rid)|]. unfold mark_unloaded. rewrite Hs', Ee.
    unfold footprint. cbn. fold (entries_bytes device (entries (pool s))).
    fold (entries_bytes device (<[rid := with_loaded e false]> (entries (pool s)))).
    rewrite (entries_bytes_delete device _ rid e Ee), (entries_bytes_delete device (<[rid := _]> _) rid (with_loaded e false)) by apply lookup_insert_eq.
    rewrite delete_insert_eq. unfold entry_bytes. rewrite Hv, El. cbn. lia. }
  destruct unload as [f|] eqn:Ef; [|by apply Hm]. cbv zeta.
  assert (pool (run_call (f (world s) o) s) = pool s) as Hrun.
  { unfold run_call. cbn. by rewrite (Hq f (world s) o Ef). }
  destruct (raised _); cbn [fst snd]; [rewrite Hrun; lia|by apply Hm].
Qed.

Lemma unload_each_bytes device need freed rids s : quiet -> is_vram device = true -> ok (pool s) ->
  freed <= (unload_each device need freed rids s).1
  /\ footprint (pool (unload_each device need freed rids s).2) device
     = footprint (pool s) device - ((unload_each device need freed rids s).1 - freed).
Proof.
  intros Hq Hv. revert freed s. induction rids as [|rid rids IH]; intros freed s Hs; cbn [unload_each]; [cbn; lia|].
  destruct (match need with Some n => _ | None => _ end); [cbn; lia|]. cbv zeta.
  destruct (unload_bytes rid device s Hq Hv Hs) as (U1 & U2 & U3).
  destruct (IH (freed + (unload_entry rid device s).1.1) _ U3) as [I1 I2]. lia.
Qed.

(** A shed claims no byte it has not freed: on a host lane the footprint
    falls by at least what it answers, on a device lane by exactly that, as
    long as the unload callback moves nothing else. *)
Theorem resident_shed_is_backed pressure s : ok (pool s) -> quiet ->
  let device := p_device pressure in
  let freed := (shed pressure s).1 in
  0 <= freed
  /\ footprint (pool (shed pressure s).2) device <= footprint (pool s) device - freed
  /\ (is_vram device = true -> footprint (pool (shed pressure s).2) device = footprint (pool s) device - freed).
Proof using uuid_inj.
  intros Hs Hq. cbv zeta. unfold shed. cbv zeta. destruct (is_vram (p_device pressure)) eqn:Hv.
  - destruct (p_items pressure) as [items|].
    + destruct (unload_each_bytes (p_device pressure) None 0 (present (pool s) items) s Hq Hv Hs) as [U1 U2]. lia.
    + destruct (unload_each_bytes (p_device pressure) (Some (bytes_needed pressure)) 0
        (least_recent (fun e => (0 <? cost_get e (p_device pressure)) && loaded e) (pool s)) s Hq Hv Hs) as [U1 U2]. lia.
  - destruct (release_bytes (p_device pressure) (propose_release (pool s) pressure) s Hs Hv) as [R1 R2]. done.
Qed.
End bytes.

(** * Properties *)

Section properties.
Context {W : Type} `{Holders W}.
Hypothesis uuid_inj : Inj (=) (=) uuid.

(** Whatever is admitted, used, loaded, released and shed, in any order and
    with any backend and caches, the pool's tables agree: an object has one id
    and an id one object, every entry, owner, dependent and loading key refers
    to a resident, owners and dependents mirror each other, and no two residents
    share a reading of the use clock. *)
Theorem pool_stays_consistent rs (w : W) (s : @state W) :
  star step (mkState new_pool rs w) s -> pool_ok uuid (pool s).
Proof using uuid_inj. intros Hs. by apply (steps_ok_later uuid_inj (mkState new_pool rs w) s new_pool_ok). Qed.

(** C28: No reference dangles: as long as the residents declare all their
    owners and runs pin what they hold, a release or a shed - taken, refused
    half way, or failing in a cache or the backend - leaves every envelope that
    a registered cache or run still holds with a resident to resolve to. *)
Theorem held_references_resolve (runs : N -> list envelope) (s s' : @state W) :
  safe runs s ->
  (exists device cs, s' = (release device cs s).2) \/ (exists cs, s' = (release_full cs s).2)
  \/ (exists pressure, s' = (shed pressure s).2) \/ (exists o, s' = (release_resident o true s).2) ->
  safe runs s' /\ forall e, referenced runs s' e -> is_Some (objects (pool s') !! env_rid e).
Proof using uuid_inj.
  intros Hs Hcases. assert (safe runs s') as Hs'; [|split; [done|]; intros e He; by apply (sf_sound _ _ Hs')].
  destruct Hcases as [(device & cs & ->)|[(cs & ->)|[(pressure & ->)|(o & ->)]]].
  - by apply release_safe.
  - by apply release_each_safe.
  - unfold shed. cbv zeta. destruct (is_vram (p_device pressure)); [|by apply release_safe].
    destruct (p_items pressure); by apply unload_each_safe.
  - unfold release_resident. destruct (ids_by_identity (pool s) !! o); [|done]. case_decide; [|done].
    by apply release_entry_safe.
Qed.

(** Removing a resident takes exactly its dependents along, at any depth
    and even around a cycle: nothing of them is left in any table, and
    everyone else is untouched. *)
Theorem removal_takes_the_dependents p rid x : pool_ok uuid p ->
  let q := remove p rid in
  (rtc (depends p) rid x -> objects q !! x = None /\ entries q !! x = None /\ dependent_owners q !! x = None
     /\ owner_dependents q !! x = None /\ (forall key, keyed q !! key <> Some x) /\ (forall o, ~ depends q o x))
  /\ (~ rtc (depends p) rid x -> objects q !! x = objects p !! x /\ entries q !! x = entries p !! x
     /\ dependent_owners q !! x = dependent_owners p !! x).
Proof.
  intros Hp. cbv zeta. destruct (remove_spec uuid p rid Hp) as (T & -> & HT). split.
  - intros Hx%HT. unfold without. cbn. rewrite !lookup_filter_key, lookup_omap, lookup_filter_key, !decide_True by done.
    repeat (split; [done|]). split.
    + intros key [_ Hk]%map_lookup_filter_Some. done.
    + intros o (_ & Hn & _)%dependents_without. done.
  - intros Hx. assert (x ∉ T) by (by rewrite HT). unfold without. cbn. by rewrite !lookup_filter_key, !decide_False by done.
Qed.
End properties.

(** * Examples *)

(** Objects whose owners are given, and caches that hold envelopes. *)
Record demo_world := mkDemo { d_owner : gmap N N; d_refs : gmap N (list N); d_caches : gmap N (list envelope) }.

#[export] Instance demo_backend : Backend demo_world := {|
  owner_of w o := match d_owner w !! o with Some p => OwnerIs p | None => OwnerAbsent end;
  refs_of w o := match d_refs w !! o with Some l => RefsTuple (Some <$> l) | None => RefsAbsent end;
  cost_of := Some (fun _ o => Some [("cost", VDict [(VStr "ram", VInt (10 * Z.of_N o)); (VStr "vram:0", VInt 5)])]);
  unload := Some (fun w _ => mkCall false false [] w);
  terminal_release := None;
  alive w h := bool_decide (is_Some (d_caches w !! h));
  invalidate w h r := (false, mkDemo (d_owner w) (d_refs w) (alter (filter (fun e => r ∉ env_names e)) h (d_caches w)));
  uuid n := pretty n
|}.

#[export] Instance demo_uuid_inj : Inj (=) (=) (uuid (W := demo_world)).
Proof. intros a b Hab. by apply (inj pretty) in Hab. Qed.

#[export] Instance demo_holders : Holders demo_world.
Proof.
  refine {| held w h e := e ∈ default [] (d_caches w !! h) |}.
  - intros w h r e _. cbn. rewrite lookup_alter_eq. destruct (d_caches w !! h) as [l|]; cbn; [|by intros ?%not_elem_of_nil].
    by rewrite list_elem_of_filter; intros [? _].
  - intros w h r h' e. cbn. destruct (decide (h = h')) as [->|]; [|by rewrite lookup_alter_ne].
    rewrite lookup_alter_eq. destruct (d_caches w !! h') as [l|]; cbn; [|done]. by rewrite list_elem_of_filter; intros [_ ?].
  - by intros f w o h e [= <-].
  - done.
  - intros w h e. cbn. destruct (d_caches w !! h) as [l|]; [|by intros _ ?%not_elem_of_nil].
    rewrite bool_decide_true by (by eexists). done.
Defined.

Definition demo_start (w : demo_world) : state := mkState new_pool ∅ w.
Definition after_steps (fs : list (@state demo_world -> @state demo_world)) (w : demo_world) : state :=
  foldl (fun s f => f s) (demo_start w) fs.

Definition enter_pool (o : N) (s : @state demo_world) : state := (rid_for 8 o s).2.
Definition watch (h : N) (s : @state demo_world) : state := (register_invalidator (Strong h) s).2.
Definition become (w : demo_world) (s : @state demo_world) : state := mkState (pool s) (registries s) w.

(** Object 2 belongs to object 1; cache 7 holds a reference to object 2. *)
Definition demo_held : demo_world :=
  mkDemo {[2%N := 1%N]} ∅ {[7%N := [mkEnvelope "0" {["resident:1"]}]]}.
Definition demo_state : @state demo_world := after_steps [enter_pool 2; watch 7] demo_held.

Lemma demo_steps : star step (demo_start demo_held) demo_state.
Proof.
  eapply star_step; [apply (StepAdmit 8 2)|]. eapply star_step; [apply (StepInvalidator (Strong 7))|]. apply star_refl.
Qed.

Lemma pool_stays_consistent_witness : pool_ok uuid (pool demo_state).
Proof. apply (pool_stays_consistent demo_uuid_inj ∅ demo_held). exact demo_steps. Defined.

Lemma demo_ok : pool_ok uuid (pool demo_state).
Proof. destruct (steps_ok_later demo_uuid_inj (demo_start demo_held) demo_state new_pool_ok demo_steps) as [? _]. done. Qed.

Lemma demo_owners : dependent_owners (pool demo_state) = {["0" := {["1"]}]}.
Proof. vm_compute. reflexivity. Qed.

Lemma demo_owner a b : b ∈ owners_in (pool demo_state) a -> a = "0" /\ b = "1".
Proof.
  unfold owners_in. rewrite demo_owners. destruct (decide (a = "0")) as [->|Ha].
  - rewrite lookup_singleton_eq. cbn. set_solver.
  - rewrite lookup_singleton_ne by done. cbn. set_solver.
Qed.

Lemma demo_safe : safe (fun _ => []) demo_state.
Proof.
  split; [exact demo_ok| |by intros k p e n _ ?%not_elem_of_nil|].
  - intros a b c [-> ->]%demo_owner [Hb _]%demo_owner. done.
  - intros e [(i & Hi & He)|(k & _ & _ & He)]; [|by apply not_elem_of_nil in He].
    apply list_elem_of_singleton in Hi as ->. cbn in He. apply list_elem_of_singleton in He as ->.
    split; [vm_compute; by eexists|]. split.
    + intros o [_ ->]%demo_owner. set_solver.
    + intros [x Hx]. vm_compute in Hx. discriminate Hx.
Qed.

Lemma held_references_resolve_witness :
  let s' := (release_resident 1 true demo_state).2 in
  (release_resident 1 true demo_state).1 = true /\ d_caches (world s') !! 7%N = Some []
  /\ forall e, referenced (fun _ => []) s' e -> is_Some (objects (pool s') !! env_rid e).
Proof.
  cbv zeta. split; [vm_compute; reflexivity|]. split; [vm_compute; reflexivity|].
  destruct (held_references_resolve demo_uuid_inj (fun _ => []) demo_state (release_resident 1 true demo_state).2) as [_ He].
  - exact demo_safe.
  - right. right. right. exists 1%N. reflexivity.
  - exact He.
Defined.

Lemma removal_takes_the_dependents_witness :
  objects (remove (pool demo_state) "1") !! "0" = None.
Proof.
  destruct (removal_takes_the_dependents (W := demo_world) (pool demo_state) "1" "0" demo_ok) as [Hx _].
  apply Hx. eapply rtc_l; [|apply rtc_refl]. unfold depends; apply (bool_decide_unpack _). vm_compute. exact I.
Defined.

(** Used again between the proposal and the release. *)
Lemma used_residents_are_not_released_witness :
  let c := default (mkCandidate "" "" 0 "") (head (propose_full_release (pool demo_state))) in
  let s' := enter_pool 1 demo_state in
  item_id c = "1" /\ release "ram" [c] s' = ([], s').
Proof.
  cbv zeta. split; [vm_compute; reflexivity|].
  destruct (used_residents_are_not_released demo_uuid_inj demo_state (enter_pool 1 demo_state)
    (default (mkCandidate "" "" 0 "") (head (propose_full_release (pool demo_state))))
    (mkEntry [("ram", 10); ("vram:0", 5)] None 2 true) "ram" demo_ok) as [_ Hrel].
  - left. vm_compute. left.
  - apply star_one. apply (StepAdmit 8 1).
  - vm_compute. reflexivity.
  - apply Hrel. vm_compute. discriminate.
Defined.

Lemma resident_shed_is_backed_witness :
  (shed (Build_PressureSignal "ram" 10 None) demo_state).1 = 10
  /\ footprint (pool (shed (Build_PressureSignal "ram" 10 None) demo_state).2) "ram" <= footprint (pool demo_state) "ram" - 10.
Proof.
  split; [vm_compute; reflexivity|].
  destruct (resident_shed_is_backed demo_uuid_inj (Build_PressureSignal "ram" 10 None) demo_state demo_ok) as (_ & Hb & _).
  - by intros f w o [= <-].
  - exact Hb.
Defined.

(** ** What the discipline is for *)

(** Object 3 belongs to 2 and 2 to 1: an envelope of 3 names only 2, so releasing
    1 leaves it in the cache, although 3 went with the tree. *)
Definition deep_world : demo_world :=
  mkDemo {[2%N := 1%N; 3%N := 2%N]} ∅ {[7%N := [mkEnvelope "0" {["resident:1"]}]]}.

Lemma deep_owner_dangles :
  let s := after_steps [enter_pool 3; watch 7] deep_world in
  let s' := (release_resident 1 true s).2 in
  ids_by_identity (pool s) !! 3%N = Some "0" /\ objects (pool s') !! "0" = None
  /\ d_caches (world s') !! 7%N = Some [mkEnvelope "0" {["resident:1"]}].
Proof. vm_compute. done. Qed.

(** Object 2 is its own and is encoded before it refers to object 1; the pool
    records the new owner without a word, and the older envelope names only 2. *)
Definition early_world : demo_world := mkDemo ∅ ∅ {[7%N := [mkEnvelope "0" {["resident:0"]}]]}.
Definition late_world : demo_world := mkDemo ∅ {[2%N := [1%N]]} {[7%N := [mkEnvelope "0" {["resident:0"]}]]}.

Lemma late_owner_dangles :
  let s := after_steps [enter_pool 2; watch 7; become late_world; enter_pool 2] early_world in
  let s' := (release_resident 1 true s).2 in
  (release_resident 1 true s).1 = true /\ objects (pool s') !! "0" = None
  /\ d_caches (world s') !! 7%N = Some [mkEnvelope "0" {["resident:0"]}].
Proof. vm_compute. done. Qed.

(** Naming a dependent raises KeyError, after admitting it. *)
Lemma label_of_dependent_raises :
  (label 8 2 "clip" (demo_start demo_held)).1 = Err NoEntry.
Proof. vm_compute. reflexivity. Qed.
