(* ===== verification/Sessions.v ===== *)
(** Sessions: collaborative document sessions (dinkster_collab/sessions.py)
    over their SQLite store (store.py).  A session is an append-only log of
    patches with a snapshot checkpoint; the server orders operations and never
    applies one.

    A method is a [method] over the service, whose state is the working set
    and the database; what it changed before it raised stays changed.  The
    database is its five tables with their keys; a transaction is a function
    that answers None when a key is violated, and [io] says whether it could
    be committed at all: when not, the method raises and the tables are as
    before.  JSON columns hold the JSON value. *)
From S2P Require Import Prelude PyStr.
From Stdlib Require Import SpecFloat.

Local Open Scope string_scope.
Local Open Scope Z_scope.
Local Open Scope list_scope.

(** * JSON at the boundary *)

Inductive session_error :=
| NotJson
| UnknownSession
| StaleBase (revision : Z)
| SnapshotRequired (revision snapshot_revision : Z)
| ResyncRequired (snapshot_revision : Z)
| ActorPrincipalMismatch
| ActorLimit
| RoleDenied
| NoSessionOwner
| InvalidSnapshot (problem : string)
| BadValue (what : string)
| RoleUnknown
| OpIdMissing
| StoreFailed
| IntegrityError
| OrphanRow.

Definition finite (f : spec_float) : bool :=
  match f with S754_zero _ | S754_finite _ _ _ => true | _ => false end.

Fixpoint normalize_json (v : pyval) : result session_error pyval :=
  match v with
  | VNone | VStr _ | VBool _ | VInt _ => Ok v
  | VFloat f => if finite f then Ok v else Err NotJson
  | VList items =>
      VList <$> (fix go (l : list pyval) : result session_error (list pyval) :=
        match l with
        | [] => Ok []
        | x :: l' => y ← normalize_json x ; ys ← go l' ; Ok (y :: ys)
        end) items
  | VDict d =>
      VDict <$> (fix go (l : list (pyval * pyval)) : result session_error (list (pyval * pyval)) :=
        match l with
        | [] => Ok []
        | (VStr k, x) :: l' => y ← normalize_json x ; ys ← go l' ; Ok ((VStr k, y) :: ys)
        | _ :: _ => Err NotJson
        end) d
  | VObj _ => Err NotJson
  end.

(** [validate_patch]: the message, None for a valid patch; the error is the
    TypeError of asking whether something unhashable is in a set. *)
Inductive patch_problem :=
| NotArray | EmptyPatch | NotAnObject (i : nat) | BadOp (i : nat) | BadPath (i : nat)
| BadSegment (i j : nat) | ValueMissing (i : nat).

Definition hashable (v : pyval) : bool :=
  match v with VList _ | VDict _ => false | _ => true end.

Definition segment_ok (v : pyval) : bool :=
  match v with VStr _ | VInt _ => true | _ => false end.

Fixpoint bad_segment (j : nat) (path : list pyval) : option nat :=
  match path with
  | [] => None
  | v :: path' => if segment_ok v then bad_segment (S j) path' else Some j
  end.

Definition op_name (v : pyval) : bool :=
  match v with VStr s => bool_decide (s ∈ ["add"; "remove"; "replace"]) | _ => false end.

Definition needs_value (v : pyval) : bool :=
  match v with VStr s => bool_decide (s ∈ ["add"; "replace"]) | _ => false end.

Inductive type_error := Unhashable.

Definition validate_entry (i : nat) (raw : pyval) : result type_error (option patch_problem) :=
  match raw with
  | VDict entry =>
      let op := default VNone (vdict_get entry "op") in
      raise_if (negb (hashable op)) Unhashable ;;
      if negb (op_name op) then Ok (Some (BadOp i))
      else match vdict_get entry "path" with
           | Some (VList path) =>
               match bad_segment 0 path with
               | Some j => Ok (Some (BadSegment i j))
               | None =>
                   if needs_value op && bool_decide (vdict_get entry "value" = None)
                   then Ok (Some (ValueMissing i)) else Ok None
               end
           | _ => Ok (Some (BadPath i))
           end
  | _ => Ok (Some (NotAnObject i))
  end.

Fixpoint validate_entries (i : nat) (entries : list pyval) : result type_error (option patch_problem) :=
  match entries with
  | [] => Ok None
  | e :: entries' =>
      problem ← validate_entry i e ;
      match problem with Some p => Ok (Some p) | None => validate_entries (S i) entries' end
  end.

Definition validate_patch (patch : pyval) : result type_error (option patch_problem) :=
  match patch with
  | VList [] => Ok (Some EmptyPatch)
  | VList entries => validate_entries 0 entries
  | _ => Ok (Some NotArray)
  end.

(** * State *)

Record SessionOp := {
  op_id : string;
  op_actor : string;
  base_revision : Z;
  op_revision : Z;
  op_patch : list pyval;
  op_timestamp : Z;
  op_principal : string;
  op_actor_kind : string;
}.

Record DocumentSession := {
  session_id : string;
  scope : string;
  document_id : string;
  document_kind : string;
  created_at : Z;
  snapshot : pyval;
  snapshot_revision : Z;
  ops : list SessionOp;
  ops_by_id : gmap string SessionOp;
  actor_bindings : gmap string string;
  acl : gmap string string;
  default_role : string;
}.

(** The property [revision]. *)
Definition revision (s : DocumentSession) : Z :=
  match last (ops s) with Some op => op_revision op | None => snapshot_revision s end.

Definition with_log (l : list SessionOp) (by_id : gmap string SessionOp) (s : DocumentSession) :=
  {| session_id := session_id s; scope := scope s; document_id := document_id s;
     document_kind := document_kind s; created_at := created_at s; snapshot := snapshot s;
     snapshot_revision := snapshot_revision s; ops := l; ops_by_id := by_id;
     actor_bindings := actor_bindings s; acl := acl s; default_role := default_role s |}.

Definition with_snapshot (v : pyval) (rev : Z) (s : DocumentSession) :=
  {| session_id := session_id s; scope := scope s; document_id := document_id s;
     document_kind := document_kind s; created_at := created_at s; snapshot := v;
     snapshot_revision := rev; ops := ops s; ops_by_id := ops_by_id s;
     actor_bindings := actor_bindings s; acl := acl s; default_role := default_role s |}.

Definition with_bindings (b : gmap string string) (s : DocumentSession) :=
  {| session_id := session_id s; scope := scope s; document_id := document_id s;
     document_kind := document_kind s; created_at := created_at s; snapshot := snapshot s;
     snapshot_revision := snapshot_revision s; ops := ops s; ops_by_id := ops_by_id s;
     actor_bindings := b; acl := acl s; default_role := default_role s |}.

Definition with_policy (role : string) (entries : gmap string string) (s : DocumentSession) :=
  {| session_id := session_id s; scope := scope s; document_id := document_id s;
     document_kind := document_kind s; created_at := created_at s; snapshot := snapshot s;
     snapshot_revision := snapshot_revision s; ops := ops s; ops_by_id := ops_by_id s;
     actor_bindings := actor_bindings s; acl := entries; default_role := role |}.

(** ** The database *)

Record SessionRow := {
  row_scope : string;
  row_document_id : string;
  row_document_kind : string;
  row_created_at : Z;
  row_snapshot : pyval;
  row_snapshot_revision : Z;
}.

Record SessionStore := {
  t_sessions : gmap string SessionRow;
  t_ops : gmap (string * Z) SessionOp;
  t_actors : gmap (string * string) string;
  t_acl : gmap (string * string) string;
  t_policy : gmap string string;
}.

Definition db_put_session (s : DocumentSession) (db : SessionStore) : option SessionStore :=
  let sid := session_id s in
  match t_sessions db !! sid, t_policy db !! sid with
  | None, None =>
      if bool_decide (map_Forall (fun p _ => t_acl db !! (sid, p) = None) (acl s)) then
        Some {| t_sessions := <[sid := {| row_scope := scope s; row_document_id := document_id s;
                                          row_document_kind := document_kind s; row_created_at := created_at s;
                                          row_snapshot := snapshot s;
                                          row_snapshot_revision := snapshot_revision s |}]> (t_sessions db);
                t_ops := t_ops db; t_actors := t_actors db;
                t_acl := kmap (pair sid) (acl s) ∪ t_acl db;
                t_policy := <[sid := default_role s]> (t_policy db) |}
      else None
  | _, _ => None
  end.

Definition db_replace_acl (sid role : string) (entries : gmap string string) (db : SessionStore) :
  option SessionStore :=
  Some {| t_sessions := t_sessions db; t_ops := t_ops db; t_actors := t_actors db;
          t_acl := kmap (pair sid) entries ∪ filter (fun e => e.1.1 <> sid) (t_acl db);
          t_policy := match t_policy db !! sid with
                      | Some _ => <[sid := role]> (t_policy db)
                      | None => t_policy db
                      end |}.

(** [UNIQUE(session_id, op_id)]. *)
Definition op_id_taken (db : SessionStore) (sid opid : string) : Prop :=
  map_Exists (fun k o => k.1 = sid /\ op_id o = opid) (t_ops db).

#[export] Instance op_id_taken_dec db sid opid : Decision (op_id_taken db sid opid).
Proof. unfold op_id_taken. apply _. Defined.

Definition db_append_op (sid : string) (op : SessionOp) (principal : string) (db : SessionStore) :
  option SessionStore :=
  let actors := match t_actors db !! (sid, op_actor op) with
                | Some _ => t_actors db
                | None => <[(sid, op_actor op) := principal]> (t_actors db)
                end in
  match t_ops db !! (sid, op_revision op) with
  | Some _ => None
  | None =>
      if decide (op_id_taken db sid (op_id op)) then None
      else Some {| t_sessions := t_sessions db;
                   t_ops := <[(sid, op_revision op) := op]> (t_ops db); t_actors := actors;
                   t_acl := t_acl db; t_policy := t_policy db |}
  end.

Definition db_put_actor (sid actor principal : string) (db : SessionStore) : option SessionStore :=
  match t_actors db !! (sid, actor) with
  | Some _ => None
  | None => Some {| t_sessions := t_sessions db; t_ops := t_ops db;
                    t_actors := <[(sid, actor) := principal]> (t_actors db);
                    t_acl := t_acl db; t_policy := t_policy db |}
  end.

Definition db_checkpoint (sid : string) (document : pyval) (rev : Z) (db : SessionStore) :
  option SessionStore :=
  Some {| t_sessions := alter (fun r => {| row_scope := row_scope r; row_document_id := row_document_id r;
                                           row_document_kind := row_document_kind r;
                                           row_created_at := row_created_at r; row_snapshot := document;
                                           row_snapshot_revision := rev |}) sid (t_sessions db);
          t_ops := filter (fun e => ~ (e.1.1 = sid /\ e.1.2 <= rev)) (t_ops db);
          t_actors := t_actors db; t_acl := t_acl db; t_policy := t_policy db |}.

Definition db_delete_session (sid : string) (db : SessionStore) : option SessionStore :=
  Some {| t_sessions := delete sid (t_sessions db);
          t_ops := filter (fun e => e.1.1 <> sid) (t_ops db);
          t_actors := filter (fun e => e.1.1 <> sid) (t_actors db);
          t_acl := filter (fun e => e.1.1 <> sid) (t_acl db);
          t_policy := delete sid (t_policy db) |}.

(** The operations of a session, by revision. *)
Definition rev_le (a b : SessionOp) : Prop := op_revision a <= op_revision b.

#[export] Instance rev_le_dec : RelDecision rev_le.
Proof. intros a b. unfold rev_le. apply _. Defined.

Definition rows_of {K V} `{Countable K} (sid : string) (t : gmap (string * K) V) : list (K * V) :=
  omap (fun e => if decide (e.1.1 = sid) then Some (e.1.2, e.2) else None) (map_to_list t).

(** A loaded session: the row, its operations in order, and what the other
    tables say of it; a session without a policy row has the default. *)
Definition load_session (db : SessionStore) (sid : string) (row : SessionRow) : DocumentSession :=
  let log := merge_sort rev_le (rows_of sid (t_ops db)).*2 in
  {| session_id := sid; scope := row_scope row; document_id := row_document_id row;
     document_kind := row_document_kind row; created_at := row_created_at row;
     snapshot := row_snapshot row; snapshot_revision := row_snapshot_revision row;
     ops := log; ops_by_id := list_to_map (reverse ((fun o => (op_id o, o)) <$> log));
     actor_bindings := list_to_map (rows_of sid (t_actors db));
     acl := list_to_map (rows_of sid (t_acl db));
     default_role := default "editor" (t_policy db !! sid) |}.

(** Every row of the other tables names a session: [sessions[...]] raises
    KeyError otherwise. *)
Definition no_orphans (db : SessionStore) : Prop :=
  map_Forall (fun k _ => is_Some (t_sessions db !! k.1)) (t_actors db)
  /\ map_Forall (fun k _ => is_Some (t_sessions db !! k)) (t_policy db)
  /\ map_Forall (fun k _ => is_Some (t_sessions db !! k.1)) (t_acl db).

#[export] Instance no_orphans_dec db : Decision (no_orphans db).
Proof. unfold no_orphans. apply _. Defined.

Definition load_all (db : SessionStore) : result session_error (list DocumentSession) :=
  if decide (no_orphans db)
  then Ok (omap (fun sid => load_session db sid <$> t_sessions db !! sid)
             (sorted_set (dom (t_sessions db))))
  else Err OrphanRow.

(** * The service *)

Record SessionService := {
  max_retained_ops : nat;
  sessions_map : list (string * DocumentSession);
  store : option SessionStore;
}.

Definition set_sessions (m : list (string * DocumentSession)) (sv : SessionService) : SessionService :=
  {| max_retained_ops := max_retained_ops sv; sessions_map := m; store := store sv |}.

Definition set_store (db : SessionStore) (sv : SessionService) : SessionService :=
  {| max_retained_ops := max_retained_ops sv; sessions_map := sessions_map sv; store := Some db |}.

Definition session_roles : list string := ["banned"; "viewer"; "editor"; "owner"].

Definition role_rank (role : string) : option nat :=
  fst <$> list_find (fun r => r = role) session_roles.

Section service.
(** The document-kind validator the host passes, if any. *)
Context (snapshot_validator : option (string -> string -> pyval -> option string)).

Definition P (A : Type) : Type := method SessionService session_error A.

#[local] Instance P_ret : MRet P := method_ret.
#[local] Instance P_bind : MBind P := @method_bind SessionService session_error.

Definition fail {A} (e : session_error) : P A := fun sv => (Err e, sv).

Definition require (c : bool) (e : session_error) : P unit := if c then mret tt else fail e.

(** [__init__]; [sid]s of the store become the working set. *)
Definition service_init (max_ops : Z) (db : option SessionStore) : result session_error SessionService :=
  raise_if (max_ops <? 1) (BadValue "max_retained_ops") ;;
  loaded ← (match db with Some d => load_all d | None => Ok [] end) ;
  Ok {| max_retained_ops := Z.to_nat max_ops;
        sessions_map := foldl (fun m s => dict_set m (session_id s) s) [] loaded; store := db |}.

(** One transaction of the store: [io] says whether it commits. *)
Definition transact (io : bool) (tx : SessionStore -> option SessionStore) : P unit := fun sv =>
  match store sv with
  | None => (Ok tt, sv)
  | Some db =>
      if io then match tx db with
                 | Some db' => (Ok tt, set_store db' sv)
                 | None => (Err IntegrityError, sv)
                 end
      else (Err StoreFailed, sv)
  end.

Definition validated_snapshot (kind document : string) (v : pyval) : result session_error pyval :=
  normalized ← normalize_json v ;
  match snapshot_validator with
  | Some validate =>
      match validate kind document normalized with
      | Some problem => Err (InvalidSnapshot problem)
      | None => Ok normalized
      end
  | None => Ok normalized
  end.

Definition authoritative (sid : string) : P DocumentSession := fun sv =>
  match dict_get (sessions_map sv) sid with
  | Some s => (Ok s, sv)
  | None => (Err UnknownSession, sv)
  end.

(** An assignment to a session the method holds. *)
Definition update (sid : string) (f : DocumentSession -> DocumentSession) : P unit := fun sv =>
  match dict_get (sessions_map sv) sid with
  | Some s => (Ok tt, set_sessions (dict_set (sessions_map sv) sid (f s)) sv)
  | None => (Ok tt, sv)
  end.

(** [create]; [sid] is the minted id and [now] the clock. *)
Definition create (io : bool) (sid : string) (now : Z) (sc document kind principal : string) (v : pyval) :
  P DocumentSession :=
  require (bool_decide (kind ∈ ["workflow"; "image"])) (BadValue "document_kind") ;;
  v' ← lift_result (validated_snapshot kind document v) ;
  let s := {| session_id := sid; scope := sc; document_id := document; document_kind := kind;
              created_at := now; snapshot := v'; snapshot_revision := 0; ops := []; ops_by_id := ∅;
              actor_bindings := ∅; acl := {[principal := "owner"]}; default_role := "editor" |} in
  (fun sv => (Ok tt, set_sessions (dict_set (sessions_map sv) sid s) sv)) ;;
  transact io (db_put_session s) ;;
  mret s.

Definition get (sid : string) : P DocumentSession := authoritative sid.

Definition sessions (sc : string) (sv : SessionService) : list DocumentSession :=
  filter (fun s => scope s = sc) (sessions_map sv).*2.

Definition role_of (s : DocumentSession) (principal : string) : string :=
  default (default_role s) (acl s !! principal).

Definition role_for (sid principal : string) : P string :=
  s ← authoritative sid ; mret (role_of s principal).

(** Both ranks are looked up, a KeyError for a role that is none. *)
Definition require_role (sid principal minimum : string) : P unit :=
  role ← role_for sid principal ;
  match role_rank role, role_rank minimum with
  | Some r, Some m => require (m <=? r)%nat RoleDenied
  | _, _ => fail RoleUnknown
  end.

Definition acl_policy (sid : string) : P (string * gmap string string) :=
  s ← authoritative sid ; mret (default_role s, acl s).

(** ["owner" in acl.values()]. *)
Definition has_owner (entries : gmap string string) : Prop :=
  map_Exists (fun _ role => role = "owner") entries.

#[export] Instance has_owner_dec entries : Decision (has_owner entries).
Proof. unfold has_owner. apply _. Defined.

Definition replace_acl (io : bool) (sid principal role : string) (entries : gmap string string) :
  P DocumentSession :=
  s ← authoritative sid ;
  require (bool_decide (has_owner (acl s))) NoSessionOwner ;;
  require_role sid principal "owner" ;;
  require (bool_decide (role ∈ ["viewer"; "editor"])) (BadValue "defaultRole") ;;
  require (bool_decide (has_owner entries)) (BadValue "at least one owner is required") ;;
  require (bool_decide (map_Forall (fun key _ => key <> "") entries)) (BadValue "ACL principal ids") ;;
  require (bool_decide (map_Forall (fun _ r => r ∈ session_roles) entries)) (BadValue "ACL roles") ;;
  transact io (db_replace_acl sid role entries) ;;
  update sid (with_policy role entries) ;;
  authoritative sid.

Definition close (io : bool) (sid principal : string) : P DocumentSession :=
  s ← authoritative sid ;
  require_role sid principal (if decide (has_owner (acl s)) then "owner" else "editor") ;;
  (fun sv => (Ok tt, set_sessions (dict_del (sessions_map sv) sid) sv)) ;;
  transact io (db_delete_session sid) ;;
  mret s.

(** [_bind_actor]. *)
Definition bind (io : bool) (sid actor principal : string) : P unit :=
  transact io (db_put_actor sid actor principal) ;;
  update sid (fun s => with_bindings (<[actor := principal]> (actor_bindings s)) s).

Definition MAX_ACTORS : nat := 4096.
Definition MAX_ACTORS_PER_PRINCIPAL : nat := 256.

Definition bound_to (principal : string) (b : gmap string string) : nat :=
  size (filter (fun e => e.2 = principal) b).

Definition check_actor_principal (sid actor principal : string) : P unit :=
  s ← authoritative sid ;
  match actor_bindings s !! actor with
  | Some p => require (bool_decide (p = principal)) ActorPrincipalMismatch
  | None => require (negb ((MAX_ACTORS <=? size (actor_bindings s))%nat
                           || (MAX_ACTORS_PER_PRINCIPAL <=? bound_to principal (actor_bindings s))%nat))
              ActorLimit
  end.

Definition normalize_patch (patch : list (list (pyval * pyval))) : result session_error (list pyval) :=
  mapM (fun entry => normalize_json (VDict entry)) patch.

Definition append (io : bool) (now : Z) (sid opid actor : string) (base : Z)
  (patch : list (list (pyval * pyval))) (principal kind : string) : P (SessionOp * bool) :=
  s ← authoritative sid ;
  require_role sid principal "editor" ;;
  patch' ← lift_result (normalize_patch patch) ;
  let bound := actor_bindings s !! actor in
  require (match bound with Some p => bool_decide (p = principal) | None => true end)
    ActorPrincipalMismatch ;;
  match ops_by_id s !! opid with
  | Some existing =>
      require (bool_decide (op_actor existing = actor)) ActorPrincipalMismatch ;;
      (match bound with None => bind io sid actor principal | Some _ => mret tt end) ;;
      mret (existing, true)
  | None =>
      check_actor_principal sid actor principal ;;
      require (base =? revision s) (StaleBase (revision s)) ;;
      sv ← get_state ;
      require (length (ops s) <? max_retained_ops sv)%nat
        (SnapshotRequired (revision s) (snapshot_revision s)) ;;
      let op := {| op_id := opid; op_actor := actor; base_revision := revision s;
                   op_revision := revision s + 1; op_patch := patch'; op_timestamp := now;
                   op_principal := principal; op_actor_kind := kind |} in
      transact io (db_append_op sid op principal) ;;
      update sid (fun s => with_log (ops s ++ [op]) (<[opid := op]> (ops_by_id s)) s) ;;
      update sid (fun s => with_bindings (match actor_bindings s !! actor with
                                          | Some _ => actor_bindings s
                                          | None => <[actor := principal]> (actor_bindings s)
                                          end) s) ;;
      mret (op, false)
  end.

Definition bind_actor (io : bool) (sid actor principal : string) : P unit :=
  s ← authoritative sid ;
  require_role sid principal "viewer" ;;
  check_actor_principal sid actor principal ;;
  match actor_bindings s !! actor with
  | None => bind io sid actor principal
  | Some _ => mret tt
  end.

Definition ops_after (sid : string) (after : Z) (principal : string) : P (list SessionOp) :=
  s ← authoritative sid ;
  require_role sid principal "viewer" ;;
  require (snapshot_revision s <=? after) (ResyncRequired (snapshot_revision s)) ;;
  mret (filter (fun op => after < op_revision op) (ops s)).

(** [del session.ops_by_id[op.op_id]] for each pruned operation. *)
Fixpoint forget (sid : string) (pruned : list SessionOp) : P unit :=
  match pruned with
  | [] => mret tt
  | op :: pruned' =>
      s ← authoritative sid ;
      require (bool_decide (is_Some (ops_by_id s !! op_id op))) OpIdMissing ;;
      update sid (fun s => with_log (ops s) (delete (op_id op) (ops_by_id s)) s) ;;
      forget sid pruned'
  end.

Definition checkpoint (io : bool) (sid : string) (rev : Z) (document : pyval) (principal : string) :
  P DocumentSession :=
  s ← authoritative sid ;
  require_role sid principal "editor" ;;
  require (snapshot_revision s <? rev) (BadValue "does not advance") ;;
  require (rev <=? revision s) (BadValue "ahead of the session") ;;
  v ← lift_result (validated_snapshot (document_kind s) (document_id s) document) ;
  let pruned := filter (fun op => op_revision op <= rev) (ops s) in
  update sid (fun s => with_snapshot v rev s) ;;
  update sid (fun s => with_log (filter (fun op => rev < op_revision op) (ops s)) (ops_by_id s) s) ;;
  forget sid pruned ;;
  transact io (db_checkpoint sid v rev) ;;
  authoritative sid.
End service.

(** * Runs *)

(** No table has a row of the session. *)
Definition unused (sid : string) (db : SessionStore) : Prop :=
  t_sessions db !! sid = None /\ t_policy db !! sid = None
  /\ (forall r, t_ops db !! (sid, r) = None) /\ (forall a, t_actors db !! (sid, a) = None)
  /\ (forall p, t_acl db !! (sid, p) = None).

Section runs.
Context (validator : option (string -> string -> pyval -> option string)).

(** What happens to the service: a session is made, and the store takes it or
    does not; one is closed; another call; a restart. *)
Inductive call :=
| Creates (sid : string) (taken : bool)
| Closes (sid : string)
| Calls
| Restarts.

(** Calls of the service, each returning or raising, with the store failing
    when it likes; and a restart over what the store holds, when the service
    can start on it.  A minted id is new. *)
Inductive step : call -> SessionService -> SessionService -> Prop :=
| s_create sv sv' r io sid now sc document kind principal v :
    dict_get (sessions_map sv) sid = None -> from_option (unused sid) True (store sv) ->
    create validator io sid now sc document kind principal v sv = (r, sv') ->
    step (Creates sid (match store sv with Some _ => io | None => true end)) sv sv'
| s_replace_acl sv sv' r io sid principal role entries :
    replace_acl io sid principal role entries sv = (r, sv') -> step Calls sv sv'
| s_close sv sv' r io sid principal : close io sid principal sv = (r, sv') -> step (Closes sid) sv sv'
| s_append sv sv' r io now sid opid actor base patch principal kind :
    append io now sid opid actor base patch principal kind sv = (r, sv') -> step Calls sv sv'
| s_bind_actor sv sv' r io sid actor principal :
    bind_actor io sid actor principal sv = (r, sv') -> step Calls sv sv'
| s_checkpoint sv sv' r io sid rev document principal :
    checkpoint validator io sid rev document principal sv = (r, sv') -> step Calls sv sv'
| s_restart sv sv' max_ops :
    service_init max_ops (store sv) = Ok sv' -> store sv <> None -> step Restarts sv sv'.

Definition empty_store : SessionStore :=
  {| t_sessions := ∅; t_ops := ∅; t_actors := ∅; t_acl := ∅; t_policy := ∅ |}.

(** A service without a store, or over a new one. *)
Definition initial (sv : SessionService) : Prop :=
  exists max_ops db, (db = None \/ db = Some empty_store) /\ service_init max_ops db = Ok sv.

(** By calls of some kind. *)
Definition reachable_by (Q : call -> Prop) (sv : SessionService) : Prop :=
  exists sv0, initial sv0 /\ star (fun a b => exists c, Q c /\ step c a b) sv0 sv.

Definition reachable (sv : SessionService) : Prop := reachable_by (fun _ => True) sv.

(** The store takes every session that is made. *)
Definition taken (c : call) : Prop := match c with Creates _ false => False | _ => True end.

(** The store has the session's row, where there is a store. *)
Definition held (sid : string) (sv : SessionService) : Prop :=
  match store sv with Some db => is_Some (t_sessions db !! sid) | None => True end.

(** A step that does not end the session: a close of it that is refused, and a
    restart only if [kept]. *)
Definition sparing (sid : string) (kept : Prop) (sv sv' : SessionService) : Prop :=
  exists c, step c sv sv' /\ match c with
                            | Closes x => x = sid -> is_Some (dict_get (sessions_map sv') sid)
                            | Restarts => kept
                            | _ => True
                            end.
End runs.

(** * What one call does to the state *)

(** The changes a call makes to one session, and the transaction with it. *)
Inductive change (sid : string) (s : DocumentSession) :
  DocumentSession -> (SessionStore -> option SessionStore) -> Prop :=
| ch_policy role entries : role ∈ ["viewer"; "editor"] -> has_owner entries ->
    map_Forall (fun _ r => r ∈ session_roles) entries ->
    change sid s (with_policy role entries s) (db_replace_acl sid role entries)
| ch_bind actor principal : actor_bindings s !! actor = None ->
    (size (actor_bindings s) < MAX_ACTORS)%nat ->
    (bound_to principal (actor_bindings s) < MAX_ACTORS_PER_PRINCIPAL)%nat ->
    change sid s (with_bindings (<[actor := principal]> (actor_bindings s)) s)
      (db_put_actor sid actor principal)
| ch_append op : ops_by_id s !! op_id op = None ->
    base_revision op = revision s -> op_revision op = revision s + 1 ->
    (actor_bindings s !! op_actor op = Some (op_principal op)
     \/ actor_bindings s !! op_actor op = None
        /\ (size (actor_bindings s) < MAX_ACTORS)%nat
        /\ (bound_to (op_principal op) (actor_bindings s) < MAX_ACTORS_PER_PRINCIPAL)%nat) ->
    change sid s
      (with_bindings (match actor_bindings s !! op_actor op with
                      | Some _ => actor_bindings s
                      | None => <[op_actor op := op_principal op]> (actor_bindings s)
                      end)
         (with_log (ops s ++ [op]) (<[op_id op := op]> (ops_by_id s)) s))
      (db_append_op sid op (op_principal op))
| ch_checkpoint v rev : snapshot_revision s < rev -> rev <= revision s ->
    change sid s
      (with_log (filter (fun op => rev < op_revision op) (ops s))
         (foldl (fun m op => delete (op_id op) m) (ops_by_id s)
            (filter (fun op => op_revision op <= rev) (ops s)))
         (with_snapshot v rev s))
      (db_checkpoint sid v rev).

(** * The invariant of a session *)

(** The retained log is the revisions after the snapshot without a gap, each
    based on the one before; its ids are distinct and indexed; each operation
    is its actor's owner's; the session has an owner, known roles, and not
    too many actors. *)
Record session_ok (s : DocumentSession) : Prop := {
  so_log : forall i o, ops s !! i = Some o ->
    op_revision o = snapshot_revision s + 1 + Z.of_nat i /\ base_revision o = op_revision o - 1;
  so_ids : NoDup (op_id <$> ops s);
  so_by_id : forall id o, ops_by_id s !! id = Some o <-> o ∈ ops s /\ op_id o = id;
  so_attribution : forall o, o ∈ ops s -> actor_bindings s !! op_actor o = Some (op_principal o);
  so_owner : has_owner (acl s);
  so_roles : map_Forall (fun _ r => r ∈ session_roles) (acl s);
  so_default : default_role s ∈ ["viewer"; "editor"];
  so_actors : (size (actor_bindings s) <= MAX_ACTORS)%nat;
  so_per_principal : forall p, (bound_to p (actor_bindings s) <= MAX_ACTORS_PER_PRINCIPAL)%nat;
  so_nonneg : 0 <= snapshot_revision s;
}.

Lemma revision_length s : session_ok s -> revision s = snapshot_revision s + Z.of_nat (length (ops s)).
Proof.
  intros Hok. unfold revision. rewrite last_lookup. destruct (ops s) as [|o l] eqn:E; cbn [length pred].
  - cbn. lia.
  - destruct ((o :: l) !! length l) as [o'|] eqn:Ho.
    + rewrite <- E in Ho. destruct (so_log s Hok _ _ Ho) as [-> _]. lia.
    + apply lookup_ge_None in Ho. cbn in Ho. lia.
Qed.

(** Revisions after the snapshot and not past the head are retained. *)
Lemma retained_revision s o : session_ok s -> o ∈ ops s ->
  snapshot_revision s < op_revision o <= revision s.
Proof.
  intros Hok [i Hi]%list_elem_of_lookup. destruct (so_log s Hok i o Hi) as [-> _].
  rewrite revision_length by done. apply lookup_lt_Some in Hi. lia.
Qed.

(** Keeping the operations past a revision is dropping a prefix. *)
Lemma filter_revision l snap k :
  (forall i o, l !! i = Some o -> op_revision o = snap + 1 + Z.of_nat i) ->
  filter (fun op => snap + Z.of_nat k < op_revision op) l = drop k l
  /\ filter (fun op => op_revision op <= snap + Z.of_nat k) l = take k l.
Proof.
  revert snap k. induction l as [|o l IH]; intros snap k Hl; [by rewrite drop_nil, take_nil|].
  assert (Ho : op_revision o = snap + 1) by (rewrite (Hl 0%nat o eq_refl); lia).
  assert (Hl' : forall i o', l !! i = Some o' -> op_revision o' = snap + 1 + 1 + Z.of_nat i).
  { intros i o' Hi. rewrite (Hl (S i) o' Hi). lia. }
  rewrite !filter_cons. destruct k as [|k].
  - destruct (IH (snap + 1) 0%nat Hl') as [Hd Ht]. rewrite drop_0, take_0 in *.
    rewrite decide_True, decide_False by lia.
    split; [f_equal|].
    + rewrite <- Hd at 2. rewrite <- Hd at 1. apply list_filter_filter_r. intros o'. lia.
    + rewrite <- (list_filter_filter_l _ (fun op => op_revision op <= snap + 1 + Z.of_nat 0)), Ht; [done|].
      intros o'. lia.
  - destruct (IH (snap + 1) k Hl') as [Hd Ht]. rewrite decide_False, decide_True by lia. cbn. split.
    + rewrite <- Hd. apply list_filter_iff. intros o'. lia.
    + f_equal. rewrite <- Ht. apply list_filter_iff. intros o'. lia.
Qed.

(** What a call on a session leaves: nothing new, or one change, in memory and
    the store or in memory alone when the store failed after it. *)
Inductive outcome (sv : SessionService) : SessionService -> Prop :=
| out_same : outcome sv sv
| out_change sid s s' tx :
    dict_get (sessions_map sv) sid = Some s -> change sid s s' tx -> store sv = None ->
    outcome sv (set_sessions (dict_set (sessions_map sv) sid s') sv)
| out_stored sid s s' tx db db' :
    dict_get (sessions_map sv) sid = Some s -> change sid s s' tx -> store sv = Some db ->
    tx db = Some db' ->
    outcome sv (set_store db' (set_sessions (dict_set (sessions_map sv) sid s') sv))
| out_ahead sid s s' v rev :
    dict_get (sessions_map sv) sid = Some s -> change sid s s' (db_checkpoint sid v rev) ->
    snapshot_revision s < snapshot_revision s' -> is_Some (store sv) ->
    outcome sv (set_sessions (dict_set (sessions_map sv) sid s') sv).

(** What [close] leaves. *)
Inductive closing (sid : string) (sv : SessionService) : SessionService -> Prop :=
| cl_same : closing sid sv sv
| cl_closed s store' :
    dict_get (sessions_map sv) sid = Some s ->
    (store' = store sv \/ store' = (store sv ≫= db_delete_session sid)) ->
    closing sid sv {| max_retained_ops := max_retained_ops sv;
                      sessions_map := dict_del (sessions_map sv) sid; store := store' |}.

Section outcomes.
#[local] Existing Instance P_ret.
#[local] Existing Instance P_bind.
Context (validator : option (string -> string -> pyval -> option string)).

(** A part of a method that changes nothing. *)
Class Reads {A} (m : P A) : Prop := reads sv : (m sv).2 = sv.

#[local] Instance reads_ret {A} (a : A) : Reads (mret a).
Proof. done. Qed.
#[local] Instance reads_authoritative sid : Reads (authoritative sid).
Proof. intros sv. unfold authoritative. by destruct (dict_get _ _). Qed.
#[local] Instance reads_require c e : Reads (require c e).
Proof. intros sv. by destruct c. Qed.
#[local] Instance reads_lift {A} (r : result session_error A) : Reads (lift_result r).
Proof. done. Qed.
#[local] Instance reads_get_state : Reads get_state.
Proof. done. Qed.
#[local] Instance reads_bind {A B} (m : P A) (k : A -> P B) :
  Reads m -> (forall a, Reads (k a)) -> Reads (m ≫= k).
Proof.
  intros Hm Hk sv. unfold mbind, P_bind, method_bind. specialize (Hm sv).
  destruct (m sv) as [[a|e] s] eqn:E; cbn in *; subst; [apply Hk|done].
Qed.
#[local] Instance reads_role sid p m : Reads (require_role sid p m).
Proof.
  unfold require_role, role_for. apply _ || (apply reads_bind; [apply _|]).
  intros role. destruct (role_rank role), (role_rank m); apply _ || (intros sv; done).
Qed.
#[local] Instance reads_check sid a p : Reads (check_actor_principal sid a p).
Proof. unfold check_actor_principal. apply reads_bind; [apply _|]. intros s. destruct (_ !! a); apply _. Qed.

(** Reading first: the call stops there, or goes on in the same state. *)
Lemma read_bind {A B} (m : P A) (k : A -> P B) `{!Reads m} sv r sv' :
  (m ≫= k) sv = (r, sv') ->
  (sv' = sv /\ exists e, r = Err e) \/ exists a, m sv = (Ok a, sv) /\ k a sv = (r, sv').
Proof.
  unfold mbind, P_bind, method_bind. pose proof (reads sv) as Hs. destruct (m sv) as [[a|e] s1]; cbn in Hs; subst.
  - eauto.
  - intros [= <- <-]. eauto.
Qed.

(** The next reading of a call whose outcome is in question. *)
Ltac reading H pat :=
  apply read_bind in H as [[-> _]|(? & pat & H)]; [constructor| |apply _].

Lemma authoritative_ok sid sv s : authoritative sid sv = (Ok s, sv) <-> dict_get (sessions_map sv) sid = Some s.
Proof. unfold authoritative. destruct (dict_get _ _); naive_solver. Qed.

Lemma require_ok c e sv u : require c e sv = (Ok u, sv) <-> c = true.
Proof. destruct u, c; cbn; naive_solver. Qed.

Lemma reads_same {A} (m : P A) `{!Reads m} sv r sv' : m sv = (r, sv') -> sv' = sv.
Proof. intros Hm. pose proof (reads (m := m) sv) as Hs. by rewrite Hm in Hs. Qed.

(** A transaction: nothing, or committed. *)
Lemma transact_cases io tx sv r sv' : transact io tx sv = (r, sv') ->
  (sv' = sv /\ (exists e, r = Err e) /\ is_Some (store sv))
  \/ (r = Ok tt /\ store sv = None /\ sv' = sv)
  \/ exists db db', r = Ok tt /\ io = true /\ store sv = Some db /\ tx db = Some db' /\ sv' = set_store db' sv.
Proof.
  unfold transact. destruct (store sv) as [db|]; [|intros [= <- <-]; right; by left].
  destruct io; [destruct (tx db) as [db'|] eqn:Htx|]; intros [= <- <-].
  - right. right. by exists db, db'.
  - left. split_and!; eauto.
  - left. split_and!; eauto.
Qed.

Lemma update_spec sid f sv s : dict_get (sessions_map sv) sid = Some s ->
  update sid f sv = (Ok tt, set_sessions (dict_set (sessions_map sv) sid (f s)) sv).
Proof. unfold update. by intros ->. Qed.

(** A change that is in the store before it is in memory. *)
Lemma store_first {B} io sid s s' tx (k : P B) sv r sv' :
  dict_get (sessions_map sv) sid = Some s -> change sid s s' tx ->
  (forall sv1, dict_get (sessions_map sv1) sid = Some s ->
     (k sv1).2 = set_sessions (dict_set (sessions_map sv1) sid s') sv1) ->
  (transact io tx ;; k) sv = (r, sv') -> outcome sv sv'.
Proof.
  intros Hs Hch Hk Hrun. unfold mbind, P_bind, method_bind in Hrun.
  destruct (transact io tx sv) as [r1 sv1] eqn:Ht.
  destruct (transact_cases _ _ _ _ _ Ht) as [(-> & (e & ->) & _)|[(-> & Hn & ->)|(db & db' & -> & _ & Hdb & Htx & ->)]].
  - injection Hrun as _ <-. constructor.
  - specialize (Hk sv Hs). rewrite Hrun in Hk. cbn in Hk. subst sv'. by eapply out_change.
  - specialize (Hk (set_store db' sv) Hs). rewrite Hrun in Hk. cbn in Hk. subst sv'.
    exact (out_stored sv sid s s' tx db db' Hs Hch Hdb Htx).
Qed.

Lemma dict_set_twice {V} (d : list (string * V)) k v v' : dict_set (dict_set d k v) k v' = dict_set d k v'.
Proof. induction d as [|[a b] d IH]; cbn; [by rewrite decide_True|]. case_decide; cbn; rewrite ?decide_True, ?decide_False by done; congruence. Qed.

Lemma update_get sid s m sv : dict_get (sessions_map (set_sessions (dict_set m sid s) sv)) sid = Some s.
Proof. cbn. by rewrite dict_get_set, decide_True. Qed.

Lemma replace_acl_outcome io sid principal role entries sv r sv' :
  replace_acl io sid principal role entries sv = (r, sv') -> outcome sv sv'.
Proof.
  unfold replace_acl. intros Hrun. reading Hrun Hs. apply authoritative_ok in Hs.
  reading Hrun Hown. reading Hrun Hrole. reading Hrun Hdef. reading Hrun Hent. reading Hrun Hkeys.
  reading Hrun Hroles. apply require_ok, bool_decide_eq_true in Hdef, Hent, Hroles.
  eapply store_first; [exact Hs|by apply ch_policy| |exact Hrun].
  intros sv1 Hs1. unfold mbind, P_bind, method_bind. rewrite (update_spec _ _ _ _ Hs1).
  unfold authoritative. by rewrite update_get.
Qed.

Lemma bind_outcome io sid actor principal s sv r sv' :
  dict_get (sessions_map sv) sid = Some s -> actor_bindings s !! actor = None ->
  (size (actor_bindings s) < MAX_ACTORS)%nat ->
  (bound_to principal (actor_bindings s) < MAX_ACTORS_PER_PRINCIPAL)%nat ->
  bind io sid actor principal sv = (r, sv') -> outcome sv sv'.
Proof.
  intros Hs Hb Hsz Hper Hrun.
  eapply (store_first io sid s); [done|by constructor| |exact Hrun].
  intros sv1 Hs1. by rewrite (update_spec _ _ _ _ Hs1).
Qed.

(** What passing the check of an actor means. *)
Lemma check_ok sid actor principal sv s u :
  dict_get (sessions_map sv) sid = Some s -> check_actor_principal sid actor principal sv = (Ok u, sv) ->
  actor_bindings s !! actor = Some principal
  \/ actor_bindings s !! actor = None /\ (size (actor_bindings s) < MAX_ACTORS)%nat
     /\ (bound_to principal (actor_bindings s) < MAX_ACTORS_PER_PRINCIPAL)%nat.
Proof.
  intros Hs. unfold check_actor_principal. intros Hrun.
  apply read_bind in Hrun as [[_ [e He]]|(s0 & Hs0%authoritative_ok & Hrun)]; [done| |apply _].
  assert (s0 = s) as -> by congruence. destruct (actor_bindings s !! actor) as [p|]; apply require_ok in Hrun.
  - apply bool_decide_eq_true in Hrun as ->. by left.
  - apply negb_true_iff, orb_false_iff in Hrun as [?%Nat.leb_gt ?%Nat.leb_gt]. by right.
Qed.

Lemma close_outcome io sid principal sv r sv' : close io sid principal sv = (r, sv') -> closing sid sv sv'.
Proof.
  unfold close. intros Hrun. reading Hrun Hs. apply authoritative_ok in Hs. reading Hrun Hrole.
  unfold mbind, P_bind, method_bind in Hrun.
  destruct (transact io (db_delete_session sid) _) as [r1 sv1] eqn:Ht.
  assert (sv' = sv1) as -> by (destruct r1; by injection Hrun).
  destruct (transact_cases _ _ _ _ _ Ht) as [(-> & _)|[(_ & Hn & ->)|(db & db' & _ & _ & Hdb & Htx & ->)]].
  - eapply (cl_closed sid sv); [exact Hs|by left].
  - eapply (cl_closed sid sv); [exact Hs|by left].
  - cbn in Hdb. refine (cl_closed sid sv _ (Some db') Hs (or_intror _)). rewrite Hdb. cbn. by rewrite Htx.
Qed.

Lemma bind_actor_outcome io sid actor principal sv r sv' :
  bind_actor io sid actor principal sv = (r, sv') -> outcome sv sv'.
Proof.
  unfold bind_actor. intros Hrun. reading Hrun Hs. apply authoritative_ok in Hs. reading Hrun Hrole.
  reading Hrun Hcheck. apply (check_ok _ _ _ _ _ _ Hs) in Hcheck.
  destruct Hcheck as [Hb|(Hb & Hsz & Hper)]; rewrite Hb in Hrun.
  - injection Hrun as _ <-. constructor.
  - by eapply bind_outcome.
Qed.

Lemma append_outcome io now sid opid actor base patch principal kind sv r sv' :
  (forall s, dict_get (sessions_map sv) sid = Some s -> session_ok s) ->
  append io now sid opid actor base patch principal kind sv = (r, sv') -> outcome sv sv'.
Proof.
  unfold append. intros Hok Hrun. reading Hrun Hs. apply authoritative_ok in Hs. specialize (Hok _ Hs).
  reading Hrun Hrole. reading Hrun Hpatch. reading Hrun Hbound. apply require_ok in Hbound.
  destruct (ops_by_id _ !! opid) as [existing|] eqn:Hex.
  - reading Hrun Hactor. apply require_ok, bool_decide_eq_true in Hactor.
    apply (so_by_id _ Hok) in Hex as [Hin _]. apply (so_attribution _ Hok) in Hin. rewrite Hactor in Hin.
    rewrite Hin in Hrun. injection Hrun as _ <-. constructor.
  - reading Hrun Hcheck. apply (check_ok _ _ _ _ _ _ Hs) in Hcheck.
    reading Hrun Hbase. reading Hrun Hsv. reading Hrun Hcap.
    set (op := {| op_id := opid |}) in Hrun.
    eapply (store_first io sid _ _ _ _ _ _ _ Hs (ch_append sid _ op Hex eq_refl eq_refl Hcheck)); [|exact Hrun].
    intros sv1 Hs1. unfold mbind, P_bind, method_bind. rewrite (update_spec _ _ _ _ Hs1).
    erewrite update_spec by by rewrite update_get. cbn. by rewrite dict_set_twice.
Qed.

Lemma dict_set_same {V} (d : list (string * V)) k v : dict_get d k = Some v -> dict_set d k v = d.
Proof. induction d as [|[a b] d IH]; cbn; [done|]. case_decide; intros; simplify_eq; [done|]. by rewrite IH. Qed.

(** Forgetting operations whose ids are all indexed. *)
Lemma forget_run sid pruned sv s :
  dict_get (sessions_map sv) sid = Some s -> NoDup (op_id <$> pruned) ->
  (forall o, o ∈ pruned -> is_Some (ops_by_id s !! op_id o)) ->
  forget sid pruned sv = (Ok tt, set_sessions (dict_set (sessions_map sv) sid
    (with_log (ops s) (foldl (fun m op => delete (op_id op) m) (ops_by_id s) pruned) s)) sv).
Proof.
  revert sv s. induction pruned as [|o pruned IH]; intros sv s Hs Hnd Hin; cbn [forget foldl].
  - unfold mret, P_ret, method_ret. f_equal. destruct s, sv. unfold set_sessions, with_log. cbn in *.
    by rewrite dict_set_same.
  - apply NoDup_cons in Hnd as [Ho Hnd]. unfold mbind, P_bind, method_bind. unfold authoritative. rewrite Hs.
    rewrite bool_decide_true by (apply Hin; constructor). cbn [require mret P_ret method_ret].
    unfold mret, P_ret, method_ret. rewrite (update_spec _ _ _ _ Hs).
    erewrite IH; [|by rewrite update_get|done|].
    + cbn. by rewrite dict_set_twice.
    + intros o' Ho'. cbn. rewrite lookup_delete_ne; [apply Hin; by right|].
      intros Heq. apply Ho. rewrite Heq. apply list_elem_of_fmap. by exists o'.
Qed.

Lemma checkpoint_outcome io sid rev document principal sv r sv' :
  (forall s, dict_get (sessions_map sv) sid = Some s -> session_ok s) ->
  checkpoint validator io sid rev document principal sv = (r, sv') -> outcome sv sv'.
Proof.
  unfold checkpoint. intros Hok Hrun. reading Hrun Hs. apply authoritative_ok in Hs.
  match type of Hs with _ = Some ?x => rename x into s end. specialize (Hok _ Hs).
  reading Hrun Hrole. reading Hrun Hadv. reading Hrun Hhead. apply require_ok in Hadv, Hhead.
  apply Z.ltb_lt in Hadv. apply Z.leb_le in Hhead. reading Hrun Hv.
  match type of Hv with _ = (Ok ?x, _) => rename x into v end.
  assert (Hch := ch_checkpoint sid s v rev Hadv Hhead).
  unfold mbind, P_bind, method_bind in Hrun. rewrite (update_spec _ _ _ _ Hs) in Hrun.
  erewrite update_spec in Hrun by by rewrite update_get.
  erewrite forget_run in Hrun; [|by rewrite update_get| |].
  - cbn [sessions_map set_sessions] in Hrun. rewrite !dict_set_twice in Hrun.
    destruct (transact io (db_checkpoint sid v rev) _) as [r1 sv1] eqn:Ht.
    assert (sv' = sv1) as ->.
    { destruct r1; [|by injection Hrun]. unfold authoritative in Hrun. by destruct (dict_get (sessions_map sv1) sid); injection Hrun. }
    destruct (transact_cases _ _ _ _ _ Ht) as [(-> & _ & Hst)|[(_ & Hn & ->)|(db & db' & _ & _ & Hdb & Htx & ->)]].
    + by eapply (out_ahead sv sid s _ v rev Hs Hch).
    + by eapply (out_change sv sid s _ _ Hs Hch).
    + exact (out_stored sv sid s _ _ db db' Hs Hch Hdb Htx).
  - eapply sublist_NoDup; [apply (so_ids s Hok)|]. apply fmap_sublist, sublist_filter.
  - intros o [_ Ho]%list_elem_of_filter. cbn. exists o. by apply (so_by_id s Hok).
Qed.
End outcomes.

(** * The changes keep the invariant *)

Lemma change_ids sid s s' tx : change sid s s' tx ->
  session_id s' = session_id s /\ scope s' = scope s /\ document_id s' = document_id s
  /\ document_kind s' = document_kind s /\ created_at s' = created_at s.
Proof. by intros []. Qed.

Lemma bound_to_insert p actor q (b : gmap string string) : b !! actor = None ->
  bound_to p (<[actor := q]> b) = ((if decide (q = p) then 1 else 0) + bound_to p b)%nat.
Proof.
  intros Hb. unfold bound_to. case_decide as Hq.
  - rewrite map_filter_insert_True by done. rewrite map_size_insert_None; [done|].
    apply map_lookup_filter_None. by left.
  - rewrite map_filter_insert_False by done. by rewrite delete_id.
Qed.

(** One more actor, within the limits. *)
Lemma bindings_ok actor p (b : gmap string string) : b !! actor = None ->
  (size b < MAX_ACTORS)%nat -> (bound_to p b < MAX_ACTORS_PER_PRINCIPAL)%nat ->
  (forall q, (bound_to q b <= MAX_ACTORS_PER_PRINCIPAL)%nat) ->
  (size (<[actor := p]> b) <= MAX_ACTORS)%nat
  /\ forall q, (bound_to q (<[actor := p]> b) <= MAX_ACTORS_PER_PRINCIPAL)%nat.
Proof.
  intros Hb Hsz Hp Hq. rewrite map_size_insert_None by done. split; [lia|]. intros q.
  rewrite bound_to_insert by done. specialize (Hq q). case_decide; subst; lia.
Qed.

(** The index after forgetting some operations. *)
Lemma lookup_forget (l : list SessionOp) (m : gmap string SessionOp) id :
  foldl (fun m op => delete (op_id op) m) m l !! id = if decide (id ∈ op_id <$> l) then None else m !! id.
Proof.
  revert m. induction l as [|o l IH]; intros m; cbn [foldl].
  - by rewrite decide_False by apply not_elem_of_nil.
  - rewrite IH. csimpl. destruct (decide (id ∈ op_id <$> l)) as [Hin|Hin].
    + by rewrite decide_True by by right.
    + rewrite lookup_delete. destruct (decide (op_id o = id)) as [<-|Hne].
      * by rewrite decide_True by constructor.
      * rewrite decide_False; [done|]. rewrite elem_of_cons. naive_solver.
Qed.

Lemma append_log_ok s op : session_ok s -> base_revision op = revision s -> op_revision op = revision s + 1 ->
  forall i o, (ops s ++ [op]) !! i = Some o ->
    op_revision o = snapshot_revision s + 1 + Z.of_nat i /\ base_revision o = op_revision o - 1.
Proof.
  intros Hok Hbase Hrev i o [Hi|[Hge Hi]]%lookup_app_Some; [by apply (so_log s Hok)|].
  apply list_lookup_singleton_Some in Hi as [Hi <-].
  rewrite Hbase, Hrev, revision_length by done. split; lia.
Qed.

Lemma append_index_ok s op : session_ok s -> ops_by_id s !! op_id op = None ->
  NoDup (op_id <$> (ops s ++ [op]))
  /\ forall id o, <[op_id op := op]> (ops_by_id s) !! id = Some o <-> o ∈ ops s ++ [op] /\ op_id o = id.
Proof.
  intros Hok Hnew.
  assert (Hno : forall o, o ∈ ops s -> op_id o <> op_id op).
  { intros o Ho Heq. pose proof (proj2 (so_by_id s Hok (op_id op) o) (conj Ho Heq)). congruence. }
  split.
  - rewrite fmap_app. apply NoDup_app. split_and!; [apply (so_ids s Hok)| |apply NoDup_singleton].
    intros id Hid Hin. apply list_elem_of_singleton in Hin as ->.
    apply list_elem_of_fmap in Hid as (o & Heq & Ho). by eapply Hno.
  - intros id o. rewrite lookup_insert, elem_of_app, list_elem_of_singleton. case_decide as Heq.
    + split; [intros [= <-]; auto|]. intros [[Ho|<-] Hid]; [|done]. exfalso. by eapply Hno; [|rewrite Hid].
    + rewrite (so_by_id s Hok). naive_solver.
Qed.

(** A checkpoint splits the log. *)
Lemma checkpoint_split s rev : session_ok s -> snapshot_revision s <= rev <= revision s -> exists old new,
  ops s = old ++ new /\ rev = snapshot_revision s + Z.of_nat (length old)
  /\ filter (fun op => rev < op_revision op) (ops s) = new
  /\ filter (fun op => op_revision op <= rev) (ops s) = old.
Proof.
  intros Hok Hrev. set (k := Z.to_nat (rev - snapshot_revision s)).
  rewrite revision_length in Hrev by done.
  assert (Hk : rev = snapshot_revision s + Z.of_nat k) by lia.
  destruct (filter_revision (ops s) (snapshot_revision s) k) as [Hd Ht];
    [intros i o Hi; by apply (so_log s Hok)|].
  exists (take k (ops s)), (drop k (ops s)). rewrite take_drop, length_take.
  split_and!; [done|lia| |]; by rewrite Hk.
Qed.

Lemma checkpoint_ok s v rev : session_ok s -> snapshot_revision s < rev -> rev <= revision s ->
  session_ok (with_log (filter (fun op => rev < op_revision op) (ops s))
         (foldl (fun m op => delete (op_id op) m) (ops_by_id s)
            (filter (fun op => op_revision op <= rev) (ops s)))
         (with_snapshot v rev s)).
Proof.
  intros Hok Hadv Hhead.
  destruct (checkpoint_split s rev Hok ltac:(lia)) as (old & new & Hsplit & Hrev & -> & ->).
  pose proof (so_ids s Hok) as Hnd. rewrite Hsplit, fmap_app in Hnd. apply NoDup_app in Hnd as (_ & Hdis & Hnd).
  constructor; cbn; try (by destruct Hok); try done.
  - intros i o Hi. destruct (so_log s Hok (length old + i) o); [by rewrite Hsplit, lookup_app_r, Nat.add_comm, Nat.add_sub by lia|]. lia.
  - intros id o. rewrite lookup_forget. case_decide as Hin.
    + split; [done|]. intros [Ho <-]. exfalso. apply (Hdis _ Hin). apply list_elem_of_fmap. by exists o.
    + rewrite (so_by_id s Hok), Hsplit, elem_of_app. split; [|naive_solver]. intros [[Ho|Ho] <-]; [|done].
      destruct Hin. apply list_elem_of_fmap. by exists o.
  - intros o Ho. apply (so_attribution s Hok). rewrite Hsplit. apply elem_of_app. by right.
  - pose proof (so_nonneg s Hok). lia.
Qed.

Lemma change_ok sid s s' tx : session_ok s -> change sid s s' tx -> session_ok s'.
Proof.
  intros Hok [role entries Hrole Hown Hroles|actor p Hb Hsz Hper|op Hnew Hbase Hrev Hact|v rev Hadv Hhead].
  - by destruct Hok; constructor.
  - destruct (bindings_ok actor p _ Hb Hsz Hper (so_per_principal s Hok)) as [Hs1 Hs2].
    destruct Hok; constructor; cbn; try done. intros o Ho. rewrite lookup_insert_ne; [auto|].
    intros ->. by rewrite (so_attribution0 o Ho) in Hb.
  - destruct (append_index_ok s op Hok Hnew) as [Hids Hidx].
    assert (Hb : forall q, (bound_to q (match actor_bindings s !! op_actor op with
        | Some _ => actor_bindings s | None => <[op_actor op := op_principal op]> (actor_bindings s) end)
        <= MAX_ACTORS_PER_PRINCIPAL)%nat
      /\ (size (match actor_bindings s !! op_actor op with
        | Some _ => actor_bindings s | None => <[op_actor op := op_principal op]> (actor_bindings s) end)
        <= MAX_ACTORS)%nat).
    { intros q. destruct Hact as [->|(Hn & Hsz & Hper)]; [split; [apply (so_per_principal s Hok)|apply (so_actors s Hok)]|].
      rewrite Hn. destruct (bindings_ok _ _ _ Hn Hsz Hper (so_per_principal s Hok)) as [? Hq]. split; [apply Hq|done]. }
    constructor; cbn; try (by destruct Hok); try done.
    + by apply append_log_ok.
    + intros o [Ho| ->%list_elem_of_singleton]%elem_of_app.
      * apply (so_attribution s Hok) in Ho. destruct Hact as [Ha|(Hn & _)]; [by rewrite Ha|]. rewrite Hn, lookup_insert_ne; [done|].
        intros Heq. congruence.
      * destruct Hact as [Ha|(Hn & _)]; [by rewrite Ha|]. by rewrite Hn, lookup_insert_eq.
    + apply (Hb "").
    + intros q. apply Hb.
  - by apply checkpoint_ok.
Qed.

(** * The store as a map of sessions *)

Definition row_of (s : DocumentSession) : SessionRow :=
  {| row_scope := scope s; row_document_id := document_id s; row_document_kind := document_kind s;
     row_created_at := created_at s; row_snapshot := snapshot s;
     row_snapshot_revision := snapshot_revision s |}.

(** The rows of a session are this session. *)
Record stored (db : SessionStore) (sid : string) (s : DocumentSession) : Prop := {
  st_row : t_sessions db !! sid = Some (row_of s);
  st_ops : forall r o, t_ops db !! (sid, r) = Some o <-> o ∈ ops s /\ op_revision o = r;
  st_actors : forall a, t_actors db !! (sid, a) = actor_bindings s !! a;
  st_acl : forall p, t_acl db !! (sid, p) = acl s !! p;
  st_policy : t_policy db !! sid = Some (default_role s);
}.

(** No session row, and no policy row. *)
Definition rowless (sid : string) (db : SessionStore) : Prop := t_sessions db !! sid = None /\ t_policy db !! sid = None.

Definition represents (db : SessionStore) (m : gmap string DocumentSession) : Prop :=
  forall sid, match m !! sid with
              | Some s => session_id s = sid /\ session_ok s /\ stored db sid s
              | None => rowless sid db
              end.

(** What is not a stored session has no row at all. *)
Definition clean (db : SessionStore) : Prop := forall sid, t_sessions db !! sid = None -> unused sid db.

(** What is stored may be behind what is in memory, by checkpoints alone: it
    then has an older snapshot and more operations. *)
Record lags (s' s : DocumentSession) : Prop := {
  lag_scope : scope s' = scope s;
  lag_document : document_id s' = document_id s;
  lag_kind : document_kind s' = document_kind s;
  lag_created : created_at s' = created_at s;
  lag_bindings : actor_bindings s' = actor_bindings s;
  lag_acl : acl s' = acl s;
  lag_default : default_role s' = default_role s;
  lag_snapshot : snapshot_revision s' <= snapshot_revision s;
  lag_ops : ops s = filter (fun op => snapshot_revision s < op_revision op) (ops s');
  lag_revision : revision s' = revision s;
  lag_document_state : snapshot_revision s' = snapshot_revision s -> snapshot s' = snapshot s;
}.

(** What a call does to a log: operations at its end, or a cut at a revision. *)
Definition log_effect (e : list SessionOp + Z) (s s2 : DocumentSession) : Prop :=
  match e with
  | inl new => ops s2 = ops s ++ new /\ snapshot_revision s2 = snapshot_revision s
  | inr rev => snapshot_revision s <= rev <= revision s /\ snapshot_revision s2 = rev
               /\ ops s2 = filter (fun op => rev < op_revision op) (ops s)
  end.

Definition rows_unchanged (sid : string) (db db' : SessionStore) : Prop :=
  t_sessions db' !! sid = t_sessions db !! sid /\ t_policy db' !! sid = t_policy db !! sid
  /\ (forall r, t_ops db' !! (sid, r) = t_ops db !! (sid, r))
  /\ (forall a, t_actors db' !! (sid, a) = t_actors db !! (sid, a))
  /\ (forall p, t_acl db' !! (sid, p) = t_acl db !! (sid, p)).

Lemma represents_other db db' m sid' : represents db m -> rows_unchanged sid' db db' ->
  match m !! sid' with Some s => session_id s = sid' /\ session_ok s /\ stored db' sid' s | None => rowless sid' db' end.
Proof.
  intros Hm (H1 & H2 & H3 & H4 & H5). specialize (Hm sid'). destruct (m !! sid') as [s0|].
  - destruct Hm as (? & ? & [R O A L Q]). split_and!; [done|done|].
    constructor; intros; rewrite ?H1, ?H2, ?H3, ?H4, ?H5; auto.
  - unfold rowless. by rewrite H1, H2.
Qed.

Lemma represents_update db db' m sid s :
  represents db m -> (forall sid', sid' <> sid -> rows_unchanged sid' db db') ->
  session_id s = sid -> session_ok s -> stored db' sid s -> represents db' (<[sid := s]> m).
Proof.
  intros Hm Hrows Hid Hok Hst sid'. rewrite lookup_insert. case_decide as Heq; [by subst sid'|].
  apply (represents_other db); auto.
Qed.

(** Rows of a session that is not stored change no stored one. *)
Lemma represents_unstored db db' m sid :
  represents db m -> (forall sid', sid' <> sid -> rows_unchanged sid' db db') -> m !! sid = None -> rowless sid db' -> represents db' m.
Proof.
  intros Hm Hrows Hnone Hrow sid'. destruct (decide (sid' = sid)) as [->|Hne]; [by rewrite Hnone|]. apply (represents_other db); auto.
Qed.

Lemma unused_other db db' sid : rows_unchanged sid db db' -> unused sid db -> unused sid db'.
Proof.
  intros (H1 & H2 & H3 & H4 & H5) (?&?&?&?&?). unfold unused. setoid_rewrite H3. setoid_rewrite H4. setoid_rewrite H5.
  by rewrite H1, H2.
Qed.

Lemma lookup_filter_keep {K V} `{Countable K} (Q : K * V -> Prop) `{!forall x, Decision (Q x)} (t : gmap K V) k :
  (forall v, Q (k, v)) -> filter Q t !! k = t !! k.
Proof.
  intros Hq. destruct (t !! k) as [v|] eqn:E; [by apply map_lookup_filter_Some_2|].
  apply map_lookup_filter_None. by left.
Qed.

Lemma lookup_rows {V} (sid sid' : string) (entries : gmap string V) (u : gmap (string * string) V) p :
  (kmap (pair sid) entries ∪ u) !! (sid', p)
  = if decide (sid' = sid) then match entries !! p with Some v => Some v | None => u !! (sid', p) end
    else u !! (sid', p).
Proof.
  rewrite lookup_union. case_decide as Heq; [subst|].
  - rewrite (lookup_kmap (pair sid)). destruct (entries !! p); cbn; [|by destruct (u !! _)]. by destruct (u !! _).
  - rewrite (proj2 (lookup_kmap_None (pair sid) entries (sid', p))); [by destruct (u !! _)|].
    intros q [= -> ->]. done.
Qed.

(** A committed change touches the rows of its session only, and makes none of
    the two rows that make a session. *)
Lemma change_rows db db' sid s s' tx : change sid s s' tx -> tx db = Some db' ->
  (forall sid', sid' <> sid -> rows_unchanged sid' db db') /\ (rowless sid db -> rowless sid db').
Proof.
  intros [role entries Hrole Hown Hroles|actor p Hb Hsz Hper|op Hnew Hbase Hrev Hact|v rev Hadv Hhead]; cbn; intros Htx.
  - injection Htx as <-. split.
    + intros sid' Hne. unfold rows_unchanged. cbn. split_and!; try done.
      * destruct (t_policy db !! sid); [by rewrite lookup_insert_ne|done].
      * intros p. rewrite lookup_rows, decide_False by done. by apply lookup_filter_keep.
    + intros [H1 H2]. unfold rowless. cbn. by rewrite H1, H2.
  - unfold db_put_actor in Htx. destruct (t_actors db !! (sid, actor)); [done|]. injection Htx as <-. split; [|done].
    intros sid' Hne. split_and!; try done. intros a. cbn. by rewrite lookup_insert_ne by congruence.
  - unfold db_append_op in Htx. destruct (t_ops db !! (sid, op_revision op)) eqn:Ho; [done|].
    destruct (decide (op_id_taken _ _ _)) as [|Hfree]; [done|]. injection Htx as <-. split; [|done].
    intros sid' Hne. split_and!; try done.
    + intros r. cbn. by rewrite lookup_insert_ne by congruence.
    + intros a. cbn. destruct (t_actors db !! (sid, op_actor op)); [done|]. by rewrite lookup_insert_ne by congruence.
  - injection Htx as <-. split.
    + intros sid' Hne. unfold rows_unchanged. cbn. split_and!; try done.
      * by rewrite lookup_alter_ne.
      * intros r. apply lookup_filter_keep. cbn. tauto.
    + intros [H1 H2]. split; [|done]. cbn. by rewrite lookup_alter_eq, H1.
Qed.

(** A committed change is the same change of the stored session. *)
Lemma change_stored db db' sid s s' tx :
  stored db sid s -> session_ok s -> change sid s s' tx -> tx db = Some db' -> stored db' sid s'.
Proof.
  intros [R O A L Q] Hok [role entries Hrole Hown Hroles|actor p Hb Hsz Hper|op Hnew Hbase Hrev Hact|v rev Hadv Hhead];
    cbn; intros Htx.
  - injection Htx as <-. rewrite Q. constructor; cbn; try done.
    + intros p. rewrite lookup_rows, decide_True by done. destruct (entries !! p) eqn:E; [done|].
      apply map_lookup_filter_None. right. intros v _. cbn. tauto.
    + by rewrite lookup_insert_eq.
  - unfold db_put_actor in Htx. rewrite A, Hb in Htx. injection Htx as <-.
    constructor; cbn; try done. intros a. rewrite !lookup_insert. repeat case_decide; simplify_eq; done.
  - unfold db_append_op in Htx. destruct (t_ops db !! (sid, op_revision op)) eqn:Ho; [done|].
    destruct (decide (op_id_taken _ _ _)) as [|Hfree]; [done|]. injection Htx as <-. rewrite A.
    constructor; cbn; try done.
    + intros r o. rewrite lookup_insert, elem_of_app, list_elem_of_singleton. case_decide as Heq.
      * injection Heq as <-. split; [intros [= <-]; auto|]. intros [[Hin| ->] Hr]; [|done].
        exfalso. pose proof (proj2 (O _ o) (conj Hin Hr)). congruence.
      * rewrite O. naive_solver.
    + intros a. destruct (actor_bindings s !! op_actor op) eqn:E; [apply A|].
      rewrite !lookup_insert. repeat case_decide; simplify_eq; done.
  - injection Htx as <-. constructor; cbn; try done.
    + by rewrite lookup_alter_eq, R.
    + intros r o. rewrite map_lookup_filter_Some, O, list_elem_of_filter. cbn. split.
      * intros [[Hin <-] Hn]. split; [|done]. split; [|done]. destruct (decide (rev < op_revision o)); [done|].
        destruct Hn. split; [done|lia].
      * intros [[Hlt Hin] <-]. split; [done|]. intros [_ ?]. lia.
Qed.

Lemma lags_refl s : session_ok s -> lags s s.
Proof.
  intros Hok. constructor; try done. symmetry.
  destruct (filter_revision (ops s) (snapshot_revision s) 0) as [Hd _];
    [intros i o Hi; by apply (so_log s Hok)|].
  etrans; [|exact Hd]. apply list_filter_iff. intros o. lia.
Qed.

(** A change of the session in memory that the store takes is a change of the
    stored session too, and leaves it as far behind as it was. *)
Lemma change_lags db db' sid s' s s2 tx :
  session_ok s' -> session_ok s -> lags s' s -> stored db sid s' -> change sid s s2 tx -> tx db = Some db' ->
  exists s2', change sid s' s2' tx /\ lags s2' s2 /\ exists e, log_effect e s s2 /\ log_effect e s' s2'.
Proof.
  intros Hok' Hok Hlag Hst Hch. pose proof Hlag as [Lsc Ldo Lki Lcr Lb La Lde Lsn Lop Lre Lds].
  destruct Hch as [role entries Hrole Hown Hroles|actor p Hb Hsz Hper|op Hnew Hbase Hrev Hact|v rev Hadv Hhead]; intros Htx.
  - eexists. split_and!; [by apply ch_policy|by constructor|]. exists (inl []). cbn. by rewrite !app_nil_r.
  - rewrite <- Lb in *. eexists. split_and!; [by apply ch_bind|by constructor; cbn|].
    exists (inl []). cbn. by rewrite !app_nil_r.
  - rewrite <- Lb in Hact. rewrite <- Lre in Hbase, Hrev. eexists. split_and!; [apply ch_append; try done| |by exists (inl [op])].
    + apply eq_None_not_Some. intros [o [Hin Hid]%(so_by_id s' Hok')]. unfold db_append_op in Htx.
      destruct (t_ops db !! _); [done|]. destruct (decide (op_id_taken _ _ _)) as [|Hfree]; [done|].
      apply Hfree. exists (sid, op_revision o), o. split; [|done]. by apply (st_ops _ _ _ Hst).
    + constructor; cbn; try done.
      * by rewrite Lb.
      * rewrite filter_app, <- Lop. f_equal. rewrite filter_cons_True; [done|].
        rewrite Hrev, Lre, revision_length by done. lia.
      * unfold revision. cbn. by rewrite !last_snoc.
  - rewrite <- Lre in Hhead.
    exists (with_log (filter (fun op => rev < op_revision op) (ops s'))
         (foldl (fun m op => delete (op_id op) m) (ops_by_id s')
            (filter (fun op => op_revision op <= rev) (ops s')))
         (with_snapshot v rev s')).
    assert (Hops : filter (fun op => rev < op_revision op) (ops s) = filter (fun op => rev < op_revision op) (ops s')).
    { rewrite Lop. apply list_filter_filter_l. intros o. lia. }
    split_and!; [apply ch_checkpoint; [lia|done]| |].
    + constructor; cbn; try done.
      * rewrite Hops. symmetry. by apply list_filter_filter_r.
      * unfold revision. cbn. by rewrite Hops.
    + exists (inr rev). cbn. split_and!; try done; lia.
Qed.

(** A checkpoint that only memory has seen puts the store further behind. *)
Lemma ahead_lags sid s' s s2 v rev :
  session_ok s' -> session_ok s -> lags s' s -> change sid s s2 (db_checkpoint sid v rev) ->
  snapshot_revision s < snapshot_revision s2 -> lags s' s2.
Proof.
  intros Hok' Hok Hlag Hch Hadv. pose proof Hlag as [Lsc Ldo Lki Lcr Lb La Lde Lsn Lop Lre Lds].
  inversion Hch as [|actor p Hb|op|v' rev' Hadv' Hhead']; subst; cbn in Hadv; try lia.
  constructor; cbn; try done; try lia.
  - rewrite Lop. apply list_filter_filter_l. intros o. lia.
  - rewrite Lre. destruct (checkpoint_split s rev' Hok ltac:(lia)) as (old & new & Hs & Hrev & Hnew & _).
    pose proof (checkpoint_ok s v' rev' Hok Hadv' Hhead') as Hok2.
    rewrite (revision_length _ Hok2), (revision_length s Hok). cbn. rewrite Hnew, Hs, length_app. lia.
Qed.

Lemma delete_rows db db' sid : db_delete_session sid db = Some db' ->
  unused sid db' /\ forall sid', sid' <> sid -> rows_unchanged sid' db db'.
Proof.
  intros [= <-]. split.
  - split_and!; cbn; try apply lookup_delete_eq; intros; apply map_lookup_filter_None; right; cbn; tauto.
  - intros sid' Hne. split_and!; cbn; try (by apply lookup_delete_ne); intros; apply lookup_filter_keep; cbn; congruence.
Qed.

Lemma deleted db db' m sid : represents db m -> db_delete_session sid db = Some db' ->
  represents db' (delete sid m).
Proof.
  intros Hm [Hun Hrows]%delete_rows sid'. rewrite lookup_delete. case_decide as Heq; [subst sid'|].
  - destruct Hun as (?&?&_). by split.
  - apply (represents_other db); auto.
Qed.

Lemma put_rows s db db' : db_put_session s db = Some db' -> forall sid', sid' <> session_id s -> rows_unchanged sid' db db'.
Proof.
  unfold db_put_session. intros Htx sid' Hne. destruct (t_sessions db !! session_id s), (t_policy db !! session_id s); try done.
  case_bool_decide; [|done]. injection Htx as <-. split_and!; cbn; try done; try (by rewrite lookup_insert_ne).
  intros p. by rewrite lookup_rows, decide_False.
Qed.

Lemma created db db' m s : represents db m -> session_ok s -> ops s = [] -> actor_bindings s = ∅ ->
  unused (session_id s) db -> db_put_session s db = Some db' ->
  represents db' (<[session_id s := s]> m).
Proof.
  intros Hm Hok Hops Hb (U1 & U2 & U3 & U4 & U5) Htx. unfold db_put_session in Htx. rewrite U1, U2 in Htx.
  pose proof (put_rows s db) as Hrows. unfold db_put_session in Hrows. rewrite U1, U2 in Hrows.
  case_bool_decide; [|done]. specialize (Hrows _ eq_refl). injection Htx as <-. apply (represents_update db); try done.
  - constructor; cbn.
    + by rewrite lookup_insert_eq.
    + intros r o. rewrite U3, Hops. split; [done|]. by intros [?%not_elem_of_nil _].
    + intros a. by rewrite U4, Hb, lookup_empty.
    + intros p. rewrite lookup_rows, decide_True by done. destruct (acl s !! p); [done|]. apply U5.
    + by rewrite lookup_insert_eq.
Qed.

(** An unused id can be put. *)
Lemma put_unused s db : unused (session_id s) db -> is_Some (db_put_session s db).
Proof.
  intros (U1 & U2 & U3 & U4 & U5). unfold db_put_session. rewrite U1, U2, bool_decide_true; [by eexists|].
  intros p r _. apply U5.
Qed.

(** * Loading what is stored *)

Section rows.
Context {K V : Type} `{Countable K}.
Implicit Types (t : gmap (string * K) V) (sid : string).

Lemma elem_of_rows sid t k v : (k, v) ∈ rows_of sid t <-> t !! (sid, k) = Some v.
Proof.
  unfold rows_of. rewrite list_elem_of_omap. split.
  - intros ([[sid' k'] v'] & Hin & Heq). cbn in Heq. case_decide; simplify_eq. by apply elem_of_map_to_list.
  - intros Hk. exists ((sid, k), v). rewrite elem_of_map_to_list. cbn. by rewrite decide_True.
Qed.

Lemma NoDup_rows sid t : NoDup (rows_of sid t).*1.
Proof.
  unfold rows_of. pose proof (NoDup_fst_map_to_list t) as Hnd.
  induction (map_to_list t) as [|[[sid' k] v] l IH]; [constructor|].
  apply NoDup_cons in Hnd as [Hno Hnd]. specialize (IH Hnd). cbn. case_decide as Heq; [|done]. cbn in *. subst sid'.
  constructor; [|done]. intros Hin. apply Hno.
  apply list_elem_of_fmap in Hin as ([k' v'] & -> & Hin). apply list_elem_of_omap in Hin as ([[sid' k0] v0] & Hin & Heq).
  cbn in Heq. case_decide; simplify_eq/=. apply list_elem_of_fmap. by exists ((sid, k'), v').
Qed.

Lemma lookup_loaded sid t k : (list_to_map (rows_of sid t) : gmap K V) !! k = t !! (sid, k).
Proof.
  destruct (t !! (sid, k)) as [v|] eqn:E.
  - apply elem_of_list_to_map; [apply NoDup_rows|]. by apply elem_of_rows.
  - apply not_elem_of_list_to_map. intros ([k' v] & -> & Hin)%list_elem_of_fmap. cbn in E.
    apply elem_of_rows in Hin. congruence.
Qed.
End rows.

Lemma contiguous_sorted l snap :
  (forall i o, l !! i = Some o -> op_revision o = snap + 1 + Z.of_nat i) -> StronglySorted rev_le l.
Proof.
  revert snap. induction l as [|o l IH]; intros snap Hl; constructor.
  - apply (IH (snap + 1)). intros i o' Hi. rewrite (Hl (S i) o' Hi). lia.
  - apply Forall_forall. intros o' [i Hi]%list_elem_of_lookup. unfold rev_le.
    rewrite (Hl 0%nat o eq_refl), (Hl (S i) o' Hi). lia.
Qed.

Lemma index_loaded s : session_ok s ->
  list_to_map (reverse ((fun o => (op_id o, o)) <$> ops s)) = ops_by_id s.
Proof.
  intros Hok. apply map_eq. intros id. apply option_eq. intros o. rewrite <- elem_of_list_to_map.
  - rewrite elem_of_reverse, list_elem_of_fmap, (so_by_id _ Hok). naive_solver.
  - rewrite fmap_reverse, reverse_Permutation, <- list_fmap_compose. apply (so_ids _ Hok).
Qed.

Lemma load_stored db sid s : stored db sid s -> session_ok s -> session_id s = sid ->
  load_session db sid (row_of s) = s.
Proof.
  intros [R O A L Q] Hok Hid. unfold load_session.
  assert (Hperm : (rows_of sid (t_ops db)).*2 ≡ₚ ops s).
  { apply NoDup_Permutation.
    - apply NoDup_fmap_2_strong; [|by eapply NoDup_fmap_1, NoDup_rows].
      intros [r o] [r' o'] H1%elem_of_rows H2%elem_of_rows Heq. cbn in *. subst o'.
      apply O in H1 as [_ <-], H2 as [_ <-]. done.
    - eapply NoDup_fmap_1, (so_ids s Hok).
    - intros o. rewrite list_elem_of_fmap. split.
      + intros ([r o'] & -> & Hin%elem_of_rows). by apply O in Hin as [? _].
      + intros Hin. exists (op_revision o, o). split; [done|]. by apply elem_of_rows, O. }
  assert (Hops : merge_sort rev_le (rows_of sid (t_ops db)).*2 = ops s).
  { apply (StronglySorted_unique_strong rev_le).
    - intros o1 o2 H1 H2 Hle Hge. rewrite merge_sort_Permutation, Hperm in H1.
      apply list_elem_of_lookup in H1 as [i Hi], H2 as [j Hj].
      destruct (so_log s Hok i o1 Hi) as [Hri _], (so_log s Hok j o2 Hj) as [Hrj _].
      unfold rev_le in *. assert (i = j) as -> by lia. congruence.
    - apply StronglySorted_merge_sort; [intros a b c; unfold rev_le; lia|intros a b; unfold rev_le; lia].
    - eapply contiguous_sorted. intros i o Hi. by apply (so_log s Hok).
    - by rewrite merge_sort_Permutation. }
  rewrite Hops, Q, (index_loaded s Hok). destruct s; simpl in *. subst. f_equal.
  - apply map_eq. intros a. by rewrite lookup_loaded.
  - apply map_eq. intros p. by rewrite lookup_loaded.
Qed.

Lemma represents_dom db m : represents db m -> dom (t_sessions db) = dom m.
Proof.
  intros Hm. apply set_eq. intros sid. rewrite !elem_of_dom. specialize (Hm sid).
  destruct (m !! sid) as [s|].
  - destruct Hm as (_ & _ & [-> _ _ _ _]). split; by eexists.
  - destruct Hm as [-> _]. done.
Qed.

Lemma clean_no_orphans db : clean db -> no_orphans db.
Proof.
  intros Hc. assert (Hrow : forall sid, ~ unused sid db -> is_Some (t_sessions db !! sid)).
  { intros sid Hno. destruct (t_sessions db !! sid) eqn:E; [by eexists|]. by destruct (Hno (Hc sid E)). }
  split_and!.
  - intros [sid a] v Ha. apply Hrow. intros (_ & _ & _ & U & _). by rewrite U in Ha.
  - intros sid v Ha. apply Hrow. intros (_ & U & _). by rewrite U in Ha.
  - intros [sid p] v Ha. apply Hrow. intros (_ & _ & _ & _ & U). by rewrite U in Ha.
Qed.

Lemma represents_row db m sid : represents db m -> is_Some (t_sessions db !! sid) <-> is_Some (m !! sid).
Proof. intros Hm. by rewrite <- !elem_of_dom, (represents_dom db m Hm). Qed.

Lemma load_represents db m : represents db m -> no_orphans db ->
  load_all db = Ok (omap (fun sid => m !! sid) (sorted_set (dom m))).
Proof.
  intros Hm Ho. unfold load_all. rewrite decide_True by done.
  rewrite (represents_dom db m Hm). f_equal. apply list_omap_ext. apply Forall_Forall2_diag, Forall_forall.
  intros sid _. specialize (Hm sid). destruct (m !! sid) as [s|].
  - destruct Hm as (Hid & Hok & Hst). rewrite (st_row _ _ _ Hst). cbn. f_equal. by apply load_stored.
  - destruct Hm as [-> _]. done.
Qed.

(** * The service over its store *)

(** Every open session is well formed and keyed by its id, and the store,
    when there is one, has the rows of sessions [m], of which the open ones
    are at most checkpoints behind; an open session that is not among them,
    or a closed one, may have other rows there. *)
Record service_ok (sv : SessionService) (m : gmap string DocumentSession) : Prop := {
  sv_keys : NoDup (keys (sessions_map sv));
  sv_sessions : forall sid s, dict_get (sessions_map sv) sid = Some s -> session_id s = sid /\ session_ok s;
  sv_store : forall db, store sv = Some db -> represents db m;
  sv_backed : is_Some (store sv) -> forall sid s s', dict_get (sessions_map sv) sid = Some s ->
    m !! sid = Some s' -> lags s' s;
}.

(** Every open session is stored, and nothing else is. *)
Definition all_stored (sv : SessionService) (m : gmap string DocumentSession) : Prop :=
  forall db, store sv = Some db -> clean db /\ forall sid s, dict_get (sessions_map sv) sid = Some s -> is_Some (m !! sid).

(** The operations a session retains are the end of this log, whose first
    revision follows [base]. *)
Record suffix_of (base : Z) (log : list SessionOp) (s : DocumentSession) : Prop := {
  su_log : forall i o, log !! i = Some o -> op_revision o = base + 1 + Z.of_nat i;
  su_cut : exists k, (k <= length log)%nat /\ snapshot_revision s = base + Z.of_nat k /\ ops s = drop k log;
}.

(** In memory and in the store. *)
Record log_inv (sid : string) (base : Z) (log : list SessionOp) (sv : SessionService)
  (m : gmap string DocumentSession) : Prop := {
  li_memory : exists s, dict_get (sessions_map sv) sid = Some s /\ suffix_of base log s;
  li_store : is_Some (store sv) -> forall s', m !! sid = Some s' -> suffix_of base log s';
}.

Definition new_ops (e : list SessionOp + Z) : list SessionOp :=
  match e with inl new => new | inr _ => [] end.

Lemma suffix_effect base log e s s2 : suffix_of base log s -> session_ok s -> session_ok s2 ->
  log_effect e s s2 -> suffix_of base (log ++ new_ops e) s2.
Proof.
  intros [Hlog (k & Hk & Hsnap & Hops)] Hok Hok2 He. destruct e as [new|rev]; cbn [new_ops].
  - destruct He as [Hnew Hs2]. assert (Hcut : ops s2 = drop k (log ++ new)).
    { rewrite Hnew, Hops, drop_app_le by done. done. }
    split; [|exists k; rewrite length_app; split_and!; [lia|congruence|done]].
    intros i o Hi. destruct (decide (i < k)%nat).
    + rewrite lookup_app_l in Hi by lia. by apply Hlog.
    + destruct (so_log s2 Hok2 (i - k) o) as [-> _]; [|rewrite Hs2; lia].
      rewrite Hcut, lookup_drop. by replace (k + (i - k))%nat with i by lia.
  - destruct He as (Hrev & Hs2 & Hcut). rewrite app_nil_r. split; [done|].
    rewrite (revision_length s Hok) in Hrev. set (j := Z.to_nat (rev - snapshot_revision s)).
    assert (Hj : rev = snapshot_revision s + Z.of_nat j) by lia.
    rewrite Hj in Hcut. rewrite (proj1 (filter_revision _ _ j (fun i o Hi => proj1 (so_log s Hok i o Hi)))) in Hcut.
    assert (Hlen : length (ops s) = (length log - k)%nat) by (rewrite Hops; apply length_drop).
    exists (k + j)%nat. split_and!; [lia|lia|]. by rewrite Hcut, Hops, drop_drop.
Qed.

Lemma change_effect sid s s2 tx : session_ok s -> change sid s s2 tx -> exists e, log_effect e s s2.
Proof.
  intros Hok [|actor p Hb|op Hnew|v rev Hadv Hhead].
  - exists (inl []). cbn. by rewrite app_nil_r.
  - exists (inl []). cbn. by rewrite app_nil_r.
  - by exists (inl [op]).
  - exists (inr rev). cbn. split_and!; [lia|done|done|done].
Qed.

(** Replacing one open session. *)
Lemma get_replaced sv sid s2 x s : dict_get (sessions_map (set_sessions (dict_set (sessions_map sv) sid s2) sv)) x = Some s ->
  x = sid /\ s = s2 \/ x <> sid /\ dict_get (sessions_map sv) x = Some s.
Proof. cbn. rewrite dict_get_set. case_decide; [intros [= <-]|]; auto. Qed.

Lemma suffix_nil base log new s : new = [] -> suffix_of base log s -> suffix_of base (log ++ new) s.
Proof. intros ->. by rewrite app_nil_r. Qed.

(** A change of one session, in memory alone. *)
Lemma memory_change sv m sid s s2 e :
  service_ok sv m -> dict_get (sessions_map sv) sid = Some s -> session_id s2 = sid -> session_ok s2 ->
  (is_Some (store sv) -> forall s', m !! sid = Some s' -> lags s' s2) -> log_effect e s s2 ->
  (is_Some (store sv) -> new_ops e = []) ->
  let sv' := set_sessions (dict_set (sessions_map sv) sid s2) sv in
  service_ok sv' m /\ forall x base log, log_inv x base log sv m -> exists new, log_inv x base (log ++ new) sv' m.
Proof.
  intros Hsv Hs Hid Hok Hlag He Hnew sv'. destruct Hsv as [Hkeys Hall Hst Hback]. split; [constructor|].
  - by apply NoDup_dict_set.
  - intros x s0 [[-> ->]|[_ Hx]]%get_replaced; auto.
  - done.
  - intros Hsome x s0 s' [[-> ->]|[_ Hx]]%get_replaced; [by apply Hlag|by apply Hback].
  - intros x base log [(s0 & Hx & Hsuf) Hsto]. destruct (decide (x = sid)) as [->|Hne].
    + assert (s0 = s) as -> by congruence. exists (new_ops e). split.
      * exists s2. split; [apply update_get|]. apply (suffix_effect _ _ _ s); try done. by apply (Hall sid).
      * intros Hsome s' Hs'. apply suffix_nil; auto.
    + exists []. rewrite app_nil_r. split; [|done]. exists s0. split; [|done].
      unfold sv'. cbn. by rewrite dict_get_set, decide_False.
Qed.

(** A change that the store takes as well. *)
Lemma stored_change sv m sid s s2 tx db db' :
  service_ok sv m -> dict_get (sessions_map sv) sid = Some s -> change sid s s2 tx ->
  store sv = Some db -> tx db = Some db' ->
  let sv' := set_store db' (set_sessions (dict_set (sessions_map sv) sid s2) sv) in
  exists m', service_ok sv' m' /\ (forall x base log, log_inv x base log sv m -> exists new, log_inv x base (log ++ new) sv' m')
    /\ (forall x, is_Some (m' !! x) <-> is_Some (m !! x)).
Proof.
  intros Hsv Hs Hch Hdb Htx sv'. destruct Hsv as [Hkeys Hall Hst Hback].
  destruct (Hall _ _ Hs) as [Hid Hok]. specialize (Hst db Hdb). destruct (change_rows _ _ _ _ _ _ Hch Htx) as [Hrows Hless].
  pose proof (change_ok _ _ _ _ Hok Hch) as Hok2. pose proof (change_ids _ _ _ _ Hch) as [Hids _].
  assert (Hmem : forall x s0, dict_get (sessions_map sv') x = Some s0 -> session_id s0 = x /\ session_ok s0).
  { intros x s0. cbn. rewrite dict_get_set. case_decide as Hx; [intros [= <-]; subst x; split; congruence|by apply Hall]. }
  assert (Hnd : NoDup (keys (sessions_map sv'))) by by apply NoDup_dict_set.
  pose proof (Hst sid) as Hrow. destruct (m !! sid) as [s'|] eqn:Hm.
  - destruct Hrow as (Hid' & Hok' & Hstored). pose proof (Hback ltac:(by eexists) _ _ _ Hs Hm) as Hlag.
    destruct (change_lags db db' sid s' s s2 tx) as (s2' & Hch' & Hlag2 & e & He & He'); try done.
    pose proof (change_stored db db' sid s' s2' tx Hstored Hok' Hch' Htx) as Hstored2.
    pose proof (change_ok _ _ _ _ Hok' Hch') as Hok2'. pose proof (change_ids _ _ _ _ Hch') as [Hids' _].
    exists (<[sid := s2']> m). split_and!; [constructor|..].
    + done.
    + done.
    + intros d [= <-]. eapply represents_update; try done. congruence.
    + intros _ x s0 s0'. cbn. rewrite dict_get_set, lookup_insert. case_decide as Hx.
      * rewrite decide_True by done. by intros [= <-] [= <-].
      * rewrite decide_False by done. apply Hback. by eexists.
    + intros x base log [(s0 & Hx & Hsuf) Hsto]. destruct (decide (x = sid)) as [->|Hne].
      * assert (s0 = s) as -> by congruence. exists (new_ops e). split.
        -- exists s2. cbn. rewrite dict_get_set, decide_True by done. split; [done|]. by apply (suffix_effect _ _ _ s).
        -- intros _ s3. rewrite lookup_insert_eq. intros [= <-]. apply (suffix_effect _ _ _ s'); try done.
           apply Hsto; [by eexists|done].
      * exists []. rewrite app_nil_r. split.
        -- exists s0. cbn. by rewrite dict_get_set, decide_False.
        -- intros _ s3. rewrite lookup_insert_ne by done. apply Hsto. by eexists.
    + intros x. rewrite lookup_insert. case_decide as Hx; [subst x; rewrite Hm; split; by eexists|done].
  - destruct (change_effect _ _ _ _ Hok Hch) as [e He]. exists m. split_and!; [constructor|..].
    + done.
    + done.
    + intros d [= <-]. apply (represents_unstored db db' m sid); [done|done|done|by apply Hless].
    + intros _ x s0 s0'. cbn. rewrite dict_get_set. case_decide as Hx; [subst x; congruence|]. apply Hback. by eexists.
    + intros x base log [(s0 & Hx & Hsuf) Hsto]. destruct (decide (x = sid)) as [->|Hne].
      * assert (s0 = s) as -> by congruence. exists (new_ops e). split.
        -- exists s2. cbn. rewrite dict_get_set, decide_True by done. split; [done|]. by apply (suffix_effect _ _ _ s).
        -- intros _ s3. congruence.
      * exists []. rewrite app_nil_r. split; [|intros _; apply Hsto; by eexists].
        exists s0. cbn. by rewrite dict_get_set, decide_False.
    + done.
Qed.

(** Where every open session is stored, so it is after the change. *)
Lemma stored_change_all sv m m' sid s s2 tx db db' :
  all_stored sv m -> dict_get (sessions_map sv) sid = Some s -> change sid s s2 tx -> store sv = Some db -> tx db = Some db' ->
  represents db' m' -> (forall x, is_Some (m' !! x) <-> is_Some (m !! x)) ->
  all_stored (set_store db' (set_sessions (dict_set (sessions_map sv) sid s2) sv)) m'.
Proof.
  intros Hall Hs Hch Hdb Htx Hrep Hdom d [= <-]. destruct (Hall db Hdb) as [Hclean Hopen].
  destruct (change_rows _ _ _ _ _ _ Hch Htx) as [Hrows _]. split.
  - intros x Hx. destruct (decide (x = sid)) as [->|Hne].
    + exfalso. pose proof (Hopen sid s Hs) as Hsome. apply Hdom, (represents_row db' m' sid Hrep) in Hsome. rewrite Hx in Hsome. by destruct Hsome.
    + apply (unused_other db); [by apply Hrows|]. apply Hclean. by destruct (Hrows x Hne) as [<- _].
  - intros x s0. cbn. rewrite dict_get_set. intros Hx. apply Hdom. case_decide; [subst x; by eapply Hopen|by eapply Hopen].
Qed.

(** What is left when a session is closed, whether or not the store hears it. *)
Lemma closed_service sv m sid store' :
  service_ok sv m -> (store' = store sv \/ store' = (store sv ≫= db_delete_session sid)) ->
  let sv' := {| max_retained_ops := max_retained_ops sv;
                sessions_map := dict_del (sessions_map sv) sid; store := store' |} in
  exists m', service_ok sv' m' /\ (forall x base log, log_inv x base log sv m ->
    is_Some (dict_get (sessions_map sv') x) -> log_inv x base log sv' m')
  /\ (forall x, x <> sid -> m' !! x = m !! x) /\ (all_stored sv m -> all_stored sv' m').
Proof.
  intros Hsv Hstore sv'. destruct Hsv as [Hkeys Hall Hst Hback].
  assert (Hget : forall x s, dict_get (sessions_map sv') x = Some s -> x <> sid /\ dict_get (sessions_map sv) x = Some s).
  { intros x s. cbn. rewrite dict_get_del by done. by case_decide. }
  assert (Hsome : is_Some (store sv') -> is_Some (store sv)).
  { destruct Hstore as [-> | ->]; cbn; [done|]. destruct (store sv); [by eexists|by intros []]. }
  assert (Hm : exists m', (forall db, store' = Some db -> represents db m') /\ (forall x, x <> sid -> m' !! x = m !! x)
    /\ forall db0, store sv = Some db0 -> clean db0 -> forall db, store' = Some db -> clean db).
  { destruct Hstore as [-> | ->]; [exists m; split_and!; [done|done|intros; by simplify_eq]|]. exists (delete sid m). split_and!.
    - intros db. destruct (store sv) as [db0|]; [|done]. cbn [mbind option_bind]. intros Hdel.
      eapply (deleted db0); [by apply Hst|done].
    - intros x Hx. by apply lookup_delete_ne.
    - intros db0 -> Hc db [Hun Hrows]%delete_rows x Hx. destruct (decide (x = sid)) as [->|Hne]; [done|].
      apply (unused_other db0); [by apply Hrows|]. apply Hc. by destruct (Hrows x Hne) as [<- _]. }
  destruct Hm as (m' & Hrep & Heq & Hcl). exists m'. split_and!; [constructor|..].
  - by apply NoDup_dict_del.
  - intros x s [_ Hx]%Hget. by apply Hall.
  - done.
  - intros Hs x s s' [Hne Hx]%Hget. rewrite Heq by done. apply Hback; auto.
  - intros x base log [(s0 & Hx & Hsuf) Hsto] [s1 Hx1]. destruct (Hget _ _ Hx1) as [Hne Hx2]. split.
    + exists s1. split; [done|]. congruence.
    + intros Hs s'. rewrite Heq by done. auto.
  - done.
  - intros Hst0 db Hdb. destruct Hsome as [db0 Hdb0]; [by exists db|]. destruct (Hst0 db0 Hdb0) as [Hclean Hopen]. split; [by eapply Hcl|].
    intros x s [Hne Hx]%Hget. rewrite Heq by done. by eapply Hopen.
Qed.

(** ** A new session *)

Section creation.
#[local] Existing Instance P_ret.
#[local] Existing Instance P_bind.
Context (validator : option (string -> string -> pyval -> option string)).

(** What [create] leaves, whether or not the store takes it. *)
Lemma create_outcome io sid now sc document kind principal v sv r sv' :
  from_option (unused sid) True (store sv) ->
  create validator io sid now sc document kind principal v sv = (r, sv') ->
  sv' = sv \/ exists s, session_id s = sid /\ session_ok s /\ ops s = [] /\ actor_bindings s = ∅
    /\ max_retained_ops sv' = max_retained_ops sv
    /\ sessions_map sv' = dict_set (sessions_map sv) sid s
    /\ match store sv with
       | None => store sv' = None
       | Some db => if io then exists db', db_put_session s db = Some db' /\ store sv' = Some db' else store sv' = Some db
       end.
Proof.
  intros Hun Hrun. unfold create in Hrun.
  apply read_bind in Hrun as [[-> _]|(? & _ & Hrun)]; [by left| |apply reads_require].
  apply read_bind in Hrun as [[-> _]|(v' & _ & Hrun)]; [by left| |apply reads_lift].
  set (s := {| session_id := sid |}) in Hrun.
  assert (Hok : session_ok s).
  { constructor; cbn; try done; try (by intros ? ?%not_elem_of_nil).
    - apply NoDup_nil_2.
    - intros id o. rewrite lookup_empty. split; [done|]. by intros [?%not_elem_of_nil _].
    - exists principal, "owner". by rewrite lookup_singleton_eq.
    - intros p ro Hp. apply lookup_singleton_Some in Hp as [_ <-]. unfold session_roles. set_solver.
    - set_solver.
    - rewrite map_size_empty. unfold MAX_ACTORS. lia.
    - intros p. unfold bound_to. rewrite map_filter_empty, map_size_empty. unfold MAX_ACTORS_PER_PRINCIPAL. lia. }
  right. exists s. unfold mbind, P_bind, method_bind, transact in Hrun. cbn [store set_sessions] in Hrun.
  destruct (store sv) as [db|] eqn:Hdb.
  - destruct io; [|injection Hrun as _ <-; by split_and!]. destruct (put_unused s db Hun) as [db' Hput]. rewrite Hput in Hrun.
    injection Hrun as _ <-. split_and!; try done. by exists db'.
  - injection Hrun as _ <-. by split_and!.
Qed.
End creation.

(** A new session, stored or not. *)
Lemma created_service (io : bool) sv m sv' s :
  service_ok sv m -> dict_get (sessions_map sv) (session_id s) = None ->
  from_option (unused (session_id s)) True (store sv) -> session_ok s -> ops s = [] -> actor_bindings s = ∅ ->
  sessions_map sv' = dict_set (sessions_map sv) (session_id s) s ->
  match store sv with
  | None => store sv' = None
  | Some db => if io then exists db', db_put_session s db = Some db' /\ store sv' = Some db' else store sv' = Some db
  end ->
  exists m', service_ok sv' m' /\ (forall x base log, log_inv x base log sv m -> log_inv x base log sv' m')
    /\ (forall x, is_Some (m !! x) -> is_Some (m' !! x)) /\ (match store sv with Some _ => io | None => true end = true -> all_stored sv m -> all_stored sv' m').
Proof.
  intros [Hkeys Hall Hst Hback] Hfresh Hun Hok Hops Hb Hmap Hstore.
  set (sid := session_id s) in *.
  assert (Hget : forall x s0, dict_get (sessions_map sv') x = Some s0 -> x = sid /\ s0 = s \/ x <> sid /\ dict_get (sessions_map sv) x = Some s0).
  { intros x s0. rewrite Hmap, dict_get_set. case_decide as Hx; [intros [= <-]|]; auto. }
  assert (Hmem : forall x s0, dict_get (sessions_map sv') x = Some s0 -> session_id s0 = x /\ session_ok s0).
  { intros x s0 [[-> ->]|[_ Hx]]%Hget; [done|by apply Hall]. }
  assert (Hnd : NoDup (keys (sessions_map sv'))) by (rewrite Hmap; by apply NoDup_dict_set).
  assert (Hother : forall x base log s0, dict_get (sessions_map sv) x = Some s0 /\ suffix_of base log s0 ->
    x <> sid /\ exists s0, dict_get (sessions_map sv') x = Some s0 /\ suffix_of base log s0).
  { intros x base log s0 [Hx Hsuf]. assert (x <> sid) as Hne by (intros ->; congruence). split; [done|]. exists s0. by rewrite Hmap, dict_get_set, decide_False. }
  destruct (store sv) as [db|] eqn:Hdb.
  2: { exists m. split_and!; [constructor; try done|..].
       - intros d Hd. congruence.
       - intros [d Hd]. congruence.
       - intros x base log [(s0 & Hx) Hsto]. destruct (Hother x base log s0 Hx) as [_ H]. split; [done|]. intros [d Hd]. congruence.
       - done.
       - intros _ _ d Hd. congruence. }
  specialize (Hst db eq_refl). cbn in Hun. assert (Hnone : m !! sid = None).
  { apply eq_None_not_Some. intros Hsome. apply (represents_row db m sid Hst) in Hsome. destruct Hun as [Hun _]. rewrite Hun in Hsome. by destruct Hsome. }
  destruct io.
  - destruct Hstore as (db' & Hput & Hdb'). exists (<[sid := s]> m). split_and!; [constructor; try done|..].
    + intros d Hd. assert (d = db') as -> by congruence. apply (created db); auto.
    + intros _ x s0 s0' [[-> ->]|[Hne Hx]]%Hget.
      * rewrite lookup_insert_eq. intros [= <-]. by apply lags_refl.
      * rewrite lookup_insert_ne by done. apply Hback; [by eexists|done].
    + intros x base log [(s0 & Hx) Hsto]. destruct (Hother x base log s0 Hx) as [Hne H]. split; [done|].
      intros _ s'. rewrite lookup_insert_ne by done. apply Hsto. rewrite Hdb. by eexists.
    + intros x Hx. rewrite lookup_insert. case_decide; [by eexists|done].
    + intros _ Hsto d Hd. assert (d = db') as -> by congruence. destruct (Hsto db Hdb) as [Hclean Hopen]. pose proof (put_rows s db db' Hput) as Hrows. split.
      * intros x Hx. destruct (decide (x = sid)) as [->|Hne].
        -- exfalso. pose proof (created db db' m s Hst Hok Hops Hb Hun Hput) as Hrep. apply (eq_None_not_Some (t_sessions db' !! sid)) in Hx. apply Hx.
           apply (represents_row _ _ _ Hrep). fold sid. rewrite lookup_insert_eq. by eexists.
        -- apply (unused_other db); [by apply Hrows|]. apply Hclean. by destruct (Hrows x Hne) as [<- _].
      * intros x s0 [[-> ->]|[Hne Hx]]%Hget; [rewrite lookup_insert_eq; by eexists|]. rewrite lookup_insert_ne by done. by eapply Hopen.
  - exists m. split_and!; [constructor; try done|..].
    + intros d Hd. by assert (d = db) as -> by congruence.
    + intros _ x s0 s0' [[-> ->]|[Hne Hx]]%Hget; [congruence|]. apply Hback; [by eexists|done].
    + intros x base log [(s0 & Hx) Hsto]. destruct (Hother x base log s0 Hx) as [Hne H]. split; [done|]. intros _. apply Hsto. rewrite Hdb. by eexists.
    + done.
    + done.
Qed.

(** ** A restart *)

Lemma loaded_get (l : list DocumentSession) d x s : NoDup (session_id <$> l) ->
  dict_get (foldl (fun m s => dict_set m (session_id s) s) d l) x = Some s <->
  (s ∈ l /\ session_id s = x) \/ (x ∉ session_id <$> l /\ dict_get d x = Some s).
Proof.
  revert d. induction l as [|s0 l IH]; intros d Hnd; cbn [foldl].
  - split; [intros Hd; right; split; [apply not_elem_of_nil|done]|]. intros [[?%not_elem_of_nil _]|[_ ?]]; done.
  - apply NoDup_cons in Hnd as [Hno Hnd]. rewrite IH by done. csimpl. rewrite elem_of_cons, not_elem_of_cons, dict_get_set.
    case_decide as Hx.
    + subst x. split.
      * intros [[Hin Heq]|[_ [= <-]]]; auto.
      * intros [[[->|Hin] Heq]|[[? _] _]]; [by right|by left|congruence].
    + split; [intros [[? ?]|[? ?]]; auto|]. intros [[[->|Hin] Heq]|[[_ ?] ?]]; [congruence|by left|by right].
Qed.

Lemma loaded_NoDup keys (m : gmap string DocumentSession) :
  NoDup keys -> map_Forall (fun sid s => session_id s = sid) m ->
  NoDup (session_id <$> omap (fun sid => m !! sid) keys).
Proof.
  intros Hnd Hm. induction keys as [|k l IH]; cbn; [constructor|].
  apply NoDup_cons in Hnd as [Hno Hnd]. specialize (IH Hnd). destruct (m !! k) as [s|] eqn:Hk; [|done].
  csimpl. constructor; [|done]. intros (s0 & Heq & Hin)%list_elem_of_fmap. apply list_elem_of_omap in Hin as (k0 & Hin & Hk0).
  apply Hm in Hk0. apply Hm in Hk. congruence.
Qed.

Lemma restarted db m max_ops : represents db m -> no_orphans db -> 1 <= max_ops -> exists sv',
  service_init max_ops (Some db) = Ok sv' /\ store sv' = Some db /\ NoDup (keys (sessions_map sv'))
  /\ forall sid, dict_get (sessions_map sv') sid = m !! sid.
Proof.
  intros Hm Ho Hmax. unfold service_init. rewrite (proj2 (Z.ltb_ge max_ops 1)) by done. cbn. rewrite (load_represents db m Hm Ho).
  eexists. split; [done|]. cbn. split; [done|].
  set (l := omap _ _). split.
  - assert (forall d, NoDup (keys d) -> NoDup (keys (foldl (fun m s => dict_set m (session_id s) s) d l))) as Hk.
    { clear. induction l as [|s l IH]; intros d Hd; cbn; [done|]. by apply IH, NoDup_dict_set. }
    apply Hk. constructor.
  - intros sid. apply option_eq. intros s.
    assert (Hids : map_Forall (fun sid s => session_id s = sid) m).
    { intros x s0 Hx. specialize (Hm x). rewrite Hx in Hm. apply Hm. }
    rewrite loaded_get by (apply loaded_NoDup; [apply NoDup_sorted_set|done]).
    unfold l. rewrite list_elem_of_omap. split.
    + intros [[(x & _ & Hx) Heq]|[_ ?]]; [|done]. pose proof (Hids _ _ Hx). congruence.
    + intros Hs. left. split; [|by apply Hids]. exists sid. split; [|done]. apply elem_of_sorted_set, elem_of_dom. by eexists.
Qed.

(** The service starts exactly on a store whose rows all have a session. *)
Lemma restart_needs_rows max_ops db : 1 <= max_ops ->
  if decide (no_orphans db) then is_ok (service_init max_ops (Some db)) = true else service_init max_ops (Some db) = Err OrphanRow.
Proof.
  intros Hmax. unfold service_init, load_all. rewrite (proj2 (Z.ltb_ge max_ops 1)) by done. by destruct (decide (no_orphans db)).
Qed.

Lemma restarted_service sv m db sv' : service_ok sv m -> store sv = Some db -> store sv' = Some db ->
  NoDup (keys (sessions_map sv')) -> (forall sid, dict_get (sessions_map sv') sid = m !! sid) ->
  service_ok sv' m /\ (forall x base log, log_inv x base log sv m -> is_Some (dict_get (sessions_map sv') x) -> log_inv x base log sv' m)
  /\ (all_stored sv m -> all_stored sv' m).
Proof.
  intros [Hkeys Hall Hst Hback] Hdb Hdb' Hnd Hget. specialize (Hst db Hdb).
  assert (Hok : forall sid s, m !! sid = Some s -> session_id s = sid /\ session_ok s).
  { intros sid s Hs. specialize (Hst sid). rewrite Hs in Hst. naive_solver. }
  split_and!; [constructor|..].
  - done.
  - intros sid s. rewrite Hget. apply Hok.
  - intros d. rewrite Hdb'. by intros [= <-].
  - intros _ sid s s'. rewrite Hget. intros Hs Hs'. assert (s' = s) as -> by congruence. by apply lags_refl, (Hok sid).
  - intros x base log [_ Hsto] [s Hs]. assert (is_Some (store sv)) as Hsome by by eexists. split; [|auto].
    exists s. split; [done|]. rewrite Hget in Hs. auto.
  - intros Hsto d Hd. assert (d = db) as -> by congruence. destruct (Hsto db Hdb) as [Hclean _]. split; [done|].
    intros sid s. rewrite Hget. by eexists.
Qed.

(** ** Every step *)

Section every_step.
Context (validator : option (string -> string -> pyval -> option string)).

(** Where a session is when the service is at [m]: the store has it, if there
    is a store. *)
Definition backed (sid : string) (sv : SessionService) (m : gmap string DocumentSession) : Prop := is_Some (store sv) -> is_Some (m !! sid).

(** What a call that closes nothing leaves. *)
Record goes_on (sv : SessionService) (m : gmap string DocumentSession) (sv' : SessionService) (m' : gmap string DocumentSession) : Prop := {
  go_ok : service_ok sv' m';
  go_log : forall x base log, log_inv x base log sv m -> exists new, log_inv x base (log ++ new) sv' m';
  go_open : forall x, is_Some (dict_get (sessions_map sv) x) -> is_Some (dict_get (sessions_map sv') x);
  go_backed : forall x, backed x sv m -> backed x sv' m';
  go_stored : all_stored sv m -> all_stored sv' m';
}.

Lemma memory_goes_on_refl sv m : service_ok sv m -> goes_on sv m sv m.
Proof. intros Hsv. constructor; try done. intros x base log Hx. exists []. by rewrite app_nil_r. Qed.

Lemma set_open sv sid s2 x : is_Some (dict_get (sessions_map sv) x) ->
  is_Some (dict_get (sessions_map (set_sessions (dict_set (sessions_map sv) sid s2) sv)) x).
Proof. intros Hx. cbn. rewrite dict_get_set. case_decide; [by eexists|done]. Qed.

(** A change that stays in memory. *)
Lemma memory_goes_on sv m sid s s2 tx e : service_ok sv m -> dict_get (sessions_map sv) sid = Some s -> change sid s s2 tx -> log_effect e s s2 ->
  (is_Some (store sv) -> new_ops e = []) -> (is_Some (store sv) -> forall s', m !! sid = Some s' -> lags s' s2) ->
  goes_on sv m (set_sessions (dict_set (sessions_map sv) sid s2) sv) m.
Proof.
  intros Hsv Hs Hch He Hnew Hlag. destruct (sv_sessions _ _ Hsv _ _ Hs) as [Hid Hok]. pose proof (change_ids _ _ _ _ Hch) as [Hids _].
  destruct (memory_change sv m sid s s2 e) as [? ?]; try done; [congruence|by eapply change_ok|]. constructor; try done.
  - intros x. apply set_open.
  - intros Hsto db Hdb. destruct (Hsto db Hdb) as [Hclean Hopen]. split; [done|]. intros x s0 [[-> ->]|[_ Hx]]%get_replaced; by eapply Hopen.
Qed.

Lemma outcome_service sv m sv' : service_ok sv m -> outcome sv sv' -> exists m', goes_on sv m sv' m'.
Proof.
  intros Hsv [|sid s s2 tx Hs Hch Hnone|sid s s2 tx db db' Hs Hch Hdb Htx|sid s s2 v rev Hs Hch Hadv Hsome].
  - exists m. by apply memory_goes_on_refl.
  - destruct (sv_sessions _ _ Hsv _ _ Hs) as [Hid Hok]. destruct (change_effect _ _ _ _ Hok Hch) as [e He].
    exists m. by eapply memory_goes_on; try done; rewrite Hnone; intros [].
  - destruct (stored_change sv m sid s s2 tx db db') as (m' & Hsv' & Hlog & Hdom); try done. exists m'. constructor; try done.
    + intros x. apply set_open.
    + intros x Hx _. apply Hdom, Hx. by eexists.
    + intros Hall. eapply (stored_change_all sv m m'); try done. by apply (sv_store _ _ Hsv').
  - destruct (sv_sessions _ _ Hsv _ _ Hs) as [Hid Hok]. destruct (change_effect _ _ _ _ Hok Hch) as [e He].
    assert (new_ops e = []) as Hnew.
    { destruct e as [new|rev']; [|done]. destruct He as [_ He]. lia. }
    exists m. eapply memory_goes_on; try done. intros _ s' Hm.
    destruct Hsome as [db Hdb]. pose proof (sv_store _ _ Hsv _ Hdb sid) as Hrow. rewrite Hm in Hrow. destruct Hrow as (_ & Hok' & _).
    exact (ahead_lags _ _ _ _ _ _ Hok' Hok (sv_backed _ _ Hsv ltac:(by eexists) _ _ _ Hs Hm) Hch Hadv).
Qed.

(** What any step leaves: a log grows while its session is open, which it is
    unless it is closed or a restart does not find it; and where the store
    takes every session, it has exactly the open ones and closed ones whose
    deletion failed. *)
Lemma step_service c sv m sv' : service_ok sv m -> step validator c sv sv' ->
  exists m', service_ok sv' m'
    /\ (forall x base log, log_inv x base log sv m -> is_Some (dict_get (sessions_map sv') x) -> exists new, log_inv x base (log ++ new) sv' m')
    /\ (forall x, is_Some (dict_get (sessions_map sv) x) ->
         match c with Closes y => y = x -> is_Some (dict_get (sessions_map sv') x) | Restarts => backed x sv m | _ => True end ->
         is_Some (dict_get (sessions_map sv') x) /\ (backed x sv m -> backed x sv' m'))
    /\ (taken c -> all_stored sv m -> all_stored sv' m').
Proof.
  intros Hsv Hstep.
  assert (Hok : forall sid s, dict_get (sessions_map sv) sid = Some s -> session_ok s)
    by (intros sid s Hs; by apply (sv_sessions _ _ Hsv sid)).
  assert (Hon : forall c, outcome sv sv' -> exists m', service_ok sv' m'
    /\ (forall x base log, log_inv x base log sv m -> is_Some (dict_get (sessions_map sv') x) -> exists new, log_inv x base (log ++ new) sv' m')
    /\ (forall x, is_Some (dict_get (sessions_map sv) x) ->
         match c with Closes y => y = x -> is_Some (dict_get (sessions_map sv') x) | Restarts => backed x sv m | _ => True end ->
         is_Some (dict_get (sessions_map sv') x) /\ (backed x sv m -> backed x sv' m'))
    /\ (taken c -> all_stored sv m -> all_stored sv' m')).
  { intros c' (m' & [? Hlog Hopen Hback Hall])%(outcome_service sv m sv' Hsv). exists m'. split_and!; auto. }
  inversion Hstep as [? ? r io sid now sc doc kind p v Hfresh Hun Hrun|? ? ? ? ? ? ? ? Hrun|? ? r io sid p Hrun
    |? ? ? ? ? ? ? ? ? ? ? ? Hrun|? ? ? ? ? ? ? Hrun|? ? ? ? ? ? ? ? Hrun|? ? max_ops Hinit Hsome]; subst.
  - destruct (create_outcome _ _ _ _ _ _ _ _ _ _ _ _ Hun Hrun) as [->|(s & <- & Hs & Ho & Hb & _ & Hmap & Hst)].
    + apply (Hon (Creates sid _)). constructor.
    + destruct (created_service io sv m sv' s) as (m' & ? & Hlog & Hmore & Hall); try done.
      exists m'. split_and!; [done| | |].
      * intros x base log Hx _. exists []. rewrite app_nil_r. auto.
      * intros x Hx _. split; [rewrite Hmap, dict_get_set; case_decide; [by eexists|done]|]. intros Hback Hsto. apply Hmore, Hback.
        destruct (store sv); [by eexists|]. rewrite Hst in Hsto. by destruct Hsto.
      * intros Ht. apply Hall. by destruct (match store sv with Some _ => io | None => true end).
  - eapply (Hon Calls), replace_acl_outcome. exact Hrun.
  - destruct (close_outcome _ _ _ _ _ _ Hrun) as [|s store' Hs Hstore]; [apply (Hon (Closes sid)); constructor|].
    destruct (closed_service sv m sid store') as (m' & ? & Hlog & Heq & Hall); try done.
    exists m'. split_and!; [done| | |auto].
    + intros x base log Hx Hopen. exists []. rewrite app_nil_r. auto.
    + intros x [s0 Hx] Hc. destruct (decide (x = sid)) as [->|Hne].
      * exfalso. destruct Hc as [s1 Hs1]; [done|]. cbn in Hs1. rewrite dict_get_del in Hs1 by apply Hsv. by rewrite decide_True in Hs1.
      * split; [cbn; rewrite dict_get_del, decide_False by (done || apply Hsv); by eexists|]. intros Hb Hsto. rewrite Heq by done.
        apply Hb. destruct Hstore as [-> | ->]; [done|]. cbn in Hsto. destruct (store sv); [by eexists|by destruct Hsto].
  - eapply (Hon Calls), append_outcome; [|exact Hrun]. eauto.
  - eapply (Hon Calls), bind_actor_outcome. exact Hrun.
  - eapply (Hon Calls), checkpoint_outcome; [|exact Hrun]. eauto.
  - destruct (store sv) as [db|] eqn:Hdb; [|done].
    assert (Hmax : 1 <= max_ops).
    { unfold service_init in Hinit. destruct (Z.ltb_spec max_ops 1); [by destruct (load_all db)|done]. }
    assert (Ho : no_orphans db).
    { pose proof (restart_needs_rows max_ops db Hmax) as Hr. destruct (decide (no_orphans db)); [done|congruence]. }
    destruct (restarted db m max_ops (sv_store _ _ Hsv _ Hdb) Ho Hmax) as (sv1 & Heq & Hst & Hnd & Hget).
    assert (sv1 = sv') as -> by congruence.
    destruct (restarted_service sv m db sv') as (? & Hlog & Hall); try done.
    exists m. split_and!; [done| | |auto].
    + intros x base log Hx Hopen. exists []. rewrite app_nil_r. auto.
    + intros x _ Hb. unfold backed in *. rewrite Hget, Hdb in *. split; [apply Hb; by eexists|]. intros _ _. apply Hb. by eexists.
Qed.

Lemma initial_service sv : initial sv -> service_ok sv ∅ /\ all_stored sv ∅.
Proof.
  intros (max_ops & db & Hdb & Hinit).
  assert (sessions_map sv = [] /\ store sv = db) as [Hmap Hst].
  { unfold service_init in Hinit. destruct (max_ops <? 1); [done|]. by destruct Hdb as [-> | ->]; cbn in Hinit; injection Hinit as <-. }
  split; [constructor|].
  - rewrite Hmap. constructor.
  - intros sid s. by rewrite Hmap.
  - intros d Hd sid. rewrite lookup_empty. destruct Hdb as [->|Hdb]; [congruence|].
    assert (d = empty_store) as -> by congruence. split; apply lookup_empty.
  - intros _ sid s s'. by rewrite Hmap.
  - intros d Hd. split; [|intros sid s; by rewrite Hmap]. intros sid _. destruct Hdb as [->|Hdb]; [congruence|].
    assert (d = empty_store) as -> by congruence. split_and!; intros; apply lookup_empty.
Qed.

Lemma reachable_service sv : reachable validator sv -> exists m, service_ok sv m.
Proof.
  intros (sv0 & Hinit & Hrun).
  apply (star_invariant _ (fun sv => exists m, service_ok sv m)) in Hrun; [done|..].
  - intros a b [m Hm] (c & _ & Hstep). destruct (step_service c a m b Hm Hstep) as (m' & ? & _). by exists m'.
  - exists ∅. by apply initial_service.
Qed.

Lemma taken_service sv : reachable_by validator taken sv -> exists m, service_ok sv m /\ all_stored sv m.
Proof.
  intros (sv0 & Hinit & Hrun).
  apply (star_invariant _ (fun sv => exists m, service_ok sv m /\ all_stored sv m)) in Hrun; [done|..].
  - intros a b (m & Hm & Hall) (c & Hc & Hstep). destruct (step_service c a m b Hm Hstep) as (m' & ? & _ & _ & ?). exists m'. auto.
  - exists ∅. by apply initial_service.
Qed.

Lemma held_backed sid sv m : service_ok sv m -> held sid sv <-> backed sid sv m.
Proof.
  intros Hsv. unfold held, backed. destruct (store sv) as [db|] eqn:Hdb.
  - rewrite (represents_row db m sid) by by apply (sv_store _ _ Hsv). split; [done|]. intros H. apply H. by eexists.
  - split; [|done]. by intros _ [].
Qed.
End every_step.

(** * Logs along a run *)

Lemma suffix_elem base log s o : suffix_of base log s ->
  o ∈ ops s <-> o ∈ log /\ snapshot_revision s < op_revision o.
Proof.
  intros [Hlog (k & Hk & Hsnap & ->)]. rewrite !list_elem_of_lookup. split.
  - intros [i Hi]. rewrite lookup_drop in Hi. split; [by eexists|]. rewrite (Hlog _ _ Hi). lia.
  - intros [[i Hi] Hlt]. rewrite (Hlog _ _ Hi) in Hlt. exists (i - k)%nat. rewrite lookup_drop.
    by replace (k + (i - k))%nat with i by lia.
Qed.

Lemma suffix_revision base log s : suffix_of base log s -> session_ok s ->
  revision s = base + Z.of_nat (length log).
Proof.
  intros [_ (k & Hk & Hsnap & Hops)] Hok. rewrite (revision_length s Hok), Hops, length_drop. lia.
Qed.

(** What the two ends of a growing log have in common. *)
Definition log_kept (s s' : DocumentSession) : Prop :=
  revision s <= revision s'
  /\ (forall o, o ∈ ops s -> snapshot_revision s' < op_revision o -> o ∈ ops s')
  /\ (forall o, o ∈ ops s' -> snapshot_revision s < op_revision o <= revision s -> o ∈ ops s).

Lemma suffixes_kept base log new s s' : suffix_of base log s -> session_ok s ->
  suffix_of base (log ++ new) s' -> session_ok s' -> log_kept s s'.
Proof.
  intros Hs Hok Hs' Hok'. unfold log_kept.
  rewrite (suffix_revision _ _ _ Hs Hok), (suffix_revision _ _ _ Hs' Hok'), length_app. split_and!; [lia| |].
  - intros o [Ho _]%(suffix_elem _ _ _ _ Hs) Hlt. apply (suffix_elem _ _ _ _ Hs'). rewrite elem_of_app. auto.
  - intros o [Ho _]%(suffix_elem _ _ _ _ Hs') [Hlt Hle]. apply (suffix_elem _ _ _ _ Hs). split; [|done].
    apply list_elem_of_lookup in Ho as [i Hi]. rewrite (su_log _ _ _ Hs' _ _ Hi) in Hle.
    rewrite lookup_app_l in Hi by lia. apply list_elem_of_lookup. by exists i.
Qed.

Lemma session_log sv m sid s : service_ok sv m -> dict_get (sessions_map sv) sid = Some s ->
  exists base log, log_inv sid base log sv m.
Proof.
  intros Hsv Hs. destruct (sv_sessions _ _ Hsv _ _ Hs) as [_ Hok].
  assert (Hself : forall x, session_ok x -> suffix_of (snapshot_revision x) (ops x) x).
  { intros x Hx. split; [intros i o Hi; by apply (so_log x Hx)|]. exists 0%nat. split_and!; [lia|lia|done]. }
  destruct (store sv) as [db|] eqn:Hdb; [destruct (m !! sid) as [s'|] eqn:Hm|].
  - pose proof (sv_backed _ _ Hsv ltac:(by eexists) _ _ _ Hs Hm) as Hlag.
    pose proof (sv_store _ _ Hsv _ Hdb sid) as Hrow. rewrite Hm in Hrow. destruct Hrow as (_ & Hok' & _).
    exists (snapshot_revision s'), (ops s'). split; [|intros _ s0 Hs0; replace s0 with s' by congruence; auto].
    exists s. split; [done|]. split; [apply Hself; done|].
    pose proof (lag_snapshot _ _ Hlag) as Hle. pose proof (lag_revision _ _ Hlag) as Hrev.
    rewrite (revision_length s Hok), (revision_length s' Hok') in Hrev.
    set (k := Z.to_nat (snapshot_revision s - snapshot_revision s')).
    assert (Hk : snapshot_revision s = snapshot_revision s' + Z.of_nat k) by lia.
    exists k. split_and!; [lia|done|]. rewrite (lag_ops _ _ Hlag), Hk.
    apply filter_revision. intros i o Hi. by apply (so_log s' Hok').
  - exists (snapshot_revision s), (ops s). split; [exists s; auto|]. intros _ s'. by rewrite Hm.
  - exists (snapshot_revision s), (ops s). split; [exists s; auto|]. rewrite Hdb. by intros [].
Qed.

Section along.
Context (validator : option (string -> string -> pyval -> option string)).

(** A step after which the session is open. *)
Definition open_step (sid : string) (sv sv' : SessionService) : Prop :=
  (exists c, step validator c sv sv') /\ is_Some (dict_get (sessions_map sv') sid).

Lemma run_log sid sv sv' : star (open_step sid) sv sv' -> forall m base log,
  service_ok sv m -> log_inv sid base log sv m ->
  exists m' new, service_ok sv' m' /\ log_inv sid base (log ++ new) sv' m'.
Proof.
  induction 1 as [|sv1 sv2 sv3 [[c Hstep] Hopen] _ IH]; intros m base log Hsv Hlog.
  - exists m, []. by rewrite app_nil_r.
  - destruct (step_service _ _ _ _ _ Hsv Hstep) as (m2 & Hsv2 & Hgrow & _).
    destruct (Hgrow _ _ _ Hlog Hopen) as [new Hlog2].
    destruct (IH _ _ _ Hsv2 Hlog2) as (m3 & new2 & Hsv3 & Hlog3). exists m3, (new ++ new2). by rewrite app_assoc.
Qed.

Lemma run_kept sid sv m sv' s s' : service_ok sv m -> star (open_step sid) sv sv' ->
  dict_get (sessions_map sv) sid = Some s -> dict_get (sessions_map sv') sid = Some s' ->
  log_kept s s' /\ session_ok s'.
Proof.
  intros Hsv Hrun Hs Hs'. destruct (session_log _ _ _ _ Hsv Hs) as (base & log & Hlog).
  destruct (run_log _ _ _ Hrun _ _ _ Hsv Hlog) as (m' & new & Hsv' & Hlog').
  destruct (li_memory _ _ _ _ _ Hlog) as (s1 & Hs1 & Hsuf), (li_memory _ _ _ _ _ Hlog') as (s2 & Hs2 & Hsuf').
  assert (s1 = s) as -> by congruence. assert (s2 = s') as -> by congruence.
  destruct (sv_sessions _ _ Hsv _ _ Hs) as [_ Hok], (sv_sessions _ _ Hsv' _ _ Hs') as [_ Hok'].
  split; [by eapply suffixes_kept|done].
Qed.

(** A session that is not closed stays open, and its log grows. *)
Lemma sparing_log sid kept sv sv' : star (sparing validator sid kept) sv sv' -> forall m base log,
  service_ok sv m -> log_inv sid base log sv m -> (kept -> backed sid sv m) ->
  exists m' new, service_ok sv' m' /\ log_inv sid base (log ++ new) sv' m' /\ (backed sid sv m -> backed sid sv' m').
Proof.
  induction 1 as [|sv1 sv2 sv3 (c & Hstep & Hc) _ IH]; intros m base log Hsv Hlog Hkept.
  - exists m, []. by rewrite app_nil_r.
  - destruct (step_service _ _ _ _ _ Hsv Hstep) as (m2 & Hsv2 & Hgrow & Hopen & _).
    destruct (Hopen sid) as [Hopen2 Hback2].
    + destruct (li_memory _ _ _ _ _ Hlog) as (s & Hs & _). by eexists.
    + destruct c; auto.
    + destruct (Hgrow _ _ _ Hlog Hopen2) as [new Hlog2]. destruct (IH m2 base (log ++ new) Hsv2 Hlog2) as (m3 & new2 & Hsv3 & Hlog3 & Hback3); [auto|].
      exists m3, (new ++ new2). rewrite app_assoc. split_and!; auto.
Qed.

(** Whatever clients call and whenever the service restarts, every open
    session is filed under its own id and is well formed: its retained
    revisions follow its snapshot without a gap, each operation is based on
    the one before and indexed under a distinct id, every operation's actor is
    bound to the principal that sent it, it has an owner, only known roles,
    and no more actors than the two limits. *)
Theorem open_sessions_are_sound sv sid s :
  reachable validator sv -> dict_get (sessions_map sv) sid = Some s -> session_id s = sid /\ session_ok s.
Proof. intros [m Hm]%reachable_service Hs. by apply (sv_sessions _ _ Hm). Qed.

(** C36: An acknowledged operation is never lost, moved or altered: whatever is
    called and whenever the store fails, a session that is not closed stays
    open, also across restarts if the store has its row, which a creation
    gave it unless the store failed then and which it keeps; its revision
    never goes back, every operation retained once is retained until a
    checkpoint passes it, and what was read at a revision is what is read
    there later. *)
Theorem acknowledged_operations_are_kept sid sv sv' s :
  reachable validator sv -> dict_get (sessions_map sv) sid = Some s -> star (sparing validator sid (held sid sv)) sv sv' ->
  exists s', dict_get (sessions_map sv') sid = Some s' /\ log_kept s s' /\ (held sid sv -> held sid sv').
Proof.
  intros [m Hm]%reachable_service Hs Hrun. destruct (session_log _ _ _ _ Hm Hs) as (base & log & Hlog).
  destruct (sparing_log _ _ _ _ Hrun _ _ _ Hm Hlog) as (m' & new & Hm' & Hlog' & Hback); [by intros ?%(held_backed sid sv m Hm)|].
  destruct (li_memory _ _ _ _ _ Hlog) as (s1 & Hs1 & Hsuf), (li_memory _ _ _ _ _ Hlog') as (s2 & Hs2 & Hsuf').
  assert (s1 = s) as -> by congruence. exists s2. destruct (sv_sessions _ _ Hm _ _ Hs) as [_ Hok], (sv_sessions _ _ Hm' _ _ Hs2) as [_ Hok'].
  split_and!; [done|by eapply suffixes_kept|]. rewrite (held_backed sid sv m Hm), (held_backed sid sv' m' Hm'). done.
Qed.
End along.

Lemma lags_same sid s' s : session_id s' = sid -> session_id s = sid -> session_ok s' -> session_ok s ->
  lags s' s -> snapshot_revision s' = snapshot_revision s -> s' = s.
Proof.
  intros Hid' Hid Hok' Hok [Lsc Ldo Lki Lcr Lb La Lde _ Lop _ Lds] Heq.
  assert (Hops : ops s' = ops s).
  { rewrite (lag_ops _ _ (lags_refl s' Hok')), Lop. apply list_filter_iff. intros o. by rewrite Heq. }
  assert (Hidx : ops_by_id s' = ops_by_id s).
  { by rewrite <- (index_loaded s' Hok'), <- (index_loaded s Hok), Hops. }
  specialize (Lds Heq). destruct s', s. simpl in *. congruence.
Qed.

(** C37: What a restart brings back.  When the store took every session that
    was made, whatever else failed, the service starts again over its store
    and the store has every open session.  Whatever failed, it starts exactly
    when every row names a session, and then each open session the store has
    a row of comes back with its revision, its operations, its actors and its
    access policy: one whose last checkpoint the store has exactly as it was,
    one whose checkpoint failed there with the older snapshot and the
    operations after it; and exactly the open sessions whose creation the
    store did not take are lost. *)
Theorem restart_brings_sessions_back validator sv db max_ops :
  reachable validator sv -> store sv = Some db -> 1 <= max_ops ->
  (reachable_by validator taken sv -> is_ok (service_init max_ops (Some db)) = true
     /\ forall sid, is_Some (dict_get (sessions_map sv) sid) -> is_Some (t_sessions db !! sid))
  /\ match service_init max_ops (Some db) with
     | Err e => e = OrphanRow /\ ~ no_orphans db
     | Ok sv' => no_orphans db /\ store sv' = Some db
         /\ forall sid s, dict_get (sessions_map sv) sid = Some s ->
              if decide (is_Some (t_sessions db !! sid))
              then exists s', dict_get (sessions_map sv') sid = Some s' /\ lags s' s
                   /\ (snapshot_revision s' = snapshot_revision s -> s' = s)
              else dict_get (sessions_map sv') sid = None
     end.
Proof.
  intros [m Hm]%reachable_service Hdb Hmax. pose proof (sv_store _ _ Hm _ Hdb) as Hrep. pose proof (restart_needs_rows max_ops db Hmax) as Hrows. split.
  - intros (m0 & Hm0 & Hall)%taken_service. destruct (Hall db Hdb) as [Hclean Hopen]. split.
    + destruct (decide (no_orphans db)) as [|Hno]; [done|]. by destruct (Hno (clean_no_orphans db Hclean)).
    + intros sid [s Hs]. apply (represents_row db m0 sid (sv_store _ _ Hm0 _ Hdb)). by eapply Hopen.
  - destruct (decide (no_orphans db)) as [Ho|Ho]; [|by rewrite Hrows].
    destruct (restarted db m max_ops Hrep Ho Hmax) as (sv' & -> & Hst & _ & Hget). split_and!; [done|done|].
    intros sid s Hs. rewrite Hget. pose proof (represents_row db m sid Hrep) as Hrow. destruct (decide (is_Some (t_sessions db !! sid))) as [Hsome|Hnone].
    + apply Hrow in Hsome as [s' Hms]. exists s'. pose proof (sv_backed _ _ Hm ltac:(by eexists) _ _ _ Hs Hms) as Hlag. split_and!; [done|done|].
      pose proof (Hrep sid) as Hrep'. rewrite Hms in Hrep'. destruct Hrep' as (Hid' & Hok' & _), (sv_sessions _ _ Hm _ _ Hs) as [Hid Hok].
      by eapply lags_same.
    + apply eq_None_not_Some. intros Hsome. by apply Hnone, Hrow.
Qed.

(** * What clients are answered *)

Section answers.
#[local] Existing Instance P_ret.
#[local] Existing Instance P_bind.
Context (validator : option (string -> string -> pyval -> option string)).

(** An accepted operation, new or replayed, is retained under its id and is
    its actor's. *)
Lemma appended io now sid opid actor base patch principal kind sv m op replayed sv' :
  service_ok sv m ->
  append io now sid opid actor base patch principal kind sv = (Ok (op, replayed), sv') ->
  exists s', dict_get (sessions_map sv') sid = Some s' /\ op ∈ ops s'
    /\ op_id op = opid /\ op_actor op = actor /\ op_principal op = principal.
Proof.
  intros Hsv Hrun. unfold append in Hrun.
  apply read_bind in Hrun as [[_ [? ?]]|(s & Hs%authoritative_ok & Hrun)]; [done| |apply reads_authoritative].
  destruct (sv_sessions _ _ Hsv _ _ Hs) as [_ Hok].
  apply read_bind in Hrun as [[_ [? ?]]|(? & _ & Hrun)]; [done| |apply reads_role].
  apply read_bind in Hrun as [[_ [? ?]]|(patch' & _ & Hrun)]; [done| |apply reads_lift].
  apply read_bind in Hrun as [[_ [? ?]]|(? & Hbound%require_ok & Hrun)]; [done| |apply reads_require].
  destruct (ops_by_id s !! opid) as [existing|] eqn:Hex.
  - apply read_bind in Hrun as [[_ [? ?]]|(? & Hactor%require_ok & Hrun)]; [done| |apply reads_require].
    apply bool_decide_eq_true in Hactor. apply (so_by_id s Hok) in Hex as [Hin Hid].
    pose proof (so_attribution s Hok _ Hin) as Hattr. rewrite Hactor in Hattr. rewrite Hattr in Hbound, Hrun.
    apply bool_decide_eq_true in Hbound. injection Hrun as <- <- <-. exists s. by subst.
  - apply read_bind in Hrun as [[_ [? ?]]|(? & _ & Hrun)]; [done| |apply reads_check].
    apply read_bind in Hrun as [[_ [? ?]]|(? & _ & Hrun)]; [done| |apply reads_require].
    apply read_bind in Hrun as [[_ [? ?]]|(? & _ & Hrun)]; [done| |apply reads_get_state].
    apply read_bind in Hrun as [[_ [? ?]]|(? & _ & Hrun)]; [done| |apply reads_require].
    unfold mbind, P_bind, method_bind in Hrun.
    set (new := {| op_id := opid |}) in Hrun.
    destruct (transact io _ sv) as [[u|e] sv1] eqn:Ht; [|done].
    assert (Hs1 : dict_get (sessions_map sv1) sid = Some s).
    { destruct (transact_cases _ _ _ _ _ Ht) as [(_ & (? & ?) & _)|[(_ & _ & ->)|(? & ? & _ & _ & _ & _ & ->)]]; done. }
    rewrite (update_spec _ _ _ _ Hs1) in Hrun. erewrite update_spec in Hrun by by rewrite update_get.
    injection Hrun as <- <- <-. eexists. split; [apply update_get|]. cbn. split; [|done].
    apply elem_of_app. right. by apply list_elem_of_singleton.
Qed.

(** Sending an operation again is harmless. Once it has been
    acknowledged, and while the session stays open and no checkpoint has
    passed it, the same id from the same actor and principal answers the
    operation that was acknowledged, whatever base and patch the retry
    carries, and changes nothing: neither the session nor the store, which is
    not even asked. This also holds after restarts. *)
Theorem append_is_idempotent io now sid opid actor base patch principal kind sv op replayed sv1 sv2 s2
  io' now' base' patch' patch'' kind' :
  reachable validator sv ->
  append io now sid opid actor base patch principal kind sv = (Ok (op, replayed), sv1) ->
  star (open_step validator sid) sv1 sv2 -> dict_get (sessions_map sv2) sid = Some s2 ->
  snapshot_revision s2 < op_revision op ->
  require_role sid principal "editor" sv2 = (Ok tt, sv2) -> normalize_patch patch' = Ok patch'' ->
  append io' now' sid opid actor base' patch' principal kind' sv2 = (Ok (op, true), sv2).
Proof.
  intros [m Hm]%reachable_service Hrun Hlater Hs2 Hret Hrole Hpatch.
  destruct (step_service validator Calls sv m sv1 Hm) as (m1 & Hm1 & _); [by eapply s_append|].
  destruct (appended _ _ _ _ _ _ _ _ _ _ _ _ _ _ Hm Hrun) as (s1 & Hs1 & Hin & Hid & Hact & Hprin).
  destruct (run_kept _ _ _ _ _ _ _ Hm1 Hlater Hs1 Hs2) as [(_ & Hkept & _) Hok2].
  specialize (Hkept _ Hin Hret).
  pose proof (so_attribution _ Hok2 _ Hkept) as Hattr. rewrite Hact, Hprin in Hattr.
  pose proof (proj2 (so_by_id _ Hok2 opid op) (conj Hkept Hid)) as Hidx.
  unfold append, mbind, P_bind, method_bind. unfold authoritative at 1. rewrite Hs2, Hrole.
  unfold lift_result. rewrite Hpatch, Hattr, Hidx. cbn [require].
  by rewrite !bool_decide_true by done.
Qed.

Lemma contiguous_revisions l a : (forall i o, l !! i = Some o -> op_revision o = a + Z.of_nat i) ->
  op_revision <$> l = seqZ a (Z.of_nat (length l)).
Proof.
  intros Hl. apply list_eq. intros i. rewrite list_lookup_fmap. destruct (l !! i) as [o|] eqn:Hi.
  - cbn. rewrite (Hl _ _ Hi). symmetry. apply lookup_seqZ. apply lookup_lt_Some in Hi. lia.
  - symmetry. apply lookup_seqZ_ge. apply lookup_ge_None in Hi. lia.
Qed.

(** A client that asks for what came after a revision is refused when its
    principal is banned, told to resynchronise when the snapshot has passed
    that revision, and otherwise given every retained operation after it, in
    order and without a gap up to the session's revision. *)
Theorem ops_after_is_the_tail sv sid s after principal :
  reachable validator sv -> dict_get (sessions_map sv) sid = Some s ->
  ops_after sid after principal sv =
    (if bool_decide (role_of s principal = "banned") then Err RoleDenied
     else if after <? snapshot_revision s then Err (ResyncRequired (snapshot_revision s))
     else Ok (drop (Z.to_nat (after - snapshot_revision s)) (ops s)), sv)
  /\ (snapshot_revision s <= after ->
      op_revision <$> drop (Z.to_nat (after - snapshot_revision s)) (ops s)
      = seqZ (after + 1) (revision s - after)).
Proof.
  intros [m Hm]%reachable_service Hs. destruct (sv_sessions _ _ Hm _ _ Hs) as [_ Hok]. split.
  - unfold ops_after, mbind, P_bind, method_bind. unfold authoritative at 1. rewrite Hs.
    unfold require_role, role_for, mbind, P_bind, method_bind. unfold authoritative at 1. rewrite Hs. cbn.
    assert (Hrole : role_of s principal ∈ session_roles).
    { unfold role_of. destruct (acl s !! principal) eqn:E; [by apply (so_roles s Hok principal)|].
      pose proof (so_default s Hok). unfold session_roles. set_solver. }
    assert (Hlog : snapshot_revision s <= after ->
      filter (fun op => after < op_revision op) (ops s) = drop (Z.to_nat (after - snapshot_revision s)) (ops s)).
    { intros Hle. destruct (filter_revision (ops s) (snapshot_revision s) (Z.to_nat (after - snapshot_revision s)))
        as [Hd _]; [intros i o Hi; by apply (so_log s Hok)|]. rewrite <- Hd. apply list_filter_iff. intros o. lia. }
    unfold session_roles in Hrole. repeat setoid_rewrite elem_of_cons in Hrole.
    destruct Hrole as [->|[->|[->|[->|?%not_elem_of_nil]]]]; cbn; try done;
      (destruct (Z.ltb_spec after (snapshot_revision s)), (Z.leb_spec (snapshot_revision s) after); try lia; cbn;
       unfold mret, P_ret, method_ret; rewrite ?Hlog by done; done).
  - intros Hle. rewrite (contiguous_revisions _ (after + 1)).
    + rewrite length_drop, (revision_length s Hok). destruct (decide (after <= snapshot_revision s + Z.of_nat (length (ops s)))).
      * f_equal. lia.
      * rewrite !seqZ_nil by lia. done.
    + intros i o. rewrite lookup_drop. intros Hi. destruct (so_log s Hok _ _ Hi) as [-> _]. lia.
Qed.
End answers.

(** * What a failing store leaves *)

(** [create] files the session before the store has it: when the store
    fails, the caller is told so, yet the session is listed and works; the
    first operation then writes its rows without a session row, and no later
    start of the service can load that store. *)
Lemma unstored_session_blocks_restart :
  let sv0 := {| max_retained_ops := 10; sessions_map := []; store := Some empty_store |} in
  let c := create None false "s" 0 "default" "doc" "workflow" "ann" (VDict []) sv0 in
  let a := append true 1 "s" "op1" "tab" 0 [] "ann" "human" c.2 in
  c.1 = Err StoreFailed /\ (exists o, a.1 = Ok (o, false)) /\ service_init 10 (store a.2) = Err OrphanRow.
Proof. vm_compute. split_and!; [done|by eexists|done]. Qed.

(** [close] forgets the session before the store does: when the store fails,
    the caller is told so and cannot try again, and the session is back at
    the next start. *)
Lemma failed_close_comes_back :
  let sv0 := {| max_retained_ops := 10; sessions_map := []; store := Some empty_store |} in
  let c := create None true "s" 0 "default" "doc" "workflow" "ann" (VDict []) sv0 in
  let d := close false "s" "ann" c.2 in
  d.1 = Err StoreFailed /\ (close true "s" "ann" d.2).1 = Err UnknownSession
  /\ exists sv', service_init 10 (store d.2) = Ok sv' /\ (sessions_map sv').*1 = ["s"].
Proof. vm_compute. split_and!; [done|done|by eexists]. Qed.

(** Asking whether a list is one of the operation names raises, instead of
    answering the message for a bad name. *)
Lemma validate_patch_raises :
  validate_patch (VList [VDict [(VStr "op", VList [])]]) = Err Unhashable.
Proof. done. Qed.

(** * Witnesses *)

Section witnesses.

Definition w_patch : list (list (pyval * pyval)) :=
  [[(VStr "op", VStr "remove"); (VStr "path", VList [VStr "a"])]].

Definition w0 : SessionService :=
  {| max_retained_ops := 3; sessions_map := []; store := Some empty_store |}.
Definition w1 := create None true "s" 0 "default" "doc" "workflow" "ann" (VDict []) w0.
Definition w2 := append true 1 "s" "op1" "tab" 0 w_patch "ann" "human" w1.2.
Definition w3 := append true 2 "s" "op2" "agent" 1 w_patch "bob" "agent" w2.2.
(** A checkpoint the store does not take, and a restart after it. *)
Definition w4 := checkpoint None false "s" 1 (VDict []) "ann" w3.2.
Definition w5 : SessionService :=
  match service_init 3 (store w4.2) with Ok sv => sv | Err _ => w4.2 end.

Definition open_of (sv : SessionService) : DocumentSession :=
  default {| session_id := ""; scope := ""; document_id := ""; document_kind := ""; created_at := 0;
             snapshot := VNone; snapshot_revision := 0; ops := []; ops_by_id := ∅; actor_bindings := ∅;
             acl := ∅; default_role := "" |} (dict_get (sessions_map sv) "s").

Lemma w_made : step None (Creates "s" true) w0 w1.2.
Proof.
  apply (s_create None w0 w1.2 w1.1 true "s" 0 "default" "doc" "workflow" "ann" (VDict [])); [done| |apply surjective_pairing].
  vm_compute. split_and!; done.
Qed.

Lemma w_taken : reachable_by None taken w1.2.
Proof.
  exists w0. split; [exists 3, (Some empty_store); split; [by right|by vm_compute]|]. apply star_one. eexists. split; [|exact w_made]. done.
Qed.

Lemma reachable_by_any Q sv : reachable_by None Q sv -> reachable None sv.
Proof.
  intros (sv0 & Hinit & Hrun). exists sv0. split; [done|]. clear Hinit.
  induction Hrun as [|a b c (x & _ & Hx) _ IH]; [apply star_refl|]. eapply star_step; [by exists x|done].
Qed.

Lemma w_created : reachable None w1.2.
Proof. apply (reachable_by_any taken), w_taken. Qed.

Lemma w_2 : step None Calls w1.2 w2.2.
Proof. eapply s_append; apply surjective_pairing. Qed.
Lemma w_3 : step None Calls w2.2 w3.2.
Proof. eapply s_append; apply surjective_pairing. Qed.
Lemma w_4 : step None Calls w3.2 w4.2.
Proof. eapply s_checkpoint; apply surjective_pairing. Qed.
Lemma w_5 : step None Restarts w4.2 w5.
Proof. by apply (s_restart None w4.2 w5 3); vm_compute. Qed.

(** Through the failing checkpoint and the restart. *)
Lemma w_spared : star (sparing None "s" (held "s" w1.2)) w1.2 w5.
Proof.
  eapply star_step; [by exists Calls; split; [exact w_2|]|].
  eapply star_step; [by exists Calls; split; [exact w_3|]|].
  eapply star_step; [by exists Calls; split; [exact w_4|]|].
  apply star_one. exists Restarts. split; [exact w_5|]. vm_compute. by eexists.
Qed.

Lemma w_later : reachable_by None taken w4.2.
Proof.
  destruct w_taken as (sv0 & Hinit & Hrun). exists sv0. split; [done|]. eapply star_trans; [exact Hrun|].
  eapply star_step; [by exists Calls; split; [|exact w_2]|]. eapply star_step; [by exists Calls; split; [|exact w_3]|].
  apply star_one. by exists Calls; split; [|exact w_4].
Qed.

Lemma w_reachable : reachable None w5.
Proof.
  destruct (reachable_by_any _ _ w_later) as (sv0 & Hinit & Hrun). exists sv0. split; [done|]. eapply star_trans; [exact Hrun|].
  apply star_one. exists Restarts. split; [done|exact w_5].
Qed.

Lemma open_sessions_are_sound_witness : session_id (open_of w5) = "s" /\ session_ok (open_of w5)
  /\ (op_id <$> ops (open_of w5)) = ["op1"; "op2"] /\ snapshot_revision (open_of w5) = 0.
Proof.
  destruct (open_sessions_are_sound None w5 "s" (open_of w5) w_reachable ltac:(by vm_compute)) as [H1 H2].
  split_and!; [done|done|by vm_compute|by vm_compute].
Defined.

Lemma acknowledged_operations_are_kept_witness : log_kept (open_of w1.2) (open_of w5) /\ held "s" w5
  /\ revision (open_of w1.2) = 0 /\ revision (open_of w5) = 2.
Proof.
  destruct (acknowledged_operations_are_kept None "s" w1.2 w5 (open_of w1.2) w_created ltac:(by vm_compute) w_spared) as (s' & Hs' & Hkept & Hheld).
  assert (s' = open_of w5) as -> by (unfold open_of; by rewrite Hs').
  split_and!; [exact Hkept|apply Hheld; vm_compute; by eexists|by vm_compute|by vm_compute].
Defined.

(** A session the store does not take, then one it takes. *)
Definition w_lost := create None false "t" 5 "default" "doc" "workflow" "ann" (VDict []) w0.
Definition w_both := create None true "s" 6 "default" "doc" "workflow" "ann" (VDict []) w_lost.2.

Lemma w_both_reachable : reachable None w_both.2.
Proof.
  exists w0. split; [exists 3, (Some empty_store); split; [by right|by vm_compute]|].
  eapply star_step; [|apply star_one].
  - exists (Creates "t" false). split; [done|].
    apply (s_create None w0 w_lost.2 w_lost.1 false "t" 5 "default" "doc" "workflow" "ann" (VDict [])); [done| |apply surjective_pairing].
    vm_compute. split_and!; done.
  - exists (Creates "s" true). split; [done|].
    apply (s_create None w_lost.2 w_both.2 w_both.1 true "s" 6 "default" "doc" "workflow" "ann" (VDict [])); [by vm_compute| |apply surjective_pairing].
    vm_compute. split_and!; done.
Qed.

(** It starts again after the failed checkpoint; after the failed creation it
    starts too and has lost that session. *)
Lemma restart_brings_sessions_back_witness :
  w4.1 = Err StoreFailed /\ snapshot_revision (open_of w4.2) = 1 /\ snapshot_revision (open_of w5) = 0
  /\ (exists db, store w4.2 = Some db /\ is_ok (service_init 3 (Some db)) = true)
  /\ exists db sv', store w_both.2 = Some db /\ service_init 3 (Some db) = Ok sv' /\ dict_get (sessions_map sv') "t" = None
       /\ exists s', dict_get (sessions_map sv') "s" = Some s' /\ lags s' (open_of w_both.2).
Proof.
  split_and!; [vm_compute; reflexivity|vm_compute; reflexivity|vm_compute; reflexivity| |].
  - destruct (store w4.2) as [db|] eqn:Hdb; [|exfalso; vm_compute in Hdb; discriminate Hdb]. exists db. split; [done|].
    destruct (restart_brings_sessions_back None w4.2 db 3 (reachable_by_any _ _ w_later) Hdb ltac:(lia)) as [Htaken _].
    by apply Htaken, w_later.
  - destruct (store w_both.2) as [db|] eqn:Hdb; [|exfalso; vm_compute in Hdb; discriminate Hdb].
    destruct (restart_brings_sessions_back None w_both.2 db 3 w_both_reachable Hdb ltac:(lia)) as [_ Hstart].
    destruct (service_init 3 (Some db)) as [sv'|e] eqn:Hinit.
    + destruct Hstart as (_ & _ & Hback). exists db, sv'. split_and!; [done|done| |].
      * assert (Ht : dict_get (sessions_map w_both.2) "t" = Some (default (open_of w_both.2) (dict_get (sessions_map w_both.2) "t"))) by (vm_compute; reflexivity).
        specialize (Hback _ _ Ht). destruct (decide (is_Some (t_sessions db !! "t"))) as [Hs|]; [|exact Hback].
        exfalso. assert (Hnone : (t_sessions <$> store w_both.2) ≫= (fun t => t !! "t") = None) by (vm_compute; reflexivity). rewrite Hdb in Hnone.
        cbn in Hnone. rewrite Hnone in Hs. destruct Hs as [x Hx]. discriminate Hx.
      * assert (Hs : dict_get (sessions_map w_both.2) "s" = Some (open_of w_both.2)) by (vm_compute; reflexivity).
        specialize (Hback _ _ Hs). destruct (decide (is_Some (t_sessions db !! "s"))) as [|Hno].
        -- destruct Hback as (s' & Hs' & Hlag & _). exists s'. split; [exact Hs'|exact Hlag].
        -- exfalso. apply Hno. assert (Hsome : is_Some ((t_sessions <$> store w_both.2) ≫= (fun t => t !! "s"))) by (vm_compute; eexists; reflexivity).
           rewrite Hdb in Hsome. exact Hsome.
    + exfalso. assert (Hok : is_ok (service_init 3 (store w_both.2)) = true) by (vm_compute; reflexivity). rewrite Hdb, Hinit in Hok. discriminate Hok.
Defined.

(** A retry with another base and another patch, after the restart. *)
Lemma append_is_idempotent_witness :
  exists op, append true 9 "s" "op1" "tab" 7 [] "ann" "human" w5 = (Ok (op, true), w5)
    /\ op_patch op = [VDict [(VStr "op", VStr "remove"); (VStr "path", VList [VStr "a"])]].
Proof.
  destruct w2.1 as [[op b]|] eqn:Hw; [|exfalso; by vm_compute in Hw].
  assert (Hop : op_patch op = [VDict [(VStr "op", VStr "remove"); (VStr "path", VList [VStr "a"])]] /\ op_revision op = 1).
  { vm_compute in Hw. by injection Hw as <- _. }
  exists op. split; [|apply Hop].
  apply (append_is_idempotent None true 1 "s" "op1" "tab" 0 w_patch "ann" "human" w1.2 op b w2.2 w5 (open_of w5)
           true 9 7 [] [] "human").
  - apply w_created.
  - by rewrite <- Hw, <- surjective_pairing.
  - eapply star_step; [split; [by exists Calls; exact w_3|by vm_compute; eexists]|].
    eapply star_step; [split; [by exists Calls; exact w_4|by vm_compute; eexists]|].
    apply star_one. split; [exists Restarts; exact w_5|by vm_compute; eexists].
  - by vm_compute.
  - destruct Hop as [_ ->]. by vm_compute.
  - by vm_compute.
  - done.
Defined.

Lemma ops_after_is_the_tail_witness :
  op_revision <$> drop (Z.to_nat (1 - snapshot_revision (open_of w5))) (ops (open_of w5)) = [2]
  /\ (ops_after "s" 1 "eve" w5).1 = Ok (drop (Z.to_nat (1 - snapshot_revision (open_of w5))) (ops (open_of w5))).
Proof.
  destruct (ops_after_is_the_tail None w5 "s" (open_of w5) 1 "eve" w_reachable ltac:(by vm_compute)) as [H1 H2].
  rewrite H1. split; [|by vm_compute]. rewrite H2; by vm_compute.
Defined.
End witnesses.
