(* ===== verification/Envelopes.v ===== *)
(** Envelopes: how values are put together (dinkster_values: model.py,
    absent.py, lists.py, tuples.py): the framed hash under fingerprints, lists
    and tuples of envelopes, absent values and the resources a tree refers to
    with their owners. *)
From Stdlib Require Import Ascii.
From S2P Require Import Prelude PyStr Schema TypeIds Values.

Local Open Scope string_scope.
Local Open Scope list_scope.

(** * Bytes *)

(** [str.encode("utf-8")] below code point 256. *)
Definition utf8_char (c : ascii) : string :=
  let n := N_of_ascii c in
  if (n <? 128)%N then String c "" else String (ascii_of_N (192 + n / 64)) (String (ascii_of_N (128 + n mod 64)) "").

Fixpoint utf8 (s : string) : string :=
  match s with "" => "" | String c s' => utf8_char c +:+ utf8 s' end.

(** The [k] bytes of [n.to_bytes(k, "big")]. *)
Fixpoint to_bytes (k : nat) (n : N) : string :=
  match k with O => "" | S k' => to_bytes k' (n / 256) +:+ String (ascii_of_N (n mod 256)) "" end.

(** * Envelopes *)

Definition v_type (v : value) : string := match v with mkValue t _ _ _ => t end.
Definition v_fingerprint (v : value) : string := match v with mkValue _ f _ _ => f end.

Definition CORE_ABSENT : string := "core.absent".
Definition ABSENT_ORIGIN_META_KEY : string := "absent.origin".
Definition ABSENT_REASON_META_KEY : string := "absent.reason".
Definition ABSENT_STANDS_FOR_META_KEY : string := "absent.standsFor".
Definition LENGTH_META_KEY : string := "length".

Definition is_absent (v : value) : bool := String.eqb (v_type v) CORE_ABSENT.

(** The children of a list alone; [value_children] reads tuples too. *)
Definition list_children (v : value) : option (list value) :=
  match v with mkValue _ _ _ (Structural ListContainer _ children) => Some children | _ => None end.

(** ** Fingerprints *)

Section fingerprints.
(** [hashlib.blake2b(digest_size=20)] with [hexdigest], of all the bytes. *)
Variable blake2b : string -> string.

Definition frame (part : string) : string := to_bytes 8 (N.of_nat (String.length part)) +:+ part.
Fixpoint framed (parts : list string) : string :=
  match parts with [] => "" | part :: parts' => frame part +:+ framed parts' end.
Definition stable_hash (parts : list string) : string := blake2b (framed parts).

(** Each child's type id and fingerprint. *)
Definition child_parts (children : list value) : list string :=
  concat (map (fun c => [utf8 (v_type c); utf8 (v_fingerprint c)]) children).

Definition list_parts (children : list value) : list string := "list" :: child_parts children.
Definition tuple_parts (children : list value) : list string := "tuple" :: child_parts children.
Definition list_fingerprint (children : list value) : string := stable_hash (list_parts children).

(** ** Making values: [identity] is the new payload's *)

Definition make_absent_value (identity : N) (origin reason : string) (stands_for : option string) : value :=
  let stands := default "" stands_for in
  mkValue CORE_ABSENT (stable_hash [utf8 CORE_ABSENT; utf8 origin; utf8 reason; utf8 stands])
    [(ABSENT_ORIGIN_META_KEY, VStr origin); (ABSENT_REASON_META_KEY, VStr reason); (ABSENT_STANDS_FOR_META_KEY, VStr stands)]
    (Opaque identity).

Inductive make_error := ChildHasType (type_id : string).

Fixpoint check_children (element_type_id : string) (children : list value) : result make_error unit :=
  match children with
  | [] => Ok tt
  | c :: children' =>
      if negb (String.eqb element_type_id "*") && negb (String.eqb (v_type c) element_type_id)
      then Err (ChildHasType (v_type c))
      else check_children element_type_id children'
  end.

Definition make_list_value (identity : N) (element_type_id : string) (children : list value) : result make_error value :=
  _ ← check_children element_type_id children;
  Ok (mkValue (list_type_id element_type_id) (list_fingerprint children)
        [(LENGTH_META_KEY, VInt (Z.of_nat (length children)))] (Structural ListContainer identity children)).

Definition make_tuple_value (identity : N) (children : list value) : value :=
  mkValue (tuple_type_id (map v_type children)) (stable_hash (tuple_parts children))
    [(LENGTH_META_KEY, VInt (Z.of_nat (length children)))] (Structural TupleContainer identity children).
End fingerprints.

(** ** References with their owners *)

Definition RESOURCE_OWNER_META_KEY : string := "resourceOwner".

Definition resource_refs_of (v : value) : list (string * option string) :=
  map (fun rid => (rid, match meta_get v RESOURCE_OWNER_META_KEY with Some (VStr owner) => Some owner | _ => None end))
    (local_resource_ids v).

Definition add_ref (seen : list (string * option string)) (ref : string * option string) : list (string * option string) :=
  if decide (ref ∈ seen) then seen else seen ++ [ref].

Definition value_resource_refs (v : value) : list (string * option string) :=
  foldl add_ref [] (concat (map resource_refs_of (iter_value_tree v))).

(** * The framing is injective *)

Fixpoint utf8_decode_char (s : string) : option (ascii * string) :=
  match s with
  | String a s' =>
      if (N_of_ascii a <? 128)%N then Some (a, s')
      else match s' with
           | String b s'' => Some (ascii_of_N ((N_of_ascii a - 192) * 64 + (N_of_ascii b - 128)), s'')
           | "" => None
           end
  | "" => None
  end.

Lemma utf8_decode a s : utf8_decode_char (utf8_char a +:+ s) = Some (a, s).
Proof. destruct a as [[] [] [] [] [] [] [] []]; reflexivity. Qed.

Lemma utf8_inj a b : utf8 a = utf8 b -> a = b.
Proof.
  revert b. induction a as [|x a IH]; intros [|y b]; cbn [utf8].
  - done.
  - intros Heq. apply (f_equal utf8_decode_char) in Heq. by rewrite utf8_decode in Heq.
  - intros Heq. apply (f_equal utf8_decode_char) in Heq. by rewrite utf8_decode in Heq.
  - intros Heq. apply (f_equal utf8_decode_char) in Heq. rewrite !utf8_decode in Heq. injection Heq as -> Heq.
    f_equal. by apply IH.
Qed.

(** The byte count of schemas is the length of the encoding. *)
Lemma utf8_length_spec s : utf8_length s = Z.of_nat (String.length (utf8 s)).
Proof.
  induction s as [|c s IH]; [done|]. cbn [utf8 utf8_length]. rewrite str_length_app, Nat2Z.inj_add, <- IH.
  f_equal. unfold utf8_char, code. by destruct (N_of_ascii c <? 128)%N.
Qed.

Lemma length_to_bytes k n : String.length (to_bytes k n) = k.
Proof.
  revert n. induction k as [|k IH]; intros n; [done|]. cbn [to_bytes]. rewrite str_length_app, IH. cbn. lia.
Qed.

Lemma to_bytes_inj k n m : (n < 256 ^ N.of_nat k)%N -> (m < 256 ^ N.of_nat k)%N -> to_bytes k n = to_bytes k m -> n = m.
Proof.
  revert n m. induction k as [|k IH]; intros n m Hn Hm; [cbn in *; lia|]. cbn [to_bytes]. intros Heq.
  apply str_app_comm_tail in Heq as [Heq Hlast]; [|done]. injection Hlast as Hlast.
  rewrite Nat2N.inj_succ, N.pow_succ_r' in Hn, Hm.
  apply IH in Heq; [|by apply N.Div0.div_lt_upper_bound..].
  assert (n mod 256 = m mod 256)%N as Hmod.
  { apply (f_equal N_of_ascii) in Hlast.
    rewrite !N_ascii_embedding in Hlast by (by apply N.mod_lt). done. }
  rewrite (N.div_mod n 256), (N.div_mod m 256) by done. congruence.
Qed.

(** Python's sizes are below 2^63. *)
Definition sized (s : string) : Prop := (N.of_nat (String.length s) < 2 ^ 63)%N.

Lemma str_app_split a b c d : a +:+ b = c +:+ d -> String.length a = String.length c -> a = c /\ b = d.
Proof.
  revert c. induction a as [|x a IH]; intros [|y c]; cbn; try done. intros [= -> Heq] [= Hl].
  destruct (IH c Heq Hl) as [-> ->]. done.
Qed.

Lemma frame_split p q r s : sized p -> sized q -> frame p +:+ r = frame q +:+ s -> p = q /\ r = s.
Proof.
  unfold frame, sized. intros Hp Hq. rewrite !str_app_assoc. intros Heq.
  apply str_app_split in Heq as [Hlen Heq]; [|by rewrite !length_to_bytes].
  apply to_bytes_inj in Hlen; [|change (256 ^ N.of_nat 8)%N with (2 ^ 64)%N; lia..].
  apply str_app_split in Heq; [done|lia].
Qed.

Lemma framed_inj ps qs : Forall sized ps -> Forall sized qs -> framed ps = framed qs -> ps = qs.
Proof.
  intros Hp. revert qs. induction Hp as [|p ps Hp _ IH]; intros [|q qs] Hq; cbn [framed].
  - done.
  - intros Heq. apply (f_equal String.length) in Heq. unfold frame in Heq. rewrite !str_length_app, length_to_bytes in Heq. cbn in Heq. lia.
  - intros Heq. apply (f_equal String.length) in Heq. unfold frame in Heq. rewrite !str_length_app, length_to_bytes in Heq. cbn in Heq. lia.
  - apply Forall_cons in Hq as [Hq Hqs]. intros [-> Heq]%frame_split; [|done..]. f_equal. by apply IH.
Qed.

(** * Fingerprints *)

(** What a fingerprint is taken of. *)
Definition identity_of (v : value) : string * string := (v_type v, v_fingerprint v).

Definition sized_value (v : value) : Prop := sized (utf8 (v_type v)) /\ sized (utf8 (v_fingerprint v)).

Lemma child_parts_inj a b : child_parts a = child_parts b -> map identity_of a = map identity_of b.
Proof.
  unfold child_parts. revert b. induction a as [|x a IH]; intros [|y b]; cbn; try done.
  intros [= Ht Hf Heq]. unfold identity_of at 1 3. apply utf8_inj in Ht as ->. apply utf8_inj in Hf as ->. f_equal. by apply IH.
Qed.

Lemma child_parts_identity a b : map identity_of a = map identity_of b -> child_parts a = child_parts b.
Proof.
  unfold child_parts. revert b. induction a as [|x a IH]; intros [|y b]; cbn; try done.
  unfold identity_of at 1 3. intros [= -> -> Heq]. do 2 f_equal. by apply IH.
Qed.

Lemma sized_parts tag children : sized tag -> Forall sized_value children -> Forall sized (tag :: child_parts children).
Proof.
  intros Htag Hc. constructor; [done|]. unfold child_parts. induction Hc as [|c children [Ht Hf] _ IH]; [constructor|].
  cbn. by repeat constructor.
Qed.

(** Fingerprints of containers are as good as the hash under them.  Unless
    the hash collides on these very inputs, two lists have one fingerprint
    exactly when their children agree in type and fingerprint, position by
    position, and no list shares its fingerprint with a tuple. *)
Theorem container_fingerprints blake2b a b : Forall sized_value a -> Forall sized_value b ->
  (forall p q, p ∈ [list_parts a; tuple_parts a] -> q ∈ [list_parts b; tuple_parts b] ->
     blake2b (framed p) = blake2b (framed q) -> framed p = framed q) ->
  (list_fingerprint blake2b a = list_fingerprint blake2b b <-> map identity_of a = map identity_of b)
  /\ list_fingerprint blake2b a <> stable_hash blake2b (tuple_parts b).
Proof.
  intros Ha Hb Hinj. assert (Hsl : sized "list" /\ sized "tuple") by (split; by vm_compute). destruct Hsl as [Hsl Hst].
  unfold list_fingerprint, stable_hash. split; [split|].
  - intros Heq%Hinj; [|set_solver..]. apply framed_inj in Heq; [|by apply sized_parts..].
    injection Heq. apply child_parts_inj.
  - intros Heq. unfold list_parts. by rewrite (child_parts_identity a b Heq).
  - intros Heq%Hinj; [|set_solver..]. apply framed_inj in Heq; [|by apply sized_parts..]. done.
Qed.

Definition demo_text (fp : string) : value := mkValue "core.string" fp [] (Opaque 7).

Lemma container_fingerprints_witness :
  list_fingerprint (fun s => s) [demo_text "a"; demo_text "b"] <> list_fingerprint (fun s => s) [demo_text "ab"; demo_text ""].
Proof.
  intros Heq. apply (container_fingerprints (fun s => s)) in Heq.
  - done.
  - repeat constructor; by vm_compute.
  - repeat constructor; by vm_compute.
  - done.
Defined.

(** * What containers show of their children *)


Lemma check_children_ok element children : is_ok (check_children element children) = true <->
  element = "*" \/ Forall (fun c => v_type c = element) children.
Proof.
  induction children as [|c children IH]; cbn [check_children]; [split; [by right|done]|].
  destruct (String.eqb_spec element "*") as [He|He]; cbn [negb andb].
  - rewrite IH. split; by left.
  - destruct (String.eqb_spec (v_type c) element) as [Ht|Ht]; cbn [negb].
    + rewrite IH, Forall_cons. naive_solver.
    + cbn. rewrite Forall_cons. naive_solver.
Qed.

(** A list is made exactly when its element type is the wildcard or every
    child's. *)
Lemma make_list_ok blake2b identity element children v : make_list_value blake2b identity element children = Ok v ->
  v = mkValue (list_type_id element) (list_fingerprint blake2b children)
        [(LENGTH_META_KEY, VInt (Z.of_nat (length children)))] (Structural ListContainer identity children)
  /\ (element = "*" \/ Forall (fun c => v_type c = element) children).
Proof.
  intros ([] & Hc & [= <-])%bind_ok. split; [done|]. apply check_children_ok. by rewrite Hc.
Qed.

Lemma elem_of_add_ref l seen x : x ∈ foldl add_ref seen l <-> x ∈ seen \/ x ∈ l.
Proof.
  revert seen. induction l as [|y l IH]; intros seen; cbn [foldl]; [set_solver|]. rewrite IH.
  unfold add_ref. case_decide; set_solver.
Qed.

Lemma value_resource_refs_spec v ref :
  ref ∈ value_resource_refs v <-> exists u, u ∈ iter_value_tree v /\ ref ∈ resource_refs_of u.
Proof. unfold value_resource_refs. rewrite elem_of_add_ref, elem_of_concat_map. set_solver. Qed.

(** A list never hides what its children refer to: its references, with their
    owners, are theirs. *)
Lemma lists_hide_nothing blake2b identity element children v ref : make_list_value blake2b identity element children = Ok v ->
  ref ∈ value_resource_refs v <-> exists c, c ∈ children /\ ref ∈ value_resource_refs c.
Proof.
  intros [-> _]%make_list_ok. rewrite value_resource_refs_spec. cbn [iter_value_tree]. split.
  - intros (u & [->|(c & Hc & Hu)%elem_of_concat_map]%elem_of_cons & Hr); [by apply not_elem_of_nil in Hr|].
    exists c. split; [done|]. apply value_resource_refs_spec. by exists u.
  - intros (c & Hc & (u & Hu & Hr)%value_resource_refs_spec). exists u. split; [|done]. right.
    apply elem_of_concat_map. by exists c.
Qed.

Lemma absent_is_absent blake2b identity origin reason stands : is_absent (make_absent_value blake2b identity origin reason stands) = true.
Proof. done. Qed.
