(* ===== verification/Regions.v ===== *)
(** Regions: how the engine repeats the body of a region
    (dinkster_engine/engine.py, [Engine._run_region]): inputs and absence,
    binding sets, the map, fold and while profiles, and the assembly of
    outputs.  An iteration's body is a level of [Scheduler]. *)
From S2P Require Import Prelude PyStr TypeIds TypeExprs Widgets Schema Graph Plan Loops Infer Validate Scheduler Values Envelopes.

Local Open Scope string_scope.
Local Open Scope list_scope.

(** * Results *)

Abbreviation dict A := (list (string * A)).
(** [dict[str, Mapping[str, Value]]]: the outputs of some nodes. *)
Abbreviation Produced := (gmap string (dict value)).

(** Why a region fails with an error of its own. *)
Inductive region_message :=
| BodyElaboration
| NonListElement (port : string)
| UnequalLengths
| EmptyElementPorts (ports : list string)
| TooManyBindings (count : nat)
| AbsentContinue
| NonBooleanContinue
| IterationLimit
| NonListBody (output : string)
| NoRuntimeType (output : string).

(** An exception: raised by what the region calls, or by the region. *)
Inductive exn (E : Type) :=
| Called (e : E)
| RegionError (message : region_message)
| Interface (e : raised)
| Making (e : make_error)
| MissingId (id : string)
| NoPortType (id : string)
| BadIndex
| AssertionFailed
| Group (es : list (exn E)).
Arguments Called {E} e. Arguments RegionError {E} message. Arguments Interface {E} e. Arguments Making {E} e.
Arguments MissingId {E} id. Arguments NoPortType {E} id. Arguments BadIndex {E}. Arguments AssertionFailed {E}.
Arguments Group {E} es.

(** [{**d1, **d2}]. *)
Definition merge {A} (d1 d2 : dict A) : dict A := foldl (fun d kv => dict_set d kv.1 kv.2) d1 d2.

Definition wrap_error {E E' A} (f : E' -> exn E) (r : result E' A) : result (exn E) A :=
  match r with Ok a => Ok a | Err e => Err (f e) end.

Definition require {E A} (e : exn E) (o : option A) : result (exn E) A := match o with Some a => Ok a | None => Err e end.

(** [d[key]]. *)
Definition subscript {E A} (d : dict A) (key : string) : result (exn E) A := require (MissingId key) (dict_get d key).

Fixpoint fold_result {E A B} (f : B -> A -> result E B) (b : B) (l : list A) : result E B :=
  match l with [] => Ok b | x :: l' => b ← f b x; fold_result f b l' end.

(** * Bindings *)

Section bindings.
Context {E : Type}.
Abbreviation M := (result (exn E)).
Abbreviation elements := (dict (list value)).

(** [elements[port][i]]. *)
Definition at_index (i : nat) (pc : string * list value) : M (string * value) :=
  v ← require BadIndex (pc.2 !! i); Ok (pc.1, v).

Definition zip_bindings (els : elements) : M (list (dict value)) :=
  let lengths := map (fun pc => length pc.2) els in
  match lengths with
  | [] => Err AssertionFailed
  | count :: _ =>
      if negb (forallb (Nat.eqb count) lengths) then Err (RegionError UnequalLengths)
      else mapM (fun i => mapM (at_index i) els) (seq 0 count)
  end.

(** [itertools.product]: the last port varies fastest. *)
Fixpoint cross_bindings (els : elements) : list (dict value) :=
  match els with
  | [] => [[]]
  | (port, children) :: els' => concat (map (fun v => map (cons (port, v)) (cross_bindings els')) children)
  end.

Definition broadcast_bindings (els : elements) : M (list (dict value)) :=
  let count := foldr Nat.max 0%nat (map (fun pc => length pc.2) els) in
  let empty_ports := keys (List.filter (fun pc => (length pc.2 =? 0)%nat) els) in
  if negb (bool_decide (empty_ports = [])) && negb (count =? 0)%nat then Err (RegionError (EmptyElementPorts empty_ports))
  else mapM (fun i => mapM (fun pc => at_index (Nat.min i (length pc.2 - 1)) pc) els) (seq 0 count).

Definition children_of (inputs : dict value) (port : string) : M (string * list value) :=
  v ← subscript inputs port;
  children ← require (RegionError (NonListElement port)) (list_children v);
  Ok (port, children).

Definition region_bindings (r : RegionNode) (inputs : dict value) : M (list (dict value)) :=
  match rn_element_ports r with
  | [] => Ok []
  | ports =>
      els ← mapM (children_of inputs) ports;
      bindings ← match rn_binding r with
                 | BZip => zip_bindings els
                 | BCross => Ok (cross_bindings els)
                 | BBroadcast => broadcast_bindings els
                 end;
      match rn_max_iterations r with
      | Some m => if (m <? Z.of_nat (length bindings))%Z then Err (RegionError (TooManyBindings (length bindings))) else Ok bindings
      | None => Ok bindings
      end
  end.
End bindings.

(** * Iterations *)

(** [gathered], [last_values] and [state]. *)
Record Tally := {
  gathered : dict (list value);
  last_values : dict value;
  state : dict value;
}.

Definition collects (m : OutputMode) : bool :=
  match m with OGather | OCompact | OFlatten => true | OState | OLast => false end.

Definition source_value {E} (body_produced : Produced) (source : Link) : result (exn E) value :=
  outs ← require (MissingId (link_node source)) (body_produced !! link_node source);
  subscript outs (link_output source).

Section iterations.
Context {E : Type}.
Abbreviation M := (result (exn E)).
(** The type registry: [wrap] and [Value.resolve]; the latter's answer is
    Some when it is a boolean. *)
Variable wrap : string -> gvalue -> result E value.
Variable resolve : value -> result E (option bool).
(** [_execute_dag] of the body: what the level with the given index ends
    with, from what it finds in [body_produced]. *)
Variable execute : nat -> Produced -> result E Produced.
(** [isinstance(e, ExecutionError)]. *)
Variable is_execution_error : E -> bool.
Variables (r : RegionNode) (broadcast : dict value).

Definition collect_output (body_produced : Produced) (t : Tally) (out : string * RegionOutput) : M Tally :=
  if collects (ro_mode out.2) then
    v ← source_value body_produced (ro_source out.2);
    vs ← subscript (gathered t) out.1;
    Ok {| gathered := dict_set (gathered t) out.1 (vs ++ [v]); last_values := last_values t; state := state t |}
  else if bool_decide (ro_mode out.2 = OLast) then
    v ← source_value body_produced (ro_source out.2);
    Ok {| gathered := gathered t; last_values := dict_set (last_values t) out.1 v; state := state t |}
  else Ok t.

Definition collect (t : Tally) (body_produced : Produced) : M Tally :=
  fold_result (collect_output body_produced) t (rn_outputs r).

Definition advance_output (body_produced : Produced) (t : Tally) (out : string * RegionOutput) : M Tally :=
  if bool_decide (ro_mode out.2 = OState) then
    v ← source_value body_produced (ro_source out.2);
    Ok {| gathered := gathered t; last_values := last_values t; state := dict_set (state t) out.1 v |}
  else Ok t.

Definition advance_state (t : Tally) (body_produced : Produced) : M Tally :=
  fold_result (advance_output body_produced) t (rn_outputs r).

Definition body_ports (index : nat) (binding iteration_state : dict value) : M (dict value) :=
  let ports := merge (merge broadcast binding) iteration_state in
  if dict_mem (rn_ports r) REGION_INDEX_PORT_ID then Ok ports
  else v ← wrap_error Called (wrap CORE_INT (GInt (Z.of_nat index))); Ok (dict_set ports REGION_INDEX_PORT_ID v).

Definition run_iteration (index : nat) (binding iteration_state : dict value) : M Produced :=
  ports ← body_ports index binding iteration_state;
  wrap_error Called (execute index {[PORTS_NODE_ID := ports]}).

(** ** Profiles *)

Fixpoint fold_loop (index : nat) (bindings : list (dict value)) (t : Tally) : M Tally :=
  match bindings with
  | [] => Ok t
  | binding :: bindings' =>
      body_produced ← run_iteration index binding (state t);
      t ← collect t body_produced;
      t ← advance_state t body_produced;
      fold_loop (S index) bindings' t
  end.

Definition is_execution (e : exn E) : bool :=
  match e with Called e => is_execution_error e | RegionError _ => true | _ => false end.

(** [except* ExecutionError] around the task group, in which these failed in
    this order. *)
Definition group_error (es : list (exn E)) : exn E :=
  match List.filter is_execution es, List.filter (fun e => negb (is_execution e)) es with
  | e :: _, [] => e
  | e :: _, others => Group (e :: others)
  | [], others => Group others
  end.

(** The tasks of a map that end by themselves, in the order they do. *)
Definition map_ends (completion : list nat) (bindings : list (dict value)) : list (nat * M Produced) :=
  omap (fun i => binding ← bindings !! i; Some (i, run_iteration i binding [])) completion.

Definition failures (ends : list (nat * M Produced)) : list (exn E) :=
  omap (fun p => match p.2 with Err e => Some e | Ok _ => None end) ends.

(** [results[index] = ...]. *)
Definition store_results (ends : list (nat * M Produced)) (results : list (option Produced)) : list (option Produced) :=
  foldl (fun rs p => match p.2 with Ok b => <[p.1 := Some b]> rs | Err _ => rs end) results ends.

Definition map_loop (completion : list nat) (bindings : list (dict value)) (t : Tally) : M Tally :=
  let ends := map_ends completion bindings in
  match failures ends with
  | [] => fold_result (fun t o => b ← require AssertionFailed o; collect t b) t
            (store_results ends (replicate (length bindings) None))
  | es => Err (group_error es)
  end.

(** One round of [while True]: does the region go on? *)
Definition while_round (source : Link) (done : nat) (t : Tally) : M (bool * Tally) :=
  body_produced ← run_iteration done [] (state t);
  cont_value ← source_value body_produced source;
  if is_absent cont_value then Err (RegionError AbsentContinue)
  else
    answer ← wrap_error Called (resolve cont_value);
    cont ← require (RegionError NonBooleanContinue) answer;
    t ← collect t body_produced;
    t ← advance_state t body_produced;
    Ok (cont, t).

(** None: out of fuel. *)
Fixpoint while_loop (fuel : nat) (source : Link) (max_iterations : Z) (done : nat) (t : Tally) : option (M (nat * Tally)) :=
  match fuel with
  | O => None
  | S fuel' =>
      match while_round source done t with
      | Err e => Some (Err e)
      | Ok (cont, t) =>
          if negb cont then Some (Ok (S done, t))
          else if (max_iterations <=? Z.of_nat (S done))%Z then Some (Err (RegionError IterationLimit))
          else while_loop fuel' source max_iterations (S done) t
      end
  end.

Definition initial_tally (state : dict value) : Tally :=
  {| gathered := map (fun o => (o.1, [])) (List.filter (fun o => collects (ro_mode o.2)) (rn_outputs r));
     last_values := []; state := state |}.

(** How many iterations were done, and what they left. *)
Definition run_profile (completion : list nat) (bindings : list (dict value)) (t : Tally) : M (nat * Tally) :=
  match rn_kind r with
  | RMap => t ← map_loop completion bindings t; Ok (length bindings, t)
  | RFold => t ← fold_loop 0 bindings t; Ok (length bindings, t)
  | RWhile =>
      source ← require AssertionFailed (rn_continue_source r);
      max_iterations ← require AssertionFailed (rn_max_iterations r);
      default (Err AssertionFailed) (while_loop (S (Z.to_nat max_iterations)) source max_iterations 0 t)
  end.
End iterations.

(** * Outputs *)

Section assembly.
Context {E : Type}.
Abbreviation M := (result (exn E)).
Variable blake2b : string -> string.
(** The identity of the payload made for an output. *)
Variable fresh : string -> N.
(** [str] of what is not a string. *)
Variable str_of : pyval -> string.
Variable label : string.
Variable interface : dict (option TypeExpr).

Definition meta_text (v : value) (key : string) : string :=
  match meta_get v key with Some (VStr s) => s | Some p => str_of p | None => "" end.

Definition stands_for (t : option TypeExpr) : option string := t ← t; runtime_type_id t.

(** Absence passed on with its root. *)
Definition propagate (out_id : string) (from : value) (stands : option string) : value :=
  make_absent_value blake2b (fresh out_id) (meta_text from ABSENT_ORIGIN_META_KEY) (meta_text from ABSENT_REASON_META_KEY) stands.

Definition flatten (out_id : string) (vs : list value) : M (list value) :=
  lists ← mapM (fun v => require (RegionError (NonListBody out_id)) (list_children v)) vs; Ok (concat lists).

Definition assemble_collection (mode : OutputMode) (out_id : string) (t : Tally) : M value :=
  list_type ← subscript interface out_id;
  list_runtime ← require (RegionError (NoRuntimeType out_id)) (stands_for list_type);
  element_type ← require AssertionFailed (parse_list_type_id list_runtime);
  iteration_values ← subscript (gathered t) out_id;
  match List.find is_absent iteration_values with
  | Some child =>
      if bool_decide (mode = OCompact)
      then wrap_error Making (make_list_value blake2b (fresh out_id) element_type (List.filter (fun c => negb (is_absent c)) iteration_values))
      else Ok (propagate out_id child (Some list_runtime))
  | None =>
      children ← if bool_decide (mode = OFlatten) then flatten out_id iteration_values
                 else Ok (List.filter (fun c => negb (is_absent c)) iteration_values);
      wrap_error Making (make_list_value blake2b (fresh out_id) element_type children)
  end.

Definition assemble_output (t : Tally) (out : string * RegionOutput) : M (string * value) :=
  v ← match ro_mode out.2 with
      | OState => subscript (state t) out.1
      | OLast =>
          match dict_get (last_values t) out.1 with
          | Some v => Ok v
          | None =>
              output_type ← subscript interface out.1;
              Ok (make_absent_value blake2b (fresh out.1) (label +:+ ("/" +:+ out.1)) "region completed zero iterations"
                    (stands_for output_type))
          end
      | mode => assemble_collection mode out.1 t
      end;
  Ok (out.1, v).

Definition absent_output (from : value) (out : string * RegionOutput) : M (string * value) :=
  t ← subscript interface out.1; Ok (out.1, propagate out.1 from (stands_for t)).
End assembly.

(** * A region *)

Record RegionRun := { outputs : dict value; skipped : bool; iterations : nat }.

Section region.
Context {E : Type}.
Abbreviation M := (result (exn E)).
Variable json_loads : string -> option pyval.
Variable schemas : string -> option NodeSchema.
Variable wrap : string -> gvalue -> result E value.
Variable resolve : value -> result E (option bool).
(** [_execute_dag] of the body under a plan and its targets. *)
Variable execute : list string * gmap string (gset string) -> list string -> nat -> Produced -> result E Produced.
Variable is_execution_error : E -> bool.
Variable blake2b : string -> string.
Variable fresh : string -> N.
Variable str_of : pyval -> string.
Variable label : string.
Variables (r : RegionNode) (body : Graph).

Definition resolve_input (produced : Produced) (input : string * gvalue) : M (string * value) :=
  v ← match input.2 with
      | GLink l => source_value produced l
      | GTyped type_id raw => wrap_error Called (wrap type_id raw)
      | raw =>
          port_type ← subscript (rn_ports r) input.1;
          let expected := if bool_decide (input.1 ∈ rn_element_ports r) then listed port_type else port_type in
          runtime ← require (NoPortType input.1) (runtime_type_id expected);
          wrap_error Called (wrap runtime raw)
      end;
  Ok (input.1, v).

(** The first absent input by name. *)
Definition absent_input (inputs : dict value) : option value :=
  List.find is_absent (omap (dict_get inputs) (merge_sort String.le (keys inputs))).

Definition body_targets : list string :=
  let sources := map (fun o => link_node (ro_source o.2)) (rn_outputs r)
                 ++ match rn_continue_source r with Some l => [link_node l] | None => [] end in
  sorted_set (list_to_set (List.filter (fun n => negb (String.eqb n PORTS_NODE_ID)) sources)
              ∪ list_to_set (output_node_targets schemas body)).

(** [{spec.id for spec in effective[node_id].inputs if spec.lazy}]. *)
Definition lazy_inputs (effective : dict NodeSchema) (node_id : string) : gset string :=
  match dict_get effective node_id with
  | Some s => list_to_set (map in_id (List.filter in_lazy (inputs s)))
  | None => ∅
  end.

(** The inputs that every iteration reads as they are. *)
Definition broadcast_inputs (inputs : dict value) : dict value :=
  List.filter (fun kv => negb (bool_decide (kv.1 ∈ rn_element_ports r)) && negb (bool_decide (kv.1 ∈ rn_state_ports r))) inputs.

Definition run_present (completion : list nat) (inputs : dict value) (interface : dict (option TypeExpr)) : M RegionRun :=
  p ← wrap_error Interface (elaborate_graph json_loads schemas body);
  _ ← raise_if (has_errors p.2) (RegionError BodyElaboration);
  plan ← require (MissingId label) (strong_plan body (lazy_inputs p.1) body_targets);
  state ← mapM (fun port => v ← subscript inputs port; Ok (port, v)) (rn_state_ports r);
  bindings ← region_bindings r inputs;
  p ← run_profile wrap resolve (execute plan body_targets) is_execution_error r (broadcast_inputs inputs) completion bindings
        (initial_tally r (merge [] state));
  outs ← mapM (assemble_output blake2b fresh str_of label interface p.2) (rn_outputs r);
  Ok {| outputs := outs; skipped := false; iterations := p.1 |}.

(** [completion] is the order in which the tasks of a map end. *)
Definition run_region (completion : list nat) (produced : Produced) : M RegionRun :=
  inputs ← mapM (resolve_input produced) (rn_inputs r);
  interface ← wrap_error Interface (region_interface json_loads schemas r body);
  match absent_input inputs with
  | Some from =>
      outs ← mapM (absent_output blake2b fresh str_of interface from) (rn_outputs r);
      Ok {| outputs := outs; skipped := true; iterations := 0 |}
  | None => run_present completion inputs interface
  end.
End region.

(** * Combinators *)

Lemma wrap_ok {E E' A} (f : E' -> exn E) (m : result E' A) a : wrap_error f m = Ok a <-> m = Ok a.
Proof. destruct m; cbn; split; congruence. Qed.

Lemma required_ok {E A} (e : exn E) (o : option A) a : require e o = Ok a <-> o = Some a.
Proof. destruct o; cbn; split; congruence. Qed.

Lemma subscript_ok {E A} (d : dict A) key a : subscript (E := E) d key = Ok a <-> dict_get d key = Some a.
Proof. apply required_ok. Qed.

Lemma mapM_ok {E A B} (f : A -> result E B) l l' : mapM f l = Ok l' <-> Forall2 (fun x y => f x = Ok y) l l'.
Proof.
  split.
  - revert l'. induction l as [|x l IH]; intros l'; cbn; [intros [= <-]; constructor|].
    intros (y & Hy & (k & Hk & [= <-])%bind_ok)%bind_ok. constructor; [done|by apply IH].
  - induction 1 as [|x y l l' Hx _ IH]; [done|]. cbn. apply bind_ok. exists y. split; [done|]. apply bind_ok. by exists l'.
Qed.

Lemma mapM_is_ok {E A B} (f : A -> result E B) l : is_ok (mapM f l) = true <-> Forall (fun x => is_ok (f x) = true) l.
Proof.
  induction l as [|x l IH]; [by split; [constructor|]|]. rewrite Forall_cons, <- IH. cbn.
  destruct (f x); cbn; [|by split; [|intros [? _]]]. destruct (mapM f l); cbn; tauto.
Qed.

Lemma fold_result_app {E A B} (f : B -> A -> result E B) b l1 l2 :
  fold_result f b (l1 ++ l2) = b' ← fold_result f b l1; fold_result f b' l2.
Proof. revert b. induction l1 as [|x l1 IH]; intros b; [done|]. cbn. destruct (f b x); cbn; [apply IH|done]. Qed.

(** * Bindings *)

(** A choice of one element for each port. *)
Fixpoint pick (els : dict (list value)) (choice : list nat) : option (dict value) :=
  match els, choice with
  | [], [] => Some []
  | (port, children) :: els', i :: choice' => v ← children !! i; b ← pick els' choice'; Some ((port, v) :: b)
  | _, _ => None
  end.

Definition widths (els : dict (list value)) : list nat := map (fun pc => length pc.2) els.

(** The digits of a number, the last one of the smallest weight. *)
Fixpoint digits (ws : list nat) (i : nat) : list nat :=
  match ws with [] => [] | _ :: ws' => (i / foldr Nat.mul 1 ws')%nat :: digits ws' (i mod foldr Nat.mul 1 ws') end.

(** How many bindings a mode makes, and what the one at an index chooses. *)
Definition binding_count (mode : BindingMode) (ws : list nat) : nat :=
  match mode with
  | BZip => List.hd 0%nat ws
  | BCross => foldr Nat.mul 1%nat ws
  | BBroadcast => foldr Nat.max 0%nat ws
  end.

Definition binding_choice (mode : BindingMode) (ws : list nat) (i : nat) : list nat :=
  match mode with
  | BZip => map (fun _ => i) ws
  | BCross => digits ws i
  | BBroadcast => map (fun w => Nat.min i (w - 1)) ws
  end.

Definition admissible (mode : BindingMode) (ws : list nat) : Prop :=
  match mode with
  | BZip => forall w, w ∈ ws -> w = List.hd 0%nat ws
  | BCross => True
  | BBroadcast => forall w, w ∈ ws -> w = 0%nat -> foldr Nat.max 0%nat ws = 0%nat
  end.

Section binding_lemmas.
Context {E : Type}.
Implicit Types (els : dict (list value)).

Lemma at_index_ok i pc (kv : string * value) : at_index (E := E) i pc = Ok kv <-> exists v, pc.2 !! i = Some v /\ kv = (pc.1, v).
Proof.
  unfold at_index. rewrite bind_ok. setoid_rewrite required_ok. split; intros (v & Hv & H); exists v; (split; [done|congruence]).
Qed.

(** Looking every port up is making the choice. *)
Lemma pick_mapM els (f : string * list value -> nat) :
  mapM (fun pc => at_index (E := E) (f pc) pc) els = require BadIndex (pick els (map f els)).
Proof.
  induction els as [|[port children] els IH]; [done|]. cbn [map pick]. cbn. rewrite IH. unfold at_index. cbn.
  destruct (children !! f (port, children)) as [v|]; [|done]. cbn. by destruct (pick els (map f els)).
Qed.

Lemma mapM_seq (f : nat -> result (exn E) (dict value)) (g : nat -> option (dict value)) n :
  (forall i, (i < n)%nat -> f i = require BadIndex (g i)) -> (forall i, (i < n)%nat -> is_Some (g i)) ->
  exists bs, mapM f (seq 0 n) = Ok bs /\ length bs = n /\ forall i, (i < n)%nat -> bs !! i = g i.
Proof.
  intros Hf Hg. assert (Hall : Forall (fun i => is_ok (f i) = true) (seq 0 n)).
  { apply Forall_forall. intros i Hi%elem_of_seq. destruct (Hg i) as [b Hb]; [lia|]. rewrite Hf by lia. by rewrite Hb. }
  apply mapM_is_ok in Hall. destruct (mapM f (seq 0 n)) as [bs|] eqn:Hbs; [|done]. exists bs. split; [done|].
  apply mapM_ok in Hbs. pose proof (Forall2_length _ _ _ Hbs) as Hlen. rewrite length_seq in Hlen. split; [done|].
  intros i Hi. destruct (Hg i Hi) as [b Hb]. destruct (lookup_lt_is_Some_2 bs i) as [b' Hb']; [lia|].
  rewrite Hb', Hb. f_equal. pose proof (Forall2_lookup_lr _ _ _ i (0 + i)%nat b' Hbs (lookup_seq_lt 0 n i Hi) Hb') as H.
  cbn in H. rewrite Hf, Hb in H by done. cbn in H. congruence.
Qed.

Lemma pick_some els choice : Forall2 (fun w i => (i < w)%nat) (widths els) choice -> is_Some (pick els choice).
Proof.
  revert choice. induction els as [|[port children] els IH]; intros choice Hc; inversion Hc as [|w i ws c Hi Hr]; subst; [by eexists|].
  cbn in *. destruct (lookup_lt_is_Some_2 children i Hi) as [v ->]. destruct (IH _ Hr) as [b ->]. by eexists.
Qed.

Lemma zip_exact els : els <> [] -> admissible BZip (widths els) ->
  exists bs, zip_bindings (E := E) els = Ok bs /\ length bs = binding_count BZip (widths els)
    /\ forall i, (i < length bs)%nat -> bs !! i = pick els (binding_choice BZip (widths els) i).
Proof.
  intros Hne Hadm. unfold zip_bindings. fold (widths els). destruct (widths els) as [|n ws] eqn:Hws; [by destruct els|].
  cbn [admissible List.hd] in Hadm. assert (forallb (Nat.eqb n) (n :: ws) = true) as ->.
  { apply forallb_forall. intros w Hw%list_elem_of_In. by apply Nat.eqb_eq, eq_sym, Hadm. }
  cbn [negb]. destruct (mapM_seq (fun i => mapM (at_index i) els) (fun i => pick els (map (fun _ => i) els)) n) as (bs & -> & Hl & Hi).
  - intros i _. apply (pick_mapM els (fun _ => i)).
  - intros i Hi. apply pick_some. rewrite Hws. rewrite <- Hws in Hadm. rewrite <- Hws. unfold widths.
    apply Forall2_fmap_l, Forall2_fmap_r, Forall_Forall2_diag, Forall_forall. intros pc Hpc. cbn.
    rewrite (Hadm (length pc.2)); [done|]. unfold widths. apply list_elem_of_fmap. by exists pc.
  - exists bs. split_and!; [done|done|]. intros i Hb. rewrite Hi by lia. unfold binding_choice. f_equal.
    rewrite <- Hws. unfold widths. by rewrite map_map.
Qed.

Lemma length_cross els : length (cross_bindings els) = binding_count BCross (widths els).
Proof.
  unfold widths. induction els as [|[port children] els IH]; [done|]. cbn in *. rewrite <- IH. clear IH.
  induction children as [|v children IHc]; [done|]. cbn. by rewrite length_app, length_map, IHc.
Qed.

Lemma cross_exact els i : (i < length (cross_bindings els))%nat -> cross_bindings els !! i = pick els (binding_choice BCross (widths els) i).
Proof.
  revert i. induction els as [|[port children] els IH]; intros i; [by destruct i; cbn; [|lia]|].
  unfold binding_choice, widths in *. cbn [cross_bindings map digits pick fst snd].
  pose proof (length_cross els) as Hl. unfold widths in Hl. cbn [binding_count] in Hl. rewrite <- Hl. set (w := length (cross_bindings els)) in *.
  destruct (decide (w = 0%nat)) as [Hw|Hw].
  - intros Hi. exfalso. revert Hi. clear -Hw. induction children as [|v children IHc]; cbn; [lia|].
    rewrite length_app, length_map. subst w. lia.
  - revert i. induction children as [|v children IHc]; intros i; cbn [map concat]; [cbn; lia|]. rewrite length_app, length_map. intros Hi.
    destruct (decide (i < w)%nat) as [Hlt|Hge].
    + rewrite lookup_app_l by (rewrite length_map; done). rewrite Nat.div_small, Nat.mod_small by done.
      rewrite list_lookup_fmap, IH by done. cbn. by destruct (pick els _).
    + rewrite lookup_app_r by (rewrite length_map; fold w; lia). rewrite length_map. fold w. rewrite IHc by lia.
      assert (Heq : (i = (i - w) + 1 * w)%nat) by lia.
      assert ((i / w)%nat = S ((i - w) / w)) as -> by (rewrite Heq at 1; rewrite Nat.div_add by done; lia).
      assert ((i mod w)%nat = ((i - w) mod w)%nat) as -> by (rewrite Heq at 1; by rewrite Nat.Div0.mod_add).
      done.
Qed.

Lemma max_elem (ws : list nat) w : w ∈ ws -> (w <= foldr Nat.max 0 ws)%nat.
Proof. induction ws as [|x ws IH]; [by intros ?%not_elem_of_nil|]. intros [->|Hw]%elem_of_cons; cbn; [lia|]. specialize (IH Hw). lia. Qed.

Lemma broadcast_exact els : admissible BBroadcast (widths els) ->
  exists bs, broadcast_bindings (E := E) els = Ok bs /\ length bs = binding_count BBroadcast (widths els)
    /\ forall i, (i < length bs)%nat -> bs !! i = pick els (binding_choice BBroadcast (widths els) i).
Proof.
  intros Hadm. unfold broadcast_bindings. fold (widths els). cbn [binding_count admissible] in *. set (n := foldr Nat.max 0%nat (widths els)) in *.
  assert (negb (bool_decide (keys (List.filter (fun pc => (length pc.2 =? 0)%nat) els) = [])) && negb (n =? 0)%nat = false) as ->.
  { destruct (Nat.eqb_spec n 0) as [Hn|Hn]; [by rewrite andb_false_r|]. rewrite andb_true_r. apply negb_false_iff, bool_decide_eq_true.
    destruct (List.filter _ els) as [|pc l] eqn:Hf; [done|]. exfalso.
    assert (Hin : pc ∈ List.filter (fun pc => (length pc.2 =? 0)%nat) els) by (rewrite Hf; left).
    apply list_elem_of_In, List.filter_In in Hin as [Hin Hz]. apply list_elem_of_In in Hin. apply Nat.eqb_eq in Hz.
    apply Hn, (Hadm (length pc.2)); [|done]. apply list_elem_of_fmap. by exists pc. }
  destruct (mapM_seq (fun i => mapM (fun pc => at_index (Nat.min i (length pc.2 - 1)) pc) els)
    (fun i => pick els (binding_choice BBroadcast (widths els) i)) n) as (bs & -> & Hl & Hi).
  - intros i _. unfold binding_choice, widths. rewrite map_map. apply (pick_mapM els (fun pc => Nat.min i (length pc.2 - 1))).
  - intros i Hi. apply pick_some. unfold binding_choice. apply Forall2_fmap_r.
    apply Forall_Forall2_diag, Forall_forall. intros w Hw. assert (w <> 0%nat) by (intros Hz; specialize (Hadm w Hw Hz); lia). cbn. lia.
  - exists bs. split_and!; [done|done|]. intros i Hb. apply Hi. lia.
Qed.
End binding_lemmas.

(** What the element ports of a region are bound to. *)
Definition bound_lists (r : RegionNode) (inputs : dict value) (els : dict (list value)) : Prop :=
  Forall2 (fun port pc => pc.1 = port /\ exists v, dict_get inputs port = Some v /\ list_children v = Some pc.2) (rn_element_ports r) els.

Lemma children_of_ok {E} inputs port pc : children_of (E := E) inputs port = Ok pc <->
  pc.1 = port /\ exists v, dict_get inputs port = Some v /\ list_children v = Some pc.2.
Proof.
  unfold children_of. rewrite bind_ok. setoid_rewrite bind_ok. setoid_rewrite subscript_ok. setoid_rewrite required_ok. split.
  - intros (v & Hv & children & Hc & [= <-]). eauto.
  - destruct pc as [p children]. cbn. intros (-> & v & Hv & Hc). exists v. split; [done|]. exists children. by split.
Qed.

Lemma mode_exact {E} mode els : els <> [] -> admissible mode (widths els) ->
  exists bs, match mode with BZip => zip_bindings (E := E) els | BCross => Ok (cross_bindings els) | BBroadcast => broadcast_bindings els end = Ok bs
    /\ length bs = binding_count mode (widths els)
    /\ forall i, (i < length bs)%nat -> bs !! i = pick els (binding_choice mode (widths els) i).
Proof.
  intros Hne Hadm. destruct mode.
  - by apply zip_exact.
  - exists (cross_bindings els). split_and!; [done|apply length_cross|apply cross_exact].
  - by apply broadcast_exact.
Qed.

Lemma mode_inadmissible {E} mode els bs :
  match mode with BZip => zip_bindings (E := E) els | BCross => Ok (cross_bindings els) | BBroadcast => broadcast_bindings els end = Ok bs ->
  admissible mode (widths els).
Proof.
  destruct mode; cbn [admissible]; [|done|].
  - unfold zip_bindings. fold (widths els). destruct (widths els) as [|n ws]; [done|].
    destruct (forallb (Nat.eqb n) (n :: ws)) eqn:Hall; [|done]. intros _ w Hw. rewrite forallb_forall in Hall.
    cbn. symmetry. by apply Nat.eqb_eq, Hall, list_elem_of_In.
  - unfold broadcast_bindings. fold (widths els). destruct (_ && _) eqn:Hc; [done|]. intros _ w Hw ->.
    apply andb_false_iff in Hc as [Hc|Hc]; [|by apply negb_false_iff, Nat.eqb_eq in Hc].
    apply negb_false_iff, bool_decide_eq_true in Hc. exfalso. apply list_elem_of_fmap in Hw as (pc & Hz & Hpc).
    assert (Hin : pc ∈ List.filter (fun pc => (length pc.2 =? 0)%nat) els).
    { apply list_elem_of_In, List.filter_In. split; [by apply list_elem_of_In|]. by rewrite <- Hz. }
    apply map_eq_nil in Hc. rewrite Hc in Hin. by apply not_elem_of_nil in Hin.
Qed.

(** A region repeats its body over exactly the bindings its mode names.
    When every element port is bound to a list, there are bindings exactly
    when their lengths suit the mode and the limit is not passed; and then
    there are as many as the mode says, the one at an index giving each port
    the element the mode chooses: the same place of each list for a zip, the
    digits of the index for a cross product (the last port varies fastest),
    and the last element of a list that is too short for a broadcast. *)
Theorem bindings_are_exact {E} r inputs els : rn_element_ports r <> [] -> bound_lists r inputs els ->
  (is_ok (region_bindings (E := E) r inputs) = true <->
     admissible (rn_binding r) (widths els)
     /\ forall m, rn_max_iterations r = Some m -> (Z.of_nat (binding_count (rn_binding r) (widths els)) <= m)%Z)
  /\ forall bs, region_bindings (E := E) r inputs = Ok bs ->
       length bs = binding_count (rn_binding r) (widths els)
       /\ forall i, (i < length bs)%nat -> bs !! i = pick els (binding_choice (rn_binding r) (widths els) i).
Proof.
  intros Hports Hels. assert (Hm : mapM (children_of (E := E) inputs) (rn_element_ports r) = Ok els).
  { apply mapM_ok. eapply Forall2_impl; [exact Hels|]. intros port pc. apply children_of_ok. }
  assert (Hne : els <> []) by (intros ->; by apply Forall2_nil_inv_r in Hels).
  assert (Hrun : region_bindings (E := E) r inputs =
    bindings ← match rn_binding r with BZip => zip_bindings els | BCross => Ok (cross_bindings els) | BBroadcast => broadcast_bindings els end;
    match rn_max_iterations r with
    | Some m => if (m <? Z.of_nat (length bindings))%Z then Err (RegionError (TooManyBindings (length bindings))) else Ok bindings
    | None => Ok bindings
    end).
  { unfold region_bindings. destruct (rn_element_ports r) as [|p ps]; [done|]. by rewrite Hm. }
  rewrite Hrun. clear Hrun Hm. destruct (match rn_binding r with BZip => _ | _ => _ end) as [bs0|e] eqn:Hmode.
  - pose proof (mode_inadmissible _ _ _ Hmode) as Hadm. destruct (mode_exact (E := E) (rn_binding r) els Hne Hadm) as (bs1 & Hbs & Hl & Hi).
    rewrite Hmode in Hbs. injection Hbs as ->. cbn [mbind result_bind]. rewrite <- Hl. destruct (rn_max_iterations r) as [m|].
    + destruct (Z.ltb_spec m (Z.of_nat (length bs1))) as [Hlt|Hge]; cbn [is_ok].
      * split; [|done]. split; [done|]. intros [_ Hm]. specialize (Hm m eq_refl). lia.
      * split; [split; [|done]; intros _; split; [done|]; by intros ? [= <-]|]. by intros bs [= <-].
    + split; [by split; [|done]|]. by intros bs [= <-].
  - split; [|done]. split; [done|]. intros [Hadm _]. destruct (mode_exact (E := E) (rn_binding r) els Hne Hadm) as (bs1 & Hbs & _). congruence.
Qed.

(** * Iterations *)

Section iteration_lemmas.
Context {E : Type}.
Variable wrap : string -> gvalue -> result E value.
Variable resolve : value -> result E (option bool).
Variable execute : nat -> Produced -> result E Produced.
Variable is_execution_error : E -> bool.
Variables (r : RegionNode) (broadcast : dict value).
Implicit Types (t : Tally) (body : Produced) (bindings : list (dict value)).

Notation run := (run_iteration wrap execute r broadcast).
Notation reads body o v := (source_value (E := E) body (ro_source o) = Ok v).

(** What a finished body adds to the tally, output by output. *)
Lemma collect_spec outs body t t' : NoDup (keys outs) -> fold_result (collect_output (E := E) body) t outs = Ok t' ->
  state t' = state t
  /\ (forall id o, (id, o) ∈ outs -> collects (ro_mode o) = true -> exists v vs, reads body o v
        /\ dict_get (gathered t) id = Some vs /\ dict_get (gathered t') id = Some (vs ++ [v]))
  /\ (forall id o, (id, o) ∈ outs -> ro_mode o = OLast -> exists v, reads body o v /\ dict_get (last_values t') id = Some v)
  /\ (forall id, id ∉ keys outs -> dict_get (gathered t') id = dict_get (gathered t) id
        /\ dict_get (last_values t') id = dict_get (last_values t) id).
Proof.
  revert t. induction outs as [|[id o] outs IH]; intros t Hnd; [intros [= <-]; split_and!; try done; by intros ?? ?%not_elem_of_nil|].
  cbn [fold_result]. cbn in Hnd. apply NoDup_cons in Hnd as [Hid Hnd]. intros (t1 & H1 & Hrest)%bind_ok.
  destruct (IH t1 Hnd Hrest) as (Hst & Hg & Hl & Hoff). destruct (Hoff id Hid) as [Hog Hol].
  unfold collect_output in H1. cbn [fst snd] in H1. destruct (collects (ro_mode o)) eqn:Hc.
  - apply bind_ok in H1 as (v & Hv & (vs & Hvs%subscript_ok & [= <-])%bind_ok). cbn [gathered last_values state] in *.
    assert (Hother : forall x, x <> id -> dict_get (dict_set (gathered t) id (vs ++ [v])) x = dict_get (gathered t) x)
      by (intros x Hx; by rewrite dict_get_set, decide_False).
    split_and!; [done| | |].
    + intros x q [[= -> ->]|Hx]%elem_of_cons Hq.
      * exists v, vs. split_and!; [done..|]. by rewrite Hog, dict_get_set, decide_True.
      * destruct (Hg x q Hx Hq) as (w & ws & ? & Hws & ?). exists w, ws. rewrite Hother in Hws; [done|].
        intros ->. apply Hid. apply list_elem_of_fmap. by exists (id, q).
    + intros x q [[= -> ->]|Hx]%elem_of_cons Hq; [by rewrite Hq in Hc|by apply (Hl x q)].
    + intros x Hx. apply not_elem_of_cons in Hx as [Hne Hx]. destruct (Hoff x Hx) as [-> ->]. split; [by apply Hother|done].
  - assert (Hcase : (exists v, ro_mode o = OLast /\ reads body o v
        /\ t1 = {| gathered := gathered t; last_values := dict_set (last_values t) id v; state := state t |})
        \/ (ro_mode o <> OLast /\ t1 = t)).
    { destruct (bool_decide (ro_mode o = OLast)) eqn:Hb; [|right; split; [by apply bool_decide_eq_false in Hb|congruence]].
      left. apply bind_ok in H1 as (v & Hv & [= <-]). exists v. by apply bool_decide_eq_true in Hb. }
    clear H1. destruct Hcase as [(v & Hm & Hv & ->)|[Hm ->]]; cbn [gathered last_values state] in *.
    + assert (Hother : forall x, x <> id -> dict_get (dict_set (last_values t) id v) x = dict_get (last_values t) x)
        by (intros x Hx; by rewrite dict_get_set, decide_False).
      split_and!; [done| | |].
      * intros x q [[= -> ->]|Hx]%elem_of_cons Hq; [by rewrite Hq in Hc|by apply (Hg x q)].
      * intros x q [[= -> ->]|Hx]%elem_of_cons Hq; [|by apply (Hl x q)]. exists v. split; [done|].
        by rewrite Hol, dict_get_set, decide_True.
      * intros x Hx. apply not_elem_of_cons in Hx as [Hne Hx]. destruct (Hoff x Hx) as [-> ->]. split; [done|by apply Hother].
    + split_and!; [done| | |].
      * intros x q [[= -> ->]|Hx]%elem_of_cons Hq; [by rewrite Hq in Hc|by apply (Hg x q)].
      * intros x q [[= -> ->]|Hx]%elem_of_cons Hq; [done|by apply (Hl x q)].
      * intros x Hx. apply not_elem_of_cons in Hx as [Hne Hx]. by apply Hoff.
Qed.

Lemma advance_spec outs body t t' : NoDup (keys outs) -> fold_result (advance_output (E := E) body) t outs = Ok t' ->
  gathered t' = gathered t /\ last_values t' = last_values t
  /\ (forall id o, (id, o) ∈ outs -> ro_mode o = OState -> exists v, reads body o v /\ dict_get (state t') id = Some v)
  /\ (forall id, (forall o, (id, o) ∈ outs -> ro_mode o <> OState) -> dict_get (state t') id = dict_get (state t) id).
Proof.
  revert t. induction outs as [|[id o] outs IH]; intros t Hnd; [intros [= <-]; split_and!; try done; by intros ?? ?%not_elem_of_nil|].
  cbn [fold_result]. cbn in Hnd. apply NoDup_cons in Hnd as [Hid Hnd]. intros (t1 & H1 & Hrest)%bind_ok.
  destruct (IH t1 Hnd Hrest) as (Hg & Hl & Hs & Hoff).
  assert (Hido : forall q, (id, q) ∉ outs) by (intros q Hq; apply Hid, list_elem_of_fmap; by exists (id, q)).
  pose proof (Hoff id ltac:(intros q Hq; by apply Hido in Hq)) as Hkeep.
  unfold advance_output in H1. cbn [fst snd] in H1. destruct (bool_decide (ro_mode o = OState)) eqn:Hb.
  - apply bind_ok in H1 as (v & Hv & [= <-]). cbn [gathered last_values state] in *. split_and!; [done..| |].
    + intros x q [[= -> ->]|Hx]%elem_of_cons Hq; [|by apply (Hs x q)]. exists v. split; [done|].
      by rewrite Hkeep, dict_get_set, decide_True.
    + intros x Hx. rewrite Hoff by (intros q Hq; apply Hx; by right). rewrite dict_get_set, decide_False; [done|].
      intros ->. apply (Hx o); [left|by apply bool_decide_eq_true in Hb].
  - injection H1 as ->. apply bool_decide_eq_false in Hb. split_and!; [done..| |].
    + intros x q [[= -> ->]|Hx]%elem_of_cons Hq; [done|by apply (Hs x q)].
    + intros x Hx. apply Hoff. intros q Hq. apply Hx. by right.
Qed.

(** ** Runs *)

(** Does a profile hand its state on? *)
Definition stateful (k : RegionKind) : bool := negb (bool_decide (k = RMap)).

(** A body's outputs are counted, and the state goes on. *)
Definition absorbs t body t' : Prop :=
  exists t1, collect (E := E) r t body = Ok t1
    /\ if stateful (rn_kind r) then advance_state (E := E) r t1 body = Ok t' else t' = t1.

(** Iterations from [i] on, each on its binding and the state it found, leave
    these bodies and this tally. *)
Inductive repeats (bind : nat -> option (dict value)) : nat -> Tally -> list Produced -> Tally -> Prop :=
| repeats_nil i t : repeats bind i t [] t
| repeats_cons i t binding body t1 bodies t' : bind i = Some binding ->
    run i binding (if stateful (rn_kind r) then state t else []) = Ok body -> absorbs t body t1 ->
    repeats bind (S i) t1 bodies t' -> repeats bind i t (body :: bodies) t'.

Hypothesis outputs_NoDup : NoDup (keys (rn_outputs r)).

Lemma repeats_gathered bind i t bodies t' id o vs0 : repeats bind i t bodies t' -> (id, o) ∈ rn_outputs r ->
  collects (ro_mode o) = true -> dict_get (gathered t) id = Some vs0 ->
  exists vs, Forall2 (fun body v => reads body o v) bodies vs /\ dict_get (gathered t') id = Some (vs0 ++ vs).
Proof.
  intros H Ho Hc. revert vs0. induction H as [i t|i t binding body t1 bodies t' _ _ (t2 & Hcol & Hadv) _ IH]; intros vs0 Hvs0.
  - exists []. by rewrite app_nil_r.
  - destruct (collect_spec _ _ _ _ outputs_NoDup Hcol) as (_ & Hg & _). destruct (Hg id o Ho Hc) as (v & vs & Hv & Hvs & Hvs').
    assert (vs = vs0) as -> by congruence. destruct (IH (vs0 ++ [v])) as (ws & Hws & Hend).
    { destruct (stateful _); [|by subst]. by destruct (advance_spec _ _ _ _ outputs_NoDup Hadv) as (-> & _). }
    exists (v :: ws). split; [by constructor|]. by rewrite Hend, <- app_assoc.
Qed.

Lemma repeats_last bind i t bodies t' id o : repeats bind i t bodies t' -> (id, o) ∈ rn_outputs r -> ro_mode o = OLast ->
  match list.last bodies with
  | Some body => exists v, reads body o v /\ dict_get (last_values t') id = Some v
  | None => dict_get (last_values t') id = dict_get (last_values t) id
  end.
Proof.
  intros H Ho Hm. induction H as [i t|i t binding body t1 bodies t' _ _ (t2 & Hcol & Hadv) Hrep IH]; [done|].
  rewrite last_cons. destruct (list.last bodies) as [b|]; [done|].
  destruct (collect_spec _ _ _ _ outputs_NoDup Hcol) as (_ & _ & Hl & _). destruct (Hl id o Ho Hm) as (v & Hv & Hv').
  exists v. split; [done|]. rewrite IH. destruct (stateful _); [|by subst].
  by destruct (advance_spec _ _ _ _ outputs_NoDup Hadv) as (_ & -> & _).
Qed.

Lemma repeats_state bind i t bodies t' id o : repeats bind i t bodies t' -> (id, o) ∈ rn_outputs r -> ro_mode o = OState ->
  match list.last bodies with
  | Some body => if stateful (rn_kind r) then exists v, reads body o v /\ dict_get (state t') id = Some v else state t' = state t
  | None => state t' = state t
  end.
Proof.
  intros H Ho Hm. induction H as [i t|i t binding body t1 bodies t' _ _ (t2 & Hcol & Hadv) Hrep IH]; [done|].
  rewrite last_cons. destruct (collect_spec _ _ _ _ outputs_NoDup Hcol) as (Hst & _).
  destruct (stateful (rn_kind r)).
  - destruct (list.last bodies) as [b|]; [done|]. destruct (advance_spec _ _ _ _ outputs_NoDup Hadv) as (_ & _ & Hs & _).
    destruct (Hs id o Ho Hm) as (v & Hv & Hv'). exists v. by rewrite IH.
  - subst t2. rewrite <- Hst. by destruct (list.last bodies).
Qed.
End iteration_lemmas.

(** * Profiles *)

Section profiles.
Context {E : Type}.
Variable wrap : string -> gvalue -> result E value.
Variable resolve : value -> result E (option bool).
Variable execute : nat -> Produced -> result E Produced.
Variable is_execution_error : E -> bool.
Variables (r : RegionNode) (broadcast : dict value).
Implicit Types (t : Tally) (body : Produced) (bindings : list (dict value)).

Notation run := (run_iteration wrap execute r broadcast).
Notation repeated := (repeats wrap execute r broadcast).
Notation ends := (map_ends wrap execute r broadcast).
Notation folded := (fold_loop wrap execute r broadcast).
Notation mapped := (map_loop wrap execute is_execution_error r broadcast).
Notation group := (group_error is_execution_error).

(** A loop that runs the iterations of a map one after the other. *)
Fixpoint one_by_one (index : nat) bindings t : result (exn E) Tally :=
  match bindings with
  | [] => Ok t
  | binding :: bindings' => body ← run index binding []; t ← collect r t body; one_by_one (S index) bindings' t
  end.

Lemma fold_repeats i bindings t t' bind : stateful (rn_kind r) = true -> (forall k, bind (i + k)%nat = bindings !! k) ->
  folded i bindings t = Ok t' -> exists bodies, length bodies = length bindings /\ repeated bind i t bodies t'.
Proof.
  intros Hs. revert i t. induction bindings as [|b bindings IH]; intros i t Hbind; cbn [fold_loop].
  - intros [= <-]. exists []. split; [done|constructor].
  - intros (body & Hrun & (t1 & Hc & (t2 & Ha & Hrest)%bind_ok)%bind_ok)%bind_ok.
    destruct (IH (S i) t2) as (bodies & Hl & Hrep); [|done|].
    { intros k. by rewrite Nat.add_succ_comm, Hbind. }
    exists (body :: bodies). split; [cbn; by rewrite Hl|]. econstructor; [|by rewrite Hs| |exact Hrep].
    + rewrite <- (Nat.add_0_r i). by apply Hbind.
    + exists t1. by rewrite Hs.
Qed.

Lemma one_by_one_repeats i bindings t t' bind : stateful (rn_kind r) = false -> (forall k, bind (i + k)%nat = bindings !! k) ->
  one_by_one i bindings t = Ok t' -> exists bodies, length bodies = length bindings /\ repeated bind i t bodies t'.
Proof.
  intros Hs. revert i t. induction bindings as [|b bindings IH]; intros i t Hbind; cbn [one_by_one].
  - intros [= <-]. exists []. split; [done|constructor].
  - intros (body & Hrun & (t1 & Hc & Hrest)%bind_ok)%bind_ok.
    destruct (IH (S i) t1) as (bodies & Hl & Hrep); [|done|].
    { intros k. by rewrite Nat.add_succ_comm, Hbind. }
    exists (body :: bodies). split; [cbn; by rewrite Hl|]. econstructor; [|by rewrite Hs| |exact Hrep].
    + rewrite <- (Nat.add_0_r i). by apply Hbind.
    + exists t1. by rewrite Hs.
Qed.

(** ** Maps *)

Lemma elem_of_ends completion bindings i x : (i, x) ∈ ends completion bindings <->
  i ∈ completion /\ exists b, bindings !! i = Some b /\ x = run i b [].
Proof.
  unfold map_ends. rewrite list_elem_of_omap. split.
  - intros (j & Hj & Hb). destruct (bindings !! j) as [b|] eqn:Hbj; [|done]. cbn in Hb. injection Hb as <- <-. eauto.
  - intros (Hi & b & Hb & ->). exists i. by rewrite Hb.
Qed.

Lemma elem_of_failures (l : list (nat * result (exn E) Produced)) e : e ∈ failures l <-> exists i, (i, Err e) ∈ l.
Proof.
  unfold failures. rewrite list_elem_of_omap. split.
  - intros ([i [b|e']] & Hp & He); cbn in He; [done|]. injection He as ->. eauto.
  - intros (i & Hi). by exists (i, Err e).
Qed.

Lemma length_store_results (l : list (nat * result (exn E) Produced)) rs : length (store_results l rs) = length rs.
Proof.
  unfold store_results. revert rs. induction l as [|[j [b|e]] l IH]; intros rs; cbn [foldl fst snd]; rewrite ?IH; [done| |done].
  apply length_insert.
Qed.

(** Where a result was stored, it is one of those that ended; and every one
    that ended is stored. *)
Lemma store_results_spec (l : list (nat * result (exn E) Produced)) rs i :
  (i < length rs)%nat ->
  (forall b, store_results l rs !! i = Some (Some b) -> (i, Ok b) ∈ l \/ rs !! i = Some (Some b))
  /\ ((exists b, (i, Ok b) ∈ l) \/ (exists b, rs !! i = Some (Some b)) -> exists b, store_results l rs !! i = Some (Some b)).
Proof.
  unfold store_results. revert rs. induction l as [|[j [b|e]] l IH]; intros rs Hi; cbn [foldl fst snd].
  - split; [by right|]. intros [(b & ?%not_elem_of_nil)|H]; done.
  - destruct (IH (<[j := Some b]> rs)) as (Hin & Hout); [by rewrite length_insert|]. split.
    + intros c Hc. destruct (Hin c Hc) as [H|H]; [left; by right|]. destruct (decide (i = j)) as [->|Hne].
      * rewrite list_lookup_insert_eq in H by done. injection H as ->. left. left.
      * rewrite list_lookup_insert_ne in H by done. by right.
    + intros H. apply Hout. destruct (decide (i = j)) as [->|Hne].
      * right. exists b. by rewrite list_lookup_insert_eq.
      * rewrite list_lookup_insert_ne by done. destruct H as [(c & [?|Hc]%elem_of_cons)|H]; [congruence|left; eauto|by right].
  - destruct (IH rs Hi) as (Hin & Hout). split.
    + intros c Hc. destruct (Hin c Hc); [left; by right|by right].
    + intros H. apply Hout. destruct H as [(c & [?|Hc]%elem_of_cons)|H]; [done|left; eauto|by right].
Qed.

(** A tally of stored results is that of the loop, if each is its
    iteration's. *)
Lemma stored_one_by_one (rs : list (option Produced)) i bindings t : length rs = length bindings ->
  (forall k b body, bindings !! k = Some b -> rs !! k = Some (Some body) -> run (i + k) b [] = Ok body) ->
  (forall k, (k < length rs)%nat -> exists body, rs !! k = Some (Some body)) ->
  fold_result (fun t o => b ← require AssertionFailed o; collect (E := E) r t b) t rs = one_by_one i bindings t.
Proof.
  revert rs i t. induction bindings as [|b bindings IH]; intros [|o rs] i t; try done. cbn [length]. intros [= Hl] Hrun Hall.
  destruct (Hall 0%nat) as (body & Ho); [cbn; lia|]. injection Ho as ->. cbn [fold_result one_by_one].
  pose proof (Hrun 0%nat b body eq_refl eq_refl) as H0. rewrite Nat.add_0_r in H0. rewrite H0. cbn [require mbind result_bind].
  destruct (collect r t body) as [t1|e]; [|done]. cbn [mbind result_bind]. apply IH; [done| |].
  - intros k c d Hc Hd. rewrite Nat.add_succ_comm. by apply Hrun.
  - intros k Hk. apply (Hall (S k)). lia.
Qed.

Lemma map_loop_ok completion bindings t t' : mapped completion bindings t = Ok t' -> one_by_one 0 bindings t = Ok t'.
Proof.
  unfold map_loop. destruct (failures (ends completion bindings)) as [|e es] eqn:Hf; [|done].
  set (rs := store_results _ _). intros Hfold. rewrite <- Hfold. symmetry.
  assert (Hlen : length rs = length bindings) by (subst rs; by rewrite length_store_results, length_replicate).
  apply stored_one_by_one; [done| |].
  - intros k b body Hb Hbody. destruct (store_results_spec (ends completion bindings) (replicate (length bindings) None) k) as (Hin & _).
    { rewrite length_replicate. by eapply lookup_lt_Some. }
    destruct (Hin body Hbody) as [H|H].
    + apply elem_of_ends in H as (_ & b' & Hb' & H). cbn. congruence.
    + apply lookup_replicate in H as [? _]. done.
  - intros k Hk. clear -Hfold Hk. revert k t Hfold Hk. generalize rs. clear. intros l. induction l as [|o l IH]; intros k t Hfold Hk; [cbn in Hk; lia|].
    cbn [fold_result] in Hfold. destruct o as [body|]; [|done]. cbn [require mbind result_bind] in Hfold.
    destruct (collect r t body) as [t1|]; [|done]. destruct k as [|k]; [by exists body|]. apply (IH k t1 Hfold). cbn in Hk. lia.
Qed.

(** C24: The tasks of a map may end in any order.  If every iteration answers,
    whatever the order in which they do, the map leaves the tally of a loop
    that runs them one after the other.  And if one of them raises, the map
    raises, once all are over: where only execution errors were raised, the
    one that was raised first. *)
Theorem maps_run_in_any_order completion bindings t : completion ≡ₚ seq 0 (length bindings) ->
  ((forall i b, bindings !! i = Some b -> is_ok (run i b []) = true) -> mapped completion bindings t = one_by_one 0 bindings t)
  /\ (forall i before after b e, completion = before ++ i :: after -> bindings !! i = Some b -> run i b [] = Err e ->
       (forall j c, j ∈ before -> bindings !! j = Some c -> is_ok (run j c []) = true) ->
       (forall j c f, bindings !! j = Some c -> run j c [] = Err f -> is_execution is_execution_error f = true) ->
       mapped completion bindings t = Err e)
  /\ (is_ok (mapped completion bindings t) = true -> forall i b, bindings !! i = Some b -> is_ok (run i b []) = true).
Proof.
  intros Hperm. assert (Hin : forall i b, bindings !! i = Some b -> (i, run i b []) ∈ ends completion bindings).
  { intros i b Hb. apply elem_of_ends. split; [|eauto]. rewrite Hperm. apply elem_of_seq. apply lookup_lt_Some in Hb. lia. }
  split_and!.
  - intros Hok. unfold map_loop. destruct (failures (ends completion bindings)) as [|e es] eqn:Hf.
    + apply stored_one_by_one.
      * by rewrite length_store_results, length_replicate.
      * intros k b body Hb Hbody. destruct (store_results_spec (ends completion bindings) (replicate (length bindings) None) k) as (Hst & _).
        { rewrite length_replicate. by eapply lookup_lt_Some. }
        destruct (Hst body Hbody) as [(_ & b' & Hb' & H)%elem_of_ends|[? _]%lookup_replicate]; [cbn; congruence|done].
      * rewrite length_store_results, length_replicate. intros k Hk. destruct (lookup_lt_is_Some_2 bindings k Hk) as [b Hb].
        apply store_results_spec; [by rewrite length_replicate|]. left. specialize (Hok k b Hb).
        pose proof (Hin k b Hb) as Hend. destruct (run k b []) as [body|]; [|done]. by exists body.
    + exfalso. assert (He : e ∈ failures (ends completion bindings)) by (rewrite Hf; left).
      apply elem_of_failures in He as (i & (_ & b & Hb & He)%elem_of_ends). specialize (Hok i b Hb). by rewrite <- He in Hok.
  - intros i before after b e -> Hb Hrun Hbefore Hexec. unfold map_loop.
    assert (Hf : exists es, failures (ends (before ++ i :: after) bindings) = e :: es /\ Forall (fun f => is_execution is_execution_error f = true) (e :: es)).
    { unfold map_ends, failures. rewrite omap_app. cbn [omap list_omap]. rewrite Hb. cbn [mbind option_bind]. rewrite omap_app. cbn [omap list_omap fst snd].
      rewrite Hrun. set (l := omap _ (omap _ before)). assert (Hnil : l = []).
      { destruct l as [|f l'] eqn:Hl; [done|]. exfalso. assert (Hfin : f ∈ l) by (rewrite Hl; left).
        apply (elem_of_failures (ends before bindings) f) in Hfin as (j & (Hj & c & Hc & Hfc)%elem_of_ends).
        specialize (Hbefore j c Hj Hc). by rewrite <- Hfc in Hbefore. }
      rewrite Hnil. eexists. split; [reflexivity|]. constructor; [by eapply Hexec|]. apply Forall_forall. intros f Hfin.
      apply (elem_of_failures (ends after bindings) f) in Hfin as (j & (Hj & c & Hc & Hfc)%elem_of_ends). by eapply Hexec. }
    destruct Hf as (es & -> & Hall). unfold group_error. rewrite Forall_forall in Hall.
    assert (List.filter (fun f => negb (is_execution is_execution_error f)) (e :: es) = []) as ->.
    { destruct (List.filter _ (e :: es)) as [|f l] eqn:Hl; [done|]. exfalso.
      assert (Hfin : f ∈ List.filter (fun f => negb (is_execution is_execution_error f)) (e :: es)) by (rewrite Hl; left).
      apply list_elem_of_In, List.filter_In in Hfin as [Hfin Hn]. apply list_elem_of_In in Hfin. by rewrite (Hall f Hfin) in Hn. }
    cbn [List.filter]. by rewrite (Hall e (list_elem_of_here _ _)).
  - unfold map_loop. destruct (failures (ends completion bindings)) as [|e es] eqn:Hf; [|done]. intros _ i b Hb.
    destruct (run i b []) as [body|e] eqn:Hrun; [done|]. exfalso. apply (not_elem_of_nil e). rewrite <- Hf. apply elem_of_failures.
    exists i. rewrite <- Hrun. by apply Hin.
Qed.

(** ** While *)

Notation round := (while_round wrap resolve execute r broadcast).

(** Rounds that answer to go on, and then one that does not. *)
Inductive loops (source : Link) : nat -> Tally -> nat -> Tally -> Prop :=
| loops_last done t t' : round source done t = Ok (false, t') -> loops source done t (S done) t'
| loops_again done t t1 n t' : round source done t = Ok (true, t1) -> loops source (S done) t1 n t' -> loops source done t n t'.

Inductive goes_on (source : Link) : nat -> Tally -> nat -> Tally -> Prop :=
| goes_on_none done t : goes_on source done t done t
| goes_on_round done t t1 n t' : round source done t = Ok (true, t1) -> goes_on source (S done) t1 n t' -> goes_on source done t n t'.

Lemma loops_later source done t n t' : loops source done t n t' -> (done < n)%nat.
Proof. induction 1; lia. Qed.

Lemma while_loop_spec fuel source m done t : (Z.of_nat done < Z.max 1 m)%Z -> (Z.max 1 m <= Z.of_nat (fuel + done))%Z ->
  exists answer, while_loop wrap resolve execute r broadcast fuel source m done t = Some answer
    /\ (forall n t', answer = Ok (n, t') <-> loops source done t n t' /\ (Z.of_nat n <= Z.max 1 m)%Z)
    /\ (forall t', goes_on source done t (Z.to_nat (Z.max 1 m)) t' -> answer = Err (RegionError IterationLimit)).
Proof.
  revert done t. induction fuel as [|fuel IH]; intros done t Hd Hf; [lia|]. cbn [while_loop].
  destruct (round source done t) as [[[] t1]|e] eqn:Hr; cbn [negb].
  - destruct (Z.leb_spec m (Z.of_nat (S done))) as [Hm|Hm].
    + eexists. split; [done|]. split; [|done]. intros n t'. split; [done|]. intros [Hl Hn]. exfalso.
      inversion Hl as [? ? ? Hr'|? ? t2 ? ? Hr' Hl']; subst; [congruence|]. apply loops_later in Hl'. lia.
    + destruct (IH (S done) t1) as (answer & Ha & Hok & Hlim); [lia..|]. exists answer. split; [done|]. split.
      * intros n t'. rewrite Hok. split; intros [Hl Hn]; (split; [|done]).
        -- by eapply loops_again.
        -- inversion Hl as [? ? ? Hr'|? ? t2 ? ? Hr' Hl']; subst; [congruence|]. rewrite Hr in Hr'. by injection Hr' as <-.
      * intros t' Hg. inversion Hg as [|? ? t2 ? ? Hr' Hg']; subst; [lia|]. rewrite Hr in Hr'. injection Hr' as <-. by eapply Hlim.
  - eexists. split; [done|]. split.
    + intros n t'. split.
      * intros [= <- <-]. split; [by apply loops_last|lia].
      * intros [Hl Hn]. inversion Hl as [? ? ? Hr'|? ? t2 ? ? Hr' Hl']; subst; rewrite Hr in Hr'; congruence.
    + intros t' Hg. inversion Hg as [|? ? t2 ? ? Hr' Hg']; subst; [lia|]. congruence.
  - eexists. split; [done|]. split.
    + intros n t'. split; [done|]. intros [Hl Hn]. inversion Hl as [? ? ? Hr'|? ? t2 ? ? Hr' Hl']; subst; congruence.
    + intros t' Hg. inversion Hg as [|? ? t2 ? ? Hr' Hg']; subst; [lia|]. congruence.
Qed.

(** C25: A while region always comes to an end.  It answers exactly when some
    round, within its limit of iterations (the first one always), is the
    first not to go on, and then with that round's tally; if all the rounds
    it may do go on it fails with the error of its limit.  The fuel is never
    used up. *)
Theorem while_regions_end completion bindings source m t : rn_kind r = RWhile ->
  rn_continue_source r = Some source -> rn_max_iterations r = Some m ->
  while_loop wrap resolve execute r broadcast (S (Z.to_nat m)) source m 0 t <> None
  /\ (forall n t', run_profile wrap resolve execute is_execution_error r broadcast completion bindings t = Ok (n, t')
        <-> loops source 0 t n t' /\ (Z.of_nat n <= Z.max 1 m)%Z)
  /\ (forall t', goes_on source 0 t (Z.to_nat (Z.max 1 m)) t' ->
        run_profile wrap resolve execute is_execution_error r broadcast completion bindings t = Err (RegionError IterationLimit)).
Proof.
  intros Hk Hs Hm. destruct (while_loop_spec (S (Z.to_nat m)) source m 0 t) as (answer & Ha & Hok & Hlim); [lia..|].
  unfold run_profile. rewrite Hk, Hs, Hm. cbn [require mbind result_bind]. rewrite Ha. by split_and!.
Qed.

(** The rounds of a while are iterations on no binding. *)
Lemma round_repeats source done t c t' : stateful (rn_kind r) = true -> round source done t = Ok (c, t') ->
  exists body, run done [] (state t) = Ok body /\ absorbs (E := E) r t body t'.
Proof.
  intros Hs (body & Hrun & (v & Hv & H)%bind_ok)%bind_ok. destruct (is_absent v); [done|].
  apply bind_ok in H as (answer & _ & (cont & _ & (t1 & Hc & (t2 & Ha & [= <- <-])%bind_ok)%bind_ok)%bind_ok).
  exists body. split; [done|]. exists t1. by rewrite Hs.
Qed.

Lemma loops_repeats source done t n t' : stateful (rn_kind r) = true -> loops source done t n t' ->
  exists bodies, (done + length bodies = n)%nat /\ repeated (fun _ => Some []) done t bodies t'.
Proof.
  intros Hs. induction 1 as [done t t' Hr|done t t1 n t' Hr _ (bodies & Hn & Hrep)];
    destruct (round_repeats _ _ _ _ _ Hs Hr) as (body & Hrun & Habs).
  - exists [body]. split; [cbn; lia|]. econstructor; [done|by rewrite Hs|exact Habs|constructor].
  - exists (body :: bodies). split; [cbn; lia|]. econstructor; [done|by rewrite Hs|exact Habs|exact Hrep].
Qed.

(** What each iteration of a profile is bound to. *)
Definition iteration_binding bindings (i : nat) : option (dict value) :=
  match rn_kind r with RWhile => Some [] | _ => bindings !! i end.

Lemma profile_repeats completion bindings t n t' :
  run_profile wrap resolve execute is_execution_error r broadcast completion bindings t = Ok (n, t') ->
  exists bodies, length bodies = n /\ repeated (iteration_binding bindings) 0 t bodies t'
    /\ (rn_kind r <> RWhile -> n = length bindings).
Proof.
  unfold run_profile, iteration_binding. intros H. destruct (rn_kind r) eqn:Hk.
  - apply bind_ok in H as (t1 & H & [= <- <-]). apply map_loop_ok in H.
    destruct (one_by_one_repeats 0 bindings t t1 (fun i => bindings !! i)) as (bodies & Hl & Hrep); [by rewrite Hk|done|done|]. by exists bodies.
  - apply bind_ok in H as (t1 & H & [= <- <-]).
    destruct (fold_repeats 0 bindings t t1 (fun i => bindings !! i)) as (bodies & Hl & Hrep); [by rewrite Hk|done|done|]. by exists bodies.
  - apply bind_ok in H as (source & _ & (m & Hm & H)%bind_ok).
    destruct (while_loop_spec (S (Z.to_nat m)) source m 0 t) as (answer & Ha & Hok & _); [lia..|]. rewrite Ha in H. cbn in H.
    apply Hok in H as [Hl _]. apply loops_repeats in Hl as (bodies & Hn & Hrep); [|by rewrite Hk]. by exists bodies.
Qed.
End profiles.

(** * Assembly *)

Lemma find_first {A} (f : A -> bool) l x : List.find f l = Some x <-> exists before after, l = before ++ x :: after
  /\ f x = true /\ Forall (fun y => f y = false) before.
Proof.
  induction l as [|y l IH]; cbn [List.find].
  - split; [done|]. intros ([] & ? & ? & _); done.
  - destruct (f y) eqn:Hy.
    + split; [intros [= <-]; by exists [], l|]. intros ([|z before] & after & [= -> ->] & Hx & Hb); [done|].
      apply Forall_cons in Hb as [Hz _]. congruence.
    + rewrite IH. split.
      * intros (before & after & -> & Hx & Hb). exists (y :: before), after. split_and!; [done|done|by constructor].
      * intros ([|z before] & after & [= -> ->] & Hx & Hb); [congruence|]. apply Forall_cons in Hb as [_ Hb]. by exists before, after.
Qed.

Lemma dict_get_mapM {E A B} (f : string * A -> result E (string * B)) l outs id a : NoDup (keys l) ->
  (forall x y, f x = Ok y -> y.1 = x.1) -> mapM f l = Ok outs -> (id, a) ∈ l ->
  keys outs = keys l /\ exists b, f (id, a) = Ok (id, b) /\ dict_get outs id = Some b.
Proof.
  intros Hnd Hf Hm%mapM_ok Hin. assert (Hk : keys outs = keys l).
  { clear Hnd Hin. induction Hm as [|x y l outs Hxy _ IH]; [done|]. unfold keys in *. cbn. by rewrite (Hf x y Hxy), IH. }
  split; [done|]. apply list_elem_of_lookup in Hin as [i Hi]. destruct (Forall2_lookup_l _ _ _ _ _ Hm Hi) as ([id' b] & Hb & Hfb).
  pose proof (Hf _ _ Hfb) as Hid. cbn in Hid. subst id'. exists b. split; [done|]. apply elem_dict_get; [by rewrite Hk|]. by eapply list_elem_of_lookup_2.
Qed.

Section assembly_lemmas.
Context {E : Type}.
Variable blake2b : string -> string.
Variable fresh : string -> N.
Variable str_of : pyval -> string.
Variable label : string.
Variable interface : dict (option TypeExpr).
Implicit Types (v : value) (vs : list value).

(** The absent value that stands for an output, with its root's origin. *)
Definition absent_from (from v : value) : Prop :=
  is_absent v = true /\ meta_get v ABSENT_ORIGIN_META_KEY = Some (VStr (meta_text str_of from ABSENT_ORIGIN_META_KEY))
  /\ meta_get v ABSENT_REASON_META_KEY = Some (VStr (meta_text str_of from ABSENT_REASON_META_KEY)).

(** What becomes of the values of a collecting output. *)
Definition collected (mode : OutputMode) (vs : list value) (v : value) : Prop :=
  match List.find is_absent vs with
  | Some child =>
      if bool_decide (mode = OCompact) then list_children v = Some (List.filter (fun c => negb (is_absent c)) vs) else absent_from child v
  | None =>
      if bool_decide (mode = OFlatten)
      then exists lists, Forall2 (fun u l => list_children u = Some l) vs lists /\ list_children v = Some (concat lists)
      else list_children v = Some vs
  end.

(** The declared runtime type of an output: that of a list. *)
Definition declared_list (id element : string) : Prop :=
  exists ty, dict_get interface id = Some (Some ty) /\ runtime_type_id ty = Some (list_type_id element) /\ element <> "".

(** A value of a list type, or one that stands for it. *)
Definition conforms (element : string) (v : value) : Prop :=
  (is_absent v = true /\ meta_get v ABSENT_STANDS_FOR_META_KEY = Some (VStr (list_type_id element)))
  \/ (v_type v = list_type_id element
      /\ exists children, list_children v = Some children /\ (element = "*" \/ Forall (fun c => v_type c = element) children)).

Lemma propagate_absent id from stands : absent_from from (propagate blake2b fresh str_of id from stands).
Proof. done. Qed.

Lemma filter_present vs : List.find is_absent vs = None -> List.filter (fun c => negb (is_absent c)) vs = vs.
Proof.
  induction vs as [|v vs IH]; [done|]. cbn [List.find List.filter]. destruct (is_absent v); [done|]. intros H. cbn. by rewrite IH.
Qed.

Lemma wrapped_list id element children v : wrap_error (E := E) Making (make_list_value blake2b (fresh id) element children) = Ok v ->
  list_children v = Some children /\ v_type v = list_type_id element /\ (element = "*" \/ Forall (fun c => v_type c = element) children).
Proof. intros H%wrap_ok. by apply make_list_ok in H as [-> ?]. Qed.

Lemma assemble_collection_spec mode id t v : assemble_collection (E := E) blake2b fresh str_of interface mode id t = Ok v ->
  exists element vs, declared_list id element /\ dict_get (gathered t) id = Some vs /\ collected mode vs v /\ conforms element v.
Proof.
  intros (ty & Hty%subscript_ok & (rt & Hrt%required_ok & (element & Hel%required_ok & (vs & Hvs%subscript_ok & H)%bind_ok)%bind_ok)%bind_ok)%bind_ok.
  unfold stands_for in Hrt. destruct ty as [ty|]; [|done]. cbn in Hrt.
  apply parse_unary_spec in Hel as [-> Hne].
  exists element, vs. split_and!; [by exists ty|done| |]; unfold collected, conforms.
  - destruct (List.find is_absent vs) as [child|] eqn:Hfind.
    + destruct (bool_decide (mode = OCompact)); [by apply wrapped_list in H as [? _]|]. injection H as <-. apply propagate_absent.
    + apply bind_ok in H as (children & Hc & H). apply wrapped_list in H as [-> _].
      destruct (bool_decide (mode = OFlatten)); [|injection Hc as <-; by rewrite filter_present].
      apply bind_ok in Hc as (lists & Hl%mapM_ok & [= <-]). exists lists. split; [|done].
      eapply Forall2_impl; [exact Hl|]. intros u l. apply required_ok.
  - destruct (List.find is_absent vs) as [child|].
    + destruct (bool_decide (mode = OCompact)); [|injection H as <-; by left].
      apply wrapped_list in H as (Hc & Ht & Hall). right. split; [done|]. by eexists.
    + apply bind_ok in H as (children & _ & H). apply wrapped_list in H as (Hc & Ht & Hall). right. split; [done|]. by eexists.
Qed.

Lemma assemble_output_key t x y : assemble_output (E := E) blake2b fresh str_of label interface t x = Ok y -> y.1 = x.1.
Proof. by intros (v & _ & [= <-])%bind_ok. Qed.

Lemma absent_output_key from x y : absent_output (E := E) blake2b fresh str_of interface from x = Ok y -> y.1 = x.1.
Proof. by intros (v & _ & [= <-])%bind_ok. Qed.

Lemma assemble_output_spec t id o v : assemble_output (E := E) blake2b fresh str_of label interface t (id, o) = Ok (id, v) ->
  match ro_mode o with
  | OState => dict_get (state t) id = Some v
  | OLast => match dict_get (last_values t) id with Some w => v = w | None => is_absent v = true end
  | mode => exists element vs, declared_list id element /\ dict_get (gathered t) id = Some vs /\ collected mode vs v /\ conforms element v
  end.
Proof.
  unfold assemble_output. cbn [fst snd]. intros (w & Hw & [= ->])%bind_ok. destruct (ro_mode o).
  - by apply assemble_collection_spec.
  - by apply assemble_collection_spec.
  - by apply subscript_ok in Hw.
  - by apply assemble_collection_spec.
  - destruct (dict_get (last_values t) id) as [u|]; [congruence|]. apply bind_ok in Hw as (ty & _ & [= <-]). done.
Qed.
End assembly_lemmas.

(** * Regions *)

Lemma NoDup_keys_filter {A} (f : string * A -> bool) (l : dict A) : NoDup (keys l) -> NoDup (keys (List.filter f l)).
Proof.
  unfold keys. induction l as [|x l IH]; [done|]. cbn. intros [Hx Hnd]%NoDup_cons. destruct (f x); [|by apply IH].
  cbn. apply NoDup_cons. split; [|by apply IH]. intros Hin. apply Hx.
  apply list_elem_of_fmap in Hin as (z & -> & Hz). apply list_elem_of_fmap. exists z. split; [done|].
  apply list_elem_of_In, List.filter_In in Hz as [Hz _]. by apply list_elem_of_In.
Qed.

Lemma initial_gathered r state id o : NoDup (keys (rn_outputs r)) -> (id, o) ∈ rn_outputs r -> collects (ro_mode o) = true ->
  dict_get (gathered (initial_tally r state)) id = Some [].
Proof.
  unfold initial_tally. cbn [gathered]. intros Hnd Ho Hc. apply elem_dict_get.
  - unfold keys. rewrite map_map. by apply NoDup_keys_filter.
  - apply list_elem_of_fmap. exists (id, o). split; [done|]. apply list_elem_of_In, List.filter_In. split; [by apply list_elem_of_In|done].
Qed.

(** ** Absence *)

Lemma find_omap_sorted (inputs : dict value) l from : StronglySorted String.le l -> List.find is_absent (omap (dict_get inputs) l) = Some from ->
  exists id, id ∈ l /\ dict_get inputs id = Some from /\ is_absent from = true
    /\ forall id' w, id' ∈ l -> dict_get inputs id' = Some w -> is_absent w = true -> String.le id id'.
Proof.
  induction 1 as [|x l Hl IH Hx]; [done|]. cbn [omap list_omap]. rewrite Forall_forall in Hx.
  assert (Hlater : (forall w, dict_get inputs x = Some w -> is_absent w = false) -> List.find is_absent (omap (dict_get inputs) l) = Some from ->
    exists id, id ∈ x :: l /\ dict_get inputs id = Some from /\ is_absent from = true
      /\ forall id' w, id' ∈ x :: l -> dict_get inputs id' = Some w -> is_absent w = true -> String.le id id').
  { intros Hno (id & Hid & Hget & Ha & Hle)%IH. exists id. split_and!; [by right|done|done|].
    intros id' w [->|Hid']%elem_of_cons Hw Haw; [|by eapply Hle]. by rewrite (Hno w Hw) in Haw. }
  destruct (dict_get inputs x) as [v|] eqn:Hv; [|by apply Hlater]. cbn [List.find]. destruct (is_absent v) eqn:Ha.
  - intros [= <-]. exists x. split_and!; [left|done|done|]. intros id' w [->|Hid']%elem_of_cons _ _; [done|by apply Hx].
  - apply Hlater. by intros w [= <-].
Qed.

Lemma absent_input_first inputs from : absent_input inputs = Some from ->
  exists id, dict_get inputs id = Some from /\ is_absent from = true
    /\ forall id' w, dict_get inputs id' = Some w -> is_absent w = true -> String.le id id'.
Proof.
  intros H. apply find_omap_sorted in H as (id & Hid & Hget & Ha & Hle); [|apply StronglySorted_merge_sort; apply _].
  exists id. split_and!; [done..|]. intros id' w Hw. eapply Hle; [|exact Hw]. rewrite merge_sort_Permutation.
  apply dict_get_elem in Hw. apply list_elem_of_fmap. by exists (id', w).
Qed.

Lemma absent_input_none inputs : absent_input inputs = None <-> forall id v, dict_get inputs id = Some v -> is_absent v = false.
Proof.
  split.
  - intros H id v Hv. unfold absent_input in H. apply (List.find_none _ _ H). apply list_elem_of_In, list_elem_of_omap.
    exists id. split; [|done]. rewrite merge_sort_Permutation. apply dict_get_elem in Hv. apply list_elem_of_fmap. by exists (id, v).
  - intros H. destruct (absent_input inputs) as [from|] eqn:Hf; [|done]. apply absent_input_first in Hf as (id & Hget & Ha & _).
    by rewrite (H id from Hget) in Ha.
Qed.

(** Merging keeps what is true of all entries. *)
Lemma merge_entries {A} (P : string -> A -> Prop) (d1 d2 : dict A) :
  (forall k v, dict_get d1 k = Some v -> P k v) -> (forall k v, (k, v) ∈ d2 -> P k v) ->
  forall k v, dict_get (merge d1 d2) k = Some v -> P k v.
Proof.
  unfold merge. revert d1. induction d2 as [|[k0 v0] d2 IH]; intros d1 H1 H2; cbn [foldl]; [done|].
  apply IH.
  - intros k v. cbn. rewrite dict_get_set. case_decide; [|apply H1]. intros [= <-]. subst k. apply H2. left.
  - intros k v Hk. apply H2. by right.
Qed.

Section region_lemmas.
Context {E : Type}.
Variable json_loads : string -> option pyval.
Variable schemas : string -> option NodeSchema.
Variable wrap : string -> gvalue -> result E value.
Variable resolve : value -> result E (option bool).
Variable execute : list string * gmap string (gset string) -> list string -> nat -> Produced -> result E Produced.
Variable is_execution_error : E -> bool.
Variable blake2b : string -> string.
Variable fresh : string -> N.
Variable str_of : pyval -> string.
Variable label : string.
Variables (r : RegionNode) (body : Graph).
Hypothesis outputs_NoDup : NoDup (keys (rn_outputs r)).

Notation region execute := (run_region json_loads schemas wrap resolve execute is_execution_error blake2b fresh str_of label r body).

(** An absent input skips the region.  Exactly when some input is absent
    the region does no iteration: every output is absent, with the origin and
    the reason of the first absent input by name, and stands for the type the
    output would have had; whatever its body would have done. *)
Theorem absence_skips_regions completion produced inputs run :
  mapM (resolve_input (E := E) wrap r produced) (rn_inputs r) = Ok inputs -> region execute completion produced = Ok run ->
  (skipped run = true <-> exists id v, dict_get inputs id = Some v /\ is_absent v = true)
  /\ (skipped run = true -> iterations run = 0%nat /\ keys (outputs run) = keys (rn_outputs r)
      /\ (exists first from, dict_get inputs first = Some from /\ is_absent from = true
            /\ (forall id v, dict_get inputs id = Some v -> is_absent v = true -> String.le first id)
            /\ forall id o, (id, o) ∈ rn_outputs r -> exists v, dict_get (outputs run) id = Some v /\ absent_from str_of from v)
      /\ forall execute' completion', region execute' completion' produced = Ok run).
Proof.
  intros Hin Hrun. unfold run_region in *. rewrite Hin in *. cbn [mbind result_bind] in *.
  apply bind_ok in Hrun as (interface & Hint & Hrun). rewrite Hint. cbn [mbind result_bind].
  destruct (absent_input inputs) as [from|] eqn:Habs.
  - destruct (absent_input_first _ _ Habs) as (first & Hget & Ha & Hle). apply bind_ok in Hrun as (outs & Houts & [= <-]). cbn [skipped iterations outputs].
    split; [split; [eauto|done]|]. intros _. rewrite Houts. split_and!; [done| | |done].
    + clear -Houts. apply mapM_ok in Houts. unfold keys. induction Houts as [|x y l outs Hxy _ IH]; [done|]. cbn.
      by rewrite (absent_output_key _ _ _ _ _ _ _ Hxy), IH.
    + exists first, from. split_and!; [done..|]. intros id o Ho.
      destruct (dict_get_mapM _ _ _ id o outputs_NoDup (absent_output_key blake2b fresh str_of interface from) Houts Ho) as (_ & v & Hv & Hgetv).
      exists v. split; [done|]. apply bind_ok in Hv as (t & _ & [= <-]). apply propagate_absent.
  - pose proof (proj1 (absent_input_none inputs) Habs) as Hnone. unfold run_present in Hrun.
    assert (Hs : skipped run = false).
    { repeat match goal with
      | H : Ok _ = Ok _ |- _ => injection H as <-; done
      | H : (_ ≫= _) = Ok _ |- _ => apply bind_ok in H as (? & _ & H)
      end. }
    rewrite Hs. split; [|done]. split; [done|]. intros (id & v & Hv & Ha). by rewrite (Hnone id v Hv) in Ha.
Qed.

(** What an output is, given the bodies of the iterations. *)
Definition output_value (inputs : dict value) (bodies : list Produced) (o : RegionOutput) (id : string) (v : value) : Prop :=
  match ro_mode o, list.last bodies with
  | OState, Some last_body =>
      if stateful (rn_kind r) then source_value (E := E) last_body (ro_source o) = Ok v else dict_get inputs id = Some v
  | OState, None => dict_get inputs id = Some v
  | OLast, Some last_body => source_value (E := E) last_body (ro_source o) = Ok v
  | OLast, None => is_absent v = true
  | mode, _ => exists vs, Forall2 (fun b u => source_value (E := E) b (ro_source o) = Ok u) bodies vs /\ collected str_of mode vs v
  end.

Lemma region_present completion produced inputs run :
  mapM (resolve_input (E := E) wrap r produced) (rn_inputs r) = Ok inputs -> (forall id v, dict_get inputs id = Some v -> is_absent v = false) ->
  region execute completion produced = Ok run ->
  exists interface effective state bindings bodies t',
    region_interface json_loads schemas r body = Ok interface
    /\ elaborate_graph json_loads schemas body = Ok effective
    /\ (forall id v, dict_get state id = Some v -> dict_get inputs id = Some v)
    /\ region_bindings (E := E) r inputs = Ok bindings
    /\ (exists plan, strong_plan body (lazy_inputs effective.1) (body_targets schemas r body) = Some plan
        /\ repeats wrap (execute plan (body_targets schemas r body)) r (broadcast_inputs r inputs) (iteration_binding r bindings) 0
             (initial_tally r state) bodies t')
    /\ length bodies = iterations run /\ (rn_kind r <> RWhile -> iterations run = length bindings)
    /\ skipped run = false
    /\ mapM (assemble_output (E := E) blake2b fresh str_of label interface t') (rn_outputs r) = Ok (outputs run).
Proof.
  intros Hin Habs Hrun. unfold run_region in Hrun. rewrite Hin in Hrun. cbn [mbind result_bind] in Hrun.
  apply bind_ok in Hrun as (interface & Hint%wrap_ok & Hrun). rewrite (proj2 (absent_input_none inputs) Habs) in Hrun.
  unfold run_present in Hrun. apply bind_ok in Hrun as (eff & Heff%wrap_ok & ([] & _ & (plan & Hplan%required_ok
    & (st & Hst & (bindings & Hb & ([n t'] & Hp & (outs & Houts & [= <-])%bind_ok)%bind_ok)%bind_ok)%bind_ok)%bind_ok)%bind_ok).
  apply profile_repeats in Hp as (bodies & Hl & Hrep & Hn). exists interface, eff, (merge [] st), bindings, bodies, t'.
  split_and!; [done|done| |done|by exists plan|done|done|done|done].
  apply (merge_entries (fun id v => dict_get inputs id = Some v)); [done|].
  intros id v Hv. apply mapM_ok in Hst. apply list_elem_of_lookup in Hv as [i Hi].
  destruct (Forall2_lookup_r _ _ _ _ _ Hst Hi) as (port & _ & Hport). by apply bind_ok in Hport as (w & Hw%subscript_ok & [= <- <-]).
Qed.

(** C23: What a region answers.  When no input is absent and the region
    succeeds, the body was run once for each of its bindings, in order as far
    as anyone can tell (as often as it says, for a while), each iteration
    on its binding and the state it found; and every output is, by its mode,
    the list of what the iterations answered at its source, the list of what
    was not absent of it, the concatenation of the lists they answered, the
    last answer, or the state; a gathered or flattened list with an absent
    child is absent as a whole, with the origin of the first. *)
Theorem region_outputs_are_exact completion produced inputs run :
  mapM (resolve_input (E := E) wrap r produced) (rn_inputs r) = Ok inputs -> (forall id v, dict_get inputs id = Some v -> is_absent v = false) ->
  region execute completion produced = Ok run ->
  exists effective plan state bindings bodies t',
    elaborate_graph json_loads schemas body = Ok effective
    /\ strong_plan body (lazy_inputs effective.1) (body_targets schemas r body) = Some plan
    /\ region_bindings (E := E) r inputs = Ok bindings
    /\ repeats wrap (execute plan (body_targets schemas r body)) r (broadcast_inputs r inputs) (iteration_binding r bindings) 0
         (initial_tally r state) bodies t'
    /\ length bodies = iterations run /\ (rn_kind r <> RWhile -> iterations run = length bindings)
    /\ keys (outputs run) = keys (rn_outputs r)
    /\ forall id o, (id, o) ∈ rn_outputs r -> exists v, dict_get (outputs run) id = Some v /\ output_value inputs bodies o id v.
Proof.
  intros Hin Habs Hrun. destruct (region_present _ _ _ _ Hin Habs Hrun) as (interface & eff & st & bindings & bodies & t' & _ & Heff & Hst
    & Hb & (plan & Hplan & Hrep) & Hl & Hn & _ & Houts).
  exists eff, plan, st, bindings, bodies, t'. split_and!; [done..| |].
  { clear -Houts. apply mapM_ok in Houts. unfold keys. induction Houts as [|x y l outs Hxy _ IH]; [done|]. cbn.
    by rewrite (assemble_output_key _ _ _ _ _ _ _ _ Hxy), IH. }
  intros id o Ho. destruct (dict_get_mapM _ _ _ id o outputs_NoDup (assemble_output_key blake2b fresh str_of label interface t') Houts Ho) as (_ & v & Hv & Hget).
  exists v. split; [done|]. apply assemble_output_spec in Hv. unfold output_value.
  assert (Hcollect : collects (ro_mode o) = true -> (exists element vs, declared_list interface id element /\ dict_get (gathered t') id = Some vs
        /\ collected str_of (ro_mode o) vs v /\ conforms element v) ->
      exists vs, Forall2 (fun b u => source_value (E := E) b (ro_source o) = Ok u) bodies vs /\ collected str_of (ro_mode o) vs v).
  { intros Hc (element & vs & _ & Hvs & Hcol & _). destruct (repeats_gathered _ _ _ _ outputs_NoDup _ _ _ _ _ id o [] Hrep Ho Hc) as (ws & Hws & Hend).
    { by eapply initial_gathered. }
    exists ws. split; [done|]. cbn in Hend. by assert (vs = ws) as <- by congruence. }
  pose proof (repeats_last _ _ _ _ outputs_NoDup _ _ _ _ _ id o Hrep Ho) as Hlast.
  pose proof (repeats_state _ _ _ _ outputs_NoDup _ _ _ _ _ id o Hrep Ho) as Hstate.
  destruct (ro_mode o) eqn:Hm; try (by apply Hcollect).
  - specialize (Hstate eq_refl). destruct (list.last bodies) as [b|].
    + destruct (stateful (rn_kind r)).
      * destruct Hstate as (w & Hw & Hw'). congruence.
      * rewrite Hstate in Hv. by apply Hst.
    + rewrite Hstate in Hv. by apply Hst.
  - specialize (Hlast eq_refl). destruct (list.last bodies) as [b|].
    + destruct Hlast as (w & Hw & Hw'). rewrite Hw' in Hv. by subst.
    + rewrite Hlast in Hv. done.
Qed.

(** C26: A region's outputs have the types its interface declares.  Whatever
    the iterations answered, a region that succeeds answers, for an output
    that collects, a list of the declared type whose children all have its
    element type, or an absent value that stands for it. *)
Theorem region_outputs_are_typed completion produced inputs run id o :
  mapM (resolve_input (E := E) wrap r produced) (rn_inputs r) = Ok inputs -> (forall id v, dict_get inputs id = Some v -> is_absent v = false) ->
  region execute completion produced = Ok run -> (id, o) ∈ rn_outputs r -> collects (ro_mode o) = true ->
  exists interface element v, region_interface json_loads schemas r body = Ok interface
    /\ declared_list interface id element /\ dict_get (outputs run) id = Some v /\ conforms element v.
Proof.
  intros Hin Habs Hrun Ho Hc. destruct (region_present _ _ _ _ Hin Habs Hrun) as (interface & eff & st & bindings & bodies & t' & Hint & _ & _
    & _ & _ & _ & _ & _ & Houts).
  destruct (dict_get_mapM _ _ _ id o outputs_NoDup (assemble_output_key blake2b fresh str_of label interface t') Houts Ho) as (_ & v & Hv & Hget).
  apply assemble_output_spec in Hv.
  assert (Hv' : exists element vs, declared_list interface id element /\ dict_get (gathered t') id = Some vs
      /\ collected str_of (ro_mode o) vs v /\ conforms element v) by (by destruct (ro_mode o)).
  destruct Hv' as (element & vs & Hd & _ & _ & Hconf). by exists interface, element, v.
Qed.
End region_lemmas.

(** * Regions at work *)

Definition demo_value (type fp : string) : value := mkValue type fp [] (Opaque 1).
Definition demo_list (fps : list string) : value :=
  mkValue (list_type_id CORE_INT) "" [] (Structural ListContainer 2 (map (demo_value CORE_INT) fps)).
Definition demo_hash (s : string) : string := s.
Definition demo_wrap (type_id : string) (raw : gvalue) : result string value := Ok (demo_value type_id "literal").
Definition demo_resolve (v : value) : result string (option bool) := Ok (Some (String.eqb (v_fingerprint v) "true")).

(** The body of [Validate]'s region: it doubles an item's fingerprint, and
    has nothing to answer for the item named "none". *)
Definition demo_double (produced : Produced) : result string value :=
  match outs ← produced !! PORTS_NODE_ID; dict_get outs "item" with
  | Some v =>
      if String.eqb (v_fingerprint v) "fails" then Err "failed"
      else if String.eqb (v_fingerprint v) "none"
      then Ok (make_absent_value demo_hash 3 "each[1]/twice/out" "nothing there" (Some CORE_INT))
      else Ok (demo_value CORE_INT (v_fingerprint v +:+ v_fingerprint v))
  | None => Err "no item"
  end.

Definition demo_execute (plan : list string * gmap string (gset string)) (targets : list string) (index : nat) (produced : Produced) :
  result string Produced :=
  v ← demo_double produced;
  Ok (<["twice" := [("out", v); ("again", demo_value "BOOLEAN" (if (index <? 2)%nat then "true" else "false"))]]> produced).

Definition demo_source (v : value) : Produced := {["source" := [("out", v)]]}.

Definition demo_run (completion : list nat) (v : value) : result (exn string) RegionRun :=
  run_region (fun _ => None) Validate.demo_schemas demo_wrap demo_resolve demo_execute (fun _ => true) demo_hash (fun _ => 4%N) (fun _ => "")
    "each" Validate.demo_region Validate.demo_body completion (demo_source v).

Lemma demo_outputs_NoDup : NoDup (keys (rn_outputs Validate.demo_region)).
Proof. by apply (bool_decide_unpack _); vm_compute. Qed.

Lemma demo_inputs v : mapM (resolve_input (E := string) demo_wrap Validate.demo_region (demo_source v)) (rn_inputs Validate.demo_region) = Ok [("item", v)].
Proof. done. Qed.

Definition demo_cross : RegionNode :=
  mkRegionNode RMap [] [] ["a"; "b"] [] [] BCross CReuse (Some 6%Z) None.

Lemma bindings_are_exact_witness :
  let inputs := [("b", demo_list ["0"; "1"; "2"]); ("a", demo_list ["x"; "y"])] in
  exists bs, region_bindings (E := string) demo_cross inputs = Ok bs /\ length bs = 6%nat
    /\ bs !! 4%nat = Some [("a", demo_value CORE_INT "y"); ("b", demo_value CORE_INT "1")].
Proof.
  intros inputs.
  destruct (bindings_are_exact (E := string) demo_cross inputs
    [("a", map (demo_value CORE_INT) ["x"; "y"]); ("b", map (demo_value CORE_INT) ["0"; "1"; "2"])]) as [Hok Hall].
  - done.
  - repeat constructor; eexists; split; by vm_compute.
  - destruct (region_bindings (E := string) demo_cross inputs) as [bs|e] eqn:Hbs; [|by vm_compute in Hbs].
    destruct (Hall bs eq_refl) as [Hl Hi]. exists bs. split; [reflexivity|]. split; [exact Hl|].
    rewrite (Hi 4%nat) by (rewrite Hl; vm_compute; lia). by vm_compute.
Defined.

Lemma maps_run_in_any_order_witness :
  let bindings := map (fun fp => [("item", demo_value CORE_INT fp)]) ["a"; "fails"; "b"] in
  let t := initial_tally Validate.demo_region [] in
  map_loop demo_wrap (demo_execute ([], ∅) []) (fun _ => true) Validate.demo_region [] [2; 0; 1]%nat bindings t = Err (Called "failed")
  /\ map_loop demo_wrap (demo_execute ([], ∅) []) (fun _ => true) Validate.demo_region [] [1; 0]%nat (map (fun fp => [("item", demo_value CORE_INT fp)]) ["a"; "b"]) t
     = one_by_one demo_wrap (demo_execute ([], ∅) []) Validate.demo_region [] 0 (map (fun fp => [("item", demo_value CORE_INT fp)]) ["a"; "b"]) t.
Proof.
  intros bindings t. split.
  - apply (maps_run_in_any_order demo_wrap (demo_execute ([], ∅) []) (fun _ => true) Validate.demo_region [] [2; 0; 1]%nat bindings t) with
      (i := 1%nat) (before := [2; 0]%nat) (after := []) (b := [("item", demo_value CORE_INT "fails")]).
    + cbn. apply (Permutation_app_comm [2%nat] [0; 1]%nat).
    + done.
    + done.
    + by vm_compute.
    + intros j c Hj Hc. assert (Hcase : j = 2%nat \/ j = 0%nat) by set_solver. destruct Hcase as [-> | ->]; injection Hc as <-; by vm_compute.
    + intros [|[|[|j]]] c f Hc Hf; try done; injection Hc as <-; vm_compute in Hf; try done. by injection Hf as <-.
  - apply (maps_run_in_any_order demo_wrap (demo_execute ([], ∅) []) (fun _ => true) Validate.demo_region [] [1; 0]%nat _ t).
    + cbn. apply Permutation_swap.
    + intros [|[|j]] b Hb; try done; injection Hb as <-; by vm_compute.
Defined.

Definition demo_while : RegionNode :=
  mkRegionNode RWhile [] [] [] ["item"] [("item", mkRegionOutput (mkLink "twice" "out") OState)] BZip CReuse (Some 3%Z) (Some (mkLink "twice" "again")).

Lemma while_regions_end_witness : exists n t,
  run_profile demo_wrap demo_resolve (demo_execute ([], ∅) []) (fun _ => true) demo_while [] [] [] (initial_tally demo_while [("item", demo_value CORE_INT "a")])
    = Ok (n, t)
  /\ n = 3%nat /\ state t = [("item", demo_value CORE_INT "aaaaaaaa")]
  /\ loops demo_wrap demo_resolve (demo_execute ([], ∅) []) demo_while [] (mkLink "twice" "again") 0
       (initial_tally demo_while [("item", demo_value CORE_INT "a")]) n t /\ (Z.of_nat n <= 3)%Z.
Proof.
  destruct (while_regions_end demo_wrap demo_resolve (demo_execute ([], ∅) []) (fun _ => true) demo_while [] [] [] (mkLink "twice" "again") 3
    (initial_tally demo_while [("item", demo_value CORE_INT "a")]) eq_refl eq_refl eq_refl) as (_ & Hok & _).
  eexists _, _. split; [vm_compute; reflexivity|]. split; [reflexivity|]. split; [reflexivity|].
  apply Hok. vm_compute. reflexivity.
Defined.

Lemma absence_skips_regions_witness : exists run v,
  demo_run [] (make_absent_value demo_hash 3 "load/out" "no file" None) = Ok run /\ skipped run = true /\ iterations run = 0%nat
  /\ dict_get (outputs run) "all" = Some v /\ meta_get v ABSENT_ORIGIN_META_KEY = Some (VStr "load/out").
Proof.
  set (from := make_absent_value demo_hash 3 "load/out" "no file" None).
  assert (Hrun : exists run, demo_run [] from = Ok run) by (eexists; vm_compute; reflexivity). destruct Hrun as [run Hrun].
  destruct (absence_skips_regions (fun _ => None) Validate.demo_schemas demo_wrap demo_resolve demo_execute (fun _ => true) demo_hash (fun _ => 4%N) (fun _ => "")
    "each" Validate.demo_region Validate.demo_body demo_outputs_NoDup [] (demo_source from) [("item", from)] run (demo_inputs from) Hrun) as [Hiff Hskip].
  assert (Hs : skipped run = true) by (apply Hiff; by exists "item", from).
  destruct (Hskip Hs) as (Hn & _ & (first & from' & Hget & _ & _ & Hout) & _).
  destruct (Hout "all" (mkRegionOutput (mkLink "twice" "out") OGather)) as (v & Hv & _ & Ho & _); [left|].
  exists run, v. split_and!; [exact Hrun|exact Hs|exact Hn|exact Hv|]. rewrite Ho.
  cbn in Hget. destruct (decide (first = "item")); [|done]. by injection Hget as <-.
Defined.

Lemma demo_present fps : forall id v, dict_get [("item", demo_list fps)] id = Some v -> is_absent v = false.
Proof. intros id v. cbn. destruct (decide (id = "item")); [|done]. by intros [= <-]. Qed.

Lemma region_outputs_are_exact_witness : exists run bodies v, demo_run [1; 0]%nat (demo_list ["a"; "b"]) = Ok run
  /\ length bodies = iterations run /\ iterations run = 2%nat /\ dict_get (outputs run) "all" = Some v
  /\ exists vs, Forall2 (fun b u => source_value (E := string) b (mkLink "twice" "out") = Ok u) bodies vs /\ list_children v = Some vs.
Proof.
  assert (Hrun : exists run, demo_run [1; 0]%nat (demo_list ["a"; "b"]) = Ok run /\ iterations run = 2%nat
      /\ is_absent <$> dict_get (outputs run) "all" = Some false)
    by (eexists; split_and!; vm_compute; reflexivity). destruct Hrun as (run & Hrun & Hn & Ha).
  destruct (region_outputs_are_exact (fun _ => None) Validate.demo_schemas demo_wrap demo_resolve demo_execute (fun _ => true) demo_hash (fun _ => 4%N) (fun _ => "")
    "each" Validate.demo_region Validate.demo_body demo_outputs_NoDup [1; 0]%nat (demo_source (demo_list ["a"; "b"])) [("item", demo_list ["a"; "b"])] run
    (demo_inputs _) (demo_present _) Hrun) as (eff & plan & st & bindings & bodies & t' & _ & _ & _ & _ & Hl & _ & _ & Hout).
  destruct (Hout "all" (mkRegionOutput (mkLink "twice" "out") OGather)) as (v & Hv & vs & Hread & Hcol); [left|].
  exists run, bodies, v. split_and!; [exact Hrun|exact Hl|exact Hn|exact Hv|]. exists vs. split; [exact Hread|].
  rewrite Hv in Ha. clear -Ha Hcol. unfold collected in Hcol. destruct (List.find is_absent vs) as [child|]; [|exact Hcol].
  destruct Hcol as [Habs _]. cbn in Ha. congruence.
Defined.

Lemma region_outputs_are_typed_witness : exists run interface element v, demo_run [0; 2; 1]%nat (demo_list ["a"; "none"; "b"]) = Ok run
  /\ declared_list interface "all" element /\ dict_get (outputs run) "all" = Some v /\ conforms element v /\ is_absent v = true.
Proof.
  assert (Hrun : exists run, demo_run [0; 2; 1]%nat (demo_list ["a"; "none"; "b"]) = Ok run /\ is_absent <$> dict_get (outputs run) "all" = Some true)
    by (eexists; split; vm_compute; reflexivity). destruct Hrun as (run & Hrun & Ha).
  destruct (region_outputs_are_typed (fun _ => None) Validate.demo_schemas demo_wrap demo_resolve demo_execute (fun _ => true) demo_hash (fun _ => 4%N) (fun _ => "")
    "each" Validate.demo_region Validate.demo_body demo_outputs_NoDup [0; 2; 1]%nat (demo_source (demo_list ["a"; "none"; "b"])) [("item", demo_list ["a"; "none"; "b"])] run
    "all" (mkRegionOutput (mkLink "twice" "out") OGather) (demo_inputs _) (demo_present _) Hrun) as (interface & element & v & _ & Hd & Hv & Hconf); [left|done|].
  exists run, interface, element, v. split_and!; [exact Hrun|exact Hd|exact Hv|exact Hconf|]. rewrite Hv in Ha. cbn in Ha. congruence.
Defined.
