(* ===== verification/SingleFlight.v ===== *)
(** SingleFlight: how the engine shares computations between nodes and runs
    (dinkster_engine/engine.py, [Engine._run_node] from its cache key on,
    [_pin_outputs], [_dead_owner], [_cache_hit_valid],
    [_cached_output_origins], the unpinning at the end of a run): the table of
    computations in flight, waiters, cache hits, pins and dead workers.  A
    node's task is cut at its awaits; [move] is what tasks do and [event] what
    happens to them. *)
From S2P Require Import Prelude PyStr Widgets TypeExprs Schema Values Envelopes.
From S2P Require Resident.
From Stdlib Require Import SpecFloat.

Local Open Scope string_scope.
Local Open Scope list_scope.

Module Pins := Resident.Pins.

(** * Outputs *)

(** A node's outputs, [CachedResult] without an expansion. *)
Abbreviation Outputs := (list (string * value)).

(** [bool(v)]. *)
Definition truthy (v : pyval) : bool :=
  match v with
  | VNone => false
  | VBool b => b
  | VInt z => negb (z =? 0)%Z
  | VFloat (S754_zero _) => false
  | VStr s => negb (String.eqb s "")
  | VList l => negb (bool_decide (length l = 0%nat))
  | VDict d => negb (bool_decide (length d = 0%nat))
  | _ => true
  end.

Definition output_resources (o : Outputs) : list string := concat (map (fun kv => value_resource_ids kv.2) o).
Definition output_refs (o : Outputs) : list (string * option string) := concat (map (fun kv => value_resource_refs kv.2) o).

(** The output contract of a hit. *)
Definition cache_hit_valid (schema : NodeSchema) (hit : Outputs) : bool :=
  bool_decide ((list_to_set (keys hit) : gset string) = list_to_set (map out_id (outputs schema)))
  && forallb (fun out =>
       match dict_get hit (out_id out), runtime_type_id (out_type out) with
       | Some v, Some expected => String.eqb (v_type v) expected || is_absent v
       | _, _ => true
       end) (outputs schema).

Section origins.
Variable blake2b : string -> string.
Variable fresh : string -> N.
Variable str_of : pyval -> string.

Definition meta_string (v : value) (key : string) : string :=
  match meta_get v key with Some (VStr s) => s | Some p => str_of p | None => "" end.

(** An absent output found under one label, as its own producer's. *)
Definition rebind_output (label : string) (kv : string * value) : string * value :=
  let v := kv.2 in
  if is_absent v && negb (match meta_get v "absent.forwarded" with Some p => truthy p | None => false end) then
    let current := make_absent_value blake2b (fresh kv.1) (label +:+ ("/" +:+ kv.1)) (meta_string v ABSENT_REASON_META_KEY)
                     (Some (meta_string v ABSENT_STANDS_FOR_META_KEY)) in
    (kv.1, mkValue CORE_ABSENT (v_fingerprint current)
             (foldl (fun d e => dict_set d e.1 e.2) (v_meta v) (v_meta current)) (Opaque (payload_identity current)))
  else kv.

Definition cached_output_origins (label : string) (schema : NodeSchema) (o : Outputs) : Outputs :=
  match selector schema with Some _ => o | None => map (rebind_output label) o end.
End origins.

(** * The engine *)

Inductive flight_state (X : Type) := Pending | Landed (o : Outputs) | Crashed (x : X) | Abandoned.
Arguments Pending {X}. Arguments Landed {X} o. Arguments Crashed {X} x. Arguments Abandoned {X}.

(** A future; its owner is not part of it, but recorded. *)
Record Flight (X : Type) := { fl_owner : N; fl_state : flight_state X }.
Arguments fl_owner {X}. Arguments fl_state {X}. Arguments Build_Flight {X}.

Inductive result_of (X : Type) := Answered (o : Outputs) | RaisedError (x : X) | Cancelled.
Arguments Answered {X} o. Arguments RaisedError {X} x. Arguments Cancelled {X}.

(** Where a task stands: before the table is looked at; waiting for another's
    future; at [asyncio.sleep(0)]; publishing what it waited for; and, as the
    owner of a future: in the cache's [get], publishing a hit, invoking the
    worker, publishing its result, in the cache's [put].  Then it is over. *)
Inductive phase (X : Type) :=
| Begin | Waiting (f : N) | Yielding | Joined (o : Outputs)
| Looking (f : N) | HitPublishing (f : N) (o : Outputs) | Invoking (f : N) | Publishing (f : N) (o : Outputs) | Putting (f : N) (o : Outputs)
| Over (r : result_of X).
Arguments Begin {X}. Arguments Waiting {X} f. Arguments Yielding {X}. Arguments Joined {X} o. Arguments Looking {X} f.
Arguments HitPublishing {X} f o. Arguments Invoking {X} f. Arguments Publishing {X} f o. Arguments Putting {X} f o. Arguments Over {X} r.

Record Task (X : Type) := {
  t_run : string;
  t_label : string;
  t_schema : NodeSchema;
  t_key : string;
  t_cached : bool;
  t_cancelling : bool;
  t_phase : phase X;
}.
Arguments t_run {X}. Arguments t_label {X}. Arguments t_schema {X}. Arguments t_key {X}. Arguments t_cached {X}.
Arguments t_cancelling {X}. Arguments t_phase {X}. Arguments Build_Task {X}.

(** [_inflight], the futures, the registry of pins with what each live run
    pinned, what each task put in its run's [produced], the cache's contents;
    and, for the record, what tasks raised. *)
Record Engine (X : Type) := {
  tasks : gmap N (Task X);
  inflight : gmap string N;
  futures : gmap N (Flight X);
  next_future : N;
  pins : Pins.ResourcePins;
  pinned : gmap string (list string);
  dead : gset string;
  produced : gmap N Outputs;
  stored : list (string * Outputs);
  raised : list (N * X);
}.
Arguments tasks {X}. Arguments inflight {X}. Arguments futures {X}. Arguments next_future {X}. Arguments pins {X}.
Arguments pinned {X}. Arguments dead {X}. Arguments produced {X}. Arguments stored {X}. Arguments raised {X}.
Arguments Build_Engine {X}.

(** ** Pins and dead workers *)

(** [pins.pin] of each resource: whether all were accepted, and those that were. *)
Fixpoint pin_all (ids : list string) (p : Pins.ResourcePins) : bool * Pins.ResourcePins * list string :=
  match ids with
  | [] => (true, p, [])
  | rid :: ids' =>
      let '(ok, p) := Pins.pin p rid in
      let '(live, p, held) := pin_all ids' p in
      (ok && live, p, if ok then rid :: held else held)
  end.

Section engine.
Context {X : Type}.
Implicit Types (st : Engine X) (t : Task X).

Definition dead_owner st (o : Outputs) : bool :=
  existsb (fun ref => match ref.2 with Some owner => bool_decide (owner ∈ dead st) | None => false end) (output_refs o).

Definition pin_outputs (run : string) (o : Outputs) st : bool * Engine X :=
  let '(live, p, held) := pin_all (output_resources o) (pins st) in
  (live, {| tasks := tasks st; inflight := inflight st; futures := futures st; next_future := next_future st; pins := p;
            pinned := <[run := default [] (pinned st !! run) ++ held]> (pinned st); dead := dead st; produced := produced st;
            stored := stored st; raised := raised st |}).

(** [for resource_id in pinned: pins.unpin(resource_id)]. *)
Definition unpin_all (ids : list string) (p : Pins.ResourcePins) : Pins.ResourcePins := foldl Pins.unpin p ids.

(** ** Steps of a task *)

Definition with_phase t (ph : phase X) : Task X :=
  {| t_run := t_run t; t_label := t_label t; t_schema := t_schema t; t_key := t_key t; t_cached := t_cached t;
     t_cancelling := t_cancelling t; t_phase := ph |}.

Definition set_phase tid t (ph : phase X) st : Engine X :=
  {| tasks := <[tid := with_phase t ph]> (tasks st);
     inflight := inflight st; futures := futures st; next_future := next_future st; pins := pins st; pinned := pinned st; dead := dead st;
     produced := produced st; stored := stored st; raised := raised st |}.

Definition set_produced tid (o : Outputs) st : Engine X :=
  {| tasks := tasks st; inflight := inflight st; futures := futures st; next_future := next_future st; pins := pins st; pinned := pinned st;
     dead := dead st; produced := <[tid := o]> (produced st); stored := stored st; raised := raised st |}.

Definition log_raised tid (x : X) st : Engine X :=
  {| tasks := tasks st; inflight := inflight st; futures := futures st; next_future := next_future st; pins := pins st; pinned := pinned st;
     dead := dead st; produced := produced st; stored := stored st; raised := (tid, x) :: raised st |}.

Definition store key (o : Outputs) st : Engine X :=
  {| tasks := tasks st; inflight := inflight st; futures := futures st; next_future := next_future st; pins := pins st; pinned := pinned st;
     dead := dead st; produced := produced st; stored := (key, o) :: stored st; raised := raised st |}.

(** The future is created and filed. *)
Definition own tid t st : Engine X :=
  let f := next_future st in
  set_phase tid t (if t_cached t then Looking f else Invoking f)
    {| tasks := tasks st; inflight := if t_cached t then <[t_key t := f]> (inflight st) else inflight st;
       futures := <[f := {| fl_owner := tid; fl_state := Pending |}]> (futures st); next_future := N.succ f; pins := pins st;
       pinned := pinned st; dead := dead st; produced := produced st; stored := stored st; raised := raised st |}.

(** The head of [while use_cache and ...]. *)
Definition enter tid t st : Engine X :=
  match inflight st !! t_key t with
  | Some f => if t_cached t then set_phase tid t (Waiting f) st else own tid t st
  | None => own tid t st
  end.

(** The [finally] of an owner, whose future got this state. *)
Definition conclude tid t (f : N) (s : flight_state X) (r : result_of X) st : Engine X :=
  set_phase tid t (Over r)
    {| tasks := tasks st;
       inflight := if t_cached t && bool_decide (inflight st !! t_key t = Some f) then delete (t_key t) (inflight st) else inflight st;
       futures := <[f := {| fl_owner := tid; fl_state := s |}]> (futures st); next_future := next_future st; pins := pins st;
       pinned := pinned st; dead := dead st; produced := produced st; stored := stored st; raised := raised st |}.

Definition owned_future (ph : phase X) : option N :=
  match ph with Looking f | HitPublishing f _ | Invoking f | Publishing f _ | Putting f _ => Some f | _ => None end.

(** The cancellation a task was asked for arrives at its await. *)
Definition cancelled_at tid t st : Engine X :=
  match owned_future (t_phase t) with
  | Some f => conclude tid t f Abandoned Cancelled st
  | None => set_phase tid t (Over Cancelled) st
  end.

(** What a task awaits raises. *)
Definition raises_at tid t (x : X) st : Engine X :=
  match owned_future (t_phase t) with
  | Some f => conclude tid t f (Crashed x) (RaisedError x) (log_raised tid x st)
  | None => set_phase tid t (Over (RaisedError x)) (log_raised tid x st)
  end.

Variable blake2b : string -> string.
Variable fresh : string -> N.
Variable str_of : pyval -> string.
(** The error of a fresh result that refers to what is gone. *)
Variable violation : X.

Notation origins t o := (cached_output_origins blake2b fresh str_of (t_label t) (t_schema t) o).

(** A waiter's future is done. *)
Definition resume tid t (s : flight_state X) st : Engine X :=
  match s with
  | Pending => st
  | Abandoned => enter tid t st
  | Crashed x => set_phase tid t (Over (RaisedError x)) st
  | Landed o =>
      let o := origins t o in
      if dead_owner st o then set_phase tid t Yielding st
      else match pin_outputs (t_run t) o st with
           | (true, st) => set_phase tid t (Joined o) (set_produced tid o st)
           | (false, st) => set_phase tid t Yielding st
           end
  end.

(** The cache answered a hit. *)
Definition found tid t (f : N) (hit : Outputs) st : Engine X :=
  if negb (cache_hit_valid (t_schema t) hit) then set_phase tid t (Invoking f) st
  else if dead_owner st hit then set_phase tid t (Invoking f) st
  else match pin_outputs (t_run t) hit st with
       | (true, st) => let o := origins t hit in set_phase tid t (HitPublishing f o) (set_produced tid o st)
       | (false, st) => set_phase tid t (Invoking f) st
       end.

(** The worker answered. *)
Definition invoked tid t (f : N) (o : Outputs) st : Engine X :=
  if dead_owner st o then raises_at tid t violation st
  else match pin_outputs (t_run t) o st with
       | (true, st) => set_phase tid t (Publishing f o) (set_produced tid o st)
       | (false, st) => raises_at tid t violation st
       end.

(** What the invocation of a task may answer. *)
Variable answers : Task X -> Outputs -> Prop.

Definition suspended (ph : phase X) : bool := match ph with Over _ => false | _ => true end.
Definition may_raise (ph : phase X) : bool := match ph with Begin | Waiting _ | Yielding | Over _ => false | _ => true end.

Inductive move : Engine X -> Engine X -> Prop :=
| m_cancelled tid t st : tasks st !! tid = Some t -> t_cancelling t = true -> suspended (t_phase t) = true ->
    move st (cancelled_at tid t st)
| m_begin tid t st : tasks st !! tid = Some t -> t_cancelling t = false -> t_phase t = Begin \/ t_phase t = Yielding ->
    move st (enter tid t st)
| m_resume tid t f fl st : tasks st !! tid = Some t -> t_cancelling t = false -> t_phase t = Waiting f -> futures st !! f = Some fl ->
    fl_state fl <> Pending -> move st (resume tid t (fl_state fl) st)
| m_joined tid t o st : tasks st !! tid = Some t -> t_cancelling t = false -> t_phase t = Joined o ->
    move st (set_phase tid t (Over (Answered o)) st)
| m_miss tid t f st : tasks st !! tid = Some t -> t_cancelling t = false -> t_phase t = Looking f -> move st (set_phase tid t (Invoking f) st)
| m_hit tid t f hit st : tasks st !! tid = Some t -> t_cancelling t = false -> t_phase t = Looking f -> (t_key t, hit) ∈ stored st ->
    move st (found tid t f hit st)
| m_hit_published tid t f o st : tasks st !! tid = Some t -> t_cancelling t = false -> t_phase t = HitPublishing f o ->
    move st (conclude tid t f (Landed o) (Answered o) st)
| m_invoked tid t f o st : tasks st !! tid = Some t -> t_cancelling t = false -> t_phase t = Invoking f -> answers t o ->
    move st (invoked tid t f o st)
| m_published tid t f o st : tasks st !! tid = Some t -> t_cancelling t = false -> t_phase t = Publishing f o ->
    move st (if t_cached t then set_phase tid t (Putting f o) st else conclude tid t f (Landed o) (Answered o) st)
| m_put tid t f o st : tasks st !! tid = Some t -> t_cancelling t = false -> t_phase t = Putting f o ->
    move st (conclude tid t f (Landed o) (Answered o) (store (t_key t) o st))
| m_raises tid t x st : tasks st !! tid = Some t -> t_cancelling t = false -> may_raise (t_phase t) = true ->
    move st (raises_at tid t x st).

(** ** What happens to tasks *)

Definition set_pins (p : Pins.ResourcePins) st : Engine X :=
  {| tasks := tasks st; inflight := inflight st; futures := futures st; next_future := next_future st; pins := p; pinned := pinned st;
     dead := dead st; produced := produced st; stored := stored st; raised := raised st |}.

Definition arrive tid t st : Engine X :=
  {| tasks := <[tid := t]> (tasks st); inflight := inflight st; futures := futures st; next_future := next_future st; pins := pins st;
     pinned := pinned st; dead := dead st; produced := produced st; stored := stored st; raised := raised st |}.

Definition run_begins (run : string) st : Engine X :=
  {| tasks := tasks st; inflight := inflight st; futures := futures st; next_future := next_future st; pins := pins st;
     pinned := <[run := []]> (pinned st); dead := dead st; produced := produced st; stored := stored st;
     raised := raised st |}.

(** The [finally] of [run]. *)
Definition run_ends (run : string) (held : list string) st : Engine X :=
  {| tasks := tasks st; inflight := inflight st; futures := futures st; next_future := next_future st; pins := unpin_all held (pins st);
     pinned := delete run (pinned st); dead := dead st;
     produced := filter (fun p : N * Outputs => (t_run <$> tasks st !! p.1) <> Some run) (produced st);
     stored := stored st; raised := raised st |}.

Definition dies (owner : string) st : Engine X :=
  {| tasks := tasks st; inflight := inflight st; futures := futures st; next_future := next_future st; pins := pins st; pinned := pinned st;
     dead := {[owner]} ∪ dead st; produced := produced st; stored := stored st; raised := raised st |}.

(** Outputs of tasks that are over leave [produced]: those of finished nodes
    that no consumer or export needs any more ([_ProducedReferences.finished]),
    or all of a level that failed ([produced.clear()]).  Pins are not touched. *)
Definition retires (gone : gset N) st : Engine X :=
  {| tasks := tasks st; inflight := inflight st; futures := futures st; next_future := next_future st; pins := pins st; pinned := pinned st;
     dead := dead st; produced := filter (fun p : N * Outputs => p.1 ∉ gone) (produced st); stored := stored st; raised := raised st |}.

Definition cancel t : Task X :=
  {| t_run := t_run t; t_label := t_label t; t_schema := t_schema t; t_key := t_key t; t_cached := t_cached t; t_cancelling := true;
     t_phase := t_phase t |}.

(** Arrivals apart: cancellations, the retirement of outputs, the end of a run,
    the death of a worker and what the release path does to the pins.  Which
    outputs retire when is the level's reference count (Scheduler.finished);
    here it may be those of any tasks of one run that are over. *)
Inductive event : Engine X -> Engine X -> Prop :=
| e_cancel tid t st : tasks st !! tid = Some t -> event st (arrive tid (cancel t) st)
| e_run_ends run held st : pinned st !! run = Some held ->
    (forall tid t, tasks st !! tid = Some t -> t_run t = run -> suspended (t_phase t) = false) -> event st (run_ends run held st)
| e_retires run gone st : (forall tid, tid ∈ gone -> exists t, tasks st !! tid = Some t /\ t_run t = run /\ suspended (t_phase t) = false) ->
    event st (retires gone st)
| e_dies owner st : event st (dies owner st)
| e_condemn rid st : event st (set_pins (Pins.condemn (pins st) rid).2 st)
| e_absolve rid st : event st (set_pins (Pins.absolve (pins st) rid) st).

Inductive arrival : Engine X -> Engine X -> Prop :=
| a_run run st : pinned st !! run = None -> (forall tid t, tasks st !! tid = Some t -> t_run t <> run) -> arrival st (run_begins run st)
| a_task tid t st : tasks st !! tid = None -> t_phase t = Begin -> t_cancelling t = false -> is_Some (pinned st !! t_run t) ->
    arrival st (arrive tid t st).

Definition estep st st' : Prop := move st st' \/ event st st' \/ arrival st st'.

(** An engine that starts with a cache. *)
Definition engine_init (contents : list (string * Outputs)) : Engine X :=
  {| tasks := ∅; inflight := ∅; futures := ∅; next_future := 0; pins := Pins.empty; pinned := ∅; dead := ∅; produced := ∅;
     stored := contents; raised := [] |}.
End engine.

(** * The table of computations in flight *)

Section invariants.
Context {X : Type}.
Implicit Types (st : Engine X) (t : Task X) (ts : gmap N (Task X)) (fs : gmap N (Flight X)) (tab : gmap string N).

(** Every entry of the table is a pending future, and its owner is at work on
    it; a waiter waits for the future of a task with its own key. *)
Record table_ok ts tab fs (next : N) : Prop := {
  to_entry : forall k f, tab !! k = Some f -> exists tid t, ts !! tid = Some t /\ owned_future (t_phase t) = Some f /\ t_key t = k /\ t_cached t = true;
  to_owner : forall tid t f, ts !! tid = Some t -> owned_future (t_phase t) = Some f ->
    fs !! f = Some {| fl_owner := tid; fl_state := Pending |} /\ (t_cached t = true -> tab !! t_key t = Some f);
  to_waiter : forall tid t f, ts !! tid = Some t -> t_phase t = Waiting f -> t_cached t = true /\ exists fl ot,
    fs !! f = Some fl /\ ts !! fl_owner fl = Some ot /\ t_key ot = t_key t /\ t_cached ot = true
    /\ (fl_state fl = Pending -> owned_future (t_phase ot) = Some f);
  to_flight : forall f fl, fs !! f = Some fl -> (f < next)%N /\ is_Some (ts !! fl_owner fl);
}.

Lemma lookup_task ts tid t x : <[tid := t]> ts !! x = if decide (x = tid) then Some t else ts !! x.
Proof. rewrite lookup_insert. repeat case_decide; congruence. Qed.

(** A change of a task that neither takes nor drops a future. *)
Lemma table_task ts tab fs next tid t t' : table_ok ts tab fs next -> ts !! tid = Some t ->
  t_key t' = t_key t -> t_cached t' = t_cached t -> owned_future (t_phase t') = owned_future (t_phase t) ->
  (forall f, t_phase t' = Waiting f -> t_phase t = Waiting f \/ t_cached t = true /\ tab !! t_key t = Some f) ->
  table_ok (<[tid := t']> ts) tab fs next.
Proof.
  intros [He Ho Hw Hf] Ht Hkey Hcached Hown Hwait. constructor.
  - intros k f Hk. destruct (He k f Hk) as (o & ot & Hot & H1 & H2 & H3). destruct (decide (o = tid)) as [->|Hne].
    + exists tid, t'. rewrite lookup_insert_eq. assert (ot = t) as -> by congruence. by rewrite Hkey, Hcached, Hown.
    + exists o, ot. by rewrite lookup_insert_ne.
  - intros x tx f Hx. rewrite lookup_task in Hx. case_decide as Hd; [|by apply Ho]. injection Hx as <-. subst x.
    rewrite Hown, Hkey, Hcached. by apply Ho.
  - assert (Howner : forall o ot, ts !! o = Some ot -> exists ot', <[tid := t']> ts !! o = Some ot' /\ t_key ot' = t_key ot
        /\ t_cached ot' = t_cached ot /\ owned_future (t_phase ot') = owned_future (t_phase ot)).
    { intros o ot Hot. rewrite lookup_task. destruct (decide (o = tid)) as [->|]; [|by exists ot].
      exists t'. assert (ot = t) as -> by congruence. done. }
    assert (Hold : forall x tx f, ts !! x = Some tx -> t_phase tx = Waiting f -> t_cached tx = true /\ exists fl ot, fs !! f = Some fl
        /\ <[tid := t']> ts !! fl_owner fl = Some ot /\ t_key ot = t_key tx /\ t_cached ot = true
        /\ (fl_state fl = Pending -> owned_future (t_phase ot) = Some f)).
    { intros x tx f Hx Hph. destruct (Hw x tx f Hx Hph) as (Hc & fl & ot & Hfl & Hot & Hk & Hoc & Hp). split; [done|].
      destruct (Howner _ _ Hot) as (ot' & Hot' & Hk' & Hc' & Ho'). exists fl, ot'.
      rewrite Hk', Hc', Ho'. by split_and!. }
    intros x tx f Hx. rewrite lookup_task in Hx. case_decide as Hd; [|by eapply Hold]. injection Hx as <-. subst x. intros Hph.
    rewrite Hkey, Hcached. destruct (Hwait f Hph) as [Hw'|[Hc Htab]]; [by apply (Hold tid t f)|]. split; [done|].
    destruct (He _ _ Htab) as (o & ot & Hot & H1 & H2 & H3). destruct (Ho o ot f Hot H1) as [Hfl _].
    destruct (Howner _ _ Hot) as (ot' & Hot' & Hk' & Hc' & Ho'). exists {| fl_owner := o; fl_state := Pending |}, ot'.
    split_and!; [done|done|congruence|congruence|intros _; congruence].
  - intros f fl Hfl. destruct (Hf f fl Hfl) as [Hlt Hs]. split; [done|]. rewrite lookup_task. by destruct (decide (fl_owner fl = tid)).
Qed.

(** A task becomes the owner of a new future. *)
Lemma table_own ts tab fs next tid t ph : table_ok ts tab fs next -> ts !! tid = Some t -> owned_future (t_phase t) = None ->
  owned_future ph = Some next -> (t_cached t = true -> tab !! t_key t = None) ->
  table_ok (<[tid := with_phase t ph]> ts) (if t_cached t then <[t_key t := next]> tab else tab)
    (<[next := {| fl_owner := tid; fl_state := Pending |}]> fs) (N.succ next).
Proof.
  intros [He Ho Hw Hf] Ht Hnone Hown Htab.
  assert (Hnew : forall f fl, fs !! f = Some fl -> f <> next) by (intros f fl Hfl ->; destruct (Hf next fl Hfl); lia).
  assert (Hsame : forall o ot f, ts !! o = Some ot -> owned_future (t_phase ot) = Some f -> o <> tid) by (intros o ot f Hot H ->; congruence).
  constructor.
  - assert (Hold : forall k f, tab !! k = Some f -> exists x tx, <[tid := with_phase t ph]> ts !! x = Some tx /\ owned_future (t_phase tx) = Some f
        /\ t_key tx = k /\ t_cached tx = true).
    { intros k f Hk. destruct (He k f Hk) as (o & ot & Hot & H1 & H2 & H3). exists o, ot. rewrite lookup_insert_ne; [done|].
      intros <-. by apply (Hsame _ _ _ Hot H1). }
    destruct (t_cached t) eqn:Hc; [|done]. intros k f Hk. destruct (decide (k = t_key t)) as [->|Hne].
    + rewrite lookup_insert_eq in Hk. injection Hk as <-. exists tid, (with_phase t ph). by rewrite lookup_insert_eq.
    + rewrite lookup_insert_ne in Hk by done. by apply Hold.
  - intros x tx f Hx Hfx. rewrite lookup_task in Hx. case_decide as Hd.
    + injection Hx as <-. subst x. cbn in *. assert (f = next) as -> by congruence. rewrite lookup_insert_eq. split; [done|].
      intros Hc. rewrite Hc. apply lookup_insert_eq.
    + destruct (Ho x tx f Hx Hfx) as [Hfl Hent]. split; [rewrite lookup_insert_ne; [done|apply not_eq_sym; by eapply Hnew]|].
      intros Hc. specialize (Hent Hc). destruct (t_cached t); [|done]. rewrite lookup_insert_ne; [done|]. intros Heq. rewrite <- Heq in Hent.
      by rewrite Htab in Hent.
  - intros x tx f Hx Hph. rewrite lookup_task in Hx. case_decide as Hd; [injection Hx as <-; cbn in Hph; by subst ph|].
    destruct (Hw x tx f Hx Hph) as (Hc & fl & ot & Hfl & Hot & Hk & Hoc & Hp). split; [done|].
    exists fl, (if decide (fl_owner fl = tid) then with_phase t ph else ot).
    rewrite lookup_insert_ne, lookup_task by (apply not_eq_sym; by eapply Hnew). destruct (decide (fl_owner fl = tid)) as [Hd'|Hd']; [|done].
    rewrite Hd' in Hot. assert (ot = t) as -> by congruence. split_and!; try done. intros Hpend. specialize (Hp Hpend). congruence.
  - intros f fl Hfl. destruct (decide (f = next)) as [->|Hne].
    + rewrite lookup_insert_eq in Hfl. injection Hfl as <-. split; [lia|]. cbn. rewrite lookup_insert_eq. by eexists.
    + rewrite lookup_insert_ne in Hfl by done. destruct (Hf f fl Hfl) as [Hlt Hs]. split; [lia|]. rewrite lookup_task. by destruct (decide (fl_owner fl = tid)).
Qed.

(** An owner is done with its future. *)
Lemma table_conclude ts tab fs next tid t f s r : table_ok ts tab fs next -> ts !! tid = Some t ->
  owned_future (t_phase t) = Some f -> s <> Pending ->
  table_ok (<[tid := with_phase t (Over r)]> ts)
    (if t_cached t && bool_decide (tab !! t_key t = Some f) then delete (t_key t) tab else tab)
    (<[f := {| fl_owner := tid; fl_state := s |}]> fs) next.
Proof.
  intros [He Ho Hw Hf] Ht Hown Hs. destruct (Ho tid t f Ht Hown) as [Hfut Hent].
  assert (Hother : forall o ot f', ts !! o = Some ot -> owned_future (t_phase ot) = Some f' -> o <> tid -> f' <> f).
  { intros o ot f' Hot Ho' Hne ->. destruct (Ho o ot f Hot Ho') as [Hfl _]. rewrite Hfut in Hfl. injection Hfl as ->. done. }
  assert (Htab : (if t_cached t && bool_decide (tab !! t_key t = Some f) then delete (t_key t) tab else tab) = if t_cached t then delete (t_key t) tab else tab).
  { destruct (t_cached t); [|done]. by rewrite (Hent eq_refl), bool_decide_true. }
  rewrite Htab. constructor.
  - intros k f' Hk. assert (Hk' : tab !! k = Some f' /\ (t_cached t = true -> k <> t_key t)).
    { destruct (t_cached t); [|by split]. apply lookup_delete_Some in Hk as [Hne Hk]. by split. }
    destruct Hk' as [Hk' Hne]. destruct (He k f' Hk') as (o & ot & Hot & H1 & H2 & H3). exists o, ot.
    rewrite lookup_insert_ne; [done|]. intros <-. assert (ot = t) as -> by congruence. by apply Hne.
  - intros x tx f' Hx Hfx. rewrite lookup_task in Hx. case_decide as Hd; [by injection Hx as <-|].
    destruct (Ho x tx f' Hx Hfx) as [Hfl Hent']. split; [rewrite lookup_insert_ne; [done|apply not_eq_sym; by eapply Hother]|].
    intros Hc. destruct (t_cached t) eqn:Htc; [|by apply Hent']. apply lookup_delete_Some. split; [|by apply Hent'].
    intros Heq. specialize (Hent' Hc). rewrite <- Heq, (Hent eq_refl) in Hent'. injection Hent' as ->. by apply (Hother x tx f' Hx Hfx Hd).
  - intros x tx f' Hx Hph. rewrite lookup_task in Hx. case_decide as Hd; [by injection Hx as <-|].
    destruct (Hw x tx f' Hx Hph) as (Hc & fl & ot & Hfl & Hot & Hk & Hoc & Hp). split; [done|].
    destruct (decide (f' = f)) as [->|Hne].
    + rewrite Hfut in Hfl. injection Hfl as <-. cbn in *. assert (ot = t) as -> by congruence.
      exists {| fl_owner := tid; fl_state := s |}, (with_phase t (Over r)). rewrite !lookup_insert_eq. by split_and!.
    + exists fl, (if decide (fl_owner fl = tid) then with_phase t (Over r) else ot).
      rewrite (lookup_insert_ne fs) by congruence. rewrite lookup_task. destruct (decide (fl_owner fl = tid)) as [Hd'|Hd']; [|done].
      rewrite Hd' in Hot. assert (ot = t) as -> by congruence. split_and!; try done. intros Hpend. specialize (Hp Hpend). congruence.
  - intros f' fl Hfl. destruct (decide (f' = f)) as [->|Hne].
    + rewrite lookup_insert_eq in Hfl. injection Hfl as <-. split; [by apply (Hf f _ Hfut)|]. cbn. rewrite lookup_insert_eq. by eexists.
    + rewrite lookup_insert_ne in Hfl by done. destruct (Hf f' fl Hfl) as [Hlt Hsm]. split; [done|]. rewrite lookup_task. by destruct (decide (fl_owner fl = tid)).
Qed.

Notation engine_table st := (table_ok (tasks st) (inflight st) (futures st) (next_future st)).

Lemma own_table tid t st : engine_table st -> tasks st !! tid = Some t -> owned_future (t_phase t) = None ->
  (t_cached t = true -> inflight st !! t_key t = None) -> engine_table (own tid t st).
Proof. intros Hok Ht Hn Htab. unfold own. cbn. apply table_own; try done. by destruct (t_cached t). Qed.

Lemma enter_table tid t st : engine_table st -> tasks st !! tid = Some t -> owned_future (t_phase t) = None -> engine_table (enter tid t st).
Proof.
  intros Hok Ht Hn. unfold enter. destruct (inflight st !! t_key t) as [f|] eqn:Hf; [|by apply own_table].
  destruct (t_cached t) eqn:Hc; [|by apply own_table; rewrite ?Hc]. cbn. eapply table_task; try done.
  intros g [= <-]. by right.
Qed.

Lemma conclude_table tid t f s r st : engine_table st -> tasks st !! tid = Some t -> owned_future (t_phase t) = Some f -> s <> Pending ->
  engine_table (conclude tid t f s r st).
Proof. intros. by apply table_conclude. Qed.

Lemma phase_table tid t ph st : engine_table st -> tasks st !! tid = Some t -> owned_future ph = owned_future (t_phase t) ->
  (forall f, ph <> Waiting f) -> engine_table (set_phase tid t ph st).
Proof. intros Hok Ht Hown Hw. eapply table_task; try done. intros f Hf. by destruct (Hw f). Qed.

Lemma raises_table tid t x st : engine_table st -> tasks st !! tid = Some t -> engine_table (raises_at tid t x st).
Proof.
  intros Hok Ht. unfold raises_at. destruct (owned_future (t_phase t)) as [f|] eqn:Ho; [by apply conclude_table|by apply phase_table].
Qed.

Lemma arrive_table tid t st : engine_table st -> tasks st !! tid = None -> t_phase t = Begin -> engine_table (arrive tid t st).
Proof.
  intros [He Ho Hw Hf] Hnew Hph. cbn.
  assert (Hne : forall o ot, tasks st !! o = Some ot -> <[tid := t]> (tasks st) !! o = Some ot).
  { intros o ot Hot. rewrite lookup_insert_ne; [done|]. congruence. }
  constructor.
  - intros k f Hk. destruct (He k f Hk) as (o & ot & Hot & Hrest). exists o, ot. split; [by apply Hne|done].
  - intros x tx f Hx Hown. rewrite lookup_task in Hx. case_decide; [|by eapply Ho]. injection Hx as <-. by rewrite Hph in Hown.
  - intros x tx f Hx Hwx. rewrite lookup_task in Hx. case_decide; [injection Hx as <-; congruence|].
    destruct (Hw x tx f Hx Hwx) as (Hc & fl & ot & Hfl & Hot & Hrest). split; [done|]. exists fl, ot. split_and!; [done|by apply Hne|naive_solver..].
  - intros f fl Hfl. destruct (Hf f fl Hfl) as [Hlt [ot Hot]]. split; [done|]. exists ot. by apply Hne.
Qed.

Variable blake2b : string -> string.
Variable fresh : string -> N.
Variable str_of : pyval -> string.
Variable violation : X.
Variable answers : Task X -> Outputs -> Prop.

Notation moves := (move blake2b fresh str_of violation answers).
Notation steps := (estep blake2b fresh str_of violation answers).

Lemma move_table st st' : engine_table st -> moves st st' -> engine_table st'.
Proof.
  intros Hok Hm. destruct Hm as [tid t st Ht _ Hs|tid t st Ht _ Hb|tid t f fl st Ht _ Hph Hfl Hdone|tid t o st Ht _ Hph|tid t f st Ht _ Hph
    |tid t f hit st Ht _ Hph _|tid t f o st Ht _ Hph|tid t f o st Ht _ Hph _|tid t f o st Ht _ Hph|tid t f o st Ht _ Hph|tid t x st Ht _ Hr].
  - unfold cancelled_at. destruct (owned_future (t_phase t)) as [f|] eqn:Ho; [by apply conclude_table|by apply phase_table].
  - apply enter_table; [done|done|]. by destruct Hb as [-> | ->].
  - unfold resume. destruct (fl_state fl); [done| | |].
    + destruct (dead_owner _ _); [apply phase_table; by rewrite ?Hph|]. unfold pin_outputs. destruct (pin_all _ _) as [[[] p] held];
        (apply phase_table; by rewrite ?Hph).
    + apply phase_table; by rewrite ?Hph.
    + apply enter_table; by rewrite ?Hph.
  - apply phase_table; by rewrite ?Hph.
  - apply phase_table; by rewrite ?Hph.
  - unfold found. destruct (negb _); [apply phase_table; by rewrite ?Hph|]. destruct (dead_owner _ _); [apply phase_table; by rewrite ?Hph|].
    unfold pin_outputs. destruct (pin_all _ _) as [[[] p] held]; (apply phase_table; by rewrite ?Hph).
  - apply conclude_table; by rewrite ?Hph.
  - unfold invoked. destruct (dead_owner _ _); [by apply raises_table|]. unfold pin_outputs. destruct (pin_all _ _) as [[[] p] held].
    + apply phase_table; by rewrite ?Hph.
    + by apply raises_table.
  - destruct (t_cached t); [apply phase_table; by rewrite ?Hph|apply conclude_table; by rewrite ?Hph].
  - apply conclude_table; by rewrite ?Hph.
  - by apply raises_table.
Qed.

Lemma step_table st st' : engine_table st -> steps st st' -> engine_table st'.
Proof.
  intros Hok [Hm|[He|Ha]]; [by eapply move_table| |].
  - destruct He as [tid t st Ht|run held st _ _|run gone st _|owner st|rid st|rid st]; try done. eapply table_task; try done. by left.
  - destruct Ha as [run st _ _|tid t st Hn Hph _ _]; [done|by apply arrive_table].
Qed.
End invariants.

(** * Errors, answers and pins *)

Section ledgers.
Context {X : Type}.
Implicit Types (st : Engine X) (t : Task X) (ts : gmap N (Task X)) (fs : gmap N (Flight X)).

(** ** Errors *)

(** Who raised the error a task ends with: itself, or the owner of a future
    for the same key. *)
Definition blamed ts (log : list (N * X)) tid t (x : X) : Prop :=
  (tid, x) ∈ log
  \/ t_cached t = true /\ exists o ot, ts !! o = Some ot /\ t_key ot = t_key t /\ t_cached ot = true /\ (o, x) ∈ log.

Record errors_ok ts fs (log : list (N * X)) : Prop := {
  er_crashed : forall f fl x, fs !! f = Some fl -> fl_state fl = Crashed x -> (fl_owner fl, x) ∈ log;
  er_cancelled : forall tid t, ts !! tid = Some t -> t_phase t = Over Cancelled -> t_cancelling t = true;
  er_raised : forall tid t x, ts !! tid = Some t -> t_phase t = Over (RaisedError x) -> blamed ts log tid t x;
  er_log : forall tid x, (tid, x) ∈ log -> exists t, ts !! tid = Some t /\ t_phase t = Over (RaisedError x);
}.

(** A task changes its phase, and may raise. *)
Lemma errors_update ts fs fs' log log' tid t t' : errors_ok ts fs log -> ts !! tid = Some t ->
  t_key t' = t_key t -> t_cached t' = t_cached t -> (suspended (t_phase t) = true \/ t_phase t' = t_phase t) ->
  (forall p, p ∈ log -> p ∈ log') -> (forall o x, (o, x) ∈ log' -> (o, x) ∈ log \/ o = tid /\ t_phase t' = Over (RaisedError x)) ->
  (t_phase t' = Over Cancelled -> t_cancelling t' = true) ->
  (forall x, t_phase t' = Over (RaisedError x) -> blamed ts log' tid t x) ->
  (forall f fl x, fs' !! f = Some fl -> fl_state fl = Crashed x -> fs !! f = Some fl \/ (fl_owner fl, x) ∈ log') ->
  errors_ok (<[tid := t']> ts) fs' log'.
Proof.
  intros [Hc Hca Hr Hl] Ht Hk Hcd Hsus Hlog Hlog' Hcan Hrai Hfs.
  assert (Hmono : forall x tx e, t_key tx = t_key tx -> blamed ts log' x tx e -> blamed (<[tid := t']> ts) log' x tx e).
  { intros x tx e _ [H|(H1 & o & ot & Hot & H2 & H3 & H4)]; [by left|right]. split; [done|].
    destruct (decide (o = tid)) as [->|Hne].
    - exists tid, t'. rewrite lookup_insert_eq. assert (ot = t) as -> by congruence. rewrite Hk, Hcd. by split_and!.
    - exists o, ot. rewrite lookup_insert_ne by done. by split_and!. }
  constructor.
  - intros f fl x Hf Hs. destruct (Hfs f fl x Hf Hs) as [Hold|]; [by eapply Hlog, Hc|done].
  - intros x tx Hx. rewrite lookup_task in Hx. destruct (decide (x = tid)); [injection Hx as <-; done|by eapply Hca].
  - intros x tx e Hx Hph. rewrite lookup_task in Hx. destruct (decide (x = tid)) as [->|].
    + injection Hx as <-. destruct (Hrai e Hph) as [H|(H1 & o & ot & Hot & H2 & H3)]; [by left|].
      apply Hmono; [done|]. right. rewrite Hk, Hcd. split; [done|]. by exists o, ot.
    + apply Hmono; [done|]. destruct (Hr x tx e Hx Hph) as [H|(H1 & o & ot & Hot & H2 & H3 & H4)]; [left; by apply Hlog|right].
      split; [done|]. exists o, ot. split_and!; auto.
  - intros x e Hin. rewrite lookup_task. destruct (Hlog' x e Hin) as [Hold|[-> Hph]].
    + destruct (Hl x e Hold) as (tx & Hx & Hph). destruct (decide (x = tid)) as [->|]; [|by exists tx]. exists t'. split; [done|].
      assert (tx = t) as -> by congruence. destruct Hsus as [Hsus| ->]; [by rewrite Hph in Hsus|done].
    + rewrite decide_True by done. by exists t'.
Qed.

Notation engine_errors st := (errors_ok (tasks st) (futures st) (raised st)).

Lemma errors_phase tid t ph st : engine_errors st -> tasks st !! tid = Some t -> suspended (t_phase t) = true ->
  (ph = Over Cancelled -> t_cancelling t = true) -> (forall x, ph = Over (RaisedError x) -> blamed (tasks st) (raised st) tid t x) ->
  engine_errors (set_phase tid t ph st).
Proof. intros Hok Ht Hs Hc Hr. eapply errors_update; try done; eauto. Qed.

Lemma errors_enter tid t st : engine_errors st -> tasks st !! tid = Some t -> suspended (t_phase t) = true -> engine_errors (enter tid t st).
Proof.
  intros Hok Ht Hs. assert (Hown : engine_errors (own tid t st)).
  { eapply errors_update; try done; eauto; cbn; try by destruct (t_cached t).
    intros f fl x. rewrite lookup_insert. case_decide; [by intros [= <-]|by left]. }
  unfold enter. destruct (inflight st !! t_key t); [|done]. destruct (t_cached t); [by apply errors_phase|done].
Qed.

Lemma errors_conclude tid t f s r st : engine_errors st -> tasks st !! tid = Some t -> suspended (t_phase t) = true ->
  (r = Cancelled -> t_cancelling t = true) -> (forall x, r = RaisedError x -> blamed (tasks st) (raised st) tid t x) ->
  (forall x, s = Crashed x -> (tid, x) ∈ raised st) -> engine_errors (conclude tid t f s r st).
Proof.
  intros Hok Ht Hs Hc Hr Hcr. eapply errors_update; try done; eauto; cbn.
  - intros [= ->]. auto.
  - intros x [= ->]. auto.
  - intros g fl x. rewrite lookup_insert. case_decide; [|by left]. intros [= <-] Hx. right. cbn in *. by apply Hcr.
Qed.

Lemma errors_raises tid t x st : engine_errors st -> tasks st !! tid = Some t -> suspended (t_phase t) = true -> engine_errors (raises_at tid t x st).
Proof.
  intros Hok Ht Hs. unfold raises_at.
  assert (Hup : forall fs', (forall f fl y, fs' !! f = Some fl -> fl_state fl = Crashed y -> futures st !! f = Some fl \/ (fl_owner fl, y) ∈ (tid, x) :: raised st) ->
    errors_ok (<[tid := with_phase t (Over (RaisedError x))]> (tasks st)) fs' ((tid, x) :: raised st)).
  { intros fs' Hfs. apply (errors_update (tasks st) (futures st) fs' (raised st) _ tid t); try done.
    - by left.
    - intros p Hp. by right.
    - intros o y [[= -> ->]|Hy]%elem_of_cons; [by right|by left].
    - intros y [= <-]. left. left. }
  destruct (owned_future (t_phase t)) as [f|]; apply Hup; cbn.
  - intros g fl y. rewrite lookup_insert. case_decide; [|by left]. intros [= <-] [= <-]. right. left.
  - intros g fl y Hg _. by left.
Qed.

(** ** Answers *)

(** Two outputs that differ in the provenance of absent values alone. *)
Definition alike (o1 o2 : Outputs) : Prop :=
  Forall2 (fun a b => a.1 = b.1 /\ (a.2 = b.2 \/ is_absent a.2 = true /\ is_absent b.2 = true)) o1 o2.

Lemma alike_refl o : alike o o.
Proof. unfold alike. induction o; constructor; auto. Qed.

Lemma alike_trans o1 o2 o3 : alike o1 o2 -> alike o2 o3 -> alike o1 o3.
Proof.
  intros H12. revert o3. induction H12 as [|a b o1 o2 [Hk Hv] _ IH]; intros o3 H23; inversion H23 as [|b' c o2' o3' [Hk' Hv'] H23']; subst; [constructor|].
  constructor; [|by apply IH]. split; [congruence|]. destruct Hv as [->|[H1 H2]]; [done|]. destruct Hv' as [<-|[H3 H4]]; right; done.
Qed.

Variable right : string -> Outputs -> Prop.

Definition holds (ph : phase X) : option Outputs :=
  match ph with Joined o | HitPublishing _ o | Publishing _ o | Putting _ o | Over (Answered o) => Some o | _ => None end.

(** The outputs kept for a key, in the cache, in a future or by a task, are
    right for it. *)
Record answers_ok ts fs (sto : list (string * Outputs)) : Prop := {
  an_stored : forall k o, (k, o) ∈ sto -> right k o;
  an_landed : forall f fl o ot, fs !! f = Some fl -> fl_state fl = Landed o -> ts !! fl_owner fl = Some ot -> right (t_key ot) o;
  an_phase : forall tid t o, ts !! tid = Some t -> holds (t_phase t) = Some o -> right (t_key t) o;
}.

Lemma answers_update ts fs fs' sto sto' tid t t' : answers_ok ts fs sto -> ts !! tid = Some t -> t_key t' = t_key t ->
  (forall k o, (k, o) ∈ sto' -> (k, o) ∈ sto \/ right k o) ->
  (forall o, holds (t_phase t') = Some o -> holds (t_phase t) = Some o \/ right (t_key t) o) ->
  (forall f fl o, fs' !! f = Some fl -> fl_state fl = Landed o -> fs !! f = Some fl \/ fl_owner fl = tid /\ right (t_key t) o) ->
  answers_ok (<[tid := t']> ts) fs' sto'.
Proof.
  intros [Hs Hl Hp] Ht Hk Hsto Hph Hfs. constructor.
  - intros k o Ho. destruct (Hsto k o Ho) as [Hold|Hn]; [by apply Hs|done].
  - intros f fl o ot Hf Hst Hot. rewrite lookup_task in Hot. destruct (Hfs f fl o Hf Hst) as [Hold|[Howner Hn]].
    + destruct (decide (fl_owner fl = tid)) as [Heq|]; [|by eapply Hl].
      injection Hot as <-. rewrite Hk. eapply Hl; try done. by rewrite Heq.
    + rewrite decide_True in Hot by done. injection Hot as <-. by rewrite Hk.
  - intros x tx o Hx Ho. rewrite lookup_task in Hx. destruct (decide (x = tid)) as [->|]; [|by eapply Hp].
    injection Hx as <-. rewrite Hk. destruct (Hph o Ho) as [Hold|Hn]; [by eapply Hp|done].
Qed.

Notation engine_answers st := (answers_ok (tasks st) (futures st) (stored st)).

Lemma answers_phase tid t ph st : engine_answers st -> tasks st !! tid = Some t ->
  (forall o, holds ph = Some o -> holds (t_phase t) = Some o \/ right (t_key t) o) -> engine_answers (set_phase tid t ph st).
Proof. intros Hok Ht Hph. eapply answers_update; try done; auto. Qed.

Lemma answers_enter tid t st : engine_answers st -> tasks st !! tid = Some t -> engine_answers (enter tid t st).
Proof.
  intros Hok Ht. assert (Hown : engine_answers (own tid t st)).
  { eapply answers_update; try done; auto; cbn; [by destruct (t_cached t)|].
    intros f fl o. rewrite lookup_insert. case_decide; [by intros [= <-]|by left]. }
  unfold enter. destruct (inflight st !! t_key t); [|done]. destruct (t_cached t); [by apply answers_phase|done].
Qed.

Lemma answers_conclude tid t f s r st : engine_answers st -> tasks st !! tid = Some t ->
  (forall o, r = Answered o \/ s = Landed o -> right (t_key t) o) -> engine_answers (conclude tid t f s r st).
Proof.
  intros Hok Ht Hr. eapply answers_update; try done; auto; cbn.
  - intros o. destruct r; try done. intros [= ->]. auto.
  - intros g fl o. rewrite lookup_insert. case_decide; [|by left]. intros [= <-] Hx. right. split; [done|]. cbn in Hx. auto.
Qed.

Lemma answers_raises tid t x st : engine_answers st -> tasks st !! tid = Some t -> engine_answers (raises_at tid t x st).
Proof.
  intros Hok Ht. unfold raises_at. destruct (owned_future (t_phase t)) as [f|].
  - apply (answers_conclude tid t f (Crashed x) (RaisedError x) (log_raised tid x st)); try done. by intros o [|].
  - by apply (answers_phase tid t (Over (RaisedError x)) (log_raised tid x st)).
Qed.

Lemma answers_store tid t k o st : engine_answers st -> tasks st !! tid = Some t -> right k o -> engine_answers (store k o st).
Proof.
  intros [Hs Hl Hp] Ht Hr. constructor; try done. intros k' o' [[= -> ->]|Ho]%elem_of_cons; [done|by apply Hs].
Qed.
End ledgers.

(** * Rebinding the origin of absent values *)

Section rebinding.
Variable blake2b : string -> string.
Variable fresh : string -> N.
Variable str_of : pyval -> string.

Notation origins label schema o := (cached_output_origins blake2b fresh str_of label schema o).

Lemma origins_alike label schema o : alike o (origins label schema o).
Proof.
  unfold cached_output_origins. destruct (selector schema); [apply alike_refl|]. unfold alike.
  induction o as [|[k v] o IH]; constructor; [|done]. unfold rebind_output. cbn.
  destruct (is_absent v && _) eqn:E; cbn; [|by split; [|left]]. apply andb_true_iff in E as [E _]. split; [done|by right].
Qed.

Lemma meta_get_rebound t f i v current key : (forall e, e ∈ v_meta current -> e.1 <> key) ->
  meta_get (mkValue t f (foldl (fun d e => dict_set d e.1 e.2) (v_meta v) (v_meta current)) i) key = meta_get v key.
Proof.
  unfold meta_get. cbn [v_meta]. generalize (v_meta v), (v_meta current). intros d es. revert d. induction es as [|[k p] es IH]; intros d Hne; [done|].
  cbn [foldl]. rewrite IH by (intros e He; apply Hne; by right). rewrite dict_get_set, decide_False; [done|]. intros ->.
  by apply (Hne (k, p)); [left|].
Qed.

(** Rebinding an absent value adds no reference to a resource. *)
Lemma rebind_resources label kv rid : rid ∈ value_resource_ids (rebind_output blake2b fresh str_of label kv).2 -> rid ∈ value_resource_ids kv.2.
Proof.
  unfold rebind_output. destruct (is_absent kv.2 && _); [|done]. cbn [snd].
  rewrite !value_resource_ids_spec. intros (u & Hu & Hr). cbn [iter_value_tree] in Hu. apply elem_of_cons in Hu as [->|Hu]; [|by apply not_elem_of_nil in Hu].
  exists kv.2. split; [destruct kv as [k [? ? ? ?]]; left|]. revert Hr. unfold local_resource_ids.
  rewrite !meta_get_rebound; [done|..]; intros e; cbn [v_meta make_absent_value]; rewrite !elem_of_cons; intros [-> |[-> |[-> |He]]]; try done; by apply not_elem_of_nil in He.
Qed.

Lemma origins_resources label schema o : output_resources (origins label schema o) ⊆ output_resources o.
Proof.
  unfold cached_output_origins. destruct (selector schema); [done|]. intros rid. unfold output_resources.
  rewrite map_map, !elem_of_concat_map. intros (kv & Hkv & Hr). exists kv. split; [done|]. by apply rebind_resources in Hr.
Qed.
End rebinding.

(** * Pins *)

Section pinning.
Local Open Scope Z_scope.

Notation occ l r := (count_occ String.string_dec l r).

Lemma count_nonneg p r : Pins.pins_ok p -> 0 <= Pins.count p r.
Proof. intros [H _]. unfold Pins.count. destruct (Pins.counts p !! r) eqn:E; cbn; [apply H in E; lia|lia]. Qed.

Lemma count_pin p rid r : Pins.condemned p rid = false ->
  Pins.count (Pins.pin p rid).2 r = Pins.count p r + (if decide (rid = r) then 1 else 0).
Proof.
  unfold Pins.pin. intros ->. unfold Pins.count. cbn. rewrite lookup_insert. destruct (decide (rid = r)) as [->|]; cbn; lia.
Qed.

Lemma count_unpin p rid r : Pins.pins_ok p -> 1 <= Pins.count p rid ->
  Pins.count (Pins.unpin p rid) r = Pins.count p r - (if decide (rid = r) then 1 else 0).
Proof.
  intros Hok H1. unfold Pins.unpin. destruct (Pins.count p rid <=? 1) eqn:E; unfold Pins.count; cbn.
  - rewrite lookup_delete. destruct (decide (rid = r)) as [->|]; cbn; [|lia]. apply Z.leb_le in E. unfold Pins.count in *. lia.
  - rewrite lookup_insert. destruct (decide (rid = r)) as [->|]; cbn; [unfold Pins.count; lia|lia].
Qed.

Lemma occ_cons rid l r : Z.of_nat (occ (rid :: l) r) = (if decide (rid = r) then 1 else 0) + Z.of_nat (occ l r).
Proof. cbn. destruct (String.string_dec rid r), (decide (rid = r)); try done; lia. Qed.

Lemma pin_all_spec ids p live p' held : Pins.pins_ok p -> pin_all ids p = (live, p', held) ->
  Pins.pins_ok p' /\ (forall r, Pins.count p' r = Pins.count p r + Z.of_nat (occ held r)) /\ (live = true -> held = ids).
Proof.
  revert p live p' held. induction ids as [|rid ids IH]; intros p live p' held Hok; cbn.
  - intros [= <- <- <-]. split_and!; try done. intros r. cbn. lia.
  - destruct (Pins.pin p rid) as [ok p1] eqn:Hpin. destruct (pin_all ids p1) as [[live1 p2] held1] eqn:Hall. intros [= <- <- <-].
    assert (Hp1 : p1 = (Pins.pin p rid).2) by (by rewrite Hpin).
    assert (Hok1 : Pins.pins_ok p1) by (rewrite Hp1; eapply Pins.pins_step_ok; [exact Hok|constructor]).
    destruct (IH p1 live1 p2 held1 Hok1 Hall) as (Hok2 & Hcount & Hlive). split; [done|].
    destruct (Pins.condemned p rid) eqn:Hc.
    + unfold Pins.pin in Hpin. rewrite Hc in Hpin. injection Hpin as <- <-. by split.
    + assert (ok = true) as -> by (unfold Pins.pin in Hpin; rewrite Hc in Hpin; by injection Hpin). split.
      * intros r. rewrite Hcount, occ_cons, Hp1, count_pin by done. lia.
      * cbn. intros ->. by rewrite Hlive.
Qed.

Lemma unpin_all_spec ids p : Pins.pins_ok p -> (forall r, Z.of_nat (occ ids r) <= Pins.count p r) ->
  Pins.pins_ok (unpin_all ids p) /\ forall r, Pins.count (unpin_all ids p) r = Pins.count p r - Z.of_nat (occ ids r).
Proof.
  unfold unpin_all. revert p. induction ids as [|rid ids IH]; intros p Hok Hle; [split; [done|]; intros r; cbn; lia|].
  assert (H1 : 1 <= Pins.count p rid). { specialize (Hle rid). rewrite occ_cons, decide_True in Hle by done. lia. }
  destruct (IH (Pins.unpin p rid)) as [Hok' Hcount].
  - eapply Pins.pins_step_ok; [exact Hok|constructor].
  - intros r. rewrite count_unpin by done. specialize (Hle r). rewrite occ_cons in Hle. lia.
  - cbn [foldl]. split; [done|]. intros r. rewrite Hcount, count_unpin, occ_cons by done. lia.
Qed.

Section ledger.
Context {X : Type}.
Implicit Types (st : Engine X) (t : Task X) (ts : gmap N (Task X)) (p : Pins.ResourcePins) (pn : gmap string (list string)) (pr : gmap N Outputs).

(** The registry counts what the live runs pinned; whatever a live run's task
    produced, answered or is about to answer is pinned by it, and what a task
    at work is about to answer is in [produced]. *)
Record holds_ok ts p pn pr : Prop := {
  ho_pins : Pins.pins_ok p;
  ho_count : forall r, Pins.count p r = Z.of_nat (map_sum (fun held => occ held r) pn);
  ho_produced : forall tid o, pr !! tid = Some o -> exists t held, ts !! tid = Some t /\ pn !! t_run t = Some held /\ output_resources o ⊆ held;
  ho_run : forall tid t, ts !! tid = Some t -> suspended (t_phase t) = true -> is_Some (pn !! t_run t);
  ho_holds : forall tid t o, ts !! tid = Some t -> holds (t_phase t) = Some o -> is_Some (pn !! t_run t) ->
    exists held, pn !! t_run t = Some held /\ output_resources o ⊆ held;
  ho_same : forall tid t o o', ts !! tid = Some t -> holds (t_phase t) = Some o -> pr !! tid = Some o' -> o' = o;
  ho_working : forall tid t o, ts !! tid = Some t -> holds (t_phase t) = Some o -> suspended (t_phase t) = true -> pr !! tid = Some o;
}.

Lemma holds_task ts p pn pr tid t t' : holds_ok ts p pn pr -> ts !! tid = Some t -> t_run t' = t_run t ->
  (suspended (t_phase t') = true -> suspended (t_phase t) = true) ->
  (forall o, holds (t_phase t') = Some o -> holds (t_phase t) = Some o \/ pr !! tid = Some o) ->
  holds_ok (<[tid := t']> ts) p pn pr.
Proof.
  intros [Hp Hc Hpr Hr Hh Hsame Hwork] Ht Hrun Hsus Hhold. constructor; [done|done|..].
  - intros x o Hx. destruct (Hpr x o Hx) as (tx & held & Htx & Hheld & Hsub). rewrite lookup_task.
    destruct (decide (x = tid)) as [->|]; [|by exists tx, held]. exists t', held. assert (tx = t) as -> by congruence. by rewrite Hrun.
  - intros x tx Hx Hs. rewrite lookup_task in Hx. destruct (decide (x = tid)) as [->|]; [|by eapply Hr]. injection Hx as <-.
    rewrite Hrun. eapply Hr; [exact Ht|]. by apply Hsus.
  - intros x tx o Hx Ho Halive. rewrite lookup_task in Hx. destruct (decide (x = tid)) as [->|]; [|by eapply Hh]. injection Hx as <-.
    rewrite Hrun in Halive |- *. destruct (Hhold o Ho) as [Hold|Hin]; [by eapply Hh|].
    destruct (Hpr tid o Hin) as (tx & held & Htx & Hheld & Hsub). exists held. assert (tx = t) as -> by congruence. done.
  - intros x tx o o' Hx Ho Hin. rewrite lookup_task in Hx. destruct (decide (x = tid)) as [->|]; [|by eapply Hsame]. injection Hx as <-.
    destruct (Hhold o Ho) as [Hold|]; [by eapply Hsame|congruence].
  - intros x tx o Hx Ho Hs. rewrite lookup_task in Hx. destruct (decide (x = tid)) as [->|]; [|by eapply Hwork]. injection Hx as <-.
    destruct (Hhold o Ho) as [Hold|]; [|done]. eapply Hwork; [done..|by apply Hsus].
Qed.

Lemma holds_pin ts p pn pr run held0 ids live p' held : holds_ok ts p pn pr -> pn !! run = Some held0 -> pin_all ids p = (live, p', held) ->
  holds_ok ts p' (<[run := held0 ++ held]> pn) pr.
Proof.
  intros [Hp Hc Hpr Hr Hh Hsame Hwork] Hrun (Hok & Hcount & _)%pin_all_spec; [|done].
  assert (Hmore : forall r' l hx, pn !! r' = Some hx -> l ⊆ hx -> exists h, <[run := held0 ++ held]> pn !! r' = Some h /\ l ⊆ h).
  { intros r' l hx Hhx Hsub. rewrite lookup_insert. case_decide as E; [subst r'|by exists hx]. exists (held0 ++ held). split; [done|].
    assert (hx = held0) as -> by congruence. set_solver. }
  constructor; [done|..].
  - intros r. rewrite Hcount, Hc. pose proof (map_sum_insert (fun held => occ held r) pn run (held0 ++ held) held0 Hrun) as Hsum.
    cbn beta in Hsum. rewrite count_occ_app in Hsum. lia.
  - intros x o Hx. destruct (Hpr x o Hx) as (tx & hx & Htx & Hheld & Hsub). exists tx.
    destruct (Hmore _ _ _ Hheld Hsub) as (h & ? & ?). by exists h.
  - intros x tx Hx Hs. destruct (Hr x tx Hx Hs) as [hx Hhx]. rewrite lookup_insert. case_decide; by eexists.
  - intros x tx o Hx Ho Halive. assert (is_Some (pn !! t_run tx)) as Hold.
    { destruct Halive as [h Halive]. rewrite lookup_insert in Halive. case_decide as E; [subst; by rewrite Hrun|by eexists]. }
    destruct (Hh x tx o Hx Ho Hold) as (hx & Hhx & Hsub). by eapply Hmore.
  - done.
  - done.
Qed.

Lemma holds_produce ts p pn pr tid t held o : holds_ok ts p pn pr -> ts !! tid = Some t -> holds (t_phase t) = None ->
  pn !! t_run t = Some held -> output_resources o ⊆ held -> holds_ok ts p pn (<[tid := o]> pr).
Proof.
  intros [Hp Hc Hpr Hr Hh Hsame Hwork] Ht Hn Hheld Hsub. constructor; [done|done| |done|done|..].
  - intros x o' Hx. rewrite lookup_insert in Hx. case_decide as E; [|by apply Hpr]. injection Hx as <-. subst x. by exists t, held.
  - intros x tx o1 o' Hx Ho Hin. rewrite lookup_insert in Hin. case_decide as E; [|by eapply Hsame]. subst x. assert (tx = t) as -> by congruence. congruence.
  - intros x tx o' Hx Ho Hs. rewrite lookup_insert. case_decide as E; [|by eapply Hwork]. subst x. assert (tx = t) as -> by congruence. congruence.
Qed.

(** Outputs of tasks that are over may leave. *)
Lemma holds_retires ts p pn pr (gone : gset N) : holds_ok ts p pn pr ->
  (forall tid, tid ∈ gone -> exists t, ts !! tid = Some t /\ suspended (t_phase t) = false) ->
  holds_ok ts p pn (filter (fun q : N * Outputs => q.1 ∉ gone) pr).
Proof.
  intros [Hp Hc Hpr Hr Hh Hsame Hwork] Hover. constructor; [done|done| |done|done|..].
  - intros x o [Hx _]%map_lookup_filter_Some. by apply Hpr.
  - intros x tx o o' Hx Ho [Hin _]%map_lookup_filter_Some. by eapply Hsame.
  - intros x tx o Hx Ho Hs. apply map_lookup_filter_Some. split; [by eapply Hwork|]. cbn. intros Hgone.
    destruct (Hover x Hgone) as (t & Ht & Hno). congruence.
Qed.

(** A run ends once all its tasks are over. *)
Lemma holds_end ts p pn pr run held : holds_ok ts p pn pr -> pn !! run = Some held ->
  (forall tid t, ts !! tid = Some t -> t_run t = run -> suspended (t_phase t) = false) ->
  holds_ok ts (unpin_all held p) (delete run pn) (filter (fun q : N * Outputs => (t_run <$> ts !! q.1) <> Some run) pr).
Proof.
  intros [Hp Hc Hpr Hr Hh Hsame Hwork] Hrun Hover.
  assert (Hsum : forall r, Pins.count p r = Z.of_nat (occ held r) + Z.of_nat (map_sum (fun held => occ held r) (delete run pn))).
  { intros r. rewrite Hc. rewrite <- (insert_delete_id pn run held Hrun) at 1. rewrite map_sum_insert_new by apply lookup_delete_eq. lia. }
  destruct (unpin_all_spec held p Hp) as [Hok Hcount]; [intros r; rewrite Hsum; lia|]. constructor; [done|..].
  - intros r. rewrite Hcount, Hsum. lia.
  - intros x o Hx. apply map_lookup_filter_Some in Hx as [Hx Hne]. destruct (Hpr x o Hx) as (tx & hx & Htx & Hheld & Hsub).
    exists tx, hx. split_and!; try done. rewrite lookup_delete_ne; [done|]. intros ->. apply Hne. cbn. by rewrite Htx.
  - intros x tx Hx Hs. rewrite lookup_delete_ne; [by eapply Hr|]. intros Heq. by rewrite (Hover x tx Hx (eq_sym Heq)) in Hs.
  - intros x tx o Hx Ho [hx Halive]. apply lookup_delete_Some in Halive as [Hne Halive]. rewrite lookup_delete_ne by done.
    eapply Hh; [done..|by eexists].
  - intros x tx o o' Hx Ho [Hin _]%map_lookup_filter_Some. by eapply Hsame.
  - intros x tx o Hx Ho Hs. apply map_lookup_filter_Some. split; [by eapply Hwork|]. cbn. rewrite Hx. cbn. intros [= Heq].
    by rewrite (Hover x tx Hx Heq) in Hs.
Qed.

Lemma holds_pins ts p p' pn pr : holds_ok ts p pn pr -> Pins.pins_ok p' -> (forall r, Pins.count p' r = Pins.count p r) -> holds_ok ts p' pn pr.
Proof. intros [Hp Hc Hpr Hr Hh Hsame Hwork] Hok Hcount. constructor; try done. intros r. by rewrite Hcount. Qed.

(** What a live run pinned is pinned, and not condemned. *)
Lemma holds_pinned ts p pn pr run held rid : holds_ok ts p pn pr -> pn !! run = Some held -> rid ∈ held ->
  Pins.pinned p rid = true /\ Pins.condemned p rid = false.
Proof.
  intros [Hp Hc _ _ _ _ _] Hheld Hin. assert (Hpos : 0 < Pins.count p rid).
  { rewrite Hc, <- (insert_delete_id pn run held Hheld), map_sum_insert_new by apply lookup_delete_eq.
    apply list_elem_of_In, (count_occ_In String.string_dec) in Hin. lia. }
  split; [by apply Z.ltb_lt|]. unfold Pins.condemned. apply bool_decide_eq_false_2. intros Hcon. apply (proj2 Hp) in Hcon.
  unfold Pins.count in Hpos. by rewrite Hcon in Hpos.
Qed.

Lemma holds_begin ts p pn pr run : holds_ok ts p pn pr -> pn !! run = None -> (forall tid t, ts !! tid = Some t -> t_run t <> run) ->
  holds_ok ts p (<[run := []]> pn) pr.
Proof.
  intros [Hp Hc Hpr Hr Hh Hsame Hwork] Hnone Hnew. constructor; [done|..].
  - intros r. rewrite Hc, map_sum_insert_new by done. done.
  - intros x o Hx. destruct (Hpr x o Hx) as (tx & hx & Htx & Hheld & Hsub). exists tx, hx. rewrite lookup_insert_ne; [done|congruence].
  - intros x tx Hx Hs. rewrite lookup_insert_ne; [by eapply Hr|]. intros Heq. by apply (Hnew x tx).
  - intros x tx o Hx Ho. rewrite lookup_insert_ne; [by eapply Hh|]. intros Heq. by apply (Hnew x tx).
  - done.
  - done.
Qed.

Lemma holds_arrive ts p pn pr tid t : holds_ok ts p pn pr -> ts !! tid = None -> t_phase t = Begin -> is_Some (pn !! t_run t) ->
  holds_ok (<[tid := t]> ts) p pn pr.
Proof.
  intros [Hp Hc Hpr Hr Hh Hsame Hwork] Hnew Hph Halive. constructor; [done|done|..].
  - intros x o Hx. destruct (Hpr x o Hx) as (tx & hx & Htx & Hheld & Hsub). exists tx, hx. rewrite lookup_insert_ne; [done|congruence].
  - intros x tx Hx. rewrite lookup_task in Hx. case_decide; [by injection Hx as <-|by eapply Hr].
  - intros x tx o Hx. rewrite lookup_task in Hx. case_decide; [|by eapply Hh]. injection Hx as <-. by rewrite Hph.
  - intros x tx o o' Hx. rewrite lookup_task in Hx. case_decide; [|by eapply Hsame]. injection Hx as <-. by rewrite Hph.
  - intros x tx o Hx. rewrite lookup_task in Hx. case_decide; [|by eapply Hwork]. injection Hx as <-. by rewrite Hph.
Qed.
End ledger.
End pinning.

(** * Every step keeps the ledgers *)

Section steps.
Context {X : Type}.
Implicit Types (st : Engine X) (t : Task X).
Variable blake2b : string -> string.
Variable fresh : string -> N.
Variable str_of : pyval -> string.
Variable violation : X.
Variable answers : Task X -> Outputs -> Prop.

Notation moves := (move blake2b fresh str_of violation answers).
Notation steps := (estep blake2b fresh str_of violation answers).
Notation origins t o := (cached_output_origins blake2b fresh str_of (t_label t) (t_schema t) o).
Notation engine_table st := (table_ok (tasks st) (inflight st) (futures st) (next_future st)).
Notation engine_errors st := (errors_ok (tasks st) (futures st) (raised st)).
Notation engine_pins st := (holds_ok (tasks st) (pins st) (pinned st) (produced st)).

Lemma move_errors st st' : engine_table st -> engine_errors st -> moves st st' -> engine_errors st'.
Proof.
  intros Htab Hok Hm. destruct Hm as [tid t st Ht Hc Hs|tid t st Ht _ Hb|tid t f fl st Ht _ Hph Hfl Hdone|tid t o st Ht _ Hph|tid t f st Ht _ Hph
    |tid t f hit st Ht _ Hph _|tid t f o st Ht _ Hph|tid t f o st Ht _ Hph _|tid t f o st Ht _ Hph|tid t f o st Ht _ Hph|tid t x st Ht _ Hr];
    try (assert (Hs : suspended (t_phase t) = true) by by rewrite Hph).
  - unfold cancelled_at. destruct (owned_future (t_phase t)) as [f|]; [by apply errors_conclude|by apply errors_phase].
  - apply errors_enter; [done..|]. by destruct Hb as [-> | ->].
  - unfold resume. destruct (fl_state fl) as [|o|x|] eqn:Hst; [done| | |by apply errors_enter].
    + destruct (dead_owner _ _); [by apply errors_phase|]. unfold pin_outputs. destruct (pin_all _ _) as [[[] p] held]; by apply errors_phase.
    + apply errors_phase; try done. intros y [= <-]. right.
      destruct (to_waiter _ _ _ _ Htab tid t f Ht Hph) as (Hc & fl' & ot & Hfl' & Hot & Hk & Hoc & _).
      assert (fl' = fl) as -> by congruence. split; [done|]. exists (fl_owner fl), ot. split_and!; try done. by eapply (er_crashed _ _ _ Hok).
  - by apply errors_phase.
  - by apply errors_phase.
  - unfold found. destruct (negb _); [by apply errors_phase|]. destruct (dead_owner _ _); [by apply errors_phase|].
    unfold pin_outputs. destruct (pin_all _ _) as [[[] p] held]; by apply errors_phase.
  - by apply errors_conclude.
  - unfold invoked. destruct (dead_owner _ _); [by apply errors_raises|]. unfold pin_outputs. destruct (pin_all _ _) as [[[] p] held].
    + by apply errors_phase.
    + by apply errors_raises.
  - destruct (t_cached t); [by apply errors_phase|by apply errors_conclude].
  - by apply errors_conclude.
  - apply errors_raises; [done..|]. by destruct (t_phase t).
Qed.

Lemma step_errors st st' : engine_table st -> engine_errors st -> steps st st' -> engine_errors st'.
Proof.
  intros Htab Hok [Hm|[He|Ha]]; [by eapply move_errors| |].
  - destruct He as [tid t st Ht|run held st _ _|run gone st _|owner st|rid st|rid st]; try done.
    apply (errors_update (tasks st) (futures st) _ (raised st) _ tid t); try done; auto. intros x Hx. by eapply (er_raised _ _ _ Hok).
  - destruct Ha as [run st _ _|tid t st Hn Hph Hc _]; [done|]. destruct Hok as [Hcr Hca Hr Hl].
    assert (Hb : forall x tx e, blamed (tasks st) (raised st) x tx e -> blamed (<[tid := t]> (tasks st)) (raised st) x tx e).
    { intros x tx e [H|(H1 & o & ot & Hot & H)]; [by left|right]. split; [done|]. exists o, ot. rewrite lookup_insert_ne; [done|congruence]. }
    constructor; cbn; [done|..].
    + intros x tx Hx. rewrite lookup_task in Hx. case_decide; [injection Hx as <-; by rewrite Hph|by eapply Hca].
    + intros x tx e Hx He. rewrite lookup_task in Hx. case_decide; [injection Hx as <-; by rewrite Hph in He|by eapply Hb, Hr].
    + intros x e (tx & Hx & Hover)%Hl. exists tx. rewrite lookup_insert_ne; [done|congruence].
Qed.

(** ** Answers *)

Section right_answers.
Variable right : string -> Outputs -> Prop.
Hypothesis right_alike : forall k o o', right k o -> alike o o' -> right k o'.
Hypothesis answers_right : forall t o, answers t o -> right (t_key t) o.

Notation engine_answers st := (answers_ok right (tasks st) (futures st) (stored st)).

Lemma move_answers st st' : engine_table st -> engine_answers st -> moves st st' -> engine_answers st'.
Proof.
  intros Htab Hok Hm.
  assert (Hor : forall t o, right (t_key t) o -> right (t_key t) (origins t o)) by (intros t o Ho; eapply right_alike; [exact Ho|apply origins_alike]).
  destruct Hm as [tid t st Ht _ _|tid t st Ht _ _|tid t f fl st Ht _ Hph Hfl Hdone|tid t o st Ht _ Hph|tid t f st Ht _ Hph
    |tid t f hit st Ht _ Hph Hhit|tid t f o st Ht _ Hph|tid t f o st Ht _ Hph Ha|tid t f o st Ht _ Hph|tid t f o st Ht _ Hph|tid t x st Ht _ _].
  - unfold cancelled_at. destruct (owned_future (t_phase t)) as [f|]; [apply answers_conclude; try done; by intros o [|]|by apply answers_phase].
  - by apply answers_enter.
  - unfold resume. destruct (fl_state fl) as [|o|x|] eqn:Hst; [done| |by apply answers_phase|by apply answers_enter].
    destruct (to_waiter _ _ _ _ Htab tid t f Ht Hph) as (_ & fl' & ot & Hfl' & Hot & Hk & _). assert (fl' = fl) as -> by congruence.
    assert (Ho : right (t_key t) (origins t o)) by (apply Hor; rewrite <- Hk; by eapply (an_landed _ _ _ _ Hok)).
    destruct (dead_owner _ _); [by apply answers_phase|]. unfold pin_outputs. destruct (pin_all _ _) as [[[] p] held]; apply answers_phase; try done.
    intros o' [= <-]. by right.
  - apply answers_phase; try done. intros o' [= <-]. left. by rewrite Hph.
  - by apply answers_phase.
  - assert (Ho : right (t_key t) (origins t hit)) by (by apply Hor, (an_stored _ _ _ _ Hok)).
    unfold found. destruct (negb _); [by apply answers_phase|]. destruct (dead_owner _ _); [by apply answers_phase|].
    unfold pin_outputs. destruct (pin_all _ _) as [[[] p] held]; apply answers_phase; try done. intros o' [= <-]. by right.
  - assert (right (t_key t) o) by (apply (an_phase _ _ _ _ Hok tid t); [done|by rewrite Hph]).
    apply answers_conclude; try done. by intros o' [[= <-]|[= <-]].
  - apply answers_right in Ha. unfold invoked. destruct (dead_owner _ _); [by apply answers_raises|]. unfold pin_outputs.
    destruct (pin_all _ _) as [[[] p] held]; [|by apply answers_raises]. apply answers_phase; try done. intros o' [= <-]. by right.
  - assert (right (t_key t) o) by (apply (an_phase _ _ _ _ Hok tid t); [done|by rewrite Hph]).
    destruct (t_cached t); [apply answers_phase; try done; intros o' [= <-]; by right|]. apply answers_conclude; try done. by intros o' [[= <-]|[= <-]].
  - assert (right (t_key t) o) by (apply (an_phase _ _ _ _ Hok tid t); [done|by rewrite Hph]).
    apply answers_conclude; [by eapply answers_store|done|]. by intros o' [[= <-]|[= <-]].
  - by apply answers_raises.
Qed.

Lemma step_answers st st' : engine_table st -> engine_answers st -> steps st st' -> engine_answers st'.
Proof.
  intros Htab Hok [Hm|[He|Ha]]; [by eapply move_answers| |].
  - destruct He as [tid t st Ht|run held st _ _|run gone st _|owner st|rid st|rid st]; try done. eapply answers_update; try done; auto.
  - destruct Ha as [run st _ _|tid t st Hn Hph Hc _]; [done|]. destruct Hok as [Hs Hl Hp]. constructor; cbn; [done|..].
    + intros f fl o ot Hf Hst Hot. rewrite lookup_task in Hot. case_decide as Hd; [|by eapply Hl].
      destruct (to_flight _ _ _ _ Htab f fl Hf) as [_ [ot' Hot']]. rewrite Hd in Hot'. congruence.
    + intros x tx o Hx. rewrite lookup_task in Hx. case_decide; [injection Hx as <-; by rewrite Hph|by eapply Hp].
Qed.
End right_answers.

(** ** Pins *)

Lemma pins_phase tid t ph st : engine_pins st -> tasks st !! tid = Some t -> suspended (t_phase t) = true ->
  (forall o, holds ph = Some o -> holds (t_phase t) = Some o \/ produced st !! tid = Some o) -> engine_pins (set_phase tid t ph st).
Proof. intros Hok Ht Hs Hph. by eapply holds_task. Qed.

(** Outputs of a task that were pinned may be produced. *)
Lemma pins_accept tid t o o' live p held held0 ph st : engine_pins st -> tasks st !! tid = Some t -> suspended (t_phase t) = true ->
  holds (t_phase t) = None -> pinned st !! t_run t = Some held0 -> pin_all (output_resources o) (pins st) = (live, p, held) ->
  (if live then output_resources o' ⊆ output_resources o /\ holds ph = Some o' else holds ph = None) ->
  holds_ok (<[tid := with_phase t ph]> (tasks st)) p (<[t_run t := held0 ++ held]> (pinned st))
    (if live then <[tid := o']> (produced st) else produced st).
Proof.
  intros Hok Ht Hs Hn Hheld0 Hall Hlive. pose proof (holds_pin _ _ _ _ _ _ _ _ _ _ Hok Hheld0 Hall) as Hok'.
  eapply pin_all_spec in Hall as (_ & _ & Hheld); [|apply Hok]. destruct live.
  - destruct Hlive as [Hsub Hph]. apply (holds_task (tasks st) _ _ _ tid t); try done.
    + apply (holds_produce _ _ _ _ tid t (held0 ++ held)); try done; [by rewrite lookup_insert_eq|]. rewrite (Hheld eq_refl). set_solver.
    + intros o1. cbn. rewrite Hph. intros [= <-]. right. by rewrite lookup_insert_eq.
  - apply (holds_task (tasks st) _ _ _ tid t); try done. intros o1. cbn. by rewrite Hlive.
Qed.

Lemma pins_conclude tid t f s r st : engine_pins st -> tasks st !! tid = Some t -> suspended (t_phase t) = true ->
  (forall o, r = Answered o -> holds (t_phase t) = Some o) -> engine_pins (conclude tid t f s r st).
Proof. intros Hok Ht Hs Hr. eapply holds_task; try done. cbn. intros o Ho. left. destruct r; try done. injection Ho as ->. auto. Qed.

Lemma pins_raises tid t x st : engine_pins st -> tasks st !! tid = Some t -> suspended (t_phase t) = true -> engine_pins (raises_at tid t x st).
Proof.
  intros Hok Ht Hs. unfold raises_at. destruct (owned_future (t_phase t)) as [f|]; [by apply pins_conclude|].
  by apply (pins_phase tid t (Over (RaisedError x)) (log_raised tid x st)).
Qed.

Lemma pins_enter tid t st : engine_pins st -> tasks st !! tid = Some t -> suspended (t_phase t) = true -> engine_pins (enter tid t st).
Proof.
  intros Hok Ht Hs. assert (engine_pins (own tid t st)) by (eapply holds_task; try done; cbn; by destruct (t_cached t)).
  unfold enter. destruct (inflight st !! t_key t); [|done]. destruct (t_cached t); [by apply pins_phase|done].
Qed.

Lemma move_pins st st' : engine_pins st -> moves st st' -> engine_pins st'.
Proof.
  intros Hok Hm. destruct Hm as [tid t st Ht _ Hs|tid t st Ht _ Hb|tid t f fl st Ht _ Hph Hfl Hdone|tid t o st Ht _ Hph|tid t f st Ht _ Hph
    |tid t f hit st Ht _ Hph _|tid t f o st Ht _ Hph|tid t f o st Ht _ Hph _|tid t f o st Ht _ Hph|tid t f o st Ht _ Hph|tid t x st Ht _ Hr];
    try (assert (Hs : suspended (t_phase t) = true) by by rewrite Hph).
  - unfold cancelled_at. destruct (owned_future (t_phase t)) as [f|]; [by apply pins_conclude|by apply pins_phase].
  - apply pins_enter; [done..|]. by destruct Hb as [-> | ->].
  - destruct (ho_run _ _ _ _ Hok tid t Ht Hs) as [held0 Hheld0].
    unfold resume. destruct (fl_state fl) as [|o|x|]; [done| |by apply pins_phase|by apply pins_enter].
    destruct (dead_owner _ _); [by apply pins_phase|]. unfold pin_outputs. rewrite Hheld0.
    destruct (pin_all _ _) as [[live p] held] eqn:Hall.
    assert (Hgo := fun ph o' => pins_accept tid t _ o' live p held held0 ph st Hok Ht Hs (f_equal holds Hph) Hheld0 Hall).
    destruct live; [by apply Hgo|by apply (Hgo Yielding [])].
  - apply pins_phase; [done..|]. intros o' [= <-]. left. by rewrite Hph.
  - by apply pins_phase.
  - destruct (ho_run _ _ _ _ Hok tid t Ht Hs) as [held0 Hheld0].
    unfold found. destruct (negb _); [by apply pins_phase|]. destruct (dead_owner _ _); [by apply pins_phase|]. unfold pin_outputs.
    rewrite Hheld0. destruct (pin_all _ _) as [[live p] held] eqn:Hall.
    assert (Hgo := fun ph o' => pins_accept tid t _ o' live p held held0 ph st Hok Ht Hs (f_equal holds Hph) Hheld0 Hall).
    destruct live; [apply Hgo; split; [apply origins_resources|done]|by apply (Hgo (Invoking f) [])].
  - apply pins_conclude; try done. intros o' [= <-]. by rewrite Hph.
  - destruct (ho_run _ _ _ _ Hok tid t Ht Hs) as [held0 Hheld0].
    unfold invoked. destruct (dead_owner _ _); [by apply pins_raises|]. unfold pin_outputs. rewrite Hheld0.
    destruct (pin_all _ _) as [[live p] held] eqn:Hall.
    assert (Hgo := fun ph o' => pins_accept tid t _ o' live p held held0 ph st Hok Ht Hs (f_equal holds Hph) Hheld0 Hall).
    destruct live; [by apply Hgo|]. apply pins_raises; [|done..].
    pose proof (holds_pin _ _ _ _ _ _ _ _ _ _ Hok Hheld0 Hall) as Hpin. done.
  - destruct (t_cached t); [apply pins_phase|apply pins_conclude]; try done; intros o' [= <-]; [left|]; by rewrite Hph.
  - apply (pins_conclude tid t f (Landed o) (Answered o) (store (t_key t) o st)); try done. intros o' [= <-]. by rewrite Hph.
  - apply pins_raises; [done..|]. by destruct (t_phase t).
Qed.

Lemma step_pins st st' : engine_pins st -> steps st st' -> engine_pins st'.
Proof.
  intros Hok [Hm|[He|Ha]]; [by eapply move_pins| |].
  - destruct He as [tid t st Ht|run held st Hheld Hover|run gone st Hover|owner st|rid st|rid st]; try done.
    + eapply holds_task; try done. intros o Ho. by left.
    + by apply holds_end.
    + apply holds_retires; [done|]. intros tid Hgone. destruct (Hover tid Hgone) as (t & ? & _ & ?). by exists t.
    + eapply holds_pins; [exact Hok|eapply Pins.pins_step_ok; [apply Hok|constructor]|]. intros r. cbn. unfold Pins.condemn.
      by destruct (_ || _).
    + eapply holds_pins; [exact Hok|eapply Pins.pins_step_ok; [apply Hok|constructor]|]. done.
  - destruct Ha as [run st Hn Hnew|tid t st Hn Hph _ Hrun]; [by apply holds_begin|by apply holds_arrive].
Qed.

(** ** From a fresh engine *)

Notation reachable contents st := (star steps (engine_init contents) st).

Lemma reachable_table contents st : reachable contents st -> engine_table st.
Proof. intros H. apply (star_invariant steps (fun st => engine_table st)) in H; [done|intros ??; apply step_table|by constructor]. Qed.

Lemma reachable_errors contents st : reachable contents st -> engine_errors st.
Proof.
  intros H. assert (Hboth : engine_table st /\ engine_errors st); [|by apply Hboth].
  apply (star_invariant steps (fun st => engine_table st /\ engine_errors st)) in H; [done|..].
  - intros st1 st2 [Htab Herr] Hs. split; [by eapply step_table|by eapply step_errors].
  - split; constructor; try done. by intros ?? ?%not_elem_of_nil.
Qed.

Lemma reachable_pins contents st : reachable contents st -> engine_pins st.
Proof.
  intros H. apply (star_invariant steps (fun st => engine_pins st)) in H; [done|intros ??; apply step_pins|by constructor].
Qed.

Lemma reachable_answers right contents st : (forall k o o', right k o -> alike o o' -> right k o') ->
  (forall t o, answers t o -> right (t_key t) o) -> (forall k o, (k, o) ∈ contents -> right k o) -> reachable contents st ->
  answers_ok right (tasks st) (futures st) (stored st).
Proof.
  intros Ha Hr Hc H. assert (Hboth : engine_table st /\ answers_ok right (tasks st) (futures st) (stored st)); [|by apply Hboth].
  apply (star_invariant steps (fun st => engine_table st /\ answers_ok right (tasks st) (futures st) (stored st))) in H; [done|..].
  - intros st1 st2 [Htab Hok] Hs. split; [by eapply step_table|by eapply step_answers].
  - split; by constructor.
Qed.
End steps.

(** * Moves run out *)

Section settling.
Context {X : Type}.
Implicit Types (st : Engine X) (t : Task X) (ts : gmap N (Task X)) (fs : gmap N (Flight X)).
Variable blake2b : string -> string.
Variable fresh : string -> N.
Variable str_of : pyval -> string.
Variable violation : X.
Variable answers : Task X -> Outputs -> Prop.

Notation moves := (move blake2b fresh str_of violation answers).
Notation engine_table st := (table_ok (tasks st) (inflight st) (futures st) (next_future st)).

(** [n] moves, and any number of events, without a new task. *)
Inductive settles : nat -> Engine X -> Engine X -> Prop :=
| settled st : settles 0 st st
| settles_move n st1 st2 st3 : moves st1 st2 -> settles n st2 st3 -> settles (S n) st1 st3
| settles_event n st1 st2 st3 : event st1 st2 -> settles n st2 st3 -> settles n st1 st3.

Definition pending fs (f : N) : bool := match fs !! f with Some {| fl_state := Pending |} => true | _ => false end.

(** How far from over a task among [n] is: a waiter whose future is done is
    further than one that waits, for it may have to begin again. *)
Definition effort (n : nat) fs t : nat :=
  match t_phase t with
  | Over _ => 0
  | Begin => 4 * n + 9
  | Waiting f => 4 * n + (if pending fs f then 7 else 11)
  | Yielding => 4 * n + 10
  | Joined _ => 4 * n + 4
  | Looking _ => 4 * n + 6
  | Invoking _ => 4 * n + 5
  | HitPublishing _ _ | Publishing _ _ => 4 * n + 4
  | Putting _ _ => 4 * n + 3
  end.

Definition efforts st : nat := map_sum (effort (size (tasks st)) (futures st)) (tasks st).

Lemma map_sum_le {V} (f g : V -> nat) c (m : gmap N V) : (forall k v, m !! k = Some v -> f v <= g v + c) -> map_sum f m <= map_sum g m + c * size m.
Proof.
  induction m as [|k v m Hk IH] using map_ind; intros Hle; [unfold map_sum; rewrite map_to_list_empty; cbn; lia|]. rewrite !map_sum_insert_new, map_size_insert_None by done.
  pose proof (Hle k v (lookup_insert_eq m k v)). assert (map_sum f m <= map_sum g m + c * size m); [|lia].
  apply IH. intros k' v' Hv'. apply (Hle k'). rewrite lookup_insert_ne; [done|congruence].
Qed.

(** One task moves, the others gain at most [c]. *)
Lemma efforts_update ts fs fs' tid t t' c : ts !! tid = Some t -> 
  (forall x tx, ts !! x = Some tx -> effort (size ts) fs' tx <= effort (size ts) fs tx + c) ->
  effort (size ts) fs' t' + c * size ts < effort (size ts) fs' t ->
  map_sum (effort (size (<[tid := t']> ts)) fs') (<[tid := t']> ts) < map_sum (effort (size ts) fs) ts.
Proof.
  intros Ht Hle Hlt. rewrite map_size_insert_Some by (by eexists).
  pose proof (map_sum_insert (effort (size ts) fs') ts tid t' t Ht). pose proof (map_sum_le _ _ _ _ Hle). lia.
Qed.

Lemma efforts_phase st0 tid t ph st : tasks st0 = tasks st -> futures st0 = futures st -> tasks st !! tid = Some t ->
  effort (size (tasks st)) (futures st) (with_phase t ph) < effort (size (tasks st)) (futures st) t -> efforts (set_phase tid t ph st0) < efforts st.
Proof.
  intros Hts Hfs Ht Hlt. unfold efforts. cbn. rewrite Hts, Hfs.
  apply (efforts_update (tasks st) (futures st) (futures st) tid t (with_phase t ph) 0 Ht); [intros; lia|lia].
Qed.

(** An owner ends: whoever waited for it may have to begin again. *)
Lemma efforts_conclude st0 tid t f s r st : tasks st0 = tasks st -> futures st0 = futures st -> tasks st !! tid = Some t ->
  owned_future (t_phase t) = Some f -> efforts (conclude tid t f s r st0) < efforts st.
Proof.
  intros Hts Hfs Ht Hown. unfold efforts. cbn. rewrite Hts, Hfs. apply (efforts_update (tasks st) (futures st) _ tid t _ 4 Ht).
  - intros x tx _. unfold effort. destruct (t_phase tx); try lia. repeat (destruct (pending _ _)); lia.
  - unfold effort. cbn. destruct (t_phase t); cbn in Hown; try done; lia.
Qed.

(** A new future is nobody's yet. *)
Lemma efforts_own tid t st : engine_table st -> tasks st !! tid = Some t ->
  4 * size (tasks st) + 6 < effort (size (tasks st)) (futures st) t -> efforts (own tid t st) < efforts st.
Proof.
  intros Htab Ht Hlt.
  set (fs' := <[next_future st := {| fl_owner := tid; fl_state := Pending |}]> (futures st)).
  assert (Hsame : forall x tx, tasks st !! x = Some tx -> effort (size (tasks st)) fs' tx = effort (size (tasks st)) (futures st) tx).
  { intros x tx Hx. unfold effort. destruct (t_phase tx) eqn:Hph; try done. unfold pending, fs'. rewrite lookup_insert_ne; [done|].
    destruct (to_waiter _ _ _ _ Htab x tx f Hx Hph) as (_ & fl & _ & Hfl & _). destruct (to_flight _ _ _ _ Htab f fl Hfl). lia. }
  apply (efforts_update (tasks st) (futures st) fs' tid t _ 0 Ht).
  - intros x tx Hx. rewrite (Hsame x tx Hx). lia.
  - rewrite (Hsame tid t Ht). unfold effort at 1. cbn. destruct (t_cached t); cbn; lia.
Qed.

Lemma efforts_enter tid t st : engine_table st -> tasks st !! tid = Some t ->
  4 * size (tasks st) + 7 < effort (size (tasks st)) (futures st) t -> efforts (enter tid t st) < efforts st.
Proof.
  intros Htab Ht Hlt. assert (efforts (own tid t st) < efforts st) by (apply efforts_own; try done; lia).
  unfold enter. destruct (inflight st !! t_key t) as [f|] eqn:Hf; [|done]. destruct (t_cached t); [|done].
  apply efforts_phase; [done..|]. unfold effort at 1. cbn.
  destruct (to_entry _ _ _ _ Htab _ _ Hf) as (o & ot & Hot & Hown & _). destruct (to_owner _ _ _ _ Htab o ot f Hot Hown) as [Hfl _].
  unfold pending. rewrite Hfl. cbn. lia.
Qed.

Lemma efforts_raises st0 tid t x st : tasks st0 = tasks st -> futures st0 = futures st -> tasks st !! tid = Some t ->
  suspended (t_phase t) = true -> efforts (raises_at tid t x st0) < efforts st.
Proof.
  intros Hts Hfs Ht Hs. unfold raises_at. destruct (owned_future (t_phase t)) as [f|] eqn:Ho; [by apply efforts_conclude|].
  apply efforts_phase; [done..|]. unfold effort. cbn. destruct (t_phase t); try done; try destruct (pending _ _); lia.
Qed.

Lemma move_effort st st' : engine_table st -> moves st st' -> efforts st' < efforts st.
Proof.
  intros Htab Hm. destruct Hm as [tid t st Ht _ Hs|tid t st Ht _ Hb|tid t f fl st Ht _ Hph Hfl Hdone|tid t o st Ht _ Hph|tid t f st Ht _ Hph
    |tid t f hit st Ht _ Hph _|tid t f o st Ht _ Hph|tid t f o st Ht _ Hph _|tid t f o st Ht _ Hph|tid t f o st Ht _ Hph|tid t x st Ht _ Hr];
    try (assert (Heff : effort (size (tasks st)) (futures st) t = effort (size (tasks st)) (futures st) (with_phase t (t_phase t))) by done;
         rewrite Hph in Heff; cbn in Heff);
    try (assert (Hs : suspended (t_phase t) = true) by by rewrite Hph).
  - unfold cancelled_at. destruct (owned_future (t_phase t)) as [f|] eqn:Ho; [by apply efforts_conclude|].
    apply efforts_phase; [done..|]. unfold effort. cbn. destruct (t_phase t); try done; try destruct (pending _ _); lia.
  - apply efforts_enter; [done..|]. unfold effort. destruct Hb as [-> | ->]; lia.
  - assert (Hpend : pending (futures st) f = false) by (unfold pending; rewrite Hfl; by destruct fl as [? []]).
    rewrite Hpend in Heff.
    unfold resume. destruct (fl_state fl) as [|o|x|]; [done| | |apply efforts_enter; try done; lia].
    + destruct (dead_owner _ _); [apply efforts_phase; [done..|]; rewrite Heff; cbn; lia|]. unfold pin_outputs.
      destruct (pin_all _ _) as [[[] p] held]; (apply efforts_phase; [done..|]; rewrite Heff; cbn; lia).
    + apply efforts_phase; [done..|]. rewrite Heff. cbn. lia.
  - apply efforts_phase; [done..|]. rewrite Heff. cbn. lia.
  - apply efforts_phase; [done..|]. rewrite Heff. cbn. lia.
  - unfold found. destruct (negb _); [apply efforts_phase; [done..|]; rewrite Heff; cbn; lia|].
    destruct (dead_owner _ _); [apply efforts_phase; [done..|]; rewrite Heff; cbn; lia|]. unfold pin_outputs.
    destruct (pin_all _ _) as [[[] p] held]; (apply efforts_phase; [done..|]; rewrite Heff; cbn; lia).
  - apply efforts_conclude; by rewrite ?Hph.
  - unfold invoked. destruct (dead_owner _ _); [by apply efforts_raises|]. unfold pin_outputs. destruct (pin_all _ _) as [[[] p] held].
    + apply efforts_phase; [done..|]. rewrite Heff. cbn. lia.
    + by apply efforts_raises.
  - destruct (t_cached t); [apply efforts_phase; [done..|]; rewrite Heff; cbn; lia|apply efforts_conclude; by rewrite ?Hph].
  - apply efforts_conclude; by rewrite ?Hph.
  - apply efforts_raises; [done..|]. by destruct (t_phase t).
Qed.

Lemma event_effort st st' : event st st' -> efforts st' = efforts st.
Proof.
  intros [tid t st1 Ht|run held st1 _ _|run gone st1 _|owner st1|rid st1|rid st1]; try done. unfold efforts. cbn.
  rewrite map_size_insert_Some by (by eexists).
  pose proof (map_sum_insert (effort (size (tasks st1)) (futures st1)) (tasks st1) tid (cancel t) t Ht) as H.
  assert (Hsame : effort (size (tasks st1)) (futures st1) (cancel t) = effort (size (tasks st1)) (futures st1) t) by done. lia.
Qed.

Lemma move_size st st' : moves st st' -> size (tasks st') = size (tasks st).
Proof.
  assert (Hset : forall tid t t', tasks st !! tid = Some t -> size (<[tid := t']> (tasks st)) = size (tasks st)).
  { intros tid t t' Ht. apply map_size_insert_Some. by eexists. }
  assert (Henter : forall tid t, tasks st !! tid = Some t -> size (tasks (enter tid t st)) = size (tasks st)).
  { intros tid t Ht. unfold enter. destruct (inflight st !! t_key t); [destruct (t_cached t)|]; by eapply Hset. }
  assert (Hraise : forall tid t x st0, tasks st0 = tasks st -> tasks st !! tid = Some t -> size (tasks (raises_at tid t x st0)) = size (tasks st)).
  { intros tid t x st0 Hts Ht. unfold raises_at. destruct (owned_future (t_phase t)); cbn; rewrite Hts; by eapply Hset. }
  intros Hm. destruct Hm as [tid t st Ht _ _|tid t st Ht _ _|tid t f fl st Ht _ _ _ _|tid t o st Ht _ _|tid t f st Ht _ _
    |tid t f hit st Ht _ _ _|tid t f o st Ht _ _|tid t f o st Ht _ _ _|tid t f o st Ht _ _|tid t f o st Ht _ _|tid t x st Ht _ _];
    try (by eapply Hset); try (by eapply Henter); try (by eapply Hraise).
  - unfold cancelled_at. destruct (owned_future (t_phase t)); by eapply Hset.
  - unfold resume. destruct (fl_state fl); [done| |by eapply Hset|by eapply Henter]. destruct (dead_owner _ _); [by eapply Hset|].
    unfold pin_outputs. destruct (pin_all _ _) as [[[] p] held]; by eapply Hset.
  - unfold found. destruct (negb _); [by eapply Hset|]. destruct (dead_owner _ _); [by eapply Hset|].
    unfold pin_outputs. destruct (pin_all _ _) as [[[] p] held]; by eapply Hset.
  - unfold invoked. destruct (dead_owner _ _); [by eapply Hraise|]. unfold pin_outputs. destruct (pin_all _ _) as [[[] p] held]; [by eapply Hset|by eapply Hraise].
  - destruct (t_cached t); by eapply Hset.
Qed.

Lemma settles_effort n st st' : settles n st st' -> engine_table st ->
  n + efforts st' <= efforts st /\ engine_table st' /\ size (tasks st') = size (tasks st).
Proof.
  intros H. induction H as [st|n st1 st2 st3 Hm _ IH|n st1 st2 st3 He _ IH]; intros Htab; [by split|..].
  - pose proof (move_effort _ _ Htab Hm). destruct (IH (move_table _ _ _ _ _ _ _ Htab Hm)) as (Hn & Htab' & Hsize).
    split_and!; [lia|done|]. rewrite Hsize. by eapply move_size.
  - rewrite <- (event_effort _ _ He). destruct IH as (Hn & Htab' & Hsize); [|split_and!; try done].
    + eapply (step_table blake2b fresh str_of violation answers); [exact Htab|]. right. by left.
    + rewrite Hsize. destruct He; try done. cbn. by rewrite map_size_insert_Some.
Qed.

Lemma settles_star n st st' : settles n st st' -> star (estep blake2b fresh str_of violation answers) st st'.
Proof.
  induction 1 as [st|n st1 st2 st3 Hm _ IH|n st1 st2 st3 He _ IH]; [apply star_refl|..].
  - eapply star_step; [by left|done].
  - eapply star_step; [by right; left|done].
Qed.

Lemma efforts_bound st : efforts st <= size (tasks st) * (4 * size (tasks st) + 11).
Proof.
  assert (H : efforts st <= map_sum (fun _ => 0) (tasks st) + (4 * size (tasks st) + 11) * size (tasks st)).
  { apply map_sum_le. intros _ t _. unfold effort. destruct (t_phase t); try destruct (pending _ _); lia. }
  assert (Hz : map_sum (fun _ : Task X => 0) (tasks st) = 0); [|lia]. generalize (tasks st). intros m.
  induction m as [|k v m Hk IH] using map_ind; [unfold map_sum; by rewrite map_to_list_empty|]. by rewrite map_sum_insert_new.
Qed.

(** As long as a task is not over, some task can go on. *)
Lemma moves_on tid t st : engine_table st -> tasks st !! tid = Some t -> suspended (t_phase t) = true -> exists st', moves st st'.
Proof.
  intros Htab. assert (Hgo : forall tid t, tasks st !! tid = Some t -> may_raise (t_phase t) = true -> exists st', moves st st').
  { intros x tx Hx Hr. destruct (t_cancelling tx) eqn:Hc; [|by eexists; eapply (m_raises _ _ _ _ _ x tx violation)].
    eexists. eapply m_cancelled; try done. by destruct (t_phase tx). }
  intros Ht Hs. destruct (may_raise (t_phase t)) eqn:Hmay; [by eapply Hgo|]. destruct (t_cancelling t) eqn:Hc; [eexists; by eapply m_cancelled|].
  destruct (t_phase t) as [|f| | | | | | | |] eqn:Hph; try done.
  - eexists. eapply m_begin; [done..|by left].
  - destruct (to_waiter _ _ _ _ Htab tid t f Ht Hph) as (_ & fl & ot & Hfl & Hot & _ & _ & Hpend).
    destruct (fl_state fl) eqn:Hst; try (eexists; apply (m_resume _ _ _ _ _ tid t f fl); [done..|by rewrite Hst]).
    specialize (Hpend eq_refl). eapply Hgo; [exact Hot|]. by destruct (t_phase ot).
  - eexists. eapply m_begin; [done..|by right].
Qed.
End settling.

(** * Correctness *)

Section correctness.
Context {X : Type}.
Variable blake2b : string -> string.
Variable fresh : string -> N.
Variable str_of : pyval -> string.
Variable violation : X.
Variable answers : Task X -> Outputs -> Prop.

Notation moves := (move blake2b fresh str_of violation answers).
Notation reachable contents st := (star (estep blake2b fresh str_of violation answers) (engine_init contents) st).

(** C15: one computation at a time per cache key, across the runs of an engine:
    two tasks of the same key that share the cache are never both at work; the
    table holds exactly the futures of the tasks that are; and whoever waits
    for a future that is not done waits for another task, of its own key, that
    is at work on it. *)
Theorem single_flight (contents : list (string * Outputs)) (st : Engine X) : reachable contents st ->
  (forall tid1 t1 f1 tid2 t2 f2, tasks st !! tid1 = Some t1 -> tasks st !! tid2 = Some t2 -> t_cached t1 = true -> t_cached t2 = true ->
     owned_future (t_phase t1) = Some f1 -> owned_future (t_phase t2) = Some f2 -> t_key t1 = t_key t2 -> tid1 = tid2)
  /\ (forall k f, inflight st !! k = Some f <->
        exists tid t, tasks st !! tid = Some t /\ t_cached t = true /\ t_key t = k /\ owned_future (t_phase t) = Some f)
  /\ (forall tid t f, tasks st !! tid = Some t -> t_phase t = Waiting f -> pending (futures st) f = true ->
        exists o ot, o <> tid /\ tasks st !! o = Some ot /\ t_cached ot = true /\ t_key ot = t_key t /\ owned_future (t_phase ot) = Some f).
Proof.
  intros [He Ho Hw Hf]%reachable_table. split_and!.
  - intros tid1 t1 f1 tid2 t2 f2 H1 H2 Hc1 Hc2 Ho1 Ho2 Hk. destruct (Ho _ _ _ H1 Ho1) as [Hf1 Ht1]. destruct (Ho _ _ _ H2 Ho2) as [Hf2 Ht2].
    specialize (Ht1 Hc1). specialize (Ht2 Hc2). congruence.
  - intros k f. split; [intros (tid & t & Hs)%He; exists tid, t; naive_solver|].
    intros (tid & t & Ht & Hc & <- & Hown). by apply (Ho tid t f Ht Hown).
  - intros tid t f Ht Hph Hp. destruct (Hw tid t f Ht Hph) as (Hc & fl & ot & Hfl & Hot & Hk & Hoc & Hpend).
    assert (Hown : owned_future (t_phase ot) = Some f) by (apply Hpend; unfold pending in Hp; rewrite Hfl in Hp; by destruct fl as [? []]).
    exists (fl_owner fl), ot. split_and!; try done. intros Heq. rewrite Heq in Hot. assert (ot = t) as -> by congruence. by rewrite Hph in Hown.
Qed.

(** C16: nothing hangs and nothing is retried for ever: with the tasks an
    engine has, and whatever is cancelled, dies, is condemned or ends
    meanwhile, tasks move at most [n * (4 * n + 11)] times; and when no task
    can move, every task is over. *)
Theorem flights_land (contents : list (string * Outputs)) (st st' : Engine X) (n : nat) : reachable contents st ->
  settles blake2b fresh str_of violation answers n st st' ->
  n <= size (tasks st) * (4 * size (tasks st) + 11)
  /\ ((~ exists st'', moves st' st'') -> forall tid t, tasks st' !! tid = Some t -> exists r, t_phase t = Over r).
Proof.
  intros Htab%reachable_table Hs. destruct (settles_effort _ _ _ _ _ _ _ _ Hs Htab) as (Hn & Htab' & _).
  pose proof (efforts_bound st). split; [lia|]. intros Hstuck tid t Ht. destruct (suspended (t_phase t)) eqn:Hsus.
  - destruct Hstuck. by eapply moves_on.
  - destruct (t_phase t); try done. by eexists.
Qed.

(** C17: cancellation is private and failures are shared: a task that ends
    cancelled was itself asked to, whatever became of the task it waited for;
    and a task that ends with an error raised it itself or waited for a task
    of its own key that did. *)
Theorem cancellation_is_private (contents : list (string * Outputs)) (st : Engine X) tid (t : Task X) r : reachable contents st ->
  tasks st !! tid = Some t -> t_phase t = Over r ->
  match r with
  | Answered _ => True
  | Cancelled => t_cancelling t = true
  | RaisedError x => exists o ot, tasks st !! o = Some ot /\ (o, x) ∈ raised st /\ t_phase ot = Over (RaisedError x)
      /\ (o = tid \/ t_cached t = true /\ t_cached ot = true /\ t_key ot = t_key t)
  end.
Proof.
  intros Hok%reachable_errors Ht Hph. destruct r as [|x|]; [done| |by eapply (er_cancelled _ _ _ Hok)].
  destruct (er_raised _ _ _ Hok tid t x Ht Hph) as [Hin|(Hc & o & ot & Hot & Hk & Hoc & Hin)].
  - exists tid, t. split_and!; try done. by left.
  - exists o, ot. destruct (er_log _ _ _ Hok o x Hin) as (ot' & Hot' & Hover). assert (ot' = ot) as -> by congruence. split_and!; try done. by right.
Qed.

(** C18: answers belong to their key: if what workers answer is right for a
    task's key, and so is what the cache had at the start, then so is every
    answer, whether it was computed, found in the cache or shared, for every
    notion of right that does not look at who produced an absent value. *)
Theorem answers_keep_their_key (right : string -> Outputs -> Prop) (contents : list (string * Outputs)) (st : Engine X) tid (t : Task X) o :
  (forall k o o', right k o -> alike o o' -> right k o') -> (forall t o, answers t o -> right (t_key t) o) ->
  (forall k o, (k, o) ∈ contents -> right k o) -> reachable contents st ->
  tasks st !! tid = Some t -> t_phase t = Over (Answered o) -> right (t_key t) o.
Proof.
  intros Ha Hr Hc H%(reachable_answers _ _ _ _ _ right) Ht Hph; try done. apply (an_phase _ _ _ _ H tid t); [done|by rewrite Hph].
Qed.

(** C19: outputs stay resolvable while their run lives.  What a task at work
    is about to answer is in [produced], and once it is over its entry there
    is that answer until it retires; as long as the run lives, retired or not,
    every resource an answer refers to is pinned and not condemned, and so is
    every resource of whatever is in [produced], which holds outputs of live
    runs only; and nothing stays pinned once every run has ended. *)
Theorem live_outputs_stay_pinned (contents : list (string * Outputs)) (st : Engine X) : reachable contents st ->
  (forall tid t o, tasks st !! tid = Some t -> holds (t_phase t) = Some o -> is_Some (pinned st !! t_run t) ->
     (suspended (t_phase t) = true -> produced st !! tid = Some o)
     /\ (produced st !! tid = Some o \/ produced st !! tid = None)
     /\ forall rid, rid ∈ output_resources o -> Pins.pinned (pins st) rid = true /\ Pins.condemned (pins st) rid = false)
  /\ (forall tid o, produced st !! tid = Some o -> exists t, tasks st !! tid = Some t /\ is_Some (pinned st !! t_run t)
       /\ forall rid, rid ∈ output_resources o -> Pins.pinned (pins st) rid = true /\ Pins.condemned (pins st) rid = false)
  /\ (pinned st = ∅ -> forall rid, Pins.pinned (pins st) rid = false).
Proof.
  intros Hok%reachable_pins. split_and!.
  - intros tid t o Ht Ho Halive. split_and!.
    + by eapply ho_working.
    + destruct (produced st !! tid) as [o'|] eqn:Hin; [left|by right]. by rewrite (ho_same _ _ _ _ Hok tid t o o' Ht Ho Hin).
    + intros rid Hrid. destruct (ho_holds _ _ _ _ Hok tid t o Ht Ho Halive) as (held & Hheld & Hsub). by eapply holds_pinned, Hsub.
  - intros tid o Hin. destruct (ho_produced _ _ _ _ Hok tid o Hin) as (t & held & Ht & Hheld & Hsub). exists t.
    split_and!; [done|by eexists|]. intros rid Hrid. by eapply holds_pinned, Hsub.
  - intros Hnone rid. unfold Pins.pinned. rewrite (ho_count _ _ _ _ Hok rid), Hnone. unfold map_sum. by rewrite map_to_list_empty.
Qed.
End correctness.

(** * On an engine with three tasks of one key *)

Definition demo_schema : NodeSchema :=
  mkNodeSchema "demo.load" None [] [plain_output "model" (concrete_of "demo.model") "" false] [] [] [] [] []
    true [] false None None "normal" [] [] false false false false None None [] None None None [] None.

Definition demo_out : Outputs := [("model", mkValue "demo.model" "f" [(RESOURCE_ID_META_KEY, VStr "weights")] (Opaque 1))].
Definition demo_answers (t : Task string) (o : Outputs) : Prop := o = demo_out.

Definition demo_begin (label : string) : Task string :=
  {| t_run := "run"; t_label := label; t_schema := demo_schema; t_key := "key"; t_cached := true; t_cancelling := false; t_phase := Begin |}.
Definition demo_task (tid : N) (st : Engine string) : Task string := default (demo_begin "") (tasks st !! tid).

Notation demo_move := (move id (fun _ => 0%N) (fun _ => "") "gone" demo_answers).
Notation demo_step := (estep id (fun _ => 0%N) (fun _ => "") "gone" demo_answers).

(** One is at work, one waits for it. *)
Definition demo_1 := run_begins "run" (@engine_init string []).
Definition demo_2 := arrive 0 (demo_begin "a") demo_1.
Definition demo_3 := arrive 1 (demo_begin "b") demo_2.
Definition demo_4 := enter 0 (demo_task 0 demo_3) demo_3.
Definition demo_5 := set_phase 0 (demo_task 0 demo_4) (Invoking 0) demo_4.
Definition demo_6 := enter 1 (demo_task 1 demo_5) demo_5.

(** The worker answers, both have the answer. *)
Definition demo_7 := invoked "gone" 0 (demo_task 0 demo_6) 0 demo_out demo_6.
Definition demo_8 := set_phase 0 (demo_task 0 demo_7) (Putting 0 demo_out) demo_7.
Definition demo_9 := conclude 0 (demo_task 0 demo_8) 0 (Landed demo_out) (Answered demo_out) (store "key" demo_out demo_8).
Definition demo_10 := resume id (fun _ => 0%N) (fun _ => "") 1 (demo_task 1 demo_9) (Landed demo_out) demo_9.
Definition demo_11 := set_phase 1 (demo_task 1 demo_10) (Over (Answered demo_out)) demo_10.

(** Or the first is cancelled, the second takes over and raises before a third. *)
Definition demo_c7 := arrive 0 (cancel (demo_task 0 demo_6)) demo_6.
Definition demo_c8 := cancelled_at 0 (demo_task 0 demo_c7) demo_c7.
Definition demo_c9 := resume id (fun _ => 0%N) (fun _ => "") 1 (demo_task 1 demo_c8) Abandoned demo_c8.
Definition demo_c10 := arrive 2 (demo_begin "c") demo_c9.
Definition demo_c11 := enter 2 (demo_task 2 demo_c10) demo_c10.
Definition demo_c12 := raises_at 1 (demo_task 1 demo_c11) "boom" demo_c11.
Definition demo_c13 := resume id (fun _ => 0%N) (fun _ => "") 2 (demo_task 2 demo_c12) (Crashed "boom") demo_c12.

Lemma demo_shares : star demo_step (engine_init []) demo_6.
Proof.
  apply (star_step _ _ demo_1); [right; right; apply a_run; [done|done]|].
  apply (star_step _ _ demo_2); [right; right; by apply a_task; [..|eexists]|].
  apply (star_step _ _ demo_3); [right; right; by apply a_task; [..|eexists]|].
  apply (star_step _ _ demo_4); [left; apply m_begin; [done..|by left]|].
  apply (star_step _ _ demo_5); [left; by apply m_miss|].
  apply star_one. left. apply m_begin; [done..|by left].
Qed.

Lemma demo_lands : settles id (fun _ => 0%N) (fun _ => "") "gone" demo_answers 5 demo_6 demo_11.
Proof.
  apply (settles_move _ _ _ _ _ _ _ demo_7); [by apply m_invoked|].
  apply (settles_move _ _ _ _ _ _ _ demo_8); [by apply (m_published _ _ _ _ _ 0 (demo_task 0 demo_7))|].
  apply (settles_move _ _ _ _ _ _ _ demo_9); [by apply (m_put _ _ _ _ _ 0 (demo_task 0 demo_8))|].
  apply (settles_move _ _ _ _ _ _ _ demo_10).
  { by apply (m_resume _ _ _ _ _ 1 (demo_task 1 demo_9) 0 {| fl_owner := 0; fl_state := Landed demo_out |}). }
  apply (settles_move _ _ _ _ _ _ _ demo_11); [by apply m_joined|]. constructor.
Qed.

Lemma demo_answered : star demo_step (engine_init []) demo_11.
Proof.
  transitivity demo_6; [exact demo_shares|]. eapply settles_star. exact demo_lands.
Qed.

Lemma demo_fails : star demo_step (engine_init []) demo_c13.
Proof.
  transitivity demo_6; [exact demo_shares|].
  apply (star_step _ _ demo_c7); [right; left; by apply e_cancel|].
  apply (star_step _ _ demo_c8); [left; by apply m_cancelled|].
  apply (star_step _ _ demo_c9).
  { left. by apply (m_resume _ _ _ _ _ 1 (demo_task 1 demo_c8) 0 {| fl_owner := 0; fl_state := Abandoned |}). }
  apply (star_step _ _ demo_c10); [right; right; by apply a_task; [..|eexists]|].
  apply (star_step _ _ demo_c11); [left; apply m_begin; [done..|by left]|].
  apply (star_step _ _ demo_c12); [left; by apply m_raises|].
  apply star_one. left. by apply (m_resume _ _ _ _ _ 2 (demo_task 2 demo_c12) 1 {| fl_owner := 1; fl_state := Crashed "boom" |}).
Qed.

Lemma single_flight_witness : star demo_step (engine_init []) demo_6 /\ inflight demo_6 !! "key" = Some 0%N
  /\ exists o ot, o <> 1%N /\ tasks demo_6 !! o = Some ot /\ t_cached ot = true /\ t_key ot = "key" /\ owned_future (t_phase ot) = Some 0%N.
Proof.
  pose proof (single_flight id (fun _ => 0%N) (fun _ => "") "gone" demo_answers [] demo_6 demo_shares) as (_ & _ & Hw).
  split_and!; [exact demo_shares|reflexivity|]. apply (Hw 1%N (demo_task 1 demo_6)); reflexivity.
Defined.

Lemma flights_land_witness : settles id (fun _ => 0%N) (fun _ => "") "gone" demo_answers 5 demo_6 demo_11 /\ 5 <= 2 * (4 * 2 + 11).
Proof.
  split; [exact demo_lands|].
  exact (proj1 (flights_land id (fun _ => 0%N) (fun _ => "") "gone" demo_answers [] demo_6 demo_11 5 demo_shares demo_lands)).
Defined.

Lemma cancellation_is_private_witness : t_phase (demo_task 0 demo_c13) = Over Cancelled /\ t_cancelling (demo_task 1 demo_c13) = false
  /\ t_phase (demo_task 2 demo_c13) = Over (RaisedError "boom")
  /\ exists o ot, tasks demo_c13 !! o = Some ot /\ (o, "boom") ∈ raised demo_c13 /\ t_phase ot = Over (RaisedError "boom")
      /\ (o = 2%N \/ true = true /\ t_cached ot = true /\ t_key ot = "key").
Proof.
  split_and!; [reflexivity..|].
  exact (cancellation_is_private id (fun _ => 0%N) (fun _ => "") "gone" demo_answers [] demo_c13 2%N (demo_task 2 demo_c13) (RaisedError "boom")
    demo_fails eq_refl eq_refl).
Defined.

Lemma answers_keep_their_key_witness : star demo_step (engine_init []) demo_11 /\ t_phase (demo_task 1 demo_11) = Over (Answered demo_out) /\ alike demo_out demo_out.
Proof.
  split_and!; [exact demo_answered|reflexivity|].
  apply (answers_keep_their_key id (fun _ => 0%N) (fun _ => "") "gone" demo_answers (fun _ => alike demo_out) [] demo_11 1%N (demo_task 1 demo_11) demo_out).
  - intros _ o o'. apply alike_trans.
  - intros t o ->. apply alike_refl.
  - by intros k o H%not_elem_of_nil.
  - exact demo_answered.
  - reflexivity.
  - reflexivity.
Defined.

(** Both tasks are over and the outputs of one retire: they stay pinned. *)
Definition demo_12 : Engine string := retires {[1%N]} demo_11.

Lemma live_outputs_stay_pinned_witness : star demo_step (engine_init []) demo_12 /\ produced demo_11 !! 1%N = Some demo_out
  /\ produced demo_12 !! 1%N = None /\ produced demo_12 !! 0%N = Some demo_out
  /\ Pins.pinned (pins demo_12) "weights" = true /\ (Pins.condemn (pins demo_12) "weights").1 = false.
Proof.
  assert (Hrun : star demo_step (engine_init []) demo_12).
  { eapply star_trans; [exact demo_answered|]. apply star_one. right; left. apply (e_retires "run").
    intros tid ->%elem_of_singleton. exists (demo_task 1 demo_11). split_and!; reflexivity. }
  pose proof (live_outputs_stay_pinned id (fun _ => 0%N) (fun _ => "") "gone" demo_answers [] demo_12 Hrun) as [Hlive _].
  assert (Hp : Pins.pinned (pins demo_12) "weights" = true).
  { apply (Hlive 1%N (demo_task 1 demo_12) demo_out); [reflexivity|reflexivity|by eexists|]. left. }
  split_and!; [exact Hrun|vm_compute; reflexivity|vm_compute; reflexivity|vm_compute; reflexivity|exact Hp|].
  unfold Pins.condemn. by rewrite Hp.
Defined.
