(* ===== verification/Principals.v ===== *)
(** Principals: who may publish (dinkster_registry/principals.py): users,
    publishers, memberships, tokens and the audit log, as one directory whose
    operations are methods over [PrincipalDirectory], and the restoring of a
    directory from what was stored of it.  A timestamp is read by
    [fromisoformat], a secret hashed by [sha256]; both are arguments, as is
    [repr], which only words a reason. *)
From S2P Require Import Prelude PyStr Names.

Local Open Scope string_scope.
Local Open Scope list_scope.

(** * Data *)

Inductive Role := Owner | Member.
Inductive Action := Publish | MintToken | EditMetadata | ManageMembers | Transfer.

#[export] Instance Role_eq_dec : EqDecision Role.
Proof. solve_decision. Defined.

(** [_ROLE_ACTIONS]. *)
Definition permits (r : Role) (a : Action) : bool :=
  match r, a with Owner, _ | Member, Publish | Member, MintToken => true | _, _ => false end.

Definition TOKEN_PREFIX : string := "dinkster_pat_".
Definition TOKEN_ID_CHARS : nat := 12.

(** A timestamp without a zone cannot be compared with one that has one. *)
Inductive datetime := Naive (t : Z) | Aware (t : Z).

(** What a record's sentence says. *)
Inductive audit_details :=
| NoDetails
| Renamed (old new : string)
| Added (user : string) (role : Role)
| RoleChanged (user : string) (old new : Role)
| Removed (user : string)
| Minted (token_id : string) (pack : option string)
| RevokedToken (token_id reason : string)
| Sentence (text : string).

Record AuditRecord := mkAudit { ar_actor : string; ar_action : string; ar_subject : string; ar_at : string; ar_details : audit_details }.

Record Membership := mkMember { mb_user : string; mb_publisher : string; mb_role : Role }.

Record TokenRecord := mkToken {
  token_id : string;
  tk_publisher : string;
  minted_by : string;
  tk_pack : option string;
  secret_hash : string;
  created_at : string;
  expires_at : string;
  revoked : bool;
  revoked_reason : string;
}.

(** The tables, in the order of their dicts. *)
Record PrincipalDirectory := mkDirectory {
  users : gset string;
  publishers : list (string * string);
  memberships : list ((string * string) * Membership);
  tokens : list (string * TokenRecord);
  audit : list AuditRecord;
}.

Definition empty_directory : PrincipalDirectory := mkDirectory ∅ [] [] [] [].

(** The [RegistryError]s. *)
Inductive refusal :=
| BadTimestamp (at_ : string)
| BadPublisher (publisher : string) (problem : name_problem)
| NotCanonical (publisher : string)
| PublisherExists (publisher : string)
| UnknownPublisher (publisher : string)
| EmptyUser
| UnknownUser (user : string)
| NotAMember (user publisher : string)
| Forbidden (user publisher : string) (role : Role) (action : Action)
| AlreadyMember (user publisher : string)
| DuplicateMember (user publisher : string)
| LastOwner (user publisher : string)
| NoOwner (publisher : string)
| NeverExpires
| TokenExists (id : string)
| TokenMismatch (id : string)
| NoToken (id : string)
| NoReason
| UnknownToken
| TokenRevoked (id reason : string)
| TokenExpired (id : string)
| TokenOrphaned (id minter : string)
| OtherPublisher (id publisher : string)
| OtherPack (id pack : string)
| NoActor.

(** What a method raises: a refusal, or the [TypeError] of comparing a
    timestamp with a zone to one without. *)
Inductive exn := Refused (e : refusal) | MixedZones.

(** * Operations *)

Definition P (A : Type) : Type := method PrincipalDirectory exn A.

#[local] Instance P_ret : MRet P := method_ret.
#[local] Instance P_bind : MBind P := @method_bind PrincipalDirectory exn.

Definition raise {A} (e : exn) : P A := fun d => (Err e, d).
Definition refuse {A} (e : refusal) : P A := raise (Refused e).
Definition require (c : bool) (e : refusal) : P unit := if c then mret tt else refuse e.

Definition set_users (u : gset string) : P unit := fun d => (Ok tt, mkDirectory u (publishers d) (memberships d) (tokens d) (audit d)).
Definition set_publisher (p name : string) : P unit := fun d =>
  (Ok tt, mkDirectory (users d) (dict_set (publishers d) p name) (memberships d) (tokens d) (audit d)).
Definition set_memberships (ms : list ((string * string) * Membership)) : P unit := fun d =>
  (Ok tt, mkDirectory (users d) (publishers d) ms (tokens d) (audit d)).
Definition set_token (t : TokenRecord) : P unit := fun d =>
  (Ok tt, mkDirectory (users d) (publishers d) (memberships d) (dict_set (tokens d) (token_id t) t) (audit d)).
Definition append_audit (r : AuditRecord) : P unit := fun d =>
  (Ok tt, mkDirectory (users d) (publishers d) (memberships d) (tokens d) (audit d ++ [r])).

Section directory.
Variable fromisoformat : string -> option datetime.
Variable sha256 : string -> string.
Variable repr : string -> string.

Definition parse_at (at_ : string) : P datetime :=
  match fromisoformat at_ with Some t => mret t | None => refuse (BadTimestamp at_) end.

(** [a <= b]. *)
Definition not_after (a b : datetime) : P bool :=
  match a, b with
  | Naive x, Naive y | Aware x, Aware y => mret (x <=? y)%Z
  | _, _ => raise MixedZones
  end.

Definition require_user (user : string) : P unit :=
  d ← get_state; require (bool_decide (user ∈ users d)) (UnknownUser user).

Definition require_publisher (publisher : string) : P (string * string) :=
  d ← get_state;
  match dict_get (publishers d) (canonical_name publisher) with
  | Some display => mret (canonical_name publisher, display)
  | None => refuse (UnknownPublisher publisher)
  end.

Definition record_ (actor action subject at_ : string) (details : audit_details) : P unit :=
  _ ← parse_at at_;
  _ ← require (negb (String.eqb actor "")) NoActor;
  append_audit (mkAudit actor action subject at_ details).

Definition record (actor action subject at_ : string) (details : audit_details) : P unit := record_ actor action subject at_ details.

Definition authorize (user publisher : string) (action : Action) : P unit :=
  p ← require_publisher publisher;
  d ← get_state;
  match dict_get (memberships d) (p.1, user) with
  | None => refuse (NotAMember user p.1)
  | Some m => require (permits (mb_role m) action) (Forbidden user p.1 (mb_role m) action)
  end.

Definition register_user (user : string) : P unit :=
  _ ← require (negb (String.eqb user "")) EmptyUser;
  d ← get_state; set_users ({[user]} ∪ users d).

Definition register_publisher (publisher owner at_ : string) : P string :=
  _ ← parse_at at_;
  _ ← match validate_name publisher with Some problem => refuse (BadPublisher publisher problem) | None => mret tt end;
  let canonical := canonical_name publisher in
  d ← get_state;
  _ ← require (negb (dict_mem (publishers d) canonical)) (PublisherExists canonical);
  _ ← require_user owner;
  _ ← set_publisher canonical canonical;
  _ ← set_memberships (dict_set (memberships d) (canonical, owner) (mkMember owner canonical Owner));
  _ ← record_ owner "register-publisher" canonical at_ NoDetails;
  mret canonical.

Definition set_display_name (publisher name actor at_ : string) : P unit :=
  _ ← parse_at at_;
  p ← require_publisher publisher;
  _ ← authorize actor p.1 EditMetadata;
  d ← get_state;
  let old := default "" (dict_get (publishers d) p.1) in
  _ ← set_publisher p.1 name;
  record_ actor "edit-metadata" p.1 at_ (Renamed old name).

Definition add_member (publisher user : string) (role : Role) (actor at_ : string) : P unit :=
  _ ← parse_at at_;
  p ← require_publisher publisher;
  _ ← authorize actor p.1 ManageMembers;
  _ ← require_user user;
  d ← get_state;
  _ ← require (negb (dict_mem (memberships d) (p.1, user))) (AlreadyMember user p.1);
  _ ← set_memberships (dict_set (memberships d) (p.1, user) (mkMember user p.1 role));
  record_ actor "manage-members" p.1 at_ (Added user role).

Definition other_owner (publisher user : string) (e : (string * string) * Membership) : bool :=
  String.eqb e.1.1 publisher && bool_decide (mb_role e.2 = Owner) && negb (String.eqb (mb_user e.2) user).

Definition guard_last_owner (publisher user : string) : P unit :=
  d ← get_state; require (existsb (other_owner publisher user) (memberships d)) (LastOwner user publisher).

Definition set_role (publisher user : string) (role : Role) (actor at_ : string) : P unit :=
  _ ← parse_at at_;
  p ← require_publisher publisher;
  _ ← authorize actor p.1 ManageMembers;
  d ← get_state;
  match dict_get (memberships d) (p.1, user) with
  | None => refuse (NotAMember user p.1)
  | Some m =>
      _ ← (if bool_decide (mb_role m = Owner) && bool_decide (role <> Owner) then guard_last_owner p.1 user else mret tt);
      _ ← set_memberships (dict_set (memberships d) (p.1, user) (mkMember (mb_user m) (mb_publisher m) role));
      record_ actor "manage-members" p.1 at_ (RoleChanged user (mb_role m) role)
  end.

Definition revoked_token (t : TokenRecord) (reason : string) : TokenRecord :=
  mkToken (token_id t) (tk_publisher t) (minted_by t) (tk_pack t) (secret_hash t) (created_at t) (expires_at t) true reason.

Definition revoke_ (t : TokenRecord) (actor at_ reason : string) : P unit :=
  _ ← set_token (revoked_token t reason);
  record_ actor "revoke-token" (tk_publisher t) at_ (RevokedToken (token_id t) reason).

Definition removal_reason (user : string) : string := "minter " +:+ (repr user +:+ " removed from publisher").

Definition minted_for (publisher user : string) (t : TokenRecord) : bool :=
  String.eqb (tk_publisher t) publisher && String.eqb (minted_by t) user && negb (revoked t).

(** The loop over [list(self._tokens.values())]. *)
Fixpoint revoke_all (publisher user actor at_ : string) (ts : list TokenRecord) : P unit :=
  match ts with
  | [] => mret tt
  | t :: ts' =>
      _ ← (if minted_for publisher user t then revoke_ t actor at_ (removal_reason user) else mret tt);
      revoke_all publisher user actor at_ ts'
  end.

Definition remove_member (publisher user actor at_ : string) : P unit :=
  _ ← parse_at at_;
  p ← require_publisher publisher;
  _ ← authorize actor p.1 ManageMembers;
  d ← get_state;
  match dict_get (memberships d) (p.1, user) with
  | None => refuse (NotAMember user p.1)
  | Some m =>
      _ ← (if bool_decide (mb_role m = Owner) then guard_last_owner p.1 user else mret tt);
      _ ← set_memberships (dict_del (memberships d) (p.1, user));
      _ ← record_ actor "manage-members" p.1 at_ (Removed user);
      d ← get_state;
      revoke_all p.1 user actor at_ (map snd (tokens d))
  end.

(** [entropy] is the secret of a test, or fresh. *)
Definition mint_token (publisher by_ at_ expires : string) (pack : option string) (entropy : string) : P (string * TokenRecord) :=
  p ← require_publisher publisher;
  _ ← authorize by_ p.1 MintToken;
  e ← parse_at expires;
  a ← parse_at at_;
  never ← not_after e a;
  _ ← require (negb never) NeverExpires;
  let plaintext := TOKEN_PREFIX +:+ entropy in
  let hash := sha256 plaintext in
  let id := str_take TOKEN_ID_CHARS hash in
  d ← get_state;
  _ ← require (negb (dict_mem (tokens d) id)) (TokenExists id);
  let t := mkToken id p.1 by_ (canonical_name <$> pack) hash at_ expires false "" in
  _ ← set_token t;
  _ ← record_ by_ "mint-token" p.1 at_ (Minted id (tk_pack t));
  mret (plaintext, t).

Definition revoke_token (id actor at_ reason : string) : P unit :=
  _ ← parse_at at_;
  d ← get_state;
  match dict_get (tokens d) id with
  | None => refuse (NoToken id)
  | Some t =>
      _ ← require (negb (String.eqb reason "")) NoReason;
      _ ← (if String.eqb actor (minted_by t) then mret tt else authorize actor (tk_publisher t) ManageMembers);
      if revoked t then mret tt else revoke_ t actor at_ reason
  end.

Definition verify_token (presented at_ : string) : P TokenRecord :=
  let hash := sha256 presented in
  d ← get_state;
  match dict_get (tokens d) (str_take TOKEN_ID_CHARS hash) with
  | None => refuse UnknownToken
  | Some t =>
      _ ← require (startswith TOKEN_PREFIX presented && String.eqb (secret_hash t) hash) UnknownToken;
      _ ← require (negb (revoked t)) (TokenRevoked (token_id t) (revoked_reason t));
      a ← parse_at at_;
      e ← parse_at (expires_at t);
      expired ← not_after e a;
      _ ← require (negb expired) (TokenExpired (token_id t));
      _ ← require (dict_mem (memberships d) (tk_publisher t, minted_by t)) (TokenOrphaned (token_id t) (minted_by t));
      mret t
  end.

Definition authorize_token (t : TokenRecord) (publisher pack : string) : P unit :=
  _ ← require (String.eqb (tk_publisher t) (canonical_name publisher)) (OtherPublisher (token_id t) (canonical_name publisher));
  match tk_pack t with
  | Some scope => require (String.eqb scope (canonical_name pack)) (OtherPack (token_id t) (canonical_name pack))
  | None => mret tt
  end.

(** ** Restoring *)

Fixpoint restore_users (us : list string) : P unit :=
  match us with [] => mret tt | u :: us' => _ ← register_user u; restore_users us' end.

Fixpoint restore_publishers (ps : list (string * string)) : P unit :=
  match ps with
  | [] => mret tt
  | (p, display) :: ps' =>
      _ ← match validate_name p with Some problem => refuse (BadPublisher p problem) | None => mret tt end;
      _ ← require (String.eqb (canonical_name p) p) (NotCanonical p);
      _ ← set_publisher p display;
      restore_publishers ps'
  end.

Fixpoint restore_members (ms : list Membership) : P unit :=
  match ms with
  | [] => mret tt
  | m :: ms' =>
      d ← get_state;
      _ ← require (dict_mem (publishers d) (mb_publisher m)) (UnknownPublisher (mb_publisher m));
      _ ← require_user (mb_user m);
      _ ← require (negb (dict_mem (memberships d) (mb_publisher m, mb_user m))) (DuplicateMember (mb_user m) (mb_publisher m));
      _ ← set_memberships (dict_set (memberships d) (mb_publisher m, mb_user m) m);
      restore_members ms'
  end.

Definition owned (ms : list Membership) (p : string) : bool :=
  existsb (fun m => String.eqb (mb_publisher m) p && bool_decide (mb_role m = Owner)) ms.

Fixpoint require_owners (ms : list Membership) (ps : list string) : P unit :=
  match ps with [] => mret tt | p :: ps' => _ ← require (owned ms p) (NoOwner p); require_owners ms ps' end.

Fixpoint restore_tokens (ts : list TokenRecord) : P unit :=
  match ts with
  | [] => mret tt
  | t :: ts' =>
      d ← get_state;
      _ ← require (dict_mem (publishers d) (tk_publisher t)) (UnknownPublisher (tk_publisher t));
      _ ← require (String.eqb (token_id t) (str_take TOKEN_ID_CHARS (secret_hash t))) (TokenMismatch (token_id t));
      _ ← require (negb (dict_mem (tokens d) (token_id t))) (TokenExists (token_id t));
      _ ← require (negb (revoked t && String.eqb (revoked_reason t) "")) NoReason;
      c ← parse_at (created_at t);
      e ← parse_at (expires_at t);
      never ← not_after e c;
      _ ← require (negb never) NeverExpires;
      _ ← set_token t;
      restore_tokens ts'
  end.

Fixpoint restore_audit (rs : list AuditRecord) : P unit :=
  match rs with
  | [] => mret tt
  | r :: rs' =>
      _ ← require (negb (String.eqb (ar_actor r) "")) NoActor;
      _ ← parse_at (ar_at r);
      _ ← append_audit r;
      restore_audit rs'
  end.

(** [restore], on a new directory. *)
Definition restore (us : list string) (ps : list (string * string)) (ms : list Membership) (ts : list TokenRecord) (rs : list AuditRecord) :
  result exn PrincipalDirectory :=
  let '(r, d) := (_ ← restore_users us;
                  _ ← restore_publishers ps;
                  _ ← restore_members ms;
                  d ← get_state;
                  _ ← require_owners ms (keys (publishers d));
                  _ ← restore_tokens ts;
                  restore_audit rs) empty_directory in
  _ ← r; Ok d.

(** ** The directory's life: calls, whether they return or raise *)

Inductive call :=
| RegisterUser (user : string)
| RegisterPublisher (publisher owner at_ : string)
| SetDisplayName (publisher name actor at_ : string)
| AddMember (publisher user : string) (role : Role) (actor at_ : string)
| SetRole (publisher user : string) (role : Role) (actor at_ : string)
| RemoveMember (publisher user actor at_ : string)
| MintFor (publisher by_ at_ expires : string) (pack : option string) (entropy : string)
| RevokeToken (id actor at_ reason : string)
| RecordEvent (actor action subject at_ : string) (details : audit_details).

Definition run (c : call) : P unit :=
  match c with
  | RegisterUser user => register_user user
  | RegisterPublisher publisher owner at_ => _ ← register_publisher publisher owner at_; mret tt
  | SetDisplayName publisher name actor at_ => set_display_name publisher name actor at_
  | AddMember publisher user role actor at_ => add_member publisher user role actor at_
  | SetRole publisher user role actor at_ => set_role publisher user role actor at_
  | RemoveMember publisher user actor at_ => remove_member publisher user actor at_
  | MintFor publisher by_ at_ expires pack entropy => _ ← mint_token publisher by_ at_ expires pack entropy; mret tt
  | RevokeToken id actor at_ reason => revoke_token id actor at_ reason
  | RecordEvent actor action subject at_ details => record actor action subject at_ details
  end.

Definition dstep (d d' : PrincipalDirectory) : Prop := exists c, (run c d).2 = d'.
End directory.

(** * What a call does *)

Section specification.
Variable fromisoformat : string -> option datetime.
Variable sha256 : string -> string.
Variable repr : string -> string.
Implicit Types (d : PrincipalDirectory).

Definition stamp (at_ : string) : Prop := is_Some (fromisoformat at_).

(** [a] is before [b], both with or both without a zone. *)
Definition before (a b : string) : Prop :=
  match fromisoformat a, fromisoformat b with
  | Some (Naive x), Some (Naive y) | Some (Aware x), Some (Aware y) => (x < y)%Z
  | _, _ => False
  end.

(** The user's role in a publisher, a canonical id, permits the action. *)
Definition allowed d (user publisher : string) (action : Action) : Prop :=
  exists m, dict_get (memberships d) (publisher, user) = Some m /\ permits (mb_role m) action = true.

Definition has_other_owner d (publisher user : string) : Prop :=
  exists e, e ∈ memberships d /\ e.1.1 = publisher /\ mb_role e.2 = Owner /\ mb_user e.2 <> user.

Definition revoke_minted d (publisher user : string) : list (string * TokenRecord) :=
  map (fun e => if minted_for publisher user e.2 then (e.1, revoked_token e.2 (removal_reason repr user)) else e) (tokens d).

Definition removal_records d (publisher user actor at_ : string) : list AuditRecord :=
  map (fun t => mkAudit actor "revoke-token" publisher at_ (RevokedToken (token_id t) (removal_reason repr user)))
    (List.filter (minted_for publisher user) (map snd (tokens d))).

(** The calls that are accepted, and what they leave. *)
Inductive effect : call -> PrincipalDirectory -> PrincipalDirectory -> Prop :=
| ef_user user d : user <> "" ->
    effect (RegisterUser user) d (mkDirectory ({[user]} ∪ users d) (publishers d) (memberships d) (tokens d) (audit d))
| ef_publisher publisher owner at_ d p : p = canonical_name publisher -> stamp at_ -> is_name publisher = true ->
    p ∉ keys (publishers d) -> owner ∈ users d ->
    effect (RegisterPublisher publisher owner at_) d
      (mkDirectory (users d) (dict_set (publishers d) p p) (dict_set (memberships d) (p, owner) (mkMember owner p Owner)) (tokens d)
         (audit d ++ [mkAudit owner "register-publisher" p at_ NoDetails]))
| ef_display publisher name actor at_ d p old : p = canonical_name publisher -> stamp at_ -> dict_get (publishers d) p = Some old ->
    allowed d actor p EditMetadata ->
    effect (SetDisplayName publisher name actor at_) d
      (mkDirectory (users d) (dict_set (publishers d) p name) (memberships d) (tokens d)
         (audit d ++ [mkAudit actor "edit-metadata" p at_ (Renamed old name)]))
| ef_add publisher user role actor at_ d p : p = canonical_name publisher -> stamp at_ -> p ∈ keys (publishers d) ->
    allowed d actor p ManageMembers -> user ∈ users d -> (p, user) ∉ keys (memberships d) ->
    effect (AddMember publisher user role actor at_) d
      (mkDirectory (users d) (publishers d) (dict_set (memberships d) (p, user) (mkMember user p role)) (tokens d)
         (audit d ++ [mkAudit actor "manage-members" p at_ (Added user role)]))
| ef_role publisher user role actor at_ d p m : p = canonical_name publisher -> stamp at_ -> p ∈ keys (publishers d) ->
    allowed d actor p ManageMembers -> dict_get (memberships d) (p, user) = Some m ->
    (mb_role m = Owner -> role <> Owner -> has_other_owner d p user) ->
    effect (SetRole publisher user role actor at_) d
      (mkDirectory (users d) (publishers d) (dict_set (memberships d) (p, user) (mkMember (mb_user m) (mb_publisher m) role)) (tokens d)
         (audit d ++ [mkAudit actor "manage-members" p at_ (RoleChanged user (mb_role m) role)]))
| ef_remove publisher user actor at_ d p m : p = canonical_name publisher -> stamp at_ -> p ∈ keys (publishers d) ->
    allowed d actor p ManageMembers -> dict_get (memberships d) (p, user) = Some m ->
    (mb_role m = Owner -> has_other_owner d p user) ->
    effect (RemoveMember publisher user actor at_) d
      (mkDirectory (users d) (publishers d) (dict_del (memberships d) (p, user)) (revoke_minted d p user)
         (audit d ++ mkAudit actor "manage-members" p at_ (Removed user) :: removal_records d p user actor at_))
| ef_mint publisher by_ at_ expires pack entropy d p t : p = canonical_name publisher -> p ∈ keys (publishers d) ->
    allowed d by_ p MintToken -> before at_ expires ->
    t = mkToken (str_take TOKEN_ID_CHARS (sha256 (TOKEN_PREFIX +:+ entropy))) p by_ (canonical_name <$> pack)
          (sha256 (TOKEN_PREFIX +:+ entropy)) at_ expires false "" ->
    token_id t ∉ keys (tokens d) ->
    effect (MintFor publisher by_ at_ expires pack entropy) d
      (mkDirectory (users d) (publishers d) (memberships d) (dict_set (tokens d) (token_id t) t)
         (audit d ++ [mkAudit by_ "mint-token" p at_ (Minted (token_id t) (tk_pack t))]))
| ef_revoke id actor at_ reason d t : stamp at_ -> dict_get (tokens d) id = Some t -> reason <> "" -> revoked t = false ->
    actor = minted_by t \/ allowed d actor (tk_publisher t) ManageMembers ->
    effect (RevokeToken id actor at_ reason) d
      (mkDirectory (users d) (publishers d) (memberships d) (dict_set (tokens d) (token_id t) (revoked_token t reason))
         (audit d ++ [mkAudit actor "revoke-token" (tk_publisher t) at_ (RevokedToken (token_id t) reason)]))
| ef_revoked id actor at_ reason d t : stamp at_ -> dict_get (tokens d) id = Some t -> reason <> "" -> revoked t = true ->
    actor = minted_by t \/ allowed d actor (tk_publisher t) ManageMembers ->
    effect (RevokeToken id actor at_ reason) d d
| ef_event actor action subject at_ details d : stamp at_ -> actor <> "" ->
    effect (RecordEvent actor action subject at_ details) d
      (mkDirectory (users d) (publishers d) (memberships d) (tokens d) (audit d ++ [mkAudit actor action subject at_ details])).

(** * The invariant *)

(** Tables of one directory agree: members are users of publishers, every
    publisher has an owner, tokens are filed under the start of their hash,
    expire, and say why they were revoked. *)
Record directory_ok d : Prop := {
  do_users : "" ∉ users d;
  do_publishers_nodup : NoDup (keys (publishers d));
  do_publishers : forall p, p ∈ keys (publishers d) -> is_name p = true /\ canonical_name p = p;
  do_members_nodup : NoDup (keys (memberships d));
  do_members : forall k m, (k, m) ∈ memberships d -> k = (mb_publisher m, mb_user m) /\ mb_user m ∈ users d /\ mb_publisher m ∈ keys (publishers d);
  do_owner : forall p, p ∈ keys (publishers d) -> exists u m, dict_get (memberships d) (p, u) = Some m /\ mb_role m = Owner;
  do_tokens_nodup : NoDup (keys (tokens d));
  do_tokens : forall id t, (id, t) ∈ tokens d -> id = token_id t /\ token_id t = str_take TOKEN_ID_CHARS (secret_hash t)
    /\ tk_publisher t ∈ keys (publishers d) /\ minted_by t ∈ users d /\ (revoked t = true -> revoked_reason t <> "")
    /\ before (created_at t) (expires_at t);
  do_audit : forall r, r ∈ audit d -> ar_actor r <> "" /\ stamp (ar_at r);
}.

Lemma empty_ok : directory_ok empty_directory.
Proof.
  constructor; cbn; try apply NoDup_nil_2; [set_solver|..]; [intros p Hp|intros k m Hp|intros p Hp|intros i t Hp|intros r Hp]; by apply not_elem_of_nil in Hp.
Qed.

(** ** Calls by their parts *)

Lemma require_bind {A} c e (k : P A) d : (_ ← require c e; k) d = if c then k d else (Err (Refused e), d).
Proof. by destruct c. Qed.

Lemma parse_bind {A} at_ (k : datetime -> P A) d :
  (t ← parse_at fromisoformat at_; k t) d = match fromisoformat at_ with Some t => k t d | None => (Err (Refused (BadTimestamp at_)), d) end.
Proof. unfold parse_at, mbind, P_bind, method_bind. by destruct (fromisoformat at_). Qed.

Lemma publisher_bind {A} publisher (k : string * string -> P A) d :
  (p ← require_publisher publisher; k p) d = match dict_get (publishers d) (canonical_name publisher) with
    | Some display => k (canonical_name publisher, display) d | None => (Err (Refused (UnknownPublisher publisher)), d) end.
Proof.
  unfold require_publisher, mbind, P_bind, method_bind, get_state. by destruct (dict_get (publishers d) _).
Qed.

(** The check of a role, for the id of a publisher of the directory. *)
Lemma authorize_bind {A} user p action (k : P A) d : directory_ok d -> p ∈ keys (publishers d) ->
  (_ ← authorize user p action; k) d = match dict_get (memberships d) (p, user) with
    | None => (Err (Refused (NotAMember user p)), d)
    | Some m => if permits (mb_role m) action then k d else (Err (Refused (Forbidden user p (mb_role m) action)), d)
    end.
Proof.
  intros Hok Hp. destruct (do_publishers _ Hok p Hp) as [_ Hcanon]. apply dict_mem_true in Hp. unfold dict_mem in Hp.
  unfold authorize, require_publisher, mbind, P_bind, method_bind, get_state. rewrite Hcanon.
  destruct (dict_get (publishers d) p); [|done]. cbn. destruct (dict_get (memberships d) (p, user)) as [m|]; [|done].
  by destruct (permits _ _).
Qed.

Lemma user_bind {A} user (k : P A) d : (_ ← require_user user; k) d = if bool_decide (user ∈ users d) then k d else (Err (Refused (UnknownUser user)), d).
Proof. unfold require_user, mbind, P_bind, method_bind, get_state. by destruct (bool_decide _). Qed.

Lemma record_ok actor action subject at_ details d : stamp at_ -> actor <> "" ->
  record_ fromisoformat actor action subject at_ details d
  = (Ok tt, mkDirectory (users d) (publishers d) (memberships d) (tokens d) (audit d ++ [mkAudit actor action subject at_ details])).
Proof.
  intros [t Ht] Hne. unfold record_. rewrite parse_bind, Ht. rewrite (require_bind (negb (String.eqb actor ""))).
  by destruct (String.eqb_spec actor "").
Qed.

Lemma known_publisher d p : p ∈ keys (publishers d) <-> is_Some (dict_get (publishers d) p).
Proof. rewrite <- dict_mem_true. unfold dict_mem. destruct (dict_get (publishers d) p); split; try done. Qed.

Lemma member_elem d k m : dict_get (memberships d) k = Some m -> (k, m) ∈ memberships d.
Proof. apply dict_get_elem. Qed.

(** Whoever may do something is not nobody. *)
Lemma allowed_actor d user p action : directory_ok d -> allowed d user p action -> user <> "".
Proof.
  intros Hok (m & Hm%dict_get_elem & _). destruct (do_members _ Hok _ _ Hm) as (Hk & Hu & _). injection Hk as _ Huser.
  intros Hnil. apply (do_users _ Hok). by rewrite <- Hnil, Huser.
Qed.

Lemma other_owner_spec d p user : existsb (other_owner p user) (memberships d) = true <-> has_other_owner d p user.
Proof.
  unfold has_other_owner. rewrite List.existsb_exists. unfold other_owner. split.
  - intros (e & He%list_elem_of_In & H). rewrite !andb_true_iff in H. destruct H as [[H1%String.eqb_eq H2%bool_decide_eq_true] H3].
    exists e. split_and!; try done. by destruct (String.eqb_spec (mb_user e.2) user).
  - intros (e & He & H1 & H2 & H3). exists e. split; [by apply list_elem_of_In|]. rewrite !andb_true_iff, String.eqb_eq, bool_decide_eq_true.
    by destruct (String.eqb_spec (mb_user e.2) user).
Qed.

(** ** A call does what the specification says, or nothing *)

Definition outcome {A} (c : call) (r : result exn A * PrincipalDirectory) d : Prop :=
  match r with (Ok _, d') => effect c d d' | (Err _, d') => d' = d /\ forall d'', ~ effect c d d'' end.

Lemma refused {A} c e d : (forall d'', ~ effect c d d'') -> @outcome A c (Err e, d) d.
Proof. by split. Qed.

Lemma outcome_drop {A} c (m : P A) d : outcome c (m d) d -> outcome c ((_ ← m; mret tt) d) d.
Proof. unfold mbind, P_bind, method_bind. by destruct (m d) as [[a|e] d']. Qed.

Lemma get_bind {A} (k : PrincipalDirectory -> P A) d : (x ← get_state; k x) d = k d d.
Proof. done. Qed.

Lemma expiry_bind {A} at_ expires r a e (k : P A) d : fromisoformat at_ = Some a -> fromisoformat expires = Some e ->
  (before at_ expires /\ (never ← not_after e a; _ ← require (negb never) r; k) d = k d)
  \/ (~ before at_ expires /\ exists x, (never ← not_after e a; _ ← require (negb never) r; k) d = (Err x, d)).
Proof.
  intros Ha He. unfold before. rewrite Ha, He.
  destruct a as [x|x], e as [y|y]; cbn; try (right; split; [by intros []|by eexists]).
  all: destruct (Z.leb_spec y x); [right; split; [lia|by eexists]|by left].
Qed.

Lemma expiry_outcome {A} c at_ expires r a e (k : P A) m d : fromisoformat at_ = Some a -> fromisoformat expires = Some e ->
  m = (never ← not_after e a; _ ← require (negb never) r; k) d -> (forall d'', effect c d d'' -> before at_ expires) ->
  (before at_ expires -> outcome c (k d) d) -> outcome c m d.
Proof.
  intros Ha He -> Hef Hgo. destruct (expiry_bind at_ expires r a e k d Ha He) as [[Hb ->]|[Hb [x ->]]]; [by apply Hgo|].
  apply refused. intros d'' H. by apply Hb, (Hef d'').
Qed.

Ltac refuse_call := apply refused; intros ? Hef; inversion Hef; clear Hef; subst; unfold stamp, allowed in *;
  repeat match goal with
  | H : is_Some _ |- _ => destruct H as [? ?]
  | H : exists _, _ |- _ => destruct H as (? & ?)
  | H : _ /\ _ |- _ => destruct H
  | H : _ ∈ keys _ |- _ => apply known_publisher in H as [? ?]
  end; try congruence;
  try match goal with H : _ ∉ keys _ |- _ => solve [destruct H; apply known_publisher; eexists; eassumption] end.

(** What the calls that manage a publisher check first. *)
Lemma manage_outcome {A} c publisher actor at_ action (k : string * string -> P A) m d : directory_ok d ->
  m = (_ ← parse_at fromisoformat at_; p ← require_publisher publisher; _ ← authorize actor p.1 action; k p) d ->
  (forall d'', effect c d d'' -> stamp at_ /\ canonical_name publisher ∈ keys (publishers d) /\ allowed d actor (canonical_name publisher) action) ->
  (forall display, stamp at_ -> dict_get (publishers d) (canonical_name publisher) = Some display -> allowed d actor (canonical_name publisher) action ->
     outcome c (k (canonical_name publisher, display) d) d) ->
  outcome c m d.
Proof.
  intros Hok -> Hef Hgo. rewrite parse_bind. unfold stamp, allowed in *.
  destruct (fromisoformat at_) as [t|]; [|apply refused; intros d'' H; by destruct (Hef d'' H) as [[? [=]] _]].
  rewrite publisher_bind. destruct (dict_get (publishers d) _) as [display|] eqn:Hp.
  2: { apply refused. intros d'' H. destruct (Hef d'' H) as (_ & [? ?]%known_publisher & _). congruence. }
  cbn [fst]. rewrite authorize_bind; [|done|apply known_publisher; by eexists].
  destruct (dict_get (memberships d) _) as [mb|] eqn:Hm; [|apply refused; intros d'' H; by destruct (Hef d'' H) as (_ & _ & ? & [=] & _)].
  destruct (permits (mb_role mb) action) eqn:Hr; [eapply Hgo; eauto|].
  apply refused. intros d'' H. destruct (Hef d'' H) as (_ & _ & ? & [= <-] & ?). congruence.
Qed.

Lemma register_user_outcome user d : outcome (RegisterUser user) (register_user user d) d.
Proof.
  unfold register_user. rewrite require_bind. destruct (String.eqb_spec user "") as [->|Hne]; cbn [negb]; [refuse_call|]. by constructor.
Qed.

Lemma register_publisher_outcome publisher owner at_ d : directory_ok d ->
  outcome (RegisterPublisher publisher owner at_) (register_publisher fromisoformat publisher owner at_ d) d.
Proof.
  intros Hok. unfold register_publisher. rewrite parse_bind. destruct (fromisoformat at_) as [t|] eqn:Hat; [|refuse_call].
  assert (Hname : is_name publisher = match validate_name publisher with Some _ => false | None => true end) by done.
  destruct (validate_name publisher) as [problem|]; [refuse_call|].
  change (outcome (RegisterPublisher publisher owner at_) ((d ← get_state;
    _ ← require (negb (dict_mem (publishers d) (canonical_name publisher))) (PublisherExists (canonical_name publisher));
    _ ← require_user owner; _ ← set_publisher (canonical_name publisher) (canonical_name publisher);
    _ ← set_memberships (dict_set (memberships d) (canonical_name publisher, owner) (mkMember owner (canonical_name publisher) Owner));
    _ ← record_ fromisoformat owner "register-publisher" (canonical_name publisher) at_ NoDetails; mret (canonical_name publisher)) d) d).
  rewrite get_bind, require_bind. destruct (dict_mem (publishers d) (canonical_name publisher)) eqn:Hmem; cbn [negb].
  { apply dict_mem_true in Hmem. refuse_call. }
  rewrite user_bind. destruct (bool_decide (owner ∈ users d)) eqn:Hu; [apply bool_decide_eq_true in Hu|apply bool_decide_eq_false in Hu; refuse_call].
  unfold mbind, P_bind, method_bind, set_publisher, set_memberships. rewrite record_ok; [|by eexists|intros ->; by apply (do_users _ Hok)].
  apply (ef_publisher publisher owner at_ d (canonical_name publisher)); try done; [by eexists|].
  intros Hin. apply dict_mem_true in Hin. congruence.
Qed.

(** Opens a call that manages a publisher; leaves what follows its checks. *)
Ltac manage Hok d publisher := eapply manage_outcome; [exact Hok|reflexivity|
  intros d'' Hef; inversion Hef; subst; split_and!; [done|by (done || (apply known_publisher; eexists))|done]|];
  intros display Hat Hp Ha; cbn beta; cbn [fst];
  pose proof (proj2 (known_publisher d (canonical_name publisher)) (ex_intro _ display Hp)) as Hpub.

Lemma set_display_name_outcome publisher name actor at_ d : directory_ok d ->
  outcome (SetDisplayName publisher name actor at_) (set_display_name fromisoformat publisher name actor at_ d) d.
Proof.
  intros Hok. manage Hok d publisher.
  unfold mbind, P_bind, method_bind, get_state, set_publisher. rewrite Hp. rewrite record_ok; [|done|by eapply allowed_actor].
  by apply (ef_display publisher name actor at_ d (canonical_name publisher) display).
Qed.

Lemma add_member_outcome publisher user role actor at_ d : directory_ok d ->
  outcome (AddMember publisher user role actor at_) (add_member fromisoformat publisher user role actor at_ d) d.
Proof.
  intros Hok. manage Hok d publisher.
  rewrite user_bind. destruct (bool_decide (user ∈ users d)) eqn:Hu; [apply bool_decide_eq_true in Hu|apply bool_decide_eq_false in Hu; refuse_call].
  rewrite get_bind, require_bind. destruct (dict_mem (memberships d) _) eqn:Hm; cbn [negb].
  { apply dict_mem_true in Hm. refuse_call. }
  unfold mbind, P_bind, method_bind, set_memberships. rewrite record_ok; [|done|by eapply allowed_actor].
  apply (ef_add publisher user role actor at_ d (canonical_name publisher)); try done. intros Hin. apply dict_mem_true in Hin. congruence.
Qed.

Lemma guard_bind {A} p user (k : P A) d : (_ ← guard_last_owner p user; k) d
  = if existsb (other_owner p user) (memberships d) then k d else (Err (Refused (LastOwner user p)), d).
Proof. unfold guard_last_owner, mbind, P_bind, method_bind, get_state. by destruct (existsb _ _). Qed.

Lemma set_role_outcome publisher user role actor at_ d : directory_ok d ->
  outcome (SetRole publisher user role actor at_) (set_role fromisoformat publisher user role actor at_ d) d.
Proof.
  intros Hok. manage Hok d publisher. rewrite get_bind.
  destruct (dict_get (memberships d) (canonical_name publisher, user)) as [m|] eqn:Hm; [|refuse_call].
  assert (Hgo : (mb_role m = Owner -> role <> Owner -> has_other_owner d (canonical_name publisher) user) ->
    outcome (SetRole publisher user role actor at_) ((_ ← set_memberships (dict_set (memberships d) (canonical_name publisher, user) (mkMember (mb_user m) (mb_publisher m) role));
      record_ fromisoformat actor "manage-members" (canonical_name publisher) at_ (RoleChanged user (mb_role m) role)) d) d).
  { intros Hother. unfold mbind, P_bind, method_bind, set_memberships. rewrite record_ok; [|done|by eapply allowed_actor].
    by apply (ef_role publisher user role actor at_ d (canonical_name publisher) m). }
  destruct (bool_decide (mb_role m = Owner) && bool_decide (role <> Owner)) eqn:E.
  - apply andb_true_iff in E as [E1%bool_decide_eq_true E2%bool_decide_eq_true]. rewrite guard_bind.
    destruct (existsb _ _) eqn:Ho; [apply Hgo; intros _ _; by apply other_owner_spec|].
    apply refused. intros d'' Hef. inversion Hef; subst. assert (m0 = m) as -> by congruence.
    assert (H : has_other_owner d (canonical_name publisher) user) by auto. apply other_owner_spec in H. congruence.
  - apply Hgo. intros H1 H2. by rewrite !bool_decide_true in E.
Qed.

(** [list(self._tokens.values())] while its entries are replaced. *)
Lemma revoke_all_spec p user actor at_ d : stamp at_ -> actor <> "" -> NoDup (keys (tokens d)) ->
  (forall id t, (id, t) ∈ tokens d -> id = token_id t) ->
  revoke_all fromisoformat repr p user actor at_ (map snd (tokens d)) d
  = (Ok tt, mkDirectory (users d) (publishers d) (memberships d) (revoke_minted d p user) (audit d ++ removal_records d p user actor at_)).
Proof.
  intros Hat Hne Hnd Hids. unfold revoke_minted, removal_records.
  assert (Hgen : forall done_ todo au, NoDup (keys (done_ ++ todo)) -> (forall id t, (id, t) ∈ todo -> id = token_id t) ->
    revoke_all fromisoformat repr p user actor at_ (map snd todo) (mkDirectory (users d) (publishers d) (memberships d) (done_ ++ todo) au)
    = (Ok tt, mkDirectory (users d) (publishers d) (memberships d)
         (done_ ++ map (fun e => if minted_for p user e.2 then (e.1, revoked_token e.2 (removal_reason repr user)) else e) todo)
         (au ++ map (fun t => mkAudit actor "revoke-token" p at_ (RevokedToken (token_id t) (removal_reason repr user)))
                  (List.filter (minted_for p user) (map snd todo))))).
  { intros done_ todo. revert done_. induction todo as [|[id t] todo IH]; intros done_ au Hnd' Hid; [by rewrite !app_nil_r|].
    assert (id = token_id t) as -> by (apply Hid; left). cbn [map snd revoke_all List.filter fst].
    destruct (minted_for p user t) eqn:Hm.
    - unfold mbind at 1, P_bind, method_bind, revoke_, mbind at 1, P_bind, method_bind, set_token. cbn [users publishers memberships tokens audit].
      rewrite record_ok by done. cbn [users publishers memberships tokens audit].
      rewrite dict_set_at by done.
      assert (Hstep := fun au => IH (done_ ++ [(token_id t, revoked_token t (removal_reason repr user))]) au). setoid_rewrite <- app_assoc in Hstep.
      cbn [app] in Hstep. rewrite Hstep; [|unfold keys in *; by rewrite fmap_app in *|intros; apply Hid; by right].
      assert (tk_publisher t = p) as -> by (unfold minted_for in Hm; rewrite !andb_true_iff in Hm; by destruct Hm as [[?%String.eqb_eq _] _]).
      cbn [map]. by rewrite <- !app_assoc.
    - unfold mbind at 1, P_bind, method_bind, mret, P_ret, method_ret.
      assert (Hstep := IH (done_ ++ [(token_id t, t)]) au). rewrite <- !app_assoc in Hstep. cbn [app] in Hstep.
      rewrite Hstep; [done|done|intros; apply Hid; by right]. }
  specialize (Hgen [] (tokens d) (audit d) Hnd Hids). cbn in Hgen. destruct d. exact Hgen.
Qed.

Lemma remove_member_outcome publisher user actor at_ d : directory_ok d ->
  outcome (RemoveMember publisher user actor at_) (remove_member fromisoformat repr publisher user actor at_ d) d.
Proof.
  intros Hok. manage Hok d publisher. rewrite get_bind.
  destruct (dict_get (memberships d) (canonical_name publisher, user)) as [m|] eqn:Hm; [|refuse_call].
  assert (Hgo : (mb_role m = Owner -> has_other_owner d (canonical_name publisher) user) ->
    outcome (RemoveMember publisher user actor at_) ((_ ← set_memberships (dict_del (memberships d) (canonical_name publisher, user));
      _ ← record_ fromisoformat actor "manage-members" (canonical_name publisher) at_ (Removed user);
      d ← get_state; revoke_all fromisoformat repr (canonical_name publisher) user actor at_ (map snd (tokens d))) d) d).
  { intros Hother. unfold mbind, P_bind, method_bind, set_memberships. rewrite record_ok; [|done|by eapply allowed_actor].
    unfold get_state. rewrite revoke_all_spec; [|done|by eapply allowed_actor|apply Hok|apply Hok].
    cbn [users publishers memberships tokens audit]. rewrite <- app_assoc.
    by apply (ef_remove publisher user actor at_ d (canonical_name publisher) m). }
  destruct (bool_decide (mb_role m = Owner)) eqn:E.
  - apply bool_decide_eq_true in E. rewrite guard_bind.
    destruct (existsb _ _) eqn:Ho; [apply Hgo; intros _; by apply other_owner_spec|].
    apply refused. intros d'' Hef. inversion Hef; subst. assert (m0 = m) as -> by congruence.
    assert (H : has_other_owner d (canonical_name publisher) user) by auto. apply other_owner_spec in H. congruence.
  - apply Hgo. intros H1. by rewrite bool_decide_true in E.
Qed.

Lemma mint_token_outcome publisher by_ at_ expires pack entropy d : directory_ok d ->
  outcome (MintFor publisher by_ at_ expires pack entropy) (mint_token fromisoformat sha256 publisher by_ at_ expires pack entropy d) d.
Proof.
  intros Hok. unfold mint_token. rewrite publisher_bind. destruct (dict_get (publishers d) _) as [display|] eqn:Hp; [|refuse_call].
  pose proof (proj2 (known_publisher d (canonical_name publisher)) (ex_intro _ display Hp)) as Hpub.
  cbn [fst]. rewrite authorize_bind by done. destruct (dict_get (memberships d) _) as [m|] eqn:Hm; [|refuse_call].
  destruct (permits (mb_role m) MintToken) eqn:Hr; [|refuse_call].
  assert (Hallow : allowed d by_ (canonical_name publisher) MintToken) by (by exists m).
  rewrite parse_bind. destruct (fromisoformat expires) as [e|] eqn:He.
  2: { apply refused. intros d'' Hef. inversion Hef as [| | | | | |? ? ? ? ? ? ? ? ? ? ? ? Hb| | |]; subst. unfold before in Hb. rewrite He in Hb. by repeat case_match. }
  rewrite parse_bind. destruct (fromisoformat at_) as [a|] eqn:Ha.
  2: { apply refused. intros d'' Hef. inversion Hef as [| | | | | |? ? ? ? ? ? ? ? ? ? ? ? Hb| | |]; subst. unfold before in Hb. by rewrite Ha in Hb. }
  eapply (expiry_outcome _ at_ expires NeverExpires a e); [done|done|reflexivity|by intros d'' Hef; inversion Hef; subst|]. intros Hb.
  rewrite get_bind, require_bind. destruct (dict_mem (tokens d) _) eqn:Hmem; cbn [negb].
  { apply dict_mem_true in Hmem. by refuse_call. }
  unfold mbind, P_bind, method_bind, set_token. rewrite record_ok; [|by eexists|by eapply allowed_actor].
  apply (ef_mint publisher by_ at_ expires pack entropy d (canonical_name publisher)
    (mkToken (str_take TOKEN_ID_CHARS (sha256 (TOKEN_PREFIX +:+ entropy))) (canonical_name publisher) by_ (canonical_name <$> pack)
       (sha256 (TOKEN_PREFIX +:+ entropy)) at_ expires false "")); try done. intros Hin. apply dict_mem_true in Hin. cbn [token_id] in Hin. congruence.
Qed.

Lemma revoke_token_outcome id actor at_ reason d : directory_ok d ->
  outcome (RevokeToken id actor at_ reason) (revoke_token fromisoformat id actor at_ reason d) d.
Proof.
  intros Hok. unfold revoke_token. rewrite parse_bind. destruct (fromisoformat at_) as [s|] eqn:Hat; [|refuse_call].
  rewrite get_bind. destruct (dict_get (tokens d) id) as [t|] eqn:Ht; [|refuse_call].
  rewrite require_bind. destruct (String.eqb_spec reason "") as [->|Hne]; cbn [negb]; [refuse_call|].
  pose proof (do_tokens _ Hok _ _ (dict_get_elem _ _ _ Ht)) as (Hid & _ & Hpub & Hby & _).
  assert (Hgo : actor = minted_by t \/ allowed d actor (tk_publisher t) ManageMembers ->
    outcome (RevokeToken id actor at_ reason) ((if revoked t then mret tt else revoke_ fromisoformat t actor at_ reason) d) d).
  { intros Hwho. destruct (revoked t) eqn:Hrev; [by apply (ef_revoked id actor at_ reason d t); [eexists|..]|].
    unfold revoke_, mbind, P_bind, method_bind, set_token. rewrite record_ok; [|by eexists|].
    - by apply (ef_revoke id actor at_ reason d t); [eexists|..].
    - destruct Hwho as [->|Hwho]; [intros Hnil; apply (do_users _ Hok); by rewrite <- Hnil|by eapply allowed_actor]. }
  assert (Hno : forall e, actor <> minted_by t -> ~ allowed d actor (tk_publisher t) ManageMembers -> @outcome unit (RevokeToken id actor at_ reason) (Err e, d) d).
  { intros e H1 H2. apply refused. intros d'' Hef. inversion Hef; subst; assert (t0 = t) as -> by congruence; naive_solver. }
  destruct (String.eqb_spec actor (minted_by t)) as [Heq|Hneq]; [apply Hgo; by left|].
  rewrite authorize_bind by done. destruct (dict_get (memberships d) _) as [m|] eqn:Hm; [|apply Hno; [done|intros (m & Hm' & _); congruence]].
  destruct (permits (mb_role m) ManageMembers) eqn:Hr; [apply Hgo; right; by exists m|].
  apply Hno; [done|]. intros (m' & Hm' & Hr'). congruence.
Qed.

Lemma record_outcome actor action subject at_ details d :
  outcome (RecordEvent actor action subject at_ details) (record fromisoformat actor action subject at_ details d) d.
Proof.
  unfold record, record_. rewrite parse_bind. destruct (fromisoformat at_) as [s|] eqn:Hat; [|refuse_call].
  rewrite require_bind. destruct (String.eqb_spec actor "") as [->|Hne]; cbn [negb]; [refuse_call|].
  constructor; [by eexists|done].
Qed.

(** The methods refine the specification. *)
Lemma run_outcome c d : directory_ok d -> outcome c (run fromisoformat sha256 repr c d) d.
Proof.
  intros Hok. destruct c; cbn [run].
  - apply register_user_outcome.
  - by apply outcome_drop, register_publisher_outcome.
  - by apply set_display_name_outcome.
  - by apply add_member_outcome.
  - by apply set_role_outcome.
  - by apply remove_member_outcome.
  - by apply outcome_drop, mint_token_outcome.
  - by apply revoke_token_outcome.
  - apply record_outcome.
Qed.
End specification.

(** * Accepted calls keep the invariant *)

Section invariant.
Variable fromisoformat : string -> option datetime.
Variable sha256 : string -> string.
Variable repr : string -> string.
Implicit Types (d : PrincipalDirectory).

Notation ok := (directory_ok fromisoformat).
Notation effects := (effect fromisoformat sha256 repr).

(** The audit log alone grows. *)
Lemma ok_audit d rs : ok d -> (forall r, r ∈ rs -> ar_actor r <> "" /\ stamp fromisoformat (ar_at r)) ->
  ok (mkDirectory (users d) (publishers d) (memberships d) (tokens d) (audit d ++ rs)).
Proof. intros [] H. constructor; cbn [users publishers memberships tokens audit]; try done. intros r [Hr|Hr]%elem_of_app; auto. Qed.

Lemma ok_record d actor action subject at_ details : ok d -> actor <> "" -> stamp fromisoformat at_ ->
  ok (mkDirectory (users d) (publishers d) (memberships d) (tokens d) (audit d ++ [mkAudit actor action subject at_ details])).
Proof. intros Hok H1 H2. apply ok_audit; [done|]. by intros r ->%list_elem_of_singleton. Qed.

Lemma ok_users d user : ok d -> user <> "" -> ok (mkDirectory ({[user]} ∪ users d) (publishers d) (memberships d) (tokens d) (audit d)).
Proof.
  intros [H1 H2 H3 H4 H5 H6 H7 H8 H9] Hne. constructor; cbn [users publishers memberships tokens audit]; try done; [set_solver|..].
  - intros k m Hm. destruct (H5 k m Hm) as (? & ? & ?). set_solver.
  - intros id t Ht. destruct (H8 id t Ht) as (? & ? & ? & ? & ?). set_solver.
Qed.

Lemma ok_display d p name : ok d -> p ∈ keys (publishers d) ->
  ok (mkDirectory (users d) (dict_set (publishers d) p name) (memberships d) (tokens d) (audit d)).
Proof.
  intros [H1 H2 H3 H4 H5 H6 H7 H8 H9] Hp.
  assert (Hk : forall q, q ∈ keys (dict_set (publishers d) p name) <-> q ∈ keys (publishers d)).
  { intros q. rewrite elem_keys_set. split; [by intros [->|]|by right]. }
  constructor; cbn [users publishers memberships tokens audit]; try done; [by apply NoDup_dict_set|..].
  - intros q. rewrite Hk. apply H3.
  - intros k m Hm. rewrite Hk. by apply H5.
  - intros q. rewrite Hk. apply H6.
  - intros id t Ht. rewrite Hk. by apply H8.
Qed.

(** A membership is given or changed, so that its publisher has an owner. *)
Lemma ok_member d p user m : ok d -> p ∈ keys (publishers d) -> user ∈ users d -> mb_publisher m = p -> mb_user m = user ->
  (mb_role m = Owner \/ exists u m', u <> user /\ dict_get (memberships d) (p, u) = Some m' /\ mb_role m' = Owner) ->
  ok (mkDirectory (users d) (publishers d) (dict_set (memberships d) (p, user) m) (tokens d) (audit d)).
Proof.
  intros [H1 H2 H3 H4 H5 H6 H7 H8 H9] Hp Hu <- <- Hown. constructor; cbn [users publishers memberships tokens audit]; try done; [by apply NoDup_dict_set|..].
  - intros k m' [[= -> ->]|Hm]%dict_set_elem; [done|by apply H5].
  - intros q Hq. destruct (decide (q = mb_publisher m)) as [->|Hne].
    + destruct Hown as [Hr|(u & m' & Hu' & Hm' & Hr)]; [exists (mb_user m), m|exists u, m']; rewrite dict_get_set.
      * by rewrite decide_True.
      * rewrite decide_False; [done|congruence].
    + destruct (H6 q Hq) as (u & m' & Hm' & Hr). exists u, m'. rewrite dict_get_set, decide_False; [done|congruence].
Qed.

(** A publisher comes with its first owner. *)
Lemma ok_new_publisher d p owner : ok d -> p ∉ keys (publishers d) -> is_name p = true -> canonical_name p = p -> owner ∈ users d ->
  ok (mkDirectory (users d) (dict_set (publishers d) p p) (dict_set (memberships d) (p, owner) (mkMember owner p Owner)) (tokens d) (audit d)).
Proof.
  intros [H1 H2 H3 H4 H5 H6 H7 H8 H9] Hp Hn Hc Ho. constructor; cbn [users publishers memberships tokens audit]; try done; try (by apply NoDup_dict_set).
  - intros q [->|Hq]%elem_keys_set; [done|by apply H3].
  - intros k m [[= -> ->]|Hm]%dict_set_elem; rewrite elem_keys_set; [split_and!; [done..|by left]|].
    destruct (H5 k m Hm) as (? & ? & ?). split_and!; [done..|by right].
  - intros q [->|Hq]%elem_keys_set; [exists owner, (mkMember owner p Owner); by rewrite dict_get_set, decide_True|].
    destruct (H6 q Hq) as (u & m & Hm & Hr). exists u, m. rewrite dict_get_set, decide_False; [done|]. intros [= -> ->]. done.
  - intros id t Ht. destruct (H8 id t Ht) as (? & ? & ? & ? & ? & ?). rewrite elem_keys_set. split_and!; try done. by right.
Qed.

Lemma revoke_keys d p user : keys (revoke_minted repr d p user) = keys (tokens d).
Proof.
  unfold revoke_minted, keys. induction (tokens d) as [|[id t] ts IH]; [done|]. cbn. rewrite IH. by destruct (minted_for p user t).
Qed.

Lemma ok_removal d p user : ok d -> p ∈ keys (publishers d) ->
  (exists u m', u <> user /\ dict_get (memberships d) (p, u) = Some m' /\ mb_role m' = Owner) ->
  ok (mkDirectory (users d) (publishers d) (dict_del (memberships d) (p, user)) (revoke_minted repr d p user) (audit d)).
Proof.
  intros [H1 H2 H3 H4 H5 H6 H7 H8 H9] Hp Hown.
  constructor; cbn [users publishers memberships tokens audit]; try done; [by apply NoDup_dict_del| | | |].
  - intros k m Hm%dict_del_elem. by apply H5.
  - intros q Hq. destruct (decide (q = p)) as [->|Hne].
    + destruct Hown as (u & m' & Hu' & Hm' & Hr). exists u, m'. rewrite dict_get_del, decide_False; [done|congruence|done].
    + destruct (H6 q Hq) as (u & m' & Hm' & Hr). exists u, m'. rewrite dict_get_del, decide_False; [done|congruence|done].
  - by rewrite revoke_keys.
  - intros id t. unfold revoke_minted. intros ([id' t'] & Heq & Ht)%list_elem_of_fmap. destruct (H8 id' t' Ht) as (? & ? & ? & ? & ? & ?).
    cbn in Heq. destruct (minted_for p user t'); injection Heq as -> ->; [|by apply H8]. by split_and!.
Qed.

Lemma ok_token d t : ok d -> token_id t = str_take TOKEN_ID_CHARS (secret_hash t) -> tk_publisher t ∈ keys (publishers d) -> minted_by t ∈ users d ->
  (revoked t = true -> revoked_reason t <> "") -> before fromisoformat (created_at t) (expires_at t) ->
  ok (mkDirectory (users d) (publishers d) (memberships d) (dict_set (tokens d) (token_id t) t) (audit d)).
Proof.
  intros [H1 H2 H3 H4 H5 H6 H7 H8 H9]. intros. constructor; cbn [users publishers memberships tokens audit]; try done; [by apply NoDup_dict_set|].
  intros id t' [[= -> ->]|Ht]%dict_set_elem; [done|by apply H8].
Qed.

Lemma allowed_user d user p action : ok d -> allowed d user p action -> user ∈ users d.
Proof. intros Hok (m & Hm%dict_get_elem & _). destruct (do_members _ _ Hok _ _ Hm) as (Hk & Hu & _). injection Hk as _ ->. done. Qed.

(** An owner who is not this user, by name. *)
Lemma other_owner_get d p user : ok d -> has_other_owner d p user ->
  exists u m, u <> user /\ dict_get (memberships d) (p, u) = Some m /\ mb_role m = Owner.
Proof.
  intros Hok ([k m] & He & H1 & H2 & H3). cbn in *. destruct (do_members _ _ Hok k m He) as (-> & _ & _). cbn in H1. subst p.
  exists (mb_user m), m. split_and!; try done. apply elem_dict_get; [apply Hok|done].
Qed.

Lemma effect_ok c d d' : ok d -> effects c d d' -> ok d'.
Proof.
  intros Hok Hef. destruct Hef as [user d Hne|publisher owner at_ d p -> Hat Hn Hp Ho|publisher name actor at_ d p old -> Hat Hp Ha
    |publisher user role actor at_ d p -> Hat Hp Ha Hu Hm|publisher user role actor at_ d p m -> Hat Hp Ha Hm Hother
    |publisher user actor at_ d p m -> Hat Hp Ha Hm Hother|publisher by_ at_ expires pack entropy d p t -> Hp Ha Hb -> Ht
    |id actor at_ reason d t Hat Ht Hr Hrev Hwho|id actor at_ reason d t Hat Ht Hr Hrev Hwho|actor action subject at_ details d Hat Hne]; cbn [mb_role] in *.
  - by apply ok_users.
  - pose proof (ok_new_publisher d (canonical_name publisher) owner) as Hnew.
    apply (ok_record (mkDirectory _ _ _ _ _)); [|intros ->; by apply (do_users _ _ Hok)|done]. apply Hnew; try done; [by apply is_name_canonical|by apply canonical_name_idem].
  - apply (ok_record (mkDirectory _ _ _ _ _)); [|by eapply allowed_actor|done]. apply ok_display; [done|]. apply known_publisher. by eexists.
  - apply (ok_record (mkDirectory _ _ _ _ _)); [|by eapply allowed_actor|done]. apply ok_member; try done.
    right. destruct (do_owner _ _ Hok _ Hp) as (u & m' & Hm' & Hr). exists u, m'. split_and!; try done. intros ->. apply Hm. apply dict_mem_true. unfold dict_mem. by rewrite Hm'.
  - destruct (do_members _ _ Hok _ _ (dict_get_elem _ _ _ Hm)) as (Hk & Hu & Hpub). injection Hk as Hk1 Hk2.
    apply (ok_record (mkDirectory _ _ _ _ _)); [|by eapply allowed_actor|done]. apply ok_member; try done; [by rewrite Hk2|].
    cbn. destruct role; [by left|right]. destruct (decide (mb_role m = Owner)) as [Hr|Hr]; [apply other_owner_get; auto|].
    destruct (do_owner _ _ Hok _ Hp) as (u & m' & Hm' & Hr'). exists u, m'. split_and!; try done. intros ->. congruence.
  - apply (ok_audit (mkDirectory _ _ _ _ _)).
    + apply ok_removal; [done|done|]. destruct (decide (mb_role m = Owner)) as [Hr|Hr]; [apply other_owner_get; auto|].
      destruct (do_owner _ _ Hok _ Hp) as (u & m' & Hm' & Hr'). exists u, m'. split_and!; try done. intros ->. congruence.
    + intros r [->|Hr]%elem_of_cons; [split; [by eapply allowed_actor|done]|]. unfold removal_records in Hr.
      apply list_elem_of_fmap in Hr as (t & -> & _). split; [by eapply allowed_actor|done].
  - apply (ok_record (mkDirectory _ _ _ _ _)); [|by eapply allowed_actor|].
    + apply (ok_token d (mkToken _ _ _ _ _ _ _ _ _)); try done. by eapply allowed_user.
    + unfold before in Hb. unfold stamp. by destruct (fromisoformat at_).
  - pose proof (do_tokens _ _ Hok _ _ (dict_get_elem _ _ _ Ht)) as (Hid & Hhash & Hpub & Hby & _ & Hb).
    apply (ok_record (mkDirectory _ _ _ _ _)); [|destruct Hwho as [->|Hwho]; [|by eapply allowed_actor]|done].
    + by apply (ok_token d (revoked_token t reason)).
    + intros Hnil. apply (do_users _ _ Hok). by rewrite <- Hnil.
  - done.
  - by apply ok_record.
Qed.

(** ** Runs from an empty directory *)

Notation steps := (dstep fromisoformat sha256 repr).
Notation runs c d := (run fromisoformat sha256 repr c d).

Lemma directory_step_ok d d' : ok d -> steps d d' -> ok d'.
Proof.
  intros Hok [c <-]. pose proof (run_outcome fromisoformat sha256 repr c d Hok) as H. unfold outcome in H.
  destruct (runs c d) as [[[]|e] d1]; [by eapply effect_ok|]. by destruct H as [-> _].
Qed.

Lemma directory_reachable_ok d : star steps empty_directory d -> ok d.
Proof. intros H. eapply (star_invariant steps ok) in H; [done|exact directory_step_ok|apply empty_ok]. Qed.

Lemma effect_functional c d d1 d2 : effects c d d1 -> effects c d d2 -> d1 = d2.
Proof.
  intros H1 H2. destruct H1; inversion H2; subst; try done; try congruence;
    repeat match goal with H1 : dict_get ?l ?k = Some ?x, H2 : dict_get ?l ?k = Some ?y |- _ => rewrite H1 in H2; injection H2 as H2; try subst end; congruence.
Qed.

Lemma run_ok c d d' : ok d -> runs c d = (Ok tt, d') -> effects c d d'.
Proof. intros Hok Hrun. pose proof (run_outcome fromisoformat sha256 repr c d Hok) as H. by rewrite Hrun in H. Qed.

(** ** What a call leaves alone *)

Lemma effect_audit c d d' : effects c d d' -> exists rs, audit d' = audit d ++ rs.
Proof. intros []; try (by eexists); exists []; by rewrite app_nil_r. Qed.

Lemma step_audit d d' : ok d -> steps d d' -> audit d `prefix_of` audit d'.
Proof.
  intros Hok [c <-]. pose proof (run_outcome fromisoformat sha256 repr c d Hok) as H. unfold outcome in H.
  destruct (runs c d) as [[[]|e] d1]; [|by destruct H as [-> _]]. apply effect_audit in H as [rs Hrs]. cbn. rewrite Hrs. by exists rs.
Qed.

Lemma revoke_get d p user id : dict_get (revoke_minted repr d p user) id
  = (fun t => if minted_for p user t then revoked_token t (removal_reason repr user) else t) <$> dict_get (tokens d) id.
Proof.
  unfold revoke_minted. induction (tokens d) as [|[i t] ts IH]; [done|]. cbn [map snd fst dict_get].
  destruct (minted_for p user t) eqn:E; cbn [dict_get]; (destruct (decide (id = i)); [|exact IH]); unfold fmap, option_fmap, option_map; by rewrite E.
Qed.

(** A revoked token stays revoked. *)
Lemma effect_revoked c d d' id t : ok d -> effects c d d' -> dict_get (tokens d) id = Some t -> revoked t = true ->
  exists t', dict_get (tokens d') id = Some t' /\ revoked t' = true.
Proof.
  intros Hok Hef Ht Hr. destruct Hef as [| | | | |publisher user actor at_ d p m -> Hat Hp Ha Hm Hother|publisher by_ at_ expires pack entropy d p t0 -> Hp Ha Hb Heq Hnew
    |id0 actor at_ reason d t0 Hat Ht0| |]; cbn [tokens]; try (by exists t).
  - rewrite revoke_get, Ht. cbn. eexists. split; [done|]. by destruct (minted_for _ _ t).
  - exists t. split; [|done]. rewrite dict_get_set, decide_False; [done|]. intros ->. apply Hnew. apply dict_mem_true. unfold dict_mem. by rewrite Ht.
  - rewrite dict_get_set. destruct (decide (id = token_id t0)); [by eexists|by exists t].
Qed.

Lemma star_revoked d d' id t : ok d -> star steps d d' -> dict_get (tokens d) id = Some t -> revoked t = true ->
  exists t', dict_get (tokens d') id = Some t' /\ revoked t' = true.
Proof.
  intros Hok Hs. revert t. induction Hs as [d|d d1 d2 Hstep _ IH]; intros t Ht Hr; [by exists t|].
  assert (exists t', dict_get (tokens d1) id = Some t' /\ revoked t' = true) as (t' & Ht' & Hr').
  { destruct Hstep as [c <-]. pose proof (run_outcome fromisoformat sha256 repr c d Hok) as H. unfold outcome in H.
    destruct (runs c d) as [[[]|e] d1]; [by eapply effect_revoked|]. destruct H as [-> _]. by exists t. }
  eapply (IH (directory_step_ok _ _ Hok Hstep)); eauto.
Qed.

(** ** Verification *)

Lemma not_after_before a b x y : fromisoformat a = Some x -> fromisoformat b = Some y -> forall d d', not_after y x d = (Ok false, d') -> before fromisoformat a b /\ d' = d.
Proof.
  intros Hx Hy d d'. unfold before. rewrite Hx, Hy. destruct x as [x|x], y as [y|y]; cbn; try done; intros [= Hle <-]; (split; [|done]); by apply Z.leb_gt.
Qed.

Notation verify presented at_ d := (verify_token fromisoformat sha256 presented at_ d).

Lemma verify_spec presented at_ d t d' : verify presented at_ d = (Ok t, d') <->
  d' = d /\ dict_get (tokens d) (str_take TOKEN_ID_CHARS (sha256 presented)) = Some t /\ startswith TOKEN_PREFIX presented = true
  /\ secret_hash t = sha256 presented /\ revoked t = false /\ before fromisoformat at_ (expires_at t)
  /\ dict_mem (memberships d) (tk_publisher t, minted_by t) = true.
Proof.
  unfold verify_token. rewrite get_bind. destruct (dict_get (tokens d) _) as [t0|]; [|split; [done|by intros (_ & [=] & _)]].
  rewrite require_bind. destruct (startswith TOKEN_PREFIX presented) eqn:Hpre; cbn [andb]; [|split; [done|by intros (_ & _ & [=] & _)]].
  destruct (String.eqb_spec (secret_hash t0) (sha256 presented)) as [Hh|Hh]; [|split; [done|intros (_ & [= ->] & _ & H & _); done]].
  rewrite require_bind. destruct (revoked t0) eqn:Hr; cbn [negb]; [split; [done|intros (_ & [= ->] & _ & _ & H & _); congruence]|].
  rewrite parse_bind. destruct (fromisoformat at_) as [a|] eqn:Ha.
  2: { split; [done|]. intros (_ & _ & _ & _ & _ & H & _). unfold before in H. by rewrite Ha in H. }
  rewrite parse_bind. destruct (fromisoformat (expires_at t0)) as [e|] eqn:He.
  2: { split; [done|]. intros (_ & [= ->] & _ & _ & _ & H & _). unfold before in H. rewrite He in H. by repeat case_match. }
  edestruct (expiry_bind fromisoformat at_ (expires_at t0) (TokenExpired (token_id t0)) a e
    (_ ← require (dict_mem (memberships d) (tk_publisher t0, minted_by t0)) (TokenOrphaned (token_id t0) (minted_by t0)); mret t0) d Ha He)
    as [[Hb Heq]|[Hb [x Heq]]]; rewrite Heq.
  - rewrite require_bind. destruct (dict_mem (memberships d) _) eqn:Hm; [|split; [done|intros (_ & [= ->] & _ & _ & _ & _ & H); congruence]].
    split; [intros [= <- <-]; by split_and!|by intros (-> & [= ->] & _)].
  - split; [done|]. by intros (_ & [= ->] & _ & _ & _ & H & _).
Qed.
End invariant.

(** * Restoring what was stored *)

Section restoring.
Variable fromisoformat : string -> option datetime.
Variable sha256 : string -> string.
Variable repr : string -> string.
Implicit Types (d : PrincipalDirectory).

Lemma restore_users_spec us d : "" ∉ us ->
  restore_users us d = (Ok tt, mkDirectory (list_to_set us ∪ users d) (publishers d) (memberships d) (tokens d) (audit d)).
Proof.
  revert d. induction us as [|u us IH]; intros d Hne; cbn [restore_users].
  - destruct d; cbn. by rewrite (left_id_L ∅ (∪)).
  - apply not_elem_of_cons in Hne as [Hu Hus]. unfold register_user, mbind at 1, P_bind, method_bind. rewrite require_bind.
    destruct (String.eqb_spec u ""); [done|]. cbn [negb]. rewrite get_bind. unfold set_users. rewrite IH by done. cbn. do 2 f_equal. set_solver.
Qed.

Lemma restore_publishers_spec ps d : NoDup (keys (publishers d ++ ps)) -> (forall p, p ∈ keys ps -> is_name p = true /\ canonical_name p = p) ->
  restore_publishers ps d = (Ok tt, mkDirectory (users d) (publishers d ++ ps) (memberships d) (tokens d) (audit d)).
Proof.
  revert d. induction ps as [|[p display] ps IH]; intros d Hnd Hps; cbn [restore_publishers]; [rewrite app_nil_r; by destruct d|].
  destruct (Hps p) as [Hn Hc]; [left|]. apply keys_middle in Hnd as [Hp Hnd].
  assert (Hv : validate_name p = None) by (unfold is_name in Hn; by destruct (validate_name p)). rewrite Hv, Hc.
  unfold mbind at 1, P_bind, method_bind, mret, P_ret, method_ret. rewrite require_bind, String.eqb_refl.
  unfold mbind, P_bind, method_bind, set_publisher. rewrite dict_set_fresh by done. rewrite IH; [|done|intros q Hq; apply Hps; by right].
  cbn. by rewrite <- app_assoc.
Qed.

Definition keyed (ms : list ((string * string) * Membership)) : Prop := forall k m, (k, m) ∈ ms -> k = (mb_publisher m, mb_user m).

Lemma restore_members_spec ms d : NoDup (keys (memberships d ++ ms)) -> keyed ms ->
  (forall k m, (k, m) ∈ ms -> mb_user m ∈ users d /\ mb_publisher m ∈ keys (publishers d)) ->
  restore_members (map snd ms) d = (Ok tt, mkDirectory (users d) (publishers d) (memberships d ++ ms) (tokens d) (audit d)).
Proof.
  revert d. induction ms as [|[k m] ms IH]; intros d Hnd Hk Hms; cbn [map snd restore_members]; [rewrite app_nil_r; by destruct d|].
  destruct (Hms k m) as [Hu Hp]; [left|]. assert (k = (mb_publisher m, mb_user m)) as -> by (apply Hk; left). apply keys_middle in Hnd as [Hn Hnd].
  rewrite get_bind, require_bind. apply dict_mem_true in Hp. rewrite Hp, user_bind, bool_decide_true, require_bind by done.
  destruct (dict_mem (memberships d) _) eqn:Hm; [by apply dict_mem_true in Hm|]. cbn [negb].
  unfold mbind, P_bind, method_bind, set_memberships. rewrite dict_set_fresh by done.
  rewrite IH; cbn [users publishers memberships tokens audit]; [by rewrite <- app_assoc|done|intros k' m' H; apply Hk; by right|intros k' m' H; apply (Hms k' m'); by right].
Qed.

Lemma require_owners_spec ms ps d : (forall p, p ∈ ps -> owned ms p = true) -> require_owners ms ps d = (Ok tt, d).
Proof.
  induction ps as [|p ps IH]; intros Hps; cbn [require_owners]; [done|]. rewrite require_bind, Hps by left. apply IH. intros q Hq. apply Hps. by right.
Qed.

Definition storable d (t : TokenRecord) : Prop :=
  token_id t = str_take TOKEN_ID_CHARS (secret_hash t) /\ tk_publisher t ∈ keys (publishers d) /\ (revoked t = true -> revoked_reason t <> "")
  /\ before fromisoformat (created_at t) (expires_at t).

Lemma restore_tokens_spec ts d : NoDup (keys (tokens d ++ ts)) -> (forall id t, (id, t) ∈ ts -> id = token_id t /\ storable d t) ->
  restore_tokens fromisoformat (map snd ts) d = (Ok tt, mkDirectory (users d) (publishers d) (memberships d) (tokens d ++ ts) (audit d)).
Proof.
  revert d. induction ts as [|[id t] ts IH]; intros d Hnd Hts; cbn [map snd restore_tokens]; [rewrite app_nil_r; by destruct d|].
  destruct (Hts id t) as [-> (Hid & Hp & Hr & Hb)]; [left|]. apply keys_middle in Hnd as [Hn Hnd].
  rewrite get_bind, require_bind. apply dict_mem_true in Hp. rewrite Hp, require_bind, <- Hid, String.eqb_refl, require_bind.
  destruct (dict_mem (tokens d) _) eqn:Hm; [by apply dict_mem_true in Hm|]. cbn [negb]. rewrite require_bind.
  assert (Hreason : negb (revoked t && String.eqb (revoked_reason t) "") = true).
  { destruct (revoked t); [|done]. by destruct (String.eqb_spec (revoked_reason t) ""); [destruct Hr|]. }
  rewrite Hreason, parse_bind. pose proof Hb as Hb'. unfold before in Hb'.
  destruct (fromisoformat (created_at t)) as [c|] eqn:Hc; [|done]. rewrite parse_bind.
  destruct (fromisoformat (expires_at t)) as [e|] eqn:He; [|by destruct c].
  edestruct (expiry_bind fromisoformat (created_at t) (expires_at t) NeverExpires c e (_ ← set_token t; restore_tokens fromisoformat (map snd ts)) d Hc He)
    as [[_ Heq]|[Hno _]]; [rewrite Heq|done].
  unfold mbind, P_bind, method_bind, set_token. rewrite dict_set_fresh by done.
  rewrite IH; cbn [users publishers memberships tokens audit]; [by rewrite <- app_assoc|done|intros id' t' H; apply Hts; by right].
Qed.

Lemma restore_audit_spec rs d : (forall r, r ∈ rs -> ar_actor r <> "" /\ stamp fromisoformat (ar_at r)) ->
  restore_audit fromisoformat rs d = (Ok tt, mkDirectory (users d) (publishers d) (memberships d) (tokens d) (audit d ++ rs)).
Proof.
  revert d. induction rs as [|r rs IH]; intros d Hrs; cbn [restore_audit]; [rewrite app_nil_r; by destruct d|].
  destruct (Hrs r) as [Ha [s Hs]]; [left|]. rewrite require_bind. destruct (String.eqb_spec (ar_actor r) ""); [done|]. cbn [negb].
  rewrite parse_bind, Hs. unfold mbind, P_bind, method_bind, append_audit. rewrite IH by (intros r' Hr'; apply Hrs; by right).
  cbn. by rewrite <- app_assoc.
Qed.

Lemma restore_ok d : directory_ok fromisoformat d ->
  restore fromisoformat (elements (users d)) (publishers d) (map snd (memberships d)) (map snd (tokens d)) (audit d) = Ok d.
Proof.
  intros Hok. unfold restore.
  assert (Hown : forall p, p ∈ keys (publishers d) -> owned (map snd (memberships d)) p = true).
  { intros p Hp. destruct (do_owner _ _ Hok p Hp) as (u & m & Hm%dict_get_elem & Hr). destruct (do_members _ _ Hok _ _ Hm) as ([= -> _] & _).
    unfold owned. apply List.existsb_exists. exists m. split; [apply list_elem_of_In, list_elem_of_fmap; by exists ((mb_publisher m, u), m)|].
    by rewrite String.eqb_refl, bool_decide_true. }
  unfold mbind at 1, P_bind, method_bind. rewrite restore_users_spec by (rewrite elem_of_elements; apply Hok). cbn [publishers memberships tokens audit users empty_directory].
  unfold mbind at 1, P_bind, method_bind. rewrite restore_publishers_spec by apply Hok. cbn [publishers memberships tokens audit users app].
  unfold mbind at 1, P_bind, method_bind. rewrite restore_members_spec; [|apply Hok|intros k m Hm; by apply (do_members _ _ Hok)|].
  2: { cbn. intros k m Hm. destruct (do_members _ _ Hok k m Hm) as (_ & Hu & Hp). split; [set_solver|done]. }
  rewrite get_bind. unfold mbind at 1, P_bind, method_bind. rewrite require_owners_spec by done. cbn [publishers memberships tokens audit users app].
  unfold mbind at 1, P_bind, method_bind. rewrite restore_tokens_spec; [|apply Hok|].
  2: { intros id t Ht. destruct (do_tokens _ _ Hok id t Ht) as (? & ? & ? & ? & ? & ?). unfold storable. by split_and!. }
  cbn [publishers memberships tokens audit users app]. rewrite restore_audit_spec by apply Hok. cbn. f_equal. destruct d; cbn. f_equal. set_solver.
Qed.
End restoring.

(** * Correctness *)

(** What [mint_token] answers. *)
Lemma mint_token_answer fromisoformat sha256 publisher by_ at_ expires pack entropy d plaintext t d1 :
  mint_token fromisoformat sha256 publisher by_ at_ expires pack entropy d = (Ok (plaintext, t), d1) ->
  plaintext = TOKEN_PREFIX +:+ entropy /\ t = mkToken (str_take TOKEN_ID_CHARS (sha256 (TOKEN_PREFIX +:+ entropy))) (canonical_name publisher) by_
    (canonical_name <$> pack) (sha256 (TOKEN_PREFIX +:+ entropy)) at_ expires false "".
Proof.
  intros H. unfold mint_token in H. rewrite publisher_bind in H. destruct (dict_get _ _); [|done]. cbn [fst] in H.
  do 8 (apply method_bind_ok in H as (? & ? & _ & H)). apply method_bind_ok in H as ([] & d2 & _ & H). by injection H as <- <- _.
Qed.


Section correctness.
Variable fromisoformat : string -> option datetime.
Variable sha256 : string -> string.
Variable repr : string -> string.

Notation reachable d := (star (dstep fromisoformat sha256 repr) empty_directory d).
Notation runs c d := (run fromisoformat sha256 repr c d).

(** C32: every call of a directory does what its specification says, or
    nothing: in a directory reached by calls, a call succeeds exactly when
    [effect] relates the directory to another, which is then the one it
    leaves, with its audit records; and a call that raises leaves the
    directory as it was, though methods change tables before they record. *)
Theorem calls_follow_the_rules (c : call) (d : PrincipalDirectory) : reachable d ->
  (forall d', runs c d = (Ok tt, d') <-> effect fromisoformat sha256 repr c d d')
  /\ (forall e d', runs c d = (Err e, d') -> d' = d).
Proof.
  intros Hok%directory_reachable_ok. pose proof (run_outcome fromisoformat sha256 repr c d Hok) as H. unfold outcome in H.
  destruct (runs c d) as [[[]|e] d1]; split.
  - intros d'. split; [by intros [= <-]|]. intros Hef. by rewrite (effect_functional _ _ _ _ _ _ _ H Hef).
  - done.
  - destruct H as [_ H]. intros d'. split; [done|]. intros Hef. by destruct (H d').
  - destruct H as [-> _]. by intros ?? [= _ <-].
Qed.

(** C33: nothing about a publisher changes behind its owners' backs: a call
    only adds to the audit log; when it changes a publisher's display name or
    memberships, a record of it names the publisher and an owner; and when it
    adds or changes a token, a record names the token's publisher and a
    member of it, or the minter who revoked it. *)
Theorem changes_are_authorized (c : call) (d d' : PrincipalDirectory) : reachable d -> runs c d = (Ok tt, d') ->
  exists rs, audit d' = audit d ++ rs
  /\ (forall p, p ∈ keys (publishers d) ->
        dict_get (publishers d') p <> dict_get (publishers d) p \/ (exists u, dict_get (memberships d') (p, u) <> dict_get (memberships d) (p, u)) ->
        exists r m, r ∈ rs /\ ar_subject r = p /\ dict_get (memberships d) (p, ar_actor r) = Some m /\ mb_role m = Owner)
  /\ (forall id t, dict_get (tokens d') id = Some t -> dict_get (tokens d) id <> Some t ->
        exists r, r ∈ rs /\ ar_subject r = tk_publisher t
          /\ ((exists m, dict_get (memberships d) (tk_publisher t, ar_actor r) = Some m) \/ ar_actor r = minted_by t /\ revoked t = true)).
Proof.
  intros Hok%directory_reachable_ok Hrun. apply run_ok in Hrun; [|done].
  assert (Howner : forall user p a, allowed d user p a -> a <> Publish -> a <> MintToken -> exists m, dict_get (memberships d) (p, user) = Some m /\ mb_role m = Owner).
  { intros user p a (m & Hm & Hr) H1 H2. exists m. split; [done|]. by destruct (mb_role m), a. }
  destruct Hrun as [user d Hne|publisher owner at_ d p -> Hat Hn Hp Ho|publisher name actor at_ d p old -> Hat Hp Ha
    |publisher user role actor at_ d p -> Hat Hp Ha Hu Hm|publisher user role actor at_ d p m -> Hat Hp Ha Hm Hother
    |publisher user actor at_ d p m -> Hat Hp Ha Hm Hother|publisher by_ at_ expires pack entropy d p t0 -> Hp Ha Hb Heq Hnew
    |id0 actor at_ reason d t0 Hat Ht0 Hr Hrev Hwho|id0 actor at_ reason d t0 Hat Ht0 Hr Hrev Hwho|actor action subject at_ details d Hat Hne];
    cbn [publishers memberships tokens audit].
  - exists []. rewrite app_nil_r. split_and!; [done|by intros p _ [|[u ?]]|done].
  - eexists. split_and!; [done| |done]. intros q Hq Hch. exfalso. rewrite dict_get_set in Hch. setoid_rewrite dict_get_set in Hch.
    assert (q <> canonical_name publisher) by (by intros ->). destruct Hch as [Hch|[u Hch]]; rewrite decide_False in Hch; congruence.
  - eexists. split_and!; [done| |done]. intros q Hq [Hch|[u Hch]]; [|done]. rewrite dict_get_set in Hch. destruct (decide (q = canonical_name publisher)) as [->|]; [|done].
    destruct (Howner actor _ EditMetadata Ha) as (m & Hm & Hr); [done..|]. eexists _, m. split_and!; [left|done..].
  - eexists. split_and!; [done| |done]. intros q Hq [Hch|[u Hch]]; [done|]. rewrite dict_get_set in Hch. destruct (decide ((q, u) = (canonical_name publisher, user))) as [[= -> ->]|]; [|done].
    destruct (Howner actor _ ManageMembers Ha) as (m & Hm' & Hr); [done..|]. eexists _, m. split_and!; [left|done..].
  - eexists. split_and!; [done| |done]. intros q Hq [Hch|[u Hch]]; [done|]. rewrite dict_get_set in Hch. destruct (decide ((q, u) = (canonical_name publisher, user))) as [[= -> ->]|]; [|done].
    destruct (Howner actor _ ManageMembers Ha) as (m' & Hm' & Hr); [done..|]. eexists _, m'. split_and!; [left|done..].
  - destruct (Howner actor _ ManageMembers Ha) as (m' & Hm' & Hr'); [done..|]. eexists. split_and!; [done| |].
    + intros q Hq [Hch|[u Hch]]; [done|]. rewrite dict_get_del in Hch by apply Hok. destruct (decide ((q, u) = (canonical_name publisher, user))) as [[= -> ->]|]; [|done].
      eexists _, m'. split_and!; [left|done..].
    + intros id t Ht Hne. rewrite revoke_get in Ht. destruct (dict_get (tokens d) id) as [t0|]; [|done]. injection Ht as <-.
      destruct (minted_for (canonical_name publisher) user t0) eqn:E; [|done]. unfold minted_for in E. rewrite !andb_true_iff in E. destruct E as [[E%String.eqb_eq _] _].
      eexists. split_and!; [left|done|]. cbn. rewrite E. left. by exists m'.
  - eexists. split_and!; [done|by intros q _ [|[u ?]]|]. intros id t Ht Hne. rewrite dict_get_set in Ht. destruct (decide (id = token_id t0)); [|done]. injection Ht as <-.
    destruct Ha as (m & Hm & _). eexists. split_and!; [left|by rewrite Heq|]. left. exists m. by rewrite Heq.
  - eexists. split_and!; [done|by intros q _ [|[u ?]]|]. intros id t Ht Hne. rewrite dict_get_set in Ht. destruct (decide (id = token_id t0)); [|done]. injection Ht as <-.
    eexists. split_and!; [left|done|]. destruct Hwho as [->|(m & Hm & _)]; [by right|left; by exists m].
  - exists []. rewrite app_nil_r. split_and!; [done|by intros p _ [|[u ?]]|done].
  - eexists. split_and!; [done|by intros q _ [|[u ?]]|done].
Qed.

(** C34: a token dies with its minter's membership: what verifies was minted by
    a user who still is a member of the publisher, is not revoked, has not
    expired and matches the hash of what was presented; and once a member is
    removed, no token they had minted for the publisher verifies again,
    whatever is called afterwards, even if they come back. *)
Theorem tokens_die_with_membership (d d1 d2 : PrincipalDirectory) publisher user actor at_ : reachable d ->
  runs (RemoveMember publisher user actor at_) d = (Ok tt, d1) -> star (dstep fromisoformat sha256 repr) d1 d2 ->
  forall presented at2 t d3, verify_token fromisoformat sha256 presented at2 d2 = (Ok t, d3) ->
  (tk_publisher t, minted_by t) ∈ keys (memberships d2) /\ revoked t = false /\ before fromisoformat at2 (expires_at t) /\ secret_hash t = sha256 presented
  /\ (forall t0, dict_get (tokens d) (token_id t) = Some t0 -> ~ (tk_publisher t0 = canonical_name publisher /\ minted_by t0 = user)).
Proof.
  intros Hok%directory_reachable_ok Hrun Hlater presented at2 t d3 Hver. apply verify_spec in Hver as (-> & Ht & Hpre & Hh & Hr & Hb & Hm).
  assert (Hok1 : directory_ok fromisoformat d1) by (eapply directory_step_ok; [exact Hok|exists (RemoveMember publisher user actor at_); by rewrite Hrun]).
  assert (Hok2 : directory_ok fromisoformat d2) by (eapply (star_invariant _ (directory_ok fromisoformat)); [apply directory_step_ok|exact Hlater|done]).
  assert (Hid : str_take TOKEN_ID_CHARS (sha256 presented) = token_id t) by (by destruct (do_tokens _ _ Hok2 _ _ (dict_get_elem _ _ _ Ht))).
  rewrite Hid in Ht. split_and!; try done; [by apply dict_mem_true|]. intros t0 Ht0 [Hp Hby]. apply run_ok in Hrun; [|done].
  assert (exists t1, dict_get (tokens d1) (token_id t) = Some t1 /\ revoked t1 = true) as (t1 & Ht1 & Hr1).
  { inversion Hrun; subst. cbn [tokens]. rewrite revoke_get, Ht0. eexists. split; [done|]. cbn. unfold minted_for.
    rewrite Hp, !String.eqb_refl. cbn. by destruct (revoked t0) eqn:E. }
  destruct (star_revoked _ _ _ _ _ _ _ Hok1 Hlater Ht1 Hr1) as (t2 & Ht2 & Hr2). congruence.
Qed.

(** C35: a directory survives storage: what calls can reach is restored, from
    its users in any order and the rest of its tables, to the same directory,
    so that no check of [restore] refuses what the directory itself wrote. *)
Theorem restore_roundtrip (d : PrincipalDirectory) : reachable d ->
  restore fromisoformat (elements (users d)) (publishers d) (map snd (memberships d)) (map snd (tokens d)) (audit d) = Ok d.
Proof. intros Hok%directory_reachable_ok. by apply restore_ok. Qed.

(** A publisher always has an owner, who is a registered user, under the
    canonical form of a valid name; and memberships and tokens name known
    publishers and users. *)
Theorem publishers_keep_an_owner (d : PrincipalDirectory) : reachable d ->
  (forall p, p ∈ keys (publishers d) -> is_name p = true /\ canonical_name p = p
     /\ exists u m, dict_get (memberships d) (p, u) = Some m /\ mb_role m = Owner /\ u ∈ users d)
  /\ (forall p u m, dict_get (memberships d) (p, u) = Some m -> p ∈ keys (publishers d) /\ u ∈ users d)
  /\ (forall id t, dict_get (tokens d) id = Some t -> tk_publisher t ∈ keys (publishers d) /\ minted_by t ∈ users d).
Proof.
  intros Hok%directory_reachable_ok.
  assert (Hm : forall p u m, dict_get (memberships d) (p, u) = Some m -> p ∈ keys (publishers d) /\ u ∈ users d).
  { intros p u m Hm%dict_get_elem. destruct (do_members _ _ Hok _ _ Hm) as (Heq & Hu & Hp). injection Heq as -> ->. done. }
  split_and!; [|done|].
  - intros p Hp. destruct (do_publishers _ _ Hok p Hp). destruct (do_owner _ _ Hok p Hp) as (u & m & Hu & Hr). split_and!; try done. exists u, m. split_and!; try done. by eapply Hm.
  - intros id t Ht%dict_get_elem. by destruct (do_tokens _ _ Hok _ _ Ht) as (_ & _ & ? & ? & _).
Qed.

(** What was minted verifies: the plaintext of a new token resolves to its
    record until it expires, and the token acts for its publisher, on its pack
    when it is scoped to one. *)
Theorem minted_tokens_verify (d d1 : PrincipalDirectory) publisher by_ at_ expires pack entropy plaintext t : reachable d ->
  mint_token fromisoformat sha256 publisher by_ at_ expires pack entropy d = (Ok (plaintext, t), d1) ->
  (forall at2, before fromisoformat at2 expires -> verify_token fromisoformat sha256 plaintext at2 d1 = (Ok t, d1))
  /\ (forall p k, authorize_token t p k d1 = (Ok tt, d1) <->
        canonical_name p = canonical_name publisher /\ match pack with Some s => canonical_name k = canonical_name s | None => True end).
Proof.
  intros Hok%directory_reachable_ok Hmint. pose proof (mint_token_outcome fromisoformat sha256 repr publisher by_ at_ expires pack entropy d Hok) as H.
  rewrite Hmint in H. cbn [outcome] in H.
  assert (Hpair : plaintext = TOKEN_PREFIX +:+ entropy /\ t = mkToken (str_take TOKEN_ID_CHARS (sha256 (TOKEN_PREFIX +:+ entropy))) (canonical_name publisher) by_
     (canonical_name <$> pack) (sha256 (TOKEN_PREFIX +:+ entropy)) at_ expires false "") by (by eapply mint_token_answer).
  destruct Hpair as [-> ->]. inversion H; subst. split.
  - intros at2 Hb. apply verify_spec. split_and!; try done.
    + cbn [tokens token_id]. by rewrite dict_get_set, decide_True.
    + apply startswith_spec. by exists entropy.
    + cbn [memberships tk_publisher minted_by]. match goal with H : allowed _ _ _ _ |- _ => destruct H as (m & Hm & _) end. unfold dict_mem. by rewrite Hm.
  - intros p k. unfold authorize_token. rewrite require_bind. cbn [tk_publisher tk_pack].
    destruct (String.eqb_spec (canonical_name publisher) (canonical_name p)) as [Heq|Hne]; [|split; [done|by intros [? _]]].
    destruct pack as [s|]; cbn; [|by split].
    destruct (String.eqb_spec (canonical_name s) (canonical_name k)) as [Hk|Hk]; split; try done. by intros [_ ?].
Qed.
End correctness.

(** * On a directory with a publisher and a member who leaves *)

Definition demo_iso (s : string) : option datetime := Some (Naive (Z.of_nat (String.length s))).
Notation demo_run := (run demo_iso id id).
Notation demo_step := (dstep demo_iso id id).

Definition after (cs : list call) : PrincipalDirectory := foldl (fun d c => (demo_run c d).2) empty_directory cs.

Lemma after_reachable cs : star demo_step empty_directory (after cs).
Proof.
  unfold after. assert (H : forall d, star demo_step d (foldl (fun d c => (demo_run c d).2) d cs)); [|apply H].
  induction cs as [|c cs IH]; intros d; [apply star_refl|]. cbn. eapply star_step; [by exists c|apply IH].
Qed.

Lemma after_snoc cs c : is_ok (demo_run c (after cs)).1 = true -> demo_run c (after cs) = (Ok tt, after (cs ++ [c])).
Proof.
  intros H. unfold after. rewrite foldl_app. cbn [foldl]. fold (after cs). destruct (demo_run c (after cs)) as [[[]|e] d]; [done|]. by cbn in H.
Qed.

Definition demo_calls : list call :=
  [RegisterUser "ann"; RegisterUser "bob"; RegisterPublisher "acme" "ann" "t"; AddMember "acme" "bob" Member "ann" "t"].
Definition demo_minted : list call := demo_calls ++ [MintFor "ACME" "bob" "t" "tttt" (Some "Img.Tools") "x"].
Definition demo_removal : call := RemoveMember "acme" "bob" "ann" "tt".

(** Somebody else's token verifies after bob left. *)
Definition demo_later : PrincipalDirectory := (demo_run (MintFor "acme" "ann" "t" "tttt" None "y") (after (demo_calls ++ [demo_removal]))).2.

Lemma calls_follow_the_rules_witness :
  demo_run demo_removal (after demo_minted) = (Ok tt, after (demo_minted ++ [demo_removal]))
  /\ effect demo_iso id id demo_removal (after demo_minted) (after (demo_minted ++ [demo_removal]))
  /\ demo_run (RemoveMember "acme" "ann" "bob" "tt") (after demo_minted) = (Err (Refused (Forbidden "bob" "acme" Member ManageMembers)), after demo_minted).
Proof.
  assert (H : demo_run demo_removal (after demo_minted) = (Ok tt, after (demo_minted ++ [demo_removal]))) by (apply after_snoc; vm_compute; reflexivity).
  split_and!; [exact H| |vm_compute; reflexivity].
  apply (calls_follow_the_rules demo_iso id id demo_removal (after demo_minted) (after_reachable demo_minted)). exact H.
Defined.

Lemma changes_are_authorized_witness : exists rs r m, audit (after (demo_minted ++ [demo_removal])) = audit (after demo_minted) ++ rs
  /\ r ∈ rs /\ ar_subject r = "acme" /\ dict_get (memberships (after demo_minted)) ("acme", ar_actor r) = Some m /\ mb_role m = Owner.
Proof.
  destruct (changes_are_authorized demo_iso id id demo_removal (after demo_minted) (after (demo_minted ++ [demo_removal])) (after_reachable demo_minted))
    as (rs & Hrs & Hpub & _); [apply after_snoc; vm_compute; reflexivity|].
  destruct (Hpub "acme") as (r & m & H); [vm_compute; left|right; exists "bob"; vm_compute; discriminate|].
  exists rs, r, m. split; [exact Hrs|exact H].
Defined.

Lemma tokens_die_with_membership_witness : exists t, verify_token demo_iso id "dinkster_pat_y" "ttt" demo_later = (Ok t, demo_later)
  /\ minted_by t = "ann" /\ (tk_publisher t, minted_by t) ∈ keys (memberships demo_later).
Proof.
  exists (mkToken "dinkster_pat" "acme" "ann" None "dinkster_pat_y" "t" "tttt" false "").
  assert (Hver : verify_token demo_iso id "dinkster_pat_y" "ttt" demo_later
    = (Ok (mkToken "dinkster_pat" "acme" "ann" None "dinkster_pat_y" "t" "tttt" false ""), demo_later)) by (vm_compute; reflexivity).
  split_and!; [exact Hver|reflexivity|].
  apply (tokens_die_with_membership demo_iso id id (after demo_calls) (after (demo_calls ++ [demo_removal])) demo_later "acme" "bob" "ann" "tt"
    (after_reachable demo_calls)) with (presented := "dinkster_pat_y") (at2 := "ttt") (d3 := demo_later).
  - apply after_snoc. vm_compute. reflexivity.
  - apply star_one. by exists (MintFor "acme" "ann" "t" "tttt" None "y").
  - exact Hver.
Defined.

(** The token bob minted is refused after his removal, and when he is back. *)
Lemma bobs_token_is_refused : (verify_token demo_iso id "dinkster_pat_x" "tt" (after demo_minted)).1 <> Err (Refused UnknownToken)
  /\ is_ok (verify_token demo_iso id "dinkster_pat_x" "tt" (after demo_minted)).1 = true
  /\ is_ok (verify_token demo_iso id "dinkster_pat_x" "tt" (after (demo_minted ++ [demo_removal]))).1 = false
  /\ is_ok (verify_token demo_iso id "dinkster_pat_x" "tt" (after (demo_minted ++ [demo_removal; AddMember "acme" "bob" Member "ann" "ttt"]))).1 = false.
Proof. split_and!; vm_compute; (discriminate || reflexivity). Qed.

Lemma restore_roundtrip_witness : publishers (after demo_minted) = [("acme", "acme")]
  /\ restore demo_iso (elements (users (after demo_minted))) (publishers (after demo_minted)) (map snd (memberships (after demo_minted)))
       (map snd (tokens (after demo_minted))) (audit (after demo_minted)) = Ok (after demo_minted).
Proof. split; [vm_compute; reflexivity|]. apply (restore_roundtrip demo_iso id id (after demo_minted) (after_reachable demo_minted)). Defined.

Lemma publishers_keep_an_owner_witness : is_ok (demo_run (RemoveMember "acme" "ann" "ann" "tt") (after demo_minted)).1 = false
  /\ exists u m, dict_get (memberships (after demo_minted)) ("acme", u) = Some m /\ mb_role m = Owner /\ u ∈ users (after demo_minted).
Proof.
  split; [vm_compute; reflexivity|].
  apply (publishers_keep_an_owner demo_iso id id (after demo_minted) (after_reachable demo_minted)). vm_compute. left.
Defined.

Lemma minted_tokens_verify_witness : exists plaintext t d1,
  mint_token demo_iso id "ACME" "bob" "t" "tttt" (Some "Img.Tools") "x" (after demo_calls) = (Ok (plaintext, t), d1)
  /\ verify_token demo_iso id plaintext "tt" d1 = (Ok t, d1).
Proof.
  destruct (mint_token demo_iso id "ACME" "bob" "t" "tttt" (Some "Img.Tools") "x" (after demo_calls)) as [[[plaintext t]|e] d1] eqn:Hm; [|vm_compute in Hm; discriminate Hm].
  exists plaintext, t, d1. split; [reflexivity|].
  apply (minted_tokens_verify demo_iso id id (after demo_calls) d1 "ACME" "bob" "t" "tttt" (Some "Img.Tools") "x" plaintext t (after_reachable demo_calls) Hm).
  reflexivity.
Defined.

(** * What restoring does not look at *)

(** [restore] does not check who minted a token. A stored token without a
    minter is accepted; then revoking it in nobody's name marks it revoked and
    raises before the record is written. *)
Lemma restore_trusts_minters : exists d d',
  restore demo_iso ["ann"] [("acme", "acme")] [mkMember "ann" "acme" Owner] [mkToken "h" "acme" "" None "h" "" "t" false ""] [] = Ok d
  /\ demo_run (RevokeToken "h" "" "t" "why") d = (Err (Refused NoActor), d')
  /\ revoked <$> dict_get (tokens d') "h" = Some true /\ audit d' = [].
Proof. eexists _, _. split_and!; vm_compute; reflexivity. Qed.
