(* ===== verification/Admission.v ===== *)
(** Admission: what the registry publishes (dinkster_registry: admission.py,
    and of model.py the releases, the reviews and the bindings of
    repositories): the verdict on a submission, the recording of an accepted
    one in the grant table and the release index, and the lifecycle of a
    review.  Parsing of versions is packaging's and an argument, [pep440]; the
    order in which a set of claims is walked is another, [enum]. *)
From S2P Require Import Prelude PyStr Names Grants.
From Stdlib Require Import SpecFloat.

Local Open Scope string_scope.
Local Open Scope list_scope.

(** * Evidence *)

Record DoctorEvidence := mkEvidence { ev_pack_name : string; ev_ok : bool; ev_node_types : list string; ev_error_codes : list string }.

Inductive evidence_error := ReportNotJson | ReportNotObject | ReportVersion | ReportFields | FindingNotObject | FindingFields.

Definition REPORT_VERSION : Z := 1.

(** [value == 1]: also [True], and the float. *)
Definition equals_version (v : option pyval) : bool :=
  match v with
  | Some (VInt z) => (z =? REPORT_VERSION)%Z
  | Some (VBool b) => b
  | Some (VFloat f) => SFeqb f (S754_finite false 4503599627370496 (-52))
  | _ => false
  end.

Fixpoint all_strings (l : list pyval) : option (list string) :=
  match l with
  | [] => Some []
  | VStr s :: l' => cons s <$> all_strings l'
  | _ :: _ => None
  end.

(** The codes of the findings whose severity is ["error"]. *)
Fixpoint error_codes (findings : list pyval) : result evidence_error (list string) :=
  match findings with
  | [] => Ok []
  | VDict entry :: findings' =>
      match vdict_get entry "severity", vdict_get entry "code" with
      | Some (VStr severity), Some (VStr code) =>
          codes ← error_codes findings'; Ok (if String.eqb severity "error" then code :: codes else codes)
      | _, _ => Err FindingFields
      end
  | _ :: _ => Err FindingNotObject
  end.

Section registry.
Variable json_loads : string -> option pyval.
Variable pep440 : string -> option (string * bool).
Variable enum : gset string -> list string.

Definition from_report_json (text : string) : result evidence_error DoctorEvidence :=
  match json_loads text with
  | None => Err ReportNotJson
  | Some (VDict report) =>
      if negb (equals_version (vdict_get report "reportVersion")) then Err ReportVersion
      else match vdict_get report "pack", vdict_get report "ok", vdict_get report "nodeTypes", vdict_get report "findings" with
           | Some (VStr pack), Some (VBool ok), Some (VList types), Some (VList findings) =>
               match all_strings types with
               | Some node_types => codes ← error_codes findings; Ok (mkEvidence pack ok node_types codes)
               | None => Err ReportFields
               end
           | _, _, _, _ => Err ReportFields
           end
  | Some _ => Err ReportNotObject
  end.

(** * Versions and digests *)

Inductive version_problem := NotAVersion | LocalVersion | NotNormalized (form : string).

(** [pep440] gives the normalized text and whether it has a local segment. *)
Definition validate_version (text : string) : option version_problem :=
  match pep440 text with
  | None => Some NotAVersion
  | Some (form, local) => if local then Some LocalVersion else if negb (String.eqb form text) then Some (NotNormalized form) else None
  end.

(** [str(Version.parse(text))]. *)
Definition parsed_version (text : string) : option string :=
  match validate_version text with Some _ => None | None => fst <$> pep440 text end.

Definition ARTIFACT_DIGEST_PREFIX : string := "blake3:".
Definition hex_char (c : Ascii.ascii) : bool := char_decimal c || in_range 97 102 c.

Definition digest_ok (text : string) : bool :=
  startswith ARTIFACT_DIGEST_PREFIX text
  && (let value := str_drop (String.length ARTIFACT_DIGEST_PREFIX) text in (String.length value =? 64)%nat && str_all hex_char value).

(** * Releases *)

Record ReleaseTemplate := mkTemplate {
  tp_id : string;
  tp_name : string;
  tp_digest : string;
  tp_path : string;
  tp_description : string;
  tp_tags : list string;
  tp_family : string;
  tp_models : list string;
  tp_assets : list string;
  tp_thumbnail_digest : string;
  tp_thumbnail_media_type : string;
  tp_thumbnail_path : string;
}.

Record Release := mkRelease {
  r_pack : string;
  r_version : string;
  r_digest : string;
  r_publisher : string;
  r_claims : list string;
  r_node_types : list string;
  r_templates : list ReleaseTemplate;
}.

Definition ReleaseIndex := list ((string * string) * Release).

Definition release_key (r : Release) : string * string := (r_pack r, r_version r).

Definition get (releases : ReleaseIndex) (pack version : string) : option Release := dict_get releases (pack, version).

(** [RegistryError]s of recording. *)
Inductive acceptance_error :=
| RejectedVerdict
| NotAccepted
| NoReviewTransitions
| ClaimsMismatch (expected got : list string)
| GrantRefused (e : registry_error)
| BadVersion
| AlreadyPublished (digest : string).

Definition add (releases : ReleaseIndex) (r : Release) : result acceptance_error (Release * ReleaseIndex) :=
  match dict_get releases (release_key r) with
  | Some existing => if String.eqb (r_digest existing) (r_digest r) then Ok (existing, releases) else Err (AlreadyPublished (r_digest existing))
  | None => Ok (r, dict_set releases (release_key r) r)
  end.

(** [ReleaseIndex(releases)]. *)
Fixpoint index_init (rs : list Release) (releases : ReleaseIndex) : result acceptance_error ReleaseIndex :=
  match rs with
  | [] => Ok releases
  | r :: rs' => added ← add releases r; index_init rs' added.2
  end.

(** * Repositories *)

Inductive binding_error := NoRepository | BoundTo (pack : string).

Definition bind (bindings : list (string * string)) (repo_id pack : string) : result binding_error (list (string * string)) :=
  if String.eqb repo_id "" then Err NoRepository
  else match dict_get bindings repo_id with
       | Some existing => if String.eqb existing pack then Ok (dict_set bindings repo_id pack) else Err (BoundTo existing)
       | None => Ok (dict_set bindings repo_id pack)
       end.

(** * Reviews *)

Inductive VersionState := SSubmitted | SAccepted | SNeedsReview | SRejected | SYanked.

Definition transitions (s : VersionState) : list VersionState :=
  match s with
  | SSubmitted => [SAccepted; SNeedsReview; SRejected]
  | SNeedsReview => [SAccepted; SRejected]
  | SRejected => [SNeedsReview]
  | SAccepted => [SYanked]
  | SYanked => []
  end.

Definition reason_required (s : VersionState) : bool :=
  match s with SNeedsReview | SRejected | SYanked => true | _ => false end.

Record ReviewTransition := mkTransition { to_state : VersionState; rt_actor : string; rt_reason : string; rt_at : string }.

(** The history, first transition first. *)
Definition ReviewLog := list ReviewTransition.

Inductive review_error := NoTransitions | NeedsActor | CannotMove (from to : VersionState) | NeedsReason (to : VersionState).

Definition state (log : ReviewLog) : result review_error VersionState :=
  match last log with Some t => Ok (to_state t) | None => Err NoTransitions end.

Definition start (actor at_ : string) : result review_error ReviewLog :=
  if String.eqb actor "" then Err NeedsActor else Ok [mkTransition SSubmitted actor "" at_].

#[local] Instance VersionState_eq_dec : EqDecision VersionState.
Proof. solve_decision. Defined.

Definition allows (s to : VersionState) : bool := bool_decide (to ∈ transitions s).

Definition advance (log : ReviewLog) (to : VersionState) (actor at_ reason : string) : result review_error ReviewLog :=
  if String.eqb actor "" then Err NeedsActor
  else s ← state log;
       if negb (allows s to) then Err (CannotMove s to)
       else if reason_required to && String.eqb reason "" then Err (NeedsReason to)
       else Ok (log ++ [mkTransition to actor reason at_]).

(** * Submissions and verdicts *)

Record Submission := mkSubmission {
  s_publisher : string;
  s_pack_name : string;
  s_namespaces : list string;
  s_version : string;
  s_digest : string;
  s_evidence : DoctorEvidence;
  s_templates : list ReleaseTemplate;
  s_executes : list string;
}.

Inductive name_label := PublisherId | PackName | NamespaceClaim.

Inductive finding :=
| InvalidName (label : name_label) (name : string) (problem : name_problem)
| InvalidVersion (problem : version_problem)
| InvalidDigest
| EvidenceMismatch
| DoctorFailed (codes : list string)
| NodeTypeUncovered (node_type : string)
| ReleaseImmutable (digest : string)
| NamespaceReserved (c : string)
| NamespaceTaken (c : string) (owner : option string)
| FirstClaim (c : string).

(** The severity of all but the last is ["error"]. *)
Definition is_error (f : finding) : bool := match f with FirstClaim _ => false | _ => true end.

Inductive verdict_state := VAccepted | VNeedsReview | VRejected.

Record Verdict := mkVerdict { v_state : verdict_state; v_findings : list finding; new_claims : list string; already_published : bool }.

(** The pack's name is the first claim. *)
Definition claims_of (s : Submission) : list string :=
  keys (foldl (fun seen c => dict_set seen (canonical_claim c) tt) [] (s_pack_name s :: s_namespaces s)).

Definition name_findings (label : name_label) (problem : option name_problem) (name : string) : list finding :=
  match problem with Some p => [InvalidName label name p] | None => [] end.

Definition grammar_findings (s : Submission) : list finding :=
  name_findings PublisherId (validate_name (s_publisher s)) (s_publisher s)
  ++ name_findings PackName (validate_name (s_pack_name s)) (s_pack_name s)
  ++ concat (map (fun c => name_findings NamespaceClaim (validate_claim c) c) (s_namespaces s))
  ++ match validate_version (s_version s) with Some p => [InvalidVersion p] | None => [] end
  ++ (if digest_ok (s_digest s) then [] else [InvalidDigest]).

Definition doctor_findings (e : DoctorEvidence) : list finding :=
  if ev_ok e then [] else [DoctorFailed (sorted_set (list_to_set (ev_error_codes e)))].

Definition coverage_findings (s : Submission) : list finding :=
  concat (map (fun t => if bool_decide (t ∈ s_executes s) then []
                        else if existsb (fun c => claim_covers c t) (claims_of s) then [] else [NodeTypeUncovered t])
            (ev_node_types (s_evidence s))).

(** The walk over the claims: findings, new claims and first claims. *)
Fixpoint claim_findings (grants : GrantTable) (publisher : string) (claims : list string) :
  result registry_error (list finding * list string * list string) :=
  match claims with
  | [] => Ok ([], [], [])
  | c :: claims' =>
      status ← evaluate grants c publisher;
      rest ← claim_findings grants publisher claims';
      let '(fs, news, firsts) := rest in
      Ok (match status with
          | DeniedReserved => (NamespaceReserved c :: fs, news, firsts)
          | DeniedTaken => (NamespaceTaken c (owner_of grants c) :: fs, news, firsts)
          | Free => (FirstClaim c :: fs, c :: news, c :: firsts)
          | Grantable => (fs, c :: news, firsts)
          | Granted => (fs, news, firsts)
          end)
  end.

Definition rejected (fs : list finding) : Verdict := mkVerdict VRejected fs [] false.

Definition admit_submission (s : Submission) (grants : GrantTable) (releases : ReleaseIndex) : result registry_error Verdict :=
  let grammar := grammar_findings s in
  if bool_decide (grammar <> []) then Ok (rejected grammar)
  else
    let pack := canonical_name (s_pack_name s) in
    let evidence := s_evidence s in
    if negb (String.eqb (canonical_name (ev_pack_name evidence)) pack) then Ok (rejected [EvidenceMismatch])
    else
      let version := default "" (parsed_version (s_version s)) in
      let findings := doctor_findings evidence ++ coverage_findings s in
      let existing := get releases pack version in
      if match existing with Some r => String.eqb (r_digest r) (s_digest s) | None => false end then Ok (mkVerdict VAccepted [] [] true)
      else
        let findings := findings ++ match existing with Some r => [ReleaseImmutable (r_digest r)] | None => [] end in
        walk ← claim_findings grants (s_publisher s) (claims_of s);
        let '(fs, news, firsts) := walk in
        let findings := findings ++ fs in
        Ok (if existsb is_error findings then rejected findings
            else match firsts with
                 | [] => mkVerdict VAccepted findings news false
                 | _ => mkVerdict VNeedsReview findings news false
                 end).

(** * Recording *)

Record Registry := mkRegistry { table : GrantTable; releases : ReleaseIndex }.

Definition P (A : Type) : Type := method Registry acceptance_error A.

#[local] Instance P_ret : MRet P := method_ret.
#[local] Instance P_bind : MBind P := @method_bind Registry acceptance_error.

Definition fail {A} (e : acceptance_error) : P A := fun reg => (Err e, reg).

Fixpoint grant_all (publisher : string) (claims : list string) : P unit :=
  match claims with
  | [] => mret tt
  | c :: claims' =>
      _ ← (fun reg => match grant (table reg) c publisher with
                      | Ok (_, t) => (Ok tt, mkRegistry t (releases reg))
                      | Err e => (Err (GrantRefused e), reg)
                      end) : P unit;
      grant_all publisher claims'
  end.

Definition not_held (grants : GrantTable) (publisher c : string) : bool :=
  negb (bool_decide (owner_of grants c = Some (canonical_name publisher))).

Definition required_claims (grants : GrantTable) (s : Submission) : gset string :=
  list_to_set (List.filter (not_held grants (s_publisher s)) (claims_of s)).

Definition declared_claims (v : Verdict) : gset string := list_to_set (map canonical_claim (new_claims v)).

Definition release_of (s : Submission) (version : string) : Release :=
  mkRelease (canonical_name (s_pack_name s)) version (s_digest s) (canonical_name (s_publisher s)) (claims_of s)
    (ev_node_types (s_evidence s)) (s_templates s).

Definition index_release (s : Submission) : P Release :=
  match parsed_version (s_version s) with
  | None => fail BadVersion
  | Some version => fun reg =>
      match add (releases reg) (release_of s version) with
      | Ok (r, releases') => (Ok r, mkRegistry (table reg) releases')
      | Err e => (Err e, reg)
      end
  end.

(** Past the verdict and the review. *)
Definition record_reviewed (s : Submission) (v : Verdict) : P Release := fun reg =>
  let required := required_claims (table reg) s in
  if negb (bool_decide (declared_claims v = required)) then
    (Err (ClaimsMismatch (sorted_set required) (sorted_set (declared_claims v))), reg)
  else (_ ← grant_all (s_publisher s) (enum required); index_release s) reg.

Definition record_acceptance (s : Submission) (v : Verdict) (review : ReviewLog) : P Release :=
  match v_state v with
  | VRejected => fail RejectedVerdict
  | _ => match state review with Ok SAccepted => record_reviewed s v | Ok _ => fail NotAccepted | Err _ => fail NoReviewTransitions end
  end.

(** What is handed to one recording: a submission, the verdict it got, the
    grants and the index that verdict saw, and the review. *)
Record Attempt := mkAttempt {
  at_submission : Submission;
  at_verdict : Verdict;
  at_grants : GrantTable;
  at_index : ReleaseIndex;
  at_review : ReviewLog;
}.

(** The registry's life, with the attempts made so far: recordings, whether
    they return or raise, of verdicts reached with any grants and an earlier
    index, and what happens to grants besides. *)
Inductive registry_event : Registry * list Attempt -> Registry * list Attempt -> Prop :=
| re_record a reg log : admit_submission (at_submission a) (at_grants a) (at_index a) = Ok (at_verdict a) ->
    (forall k r, dict_get (at_index a) k = Some r -> dict_get (releases reg) k = Some r) ->
    registry_event (reg, log) ((record_acceptance (at_submission a) (at_verdict a) (at_review a) reg).2, a :: log)
| re_grants reg log t : registry_step (table reg) t -> registry_event (reg, log) (mkRegistry t (releases reg), log).

Definition empty_registry : Registry * list Attempt := (mkRegistry [] [], []).
End registry.

(** * Grammar and claims *)

Implicit Types (s : Submission) (grants : GrantTable).

Lemma segments_weaken (rest sep rest' sep' : Ascii.ascii -> bool) str open : (forall c, rest c = true -> rest' c = true) ->
  (forall c, sep c = true -> rest' c = false /\ sep' c = true) -> segments rest sep str open = true -> segments rest' sep' str open = true.
Proof.
  intros Hr Hs. revert open. induction str as [|c str IH]; intros open; cbn; [done|]. destruct (rest c) eqn:E; [rewrite (Hr c E); apply IH|].
  destruct (sep c) eqn:E'; [|done]. destruct (Hs c E') as [-> ->]. intros [-> H]%andb_true_iff. by apply IH.
Qed.

(** A name is a claim. *)
Lemma name_is_claim n : is_name n = true -> validate_claim n = None.
Proof.
  unfold is_name, validate_name, validate_claim, validate_with. destruct (String.eqb n ""); [done|]. destruct (_ <? _)%nat; [done|].
  destruct (NAME_RE n) eqn:E; [|done]. cbn. intros _. assert (Hc : CLAIM_RE n = true); [|by rewrite Hc].
  unfold NAME_RE, CLAIM_RE, segmented in *. destruct n as [|c n]; [done|]. apply andb_true_iff in E as [E1 E2]. apply andb_true_iff. split.
  - unfold alpha. by rewrite E1.
  - eapply segments_weaken; [..|exact E2].
    + intros a. unfold lower_alnum, alnum, alpha. by destruct (lower_alpha a), (char_decimal a), (upper_alpha a).
    + intros a Ha. rewrite Ha. cbn. split; [|done]. unfold name_sep in Ha. rewrite !orb_true_iff, !Ascii.eqb_eq in Ha.
      by destruct Ha as [[-> | ->] | ->].
Qed.

Lemma canonical_claim_valid c : validate_claim c = None -> validate_claim (canonical_claim c) = None.
Proof.
  unfold canonical_claim. destruct (is_name c) eqn:E; [|done]. intros _. by apply name_is_claim, is_name_canonical.
Qed.

Lemma claims_of_spec s c : c ∈ claims_of s <-> exists c0, c0 ∈ s_pack_name s :: s_namespaces s /\ c = canonical_claim c0.
Proof.
  assert (H : forall l seen, c ∈ keys (foldl (fun seen c => dict_set seen (canonical_claim c) tt) seen l) <-> c ∈ keys seen \/ exists c0, c0 ∈ l /\ c = canonical_claim c0).
  { induction l as [|x l IH]; intros seen; cbn [foldl]; [set_solver|]. rewrite IH, <- !dict_mem_true. unfold dict_mem. rewrite dict_get_set.
    setoid_rewrite elem_of_cons. destruct (decide (c = canonical_claim x)) as [->|Hne]; naive_solver. }
  unfold claims_of. rewrite H. cbn [keys]. split; [intros [Hn|]; [by apply not_elem_of_nil in Hn|done]|by right].
Qed.

Lemma claims_of_canonical s c : c ∈ claims_of s -> canonical_claim c = c.
Proof. intros (c0 & _ & ->)%claims_of_spec. apply canonical_claim_idem. Qed.

Lemma name_findings_nil label problem name : name_findings label problem name = [] <-> problem = None.
Proof. by destruct problem. Qed.

Section facts.
Variable pep440 : string -> option (string * bool).

Definition grammatical s : Prop :=
  is_name (s_publisher s) = true /\ is_name (s_pack_name s) = true /\ (forall c, c ∈ s_namespaces s -> validate_claim c = None)
  /\ validate_version pep440 (s_version s) = None /\ digest_ok (s_digest s) = true.

Lemma is_name_None n : validate_name n = None <-> is_name n = true.
Proof. unfold is_name. by destruct (validate_name n). Qed.

Lemma grammar_findings_nil s : grammar_findings pep440 s = [] <-> grammatical s.
Proof.
  unfold grammar_findings, grammatical. rewrite !app_nil, !name_findings_nil, !is_name_None.
  assert (Hns : concat (map (fun c => name_findings NamespaceClaim (validate_claim c) c) (s_namespaces s)) = []
    <-> forall c, c ∈ s_namespaces s -> validate_claim c = None).
  { induction (s_namespaces s) as [|c l IH]; cbn; [split; [by intros _ c Hc%not_elem_of_nil|done]|].
    rewrite app_nil, name_findings_nil, IH. setoid_rewrite elem_of_cons. naive_solver. }
  rewrite Hns. destruct (validate_version pep440 (s_version s)), (digest_ok (s_digest s)); naive_solver.
Qed.

Lemma claims_valid s c : grammatical s -> c ∈ claims_of s -> validate_claim c = None.
Proof.
  intros (_ & Hp & Hns & _) (c0 & [->|Hc]%elem_of_cons & ->)%claims_of_spec; apply canonical_claim_valid; [by apply name_is_claim|by apply Hns].
Qed.

Lemma version_parsed text : validate_version pep440 text = None -> parsed_version pep440 text = Some text.
Proof.
  unfold parsed_version. intros H. rewrite H. unfold validate_version in H. destruct (pep440 text) as [[form []]|]; [done| |done].
  destruct (String.eqb_spec form text); [by subst|done].
Qed.

End facts.

(** * Who may hold a claim *)


Definition holdable grants (p c : string) : Prop :=
  reserved_root c = None /\ forall g, g ∈ grants -> claims_conflict (claim g) c = true -> publisher g = canonical_name p.

Lemma owner_held grants c q : canonical_claim c = c -> owner_of grants c = Some q -> exists g, g ∈ grants /\ claim g = c /\ publisher g = q.
Proof.
  unfold owner_of. intros ->. destruct (List.find _ grants) as [g|] eqn:E; [|done]. intros [= <-].
  apply find_spec in E as [Hg Hc%String.eqb_eq]. by exists g.
Qed.

Lemma owner_known grants c g : canonical_claim c = c -> g ∈ grants -> claim g = c -> is_Some (owner_of grants c).
Proof.
  unfold owner_of. intros -> Hg Hc. destruct (List.find _ grants) as [h|] eqn:E; [by eexists|].
  apply find_None in E. rewrite Forall_forall in E. specialize (E g Hg). by rewrite Hc, String.eqb_refl in E.
Qed.

Lemma holdable_owner grants p c : canonical_claim c = c -> holdable grants p c -> owner_of grants c = None \/ owner_of grants c = Some (canonical_name p).
Proof.
  intros Hc [_ Hh]. destruct (owner_of grants c) as [q|] eqn:E; [|by left]. right. apply owner_held in E as (g & Hg & Hgc & <-); [|done].
  f_equal. apply Hh; [done|]. rewrite Hgc. apply conflict_refl.
Qed.

(** What a status says of a canonical claim. *)
Lemma status_holdable grants p c st : canonical_claim c = c -> evaluate grants c p = Ok st ->
  match st with
  | DeniedReserved | DeniedTaken => ~ holdable grants p c
  | Granted => holdable grants p c /\ owner_of grants c = Some (canonical_name p)
  | Grantable => holdable grants p c /\ owner_of grants c = None /\ exists g, g ∈ grants /\ claims_conflict (claim g) c = true
  | Free => holdable grants p c /\ owner_of grants c = None /\ forall g, g ∈ grants -> claims_conflict (claim g) c = false
  end.
Proof.
  intros Hc [_ H]%evaluate_spec. rewrite Hc in H.
  assert (Hnone : c ∉ map claim grants -> owner_of grants c = None).
  { intros Hn. destruct (owner_of grants c) as [q|] eqn:E; [|done]. apply owner_held in E as (g & Hg & Hgc & _); [|done].
    destruct Hn. apply list_elem_of_fmap. by exists g. }
  destruct st.
  - destruct H as (Hr & (g & Hg & Hgc) & Hown). assert (Hh : holdable grants p c) by by split. split; [done|].
    destruct (holdable_owner grants p c Hc Hh) as [Hno|]; [|done]. destruct (owner_known grants c g Hc Hg Hgc). congruence.
  - destruct H as (Hr & Hn & Hg & Hown). split; [by split|]. split; [by apply Hnone|done].
  - destruct H as (Hr & Hfree). split; [split; [done|]|split; [|done]].
    + intros g Hg Hgc. by rewrite Hfree in Hgc.
    + apply Hnone. intros (g & -> & Hg)%list_elem_of_fmap. specialize (Hfree g Hg). by rewrite conflict_refl in Hfree.
  - by intros [Hr _].
  - destruct H as (_ & g & Hg & Hgc & Hp). intros [_ Hh]. by apply Hp, Hh.
Qed.

(** The walk over the claims of a submission, claim by claim. *)
Definition status grants p c : ClaimStatus := match evaluate grants c p with Ok st => st | Err _ => Granted end.

Definition status_findings grants p c : list finding :=
  match status grants p c with
  | DeniedReserved => [NamespaceReserved c]
  | DeniedTaken => [NamespaceTaken c (owner_of grants c)]
  | Free => [FirstClaim c]
  | _ => []
  end.
Definition status_new grants p c : list string := match status grants p c with Free | Grantable => [c] | _ => [] end.
Definition status_first grants p c : list string := match status grants p c with Free => [c] | _ => [] end.

Lemma claim_findings_walk grants p claims : (forall c, c ∈ claims -> validate_claim c = None) ->
  claim_findings grants p claims = Ok (concat (map (status_findings grants p) claims), concat (map (status_new grants p) claims),
                                       concat (map (status_first grants p) claims)).
Proof.
  induction claims as [|c claims IH]; intros Hall; [done|]. cbn [claim_findings map concat].
  destruct (evaluate_total grants c p) as [st Hst]; [apply Hall; left|]. rewrite Hst, IH by (intros; apply Hall; by right). cbn.
  assert (Hs : status grants p c = st) by (unfold status; by rewrite Hst).
  assert (Hf : status_findings grants p c = match st with DeniedReserved => [NamespaceReserved c] | DeniedTaken => [NamespaceTaken c (owner_of grants c)]
    | Free => [FirstClaim c] | _ => [] end) by (unfold status_findings; by rewrite Hs).
  assert (Hn : status_new grants p c = match st with Free | Grantable => [c] | _ => [] end) by (unfold status_new; by rewrite Hs).
  assert (H1 : status_first grants p c = match st with Free => [c] | _ => [] end) by (unfold status_first; by rewrite Hs).
  rewrite Hf, Hn, H1. by destruct st.
Qed.

Lemma status_evaluate grants p c : validate_claim c = None -> evaluate grants c p = Ok (status grants p c).
Proof. intros Hv. unfold status. by destruct (evaluate_total grants c p Hv) as [st ->]. Qed.

(** No error exactly when the publisher may hold every claim. *)
Lemma walk_errors grants p claims : (forall c, c ∈ claims -> validate_claim c = None /\ canonical_claim c = c) ->
  existsb is_error (concat (map (status_findings grants p) claims)) = false <-> forall c, c ∈ claims -> holdable grants p c.
Proof.
  intros Hall. rewrite existsb_false. setoid_rewrite elem_of_concat_map. split.
  - intros H c Hc. destruct (Hall c Hc) as [Hv Hcan]. pose proof (status_holdable _ _ _ _ Hcan (status_evaluate grants p c Hv)) as Hst.
    destruct (status grants p c) eqn:E; try apply Hst; exfalso.
    + discriminate (H (NamespaceReserved c)). exists c. split; [done|]. unfold status_findings. rewrite E. left.
    + discriminate (H (NamespaceTaken c (owner_of grants c))). exists c. split; [done|]. unfold status_findings. rewrite E. left.
  - intros H f (c & Hc & Hf). destruct (Hall c Hc) as [Hv Hcan]. pose proof (status_holdable _ _ _ _ Hcan (status_evaluate grants p c Hv)) as Hst.
    unfold status_findings in Hf. destruct (status grants p c); try (by apply not_elem_of_nil in Hf); try (destruct Hst; by apply H).
    by apply list_elem_of_singleton in Hf as ->.
Qed.

Lemma walk_new grants p claims c : (forall c, c ∈ claims -> validate_claim c = None /\ canonical_claim c = c) ->
  (forall c, c ∈ claims -> holdable grants p c) ->
  c ∈ concat (map (status_new grants p) claims) <-> c ∈ claims /\ owner_of grants c <> Some (canonical_name p).
Proof.
  intros Hall Hh. rewrite elem_of_concat_map.
  assert (Hin : forall d, d ∈ claims -> c ∈ status_new grants p d <-> c = d /\ owner_of grants d <> Some (canonical_name p)).
  { intros d Hd. destruct (Hall d Hd) as [Hv Hcan]. pose proof (status_holdable _ _ _ _ Hcan (status_evaluate grants p d Hv)) as Hst.
    specialize (Hh d Hd). unfold status_new. destruct (status grants p d); rewrite ?list_elem_of_singleton, ?elem_of_nil.
    - destruct Hst as [_ ->]. naive_solver.
    - destruct Hst as (_ & -> & _). naive_solver.
    - destruct Hst as (_ & -> & _). naive_solver.
    - done.
    - done. }
  split; [intros (d & Hd & Hc); by apply Hin in Hc as [-> ?]|]. intros [Hc Ho]. exists c. split; [done|]. by apply Hin.
Qed.

Lemma walk_first grants p claims : (forall c, c ∈ claims -> validate_claim c = None /\ canonical_claim c = c) ->
  concat (map (status_first grants p) claims) <> [] <->
  exists c, c ∈ claims /\ reserved_root c = None /\ forall g, g ∈ grants -> claims_conflict (claim g) c = false.
Proof.
  intros Hall.
  assert (Hin : forall d, d ∈ claims -> status_first grants p d <> [] <-> reserved_root d = None /\ forall g, g ∈ grants -> claims_conflict (claim g) d = false).
  { intros d Hd. destruct (Hall d Hd) as [Hv Hcan]. pose proof (status_evaluate grants p d Hv) as Hev. apply evaluate_spec in Hev as [_ Hev]. rewrite Hcan in Hev.
    unfold status_first. destruct (status grants p d); (split; [intros Hne; try done|intros [Hr Hfree]; try done]).
    - destruct Hev as (_ & (g & Hg & Hgd) & _). specialize (Hfree g Hg). by rewrite Hgd, conflict_refl in Hfree.
    - destruct Hev as (_ & _ & (g & Hg & Hgd) & _). by rewrite Hfree in Hgd.
    - destruct Hev as (_ & g & Hg & Hgd & _). by rewrite Hfree in Hgd. }
  split.
  - intros Hne. destruct (concat _) as [|x l] eqn:E; [done|]. assert (Hx : x ∈ x :: l) by left. rewrite <- E in Hx.
    apply elem_of_concat_map in Hx as (d & Hd & Hx). exists d. split; [done|]. apply Hin; [done|]. intros Hnil. rewrite Hnil in Hx. by apply not_elem_of_nil in Hx.
  - intros (d & Hd & Hfree). apply Hin in Hfree as Hne; [|done]. destruct (status_first grants p d) as [|x l] eqn:E; [done|]. intros Hnil.
    apply (not_elem_of_nil x). rewrite <- Hnil. apply elem_of_concat_map. exists d. split; [done|]. rewrite E. left.
Qed.

(** * Granting several claims *)

Lemma holdable_grant grants c p d t g : grant grants c p = Ok (g, t) -> holdable grants p d -> holdable t p d.
Proof.
  intros (_ & _ & _ & Hp & [[-> _]|[-> _]])%grant_cases [Hr Hh]; split; try done. intros h [Hin| ->%list_elem_of_singleton]%elem_of_app; [by apply Hh|done].
Qed.

Lemma grant_holdable grants c p : validate_claim c = None -> canonical_claim c = c -> holdable grants p c -> exists g t, grant grants c p = Ok (g, t).
Proof.
  intros Hv Hc [Hr Hh]. destruct (grant grants c p) as [[g t]|e] eqn:E; [by exists g, t|].
  assert (Hok : is_ok (grant grants c p) = true) by (apply grant_decision; rewrite Hc; by split_and!). by rewrite E in Hok.
Qed.

Lemma grant_all_spec p claims reg : (forall c, c ∈ claims -> validate_claim c = None /\ canonical_claim c = c /\ holdable (table reg) p c) ->
  table_ok (table reg) ->
  exists t, grant_all p claims reg = (Ok tt, mkRegistry t (releases reg)) /\ table_ok t
  /\ (forall d, canonical_claim d = d -> owner_of t d = if bool_decide (d ∈ claims) then Some (canonical_name p) else owner_of (table reg) d).
Proof.
  revert reg. induction claims as [|c claims IH]; intros reg Hall Hok.
  - exists (table reg). split_and!; [by destruct reg|done|]. intros d _. rewrite bool_decide_false; [done|apply not_elem_of_nil].
  - destruct (Hall c) as (Hv & Hc & Hh); [left|]. destruct (grant_holdable _ _ _ Hv Hc Hh) as (g & t & Hg).
    destruct (grant_decision (table reg) c p) as [_ Hdec]. destruct (Hdec g t Hg) as (Hown & Hother & _). rewrite Hc in Hother.
    destruct (IH (mkRegistry t (releases reg))) as (t' & Hrun & Hok' & Howners); cbn [table].
    { intros d Hd. destruct (Hall d) as (Hv' & Hc' & Hh'); [by right|]. split_and!; [done..|by eapply holdable_grant]. }
    { by eapply grant_table_ok. }
    exists t'. split_and!; [|done|].
    + cbn [grant_all]. unfold mbind, P_bind, method_bind. by rewrite Hg.
    + intros d Hd. rewrite Howners by done. cbn [table]. destruct (bool_decide_reflect (d ∈ claims)) as [Hin|Hnin].
      * rewrite bool_decide_true; [done|by right].
      * destruct (decide (d = c)) as [->|Hne]; [rewrite bool_decide_true by left; done|].
        rewrite bool_decide_false; [|by intros [->|]%elem_of_cons]. apply Hother. by rewrite Hd.
Qed.

(** * Correctness *)

Section correctness.
Variable pep440 : string -> option (string * bool).
Variable enum : gset string -> list string.
Hypothesis enum_elements : forall u, enum u ≡ₚ elements u.
Implicit Types (reg : Registry).

Notation admission s grants index := (admit_submission pep440 s grants index).
Notation recording s v review reg := (record_acceptance pep440 enum s v review reg).

(** The doctor's evidence is of the submitted pack. *)
Definition own_evidence s : Prop := canonical_name (ev_pack_name (s_evidence s)) = canonical_name (s_pack_name s).

(** Every node type is another's to own, or falls under a claim. *)
Definition covered s : Prop :=
  forall t, t ∈ ev_node_types (s_evidence s) -> t ∈ s_executes s \/ exists c, c ∈ claims_of s /\ claim_covers c t = true.

Lemma coverage_findings_nil s : coverage_findings s = [] <-> covered s.
Proof.
  unfold coverage_findings, covered. induction (ev_node_types (s_evidence s)) as [|t l IH]; cbn [map concat]; [split; [by intros _ t Ht%not_elem_of_nil|done]|].
  rewrite app_nil, IH. setoid_rewrite elem_of_cons.
  assert (Ht : (if bool_decide (t ∈ s_executes s) then [] else if existsb (fun c => claim_covers c t) (claims_of s) then [] else [NodeTypeUncovered t]) = []
    <-> t ∈ s_executes s \/ exists c, c ∈ claims_of s /\ claim_covers c t = true).
  { destruct (bool_decide_reflect (t ∈ s_executes s)) as [Hin|Hnin]; [naive_solver|]. destruct (existsb _ _) eqn:E.
    - apply existsb_spec in E. naive_solver.
    - split; [done|]. intros [|(c & Hc & Hct)]; [done|]. rewrite existsb_false in E. by rewrite E in Hct. }
  rewrite Ht. naive_solver.
Qed.

Lemma existsb_app_nil (l1 l2 : list finding) : (forall f, f ∈ l1 -> is_error f = true) -> existsb is_error (l1 ++ l2) = false <-> l1 = [] /\ existsb is_error l2 = false.
Proof.
  intros H. rewrite existsb_app, orb_false_iff. destruct l1 as [|f l1]; [by split; intros [_ ?]|]. cbn. rewrite (H f) by left. by split; intros [? _].
Qed.

Definition published s (index : ReleaseIndex) : option Release := get index (canonical_name (s_pack_name s)) (s_version s).

(** What happens past the grammar and the evidence's pack. *)
Lemma admission_cases s grants index : grammatical pep440 s -> own_evidence s ->
  (exists r, published s index = Some r /\ r_digest r = s_digest s /\ admission s grants index = Ok (mkVerdict VAccepted [] [] true))
  \/ ((forall r, published s index = Some r -> r_digest r <> s_digest s)
     /\ exists v, admission s grants index = Ok v /\ already_published v = false
     /\ (v_state v <> VRejected <-> published s index = None /\ ev_ok (s_evidence s) = true /\ covered s /\ forall c, c ∈ claims_of s -> holdable grants (s_publisher s) c)
     /\ (v_state v <> VRejected -> v_state v = VNeedsReview <->
           exists c, c ∈ claims_of s /\ reserved_root c = None /\ forall g, g ∈ grants -> claims_conflict (claim g) c = false)
     /\ (v_state v <> VRejected -> forall c, c ∈ new_claims v <-> c ∈ claims_of s /\ owner_of grants c <> Some (canonical_name (s_publisher s)))).
Proof.
  intros Hg He. unfold admit_submission. rewrite bool_decide_false by (intros H; by apply H, grammar_findings_nil).
  unfold own_evidence in He. rewrite He, String.eqb_refl. cbn [negb].
  assert (Hv : validate_version pep440 (s_version s) = None) by apply Hg. rewrite (version_parsed _ _ Hv).
  change (default "" (Some (s_version s))) with (s_version s). fold (published s index). destruct (match published s index with Some r => String.eqb (r_digest r) (s_digest s) | None => false end) eqn:Hsame.
  { left. destruct (published s index) as [r|]; [|done]. apply String.eqb_eq in Hsame. by exists r. }
  right. split; [intros r Hr Hd; rewrite Hr in Hsame; by rewrite Hd, String.eqb_refl in Hsame|].
  assert (Hall : forall c, c ∈ claims_of s -> validate_claim c = None /\ canonical_claim c = c).
  { intros c Hc. split; [by eapply claims_valid|by eapply claims_of_canonical]. }
  rewrite claim_findings_walk by (intros c Hc; by apply Hall). cbn [mbind result_bind].
  set (before := (doctor_findings (s_evidence s) ++ coverage_findings s) ++ match published s index with Some r => [ReleaseImmutable (r_digest r)] | None => [] end).
  set (fs := concat (map (status_findings grants (s_publisher s)) (claims_of s))).
  assert (Herr : existsb is_error (before ++ fs) = false <->
    published s index = None /\ ev_ok (s_evidence s) = true /\ covered s /\ forall c, c ∈ claims_of s -> holdable grants (s_publisher s) c).
  { rewrite existsb_app_nil.
    - unfold before, fs. rewrite walk_errors by done. rewrite !app_nil, coverage_findings_nil. unfold doctor_findings.
      destruct (ev_ok (s_evidence s)), (published s index); naive_solver.
    - unfold before, doctor_findings, coverage_findings. intros f. rewrite !elem_of_app, elem_of_concat_map.
      intros [[Hf|(t & _ & Hf)]|Hf].
      + destruct (ev_ok _); [by apply not_elem_of_nil in Hf|by apply list_elem_of_singleton in Hf as ->].
      + destruct (bool_decide _); [by apply not_elem_of_nil in Hf|]. destruct (existsb _ _); [by apply not_elem_of_nil in Hf|by apply list_elem_of_singleton in Hf as ->].
      + destruct (published s index); [by apply list_elem_of_singleton in Hf as ->|by apply not_elem_of_nil in Hf]. }
  destruct (existsb is_error (before ++ fs)) eqn:E.
  - eexists. split_and!; [done|done| | |]; cbn; try done. split; [done|]. by intros H%Herr.
  - pose proof (proj1 Herr eq_refl) as Hgood. pose proof (walk_first grants (s_publisher s) (claims_of s) Hall) as Hfirst.
    pose proof (fun c => walk_new grants (s_publisher s) (claims_of s) c Hall (proj2 (proj2 (proj2 Hgood)))) as Hnew.
    destruct (concat (map (status_first grants (s_publisher s)) (claims_of s))) as [|x l]; eexists; (split; [reflexivity|]); cbn [v_state already_published new_claims]; split_and!; try done.
    + intros _. split; [done|]. by intros H%Hfirst.
    + intros _. split; [|done]. intros _. by apply Hfirst.
Qed.

(** C30: the publish gate is exact and total: it always has a verdict; it turns
    a submission away exactly when its grammar or its evidence is off, or it
    is not a republication of the same bytes and its version is taken, its
    doctor objects, a node type is not covered or another publisher or the
    reserved roots hold a claim; a human looks at exactly those that are the
    first to claim free namespace; and the verdict lists exactly the claims
    the publisher does not hold yet. *)
Theorem verdicts_are_exact s grants index : exists v, admission s grants index = Ok v
  /\ (v_state v <> VRejected <-> grammatical pep440 s /\ own_evidence s
       /\ ((exists r, published s index = Some r /\ r_digest r = s_digest s)
           \/ published s index = None /\ ev_ok (s_evidence s) = true /\ covered s /\ forall c, c ∈ claims_of s -> holdable grants (s_publisher s) c))
  /\ (already_published v = true <-> grammatical pep440 s /\ own_evidence s /\ exists r, published s index = Some r /\ r_digest r = s_digest s)
  /\ (v_state v <> VRejected -> already_published v = false ->
       (v_state v = VNeedsReview <-> exists c, c ∈ claims_of s /\ reserved_root c = None /\ forall g, g ∈ grants -> claims_conflict (claim g) c = false)
       /\ forall c, c ∈ new_claims v <-> c ∈ claims_of s /\ owner_of grants c <> Some (canonical_name (s_publisher s))).
Proof.
  destruct (decide (grammar_findings pep440 s = [])) as [Hg%grammar_findings_nil|Hg].
  2: { exists (rejected (grammar_findings pep440 s)). unfold admit_submission. rewrite bool_decide_true by done.
       rewrite grammar_findings_nil in Hg. split_and!; try done; split; cbn; try done; by intros [? _]. }
  destruct (decide (canonical_name (ev_pack_name (s_evidence s)) = canonical_name (s_pack_name s))) as [He|He].
  2: { exists (rejected [EvidenceMismatch]). unfold admit_submission. rewrite bool_decide_false by (intros H; by apply H, grammar_findings_nil).
       destruct (String.eqb_spec (canonical_name (ev_pack_name (s_evidence s))) (canonical_name (s_pack_name s))); [done|].
       split_and!; try done; split; cbn; try done; by intros (_ & ? & _). }
  destruct (admission_cases s grants index Hg He) as [(r & Hr & Hd & Hadm)|(Hno & v & Hadm & Hal & Hst & Hrev & Hnew)].
  - exists (mkVerdict VAccepted [] [] true). split_and!; [done| | |done]; cbn; (split; [intros _|done]).
    + split_and!; [done|done|]. left. by exists r.
    + split_and!; [done|done|]. by exists r.
  - exists v. split; [done|]. rewrite Hal, Hst. split_and!; try done.
    + split; [intros H; split_and!; [done|done|by right]|]. intros (_ & _ & [(r & Hr & Hd)|H]); [by destruct (Hno r)|done].
    + split; [done|]. intros (_ & _ & r & Hr & Hd). by destruct (Hno r).
    + intros H _. split; [by apply Hrev, Hst|by apply Hnew, Hst].
Qed.

Lemma add_fresh index r : dict_get index (release_key r) = None -> add index r = Ok (r, dict_set index (release_key r) r).
Proof. unfold add. by intros ->. Qed.

Lemma elem_enum u c : c ∈ enum u <-> c ∈ u.
Proof. by rewrite enum_elements, elem_of_elements. Qed.

(** A verdict that is not a rejection is on a well-formed submission. *)
Lemma admission_wellformed s grants index v : admission s grants index = Ok v -> v_state v <> VRejected -> grammatical pep440 s /\ own_evidence s.
Proof.
  intros Hadm Hst. destruct (decide (grammar_findings pep440 s = [])) as [Hg%grammar_findings_nil|Hg].
  2: { unfold admit_submission in Hadm. rewrite bool_decide_true in Hadm by done. by injection Hadm as <-. }
  split; [done|]. unfold admit_submission in Hadm. rewrite bool_decide_false in Hadm by (intros H; by apply H, grammar_findings_nil).
  destruct (String.eqb_spec (canonical_name (ev_pack_name (s_evidence s))) (canonical_name (s_pack_name s))); [done|]. by injection Hadm as <-.
Qed.

Lemma grant_all_ok p claims reg r reg' : table_ok (table reg) -> grant_all p claims reg = (r, reg') -> table_ok (table reg') /\ releases reg' = releases reg
  /\ (r = Ok tt -> (forall c, c ∈ claims -> owner_of (table reg') c = Some (canonical_name p)) /\
       forall d, owner_of (table reg) d = Some (canonical_name p) -> owner_of (table reg') d = Some (canonical_name p)).
Proof.
  revert reg. induction claims as [|c claims IH]; intros reg Hok.
  - intros [= <- <-]. split_and!; try done. intros _. split; [|done]. by intros c Hc%not_elem_of_nil.
  - cbn [grant_all]. unfold mbind, P_bind, method_bind. destruct (grant (table reg) c p) as [[g t]|e] eqn:Hg; [|by intros [= <- <-]].
    destruct (grant_decision (table reg) c p) as [_ Hdec]. destruct (Hdec g t Hg) as (Hown & Hother & _).
    intros Hrun. destruct (IH (mkRegistry t (releases reg))) as (Hok' & Hrel & Hres); [by eapply grant_table_ok|done|]. split_and!; try done.
    intros Hr. destruct (Hres Hr) as [Hc Hd]. split.
    + intros d [->|Hin]%elem_of_cons; [by apply Hd|by apply Hc].
    + intros d Ho. apply Hd. cbn [table]. destruct (decide (canonical_claim d = canonical_claim c)) as [Heq|Hne]; [|by rewrite Hother].
      unfold owner_of in Hown |- *. by rewrite Heq.
Qed.

(** Who holds a claim may hold it. *)
Lemma held_holdable grants p c : table_ok grants -> canonical_claim c = c -> owner_of grants c = Some (canonical_name p) -> holdable grants p c.
Proof.
  intros [Hex Hcl _] Hc (g & Hg & Hgc & Hp)%owner_held; [|done]. split.
  - rewrite Forall_forall in Hcl. destruct (Hcl g Hg) as [_ Hr]. by rewrite <- Hgc.
  - intros h Hh Hconf. destruct (decide (publisher h = canonical_name p)) as [|Hne]; [done|]. rewrite <- Hgc in Hconf.
    rewrite (Hex h g Hh Hg) in Hconf; [done|congruence].
Qed.

(** Only claims that could be held were granted. *)
Lemma grant_all_holdable p claims reg reg' c : grant_all p claims reg = (Ok tt, reg') -> c ∈ claims -> canonical_claim c = c -> holdable (table reg) p c.
Proof.
  revert reg. induction claims as [|d claims IH]; intros reg; [by intros _ H%not_elem_of_nil|]. cbn [grant_all]. unfold mbind, P_bind, method_bind.
  destruct (grant (table reg) d p) as [[g t]|e] eqn:Hg; [|done]. intros Hrun [->|Hin]%elem_of_cons Hc.
  - apply grant_cases in Hg as (_ & Hr & Hown & _). rewrite Hc in Hown.
    by split.
  - destruct (IH _ Hrun Hin Hc) as [Hr Hh]. cbn [table] in Hh. split; [done|]. intros h Hh'. apply Hh.
    apply grant_cases in Hg as (_ & _ & _ & _ & [[-> _]|[-> _]]); [done|]. apply elem_of_app. by left.
Qed.

Lemma elem_required grants s c : c ∈ required_claims grants s <-> c ∈ claims_of s /\ owner_of grants c <> Some (canonical_name (s_publisher s)).
Proof.
  unfold required_claims. rewrite elem_of_list_to_set, list_elem_of_In, List.filter_In, <- list_elem_of_In. unfold not_held.
  by rewrite negb_true_iff, bool_decide_eq_false.
Qed.

(** The claims a verdict declares are those to be granted exactly when its
    publisher holds the same ones as when it was reached. *)
Lemma declared_required s v g0 grants : (forall c, c ∈ new_claims v <-> c ∈ claims_of s /\ owner_of g0 c <> Some (canonical_name (s_publisher s))) ->
  declared_claims v = required_claims grants s <->
  forall c, c ∈ claims_of s -> (owner_of grants c = Some (canonical_name (s_publisher s)) <-> owner_of g0 c = Some (canonical_name (s_publisher s))).
Proof.
  intros Hnew. set (owner := Some (canonical_name (s_publisher s))) in *.
  assert (Hdecl : forall c, c ∈ declared_claims v <-> c ∈ claims_of s /\ owner_of g0 c <> owner).
  { intros c. unfold declared_claims. rewrite elem_of_list_to_set, <- Hnew. split.
    - intros (c0 & -> & Hc0)%list_elem_of_fmap. pose proof Hc0 as [Hin _]%Hnew. by rewrite (claims_of_canonical s c0 Hin).
    - intros Hc. pose proof Hc as [Hin _]%Hnew. apply list_elem_of_fmap. exists c. by rewrite (claims_of_canonical s c Hin). }
  split.
  - intros Heq c Hc. assert (Hboth : owner_of g0 c <> owner <-> owner_of grants c <> owner).
    { split; intros Ho.
      - assert (Hin : c ∈ required_claims grants s) by (rewrite <- Heq; by apply Hdecl). by apply elem_required in Hin as [_ ?].
      - assert (Hin : c ∈ declared_claims v) by (rewrite Heq; by apply elem_required). by apply Hdecl in Hin as [_ ?]. }
    destruct (decide (owner_of grants c = owner)), (decide (owner_of g0 c = owner)); tauto.
  - intros H. apply set_eq. intros c. rewrite Hdecl, elem_required. fold owner. split; intros [Hc Ho]; (split; [done|]); specialize (H c Hc); tauto.
Qed.

(** What recording still needs when its verdict may be old: the publisher may
    hold every claim and holds those it held, and the version is not
    published with other bytes. *)
Definition still_recordable s (g0 : GrantTable) reg : Prop :=
  (forall c, c ∈ claims_of s -> holdable (table reg) (s_publisher s) c
     /\ (owner_of (table reg) c = Some (canonical_name (s_publisher s)) <-> owner_of g0 c = Some (canonical_name (s_publisher s))))
  /\ forall r, published s (releases reg) = Some r -> r_digest r = s_digest s.

Lemma record_succeeds s v g0 reg : table_ok (table reg) -> grammatical pep440 s ->
  (forall c, c ∈ new_claims v <-> c ∈ claims_of s /\ owner_of g0 c <> Some (canonical_name (s_publisher s))) ->
  still_recordable s g0 reg ->
  exists reg' r, record_reviewed pep440 enum s v reg = (Ok r, reg') /\ r = default (release_of s (s_version s)) (published s (releases reg))
  /\ (forall k, dict_get (releases reg') k = if decide (k = (canonical_name (s_pack_name s), s_version s)) then Some r else dict_get (releases reg) k)
  /\ table_ok (table reg')
  /\ forall d, canonical_claim d = d -> owner_of (table reg') d = if bool_decide (d ∈ claims_of s) then Some (canonical_name (s_publisher s)) else owner_of (table reg) d.
Proof.
  intros Hok Hg Hnew [Hhold Hdig].
  assert (Hdecl : declared_claims v = required_claims (table reg) s) by (apply (declared_required s v g0); [done|]; intros c Hc; by apply Hhold).
  destruct (grant_all_spec (s_publisher s) (enum (required_claims (table reg) s)) reg) as (t & Hrun & Hok' & Hown); [|done|].
  { intros c Hc%elem_enum%elem_required. destruct Hc as [Hc _]. split_and!; [by eapply claims_valid|by eapply claims_of_canonical|by apply Hhold]. }
  assert (Hver : parsed_version pep440 (s_version s) = Some (s_version s)) by (apply version_parsed, Hg).
  set (k0 := (canonical_name (s_pack_name s), s_version s)).
  assert (Hadd : exists index', add (releases reg) (release_of s (s_version s)) = Ok (default (release_of s (s_version s)) (published s (releases reg)), index')
    /\ forall k, dict_get index' k = if decide (k = k0) then Some (default (release_of s (s_version s)) (published s (releases reg))) else dict_get (releases reg) k).
  { unfold add. change (release_key (release_of s (s_version s))) with k0. change (dict_get (releases reg) k0) with (published s (releases reg)).
    destruct (published s (releases reg)) as [r|] eqn:Hp.
    - cbn [default]. rewrite (Hdig r) by done. cbn [release_of r_digest]. rewrite String.eqb_refl. eexists. split; [reflexivity|]. intros k.
      destruct (decide (k = k0)) as [->|]; [exact Hp|done].
    - eexists. split; [reflexivity|]. intros k. apply dict_get_set. }
  destruct Hadd as (index' & Hadd & Hindex). exists (mkRegistry t index'). eexists. split_and!; [|reflexivity|exact Hindex|done|].
  - unfold record_reviewed. rewrite Hdecl, (bool_decide_true (required_claims (table reg) s = _)) by done. cbn [negb].
    unfold mbind, P_bind, method_bind. rewrite Hrun. unfold index_release. rewrite Hver. cbn [releases]. by rewrite Hadd.
  - intros d Hd. cbn [table]. rewrite Hown by done. destruct (bool_decide_reflect (d ∈ enum (required_claims (table reg) s))) as [Hin|Hnin].
    + apply elem_enum, elem_required in Hin as [Hin _]. by rewrite bool_decide_true.
    + destruct (bool_decide_reflect (d ∈ claims_of s)) as [Hc|]; [|done]. rewrite elem_enum, elem_required in Hnin.
      destruct (decide (owner_of (table reg) d = Some (canonical_name (s_publisher s)))) as [->|]; [done|]. by destruct Hnin.
Qed.

Lemma recorded_was_recordable s v g0 reg r reg' : table_ok (table reg) -> grammatical pep440 s ->
  (forall c, c ∈ new_claims v <-> c ∈ claims_of s /\ owner_of g0 c <> Some (canonical_name (s_publisher s))) ->
  record_reviewed pep440 enum s v reg = (Ok r, reg') -> still_recordable s g0 reg.
Proof.
  intros Hok Hg Hnew. unfold record_reviewed. destruct (bool_decide_reflect (declared_claims v = required_claims (table reg) s)) as [Hdecl|]; cbn [negb]; [|done].
  pose proof (proj1 (declared_required s v g0 (table reg) Hnew) Hdecl) as Hsame.
  unfold mbind, P_bind, method_bind. destruct (grant_all _ _ reg) as [[[]|e] reg1] eqn:Hrun; [|done].
  destruct (grant_all_ok _ _ _ _ _ Hok Hrun) as (_ & Hrel & _). unfold index_release. rewrite (version_parsed _ _ (proj1 (proj2 (proj2 (proj2 Hg))))), Hrel.
  intros Hadd. split.
  - intros c Hc. split; [|by apply Hsame]. pose proof (claims_of_canonical s c Hc) as Hcan.
    destruct (decide (owner_of (table reg) c = Some (canonical_name (s_publisher s)))) as [Hheld|Hno]; [by apply held_holdable|].
    eapply grant_all_holdable; [exact Hrun| |done]. by apply elem_enum, elem_required.
  - intros r0 Hr0. unfold add in Hadd. change (dict_get (releases reg) _) with (published s (releases reg)) in Hadd. rewrite Hr0 in Hadd. cbn [release_of r_digest] in Hadd.
    by destruct (String.eqb_spec (r_digest r0) (s_digest s)).
Qed.

(** C31: what the gate lets through can be published.  Recording a verdict
    that let a new version pass, once the review accepted it, succeeds exactly
    when its publisher may still hold every claim, holds exactly those it held
    when the verdict was reached, and the version was not published with other
    bytes since; so it always succeeds on the grants and the index the verdict
    saw, in whatever order the claims are granted.  When it succeeds, the
    release (the one of the same bytes that is already there, if any) is
    indexed under its pack and version and no other entry changed, its
    publisher owns all of its claims and no other claim changed hands, every
    node type it does not merely execute is covered by a claim of its own, and
    submitting the same bytes again is accepted as already published. *)
Theorem admitted_submissions_publish s v g0 index0 review reg : table_ok (table reg) -> admission s g0 index0 = Ok v ->
  v_state v <> VRejected -> already_published v = false -> state review = Ok SAccepted ->
  (is_ok (recording s v review reg).1 = true <-> still_recordable s g0 reg)
  /\ (table reg = g0 -> releases reg = index0 -> is_ok (recording s v review reg).1 = true /\ published s (releases reg) = None)
  /\ forall r reg', recording s v review reg = (Ok r, reg') ->
    r = default (release_of s (s_version s)) (published s (releases reg)) /\ r_digest r = s_digest s
    /\ (forall k, dict_get (releases reg') k = if decide (k = (canonical_name (s_pack_name s), s_version s)) then Some r else dict_get (releases reg) k)
    /\ table_ok (table reg')
    /\ (forall d, canonical_claim d = d -> owner_of (table reg') d = if bool_decide (d ∈ claims_of s) then Some (canonical_name (s_publisher s)) else owner_of (table reg) d)
    /\ covered s
    /\ admission s (table reg') (releases reg') = Ok (mkVerdict VAccepted [] [] true).
Proof.
  intros Hok Hadm Hst Hal Hrev. destruct (admission_wellformed s _ _ v Hadm Hst) as [Hg He].
  destruct (admission_cases s g0 index0 Hg He) as [(r & Hr & Hd & Hadm')|(Hno & v' & Hadm' & _ & Hst' & _ & Hnew)].
  { rewrite Hadm in Hadm'. by injection Hadm' as ->. }
  rewrite Hadm in Hadm'. injection Hadm' as <-. apply Hst' in Hst as Hgood. destruct Hgood as (Hnone & Hdoc & Hcov & Hhold). specialize (Hnew Hst).
  assert (Hbody : recording s v review reg = record_reviewed pep440 enum s v reg).
  { unfold record_acceptance. rewrite Hrev. by destruct (v_state v) eqn:Ev; first [done|congruence]. }
  rewrite Hbody. assert (Hiff : is_ok (record_reviewed pep440 enum s v reg).1 = true <-> still_recordable s g0 reg).
  { split.
    - destruct (record_reviewed pep440 enum s v reg) as [[r|e] reg'] eqn:Hrun; [intros _|done]. by eapply recorded_was_recordable.
    - intros Hstill. by destruct (record_succeeds s v g0 reg Hok Hg Hnew Hstill) as (reg' & r & -> & _). }
  split_and!; [exact Hiff| |].
  - intros Ht Hi. rewrite Hi. split; [|done]. apply Hiff. split; [intros c Hc; rewrite Ht; split; [by apply Hhold|done]|].
    intros r Hr. rewrite Hi, Hnone in Hr. done.
  - intros r reg' Hrun. assert (Hstill : still_recordable s g0 reg) by (apply Hiff; by rewrite Hrun).
    destruct (record_succeeds s v g0 reg Hok Hg Hnew Hstill) as (reg1 & r1 & Hrun1 & Hr1 & Hindex & Hok' & Hown).
    rewrite Hrun1 in Hrun. injection Hrun as -> ->.
    assert (Hdig : r_digest r = s_digest s).
    { rewrite Hr1. destruct (published s (releases reg)) as [r0|] eqn:Hp; [by apply Hstill|done]. }
    split_and!; try done.
    destruct (admission_cases s (table reg') (releases reg') Hg He) as [(r2 & _ & _ & Hagain)|(Hno' & _)]; [done|]. exfalso.
    apply (Hno' r); [|done]. unfold published, get. by rewrite Hindex, decide_True.
Qed.

(** An index is rebuilt from its releases. *)
Lemma index_reloads index seen : NoDup (keys (seen ++ index)) -> (forall k r, (k, r) ∈ index -> k = release_key r) ->
  index_init (map snd index) seen = Ok (seen ++ index).
Proof.
  revert seen. induction index as [|[k r] index IH]; intros seen Hnd Hkeys; cbn [map snd index_init]; [by rewrite app_nil_r|].
  assert (Hk : k = release_key r) by (apply Hkeys; left). apply keys_middle in Hnd as [Hfresh Hnd].
  rewrite add_fresh by (by rewrite <- Hk; apply dict_get_None). cbn [mbind result_bind snd]. rewrite <- Hk, (dict_set_fresh seen k r Hfresh), IH.
  - by rewrite <- app_assoc.
  - done.
  - intros k' r' H. apply Hkeys. by right.
Qed.

(** ** What recording keeps, in any state and with any verdict *)

Lemma add_kept index r r' index' k r0 : add index r = Ok (r', index') -> dict_get index k = Some r0 -> dict_get index' k = Some r0.
Proof.
  unfold add. destruct (dict_get index (release_key r)) as [existing|] eqn:E.
  - destruct (String.eqb _ _); [|done]. by intros [= _ <-].
  - intros [= _ <-] Hk. rewrite dict_get_set, decide_False; [done|congruence].
Qed.

Lemma not_held_false grants p c : not_held grants p c = false <-> owner_of grants c = Some (canonical_name p).
Proof. unfold not_held. by rewrite negb_false_iff, bool_decide_eq_true. Qed.

(** Recording, step by step. *)
Lemma recording_inv s v review reg res reg' : table_ok (table reg) -> recording s v review reg = (res, reg') ->
  table_ok (table reg')
  /\ (reg' = reg /\ is_ok res = false
      \/ releases reg' = releases reg /\ is_ok res = false
      \/ exists r version, res = Ok r /\ parsed_version pep440 (s_version s) = Some version /\ v_state v <> VRejected /\ state review = Ok SAccepted
           /\ add (releases reg) (release_of s version) = Ok (r, releases reg')
           /\ forall c, c ∈ claims_of s -> owner_of (table reg') c = Some (canonical_name (s_publisher s))).
Proof.
  intros Hok. unfold record_acceptance.
  assert (Hgo : v_state v <> VRejected -> match state review with Ok SAccepted => record_reviewed pep440 enum s v | Ok _ => fail NotAccepted | Err _ => fail NoReviewTransitions end reg = (res, reg') ->
    table_ok (table reg')
    /\ (reg' = reg /\ is_ok res = false \/ releases reg' = releases reg /\ is_ok res = false
      \/ exists r version, res = Ok r /\ parsed_version pep440 (s_version s) = Some version /\ v_state v <> VRejected /\ state review = Ok SAccepted
           /\ add (releases reg) (release_of s version) = Ok (r, releases reg')
           /\ forall c, c ∈ claims_of s -> owner_of (table reg') c = Some (canonical_name (s_publisher s)))).
  { intros Hst. assert (Hfail : forall e, (Err e, reg) = (res, reg') -> table_ok (table reg') /\ reg' = reg /\ is_ok res = false) by (by intros e [= <- <-]).
    destruct (state review) as [[]|] eqn:Hrev; try (intros H; apply Hfail in H; naive_solver).
    unfold record_reviewed. destruct (bool_decide (declared_claims v = _)) eqn:Hsame; cbn [negb]; [|intros H; apply Hfail in H; naive_solver].
    unfold mbind, P_bind, method_bind. destruct (grant_all _ _ reg) as [[[]|e] reg1] eqn:Hrun.
    2: { intros [= <- <-]. destruct (grant_all_ok _ _ _ _ _ Hok Hrun) as (Hok1 & Hrel & _). split; [done|]. right. by left. }
    destruct (grant_all_ok _ _ _ _ _ Hok Hrun) as (Hok1 & Hrel & Hown). destruct (Hown eq_refl) as [Hnew Hkeep].
    unfold index_release. destruct (parsed_version pep440 (s_version s)) as [version|]; [|intros [= <- <-]; split; [done|right; by left]].
    rewrite Hrel. destruct (add (releases reg) (release_of s version)) as [[r index']|e] eqn:Hadd; intros [= <- <-]; cbn [table releases]; [|split; [done|right; by left]].
    split; [done|]. right. right. exists r, version. split_and!; try done. intros c Hc.
    destruct (not_held (table reg) (s_publisher s) c) eqn:Hheld; [|by apply Hkeep, not_held_false].
    apply Hnew, elem_enum. unfold required_claims. rewrite elem_of_list_to_set, list_elem_of_In, List.filter_In, <- list_elem_of_In. done. }
  destruct (v_state v) eqn:Hst; [apply Hgo; congruence|apply Hgo; congruence|]. intros [= <- <-]. split; [done|]. by left.
Qed.

(** What the gate vouches for. *)
Definition sound_submission s : Prop := grammatical pep440 s /\ own_evidence s /\ ev_ok (s_evidence s) = true /\ covered s.

(** The release is what this attempt's submission said, its verdict let it
    pass and its review accepted it. *)
Definition published_by (a : Attempt) (k : string * string) (r : Release) : Prop :=
  let s := at_submission a in
  r = release_of s (s_version s) /\ k = (canonical_name (s_pack_name s), s_version s)
  /\ v_state (at_verdict a) <> VRejected /\ state (at_review a) = Ok SAccepted
  /\ sound_submission s /\ forall c, c ∈ claims_of s -> holdable (at_grants a) (s_publisher s) c.

Definition vouched (index : ReleaseIndex) (log : list Attempt) : Prop :=
  forall k r, dict_get index k = Some r -> exists a, a ∈ log /\ published_by a k r.

Lemma admitted_sound s v g0 index0 : admission s g0 index0 = Ok v -> v_state v <> VRejected -> already_published v = false ->
  sound_submission s /\ forall c, c ∈ claims_of s -> holdable g0 (s_publisher s) c.
Proof.
  intros Hadm Hst Hal. destruct (admission_wellformed s g0 index0 v Hadm Hst) as [Hg He].
  destruct (admission_cases s g0 index0 Hg He) as [(r & _ & _ & Hadm')|(_ & v' & Hadm' & _ & Hst' & _)]; rewrite Hadm in Hadm'; injection Hadm' as ->; [done|].
  by apply Hst' in Hst as (_ & Hev & Hcov & Hhold).
Qed.

Lemma event_vouched a b : table_ok (table a.1) -> vouched (releases a.1) a.2 -> registry_event pep440 enum a b ->
  table_ok (table b.1) /\ vouched (releases b.1) b.2
  /\ (forall k r, dict_get (releases a.1) k = Some r -> dict_get (releases b.1) k = Some r).
Proof.
  intros Hok Hv Hev. destruct Hev as [t reg0 log Hadm Hold|reg0 log t Hstep]; cbn [fst snd table releases] in *.
  2: { split_and!; try done. exact (registry_step_ok _ _ Hok Hstep). }
  set (s := at_submission t) in *. set (v := at_verdict t) in *.
  assert (Hmore : forall index, (forall k r, dict_get index k = Some r -> (exists a, a ∈ log /\ published_by a k r) \/ published_by t k r) -> vouched index (t :: log)).
  { intros index H k r Hk. destruct (H k r Hk) as [(a & Ha & Hp)|Hp]; [exists a|exists t]; (split; [|done]); by constructor. }
  destruct (recording s v (at_review t) reg0) as [res reg1] eqn:Hrec.
  destruct (recording_inv s v (at_review t) reg0 res reg1 Hok Hrec) as (Hok1 & [[-> _]|[[Hrel _]|(r & version & -> & Hver & Hst & Hrev & Hadd & _)]]); cbn [snd].
  - split_and!; [done| |done]. apply Hmore. intros k r Hk. left. by apply Hv.
  - rewrite Hrel. split_and!; [done| |done]. apply Hmore. intros k r Hk. left. by apply Hv.
  - split_and!; [done| |by intros k r0; apply (add_kept _ _ _ _ _ _ Hadd)]. apply Hmore. intros k r0 Hk. unfold add in Hadd.
    destruct (dict_get (releases reg0) (release_key (release_of s version))) as [existing|] eqn:Hex.
    + destruct (String.eqb _ _); [|done]. injection Hadd as _ Hrel. rewrite <- Hrel in Hk. left. by apply Hv.
    + injection Hadd as _ Hrel. rewrite <- Hrel, dict_get_set in Hk. destruct (decide (k = release_key (release_of s version))) as [->|]; [|left; by apply Hv].
      injection Hk as <-. right. destruct (admission_wellformed s _ _ v Hadm Hst) as [Hg He].
      assert (version = s_version s) as -> by (rewrite (version_parsed _ _ (proj1 (proj2 (proj2 (proj2 Hg))))) in Hver; congruence).
      destruct (already_published v) eqn:Hal.
      * exfalso. destruct (admission_cases s (at_grants t) (at_index t) Hg He) as [(r1 & Hr1 & _)|(_ & v' & Hadm' & Hal' & _)].
        -- unfold published, get in Hr1. apply Hold in Hr1. unfold release_key in Hex. cbn in Hex. congruence.
        -- rewrite Hadm in Hadm'. injection Hadm' as Heq. fold v in Heq. congruence.
      * destruct (admitted_sound s v _ _ Hadm Hst Hal) as [Hsound Hhold]. by split_and!.
Qed.

(** C29: a published version never changes, and everything published passed
    the gate: whatever verdicts are recorded, in time or late, and however
    recordings fail half-way, grants stay exclusive; each release of the index
    was recorded by an attempt that was really made, whose review accepted
    it, and is what its submission said, under its canonical pack and its
    version; that very submission is grammatical, has evidence of its own
    pack to which the doctor did not object, covers with its claims every node
    type it does not execute for others, and its publisher could hold all of
    them when it was judged; and an entry of the index is never removed or
    replaced. *)
Theorem published_versions_never_change reg log reg' log' :
  star (registry_event pep440 enum) empty_registry (reg, log) -> star (registry_event pep440 enum) (reg, log) (reg', log') ->
  table_ok (table reg') /\ vouched (releases reg') log'
  /\ forall k r, dict_get (releases reg) k = Some r -> dict_get (releases reg') k = Some r.
Proof.
  intros H0 H1. assert (Hinv : forall a b, star (registry_event pep440 enum) a b -> table_ok (table a.1) -> vouched (releases a.1) a.2 ->
    table_ok (table b.1) /\ vouched (releases b.1) b.2 /\ forall k r, dict_get (releases a.1) k = Some r -> dict_get (releases b.1) k = Some r).
  { intros a b Hs. induction Hs as [a|a b c Hstep _ IH]; intros Hok Hv; [done|]. destruct (event_vouched a b Hok Hv Hstep) as (Hok1 & Hv1 & Hk1).
    destruct (IH Hok1 Hv1) as (? & ? & Hk2). split_and!; auto. }
  destruct (Hinv _ _ H0) as (Hok & Hv & _); [apply table_ok_nil|done|]. by destruct (Hinv _ _ H1 Hok Hv).
Qed.

(** Nothing is published under somebody else's name: whatever the verdict
    and whenever it is recorded, a submission that is recorded had its review
    accepted, and its publisher owns its pack's name and all of its claims
    when it is. *)
Theorem publishing_needs_ownership s v review reg r reg' : table_ok (table reg) -> recording s v review reg = (Ok r, reg') ->
  v_state v <> VRejected /\ state review = Ok SAccepted
  /\ (forall c, c ∈ claims_of s -> owner_of (table reg') c = Some (canonical_name (s_publisher s)))
  /\ owner_of (table reg') (canonical_claim (s_pack_name s)) = Some (canonical_name (s_publisher s))
  /\ r_digest r = s_digest s.
Proof.
  intros Hok Hrec. destruct (recording_inv _ _ _ _ _ _ Hok Hrec) as (_ & [[_ [=]]|[[_ [=]]|(r0 & version & [= <-] & _ & Hst & Hrev & Hadd & Hown)]]).
  split_and!; try done.
  - apply Hown, claims_of_spec. exists (s_pack_name s). split; [left|done].
  - unfold add in Hadd. destruct (dict_get _ _) as [existing|]; [|by injection Hadd as <- _].
    destruct (String.eqb_spec (r_digest existing) (r_digest (release_of s version))); [|done]. by injection Hadd as <- _.
Qed.
End correctness.

(** * Reviews *)

(** The logs [start] and [advance] make. *)
Inductive recorded : ReviewLog -> Prop :=
| rec_start actor at_ l : start actor at_ = Ok l -> recorded l
| rec_advance l to actor at_ reason l' : recorded l -> advance l to actor at_ reason = Ok l' -> recorded l'.

(** It begins with a submission, everyone in it has a name, each state may
    follow the one before, and judgments say why. *)
Definition lawful (l : list ReviewTransition) : Prop :=
  (exists t, l !! 0%nat = Some t /\ to_state t = SSubmitted /\ rt_reason t = "")
  /\ (forall t, t ∈ l -> rt_actor t <> "")
  /\ forall i a b, l !! i = Some a -> l !! S i = Some b ->
       allows (to_state a) (to_state b) = true /\ (reason_required (to_state b) = true -> rt_reason b <> "").

Lemma advance_ok l to actor at_ reason l' : advance l to actor at_ reason = Ok l' <->
  actor <> "" /\ (exists t, last l = Some t /\ allows (to_state t) to = true) /\ (reason_required to = true -> reason <> "")
  /\ l' = l ++ [mkTransition to actor reason at_].
Proof.
  unfold advance, state. destruct (String.eqb_spec actor "") as [->|Ha]; [split; [done|by intros [? _]]|].
  destruct (last l) as [t|]; cbn [mbind result_bind]; [|split; [done|by intros (_ & (t & [=] & _) & _)]].
  destruct (allows (to_state t) to) eqn:Hal; cbn [negb]; [|split; [done|intros (_ & (t' & [= <-] & H) & _); congruence]].
  destruct (reason_required to) eqn:Hreq; cbn [andb].
  - destruct (String.eqb_spec reason "") as [->|Hr]; [split; [done|by intros (_ & _ & H & _); destruct H]|].
    split; [intros [= <-]|by intros (_ & _ & _ & ->)]. split_and!; try done. by exists t.
  - split; [intros [= <-]|by intros (_ & _ & _ & ->)]. split_and!; try done. by exists t.
Qed.

Lemma lawful_snoc l t : l <> [] -> lawful (l ++ [t]) <->
  lawful l /\ rt_actor t <> "" /\ (exists a, last l = Some a /\ allows (to_state a) (to_state t) = true)
  /\ (reason_required (to_state t) = true -> rt_reason t <> "").
Proof.
  intros Hne. destruct (last l) as [z|] eqn:Hlast; [|by apply last_None in Hlast]. rewrite last_lookup in Hlast.
  assert (Hlen : (length l <> 0)%nat) by (by destruct l). split.
  - intros ((t0 & H0 & H1) & Hact & Hnext). rewrite lookup_app_l in H0 by lia. split; [|split; [|split]].
    + split_and!; [by exists t0| |].
      * intros x Hx. apply Hact, elem_of_app. by left.
      * intros i a b Ha Hb. apply (Hnext i); by apply lookup_app_l_Some.
    + apply Hact, elem_of_app. right. left.
    + exists z. split; [done|]. apply (Hnext (pred (length l)) z t); [by apply lookup_app_l_Some|].
      rewrite lookup_app_r by lia. by replace (S (pred (length l)) - length l)%nat with 0%nat by lia.
    + apply (Hnext (pred (length l)) z t); [by apply lookup_app_l_Some|].
      rewrite lookup_app_r by lia. by replace (S (pred (length l)) - length l)%nat with 0%nat by lia.
  - intros (((t0 & H0 & H1) & Hact & Hnext) & Ha & (a & [= <-] & Hal) & Hr). split_and!.
    + exists t0. split; [by apply lookup_app_l_Some|done].
    + intros x [Hx| ->%list_elem_of_singleton]%elem_of_app; [by apply Hact|done].
    + intros i x y Hx Hy. destruct (decide (S i < length l)%nat) as [Hlt|Hge].
      * rewrite lookup_app_l in Hx, Hy by lia. by apply (Hnext i).
      * pose proof (lookup_lt_Some _ _ _ Hy) as Hi. rewrite length_app in Hi. cbn in Hi. assert (i = pred (length l)) as -> by lia.
        rewrite lookup_app_l in Hx by lia. rewrite lookup_app_r in Hy by lia. replace (S (pred (length l)) - length l)%nat with 0%nat in Hy by lia.
        cbn in Hy. injection Hy as <-. assert (x = z) as -> by congruence. done.
Qed.

(** The history of a review is lawful, and every lawful history is one: the
    logs that starting and advancing make are exactly those that begin with
    the submission, whose every step has an actor and may follow the state
    before it, and whose judgments carry a reason. *)
Theorem review_histories_are_lawful (l : ReviewLog) : recorded l <-> lawful l.
Proof.
  split.
  - induction 1 as [actor at_ l Hs|l to actor at_ reason l' Hrec IH (Ha & Hal & Hr & ->)%advance_ok].
    + unfold start in Hs. destruct (String.eqb_spec actor "") as [|Hne]; [done|]. injection Hs as <-. split_and!.
      * by eexists.
      * by intros t ->%list_elem_of_singleton.
      * by intros [|i] a b.
    + apply lawful_snoc; [by intros ->; destruct Hal as (t & [=] & _)|]. by split_and!.
  - induction l as [|t l IH] using rev_ind; [by intros [(t & [=] & _) _]|]. destruct (decide (l = [])) as [->|Hne].
    + intros ((t0 & [= <-] & Hst & Hr) & Hact & _). destruct t as [st actor reason at_]. cbn in *. subst. apply (rec_start actor at_).
      unfold start. destruct (String.eqb_spec actor ""); [|done]. exfalso. apply (Hact (mkTransition SSubmitted actor "" at_)); [left|done].
    + intros (Hl & Ha & Hal & Hr)%lawful_snoc; [|done]. destruct t as [st actor reason at_]. cbn in *.
      apply (rec_advance l st actor at_ reason); [by apply IH|]. apply advance_ok. by split_and!.
Qed.

(** A withdrawn version stays withdrawn. *)
Lemma yanked_is_final l to actor at_ reason : state l = Ok SYanked -> is_ok (advance l to actor at_ reason) = false.
Proof. unfold advance. intros ->. destruct (String.eqb actor ""); [done|]. by destruct to. Qed.

(** A repository keeps its pack. *)
Lemma bind_keeps bindings repo pack bindings' r p : bind bindings repo pack = Ok bindings' -> dict_get bindings r = Some p -> dict_get bindings' r = Some p.
Proof.
  unfold bind. destruct (String.eqb repo ""); [done|]. destruct (dict_get bindings repo) as [existing|] eqn:E.
  - destruct (String.eqb_spec existing pack) as [->|]; [|done]. intros [= <-] Hr. rewrite dict_get_set. destruct (decide (r = repo)) as [->|]; congruence.
  - intros [= <-] Hr. rewrite dict_get_set. destruct (decide (r = repo)) as [->|]; congruence.
Qed.

(** * On a registry with one grant *)

Definition demo_digest (c : string) : string := "blake3:" +:+ String.concat "" (replicate 64 c).
Definition demo_evidence : DoctorEvidence := mkEvidence "img" true ["img.Blur"] [].
Definition demo_submission (namespaces : list string) (digest : string) : Submission :=
  mkSubmission "acme" "img" namespaces "1.0" digest demo_evidence [] [].
Definition demo_first : Submission := demo_submission [] (demo_digest "a").
Definition demo_second : Submission := demo_submission ["audio"] (demo_digest "b").
Definition demo_pep440 (text : string) : option (string * bool) := Some (text, false).
Definition demo_registry : Registry := mkRegistry [mkGrant "img" "acme"] [].
Definition demo_review : ReviewLog := [mkTransition SSubmitted "acme" "" "t"; mkTransition SAccepted "registry" "" "t"].

Notation demo_admission s reg := (admit_submission demo_pep440 s (table reg) (releases reg)).
Notation demo_recording s v reg := (record_acceptance demo_pep440 (fun u => elements u) s v demo_review reg).

Definition demo_accepted : Verdict := mkVerdict VAccepted [] [] false.
Definition demo_needs_review : Verdict := mkVerdict VNeedsReview [FirstClaim "audio"] ["audio"] false.

Lemma demo_verdicts : demo_admission demo_first demo_registry = Ok demo_accepted /\ demo_admission demo_second demo_registry = Ok demo_needs_review.
Proof. split; vm_compute; reflexivity. Qed.

Definition demo_published : Registry := (demo_recording demo_first demo_accepted demo_registry).2.
Definition demo_after : Registry := (demo_recording demo_second demo_needs_review demo_published).2.

Lemma demo_registry_reachable : star (registry_event demo_pep440 (fun u => elements u)) empty_registry (demo_registry, []).
Proof.
  apply star_one. apply (re_grants _ _ empty_registry.1 [] [mkGrant "img" "acme"]). apply (step_grant [] "img" "acme" (mkGrant "img" "acme")). vm_compute. reflexivity.
Qed.

Lemma demo_registry_ok : table_ok (table demo_registry).
Proof. apply (registry_step_ok [] _ table_ok_nil). apply (step_grant [] "img" "acme" (mkGrant "img" "acme")). vm_compute. reflexivity. Qed.

(** On the state its verdict saw, and late: another pack's claim was granted
    in between. *)
Definition demo_later : Registry := mkRegistry [mkGrant "img" "acme"; mkGrant "audio" "zen"] [].

Lemma demo_later_ok : table_ok (table demo_later).
Proof. apply (registry_step_ok _ _ demo_registry_ok). apply (step_grant _ "audio" "zen" (mkGrant "audio" "zen")). vm_compute. reflexivity. Qed.

Lemma admitted_submissions_publish_witness : is_ok (demo_recording demo_first demo_accepted demo_registry).1 = true
  /\ exists reg' r, demo_recording demo_first demo_accepted demo_later = (Ok r, reg') /\ r = release_of demo_first "1.0"
  /\ owner_of (table reg') "img" = Some "acme" /\ owner_of (table reg') "audio" = Some "zen"
  /\ demo_admission demo_first reg' = Ok (mkVerdict VAccepted [] [] true).
Proof.
  split.
  - destruct (admitted_submissions_publish demo_pep440 (fun u => elements u) (fun u => reflexivity _) demo_first demo_accepted (table demo_registry) (releases demo_registry) demo_review
      demo_registry demo_registry_ok (proj1 demo_verdicts)) as (_ & Hsame & _); [done..|]. by apply Hsame.
  - destruct (admitted_submissions_publish demo_pep440 (fun u => elements u) (fun u => reflexivity _) demo_first demo_accepted (table demo_registry) (releases demo_registry) demo_review
      demo_later demo_later_ok (proj1 demo_verdicts)) as (_ & _ & Hafter); [done..|].
    destruct (demo_recording demo_first demo_accepted demo_later) as [[r|e] reg'] eqn:Hrec; [|exfalso; vm_compute in Hrec; discriminate Hrec].
    destruct (Hafter r reg' eq_refl) as (Hr & _ & _ & _ & Hown & _ & Hagain). exists reg', r.
    split_and!; [reflexivity|exact Hr| | |exact Hagain]; rewrite Hown by reflexivity; vm_compute; reflexivity.
Defined.

(** The first submission is recorded; nothing that is recorded later removes it. *)
Lemma published_versions_never_change_witness :
  table_ok (table demo_published)
  /\ (exists a, a ∈ [mkAttempt demo_first demo_accepted (table demo_registry) [] demo_review] /\ published_by demo_pep440 a ("img", "1.0") (release_of demo_first "1.0"))
  /\ dict_get (releases demo_after) ("img", "1.0") = Some (release_of demo_first "1.0").
Proof.
  set (a1 := mkAttempt demo_first demo_accepted (table demo_registry) [] demo_review).
  set (a2 := mkAttempt demo_second demo_needs_review (table demo_registry) [] demo_review).
  assert (H1 : registry_event demo_pep440 (fun u => elements u) (demo_registry, []) (demo_published, [a1])).
  { apply (re_record _ _ a1 demo_registry []); [apply demo_verdicts|done]. }
  assert (H2 : registry_event demo_pep440 (fun u => elements u) (demo_published, [a1]) (demo_after, [a2; a1])).
  { apply (re_record _ _ a2 demo_published [a1]); [apply demo_verdicts|done]. }
  assert (H3 : star (registry_event demo_pep440 (fun u => elements u)) empty_registry (demo_published, [a1]))
    by (eapply star_trans; [apply demo_registry_reachable|by apply star_one]).
  pose proof (published_versions_never_change demo_pep440 (fun u => elements u) (fun u => reflexivity _)) as Hall.
  destruct (Hall _ _ _ _ H3 (star_refl _ _)) as (Hok & Hvouched & _).
  destruct (Hall _ _ _ _ H3 (star_one _ _ _ H2)) as (_ & _ & Hkeep).
  split_and!; [exact Hok|apply Hvouched; vm_compute; reflexivity|]. apply Hkeep. vm_compute. reflexivity.
Defined.

Lemma publishing_needs_ownership_witness : owner_of (table demo_published) "img" = Some "acme".
Proof.
  destruct (publishing_needs_ownership demo_pep440 (fun u => elements u) (fun u => reflexivity _) demo_first demo_accepted demo_review demo_registry
    (release_of demo_first "1.0") demo_published demo_registry_ok) as (_ & _ & _ & Hown & _); [vm_compute; reflexivity|exact Hown].
Defined.

(** A release the index refuses leaves its grants behind: another digest of a
    published version, approved against the index before that one, gives the
    publisher a namespace that no release claims. *)
Lemma grants_without_release :
  (demo_recording demo_second demo_needs_review demo_published).1 = Err (AlreadyPublished (demo_digest "a"))
  /\ owner_of (table demo_published) "audio" = None /\ owner_of (table demo_after) "audio" = Some "acme"
  /\ releases demo_after = releases demo_published.
Proof. split_and!; vm_compute; reflexivity. Qed.
