(* ===== verification/Expansions.v ===== *)
(** Expansions: results that bring new nodes (dinkster_protocol,
    result_algebra.py; dinkster_engine, expansion.py and the expanding part of
    engine.py): the declaration of a fragment of nodes with its checks, its
    admission into the graph of a running level, and the demands an expanding
    level keeps of its tasks.  The order in which Python walks a set is an
    argument, [enum]. *)
From S2P Require Import Prelude PyStr TypeIds TypeExprs Names Widgets Schema Values Elaborate Solve Graph GraphWire Search Plan Loops Infer Validate.
From Stdlib Require Import Ascii SpecFloat.

Local Open Scope string_scope.
Local Open Scope Z_scope.
Local Open Scope list_scope.

(** * Declarations *)

Definition RESULT_ALGEBRA_MAX_COUNT : nat := 4096.
Definition RESULT_ALGEBRA_MAX_LITERAL_DEPTH : Z := 32.
Definition RESULT_ALGEBRA_MAX_LITERAL_ITEMS : Z := 16384.

Inductive algebra_error :=
| BadIdentifier
| UnboundedPairs
| UnsortedPairs
| LiteralLimit
| LiteralInteger
| LiteralFloat
| OutputIndexLimit
| RepeatedMembers
| UnboundedNodes
| UnsortedNodes
| EscapingReference
| LocalCycle
| UnresolvedCurrent
| EscapingReturn
| ExternalReturn
| UnboundedUnits
| NotScalar
| CycleFuel.

Abbreviation declared := (result algebra_error).

(** [_ID.fullmatch]. *)
Definition id_char (c : ascii) : bool := alnum c || existsb (Ascii.eqb c) ["_"%char; "."%char; ":"%char; "-"%char].
Definition is_identifier (s : string) : bool :=
  match s with String c s' => alnum c && str_all id_char s' && (String.length s' <=? 127)%nat | EmptyString => false end.

Definition identifier (s : string) : declared unit := if is_identifier s then Ok tt else Err BadIdentifier.

(** [keys == tuple(sorted(keys)) and len(keys) == len(set(keys))]. *)
Definition uniquely_sorted (l : list string) : bool := bool_decide (merge_sort String.le l = l) && bool_decide (NoDup l).

Fixpoint each_ok {A} (f : A -> declared unit) (l : list A) : declared unit :=
  match l with [] => Ok tt | a :: l' => _ ← f a; each_ok f l' end.

(** [_pairs]; any string is a literal's key. *)
Definition pairs_ (literal_keys : bool) (ks : list string) : declared unit :=
  if (RESULT_ALGEBRA_MAX_COUNT <? length ks)%nat then Err UnboundedPairs
  else _ ← (if literal_keys then Ok tt else each_ok identifier ks);
       if uniquely_sorted ks then Ok tt else Err UnsortedPairs.

Inductive JsonLiteral :=
| LitNone
| LitBool (b : bool)
| LitInt (z : Z)
| LitFloat (f : spec_float)
| LitStr (s : string)
| LitTuple (l : list JsonLiteral)
| LitObject (fields : list (string * JsonLiteral)).

(** The items of a collection, given what is left of the budget. *)
Fixpoint each_with {A} (f : A -> Z -> declared Z) (l : list A) (budget : Z) : declared Z :=
  match l with [] => Ok budget | a :: l' => b ← f a budget; each_with f l' b end.

Definition finite_float (f : spec_float) : bool := match f with S754_finite _ _ _ | S754_zero false => true | _ => false end.

(** [_literal], which answers what is left of its budget. An object is made
    again from its fields, and so checked again. *)
Fixpoint literal_ (v : JsonLiteral) (depth budget : Z) : declared Z :=
  let budget := budget - 1 in
  if (budget <? 0) || (RESULT_ALGEBRA_MAX_LITERAL_DEPTH <? depth) then Err LiteralLimit
  else match v with
       | LitNone | LitBool _ | LitStr _ => Ok budget
       | LitInt z => if (- 2 ^ 63 <=? z) && (z <? 2 ^ 63) then Ok budget else Err LiteralInteger
       | LitFloat f => if finite_float f then Ok budget else Err LiteralFloat
       | LitTuple l => each_with (fun x => literal_ x (depth + 1)) l budget
       | LitObject fields =>
           _ ← pairs_ true (map fst fields);
           b ← each_with (fun kv => literal_ kv.2 (depth + 1)) fields budget;
           _ ← pairs_ true (map fst fields);
           _ ← each_ok (fun kv => _ ← literal_ kv.2 0 RESULT_ALGEBRA_MAX_LITERAL_ITEMS; Ok tt) fields;
           Ok b
       end.

Definition literal (v : JsonLiteral) : declared unit := _ ← literal_ v 0 RESULT_ALGEBRA_MAX_LITERAL_ITEMS; Ok tt.

(** ** References *)

(** [str | int]. *)
Inductive output_ref := OutName (s : string) | OutIndex (i : Z).

Inductive NodeMetadataRef := CurrentNodeRef | LocalNodeRef (local_node_id : string) | ExternalNodeRef (node_id : string).

Inductive InputBinding :=
| LiteralInput (value : JsonLiteral)
| InCurrent (output_id : string)
| InLocal (local_node_id : string) (output_id : output_ref)
| InExternal (node_id : string) (output_id : output_ref).

Inductive OutputBinding :=
| PresentOutput (value : value)
| BlockedOutput (message : option string)
| OutCurrent (output_id : string)
| OutLocal (local_node_id : string) (output_id : output_ref)
| OutExternal (node_id : string) (output_id : output_ref).

Definition output_ref_ok (o : output_ref) : declared unit :=
  match o with
  | OutName s => identifier s
  | OutIndex i => if (0 <=? i) && (i <? Z.of_nat RESULT_ALGEBRA_MAX_COUNT) then Ok tt else Err OutputIndexLimit
  end.

Definition metadata_ok (m : NodeMetadataRef) : declared unit :=
  match m with CurrentNodeRef => Ok tt | LocalNodeRef n | ExternalNodeRef n => identifier n end.

(** What making a binding checks. *)
Definition input_binding_ok (b : InputBinding) : declared unit :=
  match b with
  | LiteralInput v => literal v
  | InCurrent o => identifier o
  | InLocal n o | InExternal n o => _ ← identifier n; output_ref_ok o
  end.

Definition output_binding_ok (b : OutputBinding) : declared unit :=
  match b with
  | PresentOutput _ | BlockedOutput _ => Ok tt
  | OutCurrent o => identifier o
  | OutLocal n o | OutExternal n o => _ ← identifier n; output_ref_ok o
  end.

(** ** Nodes and fragments *)

Record LocalNode := mkLocalNode {
  local_id : string;
  ln_type : string;
  ln_inputs : list (string * InputBinding);
  ln_parent : option NodeMetadataRef;
  ln_display : option NodeMetadataRef;
  ln_members : list (string * list string);
  ln_variants : list (string * string);
}.

Definition optional {A} (f : A -> declared unit) (o : option A) : declared unit := match o with Some a => f a | None => Ok tt end.

Definition LocalNode_post_init (n : LocalNode) : declared unit :=
  _ ← identifier (local_id n);
  _ ← identifier (ln_type n);
  _ ← pairs_ false (map fst (ln_inputs n));
  _ ← each_ok (fun kv => input_binding_ok kv.2) (ln_inputs n);
  _ ← optional metadata_ok (ln_parent n);
  _ ← optional metadata_ok (ln_display n);
  _ ← pairs_ false (map fst (ln_members n));
  _ ← each_ok (fun kv => if bool_decide (NoDup kv.2) then each_ok identifier kv.2 else Err RepeatedMembers) (ln_members n);
  _ ← pairs_ false (map fst (ln_variants n));
  each_ok (fun kv => identifier kv.2) (ln_variants n).

Inductive ExpansionCachePolicy := Inherit | Reuse | Rerun.

Record LocalExpansion := mkLocalExpansion { le_nodes : list LocalNode; le_cache_policy : ExpansionCachePolicy }.

(** [_local_refs]. *)
Definition metadata_refs (m : option NodeMetadataRef) : list string := match m with Some (LocalNodeRef n) => [n] | _ => [] end.
Definition input_refs (b : InputBinding) : list string := match b with InLocal n _ => [n] | _ => [] end.

Definition local_refs (n : LocalNode) : list string :=
  metadata_refs (ln_parent n) ++ metadata_refs (ln_display n) ++ concat (map (fun kv => input_refs kv.2) (ln_inputs n)).

(** [edges]. *)
Definition local_edges (nodes : list LocalNode) : gmap string (gset string) :=
  list_to_map (map (fun n => (local_id n, list_to_set (local_refs n))) nodes).

Definition edges_of (edges : gmap string (gset string)) (n : string) : gset string := default ∅ (edges !! n).

Definition references_declared (nodes : list LocalNode) : bool :=
  forallb (fun n => forallb (fun r => bool_decide (r ∈ map local_id nodes)) (local_refs n)) nodes.

Inductive mark := Entered | Done.

#[local] Instance mark_eq_dec : EqDecision mark.
Proof. solve_decision. Defined.

Section enumerated.
Variable enum : gset string -> list string.

(** The loop over [pending], its last element first. None is out of fuel,
    the inner None a cycle. *)
Fixpoint cycle_loop (edges : gmap string (gset string)) (fuel : nat) (state : gmap string mark) (pending : list (string * bool)) :
  option (option (gmap string mark)) :=
  match fuel with
  | O => None
  | S fuel' =>
      match pending with
      | [] => Some (Some state)
      | (n, true) :: rest => cycle_loop edges fuel' (<[n := Done]> state) rest
      | (n, false) :: rest =>
          match state !! n with
          | Some Entered => Some None
          | Some Done => cycle_loop edges fuel' state rest
          | None => cycle_loop edges fuel' (<[n := Entered]> state) (rev (map (fun m => (m, false)) (enum (edges_of edges n))) ++ (n, true) :: rest)
          end
      end
  end.

(** Visiting a node pushes its mark and its edges. *)
Definition pushes (edges : gmap string (gset string)) (n : string) : list string := n :: enum (edges_of edges n).
Definition cycle_fuel (edges : gmap string (gset string)) (ids : list string) : nat := S (S (weight (pushes edges) ids)).

Fixpoint check_roots (edges : gmap string (gset string)) (fuel : nat) (state : gmap string mark) (roots : list string) : declared unit :=
  match roots with
  | [] => Ok tt
  | root :: roots' =>
      if bool_decide (state !! root = Some Done) then check_roots edges fuel state roots'
      else match cycle_loop edges fuel state [(root, false)] with
           | None => Err CycleFuel
           | Some None => Err LocalCycle
           | Some (Some state') => check_roots edges fuel state' roots'
           end
  end.

Definition LocalExpansion_post_init (e : LocalExpansion) : declared unit :=
  let ids := map local_id (le_nodes e) in
  if bool_decide (le_nodes e = []) || (RESULT_ALGEBRA_MAX_COUNT <? length (le_nodes e))%nat then Err UnboundedNodes
  else if negb (uniquely_sorted ids) then Err UnsortedNodes
  else if negb (references_declared (le_nodes e)) then Err EscapingReference
  else check_roots (local_edges (le_nodes e)) (cycle_fuel (local_edges (le_nodes e)) ids) ∅ ids.

(** ** Returns *)

Definition is_present (b : OutputBinding) : bool := match b with PresentOutput _ => true | _ => false end.
Definition present_ids (bindings : list (string * OutputBinding)) : list string := map fst (List.filter (fun kv => is_present kv.2) bindings).

Definition validate_bindings (bindings : list (string * OutputBinding)) (local_ids : list string) : declared unit :=
  _ ← pairs_ false (map fst bindings);
  each_ok (fun kv => match kv.2 with
                     | OutCurrent o => if bool_decide (o ∈ present_ids bindings) then Ok tt else Err UnresolvedCurrent
                     | OutLocal n _ => if bool_decide (n ∈ local_ids) then Ok tt else Err EscapingReturn
                     | _ => Ok tt
                     end) bindings.

Definition is_external (b : OutputBinding) : bool := match b with OutExternal _ _ => true | _ => false end.

Record ExpandedReturn := mkExpandedReturn { er_expansion : LocalExpansion; er_bindings : list (string * OutputBinding) }.

Inductive ReturnUnit := DirectReturn (bindings : list (string * OutputBinding)) | Expanded (r : ExpandedReturn).

Definition DirectReturn_post_init (bindings : list (string * OutputBinding)) : declared unit :=
  _ ← validate_bindings bindings [];
  if existsb (fun kv => is_external kv.2) bindings then Err ExternalReturn else Ok tt.

Definition current_input_ok (present : list string) (b : InputBinding) : declared unit :=
  match b with InCurrent o => if bool_decide (o ∈ present) then Ok tt else Err UnresolvedCurrent | _ => Ok tt end.

Definition ExpandedReturn_post_init (r : ExpandedReturn) : declared unit :=
  let nodes := le_nodes (er_expansion r) in
  _ ← validate_bindings (er_bindings r) (map local_id nodes);
  each_ok (fun n => each_ok (fun kv => current_input_ok (present_ids (er_bindings r)) kv.2) (ln_inputs n)) nodes.

Inductive BatchMode := Scalar | Mapped.
Record ReturnBatch := mkReturnBatch { rb_mode : BatchMode; rb_units : list ReturnUnit }.

Definition ReturnBatch_post_init (b : ReturnBatch) : declared unit :=
  if (RESULT_ALGEBRA_MAX_COUNT <? length (rb_units b))%nat then Err UnboundedUnits
  else match rb_mode b with
       | Scalar => if (length (rb_units b) =? 1)%nat then Ok tt else Err NotScalar
       | Mapped => Ok tt
       end.

(** An expansion made from its parts, innermost first. *)
Definition make_expansion (r : ExpandedReturn) : declared ExpandedReturn :=
  _ ← each_ok LocalNode_post_init (le_nodes (er_expansion r));
  _ ← LocalExpansion_post_init (er_expansion r);
  _ ← each_ok (fun kv => output_binding_ok kv.2) (er_bindings r);
  _ ← ExpandedReturn_post_init r;
  Ok r.
End enumerated.

(** * Admission *)

(** What escapes [admit_expansion]. *)
Inductive expand_error :=
| Collision
| MissingExternal (node_id : string)
| MissingNode (key : string)
| FromWire (e : wire_error)
| FromSnapshot (e : snapshot_error)
| FromChecking (e : raised)
| OutputOutOfRange (source_id : string) (i : Z)
| MissingOutput (source_id name : string)
| InvalidOverlay (failures : list Diagnostic)
| NoParentOutput (name : string)
| OutputRejected (name type_id : string)
| DynamicCycle (path : list string)
| DemandFuel
| NotANode.

Abbreviation expanding := (result expand_error).

Definition lift {E A} (f : E -> expand_error) (r : result E A) : expanding A := match r with Ok a => Ok a | Err e => Err (f e) end.

(** [d[k]]. *)
Definition item {A} (d : list (string * A)) (k : string) : expanding A := match dict_get d k with Some a => Ok a | None => Err (MissingNode k) end.

(** [_literal] of expansion.py. *)
Fixpoint literal_value (v : JsonLiteral) : gvalue :=
  match v with
  | LitNone => GNone
  | LitBool b => GBool b
  | LitInt z => GInt z
  | LitFloat f => GFloat f
  | LitStr s => GStr s
  | LitTuple l => GList (map literal_value l)
  | LitObject fields => GDict (map (fun kv => (GStr kv.1, literal_value kv.2)) fields)
  end.

(** [f"{parent_id}.{call_index}.0.{local_id}"]. *)
Definition child_id (parent_id : string) (call_index : nat) (local : string) : string :=
  parent_id +:+ ("." +:+ (pretty call_index +:+ (".0." +:+ local))).

Definition child_ids (parent_id : string) (call_index : nat) (nodes : list LocalNode) : list (string * string) :=
  map (fun n => (local_id n, child_id parent_id call_index (local_id n))) nodes.

Definition output_text (o : output_ref) : string := match o with OutName s => s | OutIndex i => pretty i end.

(** A literal goes through the document's decoder, in a document of its own. *)
Definition literal_document (node_type name : string) (v : JsonLiteral) : gvalue :=
  jobj [("nodes", jobj [("literal", jobj [("nodeType", GStr node_type); ("inputs", jobj [(name, literal_value v)])])])].

Definition literal_input (node_type name : string) (v : JsonLiteral) : expanding gvalue :=
  g ← lift FromWire (graph_from_wire (literal_document node_type name v));
  n ← item g "literal";
  item (inputs_of n) name.

Definition metadata (g : Graph) (parent_id : string) (ids : list (string * string)) (ref : option NodeMetadataRef) : expanding string :=
  match ref with
  | None | Some CurrentNodeRef => Ok parent_id
  | Some (ExternalNodeRef n) => if dict_mem g n then Ok n else Err (MissingExternal n)
  | Some (LocalNodeRef n) => item ids n
  end.

Definition declared_input (g : Graph) (parent_id : string) (ids : list (string * string)) (node_type name : string) (b : InputBinding) :
  expanding gvalue :=
  match b with
  | LiteralInput v => literal_input node_type name v
  | InCurrent o => Ok (GLink (mkLink parent_id o))
  | InExternal n o => if dict_mem g n then Ok (GLink (mkLink n (output_text o))) else Err (MissingExternal n)
  | InLocal n o => i ← item ids n; Ok (GLink (mkLink i (output_text o)))
  end.

Fixpoint declared_inputs (g : Graph) (parent_id : string) (ids : list (string * string)) (node_type : string)
  (bs : list (string * InputBinding)) (acc : list (string * gvalue)) : expanding (list (string * gvalue)) :=
  match bs with
  | [] => Ok acc
  | (name, b) :: bs' => v ← declared_input g parent_id ids node_type name b; declared_inputs g parent_id ids node_type bs' (dict_set acc name v)
  end.

Definition child_node (n : LocalNode) (inputs : list (string * gvalue)) : AnyNode :=
  NodeOf (mkGraphNode (ln_type n) inputs (ln_members n) (ln_variants n)).

Abbreviation origins_map := (list (string * (string * string))).

(** The loop that makes the nodes of the overlay. *)
Fixpoint declare_nodes (g : Graph) (parent_id : string) (ids : list (string * string)) (todo : list LocalNode) (nodes : Graph) (origins : origins_map) :
  expanding (Graph * origins_map) :=
  match todo with
  | [] => Ok (nodes, origins)
  | n :: todo' =>
      inputs ← declared_inputs g parent_id ids (ln_type n) (ln_inputs n) [];
      node_id ← item ids (local_id n);
      p ← metadata g parent_id ids (ln_parent n);
      d ← metadata g parent_id ids (ln_display n);
      declare_nodes g parent_id ids todo' (dict_set nodes node_id (child_node n inputs)) (dict_set origins node_id (p, d))
  end.

Section admission.
Variable json_loads : string -> option pyval.
Variable schemas : string -> option NodeSchema.
Variable known_types : option TypeVocabulary.
Variable enum : gset string -> list string.

(** The interface of a node of the overlay. *)
Definition interface_at (overlay : Graph) (effective : list (string * NodeSchema)) (source_id : string) : expanding (list (string * option TypeExpr)) :=
  source ← item overlay source_id;
  match source with
  | RegionOf r body => lift FromChecking (region_interface json_loads schemas r body)
  | NodeOf _ => s ← item effective source_id; Ok (foldl (fun d o => dict_set d (out_id o) (Some (out_type o))) [] (outputs s))
  end.

Definition referenced_output (o : output_ref) (source_id : string) (overlay : Graph) (effective : list (string * NodeSchema)) :
  expanding (string * option TypeExpr) :=
  interface ← interface_at overlay effective source_id;
  name ← match o with
         | OutIndex i => match keys interface !! Z.to_nat i with Some name => Ok name | None => Err (OutputOutOfRange source_id i) end
         | OutName s => Ok s
         end;
  match dict_get interface name with Some t => Ok (name, t) | None => Err (MissingOutput source_id name) end.

(** The source of a binding to a node, and the output it names. *)
Definition input_source (ids : list (string * string)) (b : InputBinding) : option (expanding string * output_ref) :=
  match b with InLocal n o => Some (item ids n, o) | InExternal n o => Some (Ok n, o) | _ => None end.

Definition output_source (ids : list (string * string)) (b : OutputBinding) : option (expanding string * output_ref) :=
  match b with OutLocal n o => Some (item ids n, o) | OutExternal n o => Some (Ok n, o) | _ => None end.

(** The links to outputs by position get the outputs' names. *)
Fixpoint named_inputs (overlay : Graph) (effective : list (string * NodeSchema)) (ids : list (string * string)) (bs : list (string * InputBinding))
  (acc : list (string * gvalue)) : expanding (list (string * gvalue)) :=
  match bs with
  | [] => Ok acc
  | (name, b) :: bs' =>
      match input_source ids b with
      | Some (source, OutIndex i) =>
          s ← source;
          '(output_id, _) ← referenced_output (OutIndex i) s overlay effective;
          named_inputs overlay effective ids bs' (dict_set acc name (GLink (mkLink s output_id)))
      | _ => named_inputs overlay effective ids bs' acc
      end
  end.

Fixpoint name_outputs (overlay : Graph) (effective : list (string * NodeSchema)) (ids : list (string * string)) (todo : list LocalNode) (nodes : Graph) :
  expanding Graph :=
  match todo with
  | [] => Ok nodes
  | n :: todo' =>
      node_id ← item ids (local_id n);
      node ← item nodes node_id;
      inputs ← named_inputs overlay effective ids (ln_inputs n) (inputs_of node);
      name_outputs overlay effective ids todo' (dict_set nodes node_id (child_node n inputs))
  end.

(** The new nodes that are sinks. *)
Fixpoint new_sinks (effective : list (string * NodeSchema)) (children : list string) : expanding (list string) :=
  match children with
  | [] => Ok []
  | c :: children' => s ← item effective c; rest ← new_sinks effective children'; Ok (if output_node s then c :: rest else rest)
  end.

Definition is_failure (added : list string) (d : Diagnostic) : bool :=
  is_error d || match d_node_id d with Some n => bool_decide (n ∈ added) | None => false end && String.eqb (d_code d) "type-mismatch".

Fixpoint check_returns (overlay : Graph) (effective : list (string * NodeSchema)) (ids : list (string * string)) (parent_schema : NodeSchema)
  (bs : list (string * OutputBinding)) : expanding unit :=
  match bs with
  | [] => Ok tt
  | (name, b) :: bs' =>
      _ ← match output_source ids b with
          | None => Ok tt
          | Some (source, o) =>
              s ← source;
              '(_, output_type) ← referenced_output o s overlay effective;
              match output_of parent_schema name with
              | None => Err (NoParentOutput name)
              | Some expected =>
                  match (t ← output_type; runtime_type_id t) with
                  | Some t => if accepts_concrete (out_type expected) t then Ok tt else Err (OutputRejected name t)
                  | None => Ok tt
                  end
              end
          end;
      check_returns overlay effective ids parent_schema bs'
  end.

(** ** Demands *)

Definition link_nodes (n : AnyNode) : gset string :=
  list_to_set (omap (fun kv => match kv.2 with GLink l => Some (link_node l) | _ => None end) (inputs_of n)).

Definition graph_demand (g : Graph) : gmap string (gset string) := list_to_map (map (fun kn => (kn.1, link_nodes kn.2)) g).

(** The sources of a child's own references, and of the parent's returns. *)
Definition child_demand (ids : list (string * string)) (n : LocalNode) : gset string :=
  list_to_set (omap (fun kv => '(s, _) ← input_source ids kv.2; match s with Ok i => Some i | Err _ => None end) (ln_inputs n)).
Definition return_demand (ids : list (string * string)) (bs : list (string * OutputBinding)) : gset string :=
  list_to_set (omap (fun kv => '(s, _) ← output_source ids kv.2; match s with Ok i => Some i | Err _ => None end) bs).

Definition with_children (ids : list (string * string)) (nodes : list LocalNode) (demand : gmap string (gset string)) : gmap string (gset string) :=
  foldl (fun m n => match dict_get ids (local_id n) with Some i => <[i := child_demand ids n]> m | None => m end) demand nodes.

(** The loop over [pending], its last element first; a path is kept for the
    message. *)
Fixpoint demand_loop (demand : gmap string (gset string)) (parent_id : string) (fuel : nat) (pending : list (string * list string)) (visited : gset string) :
  expanding unit :=
  match fuel with
  | O => Err DemandFuel
  | S fuel' =>
      match pending with
      | [] => Ok tt
      | (n, path) :: rest =>
          if String.eqb n parent_id then Err (DynamicCycle (path ++ [n]))
          else if bool_decide (n ∈ visited) then demand_loop demand parent_id fuel' rest visited
          else demand_loop demand parent_id fuel' (rev (map (fun m => (m, path ++ [n])) (enum (edges_of demand n))) ++ rest) ({[n]} ∪ visited)
      end
  end.

Definition check_demand (demand : gmap string (gset string)) (parent_id : string) : expanding unit :=
  let start := rev (map (fun c => (c, [parent_id])) (enum (edges_of demand parent_id))) in
  demand_loop demand parent_id (S (length start + weight (fun n => enum (edges_of demand n)) (base.elements (dom demand)))) start ∅.

Record admitted := mkAdmitted {
  a_overlay : Graph;
  a_effective : list (string * NodeSchema);
  a_ids : list (string * string);
  a_origins : origins_map;
}.

(** [with_returns]: the parent waits for what it returns and for sinks. *)
Definition overlay_demand (nodes : Graph) (demands : gmap string (gset string)) (ids : list (string * string)) (r : ExpandedReturn) (parent_id : string)
  (sinks : list string) : gmap string (gset string) :=
  let m := with_children ids (le_nodes (er_expansion r)) (demands ∪ graph_demand nodes) in
  <[parent_id := edges_of m parent_id ∪ return_demand ids (er_bindings r) ∪ list_to_set sinks]> m.

Definition admit_expansion (g : Graph) (parent_id : string) (call_index : nat) (r : ExpandedReturn) (ports : option (list (string * TypeExpr)))
  (demands : gmap string (gset string)) (loop_pairs : list (string * LoopPair)) (targets : list string) : expanding admitted :=
  let nodes := le_nodes (er_expansion r) in
  let ids := child_ids parent_id call_index nodes in
  if existsb (fun i => dict_mem g i.2) ids then Err Collision
  else
    '(declared, origins) ← declare_nodes g parent_id ids nodes g [];
    overlay ← lift FromSnapshot (snapshot_graph declared);
    '(effective, _) ← lift FromChecking (elaborate_graph json_loads schemas overlay);
    named ← name_outputs overlay effective ids nodes declared;
    overlay ← lift FromSnapshot (snapshot_graph named);
    '(effective, elaborating) ← lift FromChecking (elaborate_graph json_loads schemas overlay);
    sinks ← new_sinks effective (map snd ids);
    validating ← lift FromChecking (validate json_loads schemas known_types overlay (targets ++ sinks) (Some effective) ports loop_pairs);
    let failures := List.filter (is_failure (map snd ids)) (elaborating ++ validating) in
    if negb (is_nil failures) then Err (InvalidOverlay failures)
    else
      parent_schema ← item effective parent_id;
      _ ← check_returns overlay effective ids parent_schema (er_bindings r);
      _ ← check_demand (overlay_demand named demands ids r parent_id sinks) parent_id;
      Ok (mkAdmitted overlay effective ids origins).

(** * A level that expands *)

Record ExpandingLevel := mkExpandingLevel {
  x_graph : Graph;
  x_effective : list (string * NodeSchema);
  x_calls : gmap string nat;
  x_current : gmap string (gset string);
  x_demands : gmap string (gset string);
  x_loop_pairs : list (string * LoopPair);
}.

(** [ordinary_dependencies]. *)
Definition lazy_inputs (effective : list (string * NodeSchema)) (node_id : string) : list string :=
  match dict_get effective node_id with Some s => map in_id (List.filter in_lazy (inputs s)) | None => [] end.

Definition ordinary_dependencies (g : Graph) (effective : list (string * NodeSchema)) (current : gmap string (gset string)) (node_id : string) : gset string :=
  match dict_get g node_id with
  | None => ∅
  | Some (RegionOf r _) => list_to_set (omap (fun kv => link_target g kv.2) (rn_inputs r))
  | Some (NodeOf n) =>
      list_to_set (omap (fun kv => if bool_decide (kv.1 ∈ lazy_inputs effective node_id) then None
                                   else d ← link_target g kv.2; if bool_decide (d ∈ edges_of current node_id) then None else Some d) (node_inputs n))
  end.

Definition has_current (n : LocalNode) : bool := existsb (fun kv => match kv.2 with InCurrent _ => true | _ => false end) (ln_inputs n).

(** The bookkeeping of [resolve_expansion] until it waits for the targets. *)
Definition resolve_expansion (parent_id : string) (r : ExpandedReturn) (ports : option (list (string * TypeExpr))) (initial_targets : list string)
  (st : ExpandingLevel) : expanding ExpandingLevel :=
  parent ← item (x_graph st) parent_id;
  _ ← match parent with NodeOf _ => Ok tt | RegionOf _ _ => Err NotANode end;
  let call := default O (x_calls st !! parent_id) in
  a ← admit_expansion (x_graph st) parent_id call r ports (x_demands st) (x_loop_pairs st) initial_targets;
  let nodes := le_nodes (er_expansion r) in
  let ids := a_ids a in
  let current := foldl (fun m n => match dict_get ids (local_id n) with
                                   | Some i => <[i := if has_current n then {[parent_id]} else ∅]> m | None => m end) (x_current st) nodes in
  sinks ← new_sinks (a_effective a) (map snd ids);
  let targets : gset string := return_demand ids (er_bindings r) ∪ list_to_set sinks in
  let demands := foldl (fun m i => <[i := ordinary_dependencies (a_overlay a) (a_effective a) current i]> m)
                   (<[parent_id := targets]> (x_demands st)) (map snd ids) in
  let pairs := foldl (fun d kv => dict_set d kv.1 kv.2) (x_loop_pairs st) (validate_loops (a_overlay a) initial_targets (x_loop_pairs st)).1 in
  Ok (mkExpandingLevel (a_overlay a) (a_effective a) (<[parent_id := S call]> (x_calls st)) current demands pairs).

(** What a task may ask for through [ensure_input] while its node decides:
    the sources of its lazy inputs, but the parent whose current output it
    reads. *)
Definition lazy_demands (g : Graph) (effective : list (string * NodeSchema)) (current : gmap string (gset string)) (node_id : string) : gset string :=
  match dict_get g node_id with
  | Some (NodeOf n) =>
      list_to_set (omap (fun kv => if bool_decide (kv.1 ∈ lazy_inputs effective node_id)
                                   then match kv.2 with
                                        | GLink l => if bool_decide (link_node l ∈ edges_of current node_id) then None else Some (link_node l)
                                        | _ => None
                                        end
                                   else None) (node_inputs n))
  | _ => ∅
  end.

(** The tasks the task of a node may await: once its node has expanded, the
    targets of the expansion ([resolve_expansion]); until then its ordinary
    dependencies ([run_one]) and what its lazy inputs ask for. *)
Definition waits (st : ExpandingLevel) (a b : string) : Prop :=
  match x_calls st !! a with
  | Some _ => b ∈ edges_of (x_demands st) a
  | None => b ∈ ordinary_dependencies (x_graph st) (x_effective st) (x_current st) a ∪ lazy_demands (x_graph st) (x_effective st) (x_current st) a
  end.

(** A lazy demand of a node that an expansion added and that has not expanded. *)
Definition late_demand (document : Graph) (st : ExpandingLevel) (a b : string) : Prop :=
  a ∉ keys document /\ x_calls st !! a = None /\ b ∈ lazy_demands (x_graph st) (x_effective st) (x_current st) a.

(** No literal is decoded into a link. *)
Definition plain_literals (r : ExpandedReturn) : bool :=
  forallb (fun n => forallb (fun kv => match kv.2 with
                                       | LiteralInput x => match literal_input (ln_type n) kv.1 x with Ok (GLink _) => false | _ => true end
                                       | _ => true end) (ln_inputs n)) (le_nodes (er_expansion r)).

Definition expands (ports : option (list (string * TypeExpr))) (targets : list string) (st st' : ExpandingLevel) : Prop :=
  exists parent_id r, make_expansion enum r = Ok r /\ plain_literals r = true /\ resolve_expansion parent_id r ports targets st = Ok st'.

Definition level_starts (g : Graph) (effective : list (string * NodeSchema)) (pairs : list (string * LoopPair)) : ExpandingLevel :=
  mkExpandingLevel g effective ∅ ∅ ∅ pairs.
End admission.

(** * Fragments have no cycles *)

Lemma weight_unvisited {A} `{Countable A} (succ : A -> list A) all visited : (weight succ (unvisited all visited) <= weight succ all)%nat.
Proof.
  unfold unvisited, weight. induction all as [|a all IH]; cbn [List.filter]; [done|]. destruct (negb _); cbn in *; lia.
Qed.

(** What has no endless descent is in no cycle. *)
Lemma acc_acyclic {A} (R : relation A) a : Acc (fun y x => R x y) a -> ~ tc R a a.
Proof.
  induction 1 as [a _ IH]. intros Hc. assert (exists b, R a b /\ rtc R b a) as (b & Hab & Hba).
  { inversion Hc; subst; [exists a; split; [done|apply rtc_refl]|]. eexists. split; [done|]. by apply tc_rtc. }
  apply (IH b Hab). eapply tc_rtc_l; [exact Hba|]. by apply tc_once.
Qed.

Section cycles.
Variable enum : gset string -> list string.
Hypothesis enum_elements : forall u, enum u ≡ₚ base.elements u.
Variable edges : gmap string (gset string).
Variable all : list string.

Definition edge_to (a b : string) : Prop := b ∈ edges_of edges a.
Hypothesis edges_in : forall a b, edge_to a b -> b ∈ all.

Lemma enum_spec u c : c ∈ enum u <-> c ∈ u.
Proof. by rewrite enum_elements, elem_of_elements. Qed.

(** The marks of a stack: the nodes that are entered, the last one first. *)
Definition marks (stack : list (string * bool)) : list string := map fst (List.filter snd stack).

(** What is above the mark of a node is one of its edges. *)
Fixpoint chain (stack : list (string * bool)) : Prop :=
  match stack with [] => True | e :: below => (forall u, head (marks below) = Some u -> edge_to u e.1) /\ chain below end.

(** The edges of an entered node are done or above its mark. *)
Fixpoint covers (state : gmap string mark) (above : list string) (stack : list (string * bool)) : Prop :=
  match stack with
  | [] => True
  | e :: below => (e.2 = true -> forall v, edge_to e.1 v -> state !! v = Some Done \/ v ∈ above) /\ covers state (e.1 :: above) below
  end.

Record stack_ok (state : gmap string mark) (stack : list (string * bool)) : Prop := {
  so_entered : forall n, state !! n = Some Entered <-> n ∈ marks stack;
  so_nodup : NoDup (marks stack);
  so_chain : chain stack;
  so_covers : covers state [] stack;
  so_done : forall n, state !! n = Some Done -> Acc (fun y x => edge_to x y) n;
  so_all : forall e, e ∈ stack -> e.1 ∈ all;
}.

Lemma covers_mono state state' above above' stack : (forall v, state !! v = Some Done -> state' !! v = Some Done) ->
  (forall v, v ∈ above -> state' !! v = Some Done \/ v ∈ above') -> covers state above stack -> covers state' above' stack.
Proof.
  intros Hs. revert above above'. induction stack as [|e stack IH]; intros above above' Ha; cbn [covers]; [done|]. intros [He Hc]. split.
  - intros Hf v Hv. destruct (He Hf v Hv) as [|]; [left; by apply Hs|by apply Ha].
  - apply (IH (e.1 :: above)); [|done]. intros v [->|Hv]%elem_of_cons; [right; left|]. destruct (Ha v Hv); [by left|right; by right].
Qed.

(** Entries that are no marks pushed above a mark with their node's edges. *)
Lemma push_chain n ms rest : (forall m, m ∈ ms -> edge_to n m) -> chain ((n, true) :: rest) -> chain (map (fun m => (m, false)) ms ++ (n, true) :: rest)
  /\ marks (map (fun m => (m, false)) ms ++ (n, true) :: rest) = n :: marks rest.
Proof.
  intros Hms Hc. induction ms as [|m ms IH]; [done|]. destruct IH as [IHc IHm]; [intros; apply Hms; by right|]. split; [|exact IHm].
  cbn [map app chain]. split; [|exact IHc]. rewrite IHm. intros u [= <-]. apply Hms. left.
Qed.

Lemma push_covers state n ms rest above : (forall v, edge_to n v -> v ∈ ms ++ above) -> covers state (n :: ms ++ above) rest ->
  covers state above (map (fun m => (m, false)) ms ++ (n, true) :: rest).
Proof.
  revert above. induction ms as [|m ms IH]; intros above Hv Hc; cbn [map app covers]; [split; [by right; apply Hv|done]|].
  split; [done|]. apply IH.
  - intros v Hn. specialize (Hv v Hn). set_solver.
  - eapply covers_mono; [| |exact Hc]; [done|]. set_solver.
Qed.

Lemma marks_path stack u n : chain stack -> head (marks stack) = Some u -> n ∈ marks stack -> rtc edge_to n u.
Proof.
  revert u. induction stack as [|[m []] stack IH]; intros u Hc Hh Hn; [done| |].
  - destruct Hc as [He Hc]. cbn in Hh, He. injection Hh as <-. change (marks ((m, true) :: stack)) with (m :: marks stack) in Hn.
    apply elem_of_cons in Hn as [->|Hn]; [apply rtc_refl|]. destruct (head (marks stack)) as [w|] eqn:Hw.
    + eapply rtc_r; [by apply (IH w)|by apply He].
    + destruct (marks stack); [by apply not_elem_of_nil in Hn|done].
  - apply IH; [apply Hc|done|done].
Qed.

(** ** What the loop computes *)

Definition loop_result (state : gmap string mark) (stack : list (string * bool)) (r : option (option (gmap string mark))) : Prop :=
  match r with
  | None => False
  | Some None => exists n, tc edge_to n n
  | Some (Some state') => stack_ok state' [] /\ (forall n, state !! n = Some Done -> state' !! n = Some Done)
      /\ forall e, e ∈ stack -> state' !! e.1 = Some Done
  end.

(** A node that is left is done. *)
Lemma done_marked_ok state n rest : stack_ok state ((n, true) :: rest) -> stack_ok (<[n := Done]> state) rest.
Proof.
  intros [Hent Hnd Hch [Hcov Hcovs] Hdone Hin]. change (marks ((n, true) :: rest)) with (n :: marks rest) in *. apply NoDup_cons in Hnd as [Hn Hnd].
  assert (Hmono : forall v, state !! v = Some Done -> <[n := Done]> state !! v = Some Done).
  { intros v Hv. destruct (decide (v = n)) as [->|]; [apply lookup_insert_eq|by rewrite lookup_insert_ne]. }
  constructor.
  - intros m. destruct (decide (m = n)) as [->|Hne]; [rewrite lookup_insert_eq; split; [done|by intros ?]|].
    rewrite lookup_insert_ne by done. rewrite Hent, elem_of_cons. naive_solver.
  - done.
  - apply Hch.
  - eapply covers_mono; [exact Hmono| |exact Hcovs]. intros v ->%list_elem_of_singleton. left. apply lookup_insert_eq.
  - intros m Hm. destruct (decide (m = n)) as [->|Hne]; [|rewrite lookup_insert_ne in Hm by done; by apply Hdone].
    constructor. intros v Hv. apply Hdone. destruct (Hcov eq_refl v Hv) as [|Hnil]; [done|by apply not_elem_of_nil in Hnil].
  - intros e He. apply Hin. by right.
Qed.

(** A node that is entered has its edges above its mark. *)
Lemma visit_ok state n rest ms : (forall m, m ∈ ms <-> edge_to n m) -> state !! n = None -> stack_ok state ((n, false) :: rest) ->
  stack_ok (<[n := Entered]> state) (map (fun m => (m, false)) ms ++ (n, true) :: rest).
Proof.
  intros Hms Hnew [Hent Hnd Hch [_ Hcovs] Hdone Hin]. change (marks ((n, false) :: rest)) with (marks rest) in *. cbn [fst] in Hcovs.
  destruct (push_chain n ms rest) as [Hch' Hmarks]; [intros m; apply Hms|exact Hch|]. constructor; rewrite ?Hmarks.
  - intros m. rewrite elem_of_cons. destruct (decide (m = n)) as [->|Hne]; [rewrite lookup_insert_eq; naive_solver|]. rewrite lookup_insert_ne by done. rewrite Hent. naive_solver.
  - apply NoDup_cons. split; [|done]. intros Hn. apply Hent in Hn. congruence.
  - done.
  - apply push_covers; [intros v Hv; rewrite app_nil_r; by apply Hms|]. eapply covers_mono; [| |exact Hcovs].
    + intros v Hv. rewrite lookup_insert_ne; [done|congruence].
    + intros v ->%list_elem_of_singleton. right. left.
  - intros m Hm. apply Hdone. destruct (decide (m = n)) as [->|Hne]; [by rewrite lookup_insert_eq in Hm|by rewrite lookup_insert_ne in Hm].
  - intros e [(m & -> & Hm)%list_elem_of_fmap|[->|He]%elem_of_cons]%elem_of_app; cbn.
    + eapply edges_in. by apply Hms.
    + apply (Hin (n, false)). left.
    + apply Hin. by right.
Qed.

(** An edge to an entered node closes a cycle. *)
Lemma entered_cycle state n rest : stack_ok state ((n, false) :: rest) -> state !! n = Some Entered -> tc edge_to n n.
Proof.
  intros [Hent _ [Hch Hch'] _ _ _] Hn%Hent. change (marks ((n, false) :: rest)) with (marks rest) in *. cbn [fst] in Hch.
  destruct (head (marks rest)) as [u|] eqn:Hu; [|by destruct (marks rest); [apply not_elem_of_nil in Hn|]].
  eapply tc_rtc_l; [by eapply marks_path|]. apply tc_once. by apply Hch.
Qed.

Lemma cycle_loop_spec fuel state stack : stack_ok state stack ->
  (length stack + weight (pushes enum edges) (unvisited all (dom state)) < fuel)%nat ->
  loop_result state stack (cycle_loop enum edges fuel state stack).
Proof.
  revert state stack. induction fuel as [|fuel IH]; intros state stack Hok Hf; [lia|]. cbn [cycle_loop].
  destruct stack as [|[n []] rest]; [split_and!; [done..|by intros e ?%not_elem_of_nil]| |]; cbn [length] in Hf.
  - assert (Hn : state !! n = Some Entered) by (apply (so_entered _ _ Hok); left).
    pose proof (IH (<[n := Done]> state) rest (done_marked_ok _ _ _ Hok)) as H. unfold loop_result in *.
    rewrite dom_insert_L, (subseteq_union_1_L {[n]}) in H by (apply singleton_subseteq_l, elem_of_dom; by eexists).
    destruct (cycle_loop _ _ _ _ _) as [[state'|]|]; [|apply H; lia|apply H; lia].
    destruct H as (Hok' & Hd & Hs); [lia|]. split_and!; [done| |].
    + intros m Hm. apply Hd. destruct (decide (m = n)) as [->|]; [apply lookup_insert_eq|by rewrite lookup_insert_ne].
    + intros e [->|He]%elem_of_cons; [apply Hd, lookup_insert_eq|by apply Hs].
  - destruct (state !! n) as [[]|] eqn:Hn.
    + exists n. by eapply entered_cycle.
    + assert (Hok' : stack_ok state rest).
      { destruct Hok as [Hent Hnd Hch [_ Hcovs] Hdone Hin]. constructor; try done; [apply Hch| |intros e He; apply Hin; by right].
        eapply covers_mono; [done| |exact Hcovs]. intros v ->%list_elem_of_singleton. by left. }
      pose proof (IH state rest Hok' ltac:(lia)) as H. unfold loop_result in *. destruct (cycle_loop _ _ _ _ _) as [[state'|]|]; [|done..].
      destruct H as (H1 & H2 & H3). split_and!; [done..|]. intros e [->|He]%elem_of_cons; [by apply H2|by apply H3].
    + assert (Hall : n ∈ all) by (apply (so_all _ _ Hok (n, false)); left).
      rewrite <- map_rev. pose proof (weight_visit (fun _ => false) (pushes enum edges) all (dom state) n Hall ltac:(by apply not_elem_of_dom)) as Hw.
      assert (Hok' : stack_ok (<[n := Entered]> state) (map (fun m => (m, false)) (rev (enum (edges_of edges n))) ++ (n, true) :: rest)).
      { apply visit_ok; [|done|done]. intros m. rewrite list_elem_of_In, <- in_rev, <- list_elem_of_In. apply enum_spec. }
      pose proof (IH _ _ Hok') as H. rewrite dom_insert_L, length_app, length_map, length_rev in H. cbn [length] in H. unfold pushes in Hw at 2. cbn [length] in Hw.
      unfold loop_result in *. destruct (cycle_loop _ _ _ _ _) as [[state'|]|]; [|apply H; lia|apply H; lia].
      destruct H as (H1 & H2 & H3); [lia|]. split_and!; [done| |].
      * intros m Hm. apply H2. rewrite lookup_insert_ne; [done|congruence].
      * intros e [->|He]%elem_of_cons; [apply (H3 (n, true))|apply H3]; apply elem_of_app; right; [left|by right].
Qed.

Lemma check_roots_spec fuel state roots : stack_ok state [] -> (forall r, r ∈ roots -> r ∈ all) -> (S (weight (pushes enum edges) all) < fuel)%nat ->
  match check_roots enum edges fuel state roots with
  | Ok _ => forall r, r ∈ roots -> Acc (fun y x => edge_to x y) r
  | Err e => e = LocalCycle /\ exists n, tc edge_to n n
  end.
Proof.
  intros Hok Hroots Hf. revert state Hok. induction roots as [|root roots IH]; intros state Hok; cbn [check_roots]; [by intros r ?%not_elem_of_nil|].
  assert (Hroots' : forall r, r ∈ roots -> r ∈ all) by (intros; apply Hroots; by right).
  destruct (bool_decide_reflect (state !! root = Some Done)) as [Hd|Hd].
  - specialize (IH Hroots' state Hok). destruct (check_roots _ _ _ _ _); [|done]. intros x [->|Hx]%elem_of_cons; [by apply (so_done _ _ Hok)|by apply IH].
  - assert (Hok1 : stack_ok state [(root, false)]).
    { destruct Hok as [Hent Hnd Hch _ Hdone _]. constructor; try done. intros e ->%list_elem_of_singleton. apply Hroots. left. }
    pose proof (cycle_loop_spec fuel state [(root, false)] Hok1) as H. pose proof (weight_unvisited (pushes enum edges) all (dom state)).
    specialize (H ltac:(cbn [length]; lia)). destruct (cycle_loop _ _ _ _ _) as [[state'|]|]; [|by split|done].
    destruct H as (Hok' & _ & Hs). specialize (IH Hroots' state' Hok'). destruct (check_roots _ _ _ _ _); [|done].
    intros x [->|Hx]%elem_of_cons; [apply (so_done _ _ Hok'), (Hs (root, false)); left|by apply IH].
Qed.
End cycles.

(** Strictly increasing. *)
Definition increasing (l : list string) : Prop := StronglySorted (fun a b => String.le a b /\ a <> b) l.

Lemma uniquely_sorted_spec l : uniquely_sorted l = true <-> increasing l.
Proof.
  unfold uniquely_sorted, increasing. rewrite andb_true_iff, !bool_decide_eq_true. split.
  - intros [Hs Hnd]. pose proof (StronglySorted_merge_sort String.le l) as H. rewrite Hs in H. clear Hs.
    induction H as [|a l H IH Ha]; [constructor|]. apply NoDup_cons in Hnd as [Hn Hnd]. constructor; [by apply IH|].
    rewrite Forall_forall in *. intros x Hx. split; [by apply Ha|by intros ->].
  - intros H. assert (Hs : StronglySorted String.le l) by (induction H; constructor; [done|]; eapply Forall_impl; [done|by intros ? [? _]]).
    split.
    + apply (StronglySorted_unique String.le); [apply StronglySorted_merge_sort; apply _|done|apply merge_sort_Permutation].
    + clear Hs. induction H as [|a l H IH Ha]; constructor; [|done]. intros Hin. rewrite Forall_forall in Ha. by destruct (Ha a Hin).
Qed.

(** A node of the fragment refers to another, in its inputs or metadata. *)
Definition refers (nodes : list LocalNode) (a b : string) : Prop := exists n, n ∈ nodes /\ local_id n = a /\ b ∈ local_refs n.

Lemma local_edges_spec nodes a b : NoDup (map local_id nodes) -> edge_to (local_edges nodes) a b <-> refers nodes a b.
Proof.
  intros Hnd. unfold edge_to, edges_of, local_edges, refers.
  assert (Hl : forall s, (list_to_map (map (fun n => (local_id n, list_to_set (local_refs n))) nodes) : gmap string (gset string)) !! a = Some s
    <-> exists n, n ∈ nodes /\ local_id n = a /\ s = list_to_set (local_refs n)).
  { intros s. rewrite <- elem_of_list_to_map.
    - rewrite list_elem_of_fmap. split; [intros (n & [= -> ->] & Hn); by exists n|intros (n & Hn & <- & ->); by exists n].
    - by rewrite <- list_fmap_compose. }
  destruct (list_to_map _ !! a) as [s|] eqn:E; cbn [from_option id].
  - destruct (proj1 (Hl s) eq_refl) as (n & Hn & Ha & ->). rewrite elem_of_list_to_set. split; [intros Hb; by exists n|].
    intros (n' & Hn' & Ha' & Hb). assert (n' = n) as <-; [|done].
    apply list_elem_of_lookup in Hn as [i Hi]. apply list_elem_of_lookup in Hn' as [j Hj].
    assert (i = j) as -> by (apply (NoDup_lookup _ i j a Hnd); rewrite list_lookup_fmap; [by rewrite Hi, <- Ha|by rewrite Hj, <- Ha']). congruence.
  - split; [set_solver|]. intros (n & Hn & Ha & _). specialize (proj2 (Hl (list_to_set (local_refs n)))). intros Hx. discriminate Hx. by exists n.
Qed.

Lemma references_declared_spec nodes : references_declared nodes = true <-> forall a b, refers nodes a b -> b ∈ map local_id nodes.
Proof.
  unfold references_declared, refers. rewrite List.forallb_forall. setoid_rewrite List.forallb_forall. setoid_rewrite <- list_elem_of_In. setoid_rewrite bool_decide_eq_true. split.
  - intros H a b (n & Hn & _ & Hb). by apply (H n).
  - intros H n Hn b Hb. apply (H (local_id n)). by exists n.
Qed.

Section fragments.
Variable enum : gset string -> list string.
Hypothesis enum_elements : forall u, enum u ≡ₚ base.elements u.

Lemma fragment_check (e : LocalExpansion) :
  (LocalExpansion_post_init enum e = Ok tt <->
     le_nodes e <> [] /\ (length (le_nodes e) <= RESULT_ALGEBRA_MAX_COUNT)%nat /\ increasing (map local_id (le_nodes e))
     /\ (forall a b, refers (le_nodes e) a b -> b ∈ map local_id (le_nodes e))
     /\ forall a, ~ tc (refers (le_nodes e)) a a)
  /\ (LocalExpansion_post_init enum e = Err LocalCycle -> exists a, tc (refers (le_nodes e)) a a)
  /\ LocalExpansion_post_init enum e <> Err CycleFuel.
Proof.
  unfold LocalExpansion_post_init. destruct (bool_decide_reflect (le_nodes e = [])) as [Hnil|Hnil]; cbn [orb]; [split_and!; try done; by split; [|intros [? _]]|].
  destruct (RESULT_ALGEBRA_MAX_COUNT <? length (le_nodes e))%nat eqn:Hlen; [apply Nat.ltb_lt in Hlen|apply Nat.ltb_ge in Hlen].
  { split_and!; try done. split; [done|]. intros (_ & H & _). lia. }
  destruct (uniquely_sorted _) eqn:Hs; cbn [negb].
  2: { split_and!; try done. split; [done|]. intros (_ & _ & H%uniquely_sorted_spec & _). congruence. }
  apply uniquely_sorted_spec in Hs as Hinc. unfold uniquely_sorted in Hs. apply andb_true_iff in Hs as [_ Hnd%bool_decide_eq_true].
  destruct (references_declared _) eqn:Hrefs; cbn [negb].
  2: { split_and!; try done. split; [done|]. intros (_ & _ & _ & H%references_declared_spec & _). congruence. }
  pose proof (proj1 (references_declared_spec _) Hrefs) as Hin. set (edges := local_edges (le_nodes e)). set (ids := map local_id (le_nodes e)) in *.
  assert (Hedges : forall a b, edge_to edges a b <-> refers (le_nodes e) a b) by (intros; by apply local_edges_spec).
  assert (Htc : forall a b, tc (edge_to edges) a b <-> tc (refers (le_nodes e)) a b) by (intros a b; split; apply tc_congruence with (f := id); intros; by apply Hedges).
  pose proof (check_roots_spec enum enum_elements edges ids (fun a b H => Hin a b (proj1 (Hedges a b) H)) (cycle_fuel enum edges ids) ∅ ids) as H.
  assert (Hempty : stack_ok edges ids ∅ []).
  { constructor; try done; [intros n; by rewrite lookup_empty; split; [|intros ?%not_elem_of_nil]|apply NoDup_nil_2|by intros ? ?%not_elem_of_nil]. }
  specialize (H Hempty (fun _ h => h) ltac:(unfold cycle_fuel; lia)).
  destruct (check_roots _ _ _ _ _) as [[]|err].
  - split_and!; try done. split; [|done]. intros _. split_and!; try done. intros a Ha. apply Htc in Ha as Hc.
    apply (acc_acyclic (edge_to edges) a); [|done]. apply H. assert (exists b, refers (le_nodes e) a b) as (b & n & Hn & <- & _) by (inversion Ha; eauto).
    apply list_elem_of_fmap. by exists n.
  - destruct H as [-> (n & Hn%Htc)]. split_and!; [|by exists n|done]. split; [done|]. intros (_ & _ & _ & _ & Hac). by destruct (Hac n).
Qed.

(** C14: the check of a fragment is exact and ends: a fragment of nodes is
    accepted exactly when it has nodes, within the limit, in strictly
    increasing order of their ids, that refer only to one another and, through
    inputs and metadata, in no cycle; in whatever order references are walked,
    and a refusal for a cycle means that there is one. *)
Theorem fragments_are_acyclic (e : LocalExpansion) :
  (LocalExpansion_post_init enum e = Ok tt <->
     le_nodes e <> [] /\ (length (le_nodes e) <= RESULT_ALGEBRA_MAX_COUNT)%nat /\ increasing (map local_id (le_nodes e))
     /\ (forall a b, refers (le_nodes e) a b -> b ∈ map local_id (le_nodes e))
     /\ forall a, ~ tc (refers (le_nodes e)) a a)
  /\ (LocalExpansion_post_init enum e = Err LocalCycle -> exists a, tc (refers (le_nodes e)) a a)
  /\ LocalExpansion_post_init enum e <> Err CycleFuel.
Proof. apply fragment_check. Qed.
End fragments.

(** * What admission makes *)








Section overlay.
Context (g : Graph) (parent_id : string) (call : nat).
Notation cid := (child_id parent_id call).





End overlay.

(** ** Names for outputs by position *)

Section naming.
Variable json_loads : string -> option pyval.
Variable schemas : string -> option NodeSchema.
Context (g : Graph) (parent_id : string) (call : nat).
Notation cid := (child_id parent_id call).
Notation effective_map := (list (string * NodeSchema)).








End naming.

(** ** The search for a node that waits for itself *)

Section demands.
Variable enum : gset string -> list string.
Hypothesis enum_elements : forall u, enum u ≡ₚ base.elements u.
Variables (demand : gmap string (gset string)) (parent_id : string).
Notation E := (edge_to demand).
Notation succ := (fun n => enum (edges_of demand n)).
Notation all := (base.elements (dom demand)).

(** [path] goes from the parent along demands to [n]. *)
Fixpoint leads (p : string) (path : list string) (n : string) : Prop :=
  match path with
  | [] => False
  | a :: rest => a = p /\ match rest with [] => E a n | b :: _ => E a b /\ leads b rest n end
  end.

Lemma leads_tc p path n : leads p path n -> tc E p n.
Proof.
  revert p. induction path as [|a [|b rest] IH]; intros p; [done|intros [<- H]; by apply tc_once|].
  intros (<- & H & Hl). eapply tc_l; [exact H|]. by apply IH.
Qed.




End demands.

(** ** An admitted expansion, part by part *)

Section admitted.
Variable json_loads : string -> option pyval.
Variable schemas : string -> option NodeSchema.
Variable known_types : option TypeVocabulary.
Variable enum : gset string -> list string.
Hypothesis enum_elements : forall u, enum u ≡ₚ base.elements u.




Section one.
Context (g : Graph) (parent_id : string) (call : nat).
Notation cid := (child_id parent_id call).




End one.


End admitted.

(** * A level that expands keeps its tasks from waiting for themselves *)





(** ** The demands of an overlay *)




Section overlay_demands.
Context (g : Graph) (parent_id : string) (call : nat) (demands : gmap string (gset string)) (r : ExpandedReturn).
Notation cid := (child_id parent_id call).
Notation nodes := (le_nodes (er_expansion r)).
Notation ids := (child_ids parent_id call nodes).
Hypothesis Hndg : NoDup (keys g).
Hypothesis Hnd : NoDup (map local_id nodes).
Hypothesis Hfresh : forall i, i ∈ map snd ids -> i ∉ keys g.
Hypothesis Hparent : parent_id ∈ keys g.





End overlay_demands.

(** * Correctness *)

Section correctness.
Variable json_loads : string -> option pyval.
Variable schemas : string -> option NodeSchema.
Variable known_types : option TypeVocabulary.
Variable enum : gset string -> list string.
Hypothesis enum_elements : forall u, enum u ≡ₚ base.elements u.
Implicit Types (st : ExpandingLevel) (g : Graph).



(** ** Returns *)






(** ** The invariant of a level that expands *)






(** ** The books of a level against what its tasks await *)











End correctness.

(** * A level with an expanding node *)

Definition lazy_input (id : string) (type : TypeExpr) : InputSpec :=
  mkInputSpec id type false VNone "" None None "" false false false true None false false false "preserve" None None None false.

Definition demo_types (t : string) : option NodeSchema :=
  if String.eqb t "one" then Some (demo_schema "one" [] INDEX_TYPE)
  else if String.eqb t "double" then Some (demo_schema "double" [plain_input "x" INDEX_TYPE true] INDEX_TYPE)
  else if String.eqb t "perhaps" then Some (demo_schema "perhaps" [lazy_input "x" INDEX_TYPE] INDEX_TYPE)
  else None.

Definition demo_double (from : string) : AnyNode := NodeOf (mkGraphNode "double" [("x", GLink (mkLink from "out"))] [] []).
Definition demo_graph : Graph := [("seed", NodeOf (mkGraphNode "one" [] [] [])); ("loop", demo_double "seed"); ("late", demo_double "seed")].

Definition demo_local (id node_type : string) (x : InputBinding) : LocalNode := mkLocalNode id node_type [("x", x)] None None [] [].
Definition demo_return (nodes : list LocalNode) (out : OutputBinding) : ExpandedReturn := mkExpandedReturn (mkLocalExpansion nodes Inherit) [("out", out)].

(** Two nodes, the second on the first's first output. *)
Definition demo_fragment : list LocalNode :=
  [demo_local "a" "double" (InExternal "seed" (OutName "out")); demo_local "b" "double" (InLocal "a" (OutIndex 0))].

Notation demo_enum := (fun u : gset string => base.elements u).
Notation demo_resolve p r st := (resolve_expansion (fun _ => None) demo_types None demo_enum p r None ["loop"; "late"] st).

Definition demo_effective : list (string * NodeSchema) := match elaborate_graph (fun _ => None) demo_types demo_graph with Ok (e, _) => e | Err _ => [] end.
Definition demo_start : ExpandingLevel := level_starts demo_graph demo_effective [].
Definition demo_resolved (p : string) (r : ExpandedReturn) (st : ExpandingLevel) : ExpandingLevel :=
  match demo_resolve p r st with Ok st' => st' | Err _ => st end.

Lemma fragments_are_acyclic_witness : LocalExpansion_post_init demo_enum (mkLocalExpansion demo_fragment Inherit) = Ok tt
  /\ (forall a, ~ tc (refers demo_fragment) a a)
  /\ LocalExpansion_post_init demo_enum (mkLocalExpansion [demo_local "a" "double" (InLocal "b" (OutIndex 0)); demo_local "b" "double" (InLocal "a" (OutIndex 0))] Inherit)
     = Err LocalCycle.
Proof.
  split_and!; [vm_compute; reflexivity| |vm_compute; reflexivity].
  apply (fragments_are_acyclic demo_enum (fun u => reflexivity _) (mkLocalExpansion demo_fragment Inherit)). vm_compute. reflexivity.
Defined.



(** ** What admission does not see *)

(** A literal that the document's decoder reads as a link is no demand: the
    child waits for its parent, which waits for the child. *)
Definition hidden_link : ExpandedReturn :=
  demo_return [demo_local "a" "double" (LiteralInput (LitObject [("$link", LitObject [("node", LitStr "loop"); ("output", LitStr "out")])]))] (OutLocal "a" (OutName "out")).

Lemma hidden_link_deadlocks : make_expansion demo_enum hidden_link = Ok hidden_link
  /\ exists st, demo_resolve "loop" hidden_link demo_start = Ok st /\ waits st "loop" "loop.0.0.a" /\ waits st "loop.0.0.a" "loop".
Proof.
  split; [vm_compute; reflexivity|]. exists (demo_resolved "loop" hidden_link demo_start). split_and!; [vm_compute; reflexivity|unfold waits; vm_compute; reflexivity..].
Qed.

(** A child's lazy input is no demand of a later expansion: a node may return
    the output of a child that may still ask for that node, and both wait. *)
Definition lazy_child : ExpandedReturn := demo_return [demo_local "c" "perhaps" (InExternal "late" (OutName "out"))] (OutLocal "c" (OutName "out")).
Definition late_return : ExpandedReturn :=
  demo_return [demo_local "d" "double" (InExternal "seed" (OutName "out"))] (OutExternal "loop.0.0.c" (OutName "out")).

Lemma lazy_demand_is_missed : exists st, star (expands (fun _ => None) demo_types None demo_enum None ["loop"; "late"]) demo_start st
  /\ waits st "late" "loop.0.0.c" /\ waits st "loop.0.0.c" "late" /\ late_demand demo_graph st "loop.0.0.c" "late".
Proof.
  exists (demo_resolved "late" late_return (demo_resolved "loop" lazy_child demo_start)).
  assert (Hlazy : late_demand demo_graph (demo_resolved "late" late_return (demo_resolved "loop" lazy_child demo_start)) "loop.0.0.c" "late").
  { split_and!; [|vm_compute; reflexivity|vm_compute; reflexivity]. apply dict_get_None. vm_compute. reflexivity. }
  split_and!; [|unfold waits; vm_compute; reflexivity|unfold waits; vm_compute; reflexivity|exact Hlazy].
  eapply star_step; [|apply star_one].
  - exists "loop", lazy_child. split_and!; vm_compute; reflexivity.
  - exists "late", late_return. split_and!; vm_compute; reflexivity.
Qed.
